(* ===== verification/_CoqProject ===== *)
-Q . S2P
Prelude.v
SessionState.v
KeyBuilder.v
StoreSpec.v
RelayCommit.v
Concrete.v
PebbleModel.v
PebbleQueue.v
PebbleSMST.v
PebbleStore.v
PebbleStoreRefines.v
PebbleRelayCommit.v
RedisModel.v
RedisSessionStore.v
RedisStoreRefines.v
RedisRelayCommit.v
SessionLifecycle.v
LifecycleSafety.v
SessionCoordinator.v
CoordinatorBooks.v
LifecycleExamples.v
BlockLoop.v
ChargeLedger.v
KvStore.v
KvPebble.v
KvPebbleRefines.v
PebbleBroker.v
PebbleQueueTrace.v
PebbleCharges.v
GoFloat.v
RelayMeter.v
MeterBudget.v
MeterLaws.v
MinedRelay.v
RedisTime.v
LeaderElection.v
LeaseStore.v
SupplierClaimer.v
ClaimerSystem.v
ClaimerLeases.v
ClaimerControl.v
ClaimerSafety.v
BatchingPublisher.v
BatchingQueue.v
BatchingSafety.v
RebroadcastStore.v
RebroadcastRefines.v
TxClient.v
InclusionReconciler.v
InclusionSafety.v
InclusionBounds.v
InclusionClaims.v
TxSafety.v
InclusionExamples.v
ClaimPages.v
Program.v
LifecycleCallback.v
ClaimCycle.v
ClaimCycleSafety.v
ProofCycle.v
ProofCycleSafety.v
ProofSkips.v
CycleExamples.v
FaultMonad.v
SmstStore.v
SmstManager.v
RelayBatch.v
SmstLaws.v
SmstSafety.v
IngestSafety.v
IngestExamples.v
ColdTree.v
ColdSafety.v
EndpointPool.v
EndpointSafety.v
EndpointReports.v
RebuildAdmission.v
RebuildSafety.v
RelayValidator.v
StreamConsumer.v
