(* ===== verification/Prelude.v ===== *)
(** * Pocket RelayMiner: a verification development

    The program. A relayer serves relays of an application's session and charges
    them against the application's stake; a miner takes the served relays from a
    queue, counts each once into its session, and carries the session through
    its life on the chain: claim, proof, settlement. The two run as one
    standalone process over an embedded store (Pebble), or as a fleet of
    replicas over Redis. Relays go from the relay meter's admission through a
    publisher into a supplier's stream, from the stream through the relay
    committer into the session store, and the lifecycle manager and the session
    coordinator move the stored session on as blocks arrive. In a fleet, leases
    share the suppliers out over the miners and a lock elects one leader.

    ** The files and the code they model

    Names of definitions are the source's; each section says which method it is.

    - Prelude: Go results, round trips that fail before or after they took
      effect, 64-bit integers with their wrap-around, decimal strings, the
      shared tactics and the hint database [miner].
    - SessionState, StoreSpec: the states, the snapshot and the write guards of
      miner/session_store.go with their Lua twins; the interface SessionStore as
      the class [SessionStore] and its contract [SessionStoreLaws].
    - RedisModel, RedisSessionStore, RedisStoreRefines: Redis as commands with
      laws, with a clock under which keys expire ([RedisClock], on which
      RedisRelayCommit and RebroadcastStore are proved) and the numbers of its
      Lua ([LuaNumbers]); every operation and script of RedisSessionStore; the
      contract.
    - PebbleModel, PebbleStore, PebbleStoreRefines, PebbleSMST: Pebble as
      operations with laws, its key bounds and value encodings
      (storage/kv/pebble.go); pebbleSessionStore and pebbleDeduplicator
      (miner/pebble_backend.go); the contract; the session trees' records
      (miner/pebble_smst.go).
    - RelayCommit, RedisRelayCommit, PebbleRelayCommit: the contract of
      relayCommitter and its two implementations.
    - SessionLifecycle, LifecycleSafety, LifecycleExamples: the transitions, the
      pass over the tracked sessions, claim and proof batches and the resume of
      miner/session_lifecycle.go, over any [SessionStore]. BlockLoop: its
      coalescing block loop as two interleaved goroutines.
    - SessionCoordinator, CoordinatorBooks: miner/session_coordinator.go and the
      revenue books of miner/metrics.go.
    - PebbleQueue, PebbleBroker, PebbleQueueTrace, PebbleCharges: the standalone
      queue (transport/pebblequeue): IDs, consumer, broker, and the charges a
      publish commits.
    - ChargeLedger: transport/redis/charge_ledger.go. BatchingPublisher,
      BatchingQueue, BatchingSafety: transport/redis/batching_publisher.go, the
      fleet's publisher.
    - KvStore, KvPebble, KvPebbleRefines: the interface of storage/kv/kv.go and
      its Pebble implementation.
    - GoFloat, RelayMeter, MeterBudget, MeterLaws: relayer/relay_meter.go with
      the float64 arithmetic of its limits.
    - MinedRelay: the wire form (transport/mined_relay.pb.go), the compression
      (transport/relay_codec.go) and the queue entry (transport/redis).
    - RedisTime, LeaderElection: keys that expire; leader/leader_lock.go and
      leader/global_leader.go as a fleet of electors.
    - LeaseStore, SupplierClaimer, ClaimerSystem, ClaimerLeases, ClaimerControl,
      ClaimerSafety: miner/lease_store.go and miner/supplier_claimer.go with the
      callbacks and drains of miner/supplier_manager.go, each method a program
      of atomic actions, interleaved over the instances of a fleet.
    - KeyBuilder: transport/redis/namespace.go and the prefix rule of
      config/redis.go. Concrete: executable instances of the codecs.
    - RebroadcastStore, RebroadcastRefines: the interface RebroadcastStorage as
      the class [RebroadcastOps] with its contract, and its two implementations
      (miner/rebroadcast_store.go, miner/pebble_rebroadcast.go).
    - TxClient, TxSafety: signing, budgets, broadcast and rejections of
      tx/tx_client.go, tx_budget.go and tx_rejection.go.
    - InclusionReconciler, InclusionSafety, InclusionBounds, InclusionClaims,
      InclusionExamples: miner/inclusion_reconciler.go, a pass as events of its
      pooled groups interleaved with the lifecycle's submissions, with the
      outcome callbacks and the resubmitter of miner/supplier_manager.go.
    - ClaimPages: the paginated query of a supplier's claims (query/query.go).
    - Program: programs of calls with arbitrary answers and their reasoning
      principle. LifecycleCallback, ClaimCycle, ClaimCycleSafety, ProofCycle,
      ProofCycleSafety, ProofSkips, CycleExamples: the claim and the proof cycle
      and the terminal callbacks of miner/lifecycle_callback.go, with
      miner/cupr_guard.go, proof_requirement.go and proof_shape.go.
    - FaultMonad: a state monad whose round trips fail before or after they took
      effect, with its reasoning principle [wpm]. SmstStore, SmstManager: the
      session trees of miner/smst_manager.go over the records and the node store
      of miner/smst_store.go, smst_nodes.go, redis_mapstore.go,
      smst_node_codec.go, with the errors of miner/errors.go. RelayBatch: the
      ingestion of miner/relay_batch.go, handleRelay (miner/supplier_worker.go)
      and handleStreamMessage (miner/supplier_manager.go), as runs of events.
      SmstLaws, SmstSafety, IngestSafety, IngestExamples: the laws of the tree
      library, what every operation keeps, the theorems on runs, a tree small
      enough to run.
    - ColdTree, ColdSafety: miner/smst_cold_compaction.go and the
      proofs of miner/smst_manager.go.
    - EndpointPool, EndpointSafety, EndpointReports: the
      endpoints, selectors and circuit breaker of pool/, the active health check
      (relayer/healthcheck.go) and the retry loop of relayer/proxy.go, as programs
      of atomic actions that run to their end or interleave.
    - StreamConsumer: the reads, reclaims, own pending entries and reaping of
      transport/redis/consumer.go as programs of calls with arbitrary answers.
    - RelayValidator: relayer/validator.go and session_height_bounds.go as a
      program of calls with arbitrary answers.
    - RebuildAdmission, RebuildSafety: the memory admission of
      rebuilt trees and the pause of ingestion (miner/smst_rebuild_admission.go,
      ingestion_memory_brake.go), every block under the mutex one event.

    ** What the theorems show

    - Money. The coordinator's books agree with the stored session however many
      observers see its claim, handlers one at a time and their reads answered
      (CoordinatorBooks); a relay is counted once however often its batch is
      retried within the dedup window (RelayCommit and its instances); the
      meter never admits past the budget (MeterBudget); charges are conserved
      from serving to the counter (ChargeLedger, PebbleCharges, BatchingSafety).
    - No relay lost. The standalone queue keeps and delivers every relay, those
      a failed trim forgot from the next restart on (PebbleQueueTrace); the stream consumer delivers every entry it reads and
      deletes only those that do not parse (StreamConsumer); the batching publisher keeps every accepted relay in
      exactly one place and in order (BatchingSafety). A relay the miner
      acknowledges with its batch is under the stored roots of its session, in
      the tree a claim is made of and in the tree a restart resumes, whatever
      fails or panics in between, unless the manager gives the session up; one
      it acknowledges alone is in the resident tree, and under a stored root
      from the next checkpoint on (IngestSafety); a compaction keeps the claimed tree,
      and proofs are made on the claimed root only (ColdSafety).
    - One writer. The leases of a supplier never run together, and two instances
      write for it, or lead, only when one has let its term run out; for the
      suppliers, when the operations of an instance do not overlap
      (ClaimerSafety, LeaderElection).
    - Contracts. Both session stores, both committers, both lease stores, both
      locks and kv.Pebble keep the contract their clients are proved against.
    - Lifecycle. A claim window is not missed while blocks arrive in it; a state
      is persisted before it is acted on; what is terminal stays terminal; a
      restart never rewinds what was sent (LifecycleSafety).
    - Cycles. Whatever the chain, the node, the trees and the stores answer, a
      session is reported claimed or proved only with a transaction the node
      accepted that carries its own message, goes without a proof only when the
      chain asks for none, and each has one of the fates the theorems list, the
      losses told to the coordinator among them (ClaimCycleSafety, ProofSkips).
    - Inclusion. What was sent and is not confirmed stays on record until the
      chain's answer settles it or its group expires, is resent only inside its window and within its
      cap, with the bytes already signed while they live (InclusionClaims,
      TxSafety); a claim found on chain restores its session when its entry says
      how.
    - Backends. A selector finds an endpoint when one can serve, a retry goes to
      another endpoint than the last, and what is reported of an endpoint's
      health is right one call after another and, interleaved, reports each
      outage once (EndpointSafety, EndpointReports).
    - Admission. An accepted relay is genuine and not late, and before its signature is checked
      the chain is read only at plausible heights (RelayValidator); one tree
      loads at a time and no proof is given up for memory (RebuildSafety).
    - Encodings. Keys, IDs, entries and wire forms round trip and do not
      collide; chunks and limits stay within their bounds.

    ** Assumptions, bounds and fuel

    Redis, Pebble, the chain's window arithmetic, protobuf of the snapshot, S2,
    zstd, the smt tree library and JSON are parameters with laws that state their documented behaviour;
    each has a concrete instance on which the witnesses run. A call can fail
    before or after it took effect ([Fault]); a Lua script, a MULTI/EXEC and a
    block under a mutex are one step. Recursion that is not structural takes
    fuel: Unmarshal has the input's length (every field consumes a byte, and it
    answers every input), a varint ten bytes, warm-up the number of its pairs,
    getOrCreateSessionMeter two rounds and the claim retry loop its attempts and
    messages (both proved enough); the flush wait and the
    block loop are bounded by theorems of their own. Machine integers wrap at
    their width; where a theorem needs them not to, it says so. In ClaimerSystem
    an instance runs up to a given number of operations at once, with its drains
    and the other instances in any interleaving. The exclusion of leases holds
    for any number; that an instance with a consume loop has the lease is shown
    with one at a time, a condition on the schedule of its loops, which are
    goroutines, and ClaimerSafety shows a run with two at once that breaks it.
    The handlers of the coordinator run one at a time and, where they book, with
    every round trip answered; LifecycleExamples has a failed read that leaves a
    failure counted. Keys of Redis expire where a theorem depends on it
    ([TimedRedis] is the instance: the relay commit and the rebroadcast store);
    the TTL of the session hashes does not, and a Lua number holds integers
    exactly up to 2^53. zstd decodes what it encoded within the size the
    decoder accepts, a gibibyte. A trim of the standalone queue can fail after
    it forgot its IDs ([lost] of PebbleQueueTrace); a commit of its broker that
    reports an error wrote nothing. [sw_lost] of
    SmstManager is a ghost set of the sessions the code gives up (deleted,
    purged, found corrupt when sealed or leaving, resumed without a root that
    could not be read); IngestExamples runs the last one. A session's trees are
    written by one process at a time here, which ClaimerSafety is about.

    ** Not modelled

    I/O and wiring: the HTTP, gRPC and WebSocket servers (relayer/proxy.go,
    websocket.go), the chain connections of tx, query and client, key files and ring
    signatures, the command line, observability and logging, opening and syncing
    Pebble. Metrics are modelled only where they are the program's books.
    Of the trees: the expiry of their records, the warm-up and the migration
    between stores. Of the stream consumer: the acknowledgement, release and trim
    of entries and the byte budget of its channel. Not yet: the submission
    tracker and the query caches. Of the relay proxy only the validation and the retry loop are modelled; parsing URLs is the standard library's.
*)

From Stdlib Require Import Ascii String.
From stdpp Require Export base gmap sets list strings.
From Stdlib Require Export ZArith Lia.
From Stdlib Require Import DecimalString DecimalPos DecimalZ.

Declare Scope go_scope.
Delimit Scope go_scope with go.

(** ** Results and errors *)

(** A Go function that returns [(T, error)]. *)
Inductive result (A E : Type) :=
| Ok (a : A)
| Err (e : E).
Arguments Ok {A E} a.
Arguments Err {A E} e.

#[export] Instance result_eq_dec {A E} `{EqDecision A, EqDecision E} : EqDecision (result A E).
Proof. solve_decision. Defined.

Definition is_ok {A E} (r : result A E) : bool :=
  match r with Ok _ => true | Err _ => false end.

Definition result_bind {A B E} (r : result A E) (k : A -> result B E) : result B E :=
  match r with Ok a => k a | Err e => Err e end.

Notation "'try' x <- e ; k" := (result_bind e (fun x => k))
  (at level 60, x pattern, e at next level, right associativity) : go_scope.

(** ** Round trips to a store that can fail

    A command sent to a remote store either gets its answer, or is refused
    before it runs because the store is full, or its answer is lost; in the
    last case the caller cannot tell whether the command ran. *)

Inductive Fault :=
| FNone
| FOOM
| FLost (ran : bool).

Inductive IoErr :=
| IoOOM
| IoLost.

#[export] Instance Fault_eq_dec : EqDecision Fault.
Proof. solve_decision. Defined.
#[export] Instance IoErr_eq_dec : EqDecision IoErr.
Proof. solve_decision. Defined.

Definition round_trip {S A} (f : Fault) (act : S -> S * A) (s : S) : S * result A IoErr :=
  match f with
  | FNone => let '(s', a) := act s in (s', Ok a)
  | FOOM => (s, Err IoOOM)
  | FLost true => (fst (act s), Err IoLost)
  | FLost false => (s, Err IoLost)
  end.

(** A read changes nothing, so a lost answer loses nothing. *)
Definition read_trip {A} (f : Fault) (a : A) : result A IoErr :=
  match f with
  | FNone => Ok a
  | FOOM => Err IoOOM
  | FLost _ => Err IoLost
  end.

Lemma round_trip_ok {S A} (act : S -> S * A) (s s' : S) (f : Fault) (a : A) :
  round_trip f act s = (s', Ok a) -> act s = (s', a).
Proof. destruct f as [| |[]]; simpl; destruct (act s); congruence. Qed.

Lemma round_trip_state {S A} (act : S -> S * A) (s : S) (f : Fault) :
  fst (round_trip f act s) = s \/ fst (round_trip f act s) = fst (act s).
Proof. destruct f as [| |[]]; simpl; destruct (act s); auto. Qed.

(** ** Machine integers *)

Local Open Scope Z_scope.

Definition int64_min : Z := - 2 ^ 63.
Definition int64_max : Z := 2 ^ 63 - 1.
Definition uint64_max : Z := 2 ^ 64 - 1.

Definition in_int64 (z : Z) : Prop := int64_min <= z <= int64_max.
Definition in_uint64 (z : Z) : Prop := 0 <= z <= uint64_max.

(** What a Go int64 or uint64 holds after an arithmetic operation. *)
Definition wrap64 (z : Z) : Z := (z + 2 ^ 63) mod 2 ^ 64 - 2 ^ 63.
Definition wrapu64 (z : Z) : Z := z mod 2 ^ 64.

Lemma wrap64_range z : in_int64 (wrap64 z).
Proof.
  unfold in_int64, int64_min, int64_max, wrap64.
  pose proof (Z.mod_pos_bound (z + 2 ^ 63) (2 ^ 64)). lia.
Qed.

Lemma wrapu64_range z : in_uint64 (wrapu64 z).
Proof.
  unfold in_uint64, uint64_max, wrapu64.
  pose proof (Z.mod_pos_bound z (2 ^ 64)). lia.
Qed.

Lemma wrap64_id z : in_int64 z -> wrap64 z = z.
Proof.
  unfold in_int64, int64_min, int64_max, wrap64. intros.
  rewrite Z.mod_small; lia.
Qed.

Lemma wrapu64_id z : in_uint64 z -> wrapu64 z = z.
Proof. unfold in_uint64, uint64_max, wrapu64. intros. apply Z.mod_small; lia. Qed.

(** ** strconv: decimal text of the integers the stores keep *)

Definition format_int (z : Z) : string := NilZero.string_of_int (Z.to_int z).

(** [strconv.ParseInt(s, 10, 64)]: an optional sign and at least one digit,
    refused when the value does not fit. *)
Definition parse_dec (s : string) : option Z :=
  match s with
  | String "+"%char s' => Z.of_uint <$> NilZero.uint_of_string s'
  | _ => Z.of_int <$> NilZero.int_of_string s
  end.

Definition ParseInt (s : string) : option Z :=
  match parse_dec s with
  | Some z => if decide (int64_min <= z <= int64_max) then Some z else None
  | None => None
  end.

(** [strconv.ParseUint(s, 10, 64)] takes no sign. *)
Definition ParseUint (s : string) : option Z :=
  match NilZero.uint_of_string s with
  | Some d => let z := Z.of_uint d in
              if decide (0 <= z <= uint64_max) then Some z else None
  | None => None
  end.

Lemma to_int_nonnil z : Z.to_int z <> Decimal.Pos Decimal.Nil /\ Z.to_int z <> Decimal.Neg Decimal.Nil.
Proof.
  destruct z as [|p|p]; simpl; split; try congruence;
    pose proof (Unsigned.to_uint_nonnil p); congruence.
Qed.

Lemma parse_dec_format z : parse_dec (format_int z) = Some z.
Proof.
  destruct (to_int_nonnil z) as [Hp Hn].
  assert (Z.of_int <$> NilZero.int_of_string (format_int z) = Some z) as Hz.
  { unfold format_int. rewrite NilZero.isi by done. simpl. by rewrite of_to. }
  unfold parse_dec. destruct (format_int z) as [|c s] eqn:Hs; [done|].
  assert (c <> "+"%char) as Hc.
  { intros ->. unfold format_int in Hs. unfold Z.to_int in Hs.
    destruct z as [|p|p]; simpl in Hs; [congruence| |congruence].
    destruct (Pos.to_uint p); simpl in Hs; congruence. }
  by destruct c as [[] [] [] [] [] [] [] []].
Qed.

Lemma ParseInt_format z : in_int64 z -> ParseInt (format_int z) = Some z.
Proof.
  intros Hz. unfold ParseInt. rewrite parse_dec_format.
  by rewrite decide_True.
Qed.

Lemma ParseUint_format z : in_uint64 z -> ParseUint (format_int z) = Some z.
Proof.
  intros [Hlo Hhi]. unfold ParseUint, format_int.
  destruct z as [|p|p]; [done| |lia].
  change (NilZero.string_of_int (Z.to_int (Z.pos p)))
    with (NilZero.string_of_uint (Pos.to_uint p)).
  rewrite NilZero.usu by apply Unsigned.to_uint_nonnil.
  replace (Z.of_uint (Pos.to_uint p)) with (Z.pos p).
  - by rewrite decide_True.
  - pose proof (of_to (Z.pos p)) as H. simpl in H. done.
Qed.

Lemma ParseInt_range v n : ParseInt v = Some n -> in_int64 n.
Proof. unfold ParseInt. destruct (parse_dec v); [|done]. case_decide; [|done]. by intros [= <-]. Qed.

Lemma ParseUint_range v n : ParseUint v = Some n -> in_uint64 n.
Proof. unfold ParseUint. destruct (NilZero.uint_of_string v); [|done]. simpl. case_decide; [|done]. by intros [= <-]. Qed.

Lemma format_int_inj a b : format_int a = format_int b -> a = b.
Proof.
  intros H. apply (f_equal parse_dec) in H.
  rewrite !parse_dec_format in H. congruence.
Qed.

Lemma format_int_nonempty z : format_int z <> "".
Proof. intros H. pose proof (parse_dec_format z) as Hp. by rewrite H in Hp. Qed.

(** ** Strings as the source cuts and joins them *)

Fixpoint has_char (c : ascii) (s : string) : bool :=
  match s with
  | EmptyString => false
  | String a s' => Ascii.eqb a c || has_char c s'
  end.

Lemma str_length_app a b : String.length (a +:+ b) = (String.length a + String.length b)%nat.
Proof. induction a as [|c a IH]; simpl; [done|]. by rewrite IH. Qed.

Lemma str_app_assoc a b c : a +:+ (b +:+ c) = (a +:+ b) +:+ c.
Proof. induction a as [|x a IH]; [done|]. exact (f_equal (String x) IH). Qed.

(** [strings.Cut(s, sep)] for a one-byte separator. *)
Fixpoint str_cut (c : ascii) (s : string) : option (string * string) :=
  match s with
  | EmptyString => None
  | String a s' =>
      if Ascii.eqb a c then Some (EmptyString, s')
      else match str_cut c s' with
           | Some (l, r) => Some (String a l, r)
           | None => None
           end
  end.

Lemma str_cut_app c a b :
  has_char c a = false -> str_cut c (a +:+ String c b) = Some (a, b).
Proof.
  induction a as [|x a IH]; simpl; intros H.
  - by rewrite Ascii.eqb_refl.
  - apply orb_false_iff in H as [Hx Ha]. rewrite Hx. by rewrite (IH Ha).
Qed.

Lemma str_cut_sound c s a b :
  str_cut c s = Some (a, b) -> s = a +:+ String c b /\ has_char c a = false.
Proof.
  revert a b. induction s as [|x s IH]; simpl; intros a b H; [done|].
  destruct (Ascii.eqb x c) eqn:Hx.
  - apply Ascii.eqb_eq in Hx. simplify_eq. done.
  - destruct (str_cut c s) as [[l r]|]; [|done]. simplify_eq.
    destruct (IH l b eq_refl) as [-> Hl]. simpl. by rewrite Hx, Hl.
Qed.

(** Two joins on a separator neither left part contains agree part by part. *)
Lemma str_join_inj c a1 a2 b1 b2 :
  has_char c a1 = false -> has_char c a2 = false ->
  a1 +:+ String c b1 = a2 +:+ String c b2 -> a1 = a2 /\ b1 = b2.
Proof.
  intros H1 H2 H. apply (f_equal (str_cut c)) in H.
  rewrite !str_cut_app in H by done. by simplify_eq.
Qed.

(** Text that survives a JSON string: a byte above 127 that is not part of a
    UTF-8 sequence is replaced when it is marshalled. *)
Fixpoint text_okb (s : string) : bool :=
  match s with
  | EmptyString => true
  | String c s' => (Ascii.N_of_ascii c <? 128)%N && text_okb s'
  end.
Definition text_ok (s : string) : Prop := text_okb s = true.

(** ** Sums over lists *)

Lemma sum_list_with_insert {A} (f : A -> nat) l i x y : l !! i = Some x -> (sum_list_with f (<[i := y]> l) + f x = sum_list_with f l + f y)%nat.
Proof. revert i. induction l as [|z l IH]; intros [|i] H; cbn in *; simplify_eq; [lia|]. specialize (IH i H). unfold insert in *. lia. Qed.

(** ** Instants *)

(** An instant is the nanoseconds since Go's zero time, so [t = 0] is
    [t.IsZero()]. RFC 3339 spells the years 1 to 9999. *)
Definition max_instant : Z := 315537897600 * 10 ^ 9 - 1.
Definition time_ok (t : Z) : Prop := 0 <= t <= max_instant.

(** ** Automation shared by the components *)

Create HintDb miner.
#[export] Hint Resolve wrap64_range wrapu64_range format_int_nonempty : miner.

(** Split every boolean test of the goal or of a hypothesis, keeping its
    equation, and drop the impossible branches. *)
Ltac bool_cases :=
  repeat match goal with
  | |- context [if ?b then _ else _] => destruct b eqn:?; simplify_eq/=
  | H : context [if ?b then _ else _] |- _ => destruct b eqn:?; simplify_eq/=
  end.

(** Turn boolean facts about integers into the propositions they decide. *)
Ltac bool_to_prop :=
  repeat match goal with
  | H : (_ && _)%bool = true |- _ => apply andb_true_iff in H as [? ?]
  | H : (_ || _)%bool = false |- _ => apply orb_false_iff in H as [? ?]
  | H : (_ <=? _) = true |- _ => apply Z.leb_le in H
  | H : (_ <=? _) = false |- _ => apply Z.leb_gt in H
  | H : (_ <? _) = true |- _ => apply Z.ltb_lt in H
  | H : (_ <? _) = false |- _ => apply Z.ltb_ge in H
  | H : (_ =? _) = true |- _ => apply Z.eqb_eq in H
  | H : (_ =? _) = false |- _ => apply Z.eqb_neq in H
  | H : negb _ = true |- _ => apply negb_true_iff in H
  | H : negb _ = false |- _ => apply negb_false_iff in H
  end.
