(* ===== verification/SessionState.v ===== *)
(** * Session states and snapshots (miner/session_store.go)

    The lifecycle state of a session, its predicates and their Lua twins, the
    snapshot the stores keep, the guards on a state write, and the abstract
    specification of a session store: what each operation does to one session,
    whatever store holds it. *)

From S2P Require Import Prelude.
From Stdlib Require Import Ascii String.

Local Open Scope string_scope.
Local Open Scope Z_scope.

(** ** SessionState *)

(** The string type [SessionState] with the source's constants; any other
    string a store may hold is [StOther]. *)
Inductive SessionState :=
| SessionStateActive
| SessionStateClaiming
| SessionStateClaimed
| SessionStateClaimWindowClosed
| SessionStateClaimTxError
| SessionStateClaimMissing
| SessionStateClaimSkipped
| SessionStateProving
| SessionStateProved
| SessionStateProbabilisticProved
| SessionStateProofWindowClosed
| SessionStateProofTxError
| StOther (s : string).

#[export] Instance SessionState_eq_dec : EqDecision SessionState.
Proof. solve_decision. Defined.

(** The conversion [string(state)]. *)
Definition string_of_state (st : SessionState) : string :=
  match st with
  | SessionStateActive => "active"
  | SessionStateClaiming => "claiming"
  | SessionStateClaimed => "claimed"
  | SessionStateClaimWindowClosed => "claim_window_closed"
  | SessionStateClaimTxError => "claim_tx_error"
  | SessionStateClaimMissing => "claim_missing"
  | SessionStateClaimSkipped => "claim_skipped"
  | SessionStateProving => "proving"
  | SessionStateProved => "proved"
  | SessionStateProbabilisticProved => "probabilistic_proved"
  | SessionStateProofWindowClosed => "proof_window_closed"
  | SessionStateProofTxError => "proof_tx_error"
  | StOther s => s
  end.

(** The constants of the source, in its order. *)
Definition known_states : list SessionState :=
  [ SessionStateActive; SessionStateClaiming; SessionStateClaimed;
    SessionStateClaimWindowClosed; SessionStateClaimTxError;
    SessionStateClaimMissing; SessionStateClaimSkipped; SessionStateProving;
    SessionStateProved; SessionStateProbabilisticProved;
    SessionStateProofWindowClosed; SessionStateProofTxError ].

(** The conversion [SessionState(s)]. *)
Definition state_of_string (s : string) : SessionState :=
  match List.find (fun st => String.eqb (string_of_state st) s) known_states with
  | Some st => st
  | None => StOther s
  end.

(** A state is canonical when it is the one [state_of_string] gives for its
    string: a constant is always spelled as that constant. *)
Definition canonical (st : SessionState) : bool :=
  match st with
  | StOther s => match state_of_string s with StOther _ => true | _ => false end
  | _ => true
  end.

Lemma string_of_state_of_string s : string_of_state (state_of_string s) = s.
Proof.
  unfold state_of_string.
  destruct (List.find _ known_states) as [st|] eqn:H; [|done].
  apply List.find_some in H as [_ H]. by apply String.eqb_eq in H.
Qed.

Lemma state_of_string_of_state st :
  canonical st = true -> state_of_string (string_of_state st) = st.
Proof.
  destruct st; try done. simpl. intros H.
  destruct (state_of_string s) eqn:E; try done.
  pose proof (string_of_state_of_string s) as Hs. rewrite E in Hs.
  simpl in Hs. congruence.
Qed.

Lemma canonical_of_string s : canonical (state_of_string s) = true.
Proof.
  destruct (state_of_string s) eqn:E; try done. simpl.
  pose proof (string_of_state_of_string s) as H. rewrite E in H. simpl in H.
  subst. by rewrite E.
Qed.

Lemma string_of_state_inj a b :
  canonical a = true -> canonical b = true ->
  string_of_state a = string_of_state b -> a = b.
Proof.
  intros Ha Hb H. apply (f_equal state_of_string) in H.
  by rewrite !state_of_string_of_state in H.
Qed.
#[export] Hint Resolve canonical_of_string : miner.

(** One of the source's constants. *)
Definition known (st : SessionState) : bool :=
  match st with StOther _ => false | _ => true end.

Lemma known_canonical st : known st = true -> canonical st = true.
Proof. by destruct st. Qed.

Lemma known_no_colon st : known st = true -> has_char ":" (string_of_state st) = false.
Proof. by destruct st. Qed.

Lemma known_nonempty st : known st = true -> string_of_state st <> "".
Proof. by destruct st. Qed.

Lemma known_of_string st : known st = true -> state_of_string (string_of_state st) = st.
Proof. intros. by apply state_of_string_of_state, known_canonical. Qed.
#[export] Hint Resolve known_canonical known_no_colon known_nonempty known_of_string : miner.

Definition IsTerminal (s : SessionState) : bool :=
  match s with
  | SessionStateProved
  | SessionStateProbabilisticProved
  | SessionStateClaimWindowClosed
  | SessionStateClaimTxError
  | SessionStateClaimMissing
  | SessionStateClaimSkipped
  | SessionStateProofWindowClosed
  | SessionStateProofTxError => true
  | _ => false
  end.

Definition HoldsClaimOnChain (s : SessionState) : bool :=
  match s with
  | SessionStateClaimed
  | SessionStateProving
  | SessionStateProved
  | SessionStateProbabilisticProved
  | SessionStateProofWindowClosed
  | SessionStateProofTxError => true
  | _ => false
  end.

Definition IsSuccess (s : SessionState) : bool :=
  match s with
  | SessionStateProved | SessionStateProbabilisticProved => true
  | _ => false
  end.

Definition IsFailure (s : SessionState) : bool :=
  match s with
  | SessionStateClaimWindowClosed | SessionStateClaimTxError
  | SessionStateClaimMissing
  | SessionStateProofWindowClosed | SessionStateProofTxError => true
  | _ => false
  end.

(** *** The Lua twins, over the strings a script reads *)

Definition lua_is_terminal (state : string) : bool :=
  String.eqb state "proved" || String.eqb state "probabilistic_proved"
  || String.eqb state "claim_window_closed" || String.eqb state "claim_tx_error"
  || String.eqb state "claim_missing"
  || String.eqb state "proof_window_closed" || String.eqb state "proof_tx_error"
  || String.eqb state "claim_skipped".

Definition lua_holds_claim_on_chain (state : string) : bool :=
  String.eqb state "claimed" || String.eqb state "proving" || String.eqb state "proved"
  || String.eqb state "probabilistic_proved"
  || String.eqb state "proof_window_closed" || String.eqb state "proof_tx_error".

Definition lua_can_reactivate_proved (state proof_tx_hash : string) : bool :=
  if String.eqb state "claimed" || String.eqb state "proving"
     || String.eqb state "proof_tx_error" then true
  else String.eqb state "proof_window_closed" && negb (String.eqb proof_tx_hash "").

Definition lua_can_reactivate_claimed (old_state : string) : bool :=
  negb (negb (String.eqb old_state "active") && negb (String.eqb old_state "claiming")
        && negb (String.eqb old_state "claim_window_closed")
        && negb (String.eqb old_state "claim_tx_error")
        && negb (String.eqb old_state "claim_missing")).

(** A boolean on strings that is a chain of comparisons with constants agrees
    with the match on states. *)
Ltac lua_twin st :=
  destruct st as [| | | | | | | | | | | |s]; try reflexivity; simpl;
  let E := fresh in intros E;
  repeat match goal with
  | |- context [String.eqb s ?c] =>
      let H := fresh in destruct (String.eqb s c) eqn:H;
      [apply String.eqb_eq in H; subst s; vm_compute in E; discriminate|]
  end; reflexivity.

Lemma lua_is_terminal_twin st :
  canonical st = true -> lua_is_terminal (string_of_state st) = IsTerminal st.
Proof. unfold lua_is_terminal. lua_twin st. Qed.

Lemma lua_holds_claim_twin st :
  canonical st = true -> lua_holds_claim_on_chain (string_of_state st) = HoldsClaimOnChain st.
Proof. unfold lua_holds_claim_on_chain. lua_twin st. Qed.

(** ** SessionSnapshot *)

(** Byte slices and strings are both [string]. *)
Record SessionSnapshot := mkSnapshot {
  SessionID : string;
  SupplierOperatorAddress : string;
  ServiceID : string;
  ApplicationAddress : string;
  SessionStartHeight : Z;
  SessionEndHeight : Z;
  State : SessionState;
  RelayCount : Z;
  TotalComputeUnits : Z;
  ClaimedRootHash : string;
  ClaimTxHash : string;
  ProofTxHash : string;
  ClaimMissingVerdict : string;
  LastUpdatedAt : Z;
  CreatedAt : Z
}.

#[export] Instance SessionSnapshot_eq_dec : EqDecision SessionSnapshot.
Proof. solve_decision. Defined.

(** The field assignments of the source. *)
Definition set_State (st : SessionState) (s : SessionSnapshot) : SessionSnapshot :=
  mkSnapshot (SessionID s) (SupplierOperatorAddress s) (ServiceID s) (ApplicationAddress s)
    (SessionStartHeight s) (SessionEndHeight s) st (RelayCount s) (TotalComputeUnits s)
    (ClaimedRootHash s) (ClaimTxHash s) (ProofTxHash s) (ClaimMissingVerdict s)
    (LastUpdatedAt s) (CreatedAt s).

Definition set_counters (n cu : Z) (s : SessionSnapshot) : SessionSnapshot :=
  mkSnapshot (SessionID s) (SupplierOperatorAddress s) (ServiceID s) (ApplicationAddress s)
    (SessionStartHeight s) (SessionEndHeight s) (State s) n cu
    (ClaimedRootHash s) (ClaimTxHash s) (ProofTxHash s) (ClaimMissingVerdict s)
    (LastUpdatedAt s) (CreatedAt s).

Definition set_claim (root tx : string) (s : SessionSnapshot) : SessionSnapshot :=
  mkSnapshot (SessionID s) (SupplierOperatorAddress s) (ServiceID s) (ApplicationAddress s)
    (SessionStartHeight s) (SessionEndHeight s) (State s) (RelayCount s) (TotalComputeUnits s)
    root tx (ProofTxHash s) (ClaimMissingVerdict s) (LastUpdatedAt s) (CreatedAt s).

Definition set_ProofTxHash (tx : string) (s : SessionSnapshot) : SessionSnapshot :=
  mkSnapshot (SessionID s) (SupplierOperatorAddress s) (ServiceID s) (ApplicationAddress s)
    (SessionStartHeight s) (SessionEndHeight s) (State s) (RelayCount s) (TotalComputeUnits s)
    (ClaimedRootHash s) (ClaimTxHash s) tx (ClaimMissingVerdict s) (LastUpdatedAt s) (CreatedAt s).

Definition set_Verdict (v : string) (s : SessionSnapshot) : SessionSnapshot :=
  mkSnapshot (SessionID s) (SupplierOperatorAddress s) (ServiceID s) (ApplicationAddress s)
    (SessionStartHeight s) (SessionEndHeight s) (State s) (RelayCount s) (TotalComputeUnits s)
    (ClaimedRootHash s) (ClaimTxHash s) (ProofTxHash s) v (LastUpdatedAt s) (CreatedAt s).

Definition set_LastUpdatedAt (t : Z) (s : SessionSnapshot) : SessionSnapshot :=
  mkSnapshot (SessionID s) (SupplierOperatorAddress s) (ServiceID s) (ApplicationAddress s)
    (SessionStartHeight s) (SessionEndHeight s) (State s) (RelayCount s) (TotalComputeUnits s)
    (ClaimedRootHash s) (ClaimTxHash s) (ProofTxHash s) (ClaimMissingVerdict s) t (CreatedAt s).

(** [snapshot.LastUpdatedAt = now; if CreatedAt.IsZero() { CreatedAt = LastUpdatedAt }] *)
Definition touch (now : Z) (s : SessionSnapshot) : SessionSnapshot :=
  mkSnapshot (SessionID s) (SupplierOperatorAddress s) (ServiceID s) (ApplicationAddress s)
    (SessionStartHeight s) (SessionEndHeight s) (State s) (RelayCount s) (TotalComputeUnits s)
    (ClaimedRootHash s) (ClaimTxHash s) (ProofTxHash s) (ClaimMissingVerdict s) now
    (if CreatedAt s =? 0 then now else CreatedAt s).

(** What a Go value of the type can hold: the heights and the relay count are
    int64, the compute units uint64, the state a string. *)
Definition snap_ok (s : SessionSnapshot) : Prop :=
  in_int64 (SessionStartHeight s) /\ in_int64 (SessionEndHeight s) /\
  in_int64 (RelayCount s) /\ in_uint64 (TotalComputeUnits s) /\
  canonical (State s) = true.

(** A snapshot every codec of the stores carries unchanged: its strings are
    text, its instants have a four-digit year. *)
Definition text_fields (s : SessionSnapshot) : list string :=
  [ SessionID s; SupplierOperatorAddress s; ServiceID s; ApplicationAddress s;
    string_of_state (State s); ClaimTxHash s; ProofTxHash s; ClaimMissingVerdict s ].

Definition codec_ok (s : SessionSnapshot) : Prop :=
  snap_ok s /\ Forall text_ok (text_fields s) /\ time_ok (LastUpdatedAt s) /\ time_ok (CreatedAt s).

(** Two snapshots that differ at most in when they were last written: what the
    two stores agree on (one slides the instant on a write that moves nothing,
    the other does not). *)
Definition snap_equiv (a b : SessionSnapshot) : Prop :=
  set_LastUpdatedAt 0 a = set_LastUpdatedAt 0 b.

#[export] Instance snap_equiv_equivalence : Equivalence snap_equiv.
Proof. unfold snap_equiv. split; red; intros; congruence. Qed.

Lemma snap_equiv_iff a b : snap_equiv a b <-> exists t, b = set_LastUpdatedAt t a.
Proof.
  unfold snap_equiv. split; [|by intros [t ->]; destruct a].
  intros H. exists (LastUpdatedAt b).
  destruct a, b; unfold set_LastUpdatedAt in *; simpl in *.
  injection H as -> -> -> -> -> -> -> -> -> -> -> -> -> ->. reflexivity.
Qed.

Ltac snap_proper := intros a b [t ->]%snap_equiv_iff; by destruct a.

#[export] Instance State_proper : Proper (snap_equiv ==> eq) State.
Proof. snap_proper. Qed.
#[export] Instance SessionID_proper : Proper (snap_equiv ==> eq) SessionID.
Proof. snap_proper. Qed.
#[export] Instance ClaimTxHash_proper : Proper (snap_equiv ==> eq) ClaimTxHash.
Proof. snap_proper. Qed.
#[export] Instance ProofTxHash_proper : Proper (snap_equiv ==> eq) ProofTxHash.
Proof. snap_proper. Qed.
#[export] Instance SessionEndHeight_proper : Proper (snap_equiv ==> eq) SessionEndHeight.
Proof. snap_proper. Qed.
#[export] Instance set_State_proper st : Proper (snap_equiv ==> snap_equiv) (set_State st).
Proof. snap_proper. Qed.
#[export] Instance set_Verdict_proper v : Proper (snap_equiv ==> snap_equiv) (set_Verdict v).
Proof. snap_proper. Qed.

Lemma set_LastUpdatedAt_equiv t s : snap_equiv (set_LastUpdatedAt t s) s.
Proof. by destruct s. Qed.
#[export] Hint Resolve set_LastUpdatedAt_equiv : miner.

(** ** Guards on a state write *)

Inductive StoreErr :=
| ErrStoreClosed
| ErrSessionNotFound
| ErrClaimAlreadyOnChain
| ErrSessionNotDeferred
| ErrSessionTerminal
| ErrLegacyKey
| ErrWrongType
| ErrDecode
| ErrUnexpectedReply
| ErrIo (e : IoErr).

#[export] Instance StoreErr_eq_dec : EqDecision StoreErr.
Proof. solve_decision. Defined.

Definition checkStateWrite (snap : SessionSnapshot) (newState : SessionState) : option StoreErr :=
  if (bool_decide (newState = SessionStateClaimWindowClosed)
      || bool_decide (newState = SessionStateClaimTxError))
     && HoldsClaimOnChain (State snap) then Some ErrClaimAlreadyOnChain
  else if bool_decide (newState = SessionStateActive)
     && (negb (bool_decide (State snap = SessionStateClaiming))
         || negb (String.eqb (ClaimTxHash snap) "")) then Some ErrSessionNotDeferred
  else if bool_decide (newState = SessionStateClaimed)
     && (negb (String.eqb (ProofTxHash snap) "")
         || bool_decide (State snap = SessionStateProved)
         || bool_decide (State snap = SessionStateProbabilisticProved)
         || bool_decide (State snap = SessionStateProofWindowClosed)
         || bool_decide (State snap = SessionStateProofTxError)) then Some ErrSessionNotDeferred
  else None.

Definition canReactivateClaimed (state : SessionState) : bool :=
  match state with
  | SessionStateActive | SessionStateClaiming | SessionStateClaimWindowClosed
  | SessionStateClaimTxError | SessionStateClaimMissing => true
  | _ => false
  end.

Definition canReactivateProved (state : SessionState) (proofTxHash : string) : bool :=
  match state with
  | SessionStateClaimed | SessionStateProving | SessionStateProofTxError => true
  | SessionStateProofWindowClosed => negb (String.eqb proofTxHash "")
  | _ => false
  end.

Lemma lua_can_reactivate_proved_twin st tx :
  canonical st = true ->
  lua_can_reactivate_proved (string_of_state st) tx = canReactivateProved st tx.
Proof. unfold lua_can_reactivate_proved. lua_twin st. Qed.

Lemma lua_can_reactivate_claimed_twin st :
  canonical st = true ->
  lua_can_reactivate_claimed (string_of_state st) = canReactivateClaimed st.
Proof. unfold lua_can_reactivate_claimed. lua_twin st. Qed.

(** What a session was before it was flipped. [RFrom = None] is the zero
    [Reactivation]: nothing was flipped. *)
Record Reactivation := mkReactivation {
  RFrom : option SessionState;
  RVerdict : string;
  RClaimTxHash : string;
  RProofTxHash : string
}.

Definition noReactivation : Reactivation := mkReactivation None "" "" "".
