(* ===== verification/KeyBuilder.v ===== *)
(** * Redis keys (transport/redis/namespace.go, config/redis.go)

    The KeyBuilder: every key, channel and SCAN pattern of the fleet, built
    below one configurable base prefix, and the validation of that prefix. The
    theorems are the layout's promise: distinct entities never share a key, and
    two accepted base prefixes are disjoint keyspaces. *)

From S2P Require Import Prelude.
From Stdlib Require Import Ascii String DecimalString.

Local Open Scope string_scope.
Local Open Scope Z_scope.

(** ** The base prefix *)

Definition DefaultBasePrefix : string := "ha".

Definition WithDefaults (base : string) : string :=
  if String.eqb base "" then DefaultBasePrefix else base.

(** The class [[:*?\[\]]|\s] of [basePrefixRejected]; [\s] is tab, newline,
    form feed, carriage return and space. *)
Definition rejected_char (c : ascii) : bool :=
  existsb (Ascii.eqb c)
    [":"%char; "*"%char; "?"%char; "["%char; "]"%char; " "%char;
     "009"%char; "010"%char; "012"%char; "013"%char].

Fixpoint any_char (p : ascii -> bool) (s : string) : bool :=
  match s with
  | EmptyString => false
  | String a s' => p a || any_char p s'
  end.

Definition basePrefixAccepted (prefix : string) : bool :=
  negb (String.eqb prefix "") && negb (any_char rejected_char prefix).

(** [RedisNamespaceConfig.Validate]: the effective prefix is checked. *)
Definition Validate (base : string) : result unit string :=
  if basePrefixAccepted (WithDefaults base) then Ok tt
  else Err "redis.namespace.base_prefix is not a single namespace segment".

(** ** The builder *)

(** [strings.Join(l, ":")], which is what every [Sprintf] of the builder is. *)
Fixpoint kjoin (l : list string) : string :=
  match l with
  | [] => ""
  | [s] => s
  | s :: l' => s +:+ String ":" (kjoin l')
  end.

(** A KeyBuilder is its effective base prefix. *)
Definition KeyBuilder : Type := string.
Definition NewKeyBuilder (base : string) : KeyBuilder := WithDefaults base.

Definition segmentCache : string := "cache".
Definition segmentEvents : string := "events".
Definition segmentStreams : string := "relays".
Definition segmentMiner : string := "miner".
Definition segmentSupplier : string := "supplier".
Definition segmentMeter : string := "meter".
Definition segmentParams : string := "params".
Definition segmentConsumerGroup : string := "miners".

Definition CacheKey (kb : KeyBuilder) (entityType : string) (key : string) : string :=
  kjoin [kb; segmentCache; entityType; key].
Definition CacheLockKey (kb : KeyBuilder) (entityType : string) (key : string) : string :=
  kjoin [kb; segmentCache; "lock"; entityType; key].
Definition CacheKnownKey (kb : KeyBuilder) (entityType : string) : string :=
  kjoin [kb; segmentCache; "known"; entityType].
Definition EventChannel (kb : KeyBuilder) (cacheType : string) (event : string) : string :=
  kjoin [kb; segmentEvents; "cache"; cacheType; event].
Definition StreamPrefix (kb : KeyBuilder) : string :=
  kjoin [kb; segmentStreams].
Definition StreamPattern (kb : KeyBuilder) : string :=
  kjoin [kb; segmentStreams; "*"].
Definition ConsumerGroup (kb : KeyBuilder) : string := kb +:+ "-" +:+ segmentConsumerGroup.
Definition MinerSessionKey (kb : KeyBuilder) (supplier : string) (sessionID : string) : string :=
  kjoin [kb; segmentMiner; "sessions"; supplier; sessionID].
Definition SupplierKeyPrefix (kb : KeyBuilder) : string :=
  kjoin [kb; segmentSupplier].
Definition StreamKey (kb : KeyBuilder) (supplierOperatorAddress : string) : string :=
  kjoin [kb; segmentStreams; supplierOperatorAddress].
Definition SuppliersRegistryIndexKey (kb : KeyBuilder) : string :=
  kjoin [kb; "suppliers"; "index"].
Definition CachePrefix (kb : KeyBuilder) : string :=
  kjoin [kb; segmentCache].
Definition ParamsSharedAtHeightKey (kb : KeyBuilder) (height : Z) : string :=
  kjoin [kb; segmentCache; "params"; "shared"; format_int height].
Definition ParamsSharedAtHeightLockKey (kb : KeyBuilder) (height : Z) : string :=
  kjoin [kb; segmentCache; "lock"; "params"; "shared"; format_int height].
Definition ParamsSupplierKey (kb : KeyBuilder) : string :=
  kjoin [kb; segmentCache; "params"; "supplier"].
Definition ParamsSupplierLockKey (kb : KeyBuilder) : string :=
  kjoin [kb; segmentCache; "lock"; "params"; "supplier"].
Definition SessionCacheKey (kb : KeyBuilder) (appAddr : string) (serviceID : string) (height : Z) : string :=
  kjoin [kb; segmentCache; "session"; appAddr; serviceID; format_int height].
Definition MinerSessionsPrefix (kb : KeyBuilder) : string :=
  kjoin [kb; segmentMiner; "sessions"].
Definition GlobalLeaderKey (kb : KeyBuilder) : string :=
  kjoin [kb; segmentMiner; "global_leader"].
Definition ParamsProofKey (kb : KeyBuilder) : string :=
  kjoin [kb; segmentCache; "proof_params"].
Definition ParamsProofLockKey (kb : KeyBuilder) : string :=
  kjoin [kb; segmentCache; "lock"; "proof_params"].
Definition ParamsSharedCacheKey (kb : KeyBuilder) : string :=
  kjoin [kb; segmentCache; "shared_params"].
Definition ParamsSharedLockKey (kb : KeyBuilder) : string :=
  kjoin [kb; segmentCache; "lock"; "shared_params"].
Definition MeterCleanupChannel (kb : KeyBuilder) : string :=
  kjoin [kb; segmentMeter; "cleanup"].
Definition MeterActiveSessionsKey (kb : KeyBuilder) : string :=
  kjoin [kb; segmentMeter; "active_sessions"].
Definition SimulationReplayKey (kb : KeyBuilder) (sigHash : string) : string :=
  kjoin [kb; "sim"; "replay"; sigHash].
Definition BlockEventChannel (kb : KeyBuilder) : string :=
  kjoin [kb; segmentEvents; "blocks"].
Definition BlockHashAtHeightKey (kb : KeyBuilder) (height : Z) : string :=
  kjoin [kb; segmentCache; "blocks"; "hash"; format_int height].
Definition BlockLatestHeightKey (kb : KeyBuilder) : string :=
  kjoin [kb; segmentCache; "blocks"; "latest"].
Definition SMSTNodesKey (kb : KeyBuilder) (supplierAddress : string) (sessionID : string) : string :=
  kjoin [kb; "smst"; supplierAddress; sessionID; "nodes"].
Definition SMSTNodesPattern (kb : KeyBuilder) : string :=
  kjoin [kb; "smst"; "*"; "*"; "nodes"].
Definition SMSTNodesPrefix (kb : KeyBuilder) : string :=
  kjoin [kb; "smst"; ""].
Definition SMSTRootKey (kb : KeyBuilder) (supplierAddress : string) (sessionID : string) : string :=
  kjoin [kb; "smst"; supplierAddress; sessionID; "root"].
Definition SMSTStatsKey (kb : KeyBuilder) (supplierAddress : string) (sessionID : string) : string :=
  kjoin [kb; "smst"; supplierAddress; sessionID; "stats"].
Definition SMSTLiveRootKey (kb : KeyBuilder) (supplierAddress : string) (sessionID : string) : string :=
  kjoin [kb; "smst"; supplierAddress; sessionID; "live_root"].
Definition SMSTAllPattern (kb : KeyBuilder) : string :=
  kjoin [kb; "smst"; "*"].
Definition SMSTLeavesKey (kb : KeyBuilder) (supplierAddress : string) (sessionID : string) : string :=
  kjoin [kb; "smst"; supplierAddress; sessionID; "leaves"].
Definition ServiceFactorDefaultKey (kb : KeyBuilder) : string :=
  kjoin [kb; "service_factor"; "default"].
Definition ServiceFactorServiceKey (kb : KeyBuilder) (serviceID : string) : string :=
  kjoin [kb; "service_factor"; "service"; serviceID].
Definition ServiceFactorManifestKey (kb : KeyBuilder) : string :=
  kjoin [kb; "service_factor"; "manifest"].
Definition MinerClaimKey (kb : KeyBuilder) (supplier : string) : string :=
  kjoin [kb; segmentMiner; "claim"; supplier].
Definition MinerActiveSetKey (kb : KeyBuilder) : string :=
  kjoin [kb; segmentMiner; "active"].
Definition MinerInstanceKey (kb : KeyBuilder) (instanceID : string) : string :=
  kjoin [kb; segmentMiner; "instance"; instanceID].
Definition SupplierParamsInvalidateChannel (kb : KeyBuilder) : string :=
  kjoin [kb; segmentEvents; segmentCache; "invalidate"; "supplier_params"].
Definition MinerDedupPrefix (kb : KeyBuilder) : string :=
  kjoin [kb; segmentMiner; "dedup"].
Definition MinerSessionStateIndexKey (kb : KeyBuilder) (supplier : string) (state : string) : string :=
  kjoin [kb; segmentMiner; "sessions"; supplier; "state"; state].
Definition MinerSessionsIndexKey (kb : KeyBuilder) (supplier : string) : string :=
  kjoin [kb; segmentMiner; "sessions"; supplier; "index"].
Definition TxTrackKey (kb : KeyBuilder) (supplier : string) (sessionEndHeight : Z) (sessionID : string) : string :=
  kjoin [kb; "tx"; "track"; supplier; format_int sessionEndHeight; sessionID].
Definition TxTrackPattern (kb : KeyBuilder) (supplier : string) : string :=
  kjoin [kb; "tx"; "track"; supplier; "*"].
Definition TxTrackAllPattern (kb : KeyBuilder) : string :=
  kjoin [kb; "tx"; "track"; "*"].
Definition AllKeysPattern (kb : KeyBuilder) : string :=
  kjoin [kb; "*"].
Definition RebroadcastKey (kb : KeyBuilder) (phase : string) (supplier : string) (sessionEnd : Z) : string :=
  kjoin [kb; segmentMiner; "rebroadcast"; "{" +:+ phase +:+ "}"; supplier; format_int sessionEnd].
Definition RebroadcastIndexKey (kb : KeyBuilder) (phase : string) : string :=
  kjoin [kb; segmentMiner; "rebroadcast"; "{" +:+ phase +:+ "}"; "index"].
Definition MinerDedupSessionKey (kb : KeyBuilder) (sessionID : string) : string :=
  kjoin [kb; segmentMiner; "dedup"; "session"; sessionID].
Definition MeterPrefix (kb : KeyBuilder) : string :=
  kjoin [kb; segmentMeter].
Definition MeterSessionKey (kb : KeyBuilder) (sessionID : string) : string :=
  kjoin [kb; segmentMeter; sessionID].
Definition MeterMetaKey (kb : KeyBuilder) (sessionID : string) (supplierAddress : string) : string :=
  kjoin [kb; segmentMeter; sessionID; supplierAddress; "meta"].
Definition MeterConsumedKey (kb : KeyBuilder) (sessionID : string) (supplierAddress : string) : string :=
  kjoin [kb; segmentMeter; sessionID; supplierAddress; "consumed"].
Definition MeterSessionMetaPattern (kb : KeyBuilder) (sessionID : string) : string :=
  kjoin [kb; segmentMeter; sessionID; "*"; "meta"].
Definition SupplierStateKey (kb : KeyBuilder) (operatorAddress : string) : string :=
  kjoin [kb; segmentSupplier; operatorAddress].
Definition SupplierStatePattern (kb : KeyBuilder) : string :=
  kjoin [kb; segmentSupplier; "*"].
Definition SMSTSessionNodesPattern (kb : KeyBuilder) (sessionID : string) : string :=
  kjoin [kb; "smst"; "*"; sessionID; "nodes"].
Definition LegacyParamsPattern (kb : KeyBuilder) : string :=
  kjoin [kb; segmentParams; "*"].

(** [strings.TrimPrefix(s, p)]. *)
Definition TrimPrefix (p s : string) : string :=
  if String.prefix p s then String.substring (String.length p) (String.length s - String.length p) s
  else s.

Definition StreamAddress (kb : KeyBuilder) (key : string) : option string :=
  let addr := TrimPrefix (StreamPrefix kb +:+ ":") key in
  if String.eqb addr key || String.eqb addr "" then None else Some addr.

Definition SupplierStateAddress (kb : KeyBuilder) (key : string) : option string :=
  let addr := TrimPrefix (SupplierKeyPrefix kb +:+ ":") key in
  if String.eqb addr key || String.eqb addr "" || has_char ":" addr then None else Some addr.

(** ** The keys that hold data *)

(** One constructor per key family that stores something; the prefixes, the
    SCAN patterns and the pub/sub channels of the builder address no key. *)
Inductive StoredKey :=
| KCache (entity key : string)
| KCacheLock (entity key : string)
| KCacheKnown (entity : string)
| KMinerSession (supplier session : string)
| KMinerSessionState (supplier state : string)
| KMinerSessionsIndex (supplier : string)
| KStream (supplier : string)
| KSuppliersIndex
| KParamsSharedAt (height : Z)
| KParamsSharedAtLock (height : Z)
| KParamsSupplier
| KParamsSupplierLock
| KSessionCache (app service : string) (height : Z)
| KGlobalLeader
| KParamsProof
| KParamsProofLock
| KParamsShared
| KParamsSharedLock
| KMeterActive
| KSimulationReplay (sig : string)
| KBlockHash (height : Z)
| KBlockLatest
| KSMSTNodes (supplier session : string)
| KSMSTRoot (supplier session : string)
| KSMSTStats (supplier session : string)
| KSMSTLiveRoot (supplier session : string)
| KSMSTLeaves (supplier session : string)
| KServiceFactorDefault
| KServiceFactorService (service : string)
| KServiceFactorManifest
| KMinerClaim (supplier : string)
| KMinerActive
| KMinerInstance (instance : string)
| KTxTrack (supplier : string) (endHeight : Z) (session : string)
| KRebroadcast (phase supplier : string) (endHeight : Z)
| KRebroadcastIndex (phase : string)
| KMinerDedup (session : string)
| KMeterMeta (session supplier : string)
| KMeterConsumed (session supplier : string)
| KSupplierState (supplier : string).

(** The key the builder gives a family member. *)
Definition render (kb : KeyBuilder) (k : StoredKey) : string :=
  match k with
  | KCache e x => CacheKey kb e x
  | KCacheLock e x => CacheLockKey kb e x
  | KCacheKnown e => CacheKnownKey kb e
  | KMinerSession s x => MinerSessionKey kb s x
  | KMinerSessionState s x => MinerSessionStateIndexKey kb s x
  | KMinerSessionsIndex s => MinerSessionsIndexKey kb s
  | KStream s => StreamKey kb s
  | KSuppliersIndex => SuppliersRegistryIndexKey kb
  | KParamsSharedAt h => ParamsSharedAtHeightKey kb h
  | KParamsSharedAtLock h => ParamsSharedAtHeightLockKey kb h
  | KParamsSupplier => ParamsSupplierKey kb
  | KParamsSupplierLock => ParamsSupplierLockKey kb
  | KSessionCache a s h => SessionCacheKey kb a s h
  | KGlobalLeader => GlobalLeaderKey kb
  | KParamsProof => ParamsProofKey kb
  | KParamsProofLock => ParamsProofLockKey kb
  | KParamsShared => ParamsSharedCacheKey kb
  | KParamsSharedLock => ParamsSharedLockKey kb
  | KMeterActive => MeterActiveSessionsKey kb
  | KSimulationReplay h => SimulationReplayKey kb h
  | KBlockHash h => BlockHashAtHeightKey kb h
  | KBlockLatest => BlockLatestHeightKey kb
  | KSMSTNodes s x => SMSTNodesKey kb s x
  | KSMSTRoot s x => SMSTRootKey kb s x
  | KSMSTStats s x => SMSTStatsKey kb s x
  | KSMSTLiveRoot s x => SMSTLiveRootKey kb s x
  | KSMSTLeaves s x => SMSTLeavesKey kb s x
  | KServiceFactorDefault => ServiceFactorDefaultKey kb
  | KServiceFactorService s => ServiceFactorServiceKey kb s
  | KServiceFactorManifest => ServiceFactorManifestKey kb
  | KMinerClaim s => MinerClaimKey kb s
  | KMinerActive => MinerActiveSetKey kb
  | KMinerInstance i => MinerInstanceKey kb i
  | KTxTrack s h x => TxTrackKey kb s h x
  | KRebroadcast p s h => RebroadcastKey kb p s h
  | KRebroadcastIndex p => RebroadcastIndexKey kb p
  | KMinerDedup x => MinerDedupSessionKey kb x
  | KMeterMeta x s => MeterMetaKey kb x s
  | KMeterConsumed x s => MeterConsumedKey kb x s
  | KSupplierState s => SupplierStateKey kb s
  end.

(** What the callers pass: addresses, session, service and instance IDs hold
    no colon; the cache entity types are the three the caches declare; a
    session ID is a hash, never the word that names the index. *)
Definition no_colon (s : string) : Prop := has_char ":" s = false.

Definition entity_ok (e : string) : Prop := e = "application" \/ e = "service" \/ e = "account".

Definition key_ok (k : StoredKey) : Prop :=
  match k with
  | KCache e x | KCacheLock e x => entity_ok e /\ no_colon x
  | KCacheKnown e => no_colon e
  | KMinerSession s x => no_colon s /\ no_colon x /\ x <> "index"
  | KMinerSessionState s x | KSMSTNodes s x | KSMSTRoot s x | KSMSTStats s x
  | KSMSTLiveRoot s x | KSMSTLeaves s x | KMeterMeta s x | KMeterConsumed s x =>
      no_colon s /\ no_colon x
  | KMinerSessionsIndex s | KStream s | KSimulationReplay s | KServiceFactorService s
  | KMinerClaim s | KMinerInstance s | KMinerDedup s | KSupplierState s => no_colon s
  | KSessionCache a s _ => no_colon a /\ no_colon s
  | KTxTrack s _ x => no_colon s /\ no_colon x
  | KRebroadcast p s _ => no_colon p /\ no_colon s
  | KRebroadcastIndex p => no_colon p
  | _ => True
  end.

(** ** Splitting a key back into its segments *)

Fixpoint ksplit (s : string) : list string :=
  match s with
  | EmptyString => [""]
  | String c s' =>
      if Ascii.eqb c ":" then "" :: ksplit s'
      else match ksplit s' with
           | [] => [String c ""]
           | h :: t => String c h :: t
           end
  end.

Lemma ksplit_seg s : no_colon s -> ksplit s = [s].
Proof.
  unfold no_colon. induction s as [|c s IH]; simpl; intros H; [done|].
  apply orb_false_iff in H as [Hc Hs]. by rewrite Hc, IH.
Qed.

Lemma ksplit_app s t : no_colon s -> ksplit (s +:+ String ":" t) = s :: ksplit t.
Proof.
  unfold no_colon. induction s as [|c s IH]; simpl; intros H; [done|].
  apply orb_false_iff in H as [Hc Hs]. by rewrite Hc, IH.
Qed.

Lemma ksplit_kjoin l : l <> [] -> Forall no_colon l -> ksplit (kjoin l) = l.
Proof.
  induction l as [|s [|t l] IH]; intros Hl HF; [done| |].
  - inversion_clear HF. simpl. by apply ksplit_seg.
  - inversion_clear HF. change (kjoin (s :: t :: l)) with (s +:+ String ":" (kjoin (t :: l))).
    rewrite ksplit_app by done. by rewrite IH.
Qed.

Lemma no_colon_uint d : has_char ":" (NilEmpty.string_of_uint d) = false.
Proof. induction d; simpl; auto. Qed.

Lemma no_colon_format z : no_colon (format_int z).
Proof.
  unfold no_colon, format_int.
  destruct z as [|p|p]; [done| |]; cbn -[Pos.to_uint]; unfold NilZero.string_of_uint;
    destruct (Pos.to_uint p) eqn:E; try done; simpl; apply no_colon_uint.
Qed.

Lemma no_colon_app a b : no_colon a -> no_colon b -> no_colon (a +:+ b).
Proof.
  unfold no_colon. induction a as [|c a IH]; simpl; intros Ha Hb; [done|].
  apply orb_false_iff in Ha as [Hc Ha]. rewrite Hc. simpl. auto.
Qed.

Lemma entity_no_colon e : entity_ok e -> no_colon e.
Proof. by intros [->|[->| ->]]. Qed.

Lemma accepted_no_colon b : basePrefixAccepted b = true -> no_colon b.
Proof.
  unfold basePrefixAccepted. intros [_ H]%andb_true_iff. apply negb_true_iff in H.
  unfold no_colon. induction b as [|c b IH]; [done|]. cbn [any_char has_char] in *.
  apply orb_false_iff in H as [Hc Hb]. rewrite (IH Hb).
  destruct (Ascii.eqb c ":") eqn:E; [|done].
  apply Ascii.eqb_eq in E as ->. by vm_compute in Hc.
Qed.
#[export] Hint Resolve no_colon_format no_colon_app entity_no_colon accepted_no_colon : miner.
#[export] Hint Extern 1 (no_colon _) => reflexivity : miner.

(** The segments of a key below its base. *)
Definition segs (k : StoredKey) : list string :=
  match k with
  | KCache e x => [segmentCache; e; x]
  | KCacheLock e x => [segmentCache; "lock"; e; x]
  | KCacheKnown e => [segmentCache; "known"; e]
  | KMinerSession s x => [segmentMiner; "sessions"; s; x]
  | KMinerSessionState s x => [segmentMiner; "sessions"; s; "state"; x]
  | KMinerSessionsIndex s => [segmentMiner; "sessions"; s; "index"]
  | KStream s => [segmentStreams; s]
  | KSuppliersIndex => ["suppliers"; "index"]
  | KParamsSharedAt h => [segmentCache; "params"; "shared"; format_int h]
  | KParamsSharedAtLock h => [segmentCache; "lock"; "params"; "shared"; format_int h]
  | KParamsSupplier => [segmentCache; "params"; "supplier"]
  | KParamsSupplierLock => [segmentCache; "lock"; "params"; "supplier"]
  | KSessionCache a s h => [segmentCache; "session"; a; s; format_int h]
  | KGlobalLeader => [segmentMiner; "global_leader"]
  | KParamsProof => [segmentCache; "proof_params"]
  | KParamsProofLock => [segmentCache; "lock"; "proof_params"]
  | KParamsShared => [segmentCache; "shared_params"]
  | KParamsSharedLock => [segmentCache; "lock"; "shared_params"]
  | KMeterActive => [segmentMeter; "active_sessions"]
  | KSimulationReplay h => ["sim"; "replay"; h]
  | KBlockHash h => [segmentCache; "blocks"; "hash"; format_int h]
  | KBlockLatest => [segmentCache; "blocks"; "latest"]
  | KSMSTNodes s x => ["smst"; s; x; "nodes"]
  | KSMSTRoot s x => ["smst"; s; x; "root"]
  | KSMSTStats s x => ["smst"; s; x; "stats"]
  | KSMSTLiveRoot s x => ["smst"; s; x; "live_root"]
  | KSMSTLeaves s x => ["smst"; s; x; "leaves"]
  | KServiceFactorDefault => ["service_factor"; "default"]
  | KServiceFactorService s => ["service_factor"; "service"; s]
  | KServiceFactorManifest => ["service_factor"; "manifest"]
  | KMinerClaim s => [segmentMiner; "claim"; s]
  | KMinerActive => [segmentMiner; "active"]
  | KMinerInstance i => [segmentMiner; "instance"; i]
  | KTxTrack s h x => ["tx"; "track"; s; format_int h; x]
  | KRebroadcast p s h => [segmentMiner; "rebroadcast"; "{" +:+ p +:+ "}"; s; format_int h]
  | KRebroadcastIndex p => [segmentMiner; "rebroadcast"; "{" +:+ p +:+ "}"; "index"]
  | KMinerDedup x => [segmentMiner; "dedup"; "session"; x]
  | KMeterMeta x s => [segmentMeter; x; s; "meta"]
  | KMeterConsumed x s => [segmentMeter; x; s; "consumed"]
  | KSupplierState s => [segmentSupplier; s]
  end.

Lemma kjoin_cons kb l : l <> [] -> kjoin (kb :: l) = kb +:+ String ":" (kjoin l).
Proof. by destruct l. Qed.

Lemma segs_ok k : key_ok k -> segs k <> [] /\ Forall no_colon (segs k).
Proof.
  intros Hk. destruct k; simpl in *; destruct_and?;
    (split; [discriminate | repeat constructor; eauto with miner]).
Qed.

Lemma render_segs kb k : render kb k = kjoin (kb :: segs k).
Proof. by destruct k. Qed.

Lemma snoc_inj (c : string) a b : a +:+ c = b +:+ c -> a = b.
Proof.
  intros H. apply (f_equal String.length) in H as Hl.
  rewrite !str_length_app in Hl.
  revert b H Hl. induction a as [|x a IH]; destruct b as [|y b]; simpl; intros H Hl; try lia; [done|].
  injection H as -> H. f_equal. apply IH; [done|lia].
Qed.

(** The only shapes two families share are the ones [key_ok] rules out. *)
Lemma segs_inj k1 k2 : key_ok k1 -> key_ok k2 -> segs k1 = segs k2 -> k1 = k2.
Proof.
  intros H1 H2 H. destruct k1; destruct k2; try discriminate H; try reflexivity;
    simpl in H; injection H; intros; subst; try reflexivity;
    repeat match goal with
    | H : format_int _ = format_int _ |- _ => apply format_int_inj in H as ->
    | H : "" +:+ _ = "" +:+ _ |- _ => apply (snoc_inj "}") in H as ->
    end; try reflexivity; exfalso; simpl in *; unfold entity_ok in *; intuition congruence.
Qed.

(** Two keys of accepted namespaces are equal only when the namespaces and the
    entities are. *)
Lemma render_inj kb1 kb2 k1 k2 :
  no_colon kb1 -> no_colon kb2 -> key_ok k1 -> key_ok k2 ->
  render kb1 k1 = render kb2 k2 -> kb1 = kb2 /\ k1 = k2.
Proof.
  intros Hb1 Hb2 H1 H2 H. rewrite !render_segs in H.
  destruct (segs_ok k1 H1), (segs_ok k2 H2).
  rewrite !kjoin_cons in H by done.
  apply str_join_inj in H as [-> H]; [|done..]. split; [done|].
  apply segs_inj; [done..|].
  apply (f_equal ksplit) in H. by rewrite !ksplit_kjoin in H.
Qed.

Lemma render_ne kb k1 k2 :
  no_colon kb -> key_ok k1 -> key_ok k2 -> k1 <> k2 -> render kb k1 <> render kb k2.
Proof. intros ? ? ? Hne H. apply render_inj in H; naive_solver. Qed.

Lemma NewKeyBuilder_no_colon base : Validate base = Ok tt -> no_colon (NewKeyBuilder base).
Proof. unfold Validate, NewKeyBuilder. destruct basePrefixAccepted eqn:E; [|done]. eauto with miner. Qed.

(** ** Extracting an address from a scanned key *)

Lemma prefix_app p s : String.prefix p (p +:+ s) = true.
Proof. induction p as [|c p IH]; simpl; [by destruct s|]. by destruct (ascii_dec c c). Qed.

Lemma prefix_split p s : String.prefix p s = true -> exists t, s = p +:+ t.
Proof.
  revert s. induction p as [|c p IH]; intros s H; [by exists s|].
  destruct s as [|d s]; [done|]. simpl in H. destruct (ascii_dec c d) as [->|]; [|done].
  destruct (IH s H) as [t ->]. by exists t.
Qed.

Lemma substring_app p s n :
  String.substring (String.length p) n (p +:+ s) = String.substring 0 n s.
Proof. induction p as [|c p IH]; [done|]. exact IH. Qed.

Lemma substring_all s : String.substring 0 (String.length s) s = s.
Proof. induction s as [|c s IH]; [done|]. simpl. by rewrite IH. Qed.

Lemma TrimPrefix_app p s : TrimPrefix p (p +:+ s) = s.
Proof.
  unfold TrimPrefix. rewrite prefix_app, substring_app, str_length_app.
  replace (String.length p + String.length s - String.length p)%nat with (String.length s) by lia.
  apply substring_all.
Qed.

Lemma TrimPrefix_cases p s : TrimPrefix p s = s \/ s = p +:+ TrimPrefix p s.
Proof.
  unfold TrimPrefix at 1. destruct (String.prefix p s) eqn:E; [|by left]. right.
  destruct (prefix_split p s E) as [t ->]. by rewrite TrimPrefix_app.
Qed.

Lemma app_ne p s : p <> "" -> s <> p +:+ s.
Proof.
  intros Hp H. apply (f_equal String.length) in H. rewrite str_length_app in H.
  destruct p; simpl in *; [done|lia].
Qed.

(** Shared by the two extractors: the trimmed key differs from the key exactly
    when the key has the prefix. *)
Lemma trim_address p key addr :
  p <> "" -> TrimPrefix p key = addr -> addr <> key -> key = p +:+ addr.
Proof. intros Hp <- Hne. by destruct (TrimPrefix_cases p key). Qed.

(** ** The layout's promises *)

(** No two entities of the fleet share a Redis key, and two fleets with
    different accepted base prefixes share no key at all: equal keys come from
    the same namespace, the same family and the same arguments. *)
Theorem keys_never_collide base1 base2 k1 k2 :
  Validate base1 = Ok tt -> Validate base2 = Ok tt -> key_ok k1 -> key_ok k2 ->
  render (NewKeyBuilder base1) k1 = render (NewKeyBuilder base2) k2 ->
  NewKeyBuilder base1 = NewKeyBuilder base2 /\ k1 = k2.
Proof. intros. eapply render_inj; eauto using NewKeyBuilder_no_colon. Qed.

Lemma keys_never_collide_witness :
  NewKeyBuilder "" = NewKeyBuilder "ha" /\ KMinerSession "pokt1a" "s1" = KMinerSession "pokt1a" "s1".
Proof.
  apply keys_never_collide; try reflexivity; simpl; repeat split; discriminate.
Defined.

(** A fleet's "delete everything" scan stays inside its own namespace: a
    key of the namespace [base2] starts with the fixed part of
    [AllKeysPattern base1] only when the two bases are the same. *)
Theorem flush_stays_in_namespace base1 base2 k :
  Validate base1 = Ok tt -> Validate base2 = Ok tt -> key_ok k ->
  String.prefix (NewKeyBuilder base1 +:+ ":") (render (NewKeyBuilder base2) k) = true ->
  NewKeyBuilder base1 = NewKeyBuilder base2.
Proof.
  intros H1%NewKeyBuilder_no_colon H2%NewKeyBuilder_no_colon Hk [t Ht]%prefix_split.
  rewrite render_segs in Ht. destruct (segs_ok k Hk) as [Hs _].
  rewrite kjoin_cons, <- str_app_assoc in Ht by done. simpl in Ht.
  symmetry in Ht. by apply str_join_inj in Ht as [-> _].
Qed.

Lemma flush_stays_in_namespace_witness :
  String.prefix (NewKeyBuilder "" +:+ ":") (render (NewKeyBuilder "ha") KGlobalLeader) = true /\
  NewKeyBuilder "" = NewKeyBuilder "ha".
Proof.
  split; [reflexivity|].
  apply (flush_stays_in_namespace "" "ha" KGlobalLeader); reflexivity || exact I.
Defined.

(** [SupplierStateAddress] is the exact inverse of [SupplierStateKey]: it
    answers an address for a key exactly when the key is the state key of that
    (non-empty, colon-free) address, so it never names a key of another
    family. *)
Theorem SupplierStateAddress_exact kb key addr :
  SupplierStateAddress kb key = Some addr <->
  key = SupplierStateKey kb addr /\ addr <> "" /\ has_char ":" addr = false.
Proof.
  unfold SupplierStateAddress, SupplierStateKey, SupplierKeyPrefix.
  set (p := (kjoin [kb; segmentSupplier] +:+ ":")).
  assert (p <> "") as Hp by (subst p; simpl; by destruct kb).
  assert (kjoin [kb; segmentSupplier; addr] = p +:+ addr) as ->.
  { subst p. simpl. by rewrite <- !str_app_assoc. }
  split.
  - destruct (String.eqb _ key) eqn:E1; [done|]. destruct (String.eqb _ "") eqn:E2; [done|].
    destruct (has_char _ _) eqn:E3; [done|]. simpl. intros [= <-].
    apply String.eqb_neq in E1, E2. split; [|done]. by apply trim_address.
  - intros (-> & Hne & Hc). rewrite TrimPrefix_app, Hc.
    rewrite (proj2 (String.eqb_neq _ _)) by (by apply app_ne).
    by rewrite (proj2 (String.eqb_neq _ _)).
Qed.
