(* ===== verification/StoreSpec.v ===== *)
(** * The session store's contract (interface SessionStore, miner/session_store.go)

    What every implementation of the Go interface [SessionStore] promises its
    callers: the effect of each operation on one session as a pure function,
    and a class that states how an implementation's operations relate to those
    functions when round trips may fail. RedisSessionStore and PebbleStore are
    its instances; SessionLifecycle is proved against it. *)

From S2P Require Import Prelude SessionState.
From Stdlib Require Import Ascii String.

Local Open Scope string_scope.
Local Open Scope Z_scope.

(** ** The operations on one session *)

Definition spec_update (newState : SessionState) (verdict : string) (now : Z)
    (o : option SessionSnapshot) : result (SessionSnapshot * bool) StoreErr :=
  match o with
  | None => Err ErrSessionNotFound
  | Some snap =>
      match checkStateWrite snap newState with
      | Some e => Err e
      | None =>
          if decide (State snap = newState) then Ok (set_LastUpdatedAt now snap, false)
          else let s1 := set_LastUpdatedAt now (set_State newState snap) in
               Ok (if String.eqb verdict "" then s1 else set_Verdict verdict s1, true)
      end
  end.

Definition spec_reactivate_claimed (root tx : string) (now : Z)
    (o : option SessionSnapshot) : result (SessionSnapshot * Reactivation) StoreErr :=
  match o with
  | None => Err ErrSessionNotFound
  | Some snap =>
      if canReactivateClaimed (State snap) then
        Ok (set_LastUpdatedAt now (set_Verdict "" (set_State SessionStateClaimed
              (set_claim root (if String.eqb tx "" then ClaimTxHash snap else tx) snap))),
            mkReactivation (Some (State snap)) (ClaimMissingVerdict snap) (ClaimTxHash snap) "")
      else Ok (snap, noReactivation)
  end.

Definition spec_reactivate_proved (tx : string) (now : Z)
    (o : option SessionSnapshot) : result (SessionSnapshot * Reactivation) StoreErr :=
  match o with
  | None => Err ErrSessionNotFound
  | Some snap =>
      if canReactivateProved (State snap) (ProofTxHash snap) then
        Ok (set_LastUpdatedAt now (set_State SessionStateProved
              (set_ProofTxHash (if String.eqb (ProofTxHash snap) "" then tx else ProofTxHash snap) snap)),
            mkReactivation (Some (State snap)) "" (ClaimTxHash snap) (ProofTxHash snap))
      else Ok (snap, noReactivation)
  end.

Definition spec_increment (computeUnits : Z) (now : Z)
    (o : option SessionSnapshot) : result (SessionSnapshot * unit) StoreErr :=
  match o with
  | None => Err ErrSessionNotFound
  | Some snap =>
      if IsTerminal (State snap) then Err ErrSessionTerminal
      else Ok (set_LastUpdatedAt now
                 (set_counters (RelayCount snap + 1) (TotalComputeUnits snap + computeUnits) snap), tt)
  end.

(** [Save] keeps the counters of a session that exists. *)
Definition spec_save (snapshot : SessionSnapshot) (now : Z)
    (o : option SessionSnapshot) : result (SessionSnapshot * unit) StoreErr :=
  match o with
  | None => Ok (touch now snapshot, tt)
  | Some prev => Ok (set_counters (RelayCount prev) (TotalComputeUnits prev) (touch now snapshot), tt)
  end.

Definition spec_create (snapshot : SessionSnapshot) (now : Z)
    (o : option SessionSnapshot) : result (SessionSnapshot * bool) StoreErr :=
  match o with
  | None => Ok (touch now snapshot, true)
  | Some prev => Ok (prev, false)
  end.

(** ** The contract *)

#[export] Instance snapshot_equiv : Equiv SessionSnapshot := snap_equiv.
#[export] Instance snapshot_equivalence : Equivalence (≡@{SessionSnapshot}).
Proof. apply snap_equiv_equivalence. Qed.

(** The faults of the round trips of one call, by their order in the call. *)
Definition Io : Type := nat -> Fault.
Definition io_ok : Io := fun _ => FNone.

(** An operation that writes at most the session [id], as [spec] says. An
    answered call did exactly [spec]; a refusal wrote nothing; after a failed
    round trip the write happened or it did not, and nothing else did. *)
Definition writes_one {A} (view view' : string -> option SessionSnapshot) (id : string)
    (spec : option SessionSnapshot -> result (SessionSnapshot * A) StoreErr)
    (r : result A StoreErr) : Prop :=
  (forall id', id' <> id -> view' id' = view id') /\
  match r with
  | Ok a => exists s', spec (view id) = Ok (s', a) /\ view' id ≡ Some s'
  | Err (ErrIo _) =>
      view' id ≡ view id \/ exists s' a, spec (view id) = Ok (s', a) /\ view' id ≡ Some s'
  | Err e => view' id = view id /\ spec (view id) = Err e
  end.

(** A snapshot a caller may hand to the store. *)
Definition SMSTRootLen : nat := 48.

Definition root_ok (root : string) : Prop := root = "" \/ String.length root = SMSTRootLen.

Definition storable (s : SessionSnapshot) : Prop :=
  snap_ok s /\ root_ok (ClaimedRootHash s) /\ known (State s) = true /\
  Forall text_ok (text_fields s) /\ time_ok (CreatedAt s).

Lemma touch_codec_ok now s : storable s -> time_ok now -> codec_ok (touch now s).
Proof.
  intros (Hok & _ & _ & Ht & Hc) Hn. split; [done|]. split; [done|]. split; [done|].
  unfold touch. simpl. by destruct (CreatedAt s =? 0).
Qed.

(** The counters of the session leave room for one more relay. *)
Definition counters_fit (computeUnits : Z) (o : option SessionSnapshot) : Prop :=
  match o with
  | None => True
  | Some s => 0 <= computeUnits /\ RelayCount s + 1 <= int64_max /\
              TotalComputeUnits s + computeUnits <= int64_max
  end.

Class SessionStore (St : Type) := {
  ss_view : Z -> St -> string -> option SessionSnapshot;
  ss_wf : St -> Prop;
  ss_id : string -> Prop;
  ss_units : Z -> Prop;
  ss_get : Io -> Z -> St -> string -> result (option SessionSnapshot) StoreErr;
  ss_by_supplier : Io -> Z -> St -> St * result (list SessionSnapshot) StoreErr;
  ss_save : Io -> Z -> St -> SessionSnapshot -> St * result unit StoreErr;
  ss_create : Io -> Z -> St -> SessionSnapshot -> St * result bool StoreErr;
  ss_update : Io -> Z -> St -> string -> SessionState -> string -> St * result bool StoreErr;
  ss_reactivate_claimed : Io -> Z -> St -> string -> string -> string -> St * result Reactivation StoreErr;
  ss_reactivate_proved : Io -> Z -> St -> string -> string -> St * result Reactivation StoreErr;
  ss_increment : Io -> Z -> St -> string -> Z -> St * result unit StoreErr
}.

(** What a call leaves: a well-formed store in which it wrote at most the
    session [id], as [spec] says. *)
Definition keeps {St A} `{!SessionStore St} (now : Z) (s : St) (id : string)
    (spec : option SessionSnapshot -> result (SessionSnapshot * A) StoreErr)
    (out : St * result A StoreErr) : Prop :=
  ss_wf (fst out) /\ writes_one (ss_view now s) (ss_view now (fst out)) id spec (snd out).

(** The laws the callers use. A store is well formed when every session it
    holds decodes; [ss_id] says which session IDs its keys can carry, and
    [ss_units] which amounts of compute units reach its counter unrounded. Time
    only ever hides a session. A call none of whose round trips fails is
    answered. [Save] reads the session first, and its law is for a read that
    was answered: what follows a failed read differs between the stores. *)
Class SessionStoreLaws (St : Type) `{!SessionStore St} := {
  ss_get_view io now s id x :
    ss_wf s -> ss_id id -> ss_get io now s id = Ok x -> x = ss_view now s id;
  ss_get_answers now s id :
    ss_wf s -> ss_id id -> ss_get io_ok now s id = Ok (ss_view now s id);
  ss_view_later now now' s id :
    now <= now' -> ss_view now' s id = ss_view now s id \/ ss_view now' s id = None;
  ss_update_answers now s id st v e :
    ss_wf s -> ss_id id -> time_ok now -> known st = true ->
    snd (ss_update io_ok now s id st v) <> Err (ErrIo e);
  ss_update_spec io now s id st v :
    ss_wf s -> ss_id id -> time_ok now -> text_ok v -> known st = true ->
    keeps now s id (spec_update st v now) (ss_update io now s id st v);
  ss_increment_spec io now s id cu :
    ss_wf s -> ss_id id -> ss_units cu -> time_ok now -> counters_fit cu (ss_view now s id) ->
    keeps now s id (spec_increment cu now) (ss_increment io now s id cu);
  ss_reactivate_claimed_spec io now s id root tx :
    ss_wf s -> ss_id id -> time_ok now -> text_ok tx -> String.length root = SMSTRootLen ->
    keeps now s id (spec_reactivate_claimed root tx now) (ss_reactivate_claimed io now s id root tx);
  ss_reactivate_proved_spec io now s id tx :
    ss_wf s -> ss_id id -> time_ok now -> text_ok tx ->
    keeps now s id (spec_reactivate_proved tx now) (ss_reactivate_proved io now s id tx);
  ss_create_spec io now s snap :
    ss_wf s -> ss_id (SessionID snap) -> time_ok now -> storable snap ->
    snd (ss_create io now s snap) <> Err ErrStoreClosed ->
    keeps now s (SessionID snap) (spec_create snap now) (ss_create io now s snap);
  ss_save_spec io now s snap :
    ss_wf s -> ss_id (SessionID snap) -> time_ok now -> storable snap -> io 0%nat = FNone ->
    snd (ss_save io now s snap) <> Err ErrStoreClosed ->
    keeps now s (SessionID snap) (spec_save snap now) (ss_save io now s snap);
  ss_save_closed io now s snap :
    snd (ss_save io now s snap) = Err ErrStoreClosed -> fst (ss_save io now s snap) = s
}.

Section WritesOne.
Context {A : Type}.
Implicit Types view : string -> option SessionSnapshot.

Lemma writes_one_refused view id (spec : option SessionSnapshot -> result (SessionSnapshot * A) StoreErr) e :
  spec (view id) = Err e -> writes_one view view id spec (Err e).
Proof. intros H. split; [done|]. by destruct e; first [left | split]. Qed.

Lemma writes_one_io view id (spec : option SessionSnapshot -> result (SessionSnapshot * A) StoreErr) e :
  writes_one view view id spec (Err (ErrIo e)).
Proof. split; [done|]. by left. Qed.
End WritesOne.
#[export] Hint Resolve writes_one_refused writes_one_io : miner.

(** ** Codecs of the Go standard library *)

(** [time.Time.Format(time.RFC3339Nano)] and [time.Parse]: an instant of
    the years 1 to 9999 survives the text. *)
Class TimeCodec := {
  format_time : Z -> string;
  parse_time : string -> option Z
}.

Class TimeCodecLaws `{!TimeCodec} := {
  parse_format_time t : time_ok t -> parse_time (format_time t) = Some t;
  format_time_nonempty t : format_time t <> ""
}.

(** [json.Marshal] and [json.Unmarshal] of a SessionSnapshot: text and instants
    of four-digit years survive. *)
Class SnapshotJson := {
  json_enc : SessionSnapshot -> string;
  json_dec : string -> option SessionSnapshot
}.

Class SnapshotJsonLaws `{!SnapshotJson} := {
  json_dec_enc s : codec_ok s -> json_dec (json_enc s) = Some s
}.
