(* ===== verification/RelayCommit.v ===== *)
(** * Committing a session's batch of relays (miner/relay_commit.go)

    The contract of relayCommitter: what a commit does to the session's dedup
    marks, counters and queue entries, as a pure function; the class its two
    implementations discharge; and what the contract is for: a batch retried
    any number of times after answers were lost is counted exactly once. *)

From S2P Require Import Prelude SessionState StoreSpec.
From Stdlib Require Import Ascii String.

Local Open Scope string_scope.
Local Open Scope Z_scope.

(** ** Data *)

Record batchedRelay := mkRelay {
  br_id : string;
  br_hash : string;
  br_computeUnits : Z;
  br_gen : Z
}.

Record relayBatchResult := mkBatchResult {
  rb_status : Z;
  rb_newRelays : Z;
  rb_newComputeUnits : Z;
  rb_freshDups : Z
}.

(** [errCommitRefused], or an error whose outcome is unknown. *)
Inductive CommitErr :=
| CRefused
| CUnknown.

(** What a commit reads and writes: the session's marks and snapshot, and the
    entries in the supplier's queue. *)
Record CommitView := mkView {
  cv_marks : string -> bool;
  cv_session : option SessionSnapshot;
  cv_entries : string -> bool
}.

#[export] Instance view_equiv : Equiv CommitView := fun v w =>
  (forall h, cv_marks v h = cv_marks w h) /\ cv_session v ≡ cv_session w /\
  (forall i, cv_entries v i = cv_entries w i).

#[export] Instance view_equivalence : Equivalence (≡@{CommitView}).
Proof.
  split.
  - by intros v.
  - intros v w (H1 & H2 & H3). split_and!; [intros; by rewrite H1|by symmetry|intros; by rewrite H3].
  - intros u v w (H1 & H2 & H3) (H4 & H5 & H6).
    split_and!; [intros; by rewrite H1|by etransitivity|intros; by rewrite H3].
Qed.

(** ** The specification *)

Definition add_mark (h : string) (m : string -> bool) : string -> bool := fun x => String.eqb x h || m x.

(** The relays whose mark is new and those already marked, in order. *)
Fixpoint split_new (marks : string -> bool) (l : list batchedRelay) : list batchedRelay * list batchedRelay :=
  match l with
  | [] => ([], [])
  | r :: l' =>
      if marks (br_hash r) then let '(new, dups) := split_new marks l' in (new, r :: dups)
      else let '(new, dups) := split_new (add_mark (br_hash r) marks) l' in (r :: new, dups)
  end.

Definition sum_cu (l : list batchedRelay) : Z := foldr (fun r n => br_computeUnits r + n) 0 l.

Definition commit_status (o : option SessionSnapshot) : Z :=
  match o with
  | None => 1
  | Some s => if IsTerminal (State s) then 2 else 0
  end.

Definition count_relays (now n cu : Z) (o : option SessionSnapshot) : option SessionSnapshot :=
  match o with
  | Some s => if negb (IsTerminal (State s)) && (0 <? n)
              then Some (set_LastUpdatedAt now (set_counters (RelayCount s + n) (TotalComputeUnits s + cu) s))
              else Some s
  | None => None
  end.

Definition has_id (l : list batchedRelay) (i : string) : bool := existsb (fun r => String.eqb (br_id r) i) l.
Definition has_hash (l : list batchedRelay) (h : string) : bool := existsb (fun r => String.eqb (br_hash r) h) l.

Definition spec_result (relays : list batchedRelay) (v : CommitView) : relayBatchResult :=
  let '(new, dups) := split_new (cv_marks v) relays in
  mkBatchResult (commit_status (cv_session v)) (Z.of_nat (List.length new)) (sum_cu new)
    (Z.of_nat (List.length (List.filter (fun r => cv_entries v (br_id r)) dups))).

Definition spec_commit (now : Z) (relays : list batchedRelay) (v : CommitView) : CommitView :=
  let '(new, dups) := split_new (cv_marks v) relays in
  mkView (fun h => has_hash relays h || cv_marks v h)
         (count_relays now (Z.of_nat (List.length new)) (sum_cu new) (cv_session v))
         (fun i => negb (has_id relays i) && cv_entries v i).

(** *** Facts about the specification *)

Lemma split_new_ext m1 m2 l : (forall h, m1 h = m2 h) -> split_new m1 l = split_new m2 l.
Proof.
  revert m1 m2. induction l as [|r l IH]; intros m1 m2 H; simpl; [done|]. rewrite H.
  destruct (m2 (br_hash r)); [by rewrite (IH m1 m2)|].
  rewrite (IH (add_mark (br_hash r) m1) (add_mark (br_hash r) m2)); [done|].
  intros h. unfold add_mark. by rewrite H.
Qed.

(** Relays that are all marked are all duplicates. *)
Lemma split_new_all m l : (forall r, r ∈ l -> m (br_hash r) = true) -> split_new m l = ([], l).
Proof.
  induction l as [|r l IH]; intros H; simpl; [done|].
  rewrite H by by left. rewrite IH; [done|]. intros r' Hr'. apply H. by right.
Qed.

Lemma has_hash_elem l r : r ∈ l -> has_hash l (br_hash r) = true.
Proof.
  intros Hr. unfold has_hash. apply existsb_exists. exists r.
  split; [by apply list_elem_of_In|apply String.eqb_refl].
Qed.

Lemma has_id_elem l r : r ∈ l -> has_id l (br_id r) = true.
Proof.
  intros Hr. unfold has_id. apply existsb_exists. exists r.
  split; [by apply list_elem_of_In|apply String.eqb_refl].
Qed.

Lemma filter_false {A} (f : A -> bool) l : (forall x, x ∈ l -> f x = false) -> List.filter f l = [].
Proof.
  induction l as [|x l IH]; intros H; simpl; [done|]. rewrite H by by left.
  apply IH. intros y Hy. apply H. by right.
Qed.

#[export] Instance IsTerminal_proper : Proper ((≡@{SessionSnapshot}) ==> eq) (fun s => IsTerminal (State s)).
Proof. intros a b H. by rewrite H. Qed.

#[export] Instance commit_status_proper : Proper ((≡) ==> eq) commit_status.
Proof. intros [a|] [b|] H; inversion H; subst; simpl; [|done]. by rewrite (IsTerminal_proper a b). Qed.

Lemma count_relays_equiv t1 t2 n cu o1 o2 :
  o1 ≡ o2 -> count_relays t1 n cu o1 ≡ count_relays t2 n cu o2.
Proof.
  intros H. destruct o1 as [a|], o2 as [b|]; inversion H as [? ? Hab|]; subst; simpl; [|done].
  rewrite (IsTerminal_proper a b) by done.
  destruct (negb (IsTerminal (State b)) && (0 <? n)); constructor; [|done].
  apply snap_equiv_iff in Hab as [t ->]. by destruct a.
Qed.

Lemma spec_result_proper relays v w : v ≡ w -> spec_result relays v = spec_result relays w.
Proof.
  intros (H1 & H2 & H3). unfold spec_result. rewrite (split_new_ext _ _ relays H1).
  destruct (split_new (cv_marks w) relays) as [new dups]. rewrite H2. f_equal.
  f_equal. f_equal. apply List.filter_ext. auto.
Qed.

Lemma spec_commit_proper t1 t2 relays v w : v ≡ w -> spec_commit t1 relays v ≡ spec_commit t2 relays w.
Proof.
  intros (H1 & H2 & H3). unfold spec_commit. rewrite (split_new_ext _ _ relays H1).
  destruct (split_new (cv_marks w) relays) as [new dups].
  split_and!; simpl; [intros h; by rewrite H1|by apply count_relays_equiv|intros i; by rewrite H3].
Qed.

(** Running a batch again marks nothing, counts nothing and finds no entry. *)
Lemma spec_again t1 t2 relays v :
  spec_commit t2 relays (spec_commit t1 relays v) ≡ spec_commit t1 relays v /\
  exists st, spec_result relays (spec_commit t1 relays v) = mkBatchResult st 0 0 0.
Proof.
  set (w := spec_commit t1 relays v).
  assert (forall h, cv_marks w h = has_hash relays h || cv_marks v h) as Hm.
  { unfold w, spec_commit. by destruct (split_new _ _). }
  assert (forall i, cv_entries w i = negb (has_id relays i) && cv_entries v i) as He.
  { unfold w, spec_commit. by destruct (split_new _ _). }
  assert (split_new (cv_marks w) relays = ([], relays)) as Hs.
  { apply split_new_all. intros r Hr. by rewrite Hm, has_hash_elem. }
  split.
  - unfold spec_commit at 1. rewrite Hs. split_and!; simpl.
    + intros h. rewrite Hm. by destruct (has_hash relays h), (cv_marks v h).
    + destruct (cv_session w) as [s|]; simpl; [|done]. by rewrite andb_false_r.
    + intros i. rewrite He. by destruct (has_id relays i).
  - unfold spec_result. rewrite Hs. eexists. f_equal.
    replace (List.filter _ relays) with (@nil batchedRelay); [done|]. symmetry.
    apply filter_false. intros r Hr. by rewrite He, has_id_elem.
Qed.

(** Each new hash is counted once: the relays counted are as many as the
    distinct hashes of the batch that were not marked. *)
Lemma split_new_count m l :
  let '(new, dups) := split_new m l in
  NoDup (map br_hash new) /\ (forall h, h ∈ map br_hash new <-> h ∈ map br_hash l /\ m h = false) /\
  List.length l = (List.length new + List.length dups)%nat.
Proof.
  revert m. induction l as [|r l IH]; intros m; simpl.
  { split_and!; [constructor| |done]. intros h. rewrite elem_of_nil. tauto. }
  destruct (m (br_hash r)) eqn:Hr.
  - specialize (IH m). destruct (split_new m l) as [new dups]. destruct IH as (Hn & Hi & Hl).
    split_and!; [done| |simpl; lia]. intros h. rewrite Hi, elem_of_cons. split; [tauto|].
    intros [[->|?] ?]; [congruence|done].
  - specialize (IH (add_mark (br_hash r) m)). destruct (split_new _ l) as [new dups]. destruct IH as (Hn & Hi & Hl).
    assert (forall h, add_mark (br_hash r) m h = false <-> h <> br_hash r /\ m h = false) as Ha.
    { intros h. unfold add_mark. rewrite orb_false_iff, String.eqb_neq. done. }
    split_and!; simpl; [|intros h|lia].
    + apply NoDup_cons. split; [|done]. rewrite Hi, Ha. tauto.
    + rewrite !elem_of_cons, Hi, Ha. destruct (decide (h = br_hash r)) as [->|]; tauto.
Qed.

(** ** The contract *)

Class RelayCommitter (St : Type) := {
  rc_view : Z -> St -> string -> CommitView;
  rc_ok : St -> Prop;
  rc_session_ok : string -> Prop;
  rc_batch_ok : list batchedRelay -> Prop;
  (** how long after a commit its marks and its session are sure to be there *)
  rc_window : Z;
  rc_commit : Io -> Z -> St -> string -> list batchedRelay -> St * result relayBatchResult CommitErr
}.

(** The session's counters have room for the batch. *)
Definition batch_fits (relays : list batchedRelay) (o : option SessionSnapshot) : Prop :=
  match o with
  | None => True
  | Some s => RelayCount s + Z.of_nat (List.length relays) <= int64_max /\
              TotalComputeUnits s + sum_cu relays <= int64_max
  end.

(** What a call does while the session it found has not expired: an answered one is the specification, one that was
    refused did nothing, and one whose outcome is unknown did all or nothing. *)
Definition commits {St} `{!RelayCommitter St} (now : Z) (s : St) (id : string) (relays : list batchedRelay)
    (out : St * result relayBatchResult CommitErr) : Prop :=
  let applied := forall t, now <= t < now + rc_window ->
    cv_session (rc_view t s id) ≡ cv_session (rc_view now s id) ->
    rc_view t (fst out) id ≡ spec_commit now relays (rc_view now s id) in
  let untouched := forall t, now <= t -> rc_view t (fst out) id ≡ rc_view t s id in
  rc_ok (fst out) /\
  (forall id' t, id' <> id -> rc_session_ok id' -> now <= t ->
     (forall h, cv_marks (rc_view t (fst out) id') h = cv_marks (rc_view t s id') h) /\
     cv_session (rc_view t (fst out) id') ≡ cv_session (rc_view t s id')) /\
  match snd out with
  | Ok res => res = spec_result relays (rc_view now s id) /\ applied
  | Err CRefused => untouched
  | Err CUnknown => untouched \/ applied
  end.

Class RelayCommitterLaws (St : Type) `{!RelayCommitter St} := {
  rc_commit_spec io now s id relays :
    rc_ok s -> rc_session_ok id -> rc_batch_ok relays -> time_ok now ->
    batch_fits relays (cv_session (rc_view now s id)) ->
    commits now s id relays (rc_commit io now s id relays)
}.

(** ** Retries *)

(** The same batch committed again and again, from a store [s] at instant [t]
    on: [answered] says whether some attempt got its answer. *)
Inductive attempts {St} `{!RelayCommitter St} (id : string) (relays : list batchedRelay)
  : Z -> St -> bool -> Z -> St -> Prop :=
| attempts_none t s : attempts id relays t s false t s
| attempts_more t0 s0 answered t1 s1 io t :
    attempts id relays t0 s0 answered t1 s1 -> t1 <= t ->
    attempts id relays t0 s0
      (match snd (rc_commit io t s1 id relays) with Ok _ => true | Err _ => answered end)
      t (fst (rc_commit io t s1 id relays)).

Section Retry.
Context {St : Type} `{RC : !RelayCommitter St} `{RCL : !RelayCommitterLaws St}.
Variables (id : string) (relays : list batchedRelay) (v0 : CommitView) (T0 : Z).
Hypothesis Hid : rc_session_ok id.
Hypothesis Hbatch : rc_batch_ok relays.

(** The batch is still to be committed, or it is committed, as far as anyone
    can see until the window closes. *)
Definition pending_or_done (t : Z) (s : St) : Prop :=
  (forall t', t <= t' < T0 + rc_window -> rc_view t' s id ≡ v0) \/
  (forall t', t <= t' < T0 + rc_window -> rc_view t' s id ≡ spec_commit T0 relays v0).

Definition all_done (t : Z) (s : St) : Prop :=
  forall t', t <= t' < T0 + rc_window -> rc_view t' s id ≡ spec_commit T0 relays v0.

Lemma fits_equiv o1 o2 : o1 ≡ o2 -> batch_fits relays o1 -> batch_fits relays o2.
Proof.
  intros H. destruct o1 as [a|], o2 as [b|]; inversion H as [? ? Hab|]; subst; simpl; [|done].
  apply snap_equiv_iff in Hab as [t ->]. by destruct a.
Qed.

(** One attempt takes the batch from pending or done to pending or done, and
    to done when it is answered. *)
Lemma attempt_step io t s :
  rc_ok s -> T0 <= t < T0 + rc_window -> time_ok t ->
  batch_fits relays (cv_session v0) -> batch_fits relays (cv_session (spec_commit T0 relays v0)) ->
  pending_or_done t s ->
  rc_ok (fst (rc_commit io t s id relays)) /\ pending_or_done t (fst (rc_commit io t s id relays)) /\
  (is_ok (snd (rc_commit io t s id relays)) = true \/ all_done t s -> all_done t (fst (rc_commit io t s id relays))).
Proof.
  intros Hok Ht Htok Hf0 Hf1 Hpd.
  assert (batch_fits relays (cv_session (rc_view t s id))) as Hfit.
  { destruct Hpd as [H|H]; specialize (H t ltac:(lia)) as (_ & Hs & _); symmetry in Hs; by eapply fits_equiv. }
  pose proof (rc_commit_spec io t s id relays Hok Hid Hbatch Htok Hfit) as (Hok' & _ & Hc).
  split; [done|]. set (s' := fst _) in *.
  assert ((forall t', t <= t' < t + rc_window -> cv_session (rc_view t' s id) ≡ cv_session (rc_view t s id) ->
    rc_view t' s' id ≡ spec_commit t relays (rc_view t s id)) -> all_done t s') as Happ.
  { intros Ha t' Ht'. rewrite Ha; [|lia|].
    2:{ destruct Hpd as [H|H]; destruct (H t' ltac:(lia)) as (_ & -> & _); by destruct (H t ltac:(lia)) as (_ & -> & _). }
    destruct Hpd as [H|H]; rewrite (spec_commit_proper t T0 relays _ _ (H t ltac:(lia))).
    - done.
    - apply spec_again. }
  assert ((forall t', t <= t' -> rc_view t' s' id ≡ rc_view t' s id) ->
    pending_or_done t s' /\ (all_done t s -> all_done t s')) as Hun.
  { intros Hu. split; [|intros Hd t' Ht'; rewrite Hu by lia; by apply Hd].
    destruct Hpd as [H|H]; [left|right]; intros t' Ht'; rewrite Hu by lia; by apply H. }
  destruct (snd (rc_commit io t s id relays)) as [res|[]]; simpl.
  - destruct Hc as [_ Ha]. split; [right; by apply Happ|intros _; by apply Happ].
  - destruct (Hun Hc) as [H1 H2]. split; [done|]. intros [?|?]; [done|auto].
  - destruct Hc as [Hu|Ha].
    + destruct (Hun Hu) as [H1 H2]. split; [done|]. intros [?|?]; [done|auto].
    + split; [right; by apply Happ|intros _; by apply Happ].
Qed.

Lemma attempts_time t0 s0 a t s : attempts id relays t0 s0 a t s -> t0 <= t.
Proof. induction 1; lia. Qed.

Lemma attempts_done t0 s0 a t s :
  attempts id relays t0 s0 a t s -> t0 = T0 -> rc_ok s0 -> t < T0 + rc_window -> 0 <= T0 -> t <= max_instant ->
  (forall t', T0 <= t' < T0 + rc_window -> rc_view t' s0 id ≡ v0) ->
  batch_fits relays (cv_session v0) -> batch_fits relays (cv_session (spec_commit T0 relays v0)) ->
  rc_ok s /\ pending_or_done t s /\ (a = true -> all_done t s).
Proof.
  intros Ha He Hok Ht Hlo Hhi Hv Hf0 Hf1. induction Ha as [t s|t0 s0 a t1 s1 io t Ha IH Hle].
  { subst t. split_and!; [done|by left|done]. }
  pose proof (attempts_time _ _ _ _ _ Ha). destruct IH as (Hok1 & Hpd & Hd); [done|done|lia|lia|done|].
  assert (pending_or_done t s1) as Hpd1.
  { destruct Hpd as [H1|H1]; [left|right]; intros t' Ht'; apply H1; lia. }
  destruct (attempt_step io t s1) as (H1 & H2 & H3); [done|lia|unfold time_ok; lia|done..|].
  split_and!; [done..|]. intros Hans. apply H3.
  destruct (snd (rc_commit io t s1 id relays)); [by left|]. right. intros t' Ht'. apply Hd; [done|lia].
Qed.
End Retry.
