(* ===== verification/Concrete.v ===== *)
(** * Concrete codecs

    Executable instances of the parameters of the model, on which the theorems
    are tried: a text form of instants, and a text form of snapshots (a number
    that codes the record, in decimal). *)

From S2P Require Import Prelude SessionState StoreSpec RelayCommit.
From Stdlib Require Import Ascii String.

Local Open Scope string_scope.
Local Open Scope Z_scope.

Module Concrete.

#[export] Instance dec_time : TimeCodec := {
  format_time := format_int;
  parse_time := parse_dec
}.

#[export] Instance dec_time_laws : TimeCodecLaws.
Proof. split; [intros t _; apply parse_dec_format|intros t; apply format_int_nonempty]. Qed.

Definition to_fields (s : SessionSnapshot) : list string :=
  [SessionID s; SupplierOperatorAddress s; ServiceID s; ApplicationAddress s; format_int (SessionStartHeight s);
   format_int (SessionEndHeight s); string_of_state (State s); format_int (RelayCount s);
   format_int (TotalComputeUnits s); ClaimedRootHash s; ClaimTxHash s; ProofTxHash s; ClaimMissingVerdict s;
   format_int (LastUpdatedAt s); format_int (CreatedAt s)].

Definition of_fields (f : list string) : option SessionSnapshot :=
  match f with
  | [a; b; c; d; e; g; h; i; j; k; l; m; n; o; p] =>
      match parse_dec e, parse_dec g, parse_dec i, parse_dec j, parse_dec o, parse_dec p with
      | Some e', Some g', Some i', Some j', Some o', Some p' =>
          Some (mkSnapshot a b c d e' g' (state_of_string h) i' j' k l m n o' p')
      | _, _, _, _, _, _ => None
      end
  | _ => None
  end.

#[export] Instance num_json : SnapshotJson := {
  json_enc := fun s => format_int (Zpos (encode (to_fields s)));
  json_dec := fun str => match parse_dec str with
                         | Some (Zpos p) => decode p ≫= of_fields
                         | _ => None
                         end
}.

#[export] Instance num_json_laws : SnapshotJsonLaws.
Proof.
  split. intros s ((_ & _ & _ & _ & Hcan) & _). simpl. rewrite parse_dec_format, decode_encode. simpl.
  rewrite !parse_dec_format, state_of_string_of_state by done. by destruct s.
Qed.

(** A session of a supplier. *)
Definition session_1 : SessionSnapshot :=
  mkSnapshot "s1" "pokt1sup" "svc" "pokt1app" 1 10 SessionStateActive 0 0 "" "" "" "" 0 0.

Lemma session_1_storable : storable session_1.
Proof.
  split; [repeat split; vm_compute; congruence|]. split; [by left|]. split; [done|]. split; [by repeat constructor|].
  split; vm_compute; congruence.
Qed.

(** Two deliveries of one relay and one of another. *)
Definition batch_1 : list batchedRelay := [mkRelay "1-1" "ha" 5 0; mkRelay "1-2" "hb" 7 0; mkRelay "1-3" "ha" 5 0].
End Concrete.
