(* ===== verification/PebbleModel.v ===== *)
(** * The embedded store of a standalone process

    Pebble is a library the repository calls: reads, atomic batches and range
    iteration are parameters ([PebbleOps]) with their documented effect
    ([PebbleLaws]); [MapPebble] shows the laws can hold. What the repository
    computes itself is defined here: the upper bound of a prefix scan
    (keyUpperBound of miner/pebble_backend.go, with its copies prefixEnd and
    upperBound), and the big-endian integers and stored values of
    storage/kv/pebble.go. *)

From S2P Require Import Prelude SessionState StoreSpec.
From Stdlib Require Import Ascii String.
From stdpp Require Import sorting.

Local Open Scope string_scope.
Local Open Scope Z_scope.

(** ** Keys are ordered bytewise *)

Fixpoint bytes_ltb (a b : string) : bool :=
  match a, b with
  | _, EmptyString => false
  | EmptyString, String _ _ => true
  | String x a', String y b' =>
      (N_of_ascii x <? N_of_ascii y)%N || ((N_of_ascii x =? N_of_ascii y)%N && bytes_ltb a' b')
  end.

Definition bytes_lt (a b : string) : Prop := bytes_ltb a b = true.
Definition bytes_le (a b : string) : Prop := bytes_ltb b a = false.

#[export] Instance bytes_le_dec : RelDecision bytes_le.
Proof. intros a b. unfold bytes_le. apply _. Defined.

(** The keys of a range: a missing upper bound is none. *)
Definition in_range (lo : string) (hi : option string) (k : string) : bool :=
  negb (bytes_ltb k lo) && match hi with Some u => bytes_ltb k u | None => true end.

Fixpoint has_prefix (p k : string) : bool :=
  match p, k with
  | EmptyString, _ => true
  | String _ _, EmptyString => false
  | String x p', String y k' => Ascii.eqb x y && has_prefix p' k'
  end.

(** ** keyUpperBound *)

(** The loop of [keyUpperBound], over the bytes last to first: a byte that
    does not wrap when incremented ends it, one that does is dropped. *)
Fixpoint upper_loop (rev_end : list ascii) : option (list ascii) :=
  match rev_end with
  | [] => None
  | b :: rest =>
      let b' := ((N_of_ascii b + 1) mod 256)%N in
      if (b' =? 0)%N then upper_loop rest else Some (rev (ascii_of_N b' :: rest))
  end.

Definition keyUpperBound (prefix : string) : option string :=
  string_of_list_ascii <$> upper_loop (rev (list_ascii_of_string prefix)).

(** ** The database *)

Inductive pwrite :=
| PSet (k v : string)
| PDelete (k : string)
| PDeleteRange (lo : string) (hi : option string).

Definition apply_write (m : gmap string string) (w : pwrite) : gmap string string :=
  match w with
  | PSet k v => <[k := v]> m
  | PDelete k => delete k m
  | PDeleteRange lo hi => filter (fun kv => in_range lo hi kv.1 = false) m
  end.

Definition apply_batch (m : gmap string string) (b : list pwrite) : gmap string string :=
  foldl apply_write m b.

(** [p_iter d lo hi] is what an iterator with those bounds yields. *)
Class PebbleOps (D : Type) := {
  pview : D -> gmap string string;
  p_commit : list pwrite -> D -> D;
  p_iter : D -> string -> option string -> list (string * string)
}.

Class PebbleLaws (D : Type) `{!PebbleOps D} := {
  view_commit d b : pview (p_commit b d) = apply_batch (pview d) b;
  iter_elem d lo hi k v :
    (k, v) ∈ p_iter d lo hi <-> pview d !! k = Some v /\ in_range lo hi k = true;
  iter_sorted d lo hi : StronglySorted bytes_lt (p_iter d lo hi).*1
}.

Definition p_get {D} `{!PebbleOps D} (f : Fault) (d : D) (k : string) : result (option string) StoreErr :=
  match read_trip f (pview d !! k) with
  | Ok v => Ok v
  | Err e => Err (ErrIo e)
  end.

(** ** Stored integers and instants *)

(** Unix time starts this many nanoseconds after Go's zero time. *)
Definition unix_epoch : Z := 62135596800 * 10 ^ 9.
Definition UnixMilli (t : Z) : Z := (t - unix_epoch) / 10 ^ 6.
Definition of_UnixMilli (ms : Z) : Z := unix_epoch + ms * 10 ^ 6.

(** [binary.BigEndian.PutUint64]: eight bytes, most significant first. *)
Definition byte_of (z : Z) : ascii := ascii_of_N (Z.to_N (z mod 256)).

Fixpoint be_bytes (n : nat) (z : Z) : string :=
  match n with
  | O => EmptyString
  | S n' => String (byte_of (Z.shiftr z (8 * Z.of_nat n'))) (be_bytes n' z)
  end.

Definition PutUint64 (z : Z) : string := be_bytes 8 (wrapu64 z).

Fixpoint be_value (acc : Z) (s : string) : Z :=
  match s with
  | EmptyString => acc
  | String c s' => be_value (acc * 256 + Z.of_N (N_of_ascii c)) s'
  end.

Definition Uint64 (s : string) : Z := be_value 0 s.

(** Slices [s[:n]] and [s[n:]]. *)
Fixpoint str_take (n : nat) (s : string) : string :=
  match n, s with
  | S n', String c s' => String c (str_take n' s')
  | _, _ => EmptyString
  end.

Fixpoint str_drop (n : nat) (s : string) : string :=
  match n, s with
  | O, _ => s
  | S n', String _ s' => str_drop n' s'
  | S _, EmptyString => EmptyString
  end.

(** [EncodeValue]: a stored string with its expiry in unix ms, 0 for none. *)
Definition EncodeValue (expiry : Z) (value : string) : string :=
  (if expiry =? 0 then PutUint64 0 else PutUint64 (UnixMilli expiry)) +:+ value.

(** [DecodeValue]: the value, its expiry and whether it is past it. *)
Definition DecodeValue (raw : string) (now : Z) : result (string * Z * bool) StoreErr :=
  if Nat.ltb (String.length raw) 8 then Err ErrDecode
  else
    let ms := Uint64 (str_take 8 raw) in
    if ms =? 0 then Ok (str_drop 8 raw, 0, false)
    else let expiry := of_UnixMilli (wrap64 ms) in
         Ok (str_drop 8 raw, expiry, negb (now <? expiry)).

(** ** A prefix scan is a range scan *)

(** The bound of a prefix, from its first byte on. *)
Fixpoint upper_of (p : list ascii) : option (list ascii) :=
  match p with
  | [] => None
  | c :: p' =>
      match upper_of p' with
      | Some u => Some (c :: u)
      | None => if (N_of_ascii c =? 255)%N then None else Some [ascii_of_N (N_of_ascii c + 1)]
      end
  end.

Lemma ascii_bound c : (N_of_ascii c < 256)%N.
Proof. by destruct c as [[] [] [] [] [] [] [] []]. Qed.

Lemma upper_loop_snoc l c :
  upper_loop (l ++ [c]) =
  match upper_loop l with
  | Some u => Some (c :: u)
  | None => if (N_of_ascii c =? 255)%N then None else Some [ascii_of_N (N_of_ascii c + 1)]
  end.
Proof.
  pose proof (ascii_bound c) as Hc. induction l as [|b l IH]; simpl.
  - destruct (N.eqb_spec (N_of_ascii c) 255) as [->|Hn]; [done|].
    rewrite N.mod_small by lia. by destruct (N.eqb_spec (N_of_ascii c + 1) 0); [lia|].
  - destruct (_ =? 0)%N; [done|]. rewrite app_comm_cons. cbn [rev].
    by rewrite rev_app_distr.
Qed.

Lemma keyUpperBound_of p : keyUpperBound p = string_of_list_ascii <$> upper_of (list_ascii_of_string p).
Proof.
  unfold keyUpperBound. f_equal. induction (list_ascii_of_string p) as [|c l IH]; [done|].
  cbn [rev upper_of]. by rewrite upper_loop_snoc, IH.
Qed.

Lemma N_of_ascii_inj a b : N_of_ascii a = N_of_ascii b -> a = b.
Proof. intros H. rewrite <- (ascii_N_embedding a), <- (ascii_N_embedding b). by rewrite H. Qed.

Lemma ascii_eqb_N a b : Ascii.eqb a b = (N_of_ascii a =? N_of_ascii b)%N.
Proof.
  destruct (Ascii.eqb_spec a b) as [->|Hn]; [by rewrite N.eqb_refl|].
  symmetry. apply N.eqb_neq. intros H. by apply Hn, N_of_ascii_inj.
Qed.

(** The keys from the prefix up to its bound are those that start with it. *)
Lemma range_is_prefix p k : in_range p (keyUpperBound p) k = has_prefix p k.
Proof.
  rewrite keyUpperBound_of. unfold in_range. revert k.
  induction p as [|c p IH]; intros k; [by destruct k|].
  cbn [list_ascii_of_string upper_of]. pose proof (ascii_bound c) as Hc.
  destruct k as [|y k]; [by destruct (upper_of _); simpl; try case_match|].
  specialize (IH k). cbn [has_prefix bytes_ltb]. rewrite ascii_eqb_N.
  destruct (upper_of (list_ascii_of_string p)) as [u|]; cbn [fmap option_fmap option_map] in *.
  - simpl. rewrite <- IH. rewrite (N.eqb_sym (N_of_ascii c) (N_of_ascii y)).
    destruct (N.ltb_spec (N_of_ascii y) (N_of_ascii c)), (N.eqb_spec (N_of_ascii y) (N_of_ascii c)); simpl; try lia; try done.
  - rewrite andb_true_r in IH. rewrite <- IH. rewrite (N.eqb_sym (N_of_ascii c) (N_of_ascii y)). pose proof (ascii_bound y).
    destruct (N.eqb_spec (N_of_ascii c) 255) as [H255|H255]; simpl.
    + destruct (N.ltb_spec (N_of_ascii y) (N_of_ascii c)), (N.eqb_spec (N_of_ascii y) (N_of_ascii c)); simpl; try lia; try done;
        by rewrite ?andb_true_r.
    + rewrite N_ascii_embedding by lia.
      destruct (N.ltb_spec (N_of_ascii y) (N_of_ascii c)), (N.eqb_spec (N_of_ascii y) (N_of_ascii c)),
        (N.ltb_spec (N_of_ascii y) (N_of_ascii c + 1)), (N.eqb_spec (N_of_ascii y) (N_of_ascii c + 1)); simpl; try lia; try done;
        rewrite ?andb_true_r, ?andb_false_r; try done; by destruct k.
Qed.

Lemma has_prefix_app p k : has_prefix p (p +:+ k) = true.
Proof. induction p as [|c p IH]; [done|]. simpl. by rewrite Ascii.eqb_refl. Qed.

Lemma has_prefix_iff p k : has_prefix p k = true <-> exists r, k = p +:+ r.
Proof.
  split; [|intros [r ->]; apply has_prefix_app]. revert k.
  induction p as [|c p IH]; intros k; [by exists k|]. destruct k as [|y k]; [done|]. simpl.
  intros [He H]%andb_true_iff. apply Ascii.eqb_eq in He as <-. destruct (IH k H) as [r ->]. by exists r.
Qed.

(** ** A map with the operations written out *)

Lemma bytes_lt_irrefl a : bytes_ltb a a = false.
Proof. induction a as [|c a IH]; [done|]. simpl. by rewrite N.ltb_irrefl, N.eqb_refl, IH. Qed.

Lemma iter_nodup {D} `{!PebbleOps D} `{!PebbleLaws D} (d : D) lo hi : NoDup (p_iter d lo hi).*1.
Proof.
  pose proof (iter_sorted d lo hi) as Hs. induction Hs as [|k l Hs IH Hf]; [constructor|].
  apply NoDup_cons. split; [|done]. intros Hin. rewrite Forall_forall in Hf. specialize (Hf _ Hin). unfold bytes_lt in Hf.
  by rewrite bytes_lt_irrefl in Hf.
Qed.

Lemma bytes_lt_trans a b c : bytes_ltb a b = true -> bytes_ltb b c = true -> bytes_ltb a c = true.
Proof.
  revert b c. induction a as [|x a IH]; intros [|y b] [|z c]; simpl; try done.
  rewrite !orb_true_iff, !andb_true_iff, !N.ltb_lt, !N.eqb_eq.
  intros [?|[? ?]] [?|[? ?]]; [left; lia..|]. right. split; [lia|eauto].
Qed.

Lemma bytes_lt_total a b : bytes_ltb a b = false -> bytes_ltb b a = false -> a = b.
Proof.
  revert b. induction a as [|x a IH]; intros [|y b]; simpl; try done.
  rewrite !orb_false_iff, !andb_false_iff, !N.ltb_ge, !N.eqb_neq. intros [? H1] [? H2].
  assert (N_of_ascii x = N_of_ascii y) as He by lia.
  f_equal; [by apply N_of_ascii_inj|]. apply IH; intuition congruence.
Qed.

#[export] Instance bytes_le_total : Total bytes_le.
Proof.
  intros a b. unfold bytes_le. destruct (bytes_ltb b a) eqn:E1; [|by left].
  destruct (bytes_ltb a b) eqn:E2; [|by right].
  pose proof (bytes_lt_trans _ _ _ E1 E2) as H. by rewrite bytes_lt_irrefl in H.
Qed.

#[export] Instance bytes_le_trans : Transitive bytes_le.
Proof.
  intros a b c. unfold bytes_le. intros H1 H2. destruct (bytes_ltb c a) eqn:E; [|done].
  destruct (bytes_ltb b c) eqn:E3; [by rewrite (bytes_lt_trans _ _ _ E3 E) in H1|].
  assert (b = c) as -> by by apply bytes_lt_total. congruence.
Qed.

Definition kv_le (a b : string * string) : Prop := bytes_le a.1 b.1.
#[export] Instance kv_le_dec : RelDecision kv_le.
Proof. intros a b. unfold kv_le. apply _. Defined.

#[export] Instance MapPebble : PebbleOps (gmap string string) := {
  pview := fun d => d;
  p_commit := fun b d => apply_batch d b;
  p_iter := fun d lo hi =>
    merge_sort kv_le (filter (fun kv => in_range lo hi kv.1 = true) (map_to_list d))
}.

(** Sorted and without duplicates is strictly sorted. *)
Lemma sorted_strict (l : list (string * string)) :
  NoDup l.*1 -> StronglySorted kv_le l -> StronglySorted bytes_lt l.*1.
Proof.
  induction l as [|[k v] l IH]; intros Hd Hs; [constructor|]. simpl in *.
  apply NoDup_cons in Hd as [Hk Hd]. apply StronglySorted_inv in Hs as [Hs Hf].
  constructor; [by apply IH|]. apply Forall_forall. intros k' Hin.
  apply list_elem_of_fmap in Hin as ([k2 v2] & -> & Hin2). simpl in *.
  pose proof (proj1 (Forall_forall _ _) Hf _ Hin2) as Hle. unfold kv_le, bytes_le in Hle. simpl in Hle.
  unfold bytes_lt. destruct (bytes_ltb k k2) eqn:E; [done|]. exfalso. apply Hk.
  rewrite (bytes_lt_total k k2) by done. apply list_elem_of_fmap. by exists (k2, v2).
Qed.

#[export] Instance MapPebble_laws : PebbleLaws (gmap string string).
Proof.
  split; simpl; [done| |].
  - intros d lo hi k v. rewrite merge_sort_Permutation, list_elem_of_filter, elem_of_map_to_list. simpl. tauto.
  - intros d lo hi. apply sorted_strict.
    + eapply NoDup_Permutation_proper; [by rewrite merge_sort_Permutation|].
      eapply (sublist_NoDup _ (map_to_list d).*1); [apply NoDup_fst_map_to_list|].
      apply fmap_sublist, sublist_filter.
    + apply Sorted_StronglySorted; [intros a b c; unfold kv_le; apply bytes_le_trans|].
      apply Sorted_merge_sort. intros a b. apply bytes_le_total.
Qed.

(** ** Stored values survive *)

Lemma byte_of_value z : Z.of_N (N_of_ascii (byte_of z)) = z mod 256.
Proof.
  unfold byte_of. pose proof (Z.mod_pos_bound z 256). rewrite N_ascii_embedding by lia. lia.
Qed.

Lemma be_bytes_length n z : String.length (be_bytes n z) = n.
Proof. induction n as [|n IH]; [done|]. simpl. by rewrite IH. Qed.

Lemma be_value_bytes n acc z : be_value acc (be_bytes n z) = acc * 2 ^ (8 * Z.of_nat n) + z mod 2 ^ (8 * Z.of_nat n).
Proof.
  revert acc. induction n as [|n IH]; intros acc; cbn [be_bytes be_value].
  - change (8 * Z.of_nat 0) with 0. rewrite Z.mod_1_r. lia.
  - rewrite IH, byte_of_value, Z.shiftr_div_pow2 by lia.
    replace (8 * Z.of_nat (S n)) with (8 * Z.of_nat n + 8) by lia.
    rewrite Z.pow_add_r by lia. set (b := 2 ^ (8 * Z.of_nat n)). change (2 ^ 8) with 256.
    assert (0 < b) by (apply Z.pow_pos_nonneg; lia). rewrite Z.rem_mul_r by lia. lia.
Qed.

Lemma Uint64_PutUint64 z : Uint64 (PutUint64 z) = wrapu64 z.
Proof.
  unfold Uint64, PutUint64. rewrite be_value_bytes. change (8 * Z.of_nat 8) with 64.
  unfold wrapu64. rewrite Zmod_mod. lia.
Qed.

Lemma PutUint64_length z : String.length (PutUint64 z) = 8%nat.
Proof. apply be_bytes_length. Qed.

Lemma str_take_app s t : str_take (String.length s) (s +:+ t) = s.
Proof. induction s as [|c s IH]; simpl; [by destruct t|by rewrite IH]. Qed.

Lemma str_drop_app s t : str_drop (String.length s) (s +:+ t) = t.
Proof. induction s as [|c s IH]; simpl; [by destruct t|done]. Qed.

Lemma wrap64_wrapu64 z : in_int64 z -> wrap64 (wrapu64 z) = z.
Proof.
  unfold in_int64, int64_min, int64_max, wrap64, wrapu64. intros Hz.
  replace (z mod 2 ^ 64 + 2 ^ 63) with (z + 2 ^ 63 + (- (z / 2 ^ 64)) * 2 ^ 64).
  - rewrite Z_mod_plus_full, Z.mod_small; lia.
  - pose proof (Z.div_mod z (2 ^ 64)). lia.
Qed.

(** An instant the stored form keeps to the millisecond: after the Unix epoch,
    with a four-digit year. *)
Definition expiry_ok (t : Z) : Prop := unix_epoch + 10 ^ 6 <= t <= max_instant.

Lemma UnixMilli_range t : expiry_ok t -> 0 < UnixMilli t <= int64_max.
Proof.
  unfold expiry_ok, UnixMilli, max_instant, unix_epoch, int64_max. intros [Hlo Hhi]. split.
  - apply (Z.div_str_pos (t - 62135596800 * 10 ^ 9) (10 ^ 6)). lia.
  - apply (Z.div_le_upper_bound _ (10 ^ 6)); lia.
Qed.

Lemma DecodeValue_EncodeValue t v now :
  t = 0 \/ expiry_ok t ->
  DecodeValue (EncodeValue t v) now =
    Ok (v, if t =? 0 then 0 else of_UnixMilli (UnixMilli t),
        negb (t =? 0) && negb (now <? of_UnixMilli (UnixMilli t))).
Proof.
  intros Ht. unfold DecodeValue, EncodeValue.
  assert (forall z, Nat.ltb (String.length (PutUint64 z +:+ v)) 8 = false) as Hlen.
  { intros z. rewrite str_length_app, PutUint64_length. apply Nat.ltb_ge. lia. }
  assert (forall z, str_take 8 (PutUint64 z +:+ v) = PutUint64 z /\ str_drop 8 (PutUint64 z +:+ v) = v) as Hsp.
  { intros z. pose proof (str_take_app (PutUint64 z) v) as H1. pose proof (str_drop_app (PutUint64 z) v) as H2.
    by rewrite PutUint64_length in H1, H2. }
  destruct (Z.eqb_spec t 0) as [->|Hn]; rewrite Hlen; destruct (Hsp 0) as [H1 H2].
  - rewrite H1, H2, Uint64_PutUint64. done.
  - destruct Ht as [?|Ht]; [done|]. destruct (Hsp (UnixMilli t)) as [H3 H4].
    pose proof (UnixMilli_range t Ht) as [? ?]. unfold int64_max in *.
    rewrite H3, H4, Uint64_PutUint64. rewrite wrapu64_id by (unfold in_uint64, uint64_max; lia).
    destruct (Z.eqb_spec (UnixMilli t) 0); [lia|]. rewrite wrap64_id; [done|].
    unfold in_int64, int64_min, int64_max. lia.
Qed.

(** ** Big-endian strings are ordered as the integers they spell *)

Lemma be_value_acc s acc : be_value acc s = acc * 2 ^ (8 * Z.of_nat (String.length s)) + be_value 0 s.
Proof.
  revert acc. induction s as [|c s IH]; intros acc; cbn [be_value String.length].
  - change (8 * Z.of_nat 0) with 0. lia.
  - rewrite IH, (IH (0 * 256 + _)). replace (8 * Z.of_nat (S (String.length s))) with (8 * Z.of_nat (String.length s) + 8) by lia.
    rewrite Z.pow_add_r by lia. change (2 ^ 8) with 256. ring.
Qed.

Lemma be_value_cons c s :
  be_value 0 (String c s) = Z.of_N (N_of_ascii c) * 2 ^ (8 * Z.of_nat (String.length s)) + be_value 0 s.
Proof. cbn [be_value]. by rewrite be_value_acc. Qed.

Lemma be_value_range s : 0 <= be_value 0 s < 2 ^ (8 * Z.of_nat (String.length s)).
Proof.
  induction s as [|c s IH]; [done|]. rewrite be_value_cons. cbn [String.length].
  replace (8 * Z.of_nat (S (String.length s))) with (8 * Z.of_nat (String.length s) + 8) by lia.
  rewrite Z.pow_add_r by lia. change (2 ^ 8) with 256. pose proof (ascii_bound c). nia.
Qed.

Lemma bytes_ltb_value s t :
  String.length s = String.length t -> bytes_ltb s t = (be_value 0 s <? be_value 0 t).
Proof.
  revert t. induction s as [|x s IH]; intros [|y t] Hl; try done. injection Hl as Hl.
  cbn [bytes_ltb]. rewrite (IH t Hl), !be_value_cons, Hl.
  pose proof (be_value_range s) as Hs. pose proof (be_value_range t) as Ht. rewrite Hl in Hs.
  set (B := 2 ^ _) in *. set (a := N_of_ascii x). set (b := N_of_ascii y).
  destruct (N.ltb_spec a b), (N.eqb_spec a b), (Z.ltb_spec (be_value 0 s) (be_value 0 t)); simpl; symmetry;
    first [apply Z.ltb_lt; nia | apply Z.ltb_ge; nia].
Qed.

Lemma be_value_inj s t : String.length s = String.length t -> be_value 0 s = be_value 0 t -> s = t.
Proof.
  intros Hl He. apply bytes_lt_total; rewrite bytes_ltb_value by congruence; apply Z.ltb_ge; lia.
Qed.

Lemma PutUint64_Uint64 s : String.length s = 8%nat -> PutUint64 (Uint64 s) = s.
Proof.
  intros Hl. apply be_value_inj; [by rewrite PutUint64_length|].
  change (be_value 0 (PutUint64 (Uint64 s))) with (Uint64 (PutUint64 (Uint64 s))).
  rewrite Uint64_PutUint64. pose proof (be_value_range s) as Hr. rewrite Hl in Hr.
  apply wrapu64_id. unfold in_uint64, uint64_max, Uint64. change (8 * Z.of_nat 8) with 64 in Hr. lia.
Qed.

Lemma Uint64_range s : String.length s = 8%nat -> in_uint64 (Uint64 s).
Proof.
  intros Hl. pose proof (be_value_range s) as Hr. rewrite Hl in Hr. change (8 * Z.of_nat 8) with 64 in Hr.
  unfold in_uint64, uint64_max, Uint64. lia.
Qed.

Lemma bytes_ltb_app p a b : bytes_ltb (p +:+ a) (p +:+ b) = bytes_ltb a b.
Proof. induction p as [|c p IH]; [done|]. simpl. by rewrite N.ltb_irrefl, N.eqb_refl, IH. Qed.

Lemma be_value_app s t : be_value 0 (s +:+ t) = be_value 0 s * 2 ^ (8 * Z.of_nat (String.length t)) + be_value 0 t.
Proof.
  assert (forall acc, be_value acc (s +:+ t) = be_value (be_value acc s) t) as H.
  { induction s as [|c s IH]; intros acc; [done|]. simpl. apply IH. }
  by rewrite H, be_value_acc.
Qed.

Lemma str_take_drop n s : str_take n s +:+ str_drop n s = s.
Proof. revert s. induction n as [|n IH]; intros [|c s]; try done. simpl. exact (f_equal (String c) (IH s)). Qed.

Lemma str_take_length n s : (n <= String.length s)%nat -> String.length (str_take n s) = n.
Proof. revert s. induction n as [|n IH]; intros [|c s] H; simpl in *; try lia. rewrite IH; lia. Qed.

Lemma str_drop_length n s : String.length (str_drop n s) = (String.length s - n)%nat.
Proof. revert s. induction n as [|n IH]; intros [|c s]; simpl; try done. Qed.

(** The successor key [k ++ "\x00"] bounds the keys after [k]. *)
Lemma bytes_ltb_nul k x : bytes_ltb x (k +:+ String "000"%char "") = negb (bytes_ltb k x).
Proof.
  revert x. induction k as [|c k IH]; intros x.
  - destruct x as [|y x]; [done|]. destruct y as [[] [] [] [] [] [] [] []]; by destruct x.
  - destruct x as [|y x]; [done|]. simpl. rewrite IH.
    destruct (N.ltb_spec (N_of_ascii y) (N_of_ascii c)), (N.ltb_spec (N_of_ascii c) (N_of_ascii y)),
      (N.eqb_spec (N_of_ascii y) (N_of_ascii c)), (N.eqb_spec (N_of_ascii c) (N_of_ascii y)); simpl; try lia; done.
Qed.

(** ** Batches key by key *)

Definition touches (w : pwrite) (k : string) : bool :=
  match w with
  | PSet k' _ | PDelete k' => String.eqb k' k
  | PDeleteRange lo hi => in_range lo hi k
  end.

Lemma apply_write_other m w k : touches w k = false -> apply_write m w !! k = m !! k.
Proof.
  destruct w as [k' v|k'|lo hi]; simpl; intros H.
  - apply String.eqb_neq in H. by rewrite lookup_insert_ne.
  - apply String.eqb_neq in H. by rewrite lookup_delete_ne.
  - destruct (m !! k) as [v|] eqn:E; [by apply map_lookup_filter_Some|].
    apply map_lookup_filter_None. by left.
Qed.

Lemma apply_batch_cons m w b : apply_batch m (w :: b) = apply_batch (apply_write m w) b.
Proof. done. Qed.

Lemma apply_batch_app m a b : apply_batch m (a ++ b)%list = apply_batch (apply_batch m a) b.
Proof. unfold apply_batch. apply foldl_app. Qed.

Lemma apply_batch_other m b k : (forall w, w ∈ b -> touches w k = false) -> apply_batch m b !! k = m !! k.
Proof.
  revert m. induction b as [|w b IH]; intros m H; [done|]. cbn [apply_batch foldl].
  change (foldl apply_write (apply_write m w) b) with (apply_batch (apply_write m w) b).
  rewrite IH by (intros w' Hw'; apply H; by right). apply apply_write_other. apply H. by left.
Qed.

(** A batch of deletes of keys leaves them absent and the others alone. *)
Lemma apply_deletes m ks k :
  apply_batch m (map PDelete ks) !! k = if decide (k ∈ ks) then None else m !! k.
Proof.
  revert m. induction ks as [|x ks IH]; intros m.
  { by rewrite decide_False by apply not_elem_of_nil. }
  cbn [map apply_batch foldl apply_write].
  change (foldl apply_write (delete x m) (map PDelete ks)) with (apply_batch (delete x m) (map PDelete ks)).
  rewrite IH. destruct (decide (k ∈ ks)) as [Hk|Hk].
  - rewrite decide_True by by right. done.
  - destruct (decide (k = x)) as [->|Hne].
    + rewrite decide_True by by left. apply lookup_delete_eq.
    + rewrite decide_False; [by apply lookup_delete_ne|]. intros [?|?]%elem_of_cons; done.
Qed.

(** ** Key families *)

(** NUL separates the parts of a key, so a part holds none. *)
Definition no_nul (s : string) : Prop := has_char "000" s = false.

Lemma prefix_ne p a b : has_prefix p a = true -> has_prefix p b = false -> a <> b.
Proof. intros H1 H2 ->. congruence. Qed.

Lemma str_app_inj_l a b c : a +:+ b = a +:+ c -> b = c.
Proof. induction a as [|x a IH]; [done|]. intros H. apply IH. by injection H. Qed.
