(* ===== verification/PebbleQueue.v ===== *)
(** * The relay queue of a standalone process (transport/pebblequeue)

    The stream IDs and entry keys of queue.go, and the Consumer of
    consumer.go: what it delivers, holds pending, takes back, acknowledges and
    trims, over the Pebble of PebbleModel. The relay codec (generated
    protobuf) is a parameter. *)

From S2P Require Import Prelude SessionState StoreSpec PebbleModel.
From Stdlib Require Import Ascii String DecimalString.
From stdpp Require Import sorting.

Local Open Scope string_scope.
Local Open Scope Z_scope.

(** ** Keys and IDs *)

Definition nul : string := String "000"%char EmptyString.

Definition entryPrefix : string := "q" +:+ nul.
Definition lastIDPrefix : string := "qlast" +:+ nul.
Definition probeKey : string := "qprobe".
Definition idLen : nat := 16.

Definition entryPrefixOf (stream : string) : string := entryPrefix +:+ stream +:+ nul.
Definition encodeID (ms seq : Z) : string := PutUint64 ms +:+ PutUint64 seq.
Definition entryKey (stream : string) (ms seq : Z) : string := entryPrefixOf stream +:+ encodeID ms seq.
Definition lastIDKey (stream : string) : string := lastIDPrefix +:+ stream.

Definition formatID (ms seq : Z) : string := format_int ms +:+ "-" +:+ format_int seq.

Definition parseID (id : string) : option (Z * Z) :=
  match str_cut "-" id with
  | None => None
  | Some (msPart, seqPart) =>
      match ParseUint msPart with
      | None => None
      | Some ms => match ParseUint seqPart with Some seq => Some (ms, seq) | None => None end
      end
  end.

Definition idOfKey (prefix key : string) : option string :=
  if negb (has_prefix prefix key) || negb (Nat.eqb (String.length key) (String.length prefix + idLen))
  then None
  else let raw := str_drop (String.length prefix) key in
       Some (formatID (Uint64 (str_take 8 raw)) (Uint64 (str_drop 8 raw))).

(** ** stream *)

Record stream := mkStream { st_lastMS : Z; st_lastSeq : Z }.

(** [streamLocked]: the last ID a store knows for a stream. *)
Definition loadStream (v : option string) : stream :=
  match v with
  | Some value =>
      if Nat.eqb (String.length value) idLen
      then mkStream (Uint64 (str_take 8 value)) (Uint64 (str_drop 8 value)) else mkStream 0 0
  | None => mkStream 0 0
  end.

(** [stream.next] *)
Definition next (st : stream) (now : Z) : stream :=
  let ms := wrapu64 (UnixMilli now) in
  if ms <=? st_lastMS st then mkStream (st_lastMS st) (wrapu64 (st_lastSeq st + 1)) else mkStream ms 0.

Definition lastID (st : stream) : string :=
  if (st_lastMS st =? 0) && (st_lastSeq st =? 0) then "" else formatID (st_lastMS st) (st_lastSeq st).

(** ** Consumer *)

Definition readBatch : nat := 256.
Definition defaultReleaseDelay : Z := 30 * 10 ^ 9.

(** [released] holds the entries handed back with the instant each falls due. *)
Record Consumer := mkConsumer {
  c_stream : string;
  releaseDelay : Z;
  cursor : option string;
  pending : gset string;
  released : list (string * Z);
  c_closed : bool
}.

Definition c_prefix (c : Consumer) : string := entryPrefixOf (c_stream c).

Definition set_cursor (k : string) (c : Consumer) : Consumer :=
  mkConsumer (c_stream c) (releaseDelay c) (Some k) (pending c) (released c) (c_closed c).
Definition set_pending (p : gset string) (c : Consumer) : Consumer :=
  mkConsumer (c_stream c) (releaseDelay c) (cursor c) p (released c) (c_closed c).
Definition set_released (l : list (string * Z)) (c : Consumer) : Consumer :=
  mkConsumer (c_stream c) (releaseDelay c) (cursor c) (pending c) l (c_closed c).

(** [Broker.Consumer]: the consumer a supplier starts with. *)
Definition NewConsumer (stream : string) (claimIdleTimeoutMs : Z) : Consumer :=
  let d := claimIdleTimeoutMs * 10 ^ 6 in
  mkConsumer stream (if d <=? 0 then defaultReleaseDelay else d) None ∅ [] false.

Definition c_key (c : Consumer) (id : string) : option string :=
  match parseID id with
  | Some (ms, seq) => Some (c_prefix c +:+ (PutUint64 ms +:+ PutUint64 seq))
  | None => None
  end.

(** [sortIDs]: the IDs by their numbers; a malformed one counts as 0-0. *)
Definition id_num (id : string) : Z * Z := default (0, 0) (parseID id).
Definition id_le (a b : string) : Prop :=
  (id_num a).1 < (id_num b).1 \/ ((id_num a).1 = (id_num b).1 /\ (id_num a).2 <= (id_num b).2).

#[export] Instance id_le_dec : RelDecision id_le.
Proof. intros a b. unfold id_le. apply _. Defined.

Definition sortIDs (ids : list string) : list string := merge_sort id_le ids.

Inductive QueueErr :=
| QClosed
| QNoStream
| QMalformedID
| QStore (e : StoreErr).

Section Consumer.
Context {D : Type} `{PO : !PebbleOps D}.
Context {M : Type}.
Variable Unmarshal : string -> option M.

Record StreamMessage := mkMessage {
  ID : string;
  StreamName : string;
  Message : M;
  IsReclaim : bool
}.

Definition decode (c : Consumer) (id value : string) : option StreamMessage :=
  match Unmarshal value with
  | Some msg => Some (mkMessage id (c_stream c) msg false)
  | None => None
  end.

Definition reclaim (m : StreamMessage) : StreamMessage := mkMessage (ID m) (StreamName m) (Message m) true.

Definition p_write (f : Fault) (b : list pwrite) (d : D) : D * result unit StoreErr :=
  let '(d', a) := round_trip f (fun d => (p_commit b d, tt)) d in
  (d', match a with Ok _ => Ok tt | Err e => Err (ErrIo e) end).

Definition dropUndecodable (f : Fault) (d : D) (c : Consumer) (id : string) : D * Consumer :=
  match c_key c id with
  | None => (d, c)
  | Some key => (fst (p_write f [PDelete key] d), set_pending (pending c ∖ {[id]}) c)
  end.

Definition readLocked (f1 f2 : Fault) (d : D) (c : Consumer) (id : string)
  : D * Consumer * result (option StreamMessage) StoreErr :=
  match c_key c id with
  | None => (d, c, Ok None)
  | Some key =>
      match p_get f1 d key with
      | Err e => (d, c, Err e)
      | Ok None => (d, c, Ok None)
      | Ok (Some value) =>
          match decode c id value with
          | None => (dropUndecodable f2 d c id, Ok None)
          | Some msg => (d, c, Ok (Some msg))
          end
      end
  end.

Definition io_next (n : nat) (io : Io) : Io := fun k => io (n + k)%nat.

(** The first loop of [nextBatch], over the entries handed back. *)
Fixpoint releasedLoop (io : Io) (now : Z) (d : D) (c : Consumer) (l : list (string * Z))
    (out : list StreamMessage) (nextDue : Z)
  : D * Consumer * list StreamMessage * Z * option StoreErr :=
  match l with
  | [] => (d, c, out, nextDue, None)
  | (id, due) :: rest =>
      if now <? due then
        releasedLoop (io_next 2 io) now d (set_released (released c ++ [(id, due)]) c) rest out
          (if (nextDue =? 0) || (due <? nextDue) then due else nextDue)
      else
        match readLocked (io 0%nat) (io 1%nat) d c id with
        | (d', c', Err e) => (d', set_released (released c' ++ (id, due) :: rest) c', out, nextDue, Some e)
        | (d', c', Ok None) => releasedLoop (io_next 2 io) now d' c' rest out nextDue
        | (d', c', Ok (Some msg)) =>
            releasedLoop (io_next 2 io) now d' (set_pending ({[id]} ∪ pending c') c') rest
              (out ++ [reclaim msg]) nextDue
        end
  end.

(** The second loop, over what the iterator yields after the cursor. *)
Fixpoint iterLoop (io : Io) (d : D) (c : Consumer) (entries : list (string * string))
    (out : list StreamMessage) : D * Consumer * list StreamMessage :=
  match entries with
  | [] => (d, c, out)
  | (key, value) :: rest =>
      if Nat.ltb (List.length out) readBatch then
        let c := set_cursor key c in
        match idOfKey (c_prefix c) key with
        | None => iterLoop (io_next 1 io) d c rest out
        | Some id =>
            match decode c id value with
            | None => let '(d', c') := dropUndecodable (io 0%nat) d c id in
                      iterLoop (io_next 1 io) d' c' rest out
            | Some msg => iterLoop (io_next 1 io) d (set_pending ({[id]} ∪ pending c) c) rest (out ++ [msg])
            end
        end
      else (d, c, out)
  end.

(** [nextBatch]. [failIter] is an iterator that could not be opened, [cut] one
    that failed after that many entries. *)
Definition nextBatch (io1 io2 : Io) (failIter : bool) (cut : option nat) (now : Z) (d : D) (c : Consumer)
  : D * Consumer * list StreamMessage * Z * option StoreErr :=
  match releasedLoop io1 now d (set_released [] c) (released c) [] 0 with
  | (d1, c1, out, nextDue, Some e) => (d1, c1, out, nextDue, Some e)
  | (d1, c1, out, nextDue, None) =>
      let lower := match cursor c1 with None => c_prefix c1 | Some k => k +:+ nul end in
      if failIter then (d1, c1, out, nextDue, Some (ErrIo IoLost))
      else
        let all := p_iter d1 lower (keyUpperBound (c_prefix c1)) in
        let entries := match cut with Some n => take n all | None => all end in
        let '(d2, c2, out2) := iterLoop io2 d1 c1 entries out in
        (d2, c2, out2, nextDue, match cut with Some _ => Some (ErrIo IoLost) | None => None end)
  end.

Definition putBack (msgs : list StreamMessage) (c : Consumer) : Consumer :=
  foldl (fun c m => set_released (released c ++ [(ID m, 0)]) (set_pending (pending c ∖ {[ID m]}) c)) c msgs.

Definition checkOpen (c : Consumer) (m : StreamMessage) : option QueueErr :=
  if c_closed c then Some QClosed
  else if String.eqb (StreamName m) "" then Some QNoStream else None.

Definition AckMessage (f : Fault) (d : D) (c : Consumer) (m : StreamMessage)
  : D * Consumer * result unit QueueErr :=
  match checkOpen c m with
  | Some e => (d, c, Err e)
  | None =>
      match c_key c (ID m) with
      | None => (d, c, Err QMalformedID)
      | Some key =>
          match p_write f [PDelete key] d with
          | (d', Err e) => (d', c, Err (QStore e))
          | (d', Ok _) => (d', set_pending (pending c ∖ {[ID m]}) c, Ok tt)
          end
      end
  end.

Definition ReleaseMessage (now : Z) (c : Consumer) (m : StreamMessage) : Consumer * result unit QueueErr :=
  match checkOpen c m with
  | Some e => (c, Err e)
  | None => (set_released (released c ++ [(ID m, now + releaseDelay c)]) (set_pending (pending c ∖ {[ID m]}) c), Ok tt)
  end.

(** The deletes [AckInBatch] adds to a batch. *)
Definition AckInBatch (c : Consumer) (ids : list string) : list pwrite :=
  omap (fun id => PDelete <$> c_key c id) ids.

Definition Acked (ids : list string) (c : Consumer) : Consumer := set_pending (pending c ∖ list_to_set ids) c.

Definition Exists (f : Fault) (d : D) (c : Consumer) (id : string) : result bool QueueErr :=
  match c_key c id with
  | None => Err QMalformedID
  | Some key =>
      match p_get f d key with
      | Ok v => Ok (match v with Some _ => true | None => false end)
      | Err e => Err (QStore e)
      end
  end.

(** The loop of [EachOwnPending] over the pending IDs, in their order. *)
Fixpoint ownPendingLoop (io : Io) (d : D) (c : Consumer) (ids : list string)
  : D * Consumer * list StreamMessage * option StoreErr :=
  match ids with
  | [] => (d, c, [], None)
  | id :: rest =>
      match readLocked (io 0%nat) (io 1%nat) d c id with
      | (d', c', Err e) =>
          let '(d2, c2, msgs, last) := ownPendingLoop (io_next 2 io) d' c' rest in
          (d2, c2, msgs, match last with Some e2 => Some e2 | None => Some e end)
      | (d', c', Ok None) => ownPendingLoop (io_next 2 io) d' (set_pending (pending c' ∖ {[id]}) c') rest
      | (d', c', Ok (Some msg)) =>
          let '(d2, c2, msgs, e) := ownPendingLoop (io_next 2 io) d' (set_pending ({[id]} ∪ pending c') c') rest in
          (d2, c2, reclaim msg :: msgs, e)
      end
  end.

Definition EachOwnPending (io : Io) (d : D) (c : Consumer)
  : D * Consumer * list StreamMessage * option StoreErr :=
  ownPendingLoop io d c (sortIDs (elements (pending c))).

(** [TrimStream] *)
Definition TrimStream (f : Fault) (failIter : bool) (cut : option nat) (now maxAge : Z) (d : D) (c : Consumer)
  : D * Consumer * result Z StoreErr :=
  if c_closed c then (d, c, Ok 0)
  else
    let upper := c_prefix c +:+ encodeID (wrapu64 (UnixMilli (now - maxAge))) 0 in
    if failIter then (d, c, Err (ErrIo IoLost))
    else
      let all := p_iter d (c_prefix c) (Some upper) in
      let entries := match cut with Some n => take n all | None => all end in
      let ids := omap (fun kv => idOfKey (c_prefix c) kv.1) entries in
      let c1 := set_pending (pending c ∖ list_to_set ids) c in
      match cut with
      | Some _ => (d, c1, Err (ErrIo IoLost))
      | None =>
          if Nat.eqb (List.length ids) 0 then (d, c1, Ok 0)
          else match p_write f [PDeleteRange (c_prefix c) (Some upper)] d with
               | (d', Err e) => (d', c1, Err e)
               | (d', Ok _) => (d', c1, Ok (Z.of_nat (List.length ids)))
               end
      end.

Definition CloseConsumer (c : Consumer) : Consumer :=
  mkConsumer (c_stream c) (releaseDelay c) (cursor c) (pending c) (released c) true.
End Consumer.

(** ** IDs and keys *)

Lemma uint_no_dash d : has_char "-" (NilEmpty.string_of_uint d) = false.
Proof. by induction d. Qed.

Lemma format_uint_no_dash z : 0 <= z -> has_char "-" (format_int z) = false.
Proof.
  intros Hz. unfold format_int. destruct z as [|p|p]; [done| |lia].
  change (NilZero.string_of_int (Z.to_int (Z.pos p))) with (NilZero.string_of_uint (Pos.to_uint p)).
  unfold NilZero.string_of_uint. destruct (Pos.to_uint p); [done|..]; apply uint_no_dash.
Qed.

Lemma parseID_formatID ms seq : in_uint64 ms -> in_uint64 seq -> parseID (formatID ms seq) = Some (ms, seq).
Proof.
  intros Hm Hs. unfold parseID, formatID.
  change ("-" +:+ format_int seq) with (String "-" (format_int seq)).
  rewrite str_cut_app by (apply format_uint_no_dash; unfold in_uint64 in *; lia).
  by rewrite !ParseUint_format.
Qed.

Lemma c_key_formatID c ms seq : in_uint64 ms -> in_uint64 seq ->
  c_key c (formatID ms seq) = Some (entryKey (c_stream c) ms seq).
Proof. intros. unfold c_key. by rewrite parseID_formatID. Qed.

Lemma encodeID_length ms seq : String.length (encodeID ms seq) = idLen.
Proof. unfold encodeID. by rewrite str_length_app, !PutUint64_length. Qed.

Lemma encodeID_split ms seq : in_uint64 ms -> in_uint64 seq ->
  Uint64 (str_take 8 (encodeID ms seq)) = ms /\ Uint64 (str_drop 8 (encodeID ms seq)) = seq.
Proof.
  intros Hm Hs. unfold encodeID.
  pose proof (str_take_app (PutUint64 ms) (PutUint64 seq)) as H1.
  pose proof (str_drop_app (PutUint64 ms) (PutUint64 seq)) as H2.
  rewrite PutUint64_length in H1, H2. rewrite H1, H2, !Uint64_PutUint64. by rewrite !wrapu64_id.
Qed.

Lemma idOfKey_entryKey name ms seq : in_uint64 ms -> in_uint64 seq ->
  idOfKey (entryPrefixOf name) (entryKey name ms seq) = Some (formatID ms seq).
Proof.
  intros Hm Hs. unfold idOfKey, entryKey. rewrite has_prefix_app, str_length_app, encodeID_length, Nat.eqb_refl.
  cbn [negb orb]. rewrite str_drop_app. by destruct (encodeID_split ms seq Hm Hs) as [-> ->].
Qed.

Lemma idOfKey_sound name key id :
  idOfKey (entryPrefixOf name) key = Some id ->
  exists ms seq, in_uint64 ms /\ in_uint64 seq /\ key = entryKey name ms seq /\ id = formatID ms seq.
Proof.
  unfold idOfKey. destruct (has_prefix _ _) eqn:Hp; [|done].
  destruct (Nat.eqb_spec (String.length key) (String.length (entryPrefixOf name) + idLen)) as [Hl|]; [|done].
  cbn [negb orb]. intros Hid. apply has_prefix_iff in Hp as [raw ->].
  rewrite str_length_app in Hl. assert (String.length raw = idLen) as Hr by lia. unfold idLen in Hr.
  rewrite str_drop_app in Hid. injection Hid as <-.
  assert (String.length (str_take 8 raw) = 8%nat) as H1 by (rewrite str_take_length; lia).
  assert (String.length (str_drop 8 raw) = 8%nat) as H2 by (rewrite str_drop_length; lia).
  exists (Uint64 (str_take 8 raw)), (Uint64 (str_drop 8 raw)).
  split_and!; [by apply Uint64_range..| |done].
  unfold entryKey, encodeID. f_equal. rewrite !PutUint64_Uint64 by done. by rewrite str_take_drop.
Qed.

(** Keys are ordered as the IDs they carry. *)
Definition id_ltb (a b : Z * Z) : bool := (a.1 <? b.1) || ((a.1 =? b.1) && (a.2 <? b.2)).

Lemma entryKey_order name m1 s1 m2 s2 :
  in_uint64 m1 -> in_uint64 s1 -> in_uint64 m2 -> in_uint64 s2 ->
  bytes_ltb (entryKey name m1 s1) (entryKey name m2 s2) = id_ltb (m1, s1) (m2, s2).
Proof.
  intros Hm1 Hs1 Hm2 Hs2. unfold entryKey. rewrite bytes_ltb_app, bytes_ltb_value by by rewrite !encodeID_length.
  assert (forall m s, in_uint64 m -> in_uint64 s -> be_value 0 (encodeID m s) = m * 2 ^ 64 + s) as Hv.
  { intros m s Hm Hs. unfold encodeID. rewrite be_value_app, PutUint64_length.
    change (be_value 0 (PutUint64 m)) with (Uint64 (PutUint64 m)).
    change (be_value 0 (PutUint64 s)) with (Uint64 (PutUint64 s)).
    rewrite !Uint64_PutUint64. by rewrite !wrapu64_id. }
  rewrite !Hv by done. unfold id_ltb, in_uint64, uint64_max in *. simpl.
  destruct (Z.ltb_spec m1 m2), (Z.eqb_spec m1 m2), (Z.ltb_spec s1 s2); simpl;
    first [apply Z.ltb_lt; lia | apply Z.ltb_ge; lia].
Qed.

Lemma entryKey_inj name m1 s1 m2 s2 :
  in_uint64 m1 -> in_uint64 s1 -> in_uint64 m2 -> in_uint64 s2 ->
  entryKey name m1 s1 = entryKey name m2 s2 -> m1 = m2 /\ s1 = s2.
Proof.
  intros Hm1 Hs1 Hm2 Hs2 He. pose proof (idOfKey_entryKey name m1 s1 Hm1 Hs1) as H1.
  rewrite He, idOfKey_entryKey in H1 by done. injection H1 as H1.
  apply (f_equal parseID) in H1. rewrite !parseID_formatID in H1 by done. by simplify_eq.
Qed.

Lemma formatID_inj m1 s1 m2 s2 :
  in_uint64 m1 -> in_uint64 s1 -> in_uint64 m2 -> in_uint64 s2 ->
  formatID m1 s1 = formatID m2 s2 -> m1 = m2 /\ s1 = s2.
Proof.
  intros Hm1 Hs1 Hm2 Hs2 H1.
  apply (f_equal parseID) in H1. rewrite !parseID_formatID in H1 by done. by simplify_eq.
Qed.

(** IDs only increase, clock steps backwards included. *)
Lemma next_increases st now :
  in_uint64 (st_lastMS st) -> 0 <= st_lastSeq st < uint64_max ->
  id_ltb (st_lastMS st, st_lastSeq st) (st_lastMS (next st now), st_lastSeq (next st now)) = true /\
  in_uint64 (st_lastMS (next st now)) /\ in_uint64 (st_lastSeq (next st now)).
Proof.
  intros Hm Hs. unfold next, id_ltb. pose proof (wrapu64_range (UnixMilli now)).
  destruct (Z.leb_spec (wrapu64 (UnixMilli now)) (st_lastMS st)); simpl.
  - rewrite wrapu64_id by (unfold in_uint64, uint64_max in *; lia).
    rewrite Z.ltb_irrefl, Z.eqb_refl. simpl. split; [apply Z.ltb_lt; lia|]. unfold in_uint64, uint64_max in *. lia.
  - split; [apply orb_true_iff; left; apply Z.ltb_lt; lia|]. split; [done|]. unfold in_uint64, uint64_max. lia.
Qed.

(** ** No stored relay is lost from sight *)

Section Delivery.
Context {D : Type} `{PO : !PebbleOps D} `{PL : !PebbleLaws D}.
Context {M : Type}.
Variable Unmarshal : string -> option M.
(** The IDs a trim that failed took out of pending: a ghost of the proofs. *)
Variable lost : gset string.

Definition ahead (c : Consumer) (key : string) : Prop :=
  match cursor c with None => True | Some k => bytes_lt k key end.

Definition held (c : Consumer) (id : string) : Prop := id ∈ pending c \/ id ∈ (released c).*1 \/ id ∈ lost.

(** An entry of the consumer's stream that decodes. *)
Definition live_entry (d : D) (name : string) (ms seq : Z) : Prop :=
  in_uint64 ms /\ in_uint64 seq /\
  exists v, pview d !! entryKey name ms seq = Some v /\ is_Some (Unmarshal v).

(** Every such entry is still to be read, or is pending, or was handed back, or
    a failed trim forgot it. *)
Definition covered (d : D) (c : Consumer) : Prop :=
  forall ms seq, live_entry d (c_stream c) ms seq ->
  ahead c (entryKey (c_stream c) ms seq) \/ held c (formatID ms seq).

(** A store that lost entries and gained none. *)
Definition shrinks (d d' : D) : Prop := pview d' ⊆ pview d.

#[local] Instance shrinks_preorder : PreOrder shrinks.
Proof. split; unfold shrinks; [by intros d|]. intros a b c ? ?. by etransitivity. Qed.

Lemma live_shrinks d d' name ms seq : shrinks d d' -> live_entry d' name ms seq -> live_entry d name ms seq.
Proof.
  intros Hs (? & ? & v & Hv & ?). split_and!; [done..|]. exists v. split; [|done]. by apply (lookup_weaken _ _ _ _ Hv).
Qed.

Lemma delete_shrinks k d : shrinks d (p_commit [PDelete k] d).
Proof. unfold shrinks. rewrite view_commit. simpl. apply delete_subseteq. Qed.

Lemma p_write_state f b d : fst (p_write f b d) = d \/ fst (p_write f b d) = p_commit b d.
Proof. unfold p_write. destruct f as [| |[]]; simpl; auto. Qed.

Lemma write_shrinks f k d : shrinks d (fst (p_write f [PDelete k] d)).
Proof. destruct (p_write_state f [PDelete k] d) as [-> | ->]; [reflexivity|apply delete_shrinks]. Qed.

Lemma p_write_ok f b d d' : p_write f b d = (d', Ok tt) -> d' = p_commit b d.
Proof. unfold p_write. destruct f as [| |[]]; simpl; congruence. Qed.

(** What a read of one entry changes. *)
Lemma readLocked_frame f1 f2 d c id d' c' r :
  readLocked Unmarshal f1 f2 d c id = (d', c', r) ->
  c_stream c' = c_stream c /\ cursor c' = cursor c /\ released c' = released c /\
  (forall x, x <> id -> x ∈ pending c -> x ∈ pending c') /\ shrinks d d' /\
  (r = Ok None -> forall ms seq, id = formatID ms seq -> live_entry d' (c_stream c) ms seq -> False).
Proof.
  unfold readLocked, dropUndecodable, p_get, decode. intros Hr.
  destruct (c_key c id) as [key|] eqn:Hk; simplify_eq.
  2:{ split_and!; try done. intros _ ms seq -> (? & ? & _). by rewrite c_key_formatID in Hk. }
  destruct (read_trip f1 (pview d !! key)) as [[value|]|e] eqn:Hg.
  - assert (pview d !! key = Some value) as Hv by (destruct f1; by simplify_eq/=).
    destruct (Unmarshal value) as [msg|] eqn:Hu; simplify_eq; [by split_and!|].
    assert (shrinks d (fst (p_write f2 [PDelete key] d))) as Hsh by apply write_shrinks.
    destruct (p_write f2 [PDelete key] d) as [d2 e2]; simplify_eq/=. split_and!; try done; [set_solver|].
    intros _ ms seq -> (? & ? & v & Hv' & [m Hm]). rewrite c_key_formatID in Hk by done. simplify_eq.
    apply (lookup_weaken _ _ _ _ Hv') in Hsh. congruence.
  - assert (pview d !! key = None) as Hv by (destruct f1; by simplify_eq/=). simplify_eq. split_and!; try done.
    intros _ ms seq -> (? & ? & v & Hv' & _). rewrite c_key_formatID in Hk by done. congruence.
  - simplify_eq. by split_and!.
Qed.

(** The invariant while the entries [l] are being taken back. *)
Definition covered_with (l : list string) (d : D) (c : Consumer) : Prop :=
  forall ms seq, live_entry d (c_stream c) ms seq ->
  ahead c (entryKey (c_stream c) ms seq) \/ held c (formatID ms seq) \/ formatID ms seq ∈ l.

Lemma releasedLoop_covered io now d c l out nd d' c' out' nd' e :
  covered_with l.*1 d c -> releasedLoop Unmarshal io now d c l out nd = (d', c', out', nd', e) ->
  covered d' c'.
Proof.
  revert io d c out nd. induction l as [|[id due] l IH]; intros io d c out nd Hc Hl; simpl in Hl.
  { simplify_eq. intros ms seq Hlive. destruct (Hc ms seq Hlive) as [?|[?|Hn]]; [auto..|]. by apply elem_of_nil in Hn. }
  destruct (now <? due).
  { eapply IH; [|exact Hl]. intros ms seq Hlive. unfold held. cbn [set_released cursor pending released c_stream] in *.
    rewrite fmap_app. destruct (Hc ms seq Hlive) as [?|[[?|?]|Hn]]; [by left|set_solver..]. }
  destruct (readLocked _ _ _ _ _ _) as [[d1 c1] [[msg|]|err]] eqn:Hr;
    destruct (readLocked_frame _ _ _ _ _ _ _ _ Hr) as (Hst & Hcu & Hre & Hpe & Hsh & Hno).
  - eapply IH; [|exact Hl]. intros ms seq Hlive. cbn [set_pending cursor pending released c_stream] in *.
    rewrite Hst in *. unfold ahead, held. cbn [set_pending cursor pending released c_stream]. rewrite Hcu, Hre.
    destruct (decide (formatID ms seq = id)) as [->|Hne]; [set_solver|].
    destruct (Hc ms seq) as [?|[[?|?]|Hn]]; [by eapply live_shrinks|by left|set_solver..].
  - eapply IH; [|exact Hl]. intros ms seq Hlive. rewrite Hst in *. unfold ahead, held. rewrite Hcu, Hre.
    destruct (decide (formatID ms seq = id)) as [Heq|Hne]; [by destruct (Hno eq_refl ms seq)|].
    destruct (Hc ms seq) as [?|[[?|?]|Hn]]; [by eapply live_shrinks|by left|set_solver..].
  - simplify_eq. intros ms seq Hlive. cbn [set_released cursor pending released c_stream] in *. rewrite Hst in *.
    unfold ahead, held. cbn [set_released cursor pending released c_stream]. rewrite Hcu, Hre, fmap_app.
    destruct (decide (formatID ms seq = id)) as [->|Hne]; [set_solver|].
    destruct (Hc ms seq) as [?|[[?|?]|Hn]]; [by eapply live_shrinks|by left|set_solver..].
Qed.

(** The invariant while an iterator over [d0] still has [tail] to yield. *)
Definition covered_iter (d0 : D) (tail : list (string * string)) (d : D) (c : Consumer) : Prop :=
  shrinks d0 d /\ StronglySorted bytes_lt tail.*1 /\ Forall (fun kv => pview d0 !! kv.1 = Some kv.2) tail /\
  Forall (fun kv => ahead c kv.1) tail /\
  forall ms seq, live_entry d (c_stream c) ms seq ->
    held c (formatID ms seq) \/ entryKey (c_stream c) ms seq ∈ tail.*1.

Lemma covered_iter_done d0 tail d c : covered_iter d0 tail d c -> covered d c.
Proof.
  intros (_ & _ & _ & Ha & Hc) ms seq Hl. destruct (Hc ms seq Hl) as [?|Hin]; [by right|]. left.
  apply list_elem_of_fmap in Hin as (kv & -> & Hin). exact (proj1 (Forall_forall _ _) Ha _ Hin).
Qed.

(** Reading the first key of the tail moves the cursor to it. *)
Lemma covered_iter_cons d0 key value tail d c d' c' :
  covered_iter d0 ((key, value) :: tail) d c ->
  c_stream c' = c_stream c -> cursor c' = Some key -> released c' = released c -> shrinks d d' ->
  (forall ms seq, key <> entryKey (c_stream c) ms seq -> formatID ms seq ∈ pending c -> in_uint64 ms -> in_uint64 seq ->
     formatID ms seq ∈ pending c') ->
  (forall ms seq, key = entryKey (c_stream c) ms seq -> live_entry d' (c_stream c) ms seq -> formatID ms seq ∈ pending c') ->
  covered_iter d0 tail d' c'.
Proof.
  intros (Hsh & Hso & Hv & Ha & Hc) Hst Hcu Hre Hsh' Hp1 Hp2.
  change (((key, value) :: tail).*1) with (key :: tail.*1) in *.
  apply StronglySorted_inv in Hso as [Hso Hlt]. apply Forall_cons in Hv as [_ Hv].
  split_and!; [by etransitivity|done|done| |].
  - apply Forall_forall. intros kv Hin. unfold ahead. rewrite Hcu. apply (proj1 (Forall_forall _ _) Hlt).
    by apply list_elem_of_fmap_2.
  - intros ms seq Hl. rewrite Hst in *. destruct (decide (key = entryKey (c_stream c) ms seq)) as [He|Hne].
    { left. left. by apply Hp2. }
    destruct (Hc ms seq) as [[Hh|Hh]|Hin]; [by eapply live_shrinks| | |].
    + left. left. destruct Hl as (? & ? & _). by apply Hp1.
    + left. right. by rewrite Hre.
    + apply elem_of_cons in Hin as [?|?]; [by subst|by right].
Qed.

Lemma iterLoop_covered io d0 d c entries more out d' c' out' :
  covered_iter d0 (entries ++ more) d c ->
  iterLoop Unmarshal io d c entries out = (d', c', out') -> covered d' c'.
Proof.
  revert io d c out. induction entries as [|[key value] entries IH]; intros io d c out Hc Hl; simpl in Hl.
  { simplify_eq. by eapply covered_iter_done. }
  destruct (Nat.ltb _ _); [|simplify_eq; by eapply covered_iter_done].
  assert (pview d0 !! key = Some value) as Hkv.
  { destruct Hc as (_ & _ & Hv & _). by apply Forall_cons in Hv as [? _]. }
  assert (shrinks d0 d) as Hd0 by apply Hc.
  assert (forall d1, shrinks d d1 -> forall ms seq, key = entryKey (c_stream c) ms seq ->
    live_entry d1 (c_stream c) ms seq -> is_Some (Unmarshal value) /\ idOfKey (c_prefix c) key = Some (formatID ms seq)) as Hdec.
  { intros d1 Hd1 ms seq -> (Hm & Hs & v & Hv & Hu). apply (lookup_weaken _ _ _ _ Hv) in Hd1.
    apply (lookup_weaken _ _ _ _ Hd1) in Hd0. rewrite Hkv in Hd0. simplify_eq. split; [done|]. by apply idOfKey_entryKey. }
  change (c_prefix (set_cursor key c)) with (c_prefix c) in Hl.
  destruct (idOfKey (c_prefix c) key) as [id|] eqn:Hid.
  2:{ eapply IH; [|exact Hl]. eapply covered_iter_cons; [exact Hc|done..|].
      intros ms seq He Hlive. by destruct (Hdec d (reflexivity _) ms seq He Hlive). }
  destruct (idOfKey_sound _ _ _ Hid) as (im & is_ & Him & His & -> & ->).
  unfold decode in Hl. destruct (Unmarshal value) as [msg|] eqn:Hu.
  - eapply IH; [|exact Hl]. eapply covered_iter_cons; [exact Hc|done|done|done|reflexivity| |]; simpl.
    + intros. set_solver.
    + intros ms seq He Hlive. destruct (Hdec d (reflexivity _) ms seq He Hlive) as [_ [= ->]]. set_solver.
  - unfold dropUndecodable in Hl. rewrite c_key_formatID in Hl by done.
    destruct (p_write _ _ d) as [d1 e1] eqn:Hw. simpl in Hl.
    assert (shrinks d d1) as Hd1.
    { pose proof (write_shrinks (io 0%nat) (entryKey (c_stream c) im is_) d) as Hx.
      cbn [set_cursor c_stream] in Hw. by rewrite Hw in Hx. }
    eapply IH; [|exact Hl]. eapply covered_iter_cons; [exact Hc|done|done|done|done| |]; simpl.
    + intros ms seq Hne Hin Hm Hs. apply elem_of_difference. split; [done|].
      rewrite elem_of_singleton. intros [-> ->]%formatID_inj; done.
    + intros ms seq He Hlive. by destruct (Hdec d1 Hd1 ms seq He Hlive) as [[? ?] _].
Qed.

Lemma released_stream io now d c l out nd d' c' out' nd' e :
  releasedLoop Unmarshal io now d c l out nd = (d', c', out', nd', e) ->
  c_stream c' = c_stream c /\ cursor c' = cursor c.
Proof.
  revert io d c out nd. induction l as [|[id due] l IH]; intros io d c out nd Hl; simpl in Hl; [by simplify_eq|].
  destruct (now <? due); [by apply IH in Hl|].
  destruct (readLocked _ _ _ _ _ _) as [[d1 c1] [[msg|]|err]] eqn:Hr;
    destruct (readLocked_frame _ _ _ _ _ _ _ _ Hr) as (Hst & Hcu & _).
  - apply IH in Hl. simpl in Hl. by rewrite Hst, Hcu in Hl.
  - apply IH in Hl. by rewrite Hst, Hcu in Hl.
  - by simplify_eq.
Qed.

(** What the iterator yields is every entry after the cursor. *)
Lemma covered_start d c :
  covered d c ->
  covered_iter d (p_iter d (match cursor c with None => c_prefix c | Some k => k +:+ nul end)
                    (keyUpperBound (c_prefix c))) d c.
Proof.
  intros Hc. set (lower := match cursor c with None => _ | Some _ => _ end).
  assert (forall K, has_prefix (c_prefix c) K = true -> ahead c K <-> in_range lower (keyUpperBound (c_prefix c)) K = true) as Hr.
  { intros K HK. rewrite <- range_is_prefix in HK. unfold in_range in *. apply andb_true_iff in HK as [HK1 HK2].
    rewrite HK2, andb_true_r. unfold ahead, lower. destruct (cursor c); [|done]. unfold nul, bytes_lt.
    by rewrite bytes_ltb_nul, negb_involutive. }
  split_and!; [reflexivity|apply iter_sorted| | |].
  - apply Forall_forall. intros [k v] Hin. by apply iter_elem in Hin as [? _].
  - apply Forall_forall. intros [k v] Hin. apply iter_elem in Hin as [_ Hin]. simpl in *.
    unfold ahead. unfold lower, in_range in Hin. destruct (cursor c) as [k0|]; [|done].
    apply andb_true_iff in Hin as [Hin _]. unfold nul, bytes_lt in *. by rewrite bytes_ltb_nul, negb_involutive in Hin.
  - intros ms seq Hl. destruct (Hc ms seq Hl) as [Ha|?]; [right|by left].
    destruct Hl as (_ & _ & v & Hv & _). apply list_elem_of_fmap. exists (entryKey (c_stream c) ms seq, v).
    split; [done|]. apply iter_elem. split; [done|]. apply Hr; [apply has_prefix_app|done].
Qed.

Lemma nextBatch_covered io1 io2 failIter cut now d c d' c' out nd e :
  covered d c -> nextBatch Unmarshal io1 io2 failIter cut now d c = (d', c', out, nd, e) -> covered d' c'.
Proof.
  intros Hc Hn. unfold nextBatch in Hn.
  destruct (releasedLoop _ _ _ _ _ _ _ _) as [[[[d1 c1] out1] nd1] e1] eqn:Hr.
  assert (covered d1 c1) as Hc1.
  { eapply releasedLoop_covered; [|exact Hr]. intros ms seq Hl.
    destruct (Hc ms seq Hl) as [?|[?|[?|?]]]; [by left|right; left; by left|by right; right|right; left; by right; right]. }
  destruct e1; [by simplify_eq|]. destruct failIter; [by simplify_eq|].
  apply covered_start in Hc1. set (all := p_iter d1 _ _) in *.
  destruct (iterLoop _ _ _ _ _ _) as [[d2 c2] out2] eqn:Hi. simplify_eq.
  eapply (iterLoop_covered _ d1 d1 c1 _ (match cut with Some n => drop n all | None => [] end)); [|exact Hi].
  destruct cut as [n|]; [by rewrite take_drop|by rewrite app_nil_r].
Qed.

(** *** The other operations *)

(** A store in which every live entry of the stream was live before. *)
Lemma covered_weaken d c d' : covered d c ->
  (forall ms seq, live_entry d' (c_stream c) ms seq -> live_entry d (c_stream c) ms seq) -> covered d' c.
Proof. intros Hc Hl ms seq H. by apply Hc, Hl. Qed.

(** IDs whose entries are gone may be forgotten. *)
Lemma covered_acked d c d' ids : covered d c ->
  (forall ms seq, live_entry d' (c_stream c) ms seq -> live_entry d (c_stream c) ms seq /\ formatID ms seq ∉ ids) ->
  covered d' (Acked ids c).
Proof.
  intros Hc Hl ms seq H. cbn [Acked set_pending c_stream] in H. destruct (Hl ms seq H) as [H1 H2].
  destruct (Hc ms seq H1) as [?|[?|?]]; [by left|right; left|right; by right].
  cbn [Acked set_pending pending]. apply elem_of_difference. by rewrite elem_of_list_to_set.
Qed.

Lemma commit_key_gone d key name ms seq :
  key = entryKey name ms seq -> live_entry (p_commit [PDelete key] d) name ms seq -> False.
Proof. intros -> (_ & _ & v & Hv & _). rewrite view_commit in Hv. simpl in Hv. by rewrite lookup_delete_eq in Hv. Qed.

Lemma AckMessage_covered f d c (m : StreamMessage (M := M)) d' c' r :
  covered d c -> AckMessage f d c m = (d', c', r) -> covered d' c'.
Proof.
  intros Hc Ha. unfold AckMessage in Ha. destruct (checkOpen c m); [by simplify_eq|].
  destruct (c_key c (ID m)) as [key|] eqn:Hk; [|by simplify_eq].
  pose proof (write_shrinks f key d) as Hsh. destruct (p_write f [PDelete key] d) as [d1 [[]|e]] eqn:Hw; simplify_eq; simpl in Hsh.
  - apply p_write_ok in Hw as ->.
    replace (set_pending (pending c ∖ {[ID m]}) c) with (Acked [ID m] c) by (unfold Acked; simpl; by rewrite union_empty_r_L).
    eapply covered_acked; [exact Hc|]. intros ms seq Hl. split; [by eapply live_shrinks|].
    rewrite list_elem_of_singleton. intros He. pose proof Hl as (? & ? & _).
    rewrite <- He, c_key_formatID in Hk by done. simplify_eq. by eapply commit_key_gone.
  - eapply covered_weaken; [exact Hc|]. intros ms seq. by apply live_shrinks.
Qed.

(** A message handed back moves from pending to released. *)
Lemma covered_handed_back d c id due :
  covered d c -> covered d (set_released (released c ++ [(id, due)]) (set_pending (pending c ∖ {[id]}) c)).
Proof.
  intros Hc ms seq Hl. destruct (Hc ms seq Hl) as [?|Hh]; [by left|right]. unfold held in *.
  cbn [set_released set_pending pending released]. rewrite fmap_app.
  destruct (decide (formatID ms seq = id)) as [<-|Hne]; [right; set_solver|].
  destruct Hh as [?|[?|?]]; [left; set_solver|right; set_solver|by right; right].
Qed.

Lemma ReleaseMessage_covered d now c (m : StreamMessage (M := M)) c' r :
  covered d c -> ReleaseMessage now c m = (c', r) -> covered d c'.
Proof.
  intros Hc Hr. unfold ReleaseMessage in Hr. destruct (checkOpen c m); simplify_eq; [done|].
  by apply covered_handed_back.
Qed.

Lemma putBack_covered d (msgs : list (StreamMessage (M := M))) c : covered d c -> covered d (putBack msgs c).
Proof.
  unfold putBack. revert c. induction msgs as [|m msgs IH]; intros c Hc; [done|].
  cbn [foldl]. apply IH. by apply covered_handed_back.
Qed.

Lemma ownPending_covered io d c ids d' c' msgs e :
  covered d c -> ownPendingLoop Unmarshal io d c ids = (d', c', msgs, e) -> covered d' c'.
Proof.
  revert io d c msgs e. induction ids as [|id ids IH]; intros io d c msgs e Hc Hl; simpl in Hl; [by simplify_eq|].
  destruct (readLocked _ _ _ _ _ _) as [[d1 c1] r] eqn:Hr.
  destruct (readLocked_frame _ _ _ _ _ _ _ _ Hr) as (Hst & Hcu & Hre & Hpe & Hsh & Hno).
  assert (forall p, (forall x, x <> id -> x ∈ pending c -> x ∈ p) -> (id ∈ p \/ r = Ok None) -> covered d1 (set_pending p c1)) as Hstep.
  { intros p Hp Hid ms seq Hlive. cbn [set_pending c_stream] in Hlive. rewrite Hst in Hlive.
    unfold ahead, held. cbn [set_pending c_stream cursor pending released]. rewrite Hst, Hcu, Hre.
    destruct (Hc ms seq (live_shrinks _ _ _ _ _ Hsh Hlive)) as [?|[Hin|?]]; [by left|right; left|by right; right].
    destruct (decide (formatID ms seq = id)) as [He|Hne]; [|by apply Hp].
    destruct Hid as [?|Hrn]; [by rewrite He|]. exfalso. by apply (Hno Hrn ms seq). }
  destruct r as [[msg|]|err].
  - destruct (ownPendingLoop _ _ _ _ _) as [[[d2 c2] ms2] e2] eqn:Hl2. simplify_eq.
    eapply IH; [|exact Hl2]. apply Hstep; [|left; set_solver]. intros x Hx Hin. apply elem_of_union_r. auto.
  - eapply IH; [|exact Hl]. apply Hstep; [|by right]. intros x Hx Hin. apply elem_of_difference. split; [auto|set_solver].
  - destruct (ownPendingLoop _ _ _ _ _) as [[[d2 c2] ms2] e2] eqn:Hl2. simplify_eq.
    eapply IH; [|exact Hl2]. intros ms seq Hlive. rewrite Hst in Hlive.
    destruct (Hc ms seq (live_shrinks _ _ _ _ _ Hsh Hlive)) as [?|[Hin|?]].
    + left. unfold ahead. by rewrite Hst, Hcu.
    + right. left. destruct (decide (formatID ms seq = id)) as [<-|Hne]; [|by apply Hpe].
      unfold readLocked in Hr. destruct Hlive as (? & ? & _). rewrite c_key_formatID in Hr by done.
      destruct (p_get _ _ _) as [[v|]|]; [destruct (decode _ _ _); simplify_eq|by simplify_eq|by simplify_eq].
    + right. right. by rewrite Hre.
Qed.

Lemma EachOwnPending_covered io d c d' c' msgs e :
  covered d c -> EachOwnPending Unmarshal io d c = (d', c', msgs, e) -> covered d' c'.
Proof. apply ownPending_covered. Qed.

Lemma TrimStream_covered f failIter cut now maxAge d c d' c' n :
  covered d c -> TrimStream f failIter cut now maxAge d c = (d', c', Ok n) -> covered d' c'.
Proof.
  intros Hc Ht. unfold TrimStream in Ht. destruct (c_closed c); [by simplify_eq|].
  destruct failIter; [done|]. destruct cut; [done|].
  set (upper := _ +:+ _) in Ht. set (all := p_iter _ _ _) in Ht. set (ids := omap _ all) in Ht.
  assert (forall ms seq, formatID ms seq ∈ ids -> in_uint64 ms -> in_uint64 seq ->
    in_range (c_prefix c) (Some upper) (entryKey (c_stream c) ms seq) = true) as Hids.
  { intros ms seq Hin Hm Hs. apply list_elem_of_omap in Hin as ([k v] & Hkv & Hid).
    apply idOfKey_sound in Hid as (m2 & s2 & ? & ? & Hk & He). simpl in Hk. subst k.
    apply formatID_inj in He as [-> ->]; [|done..].
    by apply iter_elem in Hkv as [_ ?]. }
  destruct (Nat.eqb_spec (List.length ids) 0) as [H0|H0].
  { apply nil_length_inv in H0. simplify_eq. rewrite H0. eapply (covered_acked _ _ _ []); [exact Hc|].
    intros ms seq ?. split; [done|]. apply not_elem_of_nil. }
  destruct (p_write _ _ _) as [d1 [[]|e]] eqn:Hw; simplify_eq. apply p_write_ok in Hw as ->.
  eapply (covered_acked _ _ _ ids); [exact Hc|]. intros ms seq (Hm & Hs & v & Hv & Hu).
  rewrite view_commit in Hv. simpl in Hv. apply map_lookup_filter_Some in Hv as [Hv Hr]. simpl in Hr.
  split; [split_and!; [done..|by exists v]|]. intros Hin. rewrite Hids in Hr by done. done.
Qed.

(** A trim that failed deleted at most what it deletes, and forgot of pending
    what it took out. *)
Lemma TrimStream_failed f failIter cut now maxAge d c d' c' e :
  covered d c -> TrimStream f failIter cut now maxAge d c = (d', c', Err e) ->
  c_stream c' = c_stream c /\ cursor c' = cursor c /\ released c' = released c /\ shrinks d d' /\
  (d' = d \/ exists upper, d' = p_commit [PDeleteRange (c_prefix c) (Some (c_prefix c +:+ upper))] d).
Proof.
  intros Hc Ht. unfold TrimStream in Ht. destruct (c_closed c); [done|]. destruct failIter; [by simplify_eq; split_and!; [..|left]|].
  destruct cut; [by simplify_eq; split_and!; [..|left]|]. destruct (Nat.eqb _ 0); [done|].
  destruct (p_write _ _ _) as [d1 [[]|e1]] eqn:Hw; simplify_eq. split_and!; [done..| |].
  - unfold p_write in Hw. destruct f as [| |[]]; simplify_eq/=; unfold shrinks; try done; rewrite view_commit; apply map_filter_subseteq.
  - unfold p_write in Hw. destruct f as [| |[]]; simplify_eq/=; eauto.
Qed.
End Delivery.

Lemma covered_forgotten {D} `{PO : !PebbleOps D} {M} (Unmarshal : string -> option M) lost d c d' c' :
  covered Unmarshal lost d c -> c_stream c' = c_stream c -> cursor c' = cursor c -> released c' = released c -> shrinks d d' ->
  covered Unmarshal (lost ∪ (pending c ∖ pending c')) d' c'.
Proof.
  intros Hc Hst Hcu Hre Hsh ms seq Hl. rewrite Hst in *. apply (live_shrinks _ _ _ _ _ _ Hsh) in Hl.
  destruct (Hc ms seq Hl) as [Ha|[Hp|[Hr|Hlo]]]; unfold ahead, held in *; rewrite Hcu, Hre.
  - by left.
  - right. destruct (decide (formatID ms seq ∈ pending c')) as [|Hn]; [by left|]. right. right. set_solver.
  - right. right. by left.
  - right. right. right. set_solver.
Qed.
