(* ===== verification/PebbleSMST.v ===== *)
(** * Session trees in the embedded store (miner/pebble_smst.go)

    pebbleSMSTStore and pebbleNodes: the records of a session tree with their
    expiry, its nodes, the conditional writes, and the backend's sweep of what
    expired. *)

From S2P Require Import Prelude SessionState StoreSpec PebbleModel PebbleQueue.
From Stdlib Require Import Ascii String.

Local Open Scope string_scope.
Local Open Scope Z_scope.

(** ** Records and keys *)

Inductive smstRecord :=
| smstNodes
| smstClaimedRoot
| smstStats
| smstLiveRoot
| smstLeaves.

#[export] Instance smstRecord_eq_dec : EqDecision smstRecord.
Proof. solve_decision. Defined.

Definition smstAllRecords : list smstRecord :=
  [smstClaimedRoot; smstLiveRoot; smstStats; smstNodes; smstLeaves].

(** [byte('0'+rec)] *)
Definition record_char (rec : smstRecord) : ascii :=
  match rec with
  | smstNodes => "0"
  | smstClaimedRoot => "1"
  | smstStats => "2"
  | smstLiveRoot => "3"
  | smstLeaves => "4"
  end.

Definition pebbleSMSTNodesPrefix : string := "smstn" +:+ nul.
Definition pebbleSMSTRecordPrefix : string := "smstr" +:+ nul.

Definition sessionPart (supplier sessionID : string) : string := supplier +:+ nul +:+ sessionID +:+ nul.
Definition nodesPrefix (supplier sessionID : string) : string :=
  pebbleSMSTNodesPrefix +:+ sessionPart supplier sessionID.
Definition recordKey (supplier : string) (rec : smstRecord) (sessionID : string) : string :=
  pebbleSMSTRecordPrefix +:+ sessionPart supplier sessionID +:+ String (record_char rec) "".
Definition nodeKey (supplier sessionID field : string) : string := nodesPrefix supplier sessionID +:+ field.

Definition expiryAfter (now ttl : Z) : Z := if ttl <=? 0 then 0 else now + ttl.

Inductive SMSTErr :=
| errSMSTRecordAbsent
| SStore (e : StoreErr).

Section SMST.
Context {D : Type} `{PO : !PebbleOps D}.
Variable supplier : string.

(** ** Records *)

(** [readRecord]: the value while the record is stored and not expired. *)
Definition readRecord (f : Fault) (d : D) (rec : smstRecord) (sessionID : string) (now : Z)
  : result (option string) StoreErr :=
  match p_get f d (recordKey supplier rec sessionID) with
  | Err e => Err e
  | Ok None => Ok None
  | Ok (Some raw) =>
      match DecodeValue raw now with
      | Err e => Err e
      | Ok (value, _, expired) => Ok (if expired then None else Some value)
      end
  end.

Definition writeRecord (rec : smstRecord) (sessionID value : string) (expiry : Z) : pwrite :=
  PSet (recordKey supplier rec sessionID) (EncodeValue expiry value).

(** What a prefix iterator yields first, if anything; [Err] when it fails. *)
Definition prefixScan (f : Fault) (d : D) (prefix : string) : result (list (string * string)) StoreErr :=
  match read_trip f (p_iter d prefix (keyUpperBound prefix)) with
  | Ok l => Ok l
  | Err e => Err (ErrIo e)
  end.

Definition nodesLive (f1 f2 : Fault) (d : D) (sessionID : string) (now : Z) : result bool StoreErr :=
  match p_get f1 d (recordKey supplier smstNodes sessionID) with
  | Err e => Err e
  | Ok found =>
      let expired := match found with
        | Some raw => match DecodeValue raw now with Ok (_, _, expired) => expired | Err _ => false end
        | None => false
        end in
      if expired then Ok false
      else match prefixScan f2 d (nodesPrefix supplier sessionID) with
           | Err e => Err e
           | Ok l => Ok (match l with [] => false | _ => true end)
           end
  end.

Definition deleteNodes (sessionID : string) : list pwrite :=
  [ PDeleteRange (nodesPrefix supplier sessionID) (keyUpperBound (nodesPrefix supplier sessionID));
    PDelete (recordKey supplier smstNodes sessionID) ].

Definition smst_get (io : Io) (now : Z) (d : D) (rec : smstRecord) (sessionID : string) : result string SMSTErr :=
  match readRecord (io 0%nat) d rec sessionID now with
  | Err e => Err (SStore e)
  | Ok None => Err errSMSTRecordAbsent
  | Ok (Some v) => Ok v
  end.

Definition smst_head (io : Io) (now : Z) (d : D) (rec : smstRecord) (sessionID : string) (n : nat) : result string StoreErr :=
  match readRecord (io 0%nat) d rec sessionID now with
  | Err e => Err e
  | Ok None => Ok ""
  | Ok (Some v) => Ok (if Nat.ltb n (String.length v) then str_take n v else v)
  end.

(** The claimed root is fsynced before [set] returns. *)
Definition smst_set (io : Io) (now : Z) (d : D) (rec : smstRecord) (sessionID value : string) (ttl : Z)
  : D * result unit StoreErr :=
  match p_write (io 0%nat) [writeRecord rec sessionID value (expiryAfter now ttl)] d with
  | (d', Err e) => (d', Err e)
  | (d', Ok _) =>
      if bool_decide (rec = smstClaimedRoot)
      then (d', match read_trip (io 1%nat) tt with Ok _ => Ok tt | Err e => Err (ErrIo e) end)
      else (d', Ok tt)
  end.

Definition smst_exists (io : Io) (now : Z) (d : D) (rec : smstRecord) (sessionID : string) : result bool StoreErr :=
  if bool_decide (rec = smstNodes) then nodesLive (io 0%nat) (io 1%nat) d sessionID now
  else match readRecord (io 0%nat) d rec sessionID now with
       | Err e => Err e
       | Ok v => Ok (match v with Some _ => true | None => false end)
       end.

Definition smst_expire (io : Io) (now : Z) (d : D) (rec : smstRecord) (sessionID : string) (ttl : Z)
  : D * result unit StoreErr :=
  if bool_decide (rec = smstNodes) then
    match nodesLive (io 0%nat) (io 1%nat) d sessionID now with
    | Err e => (d, Err e)
    | Ok false => (d, Ok tt)
    | Ok true =>
        p_write (io 2%nat) (if ttl <=? 0 then deleteNodes sessionID
                            else [writeRecord smstNodes sessionID "" (now + ttl)]) d
    end
  else
    match readRecord (io 0%nat) d rec sessionID now with
    | Err e => (d, Err e)
    | Ok None => (d, Ok tt)
    | Ok (Some value) =>
        p_write (io 2%nat) [if ttl <=? 0 then PDelete (recordKey supplier rec sessionID)
                            else writeRecord rec sessionID value (now + ttl)] d
    end.

(** The loop of [del]: the writes it collects and how many records existed. *)
Fixpoint delLoop (io : Io) (now : Z) (d : D) (sessionID : string) (recs : list smstRecord)
  : result (list pwrite * Z) StoreErr :=
  match recs with
  | [] => Ok ([], 0)
  | rec :: rest =>
      let ok := smst_exists io now d rec sessionID in
      let w := if bool_decide (rec = smstNodes) then deleteNodes sessionID
               else [PDelete (recordKey supplier rec sessionID)] in
      match ok with
      | Err e => Err e
      | Ok b =>
          match delLoop (io_next 2 io) now d sessionID rest with
          | Err e => Err e
          | Ok (ws, n) => Ok ((w ++ ws)%list, if b then n + 1 else n)
          end
      end
  end.

Definition smst_del (io : Io) (now : Z) (d : D) (sessionID : string) (recs : list smstRecord)
  : D * result Z StoreErr :=
  match delLoop (io_next 1 io) now d sessionID recs with
  | Err e => (d, Err e)
  | Ok (ws, n) =>
      match p_write (io 0%nat) ws d with
      | (d', Err e) => (d', Err e)
      | (d', Ok _) => (d', Ok n)
      end
  end.

Definition compacted (io : Io) (now : Z) (d : D) (sessionID : string) : result bool StoreErr :=
  match smst_exists io now d smstLeaves sessionID with
  | Err e => Err e
  | Ok false => Ok false
  | Ok true =>
      match smst_exists (io_next 2 io) now d smstNodes sessionID with
      | Err e => Err e
      | Ok nodes => Ok (negb nodes)
      end
  end.

(** ** Conditional writes *)

(** An absent record and an empty one compare equal, as Go's nil slice does. *)
Definition setLiveRootIfUnchanged (io : Io) (now : Z) (d : D) (sessionID root expected : string) (ttl : Z)
  : D * result bool StoreErr :=
  match readRecord (io 0%nat) d smstLiveRoot sessionID now with
  | Err e => (d, Err e)
  | Ok current =>
      if negb (String.eqb (default "" current) expected) then (d, Ok false)
      else
        let w := writeRecord smstLiveRoot sessionID root (expiryAfter now ttl) in
        let slide :=
          if 0 <? ttl then
            match nodesLive (io 1%nat) (io 2%nat) d sessionID now with
            | Err e => Err e
            | Ok live => Ok (if live then [writeRecord smstNodes sessionID "" (now + ttl)] else [])
            end
          else Ok [] in
        match slide with
        | Err e => (d, Err e)
        | Ok ws =>
            match p_write (io 3%nat) (w :: ws) d with
            | (d', Err e) => (d', Err e)
            | (d', Ok _) => (d', Ok true)
            end
        end
  end.

Definition deleteNodesIfLeaves (io : Io) (now : Z) (d : D) (sessionID leaves : string) : D * result bool StoreErr :=
  match readRecord (io 0%nat) d smstLeaves sessionID now with
  | Err e => (d, Err e)
  | Ok None => (d, Ok false)
  | Ok (Some current) =>
      if negb (String.eqb current leaves) then (d, Ok false)
      else match p_write (io 1%nat) (deleteNodes sessionID) d with
           | (d', Err e) => (d', Err e)
           | (d', Ok _) => (d', Ok true)
           end
  end.

(** ** Nodes *)

Definition nodes_get (io : Io) (d : D) (sessionID field : string) : result (option string) StoreErr :=
  p_get (io 0%nat) d (nodeKey supplier sessionID field).

Definition nodes_put (io : Io) (d : D) (sessionID : string) (nodes : list (string * string)) : D * result unit StoreErr :=
  p_write (io 0%nat) (map (fun n => PSet (nodeKey supplier sessionID n.1) n.2) nodes) d.

Definition nodes_del (io : Io) (d : D) (sessionID field : string) : D * result unit StoreErr :=
  p_write (io 0%nat) [PDelete (nodeKey supplier sessionID field)] d.

Definition nodes_count (io : Io) (d : D) (sessionID : string) : result Z StoreErr :=
  match prefixScan (io 0%nat) d (nodesPrefix supplier sessionID) with
  | Err e => Err e
  | Ok l => Ok (Z.of_nat (List.length l))
  end.

Definition nodes_clear (io : Io) (d : D) (sessionID : string) : D * result unit StoreErr :=
  p_write (io 0%nat) (deleteNodes sessionID) d.

(** The (field, stored node) pairs [scan] hands its callback. *)
Definition nodes_scan (io : Io) (d : D) (sessionID : string) : result (list (string * string)) StoreErr :=
  let prefix := nodesPrefix supplier sessionID in
  match prefixScan (io 0%nat) d prefix with
  | Err e => Err e
  | Ok l => Ok (map (fun kv => (str_drop (String.length prefix) kv.1, kv.2)) l)
  end.

Definition nodes_checkpoint (io : Io) (now : Z) (d : D) (sessionID : string) (orphans : list string)
    (liveRoot : string) (ttl : Z) : D * result unit StoreErr :=
  p_write (io 0%nat)
    (map (fun field => PDelete (nodeKey supplier sessionID field)) orphans
     ++ writeRecord smstLiveRoot sessionID liveRoot (expiryAfter now ttl)
     :: if 0 <? ttl then [writeRecord smstNodes sessionID "" (now + ttl)] else []) d.
End SMST.

(** ** The sweep *)

(** The last byte of a key, and the key without it. *)
Fixpoint str_last (s : string) : ascii :=
  match s with
  | EmptyString => "000"
  | String c EmptyString => c
  | String _ s' => str_last s'
  end.

Fixpoint str_init (s : string) : string :=
  match s with
  | EmptyString => EmptyString
  | String _ EmptyString => EmptyString
  | String c s' => String c (str_init s')
  end.

(** The deletes one expired record adds to the sweep's batch. *)
Definition sweepRecord (key : string) : list pwrite :=
  PDelete key ::
  if Ascii.eqb (str_last key) (record_char smstNodes) then
    let session := str_init (str_drop (String.length pebbleSMSTRecordPrefix) key) in
    let nodes := pebbleSMSTNodesPrefix +:+ session in
    [PDeleteRange nodes (keyUpperBound nodes)]
  else [].

Definition record_expired (now : Z) (value : string) : bool :=
  match DecodeValue value now with Ok (_, _, expired) => expired | Err _ => false end.

(** [sweepSMSTLocked]: the writes it adds and how many records they are. *)
Definition sweepSMSTLocked {D} `{!PebbleOps D} (f : Fault) (now : Z) (d : D) : result (list pwrite * Z) StoreErr :=
  match prefixScan f d pebbleSMSTRecordPrefix with
  | Err e => Err e
  | Ok l =>
      let expired := List.filter (fun kv => record_expired now kv.2) l in
      Ok (flat_map (fun kv => sweepRecord kv.1) expired, Z.of_nat (List.length expired))
  end.
