(* ===== verification/PebbleStore.v ===== *)
(** * The standalone store backend (miner/pebble_backend.go)

    pebbleSessionStore, pebbleDeduplicator and the sweep of PebbleStoreBackend,
    over the Pebble of PebbleModel. Every operation runs under the backend's
    mutex, so it is one step on the store; the WAL fsync of a write that
    records a transaction hash follows it. *)

From S2P Require Import Prelude SessionState StoreSpec PebbleModel PebbleQueue PebbleSMST.
From Stdlib Require Import Ascii String.

Local Open Scope string_scope.
Local Open Scope Z_scope.

(** ** Keys *)

Definition pebbleSessionPrefix : string := "msess" +:+ nul.
Definition pebbleDedupPrefix : string := "mdedup" +:+ nul.
Definition pebbleDedupTTLPrefix : string := "mdedupx" +:+ nul.

Definition dedupSessionPrefix (sessionID : string) : string := pebbleDedupPrefix +:+ (sessionID +:+ nul).
Definition dedupKey (sessionID relayHash : string) : string := dedupSessionPrefix sessionID +:+ relayHash.
Definition dedupTTLKey (sessionID : string) : string := pebbleDedupTTLPrefix +:+ sessionID.

(** [sessionTTL]: the configured TTL or two hours. *)
Definition sessionTTL (configured : Z) : Z := if configured =? 0 then 7200 * 10 ^ 9 else configured.

Definition sweepInterval : Z := 60 * 10 ^ 9.

(** [DeduplicatorConfig] with its defaults; the block time default is
    cache.DefaultBlockTimeSeconds. *)
Record DeduplicatorConfig := mkDedupConfig { TTLBlocks : Z; BlockTimeSeconds : Z }.

Definition DefaultBlockTimeSeconds : Z := 30.

Definition withDefaults (c : DeduplicatorConfig) : DeduplicatorConfig :=
  mkDedupConfig (if TTLBlocks c =? 0 then 10 else TTLBlocks c)
                (if BlockTimeSeconds c =? 0 then DefaultBlockTimeSeconds else BlockTimeSeconds c).

Definition dedup_ttl (c : DeduplicatorConfig) : Z := TTLBlocks c * BlockTimeSeconds c * 10 ^ 9.

(** What one supplier's stores are configured with. *)
Record PConfig := mkPConfig { p_supplier : string; p_ttl : Z; p_dedup : DeduplicatorConfig }.

(** The backend: whether the session store is closed, when the last sweep ran,
    and the database. *)
Record PStore (D : Type) := mkPStore { ps_closed : bool; ps_lastSweep : Z; ps_db : D }.
Arguments mkPStore {D}.
Arguments ps_closed {D}.
Arguments ps_lastSweep {D}.
Arguments ps_db {D}.

Definition set_db {D} (d : D) (s : PStore D) : PStore D := mkPStore (ps_closed s) (ps_lastSweep s) d.

(** ** Sessions *)

Definition recordsTx (prev : option SessionSnapshot) (snap : SessionSnapshot) : bool :=
  match prev with
  | None => negb (String.eqb (ClaimTxHash snap) "") || negb (String.eqb (ProofTxHash snap) "")
  | Some p => negb (String.eqb (ClaimTxHash snap) (ClaimTxHash p))
              || negb (String.eqb (ProofTxHash snap) (ProofTxHash p))
  end.

Section Sessions.
Context {D : Type} `{PO : !PebbleOps D} `{SJ : !SnapshotJson}.
Variable cfg : PConfig.

Definition s_prefix : string := pebbleSessionPrefix +:+ (p_supplier cfg +:+ nul).
Definition s_key (sessionID : string) : string := s_prefix +:+ sessionID.

Definition expired (snap : SessionSnapshot) (now : Z) : bool :=
  negb (LastUpdatedAt snap =? 0) && (LastUpdatedAt snap + p_ttl cfg <? now).

Definition getLocked (f : Fault) (now : Z) (d : D) (sessionID : string) : result (option SessionSnapshot) StoreErr :=
  match p_get f d (s_key sessionID) with
  | Err e => Err e
  | Ok None => Ok None
  | Ok (Some value) =>
      match json_dec value with
      | None => Err ErrDecode
      | Some snap => Ok (if expired snap now then None else Some snap)
      end
  end.

Definition putLocked (snap : SessionSnapshot) : pwrite := PSet (s_key (SessionID snap)) (json_enc snap).

(** [writeLocked]: the write, and whether it records a transaction hash. *)
Definition writeLocked (f : Fault) (prev : option SessionSnapshot) (snap : SessionSnapshot) (s : PStore D)
  : PStore D * result bool StoreErr :=
  let '(d', a) := p_write f [putLocked snap] (ps_db s) in
  (set_db d' s, match a with Err e => Err e | Ok _ => Ok (recordsTx prev snap) end).

Definition syncTx (f : Fault) (needSync : bool) : result unit StoreErr :=
  if negb needSync then Ok tt
  else match read_trip f tt with Ok _ => Ok tt | Err e => Err (ErrIo e) end.

Definition PGet (io : Io) (now : Z) (s : PStore D) (sessionID : string) : result (option SessionSnapshot) StoreErr :=
  getLocked (io 0%nat) now (ps_db s) sessionID.

Definition saveLocked (io : Io) (now : Z) (s : PStore D) (snapshot0 : SessionSnapshot)
  : PStore D * result bool StoreErr :=
  if ps_closed s then (s, Err ErrStoreClosed)
  else match getLocked (io 0%nat) now (ps_db s) (SessionID snapshot0) with
       | Err e => (s, Err e)
       | Ok prev =>
           let snapshot := touch now snapshot0 in
           let write := match prev with
                        | Some p => set_counters (RelayCount p) (TotalComputeUnits p) snapshot
                        | None => snapshot
                        end in
           writeLocked (io 1%nat) prev write s
       end.

Definition PSave (io : Io) (now : Z) (s : PStore D) (snapshot : SessionSnapshot) : PStore D * result unit StoreErr :=
  match saveLocked io now s snapshot with
  | (s', Err e) => (s', Err e)
  | (s', Ok needSync) => (s', syncTx (io 2%nat) needSync)
  end.

(** [createIfAbsentLocked]: created and needSync. *)
Definition createIfAbsentLocked (io : Io) (now : Z) (s : PStore D) (snapshot0 : SessionSnapshot)
  : PStore D * result (bool * bool) StoreErr :=
  if ps_closed s then (s, Err ErrStoreClosed)
  else match getLocked (io 0%nat) now (ps_db s) (SessionID snapshot0) with
       | Err e => (s, Err e)
       | Ok (Some _) => (s, Ok (false, false))
       | Ok None =>
           match writeLocked (io 1%nat) None (touch now snapshot0) s with
           | (s', Err e) => (s', Err e)
           | (s', Ok needSync) => (s', Ok (true, needSync))
           end
       end.

Definition PCreateIfAbsent (io : Io) (now : Z) (s : PStore D) (snapshot : SessionSnapshot)
  : PStore D * result bool StoreErr :=
  match createIfAbsentLocked io now s snapshot with
  | (s', Err e) => (s', Err e)
  | (s', Ok (false, _)) => (s', Ok false)
  | (s', Ok (true, needSync)) =>
      (s', match syncTx (io 2%nat) needSync with Ok _ => Ok true | Err e => Err e end)
  end.

Definition PDeleteSession (f : Fault) (s : PStore D) (sessionID : string) : PStore D * result unit StoreErr :=
  let '(d', a) := p_write f [PDelete (s_key sessionID)] (ps_db s) in (set_db d' s, a).

Definition PupdateState (io : Io) (now : Z) (s : PStore D) (sessionID : string) (newState : SessionState)
    (verdict : string) : PStore D * result bool StoreErr :=
  match getLocked (io 0%nat) now (ps_db s) sessionID with
  | Err e => (s, Err e)
  | Ok None => (s, Err ErrSessionNotFound)
  | Ok (Some snap) =>
      match checkStateWrite snap newState with
      | Some e => (s, Err e)
      | None =>
          if decide (State snap = newState) then (s, Ok false)
          else
            let s1 := set_State newState snap in
            let s2 := if negb (String.eqb verdict "") then set_Verdict verdict s1 else s1 in
            let s3 := set_LastUpdatedAt now s2 in
            match writeLocked (io 1%nat) (Some s3) s3 s with
            | (s', Err e) => (s', Err e)
            | (s', Ok _) => (s', Ok true)
            end
      end
  end.

Definition reactivateClaimedLocked (io : Io) (now : Z) (s : PStore D) (sessionID root tx : string)
  : PStore D * result (Reactivation * bool) StoreErr :=
  match getLocked (io 0%nat) now (ps_db s) sessionID with
  | Err e => (s, Err e)
  | Ok None => (s, Err ErrSessionNotFound)
  | Ok (Some prev) =>
      if negb (canReactivateClaimed (State prev)) then (s, Ok (noReactivation, false))
      else
        let s1 := set_Verdict "" (set_State SessionStateClaimed prev) in
        let s2 := set_claim root (if negb (String.eqb tx "") then tx else ClaimTxHash s1) s1 in
        let s3 := set_LastUpdatedAt now s2 in
        match writeLocked (io 1%nat) (Some prev) s3 s with
        | (s', Err e) => (s', Err e)
        | (s', Ok needSync) =>
            (s', Ok (mkReactivation (Some (State prev)) (ClaimMissingVerdict prev) (ClaimTxHash prev) "", needSync))
        end
  end.

Definition PReactivateClaimed (io : Io) (now : Z) (s : PStore D) (sessionID root tx : string)
  : PStore D * result Reactivation StoreErr :=
  match reactivateClaimedLocked io now s sessionID root tx with
  | (s', Err e) => (s', Err e)
  | (s', Ok (from, needSync)) =>
      match RFrom from with
      | None => (s', Ok noReactivation)
      | Some _ => (s', match syncTx (io 2%nat) needSync with Ok _ => Ok from | Err e => Err e end)
      end
  end.

Definition reactivateProvedLocked (io : Io) (now : Z) (s : PStore D) (sessionID tx : string)
  : PStore D * result (Reactivation * bool) StoreErr :=
  match getLocked (io 0%nat) now (ps_db s) sessionID with
  | Err e => (s, Err e)
  | Ok None => (s, Err ErrSessionNotFound)
  | Ok (Some prev) =>
      if negb (canReactivateProved (State prev) (ProofTxHash prev)) then (s, Ok (noReactivation, false))
      else
        let s1 := set_State SessionStateProved prev in
        let s2 := if String.eqb (ProofTxHash s1) "" then set_ProofTxHash tx s1 else s1 in
        let s3 := set_LastUpdatedAt now s2 in
        match writeLocked (io 1%nat) (Some prev) s3 s with
        | (s', Err e) => (s', Err e)
        | (s', Ok needSync) =>
            (s', Ok (mkReactivation (Some (State prev)) "" (ClaimTxHash prev) (ProofTxHash prev), needSync))
        end
  end.

Definition PReactivateProved (io : Io) (now : Z) (s : PStore D) (sessionID tx : string)
  : PStore D * result Reactivation StoreErr :=
  match reactivateProvedLocked io now s sessionID tx with
  | (s', Err e) => (s', Err e)
  | (s', Ok (from, needSync)) =>
      match RFrom from with
      | None => (s', Ok noReactivation)
      | Some _ => (s', match syncTx (io 2%nat) needSync with Ok _ => Ok from | Err e => Err e end)
      end
  end.

Definition PIncrementRelayCount (io : Io) (now : Z) (s : PStore D) (sessionID : string) (computeUnits : Z)
  : PStore D * result unit StoreErr :=
  match getLocked (io 0%nat) now (ps_db s) sessionID with
  | Err e => (s, Err e)
  | Ok None => (s, Err ErrSessionNotFound)
  | Ok (Some snap) =>
      if IsTerminal (State snap) then (s, Err ErrSessionTerminal)
      else
        let s1 := set_counters (wrap64 (RelayCount snap + 1)) (wrapu64 (TotalComputeUnits snap + computeUnits)) snap in
        let s2 := set_LastUpdatedAt now s1 in
        match writeLocked (io 1%nat) (Some s2) s2 s with
        | (s', Err e) => (s', Err e)
        | (s', Ok _) => (s', Ok tt)
        end
  end.

Definition PClose (s : PStore D) : PStore D := mkPStore true (ps_lastSweep s) (ps_db s).
End Sessions.

(** ** Dedup marks *)

Section Dedup.
Context {D : Type} `{PO : !PebbleOps D}.
Variable dcfg : DeduplicatorConfig.

(** [ttlStateLocked]: live and expired. *)
Definition ttlStateLocked (f : Fault) (now : Z) (d : D) (sessionID : string) : result (bool * bool) StoreErr :=
  match p_get f d (dedupTTLKey sessionID) with
  | Err e => Err e
  | Ok None => Ok (false, false)
  | Ok (Some value) =>
      if negb (Nat.eqb (String.length value) 8) then Ok (false, false)
      else let live := UnixMilli now <? wrap64 (Uint64 value) in Ok (live, negb live)
  end.

Definition liveLocked (f : Fault) (now : Z) (d : D) (sessionID : string) : result bool StoreErr :=
  match ttlStateLocked f now d sessionID with Ok (live, _) => Ok live | Err e => Err e end.

Definition markedLocked (f1 f2 : Fault) (now : Z) (d : D) (sessionID relayHash : string) : result bool StoreErr :=
  match liveLocked f1 now d sessionID with
  | Err e => Err e
  | Ok false => Ok false
  | Ok true =>
      match p_get f2 d (dedupKey sessionID relayHash) with
      | Err e => Err e
      | Ok v => Ok (match v with Some _ => true | None => false end)
      end
  end.

Definition slideTTLLocked (sessionID : string) (now : Z) : pwrite :=
  PSet (dedupTTLKey sessionID) (PutUint64 (UnixMilli (now + dedup_ttl dcfg))).

Definition markLocked (sessionID relayHash : string) (now : Z) : list pwrite :=
  [PSet (dedupKey sessionID relayHash) ""; slideTTLLocked sessionID now].

Definition deleteSessionLocked (sessionID : string) : list pwrite :=
  [ PDeleteRange (dedupSessionPrefix sessionID) (keyUpperBound (dedupSessionPrefix sessionID));
    PDelete (dedupTTLKey sessionID) ].

Definition IsDuplicate (io : Io) (now : Z) (d : D) (relayHash sessionID : string) : result bool StoreErr :=
  markedLocked (io 0%nat) (io 1%nat) now d sessionID relayHash.

Definition MarkProcessed (io : Io) (now : Z) (d : D) (relayHash sessionID : string) : D * result bool StoreErr :=
  match ttlStateLocked (io 0%nat) now d sessionID with
  | Err e => (d, Err e)
  | Ok (_, exp) =>
      match markedLocked (io 1%nat) (io 2%nat) now d sessionID relayHash with
      | Err e => (d, Err e)
      | Ok marked =>
          let batch := ((if exp then deleteSessionLocked sessionID else []) ++ markLocked sessionID relayHash now)%list in
          match p_write (io 3%nat) batch d with
          | (d', Err e) => (d', Err e)
          | (d', Ok _) => (d', Ok (negb marked))
          end
      end
  end.

Definition CleanupSession (f : Fault) (d : D) (sessionID : string) : D * result unit StoreErr :=
  p_write f (deleteSessionLocked sessionID) d.
End Dedup.

(** ** Scans and the sweep *)

Section Scan.
Context {D : Type} `{PO : !PebbleOps D} `{SJ : !SnapshotJson}.
Variable cfg : PConfig.

(** Sessions of any supplier that nothing wrote to for the TTL. *)
Definition sweepSession (now ttl : Z) (kv : string * string) : list pwrite :=
  match json_dec kv.2 with
  | None => []
  | Some snap =>
      if (LastUpdatedAt snap =? 0) || negb (LastUpdatedAt snap + ttl <? now) then []
      else PDelete kv.1 :: deleteSessionLocked (SessionID snap)
  end.

(** A dedup TTL that ran out, or is not eight bytes. *)
Definition sweepTTL (now : Z) (kv : string * string) : list pwrite :=
  if Nat.eqb (String.length kv.2) 8 && (UnixMilli now <? wrap64 (Uint64 kv.2)) then []
  else deleteSessionLocked (str_drop (String.length pebbleDedupTTLPrefix) kv.1).

Definition sweepLocked (io : Io) (now ttl : Z) (d : D) : D * result unit StoreErr :=
  match prefixScan (io 0%nat) d pebbleSessionPrefix with
  | Err e => (d, Err e)
  | Ok sessions =>
      match sweepSMSTLocked (io 1%nat) now d with
      | Err e => (d, Err e)
      | Ok (smst, _) =>
          match prefixScan (io 2%nat) d pebbleDedupTTLPrefix with
          | Err e => (d, Err e)
          | Ok ttls =>
              let batch := (flat_map (sweepSession now ttl) sessions ++ smst ++ flat_map (sweepTTL now) ttls)%list in
              match batch with
              | [] => (d, Ok tt)
              | _ => p_write (io 3%nat) batch d
              end
          end
      end
  end.

(** What a scan makes of the stored sessions: those it returns and the IDs of
    those that expired. *)
Fixpoint scanLoop (now : Z) (state : option SessionState) (l : list (string * string))
  : list SessionSnapshot * list string :=
  match l with
  | [] => ([], [])
  | kv :: rest =>
      let '(out, exp) := scanLoop now state rest in
      match json_dec kv.2 with
      | None => (out, exp)
      | Some snap =>
          if expired cfg snap now then (out, SessionID snap :: exp)
          else if match state with None => true | Some st => bool_decide (State snap = st) end
               then (snap :: out, exp) else (out, exp)
      end
  end.

Definition scan (io : Io) (now : Z) (s : PStore D) (state : option SessionState)
  : PStore D * result (list SessionSnapshot) StoreErr :=
  match prefixScan (io 0%nat) (ps_db s) (s_prefix cfg) with
  | Err e => (s, Err e)
  | Ok l =>
      let '(out, exp) := scanLoop now state l in
      let s1 := if sweepInterval <=? now - ps_lastSweep s
                then match sweepLocked (io_next 1 io) now (p_ttl cfg) (ps_db s) with
                     | (d', Err _) => set_db d' s
                     | (d', Ok _) => mkPStore (ps_closed s) now d'
                     end
                else s in
      let s2 := match exp with
                | [] => s1
                | _ => set_db (fst (p_write (io 5%nat)
                         (flat_map (fun id => PDelete (s_key cfg id) :: deleteSessionLocked id) exp) (ps_db s1))) s1
                end in
      (s2, Ok out)
  end.

Definition PGetBySupplier (io : Io) (now : Z) (s : PStore D) := scan io now s None.
Definition PGetByState (io : Io) (now : Z) (s : PStore D) (state : SessionState) := scan io now s (Some state).
End Scan.
