(* ===== verification/PebbleStoreRefines.v ===== *)
(** * The standalone session store keeps the store contract

    pebbleSessionStore discharges [SessionStoreLaws]: on a store whose sessions
    decode, every operation does to its session what StoreSpec says, whatever
    read, commit or fsync fails, and touches no other session. *)

From S2P Require Import Prelude SessionState StoreSpec RelayCommit Concrete PebbleModel PebbleQueue PebbleSMST PebbleStore.
From Stdlib Require Import Ascii String.

Local Open Scope string_scope.
Local Open Scope Z_scope.

Section Refines.
Context {D : Type} `{PO : !PebbleOps D} `{PL : !PebbleLaws D}.
Context `{SJ : !SnapshotJson} `{SJL : !SnapshotJsonLaws}.
Variable cfg : PConfig.
Hypothesis Httl : 0 <= p_ttl cfg.

(** Every session the supplier's store holds decodes, to the session its key
    names. *)
Definition pebble_wf (s : PStore D) : Prop :=
  forall id v, text_ok id -> pview (ps_db s) !! s_key cfg id = Some v ->
  exists snap, json_dec v = Some snap /\ SessionID snap = id /\ codec_ok snap.

#[local] Instance text_ok_dec id : Decision (text_ok id).
Proof. unfold text_ok. apply _. Defined.

Definition pebble_view (now : Z) (s : PStore D) (id : string) : option SessionSnapshot :=
  if decide (text_ok id) then
    match pview (ps_db s) !! s_key cfg id with
    | Some v => match json_dec v with
                | Some snap => if expired cfg snap now then None else Some snap
                | None => None
                end
    | None => None
    end
  else None.

Lemma s_key_inj a b : s_key cfg a = s_key cfg b -> a = b.
Proof. apply str_app_inj_l. Qed.

Lemma getLocked_view f now s id :
  pebble_wf s -> text_ok id ->
  getLocked cfg f now (ps_db s) id = Ok (pebble_view now s id) \/
  exists e, getLocked cfg f now (ps_db s) id = Err (ErrIo e).
Proof.
  intros Hwf Hid. unfold getLocked, pebble_view, p_get. rewrite decide_True by done.
  destruct f as [| |b]; simpl; [|right; by eexists..]. left.
  destruct (pview (ps_db s) !! s_key cfg id) as [v|] eqn:E; [|done].
  destruct (Hwf id v Hid E) as (snap & -> & _). done.
Qed.

Lemma view_snap now s id snap :
  pebble_wf s -> text_ok id -> pebble_view now s id = Some snap -> SessionID snap = id /\ codec_ok snap.
Proof.
  intros Hwf Hid Hv. unfold pebble_view in Hv. rewrite decide_True in Hv by done.
  destruct (pview (ps_db s) !! s_key cfg id) as [v|] eqn:E; [|done].
  destruct (Hwf id v Hid E) as (sn & Hj & Hi & Hok). rewrite Hj in Hv. destruct (expired _ _ _); by simplify_eq.
Qed.

(** A write of one session. *)
Definition written (now : Z) (id : string) (snap : SessionSnapshot) (s s' : PStore D) : Prop :=
  pebble_wf s' /\ pebble_view now s' id = Some snap /\
  forall id', id' <> id -> pebble_view now s' id' = pebble_view now s id'.

Lemma fresh_not_expired now snap : LastUpdatedAt snap = now -> expired cfg snap now = false.
Proof. intros H. unfold expired. rewrite H. destruct (Z.ltb_spec (now + p_ttl cfg) now); [lia|]. apply andb_false_r. Qed.

Lemma put_written now id snap s :
  pebble_wf s -> text_ok id -> SessionID snap = id -> codec_ok snap -> LastUpdatedAt snap = now ->
  written now id snap s (set_db (p_commit [putLocked cfg snap] (ps_db s)) s).
Proof.
  intros Hwf Hid Hsid Hok Hlu. unfold written, pebble_wf, pebble_view, set_db. cbn [ps_db].
  rewrite view_commit. cbn [apply_batch foldl apply_write putLocked]. rewrite Hsid.
  assert (json_dec (json_enc snap) = Some snap) as Hj by by apply json_dec_enc. split_and!.
  - intros id' v Hid' Hv. destruct (decide (id' = id)) as [->|Hne].
    + rewrite lookup_insert_eq in Hv. simplify_eq. eauto.
    + rewrite lookup_insert_ne in Hv by (intros He; by apply s_key_inj in He). eauto.
  - rewrite decide_True, lookup_insert_eq, Hj by done. by rewrite fresh_not_expired.
  - intros id' Hne. rewrite lookup_insert_ne by (intros He; by apply s_key_inj in He). done.
Qed.

Lemma writeLocked_cases f prev now id snap s s' a :
  pebble_wf s -> text_ok id -> SessionID snap = id -> codec_ok snap -> LastUpdatedAt snap = now ->
  writeLocked cfg f prev snap s = (s', a) ->
  match a with
  | Ok needSync => written now id snap s s' /\ needSync = recordsTx prev snap
  | Err e => exists x, e = ErrIo x /\ (s' = s \/ written now id snap s s')
  end.
Proof.
  intros Hwf Hid Hsid Hok Hlu Hw. pose proof (put_written now id snap s Hwf Hid Hsid Hok Hlu) as Hp.
  assert (set_db (ps_db s) s = s) as Hs by by destruct s.
  unfold writeLocked, p_write in Hw. destruct f as [| |[]]; simpl in Hw; simplify_eq; eauto.
Qed.

(** A call that reads the session, refuses or writes it, and may then fsync. *)
Lemma keeps_written {A} now id (spec : option SessionSnapshot -> result (SessionSnapshot * A) StoreErr)
    s s' snap' (a : A) (r : result A StoreErr) :
  written now id snap' s s' -> spec (pebble_view now s id) = Ok (snap', a) ->
  (r = Ok a \/ exists e, r = Err (ErrIo e)) ->
  pebble_wf s' /\ writes_one (pebble_view now s) (pebble_view now s') id spec r.
Proof.
  intros (Hwf & Hv & Ho) Hsp Hr. split; [done|]. split; [done|]. destruct Hr as [->|[e ->]].
  - exists snap'. by rewrite Hv.
  - right. exists snap', a. by rewrite Hv.
Qed.

Lemma syncTx_cases f b : syncTx f b = Ok tt \/ exists e, syncTx f b = Err (ErrIo e).
Proof. unfold syncTx. destruct b, f as [| |[]]; simpl; eauto. Qed.

Definition keepsP {A} now s id spec (out : PStore D * result A StoreErr) : Prop :=
  pebble_wf (fst out) /\ writes_one (pebble_view now s) (pebble_view now (fst out)) id spec (snd out).

Lemma keeps_io {A} now s id (spec : option SessionSnapshot -> result (SessionSnapshot * A) StoreErr) e :
  pebble_wf s -> keepsP now s id spec (s, Err (ErrIo e)).
Proof. intros. split; [done|]. apply writes_one_io. Qed.

Lemma keeps_refused {A} now s id (spec : option SessionSnapshot -> result (SessionSnapshot * A) StoreErr) e :
  pebble_wf s -> spec (pebble_view now s id) = Err e -> keepsP now s id spec (s, Err e).
Proof. intros. split; [done|]. by apply writes_one_refused. Qed.

Lemma keeps_same {A} now s id (spec : option SessionSnapshot -> result (SessionSnapshot * A) StoreErr) snap snap' a :
  pebble_wf s -> pebble_view now s id = Some snap -> spec (Some snap) = Ok (snap', a) -> snap ≡ snap' ->
  keepsP now s id spec (s, Ok a).
Proof.
  intros Hwf Hv Hsp He. split; [done|]. split; [done|]. exists snap'. cbn [fst]. rewrite Hv.
  split; [done|]. by constructor.
Qed.

(** *** codec_ok of what the operations write *)

Lemma known_text st : known st = true -> text_ok (string_of_state st).
Proof. by destruct st. Qed.

Lemma codec_state st s : known st = true -> codec_ok s -> codec_ok (set_State st s).
Proof.
  intros Hk ((? & ? & ? & ? & ?) & Ht & ? & ?). unfold codec_ok, snap_ok.
  split_and!; try done; [by apply known_canonical|]. unfold text_fields in *. decompose_Forall_hyps. repeat constructor; try done. by apply known_text.
Qed.
Lemma codec_time t s : time_ok t -> codec_ok s -> codec_ok (set_LastUpdatedAt t s).
Proof. by intros ? (? & ? & ? & ?). Qed.
Lemma codec_verdict v s : text_ok v -> codec_ok s -> codec_ok (set_Verdict v s).
Proof.
  intros Hv (? & Ht & ? & ?). split_and!; try done. unfold text_fields in *. decompose_Forall_hyps. by repeat constructor.
Qed.
Lemma codec_claim r tx s : text_ok tx -> codec_ok s -> codec_ok (set_claim r tx s).
Proof.
  intros Hv (? & Ht & ? & ?). split_and!; try done. unfold text_fields in *. decompose_Forall_hyps. by repeat constructor.
Qed.
Lemma codec_proof tx s : text_ok tx -> codec_ok s -> codec_ok (set_ProofTxHash tx s).
Proof.
  intros Hv (? & Ht & ? & ?). split_and!; try done. unfold text_fields in *. decompose_Forall_hyps. by repeat constructor.
Qed.
Lemma codec_counters n cu s : in_int64 n -> in_uint64 cu -> codec_ok s -> codec_ok (set_counters n cu s).
Proof. by intros ? ? ((? & ? & ? & ? & ?) & ? & ? & ?). Qed.
Lemma codec_claim_tx s : codec_ok s -> text_ok (ClaimTxHash s).
Proof. intros (_ & Ht & _). unfold text_fields in Ht. by decompose_Forall_hyps. Qed.

(** *** The operations *)

(** Case on what the locked read answered: an I/O error ends the call. *)
Ltac read_session now s id :=
  match goal with
  | Hwf : pebble_wf s, Hid : text_ok id |- context [getLocked cfg ?f now (ps_db s) id] =>
      let E := fresh "E" in
      destruct (getLocked_view f now s id Hwf Hid) as [E|[? E]]; rewrite E; [|by apply keeps_io];
      destruct (pebble_view now s id) as [snap|] eqn:Hv;
      [destruct (view_snap now s id snap Hwf Hid Hv) as [Hsid Hok]|]
  end.

Lemma keeps_write {A} f prev now id (spec : option SessionSnapshot -> result (SessionSnapshot * A) StoreErr)
    s snap' (a : A) (fin : PStore D * result bool StoreErr -> PStore D * result A StoreErr) :
  pebble_wf s -> text_ok id -> SessionID snap' = id -> codec_ok snap' -> LastUpdatedAt snap' = now ->
  spec (pebble_view now s id) = Ok (snap', a) ->
  (forall s' ns, fin (s', Ok ns) = (s', Ok a) \/ exists e, fin (s', Ok ns) = (s', Err (ErrIo e))) ->
  (forall s' e, fin (s', Err e) = (s', Err e)) ->
  keepsP now s id spec (fin (writeLocked cfg f prev snap' s)).
Proof.
  intros Hwf Hid Hsid Hok Hlu Hsp Hf1 Hf2.
  destruct (writeLocked cfg f prev snap' s) as [s' [ns|e]] eqn:Hw;
    apply (writeLocked_cases f prev now id) in Hw; try done.
  - destruct Hw as [Hwr _]. destruct (Hf1 s' ns) as [->|[e ->]]; eapply keeps_written; eauto.
  - destruct Hw as (x & -> & [->|Hwr]); rewrite Hf2; [by apply keeps_io|eapply keeps_written; eauto].
Qed.

Lemma update_keeps io now s id st v :
  pebble_wf s -> text_ok id -> time_ok now -> text_ok v -> known st = true ->
  keepsP now s id (spec_update st v now) (PupdateState cfg io now s id st v).
Proof.
  intros Hwf Hid Hnow Hvt Hst. unfold PupdateState. read_session now s id.
  2:{ apply keeps_refused; [done|]. by rewrite Hv. }
  destruct (checkStateWrite snap st) as [e|] eqn:Hc.
  { apply keeps_refused; [done|]. rewrite Hv. simpl. by rewrite Hc. }
  destruct (decide (State snap = st)) as [He|Hne].
  { eapply keeps_same; [done|exact Hv| |apply symmetry, (set_LastUpdatedAt_equiv now)]. simpl. rewrite Hc. by rewrite decide_True. }
  set (s3 := set_LastUpdatedAt now _).
  assert (spec_update st v now (pebble_view now s id) = Ok (s3, true)) as Hsp.
  { rewrite Hv. simpl. rewrite Hc, decide_False by done. unfold s3. destruct (String.eqb v ""); by destruct snap. }
  assert (codec_ok s3) as Hok3.
  { unfold s3. apply codec_time; [done|]. destruct (String.eqb v ""); simpl; [|apply codec_verdict; [done|]]; by apply codec_state. }
  eapply (keeps_write _ _ _ _ _ _ s3 true
    (fun o => match o with (s', Err e) => (s', Err e) | (s', Ok _) => (s', Ok true) end));
    eauto; subst s3; by destruct (String.eqb v "").
Qed.

Lemma reactivate_claimed_keeps io now s id root tx :
  pebble_wf s -> text_ok id -> time_ok now -> text_ok tx ->
  keepsP now s id (spec_reactivate_claimed root tx now) (PReactivateClaimed cfg io now s id root tx).
Proof.
  intros Hwf Hid Hnow Htx. unfold PReactivateClaimed, reactivateClaimedLocked. read_session now s id.
  2:{ apply keeps_refused; [done|]. by rewrite Hv. }
  destruct (canReactivateClaimed (State snap)) eqn:Hc; simpl negb; cbv iota.
  2:{ eapply keeps_same; [done|exact Hv| |reflexivity]. simpl. by rewrite Hc. }
  set (s3 := set_LastUpdatedAt now _).
  eapply (keeps_write _ _ _ _ _ _ s3 _ (fun o => match match o with
      | (s', Err e) => (s', Err e)
      | (s', Ok needSync) => (s', Ok (mkReactivation (Some (State snap)) (ClaimMissingVerdict snap) (ClaimTxHash snap) "", needSync))
      end with
      | (s', Err e) => (s', Err e)
      | (s', Ok (from, needSync)) =>
          match RFrom from with
          | None => (s', Ok noReactivation)
          | Some _ => (s', match syncTx (io 2%nat) needSync with Ok _ => Ok from | Err e => Err e end)
          end
      end)); [done|done|by destruct snap| |done| | |done].
  - apply codec_time; [done|]. apply codec_claim; [|apply codec_verdict; [done|by apply codec_state]].
    destruct (String.eqb tx ""); [exact (codec_claim_tx snap Hok)|done].
  - rewrite Hv. simpl. rewrite Hc. unfold s3. destruct (String.eqb tx ""); by destruct snap.
  - intros s' ns. simpl. destruct (syncTx_cases (io 2%nat) ns) as [->|[e ->]]; eauto.
Qed.

Lemma reactivate_proved_keeps io now s id tx :
  pebble_wf s -> text_ok id -> time_ok now -> text_ok tx ->
  keepsP now s id (spec_reactivate_proved tx now) (PReactivateProved cfg io now s id tx).
Proof.
  intros Hwf Hid Hnow Htx. unfold PReactivateProved, reactivateProvedLocked. read_session now s id.
  2:{ apply keeps_refused; [done|]. by rewrite Hv. }
  destruct (canReactivateProved (State snap) (ProofTxHash snap)) eqn:Hc; simpl negb; cbv iota.
  2:{ eapply keeps_same; [done|exact Hv| |reflexivity]. simpl. by rewrite Hc. }
  set (s3 := set_LastUpdatedAt now _).
  eapply (keeps_write _ _ _ _ _ _ s3 _ (fun o => match match o with
      | (s', Err e) => (s', Err e)
      | (s', Ok needSync) => (s', Ok (mkReactivation (Some (State snap)) "" (ClaimTxHash snap) (ProofTxHash snap), needSync))
      end with
      | (s', Err e) => (s', Err e)
      | (s', Ok (from, needSync)) =>
          match RFrom from with
          | None => (s', Ok noReactivation)
          | Some _ => (s', match syncTx (io 2%nat) needSync with Ok _ => Ok from | Err e => Err e end)
          end
      end)); [done|done| | |done| | |done].
  - unfold s3. by destruct (String.eqb _ "").
  - apply codec_time; [done|]. destruct (String.eqb _ ""); [apply codec_proof; [done|]|]; by apply codec_state.
  - rewrite Hv. simpl. rewrite Hc. unfold s3. simpl. destruct (String.eqb (ProofTxHash snap) ""); by destruct snap.
  - intros s' ns. simpl. destruct (syncTx_cases (io 2%nat) ns) as [->|[e ->]]; eauto.
Qed.

Lemma increment_keeps io now s id cu :
  pebble_wf s -> text_ok id -> time_ok now -> counters_fit cu (pebble_view now s id) ->
  keepsP now s id (spec_increment cu now) (PIncrementRelayCount cfg io now s id cu).
Proof.
  intros Hwf Hid Hnow Hfit. unfold PIncrementRelayCount. read_session now s id.
  2:{ apply keeps_refused; [done|]. by rewrite Hv. }
  destruct (IsTerminal (State snap)) eqn:Hc.
  { apply keeps_refused; [done|]. rewrite Hv. simpl. by rewrite Hc. }
  destruct Hfit as (Hcu & Hf1 & Hf2). pose proof Hok as ((_ & _ & [? ?] & [? ?] & _) & _).
  assert (in_int64 (RelayCount snap + 1)) as Hi by (unfold in_int64, int64_min, int64_max in *; lia).
  assert (in_uint64 (TotalComputeUnits snap + cu)) as Hu by (unfold in_uint64, uint64_max, int64_max in *; lia).
  rewrite wrap64_id, wrapu64_id by done. set (s3 := set_LastUpdatedAt now _).
  eapply (keeps_write _ _ _ _ _ _ s3 tt
    (fun o => match o with (s', Err e) => (s', Err e) | (s', Ok _) => (s', Ok tt) end)); eauto.
  - apply codec_time; [done|]. by apply codec_counters.
  - rewrite Hv. simpl. by rewrite Hc.
Qed.

Lemma create_keeps io now s snap0 :
  pebble_wf s -> text_ok (SessionID snap0) -> time_ok now -> storable snap0 ->
  snd (PCreateIfAbsent cfg io now s snap0) <> Err ErrStoreClosed ->
  keepsP now s (SessionID snap0) (spec_create snap0 now) (PCreateIfAbsent cfg io now s snap0).
Proof.
  intros Hwf Hid Hnow Hst Hcl. unfold PCreateIfAbsent, createIfAbsentLocked in *.
  destruct (ps_closed s); [by destruct Hcl|]. clear Hcl. read_session now s (SessionID snap0).
  { eapply keeps_same; [done|exact Hv|done|reflexivity]. }
  eapply (keeps_write _ _ _ _ _ _ (touch now snap0) true (fun o => match match o with
      | (s', Err e) => (s', Err e)
      | (s', Ok needSync) => (s', Ok (true, needSync))
      end with
      | (s', Err e) => (s', Err e)
      | (s', Ok (false, _)) => (s', Ok false)
      | (s', Ok (true, needSync)) => (s', match syncTx (io 2%nat) needSync with Ok _ => Ok true | Err e => Err e end)
      end)); [done|done|done|by apply touch_codec_ok|done| | |done].
  - by rewrite Hv.
  - intros s' ns. simpl. destruct (syncTx_cases (io 2%nat) ns) as [->|[e ->]]; eauto.
Qed.

(** [Save] keeps the contract's [spec_save], a failed read included. *)
Lemma save_keeps io now s snap0 :
  pebble_wf s -> text_ok (SessionID snap0) -> time_ok now -> storable snap0 ->
  snd (PSave cfg io now s snap0) <> Err ErrStoreClosed ->
  keepsP now s (SessionID snap0) (spec_save snap0 now) (PSave cfg io now s snap0).
Proof.
  intros Hwf Hid Hnow Hst Hcl. unfold PSave, saveLocked in *.
  destruct (ps_closed s); [by destruct Hcl|]. clear Hcl.
  assert (codec_ok (touch now snap0)) as Ht by by apply touch_codec_ok.
  read_session now s (SessionID snap0);
    (eapply (keeps_write _ _ _ _ _ _ _ tt (fun o => match o with
      | (s', Err e) => (s', Err e)
      | (s', Ok needSync) => (s', syncTx (io 2%nat) needSync)
      end)); [done|done| | | |by rewrite Hv| |done]; try done).
  - apply codec_counters; [apply Hok|apply Hok|done].
  - intros s' ns. destruct (syncTx_cases (io 2%nat) ns) as [->|[e ->]]; eauto.
  - intros s' ns. destruct (syncTx_cases (io 2%nat) ns) as [->|[e ->]]; eauto.
Qed.

(** ** The instance *)

#[export] Instance PebbleStoreOps : SessionStore (PStore D) := {
  ss_view := pebble_view;
  ss_wf := pebble_wf;
  ss_id := text_ok;
  ss_get := fun io now s id => PGet cfg io now s id;
  ss_by_supplier := fun io now s => PGetBySupplier cfg io now s;
  ss_save := fun io now s snap => PSave cfg io now s snap;
  ss_create := fun io now s snap => PCreateIfAbsent cfg io now s snap;
  ss_update := fun io now s id st v => PupdateState cfg io now s id st v;
  ss_reactivate_claimed := fun io now s id root tx => PReactivateClaimed cfg io now s id root tx;
  ss_reactivate_proved := fun io now s id tx => PReactivateProved cfg io now s id tx;
  ss_units := fun _ => True;
  ss_increment := fun io now s id cu => PIncrementRelayCount cfg io now s id cu
}.

#[export] Instance PebbleStoreLaws : SessionStoreLaws (PStore D).
Proof.
  split; simpl; intros.
  - unfold PGet in *. destruct (getLocked_view (io 0%nat) now s id) as [E|[e E]]; [done|done|congruence..].
  - unfold PGet, getLocked, pebble_view, p_get. rewrite decide_True by done. simpl.
    destruct (pview (ps_db s) !! s_key cfg id) as [v|] eqn:E; [|done].
    by destruct (H id v H0 E) as (snap & -> & _).
  - unfold pebble_view. case_decide; [|auto]. destruct (pview (ps_db s) !! s_key cfg id); [|auto].
    destruct (json_dec _) as [snap|]; [|auto]. unfold expired.
    destruct (negb _); simpl; [|auto]. repeat case_match; auto; lia.
  - unfold PupdateState, getLocked, p_get. simpl.
    destruct (pview (ps_db s) !! s_key cfg id) as [value|]; [|done].
    destruct (json_dec value) as [snap|]; [|done].
    destruct (expired cfg snap now); [done|]. unfold checkStateWrite. repeat case_match; simpl; by try congruence.
  - by apply update_keeps.
  - by apply increment_keeps.
  - by apply reactivate_claimed_keeps.
  - by apply reactivate_proved_keeps.
  - by apply create_keeps.
  - by apply save_keeps.
  - unfold PSave, saveLocked, writeLocked, getLocked, p_get, p_write, syncTx in *. destruct (ps_closed s); [done|]. exfalso.
    repeat case_match; simplify_eq; simpl in *; repeat case_match; simplify_eq; simpl in *; congruence.
Qed.
End Refines.

(** ** The contract *)

Section Claims.
Context {D : Type} `{PO : !PebbleOps D} `{PL : !PebbleLaws D}.
Context `{SJ : !SnapshotJson} `{SJL : !SnapshotJsonLaws}.

(** C21. The standalone (Pebble) session store keeps the same contract as the
    Redis one: what the miner proves against the session store's interface
    holds on both. *)
Theorem pebble_store_contract (cfg : PConfig) : 0 <= p_ttl cfg -> @SessionStoreLaws (PStore D) (PebbleStoreOps cfg).
Proof. intros Httl. by apply PebbleStoreLaws. Qed.
End Claims.

Module PebbleStoreExample.
Import Concrete.

Definition cfg : PConfig := mkPConfig "pokt1sup" (sessionTTL 0) (withDefaults (mkDedupConfig 0 0)).

(** A session is created, a relay counted, and claiming written with the
    answer lost. *)
Definition s1 := fst (PCreateIfAbsent cfg io_ok 1 (mkPStore false 0 (∅ : gmap string string)) session_1).
Definition s2 := fst (PIncrementRelayCount cfg io_ok 2 s1 "s1" 5).
Definition s3 := fst (PupdateState cfg (fun k => if (k =? 1)%nat then FLost true else FNone) 3 s2 "s1" SessionStateClaiming "").

Lemma pebble_store_contract_witness :
  @SessionStoreLaws (PStore (gmap string string)) (PebbleStoreOps cfg) /\
  (fun s => (State s, RelayCount s, TotalComputeUnits s)) <$> pebble_view cfg 4 s3 "s1" =
  Some (SessionStateClaiming, 1, 5).
Proof.
  split; [|by vm_compute]. apply (pebble_store_contract cfg). vm_compute. congruence.
Defined.
End PebbleStoreExample.
