(* ===== verification/PebbleRelayCommit.v ===== *)
(** * The standalone relay committer (miner/pebble_backend.go)

    pebbleRelayCommitter: one Pebble batch, under the backend's mutex, that
    marks, counts and acknowledges a session's relays; and the proof that it
    keeps the contract of RelayCommit. *)

From S2P Require Import Prelude SessionState StoreSpec RelayCommit Concrete PebbleModel PebbleQueue PebbleSMST PebbleStore PebbleStoreRefines.
From Stdlib Require Import Ascii String.

Local Open Scope string_scope.
Local Open Scope Z_scope.

(** The committer: the backend and the supplier's consumer. *)
Record PCommitter (D : Type) := mkPCommitter { pc_store : PStore D; pc_consumer : Consumer }.
Arguments mkPCommitter {D}.
Arguments pc_store {D}.
Arguments pc_consumer {D}.

Section Committer.
Context {D : Type} `{PO : !PebbleOps D} `{SJ : !SnapshotJson}.
Variable cfg : PConfig.

(** What the loop over the relays collects: the marks it sets, the relays and
    compute units it counts, the fresh duplicates. *)
Record LoopOut := mkLoop { lo_marks : list pwrite; lo_new : Z; lo_cu : Z; lo_fresh : Z }.

(** A relay seen in this batch or marked before is a duplicate; [Err] is a read
    that failed, or an entry ID that does not parse. *)
Fixpoint commitLoop (io : Io) (live : bool) (d : D) (c : Consumer) (sessionID : string)
    (relays : list batchedRelay) (seen : gset string) (acc : LoopOut) : result LoopOut unit :=
  match relays with
  | [] => Ok acc
  | r :: rest =>
      let inBatch := bool_decide (br_hash r ∈ seen) in
      let marked :=
        if negb inBatch && live then
          match p_get (io 0%nat) d (dedupKey sessionID (br_hash r)) with
          | Ok v => Ok (match v with Some _ => true | None => false end)
          | Err _ => Err tt
          end
        else Ok inBatch in
      match marked with
      | Err e => Err e
      | Ok true =>
          match Exists (io 1%nat) d c (br_id r) with
          | Err _ => Err tt
          | Ok ex =>
              commitLoop (io_next 2 io) live d c sessionID rest seen
                (mkLoop (lo_marks acc) (lo_new acc) (lo_cu acc) (if ex then lo_fresh acc + 1 else lo_fresh acc))
          end
      | Ok false =>
          commitLoop (io_next 2 io) live d c sessionID rest ({[br_hash r]} ∪ seen)
            (mkLoop (lo_marks acc ++ [PSet (dedupKey sessionID (br_hash r)) ""])
               (lo_new acc + 1) (wrap64 (lo_cu acc + wrap64 (br_computeUnits r))) (lo_fresh acc))
      end
  end.

Definition commit_snap (now : Z) (out : LoopOut) (snap : SessionSnapshot) : SessionSnapshot :=
  set_LastUpdatedAt now (set_counters (wrap64 (RelayCount snap + lo_new out))
    (wrapu64 (TotalComputeUnits snap + wrapu64 (lo_cu out))) snap).

(** The batch [CommitSession] commits. *)
Definition commitBatch (now : Z) (c : Consumer) (sessionID : string) (relays : list batchedRelay)
    (exp : bool) (status : Z) (snap : option SessionSnapshot) (out : LoopOut) : list pwrite :=
  ((if exp && negb (Nat.eqb (List.length relays) 0) then deleteSessionLocked sessionID else [])
   ++ lo_marks out
   ++ (if negb (Nat.eqb (List.length relays) 0) then [slideTTLLocked (p_dedup cfg) sessionID now] else [])
   ++ (match snap with
       | Some s => if (status =? 0) && (0 <? lo_new out) then [putLocked cfg (commit_snap now out s)] else []
       | None => []
       end)
   ++ AckInBatch c (map br_id relays))%list.

Definition PCommitSession (io : Io) (now : Z) (p : PCommitter D) (sessionID : string) (relays : list batchedRelay)
  : PCommitter D * result relayBatchResult CommitErr :=
  let d := ps_db (pc_store p) in
  match getLocked cfg (io 0%nat) now d sessionID with
  | Err _ => (p, Err CRefused)
  | Ok snap =>
      let status := commit_status snap in
      match ttlStateLocked (io 1%nat) now d sessionID with
      | Err _ => (p, Err CUnknown)
      | Ok (live, exp) =>
          match commitLoop (io_next 3 io) live d (pc_consumer p) sessionID relays ∅ (mkLoop [] 0 0 0) with
          | Err _ => (p, Err CUnknown)
          | Ok out =>
              match p_write (io 2%nat) (commitBatch now (pc_consumer p) sessionID relays exp status snap out) d with
              | (d', Err _) => (mkPCommitter (set_db d' (pc_store p)) (pc_consumer p), Err CUnknown)
              | (d', Ok _) =>
                  (mkPCommitter (set_db d' (pc_store p)) (Acked (map br_id relays) (pc_consumer p)),
                   Ok (mkBatchResult status (lo_new out) (lo_cu out) (lo_fresh out)))
              end
          end
      end
  end.

Definition PAckRejected (f : Fault) (p : PCommitter D) (ids : list string) : PCommitter D * result unit StoreErr :=
  match p_write f (AckInBatch (pc_consumer p) ids) (ps_db (pc_store p)) with
  | (d', Err e) => (mkPCommitter (set_db d' (pc_store p)) (pc_consumer p), Err e)
  | (d', Ok _) => (mkPCommitter (set_db d' (pc_store p)) (Acked ids (pc_consumer p)), Ok tt)
  end.
End Committer.

Lemma parseID_range i ms seq : parseID i = Some (ms, seq) -> in_uint64 ms /\ in_uint64 seq.
Proof.
  unfold parseID. destruct (str_cut "-" i) as [[a b]|]; [|done].
  destruct (ParseUint a) eqn:Ha; [|done]. destruct (ParseUint b) eqn:Hb; [|done]. intros [= <- <-].
  split; by eapply ParseUint_range.
Qed.

(** ** Key families *)

Lemma dedupKey_inj id id' h h' : no_nul id -> no_nul id' -> dedupKey id h = dedupKey id' h' -> id = id' /\ h = h'.
Proof.
  unfold dedupKey, dedupSessionPrefix, nul. intros Hi Hi' He. rewrite <- !str_app_assoc in He.
  apply str_app_inj_l in He. by apply str_join_inj in He.
Qed.

Lemma dedupPrefix_session id id' h :
  no_nul id -> no_nul id' -> has_prefix (dedupSessionPrefix id) (dedupKey id' h) = true -> id = id'.
Proof.
  intros Hi Hi' [r He]%has_prefix_iff. symmetry in He. by apply (dedupKey_inj id id' r h) in He as [-> _].
Qed.

Lemma deleteSession_dedup m id h : apply_batch m (deleteSessionLocked id) !! dedupKey id h = None.
Proof.
  unfold deleteSessionLocked, apply_batch. cbn [foldl]. rewrite apply_write_other.
  - cbn [apply_write]. apply map_lookup_filter_None. right. intros x _. simpl. rewrite range_is_prefix.
    unfold dedupKey. by rewrite has_prefix_app.
  - apply String.eqb_neq. by apply (prefix_ne pebbleDedupTTLPrefix).
Qed.

Lemma deleteSession_ttl m id : apply_batch m (deleteSessionLocked id) !! dedupTTLKey id = None.
Proof. apply lookup_delete_eq. Qed.

(** The keys a session's dedup delete touches. *)
Lemma deleteSession_touches id w k :
  w ∈ deleteSessionLocked id -> touches w k = true ->
  has_prefix (dedupSessionPrefix id) k = true \/ k = dedupTTLKey id.
Proof.
  intros [->|[->|Hn]%elem_of_cons]%elem_of_cons; cbn [touches]; [|intros ?%String.eqb_eq; by right|by apply elem_of_nil in Hn].
  rewrite range_is_prefix. by left.
Qed.

Lemma AckInBatch_deletes c ids : AckInBatch c ids = map PDelete (omap (c_key c) ids).
Proof.
  unfold AckInBatch. induction ids as [|id ids IH]; [done|]. cbn.
  destruct (c_key c id) as [k|]; [exact (f_equal (cons (PDelete k)) IH)|exact IH].
Qed.

Definition mark_writes (id : string) (l : list batchedRelay) : list pwrite :=
  map (fun r => PSet (dedupKey id (br_hash r)) "") l.

Lemma apply_marks m id l k :
  apply_batch m (mark_writes id l) !! k =
  if decide (k ∈ map (fun r => dedupKey id (br_hash r)) l) then Some "" else m !! k.
Proof.
  revert m. induction l as [|r l IH]; intros m.
  { by rewrite decide_False by apply not_elem_of_nil. }
  cbn [mark_writes map apply_batch foldl apply_write]. set (x := dedupKey id (br_hash r)).
  change (foldl apply_write ?a (map _ l)) with (apply_batch a (mark_writes id l)).
  rewrite IH. destruct (decide (k ∈ map _ l)) as [Hk|Hk].
  - by rewrite decide_True by by right.
  - destruct (decide (k = x)) as [->|Hne].
    + rewrite decide_True by by left. apply lookup_insert_eq.
    + rewrite decide_False; [by apply lookup_insert_ne|]. intros [?|?]%elem_of_cons; done.
Qed.

(** ** The committer keeps the contract *)

Section Laws.
Context {D : Type} `{PO : !PebbleOps D} `{PL : !PebbleLaws D}.
Context `{SJ : !SnapshotJson} `{SJL : !SnapshotJsonLaws}.
Variable cfg : PConfig.
Hypothesis Httl : 0 <= p_ttl cfg.
Hypothesis Hdttl : 10 ^ 6 <= dedup_ttl (p_dedup cfg) <= int64_max.

Definition live_at (t : Z) (d : D) (id : string) : bool :=
  match pview d !! dedupTTLKey id with
  | Some v => Nat.eqb (String.length v) 8 && (UnixMilli t <? wrap64 (Uint64 v))
  | None => false
  end.

Definition stored (d : D) (k : string) : bool := match pview d !! k with Some _ => true | None => false end.

(** An entry of the queue, by the ID the queue gave it. *)
Definition entry_there (d : D) (c : Consumer) (i : string) : bool :=
  match parseID i with
  | Some (ms, seq) => String.eqb i (formatID ms seq) && stored d (entryKey (c_stream c) ms seq)
  | None => false
  end.

Definition pebble_commit_view (t : Z) (p : PCommitter D) (id : string) : CommitView :=
  let d := ps_db (pc_store p) in
  mkView (fun h => live_at t d id && stored d (dedupKey id h)) (pebble_view cfg t (pc_store p) id)
         (entry_there d (pc_consumer p)).

(** A session's dedup TTL is eight bytes, and without one it has no marks. *)
Definition marks_ok (d : D) : Prop :=
  forall id, no_nul id ->
  match pview d !! dedupTTLKey id with
  | Some v => String.length v = 8%nat
  | None => forall h, pview d !! dedupKey id h = None
  end.

Definition pebble_commit_ok (p : PCommitter D) : Prop :=
  pebble_wf cfg (pc_store p) /\ marks_ok (ps_db (pc_store p)).

Definition canonical_id (i : string) : Prop := exists ms seq, in_uint64 ms /\ in_uint64 seq /\ i = formatID ms seq.

Definition pebble_batch_ok (relays : list batchedRelay) : Prop :=
  relays <> [] /\ NoDup (map br_id relays) /\ Forall (fun r => canonical_id (br_id r) /\ 0 <= br_computeUnits r) relays /\
  sum_cu relays <= int64_max.

Definition pebble_session_ok (id : string) : Prop := text_ok id /\ no_nul id.

(** *** Reads *)

Lemma ttlState_spec f now d id :
  marks_ok d -> no_nul id ->
  (exists exp, ttlStateLocked f now d id = Ok (live_at now d id, exp) /\
     (exp = true -> live_at now d id = false) /\
     (live_at now d id = false -> exp = false -> forall h, stored d (dedupKey id h) = false)) \/
  exists e, ttlStateLocked f now d id = Err e.
Proof.
  intros Hm Hid. specialize (Hm id Hid). unfold ttlStateLocked, p_get, live_at, stored.
  destruct f as [| |b]; simpl; [|right; by eexists..]. left.
  destruct (pview d !! dedupTTLKey id) as [v|].
  - rewrite Hm. simpl. eexists. split; [done|]. destruct (UnixMilli now <? _); done.
  - eexists. split; [done|]. split; [done|]. intros _ _ h. by rewrite Hm.
Qed.

Lemma Exists_spec f d c i : canonical_id i ->
  Exists f d c i = Ok (entry_there d c i) \/ exists e, Exists f d c i = Err e.
Proof.
  intros (ms & seq & Hm & Hs & ->). unfold Exists, entry_there, p_get, stored. rewrite c_key_formatID, parseID_formatID by done.
  rewrite String.eqb_refl. destruct f as [| |b]; simpl; [|right; by eexists..]. left. done.
Qed.

Lemma commitLoop_spec io live d c id relays seen acc :
  Forall (fun r => canonical_id (br_id r) /\ 0 <= br_computeUnits r) relays ->
  0 <= lo_cu acc -> lo_cu acc + sum_cu relays <= int64_max ->
  (exists e, commitLoop io live d c id relays seen acc = Err e) \/
  let '(new, dups) := split_new (fun h => bool_decide (h ∈ seen) || (live && stored d (dedupKey id h))) relays in
  commitLoop io live d c id relays seen acc =
    Ok (mkLoop (lo_marks acc ++ mark_writes id new)%list (lo_new acc + Z.of_nat (List.length new)) (lo_cu acc + sum_cu new)
          (lo_fresh acc + Z.of_nat (List.length (List.filter (fun r => entry_there d c (br_id r)) dups)))).
Proof.
  revert io seen acc. induction relays as [|r l IH]; intros io seen acc Hall Hlo Hhi.
  { right. simpl. rewrite app_nil_r, !Z.add_0_r. by destruct acc. }
  apply Forall_cons in Hall as [[Hcan Hcu] Hall].
  assert (0 <= sum_cu l) as Hsum.
  { clear -Hall. induction Hall as [|r l [_ ?] _ IHl]; simpl; [done|]. lia. }
  change (sum_cu (r :: l)) with (br_computeUnits r + sum_cu l) in Hhi.
  cbn [commitLoop split_new]. set (m := fun h => bool_decide (h ∈ seen) || _).
  assert ((exists e, (if negb (bool_decide (br_hash r ∈ seen)) && live then
            match p_get (io 0%nat) d (dedupKey id (br_hash r)) with
            | Ok v => Ok (match v with Some _ => true | None => false end)
            | Err _ => Err tt end
          else Ok (bool_decide (br_hash r ∈ seen))) = Err e) \/
          (if negb (bool_decide (br_hash r ∈ seen)) && live then
            match p_get (io 0%nat) d (dedupKey id (br_hash r)) with
            | Ok v => Ok (match v with Some _ => true | None => false end)
            | Err _ => Err tt end
          else Ok (bool_decide (br_hash r ∈ seen))) = Ok (m (br_hash r))) as [[e ->]| ->].
  { unfold m, p_get, stored. destruct (bool_decide (br_hash r ∈ seen)); simpl; [by right|].
    destruct live; simpl; [|by right]. destruct (io 0%nat); simpl; eauto. }
  { left. by exists e. }
  change (bool_decide (br_hash r ∈ seen) || live && stored d (dedupKey id (br_hash r))) with (m (br_hash r)).
  destruct (m (br_hash r)) eqn:Hm.
  - destruct (Exists_spec (io 1%nat) d c (br_id r) Hcan) as [->|[e ->]]; [|left; by eexists].
    specialize (IH (io_next 2 io) seen (mkLoop (lo_marks acc) (lo_new acc) (lo_cu acc)
      (if entry_there d c (br_id r) then lo_fresh acc + 1 else lo_fresh acc)) Hall Hlo ltac:(simpl; lia)).
    fold m in IH. destruct (split_new m l) as [new dups]. destruct IH as [IH|IH]; [by left|right].
    rewrite IH. cbn [lo_marks lo_new lo_cu lo_fresh List.filter].
    destruct (entry_there d c (br_id r)); cbn [List.length]; f_equal; f_equal; lia.
  - assert (in_int64 (br_computeUnits r) /\ in_int64 (lo_cu acc + br_computeUnits r)) as [Hi1 Hi2].
    { unfold in_int64, int64_min, int64_max in *. lia. }
    rewrite (wrap64_id (br_computeUnits r)), wrap64_id by done.
    specialize (IH (io_next 2 io) ({[br_hash r]} ∪ seen) (mkLoop (lo_marks acc ++ [PSet (dedupKey id (br_hash r)) ""])
      (lo_new acc + 1) (lo_cu acc + br_computeUnits r) (lo_fresh acc)) Hall ltac:(simpl; lia) ltac:(simpl; lia)).
    rewrite (split_new_ext _ (add_mark (br_hash r) m)) in IH.
    2:{ intros h. unfold add_mark, m. rewrite orb_assoc. f_equal. apply eq_true_iff_eq.
        rewrite orb_true_iff, !bool_decide_eq_true, String.eqb_eq. set_solver. }
    destruct (split_new (add_mark (br_hash r) m) l) as [new dups]. destruct IH as [IH|IH]; [by left|right].
    rewrite IH. cbn [lo_marks lo_new lo_cu lo_fresh List.length].
    rewrite <- app_assoc. change (sum_cu (r :: new)) with (br_computeUnits r + sum_cu new).
    f_equal. f_equal; lia.
Qed.
(** *** The committed batch, key by key *)

(** Which family a key belongs to: sessions, dedup marks, dedup TTLs, queue
    entries. *)
Definition fam (k : string) : nat :=
  if has_prefix pebbleSessionPrefix k then 1
  else if has_prefix pebbleDedupPrefix k then 2
  else if has_prefix pebbleDedupTTLPrefix k then 3
  else if has_prefix entryPrefix k then 4 else 0.

Lemma untouched m b k (F : nat -> Prop) :
  (forall w, w ∈ b -> touches w k = true -> F (fam k)) -> ~ F (fam k) -> apply_batch m b !! k = m !! k.
Proof.
  intros H Hn. apply apply_batch_other. intros w Hw. destruct (touches w k) eqn:E; [|done].
  by destruct Hn; apply (H w).
Qed.

Lemma del_fam id w k : w ∈ deleteSessionLocked id -> touches w k = true -> fam k = 2%nat \/ fam k = 3%nat.
Proof.
  intros Hw Ht. destruct (deleteSession_touches id w k Hw Ht) as [[r ->]%has_prefix_iff| ->]; [by left|by right].
Qed.

Lemma marks_fam id l w k : w ∈ mark_writes id l -> touches w k = true -> fam k = 2%nat.
Proof.
  intros Hw Ht. apply list_elem_of_In, in_map_iff in Hw as (r & <- & _). cbn [touches] in Ht.
  by apply String.eqb_eq in Ht as <-.
Qed.

Lemma acks_fam c ids w k : w ∈ AckInBatch c ids -> touches w k = true -> fam k = 4%nat.
Proof.
  rewrite AckInBatch_deletes. intros Hw Ht. apply list_elem_of_In, in_map_iff in Hw as (k' & <- & Hin).
  cbn [touches] in Ht. apply String.eqb_eq in Ht as <-. apply list_elem_of_In, list_elem_of_omap in Hin as (i & _ & Hk).
  unfold c_key in Hk. destruct (parseID i) as [[? ?]|]; by simplify_eq.
Qed.

Lemma singleton_fam w0 f w k : (forall x, touches w0 x = true -> fam x = f) -> w ∈ [w0] -> touches w k = true -> fam k = f.
Proof. intros H ->%list_elem_of_singleton. apply H. Qed.

Definition put_seg (now : Z) (status : Z) (snap : option SessionSnapshot) (out : LoopOut) : list pwrite :=
  match snap with
  | Some s => if (status =? 0) && (0 <? lo_new out) then [putLocked cfg (commit_snap now out s)] else []
  | None => []
  end.

Lemma put_fam now status snap out w k : w ∈ put_seg now status snap out -> touches w k = true -> fam k = 1%nat.
Proof.
  unfold put_seg. destruct snap as [s|]; [|by intros ?%elem_of_nil].
  destruct (_ && _); [|by intros ?%elem_of_nil]. apply singleton_fam. cbn [touches putLocked].
  by intros x <-%String.eqb_eq.
Qed.

Lemma slide_fam id now w k : w ∈ [slideTTLLocked (p_dedup cfg) id now] -> touches w k = true -> fam k = 3%nat.
Proof. apply singleton_fam. cbn [touches slideTTLLocked]. by intros x <-%String.eqb_eq. Qed.

(** Skip a segment of the batch whose keys are of another family. *)
Ltac skip_seg seg f lem :=
  rewrite (untouched _ seg _ (eq f));
  [ | intros; symmetry; eapply lem; eassumption
    | first [ done | let H := fresh in intros H; vm_compute in H; discriminate H
            | let H := fresh in intros H; intuition congruence ] ].

Section Batch.
Variables (now : Z) (c : Consumer) (id : string) (relays : list batchedRelay) (exp : bool) (status : Z).
Variables (snap : option SessionSnapshot) (new : list batchedRelay) (n cu fresh : Z) (m : gmap string string).
Hypothesis Hne : relays <> [].
Abbreviation out := (mkLoop (mark_writes id new) n cu fresh).
Abbreviation m' := (apply_batch m (commitBatch cfg now c id relays exp status snap out)).

Lemma batch_split :
  m' = apply_batch (apply_batch (apply_batch (apply_batch (apply_batch m
         (if exp then deleteSessionLocked id else [])) (mark_writes id new))
         [slideTTLLocked (p_dedup cfg) id now]) (put_seg now status snap out)) (AckInBatch c (map br_id relays)).
Proof.
  unfold commitBatch. destruct relays as [|r l]; [done|]. cbn [List.length Nat.eqb negb lo_marks].
  rewrite andb_true_r, !apply_batch_app. done.
Qed.

Lemma del_untouched k : fam k <> 2%nat -> fam k <> 3%nat ->
  apply_batch m (if exp then deleteSessionLocked id else []) !! k = m !! k.
Proof.
  intros H2 H3. destruct exp; [|done]. apply (untouched _ _ _ (fun f => f = 2%nat \/ f = 3%nat)).
  - intros w Hw Ht. by apply (del_fam id w).
  - intros [?|?]; done.
Qed.

Lemma batch_dedup h : m' !! dedupKey id h =
  if decide (h ∈ map br_hash new) then Some "" else if exp then None else m !! dedupKey id h.
Proof.
  rewrite batch_split.
  skip_seg (AckInBatch c (map br_id relays)) 4%nat acks_fam.
  skip_seg (put_seg now status snap out) 1%nat put_fam.
  skip_seg [slideTTLLocked (p_dedup cfg) id now] 3%nat slide_fam.
  rewrite apply_marks. rewrite (decide_ext _ (h ∈ map br_hash new)).
  - destruct (decide (h ∈ map br_hash new)); [done|]. destruct exp; [apply deleteSession_dedup|done].
  - rewrite !list_elem_of_In, !in_map_iff. split; intros (r & H1 & H2); exists r; split; try done.
    + unfold dedupKey in H1. by apply str_app_inj_l in H1.
    + by rewrite H1.
Qed.

Lemma batch_ttl : m' !! dedupTTLKey id = Some (PutUint64 (UnixMilli (now + dedup_ttl (p_dedup cfg)))).
Proof.
  rewrite batch_split.
  skip_seg (AckInBatch c (map br_id relays)) 4%nat acks_fam.
  skip_seg (put_seg now status snap out) 1%nat put_fam.
  apply lookup_insert_eq.
Qed.

Lemma batch_session id' : m' !! s_key cfg id' =
  apply_batch m (put_seg now status snap out) !! s_key cfg id'.
Proof.
  rewrite batch_split.
  skip_seg (AckInBatch c (map br_id relays)) 4%nat acks_fam.
  set (m3 := apply_batch _ [slideTTLLocked _ _ _]).
  assert (m3 !! s_key cfg id' = m !! s_key cfg id') as H3.
  { unfold m3. skip_seg [slideTTLLocked (p_dedup cfg) id now] 3%nat slide_fam.
    skip_seg (mark_writes id new) 2%nat marks_fam. by apply del_untouched. }
  unfold put_seg. destruct snap as [s|]; [|done]. destruct (_ && _); [|done].
  unfold apply_batch. cbn [foldl apply_write putLocked].
  destruct (decide (s_key cfg (SessionID (commit_snap now out s)) = s_key cfg id')) as [->|Hd].
  - by rewrite !lookup_insert_eq.
  - by rewrite !lookup_insert_ne.
Qed.

Lemma batch_entry ms seq : in_uint64 ms -> in_uint64 seq -> Forall (fun r => canonical_id (br_id r)) relays ->
  m' !! entryKey (c_stream c) ms seq =
  if decide (formatID ms seq ∈ map br_id relays) then None else m !! entryKey (c_stream c) ms seq.
Proof.
  intros Hm Hs Hall. rewrite batch_split. rewrite AckInBatch_deletes, apply_deletes.
  rewrite (decide_ext _ (formatID ms seq ∈ map br_id relays)).
  - destruct (decide (formatID ms seq ∈ _)); [done|].
    skip_seg (put_seg now status snap out) 1%nat put_fam.
    skip_seg [slideTTLLocked (p_dedup cfg) id now] 3%nat slide_fam.
    skip_seg (mark_writes id new) 2%nat marks_fam.
    by apply del_untouched.
  - rewrite list_elem_of_omap. split.
    + intros (i & Hi & Hk). apply list_elem_of_In, in_map_iff in Hi as (r & <- & Hr).
      apply list_elem_of_In in Hr. rewrite Forall_forall in Hall. destruct (Hall r Hr) as (m2 & s2 & ? & ? & He).
      rewrite He, c_key_formatID in Hk by done.
      apply (f_equal (default "")) in Hk. cbn [default from_option] in Hk.
      destruct (entryKey_inj (c_stream c) m2 s2 ms seq) as [-> ->]; [done..|]. rewrite <- He. by apply list_elem_of_In, in_map, list_elem_of_In.
    + intros Hi. exists (formatID ms seq). split; [done|]. by rewrite c_key_formatID.
Qed.

Lemma batch_other_session id' k : no_nul id -> no_nul id' -> id' <> id -> k = dedupTTLKey id' \/ (exists h, k = dedupKey id' h) ->
  m' !! k = m !! k.
Proof.
  intros Hid Hid' Hd Hk. rewrite batch_split.
  assert (fam k = 2%nat \/ fam k = 3%nat) as Hfam by (destruct Hk as [->|[h ->]]; [by right|by left]).
  assert (k <> dedupTTLKey id) as Hkt.
  { destruct Hk as [->|[h ->]]; [intros He%str_app_inj_l; done|]. by apply (prefix_ne pebbleDedupPrefix). }
  skip_seg (AckInBatch c (map br_id relays)) 4%nat acks_fam.
  skip_seg (put_seg now status snap out) 1%nat put_fam.
  unfold apply_batch at 1. cbn [foldl apply_write slideTTLLocked]. rewrite lookup_insert_ne by done.
  rewrite apply_marks, decide_False.
  2:{ rewrite list_elem_of_In, in_map_iff. intros (r & He & _). destruct Hk as [->|[h ->]].
      - by apply (prefix_ne pebbleDedupPrefix) in He.
      - by apply dedupKey_inj in He as [? _]. }
  destruct exp; [|done]. apply apply_batch_other. intros w Hw. destruct (touches w k) eqn:E; [|done]. exfalso.
  destruct (deleteSession_touches id w k Hw E) as [Hp|?]; [|done].
  destruct Hk as [->|[h ->]]; [done|]. apply dedupPrefix_session in Hp; done.
Qed.
End Batch.

(** *** The commit *)

Definition commit_window : Z := Z.min (dedup_ttl (p_dedup cfg) - 10 ^ 6) (p_ttl cfg).

Lemma slid_live now t : time_ok now -> now <= t < now + commit_window ->
  (UnixMilli t <? wrap64 (Uint64 (PutUint64 (UnixMilli (now + dedup_ttl (p_dedup cfg)))))) = true.
Proof.
  intros Hnow Ht. unfold commit_window in Ht. rewrite Uint64_PutUint64, wrap64_wrapu64.
  - apply Z.ltb_lt. unfold UnixMilli. set (b := now + dedup_ttl (p_dedup cfg)).
    assert (t - unix_epoch <= b - unix_epoch - 1 * 10 ^ 6) as Hle by lia.
    apply (Z.div_le_mono _ _ (10 ^ 6)) in Hle; [|lia].
    replace (b - unix_epoch - 1 * 10 ^ 6) with (b - unix_epoch + (-1) * 10 ^ 6) in Hle by lia.
    rewrite Z.div_add in Hle by lia. lia.
  - unfold UnixMilli, in_int64, int64_min, int64_max, time_ok, max_instant, unix_epoch in *.
    split; [apply Z.div_le_lower_bound|apply Z.div_le_upper_bound]; lia.
Qed.

Lemma has_hash_in l h : has_hash l h = bool_decide (h ∈ map br_hash l).
Proof.
  unfold has_hash. apply eq_true_iff_eq. rewrite bool_decide_eq_true, existsb_exists, list_elem_of_In, in_map_iff.
  split; intros (r & H1 & H2); exists r; (split; [try done|]); rewrite ?String.eqb_eq in *; done.
Qed.

Lemma has_id_in l i : has_id l i = bool_decide (i ∈ map br_id l).
Proof.
  unfold has_id. apply eq_true_iff_eq. rewrite bool_decide_eq_true, existsb_exists, list_elem_of_In, in_map_iff.
  split; intros (r & H1 & H2); exists r; (split; [try done|]); rewrite ?String.eqb_eq in *; done.
Qed.

Lemma pebble_view_key t s1 s2 id :
  pview (ps_db s1) !! s_key cfg id = pview (ps_db s2) !! s_key cfg id ->
  pebble_view cfg t s1 id = pebble_view cfg t s2 id.
Proof. intros He. unfold pebble_view. by rewrite He. Qed.

Lemma pebble_view_stored t (s : PStore D) id val snap :
  text_ok id -> pview (ps_db s) !! s_key cfg id = Some val -> json_dec val = Some snap ->
  pebble_view cfg t s id = if expired cfg snap t then None else Some snap.
Proof. intros Hid Hv Hj. unfold pebble_view. by rewrite decide_True, Hv, Hj. Qed.

Section Done.
Variables (now : Z) (p : PCommitter D) (id : string) (relays new dups : list batchedRelay) (exp : bool) (fresh : Z).
Hypothesis Hok : pebble_commit_ok p.
Hypothesis Hid : pebble_session_ok id.
Hypothesis Hbatch : pebble_batch_ok relays.
Hypothesis Hnow : time_ok now.
Abbreviation d := (ps_db (pc_store p)).
Abbreviation v := (pebble_commit_view now p id).
Abbreviation snap := (pebble_view cfg now (pc_store p) id).
Abbreviation loop_out := (mkLoop (mark_writes id new) (Z.of_nat (List.length new)) (sum_cu new) fresh).
Abbreviation batch := (commitBatch cfg now (pc_consumer p) id relays exp (commit_status snap) snap loop_out).
Abbreviation d' := (p_commit batch d).
Hypothesis Hfit : batch_fits relays snap.
Hypothesis Hsplit : split_new (cv_marks v) relays = (new, dups).
Hypothesis Hexp1 : exp = true -> live_at now d id = false.
Hypothesis Hexp2 : live_at now d id = false -> exp = false -> forall h, stored d (dedupKey id h) = false.

Lemma new_facts : (List.length new <= List.length relays)%nat /\ 0 <= sum_cu new <= sum_cu relays /\
  forall h, h ∈ map br_hash new <-> h ∈ map br_hash relays /\ cv_marks v h = false.
Proof.
  pose proof (split_new_count (cv_marks v) relays) as Hc. rewrite Hsplit in Hc. destruct Hc as (_ & Hi & Hl).
  split; [lia|]. split; [|done]. destruct Hbatch as (_ & _ & Hall & _).
  pose proof (f_equal fst Hsplit) as Hn. cbn [fst] in Hn. rewrite <- Hn.
  generalize (cv_marks v) as mk. clear -Hall. induction Hall as [|r l [_ Hr] Hall IH]; intros mk; simpl; [done|].
  destruct (mk (br_hash r)).
  - specialize (IH mk). destruct (split_new mk l). simpl in *. lia.
  - specialize (IH (add_mark (br_hash r) mk)). destruct (split_new _ l). simpl in *. lia.
Qed.

Definition counted : option SessionSnapshot := count_relays now (Z.of_nat (List.length new)) (sum_cu new) snap.

(** What the batch does to the session's key. *)
Lemma done_session_key id' : text_ok id' ->
  (id' = id /\ (exists s s', snap = Some s /\ counted = Some s' /\ LastUpdatedAt s' = now /\ codec_ok s' /\ SessionID s' = id /\
     pview d' !! s_key cfg id' = Some (json_enc s'))) \/
  (pview d' !! s_key cfg id' = pview d !! s_key cfg id' /\ (id' = id -> counted = snap)).
Proof.
  intros Hid'. rewrite view_commit, batch_session by apply Hbatch. unfold put_seg, counted.
  destruct snap as [s|] eqn:Hs; [|by right]. cbn [count_relays commit_status lo_new].
  destruct (IsTerminal (State s)) eqn:Hterm; cbn [negb andb]; [by right|].
  destruct (0 <? Z.of_nat (List.length new)) eqn:Hpos; cbn [andb Z.eqb]; [|by right].
  destruct (view_snap cfg now (pc_store p) id s (proj1 Hok) (proj1 Hid) Hs) as [Hsid Hcok].
  destruct new_facts as (Hl & Hsum & _). destruct Hfit as [Hf1 Hf2].
  pose proof Hcok as ((_ & _ & [? ?] & [? ?] & _) & _). destruct Hbatch as (_ & _ & _ & Hmax).
  assert (commit_snap now loop_out s = set_LastUpdatedAt now (set_counters
    (RelayCount s + Z.of_nat (List.length new)) (TotalComputeUnits s + sum_cu new) s)) as ->.
  { unfold commit_snap. cbn [lo_new lo_cu]. unfold in_int64, in_uint64, int64_min, int64_max, uint64_max in *.
    rewrite wrap64_id, (wrapu64_id (sum_cu new)), wrapu64_id; unfold in_int64, in_uint64, int64_min, int64_max, uint64_max; lia || done. }
  unfold apply_batch. cbn [foldl apply_write putLocked].
  change (SessionID (set_LastUpdatedAt now _)) with (SessionID s). rewrite Hsid.
  destruct (decide (id' = id)) as [->|Hd].
  - left. split; [done|]. eexists s, _. split_and!; [done|done|done| |done|by rewrite lookup_insert_eq].
    apply codec_time; [done|]. apply codec_counters; [..|done]; unfold in_int64, in_uint64, int64_min, int64_max, uint64_max in *; lia.
  - right. split; [|done]. apply lookup_insert_ne. intros He. by apply s_key_inj in He.
Qed.

Lemma done_ok c' : pebble_commit_ok (mkPCommitter (set_db d' (pc_store p)) c').
Proof.
  destruct Hok as [Hwf Hmk]. destruct Hid as [Htx Hnn]. split.
  - intros id' val Hid' Hv. cbn [pc_store set_db ps_db] in Hv.
    destruct (done_session_key id' Hid') as [(-> & s & s' & _ & _ & _ & Hc & Hsid & He)|[He _]]; rewrite He in Hv.
    + simplify_eq. exists s'. split_and!; [by apply json_dec_enc|done|done].
    + by apply Hwf.
  - intros id' Hn'. cbn [pc_store set_db ps_db]. rewrite !view_commit.
    destruct (decide (id' = id)) as [->|Hd].
    + rewrite batch_ttl by apply Hbatch. apply PutUint64_length.
    + rewrite (batch_other_session _ _ _ _ _ _ _ _ _ _ _ _ (proj1 Hbatch) id') by (try done; by left).
      specialize (Hmk id' Hn'). destruct (pview d !! dedupTTLKey id'); [done|]. intros h.
      rewrite (batch_other_session _ _ _ _ _ _ _ _ _ _ _ _ (proj1 Hbatch) id') by (try done; right; by eexists). apply Hmk.
Qed.

Lemma done_other c' id' t : id' <> id -> pebble_session_ok id' ->
  (forall h, cv_marks (pebble_commit_view t (mkPCommitter (set_db d' (pc_store p)) c') id') h = cv_marks (pebble_commit_view t p id') h) /\
  cv_session (pebble_commit_view t (mkPCommitter (set_db d' (pc_store p)) c') id') ≡ cv_session (pebble_commit_view t p id').
Proof.
  intros Hd [Htx' Hnn']. destruct Hid as [Htx Hnn].
  cbn [pebble_commit_view cv_marks cv_session pc_store set_db ps_db]. split.
  - intros h. unfold live_at, stored. rewrite !view_commit.
    rewrite (batch_other_session _ _ _ _ _ _ _ _ _ _ _ _ (proj1 Hbatch) id' (dedupTTLKey id')) by (try done; by left).
    by rewrite (batch_other_session _ _ _ _ _ _ _ _ _ _ _ _ (proj1 Hbatch) id' (dedupKey id' h)) by (try done; right; by eexists).
  - rewrite (pebble_view_key t _ (pc_store p)); [done|].
    by destruct (done_session_key id' Htx') as [(? & _)|[? _]].
Qed.

Lemma done_view c' t : now <= t < now + commit_window -> c_stream c' = c_stream (pc_consumer p) ->
  pebble_view cfg t (pc_store p) id ≡ snap ->
  pebble_commit_view t (mkPCommitter (set_db d' (pc_store p)) c') id ≡ spec_commit now relays v.
Proof.
  intros Ht Hc' Hst. destruct Hid as [Htx Hnn]. pose proof Hbatch as (Hne & _ & Hall & _).
  unfold spec_commit. rewrite Hsplit. split_and!.
  - intros h. cbn [pebble_commit_view cv_marks pc_store set_db ps_db]. unfold live_at at 1, stored at 1.
    rewrite view_commit, batch_ttl, batch_dedup by done.
    rewrite PutUint64_length, slid_live by done. cbn [Nat.eqb andb].
    destruct new_facts as (_ & _ & Hnew). specialize (Hnew h). rewrite has_hash_in.
    cbn [pebble_commit_view cv_marks] in Hnew |- *. fold d in Hnew |- *.
    destruct (decide (h ∈ map br_hash new)) as [Hin|Hnin].
    + apply Hnew in Hin as [Hin _]. by rewrite bool_decide_true.
    + destruct (live_at now d id) eqn:Hlive.
      * assert (exp = false) as -> by (destruct exp; [by specialize (Hexp1 eq_refl)|done]). cbn [andb] in Hnew |- *.
        unfold stored in Hnew |- *. destruct (pview d !! dedupKey id h) as [x|]; [by rewrite orb_true_r|].
        rewrite orb_false_r. symmetry. apply bool_decide_false. naive_solver.
      * cbn [andb] in *. rewrite orb_false_r. destruct exp.
        -- symmetry. apply bool_decide_false. naive_solver.
        -- pose proof (Hexp2 eq_refl eq_refl h) as Hno. unfold stored in Hno. destruct (pview d !! dedupKey id h); [done|].
           symmetry. apply bool_decide_false. naive_solver.
  - change (pebble_view cfg t (set_db d' (pc_store p)) id ≡ counted).
    destruct (done_session_key id Htx) as [(_ & s & s' & _ & -> & Hlu & Hcok & _ & Hk)|[Hk Hsame]].
    + rewrite (pebble_view_stored t _ id (json_enc s') s') by (try done; by apply json_dec_enc).
      unfold expired. rewrite Hlu. unfold commit_window in Ht.
      destruct (Z.ltb_spec (now + p_ttl cfg) t); [lia|]. by rewrite andb_false_r.
    + rewrite (Hsame eq_refl), (pebble_view_key t _ (pc_store p)); done.
  - intros i. cbn [pebble_commit_view cv_entries pc_store pc_consumer set_db ps_db]. unfold entry_there. rewrite Hc'.
    destruct (parseID i) as [[ms seq]|] eqn:Hp; [|by rewrite andb_false_r].
    destruct (String.eqb_spec i (formatID ms seq)) as [->|]; [|by rewrite andb_false_r]. cbn [andb].
    unfold stored. rewrite view_commit, has_id_in. destruct (parseID_range _ _ _ Hp) as [Hm Hs].
    rewrite batch_entry; [|done|done|done|].
    + destruct (decide (formatID ms seq ∈ map br_id relays)); [by rewrite bool_decide_true|by rewrite bool_decide_false].
    + eapply Forall_impl; [exact Hall|]. by intros r [? _].
Qed.
End Done.

(** ** The instance *)

#[export] Instance PebbleCommitterOps : RelayCommitter (PCommitter D) := {
  rc_view := pebble_commit_view;
  rc_ok := pebble_commit_ok;
  rc_session_ok := pebble_session_ok;
  rc_batch_ok := pebble_batch_ok;
  rc_window := commit_window;
  rc_commit := fun io now p id relays => PCommitSession cfg io now p id relays
}.

#[export] Instance PebbleCommitterLaws : RelayCommitterLaws (PCommitter D).
Proof.
  split. intros io now p id relays Hok Hid Hb Hnow Hfit. cbn [rc_commit rc_ok rc_session_ok rc_batch_ok rc_view PebbleCommitterOps] in *.
  assert (forall e, commits now p id relays (p, Err e)) as Hnone.
  { intros e. split; [done|]. split; [done|]. simpl. destruct e; [done|by left]. }
  unfold PCommitSession. destruct Hok as [Hwf Hmk]. pose proof Hid as [Htx Hnn].
  destruct (getLocked_view cfg (io 0%nat) now (pc_store p) id Hwf Htx) as [->|[e ->]]; [|apply Hnone].
  destruct (ttlState_spec (io 1%nat) now (ps_db (pc_store p)) id Hmk Hnn) as [(exp & -> & He1 & He2)|[e ->]]; [|apply Hnone].
  pose proof Hb as (_ & _ & Hall & Hmax).
  destruct (commitLoop_spec (io_next 3 io) (live_at now (ps_db (pc_store p)) id) (ps_db (pc_store p)) (pc_consumer p) id relays ∅
    (mkLoop [] 0 0 0) Hall) as [[e ->]|Hl]; [done|done|apply Hnone|].
  rewrite (split_new_ext _ (cv_marks (pebble_commit_view now p id))) in Hl by (intros h; by rewrite bool_decide_false by set_solver).
  destruct (split_new (cv_marks (pebble_commit_view now p id)) relays) as [new dups] eqn:Hsplit.
  cbn [lo_marks lo_new lo_cu lo_fresh] in Hl. rewrite app_nil_l, !Z.add_0_l in Hl. rewrite Hl. clear Hl.
  set (fresh := Z.of_nat (List.length (List.filter _ dups))).
  set (batch := commitBatch _ _ _ _ _ _ _ _ _).
  assert (forall c' a, c_stream c' = c_stream (pc_consumer p) ->
    a = Ok (spec_result relays (pebble_commit_view now p id)) \/ a = Err CUnknown ->
    commits now p id relays (mkPCommitter (set_db (p_commit batch (ps_db (pc_store p))) (pc_store p)) c', a)) as Hdone.
  { intros c' a Hc' Ha. split; [by eapply done_ok|]. split; [intros; by eapply done_other|].
    assert (forall t, now <= t < now + commit_window ->
      pebble_view cfg t (pc_store p) id ≡ pebble_view cfg now (pc_store p) id ->
      pebble_commit_view t (mkPCommitter (set_db (p_commit batch (ps_db (pc_store p))) (pc_store p)) c') id ≡
      spec_commit now relays (pebble_commit_view now p id)) as Hv by (intros; by eapply done_view).
    destruct Ha as [->| ->]; [split; [done|exact Hv]|right; exact Hv]. }
  assert (mkPCommitter (set_db (ps_db (pc_store p)) (pc_store p)) (pc_consumer p) = p) as Hp by by destruct p as [[] ?].
  unfold p_write. destruct (io 2%nat) as [| |[]]; cbn [round_trip fst]; rewrite ?Hp; [|apply Hnone| |apply Hnone];
    (apply Hdone; [done|]); [left|by right].
  unfold spec_result. rewrite Hsplit. done.
Qed.
End Laws.

(** ** Retries count a batch once *)

Section Claims.
Context {D : Type} `{PO : !PebbleOps D} `{PL : !PebbleLaws D}.
Context `{SJ : !SnapshotJson} `{SJL : !SnapshotJsonLaws}.

(** C5. A batch of relays committed to the standalone store again and again
    within the dedup window, each attempt answered or failed at any of its
    round trips, is counted in its session at most once, and exactly once when
    one attempt was answered. *)
Theorem pebble_batch_counted_once (cfg : PConfig) (id : string) (relays : list batchedRelay) (v0 : CommitView)
    (T0 t : Z) (p0 p : PCommitter D) (answered : bool) :
  0 <= p_ttl cfg -> 10 ^ 6 <= dedup_ttl (p_dedup cfg) <= int64_max ->
  pebble_commit_ok cfg p0 -> pebble_session_ok id -> pebble_batch_ok relays ->
  0 <= T0 -> t < T0 + commit_window cfg -> t <= max_instant ->
  (forall t', T0 <= t' < T0 + commit_window cfg -> pebble_commit_view cfg t' p0 id ≡ v0) ->
  batch_fits relays (cv_session v0) -> batch_fits relays (cv_session (spec_commit T0 relays v0)) ->
  attempts (RelayCommitter0 := PebbleCommitterOps cfg) id relays T0 p0 answered t p ->
  pebble_commit_ok cfg p /\
  (pebble_commit_view cfg t p id ≡ v0 \/ pebble_commit_view cfg t p id ≡ spec_commit T0 relays v0) /\
  (answered = true -> pebble_commit_view cfg t p id ≡ spec_commit T0 relays v0).
Proof.
  intros Httl Hdttl Hok Hid Hb HT Hwin Ht Hv Hf0 Hf1 Ha.
  pose proof (PebbleCommitterLaws cfg Httl Hdttl) as HL.
  pose proof (attempts_time id relays _ _ _ _ _ Ha) as Hle.
  destruct (@attempts_done _ (PebbleCommitterOps cfg) HL id relays v0 T0 Hid Hb T0 p0 answered t p Ha) as (Hok' & Hpd & Hd);
    try done. split; [done|]. split.
  - destruct Hpd as [Hpd|Hpd]; [left|right]; apply (Hpd t); simpl; lia.
  - intros Hans. apply (Hd Hans t). simpl. lia.
Qed.
End Claims.

(** A standalone store with one session and nothing else. *)
Module PebbleExample.
Import Concrete.

Definition cfg : PConfig := mkPConfig "pokt1sup" (sessionTTL 0) (withDefaults (mkDedupConfig 0 0)).

Definition store_1 : PCommitter (gmap string string) :=
  mkPCommitter (mkPStore false 0 {[ s_key cfg "s1" := json_enc session_1 ]}) (NewConsumer "stream" 0).

Lemma pebble_store_1_ok : pebble_commit_ok cfg store_1.
Proof.
  split.
  - intros id v Hid Hv. cbn [pview MapPebble ps_db pc_store store_1] in Hv.
    apply lookup_singleton_Some in Hv as [Hk <-]. apply s_key_inj in Hk as <-.
    exists session_1. assert (codec_ok session_1) as Hok.
    { split; [apply session_1_storable|]. split; [apply session_1_storable|]. split; vm_compute; split; congruence. }
    split; [by apply json_dec_enc|done].
  - intros id Hid. cbn [pview MapPebble ps_db pc_store store_1].
    assert (forall k, fam k <> 1%nat -> ({[ s_key cfg "s1" := json_enc session_1 ]} : gmap string string) !! k = None) as Hn.
    { intros k Hk. apply lookup_singleton_ne. intros <-. by apply Hk. }
    rewrite Hn by done. intros h. by rewrite Hn.
Qed.

Definition T0 : Z := unix_epoch + 10 ^ 18.
Definition lost : Io := fun k => if (k =? 2)%nat then FLost true else FNone.
Definition after_lost := fst (PCommitSession cfg lost T0 store_1 "s1" batch_1).
Definition after_both := fst (PCommitSession cfg io_ok (T0 + 10 ^ 9) after_lost "s1" batch_1).

(** The relays are counted once: two distinct ones, 12 compute units. *)
Lemma pebble_batch_counted_once_witness :
  pebble_commit_view cfg (T0 + 10 ^ 9) after_both "s1" ≡ spec_commit T0 batch_1 (pebble_commit_view cfg T0 store_1 "s1") /\
  (fun s => (RelayCount s, TotalComputeUnits s)) <$> pebble_view cfg (T0 + 10 ^ 9) (pc_store after_both) "s1" = Some (2, 12).
Proof.
  split; [|by vm_compute].
  assert (pebble_batch_ok batch_1) as Hb.
  { split; [done|]. split; [apply (bool_decide_unpack _); by vm_compute|]. split; [|by vm_compute].
    assert (forall n, 0 <= n <= 9 -> canonical_id (formatID 1 n)) as Hc.
    { intros n Hn. exists 1, n. unfold in_uint64, uint64_max. split; [lia|]. split; [lia|done]. }
    constructor; [split; [apply (Hc 1); lia|done]|]. constructor; [split; [apply (Hc 2); lia|done]|].
    constructor; [split; [apply (Hc 3); lia|done]|]. constructor. }
  assert (attempts (RelayCommitter0 := PebbleCommitterOps cfg) "s1" batch_1 T0 store_1 false T0 after_lost) as H1.
  { pose proof (attempts_more (RelayCommitter0 := PebbleCommitterOps cfg) "s1" batch_1 T0 store_1 false T0 store_1 lost T0
      (attempts_none _ _ _ _) (Z.le_refl T0)) as H.
    cbn [rc_commit PebbleCommitterOps] in H.
    replace false with (match snd (PCommitSession cfg lost T0 store_1 "s1" batch_1) with Ok _ => true | Err _ => false end)
      by (by vm_compute). exact H. }
  assert (attempts (RelayCommitter0 := PebbleCommitterOps cfg) "s1" batch_1 T0 store_1 true (T0 + 10 ^ 9) after_both) as H2.
  { pose proof (attempts_more (RelayCommitter0 := PebbleCommitterOps cfg) "s1" batch_1 T0 store_1 false T0 after_lost io_ok
      (T0 + 10 ^ 9) H1) as H.
    replace true with (match snd (PCommitSession cfg io_ok (T0 + 10 ^ 9) after_lost "s1" batch_1) with Ok _ => true | Err _ => false end)
      by (by vm_compute). apply H. lia. }
  set (v0 := pebble_commit_view cfg T0 store_1 "s1").
  assert (0 <= p_ttl cfg) as Ht1 by (vm_compute; congruence).
  assert (10 ^ 6 <= dedup_ttl (p_dedup cfg) <= int64_max) as Ht2 by (vm_compute; split; congruence).
  assert (pebble_session_ok "s1") as Hs by (by vm_compute).
  assert (0 <= T0) as H3 by (vm_compute; congruence).
  assert (T0 + 10 ^ 9 < T0 + commit_window cfg) as H4 by (by vm_compute).
  assert (T0 + 10 ^ 9 <= max_instant) as H5 by (vm_compute; congruence).
  assert (forall t', T0 <= t' < T0 + commit_window cfg -> pebble_commit_view cfg t' store_1 "s1" ≡ v0) as H6.
  { intros t' _. split; [done|]. split; [|done].
    assert (forall t, cv_session (pebble_commit_view cfg t store_1 "s1") = Some session_1) as Hc by (intros t; by vm_compute).
    unfold v0. by rewrite !Hc. }
  assert (batch_fits batch_1 (cv_session v0)) as Hf0 by (vm_compute; split; congruence).
  assert (batch_fits batch_1 (cv_session (spec_commit T0 batch_1 v0))) as Hf1 by (vm_compute; split; congruence).
  destruct (pebble_batch_counted_once cfg "s1" batch_1 v0 T0 (T0 + 10 ^ 9) store_1 after_both true
    Ht1 Ht2 pebble_store_1_ok Hs Hb H3 H4 H5 H6 Hf0 Hf1 H2) as (_ & _ & Hall).
  exact (Hall eq_refl).
Defined.
End PebbleExample.
