(* ===== verification/RedisModel.v ===== *)
(** * The Redis the miner talks to

    Redis is a service the repository calls: its commands are parameters here.
    [RedisOps] lists the commands the modelled code sends, with [rview], what
    the keys hold; [RedisLaws] is their documented effect on what the keys
    hold. Every theorem about Redis-backed code is proved from these laws, and
    [MapRedis], a finite map with the commands written out, shows they can
    hold.

    A Lua script and a MULTI/EXEC run as one step on the server, so both are
    functions from a Redis to a Redis; [round_trip] of the prelude adds what
    the network does to them. EXPIRE with a positive TTL leaves what the keys
    hold as it is. That a key goes when its time has come is in [RedisClock]:
    the server's clock, the deadline each key has, and the server when its
    clock shows a later instant. Code whose property depends on what expires is
    run on the server at the instant of the call; [TimedRedis], a map with
    deadlines and a clock, shows that these laws can hold too. *)

From S2P Require Import Prelude.
From Stdlib Require Import Ascii String.

Local Open Scope string_scope.
Local Open Scope Z_scope.

(** ** What a key holds *)

Inductive rval :=
| RStr (s : string)
| RHash (h : gmap string string)
| RSet (m : gset string)
| RStream (ids : gset string).

(** The answer of TYPE. *)
Inductive rtype := TNone | TString | THash | TSet | TStream.

Definition type_of (v : option rval) : rtype :=
  match v with
  | None => TNone
  | Some (RStr _) => TString
  | Some (RHash _) => THash
  | Some (RSet _) => TSet
  | Some (RStream _) => TStream
  end.

Definition hash_of (v : option rval) : gmap string string :=
  match v with Some (RHash h) => h | _ => ∅ end.

Definition set_of (v : option rval) : gset string :=
  match v with Some (RSet m) => m | _ => ∅ end.

Definition stream_of (v : option rval) : gset string :=
  match v with Some (RStream ids) => ids | _ => ∅ end.

(** A command on a hash (a set, a stream) accepts a key that holds one or
    nothing; on any other key Redis answers WRONGTYPE. *)
Definition takes_hash (v : option rval) : Prop := type_of v = TNone \/ type_of v = THash.
Definition takes_set (v : option rval) : Prop := type_of v = TNone \/ type_of v = TSet.
Definition takes_stream (v : option rval) : Prop := type_of v = TNone \/ type_of v = TStream.

Definition hash_set (h : gmap string string) (kvs : list (string * string)) : gmap string string :=
  foldl (fun h kv => <[kv.1 := kv.2]> h) h kvs.

Definition hash_del (h : gmap string string) (fs : list string) : gmap string string :=
  foldl (fun h f => delete f h) h fs.

(** Redis removes a hash or a set that became empty. *)
Definition put_hash (k : string) (h : gmap string string) (m : gmap string rval) : gmap string rval :=
  if decide (h = ∅) then delete k m else <[k := RHash h]> m.

Definition put_set (k : string) (s : gset string) (m : gmap string rval) : gmap string rval :=
  if decide (s = ∅) then delete k m else <[k := RSet s]> m.

(** The integer a counter field holds: an absent field counts as 0. *)
Definition counter_of (v : option string) : option Z :=
  match v with
  | None => Some 0
  | Some s => ParseInt s
  end.

(** The per-id answers of XACKDEL: 1 for an entry that was there, -1 for one
    that was not; an id given twice is there once. *)
Fixpoint xack_replies (ids : gset string) (l : list string) : list Z :=
  match l with
  | [] => []
  | id :: l' => (if decide (id ∈ ids) then 1 else -1) :: xack_replies (ids ∖ {[id]}) l'
  end.

(** ** The commands *)

Class RedisOps (R : Type) := {
  rview : R -> gmap string rval;
  r_hset : string -> list (string * string) -> R -> R;
  r_hdel : string -> list string -> R -> R;
  r_hincrby : string -> string -> Z -> R -> option R;
  r_del : string -> R -> R;
  r_sadd : string -> string -> R -> R * Z;
  r_srem : string -> string -> R -> R;
  r_smembers : R -> string -> list string;
  r_expire : string -> Z -> R -> R;
  r_xackdel : string -> string -> list string -> R -> R * list Z
}.

Class RedisLaws (R : Type) `{!RedisOps R} := {
  view_hset r k kvs :
    takes_hash (rview r !! k) -> kvs <> [] ->
    rview (r_hset k kvs r) = <[k := RHash (hash_set (hash_of (rview r !! k)) kvs)]> (rview r);
  view_hdel r k fs :
    takes_hash (rview r !! k) ->
    rview (r_hdel k fs r) = put_hash k (hash_del (hash_of (rview r !! k)) fs) (rview r);
  view_hincrby r k f n :
    takes_hash (rview r !! k) ->
    match counter_of (hash_of (rview r !! k) !! f) with
    | Some c =>
        if decide (in_int64 (c + n)) then
          exists r', r_hincrby k f n r = Some r' /\
            rview r' = <[k := RHash (<[f := format_int (c + n)]> (hash_of (rview r !! k)))]> (rview r)
        else r_hincrby k f n r = None
    | None => r_hincrby k f n r = None
    end;
  view_del r k : rview (r_del k r) = delete k (rview r);
  view_sadd r k m :
    takes_set (rview r !! k) ->
    rview (fst (r_sadd k m r)) = <[k := RSet ({[m]} ∪ set_of (rview r !! k))]> (rview r);
  reply_sadd r k m :
    takes_set (rview r !! k) ->
    snd (r_sadd k m r) = if decide (m ∈ set_of (rview r !! k)) then 0 else 1;
  view_srem r k m :
    takes_set (rview r !! k) ->
    rview (r_srem k m r) = put_set k (set_of (rview r !! k) ∖ {[m]}) (rview r);
  reply_smembers r k :
    NoDup (r_smembers r k) /\ forall m, m ∈ r_smembers r k <-> m ∈ set_of (rview r !! k);
  view_expire r k ttl : 0 < ttl -> rview (r_expire k ttl r) = rview r;
  view_xackdel r k g ids :
    takes_stream (rview r !! k) ->
    rview (fst (r_xackdel k g ids r)) =
      match rview r !! k with
      | None => rview r
      | Some _ => <[k := RStream (stream_of (rview r !! k) ∖ list_to_set ids)]> (rview r)
      end;
  reply_xackdel r k g ids :
    takes_stream (rview r !! k) ->
    snd (r_xackdel k g ids r) = xack_replies (stream_of (rview r !! k)) ids
}.

Definition r_type {R} `{!RedisOps R} (r : R) (k : string) : rtype := type_of (rview r !! k).
Definition r_hget {R} `{!RedisOps R} (r : R) (k f : string) : option string :=
  hash_of (rview r !! k) !! f.

(** ** A map with the commands written out *)

#[export] Instance MapRedis : RedisOps (gmap string rval) := {
  rview := fun r => r;
  r_hset := fun k kvs r => <[k := RHash (hash_set (hash_of (r !! k)) kvs)]> r;
  r_hdel := fun k fs r => put_hash k (hash_del (hash_of (r !! k)) fs) r;
  r_hincrby := fun k f n r =>
    match counter_of (hash_of (r !! k) !! f) with
    | Some c =>
        if decide (int64_min <= c + n <= int64_max)
        then Some (<[k := RHash (<[f := format_int (c + n)]> (hash_of (r !! k)))]> r)
        else None
    | None => None
    end;
  r_del := fun k r => delete k r;
  r_sadd := fun k m r =>
    (<[k := RSet ({[m]} ∪ set_of (r !! k))]> r, if decide (m ∈ set_of (r !! k)) then 0 else 1);
  r_srem := fun k m r => put_set k (set_of (r !! k) ∖ {[m]}) r;
  r_smembers := fun r k => elements (set_of (r !! k));
  r_expire := fun _ _ r => r;
  r_xackdel := fun k _ ids r =>
    (match r !! k with
     | None => r
     | Some _ => <[k := RStream (stream_of (r !! k) ∖ list_to_set ids)]> r
     end, xack_replies (stream_of (r !! k)) ids)
}.

#[export] Instance MapRedis_laws : RedisLaws (gmap string rval).
Proof.
  split; simpl; intros; try done.
  - destruct (counter_of _); [|done].
    destruct (decide (in_int64 _)) as [H1|H1]; unfold in_int64 in H1.
    + rewrite decide_True by done. eauto.
    + by rewrite decide_False.
  - split; [apply NoDup_elements|]. intros. apply elem_of_elements.
Qed.

(** ** Numbers of the scripts *)

(** A number in a Lua script is a double: what a command gets of an integer the
    script was given as text and passed through tonumber. Up to 2^53 it is that
    integer. *)
Class LuaNumbers := {
  lua_number : Z -> Z;
  lua_number_exact n : 0 <= n <= 2 ^ 53 -> lua_number n = n
}.

(** To the nearest multiple of the last place. *)
Definition nearest_double (n : Z) : Z :=
  if n <=? 2 ^ 53 then n else let u := 2 ^ (Z.log2 n - 52) in (n + u / 2) / u * u.

#[export] Instance DoubleNumbers : LuaNumbers.
Proof. refine {| lua_number := nearest_double |}. intros n [_ Hn]. unfold nearest_double. by rewrite (proj2 (Z.leb_le _ _) Hn). Defined.

(** ** Expiry *)

(** Instants are nanoseconds, the TTL of EXPIRE is in seconds. *)
Definition Second : Z := 10 ^ 9.

Class RedisClock (R : Type) := {
  r_now : R -> Z;
  r_deadline : R -> string -> option Z;
  (** the server once its clock shows [t], when nobody sent it anything *)
  r_at : Z -> R -> R
}.

(** One command on a key, other than EXPIRE. *)
Inductive ran {R} `{!RedisOps R} (k : string) (r : R) : R -> Prop :=
| ran_hset kvs : ran k r (r_hset k kvs r)
| ran_hdel fs : ran k r (r_hdel k fs r)
| ran_hincrby f n r' : r_hincrby k f n r = Some r' -> ran k r r'
| ran_del : ran k r (r_del k r)
| ran_sadd m : ran k r (fst (r_sadd k m r))
| ran_srem m : ran k r (r_srem k m r)
| ran_xackdel g ids : ran k r (fst (r_xackdel k g ids r)).

(** The key is gone once the clock shows [t]. *)
Definition gone {R} `{!RedisClock R} (t : Z) (r : R) (k : string) : bool :=
  match r_deadline r k with Some e => e <=? Z.max t (r_now r) | None => false end.

Class RedisClockLaws (R : Type) `{!RedisOps R} `{!RedisClock R} := {
  now_at t r : r_now (r_at t r) = Z.max t (r_now r);
  view_at t r k : rview (r_at t r) !! k = if gone t r k then None else rview r !! k;
  deadline_at t r k : r_deadline (r_at t r) k = if gone t r k then None else r_deadline r k;
  deadline_absent r k : rview r !! k = None -> r_deadline r k = None;
  ran_now k r r' : ran k r r' -> r_now r' = r_now r;
  ran_other k r r' k' : ran k r r' -> k' <> k -> rview r' !! k' = rview r !! k' /\ r_deadline r' k' = r_deadline r k';
  (** none of them clears the deadline of a key that stays, and a key they make has none *)
  ran_own k r r' : ran k r r' -> is_Some (rview r' !! k) -> r_deadline r' k = r_deadline r k;
  expire_now k ttl r : r_now (r_expire k ttl r) = r_now r;
  expire_other k ttl r k' : k' <> k -> r_deadline (r_expire k ttl r) k' = r_deadline r k';
  expire_own k ttl r : 0 < ttl -> is_Some (rview r !! k) -> r_deadline (r_expire k ttl r) k = Some (r_now r + ttl * Second)
}.

(** *** A map with deadlines and a clock *)

Record TimedRedis := mkTimed {
  tr_db : gmap string rval;
  tr_deadlines : gmap string Z;
  tr_now : Z
}.

Definition tr_deadline (r : TimedRedis) (k : string) : option Z :=
  match tr_db r !! k with Some _ => tr_deadlines r !! k | None => None end.

(** The key now holds what it holds in [m']; a key that goes or comes has no
    deadline. *)
Definition tr_put (k : string) (m' : gmap string rval) (r : TimedRedis) : TimedRedis :=
  mkTimed m' (match tr_db r !! k, m' !! k with Some _, Some _ => tr_deadlines r | _, _ => delete k (tr_deadlines r) end) (tr_now r).

#[export] Instance TimedRedisClock : RedisClock TimedRedis := {
  r_now := tr_now;
  r_deadline := tr_deadline;
  r_at := fun t r =>
    let now := Z.max t (tr_now r) in
    mkTimed (map_imap (fun k v => match tr_deadlines r !! k with Some e => if e <=? now then None else Some v | None => Some v end) (tr_db r))
      (tr_deadlines r) now
}.

#[export] Instance TimedRedisOps : RedisOps TimedRedis := {
  rview := tr_db;
  r_hset := fun k kvs r => tr_put k (r_hset k kvs (tr_db r)) r;
  r_hdel := fun k fs r => tr_put k (r_hdel k fs (tr_db r)) r;
  r_hincrby := fun k f n r => (fun m => tr_put k m r) <$> r_hincrby k f n (tr_db r);
  r_del := fun k r => tr_put k (r_del k (tr_db r)) r;
  r_sadd := fun k m r => let '(m', n) := r_sadd k m (tr_db r) in (tr_put k m' r, n);
  r_srem := fun k m r => tr_put k (r_srem k m (tr_db r)) r;
  r_smembers := fun r => r_smembers (tr_db r);
  r_expire := fun k ttl r =>
    match tr_db r !! k with
    | Some _ => mkTimed (tr_db r) (<[k := tr_now r + ttl * Second]> (tr_deadlines r)) (tr_now r)
    | None => r
    end;
  r_xackdel := fun k g ids r => let '(m', a) := r_xackdel k g ids (tr_db r) in (tr_put k m' r, a)
}.

#[export] Instance TimedRedis_laws : RedisLaws TimedRedis.
Proof.
  split; intros.
  - exact (view_hset (tr_db r) k kvs H H0).
  - exact (view_hdel (tr_db r) k fs H).
  - pose proof (view_hincrby (tr_db r) k f n H) as Hv. change (r_hincrby k f n r) with ((fun m => tr_put k m r) <$> r_hincrby k f n (tr_db r)).
    change (rview r) with (rview (tr_db r)). destruct (counter_of _); [|by rewrite Hv]. destruct (decide _); [|by rewrite Hv].
    destruct Hv as (m' & Hm & Hv). rewrite Hm. by eexists.
  - done.
  - exact (view_sadd (tr_db r) k m H).
  - exact (reply_sadd (tr_db r) k m H).
  - exact (view_srem (tr_db r) k m H).
  - exact (reply_smembers (tr_db r) k).
  - cbn. by destruct (tr_db r !! k).
  - exact (view_xackdel (tr_db r) k g ids H).
  - exact (reply_xackdel (tr_db r) k g ids H).
Qed.

(** Every command puts back one key of the map. *)
Lemma timed_ran k r r' : ran (R := TimedRedis) k r r' -> exists m', r' = tr_put k m' r /\ forall k', k' <> k -> m' !! k' = tr_db r !! k'.
Proof.
  assert (forall h, forall k', k' <> k -> put_hash k h (tr_db r) !! k' = tr_db r !! k') as Hh by (intros h k' ?; unfold put_hash; case_decide; by simplify_map_eq).
  assert (forall h, forall k', k' <> k -> put_set k h (tr_db r) !! k' = tr_db r !! k') as Hs by (intros h k' ?; unfold put_set; case_decide; by simplify_map_eq).
  destruct 1 as [kvs|fs|f n r' E| |m|m|g ids]; try (eexists; split; [reflexivity|]); cbn; intros; auto; try by simplify_map_eq.
  - cbn in E. destruct (counter_of _); [|done]. case_decide; [|done]. injection E as <-. eexists. split; [done|]. intros. by simplify_map_eq.
  - destruct (tr_db r !! k); by simplify_map_eq.
Qed.

#[export] Instance TimedRedis_clock_laws : RedisClockLaws TimedRedis.
Proof.
  split; intros; cbn [r_now r_deadline TimedRedisClock]; unfold tr_deadline in *.
  - done.
  - cbn. rewrite map_lookup_imap. unfold gone. cbn. unfold tr_deadline. destruct (tr_db r !! k); cbn; [|done].
    destruct (tr_deadlines r !! k); [|done]. by destruct (_ <=? _).
  - cbn. rewrite map_lookup_imap. unfold gone. cbn. unfold tr_deadline. destruct (tr_db r !! k); cbn; [|done].
    destruct (tr_deadlines r !! k) eqn:E; cbn; [|done]. destruct (_ <=? _); cbn; done.
  - cbn in *. by rewrite H.
  - by apply timed_ran in H as (m' & -> & _).
  - apply timed_ran in H as (m' & -> & Hm). cbn. rewrite Hm by done. split; [done|]. destruct (tr_db r !! k'); [|done].
    destruct (tr_db r !! k), (m' !! k); try done; by apply lookup_delete_ne.
  - apply timed_ran in H as (m' & -> & Hm). cbn in *. destruct (m' !! k) eqn:E; [|by destruct H0]. destruct (tr_db r !! k); [done|apply lookup_delete_eq].
  - cbn. by destruct (tr_db r !! k).
  - cbn. destruct (tr_db r !! k) eqn:E; [|done]. cbn. destruct (tr_db r !! k'); [|done]. by apply lookup_insert_ne.
  - cbn in *. destruct (tr_db r !! k) eqn:E; [|by destruct H0]. cbn. rewrite E. apply lookup_insert_eq.
Qed.

(** *** What later instants see *)

Section Later.
Context {R : Type} `{RO : !RedisOps R} `{RC : !RedisClock R} `{RCL : !RedisClockLaws R}.
Implicit Types r : R.

Lemma gone_at t t' r k : t <= t' -> gone t' (r_at t r) k = (negb (gone t r k) && gone t' r k).
Proof.
  intros Ht. unfold gone at 1. rewrite deadline_at, now_at. destruct (gone t r k) eqn:E; [done|]. unfold gone.
  destruct (r_deadline r k); [|done]. cbn. f_equal. lia.
Qed.
Lemma gone_later t t' r k : t <= t' -> gone t r k = true -> gone t' r k = true.
Proof. unfold gone. destruct (r_deadline r k); [|done]. rewrite !Z.leb_le. lia. Qed.

(** Looking on the way changes nothing. *)
Lemma view_at_at t t' r k : t <= t' -> rview (r_at t' (r_at t r)) !! k = rview (r_at t' r) !! k.
Proof.
  intros Ht. rewrite !view_at, gone_at by done. destruct (gone t r k) eqn:E; cbn; [|done]. by rewrite (gone_later t t').
Qed.

(** A key with the same value and the same deadline is the same later. *)
Lemma same_later t r r' k : r_now r' = r_now r -> rview r' !! k = rview r !! k -> r_deadline r' k = r_deadline r k ->
  rview (r_at t r') !! k = rview (r_at t r) !! k.
Proof. intros Hn Hv Hd. rewrite !view_at. unfold gone. by rewrite Hn, Hd, Hv. Qed.

Lemma view_before t r k e : r_deadline r k = Some e -> t < e -> r_now r < e -> rview (r_at t r) !! k = rview r !! k.
Proof. intros Hd H1 H2. rewrite view_at. unfold gone. rewrite Hd. destruct (Z.leb_spec e (Z.max t (r_now r))); [lia|done]. Qed.
Lemma view_forever t r k : r_deadline r k = None -> rview (r_at t r) !! k = rview r !! k.
Proof. intros Hd. rewrite view_at. unfold gone. by rewrite Hd. Qed.
Lemma view_at_or t r k : rview (r_at t r) !! k = rview r !! k \/ rview (r_at t r) !! k = None.
Proof. rewrite view_at. destruct (gone t r k); auto. Qed.
End Later.

(** ** Lemmas the scripts share *)

Lemma hash_set_lookup_ne h kvs f :
  f ∉ kvs.*1 -> hash_set h kvs !! f = h !! f.
Proof.
  revert h. induction kvs as [|[k v] kvs IH]; intros h; simpl; [done|].
  rewrite not_elem_of_cons. intros [? ?]. by rewrite IH, lookup_insert_ne.
Qed.

Lemma hash_del_lookup_ne h fs f : f ∉ fs -> hash_del h fs !! f = h !! f.
Proof.
  revert h. induction fs as [|k fs IH]; intros h; simpl; [done|].
  rewrite not_elem_of_cons. intros [? ?]. by rewrite IH, lookup_delete_ne.
Qed.

Lemma hash_del_lookup_eq h fs f : f ∈ fs -> hash_del h fs !! f = None.
Proof.
  revert h. induction fs as [|k fs IH]; intros h Hf; [by apply elem_of_nil in Hf|]. simpl.
  destruct (decide (f ∈ fs)) as [|Hn]; [by apply IH|].
  apply elem_of_cons in Hf as [->|]; [|done].
  rewrite hash_del_lookup_ne by done. apply lookup_delete_eq.
Qed.

Lemma hash_set_nonempty h kvs : kvs <> [] -> hash_set h kvs <> ∅.
Proof.
  revert h. induction kvs as [|[k v] kvs IH]; intros h Hk; [done|]. simpl.
  destruct kvs as [|kv kvs]; [simpl; apply insert_non_empty | by apply IH].
Qed.
