(* ===== verification/RedisSessionStore.v ===== *)
(** * RedisSessionStore (miner/session_store.go)

    The Redis implementation of the session store: the hash codec, the Lua
    scripts, and every operation of the Go type with its legacy-key fallbacks
    and its best-effort index writes. *)

From S2P Require Import Prelude SessionState KeyBuilder StoreSpec RedisModel.
From Stdlib Require Import Ascii String DecimalString.

Local Open Scope string_scope.
Local Open Scope Z_scope.

(** ** Hash fields *)

Definition hfSessionID := "session_id".
Definition hfSupplierOperator := "supplier_operator_address".
Definition hfServiceID := "service_id".
Definition hfApplicationAddress := "application_address".
Definition hfSessionStartHeight := "session_start_height".
Definition hfSessionEndHeight := "session_end_height".
Definition hfState := "state".
Definition hfRelayCount := "relay_count".
Definition hfTotalComputeUnits := "total_compute_units".
Definition hfClaimedRootHash := "claimed_root_hash".
Definition hfClaimTxHash := "claim_tx_hash".
Definition hfClaimMissingVerdict := "claim_missing_verdict".
Definition hfProofTxHash := "proof_tx_hash".
Definition hfCreatedAt := "created_at".
Definition hfLastUpdatedAt := "last_updated_at".

(** [SessionStoreConfig] with the KeyBuilder the client carries; the TTL in
    seconds. *)
Record SessionStoreConfig := mkStoreConfig {
  cfg_kb : KeyBuilder;
  SupplierAddress : string;
  SessionTTL : Z
}.

(** [NewRedisSessionStore]: a zero TTL is two hours. *)
Definition NewSessionStoreConfig (kb : KeyBuilder) (supplier : string) (ttl : Z) : SessionStoreConfig :=
  mkStoreConfig kb supplier (if ttl =? 0 then 7200 else ttl).

(** A Go map read: the zero value for an absent key. *)
Definition fget (h : gmap string string) (f : string) : string := default "" (h !! f).

Definition opt_field (f v : string) : list (string * string) :=
  if String.eqb v "" then [] else [(f, v)].

Section Codec.
Context `{TC : !TimeCodec}.

Definition encodeSnapshotMetadata (snap : SessionSnapshot) : list (string * string) :=
  [ (hfSessionID, SessionID snap);
    (hfSupplierOperator, SupplierOperatorAddress snap);
    (hfServiceID, ServiceID snap);
    (hfApplicationAddress, ApplicationAddress snap);
    (hfSessionStartHeight, format_int (SessionStartHeight snap));
    (hfSessionEndHeight, format_int (SessionEndHeight snap));
    (hfState, string_of_state (State snap));
    (hfCreatedAt, format_time (CreatedAt snap));
    (hfLastUpdatedAt, format_time (LastUpdatedAt snap)) ]
  ++ opt_field hfClaimedRootHash (ClaimedRootHash snap)
  ++ opt_field hfClaimTxHash (ClaimTxHash snap)
  ++ opt_field hfProofTxHash (ProofTxHash snap)
  ++ opt_field hfClaimMissingVerdict (ClaimMissingVerdict snap).

Definition encodeSnapshot (snap : SessionSnapshot) : list (string * string) :=
  encodeSnapshotMetadata snap ++
  [ (hfRelayCount, format_int (RelayCount snap));
    (hfTotalComputeUnits, format_int (TotalComputeUnits snap)) ].

Definition dec_field (parse : string -> option Z) (h : gmap string string) (f : string) : result Z StoreErr :=
  let v := fget h f in
  if String.eqb v "" then Ok 0
  else match parse v with Some n => Ok n | None => Err ErrDecode end.

Definition dec_root (h : gmap string string) : string :=
  let v := fget h hfClaimedRootHash in
  if Nat.eqb (String.length v) SMSTRootLen then v else "".

Definition decodeSnapshot (h : gmap string string) : result (option SessionSnapshot) StoreErr :=
  if decide (h = ∅) then Ok None
  else (
    try start <- dec_field ParseInt h hfSessionStartHeight;
    try fin <- dec_field ParseInt h hfSessionEndHeight;
    try count <- dec_field ParseInt h hfRelayCount;
    try cu <- dec_field ParseUint h hfTotalComputeUnits;
    try created <- dec_field parse_time h hfCreatedAt;
    try updated <- dec_field parse_time h hfLastUpdatedAt;
    Ok (Some (mkSnapshot (fget h hfSessionID) (fget h hfSupplierOperator) (fget h hfServiceID)
          (fget h hfApplicationAddress) start fin (state_of_string (fget h hfState)) count cu
          (dec_root h) (fget h hfClaimTxHash) (fget h hfProofTxHash)
          (fget h hfClaimMissingVerdict) updated created)))%go.
End Codec.

(** ** The store *)

(** The store object: whether it is closed, and the Redis behind its client. *)
Record RStore (R : Type) := mkRStore { rs_closed : bool; rs_db : R }.
Arguments mkRStore {R}.
Arguments rs_closed {R}.
Arguments rs_db {R}.

Inductive script_err :=
| SeNotFound
| SeLegacy
| SeClaimOnChain
| SeNotUnsentClaim
| SeNotUnsentProof
| SeWrongType
| SeNotInteger.

Section Store.
Context {R : Type} `{RO : !RedisOps R} `{TC : !TimeCodec} `{SJ : !SnapshotJson} `{LN : !LuaNumbers}.
Variable cfg : SessionStoreConfig.

Definition sessionKey (sessionID : string) : string :=
  MinerSessionKey (cfg_kb cfg) (SupplierAddress cfg) sessionID.
Definition supplierSessionsKey : string :=
  MinerSessionsIndexKey (cfg_kb cfg) (SupplierAddress cfg).
Definition stateIndexKey (state : SessionState) : string :=
  MinerSessionStateIndexKey (cfg_kb cfg) (SupplierAddress cfg) (string_of_state state).

(** *** Reads *)

(** HGETALL answers an empty map for an absent key and WRONGTYPE for a key
    that is not a hash. *)
Definition getHash (f : Fault) (r : R) (key : string) : result (option SessionSnapshot) StoreErr :=
  match read_trip f (r_type r key) with
  | Err e => Err (ErrIo e)
  | Ok (TNone | THash) => decodeSnapshot (hash_of (rview r !! key))
  | Ok _ => Err ErrWrongType
  end.

Definition getLegacyJSON (f : Fault) (r : R) (key : string) : result (option SessionSnapshot) StoreErr :=
  match read_trip f (rview r !! key) with
  | Err e => Err (ErrIo e)
  | Ok None => Ok None
  | Ok (Some (RStr data)) =>
      match json_dec data with Some s => Ok (Some s) | None => Err ErrDecode end
  | Ok (Some _) => Err ErrWrongType
  end.

Definition isWrongTypeErr (e : StoreErr) : bool := bool_decide (e = ErrWrongType).

Definition Get (io : Io) (r : R) (sessionID : string) : result (option SessionSnapshot) StoreErr :=
  match getHash (io 0%nat) r (sessionKey sessionID) with
  | Ok s => Ok s
  | Err e => if isWrongTypeErr e then getLegacyJSON (io 1%nat) r (sessionKey sessionID) else Err e
  end.

(** The faults of a call's round trips after the first [n]. *)
Definition io_after (n : nat) (io : Io) : Io := fun k => io (n + k)%nat.

Fixpoint fetchSessions (io : Io) (r : R) (sessionIDs : list string) (filterState : option SessionState)
  : list SessionSnapshot :=
  match sessionIDs with
  | [] => []
  | id :: ids =>
      let rest := fetchSessions (io_after 2 io) r ids filterState in
      match Get io r id with
      | Ok (Some snap) =>
          match filterState with
          | Some st => if decide (State snap = st) then snap :: rest else rest
          | None => snap :: rest
          end
      | _ => rest
      end
  end.

Definition GetBySupplier (io : Io) (r : R) : result (list SessionSnapshot) StoreErr :=
  match read_trip (io 0%nat) (r_smembers r supplierSessionsKey) with
  | Err e => Err (ErrIo e)
  | Ok ids => Ok (fetchSessions (io_after 1 io) r ids None)
  end.

Definition GetByState (io : Io) (r : R) (state : SessionState) : result (list SessionSnapshot) StoreErr :=
  match read_trip (io 0%nat) (r_smembers r (stateIndexKey state)) with
  | Err e => Err (ErrIo e)
  | Ok ids => Ok (fetchSessions (io_after 1 io) r ids (Some state))
  end.

(** *** Writes *)

Definition r_sadd_ (k m : string) (r : R) : R := fst (r_sadd k m r).

(** HSET inside a MULTI: refused on its own when the key is not a hash, the
    other commands of the transaction still run. *)
Definition multi_hset (key : string) (kvs : list (string * string)) (r : R) : R * option StoreErr :=
  match r_type r key with
  | TNone | THash => (r_hset key kvs r, None)
  | _ => (r, Some ErrWrongType)
  end.

(** The optional fields [Save] removes because the snapshot cleared them. *)
Definition staleFields (snapshot : SessionSnapshot) : list string :=
  (if String.eqb (ClaimedRootHash snapshot) "" then [hfClaimedRootHash] else []) ++
  (if String.eqb (ClaimTxHash snapshot) "" then [hfClaimTxHash] else []) ++
  (if String.eqb (ProofTxHash snapshot) "" then [hfProofTxHash] else []) ++
  (if String.eqb (ClaimMissingVerdict snapshot) "" then [hfClaimMissingVerdict] else []).

(** The index half of [Save]'s transaction. *)
Definition saveIndexes (snapshot : SessionSnapshot) (oldState : option SessionState) (r : R) : R :=
  let key := sessionKey (SessionID snapshot) in
  let r := r_expire key (SessionTTL cfg) r in
  let r := r_sadd_ supplierSessionsKey (SessionID snapshot) r in
  let r := r_expire supplierSessionsKey (SessionTTL cfg) r in
  let r := r_sadd_ (stateIndexKey (State snapshot)) (SessionID snapshot) r in
  let r := r_expire (stateIndexKey (State snapshot)) (SessionTTL cfg) r in
  match oldState with
  | Some old =>
      if negb (String.eqb (string_of_state old) "") && negb (bool_decide (old = State snapshot))
      then r_srem (stateIndexKey old) (SessionID snapshot) r else r
  | None => r
  end.

(** The hash half, by what the session's key was read to be. *)
Definition saveHash (legacy : bool) (existing : option SessionSnapshot) (snapshot : SessionSnapshot)
    (r : R) : R * option StoreErr :=
  let key := sessionKey (SessionID snapshot) in
  if legacy then multi_hset key (encodeSnapshot snapshot) (r_del key r)
  else match existing with
       | None => multi_hset key (encodeSnapshot snapshot) r
       | Some _ =>
           let '(r1, e) := multi_hset key (encodeSnapshotMetadata snapshot) r in
           match e, staleFields snapshot with
           | None, (_ :: _) as stale => (r_hdel key stale r1, None)
           | _, _ => (r1, e)
           end
       end.

Definition savePipe (legacy : bool) (existing : option SessionSnapshot) (snapshot : SessionSnapshot)
    (r : R) : R * option StoreErr :=
  let '(r1, e) := saveHash legacy existing snapshot r in
  (saveIndexes snapshot (State <$> existing) r1, e).

(** A failed read of the existing session is only logged. *)
Definition Save (io : Io) (now : Z) (s : RStore R) (snapshot0 : SessionSnapshot)
  : RStore R * result unit StoreErr :=
  if rs_closed s then (s, Err ErrStoreClosed)
  else
    let existing := match Get io (rs_db s) (SessionID snapshot0) with Ok o => o | Err _ => None end in
    let snapshot := touch now snapshot0 in
    let legacy :=
      match existing with
      | None => false
      | Some _ =>
          match read_trip (io 2%nat) (r_type (rs_db s) (sessionKey (SessionID snapshot))) with
          | Ok TString => true
          | _ => false
          end
      end in
    let '(r', a) := round_trip (io 3%nat) (savePipe legacy existing snapshot) (rs_db s) in
    (mkRStore (rs_closed s) r',
     match a with
     | Ok None => Ok tt
     | Ok (Some e) => Err e
     | Err e => Err (ErrIo e)
     end).

Definition createIfAbsentScript (key : string) (ttl : Z) (kvs : list (string * string)) (r : R) : R * Z :=
  match r_type r key with
  | TNone => (r_expire key ttl (r_hset key kvs r), 1)
  | _ => (r, 0)
  end.

Definition createIndexes (snapshot : SessionSnapshot) (r : R) : R :=
  let r := r_sadd_ supplierSessionsKey (SessionID snapshot) r in
  let r := r_expire supplierSessionsKey (SessionTTL cfg) r in
  let r := r_sadd_ (stateIndexKey (State snapshot)) (SessionID snapshot) r in
  r_expire (stateIndexKey (State snapshot)) (SessionTTL cfg) r.

Definition CreateIfAbsent (io : Io) (now : Z) (s : RStore R) (snapshot0 : SessionSnapshot)
  : RStore R * result bool StoreErr :=
  if rs_closed s then (s, Err ErrStoreClosed)
  else
    let snapshot := touch now snapshot0 in
    let '(r1, a) := round_trip (io 0%nat)
      (createIfAbsentScript (sessionKey (SessionID snapshot)) (SessionTTL cfg) (encodeSnapshot snapshot)) (rs_db s) in
    match a with
    | Err e => (mkRStore (rs_closed s) r1, Err (ErrIo e))
    | Ok n =>
        if negb (n =? 1) then (mkRStore (rs_closed s) r1, Ok false)
        else
          (* best effort: a failed index write is logged *)
          let '(r2, _) := round_trip (io 1%nat) (fun r => (createIndexes snapshot r, tt)) r1 in
          (mkRStore (rs_closed s) r2, Ok true)
    end.

Definition Delete (io : Io) (s : RStore R) (sessionID : string) : RStore R * result unit StoreErr :=
  match Get io (rs_db s) sessionID with
  | Err e => (s, Err e)
  | Ok None => (s, Ok tt)
  | Ok (Some snapshot) =>
      let pipe r := (r_srem (stateIndexKey (State snapshot)) sessionID
                       (r_srem supplierSessionsKey sessionID (r_del (sessionKey sessionID) r)), tt) in
      let '(r', a) := round_trip (io 2%nat) pipe (rs_db s) in
      (mkRStore (rs_closed s) r', match a with Ok _ => Ok tt | Err e => Err (ErrIo e) end)
  end.

(** *** State writes *)

(** Lua's [x and x ~= ''] on an HGET that may be nil. *)
Definition lua_set (o : option string) : bool := negb (String.eqb (default "" o) "").

Definition updateStateScript (key newState now : string) (ttl : Z) (verdict : string) (r : R)
  : R * result (option string) script_err :=
  match r_type r key with
  | TNone => (r, Err SeNotFound)
  | THash =>
      let old_state := r_hget r key hfState in
      let old := default "" old_state in
      if (String.eqb newState "claim_window_closed" || String.eqb newState "claim_tx_error")
         && lua_holds_claim_on_chain old then (r, Err SeClaimOnChain)
      else if String.eqb newState "active"
         && (negb (bool_decide (old_state = Some "claiming"))
             || lua_set (r_hget r key hfClaimTxHash)) then (r, Err SeNotUnsentClaim)
      else if String.eqb newState "claimed"
         && (lua_set (r_hget r key hfProofTxHash)
             || String.eqb old "proved" || String.eqb old "probabilistic_proved"
             || String.eqb old "proof_window_closed" || String.eqb old "proof_tx_error")
           then (r, Err SeNotUnsentProof)
      else
        let r1 := r_hset key [(hfState, newState); (hfLastUpdatedAt, now)] r in
        let r2 := if negb (String.eqb verdict "") && negb (bool_decide (old_state = Some newState))
                  then r_hset key [(hfClaimMissingVerdict, verdict)] r1 else r1 in
        (r_expire key ttl r2, Ok old_state)
  | _ => (r, Err SeLegacy)
  end.

(** Best effort: the hash is the source of truth. *)
Definition reindexState (f : Fault) (sessionID : string) (oldState newState : SessionState) (r : R) : R :=
  let pipe r :=
    let r := r_sadd_ (stateIndexKey newState) sessionID r in
    let r := r_expire (stateIndexKey newState) (SessionTTL cfg) r in
    (if negb (String.eqb (string_of_state oldState) "") && negb (bool_decide (oldState = newState))
     then r_srem (stateIndexKey oldState) sessionID r else r, tt) in
  fst (round_trip f pipe r).

(** The fallback of [updateState] for a legacy JSON key. *)
Definition updateStateLegacy (io : Io) (now : Z) (s : RStore R) (sessionID : string)
    (newState : SessionState) (verdict : string) : RStore R * result bool StoreErr :=
  match Get io (rs_db s) sessionID with
  | Err e => (s, Err e)
  | Ok None => (s, Err ErrSessionNotFound)
  | Ok (Some snapshot) =>
      match checkStateWrite snapshot newState with
      | Some e => (s, Err e)
      | None =>
          let flipped := negb (bool_decide (State snapshot = newState)) in
          let snap1 := set_State newState snapshot in
          let snap2 := if String.eqb verdict "" then snap1 else set_Verdict verdict snap1 in
          let '(s', a) := Save (io_after 2 io) now s snap2 in
          (s', match a with Ok _ => Ok flipped | Err e => Err e end)
      end
  end.

Definition updateState (io : Io) (now : Z) (s : RStore R) (sessionID : string)
    (newState : SessionState) (verdict : string) : RStore R * result bool StoreErr :=
  let '(r1, a) := round_trip (io 0%nat)
    (updateStateScript (sessionKey sessionID) (string_of_state newState) (format_time now)
       (SessionTTL cfg) verdict) (rs_db s) in
  let s1 := mkRStore (rs_closed s) r1 in
  match a with
  | Err e => (s1, Err (ErrIo e))
  | Ok (Err SeNotFound) => (s1, Err ErrSessionNotFound)
  | Ok (Err SeClaimOnChain) => (s1, Err ErrClaimAlreadyOnChain)
  | Ok (Err (SeNotUnsentClaim | SeNotUnsentProof)) => (s1, Err ErrSessionNotDeferred)
  | Ok (Err SeLegacy) => updateStateLegacy (io_after 1 io) now s1 sessionID newState verdict
  | Ok (Err _) => (s1, Err ErrUnexpectedReply)
  | Ok (Ok None) => (s1, Err ErrUnexpectedReply)
  | Ok (Ok (Some old)) =>
      let oldState := state_of_string old in
      if decide (oldState = newState) then (s1, Ok false)
      else (mkRStore (rs_closed s) (reindexState (io 1%nat) sessionID oldState newState r1), Ok true)
  end.

Definition UpdateState (io : Io) (now : Z) (s : RStore R) (sessionID : string) (newState : SessionState)
  : RStore R * result unit StoreErr :=
  let '(s', a) := updateState io now s sessionID newState "" in
  (s', match a with Ok _ => Ok tt | Err e => Err e end).

Definition MarkClaimMissing (io : Io) (now : Z) (s : RStore R) (sessionID verdict : string)
  : RStore R * result unit StoreErr :=
  let '(s', a) := updateState io now s sessionID SessionStateClaimMissing verdict in
  (s', match a with Ok _ => Ok tt | Err e => Err e end).

Definition MarkClaimTxError (io : Io) (now : Z) (s : RStore R) (sessionID verdict : string)
  : RStore R * result bool StoreErr :=
  updateState io now s sessionID SessionStateClaimTxError verdict.

(** *** Reactivation *)

Definition reactivateClaimedScript (key root tx now : string) (ttl : Z) (r : R)
  : R * result (string * string * string) script_err :=
  match r_type r key with
  | TNone => (r, Err SeNotFound)
  | THash =>
      let old := default "" (r_hget r key hfState) in
      if negb (lua_can_reactivate_claimed old) then (r, Ok ("", "", ""))
      else
        let old_verdict := default "" (r_hget r key hfClaimMissingVerdict) in
        let old_tx_hash := default "" (r_hget r key hfClaimTxHash) in
        let r1 := r_hset key [(hfState, "claimed"); (hfClaimedRootHash, root); (hfLastUpdatedAt, now)] r in
        let r2 := r_hdel key [hfClaimMissingVerdict] r1 in
        let r3 := if String.eqb tx "" then r2 else r_hset key [(hfClaimTxHash, tx)] r2 in
        (r_expire key ttl r3, Ok (old, old_verdict, old_tx_hash))
  | _ => (r, Err SeLegacy)
  end.

Definition ReactivateClaimed (io : Io) (now : Z) (s : RStore R) (sessionID root tx : string)
  : RStore R * result Reactivation StoreErr :=
  let '(r1, a) := round_trip (io 0%nat)
    (reactivateClaimedScript (sessionKey sessionID) root tx (format_time now) (SessionTTL cfg)) (rs_db s) in
  let s1 := mkRStore (rs_closed s) r1 in
  match a with
  | Err e => (s1, Err (ErrIo e))
  | Ok (Err SeNotFound) => (s1, Err ErrSessionNotFound)
  | Ok (Err SeLegacy) => (s1, Err ErrLegacyKey)
  | Ok (Err _) => (s1, Err ErrUnexpectedReply)
  | Ok (Ok (old, verdict, tx0)) =>
      if String.eqb old "" then (s1, Ok noReactivation)
      else (mkRStore (rs_closed s)
              (reindexState (io 1%nat) sessionID (state_of_string old) SessionStateClaimed r1),
            Ok (mkReactivation (Some (state_of_string old)) verdict tx0 ""))
  end.

Definition reactivateProvedScript (key tx now : string) (ttl : Z) (r : R)
  : R * result (string * string * string) script_err :=
  match r_type r key with
  | TNone => (r, Err SeNotFound)
  | THash =>
      let old := default "" (r_hget r key hfState) in
      let old_proof := default "" (r_hget r key hfProofTxHash) in
      if negb (lua_can_reactivate_proved old old_proof) then (r, Ok ("", "", ""))
      else
        let r1 := r_hset key [(hfState, "proved"); (hfLastUpdatedAt, now)] r in
        let r2 := if String.eqb old_proof "" && negb (String.eqb tx "")
                  then r_hset key [(hfProofTxHash, tx)] r1 else r1 in
        let r3 := r_expire key ttl r2 in
        (r3, Ok (old, default "" (r_hget r3 key hfClaimTxHash), old_proof))
  | _ => (r, Err SeLegacy)
  end.

Definition ReactivateProved (io : Io) (now : Z) (s : RStore R) (sessionID tx : string)
  : RStore R * result Reactivation StoreErr :=
  let '(r1, a) := round_trip (io 0%nat)
    (reactivateProvedScript (sessionKey sessionID) tx (format_time now) (SessionTTL cfg)) (rs_db s) in
  let s1 := mkRStore (rs_closed s) r1 in
  match a with
  | Err e => (s1, Err (ErrIo e))
  | Ok (Err SeNotFound) => (s1, Err ErrSessionNotFound)
  | Ok (Err _) => (s1, Err ErrUnexpectedReply)
  | Ok (Ok (old, tx0, proof0)) =>
      if String.eqb old "" then (s1, Ok noReactivation)
      else (mkRStore (rs_closed s)
              (reindexState (io 1%nat) sessionID (state_of_string old) SessionStateProved r1),
            Ok (mkReactivation (Some (state_of_string old)) "" tx0 proof0))
  end.

(** *** Counters *)

(** A command that fails inside a script aborts it, and what it wrote before
    stays. The compute units go through tonumber. *)
Definition incrementRelayCountScript (key : string) (cu : Z) (now : string) (ttl : Z) (r : R)
  : R * result Z script_err :=
  match r_type r key with
  | TNone => (r, Ok 1)
  | THash =>
      if lua_is_terminal (default "" (r_hget r key hfState)) then (r, Ok 2)
      else match r_hincrby key hfRelayCount 1 r with
           | None => (r, Err SeNotInteger)
           | Some r1 =>
               match r_hincrby key hfTotalComputeUnits (lua_number cu) r1 with
               | None => (r1, Err SeNotInteger)
               | Some r2 => (r_expire key ttl (r_hset key [(hfLastUpdatedAt, now)] r2), Ok 0)
               end
           end
  | _ => (r, Err SeWrongType)
  end.

Definition migrateLegacyKey (io : Io) (now : Z) (s : RStore R) (sessionID : string)
  : RStore R * result unit StoreErr :=
  match getLegacyJSON (io 0%nat) (rs_db s) (sessionKey sessionID) with
  | Err e => (s, Err e)
  | Ok None => (s, Ok tt)
  | Ok (Some snap) => Save (io_after 1 io) now s snap
  end.

Definition incrementAnswer (a : result (result Z script_err) IoErr) : result unit StoreErr :=
  match a with
  | Err e => Err (ErrIo e)
  | Ok (Err _) => Err ErrUnexpectedReply
  | Ok (Ok n) =>
      if n =? 0 then Ok tt
      else if n =? 1 then Err ErrSessionNotFound
      else if n =? 2 then Err ErrSessionTerminal
      else Err ErrUnexpectedReply
  end.

Definition IncrementRelayCount (io : Io) (now : Z) (s : RStore R) (sessionID : string) (computeUnits : Z)
  : RStore R * result unit StoreErr :=
  let script := incrementRelayCountScript (sessionKey sessionID) computeUnits (format_time now) (SessionTTL cfg) in
  let '(r1, a) := round_trip (io 0%nat) script (rs_db s) in
  let s1 := mkRStore (rs_closed s) r1 in
  match a with
  | Ok (Err SeWrongType) =>
      match migrateLegacyKey (io_after 1 io) now s1 sessionID with
      | (s2, Err e) => (s2, Err e)
      | (s2, Ok _) =>
          let '(r3, a3) := round_trip (io 6%nat) script (rs_db s2) in
          (mkRStore (rs_closed s2) r3, incrementAnswer a3)
      end
  | _ => (s1, incrementAnswer a)
  end.

Definition Close (s : RStore R) : RStore R := mkRStore true (rs_db s).
End Store.

(** ** The codec *)

Lemma fget_insert h k v f : fget (<[k := v]> h) f = if String.eqb k f then v else fget h f.
Proof.
  unfold fget. destruct (String.eqb k f) eqn:E.
  - apply String.eqb_eq in E as ->. by rewrite lookup_insert_eq.
  - apply String.eqb_neq in E. by rewrite lookup_insert_ne.
Qed.

Lemma fget_delete h k f : fget (delete k h) f = if String.eqb k f then "" else fget h f.
Proof.
  unfold fget. destruct (String.eqb k f) eqn:E.
  - apply String.eqb_eq in E as ->. by rewrite lookup_delete_eq.
  - apply String.eqb_neq in E. by rewrite lookup_delete_ne.
Qed.

(** Decide every comparison of two field names. *)
Ltac eqb_const :=
  repeat match goal with
  | |- context [String.eqb ?a ?b] =>
      let x := eval vm_compute in (String.eqb a b) in
      lazymatch x with
      | true => change (String.eqb a b) with true
      | false => change (String.eqb a b) with false
      end
  end; cbv iota.

Section CodecLemmas.
Context `{TC : !TimeCodec} `{TCL : !TimeCodecLaws}.

Lemma dec_field_ok parse h f n v :
  v <> "" -> parse v = Some n -> fget h f = v -> dec_field parse h f = Ok n.
Proof.
  intros Hv Hp Hf. unfold dec_field. rewrite Hf, Hp.
  by rewrite (proj2 (String.eqb_neq _ _) Hv).
Qed.

(** A hash whose fields spell a snapshot decodes to it. *)
Lemma decodeSnapshot_spells h s :
  h <> ∅ -> codec_ok s -> root_ok (ClaimedRootHash s) ->
  fget h hfSessionID = SessionID s ->
  fget h hfSupplierOperator = SupplierOperatorAddress s ->
  fget h hfServiceID = ServiceID s ->
  fget h hfApplicationAddress = ApplicationAddress s ->
  fget h hfSessionStartHeight = format_int (SessionStartHeight s) ->
  fget h hfSessionEndHeight = format_int (SessionEndHeight s) ->
  fget h hfState = string_of_state (State s) ->
  dec_field ParseInt h hfRelayCount = Ok (RelayCount s) ->
  dec_field ParseUint h hfTotalComputeUnits = Ok (TotalComputeUnits s) ->
  fget h hfClaimedRootHash = ClaimedRootHash s ->
  fget h hfClaimTxHash = ClaimTxHash s ->
  fget h hfProofTxHash = ProofTxHash s ->
  fget h hfClaimMissingVerdict = ClaimMissingVerdict s ->
  fget h hfLastUpdatedAt = format_time (LastUpdatedAt s) ->
  fget h hfCreatedAt = format_time (CreatedAt s) ->
  decodeSnapshot h = Ok (Some s).
Proof.
  intros Hne ((Hst & Hen & Hrc & Hcu & Hcan) & _ & Hlu & Hcr) Hroot. intros.
  unfold decodeSnapshot. rewrite decide_False by done.
  repeat first
    [ match goal with H : dec_field _ h ?f = _ |- context [dec_field _ h ?f] => rewrite H; cbn [result_bind] end
    | erewrite dec_field_ok; [| | |eassumption];
      [cbn [result_bind] | auto using format_int_nonempty, format_time_nonempty
       | auto using ParseInt_format, ParseUint_format, parse_format_time] ].
  assert (dec_root h = ClaimedRootHash s) as ->.
  { unfold dec_root. match goal with H : fget h hfClaimedRootHash = _ |- _ => rewrite H end.
    destruct Hroot as [->| ->]; [done|]. by rewrite Nat.eqb_refl. }
  match goal with H : fget h hfState = _ |- _ => rewrite H end.
  rewrite state_of_string_of_state by done.
  repeat match goal with H : fget h _ = _ |- _ => rewrite H; clear H end.
  by destruct s.
Qed.

Lemma hash_set_app h l1 l2 : hash_set h (l1 ++ l2) = hash_set (hash_set h l1) l2.
Proof. unfold hash_set. apply foldl_app. Qed.

Lemma fget_opt_field h f v f' :
  fget (hash_set h (opt_field f v)) f' =
  if String.eqb f f' then (if String.eqb v "" then fget h f' else v) else fget h f'.
Proof.
  unfold opt_field. destruct (String.eqb v "") eqn:E; simpl.
  - by destruct (String.eqb f f').
  - apply fget_insert.
Qed.

(** Reading back what was just written gives the snapshot. *)
Lemma decode_encode s :
  codec_ok s -> root_ok (ClaimedRootHash s) ->
  decodeSnapshot (hash_set ∅ (encodeSnapshot s)) = Ok (Some s).
Proof.
  intros Hok Hroot. unfold encodeSnapshot, encodeSnapshotMetadata.
  rewrite <- !app_assoc, !hash_set_app.
  set (h0 := hash_set ∅ _).
  assert (forall f, fget h0 f = fget (list_to_map (rev
    [ (hfSessionID, SessionID s); (hfSupplierOperator, SupplierOperatorAddress s);
      (hfServiceID, ServiceID s); (hfApplicationAddress, ApplicationAddress s);
      (hfSessionStartHeight, format_int (SessionStartHeight s));
      (hfSessionEndHeight, format_int (SessionEndHeight s));
      (hfState, string_of_state (State s)); (hfCreatedAt, format_time (CreatedAt s));
      (hfLastUpdatedAt, format_time (LastUpdatedAt s)) ])) f) as Hh0 by done.
  destruct (Hok) as ((_ & _ & Hrc & Hcu & _) & _).
  apply decodeSnapshot_spells; auto.
  { simpl. apply insert_non_empty. }
  8:{ apply (dec_field_ok ParseInt _ _ _ (format_int (RelayCount s))); auto using format_int_nonempty, ParseInt_format.
      cbn [hash_set foldl fst snd]; rewrite !fget_insert; eqb_const; reflexivity. }
  8:{ apply (dec_field_ok ParseUint _ _ _ (format_int (TotalComputeUnits s))); auto using format_int_nonempty, ParseUint_format.
      cbn [hash_set foldl fst snd]; rewrite !fget_insert; eqb_const; reflexivity. }
  all: cbn [hash_set foldl fst snd]; rewrite !fget_insert; eqb_const; try reflexivity;
    rewrite !fget_opt_field; eqb_const; rewrite Hh0; simpl; rewrite ?fget_insert; eqb_const;
    try reflexivity.
  all: match goal with |- (if String.eqb ?v "" then _ else _) = _ =>
         by destruct (String.eqb_spec v "") as [->|] end.
Qed.

(** *** Writing single fields *)

Lemma decodeSnapshot_nonempty h s : decodeSnapshot h = Ok (Some s) -> h <> ∅.
Proof. intros Hd ->. by vm_compute in Hd. Qed.

(** Compare the decoding of a hash with that of the hash after one write: all
    other fields read the same. *)
Ltac decode_write :=
  let H := fresh "H" in
  intros H; pose proof (decodeSnapshot_nonempty _ _ H) as Hne;
  unfold decodeSnapshot in *;
  rewrite decide_False in H by done; rewrite decide_False by (first [apply insert_non_empty | assumption]);
  unfold dec_field, dec_root in *; rewrite ?fget_insert, ?fget_delete; eqb_const;
  repeat (match type of H with context [result_bind ?e _] =>
            lazymatch e with
            | Ok _ => fail
            | Err _ => fail
            | _ => destruct e; cbn [result_bind] in *; [|discriminate]
            end end).

Lemma decode_set_state h s v :
  decodeSnapshot h = Ok (Some s) ->
  decodeSnapshot (<[hfState := v]> h) = Ok (Some (set_State (state_of_string v) s)).
Proof. decode_write. by simplify_eq. Qed.

Lemma decode_set_updated h s t :
  time_ok t -> decodeSnapshot h = Ok (Some s) ->
  decodeSnapshot (<[hfLastUpdatedAt := format_time t]> h) = Ok (Some (set_LastUpdatedAt t s)).
Proof.
  intros Ht. decode_write.
  rewrite (proj2 (String.eqb_neq _ _) (format_time_nonempty t)), parse_format_time by done.
  by simplify_eq.
Qed.

Lemma decode_set_verdict h s v :
  decodeSnapshot h = Ok (Some s) ->
  decodeSnapshot (<[hfClaimMissingVerdict := v]> h) = Ok (Some (set_Verdict v s)).
Proof. decode_write. by simplify_eq. Qed.

Lemma decode_set_claim_tx h s v :
  decodeSnapshot h = Ok (Some s) ->
  decodeSnapshot (<[hfClaimTxHash := v]> h) = Ok (Some (set_claim (ClaimedRootHash s) v s)).
Proof. decode_write. by simplify_eq. Qed.

Lemma decode_set_root h s v :
  String.length v = SMSTRootLen -> decodeSnapshot h = Ok (Some s) ->
  decodeSnapshot (<[hfClaimedRootHash := v]> h) = Ok (Some (set_claim v (ClaimTxHash s) s)).
Proof. intros Hv. decode_write. rewrite Hv, Nat.eqb_refl. by simplify_eq. Qed.

Lemma decode_set_proof_tx h s v :
  decodeSnapshot h = Ok (Some s) ->
  decodeSnapshot (<[hfProofTxHash := v]> h) = Ok (Some (set_ProofTxHash v s)).
Proof. decode_write. by simplify_eq. Qed.

Lemma decode_set_count h s n :
  in_int64 n -> decodeSnapshot h = Ok (Some s) ->
  decodeSnapshot (<[hfRelayCount := format_int n]> h) = Ok (Some (set_counters n (TotalComputeUnits s) s)).
Proof.
  intros Hn. decode_write.
  rewrite (proj2 (String.eqb_neq _ _) (format_int_nonempty n)), ParseInt_format by done.
  by simplify_eq.
Qed.

Lemma decode_set_cu h s n :
  in_uint64 n -> decodeSnapshot h = Ok (Some s) ->
  decodeSnapshot (<[hfTotalComputeUnits := format_int n]> h) = Ok (Some (set_counters (RelayCount s) n s)).
Proof.
  intros Hn. decode_write.
  rewrite (proj2 (String.eqb_neq _ _) (format_int_nonempty n)), ParseUint_format by done.
  by simplify_eq.
Qed.

Lemma decode_del_verdict h s :
  delete hfClaimMissingVerdict h <> ∅ -> decodeSnapshot h = Ok (Some s) ->
  decodeSnapshot (delete hfClaimMissingVerdict h) = Ok (Some (set_Verdict "" s)).
Proof. intros Hd. decode_write. by simplify_eq. Qed.

(** *** Reading single fields *)

Ltac decode_read :=
  let H := fresh "H" in
  intros H; pose proof (decodeSnapshot_nonempty _ _ H) as Hne;
  unfold decodeSnapshot in H; rewrite decide_False in H by done;
  repeat (match type of H with context [result_bind ?e _] =>
            lazymatch e with
            | Ok _ => fail
            | Err _ => fail
            | _ => destruct e eqn:?; cbn [result_bind] in *; [|discriminate]
            end end).

Lemma decode_fields h s :
  decodeSnapshot h = Ok (Some s) ->
  State s = state_of_string (fget h hfState) /\ ClaimTxHash s = fget h hfClaimTxHash /\
  ProofTxHash s = fget h hfProofTxHash /\ ClaimMissingVerdict s = fget h hfClaimMissingVerdict.
Proof. decode_read. by simplify_eq. Qed.

Lemma dec_field_range (P : Z -> Prop) parse h f n :
  P 0 -> (forall v m, parse v = Some m -> P m) -> dec_field parse h f = Ok n -> P n.
Proof.
  intros Hz Hp. unfold dec_field. destruct (String.eqb _ _); [by intros [= <-]|].
  destruct (parse _) eqn:E; [|done]. intros [= <-]. eauto.
Qed.

(** What decodes fits the Go types. *)
Lemma decode_snap_ok h s : decodeSnapshot h = Ok (Some s) -> snap_ok s.
Proof.
  decode_read. simplify_eq. unfold snap_ok. simpl.
  assert (in_int64 0 /\ in_uint64 0) as [] by (unfold in_int64, in_uint64, int64_min, int64_max, uint64_max; lia).
  refine (conj _ (conj _ (conj _ (conj _ (canonical_of_string _)))));
    first [eapply (dec_field_range in_int64); [..|eassumption]; by eauto using ParseInt_range
          |eapply (dec_field_range in_uint64); [..|eassumption]; by eauto using ParseUint_range].
Qed.

(** The value HINCRBY adds to: the decoded counter, when it is in HINCRBY's
    range. *)
Lemma decode_count h s :
  decodeSnapshot h = Ok (Some s) -> fget h hfRelayCount <> "" \/ h !! hfRelayCount = None ->
  counter_of (h !! hfRelayCount) = Some (RelayCount s).
Proof.
  decode_read. simplify_eq. simpl. unfold dec_field, fget, counter_of in *.
  destruct (h !! hfRelayCount) as [v|]; simpl in *; [|by intros; simplify_eq].
  intros [Hv|]; [|done]. rewrite (proj2 (String.eqb_neq _ _) Hv) in *.
  destruct (ParseInt v); by simplify_eq.
Qed.

Lemma decode_cu h s :
  decodeSnapshot h = Ok (Some s) ->
  match h !! hfTotalComputeUnits with
  | None => TotalComputeUnits s = 0
  | Some v => v <> "" -> ParseUint v = Some (TotalComputeUnits s)
  end.
Proof.
  decode_read. simplify_eq. simpl. unfold dec_field, fget in *.
  destruct (h !! hfTotalComputeUnits) as [v|]; simpl in *; [|by simplify_eq].
  intros Hv. rewrite (proj2 (String.eqb_neq _ _) Hv) in *. destruct (ParseUint v); by simplify_eq.
Qed.
(** *** [Save] over an existing session: its metadata, not its counters *)

Lemma hash_del_app h l1 l2 : hash_del h (l1 ++ l2) = hash_del (hash_del h l1) l2.
Proof. unfold hash_del. apply foldl_app. Qed.

Lemma fget_stale h (b : bool) k f :
  fget (hash_del h (if b then [k] else [])) f =
  if String.eqb k f then (if b then "" else fget h f) else fget h f.
Proof. destruct b; simpl; [apply fget_delete|by destruct (String.eqb k f)]. Qed.

Definition saved_hash (h : gmap string string) (s : SessionSnapshot) : gmap string string :=
  hash_del (hash_set h (encodeSnapshotMetadata s)) (staleFields s).

(** The value of a named field of a saved hash. *)
Ltac meta_field :=
  unfold saved_hash, staleFields, encodeSnapshotMetadata; rewrite !hash_del_app, !hash_set_app, !fget_stale; eqb_const;
  rewrite !fget_opt_field; eqb_const; cbn [hash_set foldl fst snd]; rewrite ?fget_insert; eqb_const.

Lemma saved_counters h s :
  fget (saved_hash h s) hfRelayCount = fget h hfRelayCount /\
  fget (saved_hash h s) hfTotalComputeUnits = fget h hfTotalComputeUnits.
Proof. split; meta_field; reflexivity. Qed.

Lemma decode_metadata h p s :
  decodeSnapshot h = Ok (Some p) -> codec_ok s -> root_ok (ClaimedRootHash s) ->
  decodeSnapshot (saved_hash h s) = Ok (Some (set_counters (RelayCount p) (TotalComputeUnits p) s)).
Proof.
  intros Hd ((Hst & Hen & _ & _ & Hcan) & Ht & Hlu & Hcr) Hroot.
  destruct (decode_snap_ok h p Hd) as (_ & _ & Hrc & Hcu & _).
  destruct (saved_counters h s) as [Hc1 Hc2].
  assert (dec_field ParseInt (saved_hash h s) hfRelayCount = Ok (RelayCount p) /\
          dec_field ParseUint (saved_hash h s) hfTotalComputeUnits = Ok (TotalComputeUnits p)) as [Hd1 Hd2].
  { unfold dec_field. rewrite Hc1, Hc2. fold (dec_field ParseInt h hfRelayCount) (dec_field ParseUint h hfTotalComputeUnits).
    revert Hd. decode_read. by simplify_eq. }
  apply decodeSnapshot_spells; try done.
  { intros He. apply (format_time_nonempty (CreatedAt s)).
    assert (fget (saved_hash h s) hfCreatedAt = format_time (CreatedAt s)) as <- by (meta_field; reflexivity).
    by rewrite He. }
  all: meta_field; try reflexivity; simpl;
    match goal with |- context [String.eqb ?v ""] => by destruct (String.eqb_spec v "") end.
Qed.
End CodecLemmas.
