(* ===== verification/RedisStoreRefines.v ===== *)
(** * The Redis session store keeps the store contract

    RedisSessionStore discharges [SessionStoreLaws]: on a store whose session
    keys are hashes that decode, every operation does to its session what
    StoreSpec says, whatever round trip fails, and touches no other session. *)

From S2P Require Import Prelude SessionState KeyBuilder StoreSpec RelayCommit Concrete RedisModel RedisSessionStore.
From Stdlib Require Import Ascii String DecimalString.

Local Open Scope string_scope.
Local Open Scope Z_scope.

(** ** Counters: HINCRBY and the decoder read the same digits *)

Lemma ParseInt_of_ParseUint v n : ParseUint v = Some n -> n <= int64_max -> ParseInt v = Some n.
Proof.
  unfold ParseUint, ParseInt, parse_dec. intros H Hn.
  destruct (NilZero.uint_of_string v) as [d|] eqn:E; [|done]. cbv zeta in H.
  destruct (decide (0 <= Z.of_uint d <= uint64_max)) as [Hr|]; [|done]. injection H as <-.
  assert (exists c s, v = String c s /\ c <> "+"%char /\ c <> "-"%char) as (c & s & -> & Hp & Hm).
  { destruct v as [|c s]; [done|]. exists c, s. split; [done|].
    split; intros ->; simpl in E; by destruct (NilEmpty.uint_of_string s). }
  assert (NilZero.int_of_string (String c s) = Some (Decimal.Pos d)) as Hi.
  { unfold NilZero.int_of_string. apply Ascii.eqb_neq in Hm. rewrite Hm.
    unfold NilZero.uint_of_string in *. by rewrite E. }
  replace (match c with "+"%char => _ | _ => _ end) with (Some (Z.of_uint d)).
  - rewrite decide_True; [done|]. unfold int64_min, int64_max in *. lia.
  - destruct c as [[] [] [] [] [] [] [] []]; try (by rewrite Hi); done.
Qed.

(** ** Well-formed stores *)

Section Refines.
Context {R : Type} `{RO : !RedisOps R} `{RL : !RedisLaws R}.
Context `{TC : !TimeCodec} `{TCL : !TimeCodecLaws} `{SJ : !SnapshotJson} `{LN : !LuaNumbers}.
Variable cfg : SessionStoreConfig.
Hypothesis Hkb : no_colon (cfg_kb cfg).
Hypothesis Hsup : no_colon (SupplierAddress cfg).
Hypothesis Httl : 0 < SessionTTL cfg.

Abbreviation sessionKey := (sessionKey cfg).
Abbreviation supplierSessionsKey := (supplierSessionsKey cfg).
Abbreviation stateIndexKey := (stateIndexKey cfg).

(** The session IDs whose key is none of the store's index keys. *)
Definition redis_id (id : string) : Prop := no_colon id /\ id <> "index".

Definition wf_hash (h : gmap string string) : Prop :=
  (exists s, decodeSnapshot h = Ok (Some s) /\ known (State s) = true) /\
  h !! hfRelayCount <> Some "" /\ h !! hfTotalComputeUnits <> Some "".

Definition index_key (k : string) : Prop :=
  k = supplierSessionsKey \/ exists st, known st = true /\ k = stateIndexKey st.

Definition indexes_ok (r : R) : Prop := forall k, index_key k -> takes_set (rview r !! k).

Definition sessions_ok (r : R) : Prop :=
  forall id, redis_id id ->
  match rview r !! sessionKey id with
  | None => True
  | Some (RHash h) => wf_hash h
  | Some _ => False
  end.

Definition redis_wf (s : RStore R) : Prop := sessions_ok (rs_db s) /\ indexes_ok (rs_db s).

(** The session a store holds under an ID. *)
Definition db_view (r : R) (id : string) : option SessionSnapshot :=
  match decodeSnapshot (hash_of (rview r !! sessionKey id)) with
  | Ok o => o
  | Err _ => None
  end.

(** *** Keys *)

Lemma sessionKey_inj id1 id2 : sessionKey id1 = sessionKey id2 -> redis_id id1 -> redis_id id2 -> id1 = id2.
Proof.
  intros H [? ?] [? ?].
  apply (render_inj (cfg_kb cfg) (cfg_kb cfg) (KMinerSession _ id1) (KMinerSession _ id2)) in H
    as [_ H]; [by injection H| done | done | done | done].
Qed.

Lemma index_key_ne k id : index_key k -> redis_id id -> k <> sessionKey id.
Proof.
  intros [->|(st & Hst & ->)] [? ?].
  - apply (render_ne (cfg_kb cfg) (KMinerSessionsIndex _) (KMinerSession _ id)); done.
  - apply (render_ne (cfg_kb cfg) (KMinerSessionState _ _) (KMinerSession _ id)); [done| |done|done].
    split; [done|]. by apply known_no_colon.
Qed.

(** *** Index writes leave the sessions alone *)

Definition same_sessions (r r' : R) : Prop :=
  (forall id, redis_id id -> rview r' !! sessionKey id = rview r !! sessionKey id) /\
  (indexes_ok r -> indexes_ok r').

#[local] Instance same_sessions_preorder : PreOrder same_sessions.
Proof.
  split; [by split|]. intros a b c [H1 H2] [H3 H4]. split; [|auto].
  intros id Hid. by rewrite H3, H1.
Qed.

Lemma same_sadd k m r : index_key k -> indexes_ok r -> same_sessions r (r_sadd_ k m r).
Proof.
  intros Hk Hi. unfold r_sadd_. split.
  - intros id Hid. rewrite view_sadd by auto. apply lookup_insert_ne. by apply index_key_ne.
  - intros _ k' Hk'. rewrite view_sadd by auto. destruct (decide (k = k')) as [->|].
    + rewrite lookup_insert_eq. by right.
    + rewrite lookup_insert_ne by done. auto.
Qed.

Lemma same_srem k m r : index_key k -> indexes_ok r -> same_sessions r (r_srem k m r).
Proof.
  intros Hk Hi. split.
  - intros id Hid. rewrite view_srem by auto. unfold put_set. pose proof (index_key_ne k id Hk Hid).
    case_decide; [by rewrite lookup_delete_ne | by rewrite lookup_insert_ne].
  - intros _ k' Hk'. rewrite view_srem by auto. unfold put_set.
    destruct (decide (k = k')) as [->|]; case_decide.
    + rewrite lookup_delete_eq. by left.
    + rewrite lookup_insert_eq. by right.
    + rewrite lookup_delete_ne by done. auto.
    + rewrite lookup_insert_ne by done. auto.
Qed.

Lemma same_expire k r : same_sessions r (r_expire k (SessionTTL cfg) r).
Proof.
  split; [intros id Hid; by rewrite view_expire|].
  intros Hi k' Hk'. rewrite view_expire by done. auto.
Qed.

Lemma index_state st : known st = true -> index_key (stateIndexKey st).
Proof. intros. right. eauto. Qed.
Lemma index_supplier : index_key supplierSessionsKey.
Proof. by left. Qed.

(** The writes of an index pipeline, one after the other. *)
Lemma chain_sadd k m r r1 :
  index_key k -> indexes_ok r -> same_sessions r r1 -> same_sessions r (r_sadd_ k m r1).
Proof. intros Hk Hi H. etransitivity; [exact H|]. apply same_sadd; [done|by apply H]. Qed.

Lemma chain_srem k m r r1 :
  index_key k -> indexes_ok r -> same_sessions r r1 -> same_sessions r (r_srem k m r1).
Proof. intros Hk Hi H. etransitivity; [exact H|]. apply same_srem; [done|by apply H]. Qed.

Lemma chain_expire k r r1 : same_sessions r r1 -> same_sessions r (r_expire k (SessionTTL cfg) r1).
Proof. intros H. etransitivity; [exact H|]. apply same_expire. Qed.

Ltac index_chain :=
  repeat first
    [ apply chain_expire
    | apply chain_sadd; [by auto using index_state, index_supplier | done |]
    | apply chain_srem; [by auto using index_state, index_supplier | done |]
    | case_match
    | reflexivity ].

Lemma same_trip (f : Fault) {A} (act : R -> R * A) r :
  same_sessions r (fst (act r)) -> same_sessions r (fst (round_trip f act r)).
Proof. destruct (round_trip_state act r f) as [-> | ->]; [reflexivity|done]. Qed.

Lemma same_reindex f id old new r :
  known old = true -> known new = true -> indexes_ok r ->
  same_sessions r (reindexState cfg f id old new r).
Proof. intros Ho Hn Hi. unfold reindexState. apply same_trip. simpl. index_chain. Qed.

Lemma same_createIndexes snap r :
  known (State snap) = true -> indexes_ok r -> same_sessions r (createIndexes cfg snap r).
Proof. intros Hk Hi. unfold createIndexes. index_chain. Qed.

Lemma same_view r r' id : same_sessions r r' -> redis_id id -> db_view r' id = db_view r id.
Proof. intros [H _] Hid. unfold db_view. by rewrite H. Qed.

Lemma same_wf c r r' : same_sessions r r' -> redis_wf (mkRStore c r) -> redis_wf (mkRStore c r').
Proof.
  intros [H1 H2] [Hs Hi]. split; [|by apply H2]. intros id Hid. simpl. rewrite H1 by done. by apply Hs.
Qed.

(** *** A write of one session's hash *)

Definition hash_step (id : string) (h' : gmap string string) (r r' : R) : Prop :=
  rview r' = <[sessionKey id := RHash h']> (rview r).

Lemma hash_step_wf c id h' r r' :
  redis_id id -> hash_step id h' r r' -> wf_hash h' -> redis_wf (mkRStore c r) -> redis_wf (mkRStore c r').
Proof.
  intros Hid Hst Hh [Hs Hi]. split.
  - intros id' Hid'. simpl. rewrite Hst. destruct (decide (sessionKey id = sessionKey id')) as [<-|].
    + by rewrite lookup_insert_eq.
    + rewrite lookup_insert_ne by done. by apply Hs.
  - intros k Hk. simpl. rewrite Hst. rewrite lookup_insert_ne; [by apply Hi|].
    intros Heq. by apply (index_key_ne k id).
Qed.

Lemma hash_step_view id h' s' r r' :
  hash_step id h' r r' -> decodeSnapshot h' = Ok (Some s') -> db_view r' id = Some s'.
Proof. intros Hst Hd. unfold db_view. by rewrite Hst, lookup_insert_eq; simpl; rewrite Hd. Qed.

Lemma hash_step_other id h' r r' id' :
  redis_id id -> redis_id id' -> id' <> id -> hash_step id h' r r' -> db_view r' id' = db_view r id'.
Proof.
  intros Hid Hid' Hne Hst. unfold db_view. rewrite Hst, lookup_insert_ne; [done|].
  intros ?. apply Hne. symmetry. by apply sessionKey_inj.
Qed.

(** What a well-formed store holds under an ID. *)
Lemma wf_cases s id :
  redis_wf s -> redis_id id ->
  (rview (rs_db s) !! sessionKey id = None /\ db_view (rs_db s) id = None) \/
  exists h snap, rview (rs_db s) !! sessionKey id = Some (RHash h) /\ wf_hash h /\
    decodeSnapshot h = Ok (Some snap) /\ known (State snap) = true /\ db_view (rs_db s) id = Some snap.
Proof.
  intros [Hs _] Hid. specialize (Hs id Hid). unfold db_view.
  destruct (rview (rs_db s) !! sessionKey id) as [[ | h | | ]|] eqn:E; try done.
  - right. destruct Hs as ((snap & Hd & Hk) & ?). exists h, snap. simpl. rewrite Hd.
    split_and!; try done. split; eauto.
  - left. done.
Qed.

(** *** The update script against the guard *)

Lemma eqb_state a b : known a = true -> known b = true ->
  String.eqb (string_of_state a) (string_of_state b) = bool_decide (a = b).
Proof.
  intros Ha Hb. destruct (decide (a = b)) as [->|Hne].
  - by rewrite String.eqb_refl, bool_decide_true.
  - rewrite bool_decide_false by done. apply String.eqb_neq. intros H. apply Hne.
    apply string_of_state_inj; auto with miner.
Qed.

Lemma hfState_read h s : decodeSnapshot h = Ok (Some s) -> known (State s) = true ->
  h !! hfState = Some (string_of_state (State s)).
Proof.
  intros Hd Hk. destruct (decode_fields h s Hd) as (Hs & _).
  unfold fget in Hs. destruct (h !! hfState) as [v|]; simpl in Hs.
  - by rewrite Hs, string_of_state_of_string.
  - rewrite Hs in Hk. by vm_compute in Hk.
Qed.

Lemma hfState_fget h s : decodeSnapshot h = Ok (Some s) -> known (State s) = true ->
  fget h hfState = string_of_state (State s).
Proof. intros. unfold fget. by rewrite (hfState_read h s). Qed.

Lemma r_type_hash r k h : rview r !! k = Some (RHash h) -> r_type r k = THash.
Proof. intros Hr. unfold r_type. by rewrite Hr. Qed.

Lemma r_hget_fget r k f h : rview r !! k = Some (RHash h) -> default "" (r_hget r k f) = fget h f.
Proof. intros Hr. unfold r_hget. by rewrite Hr. Qed.

(** What the script's error replies become in [updateState]. *)
Definition script_error (e : script_err) : StoreErr :=
  match e with
  | SeNotFound => ErrSessionNotFound
  | SeClaimOnChain => ErrClaimAlreadyOnChain
  | SeNotUnsentClaim | SeNotUnsentProof => ErrSessionNotDeferred
  | _ => ErrUnexpectedReply
  end.

Definition script_refusal (e : script_err) : Prop :=
  e = SeClaimOnChain \/ e = SeNotUnsentClaim \/ e = SeNotUnsentProof.

Lemma wf_hash_insert h f v s' :
  wf_hash h -> f <> hfRelayCount -> f <> hfTotalComputeUnits ->
  decodeSnapshot (<[f := v]> h) = Ok (Some s') -> known (State s') = true -> wf_hash (<[f := v]> h).
Proof.
  intros (_ & H1 & H2) Hf1 Hf2 Hd Hk. split; [eauto|].
  by rewrite !lookup_insert_ne.
Qed.

Lemma some_state a b : known a = true -> known b = true ->
  bool_decide (Some (string_of_state a) = Some (string_of_state b)) = bool_decide (a = b).
Proof.
  intros Ha Hb. rewrite <- eqb_state by done.
  destruct (String.eqb_spec (string_of_state a) (string_of_state b)) as [->|];
    [by rewrite bool_decide_true | rewrite bool_decide_false; congruence].
Qed.

(** Rewrite with a comparison of a state with a constant, spelled as the scripts
    spell the constant. *)
Ltac rewrite_state e :=
  let E := fresh in pose proof e as E; cbn [string_of_state] in E; rewrite E; clear E.

(** The conditions of the script are those of [checkStateWrite]. *)
Lemma updateStateScript_guard key st now ttl v r h s :
  rview r !! key = Some (RHash h) -> decodeSnapshot h = Ok (Some s) ->
  known (State s) = true -> known st = true ->
  updateStateScript key (string_of_state st) now ttl v r =
  match checkStateWrite s st with
  | Some ErrClaimAlreadyOnChain => (r, Err SeClaimOnChain)
  | Some _ => (r, Err (if bool_decide (st = SessionStateActive) then SeNotUnsentClaim else SeNotUnsentProof))
  | None =>
      let r1 := r_hset key [(hfState, string_of_state st); (hfLastUpdatedAt, now)] r in
      let r2 := if negb (String.eqb v "") && negb (bool_decide (State s = st))
                then r_hset key [(hfClaimMissingVerdict, v)] r1 else r1 in
      (r_expire key ttl r2, Ok (Some (string_of_state (State s))))
  end.
Proof.
  intros Hr Hd Hks Hkst. destruct (decode_fields h s Hd) as (_ & Htx & Hptx & _).
  unfold updateStateScript, r_type, r_hget. rewrite Hr. simpl type_of. cbv iota. simpl hash_of.
  rewrite (hfState_read h s Hd Hks). simpl default.
  unfold lua_set. fold (fget h hfClaimTxHash) (fget h hfProofTxHash). rewrite <- Htx, <- Hptx.
  rewrite lua_holds_claim_twin by auto with miner. rewrite some_state by done.
  rewrite_state (eqb_state st SessionStateClaimWindowClosed Hkst eq_refl).
  rewrite_state (eqb_state st SessionStateClaimTxError Hkst eq_refl).
  rewrite_state (eqb_state st SessionStateActive Hkst eq_refl).
  rewrite_state (eqb_state st SessionStateClaimed Hkst eq_refl).
  rewrite_state (eqb_state (State s) SessionStateProved Hks eq_refl).
  rewrite_state (eqb_state (State s) SessionStateProbabilisticProved Hks eq_refl).
  rewrite_state (eqb_state (State s) SessionStateProofWindowClosed Hks eq_refl).
  rewrite_state (eqb_state (State s) SessionStateProofTxError Hks eq_refl).
  rewrite_state (some_state (State s) SessionStateClaiming Hks eq_refl).
  unfold checkStateWrite.
  destruct (_ && HoldsClaimOnChain _); [done|].
  destruct (bool_decide (st = SessionStateActive)) eqn:Ea; cbn [andb].
  - apply bool_decide_eq_true in Ea. subst st. by destruct (_ || _).
  - by destruct (bool_decide (st = SessionStateClaimed) && _).
Qed.

Lemma set_State_id s : set_State (State s) s = s.
Proof. by destruct s. Qed.

Lemma updateStateScript_hash key st now v r h s :
  rview r !! key = Some (RHash h) -> wf_hash h -> decodeSnapshot h = Ok (Some s) ->
  known (State s) = true -> known st = true -> time_ok now ->
  let out := updateStateScript key (string_of_state st) (format_time now) (SessionTTL cfg) v r in
  match spec_update st v now (Some s) with
  | Err e => exists se, out = (r, Err se) /\ script_refusal se /\ script_error se = e
  | Ok (s', _) => exists r' h', out = (r', Ok (Some (string_of_state (State s)))) /\
      rview r' = <[key := RHash h']> (rview r) /\ wf_hash h' /\ decodeSnapshot h' = Ok (Some s')
  end.
Proof.
  intros Hr Hwf Hd Hks Hkst Hnow out. subst out.
  rewrite (updateStateScript_guard _ _ _ _ _ _ h s) by done. unfold spec_update.
  destruct (checkStateWrite s st) as [e|] eqn:Hc.
  - unfold checkStateWrite in Hc. unfold script_refusal.
    destruct (_ && HoldsClaimOnChain _); [simplify_eq; eauto|].
    destruct (bool_decide (st = SessionStateActive)); cbn [andb] in Hc; bool_cases; eauto 6.
  - set (h1 := <[hfLastUpdatedAt := format_time now]> (<[hfState := string_of_state st]> h)).
    set (r1 := r_hset key [(hfState, string_of_state st); (hfLastUpdatedAt, format_time now)] r).
    assert (rview r1 = <[key := RHash h1]> (rview r)) as Hr1.
    { unfold r1. rewrite view_hset; [by rewrite Hr | by rewrite Hr; right | done]. }
    assert (decodeSnapshot h1 = Ok (Some (set_LastUpdatedAt now (set_State st s)))) as Hd1.
    { apply decode_set_updated; [done|]. rewrite <- (known_of_string st Hkst) at 2. by apply decode_set_state. }
    assert (wf_hash h1) as Hw1.
    { eapply wf_hash_insert; [eapply wf_hash_insert; [done..| |]|done..|eassumption|by destruct s].
      - by apply decode_set_state.
      - simpl. by rewrite known_of_string. }
    destruct (decide (State s = st)) as [<-|Hne].
    + rewrite bool_decide_true, andb_false_r by done. rewrite set_State_id in Hd1. simpl.
      eexists _, h1. rewrite view_expire by done. done.
    + rewrite bool_decide_false, andb_true_r by done. destruct (String.eqb v ""); simpl.
      * eexists _, h1. rewrite view_expire by done. done.
      * eexists _, (<[hfClaimMissingVerdict := v]> h1). split; [done|].
        rewrite view_expire by done.
        rewrite view_hset; [|rewrite Hr1, lookup_insert_eq; by right|done].
        rewrite Hr1, lookup_insert_eq, insert_insert_eq. split; [done|].
        assert (decodeSnapshot (<[hfClaimMissingVerdict := v]> h1) =
                Ok (Some (set_Verdict v (set_LastUpdatedAt now (set_State st s))))) as Hd2
          by (by apply decode_set_verdict).
        split; [|done]. eapply wf_hash_insert; [done..|eassumption|by destruct s].
Qed.
(** *** One session written, then the indexes *)

#[local] Instance redis_id_dec id : Decision (redis_id id).
Proof. unfold redis_id, no_colon. apply _. Defined.

(** What the store's callers see: the sessions under IDs its keys can carry. *)
Definition redis_view (r : R) (id : string) : option SessionSnapshot :=
  if decide (redis_id id) then db_view r id else None.

Lemma redis_view_id r id : redis_id id -> redis_view r id = db_view r id.
Proof. intros. unfold redis_view. by rewrite decide_True. Qed.

(** What a script leaves of the sessions: nothing moved, or the one hash. *)
Definition script_moves (id : string) (o : option SessionSnapshot) (r r' : R) : Prop :=
  match o with
  | None => r' = r
  | Some s' => exists h', hash_step id h' r r' /\ wf_hash h' /\ decodeSnapshot h' = Ok (Some s')
  end.

Lemma moves_other id o r r1 r2 id' :
  redis_id id -> id' <> id -> script_moves id o r r1 -> same_sessions r1 r2 ->
  redis_view r2 id' = redis_view r id'.
Proof.
  intros Hid Hne Hm Hs. unfold redis_view. destruct (decide (redis_id id')); [|done].
  rewrite (same_view r1 r2) by done. destruct o as [s'|]; [|by rewrite Hm].
  destruct Hm as (h' & Hst & _). by apply (hash_step_other id h').
Qed.

Lemma moves_self id s' r r1 r2 :
  redis_id id -> script_moves id (Some s') r r1 -> same_sessions r1 r2 ->
  redis_view r2 id = Some s'.
Proof.
  intros Hid (h' & Hst & _ & Hd) Hs. rewrite redis_view_id, (same_view r1 r2) by done.
  by eapply hash_step_view.
Qed.

Lemma moves_wf c id o r r1 r2 :
  redis_id id -> script_moves id o r r1 -> same_sessions r1 r2 ->
  redis_wf (mkRStore c r) -> redis_wf (mkRStore c r2).
Proof.
  intros Hid Hm Hs Hwf. apply (same_wf c r1); [done|]. destruct o as [s'|]; [|by rewrite Hm].
  destruct Hm as (h' & Hst & Hh & _). by eapply hash_step_wf.
Qed.

(** What a script did and answered is what the specification says. *)
Definition script_does {A B} (id : string) (spec : option SessionSnapshot -> result (SessionSnapshot * A) StoreErr)
    (answer : B -> result A StoreErr) (r : R) (out : R * B) : Prop :=
  match spec (redis_view r id) with
  | Ok (s', a) => script_moves id (Some s') r (fst out) /\ answer (snd out) = Ok a
  | Err e => fst out = r /\ answer (snd out) = Err e
  end.

(** A call that runs one such script and then, when it was answered, writes at
    most the indexes. *)
Lemma call_spec {A B} c f id spec (answer : B -> result A StoreErr) (script : R -> R * B) r res :
  redis_wf (mkRStore c r) -> redis_id id ->
  script_does id spec answer r (script r) ->
  match round_trip f script r with
  | (r1, Err e) => res = (mkRStore c r1, Err (ErrIo e))
  | (r1, Ok b) => exists r2, (indexes_ok r1 -> same_sessions r1 r2) /\ res = (mkRStore c r2, answer b)
  end ->
  redis_wf (fst res) /\ writes_one (redis_view r) (redis_view (rs_db (fst res))) id spec (snd res).
Proof.
  intros Hwf Hid Hs Hres. unfold script_does in Hs. destruct (script r) as [r1 b] eqn:Hscr.
  destruct (spec (redis_view r id)) as [[s' a]|e] eqn:Hsp; simpl in Hs; destruct Hs as [Hm Ha].
  - assert (redis_wf (mkRStore c r1)) as Hwf1 by (by apply (moves_wf c id (Some s') r r1 r1)).
    destruct f as [| |[]]; simpl in Hres; rewrite ?Hscr in Hres.
    + destruct Hres as (r2 & H2 & ->). simpl. rewrite Ha. specialize (H2 (proj2 Hwf1)).
      split; [by apply (moves_wf c id (Some s') r r1 r2)|].
      split; [intros; by apply (moves_other id (Some s') r r1)|].
      exists s'. split; [done|]. by rewrite (moves_self id s' r r1).
    + subst res. split; [done|apply writes_one_io].
    + subst res. simpl. split; [done|].
      split; [intros; by apply (moves_other id (Some s') r r1)|].
      right. exists s', a. split; [done|]. by rewrite (moves_self id s' r r1).
    + subst res. split; [done|apply writes_one_io].
  - subst r1. destruct f as [| |[]]; simpl in Hres; rewrite ?Hscr in Hres; try (subst res; split; [done|apply writes_one_io]).
    destruct Hres as (r2 & H2 & ->). simpl. rewrite Ha. specialize (H2 (proj2 Hwf)).
    assert (forall id', redis_view r2 id' = redis_view r id') as Hv.
    { intros id'. unfold redis_view. case_decide; [|done]. by apply same_view. }
    split; [by apply (moves_wf c id None r r)|]. split; [auto|].
    rewrite Hv. destruct e; auto.
Qed.

(** *** UpdateState *)

Definition updateAnswer (a : result (option string) script_err) (st : SessionState) : result bool StoreErr :=
  match a with
  | Err e => Err (script_error e)
  | Ok None => Err ErrUnexpectedReply
  | Ok (Some old) => Ok (negb (bool_decide (state_of_string old = st)))
  end.

(** The answers the script gives on a well-formed store. *)
Definition update_answers (a : result (option string) script_err) : Prop :=
  match a with
  | Err e => e = SeNotFound \/ script_refusal e
  | Ok None => False
  | Ok (Some old) => known (state_of_string old) = true
  end.

Lemma updateState_does now id st v s :
  redis_wf s -> redis_id id -> time_ok now -> known st = true ->
  let out := updateStateScript (sessionKey id) (string_of_state st) (format_time now)
               (SessionTTL cfg) v (rs_db s) in
  update_answers (snd out) /\
  script_does id (spec_update st v now) (fun a => updateAnswer a st) (rs_db s) out.
Proof.
  intros Hwf Hid Hnow Hst out. subst out. unfold script_does. rewrite redis_view_id by done.
  destruct (wf_cases s id Hwf Hid) as [[Hn ->]|(h & snap & Hr & Hh & Hd & Hk & ->)].
  - unfold updateStateScript, r_type. rewrite Hn. split; [by left|done].
  - pose proof (updateStateScript_hash (sessionKey id) st now v (rs_db s) h snap Hr Hh Hd Hk Hst Hnow) as Hout.
    cbv zeta in Hout. destruct (spec_update st v now (Some snap)) as [[s' b]|e] eqn:Hsp.
    + destruct Hout as (r' & h' & -> & Hs' & Hh' & Hd'). simpl.
      rewrite known_of_string by done. split; [done|]. split; [by exists h'|]. unfold spec_update in Hsp.
      destruct (checkStateWrite snap st); [done|].
      destruct (decide (State snap = st)); injection Hsp as <- <-;
        by rewrite ?bool_decide_true, ?bool_decide_false by done.
    + destruct Hout as (se & -> & Hse & <-). split; [by right|done].
Qed.

Lemma updateState_spec io now s id st v :
  redis_wf s -> redis_id id -> time_ok now -> known st = true ->
  redis_wf (fst (updateState cfg io now s id st v)) /\
  writes_one (redis_view (rs_db s)) (redis_view (rs_db (fst (updateState cfg io now s id st v)))) id
    (spec_update st v now) (snd (updateState cfg io now s id st v)).
Proof.
  intros Hwf Hid Hnow Hst. destruct (updateState_does now id st v s Hwf Hid Hnow Hst) as [Hans Hdoes].
  eapply (call_spec (rs_closed s) (io 0%nat)); [by destruct s|done|exact Hdoes|].
  unfold updateState. destruct (round_trip _ _ _) as [r1 [b|e]] eqn:Hrt; [|done].
  apply round_trip_ok in Hrt. rewrite Hrt in Hans. simpl in Hans.
  destruct b as [[old|]|e]; simpl in Hans; [|done|].
  - simpl. destruct (decide (state_of_string old = st)) as [He|He].
    + exists r1. rewrite bool_decide_true by done. done.
    + eexists. rewrite bool_decide_false by done. split; [|done]. by apply same_reindex.
  - exists r1. by destruct Hans as [-> | [-> | [-> | ->]]].
Qed.

Lemma updateState_answered now s id st v e :
  redis_wf s -> redis_id id -> time_ok now -> known st = true ->
  snd (updateState cfg io_ok now s id st v) <> Err (ErrIo e).
Proof.
  intros Hwf Hid Hnow Hst. destruct (updateState_does now id st v s Hwf Hid Hnow Hst) as [Hans _].
  unfold updateState. destruct (round_trip _ _ _) as [r1 [b|x]] eqn:Hrt.
  2:{ unfold io_ok, round_trip in Hrt. by destruct (updateStateScript _ _ _ _ _ _). }
  apply round_trip_ok in Hrt. rewrite Hrt in Hans. simpl in Hans.
  destruct b as [[old|]|se]; simpl in Hans; [|done|].
  - simpl. by destruct (decide (state_of_string old = st)).
  - by destruct Hans as [-> | [-> | [-> | ->]]].
Qed.

(** *** Hash writes, one field after the other *)

Definition good (h : gmap string string) (s : SessionSnapshot) : Prop :=
  wf_hash h /\ decodeSnapshot h = Ok (Some s).

Lemma good_known h s : good h s -> known (State s) = true.
Proof. intros [((s' & Hd & Hk) & _) Hs]. rewrite Hs in Hd. by simplify_eq. Qed.

Lemma good_insert h s s' f v :
  f <> hfRelayCount -> f <> hfTotalComputeUnits -> known (State s') = true ->
  (decodeSnapshot h = Ok (Some s) -> decodeSnapshot (<[f := v]> h) = Ok (Some s')) ->
  good h s -> good (<[f := v]> h) s'.
Proof.
  intros Hf1 Hf2 Hk Hd [Hw Hs]. specialize (Hd Hs). split; [|done]. by eapply wf_hash_insert.
Qed.

Lemma good_state h s st : known st = true -> good h s ->
  good (<[hfState := string_of_state st]> h) (set_State st s).
Proof.
  intros Hk Hg. eapply good_insert; [done..| |exact Hg]. intros Hd.
  rewrite <- (known_of_string st Hk) at 2. by apply decode_set_state.
Qed.

Lemma good_updated h s t : time_ok t -> good h s -> good (<[hfLastUpdatedAt := format_time t]> h) (set_LastUpdatedAt t s).
Proof.
  intros Ht Hg. eapply good_insert; [done..| | |exact Hg]; [exact (good_known _ _ Hg)|by apply decode_set_updated].
Qed.

Lemma good_root h s v : String.length v = SMSTRootLen -> good h s ->
  good (<[hfClaimedRootHash := v]> h) (set_claim v (ClaimTxHash s) s).
Proof.
  intros Hv Hg. eapply good_insert; [done..| | |exact Hg]; [exact (good_known _ _ Hg)|by apply decode_set_root].
Qed.

Lemma good_claim_tx h s v : good h s -> good (<[hfClaimTxHash := v]> h) (set_claim (ClaimedRootHash s) v s).
Proof.
  intros Hg. eapply good_insert; [done..| | |exact Hg]; [exact (good_known _ _ Hg)|by apply decode_set_claim_tx].
Qed.

Lemma good_proof_tx h s v : good h s -> good (<[hfProofTxHash := v]> h) (set_ProofTxHash v s).
Proof.
  intros Hg. eapply good_insert; [done..| | |exact Hg]; [exact (good_known _ _ Hg)|by apply decode_set_proof_tx].
Qed.

Lemma good_del_verdict h s : good h s ->
  delete hfClaimMissingVerdict h <> ∅ /\ good (delete hfClaimMissingVerdict h) (set_Verdict "" s).
Proof.
  intros Hg. pose proof (good_known _ _ Hg) as Hk. destruct Hg as [(Hx & H1 & H2) Hd].
  assert (delete hfClaimMissingVerdict h <> ∅) as Hne.
  { intros He. pose proof (hfState_read h s Hd Hk) as Hf.
    rewrite <- (lookup_delete_ne h hfClaimMissingVerdict hfState) in Hf by done.
    by rewrite He in Hf. }
  split; [done|]. pose proof (decode_del_verdict h s Hne Hd). split; [|done]. split; [eauto|].
  by rewrite !lookup_delete_ne.
Qed.

(** The store [r] is [r0] with the session's hash replaced by one that
    decodes to [s]. *)
Definition rewritten (key : string) (r0 r : R) (s : SessionSnapshot) : Prop :=
  exists h, rview r = <[key := RHash h]> (rview r0) /\ good h s.

Lemma rewritten_hset key r0 r s s' kvs :
  kvs <> [] -> (forall h, good h s -> good (hash_set h kvs) s') ->
  rewritten key r0 r s -> rewritten key r0 (r_hset key kvs r) s'.
Proof.
  intros Hk Hg (h & Hr & Hh). exists (hash_set h kvs). split; [|by apply Hg].
  rewrite view_hset; [|rewrite Hr, lookup_insert_eq; by right|done].
  by rewrite Hr, lookup_insert_eq, insert_insert_eq.
Qed.

Lemma rewritten_del_verdict key r0 r s :
  rewritten key r0 r s -> rewritten key r0 (r_hdel key [hfClaimMissingVerdict] r) (set_Verdict "" s).
Proof.
  intros (h & Hr & Hh). destruct (good_del_verdict h s Hh) as [Hne Hg].
  exists (delete hfClaimMissingVerdict h). split; [|done].
  rewrite view_hdel by (rewrite Hr, lookup_insert_eq; by right).
  rewrite Hr, lookup_insert_eq. unfold put_hash. simpl. rewrite decide_False by done.
  by rewrite insert_insert_eq.
Qed.

Lemma rewritten_expire key k r0 r s :
  rewritten key r0 r s -> rewritten key r0 (r_expire k (SessionTTL cfg) r) s.
Proof. intros (h & Hr & Hh). exists h. by rewrite view_expire. Qed.

Lemma rewritten_refl key r h s : rview r !! key = Some (RHash h) -> good h s -> rewritten key r r s.
Proof. intros Hr Hg. exists h. by rewrite insert_id. Qed.

Lemma rewritten_moves id r0 r s : rewritten (sessionKey id) r0 r s -> script_moves id (Some s) r0 r.
Proof. intros (h & Hr & Hw & Hd). by exists h. Qed.

Lemma rewritten_read key r0 r s :
  rewritten key r0 r s -> default "" (r_hget r key hfClaimTxHash) = ClaimTxHash s.
Proof.
  intros (h & Hr & Hw & Hd). unfold r_hget. rewrite Hr, lookup_insert_eq. simpl.
  by destruct (decode_fields h s Hd) as (_ & -> & _).
Qed.

(** *** Reactivation *)

Definition reactivateAnswer (proved : bool) (a : result (string * string * string) script_err)
  : result Reactivation StoreErr :=
  match a with
  | Err SeNotFound => Err ErrSessionNotFound
  | Err SeLegacy => if proved then Err ErrUnexpectedReply else Err ErrLegacyKey
  | Err _ => Err ErrUnexpectedReply
  | Ok (old, x, y) =>
      if String.eqb old "" then Ok noReactivation
      else Ok (if proved then mkReactivation (Some (state_of_string old)) "" x y
               else mkReactivation (Some (state_of_string old)) x y "")
  end.

Definition reactivate_answers (a : result (string * string * string) script_err) : Prop :=
  match a with
  | Err e => e = SeNotFound
  | Ok (old, _, _) => old = "" \/ known (state_of_string old) = true
  end.

Lemma reactivateClaimed_does now id root tx s :
  redis_wf s -> redis_id id -> time_ok now -> String.length root = SMSTRootLen ->
  let out := reactivateClaimedScript (sessionKey id) root tx (format_time now) (SessionTTL cfg) (rs_db s) in
  reactivate_answers (snd out) /\
  script_does id (spec_reactivate_claimed root tx now) (reactivateAnswer false) (rs_db s) out.
Proof.
  intros Hwf Hid Hnow Hroot out. subst out. unfold script_does. rewrite redis_view_id by done.
  unfold reactivateClaimedScript, r_type, r_hget.
  destruct (wf_cases s id Hwf Hid) as [[-> ->]|(h & snap & Hr & Hh & Hd & Hk & ->)]; [done|].
  rewrite Hr. simpl type_of. cbv iota. simpl hash_of.
  fold (fget h hfState) (fget h hfClaimMissingVerdict) (fget h hfClaimTxHash).
  rewrite (hfState_fget h snap) by done.
  rewrite lua_can_reactivate_claimed_twin by auto with miner. simpl.
  pose proof (rewritten_refl _ _ _ _ Hr (conj Hh Hd)) as Hrw.
  destruct (decode_fields h snap Hd) as (_ & Htx & _ & Hvd).
  destruct (canReactivateClaimed (State snap)); simpl.
  - rewrite known_of_string, (proj2 (String.eqb_neq _ _) (known_nonempty _ Hk)) by done.
    split; [by right|]. rewrite <- Htx, <- Hvd. split; [|done]. apply rewritten_moves, rewritten_expire.
    set (s1 := set_LastUpdatedAt now (set_claim root (ClaimTxHash snap) (set_State SessionStateClaimed snap))).
    assert (rewritten (sessionKey id) (rs_db s) (r_hdel (sessionKey id) [hfClaimMissingVerdict]
      (r_hset (sessionKey id) [(hfState, "claimed"); (hfClaimedRootHash, root);
        (hfLastUpdatedAt, format_time now)] (rs_db s))) (set_Verdict "" s1)) as Hr2.
    { apply rewritten_del_verdict. eapply rewritten_hset; [done| |exact Hrw]. intros h0 Hg. simpl.
      by apply good_updated, (good_root _ (set_State SessionStateClaimed snap)), (good_state h0 snap SessionStateClaimed). }
    destruct (String.eqb tx ""); [by destruct snap|].
    eapply rewritten_hset; [done| |exact Hr2]. intros h0 Hg.
    apply (good_claim_tx _ _ tx) in Hg. by destruct snap.
  - split; [by left|]. split; [|done]. by apply rewritten_moves.
Qed.

Lemma reactivateClaimed_spec io now s id root tx :
  redis_wf s -> redis_id id -> time_ok now -> String.length root = SMSTRootLen ->
  redis_wf (fst (ReactivateClaimed cfg io now s id root tx)) /\
  writes_one (redis_view (rs_db s)) (redis_view (rs_db (fst (ReactivateClaimed cfg io now s id root tx)))) id
    (spec_reactivate_claimed root tx now) (snd (ReactivateClaimed cfg io now s id root tx)).
Proof.
  intros Hwf Hid Hnow Hroot. destruct (reactivateClaimed_does now id root tx s Hwf Hid Hnow Hroot) as [Hans Hdoes].
  eapply (call_spec (rs_closed s) (io 0%nat)); [by destruct s|done|exact Hdoes|].
  unfold ReactivateClaimed. destruct (round_trip _ _ _) as [r1 [b|e]] eqn:Hrt; [|done].
  apply round_trip_ok in Hrt. rewrite Hrt in Hans. simpl in Hans.
  destruct b as [[[old x] y]|e]; simpl in Hans; [|subst e; by exists r1].
  simpl. destruct (String.eqb_spec old "") as [->|Hne]; [by exists r1|].
  destruct Hans as [->|Hk]; [done|]. eexists. split; [|done]. by apply same_reindex.
Qed.

Lemma reactivateProved_does now id tx s :
  redis_wf s -> redis_id id -> time_ok now ->
  let out := reactivateProvedScript (sessionKey id) tx (format_time now) (SessionTTL cfg) (rs_db s) in
  reactivate_answers (snd out) /\
  script_does id (spec_reactivate_proved tx now) (reactivateAnswer true) (rs_db s) out.
Proof.
  intros Hwf Hid Hnow out. subst out. unfold script_does. rewrite redis_view_id by done.
  unfold reactivateProvedScript.
  destruct (wf_cases s id Hwf Hid) as [[Hn ->]|(h & snap & Hr & Hh & Hd & Hk & ->)].
  { unfold r_type. by rewrite Hn. }
  rewrite (r_type_hash _ _ h Hr), !(r_hget_fget _ _ _ h Hr), (hfState_fget h snap) by done. cbv zeta.
  rewrite lua_can_reactivate_proved_twin by auto with miner.
  pose proof (rewritten_refl _ _ _ _ Hr (conj Hh Hd)) as Hrw.
  destruct (decode_fields h snap Hd) as (_ & Htx & Hptx & _). rewrite <- Hptx.
  unfold spec_reactivate_proved.
  destruct (canReactivateProved (State snap) (ProofTxHash snap)); cbn [negb].
  - set (r3 := r_expire _ _ _).
    set (s' := set_LastUpdatedAt now (set_State SessionStateProved
              (set_ProofTxHash (if String.eqb (ProofTxHash snap) "" then tx else ProofTxHash snap) snap))).
    assert (rewritten (sessionKey id) (rs_db s) r3 s') as Hr3.
    { apply rewritten_expire.
      assert (rewritten (sessionKey id) (rs_db s) (r_hset (sessionKey id) [(hfState, "proved");
        (hfLastUpdatedAt, format_time now)] (rs_db s)) (set_LastUpdatedAt now (set_State SessionStateProved snap))) as Hr1.
      { eapply rewritten_hset; [done| |exact Hrw]. intros h0 Hg.
        by apply good_updated, (good_state h0 snap SessionStateProved). }
      subst s'. destruct (String.eqb_spec (ProofTxHash snap) "") as [Hp|Hp]; simpl; [|by destruct snap].
      destruct (String.eqb_spec tx "") as [->|]; simpl.
      { replace (set_ProofTxHash "" snap) with snap; [done|]. clear -Hp. destruct snap; simpl in *. by subst. }
      eapply rewritten_hset; [done| |exact Hr1]. intros h0 Hg.
      apply (good_proof_tx _ _ tx) in Hg. by destruct snap. }
    cbn [fst snd]. rewrite (rewritten_read _ _ _ _ Hr3). simpl.
    rewrite known_of_string, (proj2 (String.eqb_neq _ _) (known_nonempty _ Hk)) by done.
    split; [by right|]. split; [|done]. by apply rewritten_moves.
  - split; [by left|]. split; [|done]. by apply rewritten_moves.
Qed.

Lemma reactivateProved_spec io now s id tx :
  redis_wf s -> redis_id id -> time_ok now ->
  redis_wf (fst (ReactivateProved cfg io now s id tx)) /\
  writes_one (redis_view (rs_db s)) (redis_view (rs_db (fst (ReactivateProved cfg io now s id tx)))) id
    (spec_reactivate_proved tx now) (snd (ReactivateProved cfg io now s id tx)).
Proof.
  intros Hwf Hid Hnow. destruct (reactivateProved_does now id tx s Hwf Hid Hnow) as [Hans Hdoes].
  eapply (call_spec (rs_closed s) (io 0%nat)); [by destruct s|done|exact Hdoes|].
  unfold ReactivateProved. destruct (round_trip _ _ _) as [r1 [b|e]] eqn:Hrt; [|done].
  apply round_trip_ok in Hrt. rewrite Hrt in Hans. simpl in Hans.
  destruct b as [[[old x] y]|e]; simpl in Hans; [|subst e; by exists r1].
  simpl. destruct (String.eqb_spec old "") as [->|Hne]; [by exists r1|].
  destruct Hans as [->|Hk]; [done|]. eexists. split; [|done]. by apply same_reindex.
Qed.

(** *** IncrementRelayCount *)

Lemma good_count h s : good h s -> counter_of (h !! hfRelayCount) = Some (RelayCount s).
Proof.
  intros [(_ & H1 & _) Hd]. apply decode_count; [done|]. unfold fget.
  destruct (h !! hfRelayCount); simpl; [left; congruence|by right].
Qed.

Lemma good_cu h s : good h s -> TotalComputeUnits s <= int64_max ->
  counter_of (h !! hfTotalComputeUnits) = Some (TotalComputeUnits s).
Proof.
  intros [(_ & _ & H2) Hd] Hle. pose proof (decode_cu h s Hd) as Hc.
  destruct (h !! hfTotalComputeUnits) as [v|]; simpl; [|by rewrite Hc].
  apply ParseInt_of_ParseUint; [|done]. apply Hc. congruence.
Qed.

Lemma good_set_count h s n : in_int64 n -> good h s ->
  good (<[hfRelayCount := format_int n]> h) (set_counters n (TotalComputeUnits s) s).
Proof.
  intros Hn Hg. pose proof (good_known _ _ Hg) as Hk. destruct Hg as [(_ & H1 & H2) Hd].
  pose proof (decode_set_count h s n Hn Hd). split; [|done]. split; [eauto|].
  rewrite lookup_insert_eq, lookup_insert_ne by done. split; [|done].
  intros [= He]. by apply (format_int_nonempty n).
Qed.

Lemma good_set_cu h s n : in_uint64 n -> good h s ->
  good (<[hfTotalComputeUnits := format_int n]> h) (set_counters (RelayCount s) n s).
Proof.
  intros Hn Hg. pose proof (good_known _ _ Hg) as Hk. destruct Hg as [(_ & H1 & H2) Hd].
  pose proof (decode_set_cu h s n Hn Hd). split; [|done]. split; [eauto|].
  rewrite lookup_insert_eq, lookup_insert_ne by done. split; [done|].
  intros [= He]. by apply (format_int_nonempty n).
Qed.

Lemma rewritten_hincrby key r0 r s s' f n c :
  rewritten key r0 r s -> in_int64 (c + n) ->
  (forall h, good h s -> counter_of (h !! f) = Some c /\ good (<[f := format_int (c + n)]> h) s') ->
  exists r', r_hincrby key f n r = Some r' /\ rewritten key r0 r' s'.
Proof.
  intros (h & Hr & Hh) Hn Hg. destruct (Hg h Hh) as [Hc Hg'].
  assert (rview r !! key = Some (RHash h)) as Hk by by rewrite Hr, lookup_insert_eq.
  pose proof (view_hincrby r key f n) as Hv. rewrite Hk in Hv. simpl in Hv. rewrite Hc in Hv.
  rewrite decide_True in Hv by done. destruct Hv as (r' & He & Hr'); [by right|].
  exists r'. split; [done|]. eexists. split; [|exact Hg']. by rewrite Hr', Hr, insert_insert_eq.
Qed.

Definition increment_answers (a : result Z script_err) : Prop := exists n, a = Ok n.

Definition incrementAnswer' (a : result Z script_err) : result unit StoreErr := incrementAnswer (Ok a).

Lemma increment_does now id cu s :
  redis_wf s -> redis_id id -> 0 <= cu <= 2 ^ 53 -> time_ok now -> counters_fit cu (redis_view (rs_db s) id) ->
  let out := incrementRelayCountScript (sessionKey id) cu (format_time now) (SessionTTL cfg) (rs_db s) in
  increment_answers (snd out) /\
  script_does id (spec_increment cu now) incrementAnswer' (rs_db s) out.
Proof.
  intros Hwf Hid Hexact Hnow Hfit out. subst out. unfold script_does. rewrite redis_view_id in * by done.
  unfold incrementRelayCountScript. rewrite lua_number_exact by done.
  destruct (wf_cases s id Hwf Hid) as [[Hn ->]|(h & snap & Hr & Hh & Hd & Hk & Hv)].
  { unfold r_type. rewrite Hn. split; [by eexists|done]. }
  rewrite Hv in *. rewrite (r_type_hash _ _ h Hr), !(r_hget_fget _ _ _ h Hr), (hfState_fget h snap) by done.
  rewrite lua_is_terminal_twin by auto with miner. simpl.
  destruct (IsTerminal (State snap)); [split; [by eexists|done]|].
  pose proof (decode_snap_ok h snap Hd) as (_ & _ & [Hlo _] & [Hu _] & _). destruct Hfit as (Hcu & Hc1 & Hc2).
  pose proof (rewritten_refl _ _ _ _ Hr (conj Hh Hd)) as Hrw. unfold int64_min, int64_max in *.
  destruct (rewritten_hincrby (sessionKey id) (rs_db s) (rs_db s) snap
    (set_counters (RelayCount snap + 1) (TotalComputeUnits snap) snap) hfRelayCount 1 (RelayCount snap) Hrw)
    as (r1 & -> & Hr1); [unfold in_int64, int64_min, int64_max; lia| |].
  { intros h0 Hg. split; [by apply good_count|]. apply good_set_count; [|done].
    unfold in_int64, int64_min, int64_max; lia. }
  destruct (rewritten_hincrby (sessionKey id) (rs_db s) r1 _
    (set_counters (RelayCount snap + 1) (TotalComputeUnits snap + cu) snap) hfTotalComputeUnits cu (TotalComputeUnits snap) Hr1)
    as (r2 & -> & Hr2); [unfold in_int64, int64_min, int64_max; lia| |].
  { intros h0 Hg. split; [apply (good_cu h0 _ Hg); simpl; unfold int64_max; lia|].
    apply (good_set_cu _ _ (TotalComputeUnits snap + cu)) in Hg; [done|].
    unfold in_uint64, uint64_max; lia. }
  split; [by eexists|]. split; [|done]. apply rewritten_moves, rewritten_expire.
  eapply rewritten_hset; [done| |exact Hr2]. intros h0 Hg. by apply good_updated.
Qed.

Lemma increment_spec io now s id cu :
  redis_wf s -> redis_id id -> 0 <= cu <= 2 ^ 53 -> time_ok now -> counters_fit cu (redis_view (rs_db s) id) ->
  redis_wf (fst (IncrementRelayCount cfg io now s id cu)) /\
  writes_one (redis_view (rs_db s)) (redis_view (rs_db (fst (IncrementRelayCount cfg io now s id cu)))) id
    (spec_increment cu now) (snd (IncrementRelayCount cfg io now s id cu)).
Proof.
  intros Hwf Hid Hexact Hnow Hfit. destruct (increment_does now id cu s Hwf Hid Hexact Hnow Hfit) as [Hans Hdoes].
  eapply (call_spec (rs_closed s) (io 0%nat)); [by destruct s|done|exact Hdoes|].
  unfold IncrementRelayCount. destruct (round_trip _ _ _) as [r1 [b|e]] eqn:Hrt; [|done].
  apply round_trip_ok in Hrt. rewrite Hrt in Hans. destruct Hans as [n Hn]. simpl in Hn. subst b.
  by exists r1.
Qed.

(** *** CreateIfAbsent and Get *)

Definition createAnswer (n : Z) : result bool StoreErr := Ok (n =? 1).

Lemma create_does now snap0 s :
  redis_wf s -> redis_id (SessionID snap0) -> time_ok now -> storable snap0 -> 
  let snap := touch now snap0 in
  let out := createIfAbsentScript (sessionKey (SessionID snap)) (SessionTTL cfg) (encodeSnapshot snap) (rs_db s) in
  script_does (SessionID snap0) (spec_create snap0 now) createAnswer (rs_db s) out.
Proof.
  intros Hwf Hid Hnow Hstor snap out. subst out.
  destruct (Hstor) as (Hok & Hroot & Hkn & _ & _). unfold script_does. rewrite redis_view_id by done.
  change (SessionID snap) with (SessionID snap0). unfold createIfAbsentScript.
  assert (encodeSnapshot snap <> []) as Hne by done.
  destruct (wf_cases s _ Hwf Hid) as [[Hn ->]|(h & snap' & Hr & Hh & Hd & Hk & ->)].
  - unfold r_type. rewrite Hn. simpl. split; [|done].
    exists (hash_set ∅ (encodeSnapshot snap)). unfold hash_step.
    rewrite view_expire, view_hset by (try done; rewrite Hn; by left). rewrite Hn. split; [done|].
    assert (decodeSnapshot (hash_set ∅ (encodeSnapshot snap)) = Ok (Some snap)) as Hd.
    { apply decode_encode; [by apply touch_codec_ok|done]. }
    split; [|done]. split; [by exists snap|].
    unfold encodeSnapshot. rewrite hash_set_app. simpl.
    rewrite (lookup_insert_ne _ hfTotalComputeUnits hfRelayCount), !lookup_insert_eq by done.
    split; intros [= He]; by apply (format_int_nonempty _ He).
  - rewrite (r_type_hash _ _ h Hr). simpl. split; [|done].
    apply rewritten_moves. by apply (rewritten_refl _ _ h).
Qed.

Lemma create_spec io now s snap :
  redis_wf s -> redis_id (SessionID snap) -> time_ok now -> storable snap ->
  snd (CreateIfAbsent cfg io now s snap) <> Err ErrStoreClosed ->
  redis_wf (fst (CreateIfAbsent cfg io now s snap)) /\
  writes_one (redis_view (rs_db s)) (redis_view (rs_db (fst (CreateIfAbsent cfg io now s snap)))) (SessionID snap)
    (spec_create snap now) (snd (CreateIfAbsent cfg io now s snap)).
Proof.
  intros Hwf Hid Hnow Hst Hcl. pose proof (create_does now snap s Hwf Hid Hnow Hst) as Hdoes. cbv zeta in Hdoes.
  eapply (call_spec (rs_closed s) (io 0%nat)); [by destruct s|done|exact Hdoes|].
  unfold CreateIfAbsent in *. destruct (rs_closed s) eqn:Hc; [by destruct Hcl|]. clear Hcl.
  destruct (round_trip _ _ _) as [r1 [b|e]] eqn:Hrt; [|done].
  destruct (b =? 1) eqn:Hb; simpl.
  - destruct (round_trip (io 1%nat) _ r1) as [r2 a2] eqn:Hr2. exists r2. unfold createAnswer. rewrite Hb.
    split; [|done]. intros Hi. replace r2 with (fst (r2, a2)) by done. rewrite <- Hr2. apply same_trip.
    simpl. apply same_createIndexes; [|done]. by destruct Hst as (_ & _ & ? & _).
  - exists r1. unfold createAnswer. by rewrite Hb.
Qed.

Lemma get_spec io s id x :
  redis_wf s -> redis_id id -> Get cfg io (rs_db s) id = Ok x -> x = redis_view (rs_db s) id.
Proof.
  intros Hwf Hid Hg. rewrite redis_view_id by done. unfold Get, getHash, r_type in Hg.
  destruct (wf_cases s id Hwf Hid) as [[Hn ->]|(h & snap & Hr & Hh & Hd & Hk & ->)].
  - rewrite Hn in Hg. destruct (io 0%nat) as [| |[]]; simpl in Hg; [|done..].
    unfold decodeSnapshot in Hg. rewrite decide_True in Hg by done. by injection Hg.
  - rewrite Hr in Hg. destruct (io 0%nat) as [| |[]]; simpl in Hg; try done. rewrite Hd in Hg. by simplify_eq.
Qed.

(** *** Save *)

Lemma saved_lookup h s f :
  f ∉ map fst (encodeSnapshotMetadata s) -> f ∉ staleFields s -> saved_hash h s !! f = h !! f.
Proof. intros H1 H2. unfold saved_hash. by rewrite hash_del_lookup_ne, hash_set_lookup_ne. Qed.

Lemma saved_keeps_counters s f :
  f = hfRelayCount \/ f = hfTotalComputeUnits ->
  f ∉ map fst (encodeSnapshotMetadata s) /\ f ∉ staleFields s.
Proof.
  intros Hf. unfold encodeSnapshotMetadata, staleFields, opt_field.
  destruct (String.eqb (ClaimedRootHash s) ""), (String.eqb (ClaimTxHash s) ""), (String.eqb (ProofTxHash s) ""),
    (String.eqb (ClaimMissingVerdict s) ""); simpl;
    split; intros Hin; repeat (apply elem_of_cons in Hin as [Hin|Hin]; [destruct Hf; by subst|]);
    by apply not_elem_of_nil in Hin.
Qed.

Lemma saved_good h p s :
  good h p -> storable s -> codec_ok s ->
  good (saved_hash h s) (set_counters (RelayCount p) (TotalComputeUnits p) s).
Proof.
  intros [(_ & H1 & H2) Hd] (_ & Hroot & Hk & _) Hok.
  pose proof (decode_metadata h p s Hd Hok Hroot) as Hd'. split; [|done]. split; [by eexists|].
  destruct (saved_keeps_counters s hfRelayCount (or_introl eq_refl)).
  destruct (saved_keeps_counters s hfTotalComputeUnits (or_intror eq_refl)).
  by rewrite !saved_lookup.
Qed.

Lemma saveHash_absent r snap :
  rview r !! sessionKey (SessionID snap) = None -> codec_ok snap -> root_ok (ClaimedRootHash snap) ->
  known (State snap) = true ->
  exists r1, saveHash cfg false None snap r = (r1, None) /\ script_moves (SessionID snap) (Some snap) r r1.
Proof.
  intros Hn Hok Hroot Hk. unfold saveHash, multi_hset, r_type. rewrite Hn. simpl. eexists. split; [done|].
  exists (hash_set ∅ (encodeSnapshot snap)). unfold hash_step.
  rewrite view_hset by (try done; rewrite Hn; by left). rewrite Hn. split; [done|].
  pose proof (decode_encode snap Hok Hroot) as Hd. split; [|done]. split; [by exists snap|].
  unfold encodeSnapshot. rewrite hash_set_app. simpl.
  rewrite (lookup_insert_ne _ hfTotalComputeUnits hfRelayCount), !lookup_insert_eq by done.
  split; intros [= He]; by apply (format_int_nonempty _ He).
Qed.

Lemma saveHash_present r snap h p :
  rview r !! sessionKey (SessionID snap) = Some (RHash h) -> good h p -> storable snap -> codec_ok snap ->
  exists r1, saveHash cfg false (Some p) snap r = (r1, None) /\
    script_moves (SessionID snap) (Some (set_counters (RelayCount p) (TotalComputeUnits p) snap)) r r1.
Proof.
  intros Hr Hg Hst Hok. pose proof (saved_good h p snap Hg Hst Hok) as Hg'. pose proof Hg' as [_ Hd'].
  unfold saveHash, multi_hset. rewrite (r_type_hash _ _ h Hr).
  assert (encodeSnapshotMetadata snap <> []) as Hne by done.
  assert (rview (r_hset (sessionKey (SessionID snap)) (encodeSnapshotMetadata snap) r) =
    <[sessionKey (SessionID snap) := RHash (hash_set h (encodeSnapshotMetadata snap))]> (rview r)) as Hv1
    by (rewrite view_hset by (try done; rewrite Hr; by right); by rewrite Hr).
  destruct (staleFields snap) as [|f fs] eqn:Hs.
  - eexists. split; [done|]. apply rewritten_moves. exists (saved_hash h snap). split; [|done].
    unfold saved_hash. by rewrite Hs.
  - eexists. split; [done|]. apply rewritten_moves. exists (saved_hash h snap). split; [|done].
    rewrite view_hdel by (rewrite Hv1, lookup_insert_eq; by right). rewrite Hv1, lookup_insert_eq, <- Hs.
    cbn [hash_of]. fold (saved_hash h snap). unfold put_hash.
    rewrite decide_False by exact (decodeSnapshot_nonempty _ _ Hd'). by rewrite insert_insert_eq.
Qed.

Lemma same_saveIndexes snap old r :
  known (State snap) = true -> (forall st, old = Some st -> known st = true) -> indexes_ok r ->
  same_sessions r (saveIndexes cfg snap old r).
Proof.
  intros Hk Ho Hi. unfold saveIndexes. destruct old as [st|]; [specialize (Ho st eq_refl)|]; index_chain.
Qed.

Lemma save_spec io now s snap0 :
  redis_wf s -> redis_id (SessionID snap0) -> time_ok now -> storable snap0 -> io 0%nat = FNone ->
  snd (Save cfg io now s snap0) <> Err ErrStoreClosed ->
  redis_wf (fst (Save cfg io now s snap0)) /\
  writes_one (redis_view (rs_db s)) (redis_view (rs_db (fst (Save cfg io now s snap0)))) (SessionID snap0)
    (spec_save snap0 now) (snd (Save cfg io now s snap0)).
Proof.
  intros Hwf Hid Hnow Hst Hio Hcl. unfold Save in *. destruct (rs_closed s) eqn:Hc; [by destruct Hcl|]. clear Hcl.
  assert (storable (touch now snap0)) as Hst'.
  { destruct Hst as (? & ? & ? & ? & ?). split_and!; try done. simpl. by destruct (CreatedAt snap0 =? 0). }
  assert (codec_ok (touch now snap0)) as Hok by by apply touch_codec_ok.
  pose proof Hst' as (_ & Hroot & Hk & _).
  assert (exists s' legacy existing r1,
    spec_save snap0 now (redis_view (rs_db s) (SessionID snap0)) = Ok (s', tt) /\
    match Get cfg io (rs_db s) (SessionID snap0) with Ok o => o | Err _ => None end = existing /\
    match existing with
    | None => false
    | Some _ => match read_trip (io 2%nat) (r_type (rs_db s) (sessionKey (SessionID (touch now snap0)))) with
                | Ok TString => true | _ => false end
    end = legacy /\
    saveHash cfg legacy existing (touch now snap0) (rs_db s) = (r1, None) /\
    script_moves (SessionID snap0) (Some s') (rs_db s) r1 /\ (forall st, State <$> existing = Some st -> known st = true))
    as (s' & legacy & existing & r1 & Hsp & -> & -> & Hsave & Hmv & Hold).
  { rewrite redis_view_id by done. unfold Get, getHash. rewrite Hio. simpl. unfold r_type.
    destruct (wf_cases s _ Hwf Hid) as [[Hn ->]|(h & p & Hr & Hh & Hd & Hkp & ->)].
    - rewrite Hn. simpl. unfold decodeSnapshot. rewrite decide_True by done.
      destruct (saveHash_absent (rs_db s) (touch now snap0) Hn Hok Hroot Hk) as (r1 & Hs1 & Hm).
      exists (touch now snap0), false, None, r1. split_and!; try done.
    - rewrite Hr. simpl. rewrite Hd.
      destruct (saveHash_present (rs_db s) (touch now snap0) h p Hr (conj Hh Hd) Hst' Hok) as (r1 & Hs1 & Hm).
      exists (set_counters (RelayCount p) (TotalComputeUnits p) (touch now snap0)), false, (Some p), r1.
      split_and!; try done; [by destruct (io 2%nat)|]. by intros st [= <-]. }
  unfold savePipe. unfold round_trip. rewrite Hsave.
  set (r2 := saveIndexes cfg (touch now snap0) (State <$> existing) r1).
  assert (redis_wf (mkRStore false r1)) as Hw1.
  { apply (moves_wf false (SessionID snap0) (Some s') (rs_db s) r1 r1); [done..|]. by destruct s; simpl in Hc; subst. }
  assert (same_sessions r1 r2) as Hsame by (apply same_saveIndexes; [done..|apply Hw1]).
  assert (redis_wf (mkRStore false r2)) as Hw2 by by apply (same_wf false r1).
  assert (forall id', id' <> SessionID snap0 -> redis_view r2 id' = redis_view (rs_db s) id') as Hoth
    by (intros; by apply (moves_other (SessionID snap0) (Some s') (rs_db s) r1)).
  assert (redis_view r2 (SessionID snap0) = Some s') as Hself by by apply (moves_self (SessionID snap0) s' (rs_db s) r1).
  assert (redis_wf (mkRStore false (rs_db s))) as Hws by (destruct s; simpl in Hc; by subst).
  destruct (io 3%nat) as [| |[]]; simpl.
  - split; [done|]. split; [done|]. exists s'. by rewrite Hself.
  - split; [done|apply writes_one_io].
  - split; [done|]. split; [done|]. right. exists s', tt. by rewrite Hself.
  - split; [done|apply writes_one_io].
Qed.

(** ** The instance *)

#[export] Instance RedisStoreOps : SessionStore (RStore R) := {
  ss_view := fun _ s => redis_view (rs_db s);
  ss_wf := redis_wf;
  ss_id := redis_id;
  ss_get := fun io _ s id => Get cfg io (rs_db s) id;
  ss_by_supplier := fun io _ s => (s, GetBySupplier cfg io (rs_db s));
  ss_save := fun io now s snap => Save cfg io now s snap;
  ss_create := fun io now s snap => CreateIfAbsent cfg io now s snap;
  ss_update := fun io now s id st v => updateState cfg io now s id st v;
  ss_reactivate_claimed := fun io now s id root tx => ReactivateClaimed cfg io now s id root tx;
  ss_reactivate_proved := fun io now s id tx => ReactivateProved cfg io now s id tx;
  ss_units := fun cu => 0 <= cu <= 2 ^ 53;
  ss_increment := fun io now s id cu => IncrementRelayCount cfg io now s id cu
}.

#[export] Instance RedisStoreLaws : SessionStoreLaws (RStore R).
Proof.
  split; simpl; intros.
  - by eapply get_spec.
  - unfold Get, getHash, r_type. destruct (wf_cases s id) as [[Hn Hv]|(h & snap & Hr & Hh & Hd & Hk & Hv)];
      [done|done|..]; rewrite redis_view_id, Hv by done; simpl;
      [rewrite Hn|rewrite Hr]; simpl; [unfold decodeSnapshot; by rewrite decide_True|by rewrite Hd].
  - by left.
  - by apply updateState_answered.
  - by apply updateState_spec.
  - by apply increment_spec.
  - by apply reactivateClaimed_spec.
  - by apply reactivateProved_spec.
  - by apply create_spec.
  - by apply save_spec.
  - unfold Save, savePipe, saveHash, multi_hset in *. destruct (rs_closed s); [done|]. exfalso.
    destruct (io 3%nat) as [| |[]]; simpl in *; repeat case_match; simplify_eq.
Qed.
End Refines.

(** ** The contract *)

Section Claims.
Context {R : Type} `{RO : !RedisOps R} `{RL : !RedisLaws R}.
Context `{TC : !TimeCodec} `{TCL : !TimeCodecLaws} `{SJ : !SnapshotJson} `{LN : !LuaNumbers}.

End Claims.

Module RedisStoreExample.
Import Concrete.

Definition cfg : SessionStoreConfig := NewSessionStoreConfig (NewKeyBuilder "ha") "pokt1sup" 0.

(** A session is created, a relay counted, and claiming written with the
    answer lost. *)
Definition s1 := fst (CreateIfAbsent cfg io_ok 1 (mkRStore false (∅ : gmap string rval)) session_1).
Definition s2 := fst (IncrementRelayCount cfg io_ok 2 s1 "s1" 5).
Definition s3 := fst (updateState cfg (fun _ => FLost true) 3 s2 "s1" SessionStateClaiming "").

End RedisStoreExample.
