(* ===== verification/RedisRelayCommit.v ===== *)
(** * The Redis relay committer (miner/relay_commit_redis.go, miner/deduplicator.go)

    relayBatchScript, CommitSession and AckRejected over the Redis of
    RedisModel, the per-relay RedisDeduplicator, and the proof that the
    committer keeps the contract of RelayCommit. *)

From S2P Require Import Prelude SessionState KeyBuilder StoreSpec RelayCommit Concrete RedisModel RedisSessionStore RedisStoreRefines.
From Stdlib Require Import Ascii String.

Local Open Scope string_scope.
Local Open Scope Z_scope.

(** What the committer is built from: the session store's configuration, the
    consumer group and the dedup TTL in seconds. *)
Record CommitterConfig := mkCommitter {
  cc_store : SessionStoreConfig;
  cc_group : string;
  cc_dedupTTL : Z
}.

(** XACKDEL is sent for at most this many entries a call. *)
Definition ackChunk : nat := 1000.

Definition MaxExactInteger : Z := 9007199254740991.

Inductive batch_err :=
| BeLegacy
| BeRefused
| BeOther.

Section Committer.
Context {R : Type} `{RO : !RedisOps R} `{TC : !TimeCodec} `{SJ : !SnapshotJson}.
Variable cc : CommitterConfig.

Definition dedupSessionKey (sessionID : string) : string := MinerDedupSessionKey (cfg_kb (cc_store cc)) sessionID.
Definition streamName : string := StreamKey (cfg_kb (cc_store cc)) (SupplierAddress (cc_store cc)).

(** ** The per-relay deduplicator *)

Definition RIsDuplicate (io : Io) (r : R) (relayHash sessionID : string) : result bool StoreErr :=
  match read_trip (io 0%nat) (bool_decide (relayHash ∈ set_of (rview r !! dedupSessionKey sessionID))) with
  | Ok b => Ok b
  | Err e => Err (ErrIo e)
  end.

Definition RMarkProcessed (io : Io) (r : R) (relayHash sessionID : string) : R * result bool StoreErr :=
  let pipe r :=
    let '(r1, added) := r_sadd (dedupSessionKey sessionID) relayHash r in
    (r_expire (dedupSessionKey sessionID) (cc_dedupTTL cc) r1, added =? 1) in
  let '(r', a) := round_trip (io 0%nat) pipe r in
  (r', match a with Ok b => Ok b | Err e => Err (ErrIo e) end).

Definition RCleanupSession (io : Io) (r : R) (sessionID : string) : R * result unit StoreErr :=
  let '(r', a) := round_trip (io 0%nat) (fun r => (r_del (dedupSessionKey sessionID) r, tt)) r in
  (r', match a with Ok _ => Ok tt | Err e => Err (ErrIo e) end).

(** ** relayBatchScript *)

(** The SADD loop: how many members were new, their compute units, and which
    relays were marked before. *)
Fixpoint saddLoop (key : string) (relays : list batchedRelay) (r : R) : R * Z * Z * list bool :=
  match relays with
  | [] => (r, 0, 0, [])
  | x :: l =>
      let '(r1, added) := r_sadd key (br_hash x) r in
      let '(r2, n, cu, before) := saddLoop key l r1 in
      if added =? 1 then (r2, n + 1, cu + br_computeUnits x, false :: before)
      else (r2, n, cu, true :: before)
  end.

(** Fresh duplicates of one XACKDEL's answers. *)
Fixpoint countFresh (acked : list Z) (before : list bool) : Z :=
  match acked, before with
  | a :: acked', b :: before' => (if (a =? 1) && b then 1 else 0) + countFresh acked' before'
  | _, _ => 0
  end.

(** The XACKDEL loop, a thousand IDs a call. Each call takes at least one
    relay, so as many calls as relays are enough. *)
Fixpoint ackLoop (fuel : nat) (relays : list batchedRelay) (before : list bool) (r : R) : R * Z :=
  match fuel, relays with
  | S fuel', _ :: _ =>
      let '(r1, acked) := r_xackdel streamName (cc_group cc) (map br_id (take ackChunk relays)) r in
      let '(r2, n) := ackLoop fuel' (drop ackChunk relays) (drop ackChunk before) r1 in
      (r2, countFresh acked before + n)
  | _, _ => (r, 0)
  end.

(** The counters part: the status, and what HINCRBY refused. *)
Definition batchCount (key now : string) (ktype : rtype) (n cu : Z) (r : R) : R * result Z batch_err :=
  match ktype with
  | TNone => (r, Ok 1)
  | _ =>
      if lua_is_terminal (default "" (r_hget r key hfState)) then (r, Ok 2)
      else if 0 <? n then
        match r_hincrby key hfRelayCount n r with
        | None => (r, Err BeOther)
        | Some r1 =>
            match r_hincrby key hfTotalComputeUnits cu r1 with
            | None => (r1, Err BeOther)
            | Some r2 => (r_expire key (SessionTTL (cc_store cc)) (r_hset key [(hfLastUpdatedAt, now)] r2), Ok 0)
            end
        end
      else (r, Ok 0)
  end.

Definition relayBatchScript (sessionID now : string) (relays : list batchedRelay) (r : R)
  : R * result relayBatchResult batch_err :=
  let key := sessionKey (cc_store cc) sessionID in
  let dedup := dedupSessionKey sessionID in
  if Nat.ltb (List.length relays) 1 then (r, Err BeRefused)
  else if existsb (fun x => br_computeUnits x <? 0) relays then (r, Err BeRefused)
  else if MaxExactInteger <? sum_cu relays then (r, Err BeRefused)
  else match r_type r key with
  | TString | TSet | TStream => (r, Err BeLegacy)
  | ktype =>
      match r_type r streamName with
      | TString | TSet | THash => (r, Err BeRefused)
      | _ =>
          match r_type r dedup with
          | TString | THash | TStream => (r, Err BeOther)
          | _ =>
              let '(r1, n, cu, before) := saddLoop dedup relays r in
              let r2 := r_expire dedup (cc_dedupTTL cc) r1 in
              match batchCount key now ktype n cu r2 with
              | (r3, Err e) => (r3, Err e)
              | (r3, Ok status) =>
                  let '(r4, fresh) := ackLoop (List.length relays) relays before r3 in
                  (r4, Ok (mkBatchResult status n cu fresh))
              end
          end
      end
  end.

(** ** CommitSession and AckRejected *)

Definition CommitSession (io : Io) (now : Z) (s : RStore R) (sessionID : string) (relays : list batchedRelay)
  : RStore R * result relayBatchResult CommitErr :=
  let script := relayBatchScript sessionID (format_time now) relays in
  let answer a := match a with
    | Err _ => Err CUnknown
    | Ok (Ok res) => Ok res
    | Ok (Err (BeLegacy | BeRefused)) => Err CRefused
    | Ok (Err BeOther) => Err CUnknown
    end in
  let '(r1, a) := round_trip (io 0%nat) script (rs_db s) in
  let s1 := mkRStore (rs_closed s) r1 in
  match a with
  | Ok (Err BeLegacy) =>
      match migrateLegacyKey (cc_store cc) (io_after 1 io) now s1 sessionID with
      | (s2, Err _) => (s2, Err CRefused)
      | (s2, Ok _) =>
          let '(r3, a3) := round_trip (io 6%nat) script (rs_db s2) in
          (mkRStore (rs_closed s2) r3, answer a3)
      end
  | _ => (s1, answer a)
  end.

Definition AckRejected (io : Io) (s : RStore R) (ids : list string) : RStore R * result unit StoreErr :=
  let '(r', a) := round_trip (io 0%nat) (r_xackdel streamName (cc_group cc) ids) (rs_db s) in
  (mkRStore (rs_closed s) r', match a with Ok _ => Ok tt | Err e => Err (ErrIo e) end).
End Committer.

(** ** The committer keeps the contract *)

Section Laws.
Context {R : Type} `{RO : !RedisOps R} `{RL : !RedisLaws R}.
Context `{TC : !TimeCodec} `{TCL : !TimeCodecLaws} `{SJ : !SnapshotJson}.
Variable cc : CommitterConfig.
Abbreviation cfg := (cc_store cc).
Hypothesis Hkb : no_colon (cfg_kb cfg).
Hypothesis Hsup : no_colon (SupplierAddress cfg).
Hypothesis Httl : 0 < SessionTTL cfg.
Hypothesis Hdttl : 0 < cc_dedupTTL cc.

(** *** Keys *)

Lemma dedup_ne_session id id' : redis_id id -> redis_id id' -> dedupSessionKey cc id <> sessionKey cfg id'.
Proof. intros [? ?] [? ?]. by apply (render_ne (cfg_kb cfg) (KMinerDedup id) (KMinerSession _ id')). Qed.

Lemma stream_ne_session id : redis_id id -> streamName cc <> sessionKey cfg id.
Proof. intros [? ?]. by apply (render_ne (cfg_kb cfg) (KStream _) (KMinerSession _ id)). Qed.

Lemma dedup_ne_stream id : redis_id id -> dedupSessionKey cc id <> streamName cc.
Proof. intros [? ?]. by apply (render_ne (cfg_kb cfg) (KMinerDedup id) (KStream _)). Qed.

Lemma dedup_inj id id' : redis_id id -> redis_id id' -> dedupSessionKey cc id = dedupSessionKey cc id' -> id = id'.
Proof.
  intros [? ?] [? ?] He. apply (render_inj (cfg_kb cfg) (cfg_kb cfg) (KMinerDedup id) (KMinerDedup id')) in He as [_ He]; try done.
  by injection He.
Qed.

Lemma dedup_ne_index id k : redis_id id -> index_key cfg k -> k <> dedupSessionKey cc id.
Proof.
  intros [? ?] [->|(st & Hst & ->)].
  - by apply (render_ne (cfg_kb cfg) (KMinerSessionsIndex _) (KMinerDedup id)).
  - apply (render_ne (cfg_kb cfg) (KMinerSessionState _ _) (KMinerDedup id)); try done.
    split; [done|]. by apply known_no_colon.
Qed.

Lemma stream_ne_index k : index_key cfg k -> k <> streamName cc.
Proof.
  intros [->|(st & Hst & ->)].
  - by apply (render_ne (cfg_kb cfg) (KMinerSessionsIndex _) (KStream _)).
  - apply (render_ne (cfg_kb cfg) (KMinerSessionState _ _) (KStream _)); try done.
    split; [done|]. by apply known_no_colon.
Qed.

(** *** The SADD loop is [split_new] *)

Definition in_set (m : gset string) : string -> bool := fun h => bool_decide (h ∈ m).

Definition hashes (l : list batchedRelay) : gset string := list_to_set (map br_hash l).

Lemma saddLoop_spec key l r r' n cu before :
  takes_set (rview r !! key) -> saddLoop key l r = (r', n, cu, before) ->
  let '(new, dups) := split_new (in_set (set_of (rview r !! key))) l in
  n = Z.of_nat (List.length new) /\ cu = sum_cu new /\
  takes_set (rview r' !! key) /\
  (forall k, k <> key -> rview r' !! k = rview r !! k) /\
  set_of (rview r' !! key) = hashes l ∪ set_of (rview r !! key) /\
  forall ent : string -> bool,
    countFresh (map (fun x => if ent (br_id x) then 1 else -1) l) before
    = Z.of_nat (List.length (List.filter (fun x => ent (br_id x)) dups)).
Proof.
  revert r r' n cu before. induction l as [|x l IH]; intros r r' n cu before Ht Hl; simpl in *.
  { simplify_eq. split_and!; try done. unfold hashes. simpl. set_solver. }
  destruct (r_sadd key (br_hash x) r) as [r1 added] eqn:Hadd.
  destruct (saddLoop key l r1) as [[[r2 n2] cu2] b2] eqn:Hrest.
  pose proof (view_sadd r key (br_hash x) Ht) as Hv. pose proof (reply_sadd r key (br_hash x) Ht) as Hrep.
  rewrite Hadd in Hv, Hrep. simpl in Hv, Hrep.
  specialize (IH r1 r2 n2 cu2 b2). rewrite Hv, lookup_insert_eq in IH. specialize (IH ltac:(by right) Hrest).
  change (set_of (Some (RSet ?a))) with a in IH.
  assert (in_set (set_of (rview r !! key)) (br_hash x) = negb (added =? 1)) as Hin.
  { unfold in_set. rewrite Hrep. case_bool_decide; case_decide; done. }
  assert (split_new (in_set ({[br_hash x]} ∪ set_of (rview r !! key))) l =
          split_new (if added =? 1 then add_mark (br_hash x) (in_set (set_of (rview r !! key)))
                     else in_set (set_of (rview r !! key))) l) as Hsp.
  { apply split_new_ext. intros h. unfold in_set, add_mark. rewrite Hrep.
    destruct (decide (br_hash x ∈ _)) as [Hx|Hx]; simpl.
    - apply bool_decide_ext. set_solver.
    - destruct (String.eqb_spec h (br_hash x)) as [->|Hne]; simpl; [apply bool_decide_true; set_solver|].
      apply bool_decide_ext. set_solver. }
  rewrite Hin, Hsp in *. clear Hsp Hin.
  assert (forall k, k <> key -> rview r1 !! k = rview r !! k) as Hother.
  { intros k Hk. by rewrite Hv, lookup_insert_ne. }
  destruct (added =? 1) eqn:Ha; simpl in *; simplify_eq; destruct (split_new _ l) as [new dups];
    destruct IH as (-> & -> & Ht' & Hk & Hs & Hf); cbn [List.length sum_cu foldr].
  - split_and!; [lia|unfold sum_cu; simpl; lia|done| | |].
    + intros k Hne. by rewrite Hk, lookup_insert_ne.
    + rewrite Hs. unfold hashes. simpl. set_solver.
    + intros ent. rewrite andb_false_r, Z.add_0_l. apply Hf.
  - split_and!; [done|done|done| | |].
    + intros k Hne. by rewrite Hk, lookup_insert_ne.
    + rewrite Hs. unfold hashes. simpl. set_solver.
    + intros ent. rewrite andb_true_r. simpl. rewrite Hf. destruct (ent (br_id x)); simpl; lia.
Qed.

(** *** The XACKDEL loop *)

Lemma xack_replies_nodup ids l :
  NoDup l -> xack_replies ids l = map (fun id => if decide (id ∈ ids) then 1 else -1) l.
Proof.
  revert ids. induction l as [|id l IH]; intros ids Hd; simpl; [done|]. apply NoDup_cons in Hd as [Hn Hd].
  f_equal. rewrite IH by done. apply map_ext_in. intros id' Hin. apply list_elem_of_In in Hin.
  assert (id' <> id) by (intros ->; done). apply decide_ext. set_solver.
Qed.

Lemma countFresh_app a b before :
  countFresh (a ++ b)%list before = countFresh a before + countFresh b (drop (List.length a) before).
Proof.
  revert before. induction a as [|x a IH]; intros before; [done|]. destruct before as [|y before]; simpl.
  - by destruct b.
  - rewrite IH. lia.
Qed.

Lemma countFresh_nil a : countFresh a [] = 0.
Proof. by destruct a. Qed.

Lemma ackChunk_pos : (0 < ackChunk)%nat.
Proof. apply Nat.lt_0_succ. Qed.
#[local] Opaque ackChunk.

Definition ids_of (l : list batchedRelay) : gset string := list_to_set (map br_id l).

Lemma ackLoop_spec fuel relays before r r' n :
  takes_stream (rview r !! streamName cc) -> NoDup (map br_id relays) -> (List.length relays <= fuel)%nat ->
  ackLoop cc fuel relays before r = (r', n) ->
  (forall k, k <> streamName cc -> rview r' !! k = rview r !! k) /\
  takes_stream (rview r' !! streamName cc) /\
  stream_of (rview r' !! streamName cc) = stream_of (rview r !! streamName cc) ∖ ids_of relays /\
  n = countFresh (map (fun x => if decide (br_id x ∈ stream_of (rview r !! streamName cc)) then 1 else -1) relays) before.
Proof.
  revert relays before r n. induction fuel as [|fuel IH]; intros relays before r n Ht Hd Hf Hl.
  { destruct relays; [|simpl in Hf; lia]. simpl in Hl. simplify_eq. split_and!; try done.
    unfold ids_of. simpl. by rewrite difference_empty_L. }
  destruct relays as [|x relays].
  { simpl in Hl. simplify_eq. split_and!; try done. unfold ids_of. simpl. by rewrite difference_empty_L. }
  set (all := x :: relays) in *.
  change (ackLoop cc (S fuel) all before r) with
    (let '(r1, acked) := r_xackdel (streamName cc) (cc_group cc) (map br_id (take ackChunk all)) r in
     let '(r2, n) := ackLoop cc fuel (drop ackChunk all) (drop ackChunk before) r1 in (r2, countFresh acked before + n)) in Hl.
  pose proof (view_xackdel r (streamName cc) (cc_group cc) (map br_id (take ackChunk all)) Ht) as Hv.
  pose proof (reply_xackdel r (streamName cc) (cc_group cc) (map br_id (take ackChunk all)) Ht) as Hrep.
  destruct (r_xackdel _ _ _ _) as [r1 acked]. cbn [fst snd] in Hv, Hrep.
  assert (map br_id all = (map br_id (take ackChunk all) ++ map br_id (drop ackChunk all))%list) as Hsplit.
  { rewrite <- map_app. by rewrite take_drop. }
  pose proof Hd as Hd'. rewrite Hsplit in Hd'. apply NoDup_app in Hd' as (Hd1 & Hdis & Hd2).
  rewrite xack_replies_nodup in Hrep by done.
  set (old := stream_of (rview r !! streamName cc)) in *.
  assert ((forall k, k <> streamName cc -> rview r1 !! k = rview r !! k) /\ takes_stream (rview r1 !! streamName cc) /\
    stream_of (rview r1 !! streamName cc) = old ∖ ids_of (take ackChunk all)) as (Hk1 & Ht1 & Hs1).
  { rewrite Hv. destruct (rview r !! streamName cc) as [v|] eqn:E.
    - split_and!; [intros k Hk; by rewrite lookup_insert_ne|rewrite lookup_insert_eq; by right|].
      rewrite lookup_insert_eq. done.
    - rewrite E. split_and!; [done|by left|]. unfold old. simpl. clear. set_solver. }
  destruct (ackLoop cc fuel (drop ackChunk all) (drop ackChunk before) r1) as [r2 n2] eqn:Hrest. simplify_eq.
  destruct (IH _ _ _ _ Ht1 Hd2 ltac:(rewrite length_drop; pose proof ackChunk_pos; unfold all in *; cbn [List.length] in *; lia) Hrest) as (Hk2 & Ht2 & Hs2 & ->).
  split_and!; [intros k Hk; by rewrite Hk2, Hk1|done| |].
  - rewrite Hs2, Hs1. unfold ids_of. rewrite Hsplit, list_to_set_app_L. by rewrite difference_difference_l_L.
  - rewrite <- (take_drop ackChunk all) at 3. rewrite map_app, countFresh_app. f_equal; [by rewrite map_map|].
    rewrite length_map, Hs1, length_take.
    transitivity (countFresh (map (fun x => if decide (br_id x ∈ old) then 1 else -1) (drop ackChunk all)) (drop ackChunk before)).
    + f_equal. apply map_ext_in. intros y Hy. apply decide_ext. apply list_elem_of_In in Hy.
      assert (br_id y ∉ ids_of (take ackChunk all)) as Hno; [|clear -Hno; set_solver].
      unfold ids_of. rewrite elem_of_list_to_set. intros Hin. apply (Hdis _ Hin).
      apply list_elem_of_In, in_map, list_elem_of_In. done.
    + destruct (Nat.le_gt_cases ackChunk (List.length all)) as [Hle|Hgt].
      * by rewrite Nat.min_l.
      * by rewrite (drop_ge all) by lia.
Qed.
(** *** The counters *)

Lemma batchCount_spec c id now n cu r ktype :
  redis_wf cfg (mkRStore c r) -> redis_id id -> time_ok now -> 0 <= n -> 0 <= cu ->
  match redis_view cfg r id with
  | Some s => RelayCount s + n <= int64_max /\ TotalComputeUnits s + cu <= int64_max
  | None => True
  end ->
  ktype = r_type r (sessionKey cfg id) ->
  exists r3, batchCount cc (sessionKey cfg id) (format_time now) ktype n cu r
               = (r3, Ok (commit_status (redis_view cfg r id))) /\
    script_moves cfg id (count_relays now n cu (redis_view cfg r id)) r r3.
Proof.
  intros Hwf Hid Hnow Hn Hcu Hfit ->. rewrite redis_view_id in * by done. unfold batchCount.
  destruct (wf_cases cfg _ id Hwf Hid) as [[Hnone Hv]|(h & snap & Hr & Hh & Hd & Hk & Hv)]; simpl in *; rewrite Hv in *.
  { exists r. unfold r_type. by rewrite Hnone. }
  rewrite (r_type_hash _ _ h Hr), (r_hget_fget _ _ _ h Hr), (hfState_fget h snap) by done.
  rewrite lua_is_terminal_twin by auto with miner. simpl.
  pose proof (rewritten_refl _ _ _ _ Hr (conj Hh Hd)) as Hrw.
  destruct (IsTerminal (State snap)); simpl; [exists r; split; [done|]; by apply rewritten_moves|].
  destruct (0 <? n) eqn:Hpos; [|exists r; split; [done|]; by apply rewritten_moves].
  pose proof (decode_snap_ok h snap Hd) as (_ & _ & [Hlo _] & [Hu _] & _). destruct Hfit as [Hc1 Hc2].
  destruct (rewritten_hincrby (sessionKey cfg id) r r snap
    (set_counters (RelayCount snap + n) (TotalComputeUnits snap) snap) hfRelayCount n (RelayCount snap) Hrw)
    as (r1 & -> & Hr1); [unfold in_int64, int64_min, int64_max in *; lia| |].
  { intros h0 Hg. split; [by apply good_count|]. apply good_set_count; [|done].
    unfold in_int64, int64_min, int64_max in *; lia. }
  destruct (rewritten_hincrby (sessionKey cfg id) r r1 _
    (set_counters (RelayCount snap + n) (TotalComputeUnits snap + cu) snap) hfTotalComputeUnits cu (TotalComputeUnits snap) Hr1)
    as (r2 & -> & Hr2); [unfold in_int64, int64_min, int64_max in *; lia| |].
  { intros h0 Hg. split; [apply (good_cu h0 _ Hg); simpl; unfold int64_max in *; lia|].
    apply (good_set_cu _ _ (TotalComputeUnits snap + cu)) in Hg; [done|].
    unfold in_uint64, uint64_max, int64_max in *; lia. }
  eexists. split; [done|]. apply rewritten_moves, rewritten_expire; [done|].
  eapply rewritten_hset; [done| |exact Hr2]. intros h0 Hg. by apply good_updated.
Qed.

(** *** The view of a commit *)

Definition redis_commit_view (r : R) (id : string) : CommitView :=
  mkView (in_set (set_of (rview r !! dedupSessionKey cc id))) (redis_view cfg r id)
         (in_set (stream_of (rview r !! streamName cc))).

Definition queues_ok (r : R) : Prop :=
  (forall id, redis_id id -> takes_set (rview r !! dedupSessionKey cc id)) /\ takes_stream (rview r !! streamName cc).

Definition redis_commit_ok (s : RStore R) : Prop := redis_wf cfg s /\ queues_ok (rs_db s).

(** A store that differs at most in one key that is no session and no index. *)
Lemma same_sessions_but k r r' :
  (forall k', k' <> k -> rview r' !! k' = rview r !! k') ->
  (forall id, redis_id id -> k <> sessionKey cfg id) -> (forall k', index_key cfg k' -> k' <> k) ->
  same_sessions cfg r r'.
Proof.
  intros H Hs Hi. split.
  - intros id Hid. apply H. intros He. by apply (Hs id).
  - intros Hok k' Hk'. rewrite H by by apply Hi. by apply Hok.
Qed.

Lemma sum_cu_nonneg l : existsb (fun x => br_computeUnits x <? 0) l = false -> 0 <= sum_cu l.
Proof.
  induction l as [|x l IH]; simpl; [done|]. intros [H1 H2]%orb_false_iff. apply Z.ltb_ge in H1.
  specialize (IH H2). lia.
Qed.

Lemma sum_cu_new m l : existsb (fun x => br_computeUnits x <? 0) l = false ->
  0 <= sum_cu (fst (split_new m l)) <= sum_cu l.
Proof.
  revert m. induction l as [|x l IH]; intros m; simpl; [done|]. intros [H1 H2]%orb_false_iff. apply Z.ltb_ge in H1.
  destruct (m (br_hash x)).
  - specialize (IH m H2). destruct (split_new m l). simpl in *. lia.
  - specialize (IH (add_mark (br_hash x) m) H2). destruct (split_new _ l). simpl in *. lia.
Qed.

Lemma in_set_union_hashes l m h : in_set (hashes l ∪ m) h = has_hash l h || in_set m h.
Proof.
  unfold in_set. apply eq_true_iff_eq. rewrite bool_decide_eq_true, orb_true_iff, bool_decide_eq_true, elem_of_union.
  unfold hashes, has_hash. rewrite elem_of_list_to_set, existsb_exists, list_elem_of_In, in_map_iff.
  split; intros [Hx|Hx]; auto; left; destruct Hx as (x & H1 & H2); exists x.
  - subst. by rewrite String.eqb_refl.
  - apply String.eqb_eq in H2. done.
Qed.

Lemma in_set_minus_ids l m i : in_set (m ∖ ids_of l) i = negb (has_id l i) && in_set m i.
Proof.
  unfold in_set. apply eq_true_iff_eq. rewrite andb_true_iff, negb_true_iff, !bool_decide_eq_true, elem_of_difference.
  unfold ids_of, has_id. rewrite elem_of_list_to_set, <- not_true_iff_false, existsb_exists, list_elem_of_In, in_map_iff.
  split; intros [H1 H2]; (split; [|done]) || (split; [done|]); intros (x & H3 & H4).
  - apply H2. exists x. apply String.eqb_eq in H4. done.
  - apply H1. exists x. split; [done|]. by apply String.eqb_eq.
Qed.
Definition batch_done (c : bool) (now : Z) (id : string) (relays : list batchedRelay) (r r' : R) : Prop :=
  redis_commit_ok (mkRStore c r') /\
  redis_commit_view r' id ≡ spec_commit now relays (redis_commit_view r id) /\
  forall id', id' <> id -> redis_id id' ->
    (forall h, cv_marks (redis_commit_view r' id') h = cv_marks (redis_commit_view r id') h) /\
    cv_session (redis_commit_view r' id') ≡ cv_session (redis_commit_view r id').

(** What the three writes of the script leave of the keys. *)
Lemma batch_steps c id now relays r r1 r2 r3 r4 o :
  redis_commit_ok (mkRStore c r) -> redis_id id ->
  (forall k, k <> dedupSessionKey cc id -> rview r1 !! k = rview r !! k) ->
  takes_set (rview r1 !! dedupSessionKey cc id) ->
  set_of (rview r1 !! dedupSessionKey cc id) = hashes relays ∪ set_of (rview r !! dedupSessionKey cc id) ->
  r2 = r_expire (dedupSessionKey cc id) (cc_dedupTTL cc) r1 ->
  o = cv_session (spec_commit now relays (redis_commit_view r id)) -> script_moves cfg id o r2 r3 ->
  (o = None -> redis_view cfg r2 id = None) ->
  (forall k, k <> streamName cc -> rview r4 !! k = rview r3 !! k) ->
  takes_stream (rview r4 !! streamName cc) ->
  stream_of (rview r4 !! streamName cc) = stream_of (rview r3 !! streamName cc) ∖ ids_of relays ->
  batch_done c now id relays r r4.
Proof.
  intros [Hwf [Hqd Hqs]] Hid Hk1 Ht1 Hs1 -> Ho Hm Hnone Hk4 Ht4 Hs4. set (r2 := r_expire _ _ r1) in *.
  assert (rview r2 = rview r1) as Hv2 by by apply view_expire.
  assert (same_sessions cfg r r2) as Hsame2.
  { apply (same_sessions_but (dedupSessionKey cc id)).
    - intros k Hk. rewrite Hv2. by apply Hk1.
    - intros id' Hid'. by apply dedup_ne_session.
    - intros k Hk. by apply dedup_ne_index. }
  assert (same_sessions cfg r3 r4) as Hsame4.
  { apply (same_sessions_but (streamName cc)); [done|..].
    - intros id' Hid'. by apply stream_ne_session.
    - intros k Hk. by apply stream_ne_index. }
  assert (forall k, (forall id', redis_id id' -> k <> sessionKey cfg id') -> rview r3 !! k = rview r2 !! k) as Hk3.
  { intros k Hk. destruct o as [s'|]; [|by rewrite Hm]. destruct Hm as (h' & Hst & _).
    rewrite Hst. apply lookup_insert_ne. intros He. by apply (Hk id). }
  assert (forall id', redis_id id' -> rview r4 !! dedupSessionKey cc id' = rview r1 !! dedupSessionKey cc id') as Hd4.
  { intros id' Hid'. rewrite Hk4 by by apply dedup_ne_stream.
    rewrite Hk3 by (intros; by apply dedup_ne_session). by rewrite Hv2. }
  assert (rview r3 !! streamName cc = rview r !! streamName cc) as Hst3.
  { rewrite Hk3 by (intros; by apply stream_ne_session). rewrite Hv2. apply Hk1. intros He. by apply (dedup_ne_stream id). }
  assert (redis_wf cfg (mkRStore c r4)) as Hwf4.
  { eapply (moves_wf cfg Hkb Hsup); [exact Hid|exact Hm|exact Hsame4|]. by apply (same_wf cfg c r). }
  split_and!.
  - split; [done|]. split; [|done]. intros id' Hid'. simpl. rewrite Hd4 by done.
    destruct (decide (dedupSessionKey cc id' = dedupSessionKey cc id)) as [->|Hne]; [done|].
    rewrite Hk1 by done. by apply Hqd.
  - rewrite Hst3 in Hs4. split_and!.
    + intros h. unfold spec_commit. destruct (split_new _ _). simpl. rewrite Hd4, Hs1 by done. apply in_set_union_hashes.
    + cbn [redis_commit_view cv_session]. rewrite <- Ho. destruct o as [s'|].
      * by rewrite (moves_self cfg id s' r2 r3).
      * rewrite redis_view_id by done. rewrite (same_view cfg r3 r4) by done. simpl in Hm. subst r3.
        rewrite <- (redis_view_id cfg) by done. by rewrite Hnone.
    + intros i. unfold spec_commit. destruct (split_new _ _). simpl. rewrite Hs4. apply in_set_minus_ids.
  - intros id' Hne Hid'. simpl. split.
    + intros h. rewrite Hd4 by done. rewrite Hk1; [done|]. intros He. by apply dedup_inj in He.
    + rewrite (moves_other cfg Hkb Hsup id o r2 r3) by done. unfold redis_view. case_decide; [|done].
      by rewrite (same_view cfg r r2).
Qed.

Lemma script_commits c id now relays r :
  redis_commit_ok (mkRStore c r) -> redis_id id -> time_ok now -> NoDup (map br_id relays) ->
  batch_fits relays (cv_session (redis_commit_view r id)) ->
  let out := relayBatchScript cc id (format_time now) relays r in
  out = (r, Err BeRefused) \/
  exists r', out = (r', Ok (spec_result relays (redis_commit_view r id))) /\ batch_done c now id relays r r'.
Proof.
  intros Hok Hid Hnow Hnd Hfit out. subst out. unfold relayBatchScript.
  destruct (Nat.ltb _ 1); [by left|]. destruct (existsb _ relays) eqn:Hneg; [by left|].
  destruct (MaxExactInteger <? sum_cu relays); [by left|]. right.
  pose proof Hok as [Hwf [Hqd Hqs]]. simpl in Hqd, Hqs.
  assert (r_type r (sessionKey cfg id) = TNone \/ r_type r (sessionKey cfg id) = THash) as Hkt.
  { unfold r_type. destruct (wf_cases cfg _ id Hwf Hid) as [[Hn _]|(h & snap & Hr & _)]; simpl in *.
    - rewrite Hn. by left.
    - rewrite Hr. by right. }
  assert (forall A (x y : A), match r_type r (streamName cc) with TString | TSet | THash => x | _ => y end = y) as Hst.
  { intros. unfold r_type. by destruct Hqs as [-> | ->]. }
  assert (forall A (x y : A), match r_type r (dedupSessionKey cc id) with TString | THash | TStream => x | _ => y end = y) as Hdt.
  { intros. unfold r_type. by destruct (Hqd id Hid) as [-> | ->]. }
  destruct (saddLoop (dedupSessionKey cc id) relays r) as [[[r1 n] cu] before] eqn:Hsadd.
  pose proof (saddLoop_spec _ _ _ _ _ _ _ (Hqd id Hid) Hsadd) as Hspec.
  pose proof (sum_cu_new (in_set (set_of (rview r !! dedupSessionKey cc id))) relays Hneg) as Hsum.
  pose proof (split_new_count (in_set (set_of (rview r !! dedupSessionKey cc id))) relays) as Hcnt.
  set (spl := split_new _ relays) in *. destruct spl as [new dups] eqn:Espl. simpl in Hsum.
  destruct Hspec as (-> & -> & Ht1 & Hk1 & Hs1 & Hfresh). destruct Hcnt as (_ & _ & Hlen).
  set (r2 := r_expire (dedupSessionKey cc id) (cc_dedupTTL cc) r1).
  assert (same_sessions cfg r r2) as Hsame.
  { apply (same_sessions_but (dedupSessionKey cc id)).
    - intros k Hk. unfold r2. rewrite view_expire by done. by apply Hk1.
    - intros id' Hid'. by apply dedup_ne_session.
    - intros k Hk. by apply dedup_ne_index. }
  assert (redis_view cfg r2 id = redis_view cfg r id) as Hrv.
  { rewrite !redis_view_id by done. by apply same_view. }
  destruct (batchCount_spec c id now (Z.of_nat (List.length new)) (sum_cu new) r2 (r_type r (sessionKey cfg id)))
    as (r3 & Hbc & Hm); [by apply (same_wf cfg c r)|done|done|lia|lia| | |].
  { rewrite Hrv. simpl in Hfit. destruct (redis_view cfg r id); [|done]. simpl in Hfit. lia. }
  { unfold r_type. destruct Hsame as [Hs _]. by rewrite Hs. }
  rewrite Hrv in Hbc, Hm.
  destruct (ackLoop cc (List.length relays) relays before r3) as [r4 fresh] eqn:Hack.
  assert (rview r3 !! streamName cc = rview r !! streamName cc) as Hst3.
  { transitivity (rview r2 !! streamName cc).
    - destruct (count_relays _ _ _ _) as [s'|]; [|by rewrite Hm]. destruct Hm as (h' & Hstep & _).
      rewrite Hstep. apply lookup_insert_ne. intros He. by apply (stream_ne_session id).
    - unfold r2. rewrite view_expire by done. apply Hk1. intros He. by apply (dedup_ne_stream id). }
  destruct (ackLoop_spec (List.length relays) relays before r3 r4 fresh) as (Hk4 & Ht4 & Hs4 & Hfr);
    [by rewrite Hst3|done|done|done|].
  exists r4. split.
  - assert (fresh = Z.of_nat (List.length (List.filter (fun x => cv_entries (redis_commit_view r id) (br_id x)) dups))) as Hfq.
    { rewrite Hfr, <- Hfresh. f_equal. apply map_ext. intros x. simpl. unfold in_set. rewrite Hst3.
      by case_bool_decide; case_decide. }
    unfold spec_result. change (split_new (cv_marks (redis_commit_view r id)) relays) with spl.
    rewrite Espl, <- Hfq. change (cv_session (redis_commit_view r id)) with (redis_view cfg r id).
    destruct Hkt as [E|E]; rewrite E in Hbc |- *; rewrite Hst, Hdt; cbv zeta; fold r2; by rewrite Hbc, Hack.
  - eapply (batch_steps c id now relays r r1 r2 r3 r4); try done.
    + unfold spec_commit. change (split_new (cv_marks (redis_commit_view r id)) relays) with spl.
      rewrite Espl. exact Hm.
    + unfold spec_commit. change (split_new (cv_marks (redis_commit_view r id)) relays) with spl.
      rewrite Espl. simpl. rewrite Hrv.
      destruct (redis_view cfg r id); simpl; [|done]. by destruct (_ && _).
Qed.

(** *** What the script leaves of the deadlines *)

Section Deadlines.
Context `{RC : !RedisClock R} `{RCL : !RedisClockLaws R}.

(** The clock and all keys but one, with their deadlines, are as they were. *)
Definition clock_but (k : string) (r r' : R) : Prop :=
  r_now r' = r_now r /\ forall k', k' <> k -> rview r' !! k' = rview r !! k' /\ r_deadline r' k' = r_deadline r k'.

Lemma clock_but_trans k r1 r2 r3 : clock_but k r1 r2 -> clock_but k r2 r3 -> clock_but k r1 r3.
Proof. intros [H1 H2] [H3 H4]. split; [congruence|]. intros k' Hk. destruct (H2 k' Hk), (H4 k' Hk). split; congruence. Qed.
Lemma clock_ran k r r' : ran k r r' -> clock_but k r r'.
Proof. intros Hr. split; [by eapply ran_now|]. intros. by eapply ran_other. Qed.
Lemma clock_expire k ttl r : 0 < ttl -> clock_but k r (r_expire k ttl r).
Proof. intros. split; [apply expire_now|]. intros. split; [by rewrite view_expire|by apply expire_other]. Qed.

Lemma saddLoop_clock key l r r' n cu b : saddLoop key l r = (r', n, cu, b) -> clock_but key r r'.
Proof.
  revert r r' n cu b. induction l as [|x l IH]; intros r r' n cu b Hl; cbn [saddLoop] in Hl; [by simplify_eq|].
  pose proof (clock_ran key r _ (ran_sadd key r (br_hash x))) as H1. destruct (r_sadd key (br_hash x) r) as [r1 added]. cbn [fst] in H1.
  destruct (saddLoop key l r1) as [[[r2 n2] cu2] b2] eqn:E. assert (r' = r2) as -> by (destruct (added =? 1); by simplify_eq).
  eapply clock_but_trans; [exact H1|]. by eapply IH.
Qed.

Lemma ackLoop_clock fuel relays before r r' n : takes_stream (rview r !! streamName cc) -> ackLoop cc fuel relays before r = (r', n) ->
  clock_but (streamName cc) r r' /\ r_deadline r' (streamName cc) = r_deadline r (streamName cc).
Proof.
  revert relays before r n. induction fuel as [|fuel IH]; intros relays before r n Ht Hl; [cbn in Hl; by simplify_eq|].
  destruct relays as [|x l]; [cbn in Hl; by simplify_eq|]. cbn [ackLoop] in Hl. set (ids := map br_id (take ackChunk (x :: l))) in Hl.
  pose proof (ran_xackdel (streamName cc) r (cc_group cc) ids) as Hr. pose proof (view_xackdel r (streamName cc) (cc_group cc) ids Ht) as Hv.
  destruct (r_xackdel (streamName cc) (cc_group cc) ids r) as [r1 acked]. cbn [fst] in Hr, Hv.
  destruct (ackLoop cc fuel (drop ackChunk (x :: l)) (drop ackChunk before) r1) as [r2 n2] eqn:E. simplify_eq.
  assert (takes_stream (rview r1 !! streamName cc) /\ r_deadline r1 (streamName cc) = r_deadline r (streamName cc)) as [Ht1 Hd1].
  { destruct (rview r !! streamName cc) as [v|] eqn:Ev; rewrite Hv.
    - rewrite lookup_insert_eq. split; [by right|]. eapply ran_own; [exact Hr|]. by rewrite Hv, lookup_insert_eq.
    - rewrite Ev. split; [by left|]. rewrite !deadline_absent; [done|done|by rewrite Hv]. }
  destruct (IH _ _ _ _ Ht1 E) as [H2 Hd2]. split; [|congruence]. eapply clock_but_trans; [by apply clock_ran|done].
Qed.

Lemma batchCount_clock key now ktype n cu r r3 st : takes_hash (rview r !! key) -> batchCount cc key now ktype n cu r = (r3, Ok st) ->
  clock_but key r r3 /\ (rview r3 !! key = rview r !! key /\ r_deadline r3 key = r_deadline r key \/ r_deadline r3 key = Some (r_now r + SessionTTL cfg * Second)).
Proof.
  intros Ht. unfold batchCount. destruct ktype; try (intros [= <- <-]; split; [done|by left]);
    (destruct (lua_is_terminal _); [intros [= <- <-]; split; [done|by left]|]; destruct (0 <? n); [|intros [= <- <-]; split; [done|by left]]);
    (destruct (r_hincrby key hfRelayCount n r) as [r1|] eqn:E1; [|done]; destruct (r_hincrby key hfTotalComputeUnits cu r1) as [r2|] eqn:E2; [|done]; intros [= <- <-]);
    (assert (forall x f m y, takes_hash (rview x !! key) -> r_hincrby key f m x = Some y -> takes_hash (rview y !! key)) as Hinc by
      (intros x f m y Hx Hy; pose proof (view_hincrby x key f m Hx) as Hv; destruct (counter_of _); [|congruence]; destruct (decide _); [|congruence];
       destruct Hv as (y' & Hy' & Hv); assert (y = y') as -> by congruence; rewrite Hv, lookup_insert_eq; by right));
    (assert (takes_hash (rview r2 !! key)) as Ht2 by eauto);
    (assert (clock_but key r (r_hset key [(hfLastUpdatedAt, now)] r2)) as Hc by
      (eapply clock_but_trans; [by eapply clock_ran, ran_hincrby|]; eapply clock_but_trans; [by eapply clock_ran, ran_hincrby|]; apply clock_ran, ran_hset));
    (split; [eapply clock_but_trans; [exact Hc|by apply clock_expire]|]; right);
    (rewrite expire_own; [by rewrite (proj1 Hc)|done|]; rewrite view_hset by done; rewrite lookup_insert_eq; by eexists).
Qed.

Lemma script_deadlines id now relays r r' res :
  redis_id id -> relayBatchScript cc id now relays r = (r', Ok res) ->
  let key := sessionKey cfg id in
  r_now r' = r_now r /\
  (forall k, k <> dedupSessionKey cc id -> k <> key -> r_deadline r' k = r_deadline r k) /\
  r_deadline r' (dedupSessionKey cc id) = Some (r_now r + cc_dedupTTL cc * Second) /\
  (rview r' !! key = rview r !! key /\ r_deadline r' key = r_deadline r key \/ r_deadline r' key = Some (r_now r + SessionTTL cfg * Second)).
Proof.
  intros Hid. unfold relayBatchScript. destruct (Nat.ltb_spec (List.length relays) 1) as [|Hlen]; [done|].
  destruct (existsb _ relays); [done|]. destruct (_ <? _); [done|].
  assert (takes_hash (rview r !! sessionKey cfg id) \/ r_type r (sessionKey cfg id) <> TNone /\ r_type r (sessionKey cfg id) <> THash) as [Hk|[Hk1 Hk2]].
  { unfold r_type, takes_hash. destruct (type_of _); auto; by right. }
  2:{ by destruct (r_type r (sessionKey cfg id)). }
  assert (takes_stream (rview r !! streamName cc) \/ r_type r (streamName cc) <> TNone /\ r_type r (streamName cc) <> TStream) as [Hs|[Hs1 Hs2]].
  { unfold r_type, takes_stream. destruct (type_of _); auto; by right. }
  2:{ destruct (r_type r (sessionKey cfg id)); try done; by destruct (r_type r (streamName cc)). }
  assert (takes_set (rview r !! dedupSessionKey cc id) \/ r_type r (dedupSessionKey cc id) <> TNone /\ r_type r (dedupSessionKey cc id) <> TSet) as [Hd|[Hd1 Hd2]].
  { unfold r_type, takes_set. destruct (type_of _); auto; by right. }
  2:{ destruct (r_type r (sessionKey cfg id)); try done; destruct (r_type r (streamName cc)); try done; by destruct (r_type r (dedupSessionKey cc id)). }
  destruct (saddLoop (dedupSessionKey cc id) relays r) as [[[r1 n] cu] before] eqn:Hsadd.
  set (r2 := r_expire (dedupSessionKey cc id) (cc_dedupTTL cc) r1).
  assert (forall A (x y : A), match r_type r (streamName cc) with TString | TSet | THash => x | _ => y end = y) as Hst.
  { intros. unfold r_type. by destruct Hs as [-> | ->]. }
  assert (forall A (x y : A), match r_type r (dedupSessionKey cc id) with TString | THash | TStream => x | _ => y end = y) as Hdt.
  { intros. unfold r_type. by destruct Hd as [-> | ->]. }
  destruct (batchCount cc (sessionKey cfg id) now (r_type r (sessionKey cfg id)) n cu r2) as [r3 [st|e]] eqn:Hbc.
  2:{ unfold r_type in Hbc |- * at 1. destruct Hk as [E|E]; rewrite E in Hbc |- *; rewrite Hst, Hdt; cbv zeta; fold r2; by rewrite Hbc. }
  destruct (ackLoop cc (List.length relays) relays before r3) as [r4 fresh] eqn:Hack. intros E.
  assert (r' = r4) as ->.
  { unfold r_type in Hbc, E at 1. destruct Hk as [Ek|Ek]; rewrite Ek in Hbc, E; rewrite Hst, Hdt in E; cbv zeta in E; fold r2 in E; rewrite Hbc, Hack in E; by injection E. }
  clear E. cbn zeta. set (key := sessionKey cfg id) in *.
  pose proof (dedup_ne_session id id Hid Hid) as Hne. fold key in Hne.
  pose proof (stream_ne_session id Hid) as Hnes. fold key in Hnes. pose proof (dedup_ne_stream id Hid) as Hned.
  pose proof (saddLoop_spec _ _ _ _ _ _ _ Hd Hsadd) as Hspec. destruct (split_new _ relays) as [new dups]. destruct Hspec as (_ & _ & _ & Hv1 & Hs1 & _).
  assert (is_Some (rview r1 !! dedupSessionKey cc id)) as Hsome.
  { destruct (rview r1 !! dedupSessionKey cc id); [done|]. destruct relays as [|x l]; [cbn in Hlen; lia|]. exfalso. unfold hashes in Hs1. cbn in Hs1. set_solver. }
  pose proof (saddLoop_clock _ _ _ _ _ _ _ Hsadd) as Hc1. pose proof (clock_but_trans _ _ _ _ Hc1 (clock_expire _ (cc_dedupTTL cc) r1 Hdttl)) as [Hn2 Hd2]. fold r2 in Hn2, Hd2.
  assert (rview r2 = rview r1) as Hv2 by by apply view_expire.
  assert (rview r2 !! key = rview r !! key) as Hk2 by (rewrite Hv2; apply Hv1; congruence).
  destruct (batchCount_clock key now _ _ _ _ _ _ ltac:(by rewrite Hk2) Hbc) as [[Hn3 Hd3] Hkey3].
  assert (takes_stream (rview r3 !! streamName cc)) as Hst3.
  { rewrite (proj1 (Hd3 _ Hnes)), (proj1 (Hd2 (streamName cc) ltac:(congruence))). done. }
  destruct (ackLoop_clock _ _ _ _ _ _ Hst3 Hack) as [[Hn4 Hd4] Hds4].
  assert (forall k, k <> streamName cc -> k <> key -> k <> dedupSessionKey cc id -> r_deadline r4 k = r_deadline r k) as Hother.
  { intros k H1 H2 H3. rewrite (proj2 (Hd4 k H1)), (proj2 (Hd3 k H2)). apply (Hd2 k H3). }
  split_and!.
  - congruence.
  - intros k H1 H2. destruct (decide (k = streamName cc)) as [->|H3]; [|by apply Hother].
    rewrite Hds4, (proj2 (Hd3 _ H2)). by apply Hd2.
  - rewrite (proj2 (Hd4 _ Hned)), (proj2 (Hd3 _ Hne)). unfold r2. rewrite expire_own by done. by rewrite (proj1 Hc1).
  - destruct (Hd4 key ltac:(congruence)) as [Hv4 ->]. rewrite Hv4. destruct Hkey3 as [[Hv3 ->]| ->]; [left|right; by rewrite Hn2].
    rewrite Hv3. apply (Hd2 key). congruence.
Qed.

(** ** The instance *)

(** The committer's Redis at an instant, when nobody else writes its keys. *)
Definition rs_at (t : Z) (s : RStore R) : RStore R := mkRStore (rs_closed s) (r_at t (rs_db s)).

(** Marks and sessions stay this long after they were written: TTLs are whole
    seconds. *)
Definition redis_window : Z := Z.min (cc_dedupTTL cc) (SessionTTL cfg) * Second.

(** The stream has no TTL: entries go when they are acknowledged. *)
Definition redis_timed_ok (s : RStore R) : Prop := redis_commit_ok s /\ r_deadline (rs_db s) (streamName cc) = None.

#[export] Instance RedisCommitterOps : RelayCommitter (RStore R) := {
  rc_view := fun t s => redis_commit_view (r_at t (rs_db s));
  rc_ok := redis_timed_ok;
  rc_session_ok := redis_id;
  rc_batch_ok := fun relays => NoDup (map br_id relays);
  rc_window := redis_window;
  rc_commit := fun io now s id relays => CommitSession cc io now (rs_at now s) id relays
}.

(** A session's key decides what is seen of it. *)
Lemma redis_view_key r r' id : rview r' !! sessionKey cfg id = rview r !! sessionKey cfg id -> redis_view cfg r' id = redis_view cfg r id.
Proof. intros E. unfold redis_view, db_view. by rewrite E. Qed.
(** A session of which the same is seen now, whose key goes at the same time. *)
Lemma redis_view_later t r r' id : gone t r' (sessionKey cfg id) = gone t r (sessionKey cfg id) -> redis_view cfg r' id ≡ redis_view cfg r id ->
  redis_view cfg (r_at t r') id ≡ redis_view cfg (r_at t r) id.
Proof.
  intros Hg. unfold redis_view, db_view. rewrite !view_at, Hg. by destruct (gone t r (sessionKey cfg id)).
Qed.
Lemma marks_later t r r' id : gone t r' (dedupSessionKey cc id) = gone t r (dedupSessionKey cc id) ->
  (forall h, cv_marks (redis_commit_view r' id) h = cv_marks (redis_commit_view r id) h) ->
  forall h, cv_marks (redis_commit_view (r_at t r') id) h = cv_marks (redis_commit_view (r_at t r) id) h.
Proof. intros Hg Hm h. specialize (Hm h). cbn [redis_commit_view cv_marks] in *. rewrite !view_at, Hg. by destruct (gone t r (dedupSessionKey cc id)). Qed.
Lemma view_later_later t t' r id : t <= t' -> redis_commit_view (r_at t' (r_at t r)) id ≡ redis_commit_view (r_at t' r) id.
Proof.
  intros Ht. split_and!; cbn; [intros h; by rewrite view_at_at|rewrite (redis_view_key (r_at t' r) (r_at t' (r_at t r)) id); [done|by apply view_at_at]|intros i; by rewrite view_at_at].
Qed.

(** Keys that go leave the store well formed. *)
Lemma timed_ok_at t s : redis_timed_ok s -> redis_timed_ok (rs_at t s).
Proof.
  intros [[[Hs Hi] [Hq1 Hq2]] Hd].
  assert (forall P : option rval -> Prop, P None -> forall k, P (rview (rs_db s) !! k) -> P (rview (rs_db (rs_at t s)) !! k)) as Hor.
  { intros P HN k HP. cbn [rs_at rs_db]. by destruct (view_at_or t (rs_db s) k) as [-> | ->]. }
  split; [split; [split|split]|].
  - intros id Hid. specialize (Hs id Hid). revert Hs. by apply Hor.
  - intros k Hk. apply Hor; [by left|]. by apply Hi.
  - intros id Hid. apply Hor; [by left|]. by apply Hq1.
  - apply Hor; [by left|done].
  - cbn [rs_at rs_db]. rewrite deadline_at. unfold gone. by rewrite Hd.
Qed.

(** What a commit that ran leaves to be seen later. *)
Lemma done_later c id now relays r r' : redis_id id -> batch_done c now id relays r r' -> now <= r_now r ->
  r_deadline r (streamName cc) = None ->
  relayBatchScript cc id (format_time now) relays r = (r', Ok (spec_result relays (redis_commit_view r id))) ->
  redis_timed_ok (mkRStore c r') /\
  (forall id' t, id' <> id -> redis_id id' ->
    (forall h, cv_marks (redis_commit_view (r_at t r') id') h = cv_marks (redis_commit_view (r_at t r) id') h) /\
    cv_session (redis_commit_view (r_at t r') id') ≡ cv_session (redis_commit_view (r_at t r) id')) /\
  forall t, t < now + redis_window -> cv_session (redis_commit_view (r_at t r) id) ≡ cv_session (redis_commit_view r id) ->
    redis_commit_view (r_at t r') id ≡ spec_commit now relays (redis_commit_view r id).
Proof.
  intros Hid (Hok & Hv & Ho) Hnow Hstr Hscr. destruct (script_deadlines _ _ _ _ _ _ Hid Hscr) as (Hn & Hd & Hdd & Hkey).
  assert (r_deadline r' (streamName cc) = None) as Hstr'.
  { rewrite Hd; [done|intros He; by apply (dedup_ne_stream id)|by apply stream_ne_session]. }
  assert (forall k, r_deadline r' k = r_deadline r k -> forall t, gone t r' k = gone t r k) as Hg by (intros k He t; unfold gone; by rewrite He, Hn).
  assert (Z.min (cc_dedupTTL cc) (SessionTTL cfg) * Second <= cc_dedupTTL cc * Second /\ Z.min (cc_dedupTTL cc) (SessionTTL cfg) * Second <= SessionTTL cfg * Second /\
    0 < cc_dedupTTL cc * Second /\ 0 < SessionTTL cfg * Second) as (Hw1 & Hw2 & Hw3 & Hw4) by (unfold Second; lia).
  split; [by split|]. split.
  - intros id' t Hne Hid'. destruct (Ho id' Hne Hid') as [Hm Hs].
    split; [apply marks_later; [|done]|apply redis_view_later; [|done]]; apply Hg, Hd.
    + intros He. by apply dedup_inj in He.
    + by apply dedup_ne_session.
    + intros He. by apply (dedup_ne_session id id').
    + intros He. apply Hne. by apply (sessionKey_inj cfg Hkb Hsup) in He.
  - intros t Ht Hsame. unfold redis_window in Ht. destruct Hv as (Hvm & Hvs & Hve). split_and!.
    + intros h. rewrite <- Hvm. cbn. rewrite (view_before t r' _ _ Hdd); [done|lia|lia].
    + rewrite <- Hvs. cbn. destruct Hkey as [[Hkv Hkd]|Hkd].
      * rewrite (redis_view_later t r r'); [|by apply Hg|by rewrite (redis_view_key r r')]. rewrite (redis_view_key r r') by done. exact Hsame.
      * rewrite (redis_view_key r' (r_at t r')); [done|]. apply (view_before t r' _ _ Hkd); lia.
    + intros i. rewrite <- Hve. cbn. by rewrite (view_forever t r').
Qed.

#[export] Instance RedisCommitterLaws : RelayCommitterLaws (RStore R).
Proof.
  split. intros io now s id relays Hok Hid Hb Hnow Hfit. cbn [rc_ok rc_session_ok rc_batch_ok rc_view rc_commit RedisCommitterOps] in *.
  set (r := r_at now (rs_db s)) in *. pose proof (timed_ok_at now s Hok) as Hok0.
  assert (now <= r_now r) as Hle by (unfold r; rewrite now_at; lia).
  pose proof (script_commits _ id now relays r (proj1 Hok0) Hid Hnow Hb Hfit) as Hscr.
  assert (forall t, now <= t -> redis_commit_view (r_at t r) id ≡ redis_commit_view (r_at t (rs_db s)) id) as Hun by (intros; by apply view_later_later).
  assert (forall id' t, now <= t -> (forall h, cv_marks (redis_commit_view (r_at t r) id') h = cv_marks (redis_commit_view (r_at t (rs_db s)) id') h) /\
    cv_session (redis_commit_view (r_at t r) id') ≡ cv_session (redis_commit_view (r_at t (rs_db s)) id')) as Hoth.
  { intros id' t Ht. pose proof (view_later_later now t (rs_db s) id' Ht) as (? & ? & _). done. }
  assert (forall e, commits now s id relays (rs_at now s, Err e)) as Hnone.
  { intros e. split; [done|]. split; [intros; by apply Hoth|]. destruct e; [exact Hun|left; exact Hun]. }
  assert (forall r' a, relayBatchScript cc id (format_time now) relays r = (r', Ok (spec_result relays (redis_commit_view r id))) ->
    batch_done (rs_closed s) now id relays r r' ->
    (a = Ok (spec_result relays (redis_commit_view r id)) \/ a = Err CUnknown) ->
    commits now s id relays (mkRStore (rs_closed s) r', a)) as Hdone.
  { intros r' a Hr' Hd Ha. destruct (done_later _ id now relays r r' Hid Hd Hle (proj2 Hok0) Hr') as (H1 & H2 & H3).
    split; [done|]. split.
    - intros id' t Hne Hid' Ht. destruct (H2 id' t Hne Hid') as [Hm Hs], (Hoth id' t Ht) as [Hm' Hs']. cbn [fst rc_view RedisCommitterOps rs_db].
      split; [intros h; by rewrite Hm, Hm'|by rewrite Hs].
    - assert (forall t, now <= t < now + redis_window -> cv_session (rc_view t s id) ≡ cv_session (rc_view now s id) ->
        redis_commit_view (r_at t r') id ≡ spec_commit now relays (redis_commit_view r id)) as Happ.
      { intros t Ht Hs. apply H3; [lia|]. destruct (Hoth id t ltac:(lia)) as [_ ->]. exact Hs. }
      destruct Ha as [->| ->]; [split; [done|exact Happ]|right; exact Happ]. }
  unfold CommitSession. cbn [rs_at rs_db rs_closed]. fold r.
  destruct Hscr as [Hout|(r' & Hout & Hd)]; destruct (io 0%nat) as [| |[]]; cbn [round_trip]; rewrite ?Hout; cbn [fst snd];
    (apply Hnone || (eapply Hdone; [exact Hout|done|by auto])).
Qed.
End Deadlines.
End Laws.

(** ** Retries count a batch once *)

Section Claims.
Context {R : Type} `{RO : !RedisOps R} `{RL : !RedisLaws R} `{RC : !RedisClock R} `{RCL : !RedisClockLaws R}.
Context `{TC : !TimeCodec} `{TCL : !TimeCodecLaws} `{SJ : !SnapshotJson}.

(** C4. A batch of relays committed to Redis again and again within the dedup
    window, each attempt refused, answered, or left with an unknown outcome, is
    counted in its session at most once, and exactly once when one attempt was
    answered: the marks, the session's counters and the stream entries seen are
    those of a single commit from the state before the first attempt. The window
    is the shorter of the dedup and the session TTL: both keys get their TTL
    anew with a commit, and when they go a retry would count again. Nothing
    expires or is written meanwhile but by these attempts ([v0] is what is seen
    of the first state throughout the window); the relays of the batch are
    distinct, the counters have room for it and both TTLs are set. *)
Theorem redis_batch_counted_once (cc : CommitterConfig) (id : string) (relays : list batchedRelay) (v0 : CommitView)
    (T0 t : Z) (s0 s : RStore R) (answered : bool) :
  no_colon (cfg_kb (cc_store cc)) -> no_colon (SupplierAddress (cc_store cc)) ->
  0 < SessionTTL (cc_store cc) -> 0 < cc_dedupTTL cc ->
  redis_timed_ok cc s0 -> redis_id id -> NoDup (map br_id relays) ->
  0 <= T0 -> t < T0 + redis_window cc -> t <= max_instant ->
  (forall t', T0 <= t' < T0 + redis_window cc -> redis_commit_view cc (r_at t' (rs_db s0)) id ≡ v0) ->
  batch_fits relays (cv_session v0) -> batch_fits relays (cv_session (spec_commit T0 relays v0)) ->
  attempts (RelayCommitter0 := RedisCommitterOps cc) id relays T0 s0 answered t s ->
  redis_timed_ok cc s /\
  (redis_commit_view cc (r_at t (rs_db s)) id ≡ v0 \/ redis_commit_view cc (r_at t (rs_db s)) id ≡ spec_commit T0 relays v0) /\
  (answered = true -> redis_commit_view cc (r_at t (rs_db s)) id ≡ spec_commit T0 relays v0).
Proof.
  intros Hkb Hsup Httl Hdttl Hok Hid Hnd HT Hwin Ht Hv Hf0 Hf1 Ha.
  pose proof (RedisCommitterLaws cc Hkb Hsup Httl Hdttl) as HL.
  pose proof (attempts_time id relays _ _ _ _ _ Ha) as Hle.
  destruct (@attempts_done _ (RedisCommitterOps cc) HL id relays v0 T0 Hid Hnd T0 s0 answered t s Ha) as (Hok' & Hpd & Hd);
    try done. split; [done|]. split.
  - destruct Hpd as [Hpd|Hpd]; [left|right]; apply (Hpd t); simpl; lia.
  - intros Hans. apply (Hd Hans t). simpl. lia.
Qed.
End Claims.

(** A store with one session, which expires in two hours, and nothing else. *)
Module RedisExample.
Import Concrete.

Definition cc : CommitterConfig := mkCommitter (NewSessionStoreConfig (NewKeyBuilder "ha") "pokt1sup" 0) "group" 300.

Definition session_key : string := sessionKey (cc_store cc) "s1".
Definition store_1 : RStore TimedRedis :=
  mkRStore false (mkTimed {[ session_key := RHash (hash_set ∅ (encodeSnapshot session_1)) ]} {[ session_key := 7200 * Second ]} 0).

Lemma redis_s1_id : redis_id "s1".
Proof. split; [done|discriminate]. Qed.

Lemma dedup_not_s1 id : redis_id id -> session_key <> dedupSessionKey cc id.
Proof. intros Hid He. eapply (dedup_ne_session cc); [..|exact Hid|exact redis_s1_id|by symmetry]; done. Qed.
Lemma stream_not_s1 : session_key <> streamName cc.
Proof. intros He. eapply (stream_ne_session cc); [..|exact redis_s1_id|by symmetry]; done. Qed.

Lemma redis_store_1_ok : redis_timed_ok cc store_1.
Proof.
  split; [split; [split|split]|]; cbn [rview TimedRedisOps tr_db rs_db store_1].
  - intros id Hid. cbn [rview TimedRedisOps tr_db rs_db store_1]. destruct (decide (session_key = sessionKey (cc_store cc) id)) as [<-|Hne].
    + rewrite lookup_singleton_eq. split; [|vm_compute; split; congruence].
      exists session_1. split; [by vm_compute|done].
    + by rewrite lookup_singleton_ne.
  - intros k Hk. cbn [rview TimedRedisOps tr_db rs_db store_1]. rewrite lookup_singleton_ne; [by left|]. intros <-.
    eapply (index_key_ne (cc_store cc)); [..|exact Hk|exact redis_s1_id|reflexivity]; done.
  - intros id Hid. rewrite lookup_singleton_ne; [by left|]. by apply dedup_not_s1.
  - rewrite lookup_singleton_ne; [by left|]. apply stream_not_s1.
  - apply deadline_absent. cbn [rview TimedRedisOps tr_db rs_db store_1]. apply lookup_singleton_ne, stream_not_s1.
Qed.

Definition v0 : CommitView := redis_commit_view cc (rs_db store_1) "s1".
(** Nothing goes within the five minutes of the dedup TTL. *)
Lemma store_1_stays t : t < 1 + redis_window cc -> redis_commit_view cc (r_at t (rs_db store_1)) "s1" ≡ v0.
Proof.
  intros Ht. assert (redis_window cc = 300 * Second) as Hw by (by vm_compute). rewrite Hw in Ht.
  assert (forall k, session_key <> k -> rview (r_at t (rs_db store_1)) !! k = rview (rs_db store_1) !! k) as Hk.
  { intros k Hk. apply view_forever, deadline_absent. cbn [rview TimedRedisOps tr_db rs_db store_1]. by apply lookup_singleton_ne. }
  unfold v0. split_and!; cbn [redis_commit_view cv_marks cv_session cv_entries].
  - intros h. rewrite Hk; [done|]. apply dedup_not_s1, redis_s1_id.
  - rewrite (redis_view_key cc (rs_db store_1)); [done|]. apply (view_before t _ _ (7200 * Second)); [by vm_compute|unfold Second in *; lia|by vm_compute].
  - intros i. rewrite Hk; [done|]. apply stream_not_s1.
Qed.

(** The first attempt ran but its answer was lost, the second was answered. *)
Definition lost : Io := fun _ => FLost true.
Definition attempt (io : Io) (t : Z) (s : RStore TimedRedis) : RStore TimedRedis := fst (CommitSession cc io t (rs_at t s) "s1" batch_1).
Definition after_lost : RStore TimedRedis := attempt lost 1 store_1.
Definition after_both : RStore TimedRedis := attempt io_ok 2 after_lost.
Definition counters (t : Z) (s : RStore TimedRedis) : option (Z * Z) :=
  (fun s => (RelayCount s, TotalComputeUnits s)) <$> redis_view (cc_store cc) (r_at t (rs_db s)) "s1".

(** The relays are counted once: two distinct ones, 12 compute units. *)
Lemma redis_batch_counted_once_witness :
  redis_commit_view cc (r_at 2 (rs_db after_both)) "s1" ≡ spec_commit 1 batch_1 v0 /\ counters 2 after_both = Some (2, 12).
Proof.
  split; [|by vm_compute].
  assert (NoDup (map br_id batch_1)) as Hnd by (apply (bool_decide_unpack _); by vm_compute).
  assert (batch_fits batch_1 (cv_session v0)) as Hf0 by (vm_compute; split; congruence).
  assert (batch_fits batch_1 (cv_session (spec_commit 1 batch_1 v0))) as Hf1 by (vm_compute; split; congruence).
  assert (attempts (RelayCommitter0 := RedisCommitterOps cc) "s1" batch_1 1 store_1 false 1 after_lost) as H1.
  { apply (attempts_more (RelayCommitter0 := RedisCommitterOps cc) "s1" batch_1 1 store_1 false 1 store_1 lost 1); [|lia].
    apply attempts_none. }
  assert (attempts (RelayCommitter0 := RedisCommitterOps cc) "s1" batch_1 1 store_1 true 2 after_both) as H2.
  { pose proof (attempts_more (RelayCommitter0 := RedisCommitterOps cc) "s1" batch_1 1 store_1 false 1 after_lost io_ok 2 H1) as H.
    replace true with (match snd (CommitSession cc io_ok 2 (rs_at 2 after_lost) "s1" batch_1) with Ok _ => true | Err _ => false end)
      by (by vm_compute). apply H. lia. }
  destruct (redis_batch_counted_once cc "s1" batch_1 v0 1 2 store_1 after_both true eq_refl eq_refl eq_refl eq_refl
    redis_store_1_ok redis_s1_id Hnd ltac:(lia) ltac:(by vm_compute) ltac:(unfold max_instant; lia)
    (fun t' Ht' => store_1_stays t' (proj2 Ht')) Hf0 Hf1 H2) as (_ & _ & Hall).
  by apply Hall.
Defined.

(** Once the marks have expired the same batch is counted again. *)
Example late_retry_counts_again : counters (400 * Second) (attempt io_ok (400 * Second) after_lost) = Some (4, 24).
Proof. by vm_compute. Qed.
End RedisExample.
