(* ===== verification/SessionLifecycle.v ===== *)
(** * The session lifecycle manager (miner/session_lifecycle.go)

    Which transition a session is due, how a pass over the tracked sessions
    persists and dispatches them, what the dispatched work does, and how a
    start resumes what a crash left. The session store is any [SessionStore];
    the window heights of the chain library and the lifecycle callback are
    parameters. *)

From S2P Require Import Prelude SessionState StoreSpec.
From Stdlib Require Import Ascii String.

Local Open Scope string_scope.
Local Open Scope Z_scope.

(** ** Windows (x/shared of the chain's library) *)

Class SharedWindows (Params : Type) := {
  GetClaimWindowOpenHeight : Params -> Z -> Z;
  GetClaimWindowCloseHeight : Params -> Z -> Z;
  GetProofWindowOpenHeight : Params -> Z -> Z;
  GetProofWindowCloseHeight : Params -> Z -> Z
}.

(** Each window opens no later than it closes, and the proof window opens no
    earlier than the claim window closes. *)
Class SharedWindowsLaws (Params : Type) `{!SharedWindows Params} := {
  claim_window_order p e : GetClaimWindowOpenHeight p e <= GetClaimWindowCloseHeight p e;
  claim_before_proof p e : GetClaimWindowCloseHeight p e <= GetProofWindowOpenHeight p e;
  proof_window_order p e : GetProofWindowOpenHeight p e <= GetProofWindowCloseHeight p e
}.

(** ** Which transition is due *)

Section Transition.
Context {Params : Type} `{SW : !SharedWindows Params}.

(** [determineTransition]; [None] is Go's empty state. *)
Definition determineTransition (session : SessionSnapshot) (currentHeight : Z) (params : option Params)
  : option SessionState :=
  match params with
  | None => None
  | Some p =>
      let e := SessionEndHeight session in
      match State session with
      | SessionStateActive =>
          if GetClaimWindowCloseHeight p e <=? currentHeight then Some SessionStateClaimWindowClosed
          else if (GetClaimWindowOpenHeight p e <=? currentHeight) && (currentHeight <? GetClaimWindowCloseHeight p e)
          then Some SessionStateClaiming else None
      | SessionStateClaiming =>
          if GetClaimWindowCloseHeight p e <=? currentHeight then Some SessionStateClaimWindowClosed else None
      | SessionStateClaimed =>
          if GetProofWindowCloseHeight p e <=? currentHeight then Some SessionStateProofWindowClosed
          else if (GetProofWindowOpenHeight p e <=? currentHeight) && (currentHeight <? GetProofWindowCloseHeight p e)
          then Some SessionStateProving else None
      | SessionStateProving =>
          if GetProofWindowCloseHeight p e <=? currentHeight then
            if negb (String.eqb (ProofTxHash session) "") then Some SessionStateProved
            else Some SessionStateProofWindowClosed
          else None
      | _ => None
      end
  end.

Definition sessionMightNeedTransition (snapshot : SessionSnapshot) (currentHeight : Z) (params : option Params) : bool :=
  if IsTerminal (State snapshot) then true
  else match params with
       | None => true
       | Some p =>
           match State snapshot with
           | SessionStateActive => GetClaimWindowOpenHeight p (SessionEndHeight snapshot) <=? currentHeight
           | SessionStateClaimed => GetProofWindowOpenHeight p (SessionEndHeight snapshot) <=? currentHeight
           | _ => true
           end
       end.

(** The answers a pass gets for the shared params: the live ones and those at
    a height, each as it was answered for the sessions ending at that height;
    [None] is a failed query. The pass remembers one answer per end height. *)
Record Chain := mkChain { GetParams : Z -> option Params; GetParamsAtHeight : Z -> option Params }.

Definition resolveParams (ch : Chain) (currentHeight sessionEndHeight : Z) : option Params :=
  if (currentHeight <=? 0) || (currentHeight <=? sessionEndHeight) then GetParams ch sessionEndHeight
  else GetParamsAtHeight ch sessionEndHeight.
End Transition.
Arguments Chain : clear implicits.

Definition claimReadIsFinal (height claimClose : Z) : bool := claimClose <? height.

Definition claimFlushCapBlocks : Z := 2.

(** ** The manager *)

(** The sessions it tracks in memory, those it resumed at startup without a
    claim sent, and the store. *)
Record Manager (St : Type) := mkManager {
  lm_store : St;
  activeSessions : gmap string SessionSnapshot;
  resumedUnsentClaims : gset string;
  lm_closed : bool
}.
Arguments mkManager {St}.
Arguments lm_store {St}.
Arguments activeSessions {St}.
Arguments resumedUnsentClaims {St}.
Arguments lm_closed {St}.

Definition with_store {St} (s : St) (m : Manager St) : Manager St :=
  mkManager s (activeSessions m) (resumedUnsentClaims m) (lm_closed m).

(** Drop a session from both maps. *)
Definition forget {St} (id : string) (m : Manager St) : Manager St :=
  mkManager (lm_store m) (delete id (activeSessions m)) (resumedUnsentClaims m ∖ {[id]}) (lm_closed m).

Definition unresume {St} (id : string) (m : Manager St) : Manager St :=
  mkManager (lm_store m) (activeSessions m) (resumedUnsentClaims m ∖ {[id]}) (lm_closed m).

Definition track {St} (snap : SessionSnapshot) (m : Manager St) : Manager St :=
  mkManager (lm_store m) (<[SessionID snap := snap]> (activeSessions m)) (resumedUnsentClaims m) (lm_closed m).

(** Work handed to the pool: a claim batch with the earliest claim window, a
    proof batch, a session to close. *)
Inductive Task :=
| TClaim (sessions : list SessionSnapshot) (windowOpen : Z)
| TProof (sessions : list SessionSnapshot)
| TClose (session : SessionSnapshot) (newState : SessionState).

(** The callback's operations: they write the store and, through the
    coordinator's callbacks, the tracked sessions. An observer answers [None]
    when it could not ask the chain; a claim or proof cycle answers the session
    IDs it claimed or settled. *)
Record Callback (St : Type) := mkCallback {
  ObserveClaimOnChain : option (Z -> Manager St -> SessionSnapshot -> Manager St * option bool);
  OnSessionsNeedClaim : Z -> Manager St -> list SessionSnapshot -> Manager St * gset string;
  OnSessionsNeedProof : Z -> Manager St -> list SessionSnapshot -> Manager St * gset string;
  OnTerminal : SessionState -> Z -> Manager St -> SessionSnapshot -> Manager St
}.
Arguments ObserveClaimOnChain {St}.
Arguments OnSessionsNeedClaim {St}.
Arguments OnSessionsNeedProof {St}.
Arguments OnTerminal {St}.

(** The faults of a pass's store calls, by their order. *)
Definition Calls : Type := nat -> Io.
Definition calls_after (n : nat) (cs : Calls) : Calls := fun k => cs (n + k)%nat.

Section Manager.
Context {St : Type} `{SS : !SessionStore St}.
Context {Params : Type} `{SW : !SharedWindows Params}.
Variable cb : Callback St.

Definition UpdateState (io : Io) (now : Z) (s : St) (id : string) (st : SessionState) : St * result unit StoreErr :=
  let '(s', r) := ss_update io now s id st "" in
  (s', match r with Ok _ => Ok tt | Err e => Err e end).

Definition mayHaveClaimOnChain (m : Manager St) (session : SessionSnapshot) : bool :=
  (bool_decide (State session = SessionStateClaiming) && String.eqb (ClaimTxHash session) "")
  || bool_decide (SessionID session ∈ resumedUnsentClaims m).

(** ** Startup *)

(** [resumeUnsentSubmission]: the session as it is tracked afterwards. *)
Definition resumeUnsentSubmission (io : Io) (now : Z) (m : Manager St) (session : SessionSnapshot)
  : Manager St * SessionSnapshot :=
  let resumeTo :=
    if bool_decide (State session = SessionStateProving) && String.eqb (ProofTxHash session) ""
    then Some SessionStateClaimed
    else if bool_decide (State session = SessionStateClaiming) && String.eqb (ClaimTxHash session) ""
    then Some SessionStateActive else None in
  match resumeTo with
  | None => (m, session)
  | Some st =>
      match UpdateState io now (lm_store m) (SessionID session) st with
      | (s', Err _) => (with_store s' m, session)
      | (s', Ok _) =>
          let m1 := with_store s' m in
          (if bool_decide (State session = SessionStateClaiming)
           then mkManager s' (activeSessions m1) ({[SessionID session]} ∪ resumedUnsentClaims m1) (lm_closed m) else m1,
           set_State st session)
      end
  end.

Fixpoint loadLoop (cs : Calls) (now : Z) (m : Manager St) (sessions : list SessionSnapshot) : Manager St :=
  match sessions with
  | [] => m
  | session :: rest =>
      if negb (IsTerminal (State session)) then
        let '(m1, s1) := resumeUnsentSubmission (cs 0%nat) now m session in
        loadLoop (calls_after 1 cs) now (track s1 m1) rest
      else loadLoop (calls_after 1 cs) now m rest
  end.

Definition loadExistingSessions (io : Io) (cs : Calls) (now : Z) (m : Manager St) : Manager St * result unit StoreErr :=
  match ss_by_supplier io now (lm_store m) with
  | (s', Err e) => (with_store s' m, Err e)
  | (s', Ok sessions) => (loadLoop cs now (with_store s' m) sessions, Ok tt)
  end.

Inductive LifecycleErr :=
| ErrManagerClosed
| ErrSaveSession (e : StoreErr).

Definition TrackSession (io : Io) (now : Z) (m : Manager St) (snapshot : SessionSnapshot)
  : Manager St * result unit LifecycleErr :=
  if lm_closed m then (m, Err ErrManagerClosed)
  else
    let m1 := track snapshot m in
    let '(s', r) := ss_save io now (lm_store m1) snapshot in
    (with_store s' m1, match r with Ok _ => Ok tt | Err e => Err (ErrSaveSession e) end).

Definition Close (m : Manager St) : Manager St :=
  mkManager (lm_store m) (activeSessions m) (resumedUnsentClaims m) true.

Definition RemoveSession (m : Manager St) (sessionID : string) : Manager St :=
  mkManager (lm_store m) (delete sessionID (activeSessions m)) (resumedUnsentClaims m) (lm_closed m).

(** ** One pass over the tracked sessions *)

Definition candidates (ch : Chain Params) (currentHeight : Z) (m : Manager St) : list string :=
  map fst (List.filter (fun kv =>
    sessionMightNeedTransition kv.2 currentHeight (resolveParams ch currentHeight (SessionEndHeight kv.2)))
    (map_to_list (activeSessions m))).

(** What a candidate is due after it was read again. *)
Inductive Due :=
| DueClaim (s : SessionSnapshot)
| DueProof (s : SessionSnapshot)
| DueClose (s : SessionSnapshot) (newState : SessionState)
| DueUndispatched (s : SessionSnapshot) (newState : SessionState).

Definition dispatch (session : SessionSnapshot) (newState : SessionState) : Due :=
  if bool_decide (newState = SessionStateClaiming) then DueClaim session
  else if bool_decide (newState = SessionStateProving) then DueProof session
  else if IsTerminal newState then DueClose session newState
  else DueUndispatched session newState.

(** A session about to be booked claim_window_closed that may have its claim
    on chain: left for a later pass, or found, or free to be closed. *)
Definition askChain (cs : Calls) (now : Z) (currentHeight : Z) (ch : Chain Params) (m : Manager St)
    (session : SessionSnapshot) : Manager St * bool :=
  let final :=
    match resolveParams ch currentHeight (SessionEndHeight session) with
    | Some p => claimReadIsFinal currentHeight (GetClaimWindowCloseHeight p (SessionEndHeight session))
    | None => false
    end in
  if negb final then (m, false)
  else match ObserveClaimOnChain cb with
       | None => (unresume (SessionID session) m, true)
       | Some observe =>
           match observe now m session with
           | (m', None) => (m', false)
           | (m', Some true) =>
               let m1 := unresume (SessionID session) m' in
               (match ss_get (cs 0%nat) now (lm_store m1) (SessionID session) with
                | Ok (Some fresh) =>
                    mkManager (lm_store m1) (<[SessionID session := fresh]> (activeSessions m1)) (resumedUnsentClaims m1)
                      (lm_closed m1)
                | _ => m1
                end, false)
           | (m', Some false) => (unresume (SessionID session) m', true)
           end
       end.

(** One iteration of the candidate loop. *)
Definition checkOne (cs : Calls) (now : Z) (currentHeight : Z) (ch : Chain Params) (m : Manager St) (sessionID : string)
  : Manager St * option Due :=
  match ss_get (cs 0%nat) now (lm_store m) sessionID with
  | Err _ | Ok None => (forget sessionID m, None)
  | Ok (Some session) =>
      if IsTerminal (State session) then (forget (SessionID session) m, None)
      else
        match determineTransition session currentHeight (resolveParams ch currentHeight (SessionEndHeight session)) with
        | None => (m, None)
        | Some newState =>
            if bool_decide (newState = State session) then (m, None)
            else if bool_decide (newState = SessionStateClaimWindowClosed) && mayHaveClaimOnChain m session then
              let '(m1, go) := askChain (calls_after 1 cs) now currentHeight ch m session in
              (m1, if go then Some (dispatch session newState) else None)
            else (m, Some (dispatch session newState))
        end
  end.

Fixpoint checkLoop (cs : Calls) (now : Z) (currentHeight : Z) (ch : Chain Params) (m : Manager St) (ids : list string)
  : Manager St * list Due :=
  match ids with
  | [] => (m, [])
  | id :: rest =>
      let '(m1, d) := checkOne cs now currentHeight ch m id in
      let '(m2, ds) := checkLoop (calls_after 2 cs) now currentHeight ch m1 rest in
      (m2, match d with Some x => x :: ds | None => ds end)
  end.

Definition due_claims (ds : list Due) : list SessionSnapshot :=
  omap (fun d => match d with DueClaim s => Some s | _ => None end) ds.
Definition due_proofs (ds : list Due) : list SessionSnapshot :=
  omap (fun d => match d with DueProof s => Some s | _ => None end) ds.
Definition due_closes (ds : list Due) : list (SessionSnapshot * SessionState) :=
  omap (fun d => match d with DueClose s st => Some (s, st) | _ => None end) ds.

(** The earliest claim window of a batch; -1 before the first session. *)
Definition min_step (ch : Chain Params) (currentHeight : Z) (minClaimWindowOpen : Z) (session : SessionSnapshot) : Z :=
  match resolveParams ch currentHeight (SessionEndHeight session) with
  | Some p =>
      let wo := GetClaimWindowOpenHeight p (SessionEndHeight session) in
      if (minClaimWindowOpen =? -1) || (wo <? minClaimWindowOpen) then wo else minClaimWindowOpen
  | None => minClaimWindowOpen
  end.

Definition minWindow (ch : Chain Params) (currentHeight : Z) (sessions : list SessionSnapshot) : Z :=
  foldl (min_step ch currentHeight) (-1) sessions.

(** Claiming is persisted first; a session whose write failed is left out, so
    no claim is sent for it. The meter's cleanup signal is published for the
    others. *)
Fixpoint persistClaiming (cs : Calls) (now : Z) (s : St) (sessions : list SessionSnapshot)
  : St * list SessionSnapshot * list (string * string) :=
  match sessions with
  | [] => (s, [], [])
  | session :: rest =>
      match UpdateState (cs 0%nat) now s (SessionID session) SessionStateClaiming with
      | (s1, Err _) => persistClaiming (calls_after 1 cs) now s1 rest
      | (s1, Ok _) =>
          let '(s2, valid, signals) := persistClaiming (calls_after 1 cs) now s1 rest in
          (s2, set_LastUpdatedAt now (set_State SessionStateClaiming session) :: valid,
           (SessionID session, SupplierOperatorAddress session) :: signals)
      end
  end.

Definition IsOOMError (e : StoreErr) : bool := bool_decide (e = ErrIo IoOOM).

(** [persistProving]: a store that is out of memory does not stop a proof. *)
Fixpoint persistProving (cs : Calls) (now : Z) (s : St) (sessions : list SessionSnapshot)
  : St * list SessionSnapshot :=
  match sessions with
  | [] => (s, [])
  | session :: rest =>
      match UpdateState (cs 0%nat) now s (SessionID session) SessionStateProving with
      | (s1, r) =>
          let '(s2, valid) := persistProving (calls_after 1 cs) now s1 rest in
          let keep := match r with Ok _ => true | Err e => IsOOMError e end in
          (s2, if keep then set_LastUpdatedAt now (set_State SessionStateProving session) :: valid else valid)
      end
  end.

(** [checkSessionTransitions]: the manager after the pass, the work it handed
    out and the cleanup signals it published. *)
Definition checkSessionTransitions (cs1 cs2 cs3 : Calls) (now currentHeight : Z) (ch : Chain Params) (m : Manager St)
  : Manager St * list Task * list (string * string) :=
  let '(m1, ds) := checkLoop cs1 now currentHeight ch m (candidates ch currentHeight m) in
  let claiming := due_claims ds in
  let '(s2, valid, signals) := persistClaiming cs2 now (lm_store m1) claiming in
  let claimTask := match valid with [] => [] | _ => [TClaim valid (minWindow ch currentHeight claiming)] end in
  let '(s3, proving) := persistProving cs3 now s2 (due_proofs ds) in
  let proofTask := match proving with [] => [] | _ => [TProof proving] end in
  (with_store s3 m1, (claimTask ++ proofTask ++ map (fun x => TClose x.1 x.2) (due_closes ds))%list, signals).

(** ** What the pool runs *)

(** The refresh of a claim batch: the sessions the callback gets, and what the
    others became. A session whose read failed is claimed from memory. *)
Fixpoint refreshClaims (cs : Calls) (now : Z) (s : St) (sessions : list SessionSnapshot) : list SessionSnapshot :=
  match sessions with
  | [] => []
  | session :: rest =>
      let rest' := refreshClaims (calls_after 1 cs) now s rest in
      match ss_get (cs 0%nat) now s (SessionID session) with
      | Err _ => session :: rest'
      | Ok None => session :: rest'
      | Ok (Some fresh) =>
          if negb (String.eqb (ClaimTxHash fresh) "") || bool_decide (State fresh = SessionStateClaimed) then rest'
          else set_LastUpdatedAt (LastUpdatedAt fresh)
                 (set_claim (ClaimedRootHash session) (ClaimTxHash fresh)
                    (set_counters (RelayCount fresh) (TotalComputeUnits fresh) session)) :: rest'
      end
  end.

Fixpoint persistClaimed (cs : Calls) (now : Z) (s : St) (claimed : gset string) (sessions : list SessionSnapshot) : St :=
  match sessions with
  | [] => s
  | session :: rest =>
      if negb (bool_decide (SessionID session ∈ claimed)) then persistClaimed (calls_after 1 cs) now s claimed rest
      else persistClaimed (calls_after 1 cs) now
             (fst (UpdateState (cs 0%nat) now s (SessionID session) SessionStateClaimed)) claimed rest
  end.

(** [executeBatchedClaimTransition], after the pending relays were flushed:
    the sessions handed to the callback are returned too. *)
Definition executeBatchedClaimTransition (cs1 cs2 : Calls) (now : Z) (m : Manager St) (sessions : list SessionSnapshot)
  : Manager St * list SessionSnapshot :=
  match sessions with
  | [] => (m, [])
  | _ =>
      match refreshClaims cs1 now (lm_store m) sessions with
      | [] => (m, [])
      | refreshed =>
          let '(m1, claimed) := OnSessionsNeedClaim cb now m refreshed in
          (with_store (persistClaimed cs2 now (lm_store m1) claimed refreshed) m1, refreshed)
      end
  end.

(** The settled sessions of a proof batch, one by one: proved is persisted
    whether or not the write works, the callback runs, tracking ends. *)
Fixpoint settleProofs (cs : Calls) (now : Z) (m : Manager St) (settled : gset string) (sessions : list SessionSnapshot)
  : Manager St :=
  match sessions with
  | [] => m
  | session :: rest =>
      if negb (bool_decide (SessionID session ∈ settled)) then settleProofs (calls_after 1 cs) now m settled rest
      else
        let session1 := set_LastUpdatedAt now (set_State SessionStateProved session) in
        let s1 := fst (UpdateState (cs 0%nat) now (lm_store m) (SessionID session) SessionStateProved) in
        let m2 := OnTerminal cb SessionStateProved now (with_store s1 m) session1 in
        settleProofs (calls_after 1 cs) now (forget (SessionID session) m2) settled rest
  end.

Definition executeBatchedProofTransition (cs : Calls) (now : Z) (m : Manager St) (sessions : list SessionSnapshot)
  : Manager St :=
  match sessions with
  | [] => m
  | _ =>
      let '(m1, settled) := OnSessionsNeedProof cb now m sessions in
      settleProofs cs now m1 settled sessions
  end.

(** The states [executeTransition] has a callback for. *)
Definition has_callback (st : SessionState) : bool :=
  match st with
  | SessionStateProved | SessionStateProbabilisticProved | SessionStateClaimWindowClosed
  | SessionStateClaimTxError | SessionStateProofWindowClosed | SessionStateProofTxError => true
  | _ => false
  end.

(** [executeTransition]: the callback runs only once the state is persisted. *)
Definition executeTransition (io : Io) (now : Z) (m : Manager St) (session : SessionSnapshot) (newState : SessionState)
  : Manager St * bool :=
  match UpdateState io now (lm_store m) (SessionID session) newState with
  | (s1, Err _) => (with_store s1 m, false)
  | (s1, Ok _) =>
      let m1 := if has_callback newState then OnTerminal cb newState now (with_store s1 m) session
                else with_store s1 m in
      (if IsTerminal newState then forget (SessionID session) m1 else m1, has_callback newState)
  end.
End Manager.

(** ** The flush wait before a claim batch *)

(** One reading of the miner's progress: the highest handled message ID, if
    any, and the chain's height. IDs are compared by [atLeast]. *)
Record FlushProbe := mkProbe { fp_handled : option (Z * Z); fp_height : Z }.

Definition atLeast (a b : Z * Z) : bool := (b.1 <? a.1) || ((a.1 =? b.1) && (b.2 <=? a.2)).

Inductive FlushOutcome := FlushProceed | FlushCapped | FlushCancelled.

(** The poll loop: [None] is a cancelled context. Each poll that settles
    nothing waits for the next. *)
Fixpoint flushLoop (target : Z * Z) (capHeight : Z) (polls : list (option FlushProbe)) : option FlushOutcome :=
  match polls with
  | [] => None
  | None :: _ => Some FlushCancelled
  | Some p :: rest =>
      if match fp_handled p with Some h => atLeast h target | None => false end then Some FlushProceed
      else if capHeight <=? fp_height p then Some FlushCapped
      else flushLoop target capHeight rest
  end.

(** [awaitFlushWatermark]. [last] is the stream's last generated ID: an error,
    or none generated, or the ID to wait for. *)
Definition awaitFlushWatermark (configured : bool) (windowOpenHeight : Z) (start : FlushProbe)
    (last : result (option (Z * Z)) unit) (polls : list (option FlushProbe)) : option FlushOutcome :=
  if negb configured then Some FlushProceed
  else
    let capHeight := windowOpenHeight + claimFlushCapBlocks in
    if capHeight <=? fp_height start then Some FlushCapped
    else match last with
         | Err _ => Some FlushProceed
         | Ok None => Some FlushProceed
         | Ok (Some target) =>
             if match fp_handled start with Some h => atLeast h target | None => false end then Some FlushProceed
             else flushLoop target capHeight polls
         end.
