(* ===== verification/LifecycleSafety.v ===== *)
(** * Correctness of the session lifecycle

    Theorems on SessionLifecycle against any session store that keeps the
    contract of StoreSpec: what a pass over the tracked sessions hands out, what
    it wrote before, what it waits for, and what a start resumes. *)

From S2P Require Import Prelude SessionState StoreSpec SessionLifecycle.
From Stdlib Require Import Ascii String.

Local Open Scope string_scope.
Local Open Scope Z_scope.

(** ** Transitions *)

Section Transitions.
Context {Params : Type} `{SW : !SharedWindows Params} `{SWL : !SharedWindowsLaws Params}.
Implicit Types (p : option Params) (h : Z).

Lemma determineTransition_dispatched session h p st :
  determineTransition session h p = Some st ->
  IsTerminal (State session) = false /\ st <> State session /\
  match dispatch session st with
  | DueClaim s => s = session /\ st = SessionStateClaiming
  | DueProof s => s = session /\ st = SessionStateProving
  | DueClose s st' => s = session /\ st' = st /\ IsTerminal st = true
  | DueUndispatched _ _ => False
  end.
Proof.
  unfold determineTransition. destruct p as [p|]; [|done].
  destruct (State session) eqn:E; try done; simpl;
    repeat match goal with |- context [if ?b then Some _ else _] => destruct b
                         | |- context [if ?b then if _ then Some _ else _ else _] => destruct b end;
    intros [= <-]; done.
Qed.

(** How far a session got: before its claim, between claim and proof, over. *)
Definition phase (st : SessionState) : nat :=
  match st with
  | SessionStateActive | SessionStateClaiming => 0
  | SessionStateClaimed | SessionStateProving => 1
  | _ => 2
  end.

Lemma prefilter_none mem fresh h p :
  SessionEndHeight mem = SessionEndHeight fresh ->
  (phase (State mem) <= phase (State fresh))%nat ->
  sessionMightNeedTransition mem h p = false ->
  IsTerminal (State mem) = false /\ determineTransition fresh h p = None.
Proof.
  intros He Hp Hf. unfold sessionMightNeedTransition in Hf. rewrite He in Hf.
  destruct (IsTerminal (State mem)) eqn:Ht; [done|]. split; [done|].
  destruct p as [p|]; [|done]. unfold determineTransition.
  pose proof (claim_window_order p (SessionEndHeight fresh)).
  pose proof (claim_before_proof p (SessionEndHeight fresh)).
  pose proof (proof_window_order p (SessionEndHeight fresh)).
  destruct (State mem), (State fresh); simpl in *; try done; try lia;
    repeat case_match; try done; lia.
Qed.

Lemma determine_claiming session h p :
  determineTransition session h p = Some SessionStateClaiming ->
  State session = SessionStateActive /\
  exists q, p = Some q /\ GetClaimWindowOpenHeight q (SessionEndHeight session) <= h
            < GetClaimWindowCloseHeight q (SessionEndHeight session).
Proof.
  unfold determineTransition. destruct p as [q|]; [|done].
  destruct (State session) eqn:E; try done; repeat case_match; try done.
  intros _. split; [done|]. exists q. split; [done|lia].
Qed.

Lemma determine_closed session h p :
  determineTransition session h p = Some SessionStateClaimWindowClosed ->
  (State session = SessionStateActive \/ State session = SessionStateClaiming) /\
  exists q, p = Some q /\ GetClaimWindowCloseHeight q (SessionEndHeight session) <= h.
Proof.
  unfold determineTransition. destruct p as [q|]; [|done].
  destruct (State session) eqn:E; try done; repeat case_match; try done;
    intros _; (split; [auto|]); exists q; (split; [done|lia]).
Qed.
End Transitions.

(** ** The store under a pass *)

Section Store.
Context {St : Type} `{SS : !SessionStore St} `{SSL : !SessionStoreLaws St}.
Implicit Types (s : St) (id : string).

(** The session [id] was written with state [st], the guards of the write
    passed, and nothing else of it changed. *)
Definition moved (now : Z) s s' id (st : SessionState) : Prop :=
  exists o v, ss_view now s id = Some o /\ checkStateWrite o st = None /\
              ss_view now s' id = Some v /\ v ≡ set_State st o.

Lemma spec_update_moved o st now v b :
  spec_update st "" now (Some o) = Ok (v, b) -> checkStateWrite o st = None /\ v ≡ set_State st o.
Proof.
  unfold spec_update. destruct (checkStateWrite o st); [done|]. case_decide as E; simpl.
  - intros [= <- <-]. split; [done|]. rewrite <- E. by destruct o.
  - intros [= <- <-]. split; [done|]. by destruct o.
Qed.

Lemma view_equiv_some (x : option SessionSnapshot) v : x ≡ Some v -> exists w, x = Some w /\ w ≡ v.
Proof. inversion 1 as [w ? Hw|]; subst. eauto. Qed.

Lemma UpdateState_spec io now s id st s' r :
  ss_wf s -> ss_id id -> time_ok now -> known st = true ->
  UpdateState io now s id st = (s', r) ->
  ss_wf s' /\ (forall id', id' <> id -> ss_view now s' id' = ss_view now s id') /\
  match r with
  | Ok _ => moved now s s' id st
  | Err (ErrIo _) => ss_view now s' id ≡ ss_view now s id \/ moved now s s' id st
  | Err e => ss_view now s' id = ss_view now s id /\ spec_update st "" now (ss_view now s id) = Err e
  end.
Proof.
  intros Hwf Hid Hnow Hst Hu. unfold UpdateState in Hu.
  destruct (ss_update_spec io now s id st "" Hwf Hid Hnow) as (Hw & Hf & Hr); [done|done|].
  destruct (ss_update io now s id st "") as [s1 r1]. injection Hu as <- <-. simpl in *.
  split; [done|]. split; [done|].
  assert (forall v b, spec_update st "" now (ss_view now s id) = Ok (v, b) -> ss_view now s1 id ≡ Some v ->
    moved now s s1 id st) as Hm.
  { intros v b Hs Hv. destruct (ss_view now s id) as [o|] eqn:Ho; [|done].
    destruct (spec_update_moved _ _ _ _ _ Hs) as [Hc He].
    destruct (view_equiv_some _ _ Hv) as (w & Hvw & Hw'). exists o, w. split_and!; [done..|]. by rewrite Hw'. }
  destruct r1 as [b|e]; [destruct Hr as (v & Hs & Hv); eauto|].
  destruct e; try done. destruct Hr as [?|(v & b & Hs & Hv)]; eauto.
Qed.

Lemma moved_state now s s' id st : moved now s s' id st -> exists v, ss_view now s' id = Some v /\ State v = st.
Proof. intros (o & v & _ & _ & Hv & He). exists v. split; [done|]. rewrite He. by destruct o. Qed.

Lemma moved_frame now s0 s s' s1 id st :
  ss_view now s id = ss_view now s0 id -> ss_view now s1 id = ss_view now s' id ->
  moved now s s' id st -> moved now s0 s1 id st.
Proof. intros H1 H2 (o & v & Ho & Hc & Hv & He). exists o, v. by rewrite <- H1, H2. Qed.

Lemma persistClaiming_spec sessions : forall cs now s s' valid signals,
  ss_wf s -> Forall ss_id (map SessionID sessions) -> NoDup (map SessionID sessions) -> time_ok now ->
  persistClaiming cs now s sessions = (s', valid, signals) ->
  ss_wf s' /\ (forall id, id ∉ map SessionID sessions -> ss_view now s' id = ss_view now s id) /\
  signals = map (fun x => (SessionID x, SupplierOperatorAddress x)) valid /\
  Forall (fun x => exists y, y ∈ sessions /\ x = set_LastUpdatedAt now (set_State SessionStateClaiming y) /\
                             moved now s s' (SessionID y) SessionStateClaiming) valid.
Proof.
  induction sessions as [|y rest IH]; simpl; intros cs now s s' valid signals Hwf Hid Hnd Hnow Hp.
  { injection Hp as <- <- <-. done. }
  apply Forall_cons in Hid as [Hid Hids]. apply NoDup_cons in Hnd as [Hny Hnd].
  destruct (UpdateState (cs 0%nat) now s (SessionID y) SessionStateClaiming) as [s1 r] eqn:Hu.
  destruct (UpdateState_spec _ _ _ _ SessionStateClaiming _ _ Hwf Hid Hnow eq_refl Hu) as (Hw1 & Hf1 & Hr).
  assert (forall s2 v2 sg2, persistClaiming (calls_after 1 cs) now s1 rest = (s2, v2, sg2) ->
    ss_wf s2 /\ (forall id, id ∉ SessionID y :: map SessionID rest -> ss_view now s2 id = ss_view now s id) /\
    ss_view now s2 (SessionID y) = ss_view now s1 (SessionID y) /\
    sg2 = map (fun x => (SessionID x, SupplierOperatorAddress x)) v2 /\
    Forall (fun x => exists z, z ∈ y :: rest /\ x = set_LastUpdatedAt now (set_State SessionStateClaiming z) /\
                               moved now s s2 (SessionID z) SessionStateClaiming) v2) as Hrest.
  { intros s2 v2 sg2 H2. destruct (IH _ _ _ _ _ _ Hw1 Hids Hnd Hnow H2) as (Hw2 & Hf2 & Hs2 & Hv2).
    split_and!; [done| |by apply Hf2|done|].
    - intros id Hn. apply not_elem_of_cons in Hn as [Hn1 Hn2]. by rewrite Hf2, Hf1.
    - eapply Forall_impl; [exact Hv2|]. intros x (z & Hz & -> & Hm). exists z. split; [by right|]. split; [done|].
      eapply moved_frame; [|done|exact Hm]. apply Hf1. intros He.
      apply Hny. rewrite <- He. by apply list_elem_of_In, in_map, list_elem_of_In. }
  destruct r as [u|e].
  - destruct (persistClaiming (calls_after 1 cs) now s1 rest) as [[s2 v2] sg2] eqn:H2. injection Hp as <- <- <-.
    destruct (Hrest _ _ _ eq_refl) as (Hw2 & Hf2 & Hy & -> & Hv2). split_and!; [done..|].
    constructor; [|done]. exists y. split; [by left|]. split; [done|]. by eapply moved_frame; [|exact Hy|].
  - destruct (Hrest _ _ _ Hp) as (Hw2 & Hf2 & _ & Hs2 & Hv2). done.
Qed.

Lemma persistProving_spec sessions : forall cs now s s' valid,
  ss_wf s -> Forall ss_id (map SessionID sessions) -> time_ok now ->
  persistProving cs now s sessions = (s', valid) ->
  ss_wf s' /\ (forall id, id ∉ map SessionID sessions -> ss_view now s' id = ss_view now s id).
Proof.
  induction sessions as [|y rest IH]; simpl; intros cs now s s' valid Hwf Hid Hnow Hp.
  { by injection Hp as <- <-. }
  apply Forall_cons in Hid as [Hid Hids].
  destruct (UpdateState (cs 0%nat) now s (SessionID y) SessionStateProving) as [s1 r] eqn:Hu.
  destruct (UpdateState_spec _ _ _ _ SessionStateProving _ _ Hwf Hid Hnow eq_refl Hu) as (Hw1 & Hf1 & _).
  destruct (persistProving (calls_after 1 cs) now s1 rest) as [s2 v2] eqn:H2. injection Hp as <- <-.
  destruct (IH _ _ _ _ _ Hw1 Hids Hnow H2) as (Hw2 & Hf2). split; [done|].
  intros id Hn. apply not_elem_of_cons in Hn as [Hn1 Hn2]. by rewrite Hf2, Hf1.
Qed.
End Store.

(** ** A pass *)

(** What the lifecycle relies on in the callback that asks the chain: it
    leaves the store well formed and touches no other session. *)
Class ObserverLaws {St : Type} `{!SessionStore St} (cb : Callback St) : Prop := {
  observer_frame observe now m session m' a :
    ObserveClaimOnChain cb = Some observe -> observe now m session = (m', a) ->
    ss_wf (lm_store m) -> ss_id (SessionID session) -> time_ok now ->
    ss_view now (lm_store m) (SessionID session) = Some session -> storable session ->
    ss_wf (lm_store m') /\
    (forall id, id <> SessionID session ->
       ss_view now (lm_store m') id = ss_view now (lm_store m) id /\
       (id ∈ resumedUnsentClaims m' <-> id ∈ resumedUnsentClaims m))
}.

Section Pass.
Context {St : Type} `{SS : !SessionStore St} `{SSL : !SessionStoreLaws St}.
Context {Params : Type} `{SW : !SharedWindows Params}.
Variable cb : Callback St.
Context `{OL : !ObserverLaws cb}.
Variables (now h : Z) (ch : Chain Params).
Hypothesis Hnow : time_ok now.
Implicit Types (m : Manager St) (id : string) (d : Due).

Abbreviation view m id := (ss_view now (lm_store m) id).
Abbreviation params session := (resolveParams ch h (SessionEndHeight session)).

(** Other sessions than [id] are as they were. *)
Definition others_kept id m m' : Prop :=
  ss_wf (lm_store m') /\
  forall id', id' <> id -> view m' id' = view m id' /\
                           (id' ∈ resumedUnsentClaims m' <-> id' ∈ resumedUnsentClaims m).

(** The chain was asked for the session's claim when nothing could add it any
    more, and had none; or there is nobody to ask. *)
Definition chain_has_no_claim (session : SessionSnapshot) : Prop :=
  (exists q, params session = Some q /\ GetClaimWindowCloseHeight q (SessionEndHeight session) < h) /\
  (ObserveClaimOnChain cb = None \/
   exists observe m0 m1, ObserveClaimOnChain cb = Some observe /\ observe now m0 session = (m1, Some false)).

(** The candidate [id] of [m] is due [d]. *)
Definition due_for m id d : Prop :=
  exists session st, view m id = Some session /\ SessionID session = id /\
    determineTransition session h (params session) = Some st /\ d = dispatch session st /\
    (st = SessionStateClaimWindowClosed -> mayHaveClaimOnChain m session = true -> chain_has_no_claim session).

Definition is_close d : bool := match d with DueClose _ _ => true | _ => false end.

Definition stored_ok m id : Prop :=
  forall snap, view m id = Some snap -> SessionID snap = id /\ storable snap.

Lemma forget_kept id m : ss_wf (lm_store m) -> others_kept id m (forget id m).
Proof. intros H. split; [done|]. intros id' Hne. split; [done|]. simpl. set_solver. Qed.

Lemma unresume_kept id m m' : others_kept id m m' -> others_kept id m (unresume id m').
Proof.
  intros [Hw Hk]. split; [done|]. intros id' Hne. destruct (Hk id' Hne) as [Hv Hr]. split; [done|].
  simpl. rewrite <- Hr. clear -Hne. set_solver.
Qed.

Lemma askChain_spec cs m session m' go :
  ss_wf (lm_store m) -> ss_id (SessionID session) -> view m (SessionID session) = Some session -> storable session ->
  askChain cb cs now h ch m session = (m', go) ->
  others_kept (SessionID session) m m' /\ (go = true -> chain_has_no_claim session).
Proof.
  intros Hwf Hid Hvs Hsto. unfold askChain, chain_has_no_claim.
  assert (others_kept (SessionID session) m m) as Hrefl by (split; [done|]; intros; done).
  destruct (params session) as [q|] eqn:Hq; simpl; [|by intros [= <- <-]].
  unfold claimReadIsFinal. destruct (Z.ltb_spec (GetClaimWindowCloseHeight q (SessionEndHeight session)) h) as [Hlt|Hge];
    simpl; [|by intros [= <- <-]].
  destruct (ObserveClaimOnChain cb) as [observe|] eqn:Ho.
  2:{ intros [= <- <-]. split; [by apply unresume_kept|]. eauto. }
  destruct (observe now m session) as [m1 a] eqn:Hob.
  destruct (observer_frame observe now m session m1 a Ho Hob Hwf Hid Hnow Hvs Hsto) as [Hw1 Hk1].
  assert (others_kept (SessionID session) m m1) as Hk by done.
  destruct a as [[]|]; intros [= <- <-].
  - split; [|done]. destruct (ss_get _ _ _ _) as [[fresh|]|]; by apply (unresume_kept _ _ m1).
  - split; [by apply unresume_kept|]. intros _. split; [by exists q|]. right. eauto.
  - done.
Qed.

Lemma checkOne_spec cs m id m' od :
  ss_wf (lm_store m) -> ss_id id -> stored_ok m id ->
  checkOne cb cs now h ch m id = (m', od) ->
  others_kept id m m' /\ (forall d, od = Some d -> due_for m id d /\ (is_close d = false -> m' = m)).
Proof.
  intros Hwf Hid Hn. unfold checkOne.
  assert (others_kept id m m) as Hrefl by (split; [done|]; intros; done).
  pose proof (forget_kept id m Hwf) as Hforget.
  destruct (ss_get (cs 0%nat) now (lm_store m) id) as [[session|]|e] eqn:Hg; [|by intros [= <- <-]..].
  apply ss_get_view in Hg; [|done|done]. symmetry in Hg. destruct (Hn _ Hg) as [Hsid Hsto].
  destruct (IsTerminal (State session)); [rewrite Hsid; by intros [= <- <-]|].
  destruct (determineTransition session h (params session)) as [st|] eqn:Hdt; [|by intros [= <- <-]].
  destruct (bool_decide (st = State session)); [by intros [= <- <-]|].
  destruct (bool_decide_reflect (st = SessionStateClaimWindowClosed)) as [->|Hcw]; simpl.
  - destruct (mayHaveClaimOnChain m session) eqn:Hmay.
    + destruct (askChain _ _ _ _ _ _ _) as [m1 go] eqn:Ha. rewrite <- Hsid in Hid.
      destruct (askChain_spec _ _ _ _ _ Hwf Hid ltac:(by rewrite Hsid) Hsto Ha) as [Hk Hgo]. rewrite Hsid in Hk.
      intros [= <- <-]. split; [done|]. destruct go; [|done]. intros d [= <-]. split; [|done].
      exists session, SessionStateClaimWindowClosed. split_and!; auto.
    + intros [= <- <-]. split; [done|]. intros d [= <-]. split; [|done].
      exists session, SessionStateClaimWindowClosed. split_and!; auto. congruence.
  - intros [= <- <-]. split; [done|]. intros d [= <-]. split; [|done]. exists session, st. by split_and!.
Qed.

Lemma due_for_kept m m0 id d :
  view m0 id = view m id -> (id ∈ resumedUnsentClaims m0 <-> id ∈ resumedUnsentClaims m) ->
  due_for m0 id d -> due_for m id d.
Proof.
  intros Hv Hr (session & st & Hs & Hi & Hd & -> & Hc). exists session, st. rewrite <- Hv.
  split_and!; [done..|]. intros Hst Hm. apply Hc; [done|]. rewrite <- Hm. unfold mayHaveClaimOnChain.
  f_equal. apply bool_decide_ext. by rewrite Hi.
Qed.

Definition due_id d : string :=
  match d with
  | DueClaim s | DueProof s | DueClose s _ | DueUndispatched s _ => SessionID s
  end.

Lemma dispatch_id session st : due_id (dispatch session st) = SessionID session.
Proof. unfold dispatch. by repeat case_match. Qed.

Lemma due_for_id m id d : due_for m id d -> due_id d = id.
Proof. intros (session & st & _ & <- & _ & -> & _). apply dispatch_id. Qed.

(** What a loop over the candidates leaves of a due session. *)
Definition due_kept m m' d : Prop :=
  due_for m (due_id d) d /\ (is_close d = false -> view m' (due_id d) = view m (due_id d)).

Lemma due_kept_trans m m1 m' d id :
  others_kept id m m1 -> due_id d <> id -> due_kept m1 m' d -> due_kept m m' d.
Proof.
  intros [_ Hk] Hne [Hd Hc]. destruct (Hk _ Hne) as [Hv Hr]. split; [by apply (due_for_kept m m1)|].
  intros H. by rewrite Hc.
Qed.

Lemma checkLoop_spec ids : forall cs m m' ds,
  ss_wf (lm_store m) -> Forall ss_id ids -> Forall (stored_ok m) ids -> NoDup ids ->
  checkLoop cb cs now h ch m ids = (m', ds) ->
  ss_wf (lm_store m') /\ Forall (fun d => due_id d ∈ ids /\ due_kept m m' d) ds /\ NoDup (map due_id ds) /\
  (forall id, id ∉ ids -> view m' id = view m id).
Proof.
  induction ids as [|id ids IH]; simpl; intros cs m m' ds Hwf Hid Hn Hnd Hl.
  { injection Hl as <- <-. split_and!; try done. }
  apply Forall_cons in Hid as [Hid Hids]. apply Forall_cons in Hn as [Hn Hns]. apply NoDup_cons in Hnd as [Hni Hnd].
  destruct (checkOne cb cs now h ch m id) as [m1 od] eqn:H1.
  destruct (checkOne_spec _ _ _ _ _ Hwf Hid Hn H1) as [Hk Hd1]. pose proof Hk as [Hw1 Hk1].
  destruct (checkLoop cb (calls_after 2 cs) now h ch m1 ids) as [m2 ds2] eqn:H2. injection Hl as <- <-.
  assert (forall id', id' ∈ ids -> id' <> id) as Hne by (intros id' Hi ->; done).
  assert (Forall (stored_ok m1) ids) as Hns1.
  { apply Forall_forall. intros id' Hi snap. rewrite (proj1 (Hk1 id' (Hne id' Hi))).
    by apply (proj1 (Forall_forall _ _) Hns). }
  destruct (IH _ _ _ _ Hw1 Hids Hns1 Hnd H2) as (Hw2 & Hd2 & Hnd2 & Hf2).
  split_and!; [done|..].
  - assert (Forall (fun d => due_id d ∈ id :: ids /\ due_kept m m2 d) ds2) as Hd2'.
    { eapply Forall_impl; [exact Hd2|]. intros d [Hi Hd]. split; [by right|]. by eapply due_kept_trans; eauto. }
    destruct od as [d|]; [|done]. constructor; [|done]. destruct (Hd1 d eq_refl) as [Hd Hm].
    pose proof (due_for_id _ _ _ Hd) as He. unfold due_kept. rewrite He. split; [by left|]. split; [done|].
    intros Hc. by rewrite Hf2, (Hm Hc).
  - destruct od as [d|]; [|done]. simpl. apply NoDup_cons. split; [|done].
    rewrite (due_for_id _ _ _ (proj1 (Hd1 d eq_refl))). intros Hi. apply Hni.
    apply list_elem_of_In, in_map_iff in Hi as (d2 & <- & Hi2). apply list_elem_of_In in Hi2.
    by apply (proj1 (Forall_forall _ _) Hd2).
  - intros id' Hi. apply not_elem_of_cons in Hi as [Hi1 Hi2]. rewrite Hf2 by done. by apply Hk1.
Qed.

(** *** The batches *)

Lemma nodup_map_inj {A B} (f : A -> B) (l : list A) x y :
  NoDup (map f l) -> x ∈ l -> y ∈ l -> f x = f y -> x = y.
Proof.
  induction l as [|a l IH]; simpl; intros Hnd Hx Hy He; [by apply not_elem_of_nil in Hx|].
  apply NoDup_cons in Hnd as [Hn Hnd]. assert (forall z, z ∈ l -> f z <> f a) as Hz.
  { intros z Hz Heq. apply Hn. rewrite <- Heq. by apply list_elem_of_In, in_map, list_elem_of_In. }
  apply elem_of_cons in Hx as [->|Hx], Hy as [->|Hy]; [done|..|by apply IH].
  - by apply Hz in Hy.
  - by apply Hz in Hx.
Qed.

Lemma elem_due_claims ds x : x ∈ due_claims ds <-> DueClaim x ∈ ds.
Proof.
  unfold due_claims. rewrite list_elem_of_omap. split; [|by exists (DueClaim x)].
  intros (d & Hd & He). destruct d; by simplify_eq.
Qed.
Lemma elem_due_proofs ds x : x ∈ due_proofs ds <-> DueProof x ∈ ds.
Proof.
  unfold due_proofs. rewrite list_elem_of_omap. split; [|by exists (DueProof x)].
  intros (d & Hd & He). destruct d; by simplify_eq.
Qed.
Lemma elem_due_closes ds x st : (x, st) ∈ due_closes ds <-> DueClose x st ∈ ds.
Proof.
  unfold due_closes. rewrite list_elem_of_omap. split; [|by exists (DueClose x st)].
  intros (d & Hd & He). destruct d; by simplify_eq.
Qed.

Lemma nodup_claims ds : NoDup (map due_id ds) -> NoDup (map SessionID (due_claims ds)).
Proof.
  unfold due_claims. induction ds as [|d ds IH]; simpl; intros Hnd; [done|]. apply NoDup_cons in Hnd as [Hn Hnd].
  destruct d as [s|s|s st|s st]; simpl; [|by apply IH..]. apply NoDup_cons. split; [|by apply IH].
  intros Hi. apply Hn. apply list_elem_of_In, in_map_iff in Hi as (y & Hy & Hi). apply list_elem_of_In in Hi.
  apply (elem_due_claims ds y) in Hi. simpl in *. rewrite <- Hy.
  change (SessionID y) with (due_id (DueClaim y)). by apply list_elem_of_In, in_map, list_elem_of_In.
Qed.

Lemma candidates_nodup m : NoDup (candidates ch h m).
Proof.
  unfold candidates, fmap, list_fmap. pose proof (NoDup_fst_map_to_list (activeSessions m)) as Hnd.
  induction (map_to_list (activeSessions m)) as [|kv l IH]; simpl in *; [constructor|].
  apply NoDup_cons in Hnd as [Hn Hnd]. case_match; [|by apply IH]. simpl. apply NoDup_cons. split; [|by apply IH].
  intros Hi. apply Hn. apply list_elem_of_In, in_map_iff in Hi as (y & <- & Hi). apply filter_In in Hi as [Hi _].
  by apply list_elem_of_In, (in_map fst).
Qed.

Lemma elem_candidates m id :
  id ∈ candidates ch h m <->
  exists mem, activeSessions m !! id = Some mem /\ sessionMightNeedTransition mem h (params mem) = true.
Proof.
  unfold candidates. rewrite list_elem_of_In, in_map_iff. split.
  - intros ([k mem] & <- & Hi). apply filter_In in Hi as [Hi Hm]. exists mem.
    by apply list_elem_of_In, elem_of_map_to_list in Hi.
  - intros (mem & Hl & Hm). exists (id, mem). split; [done|]. apply filter_In. split; [|done].
    by apply list_elem_of_In, elem_of_map_to_list.
Qed.

(** A manager whose sessions are tracked under IDs the store can carry, and
    stored under their own ID as the miner wrote them. *)
Definition manager_ok m : Prop :=
  ss_wf (lm_store m) /\ (forall id, id ∈ dom (activeSessions m) -> ss_id id /\ stored_ok m id).

Lemma candidates_ok m : manager_ok m -> Forall ss_id (candidates ch h m) /\ Forall (stored_ok m) (candidates ch h m).
Proof.
  intros [_ Hok]. split; apply Forall_forall; intros id (mem & Hl & _)%elem_candidates;
    by apply Hok, elem_of_dom_2 in Hl || (apply Hok; by apply elem_of_dom_2 in Hl).
Qed.
(** Everything a pass did, from its parts. *)
Lemma pass_parts cs1 cs2 cs3 m m' tasks signals :
  manager_ok m -> checkSessionTransitions cb cs1 cs2 cs3 now h ch m = (m', tasks, signals) ->
  exists m1 ds s2 valid s3 proving,
    checkLoop cb cs1 now h ch m (candidates ch h m) = (m1, ds) /\
    ss_wf (lm_store m1) /\ Forall (fun d => due_id d ∈ candidates ch h m /\ due_kept m m1 d) ds /\
    NoDup (map due_id ds) /\
    persistClaiming cs2 now (lm_store m1) (due_claims ds) = (s2, valid, signals) /\
    persistProving cs3 now s2 (due_proofs ds) = (s3, proving) /\ lm_store m' = s3 /\
    (forall batch wo, TClaim batch wo ∈ tasks <-> valid <> [] /\ batch = valid /\ wo = minWindow ch h (due_claims ds)) /\
    (forall x st, TClose x st ∈ tasks <-> DueClose x st ∈ ds).
Proof.
  intros [Hwf Hok] Hc. unfold checkSessionTransitions in Hc.
  destruct (candidates_ok m (conj Hwf Hok)) as [Hids Hns].
  destruct (checkLoop cb cs1 now h ch m (candidates ch h m)) as [m1 ds] eqn:H1.
  destruct (checkLoop_spec _ _ _ _ _ Hwf Hids Hns (candidates_nodup m) H1) as (Hw1 & Hd & Hnd & _).
  destruct (persistClaiming cs2 now (lm_store m1) (due_claims ds)) as [[s2 valid] sg] eqn:H2.
  destruct (persistProving cs3 now s2 (due_proofs ds)) as [s3 proving] eqn:H3. injection Hc as <- <- <-.
  exists m1, ds, s2, valid, s3, proving. split_and!; [done..| |].
  - intros batch wo. rewrite !elem_of_app. split.
    + intros [Hi|[Hi|Hi]].
      * destruct valid; [by apply not_elem_of_nil in Hi|]. apply list_elem_of_singleton in Hi. by simplify_eq.
      * destruct proving; [by apply not_elem_of_nil in Hi|]. by apply list_elem_of_singleton in Hi.
      * apply list_elem_of_In, in_map_iff in Hi as ([y st] & Hy & _). done.
    + intros (Hne & -> & ->). left. destruct valid; [done|]. by apply list_elem_of_singleton.
  - intros x st. rewrite !elem_of_app. rewrite <- elem_due_closes. split.
    + intros [Hi|[Hi|Hi]].
      * destruct valid; [by apply not_elem_of_nil in Hi|]. by apply list_elem_of_singleton in Hi.
      * destruct proving; [by apply not_elem_of_nil in Hi|]. by apply list_elem_of_singleton in Hi.
      * apply list_elem_of_In, in_map_iff in Hi as ([y st'] & Hy & Hi). simpl in Hy. simplify_eq.
        by apply list_elem_of_In.
    + intros Hi. right. right. apply list_elem_of_In, (in_map (fun x => TClose x.1 x.2) _ (x, st)).
      by apply list_elem_of_In.
Qed.

Lemma due_ids_ok m (ds : list Due) (l : list SessionSnapshot) :
  manager_ok m -> (forall d, d ∈ ds -> due_id d ∈ candidates ch h m) ->
  (forall x, x ∈ l -> exists d, d ∈ ds /\ due_id d = SessionID x) -> Forall ss_id (map SessionID l).
Proof.
  intros Hm Hd Hl. destruct (candidates_ok m Hm) as [Hids _]. apply Forall_forall. intros id Hi.
  apply list_elem_of_In, in_map_iff in Hi as (x & <- & Hi). apply list_elem_of_In in Hi.
  destruct (Hl x Hi) as (d & Hdi & <-). apply (proj1 (Forall_forall _ _) Hids). auto.
Qed.

Lemma due_claim_for m m1 x :
  due_kept m m1 (DueClaim x) ->
  view m (SessionID x) = Some x /\ State x = SessionStateActive /\ view m1 (SessionID x) = view m (SessionID x) /\
  exists q, params x = Some q /\ GetClaimWindowOpenHeight q (SessionEndHeight x) <= h
            < GetClaimWindowCloseHeight q (SessionEndHeight x).
Proof.
  intros [(session & st & Hv & Hi & Hd & He & _) Hk]. simpl in *.
  destruct (determineTransition_dispatched session h (params session) st Hd) as (_ & _ & Hdis).
  rewrite <- He in Hdis. destruct Hdis as [<- ->].
  destruct (determine_claiming _ _ _ Hd) as (Ha & q & Hq & Hw). split_and!; [done|done|by apply Hk|]. eauto.
Qed.

Lemma pass_claim_batch cs1 cs2 cs3 m m' tasks signals batch wo x :
  manager_ok m -> checkSessionTransitions cb cs1 cs2 cs3 now h ch m = (m', tasks, signals) ->
  TClaim batch wo ∈ tasks -> x ∈ batch ->
  exists old q, view m (SessionID x) = Some old /\ State old = SessionStateActive /\ params old = Some q /\
    GetClaimWindowOpenHeight q (SessionEndHeight old) <= h < GetClaimWindowCloseHeight q (SessionEndHeight old) /\
    SessionID x ∈ dom (activeSessions m) /\
    moved now (lm_store m) (lm_store m') (SessionID x) SessionStateClaiming /\
    (SessionID x, SupplierOperatorAddress x) ∈ signals.
Proof.
  intros Hm Hc Ht Hx.
  destruct (pass_parts _ _ _ _ _ _ _ Hm Hc) as (m1 & ds & s2 & valid & s3 & proving & H1 & Hw1 & Hd & Hnd & H2 & H3 & Hs3 & HT & _).
  apply HT in Ht as (_ & -> & _).
  assert (forall d, d ∈ ds -> due_id d ∈ candidates ch h m) as Hdi by (intros d Hi; by apply (proj1 (Forall_forall _ _) Hd)).
  assert (Forall ss_id (map SessionID (due_claims ds))) as Hic.
  { apply (due_ids_ok m ds); [done..|]. intros y Hy%elem_due_claims. by exists (DueClaim y). }
  assert (Forall ss_id (map SessionID (due_proofs ds))) as Hip.
  { apply (due_ids_ok m ds); [done..|]. intros y Hy%elem_due_proofs. by exists (DueProof y). }
  destruct (persistClaiming_spec _ _ _ _ _ _ _ Hw1 Hic (nodup_claims ds Hnd) Hnow H2) as (Hw2 & Hf2 & -> & Hv).
  destruct (persistProving_spec _ _ _ _ _ _ Hw2 Hip Hnow H3) as (Hw3 & Hf3).
  destruct (proj1 (Forall_forall _ _) Hv x Hx) as (y & Hy & -> & Hmv).
  apply elem_due_claims in Hy. destruct (proj1 (Forall_forall _ _) Hd _ Hy) as [Hyc Hyd].
  destruct (due_claim_for _ _ _ Hyd) as (Hvy & Hay & Hky & q & Hq & Hwin).
  exists y, q. change (SessionID (set_LastUpdatedAt now (set_State SessionStateClaiming y))) with (SessionID y).
  do 4 (split; [done|]). split; [|split].
  - simpl in Hyc. apply elem_candidates in Hyc as (mem & Hl & _). by apply elem_of_dom_2 in Hl.
  - subst s3. eapply moved_frame; [exact Hky| |exact Hmv]. apply Hf3. intros Hi.
    apply list_elem_of_In, in_map_iff in Hi as (z & Hz & Hi). apply list_elem_of_In, elem_due_proofs in Hi.
    pose proof (nodup_map_inj due_id ds (DueClaim y) (DueProof z) Hnd Hy Hi) as Heq. simpl in Heq. discriminate (Heq (eq_sym Hz)).
  - apply list_elem_of_In, (in_map (fun x => (SessionID x, SupplierOperatorAddress x)) valid
      (set_LastUpdatedAt now (set_State SessionStateClaiming y))). by apply list_elem_of_In.
Qed.

Lemma pass_close cs1 cs2 cs3 m m' tasks signals x :
  manager_ok m -> checkSessionTransitions cb cs1 cs2 cs3 now h ch m = (m', tasks, signals) ->
  TClose x SessionStateClaimWindowClosed ∈ tasks ->
  view m (SessionID x) = Some x /\
  (State x = SessionStateActive \/ State x = SessionStateClaiming) /\
  (exists q, params x = Some q /\ GetClaimWindowCloseHeight q (SessionEndHeight x) <= h) /\
  (mayHaveClaimOnChain m x = true -> chain_has_no_claim x).
Proof.
  intros Hm Hc Ht.
  destruct (pass_parts _ _ _ _ _ _ _ Hm Hc) as (m1 & ds & s2 & valid & s3 & proving & H1 & Hw1 & Hd & Hnd & H2 & H3 & Hs3 & _ & HT).
  apply HT in Ht. destruct (proj1 (Forall_forall _ _) Hd _ Ht) as [_ [(session & st & Hv & Hi & Hdt & He & Hcl) _]].
  destruct (determineTransition_dispatched session h (params session) st Hdt) as (_ & _ & Hdis).
  rewrite <- He in Hdis. destruct Hdis as (<- & <- & _). simpl in Hv.
  destruct (determine_closed _ _ _ Hdt) as (Hs & q & Hq & Hle). split_and!; eauto.
Qed.
(** *** No due session is left out *)

Definition answered (cs : Calls) : Prop := forall k, cs k = io_ok.

Lemma answered_after n cs : answered cs -> answered (calls_after n cs).
Proof. intros H k. apply H. Qed.

Lemma checkOne_due cs m id session st :
  answered cs -> ss_wf (lm_store m) -> ss_id id -> view m id = Some session ->
  determineTransition session h (params session) = Some st -> st <> SessionStateClaimWindowClosed ->
  checkOne cb cs now h ch m id = (m, Some (dispatch session st)).
Proof.
  intros Hcs Hwf Hid Hv Hd Hst. unfold checkOne. rewrite Hcs, ss_get_answers, Hv by done.
  destruct (determineTransition_dispatched _ _ _ _ Hd) as (-> & Hne & _). rewrite Hd.
  rewrite bool_decide_false by done. by rewrite bool_decide_false.
Qed.

Lemma checkLoop_due ids : forall cs m m' ds id session st,
  answered cs -> ss_wf (lm_store m) -> Forall ss_id ids -> Forall (stored_ok m) ids -> NoDup ids ->
  checkLoop cb cs now h ch m ids = (m', ds) -> id ∈ ids -> view m id = Some session ->
  determineTransition session h (params session) = Some st -> st <> SessionStateClaimWindowClosed ->
  dispatch session st ∈ ds.
Proof.
  induction ids as [|i ids IH]; intros cs m m' ds id session st Hcs Hwf Hid Hn Hnd Hl Hi Hv Hd Hst.
  { by apply not_elem_of_nil in Hi. }
  simpl in Hl. apply Forall_cons in Hid as [Hid Hids]. apply Forall_cons in Hn as [Hn Hns].
  apply NoDup_cons in Hnd as [Hni Hnd].
  destruct (checkOne cb cs now h ch m i) as [m1 od] eqn:H1.
  destruct (checkOne_spec _ _ _ _ _ Hwf Hid Hn H1) as [[Hw1 Hk1] _].
  destruct (checkLoop cb (calls_after 2 cs) now h ch m1 ids) as [m2 ds2] eqn:H2. injection Hl as <- <-.
  apply elem_of_cons in Hi as [->|Hi].
  - rewrite (checkOne_due _ _ _ session st) in H1 by done. injection H1 as <- <-. by left.
  - assert (forall id', id' ∈ ids -> id' <> i) as Hne by (intros id' Hi' ->; done).
    assert (Forall (stored_ok m1) ids) as Hns1.
    { apply Forall_forall. intros id' Hi' snap. rewrite (proj1 (Hk1 id' (Hne id' Hi'))).
      by apply (proj1 (Forall_forall _ _) Hns). }
    assert (dispatch session st ∈ ds2) as Hin.
    { eapply (IH (calls_after 2 cs) m1 m2 ds2 id); try done; [by apply answered_after|].
      by rewrite (proj1 (Hk1 id (Hne id Hi))). }
    destruct od; [by right|done].
Qed.

Lemma UpdateState_claiming_ok s id o s' r :
  ss_wf s -> ss_id id -> ss_view now s id = Some o ->
  UpdateState io_ok now s id SessionStateClaiming = (s', r) -> r = Ok tt.
Proof.
  intros Hwf Hid Hv Hu.
  destruct (UpdateState_spec _ _ _ _ SessionStateClaiming _ _ Hwf Hid Hnow eq_refl Hu) as (_ & _ & Hr).
  destruct r as [[]|e]; [done|]. exfalso.
  assert (checkStateWrite o SessionStateClaiming = None) as Hc by done.
  assert (forall x, spec_update SessionStateClaiming "" now (ss_view now s id) = Err x -> False) as Hs.
  { intros x. rewrite Hv. unfold spec_update. rewrite Hc. by case_decide. }
  destruct e; try (destruct Hr as [_ Hr]; exact (Hs _ Hr)).
  unfold UpdateState in Hu. pose proof (ss_update_answers now s id SessionStateClaiming "" e Hwf Hid Hnow eq_refl) as Ha.
  destruct (ss_update io_ok now s id SessionStateClaiming "") as [s1 [b|x]]; simplify_eq.
Qed.

Lemma persistClaiming_all sessions : forall cs s s' valid signals y,
  answered cs -> ss_wf s -> Forall ss_id (map SessionID sessions) -> NoDup (map SessionID sessions) ->
  persistClaiming cs now s sessions = (s', valid, signals) ->
  y ∈ sessions -> is_Some (ss_view now s (SessionID y)) ->
  set_LastUpdatedAt now (set_State SessionStateClaiming y) ∈ valid.
Proof.
  induction sessions as [|z rest IH]; simpl; intros cs s s' valid signals y Hcs Hwf Hid Hnd Hp Hy Hv.
  { by apply not_elem_of_nil in Hy. }
  apply Forall_cons in Hid as [Hid Hids]. apply NoDup_cons in Hnd as [Hny Hnd].
  rewrite Hcs in Hp. destruct (UpdateState io_ok now s (SessionID z) SessionStateClaiming) as [s1 r] eqn:Hu.
  destruct (UpdateState_spec _ _ _ _ SessionStateClaiming _ _ Hwf Hid Hnow eq_refl Hu) as (Hw1 & Hf1 & _).
  assert (y ∈ rest -> is_Some (ss_view now s1 (SessionID y))) as Hkeep.
  { intros Hi. rewrite Hf1; [done|]. intros He. apply Hny. rewrite <- He.
    by apply list_elem_of_In, in_map, list_elem_of_In. }
  pose proof (answered_after 1 cs Hcs) as Hcs1. apply elem_of_cons in Hy as [->|Hy].
  - destruct Hv as [o Ho]. rewrite (UpdateState_claiming_ok _ _ _ _ _ Hwf Hid Ho Hu) in Hp.
    destruct (persistClaiming (calls_after 1 cs) now s1 rest) as [[s2 v2] sg2]. injection Hp as <- <- <-. by left.
  - specialize (Hkeep Hy). destruct r; [|by eapply (IH (calls_after 1 cs) s1)].
    destruct (persistClaiming (calls_after 1 cs) now s1 rest) as [[s2 v2] sg2] eqn:H2. injection Hp as <- <- <-.
    right. by eapply (IH (calls_after 1 cs) s1).
Qed.

Context `{SWL : !SharedWindowsLaws Params}.

Lemma pass_complete cs1 cs2 cs3 m m' tasks signals mem session q :
  manager_ok m -> answered cs1 -> answered cs2 ->
  checkSessionTransitions cb cs1 cs2 cs3 now h ch m = (m', tasks, signals) ->
  activeSessions m !! SessionID session = Some mem ->
  SessionEndHeight mem = SessionEndHeight session ->
  (phase (State mem) <= phase (State session))%nat ->
  view m (SessionID session) = Some session -> State session = SessionStateActive -> params session = Some q ->
  GetClaimWindowOpenHeight q (SessionEndHeight session) <= h < GetClaimWindowCloseHeight q (SessionEndHeight session) ->
  exists batch wo, TClaim batch wo ∈ tasks /\ SessionID session ∈ map SessionID batch.
Proof.
  intros Hm Hc1 Hc2 Hc Hmem Hend Hph Hv Ha Hq Hwin.
  destruct (pass_parts _ _ _ _ _ _ _ Hm Hc) as (m1 & ds & s2 & valid & s3 & proving & H1 & Hw1 & Hd & Hnd & H2 & H3 & Hs3 & HT & _).
  assert (determineTransition session h (params session) = Some SessionStateClaiming) as Hdt.
  { unfold determineTransition. rewrite Hq, Ha. destruct (Z.leb_spec (GetClaimWindowCloseHeight q (SessionEndHeight session)) h); [lia|].
    destruct (Z.leb_spec (GetClaimWindowOpenHeight q (SessionEndHeight session)) h); [|lia].
    destruct (Z.ltb_spec h (GetClaimWindowCloseHeight q (SessionEndHeight session))); [done|lia]. }
  assert (SessionID session ∈ candidates ch h m) as Hcand.
  { apply elem_candidates. exists mem. split; [done|]. rewrite Hend.
    destruct (sessionMightNeedTransition mem h (params session)) eqn:Hmt; [done|].
    destruct (prefilter_none mem session h (params session) Hend Hph Hmt) as [_ Hnone]. congruence. }
  destruct (candidates_ok m Hm) as [Hids Hns].
  assert (DueClaim session ∈ ds) as Hin
    by exact (checkLoop_due _ _ _ _ _ _ _ _ Hc1 (proj1 Hm) Hids Hns (candidates_nodup m) H1 Hcand Hv Hdt (fun H => ltac:(discriminate H))).
  destruct (proj1 (Forall_forall _ _) Hd _ Hin) as [_ Hkept]. destruct (due_claim_for _ _ _ Hkept) as (_ & _ & Hk & _).
  assert (Forall ss_id (map SessionID (due_claims ds))) as Hic.
  { apply (due_ids_ok m ds); [done|intros d Hi; by apply (proj1 (Forall_forall _ _) Hd)|].
    intros y Hy%elem_due_claims. by exists (DueClaim y). }
  pose proof (persistClaiming_all _ _ _ _ _ _ session Hc2 Hw1 Hic (nodup_claims ds Hnd) H2
    (proj2 (elem_due_claims ds session) Hin)) as Hvalid. rewrite Hk, Hv in Hvalid. specialize (Hvalid (ex_intro _ _ eq_refl)).
  exists valid, (minWindow ch h (due_claims ds)). split.
  - apply HT. split_and!; [|done..]. intros ->. by apply not_elem_of_nil in Hvalid.
  - apply list_elem_of_In, in_map_iff. eexists. split; [|by apply list_elem_of_In]. done.
Qed.
End Pass.

(** ** What the pool runs *)

Section Run.
Context {St : Type} `{SS : !SessionStore St} `{SSL : !SessionStoreLaws St}.
Variable cb : Callback St.
Variable now : Z.
Hypothesis Hnow : time_ok now.
Implicit Types (m : Manager St) (session : SessionSnapshot) (st : SessionState).

Abbreviation view m id := (ss_view now (lm_store m) id).

Lemma known_of_callback st : has_callback st = true -> known st = true.
Proof. by destruct st. Qed.

(** The callback ran on a store that already holds the new state, or it did
    not run and the session is still tracked. *)
Lemma execute_persists_first io m session st m' ran :
  ss_wf (lm_store m) -> ss_id (SessionID session) -> has_callback st = true ->
  executeTransition cb io now m session st = (m', ran) ->
  exists s1, (forall id, id <> SessionID session -> ss_view now s1 id = view m id) /\
    (ran = true /\ moved now (lm_store m) s1 (SessionID session) st /\
       m' = forget (SessionID session) (OnTerminal cb st now (with_store s1 m) session)
     \/ ran = false /\ m' = with_store s1 m).
Proof.
  intros Hwf Hid Hst. unfold executeTransition.
  destruct (UpdateState io now (lm_store m) (SessionID session) st) as [s1 r] eqn:Hu.
  destruct (UpdateState_spec _ _ _ _ _ _ _ Hwf Hid Hnow (known_of_callback _ Hst) Hu) as (_ & Hf & Hr).
  assert (IsTerminal st = true) as Ht by by destruct st.
  rewrite Hst, Ht. destruct r; intros [= <- <-]; exists s1; (split; [done|]); [left|right]; done.
Qed.

(** The write of a claim-phase failure over a session that holds its claim is
    refused whatever the round trips do. *)
Lemma claim_failure_refused io m session st m' ran o :
  ss_wf (lm_store m) -> ss_id (SessionID session) -> view m (SessionID session) = Some o ->
  HoldsClaimOnChain (State o) = true ->
  st = SessionStateClaimWindowClosed \/ st = SessionStateClaimTxError ->
  executeTransition cb io now m session st = (m', ran) ->
  ran = false /\ activeSessions m' = activeSessions m /\ view m' (SessionID session) ≡ Some o.
Proof.
  intros Hwf Hid Hv Ho Hst. unfold executeTransition.
  destruct (UpdateState io now (lm_store m) (SessionID session) st) as [s1 r] eqn:Hu.
  assert (known st = true) as Hk by by destruct Hst as [-> | ->].
  destruct (UpdateState_spec _ _ _ _ _ _ _ Hwf Hid Hnow Hk Hu) as (_ & _ & Hr).
  assert (checkStateWrite o st = Some ErrClaimAlreadyOnChain) as Hc.
  { unfold checkStateWrite. rewrite Ho. by destruct Hst as [-> | ->]. }
  assert (forall s', moved now (lm_store m) s' (SessionID session) st -> False) as Hno.
  { intros s' (o' & v & Ho' & Hc' & _). congruence. }
  destruct r as [u|e]; [by apply Hno in Hr|]. intros [= <- <-]. split_and!; [done..|]. simpl. rewrite <- Hv.
  destruct e; try by destruct Hr as [-> _]. destruct Hr as [Hr|Hr]; [done|by apply Hno in Hr].
Qed.

(** *** The claim batch *)

Lemma refreshClaims_fresh sessions : forall cs s x,
  ss_wf s -> Forall ss_id (map SessionID sessions) -> answered cs -> x ∈ refreshClaims cs now s sessions ->
  SessionID x ∈ map SessionID sessions /\
  forall fresh, ss_view now s (SessionID x) = Some fresh ->
    ClaimTxHash fresh = "" /\ State fresh <> SessionStateClaimed /\
    RelayCount x = RelayCount fresh /\ TotalComputeUnits x = TotalComputeUnits fresh.
Proof.
  induction sessions as [|y rest IH]; simpl; intros cs s x Hwf Hid Hcs Hx; [by apply not_elem_of_nil in Hx|].
  apply Forall_cons in Hid as [Hid Hids].
  assert (x ∈ refreshClaims (calls_after 1 cs) now s rest -> SessionID x ∈ SessionID y :: map SessionID rest /\
    forall fresh, ss_view now s (SessionID x) = Some fresh ->
    ClaimTxHash fresh = "" /\ State fresh <> SessionStateClaimed /\
    RelayCount x = RelayCount fresh /\ TotalComputeUnits x = TotalComputeUnits fresh) as Hrest.
  { intros Hi. destruct (IH (calls_after 1 cs) s x Hwf Hids (answered_after 1 cs Hcs) Hi) as [Hin Hf].
    split; [by right|done]. }
  rewrite Hcs, ss_get_answers in Hx by done.
  destruct (ss_view now s (SessionID y)) as [fresh|] eqn:Hv.
  - destruct (String.eqb_spec (ClaimTxHash fresh) "") as [Htx|]; simpl in Hx; [|by apply Hrest].
    case_bool_decide as Hst; [by apply Hrest|]. apply elem_of_cons in Hx as [->|Hx]; [|by apply Hrest].
    simpl. split; [by left|]. intros f. rewrite Hv. intros [= <-]. done.
  - apply elem_of_cons in Hx as [->|Hx]; [|by apply Hrest]. split; [by left|]. intros f. by rewrite Hv.
Qed.

Lemma persistClaimed_frame claimed sessions : forall cs s,
  ss_wf s -> Forall ss_id (map SessionID sessions) ->
  ss_wf (persistClaimed cs now s claimed sessions) /\
  forall id, id ∉ claimed -> ss_view now (persistClaimed cs now s claimed sessions) id = ss_view now s id.
Proof.
  induction sessions as [|y rest IH]; simpl; intros cs s Hwf Hid; [done|].
  apply Forall_cons in Hid as [Hid Hids]. case_bool_decide as Hin; simpl; [|by apply IH].
  destruct (UpdateState (cs 0%nat) now s (SessionID y) SessionStateClaimed) as [s1 r] eqn:Hu.
  destruct (UpdateState_spec _ _ _ _ SessionStateClaimed _ _ Hwf Hid Hnow eq_refl Hu) as (Hw1 & Hf1 & _). simpl.
  destruct (IH (calls_after 1 cs) s1 Hw1 Hids) as [Hw2 Hf2]. split; [done|].
  intros id Hn. rewrite Hf2 by done. apply Hf1. intros ->. done.
Qed.

(** *** Startup *)

Lemma resume_refused io m session m' s' o :
  ss_wf (lm_store m) -> ss_id (SessionID session) -> view m (SessionID session) = Some o ->
  (State session = SessionStateClaiming -> ClaimTxHash o <> "") ->
  (State session = SessionStateProving -> ProofTxHash o <> "") ->
  resumeUnsentSubmission io now m session = (m', s') ->
  s' = session /\ resumedUnsentClaims m' = resumedUnsentClaims m /\ view m' (SessionID session) ≡ Some o.
Proof.
  intros Hwf Hid Hv Hcl Hpr. unfold resumeUnsentSubmission.
  match goal with |- context [match ?r with Some _ => _ | None => _ end] => destruct r as [st|] eqn:Hr end.
  2:{ intros [= <- <-]. split_and!; [done..|]. by rewrite Hv. }
  assert (known st = true /\ exists e, checkStateWrite o st = Some e) as [Hk [e Hc]].
  { destruct (State session) eqn:Hs; try done; simpl in Hr; case_match; simplify_eq; (split; [done|]).
    - specialize (Hcl eq_refl). apply String.eqb_neq in Hcl. exists ErrSessionNotDeferred. unfold checkStateWrite.
      rewrite Hcl. simpl. by rewrite orb_true_r.
    - specialize (Hpr eq_refl). apply String.eqb_neq in Hpr. exists ErrSessionNotDeferred. unfold checkStateWrite.
      rewrite Hpr. done. }
  destruct (UpdateState io now (lm_store m) (SessionID session) st) as [s1 r] eqn:Hu.
  destruct (UpdateState_spec _ _ _ _ _ _ _ Hwf Hid Hnow Hk Hu) as (_ & _ & Hres).
  assert (forall s2, moved now (lm_store m) s2 (SessionID session) st -> False) as Hno.
  { intros s2 (o' & v & Ho' & Hc' & _). congruence. }
  destruct r as [u|x]; [by apply Hno in Hres|]. intros [= <- <-]. split_and!; [done..|]. simpl. rewrite <- Hv.
  destruct x; try by destruct Hres as [-> _]. destruct Hres as [Hr'|Hr']; [done|by apply Hno in Hr'].
Qed.

End Run.

Section Load.
Context {St : Type} `{SS : !SessionStore St}.
Variable now : Z.
Implicit Types (m : Manager St) (session : SessionSnapshot).

Definition unsent_claim session : bool :=
  bool_decide (State session = SessionStateClaiming) && String.eqb (ClaimTxHash session) "".

(** Whatever the write did, the session is tracked so that its claim is still
    looked for. *)
Lemma resume_still_asked io m session m' s' :
  resumeUnsentSubmission io now m session = (m', s') ->
  SessionID s' = SessionID session /\ activeSessions m' = activeSessions m /\
  resumedUnsentClaims m ⊆ resumedUnsentClaims m' /\
  (unsent_claim session = true -> mayHaveClaimOnChain m' s' = true).
Proof.
  unfold resumeUnsentSubmission, unsent_claim.
  destruct (bool_decide_reflect (State session = SessionStateProving)) as [Hs|Hs]; simpl.
  - assert (bool_decide (State session = SessionStateClaiming) = false) as Hf
      by (apply bool_decide_false; congruence).
    destruct (String.eqb (ProofTxHash session) ""); simpl; rewrite ?Hf; simpl.
    + destruct (UpdateState _ _ _ _ _) as [s1 [u|e]]; intros [= <- <-]; rewrite ?Hf; done.
    + intros [= <- <-]. rewrite ?Hf. done.
  - destruct (bool_decide_reflect (State session = SessionStateClaiming)) as [Hc|Hc]; simpl.
    + destruct (String.eqb_spec (ClaimTxHash session) "") as [Htx|Htx]; simpl.
      * destruct (UpdateState _ _ _ _ _) as [s1 [u|e]]; intros [= <- <-]; simpl.
        -- split_and!; [done|done|set_solver|]. intros _. unfold mayHaveClaimOnChain. simpl.
           rewrite bool_decide_true by set_solver. done.
        -- split_and!; [done..|]. intros _. unfold mayHaveClaimOnChain. by rewrite Hc, Htx.
      * intros [= <- <-]. done.
    + intros [= <- <-]. done.
Qed.

(** Every session that is not over is tracked; one loaded in claiming without
    a hash stays marked until the chain was asked. *)
Lemma loadLoop_tracks sessions : forall cs m,
  NoDup (map SessionID sessions) ->
  let m' := loadLoop cs now m sessions in
  resumedUnsentClaims m ⊆ resumedUnsentClaims m' /\
  (forall id, id ∉ map SessionID sessions -> activeSessions m' !! id = activeSessions m !! id) /\
  Forall (fun session => IsTerminal (State session) = false ->
    exists tracked, activeSessions m' !! SessionID session = Some tracked /\ SessionID tracked = SessionID session /\
      (unsent_claim session = true -> mayHaveClaimOnChain m' tracked = true)) sessions.
Proof.
  induction sessions as [|y rest IH]; simpl; intros cs m Hnd; [done|].
  apply NoDup_cons in Hnd as [Hn Hnd]. destruct (IsTerminal (State y)) eqn:Ht; simpl.
  { destruct (IH (calls_after 1 cs) m Hnd) as (Hsub & Hf & Hall). split_and!; [done| |].
    - intros id Hi. apply not_elem_of_cons in Hi as [_ Hi]. by apply Hf.
    - constructor; [congruence|done]. }
  destruct (resumeUnsentSubmission (cs 0%nat) now m y) as [m1 s1] eqn:Hr.
  destruct (resume_still_asked _ _ _ _ _ Hr) as (Hid & Hact & Hsub1 & Hask).
  destruct (IH (calls_after 1 cs) (track s1 m1) Hnd) as (Hsub & Hf & Hall). simpl in *.
  split_and!; [by etrans| |].
  - intros id Hi. apply not_elem_of_cons in Hi as [Hi1 Hi2]. rewrite Hf by done. simpl.
    rewrite lookup_insert_ne by congruence. by rewrite Hact.
  - constructor; [|done]. intros _. exists s1. rewrite Hf by done. simpl. rewrite Hid, lookup_insert_eq.
    split_and!; [done..|]. intros Hu. specialize (Hask Hu). unfold mayHaveClaimOnChain in *.
    apply orb_true_iff in Hask as [Hask|Hask]; [by rewrite Hask|].
    apply bool_decide_eq_true in Hask. apply orb_true_iff. right. apply bool_decide_eq_true. by apply Hsub.
Qed.
End Load.

(** ** The flush wait *)

Definition caught_up (target : Z * Z) (p : FlushProbe) : Prop :=
  exists h, fp_handled p = Some h /\ atLeast h target = true.

Lemma flushLoop_spec target cap polls :
  match flushLoop target cap polls with
  | None => Forall (fun o => exists p, o = Some p /\ fp_height p < cap /\ ~ caught_up target p) polls
  | Some FlushProceed => exists p, Some p ∈ polls /\ caught_up target p
  | Some FlushCapped => exists p, Some p ∈ polls /\ cap <= fp_height p
  | Some FlushCancelled => None ∈ polls
  end.
Proof.
  induction polls as [|[p|] polls IH]; simpl; [done| |by left].
  destruct (fp_handled p) as [hd|] eqn:Hh; [destruct (atLeast hd target) eqn:Ha|].
  - exists p. split; [by left|]. by exists hd.
  - destruct (Z.leb_spec cap (fp_height p)); [exists p; split; [by left|done]|].
    assert (~ caught_up target p) as Hn by (intros (h & ? & ?); congruence).
    destruct (flushLoop target cap polls) as [[]|].
    + destruct IH as (q & ? & ?). exists q. split; [by right|done].
    + destruct IH as (q & ? & ?). exists q. split; [by right|done].
    + by right.
    + constructor; [|done]. by exists p.
  - destruct (Z.leb_spec cap (fp_height p)); [exists p; split; [by left|done]|].
    assert (~ caught_up target p) as Hn by (intros (h & ? & ?); congruence).
    destruct (flushLoop target cap polls) as [[]|].
    + destruct IH as (q & ? & ?). exists q. split; [by right|done].
    + destruct IH as (q & ? & ?). exists q. split; [by right|done].
    + by right.
    + constructor; [|done]. by exists p.
Qed.

(** The sessions of a batch with windows at known heights: the wait is anchored
    at the earliest of them. *)
Section MinWindow.
Context {Params : Type} `{SW : !SharedWindows Params}.
Variables (ch : Chain Params) (h : Z).

Definition window_pos (y : SessionSnapshot) : Prop :=
  forall p, resolveParams ch h (SessionEndHeight y) = Some p -> 0 <= GetClaimWindowOpenHeight p (SessionEndHeight y).

Lemma min_step_le acc y :
  window_pos y -> -1 <= acc ->
  -1 <= min_step ch h acc y /\ (0 <= acc -> 0 <= min_step ch h acc y <= acc) /\
  (forall q, resolveParams ch h (SessionEndHeight y) = Some q ->
     0 <= min_step ch h acc y <= GetClaimWindowOpenHeight q (SessionEndHeight y)).
Proof.
  intros Hp Ha. unfold window_pos, min_step in *. destruct (resolveParams ch h (SessionEndHeight y)) as [p|].
  - specialize (Hp p eq_refl). cbv zeta. set (wo := GetClaimWindowOpenHeight p (SessionEndHeight y)) in *.
    destruct (Z.eqb_spec acc (-1)); simpl; [|destruct (Z.ltb_spec wo acc)];
      (split; [lia|]); (split; [lia|]); intros q [= <-]; fold wo; lia.
  - split; [done|]. split; [lia|done].
Qed.

Lemma min_fold_le l : forall acc, Forall window_pos l -> -1 <= acc ->
  (0 <= acc -> 0 <= foldl (min_step ch h) acc l <= acc) /\
  (forall x q, x ∈ l -> resolveParams ch h (SessionEndHeight x) = Some q ->
     0 <= foldl (min_step ch h) acc l <= GetClaimWindowOpenHeight q (SessionEndHeight x)).
Proof.
  induction l as [|y l IH]; intros acc Hp Ha; simpl.
  { split; [lia|]. by intros x q Hi%not_elem_of_nil. }
  apply Forall_cons in Hp as [Hy Hp]. destruct (min_step_le acc y Hy Ha) as (H1 & H2 & H3).
  destruct (IH (min_step ch h acc y) Hp H1) as [H4 H5]. split; [lia|].
  intros x q [->|Hi]%elem_of_cons Hq; [|by apply H5]. specialize (H3 q Hq). lia.
Qed.

Lemma minWindow_least sessions x q :
  Forall window_pos sessions -> x ∈ sessions -> resolveParams ch h (SessionEndHeight x) = Some q ->
  0 <= minWindow ch h sessions <= GetClaimWindowOpenHeight q (SessionEndHeight x).
Proof. intros Hp. unfold minWindow. apply (min_fold_le sessions (-1) Hp). done. Qed.
End MinWindow.

(** ** The theorems *)

Section Claims.
Context {St : Type} `{SS : !SessionStore St} `{SSL : !SessionStoreLaws St}.
Context {Params : Type} `{SW : !SharedWindows Params}.
Implicit Types (cb : Callback St) (ch : Chain Params) (m : Manager St).

(** C22. Persisted before sent. Every session a pass hands to the claim batch was
    stored as active with the pass's height inside its claim window, is stored
    as claiming when the batch is handed out, whatever round trips of the pass
    failed, and had the relay meter's cleanup signal published for it. *)
Theorem claim_batch_persisted cb `{OL : !ObserverLaws cb} now h ch cs1 cs2 cs3 m m' tasks signals batch wo x :
  time_ok now -> manager_ok now m ->
  checkSessionTransitions cb cs1 cs2 cs3 now h ch m = (m', tasks, signals) ->
  TClaim batch wo ∈ tasks -> x ∈ batch ->
  exists old q, ss_view now (lm_store m) (SessionID x) = Some old /\ State old = SessionStateActive /\
    resolveParams ch h (SessionEndHeight old) = Some q /\
    GetClaimWindowOpenHeight q (SessionEndHeight old) <= h < GetClaimWindowCloseHeight q (SessionEndHeight old) /\
    SessionID x ∈ dom (activeSessions m) /\
    moved now (lm_store m) (lm_store m') (SessionID x) SessionStateClaiming /\
    (SessionID x, SupplierOperatorAddress x) ∈ signals.
Proof. intros Hnow Hm Hc Ht Hx. by eapply (pass_claim_batch cb now h ch Hnow cs1 cs2 cs3). Qed.

(** C23. No open claim window is left out. When the store answers, a pass at a
    height inside the claim window of a tracked session that is stored as
    active hands that session to the claim batch, however stale the copy in
    memory is, as long as it is not ahead of the stored one. *)
Theorem claim_window_not_missed `{SWL : !SharedWindowsLaws Params} cb `{OL : !ObserverLaws cb} now h ch cs1 cs2 cs3
    m m' tasks signals mem session q :
  time_ok now -> manager_ok now m -> answered cs1 -> answered cs2 ->
  checkSessionTransitions cb cs1 cs2 cs3 now h ch m = (m', tasks, signals) ->
  activeSessions m !! SessionID session = Some mem ->
  SessionEndHeight mem = SessionEndHeight session -> (phase (State mem) <= phase (State session))%nat ->
  ss_view now (lm_store m) (SessionID session) = Some session -> State session = SessionStateActive ->
  resolveParams ch h (SessionEndHeight session) = Some q ->
  GetClaimWindowOpenHeight q (SessionEndHeight session) <= h < GetClaimWindowCloseHeight q (SessionEndHeight session) ->
  exists batch wo, TClaim batch wo ∈ tasks /\ SessionID session ∈ map SessionID batch.
Proof.
  intros Hnow Hm H1 H2 Hc Hmem He Hp Hv Ha Hq Hw.
  by eapply (pass_complete cb now h ch Hnow cs1 cs2 cs3 m m' tasks signals mem session q).
Qed.

(** A session is only booked claim_window_closed when its claim window is
    closed; one that may have a claim on chain (in claiming with no hash, or
    resumed from there) only when the window closed before the pass's height,
    so that no later block can still bring the claim, and the chain answered
    that it has none. *)
Theorem closed_only_without_claim cb `{OL : !ObserverLaws cb} now h ch cs1 cs2 cs3 m m' tasks signals x :
  time_ok now -> manager_ok now m ->
  checkSessionTransitions cb cs1 cs2 cs3 now h ch m = (m', tasks, signals) ->
  TClose x SessionStateClaimWindowClosed ∈ tasks ->
  ss_view now (lm_store m) (SessionID x) = Some x /\
  (State x = SessionStateActive \/ State x = SessionStateClaiming) /\
  (exists q, resolveParams ch h (SessionEndHeight x) = Some q /\ GetClaimWindowCloseHeight q (SessionEndHeight x) <= h) /\
  (mayHaveClaimOnChain m x = true -> chain_has_no_claim cb now h ch x).
Proof. intros Hnow Hm Hc Ht. by eapply (pass_close cb now h ch Hnow cs1 cs2 cs3). Qed.

(** Counted after persisted. The terminal callback, where a session's money
    is counted, runs on a store that already holds the terminal state, and then
    tracking ends; when the write failed it does not run and the session stays
    tracked. *)
Theorem terminal_callback_after_persist cb now io m session st m' ran :
  time_ok now -> ss_wf (lm_store m) -> ss_id (SessionID session) -> has_callback st = true ->
  executeTransition cb io now m session st = (m', ran) ->
  exists s1, (forall id, id <> SessionID session -> ss_view now s1 id = ss_view now (lm_store m) id) /\
    (ran = true /\ moved now (lm_store m) s1 (SessionID session) st /\
       m' = forget (SessionID session) (OnTerminal cb st now (with_store s1 m) session)
     \/ ran = false /\ m' = with_store s1 m).
Proof. intros Hnow Hw Hid Hst He. by eapply execute_persists_first. Qed.

(** The claim is the truth. A claim-phase failure never overwrites a
    session that holds its claim on chain, whatever the round trips do: the
    session stays as stored and tracked, and nothing is counted. *)
Theorem claim_failure_never_overrides cb now io m session st m' ran o :
  time_ok now -> ss_wf (lm_store m) -> ss_id (SessionID session) ->
  ss_view now (lm_store m) (SessionID session) = Some o -> HoldsClaimOnChain (State o) = true ->
  st = SessionStateClaimWindowClosed \/ st = SessionStateClaimTxError ->
  executeTransition cb io now m session st = (m', ran) ->
  ran = false /\ activeSessions m' = activeSessions m /\ ss_view now (lm_store m') (SessionID session) ≡ Some o.
Proof. intros Hnow Hw Hid Hv Hh Hst He. by eapply claim_failure_refused. Qed.

(** No second claim, and none that is not the cycle's. When the store
    answers the refresh, the claim callback gets no session whose stored copy
    has a claim transaction or is claimed, and gets the stored relay and
    compute-unit counts; afterwards only sessions the cycle named are written. *)
Theorem claim_batch_deduplicated cb now cs1 cs2 m sessions m' handed :
  time_ok now -> ss_wf (lm_store m) -> Forall ss_id (map SessionID sessions) -> answered cs1 ->
  executeBatchedClaimTransition cb cs1 cs2 now m sessions = (m', handed) ->
  (forall x fresh, x ∈ handed -> ss_view now (lm_store m) (SessionID x) = Some fresh ->
     ClaimTxHash fresh = "" /\ State fresh <> SessionStateClaimed /\
     RelayCount x = RelayCount fresh /\ TotalComputeUnits x = TotalComputeUnits fresh) /\
  (handed <> [] ->
   let '(m1, claimed) := OnSessionsNeedClaim cb now m handed in
   ss_wf (lm_store m1) ->
   forall id, id ∉ claimed -> ss_view now (lm_store m') id = ss_view now (lm_store m1) id).
Proof.
  intros Hnow Hw Hid Hcs He. unfold executeBatchedClaimTransition in He.
  destruct sessions as [|y rest]; [injection He as <- <-; split; [by intros x ? ?%not_elem_of_nil|done]|].
  pose proof (fun x => refreshClaims_fresh now (y :: rest) cs1 (lm_store m) x Hw Hid Hcs) as Hf.
  destruct (refreshClaims cs1 now (lm_store m) (y :: rest)) as [|z zs] eqn:Hr.
  { injection He as <- <-. split; [by intros x ? ?%not_elem_of_nil|done]. }
  destruct (OnSessionsNeedClaim cb now m (z :: zs)) as [m1 claimed] eqn:Hcb. injection He as <- <-. split.
  - intros x fresh Hx Hv. destruct (Hf x Hx) as [_ H]. by apply H.
  - intros _. rewrite Hcb. intros Hw1 id Hn. cbn [lm_store with_store].
    assert (Forall ss_id (map SessionID (z :: zs))) as Hzs; [|by apply (persistClaimed_frame now Hnow claimed (z :: zs))].
    apply Forall_forall. intros i Hi. apply list_elem_of_In, in_map_iff in Hi as (x & <- & Hx). apply list_elem_of_In in Hx.
    destruct (Hf x Hx) as [Hin _]. by apply (proj1 (Forall_forall _ _) Hid).
Qed.

(** A start never rewinds a transaction that was sent. Resuming a session
    from a copy loaded without a hash, while the store meanwhile has one, leaves
    the session as stored and does not mark it resumed, whatever the round
    trips do. *)
Theorem resume_never_rewinds_sent now io m session m' s' o :
  time_ok now -> ss_wf (lm_store m) -> ss_id (SessionID session) ->
  ss_view now (lm_store m) (SessionID session) = Some o ->
  (State session = SessionStateClaiming -> ClaimTxHash o <> "") ->
  (State session = SessionStateProving -> ProofTxHash o <> "") ->
  resumeUnsentSubmission io now m session = (m', s') ->
  s' = session /\ resumedUnsentClaims m' = resumedUnsentClaims m /\
  ss_view now (lm_store m') (SessionID session) ≡ Some o.
Proof. intros Hnow Hw Hid Hv H1 H2 Hr. by eapply resume_refused. Qed.

(** After a start, every stored session that is not over is tracked, and
    one that was loaded in claiming without a hash will have the chain asked for
    its claim before it can be booked failed, whether or not the rewind to
    active could be written. *)
Theorem load_tracks_and_keeps_asking now cs m sessions :
  NoDup (map SessionID sessions) ->
  Forall (fun session => IsTerminal (State session) = false ->
    exists tracked, activeSessions (loadLoop cs now m sessions) !! SessionID session = Some tracked /\
      SessionID tracked = SessionID session /\
      (unsent_claim session = true -> mayHaveClaimOnChain (loadLoop cs now m sessions) tracked = true)) sessions.
Proof. intros Hnd. by destruct (loadLoop_tracks now sessions cs m Hnd) as (_ & _ & H). Qed.

(** The in-memory filter is conservative: when it drops a session, the
    stored copy of the session, which may be further along than the one in
    memory, is due no transition at that height. *)
Theorem prefilter_conservative `{SWL : !SharedWindowsLaws Params} mem fresh h (p : option Params) :
  SessionEndHeight mem = SessionEndHeight fresh -> (phase (State mem) <= phase (State fresh))%nat ->
  sessionMightNeedTransition mem h p = false ->
  IsTerminal (State mem) = false /\ determineTransition fresh h p = None.
Proof. intros He Hp Hf. exact (prefilter_none mem fresh h p He Hp Hf). Qed.

(** Every verdict has a dispatcher: a transition that is determined starts
    from a session that is not over, goes to another state, and is handed to
    the claim batch, the proof batch or the terminal group. *)
Theorem transition_always_dispatched session h (p : option Params) st :
  determineTransition session h p = Some st ->
  IsTerminal (State session) = false /\ st <> State session /\
  match dispatch session st with
  | DueClaim s => s = session /\ st = SessionStateClaiming
  | DueProof s => s = session /\ st = SessionStateProving
  | DueClose s st' => s = session /\ st' = st /\ IsTerminal st = true
  | DueUndispatched _ _ => False
  end.
Proof. intros H. by apply (determineTransition_dispatched session h p). Qed.
End Claims.

(** The wait before a claim batch ends: it goes on only while the chain is
    below the cap, two blocks above the earliest claim window of the batch, the
    context is live and the relays handled so far stay behind the stream's last
    entry at its start; when it lets the batch go below the cap, that entry was
    handled, or there was none to wait for. *)
Theorem flush_wait_bounded windowOpenHeight start target polls :
  match awaitFlushWatermark true windowOpenHeight start (Ok (Some target)) polls with
  | None => Forall (fun o => exists p, o = Some p /\ fp_height p < windowOpenHeight + claimFlushCapBlocks /\
                                       ~ caught_up target p) polls
  | Some FlushProceed => exists p, (p = start \/ Some p ∈ polls) /\ caught_up target p
  | Some FlushCapped => exists p, (p = start \/ Some p ∈ polls) /\ windowOpenHeight + claimFlushCapBlocks <= fp_height p
  | Some FlushCancelled => None ∈ polls
  end.
Proof.
  unfold awaitFlushWatermark. simpl negb. cbv iota zeta.
  destruct (Z.leb_spec (windowOpenHeight + claimFlushCapBlocks) (fp_height start)); [exists start; auto|].
  pose proof (flushLoop_spec target (windowOpenHeight + claimFlushCapBlocks) polls) as Hf.
  destruct (fp_handled start) as [hd|] eqn:Hh; [destruct (atLeast hd target) eqn:Ha|].
  - exists start. split; [by left|]. by exists hd.
  - destruct (flushLoop _ _ _) as [[]|]; [|..|done|done]; destruct Hf as (p & ? & ?); eauto.
  - destruct (flushLoop _ _ _) as [[]|]; [|..|done|done]; destruct Hf as (p & ? & ?); eauto.
Qed.
