(* ===== verification/SessionCoordinator.v ===== *)
(** * The session coordinator (miner/session_coordinator.go)

    The events of a session's life, each as the coordinator carries it out:
    the write to the session store, the entries in the books of claimed, lost
    and forgone work (the Record functions of miner/metrics.go), and the
    lifecycle manager's tracking, which the coordinator's two callbacks reach.
    The store is any [SessionStore]. *)

From S2P Require Import Prelude SessionState StoreSpec SessionLifecycle.
From Stdlib Require Import Ascii String.

Local Open Scope string_scope.
Local Open Scope Z_scope.

(** ** The books (miner/metrics.go) *)

(** What a Record function adds, for the session it is weighed on: a session
    created; its money claimed; a failure reversed, out of the book it was in,
    or one that had no money; a failure counted alone, with its money forgone,
    or with its money lost. *)
Inductive BookEntry :=
| BkCreated (snap : SessionSnapshot)
| BkClaimed (snap : SessionSnapshot) (root : string)
| BkReinstated (snap : SessionSnapshot) (reason from : string)
| BkReinstatedAttempt (snap : SessionSnapshot) (reason : string)
| BkFailed (snap : SessionSnapshot) (reason : string)
| BkForgone (snap : SessionSnapshot) (reason : string)
| BkLost (snap : SessionSnapshot) (reason : string).

Definition ClaimMissingLost : string := "lost".
Definition ClaimMissingForgone : string := "forgone".
Definition ClaimTxErrorAttempt : string := "attempt".
Definition ClaimTxErrorForgone : string := ClaimMissingForgone.
Definition ClaimTxErrorEjectedUnrecoverable : string := "ejected_unrecoverable".

Definition ClaimMissingVerdictFor (state : SessionState) : string :=
  if HoldsClaimOnChain state then ClaimMissingLost else ClaimMissingForgone.

Definition RecordClaimMissing (snap : SessionSnapshot) (verdict : string) : list BookEntry :=
  if String.eqb verdict ClaimMissingForgone then [BkForgone snap "claim_missing"]
  else [BkLost snap "claim_missing"].

Definition RecordClaimWindowClosed (snap : SessionSnapshot) (claimTxHash : string) : list BookEntry :=
  if String.eqb claimTxHash "" then [BkForgone snap "claim_window_closed"]
  else [BkLost snap "claim_window_closed"].

Definition RecordClaimTxError (snap : SessionSnapshot) (resolvable : bool) : list BookEntry :=
  if resolvable then [BkFailed snap "claim_tx_error"] else [BkForgone snap "claim_tx_error"].

Definition RecordClaimEjectedUnrecoverable (snap : SessionSnapshot) : list BookEntry :=
  [BkForgone snap "claim_ejected_unrecoverable"].

Definition RecordClaimTxErrorVerdict (snap : SessionSnapshot) (verdict : string) : list BookEntry :=
  if String.eqb verdict ClaimTxErrorAttempt then RecordClaimTxError snap true
  else if String.eqb verdict ClaimTxErrorForgone then RecordClaimTxError snap false
  else if String.eqb verdict ClaimTxErrorEjectedUnrecoverable then RecordClaimEjectedUnrecoverable snap
  else [].

Definition ReinstatedBook (r : Reactivation) : string :=
  match RFrom r with
  | Some SessionStateClaimMissing => RVerdict r
  | Some SessionStateClaimWindowClosed =>
      if negb (String.eqb (RClaimTxHash r) "") then ClaimMissingLost else ClaimMissingForgone
  | Some SessionStateClaimTxError =>
      if String.eqb (RVerdict r) ClaimTxErrorForgone || String.eqb (RVerdict r) ClaimTxErrorEjectedUnrecoverable
      then ClaimMissingForgone else ""
  | _ => ""
  end.

Definition ReinstatedReason (r : Reactivation) : string :=
  match RFrom r with
  | None => ""
  | Some st =>
      if bool_decide (st = SessionStateClaimTxError) && String.eqb (RVerdict r) ClaimTxErrorEjectedUnrecoverable
      then "claim_ejected_unrecoverable" else string_of_state st
  end.

Definition ReinstatesAttempt (r : Reactivation) : bool :=
  bool_decide (RFrom r = Some SessionStateClaimTxError) && String.eqb (RVerdict r) ClaimTxErrorAttempt.

Definition CreditsClaimed (r : Reactivation) : bool :=
  match RFrom r with
  | Some SessionStateActive | Some SessionStateClaiming | Some SessionStateClaimTxError => true
  | Some SessionStateClaimWindowClosed | Some SessionStateClaimMissing =>
      String.eqb (ReinstatedBook r) ClaimMissingForgone
  | _ => false
  end.

(** [bookReactivation]: what a flip into claimed counts, weighed on the session
    as it was read before; nothing when that read failed or found nothing. *)
Definition bookReactivation (before : option SessionSnapshot) (root : string) (r : Reactivation) : list BookEntry :=
  match before with
  | None => []
  | Some snap =>
      ((if CreditsClaimed r then [BkClaimed snap root] else [])
       ++ (if negb (String.eqb (ReinstatedBook r) "") then [BkReinstated snap (ReinstatedReason r) (ReinstatedBook r)]
           else if ReinstatesAttempt r then [BkReinstatedAttempt snap (ReinstatedReason r)] else []))%list
  end.

(** ** The coordinator *)

Inductive CoordErr :=
| ErrCoordinatorClosed
| ErrNoSession
| ErrClaimRootUnusable
| ErrVanished
| ErrRetrack (e : LifecycleErr)
| ErrOfStore (e : StoreErr).

(** The manager it writes through, whether it is closed, and what it counted,
    newest first. *)
Record Coord (St : Type) := mkCoord { c_mgr : Manager St; c_closed : bool; c_book : list BookEntry }.
Arguments mkCoord {St}.
Arguments c_mgr {St}.
Arguments c_closed {St}.
Arguments c_book {St}.

Definition c_store {St} (c : Coord St) : St := lm_store (c_mgr c).

Section Coordinator.
Context {St : Type} `{SS : !SessionStore St}.
(** Whether the manager's callbacks are registered. *)
Variables (onSessionCreated onSessionTerminal : bool).
Implicit Types (c : Coord St) (m : Manager St) (sessionID : string).

Definition set_mgr m c : Coord St := mkCoord m (c_closed c) (c_book c).
Definition set_store (s : St) c : Coord St := set_mgr (with_store s (c_mgr c)) c.
Definition count (es : list BookEntry) c : Coord St := mkCoord (c_mgr c) (c_closed c) (rev es ++ c_book c)%list.

(** The terminal callback, [RemoveSession]. *)
Definition terminal sessionID c : Coord St :=
  if onSessionTerminal then set_mgr (RemoveSession (c_mgr c) sessionID) c else c.

(** A call of [UpdateState] or of a Mark function. *)
Definition updateState (io : Io) (now : Z) c sessionID (st : SessionState) (verdict : string)
  : Coord St * result bool StoreErr :=
  let '(s', r) := ss_update io now (c_store c) sessionID st verdict in (set_store s' c, r).

(** What a read in a handler found; [None] for a failed read too. *)
Definition read_or_none (r : result (option SessionSnapshot) StoreErr) : option SessionSnapshot :=
  match r with Ok o => o | Err _ => None end.

Definition newSnapshot (sessionID supplier serviceID application : string) (startHeight endHeight : Z)
  : SessionSnapshot :=
  mkSnapshot sessionID supplier serviceID application startHeight endHeight SessionStateActive 0 0 "" "" "" "" 0 0.

(** A failed creation callback is only logged. *)
Definition OnSessionCreated (cs : Calls) (now : Z) c (snapshot : SessionSnapshot) : Coord St * result unit CoordErr :=
  if c_closed c then (c, Err ErrCoordinatorClosed)
  else match ss_create (cs 0%nat) now (c_store c) snapshot with
       | (s', Err e) => (set_store s' c, Err (ErrOfStore e))
       | (s', Ok false) => (set_store s' c, Ok tt)
       | (s', Ok true) =>
           let c1 := count [BkCreated snapshot] (set_store s' c) in
           (if onSessionCreated
            then set_mgr (fst (TrackSession (cs 1%nat) now (c_mgr c1) (touch now snapshot))) c1 else c1, Ok tt)
       end.

(** [EnsureSession]: [read] is what the caller learned, [None] when nothing. *)
Definition EnsureSession (cs : Calls) (now : Z) c (read : option (option SessionSnapshot))
    (sessionID supplierAddress serviceID applicationAddress : string) (sessionStartHeight sessionEndHeight : Z)
  : Coord St * bool :=
  if c_closed c then (c, false)
  else
    let snapshot := match read with
                    | Some o => o
                    | None => read_or_none (ss_get (cs 0%nat) now (c_store c) sessionID)
                    end in
    match snapshot with
    | Some _ => (c, true)
    | None =>
        if String.eqb supplierAddress "" || String.eqb serviceID "" then (c, false)
        else match OnSessionCreated (calls_after 1 cs) now c
                     (newSnapshot sessionID supplierAddress serviceID applicationAddress sessionStartHeight sessionEndHeight) with
             | (c', Ok _) => (c', true)
             | (c', Err _) => (c', false)
             end
    end.

Definition OnRelayProcessed (io : Io) (now : Z) c sessionID (computeUnits : Z) : Coord St * result unit CoordErr :=
  if c_closed c then (c, Err ErrCoordinatorClosed)
  else match ss_increment io now (c_store c) sessionID computeUnits with
       | (s', Ok _) => (set_store s' c, Ok tt)
       | (s', Err ErrSessionTerminal) => (set_store s' c, Ok tt)
       | (s', Err e) => (set_store s' c, Err (ErrOfStore e))
       end.

Definition OnSessionClaimed (cs : Calls) (now : Z) c sessionID (claimRootHash claimTxHash : string)
  : Coord St * result unit CoordErr :=
  if c_closed c then (c, Err ErrCoordinatorClosed)
  else match ss_get (cs 0%nat) now (c_store c) sessionID with
       | Err e => (c, Err (ErrOfStore e))
       | Ok None => (c, Err ErrNoSession)
       | Ok (Some snapshot) =>
           match ss_reactivate_claimed (cs 1%nat) now (c_store c) sessionID claimRootHash claimTxHash with
           | (s', Err e) => (set_store s' c, Err (ErrOfStore e))
           | (s', Ok r) => (count (bookReactivation (Some snapshot) claimRootHash r) (set_store s' c), Ok tt)
           end
       end.

Definition OnClaimObservedOnChain (cs : Calls) (now : Z) c sessionID (claimedRootHash claimTxHash : string)
  : Coord St * result unit CoordErr :=
  if c_closed c then (c, Err ErrCoordinatorClosed)
  else if negb (Nat.eqb (String.length claimedRootHash) SMSTRootLen) then (c, Err ErrClaimRootUnusable)
  else
    let before := read_or_none (ss_get (cs 0%nat) now (c_store c) sessionID) in
    match ss_reactivate_claimed (cs 1%nat) now (c_store c) sessionID claimedRootHash claimTxHash with
    | (s', Err e) => (set_store s' c, Err (ErrOfStore e))
    | (s', Ok r) =>
        let c1 := count (bookReactivation before claimedRootHash r) (set_store s' c) in
        match RFrom r with
        | None => (c1, Ok tt)
        | Some _ =>
            if negb onSessionCreated then (c1, Ok tt)
            else match ss_get (cs 2%nat) now (c_store c1) sessionID with
                 | Err e => (c1, Err (ErrOfStore e))
                 | Ok None => (c1, Err ErrVanished)
                 | Ok (Some snapshot) =>
                     let '(m', e) := TrackSession (cs 3%nat) now (c_mgr c1) snapshot in
                     (set_mgr m' c1, match e with Ok _ => Ok tt | Err e => Err (ErrRetrack e) end)
                 end
        end
    end.

Definition OnProofSubmitted (cs : Calls) (now : Z) c sessionID (proofTxHash : string) : Coord St * result unit CoordErr :=
  if c_closed c then (c, Err ErrCoordinatorClosed)
  else match ss_get (cs 0%nat) now (c_store c) sessionID with
       | Err e => (c, Err (ErrOfStore e))
       | Ok None => (c, Err ErrNoSession)
       | Ok (Some snapshot) =>
           let '(s', r) := ss_save (cs 1%nat) now (c_store c) (set_ProofTxHash proofTxHash snapshot) in
           (set_store s' c, match r with Ok _ => Ok tt | Err e => Err (ErrOfStore e) end)
       end.

(** A state write whose failure is returned, then the terminal callback. *)
Definition markTerminal (io : Io) (now : Z) c sessionID (st : SessionState) : Coord St * result unit CoordErr :=
  if c_closed c then (c, Err ErrCoordinatorClosed)
  else match updateState io now c sessionID st "" with
       | (c1, Err e) => (c1, Err (ErrOfStore e))
       | (c1, Ok _) => (terminal sessionID c1, Ok tt)
       end.

Definition OnClaimWindowClosed (io : Io) now c sessionID := markTerminal io now c sessionID SessionStateClaimWindowClosed.
Definition OnProofWindowClosed (io : Io) now c sessionID := markTerminal io now c sessionID SessionStateProofWindowClosed.
Definition OnProbabilisticProved (io : Io) now c sessionID := markTerminal io now c sessionID SessionStateProbabilisticProved.
Definition OnClaimSkipped (io : Io) now c sessionID := markTerminal io now c sessionID SessionStateClaimSkipped.

(** A proved session's write may fail: tracking ends all the same. *)
Definition OnSessionProved (io : Io) (now : Z) c sessionID : Coord St * result unit CoordErr :=
  if c_closed c then (c, Err ErrCoordinatorClosed)
  else (terminal sessionID (fst (updateState io now c sessionID SessionStateProved "")), Ok tt).

Definition OnProofObservedOnChain (io : Io) (now : Z) c sessionID (proofTxHash : string)
  : Coord St * result Reactivation CoordErr :=
  if c_closed c then (c, Err ErrCoordinatorClosed)
  else match ss_reactivate_proved io now (c_store c) sessionID proofTxHash with
       | (s', Err e) => (set_store s' c, Err (ErrOfStore e))
       | (s', Ok r) =>
           let c1 := set_store s' c in
           (match RFrom r with Some _ => terminal sessionID c1 | None => c1 end, Ok r)
       end.

Definition OnClaimTxError (cs : Calls) (now : Z) c sessionID (verdict0 : string) : Coord St * result unit CoordErr :=
  if c_closed c then (c, Err ErrCoordinatorClosed)
  else
    let current := read_or_none (ss_get (cs 0%nat) now (c_store c) sessionID) in
    let over := match current with
                | Some s => bool_decide (State s = SessionStateClaimed) || negb (String.eqb (ClaimTxHash s) "")
                            || bool_decide (State s = SessionStateClaimTxError)
                | None => false
                end in
    if over then (c, Ok tt)
    else
      let verdict := match current with Some _ => verdict0 | None => "" end in
      match updateState (cs 1%nat) now c sessionID SessionStateClaimTxError verdict with
      | (c1, Err e) => (c1, Err (ErrOfStore e))
      | (c1, Ok flipped) =>
          let c2 := match flipped, current with
                    | true, Some s => count (RecordClaimTxErrorVerdict s verdict) c1
                    | _, _ => c1
                    end in
          (terminal sessionID c2, Ok tt)
      end.

Definition OnClaimMissing (cs : Calls) (now : Z) c sessionID : Coord St * result unit CoordErr :=
  if c_closed c then (c, Err ErrCoordinatorClosed)
  else
    let current := read_or_none (ss_get (cs 0%nat) now (c_store c) sessionID) in
    let over := match current with
                | Some s => bool_decide (State s = SessionStateClaimMissing) || IsSuccess (State s)
                | None => false
                end in
    if over then (c, Ok tt)
    else
      let verdict := match current with Some s => ClaimMissingVerdictFor (State s) | None => "" end in
      match updateState (cs 1%nat) now c sessionID SessionStateClaimMissing verdict with
      | (c1, Err e) => (c1, Err (ErrOfStore e))
      | (c1, Ok _) =>
          let c2 := match current with Some s => count (RecordClaimMissing s verdict) c1 | None => c1 end in
          (terminal sessionID c2, Ok tt)
      end.

Definition OnProofTxError (cs : Calls) (now : Z) c sessionID : Coord St * result unit CoordErr :=
  if c_closed c then (c, Err ErrCoordinatorClosed)
  else
    let over := match read_or_none (ss_get (cs 0%nat) now (c_store c) sessionID) with
                | Some s => IsSuccess (State s) || negb (String.eqb (ProofTxHash s) "")
                | None => false
                end in
    if over then (c, Ok tt)
    else markTerminal (cs 1%nat) now c sessionID SessionStateProofTxError.

Definition OnProofDeferred (cs : Calls) (now : Z) c sessionID : Coord St * result unit CoordErr :=
  if c_closed c then (c, Err ErrCoordinatorClosed)
  else match ss_get (cs 0%nat) now (c_store c) sessionID with
       | Err e => (c, Err (ErrOfStore e))
       | Ok None => (c, Err ErrNoSession)
       | Ok (Some current) =>
           if IsTerminal (State current) || negb (String.eqb (ProofTxHash current) "")
           then (c, Err (ErrOfStore ErrSessionNotDeferred))
           else match updateState (cs 1%nat) now c sessionID SessionStateClaimed "" with
                | (c1, Err e) => (c1, Err (ErrOfStore e))
                | (c1, Ok _) => (c1, Ok tt)
                end
       end.

Definition OnClaimDeferred (io : Io) (now : Z) c sessionID : Coord St * result unit CoordErr :=
  if c_closed c then (c, Err ErrCoordinatorClosed)
  else match updateState io now c sessionID SessionStateActive "" with
       | (c1, Err e) => (c1, Err (ErrOfStore e))
       | (c1, Ok _) => (c1, Ok tt)
       end.

Definition CloseCoordinator c : Coord St := mkCoord (c_mgr c) true (c_book c).

(** ** The chain observer of the lifecycle callback (miner/lifecycle_callback.go) *)

(** What the chain answers for a claim: it could not be asked, it has none, or
    its root hash. *)
Inductive ClaimAnswer := ClaimUnanswered | ClaimNotFound | ClaimFound (root : string).

(** [ObserveClaimOnChain]: asked and had nothing, or booked; [None] when the
    chain did not answer or its claim could not be booked. *)
Definition ObserveClaimOnChain (wired : bool) (GetClaim : string -> string -> ClaimAnswer) (cs : Calls) (now : Z) c
    (snapshot : SessionSnapshot) : Coord St * option bool :=
  if negb wired then (c, Some false)
  else match GetClaim (SupplierOperatorAddress snapshot) (SessionID snapshot) with
       | ClaimNotFound => (c, Some false)
       | ClaimUnanswered => (c, None)
       | ClaimFound root =>
           match OnClaimObservedOnChain cs now c (SessionID snapshot) root (ClaimTxHash snapshot) with
           | (c1, Ok _) => (c1, Some true)
           | (c1, Err _) => (c1, None)
           end
       end.

(** [markAndCountClaimWindowClosed]: the session is booked failed only when the
    chain said, finally, that it has no claim. *)
Definition markAndCountClaimWindowClosed (wired : bool) (GetClaim : string -> string -> ClaimAnswer) (cs1 : Calls) (io : Io)
    (now height : Z) c (snapshot : SessionSnapshot) (claimWindowClose : Z) : Coord St :=
  match ObserveClaimOnChain wired GetClaim cs1 now c snapshot with
  | (c1, None) | (c1, Some true) => c1
  | (c1, Some false) =>
      if negb (claimReadIsFinal height claimWindowClose) then c1
      else match OnClaimWindowClosed io now c1 (SessionID snapshot) with
           | (c2, Err _) => c2
           | (c2, Ok _) => count (RecordClaimWindowClosed snapshot (ClaimTxHash snapshot)) c2
           end
  end.
End Coordinator.
