(* ===== verification/CoordinatorBooks.v ===== *)
(** * The books of a session close

    Along the life of a session, the coordinator's entries in the books of
    claimed, forgone, lost and failed work say what the stored state says: a
    session's money is credited once however many observers saw its claim, and
    a failure that the chain later contradicts is reversed out of the very book
    it was put in. *)

From S2P Require Import Prelude SessionState StoreSpec SessionLifecycle LifecycleSafety SessionCoordinator.
From Stdlib Require Import Ascii String.

Local Open Scope string_scope.
Local Open Scope Z_scope.

(** ** Tallies *)

Definition entry_session (e : BookEntry) : string :=
  match e with
  | BkCreated s | BkClaimed s _ | BkReinstated s _ _ | BkReinstatedAttempt s _
  | BkFailed s _ | BkForgone s _ | BkLost s _ => SessionID s
  end.

(** What an entry adds to the sessions in each book. *)
Definition w_claimed (e : BookEntry) : Z := match e with BkClaimed _ _ => 1 | _ => 0 end.
Definition w_forgone (e : BookEntry) : Z :=
  match e with
  | BkForgone _ _ => 1
  | BkReinstated _ _ from => if String.eqb from ClaimMissingForgone then -1 else 0
  | _ => 0
  end.
Definition w_lost (e : BookEntry) : Z :=
  match e with
  | BkLost _ _ => 1
  | BkReinstated _ _ from => if String.eqb from ClaimMissingLost then -1 else 0
  | _ => 0
  end.
Definition w_failed (e : BookEntry) : Z :=
  match e with
  | BkFailed _ _ | BkForgone _ _ | BkLost _ _ => 1
  | BkReinstated _ _ _ | BkReinstatedAttempt _ _ => -1
  | _ => 0
  end.

Definition tally (w : BookEntry -> Z) (id : string) (book : list BookEntry) : Z :=
  foldr (fun e n => (if String.eqb (entry_session e) id then w e else 0) + n) 0 book.

Lemma tally_app w id a b : tally w id (a ++ b)%list = tally w id a + tally w id b.
Proof. unfold tally. induction a as [|e a IH]; simpl; [lia|]. rewrite IH. lia. Qed.

Lemma tally_rev w id a : tally w id (rev a) = tally w id a.
Proof. induction a as [|e a IH]; simpl; [done|]. rewrite tally_app, IH. unfold tally. simpl. lia. Qed.

Lemma tally_count w id es b : tally w id (rev es ++ b)%list = tally w id es + tally w id b.
Proof. by rewrite tally_app, tally_rev. Qed.

Lemma tally_other w id es : Forall (fun e => entry_session e <> id) es -> tally w id es = 0.
Proof.
  induction 1 as [|e es He _ IH]; simpl; [done|]. apply String.eqb_neq in He. unfold tally in *. simpl. rewrite He. lia.
Qed.

Record books := mkBooks { b_claimed : Z; b_forgone : Z; b_lost : Z; b_failed : Z }.

Definition books_of (id : string) (book : list BookEntry) : books :=
  mkBooks (tally w_claimed id book) (tally w_forgone id book) (tally w_lost id book) (tally w_failed id book).

(** What the books of a session must say, by what is stored of it. *)
Definition balanced (o : SessionSnapshot) (b : books) : Prop :=
  match State o with
  | SessionStateActive | SessionStateClaiming => b = mkBooks 0 0 0 0 /\ ClaimTxHash o = ""
  | SessionStateClaimed | SessionStateProving | SessionStateProved | SessionStateProbabilisticProved
  | SessionStateProofWindowClosed | SessionStateProofTxError => b = mkBooks 1 0 0 0
  | SessionStateClaimMissing => b = mkBooks 1 0 1 1 /\ ClaimMissingVerdict o = ClaimMissingLost
  | SessionStateClaimTxError =>
      ClaimTxHash o = "" /\
      (b = mkBooks 0 0 0 1 /\ ClaimMissingVerdict o = ClaimTxErrorAttempt \/
       b = mkBooks 0 1 0 1 /\ (ClaimMissingVerdict o = ClaimTxErrorForgone \/
                               ClaimMissingVerdict o = ClaimTxErrorEjectedUnrecoverable))
  | SessionStateClaimWindowClosed => b = mkBooks 0 1 0 1 /\ ClaimTxHash o = ""
  | SessionStateClaimSkipped => b = mkBooks 0 0 0 0
  | StOther _ => False
  end.

#[export] Instance Verdict_proper : Proper (snap_equiv ==> eq) ClaimMissingVerdict.
Proof. snap_proper. Qed.

Lemma balanced_equiv o o' b : o ≡ o' -> balanced o' b -> balanced o b.
Proof.
  intros He. unfold balanced. by rewrite (State_proper _ _ He), (ClaimTxHash_proper _ _ He), (Verdict_proper _ _ He).
Qed.

(** Compute the books after the entries of one call. *)
Ltac new_books :=
  unfold books_of; rewrite !tally_count; unfold tally at 1 3 5 7; simpl;
  rewrite ?String.eqb_refl; simpl.

Definition add_books (a b : books) : books :=
  mkBooks (b_claimed a + b_claimed b) (b_forgone a + b_forgone b) (b_lost a + b_lost b) (b_failed a + b_failed b).

Lemma books_count id es book : books_of id (rev es ++ book)%list = add_books (books_of id es) (books_of id book).
Proof. unfold books_of, add_books. simpl. by rewrite !tally_count. Qed.

(** ** What each write does to a balanced session *)

Lemma flip_balanced o root tx now o' r book :
  balanced o (books_of (SessionID o) book) ->
  spec_reactivate_claimed root tx now (Some o) = Ok (o', r) ->
  balanced o' (books_of (SessionID o) (rev (bookReactivation (Some o) root r) ++ book)%list).
Proof.
  intros Hb Hs. rewrite books_count. unfold spec_reactivate_claimed in Hs. unfold balanced in Hb.
  destruct (canReactivateClaimed (State o)) eqn:Hcan; injection Hs as <- <-; unfold balanced; simpl.
  - destruct (State o) eqn:Hst; try done; unfold books_of, tally, CreditsClaimed, ReinstatedBook, ReinstatesAttempt in *; simpl.
    + destruct Hb as [-> Htx]. by rewrite String.eqb_refl.
    + destruct Hb as [-> Htx]. by rewrite String.eqb_refl.
    + destruct Hb as [-> Htx]. rewrite Htx. simpl. by rewrite String.eqb_refl.
    + destruct Hb as [Htx [[-> Hv]|[-> [Hv|Hv]]]]; rewrite Hv; simpl; by rewrite String.eqb_refl.
    + destruct Hb as [-> Hv]. rewrite Hv. simpl. by rewrite String.eqb_refl.
  - assert (forall b, add_books (mkBooks 0 0 0 0) b = b) as Hz by by intros [].
    change (books_of (SessionID o) []) with (mkBooks 0 0 0 0). by rewrite Hz.
Qed.

(** A state before the claim. *)
Definition unclaimed (st : SessionState) : bool :=
  match st with SessionStateActive | SessionStateClaiming => true | _ => false end.

Lemma spec_update_new o st v now o' b :
  spec_update st v now (Some o) = Ok (o', b) -> State o <> st ->
  checkStateWrite o st = None /\ b = true /\ State o' = st /\ ClaimTxHash o' = ClaimTxHash o /\
  ClaimMissingVerdict o' = (if String.eqb v "" then ClaimMissingVerdict o else v) /\ SessionID o' = SessionID o.
Proof.
  unfold spec_update. intros Hs Hne. destruct (checkStateWrite o st); [done|]. rewrite decide_False in Hs by done.
  injection Hs as <- <-. destruct (String.eqb v ""); by destruct o.
Qed.

(** The states a session is moved to outside the claim-phase failures, with the
    states the movers read before. *)
Definition plain_move (from to : SessionState) : Prop :=
  to = SessionStateActive \/
  (to = SessionStateClaiming /\ from = SessionStateActive) \/
  (to = SessionStateClaimSkipped /\ unclaimed from = true) \/
  (HoldsClaimOnChain to = true /\ HoldsClaimOnChain from = true).

Lemma plain_balanced o st now o' b bk :
  plain_move (State o) st -> balanced o bk -> spec_update st "" now (Some o) = Ok (o', b) -> balanced o' bk.
Proof.
  intros Hp Hb Hs. destruct (decide (State o = st)) as [He|Hne].
  { unfold spec_update in Hs. destruct (checkStateWrite o st); [done|]. rewrite decide_True in Hs by done.
    injection Hs as <- <-. by apply (balanced_equiv _ o). }
  destruct (spec_update_new _ _ _ _ _ _ Hs Hne) as (Hc & _ & Hst & Htx & _ & _).
  unfold balanced in *. rewrite Hst, Htx. destruct Hp as [->|[[-> Ha]|[[-> Hu]|[H1 H2]]]].
  - unfold checkStateWrite in Hc. simpl in Hc.
    destruct (bool_decide_reflect (State o = SessionStateClaiming)) as [He|He]; simpl in Hc; [|done]. by rewrite He in Hb.
  - by rewrite Ha in Hb.
  - destruct (State o); try done; by destruct Hb.
  - by destruct (State o), st.
Qed.

Lemma tx_error_balanced o v now o' b book :
  unclaimed (State o) = true -> balanced o (books_of (SessionID o) book) ->
  v = ClaimTxErrorAttempt \/ v = ClaimTxErrorForgone \/ v = ClaimTxErrorEjectedUnrecoverable ->
  spec_update SessionStateClaimTxError v now (Some o) = Ok (o', b) ->
  b = true /\ balanced o' (books_of (SessionID o) (rev (RecordClaimTxErrorVerdict o v) ++ book)%list).
Proof.
  intros Hu Hb Hv Hs. assert (State o <> SessionStateClaimTxError) as Hne by (intros He; by rewrite He in Hu).
  destruct (spec_update_new _ _ _ _ _ _ Hs Hne) as (_ & -> & Hst & Htx & Hvd & _). split; [done|].
  rewrite books_count. assert (books_of (SessionID o) book = mkBooks 0 0 0 0 /\ ClaimTxHash o = "") as [-> Ht].
  { unfold balanced in Hb. by destruct (State o). }
  unfold balanced. rewrite Hst, Htx, Hvd. split; [done|].
  destruct Hv as [->|[->| ->]]; simpl; unfold books_of, tally; simpl; rewrite String.eqb_refl; auto.
Qed.

Lemma missing_balanced o now o' b book :
  HoldsClaimOnChain (State o) = true -> balanced o (books_of (SessionID o) book) ->
  spec_update SessionStateClaimMissing ClaimMissingLost now (Some o) = Ok (o', b) ->
  balanced o' (books_of (SessionID o) (rev (RecordClaimMissing o ClaimMissingLost) ++ book)%list).
Proof.
  intros Hh Hb Hs. assert (State o <> SessionStateClaimMissing) as Hne by (intros He; by rewrite He in Hh).
  destruct (spec_update_new _ _ _ _ _ _ Hs Hne) as (_ & _ & Hst & _ & Hvd & _).
  rewrite books_count. assert (books_of (SessionID o) book = mkBooks 1 0 0 0) as ->.
  { unfold balanced in Hb. by destruct (State o). }
  unfold balanced. rewrite Hst, Hvd. simpl. unfold books_of, tally. simpl. by rewrite String.eqb_refl.
Qed.

Lemma closed_balanced o now o' b book snap :
  unclaimed (State o) = true -> balanced o (books_of (SessionID o) book) ->
  SessionID snap = SessionID o -> ClaimTxHash snap = ClaimTxHash o ->
  spec_update SessionStateClaimWindowClosed "" now (Some o) = Ok (o', b) ->
  balanced o' (books_of (SessionID o) (rev (RecordClaimWindowClosed snap (ClaimTxHash snap)) ++ book)%list).
Proof.
  intros Hu Hb Hi Hh Hs. assert (State o <> SessionStateClaimWindowClosed) as Hne by (intros He; by rewrite He in Hu).
  destruct (spec_update_new _ _ _ _ _ _ Hs Hne) as (_ & _ & Hst & Htx & _ & _).
  rewrite books_count, Hh. assert (books_of (SessionID o) book = mkBooks 0 0 0 0 /\ ClaimTxHash o = "") as [-> Ht].
  { unfold balanced in Hb. by destruct (State o). }
  unfold balanced, RecordClaimWindowClosed. rewrite Hst, Htx, Ht. simpl. unfold books_of, tally. simpl.
  by rewrite Hi, String.eqb_refl.
Qed.

(** ** The life of a session *)

Section Life.
Context {St : Type} `{SS : !SessionStore St} `{SSL : !SessionStoreLaws St}.
Variables (onCreated onTerminal : bool).
Variable id : string.
Hypothesis Hid : ss_id id.
Implicit Types (c : Coord St) (o : SessionSnapshot).

Abbreviation view now c := (ss_view now (c_store c) id).

(** The call's writes were answered. *)
Definition settled {A} (r : result A CoordErr) : Prop := forall e, r <> Err (ErrOfStore (ErrIo e)).

(** The events of a session at an instant. Each is the coordinator's own
    handler; the side conditions are what its callers know of the session. *)
Inductive event (now : Z) c : Coord St -> Prop :=
| ev_claimed cs root tx c' r :
    answered cs -> text_ok tx -> String.length root = SMSTRootLen ->
    OnSessionClaimed cs now c id root tx = (c', r) -> settled r -> event now c c'
| ev_observed cs root tx c' r :
    answered cs -> text_ok tx -> (forall o, view now c = Some o -> storable o) ->
    OnClaimObservedOnChain onCreated cs now c id root tx = (c', r) -> settled r -> event now c c'
| ev_tx_error cs v c' r :
    answered cs -> v = ClaimTxErrorAttempt \/ v = ClaimTxErrorForgone \/ v = ClaimTxErrorEjectedUnrecoverable ->
    (forall o, view now c = Some o -> unclaimed (State o) = true \/ HoldsClaimOnChain (State o) = true
                                      \/ State o = SessionStateClaimTxError) ->
    OnClaimTxError onTerminal cs now c id v = (c', r) -> settled r -> event now c c'
| ev_missing cs c' r :
    answered cs -> (forall o, view now c = Some o -> HoldsClaimOnChain (State o) = true) ->
    OnClaimMissing onTerminal cs now c id = (c', r) -> settled r -> event now c c'
| ev_window_closed cs GetClaim height snap claimClose :
    answered cs -> SessionID snap = id -> GetClaim (SupplierOperatorAddress snap) id = ClaimNotFound ->
    (forall o, view now c = Some o -> ClaimTxHash o = ClaimTxHash snap /\
               (unclaimed (State o) = true \/ HoldsClaimOnChain (State o) = true)) ->
    event now c (markAndCountClaimWindowClosed onCreated onTerminal true GetClaim cs io_ok now height c snap claimClose)
| ev_move io st c' r :
    (forall o, view now c = Some o -> plain_move (State o) st) -> known st = true ->
    updateState io now c id st "" = (c', r) -> event now c c'
| ev_relay io cu c' r :
    ss_units (St := St) cu -> counters_fit cu (view now c) -> OnRelayProcessed io now c id cu = (c', r) -> event now c c'
| ev_other c' es :
    ss_wf (c_store c') -> view now c' = view now c -> c_book c' = (es ++ c_book c)%list ->
    Forall (fun e => entry_session e <> id) es -> event now c c'.

(** A session is stored under its ID, and its books are balanced. *)
Definition sound now c : Prop :=
  ss_wf (c_store c) /\ exists o, view now c = Some o /\ SessionID o = id /\ balanced o (books_of id (c_book c)).

Lemma sound_intro now c o o' :
  ss_wf (c_store c) -> view now c ≡ Some o' -> SessionID o = id -> SessionID o' = SessionID o ->
  balanced o' (books_of (SessionID o) (c_book c)) -> sound now c.
Proof.
  intros Hw Hv Hi Hi' Hb. split; [done|]. destruct (view_equiv_some _ _ Hv) as (w & Hvw & He).
  exists w. split; [done|]. split; [by rewrite (SessionID_proper _ _ He), Hi'|].
  rewrite <- Hi. by apply (balanced_equiv _ o').
Qed.

Lemma spec_update_id o st v now o' b : spec_update st v now (Some o) = Ok (o', b) -> SessionID o' = SessionID o.
Proof.
  unfold spec_update. destruct (checkStateWrite o st); [done|]. case_decide; intros [= <- <-]; [done|].
  destruct (String.eqb v ""); by destruct o.
Qed.

Lemma reactivate_id o root tx now o' r :
  spec_reactivate_claimed root tx now (Some o) = Ok (o', r) -> SessionID o' = SessionID o.
Proof. simpl. destruct (canReactivateClaimed (State o)); intros [= <- <-]; by destruct o. Qed.
Section At.
Variable now : Z.
Hypothesis Hnow : time_ok now.

Lemma sound_same c c' : sound now c -> ss_wf (c_store c') -> view now c' ≡ view now c -> c_book c' = c_book c -> sound now c'.
Proof.
  intros (Hw & o & Hv & Hi & Hb) Hw' Hv' Hbk. rewrite Hv in Hv'.
  apply (sound_intro now c' o o); [done|done|done|done|]. by rewrite Hbk, Hi.
Qed.

Lemma sound_terminal c : sound now c -> sound now (terminal onTerminal id c).
Proof.
  intros Hs. apply (sound_same c); [done|..]; unfold terminal; destruct onTerminal; try done; by destruct Hs.
Qed.

(** The flip into claimed, and what was booked with it. *)
Lemma reactivated c o root tx io s' r :
  sound now c -> view now c = Some o -> text_ok tx -> String.length root = SMSTRootLen ->
  ss_reactivate_claimed io now (c_store c) id root tx = (s', r) ->
  match r with
  | Ok re => sound now (count (bookReactivation (Some o) root re) (set_store s' c)) /\
             exists o', spec_reactivate_claimed root tx now (Some o) = Ok (o', re) /\ ss_view now s' id ≡ Some o'
  | Err (ErrIo _) => True
  | Err _ => sound now (set_store s' c)
  end.
Proof.
  intros Hs Hv Htx Hroot Hr. pose proof Hs as (Hw & o2 & Hv2 & Hi & Hb). rewrite Hv in Hv2. injection Hv2 as <-.
  pose proof (ss_reactivate_claimed_spec io now (c_store c) id root tx Hw Hid Hnow Htx Hroot) as [Hw' [_ Hres]].
  rewrite Hr, Hv in *. simpl in *. destruct r as [re|e].
  - destruct Hres as (o' & Hsp & Hv'). split; [|by exists o'].
    apply (sound_intro now _ o o'); [done|done|done|by eapply (reactivate_id o root tx now)|].
    simpl. by apply (flip_balanced o root tx now); [rewrite Hi|].
  - destruct e; try done; destruct Hres as [Hres _]; (apply (sound_same c); [done|done| |done]); rewrite Hv; change (ss_view now s' id ≡ Some o); by rewrite Hres.
Qed.

Lemma claimed_sound cs root tx c c' r :
  sound now c -> answered cs -> text_ok tx -> String.length root = SMSTRootLen ->
  OnSessionClaimed cs now c id root tx = (c', r) -> settled r -> sound now c'.
Proof.
  intros Hs Hcs Htx Hroot. pose proof Hs as (Hw & o & Hv & Hi & Hb). unfold OnSessionClaimed.
  destruct (c_closed c); [by intros [= <- <-]|]. rewrite (Hcs 0%nat), ss_get_answers, Hv by done.
  destruct (ss_reactivate_claimed (cs 1%nat) now (c_store c) id root tx) as [s' re] eqn:Hre.
  pose proof (reactivated c o root tx _ s' re Hs Hv Htx Hroot Hre) as Hk.
  destruct re as [re|e]; intros [= <- <-] Hset; [by destruct Hk|]. destruct e; try done. by destruct (Hset e).
Qed.

Lemma storable_flip o root tx t o' r :
  storable o -> text_ok tx -> String.length root = SMSTRootLen ->
  spec_reactivate_claimed root tx t (Some o) = Ok (o', r) -> storable o'.
Proof.
  intros (Hok & Hr & Hk & Ht & Hc) Htx Hroot. simpl.
  destruct (canReactivateClaimed (State o)); intros [= <- <-]; [|by split_and!].
  destruct Hok as (? & ? & ? & ? & _). split; [by split_and!|]. split; [by right|]. split; [done|]. split; [|done].
  unfold text_fields in *. decompose_Forall_hyps. repeat constructor; try done. by destruct (String.eqb tx "").
Qed.

Lemma storable_equiv o o' : o ≡ o' -> storable o' -> storable o.
Proof. intros [t ->]%snap_equiv_iff. by destruct o. Qed.

(** Tracking a session as it was just read. *)
Lemma track_sound c w m' r :
  sound now c -> view now c = Some w -> storable w -> TrackSession io_ok now (c_mgr c) w = (m', r) ->
  sound now (set_mgr m' c).
Proof.
  intros Hs Hv Hst. pose proof Hs as (Hw & o & Hv2 & Hi & Hb). rewrite Hv in Hv2. injection Hv2 as <-.
  unfold TrackSession. destruct (lm_closed (c_mgr c)).
  { intros [= <- <-]. by apply (sound_same c). }
  destruct (ss_save io_ok now (lm_store (track w (c_mgr c))) w) as [s' rs] eqn:Hsv. intros [= <- <-].
  assert (ss_save io_ok now (c_store c) w = (s', rs)) as Hsv' by exact Hsv.
  destruct (decide (rs = Err ErrStoreClosed)) as [->|Hne].
  { pose proof (ss_save_closed io_ok now (c_store c) w) as Hcl. rewrite Hsv' in Hcl. specialize (Hcl eq_refl).
    simpl in Hcl. subst s'. by apply (sound_same c). }
  pose proof (ss_save_spec io_ok now (c_store c) w Hw) as Hk. rewrite Hi, Hsv' in Hk. simpl in Hk.
  destruct (Hk Hid Hnow Hst eq_refl Hne) as [Hw' [_ Hres]]. simpl in Hw', Hres. rewrite Hv in Hres. simpl in Hres.
  assert (ss_view now s' id ≡ Some (set_counters (RelayCount w) (TotalComputeUnits w) (touch now w)) ->
    sound now (set_mgr (with_store s' (track w (c_mgr c))) c)) as Hwritten.
  { intros Hv'. apply (sound_intro now _ w (set_counters (RelayCount w) (TotalComputeUnits w) (touch now w))); try done.
    simpl. rewrite Hi. by destruct w. }
  destruct rs as [u|e].
  - destruct Hres as (x & Hx & Hv'). injection Hx as <-. by apply Hwritten.
  - destruct e; try (destruct Hres as [_ Hx]; discriminate Hx).
    destruct Hres as [Hsame|(x & u & Hx & Hv')]; [|injection Hx as <-; by apply Hwritten].
    apply (sound_same c); [done|done| |done]. rewrite Hv. exact Hsame.
Qed.

Lemma observed_sound cs root tx c c' r :
  sound now c -> answered cs -> text_ok tx -> (forall o, view now c = Some o -> storable o) ->
  OnClaimObservedOnChain onCreated cs now c id root tx = (c', r) -> settled r -> sound now c'.
Proof.
  intros Hs Hcs Htx Hst. pose proof Hs as (Hw & o & Hv & Hi & Hb). unfold OnClaimObservedOnChain.
  destruct (c_closed c); [by intros [= <- <-]|].
  destruct (Nat.eqb_spec (String.length root) SMSTRootLen) as [Hroot|]; cbn [negb]; [|by intros [= <- <-]].
  rewrite (Hcs 0%nat), ss_get_answers, Hv by done. cbv zeta. simpl read_or_none.
  destruct (ss_reactivate_claimed (cs 1%nat) now (c_store c) id root tx) as [s' re] eqn:Hre.
  pose proof (reactivated c o root tx _ s' re Hs Hv Htx Hroot Hre) as Hk.
  destruct re as [re|e]; [|intros [= <- <-] Hset; destruct e; try done; by destruct (Hset e)].
  destruct Hk as [Hk (o' & Hsp & Hv')]. destruct (RFrom re); [|by intros [= <- <-]].
  destruct onCreated; cbn [negb]; [|by intros [= <- <-]].
  set (c1 := count _ _) in *. pose proof Hk as (Hw1 & w & Hv1 & _). rewrite (Hcs 2%nat), (Hcs 3%nat), ss_get_answers by done.
  rewrite Hv1. destruct (TrackSession io_ok now (c_mgr c1) w) as [m' e] eqn:Ht. intros Heqc _. apply (f_equal fst) in Heqc. simpl in Heqc. subst c'.
  apply (track_sound c1 w m' e); [done|done| |done].
  destruct (view_equiv_some _ _ Hv') as (w' & Hw' & He).
  assert (view now c1 = ss_view now s' id) as Heq by done. rewrite Heq, Hw' in Hv1. injection Hv1 as <-.
  apply (storable_equiv _ o' He). eapply storable_flip; eauto.
Qed.
(** A state write of the session. *)
Lemma updated c o io st v c' r :
  ss_wf (c_store c) -> view now c = Some o -> known st = true -> text_ok v ->
  updateState io now c id st v = (c', r) ->
  c_book c' = c_book c /\ ss_wf (c_store c') /\
  match r with
  | Ok b => exists o', spec_update st v now (Some o) = Ok (o', b) /\ view now c' ≡ Some o'
  | Err (ErrIo _) =>
      view now c' ≡ Some o \/ exists o' b, spec_update st v now (Some o) = Ok (o', b) /\ view now c' ≡ Some o'
  | Err e => view now c' ≡ Some o
  end.
Proof.
  intros Hw Hv Hk Ht. unfold updateState.
  pose proof (ss_update_spec io now (c_store c) id st v Hw Hid Hnow Ht Hk) as [Hw' [_ Hres]].
  destruct (ss_update io now (c_store c) id st v) as [s' r0]. simpl in *. rewrite Hv in Hres. intros [= <- <-].
  split; [done|]. split; [done|]. change (c_store (set_store s' c)) with s'. destruct r0 as [b|e]; [done|].
  destruct e; try done; by destruct Hres as [-> _].
Qed.

Lemma count_sound c c' o o' es :
  sound now c -> view now c = Some o -> ss_wf (c_store c') -> view now c' ≡ Some o' -> SessionID o' = SessionID o ->
  c_book c' = c_book c ->
  balanced o' (books_of (SessionID o) (rev es ++ c_book c)%list) -> sound now (count es c').
Proof.
  intros (Hw & o2 & Hv & Hi & Hb) Hv2 Hw' Hv' Hi' Hbk Hbal. rewrite Hv in Hv2. injection Hv2 as ->.
  apply (sound_intro now _ o o'); try done. simpl. by rewrite Hbk.
Qed.

Lemma move_sound io st c c' r :
  sound now c -> (forall o, view now c = Some o -> plain_move (State o) st) -> known st = true ->
  updateState io now c id st "" = (c', r) -> sound now c'.
Proof.
  intros Hs Hp Hk Hu. pose proof Hs as (Hw & o & Hv & Hi & Hb). specialize (Hp o Hv).
  destruct (updated c o io st "" c' r Hw Hv Hk ltac:(done) Hu) as (Hbk & Hw' & Hr).
  assert (view now c' ≡ Some o -> sound now c') as Hsame by (intros H; apply (sound_same c); [done|done|by rewrite Hv|done]).
  assert (forall o' b, spec_update st "" now (Some o) = Ok (o', b) -> view now c' ≡ Some o' -> sound now c') as Hmv.
  { intros o' b Hsp Hv'. apply (sound_intro now c' o o'); [done|done|done|by eapply spec_update_id|].
    rewrite Hbk, Hi. by eapply (plain_balanced o st now). }
  destruct r as [b|e]; [destruct Hr as (o' & ? & ?); eauto|]. destruct e; auto. destruct Hr as [|(o' & b & ? & ?)]; eauto.
Qed.

Lemma refused_claim_phase c o st c' r v :
  ss_wf (c_store c) -> view now c = Some o -> HoldsClaimOnChain (State o) = true -> text_ok v ->
  st = SessionStateClaimWindowClosed \/ st = SessionStateClaimTxError -> sound now c ->
  forall io, updateState io now c id st v = (c', r) -> (exists e, r = Err e) /\ sound now c'.
Proof.
  intros Hw Hv Hh Ht Hst Hs io Hu. assert (known st = true) as Hk by by destruct Hst as [-> | ->].
  assert (checkStateWrite o st = Some ErrClaimAlreadyOnChain) as Hc.
  { unfold checkStateWrite. rewrite Hh. by destruct Hst as [-> | ->]. }
  destruct (updated c o io st v c' r Hw Hv Hk Ht Hu) as (Hbk & Hw' & Hr).
  assert (view now c' ≡ Some o -> sound now c') as Hsame by (intros H; apply (sound_same c); [done|done|by rewrite Hv|done]).
  assert (forall o' b, spec_update st v now (Some o) = Ok (o', b) -> False) as Hno.
  { intros o' b. unfold spec_update. by rewrite Hc. }
  destruct r as [b|e]; [destruct Hr as (o' & Hx & _); by apply Hno in Hx|]. split; [by eexists|].
  destruct e; auto. destruct Hr as [|(o' & b & Hx & _)]; [auto|by apply Hno in Hx].
Qed.

Lemma tx_error_sound cs v c c' r :
  sound now c -> answered cs -> v = ClaimTxErrorAttempt \/ v = ClaimTxErrorForgone \/ v = ClaimTxErrorEjectedUnrecoverable ->
  (forall o, view now c = Some o -> unclaimed (State o) = true \/ HoldsClaimOnChain (State o) = true
                                      \/ State o = SessionStateClaimTxError) ->
  OnClaimTxError onTerminal cs now c id v = (c', r) -> settled r -> sound now c'.
Proof.
  intros Hs Hcs Hv Hpre. pose proof Hs as (Hw & o & Hvw & Hi & Hb). specialize (Hpre o Hvw).
  assert (text_ok v) as Htv by by destruct Hv as [->|[->| ->]].
  unfold OnClaimTxError. destruct (c_closed c); [by intros [= <- <-]|].
  rewrite (Hcs 0%nat), ss_get_answers, Hvw by done. cbv zeta. simpl read_or_none. cbv iota.
  match goal with |- context [if ?b then _ else _] => destruct b eqn:Hover end; [by intros [= <- <-]|].
  apply orb_false_iff in Hover as [_ Hne]. apply bool_decide_eq_false in Hne.
  destruct (updateState (cs 1%nat) now c id SessionStateClaimTxError v) as [c1 r1] eqn:Hu.
  destruct Hpre as [Hun|[Hh|He]]; [|destruct (refused_claim_phase c o _ _ _ _ Hw Hvw Hh Htv (or_intror eq_refl) Hs _ Hu) as [[e ->] Hs1]|done].
  2:{ by intros [= <- <-]. }
  destruct (updated c o _ SessionStateClaimTxError v c1 r1 Hw Hvw eq_refl Htv Hu) as (Hbk & Hw1 & Hr).
  destruct r1 as [b|e].
  - destruct Hr as (o' & Hsp & Hv1). intros [= <- <-] _. apply sound_terminal.
    destruct (tx_error_balanced o v now o' b (c_book c) Hun ltac:(by rewrite Hi) Hv Hsp) as [-> Hbal].
    apply (count_sound c c1 o o'); try done. by eapply spec_update_id.
  - intros [= <- <-] Hset. apply (sound_same c); [done|done| |done]. rewrite Hvw. destruct e; try done. by destruct (Hset e).
Qed.

Lemma missing_sound cs c c' r :
  sound now c -> answered cs -> (forall o, view now c = Some o -> HoldsClaimOnChain (State o) = true) ->
  OnClaimMissing onTerminal cs now c id = (c', r) -> settled r -> sound now c'.
Proof.
  intros Hs Hcs Hpre. pose proof Hs as (Hw & o & Hvw & Hi & Hb). specialize (Hpre o Hvw).
  unfold OnClaimMissing. destruct (c_closed c); [by intros [= <- <-]|].
  rewrite (Hcs 0%nat), ss_get_answers, Hvw by done. cbv zeta. simpl read_or_none. cbv iota.
  match goal with |- context [if ?b then _ else _] => destruct b eqn:Hover end; [by intros [= <- <-]|].
  unfold ClaimMissingVerdictFor. rewrite Hpre.
  destruct (updateState (cs 1%nat) now c id SessionStateClaimMissing ClaimMissingLost) as [c1 r1] eqn:Hu.
  destruct (updated c o _ SessionStateClaimMissing ClaimMissingLost c1 r1 Hw Hvw eq_refl ltac:(done) Hu) as (Hbk & Hw1 & Hr).
  destruct r1 as [b|e].
  - destruct Hr as (o' & Hsp & Hv1). intros [= <- <-] _. apply sound_terminal.
    apply (count_sound c c1 o o'); try done; [by eapply spec_update_id|].
    eapply (missing_balanced o now); [done|by rewrite Hi|done].
  - intros [= <- <-] Hset. apply (sound_same c); [done|done| |done]. rewrite Hvw. destruct e; try done. by destruct (Hset e).
Qed.

Lemma window_closed_sound cs GetClaim height snap claimClose c :
  sound now c -> answered cs -> SessionID snap = id -> GetClaim (SupplierOperatorAddress snap) id = ClaimNotFound ->
  (forall o, view now c = Some o -> ClaimTxHash o = ClaimTxHash snap /\
             (unclaimed (State o) = true \/ HoldsClaimOnChain (State o) = true)) ->
  sound now (markAndCountClaimWindowClosed onCreated onTerminal true GetClaim cs io_ok now height c snap claimClose).
Proof.
  intros Hs Hcs Hsn Hg Hpre. pose proof Hs as (Hw & o & Hvw & Hi & Hb). destruct (Hpre o Hvw) as [Htx Hst].
  unfold markAndCountClaimWindowClosed, ObserveClaimOnChain. rewrite Hsn, Hg. cbn [negb].
  destruct (claimReadIsFinal height claimClose); cbn [negb]; [|done].
  unfold OnClaimWindowClosed, markTerminal. destruct (c_closed c); [done|].
  destruct (updateState io_ok now c id SessionStateClaimWindowClosed "") as [c1 r1] eqn:Hu.
  destruct Hst as [Hun|Hh].
  2:{ assert (text_ok "") as Ht0 by done.
      destruct (refused_claim_phase c o _ _ _ _ Hw Hvw Hh Ht0 (or_introl eq_refl) Hs _ Hu) as [[e ->] Hs1]. done. }
  destruct (updated c o _ SessionStateClaimWindowClosed "" c1 r1 Hw Hvw eq_refl ltac:(done) Hu) as (Hbk & Hw1 & Hr).
  destruct r1 as [b|e].
  - destruct Hr as (o' & Hsp & Hv1).
    assert (c_store (terminal onTerminal id c1) = c_store c1 /\ c_book (terminal onTerminal id c1) = c_book c1) as [Hst' Hbk']
      by (unfold terminal; by destruct onTerminal).
    apply (count_sound c _ o o'); rewrite ?Hst', ?Hbk'; try done; [by eapply spec_update_id|].
    eapply (closed_balanced o now); [done|by rewrite Hi|congruence|congruence|exact Hsp].
  - apply (sound_same c); [done|done| |done]. rewrite Hvw. destruct e; try done. exfalso. revert Hu. unfold updateState.
    pose proof (ss_update_answers now (c_store c) id SessionStateClaimWindowClosed "" e Hw Hid Hnow eq_refl) as Ha.
    destruct (ss_update io_ok now (c_store c) id SessionStateClaimWindowClosed "") as [s' r0]. intros [= _ ->]. by apply Ha.
Qed.

Lemma relay_sound io cu c c' r :
  sound now c -> ss_units (St := St) cu -> counters_fit cu (view now c) -> OnRelayProcessed io now c id cu = (c', r) -> sound now c'.
Proof.
  intros Hs Hcu Hfit. pose proof Hs as (Hw & o & Hvw & Hi & Hb). unfold OnRelayProcessed.
  destruct (c_closed c); [by intros [= <- <-]|].
  pose proof (ss_increment_spec io now (c_store c) id cu Hw Hid Hcu Hnow Hfit) as [Hw' [_ Hres]].
  destruct (ss_increment io now (c_store c) id cu) as [s' r0]. simpl in *. rewrite Hvw in Hres.
  assert (ss_view now s' id ≡ Some o -> sound now (set_store s' c)) as Hsame
    by (intros H; apply (sound_same c); [done|done|by rewrite Hvw|done]).
  assert (forall o' b, spec_increment cu now (Some o) = Ok (o', b) -> ss_view now s' id ≡ Some o' -> sound now (set_store s' c)) as Hmv.
  { intros o' b Hsp Hv'. simpl in Hsp. destruct (IsTerminal (State o)); [done|]. injection Hsp as <- <-.
    apply (sound_intro now _ o (set_counters (RelayCount o + 1) (TotalComputeUnits o + cu) o)); try done;
      [|by rewrite Hi; destruct o]. etrans; [exact Hv'|]. constructor. by destruct o. }
  assert (sound now (set_store s' c)) as Hend.
  { destruct r0 as [b|e]; [destruct Hres as (o' & ? & ?); eauto|].
    destruct e; try (apply Hsame; by destruct Hres as [-> _]). destruct Hres as [|(o' & b & ? & ?)]; eauto. }
  destruct r0 as [b|[]]; by intros [= <- <-].
Qed.

Lemma event_sound c c' : sound now c -> event now c c' -> sound now c'.
Proof.
  intros Hs Hev. destruct Hev.
  - by eapply claimed_sound.
  - by eapply observed_sound.
  - by eapply tx_error_sound.
  - by eapply missing_sound.
  - by apply window_closed_sound.
  - by eapply move_sound.
  - by eapply relay_sound.
  - destruct Hs as (Hw & o & Hv & Hi & Hb). split; [done|]. exists o. split; [congruence|]. split; [done|].
    match goal with H : c_book c' = _ |- _ => rewrite H end. unfold books_of. rewrite !tally_app, !(tally_other _ _ es) by done. exact Hb.
Qed.
End At.
(** A session's life: created, then events at later and later instants, as
    long as the store still holds it. *)
Inductive life : Z -> Coord St -> Prop :=
| life_created now c o :
    ss_wf (c_store c) -> view now c = Some o -> SessionID o = id -> State o = SessionStateActive ->
    ClaimTxHash o = "" -> Forall (fun e => entry_session e <> id \/ exists s, e = BkCreated s) (c_book c) -> life now c
| life_event now now' c c' :
    life now c -> now <= now' -> time_ok now' -> is_Some (view now' c) -> event now' c c' -> life now' c'.

Lemma created_books book :
  Forall (fun e => entry_session e <> id \/ exists s, e = BkCreated s) book -> books_of id book = mkBooks 0 0 0 0.
Proof.
  intros H. unfold books_of, tally.
  induction H as [|e book He _ IH]; simpl; [done|]. injection IH as H1 H2 H3 H4. rewrite H1, H2, H3, H4.
  destruct He as [He|[s ->]]; [apply String.eqb_neq in He; by rewrite He|]. by destruct (String.eqb _ _).
Qed.

Lemma life_sound now c : life now c -> sound now c.
Proof.
  induction 1 as [now c o Hw Hv Hi Hst Htx Hbk|now now' c c' _ IH Hle Hnow' Hlive Hev].
  - split; [done|]. exists o. split; [done|]. split; [done|]. unfold balanced. rewrite Hst, created_books by done. done.
  - eapply event_sound; [done| |exact Hev]. destruct IH as (Hw & o & Hv & Hi & Hb). split; [done|].
    destruct (ss_view_later now now' (c_store c) id Hle) as [He|He]; [|by rewrite He in Hlive; destruct Hlive].
    exists o. by rewrite He.
Qed.
End Life.

(** ** The coordinator's observer keeps the lifecycle's contract *)

Section Observer.
Context {St : Type} `{SS : !SessionStore St} `{SSL : !SessionStoreLaws St}.
Variables (onCreated wired closed : bool) (GetClaim : string -> string -> ClaimAnswer) (cs : Calls).
Hypothesis Hcs : answered cs.

(** The observer as the lifecycle manager calls it: the coordinator's books are
    its own. *)
Definition observer (now : Z) (m : Manager St) (session : SessionSnapshot) : Manager St * option bool :=
  let '(c, a) := SessionCoordinator.ObserveClaimOnChain onCreated wired GetClaim cs now (mkCoord m closed []) session in
  (c_mgr c, a).

(** What one call leaves of every other session. *)
Definition only_touches (now : Z) (id : string) (m m' : Manager St) : Prop :=
  ss_wf (lm_store m') /\ resumedUnsentClaims m' = resumedUnsentClaims m /\
  forall id', id' <> id -> ss_view now (lm_store m') id' = ss_view now (lm_store m) id'.

Lemma touches_store now id m s' :
  ss_wf s' -> (forall id', id' <> id -> ss_view now s' id' = ss_view now (lm_store m) id') ->
  only_touches now id m (with_store s' m).
Proof. done. Qed.

Lemma touches_track now m m' w r :
  ss_wf (lm_store m) -> ss_id (SessionID w) -> time_ok now -> storable w ->
  TrackSession io_ok now m w = (m', r) -> only_touches now (SessionID w) m m'.
Proof.
  intros Hw Hid Hnow Hst. unfold TrackSession. destruct (lm_closed m); [by intros [= <- <-]|].
  destruct (ss_save io_ok now (lm_store (track w m)) w) as [s' rs] eqn:Hsv. intros [= <- <-]. simpl in Hsv.
  destruct (decide (rs = Err ErrStoreClosed)) as [->|Hne].
  { pose proof (ss_save_closed io_ok now (lm_store m) w) as Hcl. rewrite Hsv in Hcl. specialize (Hcl eq_refl).
    simpl in Hcl. by subst s'. }
  pose proof (ss_save_spec io_ok now (lm_store m) w Hw Hid Hnow Hst eq_refl) as Hk. rewrite Hsv in Hk.
  destruct (Hk Hne) as [Hw' [Hf _]]. done.
Qed.

Lemma observer_touches now m session m' a :
  observer now m session = (m', a) -> ss_wf (lm_store m) -> ss_id (SessionID session) -> time_ok now ->
  ss_view now (lm_store m) (SessionID session) = Some session -> storable session ->
  only_touches now (SessionID session) m m'.
Proof.
  intros Ho Hw Hid Hnow Hv Hst. unfold observer, SessionCoordinator.ObserveClaimOnChain in Ho.
  assert (only_touches now (SessionID session) m m) as Hrefl by done.
  destruct wired; cbn [negb] in Ho; [|by injection Ho as <- <-].
  destruct (GetClaim _ _) as [| |root]; [by injection Ho as <- <-|by injection Ho as <- <-|].
  destruct (OnClaimObservedOnChain onCreated cs now (mkCoord m closed []) (SessionID session) root (ClaimTxHash session))
    as [c1 r1] eqn:Hob.
  assert (m' = c_mgr c1) as -> by (by destruct r1; injection Ho as <- <-). clear Ho.
  assert (text_ok (ClaimTxHash session)) as Htx.
  { destruct Hst as (_ & _ & _ & Ht & _). unfold text_fields in Ht. by decompose_Forall_hyps. }
  unfold OnClaimObservedOnChain in Hob. cbn [c_closed] in Hob. destruct closed; [by injection Hob as <- <-|].
  destruct (Nat.eqb_spec (String.length root) SMSTRootLen) as [Hroot|]; cbn [negb] in Hob; [|by injection Hob as <- <-].
  cbv zeta in Hob. change (c_store (mkCoord m false [])) with (lm_store m) in Hob.
  pose proof (ss_reactivate_claimed_spec (cs 1%nat) now (lm_store m) (SessionID session) root (ClaimTxHash session)
    Hw Hid Hnow Htx Hroot) as [Hw' [Hf Hres]].
  destruct (ss_reactivate_claimed (cs 1%nat) now (lm_store m) (SessionID session) root (ClaimTxHash session)) as [s' [re|e]];
    simpl in Hw', Hf, Hres; [|by injection Hob as <- <-].
  set (c2 := count _ _) in Hob. assert (only_touches now (SessionID session) m (c_mgr c2)) as H2 by done.
  destruct (RFrom re); [|by injection Hob as <- <-]. destruct onCreated; cbn [negb] in Hob; [|by injection Hob as <- <-].
  rewrite (Hcs 2%nat), ss_get_answers in Hob by done.
  destruct Hres as (o' & Hsp & Hv'). rewrite Hv in Hsp. destruct (view_equiv_some _ _ Hv') as (w & Hvw & He).
  change (ss_view now (c_store c2) (SessionID session)) with (ss_view now s' (SessionID session)) in Hob.
  rewrite Hvw, (Hcs 3%nat) in Hob. destruct (TrackSession io_ok now (c_mgr c2) w) as [m2 r2] eqn:Ht.
  injection Hob as <- _. cbn [c_mgr set_mgr].
  assert (SessionID w = SessionID session) as Hiw.
  { rewrite (SessionID_proper _ _ He). by eapply reactivate_id. }
  assert (storable w) as Hsw by (apply (storable_equiv _ o' He); eapply storable_flip; [done|exact Htx|exact Hroot|exact Hsp]).
  destruct (touches_track now (c_mgr c2) m2 w r2) as (Hw3 & Hr3 & Hf3); [done|by rewrite Hiw|done|done|done|].
  destruct H2 as (_ & Hr2 & Hf2). split; [done|]. split; [by rewrite Hr3|].
  intros id' Hne. rewrite Hf3 by (by rewrite Hiw). by apply Hf2.
Qed.

#[export] Instance observer_laws needClaim needProof onTerm :
  ObserverLaws (mkCallback St (Some observer) needClaim needProof onTerm).
Proof.
  split. intros observe now m session m' a Hob. injection Hob as <-. intros Ho Hw Hid Hnow Hv Hst.
  destruct (observer_touches now m session m' a Ho Hw Hid Hnow Hv Hst) as (Hw' & Hr & Hf).
  split; [done|]. intros id' Hne. split; [by apply Hf|]. by rewrite Hr.
Qed.
End Observer.

(** ** The theorem *)

Section Claims.
Context {St : Type} `{SS : !SessionStore St} `{SSL : !SessionStoreLaws St}.

(** C1. The books of a session close. A life of a session is a sequence of calls
    of the coordinator's handlers, one whole handler at a time: its claim
    submitted or observed on chain, a claim transaction error of each verdict,
    the claim missing, the claim window closed, relays, moves between the states
    in between, and whatever concerns other sessions. Every round trip of a
    handler that books something is answered (relays and plain moves may lose
    theirs), the counters have room, and each handler meets the session as its
    callers leave it: a missing claim one that was claimed, a claim failure one
    that is not past the claim, a closed window one the chain said has no claim
    and whose snapshot is as stored. After such a life the entries made for
    the session say exactly what its stored state says: its money is in the
    claimed book once if the chain holds its claim, in the forgone or the lost
    book once if it failed, and a failure the chain contradicted is reversed
    from the book it was put in. The answered reads are needed: when the one
    before a reversal fails, the failure stays counted (failed_read_keeps_failure
    of LifecycleExamples); and so is one handler at a time: the write of a
    missing claim does not say whether it moved the session, so two such
    handlers overlapping would both count. *)
Theorem session_books_balance (onCreated onTerminal : bool) (id : string) (now : Z) (c : Coord St) :
  ss_id id -> life onCreated onTerminal id now c ->
  exists o, ss_view now (c_store c) id = Some o /\ balanced o (books_of id (c_book c)).
Proof.
  intros Hid Hl. destruct (life_sound onCreated onTerminal id Hid now c Hl) as (_ & o & Hv & _ & Hb). by exists o.
Qed.
End Claims.
