(* ===== verification/LifecycleExamples.v ===== *)
(** * The lifecycle and the coordinator on a concrete store

    The theorems of LifecycleSafety and CoordinatorBooks applied to runs on an
    executable Redis: a session followed through a pass, a late close, a resume
    after a crash, and a claim that was booked failed and then found on chain. *)

From S2P Require Import Prelude SessionState KeyBuilder StoreSpec RelayCommit Concrete RedisModel RedisSessionStore RedisStoreRefines SessionLifecycle LifecycleSafety SessionCoordinator CoordinatorBooks.
From Stdlib Require Import Ascii String.

Local Open Scope string_scope.
Local Open Scope Z_scope.

Module LifecycleExamples.
Import Concrete.

Definition cfg : SessionStoreConfig := NewSessionStoreConfig (NewKeyBuilder "ha") "pokt1sup" 0.

Abbreviation store := (RStore (gmap string rval)).
#[local] Instance store_ops : SessionStore store := RedisStoreOps cfg.
#[local] Instance store_laws : SessionStoreLaws store.
Proof. by apply RedisStoreLaws. Qed.

(** A store that holds one session. *)
Definition store_of (snap : SessionSnapshot) : store :=
  mkRStore false {[ sessionKey cfg (SessionID snap) := RHash (hash_set ∅ (encodeSnapshot snap)) ]}.

Lemma store_of_wf snap :
  storable snap -> time_ok (LastUpdatedAt snap) -> redis_id (SessionID snap) -> ss_wf (store_of snap).
Proof.
  intros (Hok & Hroot & Hk & Ht & Hc) Hl Hid. split.
  - intros id Hid'. cbn [rview MapRedis rs_db store_of].
    destruct (decide (sessionKey cfg (SessionID snap) = sessionKey cfg id)) as [<-|Hne]; [|by rewrite lookup_singleton_ne].
    rewrite lookup_singleton_eq. split; [exists snap; split; [by apply decode_encode|done]|].
    unfold encodeSnapshot. rewrite hash_set_app. simpl.
    rewrite (lookup_insert_ne _ hfTotalComputeUnits hfRelayCount), !lookup_insert_eq by done.
    split; intros [= He]; by apply (format_int_nonempty _ He).
  - intros k Hk'. cbn [rview MapRedis rs_db store_of]. rewrite lookup_singleton_ne; [by left|]. intros <-.
    eapply (index_key_ne cfg); [..|exact Hk'|exact Hid|reflexivity]; done.
Qed.

(** Windows at fixed offsets of the session's end. *)
#[local] Instance windows : SharedWindows unit := {
  GetClaimWindowOpenHeight := fun _ e => e + 2;
  GetClaimWindowCloseHeight := fun _ e => e + 6;
  GetProofWindowOpenHeight := fun _ e => e + 7;
  GetProofWindowCloseHeight := fun _ e => e + 11
}.
#[local] Instance windows_laws : SharedWindowsLaws unit.
Proof. split; intros [] e; simpl; lia. Qed.

Definition chain : Chain unit := mkChain (fun _ => Some tt) (fun _ => Some tt).
Definition ok : Calls := fun _ => io_ok.
Definition bad : Io := fun _ => FLost false.

Lemma ok_answered : answered ok.
Proof. done. Qed.

(** A callback that claims what it gets; the chain holds no claim. *)
Definition GetClaim (supplier id : string) : ClaimAnswer := ClaimNotFound.
Definition cb : Callback store :=
  mkCallback _ (Some (observer true true false GetClaim ok))
    (fun _ m sessions => (m, list_to_set (map SessionID sessions))) (fun _ m _ => (m, ∅)) (fun _ _ m _ => m).
#[local] Instance cb_laws : ObserverLaws cb.
Proof. apply observer_laws, ok_answered. Qed.

Lemma lifecycle_s1_id : redis_id "s1".
Proof. split; [done|discriminate]. Qed.

Definition manager_1 : Manager store := mkManager (store_of session_1) {[ "s1" := session_1 ]} ∅ false.

Lemma store_1_wf : ss_wf (store_of session_1).
Proof. apply store_of_wf; [apply session_1_storable|by vm_compute|apply lifecycle_s1_id]. Qed.

Lemma view_1 now : ss_view now (store_of session_1) "s1" = Some session_1.
Proof. by vm_compute. Qed.

Lemma manager_ok_1 now rs : manager_ok now (mkManager (store_of session_1) {[ "s1" := session_1 ]} rs false).
Proof.
  split; [apply store_1_wf|]. intros id Hid. cbn [activeSessions] in Hid. rewrite dom_singleton, elem_of_singleton in Hid. subst id.
  split; [apply lifecycle_s1_id|]. intros snap Hv. cbn [lm_store] in Hv. rewrite view_1 in Hv. injection Hv as <-.
  split; [done|apply session_1_storable].
Qed.

(** *** A pass in the claim window *)

Definition pass_1 := checkSessionTransitions cb ok ok ok 3 13 chain manager_1.
Definition claiming_1 : SessionSnapshot := set_LastUpdatedAt 3 (set_State SessionStateClaiming session_1).

Lemma pass_1_tasks : pass_1.1.2 = [TClaim [claiming_1] 12].
Proof. by vm_compute. Qed.

Lemma triple {A B C} (p : A * B * C) : p = (p.1.1, p.1.2, p.2).
Proof. by destruct p as [[a b] c]. Qed.
Lemma pair_eq {A B} (p : A * B) : p = (p.1, p.2).
Proof. by destruct p. Qed.

Lemma claim_batch_persisted_witness :
  exists v, ss_view 3 (lm_store pass_1.1.1) "s1" = Some v /\ State v = SessionStateClaiming.
Proof.
  destruct (claim_batch_persisted cb 3 13 chain ok ok ok manager_1 pass_1.1.1 pass_1.1.2 pass_1.2
    [claiming_1] 12 claiming_1) as (old & q & _ & _ & _ & _ & _ & Hm & _).
  - by vm_compute.
  - apply manager_ok_1.
  - apply (triple pass_1).
  - rewrite pass_1_tasks. by left.
  - by left.
  - exact (moved_state _ _ _ _ _ Hm).
Defined.

Lemma claim_window_not_missed_witness : exists batch wo, TClaim batch wo ∈ pass_1.1.2 /\ "s1" ∈ map SessionID batch.
Proof.
  apply (claim_window_not_missed cb 3 13 chain ok ok ok manager_1 pass_1.1.1 pass_1.1.2 pass_1.2 session_1 session_1 tt).
  - by vm_compute.
  - apply manager_ok_1.
  - done.
  - done.
  - apply (triple pass_1).
  - by vm_compute.
  - done.
  - done.
  - apply view_1.
  - done.
  - done.
  - simpl. lia.
Defined.

(** *** A session resumed from claiming whose window closed *)

Definition manager_late : Manager store := mkManager (store_of session_1) {[ "s1" := session_1 ]} {[ "s1" ]} false.
Definition pass_late := checkSessionTransitions cb ok ok ok 3 17 chain manager_late.

Lemma closed_only_without_claim_witness : chain_has_no_claim cb 3 17 chain session_1.
Proof.
  destruct (closed_only_without_claim cb 3 17 chain ok ok ok manager_late pass_late.1.1 pass_late.1.2 pass_late.2 session_1)
    as (_ & _ & _ & H).
  - by vm_compute.
  - apply manager_ok_1.
  - apply (triple pass_late).
  - replace (pass_late.1.2) with [TClose session_1 SessionStateClaimWindowClosed] by (by vm_compute). by left.
  - apply H. by vm_compute.
Defined.

(** *** A terminal transition whose write fails *)

Lemma terminal_callback_after_persist_witness :
  exists m', executeTransition cb bad 3 manager_1 session_1 SessionStateClaimWindowClosed = (m', false) /\
             activeSessions m' = {[ "s1" := session_1 ]}.
Proof.
  destruct (executeTransition cb bad 3 manager_1 session_1 SessionStateClaimWindowClosed) as [m' ran] eqn:He.
  destruct (terminal_callback_after_persist cb 3 bad manager_1 session_1 SessionStateClaimWindowClosed m' ran)
    as (s1 & _ & [(-> & _)|[-> ->]]).
  - by vm_compute.
  - apply store_1_wf.
  - apply lifecycle_s1_id.
  - done.
  - exact He.
  - apply (f_equal snd) in He. by vm_compute in He.
  - by eexists.
Defined.

(** *** A session that holds its claim *)

Definition root_1 : string := "000000000000000000000000000000000000000000000000".
Definition claimed_1 : SessionSnapshot := set_claim root_1 "tx" (set_State SessionStateClaimed session_1).

Lemma claimed_1_storable : storable claimed_1.
Proof.
  split; [repeat split; vm_compute; congruence|]. split; [by right|]. split; [done|]. split; [by repeat constructor|].
  split; vm_compute; congruence.
Qed.

Definition manager_claimed : Manager store := mkManager (store_of claimed_1) {[ "s1" := session_1 ]} ∅ false.

Lemma claim_failure_never_overrides_witness :
  exists m', executeTransition cb io_ok 3 manager_claimed session_1 SessionStateClaimWindowClosed = (m', false) /\
             ss_view 3 (lm_store m') "s1" ≡ Some claimed_1.
Proof.
  destruct (executeTransition cb io_ok 3 manager_claimed session_1 SessionStateClaimWindowClosed) as [m' ran] eqn:He.
  destruct (claim_failure_never_overrides cb 3 io_ok manager_claimed session_1 SessionStateClaimWindowClosed m' ran claimed_1)
    as (-> & _ & Hv).
  - by vm_compute.
  - apply store_of_wf; [apply claimed_1_storable|by vm_compute|apply lifecycle_s1_id].
  - apply lifecycle_s1_id.
  - by vm_compute.
  - done.
  - by left.
  - exact He.
  - by exists m'.
Defined.

Lemma claim_batch_deduplicated_witness :
  (executeBatchedClaimTransition cb ok ok 3 manager_1 [session_1]).2 = [session_1] /\
  ClaimTxHash session_1 = "" /\ (executeBatchedClaimTransition cb ok ok 3 manager_claimed [session_1]).2 = [].
Proof.
  split; [by vm_compute|]. split; [|by vm_compute].
  destruct (claim_batch_deduplicated cb 3 ok ok manager_1 [session_1]
    (executeBatchedClaimTransition cb ok ok 3 manager_1 [session_1]).1
    (executeBatchedClaimTransition cb ok ok 3 manager_1 [session_1]).2) as [H _].
  - by vm_compute.
  - apply store_1_wf.
  - repeat constructor; discriminate.
  - done.
  - apply pair_eq.
  - assert (session_1 ∈ (executeBatchedClaimTransition cb ok ok 3 manager_1 [session_1]).2) as Hin
      by (replace (executeBatchedClaimTransition cb ok ok 3 manager_1 [session_1]).2 with [session_1] by (by vm_compute); by left).
    by destruct (H session_1 session_1 Hin (view_1 3)).
Defined.

(** *** A start after a crash *)

Definition claiming_sent : SessionSnapshot := set_claim root_1 "tx" (set_State SessionStateClaiming session_1).
Definition loaded : SessionSnapshot := set_State SessionStateClaiming session_1.

Lemma claiming_sent_storable : storable claiming_sent.
Proof.
  split; [repeat split; vm_compute; congruence|]. split; [by right|]. split; [done|]. split; [by repeat constructor|].
  split; vm_compute; congruence.
Qed.

Definition manager_sent : Manager store := mkManager (store_of claiming_sent) ∅ ∅ false.

Lemma resume_never_rewinds_sent_witness :
  exists m', resumeUnsentSubmission io_ok 3 manager_sent loaded = (m', loaded) /\
             ss_view 3 (lm_store m') "s1" ≡ Some claiming_sent.
Proof.
  destruct (resumeUnsentSubmission io_ok 3 manager_sent loaded) as [m' s'] eqn:He.
  destruct (resume_never_rewinds_sent 3 io_ok manager_sent loaded m' s' claiming_sent) as (-> & _ & Hv).
  - by vm_compute.
  - apply store_of_wf; [apply claiming_sent_storable|by vm_compute|apply lifecycle_s1_id].
  - apply lifecycle_s1_id.
  - by vm_compute.
  - done.
  - done.
  - exact He.
  - by exists m'.
Defined.

Lemma load_tracks_and_keeps_asking_witness :
  exists tracked, activeSessions (loadLoop ok 3 (mkManager (store_of loaded) ∅ ∅ false) [loaded]) !! "s1" = Some tracked /\
    State tracked = SessionStateActive /\
    mayHaveClaimOnChain (loadLoop ok 3 (mkManager (store_of loaded) ∅ ∅ false) [loaded]) tracked = true.
Proof.
  pose proof (load_tracks_and_keeps_asking 3 ok (mkManager (store_of loaded) ∅ ∅ false) [loaded]) as H.
  destruct (proj1 (Forall_cons _ _ _) (H ltac:(by apply NoDup_singleton))) as [H1 _].
  destruct (H1 eq_refl) as (tracked & Hl & _ & Ha). exists tracked. split; [exact Hl|]. split; [|by apply Ha].
  assert (activeSessions (loadLoop ok 3 (mkManager (store_of loaded) ∅ ∅ false) [loaded]) !! "s1" =
    Some (set_State SessionStateActive loaded)) as Hc by (by vm_compute).
  change (SessionID loaded) with "s1" in Hl. rewrite Hl in Hc. injection Hc as ->. done.
Defined.

(** *** Transitions *)

Lemma prefilter_conservative_witness :
  determineTransition (set_State SessionStateClaimed session_1) 11 (Some tt) = None.
Proof. apply (prefilter_conservative session_1 (set_State SessionStateClaimed session_1) 11 (Some tt)); [done|simpl; lia|done]. Defined.

Lemma transition_always_dispatched_witness :
  dispatch (set_ProofTxHash "tx" (set_State SessionStateProving session_1)) SessionStateProved =
  DueClose (set_ProofTxHash "tx" (set_State SessionStateProving session_1)) SessionStateProved.
Proof.
  destruct (transition_always_dispatched (set_ProofTxHash "tx" (set_State SessionStateProving session_1)) 21 (Some tt) SessionStateProved)
    as (_ & _ & H); [by vm_compute|]. done.
Defined.

(** *** The books: a claim booked forgone, then found on chain *)

Definition coord_0 : Coord store := mkCoord manager_1 false [].
Definition coord_1 : Coord store := (OnClaimTxError true ok 3 coord_0 "s1" ClaimTxErrorForgone).1.
Definition coord_2 : Coord store := (OnClaimObservedOnChain true ok 4 coord_1 "s1" root_1 "tx").1.

Lemma session_books_balance_witness :
  exists o, ss_view 4 (c_store coord_2) "s1" = Some o /\ State o = SessionStateClaimed /\
            books_of "s1" (c_book coord_2) = mkBooks 1 0 0 0.
Proof.
  assert (life true true "s1" 3 coord_0) as H0.
  { apply (life_created true true "s1" 3 coord_0 session_1);
      [apply store_1_wf|apply (view_1 3)|done|done|done|constructor]. }
  assert (life true true "s1" 3 coord_1) as H1.
  { apply (life_event true true "s1" 3 3 coord_0 coord_1 H0); [lia|by vm_compute|vm_compute; by eexists|].
    apply (ev_tx_error true true "s1" 3 coord_0 ok ClaimTxErrorForgone coord_1
      (OnClaimTxError true ok 3 coord_0 "s1" ClaimTxErrorForgone).2).
    - done.
    - right. by left.
    - intros o Ho. assert (ss_view 3 (c_store coord_0) "s1" = Some session_1) as Hc by apply (view_1 3).
      rewrite Ho in Hc. injection Hc as ->. by left.
    - exact (pair_eq (OnClaimTxError true ok 3 coord_0 "s1" ClaimTxErrorForgone)).
    - intros e. by vm_compute. }
  assert (life true true "s1" 4 coord_2) as H2.
  { apply (life_event true true "s1" 3 4 coord_1 coord_2 H1); [lia|by vm_compute|vm_compute; by eexists|].
    apply (ev_observed true true "s1" 4 coord_1 ok root_1 "tx" coord_2
      (OnClaimObservedOnChain true ok 4 coord_1 "s1" root_1 "tx").2).
    - done.
    - done.
    - intros o Ho. vm_compute in Ho. injection Ho as <-.
      split; [repeat split; vm_compute; congruence|]. split; [by left|]. split; [done|]. split; [by repeat constructor|].
      split; vm_compute; congruence.
    - exact (pair_eq (OnClaimObservedOnChain true ok 4 coord_1 "s1" root_1 "tx")).
    - intros e. by vm_compute. }
  destruct (session_books_balance (SS := store_ops) true true "s1" 4 coord_2 lifecycle_s1_id H2) as (o & Hv & Hb).
  assert ((State <$> ss_view 4 (c_store coord_2) "s1") = Some SessionStateClaimed) as Hst by (by vm_compute).
  rewrite Hv in Hst. injection Hst as Hst. exists o. split; [done|]. split; [done|].
  unfold balanced in Hb. by rewrite Hst in Hb.
Defined.

(** The read that tells the reversal what to take back must answer. When it
    fails and the claim is restored, the session is stored as claimed while the
    forgone book still holds its money and the claimed book does not. *)
Definition read_fails : Calls := fun n => match n with O => bad | S _ => io_ok end.
Definition coord_2_unread : Coord store := (OnClaimObservedOnChain true read_fails 4 coord_1 "s1" root_1 "tx").1.

Lemma failed_read_keeps_failure :
  (State <$> ss_view 4 (c_store coord_2_unread) "s1") = Some SessionStateClaimed /\
  books_of "s1" (c_book coord_2_unread) = mkBooks 0 1 0 1.
Proof. by vm_compute. Qed.
End LifecycleExamples.
