(* ===== verification/BlockLoop.v ===== *)
(** * The coalescing block loop (runCoalescingBlockLoop, miner/session_lifecycle.go)

    A reader goroutine drains the block channel and keeps the newest height; a
    processor goroutine runs the handler on it. The two interleave step by step:
    the reader's store of the height and its wake signal are separate steps, and
    so are the processor's choices of its select. *)

From S2P Require Import Prelude.
From Stdlib Require Import Sorting.Sorted.

Local Open Scope Z_scope.

Module BlockLoop.

(** Where the reader is: at its select, between the store of a height and the
    wake signal, or done (readerDone closed). *)
Inductive reader := RSelect | RSignal | RDone.

Record state := mkState {
  blockCh : list Z;        (** the heights sent and not yet received *)
  chClosed : bool;
  cancelled : bool;        (** ctx.Done() *)
  latest : Z;
  wake : bool;             (** the one-slot channel *)
  rd : reader;
  lastProcessed : Z;
  returned : bool;
  (** the heights received so far, and those the handler ran on, newest first *)
  received : list Z;
  handled : list Z
}.

Definition init : state := mkState [] false false 0 false RSelect 0 false [] [].

(** [process]: run the handler when there is a newer height. *)
Definition process (s : state) (w ret : bool) : state :=
  if lastProcessed s <? latest s then
    mkState (blockCh s) (chClosed s) (cancelled s) (latest s) w (rd s) (latest s) ret (received s) (latest s :: handled s)
  else mkState (blockCh s) (chClosed s) (cancelled s) (latest s) w (rd s) (lastProcessed s) ret (received s) (handled s).

Inductive step : state -> state -> Prop :=
(** the block source and the context *)
| s_send h s : chClosed s = false ->
    step s (mkState (blockCh s ++ [h]) (chClosed s) (cancelled s) (latest s) (wake s) (rd s) (lastProcessed s)
              (returned s) (received s) (handled s))
| s_close s :
    step s (mkState (blockCh s) true (cancelled s) (latest s) (wake s) (rd s) (lastProcessed s)
              (returned s) (received s) (handled s))
| s_cancel s :
    step s (mkState (blockCh s) (chClosed s) true (latest s) (wake s) (rd s) (lastProcessed s)
              (returned s) (received s) (handled s))
(** the reader *)
| s_receive h q s : rd s = RSelect -> blockCh s = h :: q ->
    step s (mkState q (chClosed s) (cancelled s) (if latest s <? h then h else latest s) (wake s) RSignal
              (lastProcessed s) (returned s) (h :: received s) (handled s))
| s_signal s : rd s = RSignal ->
    step s (mkState (blockCh s) (chClosed s) (cancelled s) (latest s) true RSelect
              (lastProcessed s) (returned s) (received s) (handled s))
| s_reader_end s : rd s = RSelect -> cancelled s = true \/ (chClosed s = true /\ blockCh s = []) ->
    step s (mkState (blockCh s) (chClosed s) (cancelled s) (latest s) (wake s) RDone
              (lastProcessed s) (returned s) (received s) (handled s))
(** the processor *)
| s_wake s : returned s = false -> wake s = true -> step s (process s false false)
| s_last s : returned s = false -> rd s = RDone -> cancelled s = false -> step s (process s (wake s) true)
| s_last_cancelled s : returned s = false -> rd s = RDone -> cancelled s = true ->
    step s (mkState (blockCh s) (chClosed s) (cancelled s) (latest s) (wake s) (rd s) (lastProcessed s)
              true (received s) (handled s))
| s_ctx_done s : returned s = false -> cancelled s = true ->
    step s (mkState (blockCh s) (chClosed s) (cancelled s) (latest s) (wake s) (rd s) (lastProcessed s)
              true (received s) (handled s)).

Inductive reachable : state -> Prop :=
| r_init : reachable init
| r_step s s' : reachable s -> step s s' -> reachable s'.

(** The largest of some heights, 0 when there is none above. *)
Definition newest (hs : list Z) : Z := foldr Z.max 0 hs.

(** ** The invariant *)

Record inv (s : state) : Prop := {
  inv_latest : latest s = newest (received s);
  inv_last : lastProcessed s = newest (handled s) /\ lastProcessed s <= latest s;
  inv_order : StronglySorted Z.gt (handled s) /\ Forall (fun h => 0 < h /\ h ∈ received s) (handled s);
  (** a height the processor has not seen has its wake pending, or coming *)
  inv_pending : returned s = false -> lastProcessed s < latest s -> wake s = true \/ rd s = RSignal;
  (** the loop ended on its own only after the newest height *)
  inv_returned : returned s = true -> cancelled s = false -> rd s = RDone /\ lastProcessed s = latest s;
  inv_done : rd s = RDone -> cancelled s = false -> chClosed s = true /\ blockCh s = []
}.

Lemma newest_elem hs : 0 < newest hs -> newest hs ∈ hs.
Proof.
  induction hs as [|h hs IH]; simpl; [lia|]. intros Hpos.
  destruct (Z.max_spec h (newest hs)) as [[_ He]|[_ He]]; rewrite He in *; [right; auto|by left].
Qed.

Lemma newest_ge hs h : h ∈ hs -> h <= newest hs.
Proof. induction hs as [|x hs IH]; [by intros ?%not_elem_of_nil|]. simpl. intros [->|Hi]%elem_of_cons; [lia|]. specialize (IH Hi). lia. Qed.

Lemma newest_nonneg hs : 0 <= newest hs.
Proof. induction hs; simpl; lia. Qed.

Lemma sorted_newest hs : StronglySorted Z.gt hs -> Forall (fun h => 0 < h) hs -> forall h, newest hs < h -> StronglySorted Z.gt (h :: hs).
Proof.
  intros Hs Hp h Hh. constructor; [done|]. apply Forall_forall. intros x Hx. pose proof (newest_ge hs x Hx). lia.
Qed.

Lemma process_inv s w ret :
  inv s -> (returned s = false) -> (rd s = RDone \/ ret = false) ->
  (ret = true -> cancelled s = false) -> inv (process s w ret).
Proof.
  intros [Hl [Hp Hple] [Ho Hf] _ _ Hd] Hr0 Hret Hc. unfold process.
  pose proof (newest_nonneg (handled s)). destruct (Z.ltb_spec (lastProcessed s) (latest s)) as [Hlt|Hge].
  - assert (latest s ∈ received s) as Hin by (rewrite Hl; apply newest_elem; lia).
    split; simpl; try done.
    + split; [|lia]. rewrite Hp in *. lia.
    + split; [|constructor; [split; [lia|done]|done]]. apply sorted_newest; [done| |by rewrite <- Hp].
      eapply Forall_impl; [exact Hf|]. by intros h [? _].
    + intros; lia.
    + intros ->. destruct Hret as [Hrd|]; [|done]. done.
  - split; simpl; try done.
    + intros; lia.
    + intros ->. destruct Hret as [Hrd|]; [|done]. split; [done|lia].
Qed.

Lemma step_inv s s' : inv s -> step s s' -> inv s'.
Proof.
  intros Hi Hs. pose proof Hi as [Hl Hp Ho Hw Hr Hd]. destruct Hs as [h s Hcl|s|s|h q s Hrd Hq|s Hrd|s Hrd He|s Hret Hwk|s Hret Hrd Hc|s Hret Hrd Hc|s Hret Hc].
  - split; simpl; try done. intros Hrd Hc. by destruct (Hd Hrd Hc); congruence.
  - split; simpl; try done. intros Hrd Hc. split; [done|]. by apply Hd.
  - by split.
  - destruct Hp as [Hp Hple]. split; simpl.
    + rewrite Hl. destruct (Z.ltb_spec (newest (received s)) h); lia.
    + split; [done|]. destruct (Z.ltb_spec (latest s) h); lia.
    + split; [apply Ho|]. eapply Forall_impl; [apply Ho|]. intros x [? ?]. split; [done|by right].
    + auto.
    + intros H1 H2. destruct (Hr H1 H2) as [Hx _]. congruence.
    + done.
  - split; simpl; try done; auto. intros H1 H2. destruct (Hr H1 H2) as [Hx _]. congruence.
  - split; simpl; try done.
    + intros H1 H2. destruct (Hw H1 H2) as [?|?]; [by left|congruence].
    + intros H1 H2. destruct (Hr H1 H2) as [Hx _]. congruence.
    + intros _ Hc. destruct He as [He|He]; [congruence|done].
  - apply process_inv; auto. done.
  - apply process_inv; auto.
  - split; simpl; try done. congruence.
  - split; simpl; try done. congruence.
Qed.

Lemma reachable_inv s : reachable s -> inv s.
Proof.
  induction 1; [|by eapply step_inv]. split; simpl; try done; try lia. split; constructor.
Qed.
(** From a state with an unseen height the processor gets to it on its own. *)
Lemma unseen_height_handled s :
  inv s -> returned s = false -> lastProcessed s < latest s ->
  exists s', rtc step s s' /\ handled s' = latest s :: handled s.
Proof.
  intros Hi Hr Hlt. destruct (inv_pending s Hi Hr Hlt) as [Hw|Hrd].
  - exists (process s false false). split; [apply rtc_once; by constructor|]. unfold process.
    by destruct (Z.ltb_spec (lastProcessed s) (latest s)); [|lia].
  - set (s1 := mkState (blockCh s) (chClosed s) (cancelled s) (latest s) true RSelect
              (lastProcessed s) (returned s) (received s) (handled s)).
    exists (process s1 false false). split.
    + apply (rtc_l step s s1); [by apply s_signal|]. apply rtc_once. by constructor.
    + unfold process. simpl. by destruct (Z.ltb_spec (lastProcessed s) (latest s)); [|lia].
Qed.

(** Whatever the interleaving of the block source, the reader and the
    processor, the handler runs on strictly increasing heights that were
    received; a loop that ended because the source closed drained the channel
    and handled the newest height; and while it runs, a height it has not
    handled can always be handled next, so that coalescing loses no window. *)
Theorem block_loop_handles_newest (s : state) :
  reachable s ->
  StronglySorted Z.gt (handled s) /\ (forall h, h ∈ handled s -> h ∈ received s) /\
  (returned s = true -> cancelled s = false -> blockCh s = [] /\ newest (handled s) = newest (received s)) /\
  (returned s = false -> newest (handled s) < newest (received s) ->
   exists s', rtc step s s' /\ newest (received s) ∈ handled s').
Proof.
  intros Hr. pose proof (reachable_inv s Hr) as Hi. pose proof Hi as [Hl [Hp Hple] [Ho Hf] _ Hret Hd]. split_and!.
  - done.
  - intros h Hh. by apply (proj1 (Forall_forall _ _) Hf).
  - intros H1 H2. destruct (Hret H1 H2) as [Hrd He]. destruct (Hd Hrd H2) as [_ ->]. split; [done|congruence].
  - intros H1 H2. destruct (unseen_height_handled s Hi H1) as (s' & Hs & Hh); [lia|].
    exists s'. split; [done|]. rewrite Hh, <- Hl. by left.
Qed.

(** Two blocks arrive while the processor is away; it sees the second. *)
Definition example_state : state := mkState [] false false 7 true RSelect 0 false [7; 5] [].

Lemma block_loop_handles_newest_witness : exists s', rtc step example_state s' /\ 7 ∈ handled s'.
Proof.
  assert (reachable example_state) as Hr.
  { pose (s1 := mkState [5] false false 0 false RSelect 0 false [] []).
    pose (s2 := mkState [5; 7] false false 0 false RSelect 0 false [] []).
    pose (s3 := mkState [7] false false 5 false RSignal 0 false [5] []).
    pose (s4 := mkState [7] false false 5 true RSelect 0 false [5] []).
    pose (s5 := mkState [] false false 7 true RSignal 0 false [7; 5] []).
    apply (r_step s5); [apply (r_step s4); [apply (r_step s3); [apply (r_step s2); [apply (r_step s1); [apply (r_step init)|]|]|]|]|].
    - apply r_init.
    - by apply (s_send 5 init).
    - by apply (s_send 7 s1).
    - by apply (s_receive 5 [7] s2).
    - by apply (s_signal s3).
    - by apply (s_receive 7 [] s4).
    - by apply (s_signal s5). }
  destruct (block_loop_handles_newest example_state Hr) as (_ & _ & _ & H). by apply H.
Defined.
End BlockLoop.
