(* ===== verification/ChargeLedger.v ===== *)
(** * The charge ledger (transport/redis/charge_ledger.go)

    What was served and not written yet, per consumed counter: the queued
    charges and the amounts taken by a dispatch that has no outcome yet. The
    ledger is shared by the relay meter, which adds to it and reads it to admit
    the next relay, and by the publisher, which takes from it and reports what
    became of each charge. Every operation holds the ledger's mutex, so it is
    one step; the interleavings are those of the sequences of steps. *)

From S2P Require Import Prelude.
From Stdlib Require Import Ascii String.

Local Open Scope string_scope.
Local Open Scope Z_scope.

Record Charge := mkCharge {
  ch_Key : string;
  ch_Supplier : string;
  ch_Amount : Z;
  ch_TTL : Z;
  ch_attempts : Z
}.

#[export] Instance Charge_eq_dec : EqDecision Charge.
Proof. solve_decision. Defined.

(** [c.Amount += a], an int64. *)
Definition add_amount (a : Z) (c : Charge) : Charge :=
  mkCharge (ch_Key c) (ch_Supplier c) (wrap64 (ch_Amount c + a)) (ch_TTL c) (ch_attempts c).

Definition set_attempts (n : Z) (c : Charge) : Charge :=
  mkCharge (ch_Key c) (ch_Supplier c) (ch_Amount c) (ch_TTL c) n.

(** [maxPublishAttempts] of publish_discard.go. *)
Definition maxPublishAttempts : Z := 10.

(** The maps of the ledger. A missing key of a Go map reads as 0. *)
Record ChargeLedger := mkLedger {
  lg_pending : gmap string Charge;
  lg_writing : gmap string Z
}.

Definition NewChargeLedger : ChargeLedger := mkLedger ∅ ∅.

Definition read0 (m : gmap string Z) (k : string) : Z := default 0 (m !! k).

Definition set_writing (m : gmap string Z) (l : ChargeLedger) : ChargeLedger := mkLedger (lg_pending l) m.
Definition set_queued (m : gmap string Charge) (l : ChargeLedger) : ChargeLedger := mkLedger m (lg_writing l).

(** [Add] *)
Definition Add (key supplier : string) (amount ttl : Z) (l : ChargeLedger) : ChargeLedger :=
  if amount <=? 0 then l
  else match lg_pending l !! key with
       | Some c => set_queued (<[key := add_amount amount c]> (lg_pending l)) l
       | None => set_queued (<[key := mkCharge key supplier amount ttl 0]> (lg_pending l)) l
       end.

(** [Pending] *)
Definition Pending (key : string) (l : ChargeLedger) : Z :=
  let total := read0 (lg_writing l) key in
  match lg_pending l !! key with
  | Some c => wrap64 (total + ch_Amount c)
  | None => total
  end.

(** [Drop] *)
Definition Drop (key : string) (l : ChargeLedger) : ChargeLedger := set_queued (delete key (lg_pending l)) l.

(** A Go map entry decremented, and removed when nothing is left: the body of
    [finishLocked], and of the meter's [releaseLocked]. *)
Definition decrement (key : string) (amount : Z) (m : gmap string Z) : gmap string Z :=
  let left := wrap64 (read0 m key - amount) in
  if left <=? 0 then delete key m else <[key := left]> m.

Definition finishLocked (key : string) (amount : Z) (l : ChargeLedger) : ChargeLedger :=
  set_writing (decrement key amount (lg_writing l)) l.

(** [FinishWrite] *)
Definition FinishWrite (key : string) (amount : Z) (l : ChargeLedger) : ChargeLedger := finishLocked key amount l.

(** The loop of [takeAll]: Go's map order is any order. *)
Fixpoint takeLoop (entries : list (string * Charge)) (l : ChargeLedger) : ChargeLedger * list Charge :=
  match entries with
  | [] => (l, [])
  | (key, c) :: rest =>
      let l1 := mkLedger (delete key (lg_pending l))
                  (<[key := wrap64 (read0 (lg_writing l) key + ch_Amount c)]> (lg_writing l)) in
      let '(l2, out) := takeLoop rest l1 in (l2, c :: out)
  end.

Definition takeAll (l : ChargeLedger) : ChargeLedger * list Charge := takeLoop (map_to_list (lg_pending l)) l.

(** [requeueLocked] *)
Definition requeueLocked (c : Charge) (l : ChargeLedger) : ChargeLedger :=
  match lg_pending l !! ch_Key c with
  | Some cur =>
      let cur1 := add_amount (ch_Amount c) cur in
      set_queued (<[ch_Key c := if ch_attempts cur1 <? ch_attempts c then set_attempts (ch_attempts c) cur1 else cur1]>
                    (lg_pending l)) l
  | None => set_queued (<[ch_Key c := c]> (lg_pending l)) l
  end.

(** [untake] *)
Definition untake (c : Charge) (l : ChargeLedger) : ChargeLedger :=
  requeueLocked c (finishLocked (ch_Key c) (ch_Amount c) l).

(** [retry]: false once the attempts are exhausted. *)
Definition retry (c : Charge) (l : ChargeLedger) : ChargeLedger * bool :=
  let l1 := finishLocked (ch_Key c) (ch_Amount c) l in
  let c1 := set_attempts (ch_attempts c + 1) c in
  if maxPublishAttempts <=? ch_attempts c1 then (set_queued (delete (ch_Key c1) (lg_pending l1)) l1, false)
  else (requeueLocked c1 l1, true).

(** [forget] *)
Definition forget (c : Charge) (l : ChargeLedger) : ChargeLedger := FinishWrite (ch_Key c) (ch_Amount c) l.

(** [commit]: what [OnWritten] installed, which owns the ledger, is called;
    without it the ledger finishes the write itself. *)
Definition commit {W : Type} (onLedger : (ChargeLedger -> ChargeLedger) -> W -> W)
    (written : option (string -> Z -> Z -> W -> W)) (c : Charge) (consumed : Z) (w : W) : W :=
  match written with
  | None => onLedger (FinishWrite (ch_Key c) (ch_Amount c)) w
  | Some fn => fn (ch_Key c) (ch_Amount c) consumed w
  end.

(** A world that holds the meter's ledger, as a publisher's callbacks change it. *)
Class LedgerWorld (W : Type) (onLedger : (ChargeLedger -> ChargeLedger) -> W -> W)
    (written : option (string -> Z -> Z -> W -> W)) (lw : W -> ChargeLedger) : Prop := {
  lw_on f w : lw (onLedger f w) = f (lw w);
  lw_written k a v w : match written with Some fn => lw (fn k a v w) = FinishWrite k a (lw w) | None => True end
}.

(** ** The ledger and what the dispatches hold *)

(** What the charges of a list hold on one counter. *)
Fixpoint held_on (k : string) (out : list Charge) : Z :=
  match out with
  | [] => 0
  | c :: rest => (if String.eqb (ch_Key c) k then ch_Amount c else 0) + held_on k rest
  end.

Definition queued_on (k : string) (l : ChargeLedger) : Z :=
  match lg_pending l !! k with Some c => ch_Amount c | None => 0 end.

(** [ledger_ok l out]: the dispatches hold the charges [out]. Each queued
    charge is on its own counter and positive; what is being written is what
    the dispatches hold. *)
Record ledger_ok (l : ChargeLedger) (out : list Charge) : Prop := {
  ok_queued k c : lg_pending l !! k = Some c -> ch_Key c = k /\ 0 < ch_Amount c;
  ok_out : Forall (fun c => 0 < ch_Amount c) out;
  ok_writing k : read0 (lg_writing l) k = held_on k out;
  ok_fits k : queued_on k l + held_on k out <= int64_max
}.

Lemma held_nonneg k out : Forall (fun c => 0 < ch_Amount c) out -> 0 <= held_on k out.
Proof. induction 1 as [|c out Hc _ IH]; simpl; [lia|]. destruct (String.eqb _ _); lia. Qed.

Lemma held_app k a b : held_on k (a ++ b) = held_on k a + held_on k b.
Proof. induction a as [|c a IH]; simpl; [done|]. rewrite IH. lia. Qed.

Lemma held_perm k a b : a ≡ₚ b -> held_on k a = held_on k b.
Proof. induction 1; simpl; lia. Qed.

Lemma queued_pos l out k : ledger_ok l out -> 0 <= queued_on k l.
Proof. intros [Hq _ _ _]. unfold queued_on. destruct (lg_pending l !! k) as [c|] eqn:E; [|lia]. apply Hq in E. lia. Qed.

(** [Pending] counts what is queued and what is held. *)
Lemma Pending_split l out k : ledger_ok l out -> Pending k l = queued_on k l + held_on k out.
Proof.
  intros Hok. pose proof (queued_pos _ _ k Hok) as Hq. destruct Hok as [_ Ho Hw Hf]. specialize (Hf k).
  unfold Pending, queued_on in *. rewrite Hw. pose proof (held_nonneg k out Ho).
  destruct (lg_pending l !! k); [|lia]. rewrite wrap64_id; [lia|]. unfold in_int64, int64_min in *. lia.
Qed.

Lemma read0_decrement k key amount m :
  0 <= amount <= read0 m key -> read0 m key <= int64_max ->
  read0 (decrement key amount m) k = read0 m k - (if String.eqb key k then amount else 0).
Proof.
  intros Ha Hm. unfold decrement. rewrite wrap64_id by (unfold in_int64, int64_min; lia).
  destruct (String.eqb_spec key k) as [<-|Hne], (Z.leb_spec (read0 m key - amount) 0); unfold read0 in *;
    rewrite ?lookup_delete_eq, ?lookup_insert_eq, ?lookup_delete_ne, ?lookup_insert_ne by done; simpl; lia.
Qed.

(** ** Each operation *)

(** The share of an amount that falls on counter [k]. *)
Definition on (key k : string) (a : Z) : Z := if String.eqb key k then a else 0.

Lemma on_cases key k a : (key = k /\ on key k a = a) \/ (key <> k /\ on key k a = 0).
Proof. unfold on. destruct (String.eqb_spec key k); auto. Qed.

Lemma ledger_perm l out out' : out ≡ₚ out' -> ledger_ok l out -> ledger_ok l out'.
Proof.
  intros Hp [Hq Ho Hw Hf]. split; [done|by rewrite <- Hp|intros k|intros k]; by rewrite <- (held_perm k _ _ Hp).
Qed.

Lemma NewChargeLedger_ok : ledger_ok NewChargeLedger [].
Proof. split; [done|constructor|done|]. intros k. vm_compute. discriminate. Qed.

Lemma queued_insert key c l k :
  queued_on k (set_queued (<[key := c]> (lg_pending l)) l) = if String.eqb key k then ch_Amount c else queued_on k l.
Proof.
  unfold queued_on. simpl. destruct (String.eqb_spec key k) as [->|Hne]; [by rewrite lookup_insert_eq|by rewrite lookup_insert_ne].
Qed.

(** Queueing a charge, whatever else the counter has queued. *)
Lemma queue_ok l out key c c0 :
  ledger_ok l out -> ch_Key c0 = key -> 0 < ch_Amount c ->
  ch_Amount c0 = queued_on key l + ch_Amount c -> Pending key l + ch_Amount c <= int64_max ->
  let l' := set_queued (<[key := c0]> (lg_pending l)) l in
  ledger_ok l' out /\ forall k, queued_on k l' = queued_on k l + on key k (ch_Amount c).
Proof.
  intros Hok Hk Hc Ha Hf. simpl. rewrite (Pending_split _ _ _ Hok) in Hf. pose proof (queued_pos _ _ key Hok).
  destruct Hok as [Hq Ho Hw Hl].
  assert (forall k, queued_on k (set_queued (<[key := c0]> (lg_pending l)) l) = queued_on k l + on key k (ch_Amount c)) as Hqk.
  { intros k. rewrite queued_insert. destruct (on_cases key k (ch_Amount c)) as [[-> ->]|[Hne ->]].
    - by rewrite String.eqb_refl, Ha.
    - apply String.eqb_neq in Hne as ->. lia. }
  split; [|done]. split; [|done|done|].
  - intros k c1. simpl. intros [[<- <-]|[Hne Hl1]]%lookup_insert_Some; [|by apply Hq]. split; [done|lia].
  - intros k. rewrite Hqk. specialize (Hl k). destruct (on_cases key k (ch_Amount c)) as [[<- ->]|[_ ->]]; lia.
Qed.

Lemma add_amount_exact l out key c a :
  ledger_ok l out -> lg_pending l !! key = Some c -> 0 < a -> Pending key l + a <= int64_max ->
  ch_Amount (add_amount a c) = queued_on key l + a.
Proof.
  intros Hok Hl Ha Hf. rewrite (Pending_split _ _ _ Hok) in Hf. pose proof (queued_pos _ _ key Hok).
  destruct Hok as [_ Ho _ _]. pose proof (held_nonneg key out Ho).
  unfold queued_on in *. rewrite Hl in *. simpl. apply wrap64_id. unfold in_int64, int64_min. lia.
Qed.

Lemma Add_ok l out key supplier amount ttl :
  ledger_ok l out -> 0 < amount -> Pending key l + amount <= int64_max ->
  ledger_ok (Add key supplier amount ttl l) out /\
  forall k, queued_on k (Add key supplier amount ttl l) = queued_on k l + on key k amount.
Proof.
  intros Hok Ha Hf. unfold Add. destruct (Z.leb_spec amount 0); [lia|].
  destruct (lg_pending l !! key) as [c|] eqn:Hl.
  - apply (queue_ok l out key (mkCharge key supplier amount ttl 0)); [done| |done| |done].
    + apply (ok_queued _ _ Hok) in Hl as [? _]. done.
    + by eapply add_amount_exact.
  - apply (queue_ok l out key (mkCharge key supplier amount ttl 0)); [done|done|done| |done].
    unfold queued_on. by rewrite Hl.
Qed.

Lemma requeue_ok l out c :
  ledger_ok l out -> 0 < ch_Amount c -> Pending (ch_Key c) l + ch_Amount c <= int64_max ->
  ledger_ok (requeueLocked c l) out /\
  forall k, queued_on k (requeueLocked c l) = queued_on k l + on (ch_Key c) k (ch_Amount c).
Proof.
  intros Hok Ha Hf. unfold requeueLocked. destruct (lg_pending l !! ch_Key c) as [cur|] eqn:Hl.
  - apply queue_ok; [done| |done| |done].
    + apply (ok_queued _ _ Hok) in Hl as [? _]. by case_match.
    + rewrite <- (add_amount_exact l out _ cur) by done. by case_match.
  - apply queue_ok; [done|done|done| |done]. unfold queued_on. by rewrite Hl.
Qed.

(** A charge a dispatch held stops being written. *)
Lemma finish_ok l out c :
  ledger_ok l (c :: out) ->
  ledger_ok (finishLocked (ch_Key c) (ch_Amount c) l) out /\
  forall k, queued_on k (finishLocked (ch_Key c) (ch_Amount c) l) = queued_on k l.
Proof.
  intros Hok. pose proof (fun k => queued_pos _ _ k Hok) as Hp. destruct Hok as [Hq Ho Hw Hf].
  apply Forall_cons in Ho as [Hc Ho]. pose proof (fun k => held_nonneg k out Ho) as Hn.
  split; [|done]. split; [done|done| |].
  - intros k. unfold finishLocked. cbn [set_writing lg_writing]. rewrite read0_decrement, Hw.
    + simpl. lia.
    + rewrite Hw. simpl. rewrite String.eqb_refl. specialize (Hn (ch_Key c)). lia.
    + rewrite Hw. specialize (Hf (ch_Key c)). specialize (Hp (ch_Key c)). lia.
  - intros k. change (queued_on k (finishLocked _ _ l)) with (queued_on k l). specialize (Hf k).
    simpl in Hf. destruct (String.eqb _ _); lia.
Qed.

(** What is finished and queued again stays within the bound. *)
Lemma finish_room l out c :
  ledger_ok l (c :: out) -> Pending (ch_Key c) (finishLocked (ch_Key c) (ch_Amount c) l) + ch_Amount c <= int64_max.
Proof.
  intros Hok. destruct (finish_ok _ _ _ Hok) as [Hok' Hq]. rewrite (Pending_split _ _ _ Hok'), Hq.
  pose proof (ok_fits _ _ Hok (ch_Key c)) as Hf. simpl in Hf. rewrite String.eqb_refl in Hf. lia.
Qed.

Lemma untake_ok l out c :
  ledger_ok l (c :: out) ->
  ledger_ok (untake c l) out /\ forall k, queued_on k (untake c l) = queued_on k l + on (ch_Key c) k (ch_Amount c).
Proof.
  intros Hok. destruct (finish_ok _ _ _ Hok) as [Hok' Hq]. pose proof (finish_room _ _ _ Hok) as Hr.
  pose proof (ok_out _ _ Hok) as Ho. apply Forall_cons in Ho as [Hc _].
  destruct (requeue_ok _ _ c Hok' Hc Hr) as [H1 H2]. split; [done|]. intros k. by rewrite H2, Hq.
Qed.

Lemma drop_ok l out key :
  ledger_ok l out -> ledger_ok (Drop key l) out /\ forall k, queued_on k (Drop key l) = queued_on k l - on key k (queued_on key l).
Proof.
  intros Hok. pose proof (fun k => queued_pos _ _ k Hok) as Hp. destruct Hok as [Hq Ho Hw Hf].
  assert (forall k, queued_on k (Drop key l) = queued_on k l - on key k (queued_on key l)) as Hk.
  { intros k. destruct (on_cases key k (queued_on key l)) as [[<- ->]|[Hne ->]]; unfold queued_on, Drop; simpl.
    - rewrite lookup_delete_eq. lia.
    - rewrite lookup_delete_ne by done. lia. }
  split; [|done]. split; [|done|done|].
  - intros k c. simpl. rewrite lookup_delete_Some. intros [_ ?]. by apply Hq.
  - intros k. rewrite Hk. specialize (Hf k). specialize (Hp k).
    destruct (on_cases key k (queued_on key l)) as [[<- ->]|[_ ->]]; lia.
Qed.

Lemma retry_ok l out c l' again :
  ledger_ok l (c :: out) -> retry c l = (l', again) ->
  ledger_ok l' out /\
  if again then forall k, queued_on k l' = queued_on k l + on (ch_Key c) k (ch_Amount c)
  else forall k, queued_on k l' = queued_on k l - on (ch_Key c) k (queued_on (ch_Key c) l).
Proof.
  intros Hok. destruct (finish_ok _ _ _ Hok) as [Hok' Hq]. pose proof (finish_room _ _ _ Hok) as Hr.
  pose proof (ok_out _ _ Hok) as Ho. apply Forall_cons in Ho as [Hc _].
  unfold retry. cbn [set_attempts ch_attempts ch_Key]. destruct (Z.leb _ _); intros [= <- <-].
  - destruct (drop_ok _ _ (ch_Key c) Hok') as [H1 H2]. split; [exact H1|]. intros k. rewrite <- !Hq. exact (H2 k).
  - destruct (requeue_ok _ _ (set_attempts (ch_attempts c + 1) c) Hok' Hc Hr) as [H1 H2]. split; [done|].
    intros k. by rewrite H2, Hq.
Qed.

(** Taking every queued charge, in any order, moves it to what is held. *)
Lemma takeLoop_ok entries l out l' new :
  ledger_ok l out -> NoDup entries.*1 -> Forall (fun kv => lg_pending l !! kv.1 = Some kv.2) entries ->
  takeLoop entries l = (l', new) ->
  ledger_ok l' (new ++ out) /\ (forall k, queued_on k l' + held_on k new = queued_on k l) /\
  forall k, lg_pending l' !! k = if bool_decide (k ∈ entries.*1) then None else lg_pending l !! k.
Proof.
  revert l out l' new. induction entries as [|[key c] entries IH]; intros l out l' new Hok Hnd Hall Ht; simpl in Ht.
  { simplify_eq. split_and!; [done|intros; simpl; lia|]. intros k. by rewrite bool_decide_eq_false_2 by apply not_elem_of_nil. }
  apply NoDup_cons in Hnd as [Hni Hnd]. apply Forall_cons in Hall as [Hl Hall]. simpl in Hl.
  set (l1 := mkLedger _ _) in Ht. destruct (takeLoop entries l1) as [l2 out2] eqn:Ht2. simplify_eq.
  pose proof (fun k => queued_pos _ _ k Hok) as Hp. pose proof Hok as [Hq Ho Hw Hf].
  destruct (Hq _ _ Hl) as [Hck Hc]. pose proof (fun k => held_nonneg k out Ho) as Hn.
  assert (queued_on key l = ch_Amount c) as Hqc by (unfold queued_on; by rewrite Hl).
  assert (forall k, queued_on k l1 = queued_on k l - on key k (ch_Amount c)) as Hk.
  { intros k. destruct (drop_ok _ _ key Hok) as [_ Hd]. rewrite <- Hqc. exact (Hd k). }
  assert (ledger_ok l1 (c :: out)) as Hok1.
  { split.
    - intros k c1. simpl. rewrite lookup_delete_Some. intros [_ ?]. by apply Hq.
    - by constructor.
    - intros k. simpl. rewrite Hck. unfold read0. simpl. destruct (String.eqb_spec key k) as [<-|Hne].
      + rewrite lookup_insert_eq. simpl. fold (read0 (lg_writing l) key). rewrite Hw, wrap64_id; [lia|].
        specialize (Hf key). specialize (Hn key). unfold in_int64, int64_min. lia.
      + rewrite lookup_insert_ne by done. fold (read0 (lg_writing l) k). by rewrite Hw.
    - intros k. rewrite Hk. simpl. rewrite Hck. specialize (Hf k). unfold on. destruct (String.eqb key k); lia. }
  destruct (IH l1 (c :: out) l' out2 Hok1 Hnd) as (H1 & H2 & H3); [|done|].
  { apply Forall_forall. intros [k0 c0] Hin. simpl.
    rewrite lookup_delete_ne; [exact (proj1 (Forall_forall _ _) Hall _ Hin)|]. intros ->. apply Hni.
    apply list_elem_of_fmap. by exists (k0, c0). }
  split_and!.
  - eapply ledger_perm; [|exact H1]. by rewrite <- Permutation_middle.
  - intros k. cbn [held_on]. rewrite Hck. specialize (H2 k). rewrite Hk in H2. unfold on in H2. lia.
  - intros k. rewrite H3. cbn [fmap list_fmap fst l1 lg_pending]. destruct (decide (k = key)) as [->|Hne].
    + rewrite lookup_delete_eq, (bool_decide_eq_true_2 (key ∈ _ :: _)) by set_solver. by case_bool_decide.
    + rewrite lookup_delete_ne by done. by rewrite (bool_decide_ext (k ∈ _ :: _) (k ∈ entries.*1)) by set_solver.
Qed.

Lemma takeAll_ok l out entries l' new :
  ledger_ok l out -> entries ≡ₚ map_to_list (lg_pending l) -> takeLoop entries l = (l', new) ->
  ledger_ok l' (new ++ out) /\ (forall k, queued_on k l' + held_on k new = queued_on k l) /\ lg_pending l' = ∅.
Proof.
  intros Hok Hp Ht. destruct (takeLoop_ok entries l out l' new Hok) as (H1 & H2 & H3); [| |done|].
  - rewrite Hp. apply NoDup_fst_map_to_list.
  - apply Forall_forall. intros [k c] Hin. rewrite Hp in Hin. by apply elem_of_map_to_list in Hin.
  - split_and!; [done..|]. apply map_eq. intros k. rewrite H3, lookup_empty. case_bool_decide as Hk; [done|].
    destruct (lg_pending l !! k) as [c|] eqn:Hl; [|done]. exfalso. apply Hk, list_elem_of_fmap. exists (k, c).
    split; [done|]. rewrite Hp. by apply elem_of_map_to_list.
Qed.

(** ** Callbacks on a world that holds the ledger *)

Section Worlds.
Context {W : Type} {onLedger : (ChargeLedger -> ChargeLedger) -> W -> W}
  {written : option (string -> Z -> Z -> W -> W)} {lw : W -> ChargeLedger} `{LW : !LedgerWorld W onLedger written lw}.

Lemma untake_list_ok charges w out :
  ledger_ok (lw w) (charges ++ out) ->
  ledger_ok (lw (foldl (fun w c => onLedger (untake c) w) w charges)) out /\
  forall k, queued_on k (lw (foldl (fun w c => onLedger (untake c) w) w charges)) = queued_on k (lw w) + held_on k charges.
Proof.
  revert w. induction charges as [|c charges IH]; intros w Hok; simpl in *; [split; [done|intros; lia]|].
  destruct (untake_ok _ _ _ Hok) as [H1 H2]. destruct (IH (onLedger (untake c) w)) as [H3 H4]; [by rewrite lw_on|].
  split; [done|]. intros k. rewrite H4, lw_on, H2. unfold on. lia.
Qed.

Lemma commit_lw c v w : lw (commit onLedger written c v w) = FinishWrite (ch_Key c) (ch_Amount c) (lw w).
Proof. unfold commit. pose proof (lw_written (ch_Key c) (ch_Amount c) v w). destruct written; [done|]. by rewrite lw_on. Qed.
End Worlds.

(** ** A ledger's life *)

(** The ledger, the charges its dispatches hold, and for each counter what was
    served, what was written and what was given up: forgotten because its
    outcome is unknown, refused too often, or dropped with its session. *)
Record account := mkAccount {
  ac_ledger : ChargeLedger;
  ac_out : list Charge;
  ac_served : string -> Z;
  ac_written : string -> Z;
  ac_gone : string -> Z
}.

Definition bump (f : string -> Z) (key : string) (a : Z) : string -> Z := fun k => f k + on key k a.

(** One call on the ledger, by the meter or by a dispatch. A dispatch reports
    the outcome of a charge it holds, once. *)
Inductive ledger_step : account -> account -> Prop :=
| LAdd l out sv wr gn key supplier amount ttl :
    0 < amount -> sv key + amount <= int64_max ->
    ledger_step (mkAccount l out sv wr gn) (mkAccount (Add key supplier amount ttl l) out (bump sv key amount) wr gn)
| LAddNothing l out sv wr gn key supplier amount ttl :
    amount <= 0 -> ledger_step (mkAccount l out sv wr gn) (mkAccount (Add key supplier amount ttl l) out sv wr gn)
| LTake l out sv wr gn entries l' new :
    entries ≡ₚ map_to_list (lg_pending l) -> takeLoop entries l = (l', new) ->
    ledger_step (mkAccount l out sv wr gn) (mkAccount l' (new ++ out) sv wr gn)
| LUntake l out sv wr gn c rest :
    out ≡ₚ c :: rest -> ledger_step (mkAccount l out sv wr gn) (mkAccount (untake c l) rest sv wr gn)
| LRetry l out sv wr gn c rest l' :
    out ≡ₚ c :: rest -> retry c l = (l', true) ->
    ledger_step (mkAccount l out sv wr gn) (mkAccount l' rest sv wr gn)
| LGiveUp l out sv wr gn c rest l' :
    out ≡ₚ c :: rest -> retry c l = (l', false) ->
    ledger_step (mkAccount l out sv wr gn)
      (mkAccount l' rest sv wr (bump gn (ch_Key c) (ch_Amount c + queued_on (ch_Key c) l)))
| LForget l out sv wr gn c rest :
    out ≡ₚ c :: rest ->
    ledger_step (mkAccount l out sv wr gn) (mkAccount (forget c l) rest sv wr (bump gn (ch_Key c) (ch_Amount c)))
| LCommit l out sv wr gn c rest consumed :
    out ≡ₚ c :: rest ->
    ledger_step (mkAccount l out sv wr gn)
      (mkAccount (commit (fun f => f) None c consumed l) rest sv (bump wr (ch_Key c) (ch_Amount c)) gn)
| LDrop l out sv wr gn key :
    ledger_step (mkAccount l out sv wr gn) (mkAccount (Drop key l) out sv wr (bump gn key (queued_on key l))).

Definition account_0 : account := mkAccount NewChargeLedger [] (fun _ => 0) (fun _ => 0) (fun _ => 0).

(** Nothing served is lost from the account, nothing is counted twice. *)
Record account_ok (a : account) : Prop := {
  ao_ledger : ledger_ok (ac_ledger a) (ac_out a);
  ao_sum k : ac_served a k = ac_written a k + ac_gone a k + queued_on k (ac_ledger a) + held_on k (ac_out a);
  ao_written k : 0 <= ac_written a k;
  ao_gone k : 0 <= ac_gone a k;
  ao_fits k : ac_served a k <= int64_max
}.

(** An account after a step that kept the ledger's invariant, given what each
    counter did. *)
Lemma account_step l out sv wr gn l' out' sv' wr' gn' :
  account_ok (mkAccount l out sv wr gn) -> ledger_ok l' out' ->
  (forall k, sv' k - sv k = (wr' k - wr k) + (gn' k - gn k) + (queued_on k l' - queued_on k l) + (held_on k out' - held_on k out)) ->
  (forall k, wr k <= wr' k) -> (forall k, gn k <= gn' k) -> (forall k, sv' k <= int64_max) ->
  account_ok (mkAccount l' out' sv' wr' gn').
Proof.
  intros [Hl Hs Hw Hg Hf] Hok Hd Hw' Hg' Hf'. simpl in *.
  split; simpl; [done| | | |done]; intros k; specialize (Hs k); specialize (Hw k); specialize (Hg k);
    specialize (Hd k); specialize (Hw' k); specialize (Hg' k); lia.
Qed.

Lemma bump_at f key a k : bump f key a k - f k = on key k a.
Proof. unfold bump. lia. Qed.

Lemma bump_le f key a k : 0 <= a -> f k <= bump f key a k.
Proof. unfold bump, on. destruct (String.eqb key k); lia. Qed.

Lemma held_cons k c rest : held_on k (c :: rest) = on (ch_Key c) k (ch_Amount c) + held_on k rest.
Proof. done. Qed.

Lemma on_add key k a b : on key k (a + b) = on key k a + on key k b.
Proof. unfold on. destruct (String.eqb key k); lia. Qed.

Lemma ledger_step_ok a a' : ledger_step a a' -> account_ok a -> account_ok a'.
Proof.
  intros Hs Hok. pose proof (ao_ledger _ Hok) as Hl.
  assert (forall c rest, ac_out a ≡ₚ c :: rest -> ledger_ok (ac_ledger a) (c :: rest) /\ 0 < ch_Amount c /\
    forall k, held_on k rest - held_on k (ac_out a) = - on (ch_Key c) k (ch_Amount c)) as Hc.
  { intros c rest Hp. pose proof (ledger_perm _ _ _ Hp Hl) as Hl'. split; [done|].
    pose proof (ok_out _ _ Hl') as Ho. apply Forall_cons in Ho as [? _]. split; [done|].
    intros k. rewrite (held_perm k _ _ Hp), held_cons. lia. }
  pose proof (ao_fits _ Hok) as Hf.
  destruct Hs as [l out sv wr gn key supplier amount ttl Ha Hfit | l out sv wr gn key supplier amount ttl Ha
    | l out sv wr gn entries l' new Hp Ht | l out sv wr gn c rest Hp | l out sv wr gn c rest l' Hp Hr
    | l out sv wr gn c rest l' Hp Hr | l out sv wr gn c rest Hp | l out sv wr gn c rest consumed Hp
    | l out sv wr gn key]; cbn [ac_ledger ac_out ac_served] in *.
  - destruct (Add_ok l out key supplier amount ttl Hl Ha) as [H1 H2].
    { rewrite (Pending_split _ _ _ Hl). pose proof (ao_sum _ Hok key). pose proof (ao_written _ Hok key).
      pose proof (ao_gone _ Hok key). simpl in *. lia. }
    eapply account_step; [exact Hok|done| |done|done|].
    + intros k. rewrite bump_at, H2. lia.
    + intros k. unfold bump. specialize (Hf k). destruct (on_cases key k amount) as [[<- ->]|[_ ->]]; lia.
  - unfold Add. destruct (Z.leb_spec amount 0); [done|lia].
  - destruct (takeAll_ok _ _ _ _ _ Hl Hp Ht) as (H1 & H2 & _).
    eapply account_step; [exact Hok|done| |done|done|done]. intros k. specialize (H2 k). rewrite held_app. lia.
  - destruct (Hc c rest Hp) as (H1 & Hpos & H2). destruct (untake_ok _ _ _ H1) as [H3 H4].
    eapply account_step; [exact Hok|done| |done|done|done]. intros k. rewrite H2, H4. lia.
  - destruct (Hc c rest Hp) as (H1 & Hpos & H2). destruct (retry_ok _ _ _ _ _ H1 Hr) as [H3 H4].
    eapply account_step; [exact Hok|done| |done|done|done]. intros k. rewrite H2, H4. lia.
  - destruct (Hc c rest Hp) as (H1 & Hpos & H2). destruct (retry_ok _ _ _ _ _ H1 Hr) as [H3 H4].
    pose proof (queued_pos _ _ (ch_Key c) Hl). eapply account_step; [exact Hok|done| |done| |done].
    + intros k. rewrite H2, H4, bump_at, on_add. lia.
    + intros k. apply bump_le. lia.
  - destruct (Hc c rest Hp) as (H1 & Hpos & H2). destruct (finish_ok _ _ _ H1) as [H3 H4].
    eapply account_step; [exact Hok|exact H3| |done| |done].
    + intros k. unfold forget, FinishWrite. rewrite H2, H4, bump_at. lia.
    + intros k. apply bump_le. lia.
  - destruct (Hc c rest Hp) as (H1 & Hpos & H2). destruct (finish_ok _ _ _ H1) as [H3 H4].
    eapply account_step; [exact Hok|exact H3| | |done|done].
    + intros k. unfold FinishWrite. rewrite H2, H4, bump_at. lia.
    + intros k. apply bump_le. lia.
  - destruct (drop_ok _ _ key Hl) as [H1 H2]. pose proof (queued_pos _ _ key Hl).
    eapply account_step; [exact Hok|done| |done| |done].
    + intros k. rewrite H2, bump_at. lia.
    + intros k. by apply bump_le.
Qed.

Lemma account_0_ok : account_ok account_0.
Proof. split; simpl; [apply NewChargeLedger_ok|done|done|done|]. intros k. unfold int64_max. lia. Qed.

Lemma account_life a : rtc ledger_step account_0 a -> account_ok a.
Proof.
  intros Hr. pose proof account_0_ok as H0. revert H0.
  induction Hr as [|a b c Hs _ IH]; intros; [done|]. apply IH. by eapply ledger_step_ok.
Qed.

(** C29. The ledger conserves what was served. However the meter's and the
    dispatches' calls interleave, with every charge's outcome reported once,
    what admission reads as pending on a counter is what was served on it less
    what was written and what was given up; what is being written is what the
    dispatches hold; and no more is written than was served. *)
Theorem ledger_conserves (a : account) (k : string) :
  rtc ledger_step account_0 a ->
  Pending k (ac_ledger a) = ac_served a k - ac_written a k - ac_gone a k /\
  read0 (lg_writing (ac_ledger a)) k = held_on k (ac_out a) /\
  0 <= ac_written a k /\ 0 <= ac_gone a k /\ ac_written a k + ac_gone a k <= ac_served a k.
Proof.
  intros Hr. pose proof (account_life a Hr) as Hok. pose proof (ao_ledger _ Hok) as Hl. pose proof (ao_sum _ Hok k).
  rewrite (Pending_split _ _ k Hl). pose proof (queued_pos _ _ k Hl). pose proof (held_nonneg k _ (ok_out _ _ Hl)).
  pose proof (ao_written _ Hok k). pose proof (ao_gone _ Hok k). split_and!; [lia|apply (ok_writing _ _ Hl)|lia..].
Qed.

Module LedgerExample.
Definition c5 : Charge := mkCharge "k" "sup" 5 60 0.

(** Two relays served and taken by a dispatch, a third served meanwhile, the
    dispatch's write reported. *)
Lemma ledger_conserves_witness :
  exists a, Pending "k" (ac_ledger a) = 3 /\ ac_written a "k" = 5 /\
    Pending "k" (ac_ledger a) = ac_served a "k" - ac_written a "k" - ac_gone a "k".
Proof.
  set (l1 := Add "k" "sup" 2 60 (Add "k" "sup" 3 60 NewChargeLedger)).
  set (l2 := fst (takeAll l1)). set (l3 := Add "k" "sup" 3 60 l2).
  eexists (mkAccount (commit (fun f => f) None c5 5 l3) [] _ _ _).
  split_and!; [vm_compute; reflexivity|shelve|]. apply ledger_conserves.
  eapply rtc_l; [apply (LAdd _ _ _ _ _ "k" "sup" 3 60); vm_compute; congruence|].
  eapply rtc_l; [apply (LAdd _ _ _ _ _ "k" "sup" 2 60); vm_compute; congruence|].
  eapply rtc_l; [eapply (LTake _ _ _ _ _ (map_to_list (lg_pending l1)) l2 [c5]); [reflexivity|vm_compute; reflexivity]|].
  eapply rtc_l; [apply (LAdd _ _ _ _ _ "k" "sup" 3 60); vm_compute; congruence|].
  eapply rtc_l; [apply (LCommit _ _ _ _ _ c5 [] 5); reflexivity|]. apply rtc_refl.
  Unshelve. vm_compute. reflexivity.
Defined.
End LedgerExample.
