(* ===== verification/KvStore.v ===== *)
(** * The key-value surface (interface Store, storage/kv/kv.go)

    Strings with a TTL, sets and compare-and-delete locks, as the relay meter,
    the caches and the registries use them. [KvOps] is the Go interface as far
    as it changes or reads keys; [KvLaws] states what each method promises when
    round trips may fail. KvPebble discharges it; RelayMeter is proved against
    it. *)

From S2P Require Import Prelude SessionState StoreSpec.
From Stdlib Require Import Ascii String.

Local Open Scope string_scope.
Local Open Scope Z_scope.

(** A stored value is there until its expiry; 0 is no expiry. *)
Definition alive (now expiry : Z) : bool := (expiry =? 0) || (now <? expiry).

Lemma alive_later t t' e : t <= t' -> alive t' e = true -> alive t e = true.
Proof. unfold alive. rewrite !orb_true_iff, !Z.ltb_lt. intros ? [?|?]; [by left|right; lia]. Qed.

(** What SetAll is given. *)
Record Entry := mkEntry { e_Key : string; e_Value : string; e_TTL : Z }.

(** The methods. Each takes the faults of its round trips and the instant it
    runs at; [kv_str] and [kv_set] are what the store keeps, with the expiry. *)
Class KvOps (K : Type) := {
  kv_str : K -> string -> option (string * Z);
  kv_set : K -> string -> option (gset string * Z);
  kv_get : Io -> Z -> K -> string -> result (option string) StoreErr;
  kv_mget : Io -> Z -> K -> list string -> result (list (option string)) StoreErr;
  kv_put : Io -> Z -> K -> string -> string -> Z -> K * result unit StoreErr;
  kv_set_all : Io -> Z -> K -> list Entry -> K * result unit StoreErr;
  kv_put_keep : Io -> Z -> K -> string -> string -> K * result unit StoreErr;
  kv_setnx : Io -> Z -> K -> string -> string -> Z -> K * result bool StoreErr;
  kv_cad : Io -> Z -> K -> string -> string -> K * result bool StoreErr;
  kv_del : Io -> Z -> K -> list string -> K * result unit StoreErr;
  kv_exists : Io -> Z -> K -> string -> result bool StoreErr;
  kv_scan : Io -> Z -> K -> string -> result (list string) StoreErr;
  kv_expire : Io -> Z -> K -> string -> Z -> K * result bool StoreErr;
  kv_sadd : Io -> Z -> K -> string -> list string -> K * result unit StoreErr;
  kv_srem : Io -> Z -> K -> string -> list string -> K * result unit StoreErr;
  kv_smembers : Io -> Z -> K -> string -> result (list string) StoreErr;
  kv_scard : Io -> Z -> K -> string -> result Z StoreErr;
  kv_sismember : Io -> Z -> K -> string -> string -> result bool StoreErr;
  kv_key_ok : string -> Prop;
  kv_expiry : Z -> Z -> Z
}.

Section Views.
Context {K : Type} `{KO : !KvOps K}.

(** What a reader sees at an instant. *)
Definition str_at (now : Z) (s : K) (k : string) : option string :=
  match kv_str s k with
  | Some (v, e) => if alive now e then Some v else None
  | None => None
  end.

Definition set_at (now : Z) (s : K) (k : string) : gset string :=
  match kv_set s k with
  | Some (ms, e) => if alive now e then ms else ∅
  | None => ∅
  end.

Definition set_live (now : Z) (s : K) (k : string) : bool := match kv_set s k with Some (_, e) => alive now e | None => false end.

(** A string or a set is there. *)
Definition exists_at (now : Z) (s : K) (k : string) : bool := bool_decide (is_Some (str_at now s k)) || set_live now s k.

(** What a key holds after a batch of values: the last one given for it. *)
Definition after_all (now : Z) (entries : list Entry) (k : string) (o : option (string * Z)) : option (string * Z) :=
  foldl (fun o e => if String.eqb (e_Key e) k then Some (e_Value e, kv_expiry now (e_TTL e)) else o) o entries.

(** Everything but the keys [ks] is as it was. *)
Definition kv_frame (ks : list string) (s s' : K) : Prop :=
  forall k, kv_key_ok k -> k ∉ ks -> kv_str s' k = kv_str s k /\ kv_set s' k = kv_set s k.

Definition kv_same (s s' : K) : Prop := forall k, kv_key_ok k -> kv_str s' k = kv_str s k /\ kv_set s' k = kv_set s k.

(** A call: answered, it did [post]; with a failed round trip it did all of it
    or nothing; refused for another reason, nothing. *)
Definition kv_call {A} (s s' : K) (r : result A StoreErr) (post : A -> Prop) : Prop :=
  match r with
  | Ok a => post a
  | Err (ErrIo _) => kv_same s s' \/ exists a, post a
  | Err _ => kv_same s s'
  end.

#[export] Instance kv_same_equivalence : Equivalence kv_same.
Proof.
  split.
  - by intros s k.
  - intros s t H k Hk. destruct (H k Hk). done.
  - intros s t u H1 H2 k Hk. destruct (H1 k Hk), (H2 k Hk). split; congruence.
Qed.

(** A string key holding a value with a TTL, or nothing. *)
Definition holds (s' : K) (k v : string) (now ttl : Z) : Prop := kv_str s' k = Some (v, kv_expiry now ttl).
End Views.

(** An instant a TTL given now may end at, if it is given. *)
Class KvLaws (K : Type) `{!KvOps K} (ttl_ok : Z -> Z -> Prop) := {
  kv_expiry_none now : kv_expiry now 0 = 0;
  kv_expiry_close now ttl : ttl_ok now ttl -> 0 < ttl -> now + ttl - 10 ^ 6 < kv_expiry now ttl <= now + ttl;
  law_get io now s k v : 0 <= now -> kv_get io now s k = Ok v -> v = str_at now s k;
  law_get_answers now s k : 0 <= now -> str_at now s k <> None -> kv_get io_ok now s k = Ok (str_at now s k);
  law_mget io now s ks vs : 0 <= now -> kv_mget io now s ks = Ok vs -> vs = map (str_at now s) ks;
  law_put io now s k v ttl s' r :
    0 <= now -> kv_key_ok k -> ttl_ok now ttl -> kv_put io now s k v ttl = (s', r) ->
    kv_call s s' r (fun _ => holds s' k v now ttl /\ kv_set s' k = kv_set s k /\ kv_frame [k] s s');
  law_set_all io now s entries s' r :
    0 <= now -> Forall (fun e => kv_key_ok (e_Key e) /\ ttl_ok now (e_TTL e)) entries -> kv_set_all io now s entries = (s', r) ->
    kv_call s s' r (fun _ => forall k, kv_key_ok k -> kv_str s' k = after_all now entries k (kv_str s k) /\ kv_set s' k = kv_set s k);
  law_put_keep io now s k v s' r :
    0 <= now -> kv_key_ok k -> kv_put_keep io now s k v = (s', r) ->
    kv_call s s' r (fun _ =>
      kv_str s' k = Some (v, match kv_str s k with Some (_, e) => if alive now e then e else 0 | None => 0 end) /\
      kv_set s' k = kv_set s k /\ kv_frame [k] s s');
  law_setnx io now s k v ttl s' r :
    0 <= now -> kv_key_ok k -> ttl_ok now ttl -> kv_setnx io now s k v ttl = (s', r) ->
    kv_call s s' r (fun set =>
      if set then str_at now s k = None /\ holds s' k v now ttl /\ kv_set s' k = kv_set s k /\ kv_frame [k] s s'
      else str_at now s k <> None /\ kv_same s s');
  law_cad io now s k v s' r :
    0 <= now -> kv_key_ok k -> kv_cad io now s k v = (s', r) ->
    kv_call s s' r (fun deleted =>
      if deleted then str_at now s k = Some v /\ kv_str s' k = None /\ kv_set s' k = kv_set s k /\ kv_frame [k] s s'
      else str_at now s k <> Some v /\ kv_same s s');
  law_del io now s ks s' r :
    Forall kv_key_ok ks -> kv_del io now s ks = (s', r) ->
    kv_call s s' r (fun _ => (forall k, k ∈ ks -> kv_str s' k = None /\ kv_set s' k = None) /\ kv_frame ks s s');
  law_expire io now s k ttl s' r :
    0 <= now -> kv_key_ok k -> ttl_ok now ttl -> 0 < ttl -> kv_expire io now s k ttl = (s', r) ->
    kv_call s s' r (fun found =>
      kv_frame [k] s s' /\
      match str_at now s k with
      | Some v => found = true /\ kv_str s' k = Some (v, kv_expiry now ttl) /\ kv_set s' k = kv_set s k
      | None => kv_str s' k = kv_str s k /\
                match kv_set s k with
                | Some (ms, e) =>
                    if alive now e then found = true /\ kv_set s' k = Some (ms, kv_expiry now ttl)
                    else found = false /\ kv_set s' k = Some (ms, e)
                | None => found = false /\ kv_set s' k = None
                end
      end);
  (** a TTL that is not positive takes the key away *)
  law_expire_now io now s k ttl s' r :
    0 <= now -> ttl_ok (now - 2 * 10 ^ 6) (10 ^ 6) -> kv_key_ok k -> ttl <= 0 -> kv_expire io now s k ttl = (s', r) ->
    kv_call s s' r (fun found =>
      kv_frame [k] s s' /\ found = exists_at now s k /\
      (str_at now s' k = None /\ (str_at now s k <> None -> kv_set s' k = kv_set s k) /\
       (str_at now s k = None -> set_live now s' k = false)));
  law_exists io now s k b : 0 <= now -> kv_exists io now s k = Ok b -> b = exists_at now s k;
  law_scan io now s prefix ks : 0 <= now -> kv_scan io now s prefix = Ok ks ->
    forall k, k ∈ ks <-> (exists rest, k = prefix +:+ rest) /\ exists_at now s k = true;
  law_sadd io now s k ms s' r :
    0 <= now -> kv_key_ok k -> ms <> [] -> kv_sadd io now s k ms = (s', r) ->
    kv_call s s' r (fun _ => set_at now s' k = set_at now s k ∪ list_to_set ms /\ kv_str s' k = kv_str s k /\ kv_frame [k] s s');
  law_srem io now s k ms s' r :
    0 <= now -> kv_key_ok k -> kv_srem io now s k ms = (s', r) ->
    kv_str s' k = kv_str s k /\ kv_frame [k] s s' /\
    match r with
    | Ok _ => set_at now s' k = set_at now s k ∖ list_to_set ms
    | Err _ => set_at now s' k = set_at now s k \/ set_at now s' k = set_at now s k ∖ list_to_set ms
    end;
  law_smembers io now s k ms :
    0 <= now -> kv_key_ok k -> kv_smembers io now s k = Ok ms -> list_to_set ms = set_at now s k;
  law_scard io now s k n : 0 <= now -> kv_scard io now s k = Ok n -> n = Z.of_nat (size (set_at now s k));
  law_sismember io now s k m b : 0 <= now -> kv_sismember io now s k m = Ok b -> b = bool_decide (m ∈ set_at now s k)
}.
