(* ===== verification/KvPebble.v ===== *)
(** * The key-value surface over the embedded store (storage/kv/pebble.go)

    kv.Pebble: strings stored with their expiry, sets as one key per member and
    a meta key with the set's expiry, the janitor that deletes what expired.
    Every method that writes holds the store's mutex, so it is one step. *)

From S2P Require Import Prelude SessionState StoreSpec KvStore PebbleModel PebbleQueue.
From Stdlib Require Import Ascii String.

Local Open Scope string_scope.
Local Open Scope Z_scope.

(** ** Keys *)

Definition stringPrefix : string := "kv" +:+ nul.
Definition setPrefix : string := "kvs" +:+ nul.
Definition setMetaPrefix : string := "kvsx" +:+ nul.

Definition StringKey (key : string) : string := stringPrefix +:+ key.
Definition setMemberPrefix (key : string) : string := setPrefix +:+ (key +:+ nul).
Definition setMetaKey (key : string) : string := setMetaPrefix +:+ key.

Definition expiryOf (now ttl : Z) : Z := if ttl <=? 0 then 0 else now + ttl.

Section KvPebble.
Context {D : Type} `{PO : !PebbleOps D}.

(** ** Reads *)

(** [getString]: a live string and its expiry. *)
Definition getString (f : Fault) (now : Z) (d : D) (key : string) : result (option (string * Z)) StoreErr :=
  match p_get f d (StringKey key) with
  | Err e => Err e
  | Ok None => Ok None
  | Ok (Some raw) =>
      match DecodeValue raw now with
      | Err e => Err e
      | Ok (value, expiry, expired) => Ok (if expired then None else Some (value, expiry))
      end
  end.

Definition setLive (f : Fault) (now : Z) (d : D) (key : string) : result bool StoreErr :=
  match p_get f d (setMetaKey key) with
  | Err e => Err e
  | Ok None => Ok false
  | Ok (Some raw) =>
      match DecodeValue raw now with
      | Err e => Err e
      | Ok (_, _, expired) => Ok (negb expired)
      end
  end.

Definition KGet (io : Io) (now : Z) (d : D) (key : string) : result (option string) StoreErr :=
  match getString (io 0%nat) now d key with
  | Err e => Err e
  | Ok v => Ok (fst <$> v)
  end.

Fixpoint KMGet (io : Io) (now : Z) (d : D) (keys : list string) : result (list (option string)) StoreErr :=
  match keys with
  | [] => Ok []
  | key :: rest =>
      match getString (io 0%nat) now d key with
      | Err e => Err e
      | Ok v => match KMGet (io_next 1 io) now d rest with
                | Err e => Err e
                | Ok vs => Ok ((fst <$> v) :: vs)
                end
      end
  end.

(** ** Writes to strings *)

Definition KSet (io : Io) (now : Z) (d : D) (key value : string) (ttl : Z) : D * result unit StoreErr :=
  p_write (io 0%nat) [PSet (StringKey key) (EncodeValue (expiryOf now ttl) value)] d.

(** [SetAll]: one batch. *)
Definition KSetAll (io : Io) (now : Z) (d : D) (entries : list Entry) : D * result unit StoreErr :=
  p_write (io 0%nat) (map (fun e => PSet (StringKey (e_Key e)) (EncodeValue (expiryOf now (e_TTL e)) (e_Value e))) entries) d.

Definition KSetKeepTTL (io : Io) (now : Z) (d : D) (key value : string) : D * result unit StoreErr :=
  match getString (io 0%nat) now d key with
  | Err e => (d, Err e)
  | Ok v => p_write (io 1%nat) [PSet (StringKey key) (EncodeValue (match v with Some (_, e) => e | None => 0 end) value)] d
  end.

Definition KSetNX (io : Io) (now : Z) (d : D) (key value : string) (ttl : Z) : D * result bool StoreErr :=
  match getString (io 0%nat) now d key with
  | Err e => (d, Err e)
  | Ok (Some _) => (d, Ok false)
  | Ok None =>
      let '(d', r) := p_write (io 1%nat) [PSet (StringKey key) (EncodeValue (expiryOf now ttl) value)] d in
      (d', match r with Ok _ => Ok true | Err e => Err e end)
  end.

Definition KCompareAndDelete (io : Io) (now : Z) (d : D) (key expected : string) : D * result bool StoreErr :=
  match getString (io 0%nat) now d key with
  | Err e => (d, Err e)
  | Ok None => (d, Ok false)
  | Ok (Some (value, _)) =>
      if String.eqb value expected then
        let '(d', r) := p_write (io 1%nat) [PDelete (StringKey key)] d in
        (d', match r with Ok _ => Ok true | Err e => Err e end)
      else (d, Ok false)
  end.

(** The deletes of one key, a string or a set. *)
Definition delKey (key : string) : list pwrite :=
  [ PDelete (StringKey key);
    PDeleteRange (setMemberPrefix key) (keyUpperBound (setMemberPrefix key));
    PDelete (setMetaKey key) ].

Definition KDel (io : Io) (now : Z) (d : D) (keys : list string) : D * result unit StoreErr :=
  p_write (io 0%nat) (List.concat (map delKey keys)) d.

Definition KExists (io : Io) (now : Z) (d : D) (key : string) : result bool StoreErr :=
  match getString (io 0%nat) now d key with
  | Err e => Err e
  | Ok (Some _) => Ok true
  | Ok None => setLive (io 1%nat) now d key
  end.

Definition KExpire (io : Io) (now : Z) (d : D) (key : string) (ttl : Z) : D * result bool StoreErr :=
  let expiry := if ttl <=? 0 then now - 10 ^ 6 else expiryOf now ttl in
  match getString (io 0%nat) now d key with
  | Err e => (d, Err e)
  | Ok (Some (value, _)) =>
      let '(d', r) := p_write (io 1%nat) [PSet (StringKey key) (EncodeValue expiry value)] d in
      (d', match r with Ok _ => Ok true | Err e => Err e end)
  | Ok None =>
      match setLive (io 1%nat) now d key with
      | Err e => (d, Err e)
      | Ok false => (d, Ok false)
      | Ok true =>
          let '(d', r) := p_write (io 2%nat) [PSet (setMetaKey key) (EncodeValue expiry "")] d in
          (d', match r with Ok _ => Ok true | Err e => Err e end)
      end
  end.

(** What a prefix iterator yields; [Err] when it fails. *)
Definition prefixIter (f : Fault) (d : D) (prefix : string) : result (list (string * string)) StoreErr :=
  match read_trip f (p_iter d prefix (keyUpperBound prefix)) with
  | Ok l => Ok l
  | Err e => Err (ErrIo e)
  end.

(** The [scan] of [ScanPrefix]: what decodes and has not expired, without its
    base. *)
Definition scanBase (f : Fault) (now : Z) (d : D) (base prefix : string) : result (list string) StoreErr :=
  match prefixIter f d (base +:+ prefix) with
  | Err e => Err e
  | Ok l => Ok (omap (fun kv => match DecodeValue kv.2 now with
                                | Ok (_, _, false) => Some (str_drop (String.length base) kv.1)
                                | _ => None
                                end) l)
  end.

Definition KScanPrefix (io : Io) (now : Z) (d : D) (prefix : string) : result (list string) StoreErr :=
  match scanBase (io 0%nat) now d stringPrefix prefix with
  | Err e => Err e
  | Ok ks => match scanBase (io 1%nat) now d setMetaPrefix prefix with
             | Err e => Err e
             | Ok ks' => Ok (ks ++ ks')%list
             end
  end.

(** ** Sets *)

Definition KSAdd (io : Io) (now : Z) (d : D) (key : string) (members : list string) : D * result unit StoreErr :=
  match members with
  | [] => (d, Ok tt)
  | _ =>
      match setLive (io 0%nat) now d key with
      | Err e => (d, Err e)
      | Ok live =>
          p_write (io 1%nat)
            ((if live then []
              else [ PDeleteRange (setMemberPrefix key) (keyUpperBound (setMemberPrefix key));
                     PSet (setMetaKey key) (EncodeValue 0 "") ])
             ++ map (fun m => PSet (setMemberPrefix key +:+ m) "") members)%list d
      end
  end.

Definition setEmpty (f : Fault) (d : D) (key : string) : result bool StoreErr :=
  match prefixIter f d (setMemberPrefix key) with
  | Err e => Err e
  | Ok l => Ok (match l with [] => true | _ => false end)
  end.

(** A set left empty is deleted. *)
Definition KSRem (io : Io) (now : Z) (d : D) (key : string) (members : list string) : D * result unit StoreErr :=
  match members with
  | [] => (d, Ok tt)
  | _ =>
      match p_write (io 0%nat) (map (fun m => PDelete (setMemberPrefix key +:+ m)) members) d with
      | (d1, Err e) => (d1, Err e)
      | (d1, Ok _) =>
          match setLive (io 1%nat) now d1 key with
          | Err e => (d1, Err e)
          | Ok live =>
              match (if live then setEmpty (io 2%nat) d1 key else Ok true) with
              | Err e => (d1, Err e)
              | Ok false => (d1, Ok tt)
              | Ok true => p_write (io 3%nat) [PDelete (setMetaKey key)] d1
              end
          end
      end
  end.

Definition members (io : Io) (now : Z) (d : D) (key : string) : result (list string) StoreErr :=
  match setLive (io 0%nat) now d key with
  | Err e => Err e
  | Ok false => Ok []
  | Ok true =>
      match prefixIter (io 1%nat) d (setMemberPrefix key) with
      | Err e => Err e
      | Ok l => Ok (map (fun kv => str_drop (String.length (setMemberPrefix key)) kv.1) l)
      end
  end.

Definition KSMembers (io : Io) (now : Z) (d : D) (key : string) : result (list string) StoreErr := members io now d key.

Definition KSCard (io : Io) (now : Z) (d : D) (key : string) : result Z StoreErr :=
  match members io now d key with
  | Err e => Err e
  | Ok ms => Ok (Z.of_nat (List.length ms))
  end.

Definition KSIsMember (io : Io) (now : Z) (d : D) (key member : string) : result bool StoreErr :=
  match setLive (io 0%nat) now d key with
  | Err e => Err e
  | Ok false => Ok false
  | Ok true => match p_get (io 1%nat) d (setMemberPrefix key +:+ member) with
               | Err e => Err e
               | Ok v => Ok (match v with Some _ => true | None => false end)
               end
  end.

(** ** The janitor *)

Definition expiredChunk : nat := 1000.

(** [expiredKeys]: found without the lock. *)
Definition expiredKeys (f : Fault) (now : Z) (d : D) (base : string) : result (list string) StoreErr :=
  match prefixIter f d base with
  | Err e => Err e
  | Ok l => Ok (map fst (List.filter (fun kv => match DecodeValue kv.2 now with Ok (_, _, e) => e | Err _ => false end) l))
  end.

(** The deletes [deleteIfExpired] gathers, re-reading each key. *)
Fixpoint expiredDeletes (io : Io) (now : Z) (d : D) (base : string) (keys : list string) : result (list pwrite) StoreErr :=
  match keys with
  | [] => Ok []
  | key :: rest =>
      match p_get (io 0%nat) d key with
      | Err e => Err e
      | Ok found =>
          match expiredDeletes (io_next 1 io) now d base rest with
          | Err e => Err e
          | Ok ws =>
              let gone := match found with
                          | Some raw => match DecodeValue raw now with Ok (_, _, e) => e | Err _ => false end
                          | None => false
                          end in
              if gone then
                let prefix := setMemberPrefix (str_drop (String.length base) key) in
                Ok (PDelete key :: (if String.eqb base setMetaPrefix then [PDeleteRange prefix (keyUpperBound prefix)] else []) ++ ws)%list
              else Ok ws
          end
      end
  end.

Definition deleteIfExpired (f : Fault) (io : Io) (now : Z) (d : D) (base : string) (keys : list string)
  : D * result unit StoreErr :=
  match expiredDeletes io now d base keys with
  | Err e => (d, Err e)
  | Ok [] => (d, Ok tt)
  | Ok ws => p_write f ws d
  end.

(** The chunk loop over the candidates of one base. Each chunk takes at least
    one key, so as many rounds as candidates are enough. *)
Fixpoint deleteChunks (fuel : nat) (cs : nat -> Io) (now : Z) (d : D) (base : string) (keys : list string)
  : D * result unit StoreErr :=
  match fuel, keys with
  | S fuel', _ :: _ =>
      match deleteIfExpired (cs 0%nat 0%nat) (io_next 1 (cs 0%nat)) now d base (take expiredChunk keys) with
      | (d1, Err e) => (d1, Err e)
      | (d1, Ok _) => deleteChunks fuel' (fun n => cs (S n)) now d1 base (drop expiredChunk keys)
      end
  | _, _ => (d, Ok tt)
  end.

(** [deleteExpired]: the candidates of both bases, then their deletes. [between]
    is what other writers did after the scan. *)
Definition deleteExpired (io : Io) (cs1 cs2 : nat -> Io) (between : D -> D) (now : Z) (d : D) : D * result unit StoreErr :=
  match expiredKeys (io 0%nat) now d stringPrefix with
  | Err e => (d, Err e)
  | Ok strs =>
      match expiredKeys (io 1%nat) now d setMetaPrefix with
      | Err e => (d, Err e)
      | Ok metas =>
          match deleteChunks (List.length strs) cs1 now (between d) stringPrefix strs with
          | (d1, Err e) => (d1, Err e)
          | (d1, Ok _) => deleteChunks (List.length metas) cs2 now d1 setMetaPrefix metas
          end
      end
  end.
End KvPebble.
