(* ===== verification/KvPebbleRefines.v ===== *)
(** * kv.Pebble keeps the key-value contract

    The views of KvStore over the embedded store, and the proof that every
    method of KvPebble does what KvStore says of it, round trips failing or
    not; the janitor is invisible to every reader. *)

From S2P Require Import Prelude SessionState StoreSpec KvStore PebbleModel PebbleQueue KvPebble.
From Stdlib Require Import Ascii String.

Local Open Scope string_scope.
Local Open Scope Z_scope.

(** ** Stored values *)

(** What a stored value is, whenever it is read: [None] when it does not decode
    or was expired from the start. *)
Definition stored_value (raw : string) : option (string * Z) :=
  match DecodeValue raw 0 with
  | Ok (v, e, false) => Some (v, e)
  | _ => None
  end.

Definition if_alive (now : Z) (o : option (string * Z)) : option (string * Z) :=
  match o with
  | Some (v, e) => if alive now e then Some (v, e) else None
  | None => None
  end.

Lemma decode_alive now raw v e x : 0 <= now -> DecodeValue raw now = Ok (v, e, x) ->
  if_alive now (stored_value raw) = if x then None else Some (v, e).
Proof.
  intros Hn. unfold stored_value, DecodeValue. destruct (Nat.ltb _ _); [done|]. destruct (Z.eqb _ _); [by intros [= <- <- <-]|].
  set (ex := of_UnixMilli _). intros [= <- <- <-].
  destruct (Z.ltb_spec 0 ex) as [H0|H0]; simpl.
  - unfold alive. destruct (Z.eqb_spec ex 0); [lia|]. simpl. by destruct (now <? ex).
  - destruct (Z.ltb_spec now ex); [lia|done].
Qed.

Lemma stored_encode e v : e = 0 \/ expiry_ok e ->
  stored_value (EncodeValue e v) = Some (v, if e =? 0 then 0 else of_UnixMilli (UnixMilli e)).
Proof.
  intros He. unfold stored_value. rewrite DecodeValue_EncodeValue by done.
  destruct (Z.eqb_spec e 0) as [->|Hn]; [done|]. destruct He as [?|[Hlo Hhi]]; [done|].
  assert (0 < of_UnixMilli (UnixMilli e)) as Hp.
  { pose proof (UnixMilli_range e (conj Hlo Hhi)). unfold of_UnixMilli, unix_epoch. lia. }
  apply Z.ltb_lt in Hp as ->. done.
Qed.

(** An expiry that was read is stored again as it was. *)
Lemma stored_reencode raw v0 e v : stored_value raw = Some (v0, e) -> stored_value (EncodeValue e v) = Some (v, e).
Proof.
  unfold stored_value at 1, DecodeValue. destruct (Nat.ltb (String.length raw) 8) eqn:Hlen; [done|].
  apply Nat.ltb_ge in Hlen. destruct (Z.eqb_spec (Uint64 (str_take 8 raw)) 0) as [H0|H0].
  { intros [= <- <-]. rewrite stored_encode by by left. done. }
  set (ms := Uint64 (str_take 8 raw)) in *.
  assert (in_uint64 ms) as Hms by (apply Uint64_range, str_take_length; lia).
  destruct (Z.ltb_spec 0 (of_UnixMilli (wrap64 ms))) as [Hp|]; [|done]. simpl. intros [= <- <-].
  assert (UnixMilli (of_UnixMilli (wrap64 ms)) = wrap64 ms) as HU.
  { unfold UnixMilli, of_UnixMilli. replace (unix_epoch + wrap64 ms * 10 ^ 6 - unix_epoch) with (wrap64 ms * 10 ^ 6) by lia.
    by rewrite Z.div_mul. }
  unfold stored_value, DecodeValue, EncodeValue. destruct (Z.eqb_spec (of_UnixMilli (wrap64 ms)) 0) as [He|_]; [lia|].
  rewrite HU. rewrite str_length_app, PutUint64_length.
  pose proof (str_take_app (PutUint64 (wrap64 ms)) v) as Ht. pose proof (str_drop_app (PutUint64 (wrap64 ms)) v) as Hd.
  rewrite PutUint64_length in Ht, Hd. rewrite Ht, Hd, Uint64_PutUint64.
  assert (wrapu64 (wrap64 ms) = ms) as ->.
  { unfold wrapu64, wrap64. rewrite Zminus_mod_idemp_l. replace (ms + 2 ^ 63 - 2 ^ 63) with ms by lia.
    apply Z.mod_small. unfold in_uint64, uint64_max in Hms. lia. }
  simpl. destruct (Z.eqb_spec ms 0); [done|]. by apply Z.ltb_lt in Hp as ->.
Qed.

(** ** Keys of one entry *)

Definition kv_family (k key : string) : Prop :=
  key = StringKey k \/ key = setMetaKey k \/ has_prefix (setMemberPrefix k) key = true.

Lemma member_inj k k' m m' : no_nul k -> no_nul k' ->
  setMemberPrefix k +:+ m = setMemberPrefix k' +:+ m' -> k = k' /\ m = m'.
Proof.
  unfold setMemberPrefix, nul. intros Hk Hk' He. rewrite <- !str_app_assoc in He.
  apply str_app_inj_l in He. by apply str_join_inj in He.
Qed.

Lemma string_not_meta k k' : StringKey k <> setMetaKey k'.
Proof. by apply (prefix_ne stringPrefix). Qed.

Lemma string_not_member k k' m : StringKey k <> setMemberPrefix k' +:+ m.
Proof. by apply (prefix_ne stringPrefix). Qed.

Lemma meta_not_member k k' m : setMetaKey k <> setMemberPrefix k' +:+ m.
Proof. by apply (prefix_ne setMetaPrefix). Qed.

Lemma family_disjoint k k' key : no_nul k -> no_nul k' -> kv_family k key -> kv_family k' key -> k = k'.
Proof.
  intros Hk Hk' [->|[->|[m ->]%has_prefix_iff]] [He|[He|[m' He]%has_prefix_iff]]; symmetry in He.
  all: try (by destruct (string_not_meta _ _ He)); try (by destruct (string_not_meta _ _ (eq_sym He))).
  all: try (by destruct (string_not_member _ _ _ He)); try (by destruct (string_not_member _ _ _ (eq_sym He))).
  all: try (by destruct (meta_not_member _ _ _ He)); try (by destruct (meta_not_member _ _ _ (eq_sym He))).
  - by apply str_app_inj_l in He.
  - by apply str_app_inj_l in He.
  - by destruct (member_inj _ _ _ _ Hk' Hk He).
Qed.

Section Refines.
Context {D : Type} `{PO : !PebbleOps D} `{PL : !PebbleLaws D}.

(** ** The views *)

Definition stored_members (d : D) (k : string) : gset string :=
  list_to_set (map (fun kv => str_drop (String.length (setMemberPrefix k)) kv.1)
                 (p_iter d (setMemberPrefix k) (keyUpperBound (setMemberPrefix k)))).

Definition pk_str (d : D) (k : string) : option (string * Z) := pview d !! StringKey k ≫= stored_value.

Definition pk_set (d : D) (k : string) : option (gset string * Z) :=
  '(_, e) ← pview d !! setMetaKey k ≫= stored_value; Some (stored_members d k, e).

Definition pk_expiry (now ttl : Z) : Z := if ttl <=? 0 then 0 else of_UnixMilli (UnixMilli (now + ttl)).
Definition pk_ttl_ok (now ttl : Z) : Prop := ttl <= 0 \/ expiry_ok (now + ttl).

#[export] Instance PebbleKvOps : KvOps D := {|
  kv_str := pk_str;
  kv_set := pk_set;
  kv_get := KGet;
  kv_mget := KMGet;
  kv_put := KSet;
  kv_set_all := KSetAll;
  kv_put_keep := KSetKeepTTL;
  kv_setnx := KSetNX;
  kv_cad := KCompareAndDelete;
  kv_del := KDel;
  kv_exists := KExists;
  kv_scan := KScanPrefix;
  kv_expire := KExpire;
  kv_sadd := KSAdd;
  kv_srem := KSRem;
  kv_smembers := KSMembers;
  kv_scard := KSCard;
  kv_sismember := KSIsMember;
  kv_key_ok := no_nul;
  kv_expiry := pk_expiry
|}.

Lemma elem_members d k m : m ∈ stored_members d k <-> is_Some (pview d !! (setMemberPrefix k +:+ m)).
Proof.
  unfold stored_members. rewrite elem_of_list_to_set, list_elem_of_In, in_map_iff. split.
  - intros ([key v] & <- & Hin). apply list_elem_of_In, iter_elem in Hin as [Hv Hr]. rewrite range_is_prefix in Hr.
    apply has_prefix_iff in Hr as [m' ->]. cbn [fst]. rewrite str_drop_app. by exists v.
  - intros [v Hv]. exists (setMemberPrefix k +:+ m, v). cbn [fst]. rewrite str_drop_app. split; [done|].
    apply list_elem_of_In, iter_elem. split; [done|]. by rewrite range_is_prefix, has_prefix_app.
Qed.

Lemma members_ext d d' k :
  (forall m, is_Some (pview d' !! (setMemberPrefix k +:+ m)) <-> is_Some (pview d !! (setMemberPrefix k +:+ m))) ->
  stored_members d' k = stored_members d k.
Proof. intros H. apply leibniz_equiv. intros m. by rewrite !elem_members. Qed.

(** What a key holds depends on its family only. *)
Lemma family_same d d' k :
  (forall key, kv_family k key -> pview d' !! key = pview d !! key) ->
  pk_str d' k = pk_str d k /\ pk_set d' k = pk_set d k.
Proof.
  intros H. unfold pk_str, pk_set. rewrite !H by (unfold kv_family; auto). split; [done|].
  rewrite (members_ext d d' k); [done|]. intros m. rewrite H; [done|]. right. right. apply has_prefix_app.
Qed.

(** A batch that stays in the families of [ks] frames the rest. *)
Lemma batch_frame ks b d :
  Forall no_nul ks -> (forall w key, w ∈ b -> touches w key = true -> exists k, k ∈ ks /\ kv_family k key) ->
  kv_frame ks d (p_commit b d).
Proof.
  intros Hks Hb k Hk Hni. apply family_same. intros key Hf. rewrite view_commit. apply apply_batch_other.
  intros w Hw. destruct (touches w key) eqn:Ht; [|done]. destruct (Hb w key Hw Ht) as (k' & Hin & Hf').
  destruct Hni. rewrite (family_disjoint k k' key); [done|done| |done|done].
  exact (proj1 (Forall_forall _ _) Hks _ Hin).
Qed.

(** A write of one batch is a call: its effect, or nothing. *)
Lemma write_call {A} f b (d d' : D) r (a : A) (post : A -> Prop) :
  p_write f b d = (d', r) -> (d' = p_commit b d -> post a) ->
  kv_call d d' (match r with Ok _ => Ok a | Err e => Err e end) post.
Proof.
  intros Hw Hp. unfold p_write in Hw. destruct f as [| |[]]; simpl in Hw; simplify_eq; simpl; eauto.
  - left. reflexivity.
  - left. reflexivity.
Qed.

Lemma write_call_unit f b (d d' : D) r (post : unit -> Prop) :
  p_write f b d = (d', r) -> (d' = p_commit b d -> post tt) -> kv_call d d' r post.
Proof.
  intros Hw Hp. pose proof (write_call f b d d' r tt post Hw Hp) as H. by destruct r as [[]|].
Qed.

Lemma refused {A} (d : D) (e : StoreErr) (post : A -> Prop) : kv_call d d (Err e) post.
Proof. destruct e; simpl; try reflexivity. left. reflexivity. Qed.

Lemma p_get_ok f (d : D) k v : p_get f d k = Ok v -> v = pview d !! k.
Proof. unfold p_get, read_trip. by destruct f; intros [= <-]. Qed.

Lemma getString_ok f now d k v : 0 <= now -> getString f now d k = Ok v -> v = if_alive now (pk_str d k).
Proof.
  intros Hn. unfold getString, pk_str. destruct (p_get f d (StringKey k)) as [o|] eqn:Hg; [|done].
  apply p_get_ok in Hg as <-. destruct o as [raw|]; [|by intros [= <-]].
  destruct (DecodeValue raw now) as [[[x e] ex]|] eqn:Hd; [|done]. intros [= <-]. simpl. symmetry. by apply decode_alive.
Qed.

Lemma str_at_alive now (d : D) k : str_at now d k = fst <$> if_alive now (pk_str d k).
Proof. unfold str_at. simpl. destruct (pk_str d k) as [[v e]|]; [|done]. simpl. by destruct (alive now e). Qed.

Lemma setLive_ok f now d k live : 0 <= now -> setLive f now d k = Ok live ->
  live = match pk_set d k with Some (_, e) => alive now e | None => false end.
Proof.
  intros Hn. unfold setLive, pk_set. destruct (p_get f d (setMetaKey k)) as [o|] eqn:Hg; [|done].
  apply p_get_ok in Hg as <-. destruct o as [raw|]; [|by intros [= <-]].
  destruct (DecodeValue raw now) as [[[x e] ex]|] eqn:Hd; [|done]. intros [= <-]. simpl.
  apply decode_alive in Hd; [|done]. destruct (stored_value raw) as [[v' e']|]; simpl in *.
  - destruct (alive now e'); by destruct ex.
  - by destruct ex.
Qed.

(** *** One string key *)

Lemma put_string d k e v : no_nul k ->
  let d' := p_commit [PSet (StringKey k) (EncodeValue e v)] d in
  pk_str d' k = stored_value (EncodeValue e v) /\ pk_set d' k = pk_set d k /\ kv_frame [k] d d'.
Proof.
  intros Hk. cbv zeta. split_and!.
  - unfold pk_str. rewrite view_commit. simpl. by rewrite lookup_insert_eq.
  - unfold pk_set. rewrite view_commit. simpl. rewrite lookup_insert_ne by apply string_not_meta.
    rewrite (members_ext d); [done|]. intros m. rewrite view_commit. simpl.
    by rewrite lookup_insert_ne by apply string_not_member.
  - apply batch_frame; [by repeat constructor|]. intros w key ->%list_elem_of_singleton Ht. cbn [touches] in Ht.
    apply String.eqb_eq in Ht as <-. exists k. split; [set_solver|by left].
Qed.

Lemma del_string d k : no_nul k ->
  let d' := p_commit [PDelete (StringKey k)] d in
  pk_str d' k = None /\ pk_set d' k = pk_set d k /\ kv_frame [k] d d'.
Proof.
  intros Hk. cbv zeta. split_and!.
  - unfold pk_str. rewrite view_commit. simpl. by rewrite lookup_delete_eq.
  - unfold pk_set. rewrite view_commit. simpl. rewrite lookup_delete_ne by apply string_not_meta.
    rewrite (members_ext d); [done|]. intros m. rewrite view_commit. simpl.
    by rewrite lookup_delete_ne by apply string_not_member.
  - apply batch_frame; [by repeat constructor|]. intros w key ->%list_elem_of_singleton Ht. cbn [touches] in Ht.
    apply String.eqb_eq in Ht as <-. exists k. split; [set_solver|by left].
Qed.

Lemma stored_expiry now ttl v : pk_ttl_ok now ttl -> stored_value (EncodeValue (expiryOf now ttl) v) = Some (v, pk_expiry now ttl).
Proof.
  unfold pk_ttl_ok, expiryOf, pk_expiry. intros Ht. destruct (Z.leb_spec ttl 0); [by rewrite stored_encode by by left|].
  destruct Ht as [?|Ht]; [lia|]. rewrite stored_encode by by right.
  destruct (Z.eqb_spec (now + ttl) 0) as [H0|]; [|done].
  exfalso. unfold expiry_ok, unix_epoch in Ht. lia.
Qed.

(** *** The methods on strings *)

Lemma KGet_view io now (d : D) k v : 0 <= now -> KGet io now d k = Ok v -> v = str_at now d k.
Proof.
  intros Hn. unfold KGet. destruct (getString _ _ _ _) as [o|] eqn:Hg; [|done]. intros [= <-].
  apply getString_ok in Hg as ->; [|done]. by rewrite str_at_alive.
Qed.

Lemma KGet_answers now (d : D) k : 0 <= now -> str_at now d k <> None -> KGet io_ok now d k = Ok (str_at now d k).
Proof.
  intros Hn. rewrite str_at_alive. unfold KGet, getString, p_get, pk_str. simpl.
  destruct (pview d !! StringKey k) as [raw|] eqn:Hl; [|done]. intros Hs. change (Some raw ≫= stored_value) with (stored_value raw) in *.
  destruct (DecodeValue raw now) as [[[x e] ex]|] eqn:Hd.
  - by rewrite (decode_alive now raw x e ex Hn Hd).
  - exfalso. apply Hs. unfold stored_value. unfold DecodeValue in *. destruct (Nat.ltb _ _); [done|].
    by destruct (Z.eqb _ _).
Qed.

Lemma KMGet_view io now (d : D) ks vs : 0 <= now -> KMGet io now d ks = Ok vs -> vs = map (str_at now d) ks.
Proof.
  intros Hn. revert io vs. induction ks as [|k ks IH]; intros io vs; simpl; [by intros [= <-]|].
  destruct (getString _ _ _ _) as [o|] eqn:Hg; [|done]. destruct (KMGet _ _ _ _) as [l|] eqn:Hl; [|done].
  intros [= <-]. apply getString_ok in Hg as ->; [|done]. rewrite <- str_at_alive. f_equal. by eapply IH.
Qed.

Lemma KSet_call io now d k v ttl d' r :
  no_nul k -> pk_ttl_ok now ttl -> KSet io now d k v ttl = (d', r) ->
  kv_call d d' r (fun _ => holds d' k v now ttl /\ kv_set d' k = kv_set d k /\ kv_frame [k] d d').
Proof.
  intros Hk Ht Hs. eapply write_call_unit; [exact Hs|]. intros ->.
  destruct (put_string d k (expiryOf now ttl) v Hk) as (H1 & H2 & H3). rewrite stored_expiry in H1 by done. done.
Qed.

Lemma set_all_str m now entries k : Forall (fun e => no_nul (e_Key e) /\ pk_ttl_ok now (e_TTL e)) entries ->
  apply_batch m (map (fun e => PSet (StringKey (e_Key e)) (EncodeValue (expiryOf now (e_TTL e)) (e_Value e))) entries) !! StringKey k ≫= stored_value
  = after_all now entries k (m !! StringKey k ≫= stored_value).
Proof.
  intros Hall. revert m. induction Hall as [|e entries [_ Ht] Hall IH]; intros m; [done|]. unfold after_all. cbn [map foldl].
  change (apply_batch m (?w :: ?b)) with (apply_batch (apply_write m w) b). rewrite IH. cbn [apply_write]. unfold after_all. f_equal.
  destruct (String.eqb_spec (e_Key e) k) as [->|Hne]; [rewrite lookup_insert_eq; exact (stored_expiry now (e_TTL e) (e_Value e) Ht)|].
  rewrite lookup_insert_ne; [done|]. intros He. by apply str_app_inj_l in He.
Qed.

Lemma KSetAll_call io now d entries d' r :
  Forall (fun e => no_nul (e_Key e) /\ pk_ttl_ok now (e_TTL e)) entries -> KSetAll io now d entries = (d', r) ->
  kv_call d d' r (fun _ => forall k, no_nul k -> kv_str d' k = after_all now entries k (kv_str d k) /\ kv_set d' k = kv_set d k).
Proof.
  intros Hall Hs. eapply write_call_unit; [exact Hs|]. intros -> k Hk. cbn [kv_str kv_set PebbleKvOps]. split.
  - unfold pk_str. rewrite view_commit. by apply set_all_str.
  - assert (forall key, (forall k', StringKey k' <> key) -> pview (p_commit (map (fun e => PSet (StringKey (e_Key e)) (EncodeValue (expiryOf now (e_TTL e)) (e_Value e))) entries) d) !! key = pview d !! key) as Hother.
    { intros key Hne. rewrite view_commit. apply apply_batch_other. intros w (e & -> & _)%list_elem_of_fmap. cbn [touches]. apply String.eqb_neq. auto. }
    unfold pk_set. rewrite Hother by (intros; apply string_not_meta). rewrite (members_ext d); [done|]. intros m. rewrite Hother; [done|]. intros; apply string_not_member.
Qed.

Lemma KSetKeepTTL_call io now d k v d' r :
  0 <= now -> no_nul k -> KSetKeepTTL io now d k v = (d', r) ->
  kv_call d d' r (fun _ =>
    kv_str d' k = Some (v, match kv_str d k with Some (_, e) => if alive now e then e else 0 | None => 0 end) /\
    kv_set d' k = kv_set d k /\ kv_frame [k] d d').
Proof.
  intros Hn Hk Hs. unfold KSetKeepTTL in Hs. destruct (getString _ _ _ _) as [o|e] eqn:Hg.
  2:{ simplify_eq. apply refused. }
  apply getString_ok in Hg as ->; [|done]. eapply write_call_unit; [exact Hs|]. intros ->.
  set (e := match if_alive _ _ with Some _ => _ | None => _ end) in *.
  destruct (put_string d k e v Hk) as (H1 & H2 & H3). split_and!; [|done|done]. simpl. rewrite H1. unfold e, if_alive.
  destruct (pk_str d k) as [[v0 e0]|] eqn:Hp; [|by rewrite stored_encode by by left].
  destruct (alive now e0); [|by rewrite stored_encode by by left].
  unfold pk_str in Hp. destruct (pview d !! StringKey k) as [raw|]; [|done]. by eapply stored_reencode.
Qed.

Lemma KSetNX_call io now d k v ttl d' r :
  0 <= now -> no_nul k -> pk_ttl_ok now ttl -> KSetNX io now d k v ttl = (d', r) ->
  kv_call d d' r (fun set =>
    if set then str_at now d k = None /\ holds d' k v now ttl /\ kv_set d' k = kv_set d k /\ kv_frame [k] d d'
    else str_at now d k <> None /\ kv_same d d').
Proof.
  intros Hn Hk Ht Hs. unfold KSetNX in Hs. destruct (getString _ _ _ _) as [o|e] eqn:Hg.
  2:{ simplify_eq. apply refused. }
  apply getString_ok in Hg; [|done]. pose proof (str_at_alive now d k) as Hat. rewrite <- Hg in Hat.
  destruct o as [[v0 e0]|]; [simplify_eq; rewrite Hat; by split|].
  destruct (p_write _ _ _) as [d1 r1] eqn:Hw. simplify_eq. eapply write_call; [exact Hw|]. intros ->.
  destruct (put_string d k (expiryOf now ttl) v Hk) as (H1 & H2 & H3). rewrite stored_expiry in H1 by done.
  rewrite Hat. done.
Qed.

Lemma KCompareAndDelete_call io now d k v d' r :
  0 <= now -> no_nul k -> KCompareAndDelete io now d k v = (d', r) ->
  kv_call d d' r (fun deleted =>
    if deleted then str_at now d k = Some v /\ kv_str d' k = None /\ kv_set d' k = kv_set d k /\ kv_frame [k] d d'
    else str_at now d k <> Some v /\ kv_same d d').
Proof.
  intros Hn Hk Hs. unfold KCompareAndDelete in Hs. destruct (getString _ _ _ _) as [o|e] eqn:Hg.
  2:{ simplify_eq. apply refused. }
  apply getString_ok in Hg; [|done]. pose proof (str_at_alive now d k) as Hat. rewrite <- Hg in Hat.
  destruct o as [[v0 e0]|]; [|simplify_eq; rewrite Hat; by split].
  destruct (String.eqb_spec v0 v) as [->|Hne]; [|simplify_eq; rewrite Hat; split; [simpl; congruence|reflexivity]].
  destruct (p_write _ _ _) as [d1 r1] eqn:Hw. simplify_eq. eapply write_call; [exact Hw|]. intros ->.
  destruct (del_string d k Hk) as (H1 & H2 & H3). rewrite Hat. done.
Qed.

(** *** Del *)

Lemma delKey_touches k w key : w ∈ delKey k -> touches w key = true -> kv_family k key.
Proof.
  unfold delKey, kv_family. intros Hw Ht. rewrite !elem_of_cons, elem_of_nil in Hw.
  destruct Hw as [->|[->|[->|[]]]]; cbn [touches] in Ht.
  - apply String.eqb_eq in Ht. by left.
  - rewrite range_is_prefix in Ht. auto.
  - apply String.eqb_eq in Ht. by right; left.
Qed.

Lemma touched_gone m b key :
  (forall w, w ∈ b -> match w with PSet _ _ => False | _ => True end) -> (exists w, w ∈ b /\ touches w key = true) ->
  apply_batch m b !! key = None.
Proof.
  revert m. induction b as [|w b IH]; intros m Hd [w0 [Hw Ht]]; [by apply not_elem_of_nil in Hw|].
  change (apply_batch m (w :: b)) with (apply_batch (apply_write m w) b).
  assert (forall w, w ∈ b -> match w with PSet _ _ => False | _ => True end) as Hd' by (intros; apply Hd; by right).
  destruct (existsb (fun w => touches w key) b) eqn:He.
  { apply IH; [done|]. apply existsb_exists in He as (x & Hx & ?). exists x. by rewrite list_elem_of_In. }
  assert (~ exists w, w ∈ b /\ touches w key = true) as He'.
  { intros (x & Hx & Hxt). apply not_true_iff_false in He. apply He, existsb_exists. exists x. by rewrite <- list_elem_of_In. }
  clear He. rename He' into He.
  rewrite apply_batch_other by (intros x Hx; destruct (touches x key) eqn:E; [destruct He; eauto|done]).
  apply elem_of_cons in Hw as [->|Hw]; [|destruct He; eauto]. specialize (Hd w (list_elem_of_here _ _)).
  destruct w as [k' v|k'|lo hi]; [done| |]; cbn [touches apply_write] in *.
  - apply String.eqb_eq in Ht as ->. apply lookup_delete_eq.
  - apply map_lookup_filter_None. right. intros x _. simpl. congruence.
Qed.

Lemma KDel_call io now d ks d' r :
  Forall no_nul ks -> KDel io now d ks = (d', r) ->
  kv_call d d' r (fun _ => (forall k, k ∈ ks -> kv_str d' k = None /\ kv_set d' k = None) /\ kv_frame ks d d').
Proof.
  intros Hks Hd. eapply write_call_unit; [exact Hd|]. intros ->.
  assert (forall w, w ∈ List.concat (map delKey ks) <-> exists k, k ∈ ks /\ w ∈ delKey k) as Hin.
  { intros w. rewrite list_elem_of_In, in_concat. setoid_rewrite in_map_iff. setoid_rewrite <- list_elem_of_In. naive_solver. }
  assert (forall k key, k ∈ ks -> (exists w, w ∈ delKey k /\ touches w key = true) ->
    apply_batch (pview d) (List.concat (map delKey ks)) !! key = None) as Hg.
  { intros k key Hk (w & Hw & Ht). apply touched_gone.
    - intros x (k0 & _ & Hx)%Hin. unfold delKey in Hx. rewrite !elem_of_cons, elem_of_nil in Hx.
      by destruct Hx as [->|[->|[->|[]]]].
    - exists w. split; [apply Hin; eauto|done]. }
  split.
  - intros k Hk. simpl. unfold pk_str, pk_set. rewrite view_commit. split.
    + rewrite (Hg k); [done|done|]. exists (PDelete (StringKey k)). split; [set_solver|apply String.eqb_refl].
    + rewrite (Hg k); [done|done|]. exists (PDelete (setMetaKey k)). split; [set_solver|apply String.eqb_refl].
  - apply batch_frame; [done|]. intros w key (k & Hk & Hw)%Hin Ht. exists k. split; [done|]. by eapply delKey_touches.
Qed.

(** *** Expire *)

Lemma put_meta d k e : no_nul k ->
  let d' := p_commit [PSet (setMetaKey k) (EncodeValue e "")] d in
  pk_str d' k = pk_str d k /\
  pk_set d' k = ('(_, e') ← stored_value (EncodeValue e ""); Some (stored_members d k, e')) /\ kv_frame [k] d d'.
Proof.
  intros Hk. cbv zeta. split_and!.
  - unfold pk_str. rewrite view_commit. simpl. by rewrite lookup_insert_ne by apply not_eq_sym, string_not_meta.
  - unfold pk_set. rewrite view_commit. cbn [apply_batch foldl apply_write]. rewrite lookup_insert_eq.
    rewrite (members_ext d); [done|]. intros m. rewrite view_commit. cbn [apply_batch foldl apply_write].
    by rewrite lookup_insert_ne by apply meta_not_member.
  - apply batch_frame; [by repeat constructor|]. intros w key ->%list_elem_of_singleton Ht. cbn [touches] in Ht.
    apply String.eqb_eq in Ht as <-. exists k. split; [set_solver|by right; left].
Qed.

Lemma KExpire_call io now d k ttl d' r :
  0 <= now -> no_nul k -> pk_ttl_ok now ttl -> 0 < ttl -> KExpire io now d k ttl = (d', r) ->
  kv_call d d' r (fun found =>
    kv_frame [k] d d' /\
    match str_at now d k with
    | Some v => found = true /\ kv_str d' k = Some (v, kv_expiry now ttl) /\ kv_set d' k = kv_set d k
    | None => kv_str d' k = kv_str d k /\
              match kv_set d k with
              | Some (ms, e) =>
                  if alive now e then found = true /\ kv_set d' k = Some (ms, kv_expiry now ttl)
                  else found = false /\ kv_set d' k = Some (ms, e)
              | None => found = false /\ kv_set d' k = None
              end
    end).
Proof.
  intros Hn Hk Ht Hpos Hs. unfold KExpire in Hs. destruct (Z.leb_spec ttl 0); [lia|].
  destruct (getString _ _ _ _) as [o|e] eqn:Hg; [|simplify_eq; apply refused].
  apply getString_ok in Hg; [|done]. pose proof (str_at_alive now d k) as Hat. rewrite <- Hg in Hat.
  destruct o as [[v0 e0]|].
  - destruct (p_write _ _ _) as [d1 r1] eqn:Hw. simplify_eq. eapply write_call; [exact Hw|]. intros ->.
    destruct (put_string d k (expiryOf now ttl) v0 Hk) as (H1 & H2 & H3). rewrite stored_expiry in H1 by done.
    by rewrite Hat.
  - destruct (setLive _ _ _ _) as [live|e] eqn:Hl; [|simplify_eq; apply refused].
    apply setLive_ok in Hl; [|done]. rewrite Hat. simpl. destruct live.
    + destruct (p_write _ _ _) as [d1 r1] eqn:Hw. simplify_eq. eapply write_call; [exact Hw|]. intros ->.
      destruct (put_meta d k (expiryOf now ttl) Hk) as (H1 & H2 & H3). rewrite stored_expiry in H2 by done.
      split; [done|]. split; [done|]. unfold pk_set in Hl, H2 |- *.
      destruct (pview d !! setMetaKey k ≫= stored_value) as [[v1 e1]|]; [|done]. simpl in *. by rewrite <- Hl.
    + injection Hs as <- <-. split; [done|]. split; [done|]. destruct (pk_set d k) as [[ms e1]|]; [|done]. by rewrite <- Hl.
Qed.

(** The millisecond before now is no expiry a reader at [now] waits for. *)
Lemma stored_past now v : pk_ttl_ok (now - 2 * 10 ^ 6) (10 ^ 6) ->
  exists e, stored_value (EncodeValue (now - 10 ^ 6) v) = Some (v, e) /\ alive now e = false.
Proof.
  intros [?|He]; [lia|]. replace (now - 2 * 10 ^ 6 + 10 ^ 6) with (now - 10 ^ 6) in He by lia. rewrite stored_encode by by right.
  destruct (Z.eqb_spec (now - 10 ^ 6) 0) as [H0|H0]; [exfalso; unfold expiry_ok, unix_epoch in He; lia|].
  eexists. split; [done|]. unfold alive. pose proof (UnixMilli_range _ He) as Hr. unfold of_UnixMilli, UnixMilli, unix_epoch in *.
  pose proof (Z.mul_div_le (now - 10 ^ 6 - 62135596800 * 10 ^ 9) (10 ^ 6) ltac:(lia)) as Hd.
  apply orb_false_iff. split; [apply Z.eqb_neq|apply Z.ltb_ge]; lia.
Qed.

Lemma set_live_view now (d : D) k : set_live now d k = match pk_set d k with Some (_, e) => alive now e | None => false end.
Proof. done. Qed.

Lemma KExpire_now io now d k ttl d' r :
  0 <= now -> pk_ttl_ok (now - 2 * 10 ^ 6) (10 ^ 6) -> no_nul k -> ttl <= 0 -> KExpire io now d k ttl = (d', r) ->
  kv_call d d' r (fun found =>
    kv_frame [k] d d' /\ found = exists_at now d k /\
    (str_at now d' k = None /\ (str_at now d k <> None -> kv_set d' k = kv_set d k) /\
     (str_at now d k = None -> set_live now d' k = false))).
Proof.
  intros Hn Ht Hk Hneg Hs. unfold KExpire in Hs. rewrite (proj2 (Z.leb_le _ _) Hneg) in Hs.
  destruct (getString _ _ _ _) as [o|e] eqn:Hg; [|simplify_eq; apply refused].
  apply getString_ok in Hg; [|done]. pose proof (str_at_alive now d k) as Hat. rewrite <- Hg in Hat. unfold exists_at. rewrite Hat.
  destruct o as [[v0 e0]|].
  - destruct (p_write _ _ _) as [d1 r1] eqn:Hw. simplify_eq. eapply write_call; [exact Hw|]. intros ->.
    destruct (put_string d k (now - 10 ^ 6) v0 Hk) as (H1 & H2 & H3). destruct (stored_past now v0 Ht) as (e & He & Hal). rewrite He in H1.
    split_and!; [done|done| |done|done]. rewrite str_at_alive, H1. cbn. by rewrite Hal.
  - destruct (setLive _ _ _ _) as [live|e] eqn:Hl; [|simplify_eq; apply refused].
    apply setLive_ok in Hl; [|done]. rewrite <- set_live_view in Hl. rewrite <- Hl. destruct live.
    + destruct (p_write _ _ _) as [d1 r1] eqn:Hw. simplify_eq. eapply write_call; [exact Hw|]. intros ->.
      destruct (put_meta d k (now - 10 ^ 6) Hk) as (H1 & H2 & H3). destruct (stored_past now "" Ht) as (e & He & Hal). rewrite He in H2.
      split_and!; [done|done|by rewrite str_at_alive, H1, <- Hg|done|]. intros _. rewrite set_live_view, H2. exact Hal.
    + injection Hs as <- <-. split_and!; [done|done|by rewrite Hat|done|done].
Qed.

(** *** Listing *)

Lemma KExists_view io now d k b : 0 <= now -> KExists io now d k = Ok b -> b = exists_at now d k.
Proof.
  intros Hn. unfold KExists. destruct (getString _ _ _ _) as [o|] eqn:Hg; [|done]. apply getString_ok in Hg; [|done].
  unfold exists_at. rewrite str_at_alive, <- Hg. destruct o as [[v e]|]; [by intros [= <-]|]. cbn. intros Hl. by apply setLive_ok in Hl.
Qed.

Lemma decode_now now raw : 0 <= now -> (exists v e, DecodeValue raw now = Ok (v, e, false)) <-> is_Some (if_alive now (stored_value raw)).
Proof.
  intros Hn. split.
  - intros (v & e & Hd). rewrite (decode_alive _ _ _ _ _ Hn Hd). by eexists.
  - intros Hs. destruct (DecodeValue raw now) as [[[v e] x]|] eqn:Hd.
    + rewrite (decode_alive _ _ _ _ _ Hn Hd) in Hs. destruct x; [by destruct Hs|eauto].
    + exfalso. destruct Hs as [y Hy]. unfold stored_value, DecodeValue in *. destruct (Nat.ltb _ _); [done|]. by destruct (Z.eqb _ _).
Qed.

Lemma scanBase_elem f now (d : D) base prefix ks k : 0 <= now -> scanBase f now d base prefix = Ok ks ->
  k ∈ ks <-> (exists rest, k = prefix +:+ rest) /\ is_Some (if_alive now (pview d !! (base +:+ k) ≫= stored_value)).
Proof.
  intros Hn. unfold scanBase, prefixIter, read_trip. destruct f; [|done..]. intros [= <-]. rewrite list_elem_of_omap. split.
  - intros ([key raw] & Hin & Hd). apply iter_elem in Hin as [Hv Hr]. rewrite range_is_prefix in Hr. apply has_prefix_iff in Hr as [rest ->]. cbn [fst snd] in Hd.
    destruct (DecodeValue raw now) as [[[v e] []]|] eqn:Hdec; try done. injection Hd as <-. rewrite <- str_app_assoc, str_drop_app. rewrite <- str_app_assoc in Hv. rewrite Hv.
    split; [by eexists|]. apply decode_now; eauto.
  - intros [[rest ->] Hs]. destruct (pview d !! (base +:+ prefix +:+ rest)) as [raw|] eqn:Hv; [|by destruct Hs]. apply decode_now in Hs as (v & e & Hd); [|done].
    exists (base +:+ prefix +:+ rest, raw). split.
    + apply iter_elem. split; [done|]. rewrite range_is_prefix, str_app_assoc. apply has_prefix_app.
    + cbn [fst snd]. by rewrite Hd, str_drop_app.
Qed.

Lemma KScanPrefix_view io now d prefix ks : 0 <= now -> KScanPrefix io now d prefix = Ok ks ->
  forall k, k ∈ ks <-> (exists rest, k = prefix +:+ rest) /\ exists_at now d k = true.
Proof.
  intros Hn. unfold KScanPrefix. destruct (scanBase _ _ _ stringPrefix _) as [l1|] eqn:H1; [|done]. destruct (scanBase _ _ _ setMetaPrefix _) as [l2|] eqn:H2; [|done].
  intros [= <-] k. rewrite elem_of_app, (scanBase_elem _ _ _ _ _ _ k Hn H1), (scanBase_elem _ _ _ _ _ _ k Hn H2). unfold exists_at.
  rewrite orb_true_iff, bool_decide_eq_true, str_at_alive, set_live_view, fmap_is_Some. unfold pk_str, pk_set, StringKey, setMetaKey.
  destruct (pview d !! (setMetaPrefix +:+ k) ≫= stored_value) as [[v e]|]; cbn; [|destruct (pview d !! (stringPrefix +:+ k) ≫= stored_value) as [[v' e']|]; cbn; rewrite ?is_Some_alt; naive_solver].
  assert (is_Some (if alive now e then Some (v, e) else None) <-> alive now e = true) as -> by (destruct (alive now e); rewrite is_Some_alt; naive_solver). tauto.
Qed.

(** *** Sets *)

Lemma put_members m prefix ms key :
  apply_batch m (map (fun x => PSet (prefix +:+ x) "") ms) !! key =
  if decide (key ∈ map (fun x => prefix +:+ x) ms) then Some "" else m !! key.
Proof.
  revert m. induction ms as [|x ms IH]; intros m; [by rewrite decide_False by apply not_elem_of_nil|].
  change (apply_batch m (map _ (x :: ms))) with (apply_batch (<[prefix +:+ x := ""]> m) (map (fun x => PSet (prefix +:+ x) "") ms)).
  rewrite IH. cbn [map]. destruct (decide (key ∈ map _ ms)) as [Hk|Hk].
  - by rewrite decide_True by (by right).
  - destruct (decide (key = prefix +:+ x)) as [->|Hne].
    + rewrite decide_True by (by left). apply lookup_insert_eq.
    + rewrite decide_False by (intros [?|?]%elem_of_cons; done). by apply lookup_insert_ne.
Qed.

Lemma member_in k x ms : setMemberPrefix k +:+ x ∈ map (fun y => setMemberPrefix k +:+ y) ms <-> x ∈ ms.
Proof.
  rewrite list_elem_of_In, in_map_iff. split.
  - intros (y & He & Hy). apply str_app_inj_l in He as ->. by apply list_elem_of_In.
  - intros Hx. exists x. by rewrite <- list_elem_of_In.
Qed.

Lemma set_at_view now (d : D) k : set_at now d k =
  if match pk_set d k with Some (_, e) => alive now e | None => false end then stored_members d k else ∅.
Proof.
  unfold set_at. simpl. unfold pk_set. destruct (pview d !! setMetaKey k ≫= stored_value) as [[v e]|]; [|done].
  simpl. by destruct (alive now e).
Qed.

(** The batch of [SAdd], on what is under the set's keys. *)
Lemma sadd_batch (live : bool) d k ms :
  let b := ((if live then [] else [ PDeleteRange (setMemberPrefix k) (keyUpperBound (setMemberPrefix k));
                                    PSet (setMetaKey k) (EncodeValue 0 "") ])
            ++ map (fun m => PSet (setMemberPrefix k +:+ m) "") ms)%list in
  let d' := p_commit b d in
  pview d' !! StringKey k = pview d !! StringKey k /\
  pview d' !! setMetaKey k = (if live then pview d !! setMetaKey k else Some (EncodeValue 0 "")) /\
  stored_members d' k = (if live then stored_members d k else ∅) ∪ list_to_set ms /\
  (no_nul k -> kv_frame [k] d d').
Proof.
  cbv zeta. rewrite view_commit, !apply_batch_app, !put_members.
  rewrite !decide_False.
  2: { rewrite list_elem_of_In, in_map_iff. intros (y & He & _). by destruct (meta_not_member k k y). }
  2: { rewrite list_elem_of_In, in_map_iff. intros (y & He & _). by destruct (string_not_member k k y). }
  split_and!.
  - destruct live; [done|]. cbn [apply_batch foldl apply_write].
    rewrite lookup_insert_ne by apply not_eq_sym, string_not_meta.
    destruct (pview d !! StringKey k) as [v|] eqn:E; [|apply map_lookup_filter_None; by left].
    apply map_lookup_filter_Some. split; [done|]. cbn [fst]. rewrite range_is_prefix.
    destruct (has_prefix _ _) eqn:Hp; [|done]. apply has_prefix_iff in Hp as [x Hx]. by destruct (string_not_member k k x).
  - destruct live; [done|]. cbn [apply_batch foldl apply_write]. apply lookup_insert_eq.
  - apply leibniz_equiv. intros x. rewrite elem_of_union, elem_members, elem_of_list_to_set, view_commit, apply_batch_app, put_members.
    destruct (decide (_ ∈ map _ ms)) as [Hin|Hin]; rewrite member_in in Hin; [by split; [right|eauto]|].
    destruct live; [rewrite elem_members; by naive_solver|]. cbn [apply_batch foldl apply_write].
    rewrite lookup_insert_ne by apply meta_not_member. split; [|intros [?|?]; set_solver].
    intros [v [_ Hr]%map_lookup_filter_Some]. cbn [fst] in Hr. by rewrite range_is_prefix, has_prefix_app in Hr.
  - intros Hk. apply batch_frame; [by repeat constructor|]. intros w key Hw Ht. exists k. split; [set_solver|].
    apply elem_of_app in Hw as [Hw|Hw].
    + destruct live; [by apply not_elem_of_nil in Hw|]. rewrite !elem_of_cons, elem_of_nil in Hw.
      destruct Hw as [->|[->|[]]]; cbn [touches] in Ht.
      * right. right. by rewrite range_is_prefix in Ht.
      * right. left. by apply String.eqb_eq in Ht.
    + apply list_elem_of_In, in_map_iff in Hw as (x & <- & _). cbn [touches] in Ht. apply String.eqb_eq in Ht as <-.
      right. right. apply has_prefix_app.
Qed.

Lemma KSAdd_call io now d k ms d' r :
  0 <= now -> no_nul k -> ms <> [] -> KSAdd io now d k ms = (d', r) ->
  kv_call d d' r (fun _ => set_at now d' k = set_at now d k ∪ list_to_set ms /\ kv_str d' k = kv_str d k /\ kv_frame [k] d d').
Proof.
  intros Hn Hk Hms Hs. unfold KSAdd in Hs. destruct ms as [|m0 ms0]; [done|]. set (ms := m0 :: ms0) in *.
  destruct (setLive _ _ _ _) as [live|e] eqn:Hl; [|simplify_eq; apply refused].
  apply setLive_ok in Hl; [|done]. eapply write_call_unit; [exact Hs|]. intros Hd'.
  destruct (sadd_batch live d k ms) as (H1 & H2 & H3 & H4). rewrite <- Hd' in H1, H2, H3, H4.
  split_and!; [|simpl; unfold pk_str; by rewrite H1|by apply H4].
  rewrite !set_at_view. unfold pk_set in Hl |- *. rewrite H2, H3. destruct live.
  - destruct (pview d !! setMetaKey k ≫= stored_value) as [[v e]|]; [|done]. simpl in *. by rewrite <- Hl.
  - rewrite <- Hl. change (Some (EncodeValue 0 "") ≫= stored_value) with (stored_value (EncodeValue 0 "")).
    rewrite stored_encode by by left. done.
Qed.

Lemma srem_batch d k ms :
  let d1 := p_commit (map (fun m => PDelete (setMemberPrefix k +:+ m)) ms) d in
  pview d1 !! StringKey k = pview d !! StringKey k /\ pview d1 !! setMetaKey k = pview d !! setMetaKey k /\
  stored_members d1 k = stored_members d k ∖ list_to_set ms /\ (no_nul k -> kv_frame [k] d d1).
Proof.
  cbv zeta.
  assert (map (fun m => PDelete (setMemberPrefix k +:+ m)) ms = map PDelete (map (fun m => setMemberPrefix k +:+ m) ms)) as ->
    by by rewrite map_map.
  rewrite view_commit, !apply_deletes. rewrite !decide_False.
  2: { rewrite list_elem_of_In, in_map_iff. intros (y & He & _). by destruct (meta_not_member k k y). }
  2: { rewrite list_elem_of_In, in_map_iff. intros (y & He & _). by destruct (string_not_member k k y). }
  split_and!; [done|done| |].
  - apply leibniz_equiv. intros x. rewrite elem_of_difference, !elem_members, elem_of_list_to_set, view_commit, apply_deletes.
    destruct (decide (_ ∈ map _ ms)) as [Hin|Hin]; rewrite member_in in Hin; [|by naive_solver].
    split; [by intros [? ?]|by intros [_ ?]].
  - intros Hk. apply batch_frame; [by repeat constructor|]. intros w key Hw Ht. exists k. split; [set_solver|].
    apply list_elem_of_In, in_map_iff in Hw as (x & <- & Hx). apply in_map_iff in Hx as (m & <- & _). cbn [touches] in Ht.
    apply String.eqb_eq in Ht as <-. right. right. apply has_prefix_app.
Qed.

(** Deleting the meta of a set that is not live or has no members. *)
Lemma del_meta now d k : no_nul k -> set_at now d k = ∅ ->
  let d' := p_commit [PDelete (setMetaKey k)] d in
  pk_str d' k = pk_str d k /\ set_at now d' k = ∅ /\ kv_frame [k] d d'.
Proof.
  intros Hk He. cbv zeta. split_and!.
  - unfold pk_str. rewrite view_commit. cbn [apply_batch foldl apply_write].
    by rewrite lookup_delete_ne by apply not_eq_sym, string_not_meta.
  - rewrite set_at_view. unfold pk_set. rewrite view_commit. cbn [apply_batch foldl apply_write]. by rewrite lookup_delete_eq.
  - apply batch_frame; [by repeat constructor|]. intros w key ->%list_elem_of_singleton Ht. cbn [touches] in Ht.
    apply String.eqb_eq in Ht as <-. exists k. split; [set_solver|by right; left].
Qed.

Lemma frame_trans ks (a b c : D) : kv_frame ks a b -> kv_frame ks b c -> kv_frame ks a c.
Proof. intros H1 H2 k Hk Hn. destruct (H1 k Hk Hn), (H2 k Hk Hn). split; congruence. Qed.

Lemma setEmpty_ok f d k b : setEmpty f d k = Ok b -> b = bool_decide (stored_members d k = ∅).
Proof.
  unfold setEmpty, prefixIter, read_trip. intros Hs.
  destruct f; try done. injection Hs as <-.
  destruct (p_iter d _ _) as [|[key v] l] eqn:Hi.
  - symmetry. apply bool_decide_eq_true_2. unfold stored_members. by rewrite Hi.
  - symmetry. apply bool_decide_eq_false_2. unfold stored_members. rewrite Hi. simpl. set_solver.
Qed.

Lemma KSRem_call io now d k ms d' r :
  0 <= now -> no_nul k -> KSRem io now d k ms = (d', r) ->
  kv_str d' k = kv_str d k /\ kv_frame [k] d d' /\
  match r with
  | Ok _ => set_at now d' k = set_at now d k ∖ list_to_set ms
  | Err _ => set_at now d' k = set_at now d k \/ set_at now d' k = set_at now d k ∖ list_to_set ms
  end.
Proof.
  intros Hn Hk Hs. unfold KSRem in Hs. destruct ms as [|m0 ms0].
  { simplify_eq. split_and!; [done|done|]. simpl. by rewrite difference_empty_L. }
  set (ms := m0 :: ms0) in *. destruct (srem_batch d k ms) as (H1 & H2 & H3 & H4).
  set (d1 := p_commit _ d) in *.
  assert (pk_str d1 k = pk_str d k) as Hs1 by (unfold pk_str; by rewrite H1).
  assert (set_at now d1 k = set_at now d k ∖ list_to_set ms) as Hset.
  { rewrite !set_at_view. unfold pk_set. rewrite H2, H3.
    destruct (pview d !! setMetaKey k ≫= stored_value) as [[v e]|]; simpl; [destruct (alive now e)|]; [done|by rewrite empty_difference_L..]. }
  destruct (p_write _ _ d) as [d0 r0] eqn:Hw. destruct r0 as [u|e0].
  2: { simplify_eq. destruct (p_write_state (io 0%nat) (map (fun m => PDelete (setMemberPrefix k +:+ m)) ms) d) as [Hst|Hst];
       rewrite Hw in Hst; simpl in Hst; subst d'; [split_and!; [done|done|by left]|]. split_and!; [done|by apply H4|by right]. }
  destruct u. apply p_write_ok in Hw. fold d1 in Hw. subst d0.
  destruct (setLive _ now d1 k) as [live|e] eqn:Hl; [|simplify_eq; split_and!; [done|by apply H4|by right]].
  apply setLive_ok in Hl; [|done].
  destruct (if live then setEmpty (io 2%nat) d1 k else Ok true) as [[]|e] eqn:He.
  - assert (set_at now d1 k = ∅) as Hem.
    { rewrite set_at_view, <- Hl. destruct live; [|done]. apply setEmpty_ok in He.
      symmetry in He. by apply bool_decide_eq_true_1 in He. }
    destruct (del_meta now d1 k Hk Hem) as (G1 & G2 & G3).
    destruct r as [u'|e'].
    + destruct u'. apply p_write_ok in Hs as ->. split_and!; [simpl; congruence|by eapply frame_trans; [apply H4|]|congruence].
    + destruct (p_write_state (io 3%nat) [PDelete (setMetaKey k)] d1) as [Hst|Hst]; rewrite Hs in Hst; simpl in Hst; subst d'.
      * split_and!; [done|by apply H4|by right].
      * split_and!; [simpl; congruence|by eapply frame_trans; [apply H4|]|right; congruence].
  - simplify_eq. split_and!; [done|by apply H4|done].
  - simplify_eq. split_and!; [done|by apply H4|by right].
Qed.

Lemma KSMembers_view io now d k ms : 0 <= now -> KSMembers io now d k = Ok ms -> list_to_set ms = set_at now d k.
Proof.
  intros Hn. unfold KSMembers, members. destruct (setLive _ _ _ _) as [live|] eqn:Hl; [|done].
  apply setLive_ok in Hl; [|done]. rewrite set_at_view, <- Hl. destruct live; [|by intros [= <-]].
  unfold prefixIter, read_trip. destruct (io 1%nat); [|done..]. by intros [= <-].
Qed.

Lemma dropped_nodup (d : D) p : NoDup (map (fun kv => str_drop (String.length p) kv.1) (p_iter d p (keyUpperBound p))).
Proof.
  pose proof (iter_nodup d p (keyUpperBound p)) as Hnd.
  assert (forall kv, kv ∈ p_iter d p (keyUpperBound p) -> exists m, kv.1 = p +:+ m) as Hpre.
  { intros [key v] Hin. apply iter_elem in Hin as [_ Hr]. rewrite range_is_prefix in Hr. by apply has_prefix_iff in Hr. }
  induction (p_iter d p (keyUpperBound p)) as [|kv l IH]; [constructor|].
  apply NoDup_cons in Hnd as [Hni Hnd]. apply NoDup_cons. split; [|apply IH; [done|intros; apply Hpre; by right]].
  intros (kv' & He & Hin)%list_elem_of_fmap. apply Hni. destruct (Hpre kv) as [m Em]; [left|]. destruct (Hpre kv') as [m' Em']; [by right|].
  rewrite Em, Em', !str_drop_app in He. rewrite Em, He, <- Em'. by apply (list_elem_of_fmap_2 fst).
Qed.

Lemma KSCard_view io now d k n : 0 <= now -> KSCard io now d k = Ok n -> n = Z.of_nat (size (set_at now d k)).
Proof.
  intros Hn. unfold KSCard. destruct (members io now d k) as [ms|] eqn:Hm; [|done]. intros [= <-].
  pose proof (KSMembers_view io now d k ms Hn Hm) as <-. f_equal. symmetry. apply size_list_to_set.
  unfold members in Hm. destruct (setLive _ _ _ _) as [[]|]; [|injection Hm as <-; constructor|done].
  unfold prefixIter, read_trip in Hm. destruct (io 1%nat); [|done..].
  assert (ms = map (fun kv => str_drop (String.length (setMemberPrefix k)) kv.1) (p_iter d (setMemberPrefix k) (keyUpperBound (setMemberPrefix k)))) as -> by congruence.
  apply dropped_nodup.
Qed.

Lemma KSIsMember_view io now d k m b : 0 <= now -> KSIsMember io now d k m = Ok b -> b = bool_decide (m ∈ set_at now d k).
Proof.
  intros Hn. unfold KSIsMember. destruct (setLive _ _ _ _) as [live|] eqn:Hl; [|done]. apply setLive_ok in Hl; [|done]. rewrite set_at_view, <- Hl.
  destruct live; [|intros [= <-]; symmetry; apply bool_decide_false; set_solver].
  destruct (p_get _ _ _) as [v|] eqn:Hg; [|done]. apply p_get_ok in Hg as ->. intros [= <-]. pose proof (elem_members d k m) as Hm.
  destruct (pview d !! (setMemberPrefix k +:+ m)); symmetry; [apply bool_decide_true, Hm; by eexists|apply bool_decide_false]. intros [? ?]%Hm. done.
Qed.

(** ** The contract *)

Lemma pk_expiry_close now ttl : 0 < ttl -> now + ttl - 10 ^ 6 < pk_expiry now ttl <= now + ttl.
Proof.
  intros Ht. unfold pk_expiry. destruct (Z.leb_spec ttl 0); [lia|]. unfold of_UnixMilli, UnixMilli.
  pose proof (Z.div_mod (now + ttl - unix_epoch) (10 ^ 6)). pose proof (Z.mod_pos_bound (now + ttl - unix_epoch) (10 ^ 6)). lia.
Qed.

#[export] Instance PebbleKvLaws : @KvLaws D PebbleKvOps pk_ttl_ok.
Proof.
  split; simpl.
  - done.
  - intros now ttl _. apply pk_expiry_close.
  - apply KGet_view.
  - apply KGet_answers.
  - apply KMGet_view.
  - intros io now s k v ttl s' r _. apply KSet_call.
  - intros io now s entries s' r _. apply KSetAll_call.
  - apply KSetKeepTTL_call.
  - apply KSetNX_call.
  - apply KCompareAndDelete_call.
  - intros io now s ks s' r. apply (KDel_call io now).
  - apply KExpire_call.
  - apply KExpire_now.
  - apply KExists_view.
  - apply KScanPrefix_view.
  - apply KSAdd_call.
  - apply KSRem_call.
  - intros io now s k ms Hn _. by apply KSMembers_view.
  - apply KSCard_view.
  - apply KSIsMember_view.
Qed.
End Refines.

(** ** The janitor *)

Section Janitor.
Context {D : Type} `{PO : !PebbleOps D} `{PL : !PebbleLaws D}.

(** Readers at [t] see the same. *)
Definition reads_same (t : Z) (d d' : D) : Prop :=
  forall k, no_nul k -> str_at t d' k = str_at t d k /\ set_at t d' k = set_at t d k.

#[local] Instance reads_same_preorder t : PreOrder (reads_same t).
Proof.
  split; [by intros d k|]. intros a b c H1 H2 k Hk. destruct (H1 k Hk), (H2 k Hk). split; congruence.
Qed.

(** The keys of the stored sets hold no NUL. *)
Definition metas_ok (d : D) : Prop := forall k, pview d !! setMetaKey k <> None -> no_nul k.

Definition expired_at (now : Z) (d : D) (key : string) : Prop :=
  exists raw v e, pview d !! key = Some raw /\ DecodeValue raw now = Ok (v, e, true).

Lemma expiredDeletes_spec io now d base keys ws :
  expiredDeletes io now d base keys = Ok ws ->
  forall w, w ∈ ws -> exists key, key ∈ keys /\ expired_at now d key /\ PDelete key ∈ ws /\
    (w = PDelete key \/
     base = setMetaPrefix /\ w = PDeleteRange (setMemberPrefix (str_drop (String.length base) key))
                                   (keyUpperBound (setMemberPrefix (str_drop (String.length base) key)))).
Proof.
  revert io ws. induction keys as [|key keys IH]; intros io ws He w Hw; simpl in He; [simplify_eq; by apply not_elem_of_nil in Hw|].
  destruct (p_get _ _ _) as [found|] eqn:Hg; [|done]. apply p_get_ok in Hg.
  destruct (expiredDeletes _ _ _ _ keys) as [ws'|] eqn:Hr; [|done].
  assert (forall x, x ∈ ws' -> exists key', key' ∈ key :: keys /\ expired_at now d key' /\ PDelete key' ∈ ws' /\
    (x = PDelete key' \/ base = setMetaPrefix /\ x = PDeleteRange (setMemberPrefix (str_drop (String.length base) key'))
       (keyUpperBound (setMemberPrefix (str_drop (String.length base) key'))))) as IH'.
  { intros x Hx. destruct (IH _ _ Hr x Hx) as (key' & ? & ? & ? & ?). exists key'. split; [by right|done]. }
  destruct (match found with Some raw => _ | None => _ end) eqn:Hgone; injection He as <-.
  2: { destruct (IH' w Hw) as (key' & ? & ? & ? & ?). by exists key'. }
  assert (expired_at now d key) as Hx.
  { unfold expired_at. rewrite Hg in Hgone. destruct (pview d !! key) as [raw|]; [|done]. destruct (DecodeValue raw now) as [[[v e] x]|] eqn:Hdv; [|done].
    subst x. by exists raw, v, e. }
  apply elem_of_cons in Hw as [->|Hw]; [exists key; split_and!; [by left|done|by left|by left]|].
  apply elem_of_app in Hw as [Hw|Hw].
  - destruct (String.eqb_spec base setMetaPrefix) as [Hb|]; [|by apply not_elem_of_nil in Hw].
    apply list_elem_of_singleton in Hw as ->. exists key. split_and!; [by left|done|by left|right; by rewrite Hb].
  - destruct (IH' w Hw) as (key' & ? & ? & ? & ?). exists key'. split_and!; [done|done| |done].
    right. apply elem_of_app. by right.
Qed.

(** What is expired at [now] is not read at any later instant. *)
Lemma expired_dead now t d key raw : 0 <= now <= t -> expired_at now d key -> pview d !! key = Some raw ->
  if_alive t (stored_value raw) = None.
Proof.
  intros Ht (raw' & v & e & Hr & Hd) Hl. rewrite Hl in Hr. injection Hr as <-. apply decode_alive in Hd; [|lia].
  destruct (stored_value raw) as [[v0 e0]|]; [|done]. simpl in *. destruct (alive t e0) eqn:Ha; [|done].
  apply (alive_later now t) in Ha; [|lia]. by rewrite Ha in Hd.
Qed.

Lemma deletes_reads now t (d : D) base ws :
  0 <= now <= t -> metas_ok d -> base = stringPrefix \/ base = setMetaPrefix ->
  (forall w, w ∈ ws -> exists key, has_prefix base key = true /\ expired_at now d key /\ PDelete key ∈ ws /\
    (w = PDelete key \/
     base = setMetaPrefix /\ w = PDeleteRange (setMemberPrefix (str_drop (String.length base) key))
                                   (keyUpperBound (setMemberPrefix (str_drop (String.length base) key))))) ->
  reads_same t d (p_commit ws d).
Proof.
  intros Ht Hm Hbase Hws k Hk.
  assert (forall key, apply_batch (pview d) ws !! key = pview d !! key \/
    apply_batch (pview d) ws !! key = None /\ exists w, w ∈ ws /\ touches w key = true) as Hcase.
  { intros key. destruct (existsb (fun w => touches w key) ws) eqn:E.
    - right. apply existsb_exists in E as (w & Hw & Hx). apply list_elem_of_In in Hw. split; [|by exists w].
      apply touched_gone; [|by exists w]. intros x Hx'. destruct (Hws x Hx') as (? & _ & _ & _ & [->|[_ ->]]); done.
    - left. apply apply_batch_other. intros w Hw. destruct (touches w key) eqn:Hx; [|done].
      apply not_true_iff_false in E. destruct E. apply existsb_exists. exists w. by rewrite <- list_elem_of_In. }
  assert (forall key w, (forall k' x, key <> setMemberPrefix k' +:+ x) -> w ∈ ws -> touches w key = true -> expired_at now d key) as Hplain.
  { intros key w Hnm Hw Hx. destruct (Hws w Hw) as (key' & _ & He & _ & [->|[_ ->]]); cbn [touches] in Hx.
    - by apply String.eqb_eq in Hx as <-.
    - rewrite range_is_prefix in Hx. apply has_prefix_iff in Hx as [x Hx]. by destruct (Hnm _ _ Hx). }
  split.
  - rewrite !str_at_alive. unfold pk_str. rewrite view_commit.
    destruct (Hcase (StringKey k)) as [->|[-> (w & Hw & Hx)]]; [done|].
    apply Hplain in Hx; [|intros k' x; apply string_not_member|done].
    destruct Hx as (raw & v & e & Hr & Hd). rewrite Hr. simpl.
    by rewrite (expired_dead now t d (StringKey k) raw) by (done || by exists raw, v, e).
  - rewrite !set_at_view. unfold pk_set. rewrite view_commit.
    assert (forall w, w ∈ ws -> touches w (setMetaKey k) = true ->
      (if match '(_, e) ← pview d !! setMetaKey k ≫= stored_value; Some (stored_members d k, e) with
          | Some (_, e) => alive t e | None => false end then stored_members d k else ∅) = ∅) as Hdead.
    { intros w Hw Hx. apply Hplain in Hx; [|intros k' x; apply meta_not_member|done].
      destruct Hx as (raw & v & e & Hr & Hd). rewrite Hr. simpl.
      pose proof (expired_dead now t d (setMetaKey k) raw Ht) as Hdd. destruct (stored_value raw) as [[v0 e0]|]; [|done].
      simpl in *. destruct (alive t e0); [|done]. discriminate Hdd; [by exists raw, v, e|done]. }
    destruct (Hcase (setMetaKey k)) as [->|[-> (w & Hw & Hx)]]; [|symmetry; by eapply Hdead].
    destruct (existsb (fun w => touches w (setMetaKey k)) ws) eqn:E.
    { apply existsb_exists in E as (w & Hw & Hx). apply list_elem_of_In in Hw. pose proof (Hdead w Hw Hx) as He.
      rewrite He. destruct (pview d !! setMetaKey k ≫= stored_value) as [[v e]|]; [|done]. simpl in *.
      destruct (alive t e); [|done]. apply leibniz_equiv. intros x. rewrite elem_members, view_commit.
      split; [|by intros ?%not_elem_of_empty]. rewrite <- He, elem_members.
      destruct (Hcase (setMemberPrefix k +:+ x)) as [->|[-> _]]; [done|by intros [? ?]]. }
    rewrite (members_ext d); [done|]. intros x. rewrite view_commit.
    destruct (Hcase (setMemberPrefix k +:+ x)) as [->|[_ (w & Hw & Hx)]]; [done|exfalso].
    apply not_true_iff_false in E. destruct (Hws w Hw) as (key & Hp & He & Hin & [->|[-> ->]]); cbn [touches] in Hx.
    + apply String.eqb_eq in Hx as ->. by destruct Hbase as [->| ->].
    + apply has_prefix_iff in Hp as [k' ->]. rewrite str_drop_app in Hx. rewrite range_is_prefix in Hx.
      apply has_prefix_iff in Hx as [x' Hx]. apply E, existsb_exists. exists (PDelete (setMetaKey k')).
      rewrite <- list_elem_of_In. split; [done|]. cbn [touches]. apply String.eqb_eq. f_equal.
      destruct (member_inj k k' x x' Hk) as [-> _]; [|done|done]. apply Hm. destruct He as (raw & v & e & Hr & _).
      unfold setMetaKey. by rewrite Hr.
Qed.

Lemma only_deletes_metas (d : D) ws :
  (forall w, w ∈ ws -> match w with PSet _ _ => False | _ => True end) -> metas_ok d -> metas_ok (p_commit ws d).
Proof.
  intros Hd Hm k Hk. apply Hm. rewrite view_commit in Hk.
  destruct (existsb (fun w => touches w (setMetaKey k)) ws) eqn:E.
  - apply existsb_exists in E as (w & Hw & Hx). apply list_elem_of_In in Hw. rewrite touched_gone in Hk; [done|done|by exists w].
  - rewrite apply_batch_other in Hk; [done|]. intros w Hw. destruct (touches w _) eqn:Hx; [|done].
    apply not_true_iff_false in E. destruct E. apply existsb_exists. exists w. by rewrite <- list_elem_of_In.
Qed.

Lemma deleteIfExpired_reads f io now t d base keys d' r :
  0 <= now <= t -> metas_ok d -> base = stringPrefix \/ base = setMetaPrefix ->
  Forall (fun key => has_prefix base key = true) keys ->
  deleteIfExpired f io now d base keys = (d', r) -> reads_same t d d' /\ metas_ok d'.
Proof.
  intros Ht Hm Hb Hkeys. unfold deleteIfExpired. destruct (expiredDeletes _ _ _ _ _) as [ws|] eqn:He; [|by intros [= <- <-]].
  pose proof (expiredDeletes_spec _ _ _ _ _ _ He) as Hws.
  assert (reads_same t d (p_commit ws d) /\ metas_ok (p_commit ws d)) as Hc.
  { split.
    - apply (deletes_reads now t d base ws Ht Hm Hb). intros w Hw. destruct (Hws w Hw) as (key & Hin & H). exists key.
      split; [|done]. exact (proj1 (Forall_forall _ _) Hkeys _ Hin).
    - apply only_deletes_metas; [|done]. intros w Hw. by destruct (Hws w Hw) as (? & _ & _ & _ & [->|[_ ->]]). }
  destruct ws as [|w ws]; [by intros [= <- <-]|]. intros Hw. set (b := w :: ws) in *.
  destruct (p_write_state f b d) as [Hs|Hs]; rewrite Hw in Hs; simpl in Hs; by subst d'.
Qed.

Lemma deleteChunks_reads fuel cs now t d base keys d' r :
  0 <= now <= t -> metas_ok d -> base = stringPrefix \/ base = setMetaPrefix ->
  Forall (fun key => has_prefix base key = true) keys ->
  deleteChunks fuel cs now d base keys = (d', r) -> reads_same t d d' /\ metas_ok d'.
Proof.
  intros Ht. revert cs d keys. induction fuel as [|fuel IH]; intros cs d keys Hm Hb Hk Hd; [by injection Hd as <- <-|].
  destruct keys as [|k0 keys]; [by injection Hd as <- <-|]. set (ks := k0 :: keys) in *. cbn [deleteChunks] in Hd.
  destruct (deleteIfExpired _ _ _ _ _ _) as [d1 r1] eqn:H1.
  apply (deleteIfExpired_reads _ _ _ t) in H1 as [Hr1 Hm1]; [|done..|by apply Forall_take].
  destruct r1 as [u|e]; [|by injection Hd as <- <-]. apply IH in Hd as [Hr2 Hm2]; [|done..|by apply Forall_drop].
  split; [by etransitivity|done].
Qed.

Lemma expiredKeys_prefix f now (d : D) base keys : expiredKeys f now d base = Ok keys -> Forall (fun key => has_prefix base key = true) keys.
Proof.
  unfold expiredKeys, prefixIter, read_trip. destruct f; try done. intros [= <-].
  apply Forall_forall. intros key Hin. rewrite list_elem_of_In, in_map_iff in Hin. destruct Hin as ([k v] & <- & Hin).
  apply filter_In in Hin as [Hin _]. apply list_elem_of_In, iter_elem in Hin as [_ Hr]. by rewrite range_is_prefix in Hr.
Qed.

Lemma deleteExpired_reads io cs1 cs2 between now t d d' r :
  0 <= now <= t -> metas_ok (between d) -> deleteExpired io cs1 cs2 between now d = (d', r) ->
  d' = d \/ reads_same t (between d) d'.
Proof.
  intros Ht Hm. unfold deleteExpired. destruct (expiredKeys _ _ _ stringPrefix) as [strs|] eqn:Hs; [|intros [= <- <-]; by left].
  destruct (expiredKeys _ _ _ setMetaPrefix) as [metas|] eqn:Hme; [|intros [= <- <-]; by left].
  apply expiredKeys_prefix in Hs, Hme. intros Hd. right. destruct (deleteChunks _ cs1 _ _ _ _) as [d1 r1] eqn:H1.
  apply (deleteChunks_reads _ _ _ t) in H1 as [Hr1 Hm1]; [|by auto..].
  destruct r1 as [u|e]; [|by injection Hd as <- <-].
  apply (deleteChunks_reads _ _ _ t) in Hd as [Hr2 _]; [by etransitivity|by auto..].
Qed.
End Janitor.

(** ** Claims *)

Section Claims.
Context {D : Type} `{PO : !PebbleOps D} `{PL : !PebbleLaws D}.

(** C38. The embedded store keeps the key-value contract the relay meter, the
    caches and the registries are written against: Get and MGet read the live
    value, Exists and ScanPrefix find the live keys and no others; Set, SetAll,
    SetKeepTTL and Expire keep a value and its expiry to the millisecond, and
    Expire with a TTL that is not positive takes the key away; SetNX writes only
    an absent key and CompareAndDelete deletes only the expected value, Del
    removes strings and sets; SAdd, SRem, SMembers, SCard and SIsMember act on
    the live set, an expired set starting empty. Each call touches its own keys
    only and, when a round trip fails, a write did all of it or nothing (SRem:
    the removal). Keys hold no NUL byte, and an expiry lies between the epoch and
    the last instant the clock can show. The publish side of the interface
    (Publish, Subscribe) is no part of it. *)
Theorem kv_pebble_contract : @KvLaws D PebbleKvOps pk_ttl_ok.
Proof. apply PebbleKvLaws. Qed.

(** The janitor is invisible. It lists the expired keys without the store's
    lock and deletes them later in chunks, re-reading each one: whatever other
    writers did in between, and wherever a round trip failed, every string and
    every set reads, from the instant of its scan on, as if it had not run. *)
Theorem janitor_invisible (io : Io) (cs1 cs2 : nat -> Io) (between : D -> D) (now t : Z) (d d' : D) (r : result unit StoreErr) (k : string) :
  0 <= now <= t -> metas_ok (between d) -> no_nul k ->
  deleteExpired io cs1 cs2 between now d = (d', r) ->
  d' = d \/ (str_at t d' k = str_at t (between d) k /\ set_at t d' k = set_at t (between d) k).
Proof.
  intros Ht Hm Hk Hd. destruct (deleteExpired_reads _ _ _ _ _ t _ _ _ Ht Hm Hd) as [?|Hr]; [by left|right]. by apply Hr.
Qed.
End Claims.

Module KvExample.
(** A clock after the Unix epoch. *)
Definition T (s : Z) : Z := 1000 * 10 ^ 9 * 10 ^ 6 + unix_epoch + s * 10 ^ 9.

Definition db_0 : gmap string string := ∅.
Definition db_1 := fst (KSetNX io_ok (T 0) db_0 "lock" "me" (10 * 10 ^ 9)).
Definition db_2 := fst (KSAdd io_ok (T 1) db_1 "set" ["a"; "b"]).
Definition db_3 := fst (KExpire io_ok (T 1) db_2 "set" (2 * 10 ^ 9)).

(** A lock is taken once until it expires. *)
Lemma kv_pebble_contract_witness :
  str_at (T 1) db_1 "lock" = Some "me" /\ snd (KSetNX io_ok (T 1) db_1 "lock" "you" (10 * 10 ^ 9)) = Ok false /\
  str_at (T 11) db_1 "lock" = None /\ set_at (T 2) db_3 "set" = {["a"; "b"]} /\
  @KvLaws (gmap string string) PebbleKvOps pk_ttl_ok.
Proof. split_and!; [vm_compute; reflexivity..|]. apply kv_pebble_contract. Defined.

Definition io_k : nat -> Io := fun _ => io_ok.

(** The set expired at 3s; the scan at 4s finds it, and before the delete
    another writer starts it again. *)
Definition readd (d : gmap string string) : gmap string string := fst (KSAdd io_ok (T 4) d "set" ["c"]).
Definition swept := deleteExpired io_ok io_k io_k readd (T 4) db_3.

Lemma metas_check (m : gmap string string) :
  forallb (fun kv => negb (has_prefix setMetaPrefix kv.1) || negb (has_char "000" (str_drop (String.length setMetaPrefix) kv.1)))
    (map_to_list m) = true -> metas_ok m.
Proof.
  intros Hf k Hk. destruct (pview m !! setMetaKey k) as [v|] eqn:E; [|done]. rewrite forallb_forall in Hf.
  specialize (Hf (setMetaKey k, v)). rewrite <- list_elem_of_In in Hf. specialize (Hf (proj2 (elem_of_map_to_list _ _ _) E)).
  cbn [fst] in Hf. unfold setMetaKey in Hf. rewrite has_prefix_app, str_drop_app in Hf. simpl in Hf. by apply negb_true_iff in Hf.
Qed.

Lemma metas_3 : metas_ok (readd db_3).
Proof. apply metas_check. vm_compute. reflexivity. Qed.

Lemma janitor_invisible_witness :
  set_at (T 5) (fst swept) "set" = {["c"]} /\
  (fst swept = db_3 \/ str_at (T 5) (fst swept) "set" = str_at (T 5) (readd db_3) "set" /\
    set_at (T 5) (fst swept) "set" = set_at (T 5) (readd db_3) "set").
Proof.
  split; [vm_compute; reflexivity|].
  apply (janitor_invisible io_ok io_k io_k readd (T 4) (T 5) db_3 (fst swept) (snd swept) "set").
  - split; vm_compute; discriminate.
  - exact metas_3.
  - reflexivity.
  - apply surjective_pairing.
Defined.
End KvExample.
