(* ===== verification/PebbleBroker.v ===== *)
(** * The publishing side of the standalone queue (transport/pebblequeue/queue.go)

    Broker: minting an ID and committing the entry with it, the meter charges
    every commit carries, and the health a relayer reads before it admits.
    Everything runs under the broker's mutex, so a call is one step. The relay
    meter's ledger is in a world [W] the meter and the broker share: the broker
    takes charges from it and reports what was written. *)

From S2P Require Import Prelude SessionState StoreSpec ChargeLedger PebbleModel PebbleQueue KvPebble.
From Stdlib Require Import Ascii String.

Local Open Scope string_scope.
Local Open Scope Z_scope.

Definition defaultProbeInterval : Z := 10 ^ 9.

(** The broker's own state; [b_commitErr] is the last commit's failure. *)
Record Broker (D : Type) := mkBroker {
  b_db : D;
  b_streams : gmap string stream;
  b_commitErr : option StoreErr;
  b_lastProbe : Z;
  b_probeInterval : Z
}.
Arguments mkBroker {D}.
Arguments b_db {D}.
Arguments b_streams {D}.
Arguments b_commitErr {D}.
Arguments b_lastProbe {D}.
Arguments b_probeInterval {D}.

Definition NewBroker {D} (d : D) : Broker D := mkBroker d ∅ None 0 defaultProbeInterval.

Definition set_bdb {D} (d : D) (b : Broker D) : Broker D :=
  mkBroker d (b_streams b) (b_commitErr b) (b_lastProbe b) (b_probeInterval b).
Definition set_stream {D} (name : string) (st : stream) (b : Broker D) : Broker D :=
  mkBroker (b_db b) (<[name := st]> (b_streams b)) (b_commitErr b) (b_lastProbe b) (b_probeInterval b).
Definition noteCommit {D} (err : option StoreErr) (b : Broker D) : Broker D :=
  mkBroker (b_db b) (b_streams b) err (b_lastProbe b) (b_probeInterval b).

(** [commitHealth]: whether the caller should probe now, and the last commit's
    failure. [now = 0] is the zero time. *)
Definition commitHealth {D} (now : Z) (b : Broker D) : Broker D * (bool * option StoreErr) :=
  match b_commitErr b with
  | None => (b, (false, None))
  | Some e =>
      if (now =? 0) || (now - b_lastProbe b <? b_probeInterval b) then (b, (false, Some e))
      else (mkBroker (b_db b) (b_streams b) (b_commitErr b) now (b_probeInterval b), (true, Some e))
  end.

Section Broker.
Context {D : Type} `{PO : !PebbleOps D}.
Context {W : Type}.

(** The ledger in the world, nil or not; an update of it; what [OnWritten]
    installed. *)
Variable ledger : W -> option ChargeLedger.
Variable onLedger : (ChargeLedger -> ChargeLedger) -> W -> W.
Variable written : option (string -> Z -> Z -> W -> W).

(** [streamLocked] *)
Definition streamLocked (f : Fault) (name : string) (b : Broker D) : Broker D * result stream StoreErr :=
  match b_streams b !! name with
  | Some st => (b, Ok st)
  | None =>
      match p_get f (b_db b) (lastIDKey name) with
      | Err e => (b, Err e)
      | Ok v => let st := loadStream v in (set_stream name st b, Ok st)
      end
  end.

(** [counterLocked]: the counter's value and expiry; absent or expired is 0. *)
Definition counterLocked (f : Fault) (now : Z) (d : D) (key : string) : result (Z * Z) StoreErr :=
  match p_get f d (StringKey key) with
  | Err e => Err e
  | Ok None => Ok (0, 0)
  | Ok (Some raw) =>
      match DecodeValue raw now with
      | Err e => Err e
      | Ok (value, expiry, expired) =>
          if expired then Ok (0, 0)
          else match ParseInt value with
               | None => Err ErrDecode
               | Some n => Ok (n, expiry)
               end
      end
  end.

(** The loop over the charges: their writes and each counter's new value. *)
Fixpoint chargeLoop (io : Io) (now : Z) (d : D) (charges : list Charge) : result (list pwrite * list Z) StoreErr :=
  match charges with
  | [] => Ok ([], [])
  | c :: rest =>
      match counterLocked (io 0%nat) now d (ch_Key c) with
      | Err e => Err e
      | Ok (current, expiry) =>
          let expiry := if (expiry =? 0) && (0 <? ch_TTL c) then now + ch_TTL c else expiry in
          let consumed := wrap64 (current + ch_Amount c) in
          match chargeLoop (io_next 1 io) now d rest with
          | Err e => Err e
          | Ok (ws, ns) => Ok (PSet (StringKey (ch_Key c)) (EncodeValue expiry (format_int consumed)) :: ws, consumed :: ns)
          end
      end
  end.

Definition untakeAll (charges : list Charge) (w : W) : W :=
  foldl (fun w c => onLedger (untake c) w) w charges.

Definition reportAll (charges : list Charge) (consumed : list Z) (w : W) : W :=
  foldl (fun w cn => commit onLedger written cn.1 cn.2 w) w (zip charges consumed).

(** The rest of [commitWithCharges] with the charges taken: they are read,
    written with [fill] in one batch, and reported or put back. *)
Definition commitTaken (io : Io) (now : Z) (fill : list pwrite) (charges : list Charge) (b : Broker D) (w1 : W)
  : Broker D * W * result unit StoreErr :=
  match chargeLoop (io_next 1 io) now (b_db b) charges with
  | Err e => (noteCommit (Some e) b, untakeAll charges w1, Err e)
  | Ok (ws, consumed) =>
      match p_write (io 0%nat) (fill ++ ws)%list (b_db b) with
      | (d', Err e) => (noteCommit (Some e) (set_bdb d' b), untakeAll charges w1, Err e)
      | (d', Ok _) => (noteCommit None (set_bdb d' b), reportAll charges consumed w1, Ok tt)
      end
  end.

(** [commitWithCharges]: one batch of what [fill] writes and the charges served
    so far; with nothing to write, none. *)
Definition commitWithCharges (io : Io) (now : Z) (fill : option (list pwrite)) (b : Broker D) (w : W)
  : Broker D * W * result unit StoreErr :=
  let '(w1, charges) :=
    match ledger w with
    | None => (w, [])
    | Some l => (onLedger (fun l => fst (takeAll l)) w, snd (takeAll l))
    end in
  match fill, charges with
  | None, [] => (b, w1, Ok tt)
  | _, _ => commitTaken io now (default [] fill) charges b w1
  end.

(** What a publish writes besides the charges. *)
Definition entryWrites (name data : string) (st : stream) : list pwrite :=
  [ PSet (entryKey name (st_lastMS st) (st_lastSeq st)) data;
    PSet (lastIDKey name) (encodeID (st_lastMS st) (st_lastSeq st)) ].

(** [publish]: the minted ID is given back when the commit failed. *)
Definition publish (io : Io) (now : Z) (name data : string) (b : Broker D) (w : W)
  : Broker D * W * result stream StoreErr :=
  match streamLocked (io 0%nat) name b with
  | (b1, Err e) => (noteCommit (Some e) b1, w, Err e)
  | (b1, Ok st) =>
      let st1 := next st now in
      match commitWithCharges (io_next 1 io) now (Some (entryWrites name data st1)) (set_stream name st1 b1) w with
      | (b2, w2, Err e) => (set_stream name st b2, w2, Err e)
      | (b2, w2, Ok _) => (b2, w2, Ok st1)
      end
  end.

(** [flushCharges] *)
Definition flushCharges (io : Io) (now : Z) (b : Broker D) (w : W) : Broker D * W * result unit StoreErr :=
  match ledger w with
  | None => (b, w, Ok tt)
  | Some _ => commitWithCharges io now None b w
  end.

(** [DispatcherHealthy]: the answer, after a probe when one is due. *)
Definition DispatcherHealthy (io : Io) (now : Z) (b : Broker D) (w : W) : Broker D * W * option StoreErr :=
  match commitHealth now b with
  | (b1, (false, err)) => (b1, w, err)
  | (b1, (true, _)) =>
      let '(b2, w2, _) := commitWithCharges io now (Some [PSet probeKey ""]) b1 w in
      (b2, w2, (commitHealth 0 b2).2.2)
  end.

(** [Publisher]: [Publish] after [PrepareEntry] accepted the relay, [Close]. *)
Record Publisher := mkPublisher { p_closed : bool }.

Inductive PublishErr := PErrClosed | PErrStore (e : StoreErr).

Definition Publish (io : Io) (now : Z) (name data : string) (p : Publisher) (b : Broker D) (w : W)
  : Broker D * W * result unit PublishErr :=
  if p_closed p then (b, w, Err PErrClosed)
  else match publish io now name data b w with
       | (b1, w1, Err e) => (b1, w1, Err (PErrStore e))
       | (b1, w1, Ok _) => (b1, w1, Ok tt)
       end.

Definition ClosePublisher (io : Io) (now : Z) (p : Publisher) (b : Broker D) (w : W)
  : Publisher * Broker D * W * result unit StoreErr :=
  if p_closed p then (p, b, w, Ok tt)
  else let '(b1, w1, r) := flushCharges io now b w in (mkPublisher true, b1, w1, r).
End Broker.
