(* ===== verification/PebbleQueueTrace.v ===== *)
(** * The life of one supplier's queue in a standalone process

    The broker of queue.go and the consumer of consumer.go over one database,
    interleaved with the rest of the process. Every operation keeps the queue's
    invariant: the stored entries carry IDs up to the stream's last one, the
    broker's cached ID is the stored one, and every entry that decodes is ahead
    of the cursor, pending or handed back. *)

From S2P Require Import Prelude SessionState StoreSpec ChargeLedger PebbleModel PebbleQueue KvPebble PebbleBroker.
From Stdlib Require Import Ascii String.

Local Open Scope string_scope.
Local Open Scope Z_scope.

(** ** The queue's own keys *)

Definition queue_key (name k : string) : Prop := has_prefix (entryPrefixOf name) k = true \/ k = lastIDKey name.

Lemma entry_prefix_key name ms seq : has_prefix (entryPrefixOf name) (entryKey name ms seq) = true.
Proof. apply has_prefix_app. Qed.

Lemma last_not_entry name name' : has_prefix (entryPrefixOf name) (lastIDKey name') = false.
Proof. done. Qed.

Lemma string_not_queue name k : ~ queue_key name (StringKey k).
Proof. by intros [?|?]. Qed.

Lemma probe_not_queue name : ~ queue_key name probeKey.
Proof. by intros [?|?]. Qed.

Lemma nul_split a b x y : no_nul a -> no_nul b ->
  a +:+ String "000" x = b +:+ String "000" y -> a = b /\ x = y.
Proof.
  intros Ha Hb He. apply (f_equal (str_cut "000")) in He.
  rewrite !str_cut_app in He by done. by injection He.
Qed.

Lemma entry_other name name' ms seq : no_nul name -> no_nul name' ->
  has_prefix (entryPrefixOf name) (entryKey name' ms seq) = true -> name = name'.
Proof.
  intros Hn Hn' [raw He]%has_prefix_iff. unfold entryKey, entryPrefixOf in He.
  rewrite <- !str_app_assoc in He. apply str_app_inj_l in He.
  symmetry in He. by apply nul_split in He as [? _].
Qed.

Lemma last_inj name name' : lastIDKey name = lastIDKey name' -> name = name'.
Proof. apply str_app_inj_l. Qed.

Lemma trim_spares_last name upper : in_range (entryPrefixOf name) (Some (entryPrefixOf name +:+ upper)) (lastIDKey name) = false.
Proof. done. Qed.

(** ** The invariant *)

Section Queue.
Context {D : Type} `{PO : !PebbleOps D} `{PL : !PebbleLaws D}.
Context {M W : Type}.
Variable Unmarshal : string -> option M.
Variable name : string.
Hypothesis Hname : no_nul name.

Abbreviation last_of d := (loadStream (pview d !! lastIDKey name)).

Definition minted (d : D) (ms seq : Z) : Prop :=
  in_uint64 ms /\ in_uint64 seq /\ id_ltb (st_lastMS (last_of d), st_lastSeq (last_of d)) (ms, seq) = false.

(** The stored entries carry minted IDs. *)
Definition entries_ok (d : D) : Prop :=
  forall k, has_prefix (entryPrefixOf name) k = true -> is_Some (pview d !! k) ->
  exists ms seq, minted d ms seq /\ k = entryKey name ms seq.

Definition cache_ok (b : Broker D) : Prop :=
  forall st, b_streams b !! name = Some st -> st = last_of (b_db b).

(** Every ID still to be minted is ahead of the cursor. *)
Definition cursor_ok (d : D) (c : Consumer) : Prop :=
  forall ms seq, in_uint64 ms -> in_uint64 seq -> ~ minted d ms seq -> ahead c (entryKey name ms seq).

Variable ledger : W -> option ChargeLedger.
Variable onLedger : (ChargeLedger -> ChargeLedger) -> W -> W.
Variable written : option (string -> Z -> Z -> W -> W).

Section Kept.
(** The IDs failed trims took out of pending. *)
Variable lost : gset string.

Record queue_ok (b : Broker D) (c : Consumer) : Prop := {
  qo_stream : c_stream c = name;
  qo_entries : entries_ok (b_db b);
  qo_cache : cache_ok b;
  qo_at : forall k, cursor c = Some k -> has_prefix (entryPrefixOf name) k = true;
  qo_cursor : cursor_ok (b_db b) c;
  qo_covered : covered Unmarshal lost (b_db b) c
}.

Lemma loadStream_range v : in_uint64 (st_lastMS (loadStream v)) /\ in_uint64 (st_lastSeq (loadStream v)).
Proof.
  unfold loadStream. destruct v as [v|]; [|by split; vm_compute].
  destruct (Nat.eqb_spec (String.length v) idLen) as [Hl|]; [|by split; vm_compute]. unfold idLen in Hl. cbn [st_lastMS st_lastSeq].
  split; apply Uint64_range; [rewrite str_take_length|rewrite str_drop_length]; lia.
Qed.

Lemma loadStream_encode st : in_uint64 (st_lastMS st) -> in_uint64 (st_lastSeq st) ->
  loadStream (Some (encodeID (st_lastMS st) (st_lastSeq st))) = st.
Proof.
  intros Hm Hs. unfold loadStream. rewrite encodeID_length, Nat.eqb_refl.
  destruct (encodeID_split _ _ Hm Hs) as [-> ->]. by destruct st.
Qed.

(** ** Writes that are not the queue's *)

Definition queue_same (d d' : D) : Prop := forall k, queue_key name k -> pview d' !! k = pview d !! k.

Definition queue_shrinks (d d' : D) : Prop :=
  shrinks d d' /\ pview d' !! lastIDKey name = pview d !! lastIDKey name.

#[global] Instance queue_shrinks_preorder : PreOrder queue_shrinks.
Proof.
  split; unfold queue_shrinks, shrinks; [by intros d|].
  intros a b c [? ?] [? ?]. split; [by etransitivity|congruence].
Qed.

Lemma minted_ext d d' ms seq : pview d' !! lastIDKey name = pview d !! lastIDKey name -> minted d' ms seq <-> minted d ms seq.
Proof. unfold minted. by intros ->. Qed.

Lemma queue_same_ok b b' c :
  queue_same (b_db b) (b_db b') -> b_streams b' !! name = b_streams b !! name -> queue_ok b c -> queue_ok b' c.
Proof.
  intros Hs Hb [Hst He Hca Hat Hcu Hco]. assert (pview (b_db b') !! lastIDKey name = pview (b_db b) !! lastIDKey name) as Hl by (apply Hs; by right).
  split; [done|..].
  - intros k Hk Hv. rewrite Hs in Hv by by left. destruct (He k Hk Hv) as (ms & seq & ? & ->).
    exists ms, seq. by rewrite minted_ext.
  - intros st. rewrite Hb, Hl. apply Hca.
  - done.
  - intros ms seq Hm Hq Hn. apply Hcu; [done..|]. by rewrite <- (minted_ext _ _ _ _ Hl).
  - eapply covered_weaken; [exact Hco|]. rewrite Hst. intros ms seq (? & ? & v & Hv & ?).
    rewrite Hs in Hv by (left; apply entry_prefix_key). split_and!; [done..|]. by exists v.
Qed.

(** A consumer's operation removes entries and moves the cursor only as far
    as a stored key. *)
Lemma queue_shrinks_ok b d' c c' :
  queue_shrinks (b_db b) d' -> c_stream c' = c_stream c ->
  (cursor c' = cursor c \/ exists k, cursor c' = Some k /\ has_prefix (entryPrefixOf name) k = true /\ is_Some (pview (b_db b) !! k)) ->
  covered Unmarshal lost d' c' -> queue_ok b c -> queue_ok (set_bdb d' b) c'.
Proof.
  intros [Hs Hl] Hst' Hcur Hco' [Hst He Hca Hat Hcu Hco]. split; cbn [set_bdb b_db b_streams].
  - congruence.
  - intros k Hk [v Hv]. destruct (He k Hk) as (ms & seq & ? & ->).
    { exists v. by apply (lookup_weaken _ _ _ _ Hv). }
    exists ms, seq. by rewrite minted_ext.
  - intros st. unfold cache_ok in Hca. cbn [set_bdb b_db b_streams]. rewrite Hl. apply Hca.
  - intros k Hk. destruct Hcur as [Hc | (k0 & Hc & Hk0 & _)]; [apply Hat; congruence|congruence].
  - intros ms seq Hm Hq Hn. rewrite (minted_ext _ _ _ _ Hl) in Hn. unfold ahead.
    destruct Hcur as [-> | (k & -> & Hk & Hv)]; [by apply Hcu|].
    destruct (He k Hk Hv) as (km & ks & (Hkm & Hks & Hlt) & ->). unfold bytes_lt. rewrite entryKey_order by done.
    unfold minted in Hn. destruct (id_ltb _ (ms, seq)) eqn:Hlt2; [|exfalso; apply Hn; by split_and!].
    unfold id_ltb in *. simpl in *. clear -Hlt Hlt2.
    repeat match goal with |- context [?a <? ?b] => destruct (Z.ltb_spec a b)
      | |- context [?a =? ?b] => destruct (Z.eqb_spec a b) end; simpl; try done;
    exfalso; repeat match goal with H : context [?a <? ?b] |- _ => destruct (Z.ltb_spec a b)
      | H : context [?a =? ?b] |- _ => destruct (Z.eqb_spec a b) end; simpl in *; try done; lia.
  - done.
Qed.

(** ** What the consumer's operations write *)

Lemma shrink_key f k d : has_prefix entryPrefix k = true -> queue_shrinks d (fst (p_write f [PDelete k] d)).
Proof.
  intros Hk. split; [apply write_shrinks|].
  destruct (p_write_state f [PDelete k] d) as [-> | ->]; [done|]. rewrite view_commit. cbn [apply_batch foldl apply_write].
  apply lookup_delete_ne. by eapply prefix_ne.
Qed.

Lemma c_key_prefix c id k : c_key c id = Some k -> has_prefix entryPrefix k = true.
Proof.
  unfold c_key. destruct (parseID id) as [[ms seq]|]; [|done]. intros [= <-].
  unfold c_prefix, entryPrefixOf. rewrite <- !str_app_assoc. apply has_prefix_app.
Qed.

Lemma drop_shrinks f d c id : queue_shrinks d (fst (dropUndecodable f d c id)).
Proof.
  unfold dropUndecodable. destruct (c_key c id) as [k|] eqn:Hk; [|reflexivity].
  apply shrink_key. by eapply c_key_prefix.
Qed.

Lemma read_shrinks f1 f2 d c id d' c' r :
  readLocked Unmarshal f1 f2 d c id = (d', c', r) -> queue_shrinks d d' /\ c_stream c' = c_stream c /\ cursor c' = cursor c.
Proof.
  intros Hr. pose proof (readLocked_frame _ _ _ _ _ _ _ _ _ Hr) as (-> & -> & _). split; [|done].
  unfold readLocked in Hr. destruct (c_key c id) as [k|]; [|by simplify_eq].
  destruct (p_get f1 d k) as [[v|]|e]; [|by simplify_eq..].
  destruct (decode Unmarshal c id v); [by simplify_eq|]. pose proof (drop_shrinks f2 d c id) as Hd.
  destruct (dropUndecodable f2 d c id). by simplify_eq.
Qed.

Lemma released_shrinks io now d c l out nd d' c' out' nd' e :
  releasedLoop Unmarshal io now d c l out nd = (d', c', out', nd', e) -> queue_shrinks d d'.
Proof.
  revert io d c out nd. induction l as [|[id due] l IH]; intros io d c out nd Hl; simpl in Hl; [by simplify_eq|].
  destruct (now <? due); [by apply IH in Hl|].
  destruct (readLocked _ _ _ _ _ _) as [[d1 c1] [[msg|]|err]] eqn:Hr; apply read_shrinks in Hr as [Hr _].
  1-2: apply IH in Hl; by etransitivity.
  by simplify_eq.
Qed.

Lemma iter_shrinks io d c entries out d' c' out' :
  iterLoop Unmarshal io d c entries out = (d', c', out') ->
  queue_shrinks d d' /\ c_stream c' = c_stream c /\ (cursor c' = cursor c \/ exists k, cursor c' = Some k /\ k ∈ entries.*1).
Proof.
  revert io d c out. induction entries as [|[k v] entries IH]; intros io d c out Hl; simpl in Hl; [simplify_eq; split_and!; [reflexivity|auto..]|].
  destruct (Nat.ltb _ _); [|simplify_eq; split_and!; [reflexivity|auto..]].
  assert (forall d1 c1 io' out1, queue_shrinks d d1 -> c_stream c1 = c_stream c -> cursor c1 = Some k ->
    iterLoop Unmarshal io' d1 c1 entries out1 = (d', c', out') ->
    queue_shrinks d d' /\ c_stream c' = c_stream c /\
    (cursor c' = cursor c \/ exists k0, cursor c' = Some k0 /\ k0 ∈ k :: entries.*1)) as Hgo.
  { intros d1 c1 io' out1 Hs Hst Hcu Hi. apply IH in Hi as (Hs' & Hst' & Hcu'). split_and!; [by etransitivity|congruence|].
    right. destruct Hcu' as [Hc|(k0 & Hc & Hin)]; [exists k; split; [congruence|left]|exists k0; split; [done|by right]]. }
  destruct (idOfKey _ _) as [id|]; [|by apply Hgo in Hl].
  destruct (decode _ _ _ _); [by apply Hgo in Hl|].
  pose proof (drop_shrinks (io 0%nat) d (set_cursor k c) id) as Hd. unfold dropUndecodable in *.
  destruct (c_key _ _) as [key|]; [|by apply Hgo in Hl]. by apply Hgo in Hl.
Qed.

Lemma nextBatch_frame io1 io2 failIter cut now d c d' c' out nd e :
  c_stream c = name -> (forall k, cursor c = Some k -> has_prefix (entryPrefixOf name) k = true) ->
  nextBatch Unmarshal io1 io2 failIter cut now d c = (d', c', out, nd, e) ->
  queue_shrinks d d' /\ c_stream c' = c_stream c /\
  (cursor c' = cursor c \/ exists k, cursor c' = Some k /\ has_prefix (entryPrefixOf name) k = true /\ is_Some (pview d !! k)).
Proof.
  intros Hst Hat Hn. unfold nextBatch in Hn. destruct (releasedLoop _ _ _ _ _ _ _ _) as [[[[d1 c1] out1] nd1] e1] eqn:Hr.
  pose proof (released_stream _ _ _ _ _ _ _ _ _ _ _ _ _ Hr) as [Hs1 Hc1]. apply released_shrinks in Hr. simpl in Hs1, Hc1.
  destruct e1 as [e1|]; [by simplify_eq; auto|]. destruct failIter; [by simplify_eq; auto|].
  destruct (iterLoop _ _ _ _ _ _) as [[d2 c2] out2] eqn:Hi. apply iter_shrinks in Hi as (Hs2 & Hst2 & Hcu2). simplify_eq.
  split_and!; [by etransitivity|congruence|]. destruct Hcu2 as [Hc|(k & Hk & Hin)]; [left; congruence|right].
  exists k. split; [done|].
  set (all := p_iter d1 _ _) in *. assert (k ∈ all.*1) as Hin'.
  { destruct cut as [n|]; [|done]. rewrite <- (take_drop n all), fmap_app. apply elem_of_app. by left. }
  apply list_elem_of_fmap in Hin' as ([k1 v] & -> & Hkv). apply iter_elem in Hkv as [Hv Hrg]. cbn [fst]. split.
  - rewrite <- range_is_prefix. unfold in_range in *. unfold c_prefix in Hrg. rewrite Hs1, Hst in Hrg.
    apply andb_true_iff in Hrg as [Hlo ->]. rewrite andb_true_r. rewrite Hc1 in Hlo.
    destruct (cursor c) as [kc|]; [|done]. specialize (Hat kc eq_refl). rewrite <- range_is_prefix in Hat.
    apply andb_true_iff in Hat as [Hat _]. unfold nul in Hlo. rewrite bytes_ltb_nul, negb_involutive in Hlo.
    apply negb_true_iff. apply negb_true_iff in Hat. destruct (bytes_ltb k1 (entryPrefixOf name)) eqn:Hlt; [|done].
    rewrite <- Hat. symmetry. by eapply bytes_lt_trans.
  - exists v. destruct Hr as [Hr _]. by apply (lookup_weaken _ _ _ _ Hv).
Qed.

Lemma ownPending_frame io d c ids d' c' msgs e :
  ownPendingLoop Unmarshal io d c ids = (d', c', msgs, e) ->
  queue_shrinks d d' /\ c_stream c' = c_stream c /\ cursor c' = cursor c.
Proof.
  revert io d c msgs e. induction ids as [|id ids IH]; intros io d c msgs e Hl; simpl in Hl; [by simplify_eq|].
  destruct (readLocked _ _ _ _ _ _) as [[d1 c1] r] eqn:Hr. apply read_shrinks in Hr as (Hs & <- & <-).
  destruct r as [[msg|]|err].
  1,3: destruct (ownPendingLoop _ _ _ _ _) as [[[d2 c2] ms2] e2] eqn:Hl2; simplify_eq;
    apply IH in Hl2 as (? & -> & ->); split_and!; [by etransitivity|done..].
  apply IH in Hl as (? & -> & ->); split_and!; [by etransitivity|done..].
Qed.

Lemma Ack_frame f d c (m : StreamMessage (M := M)) d' c' r :
  AckMessage f d c m = (d', c', r) -> queue_shrinks d d' /\ c_stream c' = c_stream c /\ cursor c' = cursor c.
Proof.
  unfold AckMessage. destruct (checkOpen c m); [by intros; simplify_eq|].
  destruct (c_key c (ID m)) as [k|] eqn:Hk; [|by intros; simplify_eq].
  pose proof (shrink_key f k d (c_key_prefix _ _ _ Hk)) as Hs.
  destruct (p_write f _ d) as [d1 [[]|e]]; intros; by simplify_eq.
Qed.

Lemma Trim_frame f failIter cut now maxAge d c d' c' n :
  c_stream c = name -> TrimStream f failIter cut now maxAge d c = (d', c', Ok n) ->
  queue_shrinks d d' /\ c_stream c' = c_stream c /\ cursor c' = cursor c.
Proof.
  intros Hst. unfold TrimStream. destruct (c_closed c); [by intros; simplify_eq|].
  destruct failIter; [done|]. destruct cut; [done|].
  destruct (Nat.eqb _ 0); [by intros; simplify_eq|].
  destruct (p_write _ _ d) as [d1 [[]|e]] eqn:Hw; intros; simplify_eq. apply p_write_ok in Hw as ->.
  split; [|done]. unfold c_prefix. rewrite Hst. split.
  - unfold shrinks. rewrite view_commit. apply map_filter_subseteq.
  - rewrite view_commit. apply apply_batch_other. intros w ->%list_elem_of_singleton. apply trim_spares_last.
Qed.

(** Releasing and putting back touch neither the store nor the cursor. *)
Lemma Release_frame now c (m : StreamMessage (M := M)) c' r :
  ReleaseMessage now c m = (c', r) -> c_stream c' = c_stream c /\ cursor c' = cursor c.
Proof. unfold ReleaseMessage. destruct (checkOpen c m); intros; by simplify_eq. Qed.

Lemma putBack_frame (msgs : list (StreamMessage (M := M))) c :
  c_stream (putBack msgs c) = c_stream c /\ cursor (putBack msgs c) = cursor c.
Proof.
  unfold putBack. revert c. induction msgs as [|m msgs IH]; intros c; [done|]. cbn [foldl].
  destruct (IH (set_released (released c ++ [(ID m, 0)]) (set_pending (pending c ∖ {[ID m]}) c))) as [-> ->]. done.
Qed.

(** ** What the broker's commits write *)

Definition counter_write (w : pwrite) : Prop := exists k v, w = PSet (StringKey k) v.

Lemma chargeLoop_writes io now (d : D) charges ws ns :
  chargeLoop io now d charges = Ok (ws, ns) -> Forall counter_write ws.
Proof.
  revert io ws ns. induction charges as [|c charges IH]; intros io ws ns Hl; simpl in Hl; [by simplify_eq|].
  destruct (counterLocked _ _ _ _) as [[cur ex]|]; [|done].
  destruct (chargeLoop _ _ _ charges) as [[ws' ns']|] eqn:Hc; [|done]. simplify_eq.
  constructor; [by eexists _, _|by eapply IH].
Qed.

(** A commit that answered an error wrote nothing. *)
Definition no_ghost (f : Fault) : Prop := f <> FLost true.

Lemma p_write_err f b (d d' : D) e : no_ghost f -> p_write f b d = (d', Err e) -> d' = d.
Proof. unfold p_write, no_ghost. destruct f as [| |[]]; simpl; congruence. Qed.

Lemma commitTaken_writes io now fill charges b w b' w' r :
  no_ghost (io 0%nat) -> commitTaken onLedger written io now fill charges b w = (b', w', r) ->
  b_streams b' = b_streams b /\
  match r with
  | Ok _ => exists ws, Forall counter_write ws /\ b_db b' = p_commit (fill ++ ws)%list (b_db b)
  | Err _ => b_db b' = b_db b
  end.
Proof.
  intros Hf. unfold commitTaken. destruct (chargeLoop _ _ _ charges) as [[ws ns]|e] eqn:Hc; [|intros; by simplify_eq].
  destruct (p_write _ _ _) as [d1 [[]|e]] eqn:Hw; intros; simplify_eq; split; try done.
  - exists ws. split; [by eapply chargeLoop_writes|]. by apply p_write_ok in Hw.
  - by apply p_write_err in Hw.
Qed.

Lemma commitWithCharges_writes io now fill b w b' w' r :
  no_ghost (io 0%nat) -> commitWithCharges ledger onLedger written io now fill b w = (b', w', r) ->
  b_streams b' = b_streams b /\
  match r with
  | Ok _ => b_db b' = b_db b /\ fill = None \/
            exists ws, Forall counter_write ws /\ b_db b' = p_commit (default [] fill ++ ws)%list (b_db b)
  | Err _ => b_db b' = b_db b
  end.
Proof.
  intros Hf. unfold commitWithCharges. destruct (match ledger w with None => _ | Some _ => _ end) as [w1 charges].
  destruct fill as [fill|]; [|destruct charges as [|ch charges]].
  1,3: intros Hc; apply commitTaken_writes in Hc as [? Hr]; [|done]; split; [done|]; destruct r; [by right|done].
  intros; simplify_eq. split; [done|]. by left.
Qed.

Lemma counters_other ws k d : Forall counter_write ws -> queue_key name k -> apply_batch d ws !! k = d !! k.
Proof.
  intros Hws Hk. apply apply_batch_other. intros w Hw. apply (proj1 (Forall_forall _ _) Hws) in Hw as (k' & v & ->).
  apply String.eqb_neq. intros <-. by apply (string_not_queue name k').
Qed.

(** ** A publish *)

Definition room (d : D) : Prop := st_lastSeq (last_of d) < uint64_max.

Definition above (d : D) (st : stream) : Prop :=
  id_ltb (st_lastMS (last_of d), st_lastSeq (last_of d)) (st_lastMS st, st_lastSeq st) = true /\
  in_uint64 (st_lastMS st) /\ in_uint64 (st_lastSeq st).

Lemma next_above d now : room d -> above d (next (last_of d) now).
Proof.
  intros Hr. destruct (loadStream_range (pview d !! lastIDKey name)) as [Hm Hs].
  apply next_increases; [done|]. unfold room, in_uint64 in *. lia.
Qed.

Lemma above_fresh d st : entries_ok d -> above d st -> pview d !! entryKey name (st_lastMS st) (st_lastSeq st) = None.
Proof.
  intros He (Ha & Hm & Hs). apply eq_None_not_Some. intros Hv.
  destruct (He _ (entry_prefix_key _ _ _) Hv) as (ms & seq & (? & ? & Hn) & Hk).
  apply entryKey_inj in Hk as [<- <-]; [congruence|done..].
Qed.

Lemma id_ltb_trans a b c : id_ltb a b = true -> id_ltb b c = true -> id_ltb a c = true.
Proof.
  destruct a as [a1 a2], b as [b1 b2], c as [c1 c2]. unfold id_ltb. simpl.
  rewrite !orb_true_iff, !andb_true_iff, !Z.ltb_lt, !Z.eqb_eq. lia.
Qed.

Lemma stored_view d name' data st ws k : Forall counter_write ws ->
  queue_key name k ->
  pview (p_commit (entryWrites name' data st ++ ws)%list d) !! k =
  if String.eqb (lastIDKey name') k then Some (encodeID (st_lastMS st) (st_lastSeq st))
  else if String.eqb (entryKey name' (st_lastMS st) (st_lastSeq st)) k then Some data else pview d !! k.
Proof.
  intros Hws Hk. rewrite view_commit, apply_batch_app, counters_other by done.
  unfold entryWrites, apply_batch. cbn [foldl apply_write].
  destruct (String.eqb_spec (lastIDKey name') k) as [->|H1]; [apply lookup_insert_eq|]. rewrite lookup_insert_ne by done.
  destruct (String.eqb_spec (entryKey name' (st_lastMS st) (st_lastSeq st)) k) as [->|H2]; [apply lookup_insert_eq|].
  by rewrite lookup_insert_ne.
Qed.

(** The entry and the new last ID landed: the queue's invariant with them. *)
Lemma stored_ok b b' c data st ws :
  Forall counter_write ws -> above (b_db b) st ->
  b_db b' = p_commit (entryWrites name data st ++ ws)%list (b_db b) -> b_streams b' !! name = Some st ->
  queue_ok b c ->
  queue_ok b' c /\ pview (b_db b') !! entryKey name (st_lastMS st) (st_lastSeq st) = Some data /\ last_of (b_db b') = st.
Proof.
  intros Hws Hab Hd' Hb' [Hst He Hca Hat Hcu Hco]. pose proof Hab as (Hlt & Hm & Hs).
  assert (last_of (b_db b') = st) as Hlast.
  { rewrite Hd', stored_view by (done || by right). rewrite String.eqb_refl. by apply loadStream_encode. }
  assert (forall ms seq, minted (b_db b) ms seq -> minted (b_db b') ms seq) as Hmono.
  { intros ms seq (H1 & H2 & H3). split_and!; [done..|]. rewrite Hlast.
    destruct (id_ltb (st_lastMS st, st_lastSeq st) (ms, seq)) eqn:E; [|done].
    rewrite <- H3. symmetry. by eapply id_ltb_trans. }
  assert (forall ms seq, in_uint64 ms -> in_uint64 seq -> pview (b_db b') !! entryKey name ms seq =
    if decide ((ms, seq) = (st_lastMS st, st_lastSeq st)) then Some data else pview (b_db b) !! entryKey name ms seq) as Hview.
  { intros ms seq H1 H2. rewrite Hd', stored_view by (done || (left; apply entry_prefix_key)).
    assert (String.eqb (lastIDKey name) (entryKey name ms seq) = false) as -> by done.
    destruct (decide _) as [[= -> ->]|Hne]; [by rewrite String.eqb_refl|].
    rewrite (proj2 (String.eqb_neq _ _)); [done|]. intros [<- <-]%entryKey_inj; done. }
  split_and!; [split|..].
  - done.
  - intros k Hk Hv. rewrite Hd', stored_view in Hv by (done || by left).
    destruct (String.eqb_spec (lastIDKey name) k) as [<-|]; [done|].
    destruct (String.eqb_spec (entryKey name (st_lastMS st) (st_lastSeq st)) k) as [<-|].
    { exists (st_lastMS st), (st_lastSeq st). split; [|done]. split_and!; [done..|]. rewrite Hlast.
      unfold id_ltb. simpl. by rewrite !Z.ltb_irrefl, andb_false_r. }
    destruct (He k Hk Hv) as (ms & seq & ? & ->). exists ms, seq. auto.
  - intros st' Hst'. rewrite Hlast. congruence.
  - done.
  - intros ms seq H1 H2 Hn. apply Hcu; [done..|]. intros ?. by apply Hn, Hmono.
  - intros ms seq (H1 & H2 & v & Hv & Hu). rewrite Hst, Hview in Hv by done. rewrite Hst.
    destruct (decide _) as [[= -> ->]|Hne].
    + left. apply Hcu; [done..|]. intros (_ & _ & Hf). congruence.
    + rewrite <- Hst. apply Hco. split_and!; [done..|]. exists v. by rewrite Hst.
  - rewrite Hview by done. by rewrite decide_True.
  - done.
Qed.

Definition publish_post (b : Broker D) (data : string) (b' : Broker D) (r : result stream StoreErr) : Prop :=
  match r with
  | Ok st => above (b_db b) st /\ pview (b_db b) !! entryKey name (st_lastMS st) (st_lastSeq st) = None /\
             pview (b_db b') !! entryKey name (st_lastMS st) (st_lastSeq st) = Some data /\ last_of (b_db b') = st
  | Err _ => b_db b' = b_db b
  end.

Lemma streamLocked_ok f b b1 r c : queue_ok b c -> streamLocked f name b = (b1, r) ->
  b_db b1 = b_db b /\ match r with Ok st => st = last_of (b_db b) | Err _ => b1 = b end.
Proof.
  intros [_ _ Hca _ _ _]. unfold streamLocked. destruct (b_streams b !! name) as [st|] eqn:Hb.
  { intros; simplify_eq. split; [done|]. by apply Hca. }
  unfold p_get. destruct f; simpl; intros; by simplify_eq.
Qed.

Lemma publish_own io now data b w c b' w' r :
  no_ghost (io 1%nat) -> room (b_db b) -> queue_ok b c ->
  publish ledger onLedger written io now name data b w = (b', w', r) ->
  queue_ok b' c /\ publish_post b data b' r.
Proof.
  intros Hf Hroom Hok. unfold publish. destruct (streamLocked _ name b) as [b1 r1] eqn:Hl.
  destruct (streamLocked_ok _ _ _ _ _ Hok Hl) as [Hd1 Hr1]. destruct r1 as [st|e].
  2:{ intros; simplify_eq. split; [|done]. by eapply queue_same_ok; [..|exact Hok]. }
  subst st. destruct (commitWithCharges _ _ _ _ _ _ _ _) as [[b2 w2] r2] eqn:Hc.
  apply commitWithCharges_writes in Hc as [Hs2 Hr2]; [|done]. cbn [set_stream b_streams b_db] in Hs2, Hr2.
  destruct r2 as [[]|e2]; intros; simplify_eq.
  - destruct Hr2 as [[_ ?]|(ws & Hws & Hd2)]; [done|]. cbn [default] in Hd2. rewrite Hd1 in Hd2.
    pose proof (next_above (b_db b) now Hroom) as Hab. pose proof Hok as Hpre.
    eapply stored_ok in Hok as (Hok' & Hv & Hla); [|exact Hws|exact Hab|exact Hd2|rewrite Hs2; apply lookup_insert_eq].
    split; [done|]. split_and!; [done|by eapply above_fresh; [apply Hpre|]|done|done].
  - split; [|cbn [publish_post set_stream b_db]; congruence].
    destruct Hok as [Hst He Hca Hat Hcu Hco]. split; cbn [set_stream b_db b_streams]; rewrite ?Hr2, ?Hd1; try done.
    intros st Hst'. cbn [set_stream b_db b_streams] in *. rewrite lookup_insert_eq in Hst'. rewrite Hr2, Hd1. by simplify_eq.
Qed.

(** Another supplier's publish, a flush of charges and a probe leave the queue alone. *)
Lemma publish_other io now name' data b w b' w' r :
  no_nul name' -> name' <> name -> no_ghost (io 1%nat) ->
  publish ledger onLedger written io now name' data b w = (b', w', r) ->
  queue_same (b_db b) (b_db b') /\ b_streams b' !! name = b_streams b !! name.
Proof.
  intros Hn' Hne Hf. unfold publish. destruct (streamLocked _ name' b) as [b1 r1] eqn:Hl.
  assert (b_db b1 = b_db b /\ b_streams b1 !! name = b_streams b !! name) as [Hd1 Hs1].
  { unfold streamLocked in Hl. destruct (b_streams b !! name'); [by simplify_eq|].
    destruct (p_get _ _ _); simplify_eq; [|done]. split; [done|]. by apply lookup_insert_ne. }
  destruct r1 as [st|e]; [|by intros; simplify_eq; cbn [noteCommit b_db b_streams]; rewrite Hd1, Hs1].
  destruct (commitWithCharges _ _ _ _ _ _ _ _) as [[b2 w2] r2] eqn:Hc.
  apply commitWithCharges_writes in Hc as [Hs2 Hr2]; [|done]. cbn [set_stream b_streams b_db] in Hs2, Hr2.
  destruct r2 as [[]|e2]; intros; simplify_eq; cbn [set_stream b_db b_streams].
  - rewrite Hs2, lookup_insert_ne by done. split; [|done].
    destruct Hr2 as [[_ ?]|(ws & Hws & Hd2)]; [done|]. rewrite Hd2, <- Hd1. intros k Hk.
    etransitivity; [by apply stored_view|].
    destruct (String.eqb_spec (lastIDKey name') k) as [<-|]; [by destruct Hk as [?|?%last_inj]|].
    destruct (String.eqb_spec (entryKey name' (st_lastMS (next st now)) (st_lastSeq (next st now))) k) as [<-|]; [|done].
    destruct Hk as [Hp|?]; [|done]. by apply entry_other in Hp; [subst|..].
  - rewrite lookup_insert_ne, Hs2, lookup_insert_ne, Hr2, Hd1 by done. done.
Qed.

Lemma commit_other io now fill b w b' w' r :
  no_ghost (io 0%nat) -> fill = None \/ fill = Some [PSet probeKey ""] ->
  commitWithCharges ledger onLedger written io now fill b w = (b', w', r) ->
  queue_same (b_db b) (b_db b') /\ b_streams b' !! name = b_streams b !! name.
Proof.
  intros Hf Hfill Hc. apply commitWithCharges_writes in Hc as [-> Hr]; [|done]. split; [|done]. intros k Hk.
  destruct r as [[]|e]; [|by rewrite Hr]. destruct Hr as [[-> _]|(ws & Hws & ->)]; [done|].
  rewrite view_commit, apply_batch_app, counters_other by done.
  destruct Hfill as [-> | ->]; [done|]. apply apply_batch_other. intros x ->%list_elem_of_singleton.
  apply String.eqb_neq. intros <-. by apply (probe_not_queue name).
Qed.

Lemma flush_other io now b w b' w' r :
  no_ghost (io 0%nat) -> flushCharges ledger onLedger written io now b w = (b', w', r) ->
  queue_same (b_db b) (b_db b') /\ b_streams b' !! name = b_streams b !! name.
Proof.
  intros Hf. unfold flushCharges. destruct (ledger w); [|by intros; simplify_eq].
  apply commit_other; auto.
Qed.

Lemma healthy_other io now b w b' w' r :
  no_ghost (io 0%nat) -> DispatcherHealthy ledger onLedger written io now b w = (b', w', r) ->
  queue_same (b_db b) (b_db b') /\ b_streams b' !! name = b_streams b !! name.
Proof.
  intros Hf. unfold DispatcherHealthy. destruct (commitHealth now b) as [b1 [probe err]] eqn:Hh.
  assert (b_db b1 = b_db b /\ b_streams b1 = b_streams b) as [<- <-].
  { unfold commitHealth in Hh. destruct (b_commitErr b); [|by simplify_eq]. destruct (_ || _); by simplify_eq. }
  destruct probe; [|by intros; simplify_eq].
  destruct (commitWithCharges _ _ _ _ _ _ _ _) as [[b2 w2] r2] eqn:Hc. intros; simplify_eq.
  eapply commit_other; [|right|exact Hc]; done.
Qed.

End Kept.

(** ** The queue's life *)

(** The last part is a ghost: the IDs that trims which failed have taken out of
    pending since the process started. *)
Definition qstate : Type := Broker D * W * Consumer * gset string.

Inductive qstep : qstate -> qstate -> Prop :=
| QPublish io now name' data b w c b' w' r lost :
    no_nul name' -> no_ghost (io 1%nat) -> room (b_db b) ->
    publish ledger onLedger written io now name' data b w = (b', w', r) -> qstep (b, w, c, lost) (b', w', c, lost)
| QFlush io now b w c b' w' r lost :
    no_ghost (io 0%nat) -> flushCharges ledger onLedger written io now b w = (b', w', r) -> qstep (b, w, c, lost) (b', w', c, lost)
| QHealthy io now b w c b' w' r lost :
    no_ghost (io 0%nat) -> DispatcherHealthy ledger onLedger written io now b w = (b', w', r) -> qstep (b, w, c, lost) (b', w', c, lost)
| QNext io1 io2 failIter cut now b w c d' c' out nd e lost :
    nextBatch Unmarshal io1 io2 failIter cut now (b_db b) c = (d', c', out, nd, e) -> qstep (b, w, c, lost) (set_bdb d' b, w, c', lost)
| QPutBack (msgs : list (StreamMessage (M := M))) b w c lost : qstep (b, w, c, lost) (b, w, putBack msgs c, lost)
| QAck f (m : StreamMessage (M := M)) b w c d' c' r lost :
    AckMessage f (b_db b) c m = (d', c', r) -> qstep (b, w, c, lost) (set_bdb d' b, w, c', lost)
| QRelease now (m : StreamMessage (M := M)) b w c c' r lost :
    ReleaseMessage now c m = (c', r) -> qstep (b, w, c, lost) (b, w, c', lost)
| QOwnPending io b w c d' c' msgs e lost :
    EachOwnPending Unmarshal io (b_db b) c = (d', c', msgs, e) -> qstep (b, w, c, lost) (set_bdb d' b, w, c', lost)
| QTrim f failIter cut now maxAge b w c d' c' r lost :
    TrimStream f failIter cut now maxAge (b_db b) c = (d', c', r) ->
    qstep (b, w, c, lost) (set_bdb d' b, w, c', match r with Ok _ => lost | Err _ => lost ∪ (pending c ∖ pending c') end)
| QAckBatch ws ids b w c lost :
    (forall x k, x ∈ ws -> queue_key name k -> touches x k = false) ->
    qstep (b, w, c, lost) (set_bdb (p_commit (ws ++ AckInBatch c ids)%list (b_db b)) b, w, Acked ids c, lost)
| QOther ws w' b w c lost :
    (forall x k, x ∈ ws -> queue_key name k -> touches x k = false) ->
    qstep (b, w, c, lost) (set_bdb (p_commit ws (b_db b)) b, w', c, lost)
| QClose b w c lost : qstep (b, w, c, lost) (b, w, CloseConsumer c, lost)
| QRestart ms b w w' c lost : qstep (b, w, c, lost) (NewBroker (b_db b), w', NewConsumer name ms, ∅).

Definition q_ok (s : qstate) : Prop := queue_ok s.2 s.1.1.1 s.1.2.

Lemma ack_batch_ok lost ws ids b c :
  (forall x k, x ∈ ws -> queue_key name k -> touches x k = false) -> queue_ok lost b c ->
  queue_ok lost (set_bdb (p_commit (ws ++ AckInBatch c ids)%list (b_db b)) b) (Acked ids c).
Proof.
  intros Hws Hok. set (d1 := p_commit ws (b_db b)).
  assert (queue_ok lost (set_bdb d1 b) c) as Hok1.
  { apply (queue_same_ok lost b); [|done|exact Hok]. intros k Hk. cbn [set_bdb b_db]. unfold d1. rewrite view_commit.
    apply apply_batch_other. auto. }
  set (ks := omap (c_key c) ids).
  assert (AckInBatch c ids = map PDelete ks) as HA.
  { unfold AckInBatch, ks. clear. induction ids as [|id ids IH]; [done|]. cbn [omap list_omap].
    destruct (c_key c id); simpl; by rewrite IH. }
  assert (forall k, pview (p_commit (ws ++ AckInBatch c ids)%list (b_db b)) !! k = if decide (k ∈ ks) then None else pview d1 !! k) as Hv.
  { intros k. rewrite view_commit, apply_batch_app, HA, apply_deletes. unfold d1. by rewrite view_commit. }
  assert (queue_shrinks d1 (p_commit (ws ++ AckInBatch c ids)%list (b_db b))) as Hsh.
  { split; [apply map_subseteq_spec; intros k v; rewrite Hv; by destruct (decide _)|].
    rewrite Hv. destruct (decide _) as [Hin|]; [|done]. exfalso. apply list_elem_of_omap in Hin as (id & _ & Hk).
    by apply c_key_prefix in Hk. }
  pose proof Hok1 as [Hst _ _ _ _ Hco]. cbn [set_bdb b_db] in Hco.
  apply (queue_shrinks_ok lost (set_bdb d1 b) (p_commit (ws ++ AckInBatch c ids)%list (b_db b)) c); [exact Hsh|done|by left| |done]. eapply covered_acked; [exact Hco|].
  intros ms seq Hlive. pose proof Hlive as (Hm & Hs & v & Hk & Hu). split; [eapply live_shrinks; [apply Hsh|done]|].
  intros Hin. rewrite Hv in Hk. destruct (decide _) as [|Hno]; [done|]. apply Hno. apply list_elem_of_omap.
  eexists. split; [exact Hin|]. by apply c_key_formatID.
Qed.

Lemma restart_ok lost b c ms : queue_ok lost b c -> queue_ok ∅ (NewBroker (b_db b)) (NewConsumer name ms).
Proof.
  intros [Hst He Hca Hat Hcu Hco]. split; try done. by intros ms0 seq _; left.
Qed.

Lemma consumer_ok lost b d' c c' :
  queue_ok lost b c -> covered Unmarshal lost d' c' ->
  queue_shrinks (b_db b) d' /\ c_stream c' = c_stream c /\ cursor c' = cursor c ->
  queue_ok lost (set_bdb d' b) c'.
Proof. intros Hok Hco (Hs & Hst & Hcu). eapply queue_shrinks_ok; eauto. Qed.

(** A trim that failed: the same, with what it forgot. *)
Lemma queue_ok_lost lost lost' b c : queue_ok lost b c -> covered Unmarshal lost' (b_db b) c -> queue_ok lost' b c.
Proof. intros [H1 H2 H3 H4 H5 _] Hc. by split. Qed.
Lemma covered_more lost lost' d c : lost ⊆ lost' -> covered Unmarshal lost d c -> covered Unmarshal lost' d c.
Proof. intros Hl Hc ms seq H. destruct (Hc ms seq H) as [?|[?|[?|?]]]; [by left|right; by left|right; right; by left|right; right; right; set_solver]. Qed.
Lemma forgotten_ok lost lost' b c d' c' :
  queue_ok lost b c -> covered Unmarshal (lost ∪ lost') d' c' -> c_stream c' = c_stream c -> cursor c' = cursor c ->
  queue_shrinks (b_db b) d' -> queue_ok (lost ∪ lost') (set_bdb d' b) c'.
Proof.
  intros Hok Hc Hst Hcu Hsh. eapply consumer_ok; [|exact Hc|done]. eapply queue_ok_lost; [exact Hok|]. eapply covered_more; [|apply Hok]. set_solver.
Qed.
Lemma trim_shrinks c d d' :
  c_stream c = name -> shrinks d d' -> d' = d \/ (exists upper, d' = p_commit [PDeleteRange (c_prefix c) (Some (c_prefix c +:+ upper))] d) -> queue_shrinks d d'.
Proof.
  intros Hst Hsh Hd. split; [done|]. destruct Hd as [->|[upper ->]]; [done|]. unfold c_prefix. rewrite Hst, view_commit.
  apply apply_batch_other. intros w ->%list_elem_of_singleton. apply trim_spares_last.
Qed.

Lemma set_bdb_id (b : Broker D) : set_bdb (b_db b) b = b.
Proof. by destruct b. Qed.

Lemma qstep_ok s s' : qstep s s' -> q_ok s -> q_ok s'.
Proof.
  unfold q_ok. intros Hstep Hok. pose proof (qo_covered _ _ _ Hok) as Hco. destruct Hstep; cbn [fst snd] in *.
  - destruct (decide (name' = name)) as [->|Hne]; [by eapply publish_own in Hok as [? _]|].
    eapply publish_other in H2 as [? ?]; [|done..]. by eapply queue_same_ok.
  - apply flush_other in H0 as [? ?]; [|done]. by eapply queue_same_ok.
  - apply healthy_other in H0 as [? ?]; [|done]. by eapply queue_same_ok.
  - pose proof (nextBatch_covered _ _ _ _ _ _ _ _ _ _ _ _ _ _ Hco H) as Hco'.
    apply nextBatch_frame in H as (? & ? & ?); [|apply Hok..]. by eapply queue_shrinks_ok.
  - rewrite <- (set_bdb_id b). eapply consumer_ok; [exact Hok|by apply putBack_covered|]. split; [reflexivity|apply putBack_frame].
  - eapply consumer_ok; [exact Hok|by eapply AckMessage_covered|by eapply Ack_frame].
  - rewrite <- (set_bdb_id b). eapply consumer_ok; [exact Hok|by eapply ReleaseMessage_covered|].
    split; [reflexivity|by eapply Release_frame].
  - eapply consumer_ok; [exact Hok|by eapply EachOwnPending_covered|by eapply ownPending_frame].
  - destruct r as [n|e]; [eapply consumer_ok; [exact Hok|by eapply TrimStream_covered|]; eapply Trim_frame; [apply Hok|done]|].
    pose proof (TrimStream_failed _ _ _ _ _ _ _ _ _ _ _ _ Hco H) as (Hst & Hcu & Hre & Hsh & Hd).
    eapply forgotten_ok; [exact Hok|by apply (covered_forgotten _ _ _ _ _ _ Hco)|done|done|]. by apply (trim_shrinks c); [apply Hok|..].
  - by apply ack_batch_ok.
  - apply (queue_same_ok lost b); [|done|exact Hok]. intros k Hk. cbn [set_bdb b_db]. rewrite view_commit. apply apply_batch_other. auto.
  - rewrite <- (set_bdb_id b). eapply consumer_ok; [exact Hok|done|]. split; [reflexivity|done].
  - by eapply restart_ok.
Qed.

(** A process over a store whose queue is empty. *)
Definition q_start (s : qstate) : Prop :=
  (forall k, queue_key name k -> pview (b_db s.1.1.1) !! k = None) /\
  b_streams s.1.1.1 = ∅ /\ (exists ms, s.1.2 = NewConsumer name ms) /\ s.2 = ∅.

Lemma q_start_ok s : q_start s -> q_ok s.
Proof.
  destruct s as [[[b w] c] lost]. intros (Hd & Hb & (ms & Hc) & _). cbn [fst snd] in *. subst c. split; cbn [fst snd]; try done.
  - intros k Hk [v Hv]. rewrite Hd in Hv by by left. done.
  - intros st. by rewrite Hb.
  - by left.
Qed.

Lemma q_reach_ok s0 s : q_start s0 -> rtc qstep s0 s -> q_ok s.
Proof.
  intros H0 Hs. apply q_start_ok in H0. induction Hs as [|x y z Hxy _ IH]; [done|]. apply IH. by eapply qstep_ok.
Qed.

(** ** What a delivery pass hands out *)

Abbreviation live d ms seq := (live_entry Unmarshal d name ms seq).

Definition given (out : list (StreamMessage (M := M))) (ms seq : Z) : Prop := formatID ms seq ∈ ID <$> out.

(** Only entries that do not decode are dropped. *)
Lemma read_keeps f1 f2 d c id d' c' r ms seq :
  readLocked Unmarshal f1 f2 d c id = (d', c', r) -> live d ms seq -> live d' ms seq.
Proof.
  unfold readLocked, dropUndecodable, p_get, decode. intros Hr (Hm & Hs & v & Hv & Hu).
  destruct (c_key c id) as [key|]; [|simplify_eq; split_and!; [done..|by exists v]].
  destruct (read_trip f1 (pview d !! key)) as [[value|]|e] eqn:Hg; [|simplify_eq; split_and!; [done..|by exists v]..].
  assert (pview d !! key = Some value) as Hkv by (destruct f1; by simplify_eq/=).
  destruct (Unmarshal value) eqn:Hd; simplify_eq; [split_and!; [done..|by exists v]|].
  split_and!; [done..|]. exists v. split; [|done].
  destruct (p_write_state f2 [PDelete key] d) as [-> | ->]; [done|]. rewrite view_commit.
  cbn [apply_batch foldl apply_write]. rewrite lookup_delete_ne; [done|]. intros ->. rewrite Hv in Hkv. simplify_eq.
  rewrite Hd in Hu. by destruct Hu.
Qed.

Lemma read_finds f2 d c ms seq d' c' r :
  c_stream c = name -> live d ms seq -> readLocked Unmarshal FNone f2 d c (formatID ms seq) = (d', c', r) ->
  exists msg, r = Ok (Some msg) /\ ID msg = formatID ms seq.
Proof.
  intros Hst (Hm & Hs & v & Hv & [msg Hu]). unfold readLocked, decode. rewrite c_key_formatID, Hst by done.
  unfold p_get. simpl. rewrite Hv, Hu. intros [= <- <- <-]. by eexists.
Qed.

Lemma read_never_fails f2 d c id d' c' e : readLocked Unmarshal FNone f2 d c id = (d', c', Err e) -> False.
Proof.
  unfold readLocked, p_get. destruct (c_key c id); [|done]. simpl. destruct (pview d !! _); [|done].
  by destruct (decode _ _ _ _).
Qed.

Lemma released_gives io now d c l out nd d' c' out' nd' e :
  (forall n, io n = FNone) -> c_stream c = name -> Forall (fun x => x.2 <= now) l ->
  releasedLoop Unmarshal io now d c l out nd = (d', c', out', nd', e) ->
  e = None /\ (forall ms seq, live d ms seq -> live d' ms seq) /\
  (forall ms seq, given out ms seq \/ (live d ms seq /\ formatID ms seq ∈ l.*1) -> given out' ms seq).
Proof.
  revert io d c out nd. induction l as [|[id due] l IH]; intros io d c out nd Hio Hst Hdue Hl; simpl in Hl.
  { simplify_eq. split_and!; [done..|]. intros ms seq [?|[_ Hn]]; [done|]. by apply elem_of_nil in Hn. }
  apply Forall_cons in Hdue as [Hd Hdue]. simpl in Hd. rewrite (proj2 (Z.ltb_ge now due)) in Hl by lia.
  assert (forall n, io_next 2 io n = FNone) as Hio' by (intros n; apply Hio).
  rewrite (Hio 0%nat) in Hl. destruct (readLocked _ _ _ _ _ _) as [[d1 c1] r] eqn:Hr.
  pose proof (read_shrinks _ _ _ _ _ _ _ _ Hr) as (_ & Hst1 & _). rewrite Hst in Hst1.
  pose proof (fun ms seq => read_keeps _ _ _ _ _ _ _ _ ms seq Hr) as Hk.
  assert (forall ms seq, live d ms seq -> formatID ms seq = id -> exists msg, r = Ok (Some msg) /\ ID msg = id) as Hfind.
  { intros ms seq Hlive <-. eapply read_finds; [exact Hst|exact Hlive|exact Hr]. }
  destruct r as [[msg|]|err]; [..|by apply read_never_fails in Hr].
  - apply IH in Hl as (-> & Hk' & Hg); [|done..]. split_and!; [done|auto|].
    intros ms seq [Hin|[Hlive Hin]]; apply Hg.
    { left. unfold given in *. rewrite fmap_app. apply elem_of_app. by left. }
    change (((id, due) :: l).*1) with (id :: l.*1) in Hin.
    apply elem_of_cons in Hin as [He|Hin]; [left|right; auto]. destruct (Hfind _ _ Hlive He) as (m & [= <-] & Hid).
    unfold given. rewrite fmap_app. apply elem_of_app. right. rewrite He, <- Hid. left.
  - apply IH in Hl as (-> & Hk' & Hg); [|done..]. split_and!; [done|auto|].
    intros ms seq [Hin|[Hlive Hin]]; apply Hg; [by left|].
    change (((id, due) :: l).*1) with (id :: l.*1) in Hin.
    apply elem_of_cons in Hin as [He|Hin]; [by destruct (Hfind _ _ Hlive He) as (m & ? & _)|right; auto].
Qed.

Lemma iter_gives io d c entries out d' c' out' :
  c_stream c = name -> iterLoop Unmarshal io d c entries out = (d', c', out') ->
  (forall ms seq, given out ms seq -> given out' ms seq) /\
  (forall ms seq v, in_uint64 ms -> in_uint64 seq -> (entryKey name ms seq, v) ∈ entries -> is_Some (Unmarshal v) ->
     given out' ms seq \/ (readBatch <= List.length out')%nat).
Proof.
  revert io d c out. induction entries as [|[k v] entries IH]; intros io d c out Hst Hl; simpl in Hl.
  { simplify_eq. split; [done|]. intros ms seq v _ _ Hin. by apply elem_of_nil in Hin. }
  destruct (Nat.ltb_spec (List.length out) readBatch) as [Hlt|Hge].
  2:{ simplify_eq. split; [done|]. intros. right. done. }
  change (c_prefix (set_cursor k c)) with (entryPrefixOf (c_stream c)) in Hl. rewrite Hst in Hl.
  destruct (idOfKey _ k) as [id|] eqn:Hid.
  - unfold decode in Hl. destruct (Unmarshal v) as [msg|] eqn:Hu.
    + apply IH in Hl as [Hg Hn]; [|done]. split.
      { intros ms seq Hin. apply Hg. unfold given in *. rewrite fmap_app. apply elem_of_app. by left. }
      intros ms seq v' Hm Hs Hin Hu'. apply elem_of_cons in Hin as [[= <- <-]|Hin]; [|by eapply Hn].
      left. apply Hg. unfold given. rewrite fmap_app. apply elem_of_app. right.
      rewrite idOfKey_entryKey in Hid by done. injection Hid as <-. left.
    + destruct (dropUndecodable _ _ _ _) as [d1 c1] eqn:Hd. apply IH in Hl as [Hg Hn].
      2:{ unfold dropUndecodable in Hd. by destruct (c_key _ _); simplify_eq. }
      split; [done|]. intros ms seq v' Hm Hs Hin Hu'. apply elem_of_cons in Hin as [[= <- <-]|Hin]; [|by eapply Hn].
      rewrite Hu in Hu'. by destruct Hu'.
  - apply IH in Hl as [Hg Hn]; [|done]. split; [done|].
    intros ms seq v' Hm Hs Hin Hu'. apply elem_of_cons in Hin as [[= <- <-]|Hin]; [|by eapply Hn].
    by rewrite idOfKey_entryKey in Hid.
Qed.

Lemma iter_more io d c entries out d' c' out' :
  iterLoop Unmarshal io d c entries out = (d', c', out') -> (List.length out <= List.length out')%nat.
Proof.
  revert io d c out. induction entries as [|[k v] entries IH]; intros io d c out Hl; simpl in Hl; [by simplify_eq|].
  destruct (Nat.ltb _ _); [|by simplify_eq]. destruct (idOfKey _ _); [|by apply IH in Hl].
  destruct (decode _ _ _ _); [apply IH in Hl; rewrite length_app in Hl; lia|].
  destruct (dropUndecodable _ _ _ _). by apply IH in Hl.
Qed.

Lemma nextBatch_gives lost io1 io2 now b c d' c' out nd e :
  (forall n, io1 n = FNone) -> Forall (fun x => x.2 <= now) (released c) -> queue_ok lost b c ->
  nextBatch Unmarshal io1 io2 false None now (b_db b) c = (d', c', out, nd, e) ->
  e = None /\ forall ms seq, live (b_db b) ms seq ->
    formatID ms seq ∈ pending c \/ given out ms seq \/ (readBatch <= List.length out)%nat \/ formatID ms seq ∈ lost.
Proof.
  intros Hio Hdue [Hst _ _ Hat _ Hco] Hn. unfold nextBatch in Hn.
  destruct (releasedLoop _ _ _ _ _ _ _ _) as [[[[d1 c1] out1] nd1] e1] eqn:Hr.
  pose proof (released_stream _ _ _ _ _ _ _ _ _ _ _ _ _ Hr) as [Hs1 Hc1]. simpl in Hs1, Hc1.
  apply released_gives in Hr as (-> & Hk & Hg1); [|done..].
  destruct (iterLoop _ _ _ _ _ _) as [[d2 c2] out2] eqn:Hi. injection Hn as <- <- <- <- <-. split; [done|]. intros ms seq Hlive.
  destruct (iter_gives _ _ _ _ _ _ _ _ (eq_trans Hs1 Hst) Hi) as [Hg2 Hn2].
  rewrite <- Hst in Hlive. destruct (Hco ms seq Hlive) as [Ha|[Hp|[Hrel|Hlo]]]; rewrite Hst in *; [|by left|right; left; auto|by right; right; right]. right.
  destruct (Hk _ _ Hlive) as (Hm & Hq & v & Hv & Hu). rewrite assoc by apply _. left. eapply Hn2; [done..| |exact Hu].
  apply iter_elem. split; [done|]. unfold c_prefix. rewrite Hs1.
  pose proof (entry_prefix_key name ms seq) as Hp. rewrite <- range_is_prefix in Hp. unfold in_range in *.
  apply andb_true_iff in Hp as [Hp1 Hp2]. rewrite Hp2, andb_true_r, Hc1. unfold ahead in Ha.
  destruct (cursor c); [|done]. unfold nul, bytes_lt in *. by rewrite bytes_ltb_nul, negb_involutive.
Qed.
End Queue.

Section Claims.
Context {D : Type} `{PO : !PebbleOps D} `{PL : !PebbleLaws D}.
Context {M W : Type}.
Variable Unmarshal : string -> option M.
Variable ledger : W -> option ChargeLedger.
Variable onLedger : (ChargeLedger -> ChargeLedger) -> W -> W.
Variable written : option (string -> Z -> Z -> W -> W).

(** C26. A standalone process keeps sight of every queued relay but those a
    failed trim forgot, and never writes over one. However publishes, deliveries,
    acks, releases, trims, batched acks, the rest of the process and restarts
    interleave, reads, deletes and trims failing or not, every stored entry that
    decodes is ahead of the consumer's cursor, pending, handed back, or among
    the IDs that trims which answered an error took out of pending since the
    last restart ([lost] of the step relation: none while trims answer); and a
    publish that answers success stored the relay under an ID above every
    earlier one, at a key that was free and that the consumer has still to read.
    A commit of the broker that reports an error is taken to have written
    nothing, as a store whose log fails stops the process, and the sequence of a
    millisecond to have room. *)
Theorem queue_keeps_relays (name : string) (s0 : qstate) (b : Broker D) (w : W) (c : Consumer) (lost : gset string) :
  no_nul name -> q_start name s0 -> rtc (qstep Unmarshal name ledger onLedger written) s0 (b, w, c, lost) ->
  covered Unmarshal lost (b_db b) c /\
  forall io now data b' w' st, no_ghost (io 1%nat) -> room name (b_db b) ->
    publish ledger onLedger written io now name data b w = (b', w', Ok st) ->
    publish_post name b data b' (Ok st) /\ covered Unmarshal lost (b_db b') c /\
    ahead c (entryKey name (st_lastMS st) (st_lastSeq st)).
Proof.
  intros Hn H0 Hr. pose proof (q_reach_ok _ _ Hn _ _ _ _ _ H0 Hr) as Hok. split; [apply Hok|].
  intros io now data b' w' st Hf Hroom Hp. unfold q_ok in Hok. cbn [fst snd] in Hok.
  eapply publish_own in Hp as [Hok' Hpost]; [|exact Hf|exact Hroom|exact Hok].
  split_and!; [done|apply Hok'|]. destruct Hpost as [(Ha & Hm & Hs) _].
  apply (qo_cursor _ _ _ _ _ Hok); [done..|]. intros (_ & _ & Hlt). congruence.
Qed.

(** A delivery pass hands out everything that is due. From any reachable
    state, when the reads succeed and every released entry has fallen due, one
    nextBatch answers without an error and each stored entry that decodes was
    already pending or is among the messages handed out, unless the batch
    filled up at readBatch. *)
Theorem queue_delivers (name : string) (s0 : qstate) (b : Broker D) (w : W) (c : Consumer) (lost : gset string)
    (io1 io2 : Io) (now : Z) (d' : D) (c' : Consumer) (out : list StreamMessage) (nd : Z) (e : option StoreErr) :
  no_nul name -> q_start name s0 -> rtc (qstep Unmarshal name ledger onLedger written) s0 (b, w, c, lost) ->
  (forall n, io1 n = FNone) -> Forall (fun x => x.2 <= now) (released c) ->
  nextBatch Unmarshal io1 io2 false None now (b_db b) c = (d', c', out, nd, e) ->
  e = None /\ forall ms seq, live_entry Unmarshal (b_db b) name ms seq ->
    formatID ms seq ∈ pending c \/ given out ms seq \/ (readBatch <= List.length out)%nat \/ formatID ms seq ∈ lost.
Proof.
  intros Hn H0 Hr Hio Hdue. apply nextBatch_gives; [done..|]. exact (q_reach_ok _ _ Hn _ _ _ _ _ H0 Hr).
Qed.
End Claims.

Module QueueExample.
Definition T (s : Z) : Z := unix_epoch + (1700000000 + s) * 10 ^ 9.

Abbreviation DB := (gmap string string).
Definition un (v : string) : option string := if String.eqb v "bad" then None else Some v.
Definition no_ledger (w : unit) : option ChargeLedger := None.
Definition on_l (f : ChargeLedger -> ChargeLedger) (w : unit) : unit := w.

Definition s_0 : Broker DB * unit * Consumer * gset string := (NewBroker (∅ : DB), tt, NewConsumer "sup" 0, ∅).
Definition pub (now : Z) (data : string) (s : Broker DB * unit * Consumer * gset string) : Broker DB * unit * Consumer * gset string :=
  (fst (publish no_ledger on_l None io_ok now "sup" data s.1.1.1 s.1.1.2), s.1.2, s.2).
Definition s_1 := pub (T 0) "bad" s_0.
(** The clock stepped back: the second ID continues the first's sequence. *)
Definition s_2 := pub (T (-5)) "relay" s_1.
Definition pass (s : Broker DB * unit * Consumer * gset string) := nextBatch un io_ok io_ok false None (T 1) (b_db s.1.1.1) s.1.2.

Lemma start_0 : q_start "sup" s_0.
Proof. split_and!; [done|done|by exists 0|done]. Qed.

Lemma pub_step s now data : room "sup" (b_db s.1.1.1) -> qstep un "sup" no_ledger on_l None s (pub now data s).
Proof.
  destruct s as [[[b w] c] lost]. intros Hr. unfold pub. cbn [fst snd].
  destruct (publish no_ledger on_l None io_ok now "sup" data b w) as [[b' w'] r] eqn:Hp. cbn [fst].
  eapply QPublish; [| |exact Hr|exact Hp]; done.
Qed.

Lemma reach_2 : rtc (qstep un "sup" no_ledger on_l None) s_0 s_2.
Proof.
  eapply rtc_l; [apply (pub_step _ (T 0) "bad"); vm_compute; reflexivity|].
  eapply rtc_l; [apply (pub_step _ (T (-5)) "relay"); vm_compute; reflexivity|]. apply rtc_refl.
Qed.

Definition last_2 := mkStream 1700000000000 2.
Definition p_3 := publish no_ledger on_l None io_ok (T 0) "sup" "again" s_2.1.1.1 tt.

Lemma queue_keeps_relays_witness :
  snd p_3 = Ok last_2 /\ publish_post "sup" s_2.1.1.1 "again" p_3.1.1 (Ok last_2) /\
  pview (b_db p_3.1.1) !! entryKey "sup" 1700000000000 1 = Some "relay".
Proof.
  split; [vm_compute; reflexivity|]. split; [|vm_compute; reflexivity].
  eapply (proj2 (queue_keeps_relays un no_ledger on_l None "sup" s_0 s_2.1.1.1 tt s_2.1.2 ∅ (eq_refl : no_nul "sup") start_0 reach_2)
    io_ok (T 0) "again" p_3.1.1 tt last_2); [discriminate|vm_compute; reflexivity|vm_compute; reflexivity].
Defined.

Lemma queue_delivers_witness :
  ID <$> (pass s_2).1.1.2 = [formatID 1700000000000 1] /\
  (formatID 1700000000000 1 ∈ pending s_2.1.2 \/ given (pass s_2).1.1.2 1700000000000 1 \/
   (readBatch <= List.length (pass s_2).1.1.2)%nat \/ formatID 1700000000000 1 ∈ (∅ : gset string)).
Proof.
  split; [vm_compute; reflexivity|].
  apply (queue_delivers un no_ledger on_l None "sup" s_0 s_2.1.1.1 tt s_2.1.2 ∅ io_ok io_ok (T 1)
    (pass s_2).1.1.1.1 (pass s_2).1.1.1.2 (pass s_2).1.1.2 (pass s_2).1.2 (pass s_2).2).
  - reflexivity.
  - exact start_0.
  - exact reach_2.
  - reflexivity.
  - constructor.
  - vm_compute. reflexivity.
  - split; [split; vm_compute; discriminate|]. split; [split; vm_compute; discriminate|].
    exists "relay". split; [vm_compute; reflexivity|]. by exists "relay".
Defined.

(** A trim whose commit fails: the relay is still stored, delivered once, and
    nothing would deliver it again before a restart. *)
Definition trim_2 := TrimStream (FLost false) false None (T 100000) 0 (pass s_2).1.1.1.1 (pass s_2).1.1.1.2.
Lemma failed_trim_forgets :
  trim_2.2 = Err (ErrIo IoLost) /\ pending (pass s_2).1.1.1.2 = {[formatID 1700000000000 1]} /\ pending trim_2.1.2 = ∅ /\
  pview trim_2.1.1 !! entryKey "sup" 1700000000000 1 = Some "relay".
Proof. split_and!; vm_compute; reflexivity. Qed.
End QueueExample.
