(* ===== verification/PebbleCharges.v ===== *)
(** * Relays and their charges land together in a standalone process

    A publish commits the relay, the stream's last ID and every meter charge
    served so far in one batch (commitWithCharges of queue.go), so a counter
    read through the kv store and what the ledger still holds always add up. *)

From S2P Require Import Prelude SessionState StoreSpec ChargeLedger KvStore PebbleModel PebbleQueue KvPebble KvPebbleRefines PebbleBroker PebbleQueueTrace.
From Stdlib Require Import Ascii String.

Local Open Scope string_scope.
Local Open Scope Z_scope.

Section Charges.
Context {D : Type} `{PO : !PebbleOps D} `{PL : !PebbleLaws D}.
Context {W : Type} {onLedger : (ChargeLedger -> ChargeLedger) -> W -> W}
  {written : option (string -> Z -> Z -> W -> W)} {lw : W -> ChargeLedger} `{LW : !LedgerWorld W onLedger written lw}.

Abbreviation some_ledger := (fun w : W => Some (lw w)).

(** The counter a meter reads through the kv store. *)
Definition counter_at (now : Z) (d : D) (k : string) : option Z :=
  match str_at now d k with None => Some 0 | Some s => ParseInt s end.

Definition charge_ttl_ok (now : Z) (c : Charge) : Prop := ch_TTL c <= 0 \/ (10 ^ 6 <= ch_TTL c /\ expiry_ok (now + ch_TTL c)).

Lemma if_alive_some now o v e : if_alive now o = Some (v, e) -> o = Some (v, e) /\ alive now e = true.
Proof. destruct o as [[v' e']|]; simpl; [|done]. destruct (alive now e') eqn:Ha; [|done]. by intros [= <- <-]. Qed.

(** What a charge's rewrite of a counter reads as. *)
Lemma counterLocked_ok f now d key n e ttl v :
  0 <= now -> ttl <= 0 \/ (10 ^ 6 <= ttl /\ expiry_ok (now + ttl)) -> counterLocked f now d key = Ok (n, e) ->
  counter_at now d key = Some n /\
  fst <$> if_alive now (stored_value (EncodeValue (if (e =? 0) && (0 <? ttl) then now + ttl else e) v)) = Some v.
Proof.
  intros Hn Ht. unfold counterLocked, counter_at. rewrite str_at_alive. unfold pk_str.
  destruct (p_get f d (StringKey key)) as [o|] eqn:Hg; [|done]. apply p_get_ok in Hg as <-.
  assert (fst <$> if_alive now (stored_value (EncodeValue (if (0 =? 0) && (0 <? ttl) then now + ttl else 0) v)) = Some v) as H0.
  { simpl. destruct (Z.ltb_spec 0 ttl) as [Hp|Hp].
    - destruct Ht as [?|[Hlo Hex]]; [lia|]. pose proof (stored_expiry now ttl v (or_intror Hex)) as He.
      unfold expiryOf in He. rewrite (proj2 (Z.leb_gt ttl 0)) in He by lia. rewrite He. simpl. unfold alive.
      pose proof (pk_expiry_close now ttl Hp). rewrite (proj2 (Z.ltb_lt now _)) by lia. by rewrite orb_true_r.
    - by rewrite stored_encode by by left. }
  destruct o as [raw|]; [|by intros [= <- <-]]. simpl.
  destruct (DecodeValue raw now) as [[[value expiry] expired]|] eqn:Hd; [|done]. apply decode_alive in Hd; [|done].
  rewrite Hd. destruct expired; [by intros [= <- <-]|]. simpl. destruct (ParseInt value) as [m|]; [|done]. intros [= <- <-].
  split; [done|]. apply if_alive_some in Hd as [Hs Ha].
  destruct (Z.eqb_spec expiry 0) as [->|Hne]; [exact H0|]. cbn [andb]. rewrite (stored_reencode _ _ _ v Hs). simpl. by rewrite Ha.
Qed.

Lemma counter_put now (d' : D) k v : pview d' !! StringKey k = Some v ->
  counter_at now d' k = match fst <$> if_alive now (stored_value v) with None => Some 0 | Some s => ParseInt s end.
Proof. intros Hv. unfold counter_at. rewrite str_at_alive. unfold pk_str. by rewrite Hv. Qed.

Lemma counter_same now (d d' : D) k : pview d' !! StringKey k = pview d !! StringKey k -> counter_at now d' k = counter_at now d k.
Proof. intros Hv. unfold counter_at. rewrite !str_at_alive. unfold pk_str. by rewrite Hv. Qed.

Definition charged_value (now e : Z) (cur : Z) (c : Charge) : string :=
  EncodeValue (if (e =? 0) && (0 <? ch_TTL c) then now + ch_TTL c else e) (format_int (wrap64 (cur + ch_Amount c))).

(** The batch of charge writes, counter by counter. *)
Lemma chargeLoop_other io now (d : D) charges ws ns m k :
  chargeLoop io now d charges = Ok (ws, ns) -> k ∉ ch_Key <$> charges -> apply_batch m ws !! StringKey k = m !! StringKey k.
Proof.
  revert io m ws ns. induction charges as [|c charges IH]; intros io m ws ns Hl Hni; simpl in Hl; [by injection Hl as <- <-|].
  destruct (counterLocked _ _ _ _) as [[cur ex]|]; [|done].
  destruct (chargeLoop _ _ _ charges) as [[ws' ns']|] eqn:Hcl; [|done]. injection Hl as <- <-.
  rewrite fmap_cons in Hni. apply not_elem_of_cons in Hni as [Hne Hni]. rewrite apply_batch_cons, (IH _ _ _ _ Hcl Hni).
  apply lookup_insert_ne. by intros ?%str_app_inj_l.
Qed.

Lemma chargeLoop_at io now (d : D) charges ws ns m c :
  chargeLoop io now d charges = Ok (ws, ns) -> NoDup (ch_Key <$> charges) -> c ∈ charges ->
  exists f cur e, counterLocked f now d (ch_Key c) = Ok (cur, e) /\
    apply_batch m ws !! StringKey (ch_Key c) = Some (charged_value now e cur c).
Proof.
  revert io m ws ns. induction charges as [|c1 charges IH]; intros io m ws ns Hl Hnd Hin; simpl in Hl; [by apply elem_of_nil in Hin|].
  destruct (counterLocked _ _ _ _) as [[cur ex]|] eqn:Hc; [|done].
  destruct (chargeLoop _ _ _ charges) as [[ws' ns']|] eqn:Hcl; [|done]. injection Hl as <- <-.
  rewrite fmap_cons in Hnd. apply NoDup_cons in Hnd as [Hni Hnd]. rewrite apply_batch_cons.
  apply elem_of_cons in Hin as [->|Hin]; [|by eapply IH].
  exists (io 0%nat), cur, ex. split; [done|]. rewrite (chargeLoop_other _ _ _ _ _ _ _ _ Hcl Hni). apply lookup_insert_eq.
Qed.

Lemma chargeLoop_length io now (d : D) charges ws ns :
  chargeLoop io now d charges = Ok (ws, ns) -> List.length ns = List.length charges.
Proof.
  revert io ws ns. induction charges as [|c charges IH]; intros io ws ns Hl; simpl in Hl; [by injection Hl as <- <-|].
  destruct (counterLocked _ _ _ _) as [[cur ex]|]; [|done].
  destruct (chargeLoop _ _ _ charges) as [[ws' ns']|] eqn:Hcl; [|done]. injection Hl as <- <-. simpl. by rewrite (IH _ _ _ Hcl).
Qed.

Definition fits (n : option Z) (a : Z) : Prop := match n with Some n => in_int64 (n + a) | None => True end.

(** Each counter gains what was queued for it. *)
Lemma chargeLoop_counters io now (d d' : D) charges ws ns m l k :
  0 <= now -> Forall (charge_ttl_ok now) charges -> charges ≡ₚ (map_to_list (lg_pending l)).*2 ->
  (forall key c, lg_pending l !! key = Some c -> ch_Key c = key) ->
  fits (counter_at now d k) (queued_on k l) ->
  chargeLoop io now d charges = Ok (ws, ns) ->
  m !! StringKey k = pview d !! StringKey k -> pview d' !! StringKey k = apply_batch m ws !! StringKey k ->
  counter_at now d' k = (fun n => n + queued_on k l) <$> counter_at now d k.
Proof.
  intros Hn Ht Hp Hkeys Hfit Hl Hm Hd'.
  assert (NoDup (ch_Key <$> charges)) as Hnd.
  { rewrite Hp. replace (ch_Key <$> (map_to_list (lg_pending l)).*2) with (map_to_list (lg_pending l)).*1; [apply NoDup_fst_map_to_list|].
    rewrite <- list_fmap_compose. apply list_fmap_ext. intros i [key c] Hi. symmetry. apply Hkeys.
    apply elem_of_map_to_list. by eapply list_elem_of_lookup_2. }
  destruct (lg_pending l !! k) as [c|] eqn:Hk.
  - assert (c ∈ charges) as Hin.
    { rewrite Hp. apply list_elem_of_fmap. exists (k, c). split; [done|]. by apply elem_of_map_to_list. }
    pose proof (Hkeys _ _ Hk) as <-. unfold queued_on in *. rewrite Hk in *.
    destruct (chargeLoop_at _ _ _ _ _ _ m c Hl Hnd Hin) as (f & cur & e & Hc & Hv). rewrite Hv in Hd'.
    rewrite (counter_put _ _ _ _ Hd'). unfold charged_value.
    destruct (counterLocked_ok f now d (ch_Key c) cur e (ch_TTL c) (format_int (wrap64 (cur + ch_Amount c)))) as [Hcur ->];
      [done|exact (proj1 (Forall_forall _ _) Ht _ Hin)|done|].
    rewrite Hcur in *. simpl in *. rewrite wrap64_id by done. by apply ParseInt_format.
  - unfold queued_on. rewrite Hk. rewrite (counter_same now d d').
    + destruct (counter_at now d k) as [n|]; [|done]. simpl. f_equal. lia.
    + rewrite Hd', (chargeLoop_other _ _ _ _ _ _ _ _ Hl); [done|]. rewrite Hp. intros Hin.
      apply list_elem_of_fmap in Hin as (c & -> & Hin). apply list_elem_of_fmap in Hin as ([key c1] & -> & Hin).
      apply elem_of_map_to_list in Hin. cbn [snd] in Hk. rewrite (Hkeys _ _ Hin) in Hk. congruence.
Qed.

(** ** The ledger's side *)

Lemma untakeAll_ok charges w out :
  ledger_ok (lw w) (charges ++ out) ->
  ledger_ok (lw (untakeAll onLedger charges w)) out /\
  forall k, queued_on k (lw (untakeAll onLedger charges w)) = queued_on k (lw w) + held_on k charges.
Proof. apply untake_list_ok. Qed.

Lemma reportAll_ok charges ns w out :
  List.length ns = List.length charges -> ledger_ok (lw w) (charges ++ out) ->
  ledger_ok (lw (reportAll onLedger written charges ns w)) out /\
  forall k, queued_on k (lw (reportAll onLedger written charges ns w)) = queued_on k (lw w).
Proof.
  unfold reportAll. revert ns w. induction charges as [|c charges IH]; intros [|n ns] w Hlen Hok; simpl in *; try done.
  destruct (finish_ok _ _ _ Hok) as [H1 H2].
  destruct (IH ns (ChargeLedger.commit onLedger written c n w)) as [H3 H4]; [lia|by rewrite commit_lw|].
  split; [done|]. intros k. by rewrite H4, commit_lw, <- H2.
Qed.

Lemma takeLoop_out entries l : snd (takeLoop entries l) = entries.*2.
Proof.
  revert l. induction entries as [|[k c] entries IH]; intros l; [done|]. simpl. set (l1 := mkLedger _ _).
  specialize (IH l1). destruct (takeLoop entries l1). simpl in *. by rewrite IH.
Qed.

(** ** A commit *)

(** What a commit leaves: with the commit refused nothing moved; with it done,
    what was queued is on the counters and off the ledger. *)
Definition commit_post (now : Z) (out : list Charge) (d : D) (w : W) (d' : D) (w' : W) (ok : bool) : Prop :=
  ledger_ok (lw w') out /\
  forall k, fits (counter_at now d k) (queued_on k (lw w)) ->
  if ok then counter_at now d' k = (fun n => n + queued_on k (lw w)) <$> counter_at now d k /\
             Pending k (lw w') = Pending k (lw w) - queued_on k (lw w)
  else counter_at now d' k = counter_at now d k /\ Pending k (lw w') = Pending k (lw w).

(** The charges taken from the ledger are written, or put back. *)
Lemma commitTaken_charges io now fill b (w w1 : W) charges b' w' r out :
  0 <= now -> ledger_ok (lw w) out -> ledger_ok (lw w1) (charges ++ out) ->
  (forall k, queued_on k (lw w1) = 0) -> (forall k, held_on k charges = queued_on k (lw w)) ->
  Forall (charge_ttl_ok now) charges -> charges ≡ₚ (map_to_list (lg_pending (lw w))).*2 ->
  (forall x k, x ∈ fill -> touches x (StringKey k) = false) -> no_ghost (io 0%nat) ->
  commitTaken onLedger written io now fill charges b w1 = (b', w', r) ->
  commit_post now out (b_db b) w (b_db b') w' (is_ok r).
Proof.
  intros Hn Hok Hok1 Hq0 Hq Httl Hch Hfill Hf.
  assert (commit_post now out (b_db b) w (b_db b) (untakeAll onLedger charges w1) false) as Hundo.
  { destruct (untakeAll_ok charges w1 out Hok1) as [H1 H2]. split; [done|]. intros k _. split; [done|].
    by rewrite (Pending_split _ _ _ H1), (Pending_split _ _ _ Hok), H2, Hq0, Hq. }
  unfold commitTaken. destruct (chargeLoop _ _ _ charges) as [[ws ns]|e] eqn:Hc; [|intros [= <- <- <-]; exact Hundo].
  destruct (p_write _ _ _) as [d1 [[]|e]] eqn:Hw; intros [= <- <- <-].
  2:{ apply p_write_err in Hw as ->; [exact Hundo|done]. }
  apply p_write_ok in Hw as ->.
  destruct (reportAll_ok charges ns w1 out (chargeLoop_length _ _ _ _ _ _ Hc) Hok1) as [H1 H2]. split; [done|]. intros k Hfit. split.
  - eapply (chargeLoop_counters (io_next 1 io) now (b_db b) _ charges ws ns (apply_batch (pview (b_db b)) fill));
      [done..| |done|done| |].
    + intros key c Hkc. by apply (ok_queued _ _ Hok) in Hkc as [? _].
    + apply apply_batch_other. auto.
    + cbn [noteCommit set_bdb b_db]. by rewrite view_commit, apply_batch_app.
  - rewrite (Pending_split _ _ _ H1), (Pending_split _ _ _ Hok), H2, Hq0. lia.
Qed.

Lemma commit_charges io now fill b w b' w' r out :
  0 <= now -> ledger_ok (lw w) out -> map_Forall (fun _ => charge_ttl_ok now) (lg_pending (lw w)) ->
  (forall x k, x ∈ default [] fill -> touches x (StringKey k) = false) -> no_ghost (io 0%nat) ->
  commitWithCharges some_ledger onLedger written io now fill b w = (b', w', r) ->
  commit_post now out (b_db b) w (b_db b') w' (is_ok r).
Proof.
  intros Hn Hok Httl Hfill Hf. unfold commitWithCharges.
  pose proof (takeAll_ok (lw w) out _ (fst (takeAll (lw w))) (snd (takeAll (lw w))) Hok (reflexivity _) (surjective_pairing _)) as (Hok1 & Hq & Hem).
  set (w1 := onLedger _ w). set (charges := snd (takeAll (lw w))) in *.
  assert (charges = (map_to_list (lg_pending (lw w))).*2) as Hch by apply takeLoop_out.
  assert (lw w1 = fst (takeAll (lw w))) as Hw1 by (unfold w1; by rewrite lw_on). rewrite <- Hw1 in *.
  assert (forall k, queued_on k (lw w1) = 0) as Hq0 by (intros k; unfold queued_on; by rewrite Hem, lookup_empty).
  assert (forall k, held_on k charges = queued_on k (lw w)) as Hh by (intros k; rewrite <- Hq, Hq0; lia).
  assert (Forall (charge_ttl_ok now) charges) as Httl'.
  { rewrite Hch. apply Forall_forall. intros c Hin. apply list_elem_of_fmap in Hin as ([key c1] & -> & Hin).
    apply elem_of_map_to_list in Hin. exact (Httl _ _ Hin). }
  assert (charges ≡ₚ (map_to_list (lg_pending (lw w))).*2) as Hperm by by rewrite Hch.
  clearbody charges w1. destruct fill as [fill|]; [|destruct charges as [|c0 cs]].
  1,3: by eapply commitTaken_charges.
  intros [= <- <- <-]. simpl in *. split; [done|]. intros k _. rewrite <- Hh. split.
  - destruct (counter_at now (b_db b) k) as [n|]; [|done]. simpl. f_equal. lia.
  - rewrite (Pending_split _ _ _ Hok1), (Pending_split _ _ _ Hok), Hq0, <- Hh. simpl. lia.
Qed.
End Charges.

Lemma entry_spares_counters (name data : string) st k x : x ∈ entryWrites name data st -> touches x (StringKey k) = false.
Proof. intros [->|[->|Hn]%elem_of_cons]%elem_of_cons; [done..|]. by apply elem_of_nil in Hn. Qed.

Lemma publish_charges {D} `{PL : PebbleLaws D} {W} {onLedger written} {lw : W -> ChargeLedger} `{LW : !LedgerWorld W onLedger written lw}
    io now name data (b : Broker D) w b' w' r out :
  0 <= now -> ledger_ok (lw w) out -> map_Forall (fun _ => charge_ttl_ok now) (lg_pending (lw w)) -> no_ghost (io 1%nat) ->
  publish (fun w => Some (lw w)) onLedger written io now name data b w = (b', w', r) ->
  commit_post (lw := lw) now out (b_db b) w (b_db b') w' (is_ok r).
Proof.
  intros Hn Hok Httl Hf. unfold publish. destruct (streamLocked _ name b) as [b1 r1] eqn:Hl.
  assert (b_db b1 = b_db b) as Hd1.
  { unfold streamLocked in Hl. destruct (b_streams b !! name); [by simplify_eq|]. destruct (p_get _ _ _); by simplify_eq. }
  destruct r1 as [st|e].
  2:{ intros [= <- <- <-]. cbn [noteCommit b_db]. rewrite Hd1. split; [done|]. intros k _. done. }
  destruct (commitWithCharges _ _ _ _ _ _ _ _) as [[b2 w2] r2] eqn:Hc.
  apply (commit_charges _ _ _ _ _ _ _ _ out) in Hc; [|done..| |done].
  2:{ intros x k. apply entry_spares_counters. }
  cbn [set_stream b_db] in Hc. rewrite Hd1 in Hc. by destruct r2 as [[]|e2]; intros [= <- <- <-].
Qed.

Section Claim.
Context {D : Type} `{PO : !PebbleOps D} `{PL : !PebbleLaws D}.
Context {W : Type} {onLedger : (ChargeLedger -> ChargeLedger) -> W -> W}
  {written : option (string -> Z -> Z -> W -> W)} {lw : W -> ChargeLedger} `{LW : !LedgerWorld W onLedger written lw}.

(** C28. A relay and the charges served so far land together or not at all. A
    publish that succeeds stores the relay and adds to every counter exactly
    what the ledger had queued for it, which then leaves the ledger; one that
    fails leaves the store untouched and the ledger counting what it counted.
    Either way what a counter reads plus what the ledger counts is what it was. *)
Theorem relay_lands_with_charges {M : Type} (Unmarshal : string -> option M) (name : string) (lost : gset string) (c : Consumer) (io : Io) (now : Z) (data : string)
    (b : Broker D) (w : W) (b' : Broker D) (w' : W) (r : result stream StoreErr) (out : list Charge) (k : string) (n : Z) :
  no_nul name -> queue_ok Unmarshal name lost b c -> room name (b_db b) -> no_ghost (io 1%nat) ->
  0 <= now -> ledger_ok (lw w) out -> map_Forall (fun _ => charge_ttl_ok now) (lg_pending (lw w)) ->
  counter_at now (b_db b) k = Some n -> in_int64 (n + queued_on k (lw w)) ->
  publish (fun w => Some (lw w)) onLedger written io now name data b w = (b', w', r) ->
  publish_post name b data b' r /\
  (exists n', counter_at now (b_db b') k = Some n' /\ n' + Pending k (lw w') = n + Pending k (lw w)) /\
  counter_at now (b_db b') k = Some (if is_ok r then n + queued_on k (lw w) else n).
Proof.
  intros Hname Hq Hroom Hf Hn Hok Httl Hk Hfit Hp.
  pose proof Hp as Hp'. eapply publish_own in Hp' as [_ Hpost]; [|exact Hf|exact Hroom|exact Hq]. split; [done|].
  destruct (publish_charges _ _ _ _ _ _ _ _ _ out Hn Hok Httl Hf Hp) as [_ Hc].
  specialize (Hc k). rewrite Hk in Hc. specialize (Hc Hfit). destruct (is_ok r); destruct Hc as [-> ->]; simpl.
  - split; [|done]. eexists. split; [done|]. lia.
  - split; [|done]. eexists. split; [done|]. lia.
Qed.
End Claim.

Module ChargesExample.
Import QueueExample.

#[export] Instance ledger_world : LedgerWorld ChargeLedger (fun f => f) None id.
Proof. split; done. Qed.

Definition led : ChargeLedger := Add "meter:s:consumed" "sup" 7 (3600 * 10 ^ 9) NewChargeLedger.
Definition pub_1 := publish (fun w : ChargeLedger => Some (id w)) (fun f => f) None io_ok (T 0) "sup" "relay" (NewBroker (∅ : DB)) led.

Lemma led_ok : ledger_ok led [].
Proof. apply (Add_ok _ _ "meter:s:consumed" "sup" 7 (3600 * 10 ^ 9) NewChargeLedger_ok); vm_compute; [reflexivity|discriminate]. Qed.

Lemma relay_lands_with_charges_witness :
  pub_1.2 = Ok (mkStream 1700000000000 0) /\ counter_at (T 0) (b_db pub_1.1.1) "meter:s:consumed" = Some 7 /\
  publish_post "sup" (NewBroker (∅ : DB)) "relay" pub_1.1.1 pub_1.2 /\
  (exists n', counter_at (T 0) (b_db pub_1.1.1) "meter:s:consumed" = Some n' /\
     n' + Pending "meter:s:consumed" (id pub_1.1.2) = 0 + Pending "meter:s:consumed" (id led)) /\
  counter_at (T 0) (b_db pub_1.1.1) "meter:s:consumed" =
    Some (if is_ok pub_1.2 then 0 + queued_on "meter:s:consumed" (id led) else 0).
Proof.
  split; [vm_compute; reflexivity|]. split; [vm_compute; reflexivity|].
  apply (relay_lands_with_charges (LW := ledger_world) un "sup" ∅ (NewConsumer "sup" 0) io_ok (T 0) "relay" (NewBroker (∅ : DB)) led
    pub_1.1.1 pub_1.1.2 pub_1.2 [] "meter:s:consumed" 0).
  - reflexivity.
  - apply (q_start_ok un "sup" (W := unit) s_0), start_0.
  - vm_compute. reflexivity.
  - discriminate.
  - vm_compute. discriminate.
  - exact led_ok.
  - apply map_Forall_insert_2; [|apply map_Forall_empty]. right. split; vm_compute; [discriminate|split; [discriminate|discriminate]].
  - vm_compute. reflexivity.
  - split; vm_compute; discriminate.
  - apply surjective_pairing.
Defined.
End ChargesExample.
