(* ===== verification/GoFloat.v ===== *)
(** * float64 arithmetic on finite values

    What the relay meter computes in float64: conversions from and to int64,
    products, quotients and math.Ceil, rounded to nearest even on 53 bits. A
    finite value is a mantissa and an exponent. Subnormal and overflowing
    results are not told apart from the values they stand for: the meter only
    truncates, and both read the same there. *)

From S2P Require Import Prelude.

Local Open Scope Z_scope.

Record float64 := mkFloat { f_m : Z; f_e : Z }.

(** The integer nearest to [n / d], ties to even. *)
Definition round_even (n d : Z) : Z :=
  let q := n / d in
  let r := n mod d in
  if 2 * r <? d then q else if d <? 2 * r then q + 1 else if Z.even q then q else q + 1.

(** [n / (d * 2 ^ e)] as a fraction. *)
Definition scaled (n d e : Z) : Z * Z := if 0 <=? e then (n, d * 2 ^ e) else (n * 2 ^ (- e), d).

(** The exponent that leaves 53 bits of [n / d]. *)
Definition exponent (n d : Z) : Z :=
  let g := Z.log2 n - Z.log2 d in
  let '(n', d') := scaled n d g in
  if n' <? d' then g - 53 else g - 52.

Definition round_pos (n d : Z) : float64 :=
  let e := exponent n d in
  let '(n', d') := scaled n d e in mkFloat (round_even n' d') e.

Definition round64 (n d : Z) : float64 :=
  if n =? 0 then mkFloat 0 0
  else if 0 <? n then round_pos n d
  else let f := round_pos (- n) d in mkFloat (- f_m f) (f_e f).

(** [float64(z)] *)
Definition FloatOfInt (z : Z) : float64 := round64 z 1.

Definition FMul (x y : float64) : float64 :=
  let '(n, d) := scaled (f_m x * f_m y) 1 (- (f_e x + f_e y)) in round64 n d.

(** Of a positive divisor, as the meter divides. *)
Definition FDiv (x y : float64) : float64 :=
  let '(n, d) := scaled (f_m x) (f_m y) (f_e y - f_e x) in round64 n d.

(** [math.Ceil] *)
Definition Ceil (x : float64) : Z := if 0 <=? f_e x then f_m x * 2 ^ f_e x else - ((- f_m x) / 2 ^ (- f_e x)).

Definition Truncate (x : float64) : Z := if 0 <=? f_e x then f_m x * 2 ^ f_e x else Z.quot (f_m x) (2 ^ (- f_e x)).

(** [int64(x)]: out of range is left to the machine. *)
Definition Int64OfFloat (oob : Z -> Z) (z : Z) : Z := if decide (in_int64 z) then z else oob z.

(** ** Bounds *)

Lemma round_even_le n d k : 0 < d -> n <= k * d -> round_even n d <= k.
Proof.
  intros Hd Hk. unfold round_even. pose proof (Z.div_mod n d ltac:(lia)) as Hn. pose proof (Z.mod_pos_bound n d Hd) as Hr.
  destruct (Z.ltb_spec (2 * (n mod d)) d), (Z.ltb_spec d (2 * (n mod d))), (Z.even (n / d)); nia.
Qed.

Lemma round_even_ge n d k : 0 < d -> k * d <= n -> k <= round_even n d.
Proof.
  intros Hd Hk. unfold round_even. pose proof (Z.div_mod n d ltac:(lia)) as Hn. pose proof (Z.mod_pos_bound n d Hd) as Hr.
  destruct (Z.ltb_spec (2 * (n mod d)) d), (Z.ltb_spec d (2 * (n mod d))), (Z.even (n / d)); nia.
Qed.

(** More than half past an integer rounds up. *)
Lemma round_even_gt n d k : 0 < d -> 2 * k * d + d < 2 * n -> k + 1 <= round_even n d.
Proof.
  intros Hd Hk. unfold round_even. pose proof (Z.div_mod n d ltac:(lia)) as Hn. pose proof (Z.mod_pos_bound n d Hd) as Hr.
  destruct (Z.ltb_spec (2 * (n mod d)) d), (Z.ltb_spec d (2 * (n mod d))), (Z.even (n / d)); nia.
Qed.

(** [n / d] compared with [2 ^ e]. *)
Lemma scaled_pos n d e : 0 < n -> 0 < d -> 0 < (scaled n d e).1 /\ 0 < (scaled n d e).2.
Proof.
  intros Hn Hd. unfold scaled. destruct (Z.leb_spec 0 e); simpl; split; try done; apply Z.mul_pos_pos; try done; apply Z.pow_pos_nonneg; lia.
Qed.

Definition ratio_ge (n d e : Z) : Prop := (scaled n d e).2 <= (scaled n d e).1.

Lemma ratio_ge_pow n d e : 0 <= e -> ratio_ge n d e <-> d * 2 ^ e <= n.
Proof. intros He. unfold ratio_ge, scaled. by rewrite (proj2 (Z.leb_le 0 e) He). Qed.

Lemma ratio_ge_neg n d e : e <= 0 -> ratio_ge n d e <-> d <= n * 2 ^ (- e).
Proof.
  intros He. unfold ratio_ge, scaled. destruct (Z.leb_spec 0 e); simpl; [|done].
  replace e with 0 by lia. change (- 0) with 0. rewrite Z.pow_0_r. lia.
Qed.

Lemma exponent_spec n d : 0 < n -> 0 < d ->
  ratio_ge n d (exponent n d + 52) /\ ~ ratio_ge n d (exponent n d + 53).
Proof.
  intros Hn Hd. unfold exponent. set (g := Z.log2 n - Z.log2 d).
  pose proof (Z.log2_spec n Hn) as [Hn1 Hn2]. pose proof (Z.log2_spec d Hd) as [Hd1 Hd2].
  pose proof (Z.log2_nonneg n). pose proof (Z.log2_nonneg d). rewrite Z.pow_succ_r in Hn2, Hd2 by done.
  assert (ratio_ge n d (g - 1)) as Hlo.
  { destruct (Z.le_gt_cases 0 (g - 1)) as [Hg|Hg].
    - apply ratio_ge_pow; [done|].
      assert (2 ^ Z.log2 n = 2 ^ (g - 1) * (2 * 2 ^ Z.log2 d)) as E.
      { rewrite <- Z.pow_succ_r, <- Z.pow_add_r by lia. f_equal. unfold g. lia. }
      assert (0 < 2 ^ (g - 1)) by (apply Z.pow_pos_nonneg; lia). nia.
    - apply ratio_ge_neg; [lia|].
      assert (2 * 2 ^ Z.log2 d = 2 ^ Z.log2 n * 2 ^ (- (g - 1))) as E.
      { rewrite <- Z.pow_succ_r, <- Z.pow_add_r by lia. f_equal. unfold g. lia. }
      assert (0 < 2 ^ (- (g - 1))) by (apply Z.pow_pos_nonneg; lia). nia. }
  assert (~ ratio_ge n d (g + 1)) as Hhi.
  { destruct (Z.le_gt_cases 0 (g + 1)) as [Hg|Hg].
    - rewrite ratio_ge_pow by done.
      assert (2 * 2 ^ Z.log2 n = 2 ^ (g + 1) * 2 ^ Z.log2 d) as E.
      { rewrite <- Z.pow_succ_r, <- Z.pow_add_r by lia. f_equal. unfold g. lia. }
      assert (0 < 2 ^ (g + 1)) by (apply Z.pow_pos_nonneg; lia). nia.
    - rewrite ratio_ge_neg by lia.
      assert (2 ^ Z.log2 d = 2 * 2 ^ Z.log2 n * 2 ^ (- (g + 1))) as E.
      { rewrite <- Z.pow_succ_r, <- Z.pow_add_r by lia. f_equal. unfold g. lia. }
      assert (0 < 2 ^ (- (g + 1))) by (apply Z.pow_pos_nonneg; lia). nia. }
  destruct (scaled n d g) as [n' d'] eqn:Hs. assert (n' < d' <-> ~ ratio_ge n d g) as Hg.
  { unfold ratio_ge. rewrite Hs. simpl. lia. }
  destruct (Z.ltb_spec n' d') as [Hlt|Hge].
  - replace (g - 53 + 52) with (g - 1) by lia. replace (g - 53 + 53) with g by lia. tauto.
  - replace (g - 52 + 52) with g by lia. replace (g - 52 + 53) with (g + 1) by lia. split; [|done].
    destruct (Z.le_gt_cases d' n'); [|lia]. unfold ratio_ge. by rewrite Hs.
Qed.

(** An integer of at most 53 bits bounds a fraction and its rounding alike. *)
Lemma round_pos_small n d k : 0 < n -> 0 < d -> k <= 2 ^ 53 -> n <= k * d ->
  exponent n d <= 0 \/ (exponent n d = 1 /\ k = 2 ^ 53).
Proof.
  intros Hn Hd Hk Hle. destruct (exponent_spec n d Hn Hd) as [Hge _].
  destruct (Z.le_gt_cases (exponent n d) 0) as [|Hpos]; [by left|]. right.
  rewrite ratio_ge_pow in Hge by lia.
  destruct (Z.eq_dec (exponent n d) 1) as [He|He].
  - split; [done|]. rewrite He in Hge. change (1 + 52) with 53 in Hge. assert (2 ^ 53 <= k) by nia. lia.
  - exfalso. assert (2 ^ 54 <= 2 ^ (exponent n d + 52)) by (apply Z.pow_le_mono_r; lia).
    change (2 ^ 54) with (2 * 2 ^ 53) in *. assert (0 < 2 ^ 53) by done. nia.
Qed.

Lemma Ceil_le f k : f_m f * 2 ^ Z.max 0 (f_e f) <= k * 2 ^ Z.max 0 (- f_e f) -> Ceil f <= k.
Proof.
  intros H. unfold Ceil. destruct (Z.leb_spec 0 (f_e f)) as [He|He].
  - rewrite (Z.max_r 0 (f_e f)), (Z.max_l 0 (- f_e f)) in H by lia. by rewrite Z.mul_1_r in H.
  - rewrite (Z.max_l 0 (f_e f)), (Z.max_r 0 (- f_e f)), Z.mul_1_r in H by lia.
    assert (0 < 2 ^ (- f_e f)) as Hp by (apply Z.pow_pos_nonneg; lia).
    assert (- k <= (- f_m f) / 2 ^ (- f_e f)); [|lia]. apply Z.div_le_lower_bound; [done|]. lia.
Qed.

Lemma Ceil_ge f k : (k - 1) * 2 ^ Z.max 0 (- f_e f) < f_m f * 2 ^ Z.max 0 (f_e f) -> k <= Ceil f.
Proof.
  intros H. unfold Ceil. destruct (Z.leb_spec 0 (f_e f)) as [He|He].
  - rewrite (Z.max_r 0 (f_e f)), (Z.max_l 0 (- f_e f)) in H by lia. rewrite Z.mul_1_r in H. lia.
  - rewrite (Z.max_l 0 (f_e f)), (Z.max_r 0 (- f_e f)), Z.mul_1_r in H by lia.
    assert (0 < 2 ^ (- f_e f)) as Hp by (apply Z.pow_pos_nonneg; lia).
    assert ((- f_m f) / 2 ^ (- f_e f) < 1 - k); [|lia]. apply Z.div_lt_upper_bound; [done|]. lia.
Qed.

Lemma round_pos_le n d k : 0 < n -> 0 < d -> k <= 2 ^ 53 -> n <= k * d ->
  f_m (round_pos n d) * 2 ^ Z.max 0 (f_e (round_pos n d)) <= k * 2 ^ Z.max 0 (- f_e (round_pos n d)).
Proof.
  intros Hn Hd Hk Hle. pose proof (round_pos_small n d k Hn Hd Hk Hle) as He. unfold round_pos, scaled.
  set (e := exponent n d) in *. destruct He as [He|[-> ->]].
  - assert (0 < 2 ^ (- e)) by (apply Z.pow_pos_nonneg; lia).
    destruct (Z.leb_spec 0 e) as [H0|H0]; cbn [f_m f_e].
    + replace e with 0 in * by lia. change (2 ^ Z.max 0 0) with 1. change (2 ^ Z.max 0 (- 0)) with 1. rewrite Z.pow_0_r, !Z.mul_1_r.
      by apply round_even_le.
    + rewrite (Z.max_l 0 e), (Z.max_r 0 (- e)), Z.mul_1_r by lia. apply round_even_le; [done|]. nia.
  - cbn [Z.leb Z.compare f_m f_e]. change (2 ^ Z.max 0 1) with 2. change (2 ^ Z.max 0 (- (1))) with 1.
    change (2 ^ 1) with 2. assert (round_even n (d * 2) <= 2 ^ 52); [|change (2 ^ 53) with (2 ^ 52 * 2); lia].
    apply round_even_le; [lia|]. change (2 ^ 53) with (2 ^ 52 * 2) in Hle. nia.
Qed.

Lemma round_pos_ge n d : 0 < n -> 0 < d -> 0 <= f_m (round_pos n d).
Proof.
  intros Hn Hd. unfold round_pos. pose proof (scaled_pos n d (exponent n d) Hn Hd). destruct (scaled _ _ _) as [n' d'].
  simpl in *. apply round_even_ge; lia.
Qed.

(** math.Ceil of a quotient of two integers of less than 53 bits is the exact
    ceiling of the quotient. *)
Lemma Ceil_round_pos n d a b : 0 < n -> 0 < d -> 0 < a < 2 ^ 53 -> 0 < b -> n * b = a * d ->
  Ceil (round_pos n d) = (a + b - 1) / b.
Proof.
  intros Hn Hd Ha Hb Hnd. set (c := (a + b - 1) / b).
  assert (a <= c * b /\ (c - 1) * b < a) as [Hc1 Hc2].
  { pose proof (Z.div_mod (a + b - 1) b ltac:(lia)). pose proof (Z.mod_pos_bound (a + b - 1) b Hb). fold c in H. nia. }
  assert (c <= 2 ^ 53) as Hc53 by nia. assert (n <= c * d) as Hle by nia. apply Z.le_antisymm.
  { apply Ceil_le. by apply round_pos_le. }
  assert (exponent n d <= 0) as He0.
  { destruct (round_pos_small n d c Hn Hd Hc53 Hle) as [|[_ H]]; [done|]. nia. }
  destruct (exponent_spec n d Hn Hd) as [Hge _]. apply Ceil_ge. unfold round_pos, scaled. set (e := exponent n d) in *.
  assert (0 < 2 ^ (- e)) as Hp by (apply Z.pow_pos_nonneg; lia).
  (* what is left of 53 bits tells the quotient from the integer below it *)
  assert (b < 2 * 2 ^ (- e)) as Hb2.
  { destruct (Z.le_gt_cases 0 (e + 52)) as [H52|H52].
    - rewrite ratio_ge_pow in Hge by done.
      assert (2 ^ (e + 52) * 2 ^ (- e) = 2 ^ 52) as E by (rewrite <- Z.pow_add_r by lia; f_equal; lia).
      change (2 ^ 53) with (2 * 2 ^ 52) in *. assert (0 < 2 ^ (e + 52)) by (apply Z.pow_pos_nonneg; lia).
      assert (2 ^ (e + 52) * b <= a) by nia. nia.
    - rewrite ratio_ge_neg in Hge by lia.
      assert (2 ^ (- e) = 2 ^ 52 * 2 ^ (- (e + 52))) as E by (rewrite <- Z.pow_add_r by lia; f_equal; lia).
      change (2 ^ 53) with (2 * 2 ^ 52) in *. assert (0 < 2 ^ (- (e + 52))) by (apply Z.pow_pos_nonneg; lia).
      assert (b <= a * 2 ^ (- (e + 52))) by nia. nia. }
  assert (2 * ((c - 1) * 2 ^ (- e)) * d + d < 2 * (n * 2 ^ (- e))) as Hmore.
  { assert ((c - 1) * b + 1 <= a) by lia. apply (Z.mul_lt_mono_pos_r b); [done|].
    replace (2 * (n * 2 ^ (- e)) * b) with (2 * a * d * 2 ^ (- e)) by (transitivity (2 * (n * b) * 2 ^ (- e)); [rewrite Hnd; ring|ring]). nia. }
  destruct (Z.leb_spec 0 e) as [H0|H0]; cbn [f_m f_e].
  - replace e with 0 in * by lia. change (2 ^ Z.max 0 0) with 1. change (2 ^ Z.max 0 (- 0)) with 1.
    change (- 0) with 0 in Hmore. rewrite Z.pow_0_r, !Z.mul_1_r in *.
    pose proof (round_even_gt n d (c - 1) Hd Hmore). lia.
  - rewrite (Z.max_l 0 e), (Z.max_r 0 (- e)), Z.pow_0_r, Z.mul_1_r by lia.
    pose proof (round_even_gt (n * 2 ^ (- e)) d ((c - 1) * 2 ^ (- e)) Hd Hmore). lia.
Qed.

(** An integer of less than 53 bits converts exactly. *)
Lemma FloatOfInt_exact z : 0 < z < 2 ^ 53 -> f_e (FloatOfInt z) <= 0 /\ f_m (FloatOfInt z) = z * 2 ^ (- f_e (FloatOfInt z)).
Proof.
  intros Hz. unfold FloatOfInt, round64. destruct (Z.eqb_spec z 0); [lia|]. rewrite (proj2 (Z.ltb_lt 0 z)) by lia.
  assert (exponent z 1 <= 0) as He by (destruct (round_pos_small z 1 z); lia).
  unfold round_pos, scaled. set (e := exponent z 1) in *.
  assert (forall n, round_even n 1 = n) as Hr.
  { intros x. unfold round_even. by rewrite Z.div_1_r, Z.mod_1_r. }
  destruct (Z.leb_spec 0 e); cbn [f_m f_e]; (split; [done|]); [|apply Hr].
  replace e with 0 by lia. change (- 0) with 0. rewrite Z.pow_0_r, !Z.mul_1_r. apply Hr.
Qed.

Lemma Ceil_FDiv a b : 0 < a < 2 ^ 53 -> 0 < b < 2 ^ 53 -> Ceil (FDiv (FloatOfInt a) (FloatOfInt b)) = (a + b - 1) / b.
Proof.
  intros Ha Hb. destruct (FloatOfInt_exact a Ha) as [Hea Hma]. destruct (FloatOfInt_exact b Hb) as [Heb Hmb].
  unfold FDiv. rewrite Hma, Hmb. set (ea := f_e (FloatOfInt a)) in *. set (eb := f_e (FloatOfInt b)) in *.
  assert (0 < 2 ^ (- ea)) by (apply Z.pow_pos_nonneg; lia). assert (0 < 2 ^ (- eb)) by (apply Z.pow_pos_nonneg; lia).
  pose proof (scaled_pos (a * 2 ^ (- ea)) (b * 2 ^ (- eb)) (eb - ea) ltac:(nia) ltac:(nia)) as Hp.
  assert ((scaled (a * 2 ^ (- ea)) (b * 2 ^ (- eb)) (eb - ea)).1 * b = a * (scaled (a * 2 ^ (- ea)) (b * 2 ^ (- eb)) (eb - ea)).2) as Hx.
  { unfold scaled. destruct (Z.leb_spec 0 (eb - ea)); simpl.
    - assert (2 ^ (- eb) * 2 ^ (eb - ea) = 2 ^ (- ea)) as E by (rewrite <- Z.pow_add_r by lia; f_equal; lia). rewrite <- E. ring.
    - assert (2 ^ (- ea) * 2 ^ (- (eb - ea)) = 2 ^ (- eb)) as E by (rewrite <- Z.pow_add_r by lia; f_equal; lia). rewrite <- E. ring. }
  destruct (scaled _ _ _) as [n d]. simpl in *. unfold round64. destruct (Z.eqb_spec n 0); [lia|].
  rewrite (proj2 (Z.ltb_lt 0 n)) by lia. apply Ceil_round_pos; lia.
Qed.

(** A factor from 0 to 1. *)
Definition in_unit (f : float64) : Prop := 0 <= f_m f /\ f_m f * 2 ^ Z.max 0 (f_e f) <= 2 ^ Z.max 0 (- f_e f).

Lemma Truncate_Ceil f : 0 <= f_m f -> 0 <= Truncate f <= Ceil f.
Proof.
  intros Hm. unfold Truncate, Ceil. destruct (Z.leb_spec 0 (f_e f)) as [He|He].
  - assert (0 < 2 ^ f_e f) by (apply Z.pow_pos_nonneg; lia). nia.
  - assert (0 < 2 ^ (- f_e f)) as Hp by (apply Z.pow_pos_nonneg; lia). rewrite Z.quot_div_nonneg by lia.
    split; [apply Z.div_pos; lia|]. pose proof (Z.div_mod (f_m f) (2 ^ (- f_e f)) ltac:(lia)).
    pose proof (Z.mod_pos_bound (f_m f) _ Hp). pose proof (Z.div_mod (- f_m f) (2 ^ (- f_e f)) ltac:(lia)).
    pose proof (Z.mod_pos_bound (- f_m f) _ Hp). nia.
Qed.

Lemma FMul_unit z f : 0 < z < 2 ^ 53 -> in_unit f -> 0 <= Truncate (FMul (FloatOfInt z) f) <= z.
Proof.
  intros Hz [Hf0 Hf1]. destruct (FloatOfInt_exact z Hz) as [Hez Hmz]. unfold FMul. rewrite Hmz.
  set (ez := f_e (FloatOfInt z)) in *. assert (0 < 2 ^ (- ez)) as Hp by (apply Z.pow_pos_nonneg; lia).
  assert (0 <= (scaled (z * 2 ^ (- ez) * f_m f) 1 (- (ez + f_e f))).1 /\ 0 < (scaled (z * 2 ^ (- ez) * f_m f) 1 (- (ez + f_e f))).2 /\
    (scaled (z * 2 ^ (- ez) * f_m f) 1 (- (ez + f_e f))).1 <= z * (scaled (z * 2 ^ (- ez) * f_m f) 1 (- (ez + f_e f))).2) as Hs.
  { unfold scaled. rewrite Z.opp_involutive. destruct (Z.leb_spec 0 (- (ez + f_e f))) as [H0|H0]; simpl.
    - assert (0 < 2 ^ (- (ez + f_e f))) by (apply Z.pow_pos_nonneg; lia). split_and!; [nia|lia|].
      destruct (Z.le_gt_cases 0 (f_e f)) as [Hfe|Hfe].
      + rewrite (Z.max_r 0 (f_e f)), (Z.max_l 0 (- f_e f)), Z.pow_0_r in Hf1 by lia.
        assert (2 ^ (- (ez + f_e f)) * 2 ^ f_e f = 2 ^ (- ez)) as E by (rewrite <- Z.pow_add_r by lia; f_equal; lia).
        rewrite <- E. nia.
      + rewrite (Z.max_l 0 (f_e f)), (Z.max_r 0 (- f_e f)), Z.pow_0_r, Z.mul_1_r in Hf1 by lia.
        assert (2 ^ (- (ez + f_e f)) = 2 ^ (- ez) * 2 ^ (- f_e f)) as E by (rewrite <- Z.pow_add_r by lia; f_equal; lia).
        rewrite E. nia.
    - assert (0 < 2 ^ (ez + f_e f)) by (apply Z.pow_pos_nonneg; lia). split_and!; [nia|lia|].
      rewrite (Z.max_r 0 (f_e f)), (Z.max_l 0 (- f_e f)), Z.pow_0_r in Hf1 by lia.
      assert (2 ^ (- ez) * 2 ^ (ez + f_e f) = 2 ^ f_e f) as E by (rewrite <- Z.pow_add_r by lia; f_equal; lia).
      replace (z * 2 ^ (- ez) * f_m f * 2 ^ (ez + f_e f)) with (z * (f_m f * (2 ^ (- ez) * 2 ^ (ez + f_e f)))) by ring. rewrite E. nia. }
  destruct (scaled _ _ _) as [n d]. simpl in Hs. destruct Hs as (H0 & Hd & Hle). unfold round64.
  destruct (Z.eqb_spec n 0); [cbn; lia|]. rewrite (proj2 (Z.ltb_lt 0 n)) by lia.
  pose proof (Truncate_Ceil _ (round_pos_ge n d ltac:(lia) Hd)).
  pose proof (Ceil_le _ _ (round_pos_le n d z ltac:(lia) Hd ltac:(lia) Hle)). lia.
Qed.
