(* ===== verification/RelayMeter.v ===== *)
(** * The relay meter (relayer/relay_meter.go)

    Admission of relays against the budget of a (session, supplier) pair: the
    view of each consumed counter, what admitted relays hold, and the ledger of
    charges served and not written yet; the session meter's budget, computed
    from the application's stake and cached in memory and in the store; the
    policy on failures; warm-up and cleanup. The store is the key-value surface
    of KvStore; chain queries, caches and the JSON of the stored metadata are
    parameters. *)

From S2P Require Import Prelude SessionState StoreSpec KeyBuilder ChargeLedger KvStore GoFloat.
From Stdlib Require Import Ascii String.

Local Open Scope string_scope.
Local Open Scope Z_scope.

(** ** Data *)

Record SessionMeterMeta := mkMeta {
  sm_SessionID : string;
  sm_AppAddress : string;
  sm_ServiceID : string;
  sm_SupplierAddress : string;
  sm_SessionEndHeight : Z;
  sm_MaxStakeUpokt : Z;
  sm_CreatedAt : Z;
  sm_CreatedWithFactor : float64;
  sm_CreatedWithAppStake : Z
}.

(** Of the shared params, what the meter reads; the last field is what the
    chain's GetSessionEndToProofWindowCloseBlocks answers for them. *)
Record SharedParams := mkShared {
  NumBlocksPerSession : Z;
  ComputeUnitsToTokensMultiplier : Z;
  ComputeUnitCostGranularity : Z;
  SessionEndToProofWindowCloseBlocks : Z
}.

(** What the meter's collaborators answer during a call. [None] is a
    collaborator that is not wired. *)
Record Chain := mkChain {
  dispatcherHealth : option bool;
  GetLatestSharedParams : option SharedParams;
  GetSharedParams : Z -> option SharedParams;
  NumSuppliersPerSession : option Z;
  GetApplication : string -> option (option (option Z));
  GetServiceFactor : option (string -> option float64);
  computeUnitsProvider : option (string -> Z -> Z);
  serviceCache : option (string -> option Z)
}.

(** Who a failure is charged to: the meter's store, or the chain. *)
Inductive Cause := CStore | CChain.

Inductive MeterErr :=
| EClosed
| EStoreUnavailable (operation : string)
| ECouldNotMeter (operation : string).

Record RelayMeter := mkMeter {
  mt_closed : bool;
  localCache : gmap string SessionMeterMeta;
  mt_ledger : ChargeLedger;
  mt_seen : gmap string Z;
  mt_inFlight : gmap string Z
}.

Definition set_cache (c : gmap string SessionMeterMeta) (m : RelayMeter) : RelayMeter :=
  mkMeter (mt_closed m) c (mt_ledger m) (mt_seen m) (mt_inFlight m).
Definition set_ledger (l : ChargeLedger) (m : RelayMeter) : RelayMeter :=
  mkMeter (mt_closed m) (localCache m) l (mt_seen m) (mt_inFlight m).
Definition set_seen (s : gmap string Z) (m : RelayMeter) : RelayMeter :=
  mkMeter (mt_closed m) (localCache m) (mt_ledger m) s (mt_inFlight m).
Definition set_inFlight (f : gmap string Z) (m : RelayMeter) : RelayMeter :=
  mkMeter (mt_closed m) (localCache m) (mt_ledger m) (mt_seen m) f.

Definition NewRelayMeter : RelayMeter := mkMeter false ∅ NewChargeLedger ∅ ∅.

Record Reservation := mkReservation { rv_key : string; rv_supplier : string; rv_cost : Z }.
Definition noReservation : Reservation := mkReservation "" "" 0.

Definition localCacheKey (sessionID supplierAddress : string) : string := sessionID +:+ "|" +:+ supplierAddress.

Definition meterOperationDispatcherHeartbeat : string := "dispatcher heartbeat".

(** [handleMeterError]: the store is ours and refuses; the chain may blink. *)
Definition handleMeterError (operation : string) (cause : Cause) : bool * option MeterErr :=
  match cause with
  | CStore => (false, Some (EStoreUnavailable operation))
  | CChain => (true, Some (ECouldNotMeter operation))
  end.

(** [parseCounter]: a counter not written yet is 0. *)
Definition parseCounter (raw : option string) : option Z :=
  match raw with None => Some 0 | Some s => ParseInt s end.

(** [readCounter]: [Ok None] is kv.ErrNotFound. *)
Definition readCounter (r : result (option string) StoreErr) : option Z :=
  match r with Ok raw => parseCounter raw | Err _ => None end.

(** Equality of float64 values. *)
Definition FEq (x y : float64) : bool :=
  let e := Z.min (f_e x) (f_e y) in f_m x * 2 ^ (f_e x - e) =? f_m y * 2 ^ (f_e y - e).

Section Pricing.
(** What a conversion to int64 of a value out of range gives. *)
Variable oob : Z -> Z.

(** [getServiceComputeUnits] *)
Definition getServiceComputeUnits (ch : Chain) (serviceID : string) (sessionStartHeight : Z) : Z :=
  match computeUnitsProvider ch with
  | Some provider =>
      if 0 <? sessionStartHeight then provider serviceID sessionStartHeight
      else match serviceCache ch with
           | None => 1
           | Some get => match get serviceID with None => 1 | Some u => if u =? 0 then 1 else u end
           end
  | None =>
      match serviceCache ch with
      | None => 1
      | Some get => match get serviceID with None => 1 | Some u => if u =? 0 then 1 else u end
      end
  end.

(** [getSharedParams] *)
Definition getSharedParams (ch : Chain) (height : Z) : option SharedParams :=
  if 0 <? height then GetSharedParams ch height else GetLatestSharedParams ch.

(** [getRelayCost]: compute units times multiplier over granularity, in
    rationals, the fraction dropped. *)
Definition getRelayCost (ch : Chain) (serviceID : string) (sessionStartHeight : Z) : result Z Cause :=
  match getSharedParams ch sessionStartHeight with
  | None => Err CChain
  | Some p =>
      let units := getServiceComputeUnits ch serviceID sessionStartHeight in
      if ComputeUnitCostGranularity p =? 0 then Err CChain
      else Ok (Int64OfFloat oob
                 (Z.quot (units * wrap64 (ComputeUnitsToTokensMultiplier p)) (wrap64 (ComputeUnitCostGranularity p))))
  end.

(** [getAppStake]: an application without a stake, or a stake without an
    amount, is an error. *)
Definition getAppStake (ch : Chain) (appAddress : string) : option Z :=
  match GetApplication ch appAddress with
  | None => None
  | Some None => None
  | Some (Some None) => None
  | Some (Some (Some amount)) => Some amount
  end.

(** The sessions an application's stake is shared over: those closed and
    waiting for settlement, rounded up, and the current one. *)
Definition pendingSessions (p : SharedParams) : Z :=
  let blocks := SessionEndToProofWindowCloseBlocks p in
  let blocks := if blocks =? 0 then 1 else blocks in
  let perSession := wrap64 (NumBlocksPerSession p) in
  let perSession := if perSession =? 0 then 1 else perSession in
  wrap64 (Int64OfFloat oob (Ceil (FDiv (FloatOfInt blocks) (FloatOfInt perSession))) + 1).

Definition baseLimit (appStake suppliers : Z) (p : SharedParams) : Z :=
  let numSuppliers := wrap64 suppliers in
  let numSuppliers := if numSuppliers =? 0 then 1 else numSuppliers in
  wrap64 (Z.quot (wrap64 (Z.quot appStake numSuppliers)) (pendingSessions p)).

(** [calculateMaxStake]: the limit, the factor and the stake it came from. *)
Definition calculateMaxStake (ch : Chain) (appAddress serviceID : string) (sessionEndHeight currentHeight : Z)
  : result (Z * float64 * Z) Cause :=
  match getAppStake ch appAddress with
  | None => Err CChain
  | Some appStake =>
      match (if (currentHeight <=? 0) || (currentHeight <=? sessionEndHeight)
             then GetLatestSharedParams ch else GetSharedParams ch sessionEndHeight) with
      | None => Err CChain
      | Some p =>
          match NumSuppliersPerSession ch with
          | None => Err CChain
          | Some suppliers =>
              let factor := match GetServiceFactor ch with Some get => get serviceID | None => None end in
              match factor with
              | Some f => Ok (Int64OfFloat oob (Truncate (FMul (FloatOfInt appStake) f)), f, appStake)
              | None => Ok (baseLimit appStake suppliers p, mkFloat 0 0, appStake)
              end
          end
      end
  end.
End Pricing.

(** The JSON of the stored metadata. *)
Class MeterJson := {
  meta_enc : SessionMeterMeta -> string;
  meta_dec : string -> option SessionMeterMeta
}.

Class MeterJsonLaws `{!MeterJson} := meta_dec_enc m : meta_dec (meta_enc m) = Some m.

(** The [k]-th store call of an operation. *)
Definition Ios : Type := nat -> Io.
Definition ios_ok : Ios := fun _ => io_ok.
Definition ios_next (n : nat) (ios : Ios) : Ios := fun k => ios (n + k)%nat.

Section Meter.
Context {K : Type} `{KO : !KvOps K} `{MJ : !MeterJson}.
Variable kb : KeyBuilder.
Variable CacheTTL : Z.
Variable oob : Z -> Z.

Definition metaKey (sessionID supplier : string) : string := MeterMetaKey kb sessionID supplier.
Definition consumedKey (sessionID supplier : string) : string := MeterConsumedKey kb sessionID supplier.

(** ** The session meter *)

(** [getSessionMeta]: unreadable metadata is deleted and reported as the
    store's failure. *)
Definition getSessionMeta (ios : Ios) (now : Z) (sessionID supplier : string) (s : K)
  : K * result (option SessionMeterMeta) Cause :=
  match kv_get (ios 0%nat) now s (metaKey sessionID supplier) with
  | Err _ => (s, Err CStore)
  | Ok None => (s, Ok None)
  | Ok (Some data) =>
      match meta_dec data with
      | Some meta => (s, Ok (Some meta))
      | None => (fst (kv_del (ios 1%nat) now s [metaKey sessionID supplier]), Err CStore)
      end
  end.

Definition currentFactor (ch : Chain) (serviceID : string) : float64 :=
  match GetServiceFactor ch with
  | Some get => match get serviceID with Some f => f | None => mkFloat 0 0 end
  | None => mkFloat 0 0
  end.

(** [fresh]: the metadata was computed from the inputs observed now; a stake
    that could not be read is not held against it. *)
Definition fresh (ch : Chain) (appAddress serviceID : string) (meta : SessionMeterMeta) : bool :=
  if negb (FEq (sm_CreatedWithFactor meta) (currentFactor ch serviceID)) then false
  else match getAppStake ch appAddress with
       | Some stake => sm_CreatedWithAppStake meta =? stake
       | None => true
       end.

Definition put_cache (key : string) (meta : SessionMeterMeta) (m : RelayMeter) : RelayMeter :=
  set_cache (<[key := meta]> (localCache m)) m.

Definition with_limit (limit : Z) (factor : float64) (stake : Z) (meta : SessionMeterMeta) : SessionMeterMeta :=
  mkMeta (sm_SessionID meta) (sm_AppAddress meta) (sm_ServiceID meta) (sm_SupplierAddress meta)
    (sm_SessionEndHeight meta) limit (sm_CreatedAt meta) factor stake.

(** [getOrCreateSessionMeter]. [others n true] is what other replicas do to the
    store before the read of a round, [others n false] before its SETNX; when
    they created the metadata first the function starts over, so the rounds are
    bounded by [fuel], [None] being a call that has not returned. *)
Fixpoint getOrCreateSessionMeter (fuel : nat) (others : nat -> bool -> K -> K) (ch : Chain) (ios : Ios) (now : Z)
    (sessionID appAddress serviceID supplier : string) (sessionEndHeight currentHeight : Z) (s : K) (m : RelayMeter)
  : K * RelayMeter * option (result (SessionMeterMeta * Z) Cause) :=
  let cacheKey := localCacheKey sessionID supplier in
  let hit := match localCache m !! cacheKey with
             | Some meta => if fresh ch appAddress serviceID meta then Some meta else None
             | None => None
             end in
  match hit with
  | Some meta => (s, m, Some (Ok (meta, sm_MaxStakeUpokt meta)))
  | None =>
      match getSessionMeta ios now sessionID supplier (others fuel true s) with
      | (s1, Err e) => (s1, m, Some (Err e))
      | (s1, Ok (Some meta)) =>
          if fresh ch appAddress serviceID meta
          then (s1, put_cache cacheKey meta m, Some (Ok (meta, sm_MaxStakeUpokt meta)))
          else
            match calculateMaxStake oob ch appAddress serviceID sessionEndHeight currentHeight with
            | Err e => (s1, m, Some (Err e))
            | Ok (newMax, newFactor, newStake) =>
                let meta := with_limit newMax newFactor newStake meta in
                let s2 := fst (kv_put_keep (ios 2%nat) now s1 (metaKey sessionID supplier) (meta_enc meta)) in
                (s2, put_cache cacheKey meta m, Some (Ok (meta, newMax)))
            end
      | (s1, Ok None) =>
          match calculateMaxStake oob ch appAddress serviceID sessionEndHeight currentHeight with
          | Err e => (s1, m, Some (Err e))
          | Ok (maxStake, factorUsed, stakeUsed) =>
              let meta := mkMeta sessionID appAddress serviceID supplier sessionEndHeight maxStake
                            ((now - 62135596800 * 10 ^ 9) / 10 ^ 9) factorUsed stakeUsed in
              let s1 := others fuel false s1 in
              match kv_setnx (ios 2%nat) now s1 (metaKey sessionID supplier) (meta_enc meta) CacheTTL with
              | (s2, Err _) => (s2, m, Some (Err CStore))
              | (s2, Ok false) =>
                  match fuel with
                  | O => (s2, m, None)
                  | S fuel => getOrCreateSessionMeter fuel others ch (ios_next 5 ios) now sessionID appAddress serviceID
                                supplier sessionEndHeight currentHeight s2 m
                  end
              | (s2, Ok true) =>
                  let activeKey := MeterActiveSessionsKey kb in
                  let s3 := fst (kv_sadd (ios 3%nat) now s2 activeKey [cacheKey]) in
                  let s4 := fst (kv_expire (ios 4%nat) now s3 activeKey CacheTTL) in
                  (s4, put_cache cacheKey meta m, Some (Ok (meta, maxStake)))
              end
          end
      end
  end.

(** ** Admission *)

(** [loadSeen]: read when the pair is not viewed yet; the view another call
    filled meanwhile is kept. *)
Definition loadSeen (io : Io) (now : Z) (key : string) (s : K) (m : RelayMeter) : RelayMeter * result unit Cause :=
  match mt_seen m !! key with
  | Some _ => (m, Ok tt)
  | None =>
      match readCounter (kv_get io now s key) with
      | None => (m, Err CStore)
      | Some consumed => (set_seen (<[key := consumed]> (mt_seen m)) m, Ok tt)
      end
  end.

(** The decision, under accMu: what the pair is known to have spent. *)
Definition spent (key : string) (m : RelayMeter) : Z :=
  wrap64 (wrap64 (read0 (mt_seen m) key + read0 (mt_inFlight m) key) + Pending key (mt_ledger m)).

Definition decide_admission (reserve : bool) (key supplier : string) (cost maxStake : Z) (m : RelayMeter)
  : RelayMeter * Reservation * bool :=
  if wrap64 (spent key m + cost) <=? maxStake then
    if reserve
    then (set_inFlight (<[key := wrap64 (read0 (mt_inFlight m) key + cost)]> (mt_inFlight m)) m,
          mkReservation key supplier cost, true)
    else (m, noReservation, true)
  else (m, noReservation, false).

Definition refuse (operation : string) (cause : Cause) : Reservation * bool * option MeterErr :=
  let '(allowed, err) := handleMeterError operation cause in (noReservation, allowed, err).

(** [admit] of the source; [None] is a call whose session meter has not returned. *)
Definition admitRelay (reserve : bool) (fuel : nat) (others : nat -> bool -> K -> K) (ch : Chain) (ios : Ios) (now : Z)
    (sessionID appAddress serviceID supplier : string) (sessionStartHeight sessionEndHeight currentHeight : Z)
    (s : K) (m : RelayMeter) : K * RelayMeter * option (Reservation * bool * option MeterErr) :=
  if mt_closed m then (s, m, Some (noReservation, false, Some EClosed))
  else
    if negb (default false (dispatcherHealth ch))
    then (s, m, Some (refuse meterOperationDispatcherHeartbeat CStore))
    else
      match getRelayCost oob ch serviceID sessionStartHeight with
      | Err e => (s, m, Some (refuse "get relay cost" e))
      | Ok cost =>
          match getOrCreateSessionMeter fuel others ch (ios_next 1 ios) now sessionID appAddress serviceID supplier
                  sessionEndHeight currentHeight s m with
          | (s1, m1, None) => (s1, m1, None)
          | (s1, m1, Some (Err e)) => (s1, m1, Some (refuse "get session meter" e))
          | (s1, m1, Some (Ok (_, maxStake))) =>
              let key := consumedKey sessionID supplier in
              match loadSeen (ios 0%nat) now key s1 m1 with
              | (m2, Err e) => (s1, m2, Some (refuse "read consumed" e))
              | (m2, Ok _) =>
                  let '(m3, r, allowed) := decide_admission reserve key supplier cost maxStake m2 in
                  (s1, m3, Some (r, allowed, None))
              end
          end
      end.

Definition Admit := admitRelay true.

(** [CheckBudget]: what [Admit] would answer, reserving nothing. *)
Definition CheckBudget (fuel : nat) (others : nat -> bool -> K -> K) (ch : Chain) (ios : Ios) (now : Z)
    (sessionID appAddress serviceID supplier : string) (sessionStartHeight sessionEndHeight currentHeight : Z)
    (s : K) (m : RelayMeter) : K * RelayMeter * option (bool * option MeterErr) :=
  let '(s', m', r) := admitRelay false fuel others ch ios now sessionID appAddress serviceID supplier
                        sessionStartHeight sessionEndHeight currentHeight s m in
  (s', m', match r with Some (_, allowed, err) => Some (allowed, err) | None => None end).

(** [releaseLocked] *)
Definition releaseLocked (r : Reservation) (m : RelayMeter) : RelayMeter :=
  set_inFlight (decrement (rv_key r) (rv_cost r) (mt_inFlight m)) m.

(** [Settle] *)
Definition Settle (r : Reservation) (m : RelayMeter) : RelayMeter :=
  if rv_cost r =? 0 then m
  else let m1 := releaseLocked r m in
       set_ledger (Add (rv_key r) (rv_supplier r) (rv_cost r) CacheTTL (mt_ledger m1)) m1.

(** [Release] *)
Definition Release (r : Reservation) (m : RelayMeter) : RelayMeter :=
  if rv_cost r =? 0 then m else releaseLocked r m.

(** [CheckAndConsumeRelay] *)
Definition CheckAndConsumeRelay (fuel : nat) (others : nat -> bool -> K -> K) (ch : Chain) (ios : Ios) (now : Z)
    (sessionID appAddress serviceID supplier : string) (sessionStartHeight sessionEndHeight currentHeight : Z)
    (s : K) (m : RelayMeter) : K * RelayMeter * option (bool * option MeterErr) :=
  match Admit fuel others ch ios now sessionID appAddress serviceID supplier
          sessionStartHeight sessionEndHeight currentHeight s m with
  | (s1, m1, None) => (s1, m1, None)
  | (s1, m1, Some (r, allowed, err)) =>
      match err with
      | Some e => (s1, m1, Some (allowed, Some e))
      | None => if allowed then (s1, Settle r m1, Some (true, None)) else (s1, m1, Some (false, None))
      end
  end.

(** [ChargeServed] *)
Definition ChargeServed (ch : Chain) (sessionID serviceID supplier : string) (sessionStartHeight : Z) (m : RelayMeter)
  : RelayMeter * (bool * option MeterErr) :=
  if mt_closed m then (m, (false, Some EClosed))
  else match getRelayCost oob ch serviceID sessionStartHeight with
       | Err _ => (m, (false, Some (ECouldNotMeter "get relay cost")))
       | Ok cost =>
           let key := consumedKey sessionID supplier in
           let m1 := set_ledger (Add key supplier cost CacheTTL (mt_ledger m)) m in
           match mt_seen m1 !! key, localCache m !! localCacheKey sessionID supplier with
           | Some _, Some meta => (m1, (sm_MaxStakeUpokt meta <=? spent key m1, None))
           | _, _ => (m1, (false, None))
           end
       end.

(** [chargeWritten]: the view only moves up, and only while the pair is viewed. *)
Definition chargeWritten (key : string) (amount consumed : Z) (m : RelayMeter) : RelayMeter :=
  let m1 := match mt_seen m !! key with
            | Some current => if current <? consumed then set_seen (<[key := consumed]> (mt_seen m)) m else m
            | None => m
            end in
  set_ledger (FinishWrite key amount (mt_ledger m1)) m1.

(** ** Warm-up *)

Definition meterWarmupPairsPerRound : nat := 100.

(** [warmPair] *)
Definition warmPair (sessionID supplier : string) (metaBytes consumedBytes : option string) (m : RelayMeter)
  : RelayMeter * bool :=
  match metaBytes with
  | None => (m, false)
  | Some raw =>
      match meta_dec raw with
      | None => (m, false)
      | Some meta =>
          match parseCounter consumedBytes with
          | None => (m, false)
          | Some consumed =>
              let cacheKey := localCacheKey sessionID supplier in
              let m1 := match localCache m !! cacheKey with Some _ => m | None => put_cache cacheKey meta m end in
              let key := consumedKey sessionID supplier in
              match mt_seen m1 !! key with
              | Some _ => (m1, false)
              | None => (set_seen (<[key := consumed]> (mt_seen m1)) m1, true)
              end
          end
      end
  end.

(** The pairs of the active set this replica signs for. *)
Definition warmPairs (signsFor : string -> bool) (members : list string) : list (string * string) :=
  omap (fun member => match str_cut "|" member with
                      | Some (sessionID, supplier) =>
                          if String.eqb sessionID "" || String.eqb supplier "" || negb (signsFor supplier) then None
                          else Some (sessionID, supplier)
                      | None => None
                      end) members.

Fixpoint warmRound (round : list (string * string)) (vals : list (option string)) (m : RelayMeter) (warmed : Z)
  : RelayMeter * Z :=
  match round, vals with
  | (sessionID, supplier) :: round, meta :: consumed :: vals =>
      let '(m1, ok) := warmPair sessionID supplier meta consumed m in
      warmRound round vals m1 (if ok then warmed + 1 else warmed)
  | _, _ => (m, warmed)
  end.

Definition warmKeys (round : list (string * string)) : list string :=
  List.concat (map (fun p => [metaKey p.1 p.2; consumedKey p.1 p.2]) round).

(** The rounds of [WarmFromRedis]; one per pair is more than enough. *)
Fixpoint warmRounds (fuel : nat) (ios : Ios) (now : Z) (pairs : list (string * string)) (s : K) (m : RelayMeter) (warmed : Z)
  : RelayMeter * Z * option Cause :=
  match fuel, pairs with
  | _, [] => (m, warmed, None)
  | O, _ => (m, warmed, None)
  | S fuel, _ =>
      let round := take meterWarmupPairsPerRound pairs in
      match kv_mget (ios 0%nat) now s (warmKeys round) with
      | Err _ => (m, warmed, Some CStore)
      | Ok vals =>
          let '(m1, warmed1) := warmRound round vals m warmed in
          warmRounds fuel (ios_next 1 ios) now (drop meterWarmupPairsPerRound pairs) s m1 warmed1
      end
  end.

(** [WarmFromRedis] *)
Definition WarmFromRedis (ios : Ios) (now : Z) (signsFor : string -> bool) (s : K) (m : RelayMeter)
  : RelayMeter * Z * option Cause :=
  match kv_smembers (ios 0%nat) now s (MeterActiveSessionsKey kb) with
  | Err _ => (m, 0, Some CStore)
  | Ok members =>
      let pairs := warmPairs signsFor members in
      warmRounds (List.length pairs) (ios_next 1 ios) now pairs s m 0
  end.

(** ** Health, cleanup, close *)

(** [CheckRelayHealth]: a cost resolves and the store answers; nothing changes. *)
Definition CheckRelayHealth (ch : Chain) (ping : Fault) (serviceID : string) (m : RelayMeter) : option MeterErr :=
  if mt_closed m then Some EClosed
  else match getRelayCost oob ch serviceID 0 with
       | Err _ => Some (ECouldNotMeter "relay cost unresolved")
       | Ok _ => match ping with FNone => None | _ => Some (EStoreUnavailable "ping") end
       end.

(** [ClearSessionMeter] *)
Definition ClearSessionMeter (ios : Ios) (now : Z) (sessionID supplier : string) (s : K) (m : RelayMeter)
  : K * RelayMeter * result unit StoreErr :=
  let cacheKey := localCacheKey sessionID supplier in
  let key := consumedKey sessionID supplier in
  let m1 := mkMeter (mt_closed m) (delete cacheKey (localCache m)) (Drop key (mt_ledger m))
              (delete key (mt_seen m)) (delete key (mt_inFlight m)) in
  let s1 := fst (kv_srem (ios 0%nat) now s (MeterActiveSessionsKey kb) [cacheKey]) in
  let '(s2, r) := kv_del (ios 1%nat) now s1 [metaKey sessionID supplier; key] in
  (s2, m1, r).

(** One message of [runCleanupSubscription]. *)
Definition cleanupMessage (ios : Ios) (now : Z) (payload : string) (s : K) (m : RelayMeter) : K * RelayMeter :=
  match str_cut "|" payload with
  | Some (sessionID, supplier) =>
      if String.eqb sessionID "" || String.eqb supplier "" then (s, m)
      else fst (ClearSessionMeter ios now sessionID supplier s m)
  | None => (s, m)
  end.

(** [countLocalCacheSessions]: the cached meters of a supplier and service. *)
Definition countLocalCacheSessions (m : RelayMeter) (supplier serviceID : string) : Z :=
  Z.of_nat (size (filter (fun kv => sm_SupplierAddress kv.2 = supplier /\ sm_ServiceID kv.2 = serviceID) (localCache m))).

Definition CloseMeter (m : RelayMeter) : RelayMeter :=
  mkMeter true (localCache m) (mt_ledger m) (mt_seen m) (mt_inFlight m).
End Meter.
