(* ===== verification/MeterBudget.v ===== *)
(** * The budget holds

    One pair's admission over a meter's life: relays admitted, served and
    released, messages served without an admission, dispatches that take,
    write, retry or give up charges, replies reported in any order, and other
    replicas writing the same counter. What this replica serves through
    admission stays within what the budget had left when its view began. *)

From S2P Require Import Prelude SessionState StoreSpec KeyBuilder ChargeLedger KvStore GoFloat RelayMeter.
From Stdlib Require Import Ascii String.

Local Open Scope string_scope.
Local Open Scope Z_scope.

(** ** The counter's writes *)

(** One executed increment: its amount, the value it left, and whether this
    replica was told. *)
Record write := mkWrite { wr_amount : Z; wr_value : Z; wr_reported : bool }.

(** The latest write comes first. *)
Definition log_sum (log : list write) : Z := foldr (fun w n => wr_amount w + n) 0 log.
Definition reported_sum (log : list write) : Z := foldr (fun w n => (if wr_reported w then wr_amount w else 0) + n) 0 log.

Fixpoint log_ok (C0 : Z) (log : list write) : Prop :=
  match log with
  | [] => True
  | w :: older => wr_value w = C0 + log_sum older + wr_amount w /\ 0 <= wr_amount w /\ log_ok C0 older
  end.

(** Every report the view took lifted it. *)
Definition told (view : Z) (log : list write) : Prop := Forall (fun w => wr_reported w = true -> wr_value w <= view) log.

Lemma reported_le C0 log : log_ok C0 log -> 0 <= reported_sum log <= log_sum log.
Proof. induction log as [|w log IH]; simpl; [lia|]. intros (_ & ? & ?). destruct (wr_reported w); specialize (IH H0); lia. Qed.

Lemma told_sum C0 view log : C0 <= view -> log_ok C0 log -> told view log -> C0 + reported_sum log <= view.
Proof.
  intros H0. induction log as [|w log IH]; simpl; [lia|]. intros (Hv & Ha & Hl) Ht. apply Forall_cons in Ht as [Hw Ht].
  destruct (wr_reported w); [|specialize (IH Hl Ht); lia]. pose proof (reported_le _ _ Hl). specialize (Hw eq_refl). lia.
Qed.

(** Telling a write that was not told yet. *)
Definition tell (w : write) : write := mkWrite (wr_amount w) (wr_value w) true.

Lemma log_sum_app a b : log_sum (a ++ b) = log_sum a + log_sum b.
Proof. induction a as [|x a IH]; simpl; [done|]. lia. Qed.

Lemma reported_app a b : reported_sum (a ++ b) = reported_sum a + reported_sum b.
Proof. induction a as [|x a IH]; simpl; [done|]. lia. Qed.

Lemma log_ok_tell C0 a w b : log_ok C0 (a ++ w :: b) -> log_ok C0 (a ++ tell w :: b).
Proof.
  induction a as [|x a IH]; simpl; [done|]. intros (Hv & Ha & Hl). split_and!; [|done|by apply IH].
  rewrite Hv, !log_sum_app. done.
Qed.

Lemma reported_tell a w b : wr_reported w = false -> reported_sum (a ++ tell w :: b) = reported_sum (a ++ w :: b) + wr_amount w.
Proof. intros Hw. rewrite !reported_app. simpl. rewrite Hw. lia. Qed.

Lemma log_amount C0 a w b : log_ok C0 (a ++ w :: b) -> 0 <= wr_amount w.
Proof. induction a as [|x a IH]; simpl; [by intros (_ & ? & _)|]. intros (_ & _ & ?). auto. Qed.

(** ** The pair's life *)

Section Life.
Variable CacheTTL : Z.
(** The pair's counter, what it held when the view began, and the budget. *)
Variable k : string.
Variable C0 : Z.
Variable B : Z.
Hypothesis HC0 : 0 <= C0.

Record life := mkLife {
  lf_m : RelayMeter;
  lf_out : list Charge;
  lf_served : string -> Z;
  lf_written : string -> Z;
  lf_gone : string -> Z;
  lf_holds : list Reservation;
  lf_log : list write;
  lf_unadmitted : Z
}.

Definition held_by (holds : list Reservation) : Z :=
  foldr (fun r n => (if String.eqb (rv_key r) k then rv_cost r else 0) + n) 0 holds.

(** A view of another pair is unconstrained; the pair's own view starts from a
    value its counter had since [C0]. *)
Inductive life_step : life -> life -> Prop :=
| TView m out sv wr gn holds log un key v :
    mt_seen m !! key = None -> (key = k -> C0 <= v) ->
    life_step (mkLife m out sv wr gn holds log un) (mkLife (set_seen (<[key := v]> (mt_seen m)) m) out sv wr gn holds log un)
| TAdmit m out sv wr gn holds log un key supplier cost limit m' r :
    is_Some (mt_seen m !! key) -> 0 < cost -> (key = k -> limit <= B) ->
    read0 (mt_seen m) key + read0 (mt_inFlight m) key + Pending key (mt_ledger m) + cost <= int64_max ->
    decide_admission true key supplier cost limit m = (m', r, true) ->
    life_step (mkLife m out sv wr gn holds log un) (mkLife m' out sv wr gn (r :: holds) log un)
| TSettle m out sv wr gn holds log un r rest :
    holds ≡ₚ r :: rest -> sv (rv_key r) + rv_cost r <= int64_max ->
    life_step (mkLife m out sv wr gn holds log un)
      (mkLife (Settle CacheTTL r m) out (bump sv (rv_key r) (rv_cost r)) wr gn rest log un)
| TRelease m out sv wr gn holds log un r rest :
    holds ≡ₚ r :: rest ->
    life_step (mkLife m out sv wr gn holds log un) (mkLife (Release r m) out sv wr gn rest log un)
| TServe m out sv wr gn holds log un key supplier cost :
    is_Some (mt_seen m !! key) -> 0 < cost -> sv key + cost <= int64_max ->
    life_step (mkLife m out sv wr gn holds log un)
      (mkLife (set_ledger (Add key supplier cost CacheTTL (mt_ledger m)) m) out (bump sv key cost) wr gn holds log
         (un + on key k cost))
| TDispatch m out sv wr gn holds log un l' out' gn' :
    ledger_step (mkAccount (mt_ledger m) out sv wr gn) (mkAccount l' out' sv wr gn') ->
    life_step (mkLife m out sv wr gn holds log un) (mkLife (set_ledger l' m) out' sv wr gn' holds log un)
| TExecute m out sv wr gn holds log un amount :
    0 <= amount ->
    life_step (mkLife m out sv wr gn holds log un)
      (mkLife m out sv wr gn holds (mkWrite amount (C0 + log_sum log + amount) false :: log) un)
| TReport m out sv wr gn holds log un c rest newer w older :
    out ≡ₚ c :: rest -> ch_Key c = k -> log = (newer ++ w :: older)%list -> wr_reported w = false -> wr_amount w = ch_Amount c ->
    life_step (mkLife m out sv wr gn holds log un)
      (mkLife (chargeWritten k (ch_Amount c) (wr_value w) m) rest sv (bump wr k (ch_Amount c)) gn holds
         (newer ++ tell w :: older)%list un)
| TReportOther m out sv wr gn holds log un c rest v :
    out ≡ₚ c :: rest -> ch_Key c <> k ->
    life_step (mkLife m out sv wr gn holds log un)
      (mkLife (chargeWritten (ch_Key c) (ch_Amount c) v m) rest sv (bump wr (ch_Key c) (ch_Amount c)) gn holds log un).

Definition lf_account (s : life) : account := mkAccount (mt_ledger (lf_m s)) (lf_out s) (lf_served s) (lf_written s) (lf_gone s).

Record life_ok (s : life) : Prop := {
  lo_account : account_ok (lf_account s);
  lo_holds : Forall (fun r => 0 < rv_cost r) (lf_holds s);
  lo_inFlight : read0 (mt_inFlight (lf_m s)) k = held_by (lf_holds s) /\ held_by (lf_holds s) <= int64_max;
  lo_log : log_ok C0 (lf_log s);
  lo_written : lf_written s k = reported_sum (lf_log s);
  lo_view : match mt_seen (lf_m s) !! k with
            | Some v => C0 <= v /\ told v (lf_log s)
            | None => reported_sum (lf_log s) = 0 /\ Forall (fun w => wr_reported w = false) (lf_log s) /\ lf_served s k = 0
            end;
  lo_un : 0 <= lf_unadmitted s;
  lo_viewed : mt_seen (lf_m s) !! k = None -> Forall (fun r => rv_key r <> k) (lf_holds s);
  lo_budget : C0 + lf_served s k - lf_gone s k + held_by (lf_holds s) <= Z.max B C0 + lf_unadmitted s
}.

Lemma gone_grows a a' key : ledger_step a a' -> account_ok a -> ac_gone a key <= ac_gone a' key.
Proof.
  intros Hs Hok. pose proof (ao_ledger _ Hok) as Hl.
  assert (forall c rest, ac_out a ≡ₚ c :: rest -> 0 < ch_Amount c) as Hc.
  { intros c rest Hp. pose proof (ok_out _ _ Hl) as Ho. rewrite Hp in Ho. by apply Forall_cons in Ho as [? _]. }
  destruct Hs; simpl in *; try done; apply bump_le.
  - pose proof (queued_pos _ _ (ch_Key c) Hl). specialize (Hc _ _ H). lia.
  - specialize (Hc _ _ H). lia.
  - apply (queued_pos _ _ _ Hl).
Qed.

Lemma held_nonneg_by holds : Forall (fun r => 0 < rv_cost r) holds -> 0 <= held_by holds.
Proof. induction 1; simpl; [lia|]. destruct (String.eqb _ _); lia. Qed.

Lemma held_by_perm a b : a ≡ₚ b -> held_by a = held_by b.
Proof. induction 1; simpl; lia. Qed.

Lemma release_exact m r rest : 0 < rv_cost r -> read0 (mt_inFlight m) k = held_by (r :: rest) ->
  0 <= held_by rest -> held_by (r :: rest) <= int64_max ->
  read0 (mt_inFlight (releaseLocked r m)) k = held_by rest.
Proof.
  intros Hr Hf Hh Hfit. unfold releaseLocked. cbn [set_inFlight mt_inFlight]. simpl in Hf, Hfit.
  destruct (String.eqb_spec (rv_key r) k) as [<-|Hne].
  - rewrite read0_decrement by lia. rewrite String.eqb_refl. lia.
  - unfold decrement, read0 in *. destruct (Z.leb _ 0); rewrite ?lookup_delete_ne, ?lookup_insert_ne by done; lia.
Qed.

(** Reading the view of the pair after a change of another's. *)
Lemma seen_other m key v : key <> k -> mt_seen (set_seen (<[key := v]> (mt_seen m)) m) !! k = mt_seen m !! k.
Proof. intros Hne. simpl. by apply lookup_insert_ne. Qed.

Lemma written_other key a v m : key <> k -> mt_seen (chargeWritten key a v m) !! k = mt_seen m !! k.
Proof.
  intros Hne. unfold chargeWritten. destruct (mt_seen m !! key) as [cur|]; [|done].
  destruct (cur <? v); simpl; [by apply lookup_insert_ne|done].
Qed.

Lemma written_view a v m cur : mt_seen m !! k = Some cur -> mt_seen (chargeWritten k a v m) !! k = Some (Z.max cur v).
Proof.
  intros Hs. unfold chargeWritten. rewrite Hs. destruct (Z.ltb_spec cur v); simpl.
  - rewrite lookup_insert_eq. f_equal. lia.
  - rewrite Hs. f_equal. lia.
Qed.

Lemma written_frame key a v m :
  mt_inFlight (chargeWritten key a v m) = mt_inFlight m /\ mt_ledger (chargeWritten key a v m) = FinishWrite key a (mt_ledger m).
Proof. unfold chargeWritten. destruct (mt_seen m !! key); [destruct (Z.ltb _ _)|]; done. Qed.

Lemma report_account l out sv wr gn c rest :
  out ≡ₚ c :: rest -> account_ok (mkAccount l out sv wr gn) ->
  account_ok (mkAccount (FinishWrite (ch_Key c) (ch_Amount c) l) rest sv (bump wr (ch_Key c) (ch_Amount c)) gn).
Proof. intros Hp. apply ledger_step_ok. apply (LCommit l out sv wr gn c rest 0 Hp). Qed.

Lemma account_pending s : account_ok (lf_account s) ->
  Pending k (mt_ledger (lf_m s)) = lf_served s k - lf_written s k - lf_gone s k /\ 0 <= Pending k (mt_ledger (lf_m s)).
Proof.
  intros Hok. pose proof (ao_ledger _ Hok) as Hl. pose proof (ao_sum _ Hok k) as Hs. simpl in *.
  rewrite (Pending_split _ _ k Hl). pose proof (queued_pos _ _ k Hl). pose proof (held_nonneg k _ (ok_out _ _ Hl)). simpl in *. lia.
Qed.

(** An admission of the pair fits the budget with everything served before. *)
Lemma admit_fits s supplier cost limit m' r :
  life_ok s -> is_Some (mt_seen (lf_m s) !! k) -> 0 < cost -> limit <= B ->
  read0 (mt_seen (lf_m s)) k + read0 (mt_inFlight (lf_m s)) k + Pending k (mt_ledger (lf_m s)) + cost <= int64_max ->
  decide_admission true k supplier cost limit (lf_m s) = (m', r, true) ->
  r = mkReservation k supplier cost /\ read0 (mt_inFlight m') k = held_by (lf_holds s) + cost /\
  mt_seen m' = mt_seen (lf_m s) /\ mt_ledger m' = mt_ledger (lf_m s) /\
  C0 + lf_served s k - lf_gone s k + held_by (lf_holds s) + cost <= B /\ held_by (lf_holds s) + cost <= int64_max.
Proof.
  intros [Ha Hh [Hf Hfit] Hl Hw Hv Hu _ Hb] [v Hs] Hc HB Hmax. rewrite Hs in Hv. destruct Hv as [Hv0 Ht].
  destruct (account_pending s Ha) as [Hp Hp0]. pose proof (told_sum _ _ _ Hv0 Hl Ht) as Hsum. pose proof (held_nonneg_by _ Hh).
  assert (read0 (mt_seen (lf_m s)) k = v) as Hrv by (unfold read0; by rewrite Hs).
  unfold decide_admission, spent. rewrite Hrv, Hf in *. rewrite Hw in Hp.
  rewrite (wrap64_id (v + _)) by (unfold in_int64, int64_min, int64_max in *; lia).
  rewrite (wrap64_id (v + held_by (lf_holds s) + _)) by (unfold in_int64, int64_min, int64_max in *; lia).
  rewrite (wrap64_id (v + _ + _ + cost)) by (unfold in_int64, int64_min, int64_max in *; lia).
  destruct (Z.leb_spec (v + held_by (lf_holds s) + Pending k (mt_ledger (lf_m s)) + cost) limit) as [Hle|]; [|done].
  intros [= <- <-]. cbn [set_inFlight mt_inFlight mt_seen mt_ledger]. split_and!; try done; [|lia..].
  unfold read0. rewrite lookup_insert_eq. simpl. apply wrap64_id. unfold in_int64, int64_min, int64_max in *; lia.
Qed.

Lemma admit_other m key supplier cost limit m' r : key <> k ->
  decide_admission true key supplier cost limit m = (m', r, true) ->
  r = mkReservation key supplier cost /\ read0 (mt_inFlight m') k = read0 (mt_inFlight m) k /\
  mt_seen m' = mt_seen m /\ mt_ledger m' = mt_ledger m.
Proof.
  intros Hne. unfold decide_admission. destruct (Z.leb _ _); [|done]. intros [= <- <-]. simpl. split_and!; try done.
  unfold read0. by rewrite lookup_insert_ne.
Qed.

(** The steps, the pair's own and the others'. *)
Lemma view_ok m out sv wr gn holds log un key v :
  mt_seen m !! key = None -> (key = k -> C0 <= v) -> life_ok (mkLife m out sv wr gn holds log un) ->
  life_ok (mkLife (set_seen (<[key := v]> (mt_seen m)) m) out sv wr gn holds log un).
Proof.
  intros Hn Hv [Ha Hh Hf Hl Hw Hvw Hu Hhv Hb]. cbn [lf_m lf_out lf_served lf_written lf_gone lf_holds lf_log lf_unadmitted] in *.
  split; try done; cbn [lf_m lf_log lf_served lf_holds]; destruct (decide (key = k)) as [->|Hne].
  - rewrite Hn in Hvw. destruct Hvw as (_ & Hno & _). cbn [set_seen mt_seen]. rewrite lookup_insert_eq. split; [auto|].
    eapply Forall_impl; [exact Hno|]. intros w Hw1 Hw2. congruence.
  - by rewrite seen_other.
  - cbn [set_seen mt_seen]. by rewrite lookup_insert_eq.
  - by rewrite seen_other.
Qed.

Lemma admit_ok m out sv wr gn holds log un key supplier cost limit m' r :
  is_Some (mt_seen m !! key) -> 0 < cost -> (key = k -> limit <= B) ->
  read0 (mt_seen m) key + read0 (mt_inFlight m) key + Pending key (mt_ledger m) + cost <= int64_max ->
  decide_admission true key supplier cost limit m = (m', r, true) ->
  life_ok (mkLife m out sv wr gn holds log un) -> life_ok (mkLife m' out sv wr gn (r :: holds) log un).
Proof.
  intros Hs Hc HB Hmax Hd Hok. destruct (decide (key = k)) as [->|Hne].
  - destruct (admit_fits _ _ _ _ _ _ Hok Hs Hc (HB eq_refl) Hmax Hd) as (-> & Hf & Hse & Hle & Hbud & Hfit).
    destruct Hok as [Ha Hh _ Hl Hw Hvw Hu Hhv Hb]. cbn [lf_m lf_out lf_served lf_written lf_gone lf_holds lf_log lf_unadmitted] in *.
    split; unfold lf_account; cbn [lf_m lf_out lf_served lf_written lf_gone lf_holds lf_log lf_unadmitted]; rewrite ?Hse, ?Hle; try done.
    + by constructor.
    + simpl. rewrite String.eqb_refl. lia.
    + intros Hn. rewrite Hn in Hs. by destruct Hs.
    + simpl. rewrite String.eqb_refl. lia.
  - destruct (admit_other _ _ _ _ _ _ _ Hne Hd) as (-> & Hf & Hse & Hle).
    destruct Hok as [Ha Hh Hf0 Hl Hw Hvw Hu Hhv Hb]. cbn [lf_m lf_out lf_served lf_written lf_gone lf_holds lf_log lf_unadmitted] in *.
    pose proof Hne as Hne'. apply String.eqb_neq in Hne.
    split; unfold lf_account; cbn [lf_m lf_out lf_served lf_written lf_gone lf_holds lf_log lf_unadmitted]; rewrite ?Hse, ?Hle; try done.
    + by constructor.
    + simpl. by rewrite Hne, Hf.
    + intros Hn. constructor; [done|auto].
    + simpl. by rewrite Hne.
Qed.

Lemma settle_ok m out sv wr gn holds log un r rest :
  holds ≡ₚ r :: rest -> sv (rv_key r) + rv_cost r <= int64_max -> life_ok (mkLife m out sv wr gn holds log un) ->
  life_ok (mkLife (Settle CacheTTL r m) out (bump sv (rv_key r) (rv_cost r)) wr gn rest log un).
Proof.
  intros Hp Hfit [Ha Hh [Hf Hhf] Hl Hw Hvw Hu Hhv Hb].
  cbn [lf_m lf_out lf_served lf_written lf_gone lf_holds lf_log lf_unadmitted] in *.
  rewrite Hp in Hh. apply Forall_cons in Hh as [Hr Hh]. rewrite (held_by_perm _ _ Hp) in *. pose proof (held_nonneg_by _ Hh).
  unfold Settle. destruct (Z.eqb_spec (rv_cost r) 0); [lia|].
  assert (held_by (r :: rest) = on (rv_key r) k (rv_cost r) + held_by rest) as Hcons by done.
  split; cbn [lf_m lf_out lf_served lf_written lf_gone lf_holds lf_log lf_unadmitted]; try done.
  - eapply ledger_step_ok; [|exact Ha]. by apply (LAdd (mt_ledger m)).
  - split; [|rewrite Hcons in Hhf; destruct (on_cases (rv_key r) k (rv_cost r)) as [[_ E]|[_ E]]; lia].
    by apply (release_exact m r rest).
  - cbn [set_ledger mt_seen releaseLocked set_inFlight]. destruct (mt_seen m !! k) as [v|] eqn:Hv; [done|].
    destruct Hvw as (? & ? & Hz). split_and!; [done..|]. unfold bump. destruct (on_cases (rv_key r) k (rv_cost r)) as [[He E]|[_ E]]; [|lia].
    specialize (Hhv eq_refl). rewrite Hp in Hhv. by apply Forall_cons in Hhv as [? _].
  - intros Hv. specialize (Hhv Hv). rewrite Hp in Hhv. by apply Forall_cons in Hhv as [_ ?].
  - unfold bump. lia.
Qed.

Lemma release_ok m out sv wr gn holds log un r rest :
  holds ≡ₚ r :: rest -> life_ok (mkLife m out sv wr gn holds log un) -> life_ok (mkLife (Release r m) out sv wr gn rest log un).
Proof.
  intros Hp [Ha Hh [Hf Hhf] Hl Hw Hvw Hu Hhv Hb].
  cbn [lf_m lf_out lf_served lf_written lf_gone lf_holds lf_log lf_unadmitted] in *.
  rewrite Hp in Hh. apply Forall_cons in Hh as [Hr Hh]. rewrite (held_by_perm _ _ Hp) in *. pose proof (held_nonneg_by _ Hh).
  unfold Release. destruct (Z.eqb_spec (rv_cost r) 0); [lia|].
  assert (held_by (r :: rest) = on (rv_key r) k (rv_cost r) + held_by rest) as Hcons by done.
  assert (0 <= on (rv_key r) k (rv_cost r)) by (unfold on; destruct (String.eqb _ _); lia).
  split; cbn [lf_m lf_out lf_served lf_written lf_gone lf_holds lf_log lf_unadmitted]; try done; [| |lia].
  - split; [by apply (release_exact m r rest)|lia].
  - intros Hv. specialize (Hhv Hv). rewrite Hp in Hhv. by apply Forall_cons in Hhv as [_ ?].
Qed.

Lemma serve_ok m out sv wr gn holds log un key supplier cost :
  is_Some (mt_seen m !! key) -> 0 < cost -> sv key + cost <= int64_max -> life_ok (mkLife m out sv wr gn holds log un) ->
  life_ok (mkLife (set_ledger (Add key supplier cost CacheTTL (mt_ledger m)) m) out (bump sv key cost) wr gn holds log
         (un + on key k cost)).
Proof.
  intros Hs Hc Hfit [Ha Hh Hf Hl Hw Hvw Hu Hhv Hb]. cbn [lf_m lf_out lf_served lf_written lf_gone lf_holds lf_log lf_unadmitted] in *.
  split; cbn [lf_m lf_out lf_served lf_written lf_gone lf_holds lf_log lf_unadmitted]; try done.
  - eapply ledger_step_ok; [|exact Ha]. by apply (LAdd (mt_ledger m)).
  - cbn [set_ledger mt_seen]. destruct (mt_seen m !! k) as [v|] eqn:Hv; [done|]. destruct Hvw as (? & ? & Hz). split_and!; [done..|].
    unfold bump. destruct (on_cases key k cost) as [[-> E]|[_ E]]; [by rewrite Hv in Hs; destruct Hs|lia].
  - unfold on. destruct (String.eqb _ _); lia.
  - unfold bump. lia.
Qed.

Lemma dispatch_ok m out sv wr gn holds log un l' out' gn' :
  ledger_step (mkAccount (mt_ledger m) out sv wr gn) (mkAccount l' out' sv wr gn') ->
  life_ok (mkLife m out sv wr gn holds log un) -> life_ok (mkLife (set_ledger l' m) out' sv wr gn' holds log un).
Proof.
  intros Hst [Ha Hh Hf Hl Hw Hvw Hu Hhv Hb]. cbn [lf_m lf_out lf_served lf_written lf_gone lf_holds lf_log lf_unadmitted] in *.
  pose proof (gone_grows _ _ k Hst Ha) as Hg. simpl in Hg.
  split; cbn [lf_m lf_out lf_served lf_written lf_gone lf_holds lf_log lf_unadmitted]; try done; [|lia]. by eapply ledger_step_ok.
Qed.

Lemma execute_ok m out sv wr gn holds log un amount :
  0 <= amount -> life_ok (mkLife m out sv wr gn holds log un) ->
  life_ok (mkLife m out sv wr gn holds (mkWrite amount (C0 + log_sum log + amount) false :: log) un).
Proof.
  intros Ha0 [Ha Hh Hf Hl Hw Hvw Hu Hhv Hb]. cbn [lf_m lf_out lf_served lf_written lf_gone lf_holds lf_log lf_unadmitted] in *.
  split; cbn [lf_m lf_out lf_served lf_written lf_gone lf_holds lf_log lf_unadmitted]; try done.
  destruct (mt_seen m !! k) as [v|].
  - destruct Hvw as [? Ht]. split; [done|]. by constructor.
  - destruct Hvw as (? & ? & ?). split_and!; [done|by constructor|done].
Qed.

Lemma report_ok m out sv wr gn holds log un c rest newer w older :
  out ≡ₚ c :: rest -> ch_Key c = k -> log = (newer ++ w :: older)%list -> wr_reported w = false -> wr_amount w = ch_Amount c ->
  life_ok (mkLife m out sv wr gn holds log un) ->
  life_ok (mkLife (chargeWritten k (ch_Amount c) (wr_value w) m) rest sv (bump wr k (ch_Amount c)) gn holds
         (newer ++ tell w :: older)%list un).
Proof.
  intros Hp Hck -> Hr Hamt [Ha Hh Hf Hl Hw Hvw Hu Hhv Hb]. cbn [lf_m lf_out lf_served lf_written lf_gone lf_holds lf_log lf_unadmitted] in *.
  destruct (written_frame k (ch_Amount c) (wr_value w) m) as [Hfi Hle].
  assert (bump wr k (ch_Amount c) k = reported_sum (newer ++ tell w :: older)) as Hsum.
  { rewrite reported_tell, <- Hw, Hamt by done. unfold bump, on. by rewrite String.eqb_refl. }
  pose proof (report_account _ _ _ _ _ _ _ Hp Ha) as Ha'. rewrite Hck in Ha'.
  split; unfold lf_account; cbn [lf_m lf_out lf_served lf_written lf_gone lf_holds lf_log lf_unadmitted]; rewrite ?Hfi, ?Hle; try done.
  - by apply log_ok_tell.
  - destruct (mt_seen m !! k) as [v|] eqn:Hv.
    + rewrite (written_view _ _ _ _ Hv). destruct Hvw as [? Ht]. split; [lia|]. unfold told in *.
      rewrite Forall_app, Forall_cons in Ht |- *. destruct Ht as (H1 & _ & H2).
      split_and!; [|simpl; intros _; lia|]; (eapply Forall_impl; [eassumption|]; simpl; intros x Hx Hx'; specialize (Hx Hx'); lia).
    + (* nothing is reported of a pair that served nothing *)
      exfalso. destruct Hvw as (_ & _ & Hz). pose proof (ao_sum _ Ha' k) as Hs1. pose proof (ao_gone _ Ha' k) as Hg1.
      pose proof (ao_ledger _ Ha') as Hl1. pose proof (queued_pos _ _ k Hl1). pose proof (held_nonneg k _ (ok_out _ _ Hl1)).
      pose proof (ao_ledger _ Ha) as Hl2. pose proof (ok_out _ _ Hl2) as Ho. simpl in *. rewrite Hp in Ho. apply Forall_cons in Ho as [Hpos _].
      pose proof (ao_written _ Ha k) as Hw0. simpl in Hw0. unfold bump, on in Hs1. rewrite String.eqb_refl in Hs1. lia.
  - intros Hn. destruct (mt_seen m !! k) as [v|] eqn:Hv; [|auto]. by rewrite (written_view _ _ _ _ Hv) in Hn.
Qed.

Lemma report_other_ok m out sv wr gn holds log un c rest v :
  out ≡ₚ c :: rest -> ch_Key c <> k -> life_ok (mkLife m out sv wr gn holds log un) ->
  life_ok (mkLife (chargeWritten (ch_Key c) (ch_Amount c) v m) rest sv (bump wr (ch_Key c) (ch_Amount c)) gn holds log un).
Proof.
  intros Hp Hne [Ha Hh Hf Hl Hw Hvw Hu Hhv Hb]. cbn [lf_m lf_out lf_served lf_written lf_gone lf_holds lf_log lf_unadmitted] in *.
  destruct (written_frame (ch_Key c) (ch_Amount c) v m) as [Hfi Hle].
  split; unfold lf_account; cbn [lf_m lf_out lf_served lf_written lf_gone lf_holds lf_log lf_unadmitted];
    rewrite ?Hfi, ?Hle, ?written_other; try done.
  - by eapply report_account.
  - unfold bump, on. apply String.eqb_neq in Hne as ->. lia.
Qed.

Lemma life_step_ok s s' : life_step s s' -> life_ok s -> life_ok s'.
Proof.
  intros Hst Hok. destruct Hst.
  - by apply view_ok.
  - by eapply admit_ok.
  - by eapply settle_ok.
  - by eapply release_ok.
  - by apply serve_ok.
  - by eapply dispatch_ok.
  - by apply execute_ok.
  - by eapply report_ok.
  - by eapply report_other_ok.
Qed.

(** A meter that has just started. *)
Definition life_0 : life := mkLife NewRelayMeter [] (fun _ => 0) (fun _ => 0) (fun _ => 0) [] [] 0.

Lemma life_0_ok : life_ok life_0.
Proof.
  split; try done; cbn [lf_m lf_out lf_served lf_written lf_gone lf_holds lf_log lf_unadmitted life_0]. simpl. lia.
Qed.

Lemma life_reach s : rtc life_step life_0 s -> life_ok s.
Proof.
  intros Hr. pose proof life_0_ok as H0. revert H0. induction Hr as [|a b c Hs _ IH]; intros; [done|]. apply IH. by eapply life_step_ok.
Qed.

(** C6. A pair's budget holds. However admissions, settled and released
    relays, messages served without an admission, dispatches that take, write,
    retry and give up charges, replies reported in any order and other
    replicas' writes to the same counter interleave, what this replica served
    through admission plus what admitted relays still hold is at most what the
    budget had left over the counter when the view began, plus the charges
    given up; and what admission counts as spent is never less than what was
    reported written. The session is not cleared meanwhile. *)
Theorem budget_holds (s : life) :
  rtc life_step life_0 s ->
  (lf_served s k - lf_unadmitted s) + held_by (lf_holds s) <= Z.max B C0 - C0 + lf_gone s k /\
  read0 (mt_inFlight (lf_m s)) k = held_by (lf_holds s) /\
  forall v, mt_seen (lf_m s) !! k = Some v -> C0 + lf_written s k <= v.
Proof.
  intros Hr. pose proof (life_reach s Hr) as [Ha Hh [Hf _] Hl Hw Hvw Hu Hhv Hb]. split_and!; [lia|done|].
  intros v Hv. rewrite Hv in Hvw. destruct Hvw as [H0 Ht]. rewrite Hw. by apply told_sum.
Qed.
End Life.

Module BudgetExample.
Definition r7 : Reservation := mkReservation "k" "sup" 7.
Definition c7 : Charge := mkCharge "k" "sup" 7 60 0.
Definition m_1 := set_seen (<["k" := 3]> ∅) NewRelayMeter.
Definition m_2 := fst (fst (decide_admission true "k" "sup" 7 10 m_1)).
Definition m_3 := Settle 60 r7 m_2.
Definition l_4 := fst (takeAll (mt_ledger m_3)).
Definition m_4 := set_ledger l_4 m_3.

Definition w7 : write := mkWrite 7 15 false.
Definition w5 : write := mkWrite 5 8 false.
Definition none_0 (key : string) : Z := 0.
Definition s_end : life :=
  mkLife (chargeWritten "k" 7 15 m_4) [] (bump none_0 "k" 7) (bump none_0 "k" 7) none_0 [] [tell w7; w5] 0.

Lemma s_end_reached : rtc (life_step 60 "k" 3 10) life_0 s_end.
Proof.
  eapply rtc_l; [apply (TView 60 "k" 3 10 _ _ _ _ _ _ _ _ "k" 3); [done|lia]|].
  eapply rtc_l; [apply (TAdmit 60 "k" 3 10 m_1 _ _ _ _ _ _ _ "k" "sup" 7 10 m_2 r7);
    [by eexists|lia|lia|vm_compute; discriminate|vm_compute; reflexivity]|].
  eapply rtc_l; [apply (TSettle 60 "k" 3 10 m_2 _ _ _ _ _ _ _ r7 []); [reflexivity|vm_compute; discriminate]|].
  eapply rtc_l; [apply (TDispatch 60 "k" 3 10 m_3 [] _ _ _ _ _ _ l_4 [c7]);
    apply (LTake _ _ _ _ _ (map_to_list (lg_pending (mt_ledger m_3))) l_4 [c7]); [reflexivity|vm_compute; reflexivity]|].
  eapply rtc_l; [apply (TExecute 60 "k" 3 10 m_4 [c7] _ _ _ _ _ _ 5); lia|].
  eapply rtc_l; [apply (TExecute 60 "k" 3 10 m_4 [c7] _ _ _ _ _ _ 7); lia|].
  eapply rtc_l; [apply (TReport 60 "k" 3 10 m_4 [c7] _ _ _ _ _ _ c7 [] [] w7 [w5]); reflexivity|]. apply rtc_refl.
Qed.

(** The counter held 3 of a budget of 10: one relay of 7 is admitted, served
    and written after another replica added 5, and the next relay is refused. *)
Lemma budget_holds_witness :
  lf_served s_end "k" = 7 /\ mt_seen (lf_m s_end) !! "k" = Some 15 /\
  snd (decide_admission true "k" "sup" 7 10 (lf_m s_end)) = false /\
  (lf_served s_end "k" - lf_unadmitted s_end) + held_by "k" (lf_holds s_end) <= Z.max 10 3 - 3 + lf_gone s_end "k".
Proof.
  split; [vm_compute; reflexivity|]. split; [vm_compute; reflexivity|]. split; [vm_compute; reflexivity|].
  apply (budget_holds 60 "k" 3 10 ltac:(lia) s_end s_end_reached).
Defined.
End BudgetExample.
