(* ===== verification/MeterLaws.v ===== *)
(** * What the relay meter answers

    Its prices and limits stay within the stake, its failures refuse or serve
    by whose failure it was, the budget it admits against is computed from the
    inputs of the moment, and the session meter's creation race ends. *)

From S2P Require Import Prelude SessionState StoreSpec KeyBuilder ChargeLedger KvStore GoFloat RelayMeter PebbleModel KvPebble KvPebbleRefines PebbleBroker PebbleCharges.
From Stdlib Require Import Ascii String.

Local Open Scope string_scope.
Local Open Scope Z_scope.

(** The meter is the world whose ledger the standalone broker writes. *)
#[export] Instance meter_world :
  LedgerWorld RelayMeter (fun f m => set_ledger (f (mt_ledger m)) m) (Some chargeWritten) mt_ledger.
Proof.
  split; [done|]. intros k a v w. unfold chargeWritten. destruct (mt_seen w !! k); [destruct (Z.ltb _ _)|]; done.
Qed.

(** ** Limits *)

Section Limits.
Variable oob : Z -> Z.

Definition or_one (z : Z) : Z := if z =? 0 then 1 else z.

(** Parameters as the chain validates them, far below 53 bits. *)
Definition params_ok (p : SharedParams) : Prop :=
  0 <= SessionEndToProofWindowCloseBlocks p < 2 ^ 53 /\ 0 <= NumBlocksPerSession p < 2 ^ 53.

Definition ceil_div (a b : Z) : Z := (a + b - 1) / b.

Lemma Int64_in z : in_int64 z -> Int64OfFloat oob z = z.
Proof. intros H. unfold Int64OfFloat. by rewrite decide_True. Qed.

Lemma pendingSessions_exact p : params_ok p ->
  pendingSessions oob p = ceil_div (or_one (SessionEndToProofWindowCloseBlocks p)) (or_one (NumBlocksPerSession p)) + 1 /\
  2 <= pendingSessions oob p.
Proof.
  intros [Hb Hn]. unfold pendingSessions, ceil_div.
  rewrite (wrap64_id (NumBlocksPerSession p)) by (unfold in_int64, int64_min, int64_max; lia).
  fold (or_one (SessionEndToProofWindowCloseBlocks p)). fold (or_one (NumBlocksPerSession p)).
  assert (0 < or_one (SessionEndToProofWindowCloseBlocks p) < 2 ^ 53) as Hb' by (unfold or_one; destruct (Z.eqb_spec (SessionEndToProofWindowCloseBlocks p) 0); lia).
  assert (0 < or_one (NumBlocksPerSession p) < 2 ^ 53) as Hn' by (unfold or_one; destruct (Z.eqb_spec (NumBlocksPerSession p) 0); lia).
  rewrite Ceil_FDiv by done. revert Hb' Hn'.
  generalize (or_one (SessionEndToProofWindowCloseBlocks p)) as a, (or_one (NumBlocksPerSession p)) as b. intros a b Hb' Hn'.
  assert (1 <= (a + b - 1) / b <= a) as Hc.
  { assert (0 <= (a - 1) * (b - 1)) by (apply Z.mul_nonneg_nonneg; lia). split; [apply Z.div_le_lower_bound; lia|].
    apply Z.div_le_upper_bound; lia. }
  rewrite Int64_in by (unfold in_int64, int64_min, int64_max; lia).
  rewrite wrap64_id by (unfold in_int64, int64_min, int64_max; lia). lia.
Qed.

Lemma baseLimit_share stake suppliers p :
  params_ok p -> 0 <= stake < 2 ^ 53 -> 0 <= suppliers <= int64_max ->
  0 <= baseLimit oob stake suppliers p /\ baseLimit oob stake suppliers p * or_one suppliers * pendingSessions oob p <= stake.
Proof.
  intros Hp Hs Hn. destruct (pendingSessions_exact p Hp) as [_ Hpend]. unfold baseLimit.
  rewrite (wrap64_id suppliers) by (unfold in_int64, int64_min in *; lia). fold (or_one suppliers).
  assert (0 < or_one suppliers) as Ho by (unfold or_one; destruct (Z.eqb_spec suppliers 0); lia).
  rewrite (Z.quot_div_nonneg stake) by lia.
  pose proof (Z.mul_div_le stake (or_one suppliers) Ho). pose proof (Z.div_pos stake (or_one suppliers) ltac:(lia) Ho).
  assert (stake / or_one suppliers <= stake) by (apply Z.div_le_upper_bound; nia).
  rewrite (wrap64_id (stake / _)) by (unfold in_int64, int64_min, int64_max; lia).
  rewrite Z.quot_div_nonneg by lia. set (q := stake / or_one suppliers) in *.
  pose proof (Z.mul_div_le q (pendingSessions oob p) ltac:(lia)). pose proof (Z.div_pos q (pendingSessions oob p) ltac:(lia) ltac:(lia)).
  assert (q / pendingSessions oob p <= q) by (apply Z.div_le_upper_bound; nia).
  rewrite wrap64_id by (unfold in_int64, int64_min, int64_max; lia). nia.
Qed.

(** The meter never promises more than the stake. With the chain's
    parameters in range, the sessions a stake is shared over are the exact
    rounded-up quotient plus one, the float64 division notwithstanding; the
    base limit times the suppliers times those sessions is at most the stake;
    and the limit calculateMaxStake answers, a service factor up to 1 included,
    is from 0 to the application's stake. *)
Theorem limit_within_stake (ch : Chain) (app service : string) (endH curH limit : Z) (f : float64) (stake : Z) (p : SharedParams) (suppliers : Z) :
  calculateMaxStake oob ch app service endH curH = Ok (limit, f, stake) ->
  0 < stake < 2 ^ 53 -> params_ok p -> 0 <= suppliers <= int64_max -> NumSuppliersPerSession ch = Some suppliers ->
  (GetLatestSharedParams ch = Some p /\ forall h, GetSharedParams ch h = Some p) ->
  (forall get f0, GetServiceFactor ch = Some get -> get service = Some f0 -> in_unit f0) ->
  pendingSessions oob p = ceil_div (or_one (SessionEndToProofWindowCloseBlocks p)) (or_one (NumBlocksPerSession p)) + 1 /\
  baseLimit oob stake suppliers p * or_one suppliers * pendingSessions oob p <= stake /\
  0 <= limit <= stake /\ getAppStake ch app = Some stake.
Proof.
  intros Hc Hs Hp Hn Hns [Hl Hh] Hf. split; [by apply pendingSessions_exact|].
  destruct (baseLimit_share stake suppliers p Hp ltac:(lia) Hn) as [Hb0 Hb]. split; [done|].
  destruct (pendingSessions_exact p Hp) as [_ Hp2].
  assert (0 < or_one suppliers) as Ho by (unfold or_one; destruct (Z.eqb_spec suppliers 0); lia).
  assert (baseLimit oob stake suppliers p <= stake) as Hle.
  { revert Hb0 Hb Hp2 Ho. generalize (baseLimit oob stake suppliers p) as x, (or_one suppliers) as y, (pendingSessions oob p) as z.
    intros x y z ? ? ? ?. assert (x <= x * y) by nia. assert (x * y <= x * y * z) by nia. lia. }
  unfold calculateMaxStake in Hc. destruct (getAppStake ch app) as [st|]; [|done].
  replace (if _ || _ then GetLatestSharedParams ch else GetSharedParams ch endH) with (Some p) in Hc by (destruct (curH <=? 0), (curH <=? endH); simpl; by rewrite ?Hl, ?Hh).
  rewrite Hns in Hc. destruct (GetServiceFactor ch) as [get|] eqn:Hg; [destruct (get service) as [f0|] eqn:Hgf|].
  - injection Hc as <- <- ->. split; [|done]. pose proof (FMul_unit stake f0 Hs (Hf _ _ eq_refl Hgf)) as Hm.
    rewrite Int64_in; [done|]. unfold in_int64, int64_min, int64_max. lia.
  - injection Hc as <- <- ->. done.
  - injection Hc as <- <- ->. done.
Qed.
End Limits.

(** ** Admission *)

Section Admission.
Context {K : Type} `{KO : !KvOps K} `{MJ : !MeterJson}.
Variable kb : KeyBuilder.
Variable CacheTTL : Z.
Variable oob : Z -> Z.

Abbreviation meter_of := (getOrCreateSessionMeter (K := K) kb CacheTTL oob).
Abbreviation admit_of := (admitRelay (K := K) kb CacheTTL oob).

(** A session meter touches the local cache and nothing else of the meter. *)
Definition same_books (m m' : RelayMeter) : Prop :=
  mt_closed m' = mt_closed m /\ mt_ledger m' = mt_ledger m /\ mt_seen m' = mt_seen m /\ mt_inFlight m' = mt_inFlight m.

Lemma meter_books fuel others ch ios now sid app svc sup endH curH s m s' m' r :
  meter_of fuel others ch ios now sid app svc sup endH curH s m = (s', m', r) -> same_books m m'.
Proof.
  revert ios s. induction fuel as [|fuel IH]; intros ios s; cbn [getOrCreateSessionMeter];
    (destruct (match localCache m !! _ with Some _ => _ | None => _ end); [by intros; simplify_eq|]);
    (destruct (getSessionMeta _ _ _ _ _ _) as [s1 [[meta|]|e]]; [| |by intros; simplify_eq]).
  1,3: destruct (fresh _ _ _ _); [by intros; simplify_eq|]; destruct (calculateMaxStake _ _ _ _ _ _) as [[[? ?] ?]|]; intros; by simplify_eq.
  all: destruct (calculateMaxStake _ _ _ _ _ _) as [[[? ?] ?]|]; [|by intros; simplify_eq];
    destruct (kv_setnx _ _ _ _ _ _) as [s2 [[]|]]; try (intros; by simplify_eq).
  apply IH.
Qed.

Lemma loadSeen_books io now key (s : K) m m' r :
  loadSeen io now key s m = (m', r) ->
  mt_closed m' = mt_closed m /\ mt_ledger m' = mt_ledger m /\ mt_inFlight m' = mt_inFlight m /\
  (forall key', is_Some (mt_seen m !! key') -> mt_seen m' !! key' = mt_seen m !! key') /\
  match r with Ok _ => is_Some (mt_seen m' !! key) | Err e => e = CStore /\ m' = m end.
Proof.
  unfold loadSeen. destruct (mt_seen m !! key) as [v|] eqn:Hs; [intros [= <- <-]; split_and!; try done; by rewrite Hs|].
  destruct (readCounter _) as [n|]; intros [= <- <-]; [|done]. split_and!; try done; simpl.
  - intros key' [v' Hv]. apply lookup_insert_ne. congruence.
  - rewrite lookup_insert_eq. by eexists.
Qed.

(** The chain prices a relay of the session, and bounds its budget. *)
Definition priced (ch : Chain) (startH : Z) : Prop :=
  exists p, getSharedParams ch startH = Some p /\ ComputeUnitCostGranularity p <> 0.
Definition bounded_by (ch : Chain) (app : string) (endH curH : Z) : Prop :=
  is_Some (getAppStake ch app) /\
  is_Some (if (curH <=? 0) || (curH <=? endH) then GetLatestSharedParams ch else GetSharedParams ch endH) /\
  is_Some (NumSuppliersPerSession ch).

(** Reads of the store an admission cannot do without, whatever the store holds
    by then: the counter of a pair not viewed yet, and the metadata of a session
    no fresh copy of which is cached. *)
Definition counter_unread (ios : Ios) (now : Z) (sid sup : string) (m : RelayMeter) : Prop :=
  mt_seen m !! consumedKey kb sid sup = None /\
  forall s1 : K, readCounter (kv_get (ios 0%nat) now s1 (consumedKey kb sid sup)) = None.
Definition meta_unread (ch : Chain) (ios : Ios) (now : Z) (sid app svc sup : string) (m : RelayMeter) : Prop :=
  (forall meta, localCache m !! localCacheKey sid sup = Some meta -> fresh ch app svc meta = false) /\
  forall s1 : K, is_ok (kv_get (ios 1%nat) now s1 (metaKey kb sid sup)) = false.

Lemma cost_priced ch svc startH : priced ch startH <-> exists cost, getRelayCost oob ch svc startH = Ok cost.
Proof.
  unfold priced, getRelayCost. destruct (getSharedParams ch startH) as [p|]; [|split; [by intros (? & ? & _)|by intros [? ?]]].
  destruct (Z.eqb_spec (ComputeUnitCostGranularity p) 0) as [E|E]; split.
  - by intros (p' & [= <-] & ?).
  - by intros [? ?].
  - intros _. by eexists.
  - intros _. by exists p.
Qed.
Lemma cost_cause ch svc startH e : getRelayCost oob ch svc startH = Err e -> e = CChain.
Proof. unfold getRelayCost. repeat case_match; congruence. Qed.
Lemma stake_bounded ch app svc endH curH : bounded_by ch app endH curH -> is_ok (calculateMaxStake oob ch app svc endH curH) = true.
Proof.
  intros ([st Hst] & [p Hp] & [n Hn]). unfold calculateMaxStake. rewrite Hst, Hp, Hn. destruct (GetServiceFactor ch) as [get|]; [destruct (get svc)|]; done.
Qed.
Lemma meta_cause ios now sid sup (s s' : K) e : getSessionMeta kb ios now sid sup s = (s', Err e) -> e = CStore.
Proof. unfold getSessionMeta. repeat case_match; congruence. Qed.

(** With the chain's bounds there, a session meter fails only on the store. *)
Lemma meter_cause fuel others ch ios now sid app svc sup endH curH s m s' m' e :
  bounded_by ch app endH curH ->
  meter_of fuel others ch ios now sid app svc sup endH curH s m = (s', m', Some (Err e)) -> e = CStore.
Proof.
  intros Hb. pose proof (stake_bounded ch app svc endH curH Hb) as Hc. revert ios s.
  induction fuel as [|fuel IH]; intros ios s; cbn [getOrCreateSessionMeter];
    (destruct (match localCache m !! _ with Some _ => _ | None => _ end); [done|]);
    (destruct (getSessionMeta _ _ _ _ _ _) as [s1 [[meta|]|e']] eqn:Hg; [| |intros; simplify_eq; by eapply meta_cause]);
    destruct (calculateMaxStake _ _ _ _ _ _) as [[[? ?] ?]|]; try done.
  1,3: by destruct (fresh _ _ _ _).
  all: destruct (kv_setnx _ _ _ _ _ _) as [s2 [[]|]]; try done; try (intros; by simplify_eq).
  apply IH.
Qed.
Lemma meter_unread fuel others ch ios now sid app svc sup endH curH s m :
  meta_unread ch ios now sid app svc sup m ->
  snd (meter_of fuel others ch (ios_next 1 ios) now sid app svc sup endH curH s m) = Some (Err CStore).
Proof.
  intros [Hc Hr]. destruct fuel as [|fuel]; cbn [getOrCreateSessionMeter];
    (replace (match localCache m !! _ with Some _ => _ | None => _ end) with (@None SessionMeterMeta) by (destruct (localCache m !! _) as [meta|] eqn:E; [by rewrite (Hc _ eq_refl)|done]));
    unfold getSessionMeta; match goal with |- context [kv_get _ _ ?x _] => specialize (Hr x) end; change (ios_next 1 ios 0%nat) with (ios 1%nat); by destruct (kv_get _ _ _ _).
Qed.

(** An admission refused for the meter's store, and one served unmetered for the
    chain. *)
Definition refused (allowed : bool) (err : option MeterErr) : Prop := allowed = false /\ exists op, err = Some (EStoreUnavailable op).
Definition served_unmetered (allowed : bool) (err : option MeterErr) : Prop := allowed = true /\ exists op, err = Some (ECouldNotMeter op).

Lemma bounded_by_dec ch app endH curH : bounded_by ch app endH curH \/ ~ bounded_by ch app endH curH.
Proof.
  unfold bounded_by. destruct (getAppStake ch app); [|right; intros ([? ?] & _); done].
  destruct (if _ || _ then _ else _); [|right; intros (_ & [? ?] & _); done].
  destruct (NumSuppliersPerSession ch); [|right; intros (_ & _ & [? ?]); done]. left. split_and!; by eexists.
Qed.

(** C37. The meter fails closed on its own store and open on the chain, and a
    failure reserves nothing. An admission that failed or was refused left the
    held relays and the ledger as they were. While the meter is open: a missing
    heartbeat of the dispatcher refuses the relay; so does, once the chain
    prices it, a session whose metadata cannot be read when no fresh copy is
    cached, and, once the chain bounds the budget too, a counter that cannot be
    read when the pair is not viewed; any other failure of a priced relay is a
    refusal, or the chain does not bound the budget and the relay is served; a
    relay the chain does not price is served unmetered. A closed meter
    refuses. *)
Theorem meter_failure_policy (reserve : bool) (fuel : nat) (others : nat -> bool -> K -> K) (ch : Chain) (ios : Ios) (now : Z)
    (sid app svc sup : string) (startH endH curH : Z) (s s' : K) (m m' : RelayMeter) (r : Reservation) (allowed : bool) (err : option MeterErr) :
  admit_of reserve fuel others ch ios now sid app svc sup startH endH curH s m = (s', m', Some (r, allowed, err)) ->
  (err <> None \/ allowed = false -> r = noReservation /\ mt_inFlight m' = mt_inFlight m /\ mt_ledger m' = mt_ledger m) /\
  (mt_closed m = true -> allowed = false /\ err = Some EClosed) /\
  (mt_closed m = false ->
    (dispatcherHealth ch <> Some true -> refused allowed err) /\
    (dispatcherHealth ch = Some true -> ~ priced ch startH -> served_unmetered allowed err) /\
    (priced ch startH -> meta_unread ch ios now sid app svc sup m -> refused allowed err) /\
    (priced ch startH -> bounded_by ch app endH curH -> counter_unread ios now sid sup m -> refused allowed err) /\
    (priced ch startH -> err <> None -> refused allowed err \/ (served_unmetered allowed err /\ ~ bounded_by ch app endH curH))).
Proof.
  unfold admitRelay. destruct (mt_closed m); [intros [= <- <- <- <- <-]; by split_and!|].
  destruct (dispatcherHealth ch) as [[]|] eqn:Hh; cbn [default negb].
  2,3: intros [= <- <- <- <- <-]; split; [done|]; split; [done|]; intros _; unfold refused; split_and!; intros; try done; eauto.
  destruct (getRelayCost _ _ _ _) as [cost|e] eqn:Hcost.
  2:{ rewrite (cost_cause _ _ _ _ Hcost). intros [= <- <- <- <- <-]. assert (~ priced ch startH) as Hnp by (intros [c Hc]%(cost_priced ch svc); congruence).
      split; [done|]; split; [done|]; intros _; unfold served_unmetered; split_and!; intros; try done; eauto. }
  assert (priced ch startH) as Hp by (apply (cost_priced ch svc); by eexists).
  destruct (getOrCreateSessionMeter _ _ _ _ _ _ _ _ _ _ _ _ _ _ _ _) as [[s1 m1] [[[meta limit]|e]|]] eqn:Hm; [| |done];
    destruct (meter_books _ _ _ _ _ _ _ _ _ _ _ _ _ _ _ _ Hm) as (Hb1 & Hb2 & Hb3 & Hb4).
  2:{ assert (meta_unread ch ios now sid app svc sup m -> e = CStore) as Hmu by (intros Hu; apply (meter_unread fuel others _ _ _ _ _ _ _ endH curH s) in Hu; rewrite Hm in Hu; cbn in Hu; congruence).
      pose proof (fun Hb => meter_cause _ _ _ _ _ _ _ _ _ _ _ _ _ _ _ _ Hb Hm) as Hmc.
      destruct (bounded_by_dec ch app endH curH) as [Hb|Hb]; destruct e; intros [= <- <- <- <- <-];
        split; [done| |done| |done| |done|]; (split; [done|]); intros _; unfold refused, served_unmetered; split_and!; intros; try done; eauto; naive_solver. }
  assert (~ meta_unread ch ios now sid app svc sup m) as Hmu by (intros Hu; apply (meter_unread fuel others _ _ _ _ _ _ _ endH curH s) in Hu; rewrite Hm in Hu; by cbn in Hu).
  destruct (loadSeen _ _ _ _ _) as [m2 r2] eqn:Hl. pose proof (loadSeen_books _ _ _ _ _ _ _ Hl) as (Hc1 & Hc2 & Hc3 & Hc4 & Hc5).
  destruct r2 as [[]|e]; [|destruct Hc5 as [-> ->]; intros [= <- <- <- <- <-]; split; [done|]; split; [done|]; intros _; unfold refused; split_and!; intros; try done; eauto].
  assert (~ counter_unread ios now sid sup m) as Hcu by (intros [Hn Hr]; unfold loadSeen in Hl; by rewrite Hb3, Hn, Hr in Hl).
  unfold decide_admission. destruct (Z.leb _ _); [destruct reserve|]; intros [= <- <- <- <- <-];
    (split; [intros [?|?]; (done || split_and!; congruence)|]); (split; [done|]); intros _; split_and!; intros; done.
Qed.

(** ** The session meter *)

Lemma FEq_refl x : FEq x x = true.
Proof. unfold FEq. apply Z.eqb_refl. Qed.

Lemma calculated_fresh ch app svc endH curH limit f stake meta :
  calculateMaxStake oob ch app svc endH curH = Ok (limit, f, stake) ->
  sm_CreatedWithFactor meta = f -> sm_CreatedWithAppStake meta = stake -> fresh ch app svc meta = true.
Proof.
  unfold calculateMaxStake, fresh, currentFactor. intros Hc -> ->.
  destruct (getAppStake ch app) as [st|]; [|done]. destruct (if _ || _ then _ else _); [|done].
  destruct (NumSuppliersPerSession ch); [|done].
  destruct (GetServiceFactor ch) as [get|]; [destruct (get svc) as [f0|]|]; injection Hc as <- <- <-; rewrite FEq_refl; simpl; apply Z.eqb_refl.
Qed.

(** A relay is admitted against a budget of the moment. Whatever was
    cached or stored, and however other replicas raced, the session meter that
    getOrCreateSessionMeter answers was computed under the service factor in
    force and the application's stake as observed now, it is what the local
    cache holds afterwards, and the limit answered is its own. *)
Theorem budget_is_fresh (fuel : nat) (others : nat -> bool -> K -> K) (ch : Chain) (ios : Ios) (now : Z)
    (sid app svc sup : string) (endH curH : Z) (s s' : K) (m m' : RelayMeter) (meta : SessionMeterMeta) (limit : Z) :
  meter_of fuel others ch ios now sid app svc sup endH curH s m = (s', m', Some (Ok (meta, limit))) ->
  limit = sm_MaxStakeUpokt meta /\ fresh ch app svc meta = true /\
  localCache m' !! localCacheKey sid sup = Some meta.
Proof.
  revert ios s. induction fuel as [|fuel IH]; intros ios s; cbn [getOrCreateSessionMeter];
    (destruct (localCache m !! localCacheKey sid sup) as [cached|] eqn:Hcache;
     [destruct (fresh ch app svc cached) eqn:Hf; [intros [= <- <- <- <-]; by split_and!|]|]);
    (destruct (getSessionMeta _ _ _ _ _ _) as [s1 [[stored|]|e]]; [| |done]).
  1,3,5,7: destruct (fresh ch app svc stored) eqn:Hf2;
    [intros [= <- <- <- <-]; split_and!; [done|done|apply lookup_insert_eq]|];
    destruct (calculateMaxStake _ _ _ _ _ _) as [[[lim f] st]|] eqn:Hc; [|done]; intros [= <- <- <- <-];
    split_and!; [done|by eapply calculated_fresh|apply lookup_insert_eq].
  all: destruct (calculateMaxStake _ _ _ _ _ _) as [[[lim f] st]|] eqn:Hc; [|done];
    destruct (kv_setnx _ _ _ _ _ _) as [s2 [[]|]]; try done;
    try solve [intros [= <- <- <- <-]; split_and!; [done|by eapply calculated_fresh|apply lookup_insert_eq]].
  all: apply IH.
Qed.
End Admission.

Section Race.
Context {K : Type} `{KO : !KvOps K} {ttl_ok : Z -> Z -> Prop} `{KL : !KvLaws K ttl_ok} `{MJ : !MeterJson}.
Variable kb : KeyBuilder.
Variable CacheTTL : Z.
Variable oob : Z -> Z.

Lemma same_str_at now (s s' : K) k : kv_key_ok k -> kv_same s s' -> str_at now s' k = str_at now s k.
Proof. intros Hk Hs. destruct (Hs k Hk) as [He _]. unfold str_at. by rewrite He. Qed.

Lemma getSessionMeta_finds ios now sid sup (s : K) : 0 <= now -> str_at now s (metaKey kb sid sup) <> None ->
  snd (getSessionMeta kb ios now sid sup s) <> Ok None.
Proof.
  intros Hn Hs. unfold getSessionMeta. destruct (kv_get _ _ _ _) as [[data|]|] eqn:Hg; simpl; [|by apply (law_get _ _ _ _ _ Hn) in Hg|done].
  by destruct (meta_dec data).
Qed.

(** The creation race ends. Two rounds are enough: when another replica
    created the metadata between this one's read and its SETNX, and nobody
    deletes it before the second read, getOrCreateSessionMeter returns,
    whatever was cached, stored or failed. *)
Theorem creation_race_ends (others : nat -> bool -> K -> K) (ch : Chain) (ios : Ios) (now : Z)
    (sid app svc sup : string) (endH curH : Z) (s : K) (m : RelayMeter) :
  0 <= now -> kv_key_ok (metaKey kb sid sup) -> ttl_ok now CacheTTL ->
  (forall s1, str_at now s1 (metaKey kb sid sup) <> None -> str_at now (others 0%nat true s1) (metaKey kb sid sup) <> None) ->
  exists s' m' r, getOrCreateSessionMeter kb CacheTTL oob 1 others ch ios now sid app svc sup endH curH s m = (s', m', Some r).
Proof.
  intros Hn Hk Ht Hkeep. cbn [getOrCreateSessionMeter].
  set (hit := match localCache m !! _ with Some _ => _ | None => _ end). destruct hit; [eauto|].
  destruct (getSessionMeta _ _ _ _ _ (others 1%nat true s)) as [s1 [[stored|]|e]]; [| |eauto].
  { destruct (fresh _ _ _ _); [eauto|]. destruct (calculateMaxStake _ _ _ _ _ _) as [[[? ?] ?]|]; eauto. }
  destruct (calculateMaxStake _ _ _ _ _ _) as [[[lim f] st]|]; [|eauto].
  destruct (kv_setnx _ _ _ _ _ _) as [s2 [[]|]] eqn:Hnx; [eauto| |eauto].
  apply (law_setnx _ _ _ _ _ _ _ _ Hn Hk Ht) in Hnx as [Hsome Hsame].
  pose proof (getSessionMeta_finds (ios_next 5 ios) now sid sup (others 0%nat true s2) Hn) as Hfind.
  destruct (getSessionMeta _ _ _ _ _ (others 0%nat true s2)) as [s3 [[stored|]|e]]; [| |eauto].
  - destruct (fresh _ _ _ stored); [eauto|]. eauto.
  - exfalso. apply Hfind; [|done]. apply Hkeep. by rewrite (same_str_at _ _ _ _ Hk Hsame).
Qed.
End Race.

Module MeterExample.
Definition T (s : Z) : Z := unix_epoch + (1700000000 + s) * 10 ^ 9.
Abbreviation DB := (gmap string string).
Definition hour : Z := 3600 * 10 ^ 9.
Definition kb : KeyBuilder := "ha".
Definition oob (z : Z) : Z := int64_min.

Definition meta_fields (m : SessionMeterMeta) : list string :=
  [sm_SessionID m; sm_AppAddress m; sm_ServiceID m; sm_SupplierAddress m; format_int (sm_SessionEndHeight m);
   format_int (sm_MaxStakeUpokt m); format_int (sm_CreatedAt m); format_int (f_m (sm_CreatedWithFactor m));
   format_int (f_e (sm_CreatedWithFactor m)); format_int (sm_CreatedWithAppStake m)].

Definition meta_of_fields (f : list string) : option SessionMeterMeta :=
  match f with
  | [a; b; c; d; e; g; h; i; j; k] =>
      match parse_dec e, parse_dec g, parse_dec h, parse_dec i, parse_dec j, parse_dec k with
      | Some e', Some g', Some h', Some i', Some j', Some k' => Some (mkMeta a b c d e' g' h' (mkFloat i' j') k')
      | _, _, _, _, _, _ => None
      end
  | _ => None
  end.

#[export] Instance num_meta : MeterJson := {
  meta_enc := fun m => format_int (Zpos (encode (meta_fields m)));
  meta_dec := fun s => match parse_dec s with Some (Zpos p) => decode p ≫= meta_of_fields | _ => None end
}.

#[export] Instance num_meta_laws : MeterJsonLaws.
Proof.
  intros m. simpl. rewrite parse_dec_format, decode_encode. simpl. rewrite !parse_dec_format. by destruct m as [? ? ? ? ? ? ? [] ?].
Qed.

(** Mainnet-like parameters: 10 blocks a session, 24 blocks to settlement, an
    application staked 60,000 POKT, 15 suppliers. *)
Definition shared : SharedParams := mkShared 10 42000000 1000000 24.
Definition chain : Chain :=
  mkChain (Some true) (Some shared) (fun _ => Some shared) (Some 15) (fun _ => Some (Some (Some 60000000000)))
    (Some (fun svc => if String.eqb svc "half" then Some (mkFloat 1 (-1)) else None)) None (Some (fun _ => Some 3000)).

Lemma limit_within_stake_witness :
  calculateMaxStake oob chain "app" "svc" 100 90 = Ok (1000000000, mkFloat 0 0, 60000000000) /\
  calculateMaxStake oob chain "app" "half" 100 90 = Ok (30000000000, mkFloat 1 (-1), 60000000000) /\
  pendingSessions oob shared = ceil_div 24 10 + 1 /\
  baseLimit oob 60000000000 15 shared * or_one 15 * pendingSessions oob shared <= 60000000000 /\
  0 <= 30000000000 <= 60000000000 /\ getAppStake chain "app" = Some 60000000000.
Proof.
  split; [vm_compute; reflexivity|]. split; [vm_compute; reflexivity|].
  apply (limit_within_stake oob chain "app" "half" 100 90 30000000000 (mkFloat 1 (-1)) 60000000000 shared 15).
  - vm_compute. reflexivity.
  - split; vm_compute; reflexivity.
  - split; (split; [vm_compute; discriminate|vm_compute; reflexivity]).
  - split; vm_compute; discriminate.
  - reflexivity.
  - split; reflexivity.
  - intros get f0 [= <-]. cbv beta. cbn [String.eqb Ascii.eqb Bool.eqb]. intros [= <-]. split; vm_compute; discriminate.
Defined.

Definition idle (n : nat) (b : bool) (s : DB) : DB := s.

(** Everything answers, the store then loses its counter reads. *)
Definition down : Ios := fun k => match k with O => fun _ => FLost false | _ => io_ok end.
Definition ans_ok := admitRelay kb hour oob true 1 idle chain ios_ok (T 0) "s" "app" "svc" "sup" 95 100 90 (∅ : DB) NewRelayMeter.
Definition ans_down := admitRelay kb hour oob true 1 idle chain down (T 0) "s" "app" "svc" "sup" 95 100 90 (∅ : DB) NewRelayMeter.

Lemma down_unread : counter_unread (K := DB) kb down (T 0) "s" "sup" NewRelayMeter.
Proof. split; [reflexivity|]. intros s1. reflexivity. Qed.
Lemma chain_bounds : priced chain 95 /\ bounded_by chain "app" 100 90.
Proof. split; [by exists shared|]. split_and!; by eexists. Qed.

Lemma meter_failure_policy_witness :
  snd ans_ok = Some (mkReservation "ha:meter:s:sup:consumed" "sup" 126000, true, None) /\
  snd ans_down = Some (noReservation, false, Some (EStoreUnavailable "read consumed")) /\
  refused false (Some (EStoreUnavailable "read consumed")) /\ mt_inFlight ans_down.1.2 = mt_inFlight NewRelayMeter.
Proof.
  split; [vm_compute; reflexivity|]. split; [vm_compute; reflexivity|].
  destruct (meter_failure_policy (K := DB) kb hour oob true 1 idle chain down (T 0) "s" "app" "svc" "sup" 95 100 90 ∅ ans_down.1.1 NewRelayMeter ans_down.1.2
    noReservation false (Some (EStoreUnavailable "read consumed"))) as (Hn & _ & Ho); [vm_compute; reflexivity|].
  split; [|apply Hn; by left]. apply (Ho eq_refl); [apply chain_bounds|apply chain_bounds|apply down_unread].
Defined.

(** The stake doubled since the metadata was cached. *)
Definition meta_old : SessionMeterMeta := mkMeta "s" "app" "svc" "sup" 100 500000000 0 (mkFloat 0 0) 30000000000.
Definition m_old : RelayMeter := put_cache (localCacheKey "s" "sup") meta_old NewRelayMeter.
Definition db_old : DB := fst (kv_put io_ok (T 0) (∅ : DB) (metaKey kb "s" "sup") (meta_enc meta_old) hour).
Definition ans_old := getOrCreateSessionMeter kb hour oob 1 idle chain ios_ok (T 1) "s" "app" "svc" "sup" 100 90 db_old m_old.
Definition meta_new : SessionMeterMeta := mkMeta "s" "app" "svc" "sup" 100 1000000000 0 (mkFloat 0 0) 60000000000.

Lemma budget_is_fresh_witness :
  snd ans_old = Some (Ok (meta_new, 1000000000)) /\
  1000000000 = sm_MaxStakeUpokt meta_new /\ fresh chain "app" "svc" meta_new = true /\
  localCache ans_old.1.2 !! localCacheKey "s" "sup" = Some meta_new.
Proof.
  split; [vm_compute; reflexivity|].
  apply (budget_is_fresh (K := DB) kb hour oob 1 idle chain ios_ok (T 1) "s" "app" "svc" "sup" 100 90 db_old ans_old.1.1 m_old ans_old.1.2).
  vm_compute. reflexivity.
Defined.

(** Another replica creates the metadata just before this one's SETNX. *)
Definition race (n : nat) (b : bool) (s : DB) : DB :=
  match n, b with
  | 1%nat, false => fst (kv_put io_ok (T 0) s (metaKey kb "s" "sup") (meta_enc meta_new) hour)
  | _, _ => s
  end.

Lemma creation_race_ends_witness :
  snd (getOrCreateSessionMeter kb hour oob 0 race chain ios_ok (T 0) "s" "app" "svc" "sup" 100 90 (∅ : DB) NewRelayMeter)
    = Some (Ok (mkMeta "s" "app" "svc" "sup" 100 1000000000 1700000000 (mkFloat 0 0) 60000000000, 1000000000)) /\
  exists s' m' r, getOrCreateSessionMeter kb hour oob 1 race chain ios_ok (T 0) "s" "app" "svc" "sup" 100 90 (∅ : DB) NewRelayMeter = (s', m', Some r).
Proof.
  split; [vm_compute; reflexivity|].
  apply (creation_race_ends (K := DB) (KL := PebbleKvLaws) kb hour oob race chain ios_ok (T 0) "s" "app" "svc" "sup" 100 90 ∅ NewRelayMeter).
  - vm_compute. discriminate.
  - vm_compute. reflexivity.
  - right. split; vm_compute; [discriminate|reflexivity || discriminate].
  - intros s1 H. exact H.
Defined.
End MeterExample.
