(* ===== verification/MinedRelay.v ===== *)
(** * The queue entry of a mined relay

    MinedRelayMessage and its wire form (transport/mined_relay.pb.go), the
    compression of relay bytes (transport/relay_codec.go), and the entry every
    queue stores (PrepareEntry and DecodeEntry of transport/redis). Bytes are
    strings; the S2 block codec is a library and a parameter. *)

From S2P Require Import Prelude PebbleModel.
From Stdlib Require Import Ascii String.

Local Open Scope string_scope.
Local Open Scope Z_scope.

Definition slen (s : string) : Z := Z.of_nat (String.length s).

Record MinedRelayMessage := mkMined {
  RelayHash : string;
  RelayBytes : string;
  ComputeUnitsPerRelay : Z;
  mr_SessionId : string;
  mr_SessionEndHeight : Z;
  mr_SupplierOperatorAddress : string;
  mr_ServiceId : string;
  mr_ApplicationAddress : string;
  ArrivalBlockHeight : Z;
  PublishedAtUnixNano : Z;
  mr_SessionStartHeight : Z;
  RelayBytesS2 : string
}.

(** [Reset] *)
Definition zeroRelay : MinedRelayMessage := mkMined "" "" 0 "" 0 "" "" "" 0 0 0 "".

(** ** Marshal *)

Definition byte_ascii (z : Z) : ascii := ascii_of_N (Z.to_N z).

(** [sovMinedRelay]: how many bytes a varint takes. *)
Definition Len64 (x : Z) : Z := if x =? 0 then 0 else Z.log2 x + 1.
Definition sovMinedRelay (x : Z) : Z := (Len64 (Z.lor x 1) + 6) / 7.

(** The loop of [encodeVarintMinedRelay]; ten bytes hold a uint64. *)
Fixpoint varintLoop (fuel : nat) (v : Z) : string :=
  match fuel with
  | O => ""
  | S fuel =>
      if 128 <=? v then String (byte_ascii (Z.lor (Z.land v 127) 128)) (varintLoop fuel (Z.shiftr v 7))
      else String (byte_ascii v) ""
  end.

Definition encodeVarintMinedRelay (v : Z) : string := varintLoop 10 v.

(** A field with its tag, in front of what is already written: the buffer is
    filled from its end. *)
Definition putBytes (tag : Z) (v : string) (acc : string) : string :=
  if 0 <? slen v then String (byte_ascii tag) (encodeVarintMinedRelay (slen v) +:+ (v +:+ acc)) else acc.
Definition putVarint (tag v : Z) (acc : string) : string :=
  if v =? 0 then acc else String (byte_ascii tag) (encodeVarintMinedRelay (wrapu64 v) +:+ acc).

Definition MarshalToSizedBuffer (m : MinedRelayMessage) : string :=
  let acc := putBytes 98 (RelayBytesS2 m) "" in
  let acc := putVarint 88 (mr_SessionStartHeight m) acc in
  let acc := putVarint 80 (PublishedAtUnixNano m) acc in
  let acc := putVarint 72 (ArrivalBlockHeight m) acc in
  let acc := putBytes 66 (mr_ApplicationAddress m) acc in
  let acc := putBytes 58 (mr_ServiceId m) acc in
  let acc := putBytes 50 (mr_SupplierOperatorAddress m) acc in
  let acc := putVarint 40 (mr_SessionEndHeight m) acc in
  let acc := putBytes 34 (mr_SessionId m) acc in
  let acc := putVarint 24 (ComputeUnitsPerRelay m) acc in
  let acc := putBytes 18 (RelayBytes m) acc in
  putBytes 10 (RelayHash m) acc.

Definition sizeBytes (v : string) : Z := if 0 <? slen v then 1 + slen v + sovMinedRelay (slen v) else 0.
Definition sizeVarint (v : Z) : Z := if v =? 0 then 0 else 1 + sovMinedRelay (wrapu64 v).

Definition Size (m : MinedRelayMessage) : Z :=
  sizeBytes (RelayHash m) + sizeBytes (RelayBytes m) + sizeVarint (ComputeUnitsPerRelay m) + sizeBytes (mr_SessionId m) +
  sizeVarint (mr_SessionEndHeight m) + sizeBytes (mr_SupplierOperatorAddress m) + sizeBytes (mr_ServiceId m) +
  sizeBytes (mr_ApplicationAddress m) + sizeVarint (ArrivalBlockHeight m) + sizeVarint (PublishedAtUnixNano m) +
  sizeVarint (mr_SessionStartHeight m) + sizeBytes (RelayBytesS2 m).

(** [Marshal] writes into a buffer of [Size] bytes, from its end; the bytes
    written are the result when they fit. *)
Definition Marshal (m : MinedRelayMessage) : option string :=
  let data := MarshalToSizedBuffer m in
  if slen data <=? Size m then Some data else None.

(** ** Unmarshal *)

Inductive ProtoErr :=
| ErrIntOverflow
| ErrUnexpectedEOF
| ErrInvalidLength
| ErrUnexpectedEndOfGroup
| ErrEndGroup
| ErrIllegalTag
| ErrWrongWireType
| ErrIllegalWireType.

Definition code (c : ascii) : Z := Z.of_N (N_of_ascii c).

(** The varint loop each field repeats: the value as a uint64 and what follows. *)
Fixpoint readVarint (shift acc : Z) (s : string) : result (Z * string) ProtoErr :=
  if 64 <=? shift then Err ErrIntOverflow
  else
    match s with
    | EmptyString => Err ErrUnexpectedEOF
    | String c rest =>
        let acc := wrapu64 (Z.lor acc (Z.shiftl (Z.land (code c) 127) shift)) in
        if code c <? 128 then Ok (acc, rest) else readVarint (shift + 7) acc rest
    end.

(** A length-delimited field at index [i] of a buffer of [l] bytes. *)
Definition readBytes (l i : Z) (s : string) : result (string * string) ProtoErr :=
  match readVarint 0 0 s with
  | Err e => Err e
  | Ok (n, rest) =>
      let byteLen := wrap64 n in
      let i := i + (slen s - slen rest) in
      if byteLen <? 0 then Err ErrInvalidLength
      else
        let post := wrap64 (i + byteLen) in
        if post <? 0 then Err ErrInvalidLength
        else if l <? post then Err ErrUnexpectedEOF
        else Ok (str_take (Z.to_nat byteLen) rest, str_drop (Z.to_nat byteLen) rest)
  end.

(** Past the end there is nothing. *)
Definition skipBytes (n : Z) (s : string) : string := if slen s <=? n then "" else str_drop (Z.to_nat n) s.

(** [skipMinedRelay]: how far the unknown field at the head reaches. [i] is the
    index reached, [rest] what is left from it. *)
Fixpoint skipLoop (fuel : nat) (i depth : Z) (rest : string) : result Z ProtoErr :=
  match fuel, rest with
  | _, EmptyString => Err ErrUnexpectedEOF
  | O, _ => Err ErrUnexpectedEOF
  | S fuel, _ =>
      match readVarint 0 0 rest with
      | Err e => Err e
      | Ok (wire, rest1) =>
          let i1 := i + (slen rest - slen rest1) in
          let jumped :=
            match Z.land wire 7 with
            | 0 => match readVarint 0 0 rest1 with
                   | Err e => Err e
                   | Ok (_, rest2) => Ok (i1 + (slen rest1 - slen rest2), depth, rest2)
                   end
            | 1 => Ok (i1 + 8, depth, skipBytes 8 rest1)
            | 2 => match readVarint 0 0 rest1 with
                   | Err e => Err e
                   | Ok (n, rest2) =>
                       let length := wrap64 n in
                       if length <? 0 then Err ErrInvalidLength
                       else Ok (wrap64 (i1 + (slen rest1 - slen rest2) + length), depth, skipBytes length rest2)
                   end
            | 3 => Ok (i1, depth + 1, rest1)
            | 4 => if depth =? 0 then Err ErrUnexpectedEndOfGroup else Ok (i1, depth - 1, rest1)
            | 5 => Ok (i1 + 4, depth, skipBytes 4 rest1)
            | _ => Err ErrIllegalWireType
            end in
          match jumped with
          | Err e => Err e
          | Ok (i2, depth2, rest2) =>
              if i2 <? 0 then Err ErrInvalidLength
              else if depth2 =? 0 then Ok i2
              else skipLoop fuel i2 depth2 rest2
          end
      end
  end.

Definition skipMinedRelay (s : string) : result Z ProtoErr := skipLoop (String.length s) 0 0 s.

Inductive wire_kind := WVarint | WBytes.

(** The fields by number, and the message with one of them set. *)
Definition setInt (n v : Z) (m : MinedRelayMessage) : MinedRelayMessage :=
  let '(mkMined a b c d e f g h i j k l) := m in
  match n with
  | 3 => mkMined a b v d e f g h i j k l
  | 5 => mkMined a b c d (wrap64 v) f g h i j k l
  | 9 => mkMined a b c d e f g h (wrap64 v) j k l
  | 10 => mkMined a b c d e f g h i (wrap64 v) k l
  | _ => mkMined a b c d e f g h i j (wrap64 v) l
  end.

Definition setBytes (n : Z) (v : string) (m : MinedRelayMessage) : MinedRelayMessage :=
  let '(mkMined a b c d e f g h i j k l) := m in
  match n with
  | 1 => mkMined v b c d e f g h i j k l
  | 2 => mkMined a v c d e f g h i j k l
  | 4 => mkMined a b c v e f g h i j k l
  | 6 => mkMined a b c d e v g h i j k l
  | 7 => mkMined a b c d e f v h i j k l
  | 8 => mkMined a b c d e f g v i j k l
  | _ => mkMined a b c d e f g h i j k v
  end.

Definition fieldKind (n : Z) : option wire_kind :=
  match n with
  | 1 | 2 | 4 | 6 | 7 | 8 | 12 => Some WBytes
  | 3 | 5 | 9 | 10 | 11 => Some WVarint
  | _ => None
  end.

(** An int32 conversion. *)
Definition wrap32 (z : Z) : Z := (z + 2 ^ 31) mod 2 ^ 32 - 2 ^ 31.

(** One field: the message with it set and what follows. *)
Definition readField (l : Z) (s : string) (m : MinedRelayMessage) : result (MinedRelayMessage * string) ProtoErr :=
  match readVarint 0 0 s with
  | Err e => Err e
  | Ok (wire, rest) =>
      let fieldNum := wrap32 (Z.shiftr wire 3) in
      let wireType := Z.land wire 7 in
      let i := l - slen rest in
      if wireType =? 4 then Err ErrEndGroup
      else if fieldNum <=? 0 then Err ErrIllegalTag
      else
        match fieldKind fieldNum with
        | Some WVarint =>
            if negb (wireType =? 0) then Err ErrWrongWireType
            else match readVarint 0 0 rest with
                 | Err e => Err e
                 | Ok (v, rest2) => Ok (setInt fieldNum v m, rest2)
                 end
        | Some WBytes =>
            if negb (wireType =? 2) then Err ErrWrongWireType
            else match readBytes l i rest with
                 | Err e => Err e
                 | Ok (v, rest2) => Ok (setBytes fieldNum v m, rest2)
                 end
        | None =>
            let pre := l - slen s in
            match skipMinedRelay s with
            | Err e => Err e
            | Ok skippy =>
                if (skippy <? 0) || (wrap64 (pre + skippy) <? 0) then Err ErrInvalidLength
                else if l <? wrap64 (pre + skippy) then Err ErrUnexpectedEOF
                else Ok (m, skipBytes skippy s)
            end
        end
  end.

(** [Unmarshal], a field a round; [None] is the loop not finished. *)
Fixpoint unmarshalLoop (fuel : nat) (l : Z) (s : string) (m : MinedRelayMessage) : option (result MinedRelayMessage ProtoErr) :=
  match s with
  | EmptyString => Some (Ok m)
  | _ =>
      match fuel with
      | O => None
      | S fuel =>
          match readField l s m with
          | Err e => Some (Err e)
          | Ok (m', s') => unmarshalLoop fuel l s' m'
          end
      end
  end.

Definition Unmarshal (data : string) (m : MinedRelayMessage) : option (result MinedRelayMessage ProtoErr) :=
  unmarshalLoop (String.length data) (slen data) data m.

(** [DecodeEntry]: into a message the pool hands out zeroed. *)
Definition DecodeEntry (data : string) : option (result MinedRelayMessage ProtoErr) := Unmarshal data zeroRelay.

(** ** Compression *)

Definition RelayCompressionThreshold : Z := 16 * 1024.
Definition MaxCompressedRelayBytes : Z := 64 * 1024 * 1024.
Definition compressionProbeBytes : Z := 8 * 1024.

Inductive Outcome :=
| CompressionOutcomeCompressed
| CompressionOutcomeBelowThreshold
| CompressionOutcomeOverMax
| CompressionOutcomeProbeIncompressible
| CompressionOutcomeNotSmaller.

Definition shrinksEnough (compressed original : Z) : bool := compressed <=? original - Z.quot original 10.

(** The S2 block codec: encode, the length a block states, decode, and the
    estimate of a block's size (negative when it would not shrink). *)
Class S2 := {
  s2_encode : string -> string;
  s2_decoded_len : string -> option Z;
  s2_decode : string -> option string;
  s2_estimate : string -> Z
}.

(** A block states the length of what it encodes and decodes to it; an empty
    input is no block. *)
Class S2Laws `{!S2} := {
  s2_round_trip raw : s2_decode (s2_encode raw) = Some raw;
  s2_states_length raw : s2_decoded_len (s2_encode raw) = Some (slen raw);
  s2_empty : s2_decoded_len "" = None
}.

Section Codec.
Context `{S : !S2}.

(** [CompressRelayBytes] *)
Definition CompressRelayBytes (raw : string) : option string * Outcome :=
  if slen raw <? RelayCompressionThreshold then (None, CompressionOutcomeBelowThreshold)
  else if MaxCompressedRelayBytes <? slen raw then (None, CompressionOutcomeOverMax)
  else
    let start := Z.quot (slen raw - compressionProbeBytes) 2 in
    let window := str_take (Z.to_nat compressionProbeBytes) (str_drop (Z.to_nat start) raw) in
    let est := s2_estimate window in
    if (est <? 0) || negb (shrinksEnough est (slen window)) then (None, CompressionOutcomeProbeIncompressible)
    else
      let compressed := s2_encode raw in
      if negb (shrinksEnough (slen compressed) (slen raw)) then (None, CompressionOutcomeNotSmaller)
      else (Some compressed, CompressionOutcomeCompressed).

Inductive RelayBytesErr := ErrRelayBytesCorrupt.

(** [OriginalRelayBytes]: the bytes and the capacity of the slice returned;
    [cap] is the capacity of the message's own RelayBytes. *)
Definition OriginalRelayBytes (cap spare : Z) (m : MinedRelayMessage) : result (string * Z) RelayBytesErr :=
  if (0 <? slen (RelayBytes m)) && (0 <? slen (RelayBytesS2 m)) then Err ErrRelayBytesCorrupt
  else if 0 <? slen (RelayBytes m) then
    if spare <=? cap - slen (RelayBytes m) then Ok (RelayBytes m, cap) else Ok (RelayBytes m, slen (RelayBytes m) + spare)
  else if slen (RelayBytesS2 m) =? 0 then Err ErrRelayBytesCorrupt
  else
    match s2_decoded_len (RelayBytesS2 m) with
    | None => Err ErrRelayBytesCorrupt
    | Some n =>
        if MaxCompressedRelayBytes <? n then Err ErrRelayBytesCorrupt
        else match s2_decode (RelayBytesS2 m) with
             | None => Err ErrRelayBytesCorrupt
             | Some raw => Ok (raw, n + spare)
             end
    end.

(** ** The queue entry *)

Inductive Reject :=
| rejectReasonNilMessage
| rejectReasonNoSessionID
| rejectReasonBadEndHeight
| rejectReasonPublisherShut
| rejectSerializeFailed.

Definition SupplierStreamName (prefix supplier : string) : string := prefix +:+ ":" +:+ supplier.

Definition set_published (t : Z) (m : MinedRelayMessage) : MinedRelayMessage :=
  let '(mkMined a b c d e f g h i _ k l) := m in mkMined a b c d e f g h i t k l.

Definition set_compressed (s2 : string) (m : MinedRelayMessage) : MinedRelayMessage :=
  let '(mkMined a _ c d e f g h i j k _) := m in mkMined a "" c d e f g h i j k s2.

(** [PrepareEntry]: the caller's message, stamped, and the stream and bytes, or
    the reason it was refused. [now] is the current Unix nanosecond. *)
Definition PrepareEntry (now : Z) (streamPrefix : string) (msg : option MinedRelayMessage)
  : option MinedRelayMessage * result (string * string) Reject :=
  match msg with
  | None => (None, Err rejectReasonNilMessage)
  | Some m =>
      if String.eqb (mr_SessionId m) "" then (msg, Err rejectReasonNoSessionID)
      else if mr_SessionEndHeight m <=? 0 then (msg, Err rejectReasonBadEndHeight)
      else
        let m := if PublishedAtUnixNano m =? 0 then set_published now m else m in
        let streamName := SupplierStreamName streamPrefix (mr_SupplierOperatorAddress m) in
        let wire :=
          if slen (RelayBytesS2 m) =? 0 then
            match CompressRelayBytes (RelayBytes m) with
            | (Some compressed, _) => set_compressed compressed m
            | (None, _) => m
            end
          else m in
        match Marshal wire with
        | None => (Some m, Err rejectSerializeFailed)
        | Some data => (Some m, Ok (streamName, data))
        end
  end.
End Codec.

(** ** Varints *)

Lemma code_byte z : 0 <= z < 256 -> code (byte_ascii z) = z.
Proof.
  intros Hz. unfold code, byte_ascii. rewrite N_ascii_embedding by lia. lia.
Qed.

Lemma lor_shift a x s : 0 <= s -> 0 <= a < 2 ^ s -> Z.lor a (Z.shiftl x s) = a + x * 2 ^ s.
Proof.
  intros Hs Ha. assert (Z.land a (Z.shiftl x s) = 0) as Hl.
  { apply Z.bits_inj'. intros n Hn. rewrite Z.land_spec, Z.bits_0, Z.shiftl_spec by done.
    destruct (Z.ltb_spec n s); [rewrite (Z.testbit_neg_r x) by lia; apply andb_false_r|].
    replace (Z.testbit a n) with false; [done|]. symmetry. rewrite Z.testbit_eqb by done.
    apply Z.eqb_neq. rewrite Z.div_small; [done|]. split; [lia|]. eapply Z.lt_le_trans; [apply Ha|]. apply Z.pow_le_mono_r; lia. }
  rewrite <- Z.lxor_lor by done. rewrite <- Z.add_nocarry_lxor by done. by rewrite Z.shiftl_mul_pow2.
Qed.

Lemma low_byte v : 0 <= v -> Z.lor (Z.land v 127) 128 = v mod 128 + 128.
Proof.
  intros Hv. change 127 with (Z.ones 7). rewrite Z.land_ones by lia. change (2 ^ 7) with 128.
  pose proof (Z.mod_pos_bound v 128). change 128 with (Z.shiftl 1 7) at 2. rewrite lor_shift; [|lia|change (2 ^ 7) with 128; lia].
  change (1 * 2 ^ 7) with 128. lia.
Qed.

Lemma readVarint_cons shift acc c rest :
  readVarint shift acc (String c rest) =
  if 64 <=? shift then Err ErrIntOverflow
  else let acc := wrapu64 (Z.lor acc (Z.shiftl (Z.land (code c) 127) shift)) in
       if code c <? 128 then Ok (acc, rest) else readVarint (shift + 7) acc rest.
Proof. done. Qed.

Lemma str_app_cons c a b : String c a +:+ b = String c (a +:+ b).
Proof. done. Qed.

(** Reading back what was written. *)
Lemma readVarint_loop fuel v shift acc rest :
  0 <= shift -> 0 <= acc < 2 ^ shift -> 0 <= v -> v * 2 ^ shift < 2 ^ 64 -> shift < 64 -> v < 2 ^ (7 * Z.of_nat fuel) -> (0 < fuel)%nat ->
  readVarint shift acc (varintLoop fuel v +:+ rest) = Ok (acc + v * 2 ^ shift, rest).
Proof.
  revert v shift acc. induction fuel as [|fuel IH]; intros v shift acc Hs Ha Hv Hfit Hlt Hfuel Hpos; [lia|].
  assert (0 < 2 ^ shift) as Hp by (apply Z.pow_pos_nonneg; lia). cbn [varintLoop].
  destruct (Z.leb_spec 128 v) as [Hbig|Hsmall].
  - rewrite low_byte by done. pose proof (Z.mod_pos_bound v 128 ltac:(lia)) as Hm.
    pose proof (Z.div_mod v 128 ltac:(lia)) as Hdm. assert (0 <= v / 128) by (apply Z.div_pos; lia).
    rewrite str_app_cons, readVarint_cons. cbv zeta. rewrite (proj2 (Z.leb_gt 64 shift)) by lia. rewrite code_byte by lia.
    assert (Z.land (v mod 128 + 128) 127 = v mod 128) as ->.
    { change 127 with (Z.ones 7). rewrite Z.land_ones by lia. change (2 ^ 7) with 128.
      rewrite <- (Z.mul_1_l 128) at 2. rewrite Z.mod_add by lia. by apply Z.mod_small. }
    rewrite lor_shift by done. rewrite (proj2 (Z.ltb_ge _ 128)) by lia.
    assert (v mod 128 * 2 ^ shift <= v * 2 ^ shift) by nia.
    assert (acc + v mod 128 * 2 ^ shift < 2 ^ (shift + 7)) as Hacc by (rewrite Z.pow_add_r by lia; change (2 ^ 7) with 128; nia).
    assert (shift + 7 < 64) as Hs7.
    { apply (Z.pow_lt_mono_r_iff 2); [lia|lia|]. rewrite Z.pow_add_r by lia. change (2 ^ 7) with 128. nia. }
    rewrite wrapu64_id.
    2:{ unfold in_uint64, uint64_max. assert (2 ^ (shift + 7) <= 2 ^ 64) by (apply Z.pow_le_mono_r; lia). nia. }
    rewrite Z.shiftr_div_pow2 by lia. change (2 ^ 7) with 128.
    assert (2 ^ (shift + 7) = 128 * 2 ^ shift) as E by (rewrite Z.pow_add_r by lia; change (2 ^ 7) with 128; lia).
    rewrite IH; [f_equal; f_equal; rewrite E; nia|lia|nia|done|rewrite E; nia|done| |].
    + replace (7 * Z.of_nat (S fuel)) with (7 * Z.of_nat fuel + 7) in Hfuel by lia. rewrite Z.pow_add_r in Hfuel by lia.
      change (2 ^ 7) with 128 in Hfuel. apply Z.div_lt_upper_bound; lia.
    + destruct fuel; [|lia]. exfalso. simpl in Hfuel. lia.
  - rewrite str_app_cons, readVarint_cons. cbv zeta. rewrite (proj2 (Z.leb_gt 64 shift)) by lia. rewrite code_byte by lia.
    assert (Z.land v 127 = v) as ->.
    { change 127 with (Z.ones 7). rewrite Z.land_ones by lia. apply Z.mod_small. change (2 ^ 7) with 128. lia. }
    rewrite lor_shift by done. rewrite (proj2 (Z.ltb_lt v 128)) by lia. rewrite wrapu64_id; [done|].
    unfold in_uint64, uint64_max. assert (acc < 2 ^ shift) by lia.
    destruct (Z.eq_dec v 0) as [->|]; [|].
    + assert (2 ^ shift <= 2 ^ 64) by (apply Z.pow_le_mono_r; lia). lia.
    + assert (exists q, 2 ^ 64 = q * 2 ^ shift) as [q Hq].
      { exists (2 ^ (64 - shift)). rewrite <- Z.pow_add_r by lia. f_equal. lia. }
      assert (v < q) by nia. nia.
Qed.

Lemma readVarint_encode v rest : in_uint64 v -> readVarint 0 0 (encodeVarintMinedRelay v +:+ rest) = Ok (v, rest).
Proof.
  intros [H0 H1]. unfold uint64_max in H1. unfold encodeVarintMinedRelay.
  rewrite readVarint_loop; [f_equal; f_equal; lia|lia|change (2 ^ 0) with 1; lia|done|change (2 ^ 0) with 1; lia|lia| |lia].
  change (7 * Z.of_nat 10) with 70. eapply Z.lt_trans with (2 ^ 64); [lia|]. apply Z.pow_lt_mono_r; lia.
Qed.

Lemma slen_app a b : slen (a +:+ b) = slen a + slen b.
Proof. unfold slen. rewrite str_length_app. lia. Qed.

Lemma slen_cons c a : slen (String c a) = 1 + slen a.
Proof. unfold slen. simpl String.length. lia. Qed.

Lemma slen_nonneg a : 0 <= slen a.
Proof. unfold slen. lia. Qed.

Lemma slen_zero a : slen a = 0 -> a = "".
Proof. destruct a; [done|]. rewrite slen_cons. pose proof (slen_nonneg a0). lia. Qed.

Lemma sov_log2 x : 0 <= x -> sovMinedRelay x = (Z.log2 x + 7) / 7.
Proof.
  intros Hx. unfold sovMinedRelay, Len64. destruct (Z.eqb_spec (Z.lor x 1) 0) as [E|_].
  { apply Z.lor_eq_0_iff in E as [_ ?]. done. }
  rewrite Z.log2_lor by lia. change (Z.log2 1) with 0. pose proof (Z.log2_nonneg x). f_equal. lia.
Qed.

Lemma varintLoop_length fuel v : 0 <= v < 2 ^ (7 * Z.of_nat fuel) -> (0 < fuel)%nat -> slen (varintLoop fuel v) = sovMinedRelay v.
Proof.
  revert v. induction fuel as [|fuel IH]; intros v Hv Hf; [lia|]. rewrite sov_log2 by lia. cbn [varintLoop].
  replace (7 * Z.of_nat (S fuel)) with (7 * Z.of_nat fuel + 7) in Hv by lia. rewrite Z.pow_add_r in Hv by lia. change (2 ^ 7) with 128 in Hv.
  destruct (Z.leb_spec 128 v) as [Hb|Hs].
  - rewrite slen_cons. rewrite IH.
    + rewrite sov_log2 by (rewrite Z.shiftr_div_pow2 by lia; apply Z.div_pos; [lia|done]). rewrite Z.log2_shiftr by lia.
      assert (7 <= Z.log2 v) by (apply Z.log2_le_pow2; [lia|done]). rewrite Z.max_r by lia.
      Z.div_mod_to_equations. lia.
    + rewrite Z.shiftr_div_pow2 by lia. change (2 ^ 7) with 128. split; [apply Z.div_pos; lia|]. apply Z.div_lt_upper_bound; lia.
    + destruct fuel; [|lia]. simpl in Hv. lia.
  - change (slen (String (byte_ascii v) "")) with 1.
    assert (Z.log2 v < 7) by (destruct (Z.eq_dec v 0) as [->|]; [done|]; apply Z.log2_lt_pow2; [lia|done]).
    pose proof (Z.log2_nonneg v). Z.div_mod_to_equations. lia.
Qed.

Lemma encodeVarint_length v : in_uint64 v -> slen (encodeVarintMinedRelay v) = sovMinedRelay v.
Proof.
  intros [H0 H1]. unfold uint64_max in H1. apply varintLoop_length; [|lia]. change (7 * Z.of_nat 10) with 70. split; [done|].
  eapply Z.lt_trans with (2 ^ 64); [lia|]. apply Z.pow_lt_mono_r; lia.
Qed.

(** ** Fields *)

Definition short (s : string) : Prop := slen s <= int64_max.

Lemma short_uint s : short s -> in_uint64 (slen s).
Proof. intros H. pose proof (slen_nonneg s). unfold short, in_uint64, uint64_max, int64_max in *. lia. Qed.

Lemma putBytes_length tag v acc : short v -> slen (putBytes tag v acc) = sizeBytes v + slen acc.
Proof.
  intros Hv. unfold putBytes, sizeBytes. destruct (0 <? slen v); [|lia].
  rewrite slen_cons, !slen_app, encodeVarint_length by by apply short_uint. lia.
Qed.

Lemma putVarint_length tag v acc : slen (putVarint tag v acc) = sizeVarint v + slen acc.
Proof.
  unfold putVarint, sizeVarint. destruct (v =? 0); [lia|]. rewrite slen_cons, slen_app, encodeVarint_length by apply wrapu64_range. lia.
Qed.

Lemma read_tag tag rest : 0 <= tag < 128 -> readVarint 0 0 (String (byte_ascii tag) rest) = Ok (tag, rest).
Proof.
  intros Ht. rewrite readVarint_cons. cbn [Z.leb Z.compare]. cbv zeta. rewrite code_byte by lia.
  assert (Z.land tag 127 = tag) as ->.
  { change 127 with (Z.ones 7). rewrite Z.land_ones by lia. apply Z.mod_small. change (2 ^ 7) with 128. lia. }
  rewrite Z.shiftl_0_r, Z.lor_0_l, (proj2 (Z.ltb_lt tag 128)) by lia. rewrite wrapu64_id; [done|]. unfold in_uint64, uint64_max. lia.
Qed.

(** The tags are numbers and wire types. *)
Definition tag_ok (tag n wt : Z) (kind : wire_kind) : Prop :=
  0 <= tag < 128 /\ wrap32 (Z.shiftr tag 3) = n /\ Z.land tag 7 = wt /\ fieldKind n = Some kind /\
  (n <=? 0) = false /\ (wt =? 4) = false /\ match kind with WVarint => wt = 0 | WBytes => wt = 2 end.

(** A message whose buffer parses from [s] on. *)
Definition parses (l : Z) (s : string) (m m' : MinedRelayMessage) : Prop :=
  forall fuel, (String.length s <= fuel)%nat -> unmarshalLoop fuel l s m = Some (Ok m').

Lemma parses_nil l m : parses l "" m m.
Proof. by intros [|fuel] _. Qed.

Lemma parses_step l s s' m m1 m' :
  s <> "" -> (String.length s' < String.length s)%nat -> readField l s m = Ok (m1, s') -> parses l s' m1 m' -> parses l s m m'.
Proof.
  intros Hs Hlt Hr Hp fuel Hf. destruct s as [|c s]; [done|]. destruct fuel as [|fuel]; [simpl in Hf; lia|].
  cbn [unmarshalLoop]. rewrite Hr. apply Hp. simpl in *. lia.
Qed.

Lemma str_length_slen a b : slen a < slen b -> (String.length a < String.length b)%nat.
Proof. unfold slen. lia. Qed.

Lemma parses_varint l tag n v acc m m' :
  tag_ok tag n 0 WVarint -> setInt n 0 m = m -> parses l acc (setInt n (wrapu64 v) m) m' -> parses l (putVarint tag v acc) m m'.
Proof.
  intros (Ht & Hn & Hw & Hk & Hn0 & Hw4 & _) Hz Hp. unfold putVarint. destruct (Z.eqb_spec v 0) as [->|Hv].
  { change (wrapu64 0) with 0 in Hp. by rewrite Hz in Hp. }
  eapply parses_step; [done| | |exact Hp].
  - apply str_length_slen. rewrite slen_cons, slen_app. pose proof (slen_nonneg (encodeVarintMinedRelay (wrapu64 v))). lia.
  - unfold readField. rewrite read_tag by done. cbv zeta. rewrite Hn, Hw, Hn0, Hk. cbn [Z.eqb Pos.eqb negb].
    by rewrite readVarint_encode by apply wrapu64_range.
Qed.

Lemma readBytes_put l v acc : short v -> l <= int64_max -> slen v + slen acc <= l ->
  readBytes l (l - slen (encodeVarintMinedRelay (slen v) +:+ (v +:+ acc))) (encodeVarintMinedRelay (slen v) +:+ (v +:+ acc)) = Ok (v, acc).
Proof.
  intros Hv Hl Hle. unfold readBytes. rewrite readVarint_encode by by apply short_uint. cbv zeta.
  pose proof (slen_nonneg v). pose proof (slen_nonneg acc). unfold short, int64_max in *.
  rewrite (wrap64_id (slen v)) by (unfold in_int64, int64_min, int64_max; lia). rewrite (proj2 (Z.ltb_ge (slen v) 0)) by lia.
  set (e := encodeVarintMinedRelay (slen v) +:+ (v +:+ acc)).
  replace (l - slen e + (slen e - slen (v +:+ acc)) + slen v) with (l - slen acc) by (rewrite slen_app; lia).
  rewrite wrap64_id by (unfold in_int64, int64_min, int64_max; lia).
  rewrite (proj2 (Z.ltb_ge (l - slen acc) 0)), (proj2 (Z.ltb_ge l (l - slen acc))) by lia.
  unfold slen at 1 2. rewrite Nat2Z.id. by rewrite str_take_app, str_drop_app.
Qed.

Lemma parses_bytes l tag n v acc m m' :
  tag_ok tag n 2 WBytes -> short v -> l <= int64_max -> slen (putBytes tag v acc) <= l -> setBytes n "" m = m ->
  parses l acc (setBytes n v m) m' -> parses l (putBytes tag v acc) m m'.
Proof.
  intros (Ht & Hn & Hw & Hk & Hn0 & Hw4 & _) Hv Hl Hle Hz Hp. unfold putBytes in *. destruct (Z.ltb_spec 0 (slen v)) as [Hpos|Hneg].
  2:{ rewrite (slen_zero v) in Hp by (pose proof (slen_nonneg v); lia). by rewrite Hz in Hp. }
  rewrite slen_cons, !slen_app in Hle. pose proof (slen_nonneg (encodeVarintMinedRelay (slen v))).
  eapply parses_step; [done| | |exact Hp].
  - apply str_length_slen. rewrite slen_cons, !slen_app. lia.
  - unfold readField. rewrite read_tag by done. cbv zeta. rewrite Hn, Hw, Hn0, Hk. cbn [Z.eqb Pos.eqb negb].
    rewrite readBytes_put; [done|done|done|]. lia.
Qed.

(** ** Every input is answered *)

Lemma readVarint_shrinks shift acc s v rest : readVarint shift acc s = Ok (v, rest) -> slen rest < slen s.
Proof.
  revert shift acc. induction s as [|c s IH]; intros shift acc; [simpl; by destruct (64 <=? shift)|].
  rewrite readVarint_cons. destruct (64 <=? shift); [done|]. cbv zeta. rewrite slen_cons. destruct (code c <? 128).
  - intros [= _ <-]. lia.
  - intros H. apply IH in H. lia.
Qed.

Lemma str_drop_slen n s : slen (str_drop n s) <= slen s.
Proof. unfold slen. rewrite str_drop_length. lia. Qed.

Lemma skipBytes_slen n s : 0 <= n -> slen (skipBytes n s) = Z.max 0 (slen s - n).
Proof.
  intros Hn. unfold skipBytes. pose proof (slen_nonneg s). destruct (Z.leb_spec (slen s) n); [rewrite Z.max_l by lia; done|].
  unfold slen at 1. rewrite str_drop_length. unfold slen in *. lia.
Qed.

Lemma wrap64_over z : int64_max < z <= 2 * int64_max -> wrap64 z < 0.
Proof.
  intros Hz. unfold wrap64, int64_max in *. replace (z + 2 ^ 63) with (z - 2 ^ 63 + 1 * 2 ^ 64) by lia.
  rewrite Z.mod_add by lia. rewrite Z.mod_small by lia. lia.
Qed.

Lemma skipLoop_moves fuel i depth rest j :
  0 <= i -> i + slen rest <= int64_max -> skipLoop fuel i depth rest = Ok j -> i < j.
Proof.
  revert i depth rest. induction fuel as [|fuel IH]; intros i depth rest Hi Hl.
  { by destruct rest. }
  destruct rest as [|c rest0]; [done|]. set (s := String c rest0) in *. cbn [skipLoop].
  destruct (readVarint 0 0 s) as [[wire rest1]|] eqn:Hr; [|done]. apply readVarint_shrinks in Hr. cbv zeta.
  pose proof (slen_nonneg rest1) as Hn1. set (i1 := i + (slen s - slen rest1)) in *.
  assert (forall jumped : result (Z * Z * string) ProtoErr,
    match jumped with Err _ => True | Ok (i2, _, rest2) => i2 < 0 \/ (i1 <= i2 /\ (rest2 = "" \/ i2 + slen rest2 <= int64_max)) end ->
    match jumped with
    | Err e => Err e
    | Ok (i2, depth2, rest2) =>
        if i2 <? 0 then Err ErrInvalidLength else if depth2 =? 0 then Ok i2 else skipLoop fuel i2 depth2 rest2
    end = Ok j -> i < j) as Hgo.
  { intros [[[i2 d2] rest2]|e]; [|done]. intros Hcase. destruct (Z.ltb_spec i2 0); [done|]. destruct Hcase as [?|[Hle Hrest]]; [lia|].
    destruct (d2 =? 0); [intros [= <-]; lia|]. destruct Hrest as [->|Hb]; [by destruct fuel|]. intros H'. apply IH in H'; lia. }
  apply Hgo. clear Hgo. destruct (Z.land wire 7) as [|p|p]; [| |done].
  { destruct (readVarint 0 0 rest1) as [[x rest2]|] eqn:Hr2; [|done]. apply readVarint_shrinks in Hr2. right. split; [lia|]. right. lia. }
  assert (forall n, 0 <= n -> i1 <= i1 + n /\ (skipBytes n rest1 = "" \/ i1 + n + slen (skipBytes n rest1) <= int64_max)) as Hskip.
  { intros n Hn. split; [lia|]. destruct (Z.le_gt_cases (slen rest1) n); [left|right].
    - unfold skipBytes. by rewrite (proj2 (Z.leb_le _ _)).
    - rewrite skipBytes_slen by done. lia. }
  destruct p as [[p|p|]|[p|p|]|]; [done|destruct p; try done; right; apply Hskip; lia|right; split; [lia|right; lia]|done| | |right; apply Hskip; lia].
  - destruct p; try done. destruct (depth =? 0); [done|]. right. split; [lia|right; lia].
  - destruct (readVarint 0 0 rest1) as [[n rest2]|] eqn:Hr2; [|done]. apply readVarint_shrinks in Hr2.
    pose proof (wrap64_range n) as [_ Hw]. set (len := wrap64 n) in *. destruct (Z.ltb_spec len 0); [done|].
    pose proof (slen_nonneg rest2). set (i2 := i1 + (slen rest1 - slen rest2)) in *.
    destruct (Z.le_gt_cases (i2 + len) int64_max) as [Hfit|Hover].
    + right. rewrite wrap64_id by (unfold in_int64, int64_min; lia). split; [lia|].
      destruct (Z.le_gt_cases (slen rest2) len); [left|right].
      * unfold skipBytes. by rewrite (proj2 (Z.leb_le _ _)).
      * rewrite skipBytes_slen by done. lia.
    + left. apply wrap64_over. lia.
Qed.

Lemma readField_shrinks l s m m' s' : short s -> readField l s m = Ok (m', s') -> slen s' < slen s.
Proof.
  intros Hs. unfold readField. destruct (readVarint 0 0 s) as [[wire rest]|] eqn:Hr; [|done]. apply readVarint_shrinks in Hr. cbv zeta.
  destruct (Z.land wire 7 =? 4); [done|]. destruct (_ <=? 0); [done|]. destruct (fieldKind _) as [[]|].
  - destruct (negb _); [done|]. destruct (readVarint 0 0 rest) as [[v rest2]|] eqn:Hr2; [|done]. apply readVarint_shrinks in Hr2. intros [= _ <-]. lia.
  - destruct (negb _); [done|]. unfold readBytes. destruct (readVarint 0 0 rest) as [[v rest2]|] eqn:Hr2; [|done]. apply readVarint_shrinks in Hr2.
    cbv zeta. destruct (_ <? 0); [done|]. destruct (_ <? 0); [done|]. destruct (l <? _); [done|]. intros [= _ <-].
    pose proof (str_drop_slen (Z.to_nat (wrap64 v)) rest2). lia.
  - destruct (skipMinedRelay s) as [k|] eqn:Hk; [|done]. apply (skipLoop_moves _ 0 0 s) in Hk; [|lia|unfold short in Hs; lia].
    destruct (_ || _); [done|]. destruct (l <? _); [done|]. intros [= _ <-]. pose proof (slen_nonneg rest). rewrite skipBytes_slen by lia. lia.
Qed.

Lemma unmarshal_returns fuel l s m : short s -> (String.length s <= fuel)%nat -> unmarshalLoop fuel l s m <> None.
Proof.
  revert s m. induction fuel as [|fuel IH]; intros s m Hs Hf; destruct s as [|c s]; try done; [simpl in Hf; lia|].
  cbn [unmarshalLoop]. destruct (readField l (String c s) m) as [[m' s']|] eqn:Hr; [|done].
  apply readField_shrinks in Hr; [|done]. apply IH; unfold short, slen in *; lia.
Qed.

(** ** The claims *)

(** A message a Go process can hold: its integers have their widths and its
    encoding a length. *)
Definition relay_ok (m : MinedRelayMessage) : Prop :=
  in_uint64 (ComputeUnitsPerRelay m) /\ in_int64 (mr_SessionEndHeight m) /\ in_int64 (ArrivalBlockHeight m) /\
  in_int64 (PublishedAtUnixNano m) /\ in_int64 (mr_SessionStartHeight m) /\ Size m <= int64_max.

Lemma sizeBytes_le v : slen v <= sizeBytes v.
Proof.
  unfold sizeBytes. pose proof (slen_nonneg v). destruct (Z.ltb_spec 0 (slen v)); [|lia].
  rewrite sov_log2 by done. pose proof (Z.log2_nonneg (slen v)). pose proof (Z.div_pos (Z.log2 (slen v) + 7) 7). lia.
Qed.

Lemma sizeVarint_nonneg v : 0 <= sizeVarint v.
Proof.
  unfold sizeVarint. destruct (v =? 0); [lia|]. pose proof (wrapu64_range v) as [? _]. rewrite sov_log2 by done.
  pose proof (Z.log2_nonneg (wrapu64 v)). pose proof (Z.div_pos (Z.log2 (wrapu64 v) + 7) 7). lia.
Qed.

Lemma relay_short m : relay_ok m ->
  short (RelayHash m) /\ short (RelayBytes m) /\ short (mr_SessionId m) /\ short (mr_SupplierOperatorAddress m) /\
  short (mr_ServiceId m) /\ short (mr_ApplicationAddress m) /\ short (RelayBytesS2 m).
Proof.
  intros (_ & _ & _ & _ & _ & Hs). unfold Size in Hs.
  repeat match type of Hs with context [sizeBytes ?v] => pose proof (sizeBytes_le v); pose proof (slen_nonneg v); generalize dependent (sizeBytes v); intros end.
  repeat match type of Hs with context [sizeVarint ?v] => pose proof (sizeVarint_nonneg v); generalize dependent (sizeVarint v); intros end.
  unfold short. lia.
Qed.

Lemma marshal_length m : relay_ok m -> slen (MarshalToSizedBuffer m) = Size m.
Proof.
  intros Hok. destruct (relay_short m Hok) as (? & ? & ? & ? & ? & ? & ?). unfold MarshalToSizedBuffer, Size. cbv zeta.
  rewrite !putBytes_length, !putVarint_length, !putBytes_length, !putVarint_length, !putBytes_length, !putVarint_length, !putBytes_length by done.
  change (slen "") with 0. lia.
Qed.

Lemma wrap64_of_wrapu64 z : in_int64 z -> wrap64 (wrapu64 z) = z.
Proof.
  intros Hz. unfold wrap64, wrapu64. rewrite Zplus_mod_idemp_l. fold (wrap64 z). by apply wrap64_id.
Qed.

Lemma marshal_parses m l : relay_ok m -> l = Size m -> parses l (MarshalToSizedBuffer m) zeroRelay m.
Proof.
  intros Hok Hl. pose proof (marshal_length m Hok) as Hlen. destruct (relay_short m Hok) as (? & ? & ? & ? & ? & ? & ?).
  pose proof Hok as (G3 & G5 & G9 & G10 & G11 & Hs). unfold MarshalToSizedBuffer in *. cbv zeta in *.
  assert (forall tag v acc, slen (putBytes tag v acc) <= l -> slen acc <= l) as Hb.
  { intros tag v acc. unfold putBytes. destruct (0 <? slen v); [|done]. rewrite slen_cons, !slen_app.
    pose proof (slen_nonneg (encodeVarintMinedRelay (slen v))). pose proof (slen_nonneg v). lia. }
  assert (forall tag v acc, slen (putVarint tag v acc) <= l -> slen acc <= l) as Hv.
  { intros tag v acc. rewrite putVarint_length. pose proof (sizeVarint_nonneg v). lia. }
  assert (l <= int64_max) as Hlm by lia. rewrite <- Hl in Hlen.
  repeat first
    [ eapply parses_bytes; [by repeat split|done|done|by rewrite Hlen || eassumption|reflexivity|];
      match goal with |- parses _ ?acc _ _ => assert (slen acc <= l) by (eapply Hb; first [by rewrite Hlen|eassumption]) end
    | eapply parses_varint; [by repeat split|reflexivity|];
      match goal with |- parses _ ?acc _ _ => assert (slen acc <= l) by (eapply Hv; eassumption) end ].
  repeat match goal with |- context [wrap32 (Z.shiftr ?t 3)] =>
    let v := eval vm_compute in (wrap32 (Z.shiftr t 3)) in change (wrap32 (Z.shiftr t 3)) with v end.
  cbn [setBytes setInt zeroRelay]. rewrite !wrap64_of_wrapu64, (wrapu64_id (ComputeUnitsPerRelay m)) by done. destruct m. apply parses_nil.
Qed.

(** The wire form of a mined relay round-trips. Marshal fills the buffer
    Size computed, exactly, and Unmarshal of those bytes into a zeroed message
    gives the message back, negative heights included; and Unmarshal answers
    every input, a corrupt or truncated one too, within a round per byte. *)
Theorem wire_round_trip (m m0 : MinedRelayMessage) (data : string) :
  relay_ok m -> short data ->
  (exists wire, Marshal m = Some wire /\ slen wire = Size m /\ DecodeEntry wire = Some (Ok m)) /\
  Unmarshal data m0 <> None.
Proof.
  intros Hok Hd. split; [|by apply unmarshal_returns].
  exists (MarshalToSizedBuffer m). pose proof (marshal_length m Hok) as Hl. unfold Marshal. rewrite Hl, Z.leb_refl. split_and!; [done..|].
  unfold DecodeEntry, Unmarshal. rewrite Hl. by apply marshal_parses.
Qed.

Lemma compressed_ok `{S : S2} `{SL : !S2Laws} raw c o : CompressRelayBytes raw = (Some c, o) ->
  s2_decode c = Some raw /\ s2_decoded_len c = Some (slen raw) /\ slen raw <= MaxCompressedRelayBytes /\ 0 < slen c /\ slen c <= slen raw.
Proof.
  unfold CompressRelayBytes. destruct (Z.ltb_spec (slen raw) RelayCompressionThreshold); [done|].
  destruct (Z.ltb_spec MaxCompressedRelayBytes (slen raw)); [done|]. cbv zeta. destruct (_ || _); [done|].
  destruct (shrinksEnough (slen (s2_encode raw)) (slen raw)) eqn:Hsh; [|done]. intros [= <- _].
  rewrite s2_round_trip, s2_states_length. split_and!; try done.
  - destruct (s2_encode raw) eqn:E; [|rewrite slen_cons; pose proof (slen_nonneg s); lia].
    pose proof (s2_states_length raw) as Hx. by rewrite E, s2_empty in Hx.
  - unfold shrinksEnough in Hsh. apply Z.leb_le in Hsh. pose proof (slen_nonneg raw).
    rewrite Z.quot_div_nonneg in Hsh by lia. pose proof (Z.div_pos (slen raw) 10). lia.
Qed.

Lemma set_published_fields t m : RelayBytes (set_published t m) = RelayBytes m /\ RelayBytesS2 (set_published t m) = RelayBytesS2 m.
Proof. by destruct m. Qed.

(** A queued relay reaches the miner with the bytes the relayer hashed. A
    relay that PrepareEntry accepts, compressed or not, decodes to a message
    whose OriginalRelayBytes are exactly the relay's, with the spare capacity
    asked for, every other field being the caller's, the publish instant
    stamped once; what it refuses is refused for its first missing field. *)
Theorem entry_keeps_relay `{S : S2} `{SL : !S2Laws} (now : Z) (prefix : string) (m m1 : MinedRelayMessage) (stream data : string) (cap spare : Z) :
  PrepareEntry now prefix (Some m) = (Some m1, Ok (stream, data)) ->
  relay_ok m1 -> 0 < slen (RelayBytes m) -> RelayBytesS2 m = "" -> 0 <= spare ->
  (forall c o, CompressRelayBytes (RelayBytes m) = (Some c, o) -> relay_ok (set_compressed c m1)) ->
  stream = SupplierStreamName prefix (mr_SupplierOperatorAddress m) /\ mr_SessionId m <> "" /\ 0 < mr_SessionEndHeight m /\
  m1 = (if PublishedAtUnixNano m =? 0 then set_published now m else m) /\
  exists got c, DecodeEntry data = Some (Ok got) /\ OriginalRelayBytes cap spare got = Ok (RelayBytes m, c) /\
    slen (RelayBytes m) + spare <= c /\ (got = m1 \/ exists z, got = set_compressed z m1).
Proof.
  intros Hp Hok Hr Hs2 Hspare Hcok. unfold PrepareEntry in Hp.
  destruct (String.eqb_spec (mr_SessionId m) "") as [|Hsid]; [done|]. destruct (Z.leb_spec (mr_SessionEndHeight m) 0) as [|Hend]; [done|].
  cbv zeta in Hp. set (m2 := if PublishedAtUnixNano m =? 0 then set_published now m else m) in *.
  assert (RelayBytes m2 = RelayBytes m /\ RelayBytesS2 m2 = "" /\ mr_SupplierOperatorAddress m2 = mr_SupplierOperatorAddress m) as (Hb & Hb2 & Hsup).
  { unfold m2. destruct (_ =? 0); [|done]. by destruct m. }
  rewrite Hb, Hb2, Hsup in Hp. change (slen "" =? 0) with true in Hp. cbn iota in Hp.
  assert (m1 = m2) as ->.
  { destruct (Marshal _); by injection Hp. }
  destruct (CompressRelayBytes (RelayBytes m)) as [[c|] o] eqn:Hc.
  - destruct (compressed_ok _ _ _ Hc) as (Hdec & Hlen & Hmax & Hpos & _). specialize (Hcok c o eq_refl).
    assert (RelayBytes (set_compressed c m2) = "" /\ RelayBytesS2 (set_compressed c m2) = c) as [Hw1 Hw2] by by destruct m2.
    pose proof (marshal_length _ Hcok) as Hml. unfold Marshal in Hp. cbv zeta in Hp. rewrite Hml, Z.leb_refl in Hp. injection Hp as <- <-.
    split_and!; try done. exists (set_compressed c m2), (slen (RelayBytes m) + spare). split_and!; [| |lia|right; by exists c].
    + unfold DecodeEntry, Unmarshal. rewrite Hml. by apply marshal_parses.
    + unfold OriginalRelayBytes. rewrite Hw1, Hw2, Hlen, Hdec. change (slen "") with 0. cbn [Z.ltb Z.compare andb].
      rewrite (proj2 (Z.eqb_neq (slen c) 0)) by lia. by rewrite (proj2 (Z.ltb_ge MaxCompressedRelayBytes (slen (RelayBytes m)))).
  - pose proof (marshal_length _ Hok) as Hml. unfold Marshal in Hp. cbv zeta in Hp. rewrite Hml, Z.leb_refl in Hp. injection Hp as <- <-.
    split_and!; try done. exists m2. unfold OriginalRelayBytes. rewrite Hb, Hb2, (proj2 (Z.ltb_lt 0 (slen (RelayBytes m)))) by done.
    change (slen "") with 0. cbn [Z.ltb Z.compare andb]. assert (DecodeEntry (MarshalToSizedBuffer m2) = Some (Ok m2)) as Hd.
    { unfold DecodeEntry, Unmarshal. rewrite Hml. by apply marshal_parses. }
    destruct (Z.leb_spec spare (cap - slen (RelayBytes m))); eexists; (split_and!; [exact Hd|reflexivity|lia|by left]).
Qed.

Module RelayExample.
(** A block codec that shrinks runs of one byte. *)
Fixpoint all_char (c : ascii) (s : string) : bool :=
  match s with EmptyString => true | String d s' => Ascii.eqb c d && all_char c s' end.

Fixpoint run (n : nat) (c : ascii) : string := match n with O => "" | S n => String c (run n c) end.

#[export] Instance run_codec : S2 := {
  s2_encode := fun raw => match raw with
    | String c _ => if all_char c raw then "R" +:+ String c (format_int (slen raw)) else "V" +:+ raw
    | EmptyString => "V" end;
  s2_decoded_len := fun b => match b with
    | String "R" (String c n) => parse_dec n
    | String "V" raw => Some (slen raw)
    | _ => None end;
  s2_decode := fun b => match b with
    | String "R" (String c n) => (fun z => run (Z.to_nat z) c) <$> parse_dec n
    | String "V" raw => Some raw
    | _ => None end;
  s2_estimate := fun w => match w with String c _ => if all_char c w then 10 else -1 | EmptyString => -1 end
}.

Lemma run_all c s : all_char c s = true -> run (String.length s) c = s.
Proof.
  induction s as [|d s IH]; [done|]. simpl. intros [->%Ascii.eqb_eq Hs]%andb_true_iff. by rewrite IH.
Qed.

#[export] Instance run_codec_laws : S2Laws.
Proof.
  split; [| |done]; intros [|c raw]; try done; cbn [s2_encode s2_decode s2_decoded_len run_codec];
    destruct (all_char c (String c raw)) eqn:Ha; try done; simpl; rewrite parse_dec_format; simpl; [|done].
  unfold slen. rewrite Nat2Z.id. f_equal. by apply (run_all c (String c raw)).
Qed.

Definition big : string := run (Z.to_nat 20000) "x"%char.
Definition relay_1 : MinedRelayMessage := mkMined "hash" "payload" 3000 "session" 120 "pokt1sup" "svc" "pokt1app" 115 0 (-1) "".
Definition relay_2 : MinedRelayMessage := mkMined "hash" big 3000 "session" 120 "pokt1sup" "svc" "pokt1app" 115 5 111 "".
Definition wire_1 : string := MarshalToSizedBuffer relay_1.

Lemma relay_1_ok : relay_ok relay_1.
Proof. repeat split; vm_compute; discriminate. Qed.

Lemma wire_round_trip_witness :
  DecodeEntry wire_1 = Some (Ok relay_1) /\ DecodeEntry (str_take 20 wire_1) = Some (Err ErrUnexpectedEOF) /\
  (exists wire, Marshal relay_1 = Some wire /\ slen wire = Size relay_1 /\ DecodeEntry wire = Some (Ok relay_1)) /\
  Unmarshal (str_take 20 wire_1) zeroRelay <> None.
Proof.
  split; [vm_compute; reflexivity|]. split; [vm_compute; reflexivity|].
  apply (wire_round_trip relay_1 zeroRelay (str_take 20 wire_1)); [exact relay_1_ok|]. unfold short. vm_compute. discriminate.
Defined.

Definition stored_1 : string := match snd (PrepareEntry 7 "ha:relays" (Some relay_1)) with Ok (_, d) => d | _ => "" end.
Definition sent_1 : MinedRelayMessage := set_published 7 relay_1.

Lemma entry_keeps_relay_witness :
  fst (CompressRelayBytes big) = Some "Rx20000" /\
  "ha:relays:pokt1sup" = SupplierStreamName "ha:relays" "pokt1sup" /\ mr_SessionId relay_1 <> "" /\ 0 < mr_SessionEndHeight relay_1 /\
  sent_1 = (if PublishedAtUnixNano relay_1 =? 0 then set_published 7 relay_1 else relay_1) /\
  exists got c, DecodeEntry stored_1 = Some (Ok got) /\ OriginalRelayBytes 7 16 got = Ok ("payload", c) /\
    slen "payload" + 16 <= c /\ (got = sent_1 \/ exists z, got = set_compressed z sent_1).
Proof.
  split; [vm_compute; reflexivity|].
  apply (entry_keeps_relay (SL := run_codec_laws) 7 "ha:relays" relay_1 sent_1 "ha:relays:pokt1sup" stored_1 7 16).
  - vm_compute. reflexivity.
  - repeat split; vm_compute; discriminate.
  - vm_compute. reflexivity.
  - reflexivity.
  - lia.
  - intros c o Hc. vm_compute in Hc. discriminate.
Defined.
End RelayExample.
