(* ===== verification/RedisTime.v ===== *)
(** * Redis keys that expire

    The locks and leases of the fleet live on keys with a TTL. [TimedOps]
    lists the commands the lock code sends, with [tlook], what a key answers at
    an instant of the server's clock (in milliseconds) if nothing writes it in
    the meantime; [TimedLaws] is the documented effect of each command on these
    answers. Redis and its Go client are not part of the repository: the laws
    are what the theorems assume of them, and [TimedMap] shows they can hold.

    A Lua script runs as one step, so it is a composition of the commands. *)

From S2P Require Import Prelude.
From Stdlib Require Import Ascii String.

Local Open Scope string_scope.
Local Open Scope Z_scope.

Inductive tval :=
| TStr (s : string)
| TSet (m : gset string).

#[export] Instance tval_eq_dec : EqDecision tval.
Proof. solve_decision. Defined.

(** The commands. Every one takes the instant it runs at. [sent_ms] and
    [sent_s] are the milliseconds and the seconds the client sends for a
    duration in nanoseconds (SET and SET NX; EXPIRE). *)
Class TimedOps (R : Type) := {
  tlook : R -> string -> Z -> option tval;
  sent_ms : Z -> Z;
  sent_s : Z -> Z;
  t_set_px : Z -> string -> string -> Z -> R -> R;
  t_pexpire : Z -> string -> Z -> R -> R * bool;
  t_del : Z -> string -> R -> R * bool;
  t_sadd : Z -> string -> string -> R -> R;
  t_srem : Z -> string -> string -> R -> R;
  t_smembers : Z -> string -> R -> list string
}.

Section Timeline.
Context {R : Type} `{TO : !TimedOps R}.

(** The keys outside [k] answer what they answered, now and later. *)
Definition tframe (now : Z) (k : string) (r r' : R) : Prop :=
  forall k' t, k' <> k -> now <= t -> tlook r' k' t = tlook r k' t.

Definition tsame (now : Z) (r r' : R) : Prop :=
  forall k t, now <= t -> tlook r' k t = tlook r k t.

(** The key answers [v] until [e] and nothing from then on. *)
Definition until (now e : Z) (k : string) (v : tval) (r' : R) : Prop :=
  forall t, now <= t -> tlook r' k t = if t <? e then Some v else None.

Definition t_get (now : Z) (k : string) (r : R) : option string :=
  match tlook r k now with Some (TStr s) => Some s | _ => None end.

Definition t_exists (now : Z) (k : string) (r : R) : bool :=
  match tlook r k now with Some _ => true | None => false end.

(** SET k v PX ms NX. *)
Definition t_setnx_px (now : Z) (k v : string) (ms : Z) (r : R) : R * bool :=
  if t_exists now k r then (r, false) else (t_set_px now k v ms r, true).

Definition no_set (r : R) (now : Z) (k : string) : Prop :=
  forall t ms, now <= t -> tlook r k t <> Some (TSet ms).

(** A key without a TTL: it answers the same now and later. *)
Definition forever (r : R) (now : Z) (k : string) (v : option tval) : Prop :=
  forall t, now <= t -> tlook r k t = v.

Definition members_of (v : option tval) : gset string :=
  match v with Some (TSet m) => m | _ => ∅ end.

Definition tmembers (r : R) (now : Z) (k : string) : gset string :=
  members_of (tlook r k now).
End Timeline.

(** Redis removes a set that became empty. *)
Definition put_members (m : gset string) : option tval := if decide (m = ∅) then None else Some (TSet m).

Class TimedLaws (R : Type) `{!TimedOps R} := {
  sent_s_trunc ttl : 10 ^ 9 <= ttl -> sent_s ttl = ttl / 10 ^ 9;
  sent_ms_trunc ttl : 10 ^ 9 <= ttl -> sent_ms ttl = ttl / 10 ^ 6;
  time_set r now k v ms :
    0 < ms -> until now (now + ms) k (TStr v) (t_set_px now k v ms r) /\ tframe now k r (t_set_px now k v ms r);
  time_expire r now k ms :
    0 < ms ->
    match tlook r k now with
    | Some v => (t_pexpire now k ms r).2 = true /\ until now (now + ms) k v (t_pexpire now k ms r).1 /\
                tframe now k r (t_pexpire now k ms r).1
    | None => (t_pexpire now k ms r).2 = false /\ tsame now r (t_pexpire now k ms r).1
    end;
  time_del r now k :
    (t_del now k r).2 = t_exists now k r /\ (forall t, now <= t -> tlook (t_del now k r).1 k t = None) /\
    tframe now k r (t_del now k r).1;
  time_sadd r now k m v :
    forever r now k v -> (forall s, v <> Some (TStr s)) ->
    forever (t_sadd now k m r) now k (Some (TSet ({[m]} ∪ members_of v))) /\ tframe now k r (t_sadd now k m r);
  time_srem r now k m v :
    forever r now k v -> (forall s, v <> Some (TStr s)) ->
    forever (t_srem now k m r) now k (put_members (members_of v ∖ {[m]})) /\ tframe now k r (t_srem now k m r);
  time_smembers r now k :
    NoDup (t_smembers now k r) /\ forall m, m ∈ t_smembers now k r <-> m ∈ tmembers r now k
}.

(** ** A map with the commands written out *)

Abbreviation TimedMap := (gmap string (tval * option Z)).

Definition tm_look (r : TimedMap) (k : string) (t : Z) : option tval :=
  match r !! k with
  | Some (v, Some e) => if t <? e then Some v else None
  | Some (v, None) => Some v
  | None => None
  end.

#[export] Instance TimedMapOps : TimedOps TimedMap := {
  tlook := tm_look;
  sent_ms := fun ttl => ttl / 10 ^ 6;
  sent_s := fun ttl => ttl / 10 ^ 9;
  t_set_px := fun now k v ms r => <[k := (TStr v, Some (now + ms))]> r;
  t_pexpire := fun now k ms r =>
    match tm_look r k now with
    | Some v => (<[k := (v, Some (now + ms))]> r, true)
    | None => (r, false)
    end;
  t_del := fun now k r => (delete k r, match tm_look r k now with Some _ => true | None => false end);
  t_sadd := fun now k m r => <[k := (TSet ({[m]} ∪ members_of (tm_look r k now)), None)]> r;
  t_srem := fun now k m r =>
    match put_members (members_of (tm_look r k now) ∖ {[m]}) with
    | Some v => <[k := (v, None)]> r
    | None => delete k r
    end;
  t_smembers := fun now k r => elements (members_of (tm_look r k now))
}.

Ltac tm_frame := intros k' t ? ?; cbn; unfold tm_look; by rewrite ?lookup_insert_ne, ?lookup_delete_ne by done.

#[export] Instance TimedMap_laws : TimedLaws TimedMap.
Proof.
  split; cbn [tlook sent_ms sent_s t_set_px t_pexpire t_del t_sadd t_srem t_smembers TimedMapOps].
  - done.
  - done.
  - intros r now k v ms Hms. split; [|tm_frame]. intros t Ht. unfold tlook, TimedMapOps, tm_look. by rewrite lookup_insert_eq.
  - intros r now k ms Hms. destruct (tm_look r k now) as [v|] eqn:E; simpl.
    + split_and!; [done| |tm_frame]. intros t Ht. unfold tlook, TimedMapOps, tm_look. by rewrite lookup_insert_eq.
    + split; [done|]. by intros ???.
  - intros r now k. split_and!; [done| |tm_frame]. intros t Ht. simpl. unfold tm_look. by rewrite lookup_delete_eq.
  - intros r now k m v Hf _. split; [|tm_frame]. intros t Ht. unfold forever in Hf. cbn [tlook TimedMapOps] in *.
    rewrite Hf by lia. unfold tm_look. by rewrite lookup_insert_eq.
  - intros r now k m v Hf _. unfold forever in *. cbn [tlook TimedMapOps] in *. rewrite Hf by lia.
    destruct (put_members _) as [w|]; (split; [|tm_frame]); intros t Ht; unfold tm_look; [by rewrite lookup_insert_eq|by rewrite lookup_delete_eq].
  - intros r now k. split; [apply NoDup_elements|]. intros m. apply elem_of_elements.
Qed.
