(* ===== verification/LeaderElection.v ===== *)
(** * Leader election (leader/leader_lock.go, leader/global_leader.go)

    [LockOps] is the interface leaderLock: its three calls, and [lock_holder],
    who holds the lock at an instant if no call comes in between. [LockLaws] is
    what each call promises when its reply can be lost. [RedisLock] and
    [ExclusiveLock] implement the interface; [attemptLeadership] and [shutdown]
    are the election loop's two reactions, proved against it. The fleet is a
    step relation over electors that share a lock, with time passing, replies
    lost and replicas dying; Callbacks are recorded as the elector invokes
    them. Metrics and logs are not modelled. *)

From S2P Require Import Prelude RedisTime KeyBuilder.
From Stdlib Require Import Ascii String.

Local Open Scope string_scope.
Local Open Scope Z_scope.

Inductive LockErr :=
| LockIo (e : IoErr)
| LockScript.

(** ** The interface *)

Class LockOps (L : Type) := {
  lock_holder : L -> Z -> option string;
  lock_wf : Z -> L -> Prop;
  acquire : Fault -> Z -> L -> string -> Z -> L * result Z LockErr;
  renew : Fault -> Z -> L -> string -> Z -> L * result Z LockErr;
  release : Fault -> Z -> L -> string -> L * result Z LockErr
}.

Section Contract.
Context {L : Type} `{LO : !LockOps L}.

Definition lock_same (now : Z) (l l' : L) : Prop := forall t, now <= t -> lock_holder l' t = lock_holder l t.

(** The owner holds the lock for [ttl] seconds from now, and no one else does
    after that. *)
Definition granted (now ttl : Z) (o : string) (l' : L) : Prop :=
  (forall t, now <= t < now + ttl * 1000 -> lock_holder l' t = Some o) /\
  (forall t, now <= t -> lock_holder l' t = Some o \/ lock_holder l' t = None).

Definition free_from (now : Z) (l' : L) : Prop := forall t, now <= t -> lock_holder l' t = None.

(** A call that answers 1 found the holder it wanted and did its work, one that
    answers 0 did not and changed nothing, and one whose answer is an error did
    either. *)
Definition lock_call (now : Z) (l l' : L) (r : result Z LockErr) (wants : option string) (done : L -> Prop) : Prop :=
  match r with
  | Ok n => (n = 1 /\ lock_holder l now = wants /\ done l') \/
            (n = 0 /\ lock_holder l now <> wants /\ lock_same now l l')
  | Err _ => lock_same now l l' \/ (lock_holder l now = wants /\ done l')
  end.
End Contract.

Class LockLaws (L : Type) `{!LockOps L} := {
  wf_later now now' l : now <= now' -> lock_wf now l -> lock_wf now' l;
  law_acquire f now l o ttl l' r :
    lock_wf now l -> o <> "" -> 0 < ttl -> acquire f now l o ttl = (l', r) ->
    lock_wf now l' /\ lock_call now l l' r None (granted now ttl o);
  law_renew f now l o ttl l' r :
    lock_wf now l -> o <> "" -> 0 < ttl -> renew f now l o ttl = (l', r) ->
    lock_wf now l' /\ lock_call now l l' r (Some o) (granted now ttl o);
  law_release f now l o l' r :
    lock_wf now l -> o <> "" -> release f now l o = (l', r) ->
    lock_wf now l' /\ lock_call now l l' r (Some o) (free_from now)
}.

(** ** The lock as a Redis key *)

Section RedisLock.
Context {R : Type} `{TL : TimedLaws R}.
Variable key : string.

(** SET key v EX seconds: Redis refuses a TTL that is not positive. *)
Definition acquireLuaScript (now : Z) (owner : string) (ttl : Z) (r : R) : R * option Z :=
  if t_exists now key r then (r, Some 0)
  else if 0 <? ttl then (t_set_px now key owner (ttl * 1000) r, Some 1) else (r, None).

(** EXPIRE with a TTL that is not positive deletes the key. *)
Definition renewLuaScript (now : Z) (owner : string) (ttl : Z) (r : R) : R * option Z :=
  if bool_decide (t_get now key r = Some owner) then
    (if 0 <? ttl then (t_pexpire now key (ttl * 1000) r).1 else (t_del now key r).1, Some 1)
  else (r, Some 0).

Definition releaseLuaScript (now : Z) (owner : string) (r : R) : R * option Z :=
  if bool_decide (t_get now key r = Some owner) then ((t_del now key r).1, Some 1) else (r, Some 0).

(** One script call: a lost reply, or the script's own error. *)
Definition runScript (f : Fault) (script : R -> R * option Z) (r : R) : R * result Z LockErr :=
  match round_trip f script r with
  | (r', Ok (Some n)) => (r', Ok n)
  | (r', Ok None) => (r', Err LockScript)
  | (r', Err e) => (r', Err (LockIo e))
  end.

Definition RedisLock : LockOps R := {|
  lock_holder := fun r t => t_get t key r;
  lock_wf := fun now r => no_set r now key;
  acquire := fun f now r owner ttl => runScript f (acquireLuaScript now owner ttl) r;
  renew := fun f now r owner ttl => runScript f (renewLuaScript now owner ttl) r;
  release := fun f now r owner => runScript f (releaseLuaScript now owner) r
|}.

Lemma holder_look r t v : no_set r t key -> t_get t key r = v -> tlook r key t = TStr <$> v.
Proof.
  unfold t_get. intros Hw <-. destruct (tlook r key t) as [[s|m]|] eqn:E; [done| |done].
  by destruct (Hw t m).
Qed.

Lemma until_granted now ttl o r' :
  until now (now + ttl * 1000) key (TStr o) r' -> no_set r' now key /\ granted (LO := RedisLock) now ttl o r'.
Proof.
  intros H. split; [|split].
  - intros t m Ht. rewrite H by done. by destruct (_ <? _).
  - intros t Ht. cbn. unfold t_get. rewrite H by lia. by rewrite (proj2 (Z.ltb_lt _ _)) by lia.
  - intros t Ht. cbn. unfold t_get. rewrite H by done. destruct (_ <? _); auto.
Qed.

(** A script that answers 1 after its work when it found the holder it wanted,
    and 0 with nothing done otherwise, keeps the contract of a call. *)
Lemma runScript_call f now script (r r' : R) res wants done :
  no_set r now key ->
  (t_get now key r = wants -> exists r1, script r = (r1, Some 1) /\ no_set r1 now key /\ done r1) ->
  (t_get now key r <> wants -> script r = (r, Some 0)) ->
  runScript f script r = (r', res) ->
  no_set r' now key /\ lock_call (LO := RedisLock) now r r' res wants done.
Proof.
  intros Hw Hyes Hno Hrun. unfold runScript in Hrun.
  destruct (decide (t_get now key r = wants)) as [Hd|Hd].
  - destruct (Hyes Hd) as (r1 & Hs & Hw1 & Hd1).
    destruct f as [| |[]]; cbn in Hrun; rewrite ?Hs in Hrun; injection Hrun as <- <-;
      (split; [done|]); cbn; auto.
    all: left; by intros ??.
  - pose proof (Hno Hd) as Hs.
    destruct f as [| |[]]; cbn in Hrun; rewrite ?Hs in Hrun; injection Hrun as <- <-;
      (split; [done|]); cbn; [right|left|left|left]; split_and?; try done.
Qed.

#[export] Instance RedisLock_laws : LockLaws R (LockOps0 := RedisLock).
Proof.
  split; cbn [lock_wf lock_holder acquire renew release RedisLock].
  - intros now now' r Hle H t m Ht. apply H. lia.
  - intros f now r o ttl r' res Hw Ho Httl. apply runScript_call; [done| |].
    + intros Hg. apply holder_look in Hg; [|done]. unfold acquireLuaScript, t_exists. rewrite Hg. cbn.
      rewrite (proj2 (Z.ltb_lt _ _)) by done. eexists; split; [done|]. apply until_granted.
      by apply (time_set r now key o (ttl * 1000)); lia.
    + intros Hg. unfold acquireLuaScript, t_exists. unfold t_get in Hg. by destruct (tlook r key now).
  - intros f now r o ttl r' res Hw Ho Httl. apply runScript_call; [done| |].
    + intros Hg. unfold renewLuaScript. rewrite bool_decide_true by done. rewrite (proj2 (Z.ltb_lt _ _)) by done.
      eexists; split; [done|]. apply until_granted.
      apply holder_look in Hg; [|done]. pose proof (time_expire r now key (ttl * 1000) ltac:(lia)) as H.
      rewrite Hg in H. cbn in H. tauto.
    + intros Hg. unfold renewLuaScript. by rewrite bool_decide_false.
  - intros f now r o r' res Hw Ho. apply runScript_call; [done| |].
    + intros Hg. unfold releaseLuaScript. rewrite bool_decide_true by done. eexists; split; [done|].
      destruct (time_del r now key) as (_ & Hd & _). split.
      * intros t m Ht. by rewrite Hd.
      * intros t Ht. cbn. unfold t_get. by rewrite Hd.
    + intros Hg. unfold releaseLuaScript. by rewrite bool_decide_false.
Qed.
End RedisLock.

(** ** The lock of a process alone *)

Section Exclusive.
Record exclusiveLock := { ex_owner : string }.

Definition ex_acquire (l : exclusiveLock) (owner : string) : exclusiveLock * Z :=
  if String.eqb (ex_owner l) "" then ({| ex_owner := owner |}, 1) else (l, 0).

Definition ex_renew (l : exclusiveLock) (owner : string) : exclusiveLock * Z :=
  if String.eqb (ex_owner l) owner then (l, 1) else (l, 0).

Definition ex_release (l : exclusiveLock) (owner : string) : exclusiveLock * Z :=
  if String.eqb (ex_owner l) owner then ({| ex_owner := "" |}, 1) else (l, 0).

(** In memory: no round trip, no clock. *)
#[export] Instance ExclusiveLock : LockOps exclusiveLock := {|
  lock_holder := fun l _ => if String.eqb (ex_owner l) "" then None else Some (ex_owner l);
  lock_wf := fun _ _ => True;
  acquire := fun _ _ l owner _ => let '(l', n) := ex_acquire l owner in (l', Ok n);
  renew := fun _ _ l owner _ => let '(l', n) := ex_renew l owner in (l', Ok n);
  release := fun _ _ l owner => let '(l', n) := ex_release l owner in (l', Ok n)
|}.

#[export] Instance ExclusiveLock_laws : LockLaws exclusiveLock.
Proof.
  split; [done|..]; intros f now l o; intros;
    match goal with H : o <> _ |- _ => pose proof (proj2 (String.eqb_neq _ _) H) as E0 end;
    simplify_eq/=; (split; [done|]); unfold ex_acquire, ex_renew, ex_release in *.
  - destruct (String.eqb_spec (ex_owner l) "") as [e|]; simplify_eq/=.
    + left. split_and!; [done|by rewrite e|]. split; intros t Ht; cbn; rewrite E0; auto.
    + right. rewrite (proj2 (String.eqb_neq _ _)) by done. by split_and!.
  - destruct (String.eqb_spec (ex_owner l) o); simplify_eq/=.
    + left. rewrite E0. split_and!; [done..|]. split; intros t Ht; cbn; rewrite E0; auto.
    + right. split_and!; [done| |done]. case_match; congruence.
  - destruct (String.eqb_spec (ex_owner l) o); simplify_eq/=.
    + left. rewrite E0. split_and!; [done..|]. by intros t Ht.
    + right. split_and!; [done| |done]. case_match; congruence.
Qed.
End Exclusive.

(** ** The elector *)

Inductive Callback := Elected | Lost.

Record GlobalLeaderElector := {
  instanceID : string;
  LeaderTTL : Z;
  isLeader : bool;
  consecutiveAcquireFailures : Z;
  called : list Callback
}.

(** [int(LeaderTTL.Seconds())]; the float64 in between is exact to the
    nanosecond for the durations a TTL has (under 97 days). *)
Definition ttlSeconds (ttl : Z) : Z := ttl / 10 ^ 9.

Definition newGlobalLeaderElector (id : string) (ttl : Z) : GlobalLeaderElector :=
  {| instanceID := id; LeaderTTL := ttl; isLeader := false; consecutiveAcquireFailures := 0; called := [] |}.

Section Elector.
Context {L : Type} `{LL : LockLaws L}.

Definition demoted (e : GlobalLeaderElector) : GlobalLeaderElector :=
  {| instanceID := instanceID e; LeaderTTL := LeaderTTL e; isLeader := false;
     consecutiveAcquireFailures := consecutiveAcquireFailures e; called := called e ++ [Lost] |}.

Definition elected (e : GlobalLeaderElector) : GlobalLeaderElector :=
  {| instanceID := instanceID e; LeaderTTL := LeaderTTL e; isLeader := true;
     consecutiveAcquireFailures := 0; called := called e ++ [Elected] |}.

Definition set_failures (n : Z) (e : GlobalLeaderElector) : GlobalLeaderElector :=
  {| instanceID := instanceID e; LeaderTTL := LeaderTTL e; isLeader := isLeader e;
     consecutiveAcquireFailures := n; called := called e |}.

Definition attemptLeadership (f : Fault) (now : Z) (l : L) (e : GlobalLeaderElector) : L * GlobalLeaderElector :=
  if isLeader e then
    match renew f now l (instanceID e) (ttlSeconds (LeaderTTL e)) with
    | (l', Err _) => (l', demoted e)
    | (l', Ok result) => (l', if result =? 0 then demoted e else e)
    end
  else
    match acquire f now l (instanceID e) (ttlSeconds (LeaderTTL e)) with
    | (l', Err _) => (l', set_failures (wrap64 (consecutiveAcquireFailures e + 1)) e)
    | (l', Ok result) => (l', if result =? 1 then elected e else set_failures 0 e)
    end.

(** leaderLoop when its context is done; the loop ends. *)
Definition shutdown (f : Fault) (now : Z) (l : L) (e : GlobalLeaderElector) : L * GlobalLeaderElector :=
  if isLeader e then ((release f now l (instanceID e)).1, e) else (l, e).

Definition IsLeader (e : GlobalLeaderElector) : bool := isLeader e.

(** ** The fleet *)

(** A replica: its elector, whether its loop still runs, and the end of the
    term its last answered call got (0 when that call got none). *)
Record Replica := { elector : GlobalLeaderElector; looping : bool; term : Z }.

Record Fleet := { fl_now : Z; fl_lock : L; fl_replicas : gmap string Replica }.

Inductive fleet_event :=
| Tick (d : Z)
| StartReplica (id : string) (ttl : Z)
| Attempt (id : string) (f : Fault)
| StopReplica (id : string) (f : Fault)
| Crash (id : string).

Definition fleet_step (fl : Fleet) (ev : fleet_event) : Fleet :=
  match ev with
  | Tick d => {| fl_now := fl_now fl + Z.max 0 d; fl_lock := fl_lock fl; fl_replicas := fl_replicas fl |}
  | StartReplica id ttl =>
      if negb (String.eqb id "") && (10 ^ 9 <=? ttl) &&
         match fl_replicas fl !! id with Some rep => negb (looping rep) | None => true end
      then {| fl_now := fl_now fl; fl_lock := fl_lock fl;
              fl_replicas := <[id := {| elector := newGlobalLeaderElector id ttl; looping := true; term := 0 |}]> (fl_replicas fl) |}
      else fl
  | Attempt id f =>
      match fl_replicas fl !! id with
      | Some {| elector := e; looping := true |} =>
          let '(l', e') := attemptLeadership f (fl_now fl) (fl_lock fl) e in
          {| fl_now := fl_now fl; fl_lock := l';
             fl_replicas := <[id := {| elector := e'; looping := true;
               term := if isLeader e' then fl_now fl + ttlSeconds (LeaderTTL e) * 1000 else 0 |}]> (fl_replicas fl) |}
      | _ => fl
      end
  | StopReplica id f =>
      match fl_replicas fl !! id with
      | Some {| elector := e; looping := true; term := t |} =>
          let '(l', e') := shutdown f (fl_now fl) (fl_lock fl) e in
          {| fl_now := fl_now fl; fl_lock := l';
             fl_replicas := <[id := {| elector := e'; looping := false; term := t |}]> (fl_replicas fl) |}
      | _ => fl
      end
  | Crash id => {| fl_now := fl_now fl; fl_lock := fl_lock fl; fl_replicas := delete id (fl_replicas fl) |}
  end.

Definition fleet_run (fl : Fleet) (evs : list fleet_event) : Fleet := foldl fleet_step fl evs.

(** The replica runs and says it leads; its term ends at [t]. *)
Definition leads (fl : Fleet) (id : string) (t : Z) : Prop :=
  exists rep, fl_replicas fl !! id = Some rep /\ looping rep = true /\ IsLeader (elector rep) = true /\ term rep = t.

(** What the callbacks invoked so far say of the leadership, [None] for an
    election or a loss that is out of order. *)
Definition told (cs : list Callback) : option bool :=
  foldl (fun st c => match st, c with
                     | Some false, Elected => Some true
                     | Some true, Lost => Some false
                     | _, _ => None
                     end) (Some false) cs.

(** ** One leader at a time *)

Definition holds_to (now : Z) (l : L) (id : string) (t : Z) : Prop :=
  forall u, now <= u < t -> lock_holder l u = Some id.

Definition replica_ok (now : Z) (l : L) (id : string) (rep : Replica) : Prop :=
  id <> "" /\ instanceID (elector rep) = id /\ 10 ^ 9 <= LeaderTTL (elector rep) /\
  told (called (elector rep)) = Some (isLeader (elector rep)) /\
  (looping rep = true -> isLeader (elector rep) = true -> holds_to now l id (term rep)).

Definition fleet_inv (fl : Fleet) : Prop :=
  lock_wf (fl_now fl) (fl_lock fl) /\
  forall id rep, fl_replicas fl !! id = Some rep -> replica_ok (fl_now fl) (fl_lock fl) id rep.

Lemma ttlSeconds_pos ttl : 10 ^ 9 <= ttl -> 0 < ttlSeconds ttl.
Proof. unfold ttlSeconds. intros. Z.div_mod_to_equations. lia. Qed.

(** A call that wants another holder leaves a term that still runs alone. *)
Lemma call_keeps now l l' r wants done id t :
  lock_call now l l' r wants done -> wants <> Some id -> holds_to now l id t -> holds_to now l' id t.
Proof.
  intros Hc Hw Hh u Hu. assert (lock_holder l now = Some id) as Hn by (apply Hh; lia).
  assert (lock_same now l l') as Hs.
  { destruct r; cbn in Hc; destruct Hc as [Hc|Hc]; destruct_and?; congruence || done. }
  rewrite Hs by lia. by apply Hh.
Qed.

Lemma told_app cs c : told (cs ++ [c]) =
  match told cs, c with Some false, Elected => Some true | Some true, Lost => Some false | _, _ => None end.
Proof. unfold told. by rewrite foldl_app. Qed.

(** The replica that makes a call is as it should be after it. *)
Lemma attempt_self f now l e l' e' id :
  lock_wf now l -> id <> "" -> instanceID e = id -> 10 ^ 9 <= LeaderTTL e -> told (called e) = Some (isLeader e) ->
  attemptLeadership f now l e = (l', e') ->
  replica_ok now l' id {| elector := e'; looping := true;
    term := if isLeader e' then now + ttlSeconds (LeaderTTL e) * 1000 else 0 |}.
Proof.
  intros Hw Hid He Httl Ht Ha. pose proof (ttlSeconds_pos _ Httl) as Hp.
  unfold attemptLeadership in Ha. subst id. destruct (isLeader e) eqn:El.
  - destruct (renew _ _ _ _ _) as [l1 [n|err]] eqn:E; injection Ha as <- <-.
    + destruct (law_renew _ _ _ _ _ _ _ Hw Hid Hp E) as [_ [(-> & _ & Hd)|(-> & _ & _)]].
      * split_and!; cbn; [done|done|done|by rewrite El|]. intros _ _. rewrite El. exact (proj1 Hd).
      * split_and!; cbn; [done|done|done|by rewrite told_app, Ht|done].
    + split_and!; cbn; [done|done|done|by rewrite told_app, Ht|done].
  - destruct (acquire _ _ _ _ _) as [l1 [n|err]] eqn:E; injection Ha as <- <-.
    + destruct (law_acquire _ _ _ _ _ _ _ Hw Hid Hp E) as [_ [(-> & _ & Hd)|(-> & _ & _)]].
      * split_and!; cbn; [done|done|done|by rewrite told_app, Ht|]. intros _ _. exact (proj1 Hd).
      * split_and!; cbn; [done|done|done|by rewrite El|by rewrite El].
    + split_and!; cbn; [done|done|done|by rewrite El|by rewrite El].
Qed.

(** The others keep their terms. *)
Lemma attempt_others f now l e l' e' id t :
  lock_wf now l -> instanceID e <> "" -> 10 ^ 9 <= LeaderTTL e -> attemptLeadership f now l e = (l', e') ->
  lock_wf now l' /\ (instanceID e <> id -> holds_to now l id t -> holds_to now l' id t).
Proof.
  intros Hw Hne Httl Ha. pose proof (ttlSeconds_pos _ Httl) as Hp. unfold attemptLeadership in Ha.
  destruct (isLeader e).
  - destruct (renew _ _ _ _ _) as [l1 r] eqn:E. assert (l' = l1) as -> by (destruct r; congruence).
    apply law_renew in E as [Hw' Hc]; [|done..]. split; [done|]. intros Hi. eapply call_keeps; [done|congruence].
  - destruct (acquire _ _ _ _ _) as [l1 r] eqn:E. assert (l' = l1) as -> by (destruct r; congruence).
    apply law_acquire in E as [Hw' Hc]; [|done..]. split; [done|]. intros Hi. eapply call_keeps; [done|congruence].
Qed.

Lemma shutdown_others f now l e l' e' id t :
  lock_wf now l -> instanceID e <> "" -> shutdown f now l e = (l', e') ->
  lock_wf now l' /\ e' = e /\ (instanceID e <> id -> holds_to now l id t -> holds_to now l' id t).
Proof.
  intros Hw Hne Hs. unfold shutdown in Hs. destruct (isLeader e); [|by injection Hs as <- <-].
  destruct (release _ _ _ _) as [l1 r] eqn:E. injection Hs as <- <-. cbn.
  apply law_release in E as [Hw' Hc]; [|done..]. split_and!; [done..|]. intros Hi. eapply call_keeps; [done|congruence].
Qed.

Lemma fleet_step_inv fl ev : fleet_inv fl -> fleet_inv (fleet_step fl ev).
Proof.
  intros [Hw Hr]. destruct ev as [d|id ttl|id f|id f|id]; cbn.
  - split; cbn; [eapply wf_later; [|done]; lia|]. intros id rep Hrep.
    destruct (Hr id rep Hrep) as (? & ? & ? & ? & Hh). split_and!; [done..|].
    intros Hlo Hle u Hu. apply Hh; [done..|lia].
  - destruct (String.eqb_spec id ""); cbn; [done|]. destruct (Z.leb_spec (10 ^ 9) ttl); cbn; [|done].
    case_match; [|done]. split; cbn; [done|]. intros id' rep [[<- <-]|[? Hrep]]%lookup_insert_Some; [|by apply Hr].
    by split_and!.
  - destruct (fl_replicas fl !! id) as [[e [] t]|] eqn:Hid; [|done..].
    destruct (attemptLeadership _ _ _ _) as [l' e'] eqn:Ha.
    pose proof (Hr _ _ Hid) as (Hi & He & Httl & Htold & Hhold). cbn in *.
    destruct (attempt_others _ _ _ e _ _ "" 0 Hw ltac:(congruence) Httl Ha) as [Hw' _].
    split; cbn; [done|]. intros id' rep [[<- <-]|[Hne Hrep]]%lookup_insert_Some.
    + exact (attempt_self _ _ _ _ _ _ _ Hw Hi He Httl Htold Ha).
    + destruct (Hr _ _ Hrep) as (? & ? & ? & ? & Hh). split_and!; [done..|]. intros Hlo Hle.
      by eapply (attempt_others _ _ _ e _ _ _ _ Hw ltac:(congruence) Httl Ha); [congruence|apply Hh].
  - destruct (fl_replicas fl !! id) as [[e [] t]|] eqn:Hid; [|done..].
    destruct (shutdown _ _ _ _) as [l' e'] eqn:Ha.
    pose proof (Hr _ _ Hid) as (Hi & He & Httl & Htold & Hhold). cbn in *.
    destruct (shutdown_others _ _ _ e _ _ "" 0 Hw ltac:(congruence) Ha) as (Hw' & -> & _).
    split; cbn; [done|]. intros id' rep [[<- <-]|[Hne Hrep]]%lookup_insert_Some; [by split_and!|].
    destruct (Hr _ _ Hrep) as (? & ? & ? & ? & Hh). split_and!; [done..|]. intros Hlo Hle.
    by eapply (shutdown_others _ _ _ e _ _ _ _ Hw ltac:(congruence) Ha); [congruence|apply Hh].
  - split; cbn; [done|]. intros id' rep [? Hrep]%lookup_delete_Some. by apply Hr.
Qed.

Lemma fleet_run_inv fl evs : fleet_inv fl -> fleet_inv (fleet_run fl evs).
Proof. revert fl. induction evs as [|ev evs IH]; intros fl H; [done|]. apply IH. by apply fleet_step_inv. Qed.

(** C8. Leadership is exclusive for as long as it is renewed. In every run of
    the fleet, with replies lost, time passing and replicas starting, stopping
    and dying at any point: a replica whose loop runs and that says it leads
    holds the lock until the end of the term its last answered call got, so of
    two that say it at once, one has let its term run out; and a replica that
    runs has invoked its elected and lost callbacks in turns that agree with
    what it says. *)
Theorem leader_exclusive l0 evs :
  lock_wf 0 l0 ->
  let fl := fleet_run {| fl_now := 0; fl_lock := l0; fl_replicas := ∅ |} evs in
  (forall i t, leads fl i t -> fl_now fl < t -> lock_holder (fl_lock fl) (fl_now fl) = Some i) /\
  (forall i j ti tj, leads fl i ti -> leads fl j tj -> i <> j -> ti <= fl_now fl \/ tj <= fl_now fl) /\
  (forall i rep, fl_replicas fl !! i = Some rep -> told (called (elector rep)) = Some (IsLeader (elector rep))).
Proof.
  intros Hw fl. assert (fleet_inv fl) as [_ Hr] by (apply fleet_run_inv; split; [done|]; intros ?? [=]).
  assert (forall i t, leads fl i t -> fl_now fl < t -> lock_holder (fl_lock fl) (fl_now fl) = Some i) as Hone.
  { intros i t (rep & Hrep & Hl & He & <-) Hlt. apply Hr in Hrep as (_ & _ & _ & _ & Hh). apply Hh; [done..|lia]. }
  split_and!; [done| |].
  - intros i j ti tj Hi Hj Hne. destruct (Z.le_gt_cases ti (fl_now fl)) as [|Hti]; [by left|].
    destruct (Z.le_gt_cases tj (fl_now fl)) as [|Htj]; [by right|].
    pose proof (Hone _ _ Hi Hti). pose proof (Hone _ _ Hj Htj). congruence.
  - intros i rep Hrep. by apply Hr in Hrep as (_ & _ & _ & ? & _).
Qed.
End Elector.

Module LeaderExample.
(** Two replicas over one key: the first leads, its renewal is lost, the other
    takes over when the key has expired. *)
Definition key := GlobalLeaderKey (NewKeyBuilder "").
Definition evs : list fleet_event :=
  [StartReplica "a" (30 * 10 ^ 9); StartReplica "b" (30 * 10 ^ 9); Attempt "a" FNone; Attempt "b" FNone;
   Tick 10000; Attempt "a" FNone; Tick 30000; Attempt "b" FNone].
Definition lock0 : TimedMap := ∅.
Definition fl := fleet_run (LockOps0 := RedisLock key) {| fl_now := 0; fl_lock := lock0; fl_replicas := ∅ |} evs.

Lemma leader_exclusive_witness :
  lock_wf (LockOps := RedisLock key) 0 lock0 /\
  (forall i j ti tj, leads fl i ti -> leads fl j tj -> i <> j -> ti <= fl_now fl \/ tj <= fl_now fl) /\
  leads fl "a" 40000 /\ leads fl "b" 70000 /\ fl_now fl = 40000.
Proof.
  assert (lock_wf (LockOps := RedisLock key) 0 lock0) as Hw by (intros t m Ht; discriminate).
  split_and!; [exact Hw|exact (proj1 (proj2 (leader_exclusive (LL := RedisLock_laws key) lock0 evs Hw)))|..];
    eexists; split_and!; vm_compute; reflexivity.
Defined.
End LeaderExample.
