(* ===== verification/LeaseStore.v ===== *)
(** * Supplier leases (miner/lease_store.go)

    [LeaseOps] is the interface leaseStore: the leases of the suppliers and the
    set of live miner instances. [lease_at] is who holds a lease at an instant,
    and [instance_at] whether an instance's liveness record is there, if no
    call comes in between. [LeaseLaws] is what each call promises when its
    reply can be lost; [RedisLeases] and [ExclusiveLeases] are the two
    implementations, and both keep it. The claimer is modelled and proved
    against the interface. *)

From S2P Require Import Prelude RedisTime KeyBuilder.
From Stdlib Require Import Ascii String.

Local Open Scope string_scope.
Local Open Scope Z_scope.

(** ** The interface *)

(** [owner] answers [None] for errLeaseAbsent. [lease_term ttl] is how long, in
    milliseconds, a lease set with [ttl] is sure to last. *)
Class LeaseOps (L : Type) := {
  lease_at : L -> string -> Z -> option string;
  instance_at : L -> string -> Z -> bool;
  active_at : L -> Z -> gset string;
  lease_wf : Z -> L -> Prop;
  lease_term : Z -> Z;
  setNX : Fault -> Z -> L -> string -> string -> Z -> L * result bool IoErr;
  owner : Fault -> Z -> L -> string -> result (option string) IoErr;
  expire : Fault -> Z -> L -> string -> Z -> L * result bool IoErr;
  releaseIfOwner : Fault -> Z -> L -> string -> string -> L * result bool IoErr;
  extendIfOwner : Fault -> Z -> L -> string -> string -> Z -> L * result unit IoErr;
  exists_ : Fault -> Z -> L -> string -> result bool IoErr;
  setInstance : Fault -> Z -> L -> string -> string -> Z -> L * result unit IoErr;
  addActive : Fault -> Z -> L -> string -> L * result unit IoErr;
  removeActive : Fault -> Z -> L -> string -> L;
  deleteInstance : Fault -> Z -> L -> string -> L;
  activeCount : Fault -> Z -> L -> result Z IoErr;
  activeMembers : Fault -> Z -> L -> result (list string) IoErr;
  instanceAlive : Fault -> Z -> L -> string -> result bool IoErr
}.

Definition name_ok (s : string) : Prop := no_colon s /\ s <> "".

Section Contract.
Context {L : Type} `{LO : !LeaseOps L}.

(** Nothing changed, now and later, apart from the leases of [ss], the records
    of [ins] and, when [act], the active set. *)
Definition lframe (now : Z) (ss ins : list string) (act : bool) (l l' : L) : Prop :=
  (forall s t, name_ok s -> s ∉ ss -> now <= t -> lease_at l' s t = lease_at l s t) /\
  (forall i t, name_ok i -> i ∉ ins -> now <= t -> instance_at l' i t = instance_at l i t) /\
  (act = false -> forall t, now <= t -> active_at l' t = active_at l t).

Definition lsame (now : Z) : L -> L -> Prop := lframe now [] [] false.

(** [o] has the lease of [s] for [d] milliseconds, and no one else after. *)
Definition leased (now d : Z) (s o : string) (l' : L) : Prop :=
  (forall t, now <= t < now + d -> lease_at l' s t = Some o) /\
  (forall t, now <= t -> lease_at l' s t = Some o \/ lease_at l' s t = None).

(** What a call that got its answer found and did. *)
Definition setNX_post (now d : Z) (s o : string) (l l' : L) (set : bool) : Prop :=
  if set then lease_at l s now = None /\ leased now d s o l' /\ lframe now [s] [] false l l'
  else lease_at l s now <> None /\ lsame now l l'.

Definition expire_post (now d : Z) (s : string) (l l' : L) (found : bool) : Prop :=
  match lease_at l s now with
  | Some o => found = true /\ leased now d s o l' /\ lframe now [s] [] false l l'
  | None => found = false /\ lsame now l l'
  end.

Definition release_post (now : Z) (s o : string) (l l' : L) (deleted : bool) : Prop :=
  if deleted
  then lease_at l s now = Some o /\ (forall t, now <= t -> lease_at l' s t = None) /\ lframe now [s] [] false l l'
  else lease_at l s now <> Some o /\ lsame now l l'.

Definition extend_post (now d : Z) (s o : string) (l l' : L) (_ : unit) : Prop :=
  if decide (lease_at l s now = Some o)
  then leased now d s o l' /\ lframe now [s] [] false l l'
  else lsame now l l'.

Definition instance_post (now d : Z) (i : string) (l l' : L) (_ : unit) : Prop :=
  (forall t, now <= t < now + d -> instance_at l' i t = true) /\ lframe now [] [i] false l l'.

Definition active_post (now : Z) (i : string) (l l' : L) (_ : unit) : Prop :=
  (forall t, now <= t -> active_at l' t = {[i]} ∪ active_at l t) /\ lframe now [] [] true l l'.

(** A call: answered, it did [post]; with a lost reply it did that or nothing. *)
Definition lcall {A} (now : Z) (l l' : L) (r : result A IoErr) (post : A -> Prop) : Prop :=
  match r with
  | Ok a => post a
  | Err _ => lsame now l l' \/ exists a, post a
  end.
End Contract.

Class LeaseLaws (L : Type) `{!LeaseOps L} := {
  lwf_later now now' l : now <= now' -> lease_wf now l -> lease_wf now' l;
  lease_term_pos ttl : 10 ^ 9 <= ttl -> 0 < lease_term ttl;
  lease_term_mono ttl ttl' : 10 ^ 9 <= ttl <= ttl' -> lease_term ttl <= lease_term ttl';
  law_setNX f now l s o ttl l' r :
    lease_wf now l -> name_ok s -> name_ok o -> 10 ^ 9 <= ttl -> setNX f now l s o ttl = (l', r) ->
    lease_wf now l' /\ lcall now l l' r (setNX_post now (lease_term ttl) s o l l');
  law_owner f now l s v :
    lease_wf now l -> name_ok s -> owner f now l s = Ok v -> v = lease_at l s now;
  law_owner_answers now l s : lease_wf now l -> name_ok s -> owner FNone now l s = Ok (lease_at l s now);
  law_expire f now l s ttl l' r :
    lease_wf now l -> name_ok s -> 10 ^ 9 <= ttl -> expire f now l s ttl = (l', r) ->
    lease_wf now l' /\ lcall now l l' r (expire_post now (lease_term ttl) s l l');
  law_releaseIfOwner f now l s o l' r :
    lease_wf now l -> name_ok s -> name_ok o -> releaseIfOwner f now l s o = (l', r) ->
    lease_wf now l' /\ lcall now l l' r (release_post now s o l l');
  law_extendIfOwner f now l s o ttl l' r :
    lease_wf now l -> name_ok s -> name_ok o -> 10 ^ 9 <= ttl -> extendIfOwner f now l s o ttl = (l', r) ->
    lease_wf now l' /\ lcall now l l' r (extend_post now (lease_term ttl) s o l l');
  law_exists f now l s b :
    lease_wf now l -> name_ok s -> exists_ f now l s = Ok b -> b = bool_decide (lease_at l s now <> None);
  law_setInstance f now l i v ttl l' r :
    lease_wf now l -> name_ok i -> 10 ^ 9 <= ttl -> setInstance f now l i v ttl = (l', r) ->
    lease_wf now l' /\ lcall now l l' r (instance_post now (lease_term ttl) i l l');
  law_addActive f now l i l' r :
    lease_wf now l -> addActive f now l i = (l', r) ->
    lease_wf now l' /\ lcall now l l' r (active_post now i l l');
  law_removeActive f now l i :
    lease_wf now l ->
    lease_wf now (removeActive f now l i) /\ lframe now [] [] true l (removeActive f now l i) /\
    ((forall t, now <= t -> active_at (removeActive f now l i) t = active_at l t ∖ {[i]}) \/ lsame now l (removeActive f now l i));
  law_deleteInstance f now l i :
    lease_wf now l -> name_ok i ->
    lease_wf now (deleteInstance f now l i) /\ lframe now [] [i] false l (deleteInstance f now l i) /\
    ((forall t, now <= t -> instance_at (deleteInstance f now l i) i t = false) \/ lsame now l (deleteInstance f now l i));
  law_activeCount f now l n : lease_wf now l -> activeCount f now l = Ok n -> n = Z.of_nat (size (active_at l now));
  law_activeMembers f now l ms :
    lease_wf now l -> activeMembers f now l = Ok ms -> NoDup ms /\ forall i, i ∈ ms <-> i ∈ active_at l now;
  law_instanceAlive f now l i b :
    lease_wf now l -> name_ok i -> instanceAlive f now l i = Ok b -> b = instance_at l i now
}.

Lemma lsame_refl {L} `{!LeaseOps L} now (l : L) : lsame now l l.
Proof. by split_and!. Qed.
#[export] Hint Resolve lsame_refl : miner.

(** ** Leases on Redis keys *)

Section RedisLeases.
Context {R : Type} `{TL : TimedLaws R}.
Variable kb : KeyBuilder.
Hypothesis kb_ok : no_colon kb.

Definition leaseKey (supplier : string) : string := MinerClaimKey kb supplier.

Definition releaseLeaseScript (now : Z) (key o : string) (r : R) : R * Z :=
  if bool_decide (t_get now key r = Some o)
  then let '(r', deleted) := t_del now key r in (r', if deleted then 1 else 0)
  else (r, 0).

Definition extendDrainLeaseScript (now : Z) (key o : string) (ms : Z) (r : R) : R * Z :=
  if bool_decide (t_get now key r = Some o)
  then let '(r', found) := t_pexpire now key ms r in (r', if found then 1 else 0)
  else (r, 0).

Definition rl_setNX (f : Fault) (now : Z) (r : R) (s o : string) (ttl : Z) : R * result bool IoErr :=
  round_trip f (t_setnx_px now (leaseKey s) o (sent_ms ttl)) r.

Definition rl_owner (f : Fault) (now : Z) (r : R) (s : string) : result (option string) IoErr :=
  read_trip f (t_get now (leaseKey s) r).

Definition rl_expire (f : Fault) (now : Z) (r : R) (s : string) (ttl : Z) : R * result bool IoErr :=
  round_trip f (t_pexpire now (leaseKey s) (sent_s ttl * 1000)) r.

Definition rl_releaseIfOwner (f : Fault) (now : Z) (r : R) (s o : string) : R * result bool IoErr :=
  match round_trip f (releaseLeaseScript now (leaseKey s) o) r with
  | (r', Ok n) => (r', Ok (negb (n =? 0)))
  | (r', Err e) => (r', Err e)
  end.

(** [ttl.Milliseconds()] truncates. *)
Definition rl_extendIfOwner (f : Fault) (now : Z) (r : R) (s o : string) (ttl : Z) : R * result unit IoErr :=
  match round_trip f (extendDrainLeaseScript now (leaseKey s) o (Z.quot ttl (10 ^ 6))) r with
  | (r', Ok _) => (r', Ok tt)
  | (r', Err e) => (r', Err e)
  end.

Definition rl_exists (f : Fault) (now : Z) (r : R) (s : string) : result bool IoErr :=
  read_trip f (t_exists now (leaseKey s) r).

Definition rl_setInstance (f : Fault) (now : Z) (r : R) (i v : string) (ttl : Z) : R * result unit IoErr :=
  round_trip f (fun r => (t_set_px now (MinerInstanceKey kb i) v (sent_ms ttl) r, tt)) r.

Definition rl_addActive (f : Fault) (now : Z) (r : R) (i : string) : R * result unit IoErr :=
  round_trip f (fun r => (t_sadd now (MinerActiveSetKey kb) i r, tt)) r.

Definition rl_removeActive (f : Fault) (now : Z) (r : R) (i : string) : R :=
  (round_trip f (fun r => (t_srem now (MinerActiveSetKey kb) i r, tt)) r).1.

Definition rl_deleteInstance (f : Fault) (now : Z) (r : R) (i : string) : R :=
  (round_trip f (t_del now (MinerInstanceKey kb i)) r).1.

Definition rl_activeCount (f : Fault) (now : Z) (r : R) : result Z IoErr :=
  read_trip f (Z.of_nat (List.length (t_smembers now (MinerActiveSetKey kb) r))).

Definition rl_activeMembers (f : Fault) (now : Z) (r : R) : result (list string) IoErr :=
  read_trip f (t_smembers now (MinerActiveSetKey kb) r).

Definition rl_instanceAlive (f : Fault) (now : Z) (r : R) (i : string) : result bool IoErr :=
  read_trip f (t_exists now (MinerInstanceKey kb i) r).

(** Lease and liveness keys hold strings, the active set is a set without a
    TTL; [MinerActiveSetKey] is no lease or liveness key. *)
Definition rl_wf (now : Z) (r : R) : Prop :=
  (forall s, name_ok s -> no_set r now (leaseKey s)) /\
  (forall i, name_ok i -> no_set r now (MinerInstanceKey kb i)) /\
  exists v, forever r now (MinerActiveSetKey kb) v /\ forall s, v <> Some (TStr s).

Definition RedisLeases : LeaseOps R := {|
  lease_at := fun r s t => t_get t (leaseKey s) r;
  instance_at := fun r i t => t_exists t (MinerInstanceKey kb i) r;
  active_at := fun r t => tmembers r t (MinerActiveSetKey kb);
  lease_wf := rl_wf;
  lease_term := fun ttl => ttl / 10 ^ 9 * 1000;
  setNX := rl_setNX; owner := rl_owner; expire := rl_expire;
  releaseIfOwner := rl_releaseIfOwner; extendIfOwner := rl_extendIfOwner; exists_ := rl_exists;
  setInstance := rl_setInstance; addActive := rl_addActive; removeActive := rl_removeActive;
  deleteInstance := rl_deleteInstance; activeCount := rl_activeCount; activeMembers := rl_activeMembers;
  instanceAlive := rl_instanceAlive
|}.

(** *** The keys do not meet *)

Lemma lease_key_ne s s' : name_ok s -> name_ok s' -> s <> s' -> leaseKey s <> leaseKey s'.
Proof. intros [] [] ?. apply (render_ne kb (KMinerClaim s) (KMinerClaim s')); simpl; auto; congruence. Qed.

Lemma instance_key_ne i i' : name_ok i -> name_ok i' -> i <> i' -> MinerInstanceKey kb i <> MinerInstanceKey kb i'.
Proof. intros [] [] ?. apply (render_ne kb (KMinerInstance i) (KMinerInstance i')); simpl; auto; congruence. Qed.

Lemma lease_instance_ne s i : name_ok s -> name_ok i -> leaseKey s <> MinerInstanceKey kb i.
Proof. intros [] []. apply (render_ne kb (KMinerClaim s) (KMinerInstance i)); simpl; auto; congruence. Qed.

Lemma lease_active_ne s : name_ok s -> leaseKey s <> MinerActiveSetKey kb.
Proof. intros []. apply (render_ne kb (KMinerClaim s) KMinerActive); simpl; auto; congruence. Qed.

Lemma instance_active_ne i : name_ok i -> MinerInstanceKey kb i <> MinerActiveSetKey kb.
Proof. intros []. apply (render_ne kb (KMinerInstance i) KMinerActive); simpl; auto; congruence. Qed.

(** *** What a write of one key leaves alone *)

Lemma get_frame now k (r r' : R) k' t : tframe now k r r' -> k' <> k -> now <= t -> t_get t k' r' = t_get t k' r.
Proof. intros Hf ? ?. unfold t_get. by rewrite Hf. Qed.

Lemma exists_frame now k (r r' : R) k' t : tframe now k r r' -> k' <> k -> now <= t -> t_exists t k' r' = t_exists t k' r.
Proof. intros Hf ? ?. unfold t_exists. by rewrite Hf. Qed.

Lemma no_set_frame now k (r r' : R) k' : tframe now k r r' -> k' <> k -> no_set r now k' -> no_set r' now k'.
Proof. intros Hf ? H t m Ht. rewrite Hf by done. by apply H. Qed.

Lemma lease_write now s (r r' : R) :
  name_ok s -> rl_wf now r -> tframe now (leaseKey s) r r' -> no_set r' now (leaseKey s) ->
  rl_wf now r' /\ lframe (LO := RedisLeases) now [s] [] false r r'.
Proof.
  intros Hs (H1 & H2 & v & H3 & H4) Hf Hw. split; [split_and!|split_and!].
  - intros s' Hs'. destruct (decide (s' = s)) as [->|]; [done|]. eapply no_set_frame; eauto using lease_key_ne.
  - intros i Hi. eapply no_set_frame; eauto. intros E. by eapply (lease_instance_ne s i).
  - exists v. split; [|done]. intros t Ht. rewrite Hf; [by apply H3| |done]. intros E. by apply (lease_active_ne s).
  - intros s' t Hs' Hn Ht. cbn [lease_at RedisLeases]. eapply get_frame; [done| |done]. apply lease_key_ne; set_solver.
  - intros i t Hi _ Ht. cbn [instance_at RedisLeases]. eapply exists_frame; [done| |done]. intros E. by eapply (lease_instance_ne s i).
  - intros _ t Ht. cbn [active_at RedisLeases]. unfold tmembers. rewrite Hf; [done| |done]. intros E. by apply (lease_active_ne s).
Qed.

Lemma instance_write now i (r r' : R) :
  name_ok i -> rl_wf now r -> tframe now (MinerInstanceKey kb i) r r' -> no_set r' now (MinerInstanceKey kb i) ->
  rl_wf now r' /\ lframe (LO := RedisLeases) now [] [i] false r r'.
Proof.
  intros Hi (H1 & H2 & v & H3 & H4) Hf Hw. split; [split_and!|split_and!].
  - intros s Hs. eapply no_set_frame; eauto using lease_instance_ne.
  - intros i' Hi'. destruct (decide (i' = i)) as [->|]; [done|]. eapply no_set_frame; eauto using instance_key_ne.
  - exists v. split; [|done]. intros t Ht. rewrite Hf; [by apply H3| |done]. intros E. by apply (instance_active_ne i).
  - intros s t Hs _ Ht. cbn [lease_at RedisLeases]. eapply get_frame; eauto using lease_instance_ne.
  - intros i' t Hi' Hn Ht. cbn [instance_at RedisLeases]. eapply exists_frame; [done| |done]. apply instance_key_ne; set_solver.
  - intros _ t Ht. cbn [active_at RedisLeases]. unfold tmembers. rewrite Hf; [done| |done]. intros E. by apply (instance_active_ne i).
Qed.

Lemma active_write now (r r' : R) v :
  rl_wf now r -> tframe now (MinerActiveSetKey kb) r r' -> forever r' now (MinerActiveSetKey kb) v ->
  (forall s, v <> Some (TStr s)) ->
  rl_wf now r' /\ lframe (LO := RedisLeases) now [] [] true r r'.
Proof.
  intros (H1 & H2 & _) Hf Hv Hn. split; [split_and!|split_and!].
  - intros s Hs. eapply no_set_frame; eauto using lease_active_ne.
  - intros i Hi. eapply no_set_frame; eauto using instance_active_ne.
  - by exists v.
  - intros s t Hs _ Ht. cbn [lease_at RedisLeases]. eapply get_frame; eauto using lease_active_ne.
  - intros i t Hi _ Ht. cbn [instance_at RedisLeases]. eapply exists_frame; eauto using instance_active_ne.
  - done.
Qed.

Lemma tsame_same now (r r' : R) : rl_wf now r -> tsame now r r' -> rl_wf now r' /\ lsame (LO := RedisLeases) now r r'.
Proof.
  intros (H1 & H2 & v & H3 & H4) Hs. split; [split_and!|split_and!].
  - intros s ? t m ?. rewrite Hs by done. by apply H1.
  - intros i ? t m ?. rewrite Hs by done. by apply H2.
  - exists v. split; [|done]. intros t ?. rewrite Hs by done. by apply H3.
  - intros s t _ _ Ht. cbn [lease_at RedisLeases]. unfold t_get. by rewrite Hs.
  - intros i t _ _ Ht. cbn [instance_at RedisLeases]. unfold t_exists. by rewrite Hs.
  - intros _ t Ht. cbn [active_at RedisLeases]. unfold tmembers. by rewrite Hs.
Qed.

(** A round trip whose command keeps a contract keeps it with faults too. *)
Lemma trip_call {A} f now (act : R -> R * A) (r r' : R) res post :
  rl_wf now r -> (forall r1 a, act r = (r1, a) -> rl_wf now r1 /\ post r1 a) ->
  round_trip f act r = (r', res) -> rl_wf now r' /\ lcall (LO := RedisLeases) now r r' res (post r').
Proof.
  intros Hw Hact Hrun. destruct (act r) as [r1 a] eqn:E. destruct (Hact r1 a eq_refl) as [Hw1 Hp1].
  destruct f as [| |[]]; cbn in Hrun; rewrite ?E in Hrun; injection Hrun as <- <-; (split; [done|]); cbn; eauto with miner.
Qed.

Lemma get_str now k v (r : R) : no_set r now k -> t_get now k r = v -> tlook r k now = TStr <$> v.
Proof. unfold t_get. intros H <-. destruct (tlook r k now) as [[]|] eqn:E; [done| |done]. by destruct (H now m). Qed.

Lemma until_leased now d d' s o (r' : R) :
  until now (now + d') (leaseKey s) (TStr o) r' -> d <= d' ->
  no_set r' now (leaseKey s) /\ leased (LO := RedisLeases) now d s o r'.
Proof.
  intros H Hd. split; [|split].
  - intros t m Ht. rewrite H by done. by destruct (_ <? _).
  - intros t Ht. cbn [lease_at RedisLeases]. unfold t_get. rewrite H by lia. by rewrite (proj2 (Z.ltb_lt _ _)) by lia.
  - intros t Ht. cbn [lease_at RedisLeases]. unfold t_get. rewrite H by done. destruct (_ <? _); auto.
Qed.

Lemma rl_setNX_law f now (r : R) s o ttl r' res :
  rl_wf now r -> name_ok s -> 10 ^ 9 <= ttl -> rl_setNX f now r s o ttl = (r', res) ->
  rl_wf now r' /\ lcall (LO := RedisLeases) now r r' res (setNX_post (LO := RedisLeases) now (ttl / 10 ^ 9 * 1000) s o r r').
Proof.
  intros Hw Hs Httl. apply (trip_call f now _ r r' res (setNX_post (LO := RedisLeases) now (ttl / 10 ^ 9 * 1000) s o r)); [done|].
  intros r1 set. unfold t_setnx_px. pose proof (proj1 Hw s Hs) as Hn.
  destruct (t_exists now (leaseKey s) r) eqn:E; intros [= <- <-].
  - split; [done|]. split; [|eauto with miner]. intros Hg. apply get_str in Hg; [|done]. unfold t_exists in E. by rewrite Hg in E.
  - rewrite sent_ms_trunc by done.
    destruct (time_set r now (leaseKey s) o (ttl / 10 ^ 6)) as [Hu Hf]; [Z.div_mod_to_equations; lia|].
    destruct (until_leased now (ttl / 10 ^ 9 * 1000) _ s o _ Hu) as [Hn1 Hl]; [Z.div_mod_to_equations; lia|].
    destruct (lease_write _ _ _ _ Hs Hw Hf Hn1) as [Hw1 Hfr]. split; [done|]. split; [|by split].
    unfold t_exists in E. cbn [lease_at RedisLeases]. unfold t_get. by destruct (tlook r (leaseKey s) now).
Qed.

Lemma rl_expire_law f now (r : R) s ttl r' res :
  rl_wf now r -> name_ok s -> 10 ^ 9 <= ttl -> rl_expire f now r s ttl = (r', res) ->
  rl_wf now r' /\ lcall (LO := RedisLeases) now r r' res (expire_post (LO := RedisLeases) now (ttl / 10 ^ 9 * 1000) s r r').
Proof.
  intros Hw Hs Httl. unfold rl_expire. rewrite sent_s_trunc by done.
  apply (trip_call f now _ r r' res (expire_post (LO := RedisLeases) now (ttl / 10 ^ 9 * 1000) s r)); [done|].
  intros r1 found E. pose proof (time_expire r now (leaseKey s) (ttl / 10 ^ 9 * 1000) ltac:(Z.div_mod_to_equations; lia)) as H.
  rewrite E in H. cbn [fst snd] in H. pose proof (proj1 Hw s Hs) as Hn. unfold expire_post. cbn [lease_at RedisLeases].
  destruct (t_get now (leaseKey s) r) as [o|] eqn:Hg; apply get_str in Hg; [|done| |done]; rewrite Hg in H; cbn in H.
  - destruct H as (-> & Hu & Hf). destruct (until_leased _ _ _ s o _ Hu (Z.le_refl _)) as [Hn1 Hl].
    by destruct (lease_write _ _ _ _ Hs Hw Hf Hn1).
  - destruct H as [-> Hsame]. by destruct (tsame_same _ _ _ Hw Hsame).
Qed.

(** The two scripts do their work exactly for the owner. *)
Lemma script_call {A} f now (script : R -> R * Z) (mk : Z -> A) (r r' : R) s o res post :
  rl_wf now r ->
  (t_get now (leaseKey s) r = Some o -> exists r1, script r = (r1, 1) /\ rl_wf now r1 /\ post r1 (mk 1)) ->
  (t_get now (leaseKey s) r <> Some o -> script r = (r, 0) /\ post r (mk 0)) ->
  match round_trip f script r with (r1, Ok n) => (r1, Ok (mk n)) | (r1, Err e) => (r1, Err e) end = (r', res) ->
  rl_wf now r' /\ lcall (LO := RedisLeases) now r r' res (post r').
Proof.
  intros Hw Hyes Hno Hrun.
  apply (trip_call f now (fun r => let '(r1, n) := script r in (r1, mk n)) r r' res post Hw).
  - intros r1 a. destruct (decide (t_get now (leaseKey s) r = Some o)) as [Hd|Hd].
    + destruct (Hyes Hd) as (r2 & -> & ? & ?). by intros [= <- <-].
    + destruct (Hno Hd) as [-> ?]. by intros [= <- <-].
  - rewrite <- Hrun. destruct f as [| |[]]; cbn; by destruct (script r).
Qed.

Lemma rl_releaseIfOwner_law f now (r : R) s o r' res :
  rl_wf now r -> name_ok s -> rl_releaseIfOwner f now r s o = (r', res) ->
  rl_wf now r' /\ lcall (LO := RedisLeases) now r r' res (release_post (LO := RedisLeases) now s o r r').
Proof.
  intros Hw Hs. unfold rl_releaseIfOwner. pose proof (proj1 Hw s Hs) as Hn.
  apply (script_call f now _ (fun n => negb (n =? 0)) r r' s o res (release_post (LO := RedisLeases) now s o r)); [done| |].
  - intros Hg. unfold releaseLeaseScript. rewrite bool_decide_true by done.
    destruct (time_del r now (leaseKey s)) as (Hd & Hnone & Hf). apply get_str in Hg as Hl; [|done].
    unfold t_exists in Hd. rewrite Hl in Hd. destruct (t_del now (leaseKey s) r) as [r1 b]. cbn [fst snd] in *. subst b.
    exists r1. split; [done|]. assert (no_set r1 now (leaseKey s)) as Hn1 by (intros t m Ht; by rewrite Hnone).
    destruct (lease_write _ _ _ _ Hs Hw Hf Hn1). split; [done|]. split; [done|]. split; [|done].
    intros t Ht. cbn [lease_at RedisLeases]. unfold t_get. by rewrite Hnone.
  - intros Hg. unfold releaseLeaseScript. rewrite bool_decide_false by done. split; [done|]. split; [done|eauto with miner].
Qed.

Lemma rl_extendIfOwner_law f now (r : R) s o ttl r' res :
  rl_wf now r -> name_ok s -> 10 ^ 9 <= ttl -> rl_extendIfOwner f now r s o ttl = (r', res) ->
  rl_wf now r' /\ lcall (LO := RedisLeases) now r r' res (extend_post (LO := RedisLeases) now (ttl / 10 ^ 9 * 1000) s o r r').
Proof.
  intros Hw Hs Httl. unfold rl_extendIfOwner. pose proof (proj1 Hw s Hs) as Hn.
  rewrite Z.quot_div_nonneg by lia.
  apply (script_call f now _ (fun _ => tt) r r' s o res (extend_post (LO := RedisLeases) now (ttl / 10 ^ 9 * 1000) s o r)); [done| |].
  - intros Hg. unfold extendDrainLeaseScript. rewrite bool_decide_true by done.
    pose proof (time_expire r now (leaseKey s) (ttl / 10 ^ 6) ltac:(Z.div_mod_to_equations; lia)) as H.
    apply get_str in Hg as Hlook; [|done]. rewrite Hlook in H. cbn [fmap option_fmap option_map] in H. destruct H as (Hb & Hu & Hf).
    destruct (t_pexpire now (leaseKey s) (ttl / 10 ^ 6) r) as [r1 b]. cbn [fst snd] in *. subst b. exists r1. split; [done|].
    destruct (until_leased now (ttl / 10 ^ 9 * 1000) _ s o _ Hu) as [Hn1 Hl]; [Z.div_mod_to_equations; lia|].
    destruct (lease_write _ _ _ _ Hs Hw Hf Hn1). split; [done|]. unfold extend_post. by rewrite decide_True.
  - intros Hg. unfold extendDrainLeaseScript. rewrite bool_decide_false by done. split; [done|].
    unfold extend_post. rewrite decide_False by done. eauto with miner.
Qed.

Lemma rl_setInstance_law f now (r : R) i v ttl r' res :
  rl_wf now r -> name_ok i -> 10 ^ 9 <= ttl -> rl_setInstance f now r i v ttl = (r', res) ->
  rl_wf now r' /\ lcall (LO := RedisLeases) now r r' res (instance_post (LO := RedisLeases) now (ttl / 10 ^ 9 * 1000) i r r').
Proof.
  intros Hw Hi Httl. unfold rl_setInstance. rewrite sent_ms_trunc by done.
  apply (trip_call f now _ r r' res (instance_post (LO := RedisLeases) now (ttl / 10 ^ 9 * 1000) i r)); [done|].
  intros r1 a [= <- <-].
  destruct (time_set r now (MinerInstanceKey kb i) v (ttl / 10 ^ 6)) as [Hu Hf]; [Z.div_mod_to_equations; lia|].
  destruct (instance_write _ _ _ _ Hi Hw Hf) as [? ?].
  { intros t m Ht. rewrite Hu by done. by destruct (_ <? _). }
  split; [done|]. split; [|done]. intros t Ht. cbn [instance_at RedisLeases]. unfold t_exists. rewrite Hu by lia.
  by rewrite (proj2 (Z.ltb_lt _ _)) by (Z.div_mod_to_equations; lia).
Qed.

Lemma rl_active_write now (r : R) i (add : bool) :
  rl_wf now r ->
  let r' := if add then t_sadd now (MinerActiveSetKey kb) i r else t_srem now (MinerActiveSetKey kb) i r in
  rl_wf now r' /\ lframe (LO := RedisLeases) now [] [] true r r' /\
  forall t, now <= t -> tmembers r' t (MinerActiveSetKey kb) =
    if add then {[i]} ∪ tmembers r t (MinerActiveSetKey kb) else tmembers r t (MinerActiveSetKey kb) ∖ {[i]}.
Proof.
  intros Hw. pose proof Hw as (_ & _ & v & Hv & Hn). destruct add; cbn zeta.
  - destruct (time_sadd r now _ i v Hv Hn) as [Hf Hfr]. destruct (active_write _ _ _ _ Hw Hfr Hf) as [? ?]; [done|].
    split_and!; [done..|]. intros t Ht. unfold tmembers. by rewrite Hf, Hv.
  - destruct (time_srem r now _ i v Hv Hn) as [Hf Hfr]. destruct (active_write _ _ _ _ Hw Hfr Hf) as [? ?].
    { intros s. unfold put_members. by case_decide. }
    split_and!; [done..|]. intros t Ht. unfold tmembers. rewrite Hf, Hv by done. unfold put_members.
    case_decide as E; cbn; [by rewrite E|done].
Qed.

Lemma read_ok {A} f (a b : A) : read_trip f a = Ok b -> b = a.
Proof. destruct f as [| |[]]; cbn; congruence. Qed.

#[export] Instance RedisLeases_laws : LeaseLaws R (LeaseOps0 := RedisLeases).
Proof.
  split; cbn [lease_at instance_at active_at lease_wf lease_term setNX owner expire releaseIfOwner extendIfOwner exists_
    setInstance addActive removeActive deleteInstance activeCount activeMembers instanceAlive RedisLeases].
  - intros now now' r Hle (H1 & H2 & v & H3 & H4). split_and!.
    + intros s Hs t m Ht. apply H1; [done|lia].
    + intros i Hi t m Ht. apply H2; [done|lia].
    + exists v. split; [|done]. intros t Ht. apply H3. lia.
  - intros. Z.div_mod_to_equations. lia.
  - intros. apply Z.mul_le_mono_nonneg_r; [lia|]. apply Z.div_le_mono; lia.
  - intros f now r s o ttl r' res Hw Hs _. by apply rl_setNX_law.
  - intros f now r s v Hw Hs. apply read_ok.
  - done.
  - intros f now r s ttl r' res. apply rl_expire_law.
  - intros f now r s o r' res Hw Hs _. by apply rl_releaseIfOwner_law.
  - intros f now r s o ttl r' res Hw Hs _. by apply rl_extendIfOwner_law.
  - intros f now r s b Hw Hs ->%read_ok. unfold t_exists, t_get.
    destruct (tlook r (leaseKey s) now) as [[]|] eqn:E; [done| |done]. by destruct (proj1 Hw s Hs now m).
  - intros f now r i v ttl r' res. apply rl_setInstance_law.
  - intros f now r i r' res Hw. apply (trip_call f now _ r r' res (active_post (LO := RedisLeases) now i r)); [done|].
    intros r1 a [= <- <-]. by destruct (rl_active_write now r i true Hw) as (? & ? & ?).
  - intros f now r i Hw. unfold rl_removeActive. destruct (rl_active_write now r i false Hw) as (? & ? & ?).
    destruct (round_trip_state (fun r => (t_srem now (MinerActiveSetKey kb) i r, tt)) r f) as [-> | ->]; cbn [fst].
    + split_and!; [done..|right; apply lsame_refl].
    + split_and!; [done..|by left].
  - intros f now r i Hw Hi. unfold rl_deleteInstance. destruct (time_del r now (MinerInstanceKey kb i)) as (_ & Hd & Hf).
    destruct (instance_write _ _ _ _ Hi Hw Hf) as [? ?]; [intros t m Ht; by rewrite Hd|].
    destruct (round_trip_state (t_del now (MinerInstanceKey kb i)) r f) as [-> | ->].
    + split_and!; [done..|right; apply lsame_refl].
    + split_and!; [done..|left]. intros t Ht. unfold t_exists. by rewrite Hd.
  - intros f now r n Hw ->%read_ok. f_equal. destruct (time_smembers r now (MinerActiveSetKey kb)) as [Hnd Hm].
    rewrite <- (size_list_to_set (C := gset string)) by done. f_equal. set_solver.
  - intros f now r ms Hw ->%read_ok. apply time_smembers.
  - intros f now r i b Hw Hi. apply read_ok.
Qed.
End RedisLeases.

(** ** Leases of a process alone *)

Section ExclusiveLeases.
Record exclusiveLeaseStore := {
  ex_leases : gmap string string;
  ex_instances : gset string;
  ex_active : gset string
}.

Definition newExclusiveLeaseStore : exclusiveLeaseStore :=
  {| ex_leases := ∅; ex_instances := ∅; ex_active := ∅ |}.

Definition ex_setNX (l : exclusiveLeaseStore) (s o : string) : exclusiveLeaseStore * bool :=
  match ex_leases l !! s with
  | Some _ => (l, false)
  | None => ({| ex_leases := <[s := o]> (ex_leases l); ex_instances := ex_instances l; ex_active := ex_active l |}, true)
  end.

Definition ex_expire (l : exclusiveLeaseStore) (s : string) : bool := bool_decide (is_Some (ex_leases l !! s)).

(** A missing key of a Go map reads as the empty string. *)
Definition ex_releaseIfOwner (l : exclusiveLeaseStore) (s o : string) : exclusiveLeaseStore * bool :=
  if negb (String.eqb (default "" (ex_leases l !! s)) o) then (l, false)
  else ({| ex_leases := delete s (ex_leases l); ex_instances := ex_instances l; ex_active := ex_active l |}, true).

Definition ex_setInstance (l : exclusiveLeaseStore) (i : string) : exclusiveLeaseStore :=
  {| ex_leases := ex_leases l; ex_instances := {[i]} ∪ ex_instances l; ex_active := ex_active l |}.

Definition ex_addActive (l : exclusiveLeaseStore) (i : string) : exclusiveLeaseStore :=
  {| ex_leases := ex_leases l; ex_instances := ex_instances l; ex_active := {[i]} ∪ ex_active l |}.

Definition ex_removeActive (l : exclusiveLeaseStore) (i : string) : exclusiveLeaseStore :=
  {| ex_leases := ex_leases l; ex_instances := ex_instances l; ex_active := ex_active l ∖ {[i]} |}.

Definition ex_deleteInstance (l : exclusiveLeaseStore) (i : string) : exclusiveLeaseStore :=
  {| ex_leases := ex_leases l; ex_instances := ex_instances l ∖ {[i]}; ex_active := ex_active l |}.

(** The TTL a lease is given is not kept: the lease lasts. *)
#[export] Instance ExclusiveLeases : LeaseOps exclusiveLeaseStore := {|
  lease_at := fun l s _ => ex_leases l !! s;
  instance_at := fun l i _ => bool_decide (i ∈ ex_instances l);
  active_at := fun l _ => ex_active l;
  lease_wf := fun _ _ => True;
  lease_term := fun ttl => ttl;
  setNX := fun _ _ l s o _ => let '(l', b) := ex_setNX l s o in (l', Ok b);
  owner := fun _ _ l s => Ok (ex_leases l !! s);
  expire := fun _ _ l s _ => (l, Ok (ex_expire l s));
  releaseIfOwner := fun _ _ l s o => let '(l', b) := ex_releaseIfOwner l s o in (l', Ok b);
  extendIfOwner := fun _ _ l _ _ _ => (l, Ok tt);
  exists_ := fun _ _ l s => Ok (ex_expire l s);
  setInstance := fun _ _ l i _ _ => (ex_setInstance l i, Ok tt);
  addActive := fun _ _ l i => (ex_addActive l i, Ok tt);
  removeActive := fun _ _ l i => ex_removeActive l i;
  deleteInstance := fun _ _ l i => ex_deleteInstance l i;
  activeCount := fun _ _ l => Ok (Z.of_nat (size (ex_active l)));
  activeMembers := fun _ _ l => Ok (elements (ex_active l));
  instanceAlive := fun _ _ l i => Ok (bool_decide (i ∈ ex_instances l))
|}.

(** A lease held with no TTL is held for any term. *)
Lemma ex_leased now d s o (l : exclusiveLeaseStore) : ex_leases l !! s = Some o -> leased now d s o l.
Proof. intros H. split; intros t _; cbn; [done|by left]. Qed.

Lemma ex_lease_frame now s m (l : exclusiveLeaseStore) :
  (forall s', s' <> s -> m !! s' = ex_leases l !! s') ->
  lframe now [s] [] false l {| ex_leases := m; ex_instances := ex_instances l; ex_active := ex_active l |}.
Proof. intros H. split_and!; [|done..]. intros s' t _ Hn _. apply H. set_solver. Qed.

#[export] Instance ExclusiveLeases_laws : LeaseLaws exclusiveLeaseStore.
Proof.
  split; cbn [lease_at instance_at active_at lease_wf lease_term setNX owner expire releaseIfOwner extendIfOwner exists_
    setInstance addActive removeActive deleteInstance activeCount activeMembers instanceAlive ExclusiveLeases]; try done; try lia.
  - intros f now l s o ttl l' r _ _ _ _. unfold ex_setNX.
    destruct (ex_leases l !! s) as [o'|] eqn:E; intros [= <- <-]; (split; [done|]); cbn; (split; [cbn; congruence|]).
    + apply lsame_refl.
    + split; [apply ex_leased, lookup_insert_eq|]. apply ex_lease_frame. intros s' Hs'. by rewrite lookup_insert_ne.
  - intros f now l s v _ _ [=]. done.
  - intros f now l s ttl l' r _ _ _ [= <- <-]. split; [done|]. unfold lcall, expire_post, ex_expire. cbn.
    destruct (ex_leases l !! s) eqn:E; rewrite ?bool_decide_true, ?bool_decide_false by (rewrite ?is_Some_alt; done).
    + split_and!; [done|by apply ex_leased|]. by apply (ex_lease_frame now s (ex_leases l) l) || by destruct l.
    + split; [done|apply lsame_refl].
  - intros f now l s o l' r _ _ [_ Ho]. unfold ex_releaseIfOwner.
    destruct (String.eqb_spec (default "" (ex_leases l !! s)) o) as [E|E]; intros [= <- <-]; (split; [done|]); cbn.
    + split_and!.
      * cbn. destruct (ex_leases l !! s); cbn in E; congruence.
      * intros t _. cbn. apply lookup_delete_eq.
      * apply ex_lease_frame. intros s' Hs'. by rewrite lookup_delete_ne.
    + split; [|apply lsame_refl]. cbn. intros H. by rewrite H in E.
  - intros f now l s o ttl l' r _ _ _ _ [= <- <-]. split; [done|]. cbn. unfold extend_post. case_decide; [|apply lsame_refl].
    split; [by apply ex_leased|]. by destruct l; apply ex_lease_frame.
  - intros f now l s b _ _ [= <-]. unfold ex_expire. apply bool_decide_ext. by rewrite <- not_eq_None_Some.
  - intros f now l i v ttl l' r _ _ _ [= <- <-]. split; [done|]. split; [|split_and!]; cbn; [|done| |done].
    + intros t _. apply bool_decide_eq_true. set_solver.
    + intros i' t _ Hn _. apply bool_decide_ext. set_solver.
  - intros f now l i l' r _ [= <- <-]. by split_and!.
  - intros f now l i _. split_and!; [done..|by left].
  - intros f now l i _ _. split_and!; [done|split_and!; cbn; [done| |done]|left]; cbn.
    + intros i' t _ Hn _. apply bool_decide_ext. set_solver.
    + intros t _. apply bool_decide_eq_false. set_solver.
  - intros f now l n _ [=]. done.
  - intros f now l ms _ [= <-]. split; [apply NoDup_elements|]. intros i. apply elem_of_elements.
  - intros f now l i b _ _ [=]. done.
Qed.
End ExclusiveLeases.

(** Both lease stores keep the contract the claimer relies on: what each
    call promises on success, on refusal and with a lost reply, over any Redis
    that keeps its documented behaviour, and in memory. *)
Theorem lease_store_contract {R : Type} {TO : TimedOps R} {TL : TimedLaws R} (kb : KeyBuilder) :
  no_colon kb ->
  LeaseLaws R (LeaseOps0 := RedisLeases kb) /\ LeaseLaws exclusiveLeaseStore (LeaseOps0 := ExclusiveLeases).
Proof. intros Hkb. split; [by apply RedisLeases_laws|apply ExclusiveLeases_laws]. Qed.

Lemma lease_store_contract_witness :
  LeaseLaws TimedMap (LeaseOps0 := RedisLeases (NewKeyBuilder "")) /\ LeaseLaws exclusiveLeaseStore (LeaseOps0 := ExclusiveLeases).
Proof. apply (lease_store_contract (TL := TimedMap_laws) (NewKeyBuilder "")). reflexivity. Defined.
