(* ===== verification/SupplierClaimer.v ===== *)
(** * The supplier claimer (miner/supplier_claimer.go)

    The claimer shares the suppliers out over the miner instances: it takes
    leases, renews them, hands suppliers over and takes up orphans. Its loops,
    the drains of the suppliers it let go and its peers run at the same time,
    so an operation is a program of atomic actions ([prog] over [act]): a call
    to the lease store, a block under one of the claimer's mutexes, a callback
    of the manager. Every Go method is one program. [exec] is what an action
    does; ClaimerSystem lets the programs of all instances run interleaved.

    Of the manager (miner/supplier_manager.go) the two callbacks, the drain and
    Close are modelled as far as they start and end the consume loops: a
    supplier in [suppliers] has a running loop, one in [stopping] a loop that is
    being torn down. Metrics and logs are not modelled. *)

From stdpp Require Import sorting.
From S2P Require Import Prelude RedisTime KeyBuilder LeaseStore GoFloat.
From Stdlib Require Import Ascii String.

Local Open Scope string_scope.
Local Open Scope Z_scope.

(** ** Data *)

Inductive Trigger :=
| triggerLeaseExpired
| triggerLeaseStolen
| triggerRenewStalled
| triggerRebalanceRelease
| triggerKeyRemoval
| triggerClaimCallbackFailed
| triggerConsumeLoopPanicked.

(** The deadline is 0 until ExtendDrainLease sets it. *)
Record drainLease := { dl_trigger : option Trigger; dl_deadline : Z }.

(** The claimer's maps, and of its manager whether it is closed and the
    suppliers with a consume loop. Instants are of the instance's own clock, in
    nanoseconds. *)
Record SupplierClaimer := {
  claimed : gmap string Z;
  recentlyReleased : gmap string Z;
  draining : gmap string drainLease;
  allSuppliers : list string;
  lastRenewedAt : gmap string Z;
  m_closed : bool;
  suppliers : gset string;
  stopping : gset string
}.

Record SupplierClaimerConfig := {
  cfg_ClaimTTL : Z;
  cfg_RenewRate : Z;
  cfg_InstanceTTL : Z;
  cfg_InstanceHeartbeatRate : Z;
  cfg_RebalanceInterval : Z
}.

Definition second : Z := 10 ^ 9.
Definition ClaimTTL : Z := 90 * second.
Definition RenewRate : Z := 10 * second.
Definition RebalanceInterval : Z := 30 * second.

(** The defaults newSupplierClaimer applies. *)
Definition claimerConfig (cfg : SupplierClaimerConfig) : SupplierClaimerConfig :=
  let pick a b := if a <=? 0 then b else a in
  let ttl := pick (cfg_ClaimTTL cfg) ClaimTTL in
  let rate := pick (cfg_RenewRate cfg) RenewRate in
  {| cfg_ClaimTTL := ttl; cfg_RenewRate := rate;
     cfg_InstanceTTL := pick (cfg_InstanceTTL cfg) ttl;
     cfg_InstanceHeartbeatRate := pick (cfg_InstanceHeartbeatRate cfg) rate;
     cfg_RebalanceInterval := pick (cfg_RebalanceInterval cfg) RebalanceInterval |}.

Definition newSupplierClaimer : SupplierClaimer :=
  {| claimed := ∅; recentlyReleased := ∅; draining := ∅; allSuppliers := []; lastRenewedAt := ∅;
     m_closed := false; suppliers := ∅; stopping := ∅ |}.

(** ** Actions and programs *)

Inductive act : Type -> Type :=
(* the lease store *)
| ASetNX (s : string) : act (result bool IoErr)
| AOwner (s : string) : act (result (option string) IoErr)
| AExpire (s : string) : act (result bool IoErr)
| AReleaseIfOwner (s : string) : act (result bool IoErr)
| AExtendIfOwner (s : string) (budget : Z) : act (result unit IoErr)
| AExists (s : string) : act (result bool IoErr)
| ASetInstance : act (result unit IoErr)
| AAddActive : act (result unit IoErr)
| ARemoveActive (i : string) : act unit
| ADeleteInstance : act unit
| AActiveCount : act (result Z IoErr)
| AActiveMembers : act (result (list string) IoErr)
| AInstanceAlive (i : string) : act (result bool IoErr)
(* blocks under a mutex *)
| AIsDraining (s : string) : act bool
| AMarkDraining (s : string) (trigger : Trigger) : act bool
| AUnmarkDraining (s : string) : act drainLease
| ASetDeadline (s : string) (deadline : Z) : act unit
| AIsClaimed (s : string) : act bool
| AClaim (s : string) (at_ : Z) : act unit
| AClaimIfAbsent (s : string) (at_ : Z) : act bool
| AUnclaim (s : string) : act (option Z)
| AClaimedCount : act Z
| AClaimedEntries : act (list (string * Z))
| ANoteReleased (s : string) (at_ : Z) : act unit
| AInCooldown (s : string) (now : Z) : act bool
| AMarkRenewed (s : string) (now : Z) : act unit
| AForgetRenewed (s : string) : act unit
| AStalledFor (s : string) (now : Z) : act Z
| ASuppliers : act (list string)
| ASetSuppliers (l : list string) : act unit
(* the instance's clock *)
| ANow : act Z
(* the manager *)
| AOnClaim (s : string) : act bool
| AOnRelease (s : string) (trigger : Trigger) : act bool
| ATearDown (s : string) : act unit
| ACloseManager : act bool
| ATearDownAll : act unit
| AWaitDrains : act unit.

Inductive prog (A : Type) : Type :=
| Ret (a : A)
| Do (B : Type) (a : act B) (k : B -> prog A).
Arguments Ret {A} a.
Arguments Do {A B} a k.

Fixpoint pbind {A B} (p : prog A) (f : A -> prog B) : prog B :=
  match p with
  | Ret a => f a
  | Do a k => Do a (fun b => pbind (k b) f)
  end.

Definition call {B} (a : act B) : prog B := Do a Ret.

Declare Scope prog_scope.
Delimit Scope prog_scope with prog.
Notation "x <- e ; k" := (pbind e (fun x => k))
  (at level 100, e at next level, right associativity) : prog_scope.
Notation "e ;; k" := (pbind e (fun _ => k)) (at level 100, right associativity) : prog_scope.
Local Open Scope prog_scope.

(** [for] over a slice. *)
Fixpoint each {A} (f : A -> prog unit) (l : list A) : prog unit :=
  match l with
  | [] => Ret tt
  | x :: l => f x ;; each f l
  end.

(** A loop that counts its successes and breaks at [count]. *)
Fixpoint upTo {A} (f : A -> prog bool) (l : list A) (count n : Z) : prog Z :=
  match l with
  | [] => Ret n
  | x :: l => if count <=? n then Ret n else ok <- f x; upTo f l count (if ok then n + 1 else n)
  end.

(** ** The operations *)

Section Operations.
Variable id : string.
Variable cfg : SupplierClaimerConfig.
(** Whether SetCallbacks was called; the manager always does. *)
Variable callbacks : bool.

Definition FinishRelease (s : string) : prog bool :=
  r <- call (AReleaseIfOwner s);
  call (AUnmarkDraining s) ;;
  Ret (is_ok r).

(** [true] is a nil error. *)
Definition Release (s : string) (trigger : Trigger) : prog bool :=
  marked <- call (AMarkDraining s trigger);
  if negb marked then Ret true else
  claimedAt <- call (AUnclaim s);
  t <- call ANow;
  call (ANoteReleased s t) ;;
  if callbacks then
    ok <- call (AOnRelease s trigger);
    if ok : bool then Ret true else
      (match claimedAt with Some at_ => call (AClaim s at_) | None => Ret tt end) ;;
      call (AUnmarkDraining s) ;;
      Ret false
  else FinishRelease s.

(** The end of TryClaim: the supplier is in the claimed map and is started. *)
Definition startClaimed (s : string) : prog bool :=
  if callbacks then
    ok <- call (AOnClaim s);
    if ok : bool then Ret true else Release s triggerClaimCallbackFailed ;; Ret false
  else Ret true.

Definition TryClaim (s : string) : prog bool :=
  busy <- call (AIsDraining s);
  if busy : bool then Ret false else
  r <- call (ASetNX s);
  match r with
  | Err _ => Ret false
  | Ok true => t <- call ANow; call (AClaim s t) ;; startClaimed s
  | Ok false =>
      o <- call (AOwner s);
      match o with
      | Ok (Some o') =>
          if String.eqb o' id then
            busy <- call (AIsDraining s);
            if busy : bool then Ret false else
            renewed <- call (AExpire s);
            match renewed with
            | Ok true =>
                t <- call ANow;
                running <- call (AClaimIfAbsent s t);
                if running : bool then Ret true else startClaimed s
            | _ => Ret false
            end
          else Ret false
      | _ => Ret false
      end
  end.

Definition ExtendDrainLease (s : string) (budget : Z) : prog bool :=
  t <- call ANow;
  call (ASetDeadline s (t + budget)) ;;
  r <- call (AExtendIfOwner s budget);
  Ret (is_ok r).

Definition releaseLost (s : string) (trigger : Trigger) : prog unit :=
  marked <- call (AMarkDraining s trigger);
  if negb marked then Ret tt else
  call (AUnclaim s) ;;
  call (AForgetRenewed s) ;;
  t <- call ANow;
  call (ANoteReleased s t) ;;
  if callbacks then
    ok <- call (AOnRelease s trigger);
    if ok : bool then Ret tt else call (AUnmarkDraining s) ;; Ret tt
  else call (AUnmarkDraining s) ;; Ret tt.

(** *** Renewal *)

Definition reclaimOrLose (s : string) : prog unit :=
  ok <- TryClaim s;
  if ok : bool then Ret tt else releaseLost s triggerLeaseExpired.

Definition loseIfStalled (s : string) (now : Z) : prog unit :=
  stalled <- call (AStalledFor s now);
  if cfg_ClaimTTL cfg <=? stalled then releaseLost s triggerRenewStalled else Ret tt.

Definition renewClaim (now : Z) (s : string) : prog unit :=
  o <- call (AOwner s);
  match o with
  | Ok None =>
      mine <- call (AIsClaimed s);
      if negb mine then Ret tt else reclaimOrLose s
  | Err _ => loseIfStalled s now
  | Ok (Some o') =>
      if negb (String.eqb o' id) then releaseLost s triggerLeaseStolen else
      mine <- call (AIsClaimed s);
      if negb mine then Ret tt else
      renewed <- call (AExpire s);
      match renewed with
      | Err _ => loseIfStalled s now
      | Ok false =>
          mine <- call (AIsClaimed s);
          if negb mine then Ret tt else reclaimOrLose s
      | Ok true => call (AMarkRenewed s now)
      end
  end.

Definition renewAllClaims : prog unit :=
  entries <- call AClaimedEntries;
  match entries with
  | [] => Ret tt
  | _ => now <- call ANow; each (renewClaim now) entries.*1
  end.

(** *** Rebalancing *)

Definition fairShareOf (total : Z) (active : Z) : Z := Ceil (FDiv (FloatOfInt total) (FloatOfInt active)).

Definition calculateFairShare : prog Z :=
  r <- call AActiveCount;
  let activeMiners := match r with Ok n => if n =? 0 then 1 else n | Err _ => 1 end in
  l <- call ASuppliers;
  Ret (if Z.of_nat (List.length l) =? 0 then 0 else fairShareOf (Z.of_nat (List.length l)) activeMiners).

Definition newer (x y : string * Z) : Prop := y.2 <= x.2.
#[export] Instance newer_dec : RelDecision newer.
Proof. intros x y. unfold newer. apply _. Defined.

Definition releaseExcess (count : Z) : prog Z :=
  entries <- call AClaimedEntries;
  upTo (fun e => Release e.1 triggerRebalanceRelease) (merge_sort newer entries) count 0.

Definition claimOne (s : string) : prog bool :=
  mine <- call (AIsClaimed s);
  if mine : bool then Ret false else
  busy <- call (AIsDraining s);
  if busy : bool then Ret false else TryClaim s.

Definition claimMore (count : Z) : prog unit :=
  l <- call ASuppliers;
  upTo claimOne l count 0 ;; Ret tt.

Definition claimOrphan (s : string) : prog unit :=
  mine <- call (AIsClaimed s);
  if mine : bool then Ret tt else
  busy <- call (AIsDraining s);
  if busy : bool then Ret tt else
  t <- call ANow;
  cooling <- call (AInCooldown s t);
  if cooling : bool then Ret tt else
  r <- call (AExists s);
  match r with
  | Ok false => TryClaim s ;; Ret tt
  | _ => Ret tt
  end.

Definition claimOrphaned : prog unit :=
  l <- call ASuppliers;
  each claimOrphan l.

Definition rebalance : prog unit :=
  fairShare <- calculateFairShare;
  currentCount <- call AClaimedCount;
  released <- (if fairShare <? currentCount then n <- releaseExcess (currentCount - fairShare); Ret (0 <? n)
               else if currentCount <? fairShare then claimMore (fairShare - currentCount) ;; Ret false
               else Ret false);
  if released : bool then Ret tt else claimOrphaned.

(** *** Registration, start and shutdown *)

Definition registerInstance : prog bool :=
  r <- call ASetInstance;
  match r with
  | Err _ => Ret false
  | Ok _ => r <- call AAddActive; Ret (is_ok r)
  end.

Definition unregisterInstance : prog unit := call (ARemoveActive id) ;; call ADeleteInstance.

Definition cleanupStaleInstances : prog unit :=
  r <- call AActiveMembers;
  match r with
  | Err _ => Ret tt
  | Ok instances => each (fun i =>
      alive <- call (AInstanceAlive i);
      match alive with Ok false => call (ARemoveActive i) | _ => Ret tt end) instances
  end.

(** One tick of instanceHeartbeatLoop. *)
Definition heartbeat : prog unit := registerInstance ;; cleanupStaleInstances.

Fixpoint claimUntil (l : list string) (fairShare : Z) : prog unit :=
  match l with
  | [] => Ret tt
  | s :: l =>
      n <- call AClaimedCount;
      if fairShare <=? n then Ret tt else TryClaim s ;; claimUntil l fairShare
  end.

Definition initialClaim : prog unit :=
  l <- call ASuppliers;
  fairShare <- calculateFairShare;
  claimUntil l fairShare.

Definition Start (l : list string) : prog bool :=
  call (ASetSuppliers l) ;;
  ok <- registerInstance;
  if ok : bool then initialClaim ;; Ret true else Ret false.

Definition FinishShutdown : prog unit :=
  entries <- call AClaimedEntries;
  each (fun s => call (AUnclaim s) ;; call (AReleaseIfOwner s) ;; Ret tt) entries.*1 ;;
  unregisterInstance.

Definition UpdateSuppliers (l : list string) : prog unit := call (ASetSuppliers l).

(** *** The manager's side *)

(** reconcile, given what the staking filter returns and the keys the fleet
    still holds. *)
Definition releaseUnconfigured (configured : list string) (hasKey : string -> bool) : prog unit :=
  entries <- call AClaimedEntries;
  each (fun addr =>
    if bool_decide (addr ∈ configured) then Ret tt
    else Release addr (if hasKey addr then triggerRebalanceRelease else triggerKeyRemoval) ;; Ret tt) entries.*1.

Definition reconcile (configured : list string) (hasKey : string -> bool) : prog unit :=
  UpdateSuppliers configured ;; releaseUnconfigured configured hasKey.

Definition drainLeaseBudget (shutdownDrainWindow : Z) : Z := 5 * second + 4 * shutdownDrainWindow + 5 * second + 10 * second.

(** The goroutine onSupplierReleased starts; [stopped] is whether there was a
    supplier to tear down. *)
Definition drain (budget : Z) (s : string) (stopped : bool) : prog unit :=
  ExtendDrainLease s budget ;;
  (if stopped then call (ATearDown s) else Ret tt) ;;
  FinishRelease s ;; Ret tt.

(** Close of the manager; a second one returns at once. *)
Definition CloseManager : prog unit :=
  closed <- call ACloseManager;
  if closed : bool then Ret tt else
  call ATearDownAll ;;
  call AWaitDrains ;;
  FinishShutdown.
End Operations.
