(* ===== verification/ClaimerSystem.v ===== *)
(** * The claimers of a fleet, running together

    [exec] is what one action of a claimer program does to its instance and to
    the lease store. A system is a set of instances over one store; each runs
    the operations of its claimer and the drains of the suppliers it let go,
    one action at a time in any order, with any store call losing its reply,
    time passing and instances dying. [term_end] records, per supplier, until
    when the lease an instance last got is its own; it is read by the theorems
    only. *)

From stdpp Require Import sorting.
From S2P Require Import Prelude RedisTime KeyBuilder LeaseStore GoFloat SupplierClaimer.
From Stdlib Require Import Ascii String.

Local Open Scope string_scope.
Local Open Scope Z_scope.

#[export] Instance name_ok_dec s : Decision (name_ok s).
Proof. unfold name_ok, no_colon. apply _. Defined.

Definition permuted {A} `{EqDecision A} (order : list A -> list A) (l : list A) : list A :=
  if decide (order l ≡ₚ l) then order l else l.

(** What the surroundings decide for one action: the fault of a store call, the
    instance's clock, whether a supplier could be started, the order a Go map
    is walked in. *)
Record Choice := {
  c_fault : Fault;
  c_clock : Z;
  c_started : bool;
  c_order : list (string * Z) -> list (string * Z)
}.

(** ** Field updates *)

Definition set_claimed (m : gmap string Z) (n : SupplierClaimer) : SupplierClaimer :=
  {| claimed := m; recentlyReleased := recentlyReleased n; draining := draining n; allSuppliers := allSuppliers n;
     lastRenewedAt := lastRenewedAt n; m_closed := m_closed n; suppliers := suppliers n; stopping := stopping n |}.
Definition set_recentlyReleased (m : gmap string Z) (n : SupplierClaimer) : SupplierClaimer :=
  {| claimed := claimed n; recentlyReleased := m; draining := draining n; allSuppliers := allSuppliers n;
     lastRenewedAt := lastRenewedAt n; m_closed := m_closed n; suppliers := suppliers n; stopping := stopping n |}.
Definition set_draining (m : gmap string drainLease) (n : SupplierClaimer) : SupplierClaimer :=
  {| claimed := claimed n; recentlyReleased := recentlyReleased n; draining := m; allSuppliers := allSuppliers n;
     lastRenewedAt := lastRenewedAt n; m_closed := m_closed n; suppliers := suppliers n; stopping := stopping n |}.
Definition set_allSuppliers (l : list string) (n : SupplierClaimer) : SupplierClaimer :=
  {| claimed := claimed n; recentlyReleased := recentlyReleased n; draining := draining n; allSuppliers := l;
     lastRenewedAt := lastRenewedAt n; m_closed := m_closed n; suppliers := suppliers n; stopping := stopping n |}.
Definition set_lastRenewedAt (m : gmap string Z) (n : SupplierClaimer) : SupplierClaimer :=
  {| claimed := claimed n; recentlyReleased := recentlyReleased n; draining := draining n; allSuppliers := allSuppliers n;
     lastRenewedAt := m; m_closed := m_closed n; suppliers := suppliers n; stopping := stopping n |}.
Definition set_manager (cl : bool) (run stop : gset string) (n : SupplierClaimer) : SupplierClaimer :=
  {| claimed := claimed n; recentlyReleased := recentlyReleased n; draining := draining n; allSuppliers := allSuppliers n;
     lastRenewedAt := lastRenewedAt n; m_closed := cl; suppliers := run; stopping := stop |}.

Section Exec.
Context {L : Type} `{LO : !LeaseOps L}.
Variable cfg : SupplierClaimerConfig.
Variable budget : Z.

Definition noLease : drainLease := {| dl_trigger := None; dl_deadline := 0 |}.

(** *** The blocks under a mutex *)

Definition markDraining (s : string) (trigger : Trigger) (n : SupplierClaimer) : SupplierClaimer * bool :=
  match draining n !! s with
  | Some _ => (n, false)
  | None => (set_draining (<[s := {| dl_trigger := Some trigger; dl_deadline := 0 |}]> (draining n)) n, true)
  end.

Definition unmarkDraining (s : string) (n : SupplierClaimer) : SupplierClaimer * drainLease :=
  (set_draining (delete s (draining n)) n, default noLease (draining n !! s)).

Definition isDraining (s : string) (n : SupplierClaimer) : bool := bool_decide (is_Some (draining n !! s)).

Definition setDeadline (s : string) (deadline : Z) (n : SupplierClaimer) : SupplierClaimer :=
  match draining n !! s with
  | Some lease => set_draining (<[s := {| dl_trigger := dl_trigger lease; dl_deadline := deadline |}]> (draining n)) n
  | None => n
  end.

Definition IsClaimed (s : string) (n : SupplierClaimer) : bool := bool_decide (is_Some (claimed n !! s)).

Definition claimIfAbsent (s : string) (at_ : Z) (n : SupplierClaimer) : SupplierClaimer * bool :=
  match claimed n !! s with
  | Some _ => (n, true)
  | None => (set_claimed (<[s := at_]> (claimed n)) n, false)
  end.

Definition recentlyReleasedCooldown : Z := 2 * cfg_RebalanceInterval cfg.

Definition inRecentReleaseCooldown (s : string) (now : Z) (n : SupplierClaimer) : SupplierClaimer * bool :=
  match recentlyReleased n !! s with
  | None => (n, false)
  | Some releasedAt =>
      if recentlyReleasedCooldown <=? now - releasedAt
      then (set_recentlyReleased (delete s (recentlyReleased n)) n, false)
      else (n, true)
  end.

Definition renewStalledFor (s : string) (now : Z) (n : SupplierClaimer) : SupplierClaimer * Z :=
  match lastRenewedAt n !! s with
  | None => (set_lastRenewedAt (<[s := now]> (lastRenewedAt n)) n, 0)
  | Some last => (n, now - last)
  end.

Definition claimedEntries (c : Choice) (n : SupplierClaimer) : list (string * Z) :=
  permuted (c_order c) (map_to_list (claimed n)).

(** *** The manager's callbacks *)

(** onSupplierClaimed: [c_started] is whether addSupplierWithHandoff managed. *)
Definition onSupplierClaimed (c : Choice) (s : string) (n : SupplierClaimer) : SupplierClaimer * bool :=
  if m_closed n then (n, false)
  else if bool_decide (s ∈ suppliers n) then (n, true)
  else if c_started c then (set_manager (m_closed n) ({[s]} ∪ suppliers n) (stopping n) n, true)
  else (n, false).

(** onSupplierReleased: stopSupplier, and the drain it starts. *)
Definition onSupplierReleased (s : string) (n : SupplierClaimer) : SupplierClaimer * option (string * prog unit) * bool :=
  if m_closed n then (n, None, false)
  else
    let stopped := bool_decide (s ∈ suppliers n) in
    (set_manager (m_closed n) (suppliers n ∖ {[s]}) (if stopped then {[s]} ∪ stopping n else stopping n) n,
     Some (s, drain budget s stopped), true).

(** [None] is an action that waits; [idle] is whether no drain is left. *)
Definition exec {B} (a : act B) (id : string) (c : Choice) (now : Z) (idle : bool) (n : SupplierClaimer) (l : L) :
    option (SupplierClaimer * L * option (string * prog unit) * B) :=
  let f := c_fault c in
  match a in act B return option (SupplierClaimer * L * option (string * prog unit) * B) with
  | ASetNX s => let '(l', r) := setNX f now l s id (cfg_ClaimTTL cfg) in Some (n, l', None, r)
  | AOwner s => Some (n, l, None, owner f now l s)
  | AExpire s => let '(l', r) := expire f now l s (cfg_ClaimTTL cfg) in Some (n, l', None, r)
  | AReleaseIfOwner s => let '(l', r) := releaseIfOwner f now l s id in Some (n, l', None, r)
  | AExtendIfOwner s d => let '(l', r) := extendIfOwner f now l s id d in Some (n, l', None, r)
  | AExists s => Some (n, l, None, exists_ f now l s)
  | ASetInstance => let '(l', r) := setInstance f now l id (format_int (c_clock c)) (cfg_InstanceTTL cfg) in Some (n, l', None, r)
  | AAddActive => let '(l', r) := addActive f now l id in Some (n, l', None, r)
  | ARemoveActive i => Some (n, removeActive f now l i, None, tt)
  | ADeleteInstance => Some (n, deleteInstance f now l id, None, tt)
  | AActiveCount => Some (n, l, None, activeCount f now l)
  | AActiveMembers => Some (n, l, None, activeMembers f now l)
  | AInstanceAlive i => Some (n, l, None, instanceAlive f now l i)
  | AIsDraining s => Some (n, l, None, isDraining s n)
  | AMarkDraining s trigger => let '(n', b) := markDraining s trigger n in Some (n', l, None, b)
  | AUnmarkDraining s => let '(n', d) := unmarkDraining s n in Some (n', l, None, d)
  | ASetDeadline s d => Some (setDeadline s d n, l, None, tt)
  | AIsClaimed s => Some (n, l, None, IsClaimed s n)
  | AClaim s t => Some (set_claimed (<[s := t]> (claimed n)) n, l, None, tt)
  | AClaimIfAbsent s t => let '(n', b) := claimIfAbsent s t n in Some (n', l, None, b)
  | AUnclaim s => Some (set_claimed (delete s (claimed n)) n, l, None, claimed n !! s)
  | AClaimedCount => Some (n, l, None, Z.of_nat (size (claimed n)))
  | AClaimedEntries => Some (n, l, None, claimedEntries c n)
  | ANoteReleased s t => Some (set_recentlyReleased (<[s := t]> (recentlyReleased n)) n, l, None, tt)
  | AInCooldown s t => let '(n', b) := inRecentReleaseCooldown s t n in Some (n', l, None, b)
  | AMarkRenewed s t => Some (set_lastRenewedAt (<[s := t]> (lastRenewedAt n)) n, l, None, tt)
  | AForgetRenewed s => Some (set_lastRenewedAt (delete s (lastRenewedAt n)) n, l, None, tt)
  | AStalledFor s t => let '(n', d) := renewStalledFor s t n in Some (n', l, None, d)
  | ASuppliers => Some (n, l, None, allSuppliers n)
  | ASetSuppliers ss => Some (set_allSuppliers ss n, l, None, tt)
  | ANow => Some (n, l, None, c_clock c)
  | AOnClaim s => let '(n', b) := onSupplierClaimed c s n in Some (n', l, None, b)
  | AOnRelease s _ => let '(n', d, b) := onSupplierReleased s n in Some (n', l, d, b)
  | ATearDown s => Some (set_manager (m_closed n) (suppliers n) (stopping n ∖ {[s]}) n, l, None, tt)
  | ACloseManager => Some (set_manager true (suppliers n) (stopping n) n, l, None, m_closed n)
  | ATearDownAll => Some (set_manager (m_closed n) ∅ (stopping n) n, l, None, tt)
  | AWaitDrains => if idle then Some (n, l, None, tt) else None
  end.

(** *** What an instance knows of its leases *)

Definition term : Z := lease_term (cfg_ClaimTTL cfg).
Definition drain_term : Z := Z.min term (lease_term budget).

(** A lease got or extended runs for its term; one read as held is held now;
    an extension for a drain may shorten it, and may have run although its
    reply was lost; a lease given up is no longer known. *)
Definition note_terms {B} (a : act B) (id : string) (now : Z) (l : L) : B -> gmap string Z -> gmap string Z :=
  match a in act B return B -> gmap string Z -> gmap string Z with
  | ASetNX s => fun r u => match r with Ok true => <[s := now + term]> u | _ => u end
  | AOwner s => fun r u =>
      match r with
      | Ok (Some o) => if String.eqb o id then <[s := Z.max now (default now (u !! s))]> u else u
      | _ => u
      end
  | AExpire s => fun r u =>
      match r with
      | Ok true => if decide (lease_at l s now = Some id) then <[s := now + term]> u else u
      | _ => u
      end
  | AExtendIfOwner s _ => fun r u =>
      match r with
      | Ok _ => if decide (lease_at l s now = Some id) then <[s := now + drain_term]> u else u
      | Err _ => match u !! s with Some e => <[s := Z.min e (now + drain_term)]> u | None => u end
      end
  | AReleaseIfOwner s => fun _ u => delete s u
  | _ => fun _ u => u
  end.

(** ** The system *)

Record Inst := {
  node : SupplierClaimer;
  ops : list (prog unit);
  drains : list (string * prog unit);
  term_end : gmap string Z
}.

Record Sys := { sys_now : Z; sys_store : L; sys_insts : gmap string Inst }.

Inductive op :=
| OpStart (l : list string)
| OpHeartbeat
| OpRenew
| OpRebalance
| OpRelease (s : string) (trigger : Trigger)
| OpReconcile (configured : list string) (hasKey : string -> bool)
| OpClose.

Definition op_names (o : op) : list string :=
  match o with
  | OpStart l => l
  | OpRelease s _ => [s]
  | OpReconcile l _ => l
  | _ => []
  end.

Definition op_prog (id : string) (o : op) : prog unit :=
  match o with
  | OpStart l => pbind (Start id true l) (fun _ => Ret tt)
  | OpHeartbeat => heartbeat
  | OpRenew => renewAllClaims id cfg true
  | OpRebalance => rebalance id true
  | OpRelease s trigger => pbind (Release true s trigger) (fun _ => Ret tt)
  | OpReconcile l hasKey => reconcile true l hasKey
  | OpClose => CloseManager id
  end.

Inductive event :=
| Time (d : Z)
| Boot (id : string)
| Begin (id : string) (o : op)
| Run (id : string) (i : nat) (c : Choice)
| RunDrain (id : string) (i : nat) (c : Choice)
| Die (id : string).

(** One action of a program; a program that is at its end goes away. *)
Definition run_one (id : string) (c : Choice) (now : Z) (idle : bool) (p : prog unit) (N : Inst) (l : L) :
    option (SupplierClaimer * L * option (string * prog unit) * gmap string Z * list (prog unit)) :=
  match p with
  | Ret _ => Some (node N, l, None, term_end N, [])
  | Do a k =>
      match exec a id c now idle (node N) l with
      | None => None
      | Some (n', l', d, b) => Some (n', l', d, note_terms a id now l b (term_end N), [k b])
      end
  end.

(** [width] is how many operations of one instance may be under way at once. *)
Definition sys_step (width : nat) (y : Sys) (ev : event) : Sys :=
  let put id N l := {| sys_now := sys_now y; sys_store := l; sys_insts := <[id := N]> (sys_insts y) |} in
  match ev with
  | Time d => {| sys_now := sys_now y + Z.max 0 d; sys_store := sys_store y; sys_insts := sys_insts y |}
  | Boot id =>
      if bool_decide (name_ok id) && bool_decide (sys_insts y !! id = None)
      then put id {| node := newSupplierClaimer; ops := []; drains := []; term_end := ∅ |} (sys_store y) else y
  | Begin id o =>
      match sys_insts y !! id with
      | Some N =>
          if (List.length (ops N) <? width)%nat && bool_decide (Forall name_ok (op_names o))
          then put id {| node := node N; ops := ops N ++ [op_prog id o]; drains := drains N; term_end := term_end N |} (sys_store y)
          else y
      | None => y
      end
  | Run id i c =>
      match sys_insts y !! id with
      | Some N =>
          match ops N !! i with
          | Some p =>
              match run_one id c (sys_now y) (match drains N with [] => true | _ => false end) p N (sys_store y) with
              | Some (n', l', d, u, rest) =>
                  put id {| node := n'; ops := take i (ops N) ++ rest ++ drop (S i) (ops N);
                            drains := drains N ++ option_list d; term_end := u |} l'
              | None => y
              end
          | None => y
          end
      | None => y
      end
  | RunDrain id i c =>
      match sys_insts y !! id with
      | Some N =>
          match drains N !! i with
          | Some (s, p) =>
              match run_one id c (sys_now y) false p N (sys_store y) with
              | Some (n', l', d, u, rest) =>
                  put id {| node := n'; ops := ops N;
                            drains := take i (drains N) ++ map (pair s) rest ++ drop (S i) (drains N) ++ option_list d; term_end := u |} l'
              | None => y
              end
          | None => y
          end
      | None => y
      end
  | Die id => {| sys_now := sys_now y; sys_store := sys_store y; sys_insts := delete id (sys_insts y) |}
  end.

Definition sys_run (width : nat) (y : Sys) (evs : list event) : Sys := foldl (sys_step width) y evs.

(** The instance has a consume loop of the supplier, running or being torn
    down. *)
Definition writes (y : Sys) (id s : string) : Prop :=
  exists N, sys_insts y !! id = Some N /\ (s ∈ suppliers (node N) \/ s ∈ stopping (node N)).

(** Until when the lease the instance last got is its own. *)
Definition own_until (y : Sys) (id s : string) (e : Z) : Prop :=
  exists N, sys_insts y !! id = Some N /\ term_end N !! s = Some e.
End Exec.
