(* ===== verification/ClaimerLeases.v ===== *)
(** * What the claimers do to each other's leases

    The store half of the claimer's safety: [store_step] says what one action of
    one instance does to the leases of all of them. A lease that runs is not
    taken, shortened or deleted by another instance's call, and what an instance
    notes as the end of its own lease ([note_terms]) is no later than the truth,
    replies lost or not. *)

From stdpp Require Import sorting.
From S2P Require Import Prelude RedisTime KeyBuilder LeaseStore GoFloat SupplierClaimer ClaimerSystem.
From Stdlib Require Import Ascii String.

Local Open Scope string_scope.
Local Open Scope Z_scope.

Section Leases.
Context {L : Type} `{LL : LeaseLaws L}.
Variable cfg : SupplierClaimerConfig.
Variable budget : Z.
Hypothesis ttl_ok : 10 ^ 9 <= cfg_ClaimTTL cfg.
Hypothesis instance_ttl_ok : 10 ^ 9 <= cfg_InstanceTTL cfg.
Hypothesis budget_ok : 10 ^ 9 <= budget.

(** ** The leases *)

Definition owns (now : Z) (l : L) (id s : string) (e : Z) : Prop :=
  forall t, now <= t < e -> lease_at l s t = Some id.

Definition lease_same (now : Z) (l l' : L) : Prop :=
  forall s t, name_ok s -> now <= t -> lease_at l' s t = lease_at l s t.

Definition others_same (now : Z) (s0 : string) (l l' : L) : Prop :=
  forall s t, name_ok s -> s <> s0 -> now <= t -> lease_at l' s t = lease_at l s t.

(** How a call of [id] about [s0] can change the leases. *)
Inductive lchange (now : Z) (id s0 : string) (l l' : L) : Prop :=
| ch_same : lease_same now l l' -> lchange now id s0 l l'
| ch_free : lease_at l s0 now = None -> others_same now s0 l l' -> lchange now id s0 l l'
| ch_longer o : lease_at l s0 now = Some o -> leased now (term cfg) s0 o l' -> others_same now s0 l l' -> lchange now id s0 l l'
| ch_own : lease_at l s0 now = Some id -> others_same now s0 l l' -> lchange now id s0 l l'.

Lemma lframe_others now s0 ins a l l' : lframe now [s0] ins a l l' -> others_same now s0 l l'.
Proof. intros (H & _ & _) s t Hs Hne Ht. apply H; [done| |done]. set_solver. Qed.

Lemma lframe_same now ins a l l' : lframe now [] ins a l l' -> lease_same now l l'.
Proof. intros (H & _ & _) s t Hs Ht. apply H; [done| |done]. set_solver. Qed.

Lemma owns_now now l id s e : owns now l id s e -> now < e -> lease_at l s now = Some id.
Proof. intros H ?. apply H. lia. Qed.

(** A lease that runs is not touched by another instance's call. *)
Lemma change_others now id s0 l l' id' s e :
  lchange now id s0 l l' -> id' <> id -> name_ok s -> e <= now + term cfg ->
  owns now l id' s e -> owns now l' id' s e.
Proof.
  intros Hc Hne Hs He Ho t Ht. pose proof (owns_now _ _ _ _ _ Ho ltac:(lia)) as Hnow.
  destruct Hc as [H|Hn H|o Hl [Hlease _] H|Hown H]; [rewrite H by (done || lia); by apply Ho|..];
    (destruct (decide (s = s0)) as [->|]; [|rewrite H by (done || lia); by apply Ho]); simplify_eq.
  apply Hlease. lia.
Qed.

(** Nor by the instance's own call, unless the call is about its own lease. *)
Lemma change_self now id s0 l l' s e :
  lchange now id s0 l l' -> name_ok s -> e <= now + term cfg -> (lease_at l s0 now <> Some id \/ s <> s0) ->
  owns now l id s e -> owns now l' id s e.
Proof.
  intros Hc Hs He Hor Ho t Ht. pose proof (owns_now _ _ _ _ _ Ho ltac:(lia)) as Hnow.
  destruct Hc as [H|Hn H|o Hl [Hlease _] H|Hown H]; [rewrite H by (done || lia); by apply Ho|..];
    (destruct (decide (s = s0)) as [->|]; [|rewrite H by (done || lia); by apply Ho]); simplify_eq; naive_solver.
Qed.

(** The supplier an action is about, and what its call needs. *)
Definition act_ok {B} (a : act B) : Prop :=
  match a with
  | ASetNX s | AOwner s | AExpire s | AReleaseIfOwner s | AExists s => name_ok s
  | AExtendIfOwner s d => name_ok s /\ d = budget
  | _ => True
  end.

Lemma term_pos : 0 < term cfg.
Proof. by apply lease_term_pos. Qed.

Lemma drain_term_le : 0 < drain_term cfg budget <= term cfg.
Proof. unfold drain_term. pose proof term_pos. pose proof (lease_term_pos budget budget_ok). lia. Qed.

Lemma setNX_change f now l s id l' r :
  lease_wf now l -> name_ok s -> name_ok id -> setNX f now l s id (cfg_ClaimTTL cfg) = (l', r) ->
  lease_wf now l' /\ (forall idx, lchange now idx s l l') /\
  (r = Ok true -> lease_at l s now = None /\ leased now (term cfg) s id l').
Proof.
  intros Hw Hs Hid E. apply law_setNX in E as [Hw' Hc]; [|done..]. split; [done|].
  assert (forall idx b, setNX_post now (lease_term (cfg_ClaimTTL cfg)) s id l l' b -> lchange now idx s l l') as Hp.
  { intros idx [] (H1 & H2); [apply ch_free|apply ch_same]; [done|destruct H2; by eapply lframe_others|by eapply lframe_same]. }
  destruct r as [b|e]; cbn in Hc.
  - split; [intros; by eapply Hp|]. intros [= ->]. destruct Hc as (? & ? & ?). done.
  - split; [|done]. intros idx. destruct Hc as [Hc|[b Hc]]; [apply ch_same; by eapply lframe_same|by eapply Hp].
Qed.

Lemma expire_change f now l s l' r :
  lease_wf now l -> name_ok s -> expire f now l s (cfg_ClaimTTL cfg) = (l', r) ->
  lease_wf now l' /\ (forall idx, lchange now idx s l l') /\
  (r = Ok true -> exists o, lease_at l s now = Some o /\ leased now (term cfg) s o l').
Proof.
  intros Hw Hs E. apply law_expire in E as [Hw' Hc]; [|done..]. split; [done|].
  assert (forall idx b, expire_post now (lease_term (cfg_ClaimTTL cfg)) s l l' b -> lchange now idx s l l') as Hp.
  { unfold expire_post. intros idx b H. destruct (lease_at l s now) as [o|] eqn:Eo; destruct_and?.
    - eapply ch_longer; [done..|by eapply lframe_others].
    - apply ch_same. by eapply lframe_same. }
  destruct r as [b|e]; cbn in Hc.
  - split; [intros; by eapply Hp|]. intros [= ->]. unfold expire_post in Hc.
    destruct (lease_at l s now) as [o|]; destruct_and?; [|done]. by exists o.
  - split; [|done]. intros idx. destruct Hc as [Hc|[b Hc]]; [apply ch_same; by eapply lframe_same|by eapply Hp].
Qed.

Lemma release_change f now l s id l' r :
  lease_wf now l -> name_ok s -> name_ok id -> releaseIfOwner f now l s id = (l', r) ->
  lease_wf now l' /\ lchange now id s l l'.
Proof.
  intros Hw Hs Hid E. apply law_releaseIfOwner in E as [Hw' Hc]; [|done..]. split; [done|].
  assert (forall b, release_post now s id l l' b -> lchange now id s l l') as Hp.
  { intros [] (H1 & H2); [apply ch_own|apply ch_same]; [done|destruct H2; by eapply lframe_others|by eapply lframe_same]. }
  destruct r as [b|e]; cbn in Hc; [by eapply Hp|].
  destruct Hc as [Hc|[b Hc]]; [apply ch_same; by eapply lframe_same|by eapply Hp].
Qed.

Lemma extend_change f now l s id l' r :
  lease_wf now l -> name_ok s -> name_ok id -> extendIfOwner f now l s id budget = (l', r) ->
  lease_wf now l' /\ lchange now id s l l' /\
  (lease_at l s now = Some id -> is_ok r = false -> lease_same now l l' \/ leased now (lease_term budget) s id l') /\
  (lease_at l s now = Some id -> is_ok r = true -> leased now (lease_term budget) s id l').
Proof.
  intros Hw Hs Hid E. apply law_extendIfOwner in E as [Hw' Hc]; [|done..]. split; [done|].
  assert (forall b, extend_post now (lease_term budget) s id l l' b ->
    lchange now id s l l' /\ (lease_at l s now = Some id -> leased now (lease_term budget) s id l')) as Hp.
  { unfold extend_post. intros b H. case_decide; destruct_and?.
    - split; [|done]. apply ch_own; [done|by eapply lframe_others].
    - split; [apply ch_same; by eapply lframe_same|done]. }
  destruct r as [b|e]; cbn in Hc.
  - destruct (Hp _ Hc). split_and!; [done|by intros _ [=]|]. intros. auto.
  - destruct Hc as [Hc|[b Hc]]; [|destruct (Hp _ Hc)].
    + split_and!; [apply ch_same; by eapply lframe_same| |by intros _ [=]]. intros _ _. left. by eapply lframe_same.
    + split_and!; [done| |by intros _ [=]]. intros. right. auto.
Qed.

Definition terms_ok (now : Z) (l : L) (id : string) (u : gmap string Z) : Prop :=
  forall s e, u !! s = Some e -> name_ok s /\ e <= now + term cfg /\ owns now l id s e.

Lemma lease_same_change now id s l l' : lease_same now l l' -> lchange now id s l l'.
Proof. apply ch_same. Qed.

Lemma terms_same now l l' id u : lease_same now l l' -> terms_ok now l id u -> terms_ok now l' id u.
Proof.
  intros Hs Hu s e He. destruct (Hu s e He) as (? & ? & Ho). split_and!; [done..|].
  intros t Ht. rewrite Hs by (done || lia). by apply Ho.
Qed.

(** A call that would be as harmless from another instance. *)
Lemma terms_any now id s0 l l' u : (forall idx, lchange now idx s0 l l') -> terms_ok now l id u -> terms_ok now l' id u.
Proof.
  intros Hc Hu s e He. destruct (Hu s e He) as (? & ? & Ho). split_and!; [done..|].
  eapply (change_others _ (id +:+ "x")); eauto. intros E. apply (f_equal String.length) in E.
  rewrite str_length_app in E. simpl in E. lia.
Qed.

Lemma terms_change now id s0 l l' u :
  lchange now id s0 l l' -> lease_at l s0 now <> Some id -> terms_ok now l id u -> terms_ok now l' id u.
Proof.
  intros Hc Hn Hu s e He. destruct (Hu s e He) as (? & ? & Ho). split_and!; [done..|]. eapply change_self; eauto.
Qed.

(** One entry of the terms is set to a term the lease surely has. *)
Lemma terms_insert now id s0 l l' u e0 :
  lchange now id s0 l l' -> name_ok s0 -> e0 <= now + term cfg -> owns now l' id s0 e0 ->
  terms_ok now l id u -> terms_ok now l' id (<[s0 := e0]> u).
Proof.
  intros Hc Hs0 He0 Ho0 Hu s e [[<- <-]|[Hne He]]%lookup_insert_Some; [done|].
  destruct (Hu s e He) as (? & ? & Ho). split_and!; [done..|]. eapply change_self; eauto.
Qed.

Lemma terms_delete now id s0 l l' u :
  lchange now id s0 l l' -> terms_ok now l id u -> terms_ok now l' id (delete s0 u).
Proof.
  intros Hc Hu s e [Hne He]%lookup_delete_Some.
  destruct (Hu s e He) as (? & ? & Ho). split_and!; [done..|]. eapply change_self; eauto.
Qed.

Lemma leased_owns now d e s o (l' : L) : leased now d s o l' -> e <= now + d -> owns now l' o s e.
Proof. intros [H _] He t Ht. apply H. lia. Qed.

Definition others_keep (now : Z) (id : string) (l l' : L) : Prop :=
  forall id' s e, id' <> id -> name_ok s -> e <= now + term cfg -> owns now l id' s e -> owns now l' id' s e.

Lemma change_keeps now id s0 l l' : lchange now id s0 l l' -> others_keep now id l l'.
Proof. intros Hc id' s e. by apply change_others with (s0 := s0). Qed.

Lemma extend_terms f now l s id l' r u :
  lease_wf now l -> name_ok s -> name_ok id -> terms_ok now l id u -> extendIfOwner f now l s id budget = (l', r) ->
  terms_ok now l' id (note_terms cfg budget (AExtendIfOwner s budget) id now l r u).
Proof.
  intros Hw Hs Hid Hu E. destruct (extend_change _ _ _ _ _ _ _ Hw Hs Hid E) as (_ & Hc & Herr & Hok).
  pose proof drain_term_le as Hd. cbn. destruct r as [[]|err].
  - case_decide as Ho; [|by eapply terms_change].
    eapply terms_insert; [done|done|lia| |done]. eapply leased_owns; [by apply Hok|]. unfold drain_term. lia.
  - destruct (u !! s) as [e|] eqn:Eu.
    + destruct (Hu _ _ Eu) as (_ & Hle & Howns). destruct (decide (lease_at l s now = Some id)) as [Ho|Ho].
      * eapply terms_insert; [done|done|lia| |done]. destruct (Herr Ho eq_refl) as [Hsame|Hl].
        -- intros t Ht. rewrite Hsame by (done || lia). apply Howns. lia.
        -- eapply leased_owns; [done|]. unfold drain_term. lia.
      * eapply terms_insert; [done|done|lia| |done]. intros t Ht. exfalso. apply Ho. apply Howns. lia.
    + destruct (decide (lease_at l s now = Some id)) as [Ho|Ho]; [|by eapply terms_change].
      rewrite <- (delete_id u s Eu). by eapply terms_delete.
Qed.

Lemma owner_terms now l id s f u :
  lease_wf now l -> name_ok s -> terms_ok now l id u ->
  terms_ok now l id (note_terms cfg budget (AOwner s) id now l (owner f now l s) u).
Proof.
  intros Hw Hs Hu. cbn. pose proof term_pos.
  destruct (owner f now l s) as [[o|]|] eqn:E; [|done..]. apply law_owner in E; [|done..].
  destruct (String.eqb_spec o id) as [->|]; [|done].
  eapply terms_insert; [by apply ch_same; intros ??|done| | |done].
  - destruct (u !! s) as [e|] eqn:Eu; cbn; [|lia]. destruct (Hu _ _ Eu) as (_ & ? & _). lia.
  - destruct (u !! s) as [e|] eqn:Eu; cbn; intros t Ht; [|lia]. destruct (Hu _ _ Eu) as (_ & _ & Ho). apply Ho. lia.
Qed.

(** What an action of [id] does to the leases. *)
Lemma store_step {B} (a : act B) id c now idle n (l : L) n' l' d b u :
  lease_wf now l -> name_ok id -> act_ok a -> terms_ok now l id u -> exec cfg budget a id c now idle n l = Some (n', l', d, b) ->
  lease_wf now l' /\ others_keep now id l l' /\ terms_ok now l' id (note_terms cfg budget a id now l b u).
Proof.
  intros Hw Hid Ha Hu E. pose proof term_pos.
  assert (l' = l -> note_terms cfg budget a id now l b u = u ->
    lease_wf now l' /\ others_keep now id l l' /\ terms_ok now l' id (note_terms cfg budget a id now l b u)) as Hpure.
  { intros -> ->. split_and!; [done|by intros ???|done]. }
  assert (lease_wf now l' -> lease_same now l l' -> note_terms cfg budget a id now l b u = u ->
    lease_wf now l' /\ others_keep now id l l' /\ terms_ok now l' id (note_terms cfg budget a id now l b u)) as Hsame.
  { intros Hw' Hs ->. split_and!; [done|by apply (change_keeps now id id), ch_same|by eapply terms_same]. }
  destruct a; cbn [exec act_ok] in *;
    try (by apply Hpure; [repeat case_match; simplify_eq|]).
  - destruct (setNX _ _ _ _ _ _) as [l1 r] eqn:E1. simplify_eq. destruct (setNX_change _ _ _ _ _ _ _ Hw Ha Hid E1) as (? & Hc & Hok).
    split_and!; [done|by eapply change_keeps|]. cbn. destruct b as [[]|err]; [|by eapply terms_any..].
    destruct (Hok eq_refl) as [Hn Hl]. eapply terms_insert; [done|done|lia| |done]. eapply leased_owns; [done|lia].
  - simplify_eq. split_and!; [done|by intros ???|by apply owner_terms].
  - destruct (expire _ _ _ _ _) as [l1 r] eqn:E1. simplify_eq. destruct (expire_change _ _ _ _ _ _ Hw Ha E1) as (? & Hc & Hok).
    split_and!; [done|by eapply change_keeps|]. cbn. destruct b as [[]|err]; [|by eapply terms_any..].
    destruct (Hok eq_refl) as (o & Ho & Hl). case_decide; [|by eapply terms_any]. simplify_eq.
    eapply terms_insert; [done|done|lia| |done]. eapply leased_owns; [done|lia].
  - destruct (releaseIfOwner _ _ _ _ _) as [l1 r] eqn:E1. simplify_eq. destruct (release_change _ _ _ _ _ _ _ Hw Ha Hid E1) as (? & Hc).
    split_and!; [done|by eapply change_keeps|by eapply terms_delete].
  - destruct Ha as [Hs ->]. destruct (extendIfOwner _ _ _ _ _ _) as [l1 r] eqn:E1. simplify_eq.
    destruct (extend_change _ _ _ _ _ _ _ Hw Hs Hid E1) as (? & Hc & _).
    split_and!; [done|by eapply change_keeps|by eapply extend_terms].
  - destruct (setInstance _ _ _ _ _ _) as [l1 r] eqn:E1. simplify_eq. apply law_setInstance in E1 as [Hw' Hc]; [|done..].
    apply Hsame; [done| |done]. destruct b; cbn in Hc; [|destruct Hc as [Hc|[? Hc]]]; try (eapply lframe_same; apply Hc).
  - destruct (addActive _ _ _ _) as [l1 r] eqn:E1. simplify_eq. apply law_addActive in E1 as [Hw' Hc]; [|done..].
    apply Hsame; [done| |done]. destruct b; cbn in Hc; [|destruct Hc as [Hc|[? Hc]]]; try (eapply lframe_same; apply Hc).
  - simplify_eq. destruct (law_removeActive (c_fault c) now l i Hw) as (? & ? & _). apply Hsame; [done| |done]. by eapply lframe_same.
  - simplify_eq. destruct (law_deleteInstance (c_fault c) now l id Hw Hid) as (? & ? & _). apply Hsame; [done| |done]. by eapply lframe_same.
Qed.
End Leases.
