(* ===== verification/ClaimerControl.v ===== *)
(** * What a claimer program may do when

    The control half of the claimer's safety: a weakest precondition over
    claimer programs. An operation keeps track of the supplier it marked
    draining and has not handed to a drain ([mid]), of the suppliers it has seen
    not draining ([clr]), of those whose lease it confirmed since ([conf]) and
    of how far a shutdown is ([stage]); a drain of how far its teardown is. The
    operations and the drains of SupplierClaimer satisfy it. *)

From stdpp Require Import sorting.
From S2P Require Import Prelude RedisTime KeyBuilder LeaseStore GoFloat SupplierClaimer ClaimerSystem.
From Stdlib Require Import Ascii String.

Local Open Scope string_scope.
Local Open Scope Z_scope.

Record ost := { mid : option string; clr : gset string; conf : gset string; stage : nat }.

Definition add_clr (s : string) (st : ost) : ost := {| mid := mid st; clr := {[s]} ∪ clr st; conf := conf st; stage := stage st |}.
Definition add_conf (s : string) (st : ost) : ost := {| mid := mid st; clr := clr st; conf := {[s]} ∪ conf st; stage := stage st |}.
Definition del_conf (s : string) (st : ost) : ost := {| mid := mid st; clr := clr st; conf := conf st ∖ {[s]}; stage := stage st |}.
Definition set_mid (m : option string) (st : ost) : ost := {| mid := m; clr := clr st; conf := conf st; stage := stage st |}.
Definition hold_mid (s : string) (st : ost) : ost :=
  {| mid := Some s; clr := clr st ∖ {[s]}; conf := conf st ∖ {[s]}; stage := stage st |}.
Definition set_stage (g : nat) (st : ost) : ost := {| mid := mid st; clr := clr st; conf := conf st; stage := g |}.

Section Control.
Variable id : string.
Variable cfg : SupplierClaimerConfig.
Variable budget : Z.

(** ** Operations *)

(** An answer to [AOwner] that names this instance confirms a lease. *)
Definition confirmed (s : string) (r : result (option string) IoErr) (st : ost) : ost :=
  match r with
  | Ok (Some o) => if String.eqb o id && bool_decide (s ∈ clr st) then add_conf s st else st
  | _ => st
  end.

Definition act_spec {B} (a : act B) (st : ost) : (B -> ost -> Prop) -> Prop :=
  match a in act B return (B -> ost -> Prop) -> Prop with
  | ASetNX s => fun Q => name_ok s /\ s ∈ clr st /\ (forall r, r <> Ok true -> Q r st) /\ Q (Ok true) (add_conf s st)
  | AOwner s => fun Q => name_ok s /\ forall r, Q r (confirmed s r st)
  | AExpire s => fun Q => name_ok s /\ forall r, Q r st
  | AReleaseIfOwner s => fun Q => name_ok s /\ stage st = 3%nat /\ forall r, Q r (del_conf s st)
  | AExtendIfOwner _ _ => fun _ => False
  | AExists s => fun Q => name_ok s /\ forall r, Q r st
  | AIsDraining s => fun Q => Q true st /\ Q false (add_clr s st)
  | AMarkDraining s _ => fun Q => mid st = None /\ name_ok s /\ Q false st /\ Q true (hold_mid s st)
  | AUnmarkDraining s => fun Q => mid st = Some s /\ forall d, Q d (set_mid None st)
  | ASetDeadline _ _ => fun _ => False
  | AClaim s _ => fun Q => name_ok s /\ Q tt st
  | AClaimIfAbsent s _ => fun Q => name_ok s /\ forall b, Q b st
  | AClaimedEntries => fun Q => forall es, Forall name_ok es.*1 -> Q es st
  | ASuppliers => fun Q => forall l, Forall name_ok l -> Q l st
  | ASetSuppliers l => fun Q => Forall name_ok l /\ Q tt st
  | AOnClaim s => fun Q => s ∈ conf st /\ forall b, Q b st
  | AOnRelease s _ => fun Q => name_ok s /\ mid st = Some s /\ Q true (set_mid None st) /\ Q false st
  | ATearDown _ => fun _ => False
  | ACloseManager => fun Q => Q true st /\ Q false (set_stage 1 st)
  | ATearDownAll => fun Q => (1 <= stage st)%nat /\ Q tt (set_stage 2 st)
  | AWaitDrains => fun Q => (2 <= stage st)%nat /\ Q tt (set_stage 3 st)
  | _ => fun Q => forall r, Q r st
  end.

Fixpoint wp {A} (p : prog A) (st : ost) (Q : A -> ost -> Prop) : Prop :=
  match p with
  | Ret a => Q a st
  | Do a k => act_spec a st (fun b st' => wp (k b) st' Q)
  end.

Lemma act_spec_mono {B} (a : act B) st (Q Q' : B -> ost -> Prop) :
  (forall b st', Q b st' -> Q' b st') -> act_spec a st Q -> act_spec a st Q'.
Proof. intros H. destruct a; cbn; naive_solver. Qed.

Lemma cwp_mono {A} (p : prog A) st (Q Q' : A -> ost -> Prop) :
  (forall a st', Q a st' -> Q' a st') -> wp p st Q -> wp p st Q'.
Proof.
  intros H. revert st. induction p as [a|B a k IH]; intros st; cbn; [apply H|].
  apply act_spec_mono. intros b st'. apply IH.
Qed.

Lemma cwp_bind {A B} (p : prog A) (f : A -> prog B) st Q :
  wp p st (fun a st' => wp (f a) st' Q) -> wp (pbind p f) st Q.
Proof.
  revert st. induction p as [a|C a k IH]; intros st; cbn; [done|].
  apply act_spec_mono. intros b st'. apply IH.
Qed.

(** What every operation keeps: nothing is left marked. *)
Definition settled {A} (_ : A) (st : ost) : Prop := mid st = None.

Lemma wp_seq {A B} (p : prog A) (f : A -> prog B) st (R : A -> ost -> Prop) Q :
  wp p st R -> (forall a st', R a st' -> wp (f a) st' Q) -> wp (pbind p f) st Q.
Proof. intros Hp Hf. apply cwp_bind. eapply cwp_mono; [|exact Hp]. exact Hf. Qed.

Lemma each_settled {A} (f : A -> prog unit) l :
  Forall (fun x => forall st, mid st = None -> wp (f x) st settled) l ->
  forall st, mid st = None -> wp (each f l) st settled.
Proof.
  induction 1 as [|x l Hx Hl IH]; intros st Hst; [done|]. cbn [each]. eapply wp_seq; [by apply Hx|]. intros ? st' Hst'. by apply IH.
Qed.

Lemma upTo_settled {A} (f : A -> prog bool) l count n :
  Forall (fun x => forall st, mid st = None -> wp (f x) st settled) l ->
  forall st, mid st = None -> wp (upTo f l count n) st settled.
Proof.
  intros Hl. revert n. induction Hl as [|x l Hx Hl IH]; intros n st Hst; [done|]. cbn [upTo].
  destruct (count <=? n); [done|]. eapply wp_seq; [by apply Hx|]. intros b st' Hst'. by apply IH.
Qed.

(** *** The operations *)

Lemma Release_settled s trigger st : name_ok s -> mid st = None -> wp (Release true s trigger) st settled.
Proof.
  intros Hs Hst. unfold Release. cbn. split_and!; [done..|]. intros claimedAt t _. split_and!; [done..|].
  destruct claimedAt; cbn; split_and!; done.
Qed.

Lemma releaseLost_settled s trigger st : name_ok s -> mid st = None -> wp (releaseLost true s trigger) st settled.
Proof. intros Hs Hst. unfold releaseLost. cbn. by split_and!. Qed.

Lemma confirmed_mid s r st : mid (confirmed s r st) = mid st.
Proof. unfold confirmed. by repeat case_match. Qed.

Lemma confirmed_conf s st : s ∈ clr st -> s ∈ conf (confirmed s (Ok (Some id)) st).
Proof. intros Hs. unfold confirmed. rewrite String.eqb_refl, bool_decide_true by done. set_solver. Qed.

Ltac wpn := cbn [pbind call wp act_spec each upTo].

Lemma startClaimed_settled s st : name_ok s -> mid st = None -> s ∈ conf st -> wp (startClaimed true s) st settled.
Proof.
  intros Hs Hst Hc. unfold startClaimed. wpn. split; [done|]. intros []; [done|]. wpn.
  eapply wp_seq; [by apply Release_settled|]. by intros.
Qed.

Lemma TryClaim_settled s st : name_ok s -> mid st = None -> wp (TryClaim id true s) st settled.
Proof.
  intros Hs Hst. unfold TryClaim. wpn. split; [done|]. split_and!; [done|set_solver| |].
  - intros [[]|e] Hr; wpn; [done| |done]. split; [done|]. intros r.
    assert (mid (confirmed s r (add_clr s st)) = None) as Hst' by by rewrite confirmed_mid.
    destruct r as [[o|]|]; [|done..]. destruct (String.eqb_spec o id) as [->|]; wpn; [|done].
    split; [done|]. split; [done|]. intros [[]|]; wpn; [|done..]. intros t. split; [done|]. intros []; [done|].
    apply startClaimed_settled; [done..|]. apply (confirmed_conf s (add_clr s st)). set_solver.
  - intros t. split; [done|]. apply startClaimed_settled; [done..|set_solver].
Qed.

Lemma reclaimOrLose_settled s st : name_ok s -> mid st = None -> wp (reclaimOrLose id true s) st settled.
Proof.
  intros Hs Hst. unfold reclaimOrLose. eapply wp_seq; [by apply TryClaim_settled|].
  intros [] st' Hst'; [done|]. by apply releaseLost_settled.
Qed.

Lemma loseIfStalled_settled s now st : name_ok s -> mid st = None -> wp (loseIfStalled cfg true s now) st settled.
Proof.
  intros Hs Hst. unfold loseIfStalled. wpn. intros d. destruct (_ <=? _); [|done]. by apply releaseLost_settled.
Qed.

Lemma renewClaim_settled now s st : name_ok s -> mid st = None -> wp (renewClaim id cfg true now s) st settled.
Proof.
  intros Hs Hst. unfold renewClaim. wpn. split; [done|]. intros r.
  assert (mid (confirmed s r st) = None) as Hst' by by rewrite confirmed_mid.
  destruct r as [[o|]|]; cbn [pbind wp]; [|wpn|by apply loseIfStalled_settled].
  - destruct (negb (String.eqb o id)); [by apply releaseLost_settled|]. wpn. intros mine.
    destruct (negb mine); [done|]. wpn. split; [done|]. intros [[]|]; wpn; [done| |by apply loseIfStalled_settled].
    intros mine'. destruct (negb mine'); [done|]. by apply reclaimOrLose_settled.
  - intros mine. destruct (negb mine); [done|]. by apply reclaimOrLose_settled.
Qed.

Lemma renewAllClaims_settled st : mid st = None -> wp (renewAllClaims id cfg true) st settled.
Proof.
  intros Hst. unfold renewAllClaims. wpn. intros es Hes. destruct es as [|e es]; [done|]. cbn [pbind call wp act_spec].
  intros now. apply each_settled; [|done]. eapply Forall_impl; [exact Hes|]. intros s Hs st'. by apply renewClaim_settled.
Qed.

Lemma calculateFairShare_settled st : mid st = None -> wp calculateFairShare st settled.
Proof. intros Hst. unfold calculateFairShare. wpn. by intros. Qed.

Lemma releaseExcess_settled count st : mid st = None -> wp (releaseExcess true count) st settled.
Proof.
  intros Hst. unfold releaseExcess. wpn. intros es Hes. apply upTo_settled; [|done].
  rewrite merge_sort_Permutation. rewrite Forall_fmap in Hes. eapply Forall_impl; [exact Hes|].
  intros [s t] Hs st'. by apply Release_settled.
Qed.

Lemma claimOne_settled s st : name_ok s -> mid st = None -> wp (claimOne id true s) st settled.
Proof.
  intros Hs Hst. unfold claimOne. wpn. intros []; [done|]. split; [done|]. by apply TryClaim_settled.
Qed.

Lemma claimMore_settled count st : mid st = None -> wp (claimMore id true count) st settled.
Proof.
  intros Hst. unfold claimMore. wpn. intros l Hl. eapply wp_seq; [apply upTo_settled; [|done]|by intros].
  eapply Forall_impl; [exact Hl|]. intros s Hs st'. by apply claimOne_settled.
Qed.

Lemma claimOrphaned_settled st : mid st = None -> wp (claimOrphaned id true) st settled.
Proof.
  intros Hst. unfold claimOrphaned. wpn. intros l Hl. apply each_settled; [|done].
  eapply Forall_impl; [exact Hl|]. intros s Hs st' Hst'. unfold claimOrphan. wpn.
  intros []; [done|]. split; [done|]. intros t []; [done|]. split; [done|]. intros [[]|]; [done| |done].
  eapply wp_seq; [by apply TryClaim_settled|by intros].
Qed.

Lemma rebalance_settled st : mid st = None -> wp (rebalance id true) st settled.
Proof.
  intros Hst. unfold rebalance. eapply wp_seq; [by apply calculateFairShare_settled|]. intros fair st1 Hst1. wpn. intros cur.
  eapply (wp_seq _ _ _ settled).
  - destruct (fair <? cur); [|destruct (cur <? fair); [|done]].
    + eapply wp_seq; [by apply releaseExcess_settled|by intros].
    + eapply wp_seq; [by apply claimMore_settled|by intros].
  - intros [] st2 Hst2; [done|]. by apply claimOrphaned_settled.
Qed.

Lemma registerInstance_settled st : mid st = None -> wp registerInstance st settled.
Proof. intros Hst. unfold registerInstance. wpn. intros []; by wpn. Qed.

Lemma heartbeat_settled st : mid st = None -> wp heartbeat st settled.
Proof.
  intros Hst. unfold heartbeat. eapply wp_seq; [by apply registerInstance_settled|]. intros ? st' Hst'. unfold cleanupStaleInstances. wpn.
  intros [l|]; [|done]. apply each_settled; [|done]. apply Forall_true. intros i st2 Hst2. wpn. intros [[]|]; by wpn.
Qed.

Lemma claimUntil_settled l fair st : Forall name_ok l -> mid st = None -> wp (claimUntil id true l fair) st settled.
Proof.
  intros Hl. revert st. induction Hl as [|s l Hs Hl IH]; intros st Hst; [done|]. cbn [claimUntil]. wpn. intros n.
  destruct (fair <=? n); [done|]. eapply wp_seq; [by apply TryClaim_settled|]. intros ? st' Hst'. by apply IH.
Qed.

Lemma Start_settled l st : Forall name_ok l -> mid st = None -> wp (Start id true l) st settled.
Proof.
  intros Hl Hst. unfold Start. wpn. split; [done|]. eapply wp_seq; [by apply registerInstance_settled|].
  intros [] st1 Hst1; [|done]. eapply (wp_seq _ _ _ settled); [|by intros]. unfold initialClaim. wpn. intros l1 Hl1.
  eapply wp_seq; [by apply calculateFairShare_settled|]. intros fair st2 Hst2. by apply claimUntil_settled.
Qed.

Lemma reconcile_settled l hasKey st : Forall name_ok l -> mid st = None -> wp (reconcile true l hasKey) st settled.
Proof.
  intros Hl Hst. unfold reconcile. unfold UpdateSuppliers, releaseUnconfigured. wpn. split; [done|]. intros es Hes. apply each_settled; [|done].
  eapply Forall_impl; [exact Hes|]. intros s Hs st' Hst'. cbn beta. case_bool_decide; [done|].
  eapply wp_seq; [by apply Release_settled|by intros].
Qed.

Lemma CloseManager_settled st : mid st = None -> wp (CloseManager id) st settled.
Proof.
  intros Hst. unfold CloseManager, FinishShutdown. wpn. split_and!; [done|cbn; lia..|]. intros es Hes.
  eapply (wp_seq _ _ _ (fun _ st' => mid st' = None)); [|intros ? st' ?; unfold unregisterInstance; wpn; by intros].
  cut (forall st', mid st' = None -> stage st' = 3%nat ->
    wp (each (fun s => pbind (call (AUnclaim s)) (fun _ => pbind (call (AReleaseIfOwner s)) (fun _ => Ret tt))) es.*1) st' (fun _ st2 => mid st2 = None)); [intros H; by apply H|].
  induction Hes as [|s l Hs Hl IH]; intros st' Hm Hg; [done|]. wpn. intros _. split_and!; [done..|]. intros _. by apply IH.
Qed.

Lemma op_settled o st : Forall name_ok (op_names o) -> mid st = None -> wp (op_prog cfg id o) st settled.
Proof.
  intros Hn Hst. destruct o; cbn [op_prog op_names] in *.
  - eapply wp_seq; [by apply Start_settled|by intros].
  - by apply heartbeat_settled.
  - by apply renewAllClaims_settled.
  - by apply rebalance_settled.
  - eapply wp_seq; [apply Release_settled; [by inversion Hn|done]|by intros].
  - by apply reconcile_settled.
  - by apply CloseManager_settled.
Qed.
End Control.
