(* ===== verification/ClaimerSafety.v ===== *)
(** * One writer per supplier

    The safety of the claimer: with the operations of an instance one at a time
    and everything else interleaved, an instance that has a consume loop of a
    supplier holds its lease until the end of the term it last got, and has one
    loop of it only. ClaimerLeases is the half about the store, ClaimerControl
    the half about the programs; here they meet in the invariant of a system. *)

From stdpp Require Import sorting.
From S2P Require Import Prelude RedisTime KeyBuilder LeaseStore GoFloat SupplierClaimer ClaimerSystem ClaimerLeases ClaimerControl.
From Stdlib Require Import Ascii String.

Local Open Scope string_scope.
Local Open Scope list_scope.
Local Open Scope Z_scope.

(** ** Drains *)

(** A drain waits for a loop, has torn it down, or has given the mark up. *)
Inductive dst := DWriting | DTorn | DDone.

#[export] Instance dst_eq_dec : EqDecision dst.
Proof. solve_decision. Defined.

Section Drains.
Variable budget : Z.

Definition dact_spec {B} (s : string) (a : act B) (d : dst) : (B -> dst -> Prop) -> Prop :=
  match a in act B return (B -> dst -> Prop) -> Prop with
  | ANow => fun Q => forall t, Q t d
  | ASetDeadline s' _ => fun Q => s' = s /\ Q tt d
  | AExtendIfOwner s' b => fun Q => s' = s /\ b = budget /\ forall r, Q r d
  | ATearDown s' => fun Q => s' = s /\ d = DWriting /\ Q tt DTorn
  | AReleaseIfOwner s' => fun Q => s' = s /\ d = DTorn /\ forall r, Q r DTorn
  | AUnmarkDraining s' => fun Q => s' = s /\ d = DTorn /\ forall l, Q l DDone
  | _ => fun _ => False
  end.

Fixpoint dwp {A} (s : string) (p : prog A) (d : dst) : Prop :=
  match p with
  | Ret _ => d = DDone
  | Do a k => dact_spec s a d (fun b d' => dwp s (k b) d')
  end.

Lemma drain_dwp s (stopped : bool) : dwp s (drain budget s stopped) (if stopped then DWriting else DTorn).
Proof. unfold drain. destruct stopped; cbn; repeat (split || intros ?); done. Qed.

Definition drain_at (sp : string * prog unit) (d : dst) : Prop := name_ok sp.1 /\ dwp sp.1 sp.2 d.
End Drains.

Definition live (ds : list (string * dst)) : list string := (filter (fun x => x.2 <> DDone) ds).*1.

Lemma elem_of_live s ds : s ∈ live ds <-> exists d, (s, d) ∈ ds /\ d <> DDone.
Proof.
  unfold live. rewrite list_elem_of_fmap. split.
  - intros ([s' d] & -> & [? ?]%list_elem_of_filter). by exists d.
  - intros (d & ? & ?). exists (s, d). split; [done|]. by apply list_elem_of_filter.
Qed.

#[export] Instance live_perm : Proper (Permutation ==> Permutation) live.
Proof. intros X Y H. unfold live. by rewrite H. Qed.

Lemma live_cons s d ds : live ((s, d) :: ds) = if decide (d = DDone) then live ds else s :: live ds.
Proof. unfold live. rewrite filter_cons. repeat case_decide; naive_solver. Qed.

(** ** The invariant of an instance *)

Record ctl (n : SupplierClaimer) (u : gmap string Z) (st : ost) (ds : list (string * dst)) : Prop := {
  ctl_clr s : s ∈ clr st -> draining n !! s = None;
  ctl_conf s : s ∈ conf st -> s ∈ clr st /\ is_Some (u !! s);
  ctl_mid s : mid st = Some s -> is_Some (draining n !! s) /\ s ∉ live ds;
  ctl_live s : s ∈ live ds -> is_Some (draining n !! s);
  ctl_once : NoDup (live ds);
  ctl_stop s : s ∈ stopping n -> (s, DWriting) ∈ ds;
  ctl_run s : s ∈ suppliers n -> draining n !! s = None \/ mid st = Some s;
  ctl_term s : s ∈ suppliers n \/ s ∈ stopping n -> is_Some (u !! s);
  ctl_closed : (1 <= stage st)%nat -> m_closed n = true;
  ctl_empty : (2 <= stage st)%nat -> suppliers n = ∅;
  ctl_quiet : (3 <= stage st)%nat -> ds = [];
  ctl_claimed s : is_Some (claimed n !! s) -> name_ok s;
  ctl_all : Forall name_ok (allSuppliers n)
}.

Definition same_control (n n' : SupplierClaimer) : Prop :=
  draining n' = draining n /\ suppliers n' = suppliers n /\ stopping n' = stopping n /\ m_closed n' = m_closed n.

Definition more_terms (u u' : gmap string Z) : Prop := forall s, is_Some (u !! s) -> is_Some (u' !! s).

Lemma ctl_ext n n' u u' st ds :
  same_control n n' -> more_terms u u' -> (forall s, is_Some (claimed n' !! s) -> name_ok s) -> Forall name_ok (allSuppliers n') ->
  ctl n u st ds -> ctl n' u' st ds.
Proof.
  intros (E1 & E2 & E3 & E4) Hu Hc Ha []. split; rewrite ?E1, ?E2, ?E3, ?E4; try done; naive_solver.
Qed.

Lemma ctl_perm n u st ds ds' : ds ≡ₚ ds' -> ctl n u st ds -> ctl n u st ds'.
Proof.
  intros Hp []. split; try done.
  - intros s Hs. destruct (ctl_mid0 s Hs). split; [done|]. by rewrite <- Hp.
  - intros s. rewrite <- Hp. auto.
  - by rewrite <- Hp.
  - intros s Hs. rewrite <- Hp. auto.
  - intros Hg. rewrite (ctl_quiet0 Hg) in Hp. symmetry. by apply Permutation_nil_l.
Qed.

(** A drain that gave its mark up leaves no trace. *)
Lemma ctl_drop n u st s ds : ctl n u st ((s, DDone) :: ds) -> ctl n u st ds.
Proof.
  intros []. split; try done.
  - intros s' Hs'. specialize (ctl_stop0 s' Hs'). set_solver.
  - intros Hg. by specialize (ctl_quiet0 Hg).
Qed.

Definition gives_up {B} (a : act B) : bool := match a with AReleaseIfOwner _ => true | _ => false end.

Lemma note_more {L} `{!LeaseOps L} cfg budget {B} (a : act B) id now (l : L) b u :
  gives_up a = false -> more_terms u (note_terms cfg budget a id now l b u).
Proof.
  intros Hn s Hs. destruct a; cbn; try done; repeat case_match; simplify_eq/=; try done;
    (destruct (decide (s = s0)) as [->|]; [rewrite lookup_insert_eq; eauto|by rewrite lookup_insert_ne]).
Qed.

(** ** Steps of an operation *)

Section OpSteps.
Context {L : Type} `{LO : !LeaseOps L}.
Variable cfg : SupplierClaimerConfig.
Variable budget : Z.
Variable id : string.

(** The operation goes on in a state the instance is in. *)
Definition op_goes {B} (n' : SupplierClaimer) (u' : gmap string Z) (dr : option (string * prog unit)) (ds : list (string * dst))
    (Q : B -> ost -> Prop) (b : B) : Prop :=
  exists st', Q b st' /\
    match dr with
    | None => ctl n' u' st' ds
    | Some sp => exists d, drain_at budget sp d /\ ctl n' u' st' ((sp.1, d) :: ds)
    end.

Lemma goes_plain {B} n n' u u' st ds (Q : B -> ost -> Prop) b :
  ctl n u st ds -> Q b st -> same_control n n' -> more_terms u u' ->
  (forall s, is_Some (claimed n' !! s) -> name_ok s) -> Forall name_ok (allSuppliers n') ->
  op_goes n' u' None ds Q b.
Proof. intros. exists st. split; [done|]. by eapply ctl_ext. Qed.

Lemma goes_conf {B} n u u' st ds s (Q : B -> ost -> Prop) b :
  ctl n u st ds -> more_terms u u' -> is_Some (u' !! s) -> s ∈ clr st -> Q b (add_conf s st) -> op_goes n u' None ds Q b.
Proof.
  intros Hc Hm Hs Hcl HQ. exists (add_conf s st). split; [done|]. destruct Hc. split; cbn; try done; [|naive_solver].
  intros s'. rewrite elem_of_union, elem_of_singleton. intros [->|]; [done|]. naive_solver.
Qed.

Lemma mark_goes s trigger n n' b u st ds Q :
  ctl n u st ds -> markDraining s trigger n = (n', b) -> mid st = None -> name_ok s ->
  Q false st -> Q true (hold_mid s st) -> op_goes n' u None ds Q b.
Proof.
  intros Hc Hm Hmid Hs Hf Ht. unfold markDraining in Hm. destruct (draining n !! s) eqn:E; simplify_eq.
  { by exists st. }
  assert (s ∉ live ds) as Hl by (intros H; destruct (ctl_live _ _ _ _ Hc _ H); congruence).
  exists (hold_mid s st). split; [done|]. destruct Hc. split; cbn; try done.
  - intros s' [? ?]%elem_of_difference. rewrite lookup_insert_ne by set_solver. auto.
  - set_solver.
  - intros s' [= <-]. split; [|done]. rewrite lookup_insert_eq. eauto.
  - intros s' Hs'. destruct (decide (s = s')) as [<-|]; [done|]. rewrite lookup_insert_ne by done. auto.
  - intros s' Hs'. destruct (decide (s = s')) as [<-|]; [by right|]. left. rewrite lookup_insert_ne by done.
    destruct (ctl_run0 s' Hs'); [done|congruence].
Qed.

Lemma unmark_goes s n u st ds Q :
  ctl n u st ds -> mid st = Some s -> (forall d, Q d (set_mid None st)) ->
  op_goes (unmarkDraining s n).1 u None ds Q (unmarkDraining s n).2.
Proof.
  intros Hc Hmid HQ. exists (set_mid None st). split; [done|]. destruct (ctl_mid _ _ _ _ Hc s Hmid) as [Hs Hl].
  destruct Hc. split; cbn; try done.
  - intros s' Hs'. apply lookup_delete_None. auto.
  - intros s' Hs'. rewrite lookup_delete_ne; [auto|set_solver].
  - intros s' Hs'. left. apply lookup_delete_None. destruct (ctl_run0 s' Hs') as [|E]; [auto|left; congruence].
Qed.

Lemma claim_goes c s n n' b u st ds Q :
  ctl n u st ds -> s ∈ conf st -> (forall b, Q b st) -> onSupplierClaimed c s n = (n', b) -> op_goes n' u None ds Q b.
Proof.
  intros Hc Hs HQ E. exists st. split; [done|]. unfold onSupplierClaimed in E.
  destruct (m_closed n) eqn:Ecl; [by simplify_eq|]. case_bool_decide; [by simplify_eq|]. destruct (c_started c); simplify_eq; [|done].
  destruct (ctl_conf _ _ _ _ Hc s Hs) as [Hclr Hu]. pose proof (ctl_clr _ _ _ _ Hc s Hclr) as Hd.
  destruct Hc. split; cbn; try done.
  - set_solver.
  - set_solver.
  - intros Hg. assert (m_closed n = true) by (apply ctl_closed0; lia). congruence.
  - intros Hg. assert (m_closed n = true) by (apply ctl_closed0; lia). congruence.
Qed.

Lemma release_goes s n n' dr b u st ds Q :
  name_ok s -> ctl n u st ds -> mid st = Some s -> Q true (set_mid None st) -> Q false st ->
  onSupplierReleased budget s n = (n', dr, b) -> op_goes n' u dr ds Q b.
Proof.
  intros Hs Hc Hmid Ht Hf E. unfold onSupplierReleased in E. destruct (m_closed n) eqn:Ecl; simplify_eq.
  { by exists st. }
  exists (set_mid None st). split; [done|]. set (stopped := bool_decide (s ∈ suppliers n)).
  exists (if stopped then DWriting else DTorn). split; [split; [done|apply drain_dwp]|].
  destruct (ctl_mid _ _ _ _ Hc s Hmid) as [Hd Hl]. cbn [fst].
  assert (live ((s, if stopped then DWriting else DTorn) :: ds) = s :: live ds) as Hlive
    by (rewrite live_cons; by destruct stopped).
  destruct Hc. split; cbn [mid clr conf stage set_mid draining suppliers stopping m_closed claimed allSuppliers set_manager]; try done.
  - intros s'. rewrite Hlive. set_solver.
  - rewrite Hlive. by constructor.
  - intros s' Hs'. destruct stopped; [|set_solver]. apply elem_of_union in Hs' as [->%elem_of_singleton|]; set_solver.
  - intros s' [? ?]%elem_of_difference. left. destruct (ctl_run0 s'); [done|done|set_solver].
  - intros s' Hs'. apply ctl_term0. unfold stopped in Hs'. case_bool_decide; set_solver.
  - intros Hg. assert (m_closed n = true) by (apply ctl_closed0; lia). congruence.
  - intros Hg. assert (m_closed n = true) by (apply ctl_closed0; lia). congruence.
  - intros Hg. assert (m_closed n = true) by (apply ctl_closed0; lia). congruence.
Qed.

(** An action the running operation may take leads to a state it may go on in. *)
Lemma op_step {B} (a : act B) c now idle n (l : L) n' l' dr b u st ds Q :
  ctl n u st ds -> (idle = true -> ds = []) -> act_spec id a st Q ->
  exec cfg budget a id c now idle n l = Some (n', l', dr, b) ->
  op_goes n' (note_terms cfg budget a id now l b u) dr ds Q b.
Proof.
  intros Hc Hidle HQ E. pose proof (ctl_claimed _ _ _ _ Hc) as Hcl. pose proof (ctl_all _ _ _ _ Hc) as Hall.
  destruct a; cbn [exec] in E; cbn [act_spec] in HQ;
    try (injection E as <- <- <- <-; eapply goes_plain; [exact Hc|by apply HQ|by split_and!|by intros ??|exact Hcl|exact Hall]).
  - destruct HQ as (Hs & Hclr & Hno & Hyes). destruct (setNX _ _ _ _ _ _) as [l1 r]. injection E as <- <- <- <-.
    destruct r as [[]|e]; cbn; [|exists st; split; [by apply Hno|done]..].
    eapply goes_conf; [done| | |done|done]; [|rewrite lookup_insert_eq; eauto].
    intros s' Hs'. by apply (note_more cfg budget (ASetNX s) id now l (Ok true)).
  - destruct HQ as [Hs HQ]. injection E as <- <- <- <-. specialize (HQ (owner (c_fault c) now l s)). unfold confirmed in HQ.
    destruct (owner (c_fault c) now l s) as [[o|]|]; cbn; [|by exists st..].
    destruct (String.eqb o id); cbn in HQ; [|by exists st].
    assert (more_terms u (<[s := Z.max now (default now (u !! s))]> u)) as Hm.
    { intros s' Hs'. destruct (decide (s = s')) as [<-|]; [rewrite lookup_insert_eq; eauto|by rewrite lookup_insert_ne]. }
    case_bool_decide; [eapply goes_conf; [done..| |done|done]; rewrite lookup_insert_eq; eauto|].
    eapply goes_plain; [done..| |done|done|done]. by split_and!.
  - destruct HQ as [Hs HQ]. destruct (expire _ _ _ _ _) as [l1 r]. injection E as <- <- <- <-.
    eapply goes_plain; [done|by apply HQ|by split_and!|by apply note_more|done|done].
  - destruct HQ as (Hs & Hg & HQ). destruct (releaseIfOwner _ _ _ _ _) as [l1 r]. injection E as <- <- <- <-.
    exists (del_conf s st). split; [done|]. cbn. pose proof (ctl_empty _ _ _ _ Hc ltac:(lia)) as He.
    pose proof (ctl_quiet _ _ _ _ Hc ltac:(lia)) as Hq. destruct Hc. split; cbn; try done.
    + intros s' [? ?]%elem_of_difference. destruct (ctl_conf0 s'); [done|]. split; [done|]. rewrite lookup_delete_ne by set_solver. done.
    + intros s' [Hs'|Hs']; [rewrite He in Hs'; set_solver|]. apply ctl_stop0 in Hs'. rewrite Hq in Hs'. set_solver.
  - done.
  - destruct (setInstance _ _ _ _ _ _) as [l1 r]. injection E as <- <- <- <-.
    eapply goes_plain; [done|by apply HQ|by split_and!|by intros ??|done|done].
  - destruct (addActive _ _ _ _) as [l1 r]. injection E as <- <- <- <-.
    eapply goes_plain; [done|by apply HQ|by split_and!|by intros ??|done|done].
  - destruct HQ as [Ht Hf]. injection E as <- <- <- <-. unfold isDraining. case_bool_decide as Hd; [by exists st|].
    exists (add_clr s st). split; [done|]. apply eq_None_not_Some in Hd. cbn. destruct Hc. split; cbn; try done; [set_solver|].
    intros s' Hs'. destruct (ctl_conf0 s' Hs'). set_solver.
  - destruct HQ as (Hm & Hs & Hf & Ht). destruct (markDraining s trigger n) as [n1 b1] eqn:E1. injection E as <- <- <- <-.
    by eapply mark_goes.
  - destruct HQ as [Hm HQ]. injection E as <- <- <- <-. by apply (unmark_goes _ _ _ st).
  - done.
  - destruct HQ as [Hs HQ]. injection E as <- <- <- <-. eapply goes_plain; [done|done|by split_and!|by intros ??| |done].
    cbn. intros s' [<-|[? ?]]%lookup_insert_is_Some; auto.
  - destruct HQ as [Hs HQ]. unfold claimIfAbsent in E. destruct (claimed n !! s); injection E as <- <- <- <-;
      (eapply goes_plain; [done|by apply HQ|by split_and!|by intros ??| |done]); [done|].
    cbn. intros s' [<-|[? ?]]%lookup_insert_is_Some; auto.
  - injection E as <- <- <- <-. eapply goes_plain; [done|by apply HQ|by split_and!|by intros ??| |done].
    cbn. intros s' [? ?]%lookup_delete_is_Some. auto.
  - injection E as <- <- <- <-. eapply goes_plain; [done| |by split_and!|by intros ??|done|done]. apply HQ.
    apply Forall_fmap, Forall_forall. intros [s t] Hin. apply Hcl.
    assert ((s, t) ∈ map_to_list (claimed n)) as Hin'.
    { unfold claimedEntries, permuted in Hin. case_decide as Hp; [by rewrite Hp in Hin|done]. }
    apply elem_of_map_to_list in Hin'. eauto.
  - unfold inRecentReleaseCooldown in E. destruct (recentlyReleased n !! s); [destruct (_ <=? _)|]; injection E as <- <- <- <-;
      (eapply goes_plain; [done|by apply HQ|by split_and!|by intros ??|done|done]).
  - unfold renewStalledFor in E. destruct (lastRenewedAt n !! s); injection E as <- <- <- <-;
      (eapply goes_plain; [done|by apply HQ|by split_and!|by intros ??|done|done]).
  - destruct HQ as [Hl HQ]. injection E as <- <- <- <-. eapply goes_plain; [done|done|by split_and!|by intros ??|done|done].
  - destruct HQ as [Hs HQ]. destruct (onSupplierClaimed c s n) as [n1 b1] eqn:E1. injection E as <- <- <- <-. by eapply claim_goes.
  - destruct HQ as (Hs & Hm & Ht & Hf). destruct (onSupplierReleased budget s n) as [[n1 d1] b1] eqn:E1.
    injection E as <- <- <- <-. by eapply release_goes.
  - done.
  - destruct HQ as [Ht Hf]. injection E as <- <- <- <-. destruct (m_closed n) eqn:Ecl.
    + exists st. split; [done|]. cbn. destruct Hc. by split.
    + exists (set_stage 1 st). split; [done|]. cbn. destruct Hc. split; cbn; try done; lia.
  - destruct HQ as [Hg HQ]. injection E as <- <- <- <-. exists (set_stage 2 st). split; [done|]. cbn. destruct Hc.
    split; cbn; try done; (lia || set_solver || auto).
  - destruct HQ as [Hg HQ]. destruct idle; [|done]. injection E as <- <- <- <-. exists (set_stage 3 st). split; [done|]. cbn.
    pose proof (Hidle eq_refl). destruct Hc. split; cbn; try done; auto with lia.
Qed.
End OpSteps.

(** ** Steps of a drain *)

Section DrainSteps.
Context {L : Type} `{LO : !LeaseOps L}.
Variable cfg : SupplierClaimerConfig.
Variable budget : Z.
Variable id : string.

Lemma ctl_live_head n u st s d ds :
  ctl n u st ((s, d) :: ds) -> d <> DDone -> is_Some (draining n !! s) /\ s ∉ live ds /\ NoDup (live ds) /\ mid st <> Some s.
Proof.
  intros Hc Hd. pose proof (ctl_once _ _ _ _ Hc) as H1. rewrite live_cons, decide_False in H1 by done.
  apply NoDup_cons in H1 as [? ?]. assert (s ∈ live ((s, d) :: ds)) by (rewrite live_cons, decide_False by done; set_solver).
  split_and!; [by eapply ctl_live|done|done|]. intros Hm. by destruct (ctl_mid _ _ _ _ Hc s Hm).
Qed.

Lemma tear_down_step n u st s ds :
  ctl n u st ((s, DWriting) :: ds) ->
  ctl (set_manager (m_closed n) (suppliers n) (stopping n ∖ {[s]}) n) u st ((s, DTorn) :: ds).
Proof.
  intros Hc. assert (live ((s, DTorn) :: ds) = live ((s, DWriting) :: ds)) as Hl by done.
  destruct Hc. split; rewrite ?Hl; cbn -[live]; try done.
  - intros s' [Hs' Hne]%elem_of_difference. apply ctl_stop0 in Hs'. set_solver.
  - set_solver.
  - intros Hg. by specialize (ctl_quiet0 Hg).
Qed.

Lemma give_up_step n u st s ds : ctl n u st ((s, DTorn) :: ds) -> ctl n (delete s u) st ((s, DTorn) :: ds).
Proof.
  intros Hc. destruct (ctl_live_head _ _ _ _ _ _ Hc) as (Hd & Hl & _ & Hm); [done|].
  destruct Hc. split; try done.
  - intros s' Hs'. destruct (ctl_conf0 s' Hs') as [Hclr ?]. split; [done|]. rewrite lookup_delete_ne; [done|].
    intros <-. rewrite (ctl_clr0 s Hclr) in Hd. by destruct Hd.
  - intros s' Hs'. rewrite lookup_delete_ne; [auto|]. intros <-. destruct Hs' as [Hs'|Hs'].
    + destruct (ctl_run0 s Hs') as [E|]; [|done]. rewrite E in Hd. by destruct Hd.
    + apply ctl_stop0 in Hs'. apply Hl, elem_of_live. exists DWriting. set_solver.
Qed.

Lemma unmark_step n u st s ds : ctl n u st ((s, DTorn) :: ds) -> ctl (unmarkDraining s n).1 u st ((s, DDone) :: ds).
Proof.
  intros Hc. destruct (ctl_live_head _ _ _ _ _ _ Hc) as (Hd & Hl & Hnd & Hm); [done|].
  assert (live ((s, DDone) :: ds) = live ds) as El by done. assert (live ((s, DTorn) :: ds) = s :: live ds) as El' by done.
  destruct Hc. split; rewrite ?El; cbn -[live]; try done.
  - intros s' Hs'. apply lookup_delete_None. auto.
  - intros s' Hs'. destruct (ctl_mid0 s' Hs') as [? Hn]. rewrite El' in Hn. split; [|set_solver].
    rewrite lookup_delete_ne; [done|]. intros <-. done.
  - intros s' Hs'. rewrite lookup_delete_ne; [|set_solver]. apply ctl_live0. rewrite El'. set_solver.
  - intros s' Hs'. apply ctl_stop0 in Hs'. set_solver.
  - intros s' Hs'. destruct (ctl_run0 s' Hs'); [left; apply lookup_delete_None; auto|by right].
  - intros Hg. by specialize (ctl_quiet0 Hg).
Qed.

Lemma drain_step {B} (a : act B) c now n (l : L) n' l' dr b u st s d ds Q :
  ctl n u st ((s, d) :: ds) -> dact_spec budget s a d Q ->
  exec cfg budget a id c now false n l = Some (n', l', dr, b) ->
  dr = None /\ exists d', Q b d' /\ ctl n' (note_terms cfg budget a id now l b u) st ((s, d') :: ds).
Proof.
  intros Hc HQ E. pose proof (ctl_claimed _ _ _ _ Hc) as Hcl. pose proof (ctl_all _ _ _ _ Hc) as Hall.
  destruct a; cbn [exec] in E; cbn [dact_spec] in HQ; try done.
  - destruct HQ as (-> & -> & HQ). destruct (releaseIfOwner _ _ _ _ _) as [l1 r]. injection E as <- <- <- <-.
    split; [done|]. exists DTorn. split; [done|]. by apply give_up_step.
  - destruct HQ as (-> & -> & HQ). destruct (extendIfOwner _ _ _ _ _ _) as [l1 r]. injection E as <- <- <- <-.
    split; [done|]. exists d. split; [done|]. eapply ctl_ext; [by split_and!|by apply note_more|done..].
  - destruct HQ as (-> & -> & HQ). injection E as <- <- <- <-. split; [done|]. exists DDone. split; [done|]. by apply unmark_step.
  - destruct HQ as (-> & HQ). injection E as <- <- <- <-. split; [done|]. exists d. split; [done|]. unfold setDeadline.
    destruct (draining n !! s) as [lease|] eqn:Ed; [|done]. cbn.
    assert (forall s', <[s := {| dl_trigger := dl_trigger lease; dl_deadline := deadline |}]> (draining n) !! s' = None <-> draining n !! s' = None) as Hn.
    { intros s'. destruct (decide (s = s')) as [<-|]; [by rewrite lookup_insert_eq, Ed|by rewrite lookup_insert_ne]. }
    assert (forall s', is_Some (<[s := {| dl_trigger := dl_trigger lease; dl_deadline := deadline |}]> (draining n) !! s') <-> is_Some (draining n !! s')) as Hi.
    { intros s'. by rewrite <- !not_eq_None_Some, Hn. }
    destruct Hc. split; cbn -[live]; try done; intros; rewrite ?Hn, ?Hi; auto.
  - injection E as <- <- <- <-. split; [done|]. by exists d.
  - destruct HQ as (-> & -> & HQ). injection E as <- <- <- <-. split; [done|]. exists DTorn. split; [done|]. by apply tear_down_step.
Qed.
End DrainSteps.

(** ** The system *)

Section System.
Context {L : Type} `{LL : LeaseLaws L}.
Variable cfg : SupplierClaimerConfig.
Variable budget : Z.
Hypothesis ttl_ok : 10 ^ 9 <= cfg_ClaimTTL cfg.
Hypothesis instance_ttl_ok : 10 ^ 9 <= cfg_InstanceTTL cfg.
Hypothesis budget_ok : 10 ^ 9 <= budget.

Definition drain_states (dl : list (string * prog unit)) (ds : list dst) : list (string * dst) := zip dl.*1 ds.

Definition inst_ok (now : Z) (l : L) (id : string) (N : Inst) : Prop :=
  name_ok id /\ terms_ok cfg now l id (term_end N) /\
  exists st ds, Forall2 (drain_at budget) (drains N) ds /\
    ctl (node N) (term_end N) st (drain_states (drains N) ds) /\
    match ops N with
    | [] => mid st = None
    | [p] => wp id p st settled
    | _ => False
    end.

Definition sys_ok (y : Sys) : Prop :=
  lease_wf (sys_now y) (sys_store y) /\
  forall id N, sys_insts y !! id = Some N -> inst_ok (sys_now y) (sys_store y) id N.

Lemma act_spec_ok {B} id (a : act B) st Q : act_spec id a st Q -> act_ok budget a.
Proof. destruct a; cbn; tauto. Qed.

Lemma dact_spec_ok {B} s (a : act B) d Q : name_ok s -> dact_spec budget s a d Q -> act_ok budget a.
Proof. intros Hs. destruct a; cbn; try done; naive_solver. Qed.

(** The instances that did not move keep their leases. *)
Lemma inst_ok_other now l l' id id' N :
  others_keep cfg now id l l' -> id' <> id -> inst_ok now l id' N -> inst_ok now l' id' N.
Proof.
  intros Hk Hne (Hid & Ht & Hrest). split_and!; [done| |done]. intros s e He. destruct (Ht s e He) as (? & ? & ?).
  split_and!; [done..|]. by apply Hk.
Qed.

Lemma put_ok y id N' l' :
  sys_ok y -> lease_wf (sys_now y) l' -> others_keep cfg (sys_now y) id (sys_store y) l' -> inst_ok (sys_now y) l' id N' ->
  sys_ok {| sys_now := sys_now y; sys_store := l'; sys_insts := <[id := N']> (sys_insts y) |}.
Proof.
  intros [_ Hi] Hw Hk HN. split; [done|]. cbn. intros id' N [[<- <-]|[? ?]]%lookup_insert_Some; [done|].
  eapply inst_ok_other; eauto.
Qed.

Lemma keep_refl now id (l : L) : others_keep cfg now id l l.
Proof. by intros ???. Qed.

Lemma drain_states_nil dl ds : Forall2 (drain_at budget) dl ds -> (match dl with [] => true | _ => false end) = true -> drain_states dl ds = [].
Proof. by intros [|]. Qed.

Lemma drain_states_snoc dl ds sp d :
  Forall2 (drain_at budget) dl ds -> drain_states (dl ++ [sp]) (ds ++ [d]) ≡ₚ (sp.1, d) :: drain_states dl ds.
Proof.
  intros H. unfold drain_states. rewrite fmap_app, zip_with_app by (rewrite length_fmap; by eapply Forall2_length).
  rewrite Permutation_app_comm. done.
Qed.

Lemma drain_states_middle dl1 dl2 ds1 ds2 sp d :
  Forall2 (drain_at budget) dl1 ds1 ->
  drain_states (dl1 ++ sp :: dl2) (ds1 ++ d :: ds2) ≡ₚ (sp.1, d) :: drain_states (dl1 ++ dl2) (ds1 ++ ds2).
Proof.
  intros H. unfold drain_states. rewrite !fmap_app, !zip_with_app by (rewrite length_fmap; by eapply Forall2_length).
  cbn. by rewrite Permutation_middle.
Qed.

(** *** The running operation moves *)

Lemma run_op_ok y id N p c n' l' dr u rest :
  sys_ok y -> sys_insts y !! id = Some N -> ops N = [p] ->
  run_one cfg budget id c (sys_now y) (match drains N with [] => true | _ => false end) p N (sys_store y) = Some (n', l', dr, u, rest) ->
  sys_ok {| sys_now := sys_now y; sys_store := l'; sys_insts := <[id := {| node := n'; ops := rest;
    drains := drains N ++ option_list dr; term_end := u |}]> (sys_insts y) |}.
Proof.
  intros Hy HN Hops Hrun. pose proof Hy as [Hw Hi]. destruct (Hi _ _ HN) as (Hid & Ht & st & ds & Hd & Hc & Hop). rewrite Hops in Hop.
  destruct p as [x|B a k]; cbn in Hrun.
  - injection Hrun as <- <- <- <- <-. apply put_ok; [done|done|apply keep_refl|]. split_and!; [done..|].
    exists st, ds. cbn. rewrite app_nil_r. by split_and!.
  - destruct (exec _ _ _ _ _ _ _ _ _) as [[[[n1 l1] d1] b]|] eqn:E; [|done]. injection Hrun as <- <- <- <- <-.
    cbn in Hop. destruct (store_step cfg budget ttl_ok instance_ttl_ok budget_ok a id c _ _ _ _ _ _ _ _ (term_end N) Hw Hid (act_spec_ok _ _ _ _ Hop) Ht E) as (Hw' & Hk & Ht').
    apply put_ok; [done..|]. split_and!; [done..|]. cbn [drains term_end node ops].
    destruct (op_step cfg budget id a c _ _ _ _ _ _ _ _ (term_end N) st _ _ Hc (drain_states_nil _ _ Hd) Hop E) as (st' & Hk' & Hc').
    destruct d1 as [sp|]; cbn [option_list].
    + destruct Hc' as (d & Hsp & Hc'). exists st', (ds ++ [d]). split_and!; [by apply Forall2_app; [done|repeat constructor; apply Hsp]| |done].
      eapply ctl_perm; [symmetry; by apply drain_states_snoc|done].
    + exists st', ds. rewrite app_nil_r. by split_and!.
Qed.

(** *** A drain moves *)

Lemma run_drain_ok y id N i s p c n' l' dr u rest :
  sys_ok y -> sys_insts y !! id = Some N -> drains N !! i = Some (s, p) ->
  run_one cfg budget id c (sys_now y) false p N (sys_store y) = Some (n', l', dr, u, rest) ->
  sys_ok {| sys_now := sys_now y; sys_store := l'; sys_insts := <[id := {| node := n'; ops := ops N;
    drains := take i (drains N) ++ map (pair s) rest ++ drop (S i) (drains N) ++ option_list dr; term_end := u |}]> (sys_insts y) |}.
Proof.
  intros Hy HN Hdi Hrun. pose proof Hy as [Hw Hi]. destruct (Hi _ _ HN) as (Hid & Ht & st & ds & Hd & Hc & Hop).
  rewrite <- (take_drop_middle _ _ _ Hdi) in Hd, Hc.
  apply Forall2_app_inv_l in Hd as (ds1 & ds' & Hd1 & Hd' & ->). apply Forall2_cons_inv_l in Hd' as (d & ds2 & [Hs Hdp] & Hd2 & ->).
  apply (ctl_perm _ _ _ _ _ (drain_states_middle _ _ _ _ _ _ Hd1)) in Hc. cbn [fst] in *.
  assert (Forall2 (drain_at budget) (take i (drains N) ++ drop (S i) (drains N)) (ds1 ++ ds2)) as Hrest by by apply Forall2_app.
  destruct p as [x|B a k]; cbn in Hrun, Hdp.
  - injection Hrun as <- <- <- <- <-. subst d. apply put_ok; [done|done|apply keep_refl|]. split_and!; [done..|].
    exists st, (ds1 ++ ds2). cbn. rewrite app_nil_r. split_and!; [done| |done]. by eapply ctl_drop.
  - destruct (exec _ _ _ _ _ _ _ _ _) as [[[[n1 l1] d1] b]|] eqn:E; [|done]. injection Hrun as <- <- <- <- <-.
    destruct (store_step cfg budget ttl_ok instance_ttl_ok budget_ok a id c _ _ _ _ _ _ _ _ (term_end N) Hw Hid (dact_spec_ok _ _ _ _ Hs Hdp) Ht E) as (Hw' & Hk & Ht').
    destruct (drain_step cfg budget id a c _ _ _ _ _ _ _ (term_end N) st s d _ _ Hc Hdp E) as (-> & d' & Hdp' & Hc').
    apply put_ok; [done..|]. split_and!; [done..|]. cbn [drains term_end node ops map option_list].
    exists st, (ds1 ++ d' :: ds2). rewrite app_nil_r. split_and!; [| |done].
    + apply Forall2_app; [done|]. by constructor.
    + eapply ctl_perm; [symmetry; by apply drain_states_middle|done].
Qed.

Lemma sys_step_ok y ev : sys_ok y -> sys_ok (sys_step cfg budget 1 y ev).
Proof.
  intros Hy. pose proof Hy as [Hw Hi]. destruct ev as [d|id|id o|id i c|id i c|id]; cbn [sys_step].
  - split; cbn; [eapply lwf_later; [|done]; lia|]. intros id N HN. destruct (Hi id N HN) as (? & Ht & ?). split_and!; [done| |done].
    intros s e He. destruct (Ht s e He) as (? & ? & Ho). split_and!; [done|lia|]. intros t Htt. apply Ho. lia.
  - case_bool_decide as Hid; [|done]. case_bool_decide; [|done]. apply put_ok; [done|done|apply keep_refl|].
    split_and!; [done|by intros ??|]. exists {| mid := None; clr := ∅; conf := ∅; stage := 0 |}, []. split_and!; [constructor| |done].
    split; cbn; try done; try set_solver; try lia; [constructor|by intros s [? [=]]].
  - destruct (sys_insts y !! id) as [N|] eqn:HN; [|done]. destruct (_ <? _)%nat eqn:Hlen; [|done]. case_bool_decide as Hn; [|done].
    apply Nat.ltb_lt in Hlen. destruct (Hi _ _ HN) as (Hid & Ht & st & ds & Hd & Hc & Hop).
    destruct (ops N) eqn:Eo; [|cbn in Hlen; lia]. apply put_ok; [done|done|apply keep_refl|]. split_and!; [done..|].
    exists st, ds. cbn. split_and!; [done..|]. by apply op_settled.
  - destruct (sys_insts y !! id) as [N|] eqn:HN; [|done]. destruct (ops N !! i) as [p|] eqn:Hp; [|done].
    destruct (run_one _ _ _ _ _ _ _ _ _) as [[[[[n' l'] dr] u] rest]|] eqn:E; [|done].
    destruct (Hi _ _ HN) as (_ & _ & st & ds & _ & _ & Hop). destruct (ops N) as [|p0 [|]] eqn:Eo; [done| |done].
    destruct i; [|done]. injection Hp as ->. cbn. rewrite app_nil_r. by eapply run_op_ok.
  - destruct (sys_insts y !! id) as [N|] eqn:HN; [|done]. destruct (drains N !! i) as [[s p]|] eqn:Hp; [|done].
    destruct (run_one _ _ _ _ _ _ _ _ _) as [[[[[n' l'] dr] u] rest]|] eqn:E; [|done]. by eapply run_drain_ok.
  - split; cbn; [done|]. intros id' N [_ HN]%lookup_delete_Some. by apply Hi.
Qed.

Lemma sys_run_ok y evs : sys_ok y -> sys_ok (sys_run cfg budget 1 y evs).
Proof. revert y. induction evs as [|ev evs IH]; intros y Hy; [done|]. by apply IH, sys_step_ok. Qed.

(** *** Operations that overlap *)

(** What is left of the invariant when any number of operations of an instance
    run at once: the names it works on are names, and each of its programs may
    go on by itself. It is enough for the leases. *)
Definition names_ok (n : SupplierClaimer) : Prop :=
  (forall s, is_Some (claimed n !! s) -> name_ok s) /\ Forall name_ok (allSuppliers n).

Definition may_go (id : string) (p : prog unit) : Prop := exists st, wp id p st settled.

Definition may_drain (sp : string * prog unit) : Prop := exists d, drain_at budget sp d.

Definition inst_names (now : Z) (l : L) (id : string) (N : Inst) : Prop :=
  name_ok id /\ terms_ok cfg now l id (term_end N) /\ names_ok (node N) /\ Forall (may_go id) (ops N) /\ Forall may_drain (drains N).

Definition sys_names (y : Sys) : Prop :=
  lease_wf (sys_now y) (sys_store y) /\
  forall id N, sys_insts y !! id = Some N -> inst_names (sys_now y) (sys_store y) id N.

Lemma claimedEntries_names c n : names_ok n -> Forall name_ok (claimedEntries c n).*1.
Proof.
  intros [Hcl _]. apply Forall_fmap, Forall_forall. intros [s t] Hin. apply Hcl.
  assert ((s, t) ∈ map_to_list (claimed n)) as Hin'.
  { unfold claimedEntries, permuted in Hin. case_decide as Hp; [by rewrite Hp in Hin|done]. }
  apply elem_of_map_to_list in Hin'. eauto.
Qed.

(** The lists an instance is asked for are of names. *)
Definition ret_ok {B} (a : act B) : B -> Prop :=
  match a in act B return B -> Prop with
  | AClaimedEntries => fun es => Forall name_ok es.*1
  | ASuppliers => fun l => Forall name_ok l
  | _ => fun _ => True
  end.

Lemma act_goes {B} id (a : act B) st Q b : act_spec id a st Q -> ret_ok a b -> exists st', Q b st'.
Proof.
  destruct a; cbn; intros H Hb; destruct_and?; try done; try (by eexists; eauto);
    try (destruct b; by eexists; eauto).
  destruct (decide (b = Ok true)) as [->|]; eauto.
Qed.

(** Whatever the others of its instance did meanwhile, a program goes on. *)
Lemma op_names_step {B} (a : act B) id c now idle n (l : L) n' l' dr b st Q :
  names_ok n -> act_spec id a st Q -> exec cfg budget a id c now idle n l = Some (n', l', dr, b) ->
  names_ok n' /\ ret_ok a b /\ Forall may_drain (option_list dr).
Proof.
  intros Hn HQ E. pose proof Hn as [Hcl Hall].
  assert (n' = n -> dr = None -> ret_ok a b -> names_ok n' /\ ret_ok a b /\ Forall may_drain (option_list dr)) as Hpure.
  { intros -> -> ?. split_and!; [done..|constructor]. }
  destruct a; cbn [exec] in E; cbn [act_spec] in HQ; try done;
    unfold markDraining, unmarkDraining, claimIfAbsent, inRecentReleaseCooldown, renewStalledFor, onSupplierClaimed in E;
    repeat case_match; simplify_eq; try (by apply Hpure); try (by split_and!; [split|..]).
  - split_and!; [|done..]. split; [|done]. cbn. intros s' [<-|[? ?]]%lookup_insert_is_Some; [apply HQ|auto].
  - split_and!; [|done..]. split; [|done]. cbn. intros s' [<-|[? ?]]%lookup_insert_is_Some; [apply HQ|auto].
  - split_and!; [|done..]. split; [|done]. cbn. intros s' [? ?]%lookup_delete_is_Some. auto.
  - split_and!; [done|by apply claimedEntries_names|done].
  - split_and!; [|done..]. split; [done|]. apply HQ.
  - match goal with H : onSupplierReleased _ _ _ = _ |- _ => unfold onSupplierReleased in H end.
    destruct (m_closed n); simplify_eq; [by split_and!|]. split_and!; [done..|].
    repeat constructor. eexists. split; [apply HQ|apply drain_dwp].
Qed.

Lemma drain_names_step {B} (a : act B) id c now n (l : L) n' l' dr b s d Q :
  names_ok n -> dact_spec budget s a d Q -> exec cfg budget a id c now false n l = Some (n', l', dr, b) ->
  names_ok n' /\ dr = None /\ exists d', Q b d'.
Proof.
  intros Hn HQ E. destruct a; cbn [exec] in E; cbn [dact_spec] in HQ; try done; unfold unmarkDraining, setDeadline in E;
    repeat case_match; simplify_eq; (split_and!; [done..|]); destruct_and?; eauto.
Qed.

Lemma inst_names_other now l l' id id' N :
  others_keep cfg now id l l' -> id' <> id -> inst_names now l id' N -> inst_names now l' id' N.
Proof.
  intros Hk Hne (Hid & Ht & Hrest). split; [done|]. split; [|done]. intros s e He. destruct (Ht s e He) as (? & ? & ?).
  split_and!; [done..|]. by apply Hk.
Qed.

Lemma put_names y id N' l' :
  sys_names y -> lease_wf (sys_now y) l' -> others_keep cfg (sys_now y) id (sys_store y) l' -> inst_names (sys_now y) l' id N' ->
  sys_names {| sys_now := sys_now y; sys_store := l'; sys_insts := <[id := N']> (sys_insts y) |}.
Proof.
  intros [_ Hi] Hw Hk HN. split; [done|]. cbn. intros id' N [[<- <-]|[? ?]]%lookup_insert_Some; [done|].
  eapply inst_names_other; eauto.
Qed.

Lemma run_op_names now l id N p c idle n' l' dr u rest :
  lease_wf now l -> inst_names now l id N -> may_go id p ->
  run_one cfg budget id c now idle p N l = Some (n', l', dr, u, rest) ->
  lease_wf now l' /\ others_keep cfg now id l l' /\ terms_ok cfg now l' id u /\ names_ok n' /\
  Forall (may_go id) rest /\ Forall may_drain (option_list dr).
Proof.
  intros Hw (Hid & Ht & Hn & _) [st Hp] E. destruct p as [x|B a k]; cbn in E.
  { simplify_eq. split_and!; [done|apply keep_refl|done|done|constructor..]. }
  destruct (exec _ _ _ _ _ _ _ _ _) as [[[[n1 l1] d1] b]|] eqn:Ex; [|done]. simplify_eq. cbn in Hp.
  destruct (store_step cfg budget ttl_ok instance_ttl_ok budget_ok a id c _ _ _ _ _ _ _ _ (term_end N) Hw Hid (act_spec_ok _ _ _ _ Hp) Ht Ex) as (? & ? & ?).
  destruct (op_names_step a id c _ _ _ _ _ _ _ _ _ _ Hn Hp Ex) as (? & Hb & ?).
  split_and!; [done..| |done]. repeat constructor. exact (act_goes _ _ _ _ _ Hp Hb).
Qed.

Lemma run_drain_names now l id N s p c n' l' dr u rest :
  lease_wf now l -> inst_names now l id N -> may_drain (s, p) ->
  run_one cfg budget id c now false p N l = Some (n', l', dr, u, rest) ->
  lease_wf now l' /\ others_keep cfg now id l l' /\ terms_ok cfg now l' id u /\ names_ok n' /\
  Forall may_drain (map (pair s) rest) /\ dr = None.
Proof.
  intros Hw (Hid & Ht & Hn & _) [d [Hs Hp]] E. cbn [fst snd] in *. destruct p as [x|B a k]; cbn in E.
  { simplify_eq. split_and!; [done|apply keep_refl|done|done|constructor|done]. }
  destruct (exec _ _ _ _ _ _ _ _ _) as [[[[n1 l1] d1] b]|] eqn:Ex; [|done]. simplify_eq. cbn in Hp.
  destruct (store_step cfg budget ttl_ok instance_ttl_ok budget_ok a id c _ _ _ _ _ _ _ _ (term_end N) Hw Hid (dact_spec_ok _ _ _ _ Hs Hp) Ht Ex) as (? & ? & ?).
  destruct (drain_names_step a id c _ _ _ _ _ _ _ _ _ _ Hn Hp Ex) as (? & -> & d' & ?).
  split_and!; [done..| |done]. repeat constructor. by exists d'.
Qed.

Lemma sys_step_names width y ev : sys_names y -> sys_names (sys_step cfg budget width y ev).
Proof.
  intros Hy. pose proof Hy as [Hw Hi]. destruct ev as [d|id|id o|id i c|id i c|id]; cbn [sys_step].
  - split; cbn; [eapply lwf_later; [|done]; lia|]. intros id N HN. destruct (Hi id N HN) as (? & Ht & ?). split; [done|]. split; [|done].
    intros s e He. destruct (Ht s e He) as (? & ? & Ho). split_and!; [done|lia|]. intros t Htt. apply Ho. lia.
  - case_bool_decide as Hid; [|done]. case_bool_decide; [|done]. apply put_names; [done|done|apply keep_refl|].
    split_and!; [done|by intros ??| |constructor..]. split; cbn; [by intros s [? [=]]|constructor].
  - destruct (sys_insts y !! id) as [N|] eqn:HN; [|done]. destruct (_ <? _)%nat; [|done]. case_bool_decide as Hn; [|done].
    destruct (Hi _ _ HN) as (Hid & Ht & Hnm & Ho & Hd). apply put_names; [done|done|apply keep_refl|]. split_and!; [done..| |done].
    apply Forall_app_2; [done|]. repeat constructor. exists {| mid := None; clr := ∅; conf := ∅; stage := 0 |}. by apply op_settled.
  - destruct (sys_insts y !! id) as [N|] eqn:HN; [|done]. destruct (ops N !! i) as [p|] eqn:Hp; [|done].
    destruct (run_one _ _ _ _ _ _ _ _ _) as [[[[[n' l'] dr] u] rest]|] eqn:E; [|done].
    pose proof (Hi _ _ HN) as HI. pose proof HI as (Hid & _ & _ & Ho & Hd).
    destruct (run_op_names _ _ _ _ _ _ _ _ _ _ _ _ Hw HI (Forall_lookup_1 _ _ _ _ Ho Hp) E) as (? & ? & ? & ? & ? & ?).
    apply put_names; [done..|]. split_and!; [done..| |by apply Forall_app_2].
    apply Forall_app_2; [by apply Forall_take|]. apply Forall_app_2; [done|by apply Forall_drop].
  - destruct (sys_insts y !! id) as [N|] eqn:HN; [|done]. destruct (drains N !! i) as [[s p]|] eqn:Hp; [|done].
    destruct (run_one _ _ _ _ _ _ _ _ _) as [[[[[n' l'] dr] u] rest]|] eqn:E; [|done].
    pose proof (Hi _ _ HN) as HI. pose proof HI as (Hid & _ & _ & Ho & Hd).
    destruct (run_drain_names _ _ _ _ _ _ _ _ _ _ _ _ Hw HI (Forall_lookup_1 _ _ _ _ Hd Hp) E) as (? & ? & ? & ? & ? & ->).
    apply put_names; [done..|]. split_and!; [done..|]. cbn [drains option_list]. rewrite app_nil_r.
    apply Forall_app_2; [by apply Forall_take|]. apply Forall_app_2; [done|by apply Forall_drop].
  - split; cbn; [done|]. intros id' N [_ HN]%lookup_delete_Some. by apply Hi.
Qed.

Lemma sys_run_names width y evs : sys_names y -> sys_names (sys_run cfg budget width y evs).
Proof. revert y. induction evs as [|ev evs IH]; intros y Hy; [done|]. by apply IH, sys_step_names. Qed.

(** Two terms of one supplier do not run together. *)
Lemma terms_apart y i j s ei ej :
  (forall id e, own_until y id s e -> forall t, sys_now y <= t < e -> lease_at (sys_store y) s t = Some id) ->
  i <> j -> own_until y i s ei -> own_until y j s ej -> ei <= sys_now y \/ ej <= sys_now y.
Proof.
  intros Ho Hne Hi Hj. destruct (Z.le_gt_cases ei (sys_now y)); [by left|]. right.
  destruct (Z.le_gt_cases ej (sys_now y)); [done|]. pose proof (Ho i ei Hi (sys_now y)). pose proof (Ho j ej Hj (sys_now y)). naive_solver lia.
Qed.

Lemma writes_known y id s : sys_ok y -> writes y id s ->
  exists e, own_until y id s e /\ forall t, sys_now y <= t < e -> lease_at (sys_store y) s t = Some id.
Proof.
  intros [_ Hi] (N & HN & Hs). destruct (Hi _ _ HN) as (_ & Ht & st & ds & _ & Hc & _).
  destruct (ctl_term _ _ _ _ Hc s Hs) as [e He]. exists e. split; [by exists N|]. by destruct (Ht s e He) as (_ & _ & ?).
Qed.

(** C7. A supplier has one writer. In every run of any number of instances over
    one lease store, drains, peers, lost replies, time and crashes interleaved
    between any two actions. However many operations of each instance run at
    once (the heartbeat, renew and rebalance loops, reconciles, releases): the
    lease of a supplier an instance got and has not given up since is its own up
    to the end of the term it got, so the terms of two instances of one supplier
    never run together. When the operations of each instance run one at a time,
    its drains apart: an instance that has a consume loop of a supplier, running
    or being torn down, has such a term; so of two instances with a loop of one
    supplier, one has let its term run out; and no instance has two loops of a
    supplier. The loops of the code are goroutines, so that condition is one on
    their schedule, and overlap_two_loops below shows what a renewal that
    overlaps a release can do without it. *)
Theorem supplier_exclusive l0 t0 evs :
  lease_wf t0 l0 ->
  let start := {| sys_now := t0; sys_store := l0; sys_insts := ∅ |} in
  (forall width, let y := sys_run cfg budget width start evs in
     (forall id s e, own_until y id s e -> forall t, sys_now y <= t < e -> lease_at (sys_store y) s t = Some id) /\
     (forall i j s ei ej, i <> j -> own_until y i s ei -> own_until y j s ej -> ei <= sys_now y \/ ej <= sys_now y)) /\
  let y := sys_run cfg budget 1 start evs in
  (forall id s, writes y id s ->
     exists e, own_until y id s e /\ forall t, sys_now y <= t < e -> lease_at (sys_store y) s t = Some id) /\
  (forall i j s, i <> j -> writes y i s -> writes y j s ->
     exists ei ej, own_until y i s ei /\ own_until y j s ej /\ (ei <= sys_now y \/ ej <= sys_now y)) /\
  (forall id N s, sys_insts y !! id = Some N -> s ∈ suppliers (node N) -> s ∉ stopping (node N)).
Proof.
  intros Hw start.
  assert (forall width, let y := sys_run cfg budget width start evs in
     forall id s e, own_until y id s e -> forall t, sys_now y <= t < e -> lease_at (sys_store y) s t = Some id) as Hown.
  { intros width y. assert (sys_names y) as Hy by (apply sys_run_names; split; [done|]; by intros ?? [=]).
    intros id s e (N & HN & He). destruct Hy as [_ Hi]. destruct (Hi _ _ HN) as (_ & Ht & _). by destruct (Ht s e He) as (_ & _ & ?). }
  split. { intros width y. split; [by apply Hown|]. intros i j s ei ej. apply terms_apart. intros id e. by apply Hown. }
  intros y. assert (sys_ok y) as Hy by (apply sys_run_ok; split; [done|]; by intros ?? [=]). split_and!.
  - intros id s. by apply writes_known.
  - intros i j s Hne Hwi Hwj. destruct (writes_known _ _ _ Hy Hwi) as (ei & ? & _). destruct (writes_known _ _ _ Hy Hwj) as (ej & ? & _).
    exists ei, ej. split_and!; [done..|]. apply (terms_apart y i j s); try done. intros id e. by apply Hown.
  - intros id N s HN Hs Hs'. destruct Hy as [_ Hi]. destruct (Hi _ _ HN) as (_ & _ & st & ds & _ & Hc & _).
    assert (s ∈ live (drain_states (drains N) ds)) as Hl by (apply elem_of_live; exists DWriting; split; [by eapply ctl_stop|done]).
    destruct (ctl_run _ _ _ _ Hc s Hs) as [E|E]; [destruct (ctl_live _ _ _ _ Hc s Hl); congruence|].
    by destruct (ctl_mid _ _ _ _ Hc s E).
Qed.
End System.

(** ** Runs *)

Module ClaimerExample.
Definition cfg : SupplierClaimerConfig :=
  claimerConfig {| cfg_ClaimTTL := 0; cfg_RenewRate := 0; cfg_InstanceTTL := 0; cfg_InstanceHeartbeatRate := 0; cfg_RebalanceInterval := 0 |}.
Definition budget : Z := drainLeaseBudget (5 * second).
Abbreviation store := (RedisLeases (NewKeyBuilder "")).
Definition l0 : TimedMap := ∅.
Definition at_clock (t : Z) : Choice := {| c_fault := FNone; c_clock := t; c_started := true; c_order := fun l => l |}.
Definition lost (t : Z) : Choice := {| c_fault := FLost false; c_clock := t; c_started := true; c_order := fun l => l |}.
Abbreviation run width evs :=
  (sys_run (LO := store) cfg budget width {| sys_now := 0; sys_store := l0; sys_insts := ∅ |} evs).
Definition go (id : string) (n : nat) (c : Choice) : list event := repeat (Run id 0 c) n.

(** Two instances; the first stops renewing, and the second takes over when the
    lease has run out. *)
Definition takeover : list event :=
  [Boot "a"; Boot "b"; Begin "a" (OpStart ["s1"])] ++ go "a" 14 (at_clock 0) ++
  [Time 90000; Begin "b" (OpStart ["s1"])] ++ go "b" 14 (at_clock 0).

Lemma takeover_wf : lease_wf (LeaseOps := store) 0 l0.
Proof. split_and!; [by intros ? _ ?? _|by intros ? _ ?? _|]. by exists None. Defined.

Lemma supplier_exclusive_witness :
  writes (run 1 takeover) "a" "s1" /\ writes (run 1 takeover) "b" "s1" /\
  exists ei ej, own_until (run 1 takeover) "a" "s1" ei /\ own_until (run 1 takeover) "b" "s1" ej /\
    (ei <= sys_now (run 1 takeover) \/ ej <= sys_now (run 1 takeover)).
Proof.
  assert (writes (run 1 takeover) "a" "s1") as Ha by (vm_compute; eexists; split; [reflexivity|left; reflexivity]).
  assert (writes (run 1 takeover) "b" "s1") as Hb by (vm_compute; eexists; split; [reflexivity|left; reflexivity]).
  split; [exact Ha|]. split; [exact Hb|].
  assert (10 ^ 9 <= cfg_ClaimTTL cfg) as H1 by (vm_compute; discriminate).
  assert (10 ^ 9 <= cfg_InstanceTTL cfg) as H2 by (vm_compute; discriminate).
  assert (10 ^ 9 <= budget) as H3 by (vm_compute; discriminate).
  destruct (supplier_exclusive (LL := RedisLeases_laws (NewKeyBuilder "") eq_refl) cfg budget H1 H2 H3 l0 0 takeover takeover_wf) as (_ & _ & H & _).
  apply (H "a" "b" "s1"); [discriminate|exact Ha|exact Hb].
Defined.

Definition started : list event := [Boot "a"; Begin "a" (OpStart ["s1"])] ++ go "a" 14 (at_clock 0).

(** The one-at-a-time condition is needed. A renewal that finds the lease
    expired passes the draining check of TryClaim; a release of the supplier
    runs on another goroutine; the renewal takes the free key and starts the
    supplier again. The instance then has two loops of it at once, and the drain
    of the first ends by deleting the lease of the second. *)
Definition overlapping : list event :=
  started ++ [Time 90000; Begin "a" OpRenew] ++ go "a" 5 (at_clock 0) ++
  [Begin "a" (OpRelease "s1" triggerRebalanceRelease)] ++ repeat (Run "a" 1 (at_clock 0)) 6 ++ go "a" 4 (at_clock 0).
Definition drained : list event := overlapping ++ repeat (RunDrain "a" 0 (at_clock 0)) 6.

Lemma overlap_two_loops :
  (exists N, sys_insts (run 2 overlapping) !! "a" = Some N /\ "s1" ∈ suppliers (node N) /\ "s1" ∈ stopping (node N)) /\
  writes (run 2 drained) "a" "s1" /\ lease_at (LeaseOps := store) (sys_store (run 2 drained)) "s1" (sys_now (run 2 drained)) = None.
Proof.
  split; [|split; [|by vm_compute]].
  - vm_compute. eexists. split; [reflexivity|]. by split.
  - vm_compute. eexists. split; [reflexivity|]. by left.
Qed.

(** A release keeps the record of the last renewal and a claim does not set it:
    a supplier released and taken back an hour later is given up as stalled by
    the first renewal whose read fails, ten seconds after the lease was taken. *)
Definition stale : list event :=
  started ++ [Begin "a" OpRenew] ++ go "a" 7 (at_clock 0) ++
  [Begin "a" (OpRelease "s1" triggerRebalanceRelease)] ++ go "a" 6 (at_clock 0) ++ repeat (RunDrain "a" 0 (at_clock 0)) 7 ++
  [Time 3600000; Begin "a" OpRebalance] ++ go "a" 17 (at_clock (3600 * second)).
Definition stale_lost : list event :=
  stale ++ [Time 10000; Begin "a" OpRenew] ++ go "a" 2 (at_clock (3610 * second)) ++ go "a" 1 (lost 0) ++ go "a" 3 (at_clock (3610 * second)).

Lemma reclaimed_then_lost :
  (exists N, sys_insts (run 1 stale) !! "a" = Some N /\ ops N = [] /\ claimed (node N) !! "s1" = Some (3600 * second) /\
     lastRenewedAt (node N) !! "s1" = Some 0) /\
  (exists N d, sys_insts (run 1 stale_lost) !! "a" = Some N /\ claimed (node N) !! "s1" = None /\
     draining (node N) !! "s1" = Some d /\ dl_trigger d = Some triggerRenewStalled).
Proof.
  split.
  - vm_compute. eexists. split; [reflexivity|]. by split_and!.
  - vm_compute. eexists _, _. split; [reflexivity|]. by split_and!.
Qed.
End ClaimerExample.
