(* ===== verification/BatchingPublisher.v ===== *)
(** * The batching publisher (transport/redis/batching_publisher.go)

    Relays are queued by Publish and written by one dispatcher in chunks, a
    MULTI/EXEC each, with several writes in flight. The queue is an array with a
    head; a dispatch takes chunks and the ledger's charges, hands them to write
    slots, and puts back what was not written. [Reply] is what go-redis reports
    for one command of the EXEC, so a run of the publisher is a function of the
    replies. [bevent] are the points the publisher's goroutines meet at: a
    Publish, a turn of the dispatch loop, a write that is answered. Contexts are
    reduced to whether they are cancelled, the worker pool to whether it ran the
    write. The settling of one write's charges is one step: a worker that panics
    does so inside the client call, before any of its charges is settled. Of the
    metrics, the relays counted as published, discarded and abandoned are kept. *)

From stdpp Require Import sorting numbers.
From S2P Require Import Prelude ChargeLedger MinedRelay.
From Stdlib Require Import Ascii String.

Local Open Scope string_scope.
Local Open Scope list_scope.
Local Open Scope Z_scope.

(** ** Data *)

Definition maxChunkCommands : Z := 256.
Definition maxChunkBytes : Z := 2 ^ 20.
Definition queuedEntryOverheadBytes : Z := 730.

Inductive DiscardReason := discardReasonWrongType | discardReasonAttemptsExhausted.

Record queued := mkQueued {
  q_stream : string;
  q_data : string;
  q_supplier : string;
  q_service : string;
  q_bytes : Z;
  q_attempts : Z;
  q_discardReason : option DiscardReason;
  q_enqueuedAt : Z;
  q_seq : Z
}.

(** A zeroed slot of the array. *)
Definition zeroQueued : queued := mkQueued "" "" "" "" 0 0 None 0 0.

Definition failOnce (q : queued) : queued :=
  mkQueued (q_stream q) (q_data q) (q_supplier q) (q_service q) (q_bytes q) (q_attempts q + 1) (q_discardReason q) (q_enqueuedAt q) (q_seq q).
Definition giveUp (r : DiscardReason) (q : queued) : queued :=
  mkQueued (q_stream q) (q_data q) (q_supplier q) (q_service q) (q_bytes q) (q_attempts q) (Some r) (q_enqueuedAt q) (q_seq q).

(** [ledger] is whether a charge ledger was installed, [inFlight] has one entry
    per write slot, instants are nanoseconds. *)
Record BatchingPublisher := mkBatching {
  bp_queue : list queued;
  bp_head : nat;
  bp_bytes : Z;
  bp_closed : bool;
  bp_ledger : bool;
  bp_enqueued : Z;
  bp_lastSuccess : option Z;
  bp_inFlight : list (option Z)
}.

Definition NewBatchingPublisher (workers : nat) : BatchingPublisher :=
  mkBatching [] 0 0 false false 0 None (replicate workers None).

Definition set_queue (q : list queued) (h : nat) (b : Z) (p : BatchingPublisher) : BatchingPublisher :=
  mkBatching q h b (bp_closed p) (bp_ledger p) (bp_enqueued p) (bp_lastSuccess p) (bp_inFlight p).
Definition set_closed (p : BatchingPublisher) : BatchingPublisher :=
  mkBatching (bp_queue p) (bp_head p) (bp_bytes p) true (bp_ledger p) (bp_enqueued p) (bp_lastSuccess p) (bp_inFlight p).
Definition SetChargeLedger (p : BatchingPublisher) : BatchingPublisher :=
  mkBatching (bp_queue p) (bp_head p) (bp_bytes p) (bp_closed p) true (bp_enqueued p) (bp_lastSuccess p) (bp_inFlight p).
Definition set_slot (slot : nat) (at_ : option Z) (p : BatchingPublisher) : BatchingPublisher :=
  mkBatching (bp_queue p) (bp_head p) (bp_bytes p) (bp_closed p) (bp_ledger p) (bp_enqueued p) (bp_lastSuccess p) (<[slot := at_]> (bp_inFlight p)).
Definition markSuccess (now : Z) (p : BatchingPublisher) : BatchingPublisher :=
  mkBatching (bp_queue p) (bp_head p) (bp_bytes p) (bp_closed p) (bp_ledger p) (bp_enqueued p) (Some now) (bp_inFlight p).

(** What waits to be written: [p.queue[p.head:]]. *)
Definition waiting (p : BatchingPublisher) : list queued := drop (bp_head p) (bp_queue p).

Definition bytes0 (chunk : list queued) : Z := foldr (fun q n => q_bytes q + n) 0 chunk.

(** ** The queue *)

Definition approxBytes (data : string) : Z := slen data + slen data / 8 + queuedEntryOverheadBytes.

(** [Publish] after prepareXAdd answered [prepared]. *)
Definition Publish (now : Z) (supplier service : string) (prepared : result (string * string) Reject) (p : BatchingPublisher)
  : BatchingPublisher * result unit Reject :=
  match prepared with
  | Err reason => (p, Err reason)
  | Ok (stream, data) =>
      if bp_closed p then (p, Err rejectReasonPublisherShut)
      else
        let n := approxBytes data in
        let seq := wrapu64 (bp_enqueued p + 1) in
        (mkBatching (bp_queue p ++ [mkQueued stream data supplier service n 0 None now seq]) (bp_head p) (bp_bytes p + n)
           (bp_closed p) (bp_ledger p) seq (bp_lastSuccess p) (bp_inFlight p), Ok tt)
  end.

Definition QueuedBytes (p : BatchingPublisher) : Z := bp_bytes p.

(** The loop of streamStart, over the prefix from its end. *)
Fixpoint streamStartLoop (last : string) (rprefix : list queued) : nat :=
  match rprefix with
  | [] => 0
  | q :: rest => if String.eqb (q_stream q) last then streamStartLoop last rest else S (List.length rest)
  end.

Definition streamStart (prefix : list queued) : nat :=
  match rev prefix with
  | [] => 0
  | q :: _ => streamStartLoop (q_stream q) (rev prefix)
  end.

(** The loop of takeChunkBefore from index [i], with the bytes so far: the cut,
    whether a limit ended it, the commands and the bytes. The command count is
    the index. *)
Fixpoint chunkLoop (live rest : list queued) (i : nat) (bytes : Z) : nat * bool * Z * Z :=
  match rest with
  | [] => (List.length live, false, Z.of_nat i, bytes)
  | q :: rest =>
      if ((maxChunkCommands <? Z.of_nat i + 1) || (maxChunkBytes <? bytes + q_bytes q)) && (0 <? Z.of_nat i) then
        let cut := streamStart (take i live) in
        ((if (cut =? 0)%nat then i else cut), true, Z.of_nat i, bytes)
      else chunkLoop live rest (S i) (bytes + q_bytes q)
  end.

Definition compactLocked (p : BatchingPublisher) : BatchingPublisher :=
  if (bp_head p =? List.length (bp_queue p))%nat then set_queue [] 0 (bp_bytes p) p
  else if (bp_head p <=? List.length (bp_queue p) / 2)%nat then p
  else set_queue (drop (bp_head p) (bp_queue p)) 0 (bp_bytes p) p.

Definition takeChunkBefore (cutoff : Z) (p : BatchingPublisher) : BatchingPublisher * list queued :=
  let live := waiting p in
  match live with
  | [] => (p, [])
  | first :: _ =>
      let '(cut, full, cmds, bytes) := chunkLoop live live 0 0 in
      let full := full || (maxChunkCommands <=? cmds) || (maxChunkBytes <=? bytes) in
      if negb full && (cutoff <? q_seq first) then (p, [])
      else
        let chunk := take cut live in
        let cleared := take (bp_head p) (bp_queue p) ++ replicate cut zeroQueued ++ drop cut live in
        let p1 := compactLocked (set_queue cleared (bp_head p + cut) (bp_bytes p) p) in
        (set_queue (bp_queue p1) (bp_head p1) (bp_bytes p1 - bytes0 chunk) p1, chunk)
  end.

(** [copy(p.queue[p.head:], chunk)] *)
Definition requeueFront (chunk : list queued) (p : BatchingPublisher) : BatchingPublisher :=
  let n := List.length chunk in
  if (n <=? bp_head p)%nat then
    let h := (bp_head p - n)%nat in
    set_queue (take h (bp_queue p) ++ chunk ++ drop (h + n) (bp_queue p)) h (bp_bytes p + bytes0 chunk) p
  else set_queue (chunk ++ waiting p) 0 (bp_bytes p + bytes0 chunk) p.

Definition drainAbandoned (p : BatchingPublisher) : BatchingPublisher * list queued := (set_queue [] 0 0 p, waiting p).

(** ** Charges by supplier *)

Record chargesBySupplier := mkCharges { cs_order : list string; cs_by : gmap string (list Charge) }.

Definition charges_of (g : chargesBySupplier) (s : string) : list Charge := default [] (cs_by g !! s).

(** The inner loop of attach: charges while two commands are left. *)
Fixpoint popRoom (l : list Charge) (room : Z) : list Charge * list Charge * Z :=
  match l with
  | [] => ([], [], room)
  | c :: l' =>
      if 2 <=? room then let '(out, rest, room') := popRoom l' (room - 2) in (c :: out, rest, room')
      else ([], l, room)
  end.

(** An inner loop that took nothing left the map alone. *)
Definition set_charges (s : string) (l : list Charge) (out : list Charge) (g : chargesBySupplier) : chargesBySupplier :=
  match out with
  | [] => g
  | _ => mkCharges (cs_order g) (<[s := l]> (cs_by g))
  end.

Fixpoint attach (g : chargesBySupplier) (chunk : list queued) (room : Z) : chargesBySupplier * list Charge :=
  match chunk with
  | [] => (g, [])
  | q :: chunk =>
      let '(out, rest, room') := popRoom (charges_of g (q_supplier q)) room in
      let g' := set_charges (q_supplier q) rest out g in
      if room' <? 2 then (g', out)
      else let '(g'', out') := attach g' chunk room' in (g'', out ++ out')
  end.

(** The loops of take; [n] is how many more are wanted. *)
Fixpoint takeFrom (g : chargesBySupplier) (order : list string) (n : nat) : chargesBySupplier * list Charge :=
  match order with
  | [] => (g, [])
  | s :: order =>
      let out := firstn n (charges_of g s) in
      let g' := set_charges s (skipn n (charges_of g s)) out g in
      let '(g'', out') := takeFrom g' order (n - List.length out) in
      (g'', out ++ out')
  end.

Definition takeCharges (g : chargesBySupplier) (n : nat) : chargesBySupplier * list Charge := takeFrom g (cs_order g) n.

Definition addCharge (g : chargesBySupplier) (c : Charge) : chargesBySupplier :=
  mkCharges (match cs_by g !! ch_Supplier c with Some _ => cs_order g | None => cs_order g ++ [ch_Supplier c] end)
    (<[ch_Supplier c := charges_of g (ch_Supplier c) ++ [c]]> (cs_by g)).

Definition addCharges (g : chargesBySupplier) (more : list Charge) : chargesBySupplier := foldl addCharge g more.

Definition groupCharges (all : list Charge) : chargesBySupplier := addCharges (mkCharges [] ∅) all.

Definition all_charges (g : chargesBySupplier) : list Charge := List.concat (map_to_list (cs_by g)).*2.

(** The number rest passes to take is more than there can be charges. *)
Definition restCharges (g : chargesBySupplier) : chargesBySupplier * list Charge := takeCharges g (List.length (all_charges g)).

(** ** Writing a chunk *)

Inductive Reply :=
| ROk (v : Z)
| RNil
| RWrongType
| ROOM
| RErr
| RTransport.

#[export] Instance Reply_eq_dec : EqDecision Reply.
Proof. solve_decision. Defined.

Inductive WErr := errStoreOutOfMemory | errDispatchWorkerStopped | errIncr | errXAdd.

#[export] Instance WErr_eq_dec : EqDecision WErr.
Proof. solve_decision. Defined.

Definition transportFailure (r : Reply) : bool := match r with RTransport => true | _ => false end.
Definition IsWrongTypeError (r : Reply) : bool := match r with RWrongType => true | _ => false end.
Definition IsOOMError (r : Reply) : bool := match r with ROOM => true | _ => false end.

Definition chunkRefusedForMemory (xadds incrs : list Reply) : bool := existsb IsOOMError xadds || existsb IsOOMError incrs.

(** What the last loop of writeChunk sorts the chunk into. *)
Record written_chunk := mkWritten { wc_published : list queued; wc_retry : list queued; wc_discard : list queued; wc_err : option WErr }.

Definition xaddFailed (r : Reply) : bool := match r with ROk _ | RNil => false | _ => true end.

(** One command of it: published, to retry, to discard. *)
Definition xaddOne (q : queued) (r : Reply) : list queued * list queued * list queued :=
  if xaddFailed r then
    let entry := failOnce q in
    if IsWrongTypeError r then ([], [], [giveUp discardReasonWrongType entry])
    else if maxPublishAttempts <=? q_attempts entry then ([], [], [giveUp discardReasonAttemptsExhausted entry])
    else ([], [entry], [])
  else ([q], [], []).

Fixpoint xaddLoop (cmds : list (queued * Reply)) (firstErr : option WErr) : written_chunk :=
  match cmds with
  | [] => mkWritten [] [] [] firstErr
  | (q, r) :: cmds =>
      let '(published, retry, discard) := xaddOne q r in
      let firstErr := match firstErr with None => if xaddFailed r then Some errXAdd else None | e => e end in
      let w := xaddLoop cmds firstErr in
      mkWritten (published ++ wc_published w) (retry ++ wc_retry w) (discard ++ wc_discard w) (wc_err w)
  end.

Section Dispatch.
Context {W : Type} (onLedger : (ChargeLedger -> ChargeLedger) -> W -> W) (written : option (string -> Z -> Z -> W -> W)).

Definition forgetAll (charges : list Charge) (w : W) : W := foldl (fun w c => onLedger (forget c) w) w charges.
Definition putBack (charges : list Charge) (w : W) : W := foldl (fun w c => onLedger (untake c) w) w charges.

(** The loop over the charges: the world, whether Redis answered and the error. *)
Fixpoint chargeReplies (cmds : list (Charge * Reply)) (w : W) (answered : bool) (err : option WErr) : W * bool * option WErr :=
  match cmds with
  | [] => (w, answered, err)
  | (c, r) :: cmds =>
      match r with
      | ROk v => chargeReplies cmds (commit onLedger written c v w) true err
      | RTransport => chargeReplies cmds (onLedger (forget c) w) answered (match err with None => Some errIncr | e => e end)
      | _ => chargeReplies cmds (onLedger (fun l => fst (retry c l)) w) true err
      end
  end.

(** [writeChunk]: the world, whether Redis answered, and what became of the
    chunk. [xr] and [ir] are the replies to its XADDs and INCRBYs. *)
Definition writeChunk (xr ir : nat -> Reply) (chunk : list queued) (charges : list Charge) (w : W) : W * bool * written_chunk :=
  let cmds := imap (fun i q => (q, xr i)) chunk in
  let incrs := imap (fun i c => (c, ir i)) charges in
  if chunkRefusedForMemory (map snd cmds) (map snd incrs) then
    (putBack charges w, false, mkWritten [] chunk [] (Some errStoreOutOfMemory))
  else
    let answered := existsb (fun r => negb (transportFailure r)) (map snd cmds) in
    let '(w', answered, err) := chargeReplies incrs w answered None in
    (w', answered, xaddLoop cmds err).

(** ** A dispatch *)

Record dispatchJob := mkJob {
  jb_chunk : list queued;
  jb_charges : list Charge;
  jb_retry : list queued;
  jb_discard : list queued;
  jb_err : option WErr;
  jb_started : bool;
  jb_slot : nat;
  jb_startedAt : Z;
  jb_order : nat
}.

Definition job_done (started : bool) (retry discard : list queued) (err : option WErr) (j : dispatchJob) : dispatchJob :=
  mkJob (jb_chunk j) (jb_charges j) retry discard err started (jb_slot j) (jb_startedAt j) (jb_order j).

(** [drain], with the local variables of dispatchAll: the jobs the pool runs,
    those on the results channel, the free slots and the failed jobs. [ledger]
    is the snapshot taken when the dispatch began. *)
Record drain := mkDrain {
  dr_cutoff : Z;
  dr_tookAt : Z;
  dr_charges : chargesBySupplier;
  dr_leftover : chargesBySupplier;
  dr_ledger : bool;
  dr_running : list dispatchJob;
  dr_results : list dispatchJob;
  dr_free : list nat;
  dr_failed : list dispatchJob;
  dr_taken : nat
}.

Definition set_books (tookAt : Z) (charges leftover : chargesBySupplier) (d : drain) : drain :=
  mkDrain (dr_cutoff d) tookAt charges leftover (dr_ledger d) (dr_running d) (dr_results d) (dr_free d) (dr_failed d) (dr_taken d).
Definition set_jobs (running results : list dispatchJob) (free : list nat) (failed : list dispatchJob) (taken : nat) (d : drain) : drain :=
  mkDrain (dr_cutoff d) (dr_tookAt d) (dr_charges d) (dr_leftover d) (dr_ledger d) running results free failed taken.

(** ** One iteration of dispatchAll *)

Context (lw : W -> ChargeLedger) (workers : nat) (interval : Z).

Definition takeLedger (w : W) : W * list Charge := (onLedger (fun l => fst (takeAll l)) w, snd (takeAll (lw w))).

(** The slots of a dispatch that begins, the last one first out. *)
Definition allFree : list nat := rev (seq 0 workers).

(** dispatchAll up to its loop. *)
Definition beginDrain (now : Z) (p : BatchingPublisher) (w : W) : drain * W :=
  let '(w', taken) := if bp_ledger p then takeLedger w else (w, []) in
  (mkDrain (bp_enqueued p) now (addCharges (groupCharges []) taken) (groupCharges []) (bp_ledger p) [] [] allFree [] 0, w').

Definition newJob (chunk : list queued) (charges : list Charge) : dispatchJob := mkJob chunk charges [] [] None false 0 0 0.

Definition nextJob (now : Z) (d : drain) (p : BatchingPublisher) (w : W) : drain * BatchingPublisher * W * option dispatchJob :=
  let '(leftover, part) := takeCharges (dr_leftover d) 128 in
  let d := set_books (dr_tookAt d) (dr_charges d) leftover d in
  match part with
  | _ :: _ => (d, p, w, Some (newJob [] part))
  | [] =>
      let '(p, chunk) := takeChunkBefore (dr_cutoff d) p in
      match chunk with
      | [] => (d, p, w, None)
      | _ =>
          let '(d, w) :=
            if dr_ledger d && (interval <=? now - dr_tookAt d) then
              let '(charges, rest) := restCharges (dr_charges d) in
              let '(w, taken) := takeLedger w in
              (set_books now (addCharges charges taken) (addCharges (dr_leftover d) rest) d, w)
            else (d, w) in
          let '(charges, ride) := attach (dr_charges d) chunk (maxChunkCommands - Z.of_nat (List.length chunk)) in
          (set_books (dr_tookAt d) charges (dr_leftover d) d, p, w, Some (newJob chunk ride))
      end
  end.

(** [startWrite] of a job in [slot]; a stopped pool reports it unwritten at once. *)
Definition startWrite (now : Z) (poolStopped : bool) (slot : nat) (job : dispatchJob) (d : drain) (p : BatchingPublisher)
  : drain * BatchingPublisher :=
  let job := mkJob (jb_chunk job) (jb_charges job) (jb_chunk job) (jb_discard job) (Some errDispatchWorkerStopped) false slot now (dr_taken d) in
  let free := removelast (dr_free d) in
  ((if poolStopped
    then set_jobs (dr_running d) (dr_results d ++ [job]) free (dr_failed d) (S (dr_taken d)) d
    else set_jobs (dr_running d ++ [job]) (dr_results d) free (dr_failed d) (S (dr_taken d)) d),
   set_slot slot (Some now) p).

(** [finishWrite], with what it records as discarded. *)
Definition finishWrite (job : dispatchJob) (p : BatchingPublisher) (w : W) : BatchingPublisher * W * list queued :=
  let w :=
    match jb_err job with
    | Some errDispatchWorkerStopped => if jb_started job then forgetAll (jb_charges job) w else putBack (jb_charges job) w
    | _ => w
    end in
  (set_slot (jb_slot job) None p, w, jb_discard job).

(** [slices.SortFunc] on distinct orders, the last taken first. *)
Definition takenAfter (a b : dispatchJob) : Prop := (jb_order b <= jb_order a)%nat.
#[local] Instance takenAfter_dec a b : Decision (takenAfter a b).
Proof. unfold takenAfter. apply _. Defined.
Definition sortFailed (failed : list dispatchJob) : list dispatchJob := merge_sort takenAfter failed.

Definition requeueFailed (failed : list dispatchJob) (p : BatchingPublisher) : BatchingPublisher :=
  foldl (fun p job => match jb_retry job with [] => p | retry => requeueFront retry p end) p (sortFailed failed).

(** The deferred loop of dispatchAll. *)
Definition endDrain (d : drain) (w : W) : W := putBack (snd (restCharges (dr_leftover d)) ++ snd (restCharges (dr_charges d))) w.

(** ** The publisher's goroutines *)

(** Where the dispatcher is: in run's select, at the head of the inner loop of
    dispatchAll, about to receive from results, or writing charges alone. *)
Inductive phase := Idle | Pump (d : drain) | Wait (d : drain) | ChargesOnly (d : drain).

(** run's loop: dispatching, in its final flush, ended. *)
Inductive runLoop := LRun | LFlush | LDone.

Record publisher := mkPublisher {
  pb_pub : BatchingPublisher;
  pb_world : W;
  pb_phase : phase;
  pb_loop : runLoop;
  pb_published : list queued;
  pb_discarded : list queued;
  pb_abandoned : list queued
}.

Definition publisher_0 (w : W) : publisher := mkPublisher (NewBatchingPublisher workers) w Idle LRun [] [] [].

Definition set_pub (p : BatchingPublisher) (s : publisher) : publisher :=
  mkPublisher p (pb_world s) (pb_phase s) (pb_loop s) (pb_published s) (pb_discarded s) (pb_abandoned s).
Definition set_world (w : W) (s : publisher) : publisher :=
  mkPublisher (pb_pub s) w (pb_phase s) (pb_loop s) (pb_published s) (pb_discarded s) (pb_abandoned s).
Definition set_phase (ph : phase) (s : publisher) : publisher :=
  mkPublisher (pb_pub s) (pb_world s) ph (pb_loop s) (pb_published s) (pb_discarded s) (pb_abandoned s).
Definition add_published (l : list queued) (s : publisher) : publisher :=
  mkPublisher (pb_pub s) (pb_world s) (pb_phase s) (pb_loop s) (pb_published s ++ l) (pb_discarded s) (pb_abandoned s).
Definition add_discarded (l : list queued) (s : publisher) : publisher :=
  mkPublisher (pb_pub s) (pb_world s) (pb_phase s) (pb_loop s) (pb_published s) (pb_discarded s ++ l) (pb_abandoned s).
Definition set_loop (lp : runLoop) (s : publisher) : publisher :=
  mkPublisher (pb_pub s) (pb_world s) (pb_phase s) lp (pb_published s) (pb_discarded s) (pb_abandoned s).

(** dispatchAll returns: the flush was the loop's last dispatch. *)
Definition returned (s : publisher) : publisher :=
  set_phase Idle (set_loop (match pb_loop s with LRun => LRun | _ => LDone end) s).

(** dispatchAll returns after its defer. *)
Definition leave (d : drain) (s : publisher) : publisher := returned (set_world (endDrain d (pb_world s)) s).

Definition beginDispatch (operable : bool) (now : Z) (s : publisher) : publisher :=
  if operable then
    let '(d, w) := beginDrain now (pb_pub s) (pb_world s) in set_phase (Pump d) (set_world w s)
  else returned s.

(** One round of the inner loop. *)
Definition pumpOnce (cancelled poolStopped : bool) (now : Z) (d : drain) (s : publisher) : publisher :=
  match dr_failed d, last (dr_free d), cancelled with
  | [], Some slot, false =>
      let '(d, p, w, job) := nextJob now d (pb_pub s) (pb_world s) in
      match job with
      | None => set_phase (Wait d) (set_world w (set_pub p s))
      | Some job =>
          let '(d, p) := startWrite now poolStopped slot job d p in
          set_phase (Pump d) (set_world w (set_pub p s))
      end
  | _, _, _ => set_phase (Wait d) s
  end.

(** After the inner loop: with every slot free the loop ends, otherwise the next
    result is received; [None] while the channel is empty. *)
Definition waitOnce (cancelled : bool) (d : drain) (s : publisher) : option publisher :=
  if (List.length (dr_free d) =? workers)%nat then
    match dr_failed d with
    | _ :: _ => Some (leave d (set_pub (requeueFailed (dr_failed d) (pb_pub s)) s))
    | [] =>
        if cancelled then Some (leave d s)
        else
          let '(leftover, rest) := restCharges (dr_leftover d) in
          Some (set_phase (ChargesOnly (set_books (dr_tookAt d) (addCharges (dr_charges d) rest) leftover d)) s)
    end
  else
    match dr_results d with
    | [] => None
    | job :: results =>
        let '(p, w, discarded) := finishWrite job (pb_pub s) (pb_world s) in
        let failed := match jb_err job with Some _ => dr_failed d ++ [job] | None => dr_failed d end in
        let d := set_jobs (dr_running d) results (dr_free d ++ [jb_slot job]) failed (dr_taken d) d in
        Some (set_phase (Pump d) (add_discarded discarded (set_world w (set_pub p s))))
    end.

(** A write the pool ran is answered: the [i]th running job reports. *)
Definition answerJob (i : nat) (xr ir : nat -> Reply) (now : Z) (d : drain) (s : publisher) : option (drain * publisher) :=
  match dr_running d !! i with
  | None => None
  | Some job =>
      let '(w, answered, wc) := writeChunk xr ir (jb_chunk job) (jb_charges job) (pb_world s) in
      let job := job_done true (wc_retry wc) (wc_discard wc) (wc_err wc) job in
      let p := if answered then markSuccess now (pb_pub s) else pb_pub s in
      Some (set_jobs (delete i (dr_running d)) (dr_results d ++ [job]) (dr_free d) (dr_failed d) (dr_taken d) d,
            add_published (wc_published wc) (set_world w (set_pub p s)))
  end.

(** Its worker panicked inside the client call instead. *)
Definition panicJob (i : nat) (d : drain) : option drain :=
  match dr_running d !! i with
  | None => None
  | Some job =>
      let job := job_done true (jb_retry job) (jb_discard job) (jb_err job) job in
      Some (set_jobs (delete i (dr_running d)) (dr_results d ++ [job]) (dr_free d) (dr_failed d) (dr_taken d) d)
  end.

Definition inLoop (d : drain) (ph : phase) : phase := match ph with Wait _ => Wait d | _ => Pump d end.

(** One round of the loop that writes charges alone. *)
Definition chargesOnce (ir : nat -> Reply) (now : Z) (d : drain) (s : publisher) : publisher :=
  let '(charges, part) := takeCharges (dr_charges d) 128 in
  let d := set_books (dr_tookAt d) charges (dr_leftover d) d in
  match part with
  | [] => leave d s
  | _ =>
      let '(w, answered, wc) := writeChunk (fun _ => RTransport) ir [] part (pb_world s) in
      let p := if answered then markSuccess now (pb_pub s) else pb_pub s in
      let s := set_world w (set_pub p s) in
      match wc_err wc with
      | Some _ => leave d s
      | None => set_phase (ChargesOnly d) s
      end
  end.

Definition Close (p : BatchingPublisher) : BatchingPublisher := set_closed p.

(** What Close does once the loop has ended. *)
Definition abandon (s : publisher) : publisher :=
  let '(p, unwritten) := drainAbandoned (pb_pub s) in
  mkPublisher p (pb_world s) (pb_phase s) (pb_loop s) (pb_published s) (pb_discarded s) (pb_abandoned s ++ unwritten).

Definition oldest (a b : option Z) : option Z :=
  match a, b with
  | Some x, Some y => if y <? x then Some y else Some x
  | None, o => o
  | o, None => o
  end.
Definition oldestInFlight (p : BatchingPublisher) : option Z := foldl oldest None (bp_inFlight p).

Definition isTaken (o : option Z) : bool := match o with Some _ => true | None => false end.
Definition writesInFlight (p : BatchingPublisher) : nat := List.length (List.filter isTaken (bp_inFlight p)).

Definition heartbeat (answered : bool) (now : Z) (p : BatchingPublisher) : BatchingPublisher :=
  if (0 <? writesInFlight p)%nat then p else if answered then markSuccess now p else p.

Inductive bevent :=
| EPublish (now : Z) (supplier service : string) (prepared : result (string * string) Reject)
| ESetLedger
| EServe (key supplier : string) (amount ttl : Z)
| EDrop (key : string)
| EBeat (answered : bool) (now : Z)
| ETick (operable : bool) (now : Z)
| EPump (cancelled poolStopped : bool) (now : Z)
| EWait (cancelled : bool)
| EAnswer (i : nat) (xr ir : nat -> Reply) (now : Z)
| EPanic (i : nat)
| ECharges (ir : nat -> Reply) (now : Z)
| EClose
| EFinalFlush (operable : bool) (now : Z)
| EAbandon.

(** [None] where the goroutine is not at that point. *)
Definition exec_event (e : bevent) (s : publisher) : option publisher :=
  match e, pb_phase s with
  | EPublish now supplier service prepared, _ => Some (set_pub (fst (Publish now supplier service prepared (pb_pub s))) s)
  | ESetLedger, _ => Some (set_pub (SetChargeLedger (pb_pub s)) s)
  | EServe key supplier amount ttl, _ => Some (set_world (onLedger (Add key supplier amount ttl) (pb_world s)) s)
  | EDrop key, _ => Some (set_world (onLedger (Drop key) (pb_world s)) s)
  | EClose, _ => Some (set_pub (Close (pb_pub s)) s)
  | EBeat answered now, Idle =>
      match pb_loop s with LRun => Some (set_pub (heartbeat answered now (pb_pub s)) s) | _ => None end
  | ETick operable now, Idle =>
      match pb_loop s with LRun => Some (beginDispatch operable now s) | _ => None end
  | EFinalFlush operable now, Idle =>
      match pb_loop s, bp_closed (pb_pub s) with LRun, true => Some (beginDispatch operable now (set_loop LFlush s)) | _, _ => None end
  | EAbandon, Idle => match pb_loop s with LDone => Some (abandon s) | _ => None end
  | EPump cancelled poolStopped now, Pump d => Some (pumpOnce cancelled poolStopped now d s)
  | EWait cancelled, Wait d => waitOnce cancelled d s
  | EAnswer i xr ir now, (Pump d | Wait d) as ph =>
      match answerJob i xr ir now d s with Some (d, s) => Some (set_phase (inLoop d ph) s) | None => None end
  | EPanic i, (Pump d | Wait d) as ph =>
      match panicJob i d with Some d => Some (set_phase (inLoop d ph) s) | None => None end
  | ECharges ir now, ChargesOnly d => Some (chargesOnce ir now d s)
  | _, _ => None
  end.

(** What a run assumes of the outside: a charge is positive and its counter
    does not overflow, and fewer than 2^64 relays are accepted. *)
Definition event_ok (e : bevent) (s : publisher) : Prop :=
  match e with
  | EServe key _ amount _ => 0 < amount /\ Pending key (lw (pb_world s)) + amount <= int64_max
  | EPublish _ _ _ _ => bp_enqueued (pb_pub s) < uint64_max
  | _ => True
  end.

Definition pub_step (s s' : publisher) : Prop := exists e, event_ok e s /\ exec_event e s = Some s'.

(** ** Admission *)

Definition heartbeatInterval : Z := 10 ^ 9.
Definition minDispatcherSilence : Z := 10 * 10 ^ 9.
Definition healthyWriteBudget : Z := 10 ^ 9.

(** [poolTimeout] is what the client reports, if it can be asked. *)
Definition dispatcherSilenceBudget (poolTimeout : option Z) : Z :=
  match poolTimeout with
  | None => minDispatcherSilence
  | Some t =>
      let budget := healthyWriteBudget + t + heartbeatInterval in
      if budget <? minDispatcherSilence then minDispatcherSilence else budget
  end.

Inductive Unhealthy := errDispatcherNeverReachedRedis | errDispatcherSilent (age : Z).

Definition DispatcherHealthy (silenceBudget now : Z) (p : BatchingPublisher) : result unit Unhealthy :=
  match bp_lastSuccess p with
  | None => Err errDispatcherNeverReachedRedis
  | Some last =>
      let measuredFrom :=
        match oldestInFlight p with
        | Some since => if since <? last then since else last
        | None => last
        end in
      if silenceBudget <? now - measuredFrom then Err (errDispatcherSilent (now - measuredFrom)) else Ok tt
  end.
End Dispatch.
