(* ===== verification/BatchingQueue.v ===== *)
(** * The batching publisher's queue, charges and writes

    The queue as a sequence: a take removes a prefix, a requeue puts it back in
    front, a publish appends. Charges grouped by supplier are a bag. A write
    sorts its chunk into published, retried and discarded relays and settles
    every charge it carried. *)

From S2P Require Import Prelude ChargeLedger MinedRelay BatchingPublisher.
From Stdlib Require Import Ascii String.

Local Open Scope string_scope.
Local Open Scope list_scope.
Local Open Scope Z_scope.

(** ** The queue *)

Record queue_ok (p : BatchingPublisher) : Prop := {
  qk_head : (bp_head p <= List.length (bp_queue p))%nat;
  qk_bytes : bp_bytes p = bytes0 (waiting p)
}.

(** Operations on the queue leave the rest of the publisher alone. *)
Record same_rest (p p' : BatchingPublisher) : Prop := {
  sr_closed : bp_closed p' = bp_closed p;
  sr_ledger : bp_ledger p' = bp_ledger p;
  sr_enqueued : bp_enqueued p' = bp_enqueued p;
  sr_lastSuccess : bp_lastSuccess p' = bp_lastSuccess p;
  sr_inFlight : bp_inFlight p' = bp_inFlight p
}.

#[export] Instance same_rest_preorder : PreOrder same_rest.
Proof. split; [done|]. intros p q r [] []. split; congruence. Qed.

Lemma bytes0_app a b : bytes0 (a ++ b) = bytes0 a + bytes0 b.
Proof. unfold bytes0. induction a as [|q a IH]; simpl; [done|]. lia. Qed.

Definition sized (q : queued) : Prop := 0 <= q_bytes q.

Lemma bytes0_nonneg l : Forall sized l -> 0 <= bytes0 l.
Proof. induction 1; unfold bytes0, sized in *; simpl; lia. Qed.

Lemma compact_ok p : (bp_head p <= List.length (bp_queue p))%nat ->
  waiting (compactLocked p) = waiting p /\ (bp_head (compactLocked p) <= List.length (bp_queue (compactLocked p)))%nat /\
  bp_bytes (compactLocked p) = bp_bytes p /\ same_rest p (compactLocked p).
Proof.
  intros Hh. unfold compactLocked, waiting. destruct (Nat.eqb_spec (bp_head p) (List.length (bp_queue p))) as [He|He].
  - simpl. rewrite drop_ge by lia. split_and!; [done|lia|done|done].
  - destruct (_ <=? _)%nat; simpl; rewrite ?drop_0; split_and!; try done; lia.
Qed.

(** What a take that returned a chunk saw. *)
Record taken_chunk (p p' : BatchingPublisher) (chunk : list queued) : Prop := {
  tk_waiting : waiting p = chunk ++ waiting p';
  tk_queue : queue_ok p';
  tk_rest : same_rest p p'
}.

Lemma cut_ok p cut : queue_ok p -> (cut <= List.length (waiting p))%nat ->
  let live := waiting p in
  let cleared := take (bp_head p) (bp_queue p) ++ replicate cut zeroQueued ++ drop cut live in
  let p1 := compactLocked (set_queue cleared (bp_head p + cut) (bp_bytes p) p) in
  taken_chunk p (set_queue (bp_queue p1) (bp_head p1) (bp_bytes p1 - bytes0 (take cut live)) p1) (take cut live).
Proof.
  intros [Hh Hb] Hc live cleared. unfold waiting in Hc. rewrite length_drop in Hc.
  assert (List.length (take (bp_head p) (bp_queue p) ++ replicate cut zeroQueued) = (bp_head p + cut)%nat) as Hlen
    by (rewrite length_app, length_take, length_replicate; lia).
  assert (drop (bp_head p + cut) cleared = drop cut live) as Hd.
  { unfold cleared. rewrite app_assoc, <- Hlen. apply drop_app_length. }
  destruct (compact_ok (set_queue cleared (bp_head p + cut) (bp_bytes p) p)) as (H1 & H2 & H3 & H4).
  { simpl. unfold cleared. rewrite app_assoc, length_app, Hlen. lia. }
  intros p1. fold p1 in H1, H2, H3, H4.
  change (waiting (set_queue cleared _ _ _)) with (drop (bp_head p + cut) cleared) in H1. rewrite Hd in H1.
  change (bp_bytes (set_queue cleared _ _ _)) with (bp_bytes p) in H3.
  assert (live = take cut live ++ drop cut live) as Hl by (by rewrite take_drop).
  split.
  - transitivity (take cut live ++ drop cut live); [exact Hl|]. f_equal. by rewrite <- H1.
  - split; [exact H2|]. simpl. change (waiting (set_queue _ _ _ p1)) with (waiting p1). rewrite H1, H3, Hb.
    fold live. rewrite Hl at 1. rewrite bytes0_app. lia.
  - destruct H4. by split.
Qed.

(** ** Cutting a chunk *)

Lemma streamStartLoop_ok s rp :
  (streamStartLoop s rp <= List.length rp)%nat /\
  (forall i q, (streamStartLoop s rp <= i)%nat -> rev rp !! i = Some q -> q_stream q = s) /\
  ((0 < streamStartLoop s rp)%nat -> exists q, rev rp !! (streamStartLoop s rp - 1)%nat = Some q /\ q_stream q <> s).
Proof.
  induction rp as [|q rp (H1 & H2 & H3)]; simpl; [split_and!; [lia|by intros i q _ Hl; rewrite lookup_nil in Hl|lia]|].
  destruct (String.eqb_spec (q_stream q) s) as [He|Hne].
  - split_and!; [lia| |].
    + intros i q' Hi Hl. apply lookup_app_Some in Hl as [Hl|[Hi' Hl]]; [eauto|].
      apply list_lookup_singleton_Some in Hl as [_ <-]. done.
    + intros Hp. destruct (H3 Hp) as (q' & Hl & Hs). exists q'. split; [|done]. by apply lookup_app_l_Some.
  - split_and!; [lia| |].
    + intros i q' Hi Hl. apply lookup_lt_Some in Hl. rewrite length_app, length_rev in Hl. simpl in Hl. lia.
    + intros _. exists q. split; [|done]. replace (S (List.length rp) - 1)%nat with (List.length (rev rp)) by (rewrite length_rev; lia).
      by apply list_lookup_middle.
Qed.

(** The chunk's last stream does not go on in what stays, unless the whole
    chunk is of that stream. *)
Definition stream_kept (live : list queued) (cut : nat) : Prop :=
  forall a b, live !! (cut - 1)%nat = Some a -> live !! cut = Some b ->
  q_stream a <> q_stream b \/ forall i q, (i < cut)%nat -> live !! i = Some q -> q_stream q = q_stream a.

Definition cut_fits (live : list queued) (cut : nat) : Prop :=
  (0 < cut <= List.length live)%nat /\ Z.of_nat cut <= maxChunkCommands /\
  (bytes0 (take cut live) <= maxChunkBytes \/ cut = 1%nat) /\ stream_kept live cut.

Lemma streamStart_cut live i : (0 < i <= List.length live)%nat ->
  (streamStart (take i live) <= i)%nat /\
  let cut := (if (streamStart (take i live) =? 0)%nat then i else streamStart (take i live)) in
  (0 < cut <= i)%nat /\ stream_kept live cut.
Proof.
  intros Hi. assert (List.length (take i live) = i) as Hlen by (rewrite length_take; lia).
  destruct (lookup_lt_is_Some_2 live (i - 1)) as [z Hz]; [lia|].
  assert (streamStart (take i live) = streamStartLoop (q_stream z) (rev (take i live))) as ->.
  { unfold streamStart. replace i with (S (i - 1)) by lia. by rewrite (take_S_r live (i - 1) z), rev_app_distr by done. }
  destruct (streamStartLoop_ok (q_stream z) (rev (take i live))) as (H1 & H2 & H3). rewrite rev_involutive in *.
  rewrite length_rev, Hlen in H1. set (n := streamStartLoop _ _) in *. split; [done|].
  destruct (Nat.eqb_spec n 0) as [Hn|Hn]; (split; [lia|]); intros a b Ha Hb.
  - right. intros j q Hj Hq. assert (a = z) as -> by congruence.
    apply (H2 j); [lia|]. by rewrite lookup_take_lt by lia.
  - left. destruct H3 as (q & Hq & Hs); [lia|]. rewrite lookup_take_lt in Hq by lia. assert (q = a) as -> by congruence.
    destruct (decide (n = i)) as [->|Hni]; [exfalso; congruence|].
    rewrite (H2 n b) by (try lia; by rewrite lookup_take_lt by lia). done.
Qed.

Lemma bytes0_take_le live a b : Forall sized live -> (a <= b)%nat -> bytes0 (take a live) <= bytes0 (take b live).
Proof.
  intros Hs Hab. rewrite <- (take_drop a (take b live)), bytes0_app, take_take, Nat.min_l by lia.
  pose proof (bytes0_nonneg (drop a (take b live)) ltac:(by apply Forall_drop, Forall_take)). lia.
Qed.

Lemma chunkLoop_ok live rest i cut full cmds bytes :
  Forall sized live -> (0 < List.length live)%nat -> drop i live = rest -> (i <= List.length live)%nat ->
  Z.of_nat i <= maxChunkCommands -> (bytes0 (take i live) <= maxChunkBytes \/ (i <= 1)%nat) ->
  chunkLoop live rest i (bytes0 (take i live)) = (cut, full, cmds, bytes) -> cut_fits live cut.
Proof.
  intros Hs Hl0. revert i. induction rest as [|q rest IH]; intros i Hd Hil Hic Hib; simpl.
  - intros [= <- _ _ _]. assert (i = List.length live) as Hi.
    { apply (f_equal (@List.length _)) in Hd. rewrite length_drop in Hd. simpl in Hd. lia. }
    rewrite Hi in *. split_and!; [lia|lia|lia|destruct Hib; [by left|right; lia]|].
    intros a b _ Hb. apply lookup_lt_Some in Hb. lia.
  - assert (live !! i = Some q) as Hq by (rewrite <- (Nat.add_0_r i), <- lookup_drop, Hd; done).
    pose proof (lookup_lt_Some _ _ _ Hq) as Hi.
    assert (bytes0 (take (S i) live) = bytes0 (take i live) + q_bytes q) as Hb.
    { rewrite (take_S_r _ _ _ Hq), bytes0_app. unfold bytes0 at 2. simpl. lia. }
    destruct (_ && _) eqn:Hf; intros Heq.
    + apply andb_true_iff in Hf as [_ Hf]. apply Z.ltb_lt in Hf. injection Heq as <- _ _ _.
      destruct (streamStart_cut live i) as (_ & Hc & Hk); [lia|]. split_and!; [lia|lia|lia| |exact Hk].
      destruct Hib as [Hib|Hib]; [left|right; lia].
      etransitivity; [|exact Hib]. apply bytes0_take_le; [done|lia].
    + rewrite <- Hb in Heq. apply (IH (S i)); [|lia| | |exact Heq].
      * apply drop_S in Hq. rewrite Hd in Hq. congruence.
      * apply andb_false_iff in Hf as [Hf|Hf]; [apply orb_false_iff in Hf as [Hf _]; lia|unfold maxChunkCommands; lia].
      * apply andb_false_iff in Hf as [Hf|Hf]; [apply orb_false_iff in Hf as [_ Hf]; left; lia|right; lia].
Qed.

Lemma takeChunk_ok cutoff p p' chunk :
  queue_ok p -> Forall sized (waiting p) -> takeChunkBefore cutoff p = (p', chunk) ->
  waiting p = chunk ++ waiting p' /\ queue_ok p' /\ same_rest p p' /\
  (chunk <> [] -> cut_fits (waiting p) (List.length chunk)).
Proof.
  intros Hq Hs. unfold takeChunkBefore. destruct (waiting p) as [|first live] eqn:Hw.
  { intros [= <- <-]. rewrite Hw. done. }
  rewrite <- Hw in *. destruct (chunkLoop (waiting p) (waiting p) 0 0) as [[[cut full] cmds] bytes] eqn:Hc.
  apply (chunkLoop_ok (waiting p) (waiting p) 0) in Hc; [|done|rewrite Hw; simpl; lia|done|lia|done|by right; lia].
  destruct (negb _ && _).
  { intros [= <- <-]. done. }
  intros [= <- <-]. pose proof Hc as ((? & Hcl) & _). destruct (cut_ok p cut Hq Hcl) as [H1 H2 H3]. split_and!; [done..|].
  intros _. rewrite length_take, Nat.min_l by done. done.
Qed.

Lemma requeueFront_ok chunk p : queue_ok p ->
  waiting (requeueFront chunk p) = chunk ++ waiting p /\ queue_ok (requeueFront chunk p) /\ same_rest p (requeueFront chunk p).
Proof.
  intros [Hh Hb]. unfold requeueFront. destruct (Nat.leb_spec (List.length chunk) (bp_head p)) as [Hn|Hn].
  - set (h := (bp_head p - List.length chunk)%nat). replace (h + List.length chunk)%nat with (bp_head p) by lia.
    assert (List.length (take h (bp_queue p)) = h) as Hlen by (rewrite length_take; lia).
    assert (drop h (take h (bp_queue p) ++ chunk ++ drop (bp_head p) (bp_queue p)) = chunk ++ waiting p) as Hd.
    { rewrite <- Hlen at 1. by rewrite drop_app_length. }
    split_and!; [exact Hd| |done]. split; simpl; [rewrite length_app, Hlen; lia|].
    unfold waiting at 1. simpl. rewrite Hd, bytes0_app, Hb. lia.
  - split_and!; [done| |done]. split; simpl; [lia|]. unfold waiting at 1. simpl. rewrite drop_0, bytes0_app, Hb. lia.
Qed.

Lemma approxBytes_nonneg data : 0 <= approxBytes data.
Proof. unfold approxBytes, queuedEntryOverheadBytes, slen. pose proof (Z.div_pos (Z.of_nat (String.length data)) 8). lia. Qed.

(** A publish appends one relay with the next number, or changes nothing. *)
Lemma Publish_ok now supplier service prepared p : queue_ok p -> 0 <= bp_enqueued p < uint64_max ->
  let p' := fst (Publish now supplier service prepared p) in
  queue_ok p' /\ bp_inFlight p' = bp_inFlight p /\ bp_closed p' = bp_closed p /\ bp_lastSuccess p' = bp_lastSuccess p /\
  (p' = p \/ exists q, waiting p' = waiting p ++ [q] /\ q_seq q = bp_enqueued p + 1 /\ bp_enqueued p' = bp_enqueued p + 1 /\
     sized q /\ q_attempts q = 0).
Proof.
  intros [Hh Hb] He. unfold Publish. destruct prepared as [[stream data]|]; [|simpl; split_and!; [done..|by left]].
  destruct (bp_closed p) eqn:Hc; simpl; [split_and!; [done..|by left]|].
  rewrite wrapu64_id by (unfold in_uint64 in *; lia).
  assert (forall x, drop (bp_head p) (bp_queue p ++ x) = waiting p ++ x) as Hd by (intros; by rewrite drop_app_le).
  split_and!; [|done..|].
  - split; simpl; [rewrite length_app; lia|]. unfold waiting at 1. simpl. rewrite Hd, bytes0_app, Hb. unfold bytes0 at 3. simpl. lia.
  - right. eexists. split_and!; [exact (Hd _)|done|done|apply approxBytes_nonneg|done].
Qed.

(** ** Charges grouped by supplier *)

(** Every supplier with charges is in the order. *)
Definition charges_wf (g : chargesBySupplier) : Prop := forall s, is_Some (cs_by g !! s) -> s ∈ cs_order g.

Lemma charges_known g s : charges_wf g -> charges_of g s <> [] -> s ∈ cs_order g.
Proof. unfold charges_of. intros Hwf Hs. apply Hwf. destruct (cs_by g !! s); [by eexists|done]. Qed.

Definition elsewhere (s : string) (g : chargesBySupplier) : list Charge := List.concat (map_to_list (delete s (cs_by g))).*2.

Lemma all_split s g : all_charges g ≡ₚ charges_of g s ++ elsewhere s g.
Proof.
  unfold all_charges, elsewhere, charges_of. destruct (cs_by g !! s) as [l|] eqn:Hl; simpl.
  - rewrite <- (insert_delete_id (cs_by g) s l) at 1 by done.
    rewrite (fmap_Permutation snd _ _ (map_to_list_insert (delete s (cs_by g)) s l (lookup_delete_eq _ _))). done.
  - by rewrite delete_id.
Qed.

Lemma all_empty g : (forall s, charges_of g s = []) -> all_charges g = [].
Proof.
  intros H. unfold all_charges. apply concat_nil_Forall, Forall_fmap, Forall_forall. intros [s l] Hin.
  apply elem_of_map_to_list in Hin. specialize (H s). unfold charges_of in H. rewrite Hin in H. done.
Qed.

Lemma set_charges_of s l out g s' : charges_of g s = out ++ l ->
  charges_of (set_charges s l out g) s' = if decide (s = s') then l else charges_of g s'.
Proof.
  intros Hg. unfold set_charges. destruct out as [|c out]; [case_decide; [subst; done|done]|].
  unfold charges_of. simpl. case_decide; [subst; by rewrite lookup_insert_eq|by rewrite lookup_insert_ne].
Qed.

Lemma set_charges_ok s l out g : charges_wf g -> charges_of g s = out ++ l ->
  let g' := set_charges s l out g in
  charges_wf g' /\ all_charges g ≡ₚ out ++ all_charges g' /\ cs_order g' = cs_order g.
Proof.
  intros Hwf Hg g'. assert (cs_order g' = cs_order g) as Ho by (unfold g', set_charges; by destruct out). split_and!; [| |done].
  - intros s'. rewrite Ho. unfold g', set_charges. destruct out as [|c out]; [apply Hwf|]. simpl.
    destruct (decide (s = s')) as [->|Hne]; [|rewrite lookup_insert_ne by done; apply Hwf].
    intros _. apply charges_known; [done|]. by rewrite Hg.
  - assert (elsewhere s g' = elsewhere s g) as He.
    { unfold g', set_charges, elsewhere. destruct out; [done|]. simpl. by rewrite delete_insert_eq. }
    rewrite (all_split s g), (all_split s g'), He, Hg. unfold g'. rewrite set_charges_of, decide_True by done. by rewrite app_assoc.
Qed.

Lemma popRoom_ok l room out rest room' : popRoom l room = (out, rest, room') ->
  l = out ++ rest /\ room' = room - 2 * Z.of_nat (List.length out) /\ (0 <= room -> 0 <= room').
Proof.
  revert room out rest room'. induction l as [|c l IH]; intros room out rest room'; simpl.
  - intros [= <- <- <-]. simpl. split_and!; [done|lia|lia].
  - destruct (Z.leb_spec 2 room); [|intros [= <- <- <-]; simpl; split_and!; [done|lia|lia]].
    destruct (popRoom l (room - 2)) as [[out0 rest0] room0] eqn:Hp. intros [= <- <- <-].
    apply IH in Hp as (-> & -> & Hr). simpl. split_and!; [done|lia|lia].
Qed.

Lemma attach_ok chunk g room g' out : charges_wf g -> 0 <= room -> attach g chunk room = (g', out) ->
  charges_wf g' /\ all_charges g ≡ₚ out ++ all_charges g' /\ 2 * Z.of_nat (List.length out) <= room.
Proof.
  revert g room g' out. induction chunk as [|q chunk IH]; intros g room g' out Hwf Hr; simpl.
  { intros [= <- <-]. simpl. split_and!; [done|done|lia]. }
  destruct (popRoom _ room) as [[out0 rest] room0] eqn:Hp. apply popRoom_ok in Hp as (Hg & -> & Hr').
  destruct (set_charges_ok _ _ _ _ Hwf Hg) as (Hwf0 & Hall & _). destruct (Z.ltb_spec (room - 2 * Z.of_nat (List.length out0)) 2).
  - intros [= <- <-]. split_and!; [done|done|lia].
  - destruct (attach _ chunk _) as [g1 out1] eqn:Ha. intros [= <- <-]. apply IH in Ha as (? & Ha & ?); [|done|lia].
    split_and!; [done|by rewrite Hall, Ha, app_assoc|rewrite length_app; lia].
Qed.

Lemma takeFrom_ok order g n g' out : charges_wf g -> takeFrom g order n = (g', out) ->
  charges_wf g' /\ all_charges g ≡ₚ out ++ all_charges g' /\ (List.length out <= n)%nat /\ cs_order g' = cs_order g /\
  (forall s, charges_of g s = [] -> charges_of g' s = []) /\
  ((List.length (all_charges g) <= n)%nat -> forall s, s ∈ order -> charges_of g' s = []).
Proof.
  revert g n g' out. induction order as [|s order IH]; intros g n g' out Hwf; simpl.
  { intros [= <- <-]. simpl. split_and!; [done|done|lia|done|done|]. intros _ s Hs. by apply not_elem_of_nil in Hs. }
  destruct (takeFrom _ order _) as [g1 out1] eqn:Ht. intros [= <- <-].
  assert (charges_of g s = firstn n (charges_of g s) ++ skipn n (charges_of g s)) as Hg by (by rewrite firstn_skipn).
  destruct (set_charges_ok _ _ _ _ Hwf Hg) as (Hwf0 & Hall & Hord).
  apply IH in Ht as (H1 & H2 & H3 & H4 & H5 & H6); [|done]. pose proof (length_firstn n (charges_of g s)) as Hlen.
  assert (forall s', charges_of g s' = [] -> charges_of (set_charges s (skipn n (charges_of g s)) (firstn n (charges_of g s)) g) s' = []) as Hk.
  { intros s' Hs'. rewrite set_charges_of by done. case_decide; [subst|done]. rewrite Hs'. by destruct n. }
  split_and!; [done|by rewrite Hall, H2, app_assoc|rewrite length_app; lia|congruence|auto|].
  intros Hn s' [->|Hs']%elem_of_cons.
  - apply H5. rewrite set_charges_of, decide_True by done. apply skipn_all2.
    rewrite (all_split s g), length_app in Hn. lia.
  - apply H6; [|done]. rewrite Hall, length_app in Hn. lia.
Qed.

Lemma takeCharges_ok g n g' out : charges_wf g -> takeCharges g n = (g', out) ->
  charges_wf g' /\ all_charges g ≡ₚ out ++ all_charges g' /\ (List.length out <= n)%nat.
Proof. intros Hwf Ht. by apply takeFrom_ok in Ht as (? & ? & ? & _). Qed.

Lemma restCharges_ok g g' out : charges_wf g -> restCharges g = (g', out) ->
  charges_wf g' /\ all_charges g ≡ₚ out /\ all_charges g' = [].
Proof.
  intros Hwf Ht. apply takeFrom_ok in Ht as (H1 & H2 & _ & H4 & H5 & H6); [|done].
  assert (all_charges g' = []) as He.
  { apply all_empty. intros s. destruct (decide (charges_of g s = [])) as [|Hs]; [auto|]. apply H6; [lia|by apply charges_known]. }
  split_and!; [done| |done]. by rewrite He, app_nil_r in H2.
Qed.

Lemma addCharge_ok g c : charges_wf g -> charges_wf (addCharge g c) /\ all_charges (addCharge g c) ≡ₚ c :: all_charges g.
Proof.
  intros Hwf. assert (forall s, charges_of (addCharge g c) s = if decide (ch_Supplier c = s) then charges_of g (ch_Supplier c) ++ [c] else charges_of g s) as Hc.
  { intros s. unfold charges_of, addCharge. simpl. case_decide; [subst; by rewrite lookup_insert_eq|by rewrite lookup_insert_ne]. }
  split.
  - intros s. unfold addCharge. simpl. destruct (decide (ch_Supplier c = s)) as [<-|Hne].
    + intros _. destruct (cs_by g !! ch_Supplier c) eqn:Hl; [|set_solver]. apply Hwf. by eexists.
    + rewrite lookup_insert_ne by done. intros H. apply Hwf in H. case_match; set_solver.
  - assert (elsewhere (ch_Supplier c) (addCharge g c) = elsewhere (ch_Supplier c) g) as He by (unfold elsewhere, addCharge; simpl; by rewrite delete_insert_eq).
    rewrite (all_split (ch_Supplier c) (addCharge g c)), (all_split (ch_Supplier c) g), He, Hc, decide_True by done.
    rewrite <- app_assoc. symmetry. apply Permutation_middle.
Qed.

Lemma addCharges_ok more g : charges_wf g -> charges_wf (addCharges g more) /\ all_charges (addCharges g more) ≡ₚ more ++ all_charges g.
Proof.
  revert g. induction more as [|c more IH]; intros g Hwf; [done|]. destruct (addCharge_ok g c Hwf) as [H1 H2].
  destruct (IH (addCharge g c) H1) as [H3 H4]. split; [exact H3|]. change (all_charges (addCharges (addCharge g c) more) ≡ₚ (c :: more) ++ all_charges g).
  rewrite H4, H2. simpl. symmetry. apply Permutation_middle.
Qed.

Lemma no_charges_wf : charges_wf (mkCharges [] ∅).
Proof. intros s [? H]. simpl in H. by rewrite lookup_empty in H. Qed.

(** ** A write *)

Lemma imap_fst {A B} (g : nat -> B) (l : list A) : map fst (imap (fun i x => (x, g i)) l) = l.
Proof. revert g. induction l as [|x l IH]; intros g; [done|]. simpl. f_equal. exact (IH (g ∘ S)). Qed.

(** A discarded relay cannot be written or failed too often. *)
Definition given_up (q : queued) : Prop :=
  q_discardReason q = Some discardReasonWrongType \/
  q_discardReason q = Some discardReasonAttemptsExhausted /\ maxPublishAttempts <= q_attempts q.

Definition retryable (q : queued) : Prop := sized q /\ q_attempts q < maxPublishAttempts.

(** What a write makes of relays with the numbers [ns]. *)
Record sorted_out (ns : list Z) (published retry discard : list queued) : Prop := {
  so_all : ns ≡ₚ q_seq <$> published ++ retry ++ discard;
  so_retry : sublist (q_seq <$> retry) ns;
  so_retryable : Forall retryable retry;
  so_given_up : Forall given_up discard
}.

Lemma sorted_out_nil : sorted_out [] [] [] [].
Proof. by split. Qed.

Lemma sorted_out_app n1 n2 p1 p2 r1 r2 d1 d2 :
  sorted_out n1 p1 r1 d1 -> sorted_out n2 p2 r2 d2 -> sorted_out (n1 ++ n2) (p1 ++ p2) (r1 ++ r2) (d1 ++ d2).
Proof.
  intros [A1 B1 C1 D1] [A2 B2 C2 D2]. split; [|rewrite fmap_app; by apply sublist_app|by apply Forall_app..].
  rewrite A1, A2, !fmap_app. solve_Permutation.
Qed.

Lemma xaddOne_ok q r published retry discard : retryable q -> xaddOne q r = (published, retry, discard) ->
  sorted_out [q_seq q] published retry discard /\ (xaddFailed r = false -> retry = [] /\ discard = []).
Proof.
  intros [Hs Ha]. unfold xaddOne. destruct (xaddFailed r) eqn:Hf.
  - destruct (IsWrongTypeError r); [|destruct (Z.leb_spec maxPublishAttempts (q_attempts (failOnce q))) as [Hm|Hm]];
      intros [= <- <- <-]; (split; [|done]).
    + split; [done|apply sublist_nil_l|done|]. apply Forall_singleton. by left.
    + split; [done|apply sublist_nil_l|done|]. apply Forall_singleton. right. by split.
    + split; [done|done| |done]. apply Forall_singleton. by split.
  - intros [= <- <- <-]. split; [|done]. split; [done|apply sublist_nil_l|done|done].
Qed.

Lemma xaddLoop_ok cmds e : Forall retryable (map fst cmds) ->
  let w := xaddLoop cmds e in
  sorted_out (q_seq <$> map fst cmds) (wc_published w) (wc_retry w) (wc_discard w) /\
  (wc_err w = None -> e = None /\ wc_retry w = [] /\ wc_discard w = []) /\ (wc_err w = e \/ wc_err w = Some errXAdd).
Proof.
  revert e. induction cmds as [|[q r] cmds IH]; intros e Hf; simpl in *.
  { split_and!; [apply sorted_out_nil|done|by left]. }
  apply Forall_cons in Hf as [Hq Hf]. destruct (xaddOne q r) as [[pu re] di] eqn:Hx.
  apply xaddOne_ok in Hx as [Hso Hok]; [|done].
  destruct (IH (match e with None => if xaddFailed r then Some errXAdd else None | e => e end) Hf) as (H1 & H2 & H3). simpl.
  split_and!; [by apply (sorted_out_app [_])| |].
  - intros He. destruct (H2 He) as (He' & -> & ->). destruct e; [done|]. destruct (xaddFailed r); [done|]. by destruct Hok as [-> ->].
  - destruct H3 as [-> | ->]; [|by right]. destruct e; [by left|]. destruct (xaddFailed r); auto.
Qed.

Section Charges.
Context {W : Type} {onLedger : (ChargeLedger -> ChargeLedger) -> W -> W}
  {written : option (string -> Z -> Z -> W -> W)} {lw : W -> ChargeLedger} `{LW : !LedgerWorld W onLedger written lw}.

Lemma putBack_ok charges w out : ledger_ok (lw w) (charges ++ out) -> ledger_ok (lw (putBack onLedger charges w)) out.
Proof. intros H. by apply untake_list_ok in H as [? _]. Qed.

Lemma forgetAll_ok charges w out : ledger_ok (lw w) (charges ++ out) -> ledger_ok (lw (forgetAll onLedger charges w)) out.
Proof.
  unfold forgetAll. revert w. induction charges as [|c charges IH]; intros w Hok; [done|]. simpl in *.
  apply IH. rewrite lw_on. by apply finish_ok in Hok as [? _].
Qed.

(** However a charge is answered, it is not held any more. *)
Lemma chargeReplies_ok cmds w answered err w' answered' err' out :
  ledger_ok (lw w) (map fst cmds ++ out) -> chargeReplies onLedger written cmds w answered err = (w', answered', err') ->
  ledger_ok (lw w') out /\ (err' = err \/ err' = Some errIncr).
Proof.
  revert w answered err. induction cmds as [|[c r] cmds IH]; intros w answered err Hok; simpl in *.
  { intros [= <- _ <-]. by split; [|left]. }
  pose proof (finish_ok _ _ _ Hok) as [Hfin _].
  destruct (retry c (lw w)) as [l again] eqn:Hr. destruct (retry_ok _ _ _ _ _ Hok Hr) as [Hretry _].
  destruct r; intros H; apply IH in H as [H1 H2]; try (split; [exact H1|exact H2]); try (rewrite lw_on, Hr; exact Hretry).
  - by rewrite commit_lw.
  - split; [exact H1|]. destruct err; naive_solver.
  - by rewrite lw_on.
Qed.

(** What a write does with a chunk and its charges. *)
Lemma writeChunk_ok xr ir chunk charges w out w' answered wc :
  Forall retryable chunk -> ledger_ok (lw w) (charges ++ out) -> writeChunk onLedger written xr ir chunk charges w = (w', answered, wc) ->
  ledger_ok (lw w') out /\ sorted_out (q_seq <$> chunk) (wc_published wc) (wc_retry wc) (wc_discard wc) /\
  (wc_err wc = None -> wc_retry wc = [] /\ wc_discard wc = []) /\ wc_err wc <> Some errDispatchWorkerStopped.
Proof.
  intros Hch Hok. unfold writeChunk.
  pose proof (imap_fst xr chunk) as Hq.
  pose proof (imap_fst ir charges) as Hc.
  destruct (chunkRefusedForMemory _ _).
  - intros [= <- _ <-]. split_and!; [by apply putBack_ok| |done|done].
    split; [by rewrite app_nil_r|done|done|done].
  - destruct (chargeReplies _ _ _ w _ None) as [[w1 a1] e1] eqn:Hr. apply (chargeReplies_ok _ _ _ _ _ _ _ out) in Hr as [H1 He]; [|by rewrite Hc].
    intros [= <- _ <-]. destruct (xaddLoop_ok (imap (fun i q => (q, xr i)) chunk) e1) as (H2 & H3 & H4); [by rewrite Hq|].
    rewrite Hq in H2. split_and!; [done|done|naive_solver|]. destruct H4 as [-> | ->]; [|done]. by destruct He as [-> | ->].
Qed.
End Charges.
