(* ===== verification/BatchingSafety.v ===== *)
(** * No accepted relay is lost, duplicated or reordered by the dispatcher

    The invariant of the publisher's goroutines: every accepted relay is in
    exactly one place, what waits is in arrival order even after failed writes,
    and the ledger agrees with the charges the dispatch holds. *)

From stdpp Require Import sorting.
From S2P Require Import Prelude ChargeLedger MinedRelay BatchingPublisher BatchingQueue.
From Stdlib Require Import Ascii String.

Local Open Scope string_scope.
Local Open Scope list_scope.
Local Open Scope Z_scope.

Abbreviation nums l := (q_seq <$> l).

(** ** The order of the jobs *)

(** The jobs carry relays in the order they were taken, all before [rest]. *)
Record ordered (jobs : list dispatchJob) (taken : nat) (rest : list Z) : Prop := {
  od_nodup : NoDup (jb_order <$> jobs);
  od_taken j : j ∈ jobs -> (jb_order j < taken)%nat;
  od_pair j1 j2 a b : j1 ∈ jobs -> j2 ∈ jobs -> (jb_order j1 < jb_order j2)%nat -> a ∈ nums (jb_retry j1) -> b ∈ nums (jb_retry j2) -> a < b;
  od_below j a b : j ∈ jobs -> a ∈ nums (jb_retry j) -> b ∈ rest -> a < b
}.

#[export] Instance ordered_perm : Proper (Permutation ==> eq ==> eq ==> iff) ordered.
Proof.
  intros l1 l2 Hp t ? <- r ? <-. split; intros [A B C D]; split.
  all: setoid_rewrite Hp || setoid_rewrite <- Hp; eauto; by rewrite Hp || by rewrite <- Hp.
Qed.

Lemma ordered_nil t rest : ordered [] t rest.
Proof. split; [by constructor|intros ? H|intros ? ? ? ? H|intros ? ? ? H]; by apply not_elem_of_nil in H. Qed.

Lemma ordered_drop j jobs t rest : ordered (j :: jobs) t rest -> ordered jobs t rest.
Proof.
  intros [A B C D]. split; [by apply NoDup_cons in A as [_ ?]|intros k Hk|intros j1 j2 a b H1 H2|intros k a b Hk].
  - apply B. set_solver.
  - apply C; set_solver.
  - apply D. set_solver.
Qed.

(** A job that was answered keeps some of what it carried. *)
Lemma ordered_answer j j' jobs t rest : jb_order j' = jb_order j -> (forall a, a ∈ nums (jb_retry j') -> a ∈ nums (jb_retry j)) ->
  ordered (j :: jobs) t rest -> ordered (j' :: jobs) t rest.
Proof.
  intros Ho Hs [A B C D]. split.
  - rewrite fmap_cons in *. by rewrite Ho.
  - intros k [->|Hk]%elem_of_cons; [rewrite Ho|]; apply B; set_solver.
  - intros j1 j2 a b [->|H1]%elem_of_cons [->|H2]%elem_of_cons; rewrite ?Ho; intros Hlt Ha Hb; [lia|..].
    + apply (C j j2); [set_solver..|auto|done].
    + apply (C j1 j); [set_solver..|done|auto].
    + apply (C j1 j2); [set_solver..|done|done].
  - intros k a b [->|Hk]%elem_of_cons Ha Hb; [apply (D j); [set_solver|auto|done]|apply (D k); [set_solver|done|done]].
Qed.

(** A job that is taken is the next in order. *)
Lemma ordered_take j jobs t rest : jb_order j = t -> StronglySorted Z.lt (nums (jb_retry j) ++ rest) ->
  ordered jobs t (nums (jb_retry j) ++ rest) -> ordered (j :: jobs) (S t) rest.
Proof.
  intros Ho Hs [A B C D]. apply StronglySorted_app in Hs as (Hs & _ & _). split.
  - rewrite fmap_cons. apply NoDup_cons. split; [|done]. intros (k & Hk & Hin)%list_elem_of_fmap. apply B in Hin. lia.
  - intros k [->|Hk]%elem_of_cons; [lia|]. apply B in Hk. lia.
  - intros j1 j2 a b [->|H1]%elem_of_cons [->|H2]%elem_of_cons Hlt Ha Hb; [lia|..].
    + apply B in H2. lia.
    + apply (D j1); [done|done|set_solver].
    + by apply (C j1 j2).
  - intros k a b [->|Hk]%elem_of_cons Ha Hb; [by apply Hs|apply (D k); [done|done|set_solver]].
Qed.

Lemma ordered_publish jobs t rest n : (forall j a, j ∈ jobs -> a ∈ nums (jb_retry j) -> a < n) ->
  ordered jobs t rest -> ordered jobs t (rest ++ [n]).
Proof.
  intros Hn [A B C D]. split; [done..|]. intros j a b Hj Ha [Hb|Hb]%elem_of_app; [by apply (D j)|].
  apply list_elem_of_singleton in Hb as ->. by apply (Hn j).
Qed.

Definition retries (jobs : list dispatchJob) : list queued := List.concat (map jb_retry jobs).

#[export] Instance concat_map_perm {A B} (f : A -> list B) : Proper (Permutation ==> Permutation) (fun l => List.concat (map f l)).
Proof. intros l l' Hp. rewrite <- !flat_map_concat_map. by apply Permutation_flat_map. Qed.

#[export] Instance retries_perm : Proper (Permutation ==> Permutation) retries.
Proof. apply concat_map_perm. Qed.

Lemma retries_app a b : retries (a ++ b) = retries a ++ retries b.
Proof. unfold retries. by rewrite map_app, concat_app. Qed.

Lemma retries_one j : retries [j] = jb_retry j.
Proof. apply app_nil_r. Qed.

Lemma retries_elem jobs j q : j ∈ jobs -> q ∈ jb_retry j -> q ∈ retries jobs.
Proof.
  intros Hj Hq. apply list_elem_of_In, in_concat. exists (jb_retry j). split; [apply in_map|]; by apply list_elem_of_In.
Qed.

(** Requeueing the failed jobs, last taken first, puts the queue back in order. *)
Lemma requeue_loop_ok L p t : queue_ok p -> StronglySorted takenAfter L -> ordered L t (nums (waiting p)) ->
  Forall (fun j => StronglySorted Z.lt (nums (jb_retry j))) L -> StronglySorted Z.lt (nums (waiting p)) ->
  let p' := foldl (fun p job => match jb_retry job with [] => p | retry => requeueFront retry p end) p L in
  queue_ok p' /\ same_rest p p' /\ StronglySorted Z.lt (nums (waiting p')) /\ waiting p' ≡ₚ retries L ++ waiting p.
Proof.
  revert p. induction L as [|j L IH]; intros p Hq Hs Ho Hj Hw; [done|]. simpl.
  apply StronglySorted_cons in Hs as [Haft Hs]. apply Forall_cons in Hj as [Hj HL].
  set (p1 := match jb_retry j with [] => p | retry => requeueFront retry p end).
  assert (waiting p1 = jb_retry j ++ waiting p /\ queue_ok p1 /\ same_rest p p1) as (Hw1 & Hq1 & Hr1).
  { unfold p1. destruct (jb_retry j); [done|]. by apply requeueFront_ok. }
  assert (StronglySorted Z.lt (nums (waiting p1))) as Hs1.
  { rewrite Hw1, fmap_app. apply StronglySorted_app. split_and!; [|done|done]. intros a b Ha Hb. apply (od_below _ _ _ Ho j); [set_solver|done|done]. }
  destruct (IH p1) as (H1 & H2 & H3 & H4); [done|done| |done|done|].
  { pose proof Ho as [A B C D]. rewrite fmap_cons in A. apply NoDup_cons in A as [Hni A]. rewrite Hw1, fmap_app.
    split; [done|intros k Hk; apply B; set_solver|intros j1 j2 a b J1 J2; apply C; set_solver|].
    intros k a b Hk Ha [Hb|Hb]%elem_of_app; [|apply (D k); [set_solver|done|done]].
    apply (C k j); [set_solver|set_solver| |done|done]. rewrite Forall_forall in Haft. specialize (Haft _ Hk). unfold takenAfter in Haft.
    destruct (decide (jb_order k = jb_order j)) as [He|]; [|lia]. exfalso. apply Hni. rewrite <- He. by apply list_elem_of_fmap_2. }
  split_and!; [done|by etransitivity|done|]. rewrite H4, Hw1. unfold retries. simpl. solve_Permutation.
Qed.

Lemma requeueFailed_ok failed p t : queue_ok p -> ordered failed t (nums (waiting p)) ->
  Forall (fun j => StronglySorted Z.lt (nums (jb_retry j))) failed -> StronglySorted Z.lt (nums (waiting p)) ->
  queue_ok (requeueFailed failed p) /\ same_rest p (requeueFailed failed p) /\
  StronglySorted Z.lt (nums (waiting (requeueFailed failed p))) /\ waiting (requeueFailed failed p) ≡ₚ retries failed ++ waiting p.
Proof.
  intros Hq Ho Hj Hw. assert (sortFailed failed ≡ₚ failed) as Hp by apply merge_sort_Permutation.
  destruct (requeue_loop_ok (sortFailed failed) p t) as (H1 & H2 & H3 & H4); [done| |by rewrite Hp|by rewrite Hp|done|].
  { apply StronglySorted_merge_sort; [intros a b c ??|intros a b]; unfold takenAfter in *; lia. }
  split_and!; [done..|]. unfold requeueFailed. by rewrite H4, Hp.
Qed.

(** ** The invariant *)

Section Safety.
Context {W : Type} {onLedger : (ChargeLedger -> ChargeLedger) -> W -> W}
  {written : option (string -> Z -> Z -> W -> W)} {lw : W -> ChargeLedger} `{LW : !LedgerWorld W onLedger written lw}.
Context (workers : nat) (interval : Z).

Abbreviation publisher := (@publisher W).
Abbreviation exec := (exec_event onLedger written lw workers interval).
Abbreviation step := (pub_step onLedger written lw workers interval).

Definition in_loop (ph : phase) : option drain := match ph with Pump d | Wait d => Some d | _ => None end.
Definition open_jobs (d : drain) : list dispatchJob := dr_running d ++ dr_results d.

Definition discards (jobs : list dispatchJob) : list queued := List.concat (map jb_discard jobs).

(** Relays taken from the queue whose fate is not recorded. *)
Definition in_flight (ph : phase) : list queued :=
  match in_loop ph with
  | Some d => retries (open_jobs d ++ dr_failed d) ++ discards (open_jobs d)
  | None => []
  end.

(** The charges a job holds until its write is settled. *)
Definition held_job (j : dispatchJob) : list Charge :=
  match jb_err j with Some errDispatchWorkerStopped => jb_charges j | _ => [] end.
Definition held_jobs (jobs : list dispatchJob) : list Charge := List.concat (map held_job jobs).

Definition books (d : drain) : list Charge := all_charges (dr_charges d) ++ all_charges (dr_leftover d).

(** The charges taken from the ledger and not settled. *)
Definition held (ph : phase) : list Charge :=
  match ph with
  | Idle => []
  | Pump d | Wait d => books d ++ held_jobs (open_jobs d)
  | ChargesOnly d => books d
  end.

(** One EXEC: at most 256 commands, and at most 1 MiB or one relay. *)
Definition job_small (j : dispatchJob) : Prop :=
  Z.of_nat (List.length (jb_chunk j)) + 2 * Z.of_nat (List.length (jb_charges j)) <= maxChunkCommands /\
  (bytes0 (jb_chunk j) <= maxChunkBytes \/ (List.length (jb_chunk j) <= 1)%nat).

Record job_ok (j : dispatchJob) : Prop := {
  jo_sorted : StronglySorted Z.lt (nums (jb_retry j));
  jo_retry : Forall retryable (jb_retry j);
  jo_discard : Forall given_up (jb_discard j);
  jo_err : jb_err j = None -> jb_retry j = [] /\ jb_discard j = [];
  jo_small : job_small j
}.

Definition untouched (j : dispatchJob) : Prop :=
  jb_err j = Some errDispatchWorkerStopped /\ jb_retry j = jb_chunk j /\ jb_discard j = [].

Record drain_ok (d : drain) (p : BatchingPublisher) : Prop := {
  dk_jobs : Forall job_ok (open_jobs d ++ dr_failed d);
  dk_running : Forall untouched (dr_running d);
  dk_order : ordered (open_jobs d ++ dr_failed d) (dr_taken d) (nums (waiting p));
  dk_slots : dr_free d ++ (jb_slot <$> open_jobs d) ≡ₚ seq 0 workers;
  dk_inFlight : Forall (fun j => bp_inFlight p !! jb_slot j = Some (Some (jb_startedAt j))) (open_jobs d)
}.

Record relays_ok (s : publisher) : Prop := {
  ro_queue : queue_ok (pb_pub s);
  ro_fine : Forall retryable (waiting (pb_pub s));
  ro_sorted : StronglySorted Z.lt (nums (waiting (pb_pub s)));
  ro_enqueued : 0 <= bp_enqueued (pb_pub s) <= uint64_max;
  ro_slots : List.length (bp_inFlight (pb_pub s)) = workers;
  ro_all : nums (waiting (pb_pub s) ++ in_flight (pb_phase s) ++ pb_published s ++ pb_discarded s ++ pb_abandoned s)
           ≡ₚ seqZ 1 (bp_enqueued (pb_pub s));
  ro_given_up : Forall given_up (pb_discarded s);
  ro_drain d : in_loop (pb_phase s) = Some d -> drain_ok d (pb_pub s)
}.

Definition phase_wf (ph : phase) : Prop :=
  match ph with
  | Idle => True
  | Pump d | Wait d | ChargesOnly d => charges_wf (dr_charges d) /\ charges_wf (dr_leftover d)
  end.

Record charges_ok (s : publisher) : Prop := {
  co_wf : phase_wf (pb_phase s);
  co_ledger : ledger_ok (lw (pb_world s)) (held (pb_phase s))
}.
(** ** Steps that leave the relays where they are *)

Lemma drain_frame d p p' : waiting p' = waiting p -> bp_inFlight p' = bp_inFlight p -> drain_ok d p -> drain_ok d p'.
Proof. intros Hw Hi [A B C D E]. split; rewrite ?Hw, ?Hi; done. Qed.

Lemma drain_books d p t c l : drain_ok d p -> drain_ok (set_books t c l d) p.
Proof. intros [A B C D E]. by split. Qed.

Record same_place (s s' : publisher) : Prop := {
  sp_queue : queue_ok (pb_pub s) -> queue_ok (pb_pub s');
  sp_waiting : waiting (pb_pub s') = waiting (pb_pub s);
  sp_enqueued : bp_enqueued (pb_pub s') = bp_enqueued (pb_pub s);
  sp_inFlight : bp_inFlight (pb_pub s') = bp_inFlight (pb_pub s);
  sp_flight : in_flight (pb_phase s') = in_flight (pb_phase s);
  sp_published : pb_published s' = pb_published s;
  sp_discarded : pb_discarded s' = pb_discarded s;
  sp_abandoned : pb_abandoned s' = pb_abandoned s
}.

Lemma relays_frame s s' : same_place s s' -> relays_ok s ->
  (forall d, in_loop (pb_phase s') = Some d -> drain_ok d (pb_pub s')) -> relays_ok s'.
Proof.
  intros [A B C D E F G H] [H1 H2 H3 H4 H5 H6 H7 H8] Hd. split; rewrite ?B, ?C, ?D, ?E, ?F, ?G, ?H; auto.
Qed.

(** The same phase. *)
Lemma relays_pub s s' : same_place s s' -> pb_phase s' = pb_phase s -> relays_ok s -> relays_ok s'.
Proof.
  intros Hs Hp Hr. apply (relays_frame s); [done|done|]. intros d Hd. rewrite Hp in Hd.
  destruct Hs. eapply drain_frame; [..|by apply (ro_drain _ Hr)]; done.
Qed.

Lemma mark_place s b now : same_place s (set_pub (if b : bool then markSuccess now (pb_pub s) else pb_pub s) s).
Proof. destruct b; split; try done; intros [? ?]; by split. Qed.

Lemma beat_place s b now : same_place s (set_pub (heartbeat b now (pb_pub s)) s).
Proof. unfold heartbeat. destruct (_ <? _)%nat; [by split|]. apply mark_place. Qed.

(** Every relay in flight has a number given out. *)
Lemma flight_known s q : relays_ok s -> q ∈ waiting (pb_pub s) ++ in_flight (pb_phase s) -> q_seq q < bp_enqueued (pb_pub s) + 1.
Proof.
  intros Hr Hq. assert (q_seq q ∈ seqZ 1 (bp_enqueued (pb_pub s))) as Hin.
  { rewrite <- (ro_all _ Hr), app_assoc, fmap_app. apply elem_of_app. left. by apply list_elem_of_fmap_2. }
  apply elem_of_seqZ in Hin. lia.
Qed.

Lemma publish_relays s now supplier service prepared : bp_enqueued (pb_pub s) < uint64_max -> relays_ok s ->
  relays_ok (set_pub (fst (Publish now supplier service prepared (pb_pub s))) s).
Proof.
  intros He Hr. pose proof Hr as [H1 H2 H3 H4 H5 H6 H7 H8].
  destruct (Publish_ok now supplier service prepared (pb_pub s)) as (Hq & Hi & _ & _ & Hc); [done|lia|].
  set (p' := fst _) in *. destruct Hc as [->|(q & Hw & Hn & He' & Hs & Ha)]; [by destruct s|].
  pose proof (fun q => flight_known s q Hr) as Hk.
  split; cbn [pb_pub set_pub pb_phase pb_published pb_discarded pb_abandoned]; rewrite ?Hw, ?He', ?Hi; [done| | |lia|done| |done|].
  - apply Forall_app. split; [done|]. apply Forall_singleton. split; [done|]. by rewrite Ha.
  - rewrite fmap_app. apply StronglySorted_app. split_and!; [|done|repeat constructor]. intros a b Hab Hb.
    apply list_elem_of_singleton in Hb as ->. rewrite Hn. apply list_elem_of_fmap in Hab as (q' & -> & Hq'). apply Hk. set_solver.
  - rewrite !fmap_app in *. simpl. rewrite Hn.
    assert (seqZ 1 (bp_enqueued (pb_pub s) + 1) = seqZ 1 (bp_enqueued (pb_pub s)) ++ [bp_enqueued (pb_pub s) + 1]) as ->.
    { rewrite <- (Z2Nat.id (bp_enqueued (pb_pub s))) by lia. rewrite (Z.add_comm _ 1), <- seqZ_S.
      f_equal. lia. }
    rewrite <- H6. solve_Permutation.
  - intros d Hd. specialize (H8 d Hd). destruct H8 as [A B C D E]. split; [done|done| |done|by rewrite Hi].
    rewrite Hw, fmap_app. simpl. rewrite Hn. apply ordered_publish; [|done]. intros j a Hj Hin.
    apply list_elem_of_fmap in Hin as (q' & -> & Hq'). apply Hk. unfold in_flight. rewrite Hd. apply elem_of_app. right.
    apply elem_of_app. left. by apply (retries_elem _ j).
Qed.
(** ** A dispatch begins and ends *)

Lemma takeLedger_ok w out w' taken : ledger_ok (lw w) out -> takeLedger onLedger lw w = (w', taken) -> ledger_ok (lw w') (taken ++ out).
Proof.
  intros Hok [= <- <-]. rewrite lw_on.
  by destruct (takeAll_ok (lw w) out _ (fst (takeAll (lw w))) (snd (takeAll (lw w))) Hok (reflexivity _) (surjective_pairing _)) as [? _].
Qed.

Lemma returned_charges s : ledger_ok (lw (pb_world s)) [] -> charges_ok (returned s).
Proof. by split. Qed.

Lemma returned_relays s : in_flight (pb_phase s) = [] -> relays_ok s -> relays_ok (returned s).
Proof. intros Hf Hr. apply (relays_frame s); [|done|done]. by split. Qed.

Lemma leave_ok d s : charges_wf (dr_charges d) -> charges_wf (dr_leftover d) -> ledger_ok (lw (pb_world s)) (books d) ->
  charges_ok (leave onLedger d s).
Proof.
  intros Hc Hl Hok. apply returned_charges. simpl. unfold endDrain.
  destruct (restCharges (dr_leftover d)) as [gl ol] eqn:El. destruct (restCharges (dr_charges d)) as [gc oc] eqn:Ec.
  apply restCharges_ok in El as (_ & El & _); [|done]. apply restCharges_ok in Ec as (_ & Ec & _); [|done]. simpl.
  apply (putBack_ok (written := written)). eapply ledger_perm; [|exact Hok]. unfold books. rewrite app_nil_r, El, Ec. apply Permutation_app_comm.
Qed.

Lemma leave_relays d s : in_flight (pb_phase s) = [] -> relays_ok s -> relays_ok (leave onLedger d s).
Proof. intros Hf Hr. apply (relays_frame s); [|done|done]. by split. Qed.

Lemma begin_ok operable now s : pb_phase s = Idle -> relays_ok s -> charges_ok s ->
  relays_ok (beginDispatch onLedger lw workers operable now s) /\ charges_ok (beginDispatch onLedger lw workers operable now s).
Proof.
  intros Hi Hr [_ Hok]. rewrite Hi in Hok. unfold beginDispatch. destruct operable; cycle 1.
  { split; [apply returned_relays; [by rewrite Hi|done]|by apply returned_charges]. }
  destruct (beginDrain _ _ _ _ _ _) as [d w] eqn:Hb. unfold beginDrain in Hb.
  destruct (if bp_ledger (pb_pub s) then _ else _) as [w' taken] eqn:Ht. injection Hb as <- <-.
  assert (ledger_ok (lw w') taken) as Hok'.
  { destruct (bp_ledger _); [|by injection Ht as <- <-]. rewrite <- (app_nil_r taken). by apply (takeLedger_ok _ _ _ _ Hok) in Ht. }
  destruct (addCharges_ok taken (groupCharges []) no_charges_wf) as [Hwf Hall].
  split; [|split; [by split; [|apply no_charges_wf]|]].
  - apply (relays_frame s); [split; try done; by rewrite Hi|done|]. intros d [= <-].
    split; [by constructor|by constructor|apply ordered_nil| |by constructor].
    simpl. rewrite app_nil_r. unfold allFree. symmetry. apply Permutation_rev.
  - simpl. eapply ledger_perm; [|exact Hok']. unfold books, held_jobs. simpl. rewrite Hall.
    change (all_charges (groupCharges [])) with (@nil Charge). by rewrite !app_nil_r.
Qed.

(** ** The next job *)

(** What nextJob leaves: the chunk off the queue, its charges off the books. *)
Record next_post (d : drain) (p : BatchingPublisher) (out : list Charge) (d' : drain) (p' : BatchingPublisher) (w' : W) (j : dispatchJob) : Prop := {
  np_waiting : waiting p = jb_chunk j ++ waiting p';
  np_queue : queue_ok p';
  np_rest : same_rest p p';
  np_small : job_small j;
  np_discard : jb_discard j = [];
  np_charges : charges_wf (dr_charges d');
  np_leftover : charges_wf (dr_leftover d');
  np_ledger : ledger_ok (lw w') (books d' ++ jb_charges j ++ out);
  np_jobs : exists t c l, d' = set_books t c l d
}.

(** The refresh of the books once an interval has passed. *)
Lemma refresh_ok now d w out b d1 w1 :
  charges_wf (dr_charges d) -> charges_wf (dr_leftover d) -> ledger_ok (lw w) (books d ++ out) ->
  (if b : bool then
     let '(charges, rest) := restCharges (dr_charges d) in
     let '(w, taken) := takeLedger onLedger lw w in
     (set_books now (addCharges charges taken) (addCharges (dr_leftover d) rest) d, w)
   else (d, w)) = (d1, w1) ->
  charges_wf (dr_charges d1) /\ charges_wf (dr_leftover d1) /\ ledger_ok (lw w1) (books d1 ++ out) /\
  (d1 = d \/ exists t c l, d1 = set_books t c l d).
Proof.
  intros Hc Hl Hok. destruct b; [|intros [= <- <-]; auto].
  destruct (restCharges (dr_charges d)) as [gc rest] eqn:Hrest. apply restCharges_ok in Hrest as (Hgc & Hcr & Hgc0); [|done].
  destruct (takeLedger onLedger lw w) as [w2 taken] eqn:Htk. apply (takeLedger_ok _ _ _ _ Hok) in Htk. intros [= <- <-].
  destruct (addCharges_ok taken gc Hgc) as [Ha1 Ha2]. destruct (addCharges_ok rest (dr_leftover d) Hl) as [Hb1 Hb2].
  split_and!; [done|done| |right; by eexists _, _, _]. eapply ledger_perm; [|exact Htk]. unfold books. simpl.
  rewrite Ha2, Hb2, Hgc0, Hcr. solve_Permutation.
Qed.

Lemma nextJob_ok now d p w out d' p' w' job :
  queue_ok p -> Forall sized (waiting p) -> charges_wf (dr_charges d) -> charges_wf (dr_leftover d) ->
  ledger_ok (lw w) (books d ++ out) -> nextJob onLedger lw interval now d p w = (d', p', w', job) ->
  next_post d p out d' p' w' (default (newJob [] []) job).
Proof.
  intros Hq Hs Hc Hl Hok. unfold nextJob. destruct (takeCharges (dr_leftover d) 128) as [leftover part] eqn:Ht.
  apply takeCharges_ok in Ht as (Hl' & Hperm & Hlen); [|done]. set (d0 := set_books _ _ _ d).
  assert (ledger_ok (lw w) (books d0 ++ part ++ out)) as Hok0.
  { eapply ledger_perm; [|exact Hok]. unfold books, d0. simpl. rewrite Hperm. solve_Permutation. }
  destruct part as [|c part].
  - destruct (takeChunkBefore (dr_cutoff d0) p) as [p1 chunk] eqn:Hk. apply takeChunk_ok in Hk as (Hw & Hq1 & Hr1 & Hfit); [|done|done].
    destruct chunk as [|q chunk].
    { intros [= <- <- <- <-]. split; try done; [|by eexists _, _, _]. split; [done|right; simpl; lia]. }
    specialize (Hfit ltac:(done)) as (Hcut & Hcmd & Hby & _).
    destruct (if dr_ledger d0 && _ then _ else _) as [d1 w1] eqn:Hg.
    apply (refresh_ok now d0 w out) in Hg as (Hc1 & Hl1 & Hok1 & Hd1); [|done..].
    destruct (attach _ (q :: chunk) _) as [gc ride] eqn:Ha. apply attach_ok in Ha as (Hgc & Hride & Hroom); [|done|lia].
    intros [= <- <- <- <-]. split; try done; [split|..].
    + simpl in *. lia.
    + simpl. rewrite Hw, take_app_length in Hby. destruct Hby as [|Hone]; [by left|right; simpl in *; lia].
    + eapply ledger_perm; [|exact Hok1]. unfold books. simpl. rewrite Hride. solve_Permutation.
    + destruct Hd1 as [->|(t & c & l & ->)]; by eexists _, _, _.
  - intros [= <- <- <- <-]. split; try done; [|by eexists _, _, _].
    split; [|right; simpl; lia]. unfold maxChunkCommands. simpl in *. lia.
Qed.
(** ** A write starts *)

Definition started_job (now : Z) (slot order : nat) (j : dispatchJob) : dispatchJob :=
  mkJob (jb_chunk j) (jb_charges j) (jb_chunk j) [] (Some errDispatchWorkerStopped) false slot now order.

Lemma slot_free d p slot : drain_ok d p -> last (dr_free d) = Some slot ->
  dr_free d = removelast (dr_free d) ++ [slot] /\ (slot < workers)%nat /\ Forall (fun j => jb_slot j <> slot) (open_jobs d).
Proof.
  intros Hd Hl. pose proof (dk_slots _ _ Hd) as Hs. destruct (dr_free d) as [|x free] eqn:Hf; [done|].
  assert (x :: free = removelast (x :: free) ++ [slot]) as Hr.
  { rewrite (app_removelast_last x (l := x :: free)) at 1 by done. do 2 f_equal.
    apply last_Some in Hl as [l' Hl]. rewrite Hl. by rewrite last_last. }
  split; [done|]. assert (NoDup (seq 0 workers)) as Hnd by apply NoDup_seq. rewrite <- Hs, Hr in Hnd.
  split.
  - assert (slot ∈ seq 0 workers) as Hin by (rewrite <- Hs, Hr; set_solver). apply elem_of_seq in Hin. lia.
  - apply NoDup_app in Hnd as (_ & Hnd & _). apply Forall_forall. intros j Hj <-. apply (Hnd (jb_slot j)); [set_solver|].
    by apply list_elem_of_fmap_2.
Qed.

Lemma start_relays d p p1 now slot j running results :
  drain_ok d p -> dr_failed d = [] -> List.length (bp_inFlight p) = workers -> last (dr_free d) = Some slot ->
  Forall retryable (waiting p) -> StronglySorted Z.lt (nums (waiting p)) ->
  waiting p = jb_chunk j ++ waiting p1 -> same_rest p p1 -> job_small j ->
  running ++ results ≡ₚ started_job now slot (dr_taken d) j :: open_jobs d -> Forall untouched running ->
  drain_ok (set_jobs running results (removelast (dr_free d)) (dr_failed d) (S (dr_taken d)) d) (set_slot slot (Some now) p1).
Proof.
  intros Hd Hf Hlen Hlast Hfine Hsort Hw Hrest Hsmall Hopen Hrun.
  destruct (slot_free _ _ _ Hd Hlast) as (Hfree & Hslot & Hothers). destruct Hd as [A B C D E].
  rewrite Hf, app_nil_r in A, C. rewrite Hw in Hfine, Hsort. apply Forall_app in Hfine as [Hfine _]. rewrite fmap_app in Hsort.
  pose proof Hsort as (_ & Hsj & _)%StronglySorted_app.
  split; unfold open_jobs; cbn [set_jobs dr_running dr_results dr_failed dr_taken dr_free]; rewrite ?Hf, ?app_nil_r; [|done|..].
  - rewrite Hopen. constructor; [|done]. by split.
  - rewrite Hopen. change (waiting (set_slot _ _ p1)) with (waiting p1). apply ordered_take; [done|exact Hsort|].
    simpl. by rewrite <- fmap_app, <- Hw.
  - rewrite Hopen. rewrite <- D. rewrite Hfree at 2. simpl. solve_Permutation.
  - rewrite Hopen. simpl. rewrite (sr_inFlight _ _ Hrest). constructor; [apply list_lookup_insert_eq; lia|].
    rewrite Forall_forall in *. intros k Hk. rewrite list_lookup_insert_ne; [auto|]. intros He. by apply (Hothers k).
Qed.

Definition held_perm_proper := @concat_map_perm dispatchJob Charge held_job.

Lemma pump_ok cancelled poolStopped now d s : pb_phase s = Pump d -> relays_ok s -> charges_ok s ->
  relays_ok (pumpOnce onLedger lw interval cancelled poolStopped now d s) /\
  charges_ok (pumpOnce onLedger lw interval cancelled poolStopped now d s).
Proof.
  intros Hph Hr Hc. pose proof (ro_drain _ Hr d) as Hd. rewrite Hph in Hd. specialize (Hd eq_refl).
  pose proof Hc as [Hwf Hok]. rewrite Hph in Hwf, Hok. destruct Hwf as [Hwc Hwl].
  assert (relays_ok (set_phase (Wait d) s) /\ charges_ok (set_phase (Wait d) s)) as Hwait.
  { split; [|by split]. apply (relays_frame s); [split; try done; by rewrite Hph|done|]. by intros ? [= <-]. }
  unfold pumpOnce. destruct (dr_failed d) as [|] eqn:Hf; [|done]. destruct (last (dr_free d)) as [slot|] eqn:Hl; [|done].
  destruct cancelled; [done|]. clear Hwait.
  destruct (nextJob onLedger lw interval now d (pb_pub s) (pb_world s)) as [[[d' p'] w'] job] eqn:Hn.
  assert (Forall sized (waiting (pb_pub s))) as Hsz by (eapply Forall_impl; [apply (ro_fine _ Hr)|]; by intros q [? _]).
  apply (nextJob_ok _ _ _ _ (held_jobs (open_jobs d))) in Hn; [|apply (ro_queue _ Hr)|done..].
  destruct Hn as [Hw Hq Hrest Hsmall Hdisc Hwc' Hwl' Hled (t & c & l & ->)].
  destruct job as [j|]; simpl in Hw, Hled, Hsmall, Hdisc; cycle 1.
  { split; [|by split]. apply (relays_frame s); [|done|].
    - pose proof Hrest as [? ? ? ? ?]. split; try done. simpl. unfold in_flight at 2. by rewrite Hph.
    - intros ? [= <-]. eapply drain_books, drain_frame; [..|exact Hd]; [done|apply Hrest]. }
  unfold startWrite. rewrite Hdisc. fold (started_job now slot (dr_taken d) j).
  set (running := if poolStopped then dr_running d else dr_running d ++ [started_job now slot (dr_taken d) j]).
  set (results := if poolStopped then dr_results d ++ [started_job now slot (dr_taken d) j] else dr_results d).
  assert (running ++ results ≡ₚ started_job now slot (dr_taken d) j :: open_jobs d) as Hopen.
  { unfold running, results, open_jobs. destruct poolStopped; solve_Permutation. }
  assert (Forall untouched running) as Hrun.
  { unfold running. destruct poolStopped; [apply Hd|]. apply Forall_app. split; [apply Hd|by apply Forall_singleton]. }
  match goal with |- relays_ok (set_phase (Pump ?x) _) /\ _ => replace x with
    (set_books t c l (set_jobs running results (removelast (dr_free d)) (dr_failed d) (S (dr_taken d)) d)) by (by destruct poolStopped) end.
  pose proof (start_relays d (pb_pub s) p' now slot j running results Hd Hf (ro_slots _ Hr) Hl (ro_fine _ Hr) (ro_sorted _ Hr) Hw Hrest Hsmall Hopen Hrun) as Hd'.
  split; [|split; [by split|]].
  - pose proof Hr as [H1 H2 H3 H4 H5 H6 H7 H8]. rewrite Hw in H2, H3. apply Forall_app in H2 as [_ H2]. rewrite fmap_app in H3.
    apply StronglySorted_app in H3 as (_ & _ & H3). pose proof Hrest as [_ _ He _ Hi].
    split; cbn [pb_pub set_pub pb_phase set_phase set_world pb_published pb_discarded pb_abandoned set_slot bp_enqueued bp_inFlight].
    + destruct Hq. by split.
    + done.
    + done.
    + by rewrite He.
    + by rewrite length_insert, Hi.
    + rewrite He, <- H6. change (waiting (set_slot _ _ p')) with (waiting p'). rewrite Hw, Hph. unfold in_flight. simpl.
      unfold open_jobs at 1 3. cbn [dr_running dr_results set_books set_jobs].
      unfold discards. rewrite (concat_map_perm jb_discard _ _ Hopen), Hf, !app_nil_r, Hopen. unfold retries at 1. simpl.
      rewrite !fmap_app. unfold retries. solve_Permutation.
    + done.
    + intros ? [= <-]. by apply drain_books.
  - simpl. eapply ledger_perm; [|exact Hled]. unfold books, open_jobs. simpl. apply Permutation_app_head.
    unfold held_jobs at 2. rewrite (held_perm_proper _ _ Hopen). done.
Qed.
(** ** A write is answered *)

Lemma sorted_sublist (l k : list Z) : sublist l k -> StronglySorted Z.lt k -> StronglySorted Z.lt l.
Proof.
  induction 1 as [|x l k Hs IH|x l k Hs IH]; intros Hk; [constructor|..]; apply StronglySorted_cons in Hk as [Hx Hk]; [|auto].
  apply StronglySorted_cons. split; [|auto]. rewrite Forall_forall in *. intros y Hy. apply Hx. by eapply elem_of_sublist.
Qed.

(** Job [j], the [i]th running one, is now [j'] on the results channel. *)
Definition reported (i : nat) (j' : dispatchJob) (d : drain) : drain :=
  set_jobs (delete i (dr_running d)) (dr_results d ++ [j']) (dr_free d) (dr_failed d) (dr_taken d) d.

Definition others (i : nat) (d : drain) : list dispatchJob := delete i (dr_running d) ++ dr_results d.

Lemma open_reported i j' d : open_jobs (reported i j' d) ≡ₚ j' :: others i d.
Proof. unfold open_jobs, others. simpl. solve_Permutation. Qed.

Lemma open_running i j d : dr_running d !! i = Some j -> open_jobs d ≡ₚ j :: others i d.
Proof. intros Hi. unfold open_jobs, others. by apply (Permutation_app_tail _ (delete_Permutation _ _ _ Hi)). Qed.

Lemma report_drain i j j' d p : drain_ok d p -> dr_running d !! i = Some j -> job_ok j' ->
  jb_slot j' = jb_slot j -> jb_startedAt j' = jb_startedAt j -> jb_order j' = jb_order j ->
  (forall a, a ∈ nums (jb_retry j') -> a ∈ nums (jb_retry j)) -> drain_ok (reported i j' d) p.
Proof.
  intros [A B C D E] Hi Hj' Hsl Hst Ho Hre. pose proof (open_running i j d Hi) as Hop. rewrite Hop in A, C, D, E. simpl in A, C, D.
  apply Forall_cons in A as [_ A]. apply Forall_cons in E as [Ej E].
  split; rewrite ?open_reported.
  - simpl. by constructor.
  - by apply Forall_delete.
  - by apply (ordered_answer j).
  - simpl. by rewrite Hsl.
  - constructor; [by rewrite Hsl, Hst|done].
Qed.

Lemma concat_cons {A B} (f : A -> list B) x l : List.concat (map f (x :: l)) = f x ++ List.concat (map f l).
Proof. done. Qed.

Lemma flight_cons ph d j rest : in_loop ph = Some d -> open_jobs d ≡ₚ j :: rest ->
  in_flight ph ≡ₚ (jb_retry j ++ jb_discard j) ++ retries (rest ++ dr_failed d) ++ discards rest.
Proof.
  intros Hd Hop. unfold in_flight, discards. rewrite Hd, (concat_map_perm jb_discard _ _ Hop), Hop. unfold retries. simpl. solve_Permutation.
Qed.

Lemma open_held d j rest : open_jobs d ≡ₚ j :: rest -> held_jobs (open_jobs d) ≡ₚ held_job j ++ held_jobs rest.
Proof. intros Hop. unfold held_jobs. by rewrite (held_perm_proper _ _ Hop). Qed.

Lemma set_inLoop ph d d' : in_loop ph = Some d -> in_loop (inLoop d' ph) = Some d' /\ held (inLoop d' ph) = books d' ++ held_jobs (open_jobs d').
Proof. by destruct ph. Qed.

(** The relays when a job reports: [published] of what it carried is recorded. *)
Lemma report_relays s s' ph d i j j' published :
  relays_ok s -> pb_phase s = ph -> in_loop ph = Some d -> dr_running d !! i = Some j -> jb_discard j = [] -> job_ok j' ->
  jb_slot j' = jb_slot j -> jb_startedAt j' = jb_startedAt j -> jb_order j' = jb_order j ->
  (forall a, a ∈ nums (jb_retry j') -> a ∈ nums (jb_retry j)) ->
  nums (jb_retry j) ≡ₚ nums (published ++ jb_retry j' ++ jb_discard j') ->
  same_place (set_phase (pb_phase s') (add_published published s)) s' ->
  pb_phase s' = inLoop (reported i j' d) ph -> relays_ok s'.
Proof.
  intros Hr Hph Hd Hi Hdj Hj' H1 H2 H3 H4 Hall Hsame Hph'. destruct (set_inLoop ph d (reported i j' d) Hd) as [Hl _].
  pose proof (ro_drain _ Hr d ltac:(by rewrite Hph)) as Hok. apply (relays_frame _ _ Hsame).
  - destruct Hr as [A B C D E F G _]. split; try done; cbn [pb_phase set_phase add_published pb_pub pb_published pb_discarded pb_abandoned].
    + rewrite <- F, Hph. rewrite (flight_cons ph d j (others i d) Hd (open_running _ _ _ Hi)).
      rewrite Hph', (flight_cons _ _ j' (others i d) Hl (open_reported _ _ _)), Hdj. cbn [dr_failed reported set_jobs].
      rewrite !fmap_app in *. rewrite Hall. solve_Permutation.
    + intros d0. rewrite Hph', Hl. intros [= <-]. by eapply report_drain.
  - intros d0. rewrite Hph', Hl. intros [= <-]. apply (drain_frame _ (pb_pub s)); [by rewrite (sp_waiting _ _ Hsame)|by rewrite (sp_inFlight _ _ Hsame)|].
    by eapply report_drain.
Qed.
Lemma answer_ok i xr ir now d s d' s' :
  in_loop (pb_phase s) = Some d -> relays_ok s -> charges_ok s ->
  answerJob onLedger written i xr ir now d s = Some (d', s') ->
  relays_ok (set_phase (inLoop d' (pb_phase s)) s') /\ charges_ok (set_phase (inLoop d' (pb_phase s)) s').
Proof.
  intros Hd Hr [Hwf Hok]. unfold answerJob. destruct (dr_running d !! i) as [j|] eqn:Hi; [|done].
  destruct (writeChunk _ _ xr ir _ _ _) as [[w answered] wc] eqn:Hw. intros [= <- <-].
  fold (reported i (job_done true (wc_retry wc) (wc_discard wc) (wc_err wc) j) d). set (j' := job_done _ _ _ _ j).
  pose proof (ro_drain _ Hr d Hd) as Hdk. pose proof (open_running i j d Hi) as Hop.
  assert (untouched j) as (Herr & Hre & Hdi) by (by eapply Forall_lookup_1; [apply (dk_running _ _ Hdk)|]).
  assert (job_ok j) as Hj by (pose proof (dk_jobs _ _ Hdk) as H; rewrite Hop in H; by apply Forall_inv in H).
  assert (held (pb_phase s) ≡ₚ jb_charges j ++ books d ++ held_jobs (others i d)) as Hheld.
  { transitivity (books d ++ held_jobs (open_jobs d)); [by destruct (pb_phase s); simplify_eq/=|].
    rewrite (open_held _ _ _ Hop). unfold held_job. rewrite Herr. solve_Permutation. }
  apply (writeChunk_ok _ _ _ _ _ (books d ++ held_jobs (others i d))) in Hw as (Hled & Hso & Hnone & Hns); [|rewrite <- Hre; apply Hj|by eapply ledger_perm].
  destruct Hso as [Hall Hsub Hfine Hgu]. rewrite <- Hre in Hall, Hsub.
  destruct (set_inLoop (pb_phase s) d (reported i j' d) Hd) as [Hl Hh]. split.
  - eapply (report_relays s _ (pb_phase s) d i j j' (wc_published wc)); try done.
    + split; [|done|done|done|apply Hj]. by apply (sorted_sublist _ (nums (jb_retry j))); [|apply Hj].
    + intros a Ha. by eapply elem_of_sublist.
    + destruct (mark_place s answered now). by split.
  - split; [by destruct (pb_phase s); simplify_eq/=|]. cbn [pb_phase set_phase pb_world add_published set_world]. rewrite Hh.
    eapply ledger_perm; [|exact Hled]. rewrite (open_held _ _ _ (open_reported i j' d)).
    assert (held_job j' = []) as -> by (unfold held_job; simpl; destruct (wc_err wc) as [[]|]; done). done.
Qed.

Lemma panic_ok i d s d' : in_loop (pb_phase s) = Some d -> relays_ok s -> charges_ok s -> panicJob i d = Some d' ->
  relays_ok (set_phase (inLoop d' (pb_phase s)) s) /\ charges_ok (set_phase (inLoop d' (pb_phase s)) s).
Proof.
  intros Hd Hr [Hwf Hok]. unfold panicJob. destruct (dr_running d !! i) as [j|] eqn:Hi; [|done]. intros [= <-].
  set (j' := job_done _ _ _ _ j). fold (reported i j' d). pose proof (ro_drain _ Hr d Hd) as Hdk. pose proof (open_running i j d Hi) as Hop.
  assert (untouched j) as (Herr & Hre & Hdi) by (by eapply Forall_lookup_1; [apply (dk_running _ _ Hdk)|]).
  assert (job_ok j) as Hj by (pose proof (dk_jobs _ _ Hdk) as H; rewrite Hop in H; by apply Forall_inv in H).
  destruct (set_inLoop (pb_phase s) d (reported i j' d) Hd) as [Hl Hh]. split.
  - eapply (report_relays s _ (pb_phase s) d i j j' []); try done; [by destruct Hj|simpl; by rewrite Hdi, app_nil_r|].
    split; try done. simpl. by rewrite app_nil_r.
  - split; [by destruct (pb_phase s); simplify_eq/=|]. cbn [pb_phase set_phase pb_world]. rewrite Hh. eapply ledger_perm; [|exact Hok].
    transitivity (books d ++ held_jobs (open_jobs d)); [by destruct (pb_phase s); simplify_eq/=|].
    rewrite (open_held _ _ _ Hop), (open_held _ _ _ (open_reported i j' d)). done.
Qed.

(** ** The dispatcher receives a result *)

Lemma finish_ledger j w p out p' w' dis : ledger_ok (lw w) (held_job j ++ out) ->
  finishWrite onLedger j p w = (p', w', dis) -> ledger_ok (lw w') out /\ p' = set_slot (jb_slot j) None p /\ dis = jb_discard j.
Proof.
  unfold finishWrite, held_job. intros Hok [= <- <- <-]. split; [|done]. destruct (jb_err j) as [[]|]; try done.
  destruct (jb_started j); [by apply (forgetAll_ok (written := written))|by apply (putBack_ok (written := written))].
Qed.

Definition received (j : dispatchJob) (results : list dispatchJob) (d : drain) : drain :=
  set_jobs (dr_running d) results (dr_free d ++ [jb_slot j])
    (match jb_err j with Some _ => dr_failed d ++ [j] | None => dr_failed d end) (dr_taken d) d.

Lemma receive_drain j results d p : dr_results d = j :: results -> drain_ok d p -> drain_ok (received j results d) (set_slot (jb_slot j) None p).
Proof.
  intros Hres [A B C D E]. unfold open_jobs in *. rewrite Hres in *.
  assert (dr_running d ++ j :: results ≡ₚ j :: dr_running d ++ results) as Hop by solve_Permutation.
  rewrite Hop in A, C, D, E. apply Forall_cons in E as [Ej E].
  assert (Forall (fun k => jb_slot k <> jb_slot j) (dr_running d ++ results)) as Hne.
  { assert (NoDup (seq 0 workers)) as Hnd by apply NoDup_seq. rewrite <- D in Hnd. apply NoDup_app in Hnd as (_ & _ & Hnd).
    simpl in Hnd. apply NoDup_cons in Hnd as [Hnd _]. apply Forall_forall. intros k Hk He. apply Hnd. rewrite <- He. by apply list_elem_of_fmap_2. }
  split; unfold open_jobs; cbn [received set_jobs dr_running dr_results dr_free dr_taken dr_failed]; [|done|..].
  - simpl in A. apply Forall_cons in A as [Aj A]. apply Forall_app in A as [A1 A2]. apply Forall_app. split; [done|].
    destruct (jb_err j); [|done]. apply Forall_app. split; [done|by apply Forall_singleton].
  - change (waiting (set_slot _ _ p)) with (waiting p). destruct (jb_err j).
    + eapply ordered_perm; [|done|done|exact C]. solve_Permutation.
    + by apply ordered_drop in C.
  - rewrite <- D. simpl. solve_Permutation.
  - simpl. rewrite Forall_forall in *. intros k Hk. rewrite list_lookup_insert_ne; [auto|]. intros He. by apply (Hne k).
Qed.
Lemma receive_ok j results d s p w dis : pb_phase s = Wait d -> dr_results d = j :: results -> relays_ok s -> charges_ok s ->
  finishWrite onLedger j (pb_pub s) (pb_world s) = (p, w, dis) ->
  let s' := set_phase (Pump (received j results d)) (add_discarded dis (set_world w (set_pub p s))) in
  relays_ok s' /\ charges_ok s'.
Proof.
  intros Hph Hres Hr [Hwf Hok] Hfin. pose proof (ro_drain _ Hr d ltac:(by rewrite Hph)) as Hdk. rewrite Hph in Hwf, Hok.
  assert (open_jobs d ≡ₚ j :: dr_running d ++ results) as Hop by (unfold open_jobs; rewrite Hres; solve_Permutation).
  assert (job_ok j) as Hj by (pose proof (dk_jobs _ _ Hdk) as H; rewrite Hop in H; by apply Forall_inv in H).
  apply (finish_ledger _ _ _ (books d ++ held_jobs (dr_running d ++ results))) in Hfin as (Hled & -> & ->); cycle 1.
  { eapply ledger_perm; [|exact Hok]. simpl. rewrite (open_held _ _ _ Hop). solve_Permutation. }
  split; [|by split]. destruct Hr as [A B C D E F G _].
  split; cbn [set_phase add_discarded set_world set_pub pb_pub pb_phase pb_published pb_discarded pb_abandoned]; try done.
  - destruct A. by split.
  - simpl. by rewrite length_insert.
  - change (waiting (set_slot _ _ _)) with (waiting (pb_pub s)). change (bp_enqueued (set_slot _ _ _)) with (bp_enqueued (pb_pub s)).
    rewrite <- F, Hph, (flight_cons (Wait d) d j (dr_running d ++ results) eq_refl Hop). unfold in_flight, open_jobs. simpl.
    rewrite !fmap_app. destruct (jb_err j) eqn:He.
    + rewrite !retries_app, retries_one, !fmap_app. solve_Permutation.
    + destruct (jo_err _ Hj He) as [-> ->]. rewrite !retries_app, !fmap_app. simpl. solve_Permutation.
  - apply Forall_app. split; [done|apply Hj].
  - intros ? [= <-]. by apply receive_drain.
Qed.

Lemma all_free d p : drain_ok d p -> List.length (dr_free d) = workers -> open_jobs d = [].
Proof.
  intros Hd Hl. pose proof (dk_slots _ _ Hd) as Hs. apply Permutation_length in Hs.
  rewrite length_app, length_fmap, length_seq in Hs. destruct (open_jobs d); [done|]. simpl in Hs. lia.
Qed.

Lemma wait_ok cancelled d s s' : pb_phase s = Wait d -> relays_ok s -> charges_ok s ->
  waitOnce onLedger workers cancelled d s = Some s' -> relays_ok s' /\ charges_ok s'.
Proof.
  intros Hph Hr Hc. pose proof (ro_drain _ Hr d ltac:(by rewrite Hph)) as Hdk. unfold waitOnce.
  destruct (Nat.eqb_spec (List.length (dr_free d)) workers) as [Hall|_]; cycle 1.
  { destruct (dr_results d) as [|j results] eqn:Hres; [done|]. destruct (finishWrite _ _ _ _) as [[p w] dis] eqn:Hfin.
    intros [= <-]. by eapply receive_ok. }
  pose proof (all_free _ _ Hdk Hall) as Hopen. pose proof Hc as [Hwf Hok]. rewrite Hph in Hwf, Hok. destruct Hwf as [Hwc Hwl].
  assert (ledger_ok (lw (pb_world s)) (books d)) as Hbooks.
  { eapply ledger_perm; [|exact Hok]. simpl. unfold held_jobs. rewrite Hopen. simpl. by rewrite app_nil_r. }
  destruct (dr_failed d) as [|j failed] eqn:Hf.
  - assert (in_flight (pb_phase s) = []) as Hnone by (rewrite Hph; unfold in_flight; simpl; by rewrite Hopen, Hf).
    destruct cancelled; [intros [= <-]; split; [by apply leave_relays|by apply leave_ok]|].
    destruct (restCharges (dr_leftover d)) as [leftover rest] eqn:Hrest. apply restCharges_ok in Hrest as (Hl' & Hperm & Hl0); [|done].
    intros [= <-]. destruct (addCharges_ok rest (dr_charges d) Hwc) as [Ha1 Ha2]. split; [|split; [by split|]].
    + apply (relays_frame s); [by split|done|done].
    + simpl. eapply ledger_perm; [|exact Hbooks]. unfold books. simpl. rewrite Ha2, Hl0, Hperm. solve_Permutation.
  - intros [= <-]. rewrite <- Hf. destruct Hdk as [A B C D E]. rewrite Hopen in A, C. simpl in A, C.
    destruct (requeueFailed_ok (dr_failed d) (pb_pub s) (dr_taken d)) as (Hq & Hrest & Hs & Hp); [apply Hr|done| |apply Hr|].
    { eapply Forall_impl; [exact A|]. by intros k []. }
    split; [|by apply leave_ok]. destruct Hr as [R1 R2 R3 R4 R5 R6 R7 _]. destruct Hrest as [_ _ He _ Hi].
    split; cbn [leave returned set_phase set_loop set_world set_pub pb_pub pb_phase pb_published pb_discarded pb_abandoned]; try done.
    + rewrite Hp. apply Forall_app. split; [|done]. unfold retries. apply Forall_concat, Forall_map.
      eapply Forall_impl; [exact A|]. by intros k [].
    + by rewrite He.
    + by rewrite Hi.
    + rewrite He, <- R6, Hph, Hp. unfold in_flight. simpl. rewrite Hopen. simpl. unfold discards. simpl. rewrite !fmap_app. solve_Permutation.
Qed.

Lemma charges_only_ok ir now d s : pb_phase s = ChargesOnly d -> relays_ok s -> charges_ok s ->
  relays_ok (chargesOnce onLedger written ir now d s) /\ charges_ok (chargesOnce onLedger written ir now d s).
Proof.
  intros Hph Hr [Hwf Hok]. rewrite Hph in Hwf, Hok. destruct Hwf as [Hwc Hwl]. unfold chargesOnce.
  assert (in_flight (pb_phase s) = []) as Hnone by (by rewrite Hph).
  destruct (takeCharges (dr_charges d) 128) as [charges part] eqn:Ht. apply takeCharges_ok in Ht as (Hwc' & Hperm & _); [|done].
  set (d0 := set_books _ _ _ d).
  assert (ledger_ok (lw (pb_world s)) (part ++ books d0)) as Hok0.
  { eapply ledger_perm; [|exact Hok]. unfold books, d0. simpl. unfold books. rewrite Hperm. solve_Permutation. }
  destruct part as [|c part]; [split; [by apply leave_relays|by apply leave_ok]|].
  destruct (writeChunk _ _ _ ir [] _ _) as [[w answered] wc] eqn:Hw.
  apply (writeChunk_ok _ _ _ _ _ (books d0)) in Hw as (Hled & _); [|by constructor|done].
  set (s1 := set_world w (set_pub _ s)). assert (same_place s s1) as Hsame by (destruct (mark_place s answered now); by split).
  assert (relays_ok s1) as Hr1 by (by apply (relays_pub s)). destruct (wc_err wc).
  - split; [by apply leave_relays|by apply leave_ok].
  - split; [|by split]. apply (relays_frame s1); [by split|done|done].
Qed.
(** ** Every step *)

Lemma flush_ok operable now s : pb_phase s = Idle -> relays_ok s -> charges_ok s ->
  let s' := beginDispatch onLedger lw workers operable now (set_loop LFlush s) in relays_ok s' /\ charges_ok s'.
Proof.
  intros Hi Hr [A B]. apply begin_ok; [done| |by split]. by apply (relays_pub s).
Qed.

Lemma abandon_ok s : pb_phase s = Idle -> relays_ok s -> charges_ok s -> relays_ok (abandon s) /\ charges_ok (abandon s).
Proof.
  intros Hi Hr [A B]. split; [|by split]. destruct Hr as [R1 R2 R3 R4 R5 R6 R7 _].
  split; cbn [abandon drainAbandoned pb_pub pb_phase pb_published pb_discarded pb_abandoned]; try done.
  - constructor.
  - cbn [set_queue bp_enqueued]. rewrite <- R6, Hi. unfold waiting at 1. simpl. rewrite !fmap_app. solve_Permutation.
  - intros d Hd. by rewrite Hi in Hd.
Qed.

Lemma world_ledger_ok s f : charges_ok s -> ledger_ok (f (lw (pb_world s))) (held (pb_phase s)) -> charges_ok (set_world (onLedger f (pb_world s)) s).
Proof. intros [A B] Hf. split; [done|]. simpl. by rewrite lw_on. Qed.

Lemma step_ok s s' : step s s' -> relays_ok s /\ charges_ok s -> relays_ok s' /\ charges_ok s'.
Proof.
  intros (e & Hev & Hex) [Hr Hc]. pose proof (co_ledger _ Hc) as Hok.
  assert (forall w, relays_ok (set_world w s)) as Hworld by (intros w; by apply (relays_pub s)).
  destruct e; simpl in Hev, Hex.
  - injection Hex as <-. split; [by apply publish_relays|by destruct Hc].
  - injection Hex as <-. split; [|by destruct Hc]. apply (relays_pub s); [|done..]. split; try done. intros []. by split.
  - injection Hex as <-. split; [apply Hworld|]. apply world_ledger_ok; [done|]. destruct Hev. by apply Add_ok.
  - injection Hex as <-. split; [apply Hworld|]. apply world_ledger_ok; [done|]. by apply drop_ok.
  - destruct (pb_phase s) eqn:Hph; try done. destruct (pb_loop s); try done. injection Hex as <-.
    split; [|by destruct Hc]. apply (relays_pub s); [apply beat_place|done..].
  - destruct (pb_phase s) eqn:Hph; try done. destruct (pb_loop s); try done. injection Hex as <-. by apply begin_ok.
  - destruct (pb_phase s) eqn:Hph; try done. injection Hex as <-. by apply pump_ok.
  - destruct (pb_phase s) eqn:Hph; try done. by eapply wait_ok.
  - destruct (pb_phase s) as [|d|d|] eqn:Hph; try done; destruct (answerJob _ _ i xr ir now d s) as [[d' s1]|] eqn:Ha; try done; injection Hex as <-;
      apply (answer_ok _ _ _ _ _ _ _ _) in Ha; rewrite ?Hph in *; try done.
  - destruct (pb_phase s) as [|d|d|] eqn:Hph; try done; destruct (panicJob i d) as [d'|] eqn:Ha; try done; injection Hex as <-;
      apply (panic_ok _ _ s) in Ha; rewrite ?Hph in *; try done.
  - destruct (pb_phase s) eqn:Hph; try done. injection Hex as <-. by apply charges_only_ok.
  - injection Hex as <-. split; [|by destruct Hc]. apply (relays_pub s); [|done..]. split; try done. intros []. by split.
  - destruct (pb_phase s) eqn:Hph; try done. destruct (pb_loop s); try done. destruct (bp_closed (pb_pub s)); try done. injection Hex as <-. by apply flush_ok.
  - destruct (pb_phase s) eqn:Hph; try done. destruct (pb_loop s); try done. injection Hex as <-. by apply abandon_ok.
Qed.

Lemma start_ok w : ledger_ok (lw w) [] -> relays_ok (publisher_0 workers w) /\ charges_ok (publisher_0 workers w).
Proof.
  intros Hok. split; [|by split]. split; try done; simpl; [constructor|by rewrite length_replicate].
Qed.

Lemma run_ok w s : ledger_ok (lw w) [] -> rtc step (publisher_0 workers w) s -> relays_ok s /\ charges_ok s.
Proof.
  intros Hok Hrun. pose proof (start_ok w Hok) as Hs. induction Hrun as [|s0 s1 s2 H01 _ IH]; [done|].
  by apply IH, (step_ok s0).
Qed.

(** ** What the publisher promises *)

(** C14. Fewer than 2^64 relays accepted, in any interleaving of publishes,
    ticks, writes that succeed, fail or never report, requeues, the final flush
    and Close: every accepted relay is in exactly one place (waiting, in flight,
    published, discarded or abandoned at Close), what waits is in arrival order
    even after failed writes and its bytes are counted exactly, a relay is
    discarded only when its stream is of another type or after ten failed
    dispatches, and the ledger agrees with the charges the dispatch holds, none
    between dispatches. *)
Theorem batch_keeps_relays (w : W) (s : publisher) (Hw : ledger_ok (lw w) []) (Hs : rtc step (publisher_0 workers w) s) :
  nums (waiting (pb_pub s) ++ in_flight (pb_phase s) ++ pb_published s ++ pb_discarded s ++ pb_abandoned s)
    ≡ₚ seqZ 1 (bp_enqueued (pb_pub s)) /\
  StronglySorted Z.lt (nums (waiting (pb_pub s))) /\
  QueuedBytes (pb_pub s) = bytes0 (waiting (pb_pub s)) /\
  Forall given_up (pb_discarded s) /\
  ledger_ok (lw (pb_world s)) (held (pb_phase s)).
Proof. destruct (run_ok _ _ Hw Hs) as [[[] ? ? ? ? ? ? ?] []]. done. Qed.

(** Every EXEC the dispatcher keeps in flight has at most 256 commands, an
    INCRBY and an EXPIRE for each of its charges included, and at most 1 MiB of
    relays or a single relay. A take that leaves relays behind does not cut a
    run of one stream, unless the whole chunk is of that stream. *)
Theorem batch_chunks_bounded (w : W) (s : publisher) (Hw : ledger_ok (lw w) []) (Hs : rtc step (publisher_0 workers w) s) :
  (forall d j, in_loop (pb_phase s) = Some d -> j ∈ open_jobs d -> job_small j) /\
  (forall cutoff p' chunk, takeChunkBefore cutoff (pb_pub s) = (p', chunk) -> chunk <> [] ->
     waiting (pb_pub s) = chunk ++ waiting p' /\ cut_fits (waiting (pb_pub s)) (List.length chunk)).
Proof.
  destruct (run_ok _ _ Hw Hs) as [Hr _]. split.
  - intros d j Hd Hj. pose proof (dk_jobs _ _ (ro_drain _ Hr d Hd)) as HF. rewrite Forall_forall in HF. apply HF. set_solver.
  - intros cutoff p' chunk Ht Hne. apply takeChunk_ok in Ht as (? & _ & _ & Hfit); [by auto|apply Hr|].
    eapply Forall_impl; [apply (ro_fine _ Hr)|]. by intros q [? _].
Qed.

Lemma oldest_le a b x : a = Some x \/ b = Some x -> exists o, oldest a b = Some o /\ o <= x.
Proof. destruct a as [y|], b as [z|]; simpl; try (destruct (Z.ltb_spec z y)); naive_solver lia. Qed.

Lemma oldest_fold l a x : a = Some x \/ Some x ∈ l -> exists o, foldl oldest a l = Some o /\ o <= x.
Proof.
  revert a x. induction l as [|b l IH]; intros a x H; simpl.
  - destruct H as [->|H]; [eauto with lia|by apply not_elem_of_nil in H].
  - assert (Some x ∈ l \/ exists o, oldest a b = Some o /\ o <= x) as [Hin|(o & Ho & Hle)].
    { destruct H as [H|[H|H]%elem_of_cons]; [right; apply oldest_le; auto..|by left]. }
    + apply IH. by right.
    + destruct (IH (oldest a b) o) as (o' & ? & ?); [by left|]. exists o'. split; [done|lia].
Qed.

(** Admission open ([DispatcherHealthy] answers yes): Redis answered within
    the silence budget, and every write in flight started within it, so no
    charge rides in a write that has hung for longer than the budget. *)
Theorem admission_covers_writes (w : W) (s : publisher) (budget now : Z) (Hw : ledger_ok (lw w) [])
  (Hs : rtc step (publisher_0 workers w) s) (Hh : DispatcherHealthy budget now (pb_pub s) = Ok tt) :
  (exists last, bp_lastSuccess (pb_pub s) = Some last /\ now - last <= budget) /\
  forall d j, in_loop (pb_phase s) = Some d -> j ∈ open_jobs d -> now - jb_startedAt j <= budget.
Proof.
  destruct (run_ok _ _ Hw Hs) as [Hr _]. unfold DispatcherHealthy in Hh. destruct (bp_lastSuccess (pb_pub s)) as [last|]; [|done].
  destruct (Z.ltb_spec budget (now - match oldestInFlight (pb_pub s) with Some since => if since <? last then since else last | None => last end)) as [|Hm]; [done|].
  split.
  - exists last. split; [done|]. destruct (oldestInFlight _) as [o|]; [|done]. destruct (Z.ltb_spec o last); lia.
  - intros d j Hd Hj. pose proof (dk_inFlight _ _ (ro_drain _ Hr d Hd)) as HF. rewrite Forall_forall in HF. specialize (HF _ Hj).
    destruct (oldest_fold (bp_inFlight (pb_pub s)) None (jb_startedAt j)) as (o & Ho & Hle).
    { right. by apply list_elem_of_lookup_2 in HF. }
    unfold oldestInFlight in Hm. rewrite Ho in Hm. destruct (Z.ltb_spec o last); lia.
Qed.
End Safety.

(** ** Example runs *)

Section Runs.
Context {W : Type} (onLedger : (ChargeLedger -> ChargeLedger) -> W -> W)
  (written : option (string -> Z -> Z -> W -> W)) (lw : W -> ChargeLedger) (workers : nat) (interval : Z).

Fixpoint run_events (es : list bevent) (s : publisher) : option publisher :=
  match es with
  | [] => Some s
  | e :: es => match exec_event onLedger written lw workers interval e s with Some s => run_events es s | None => None end
  end.

(** The assumptions of the events of a run, one by one. *)
Fixpoint events_ok (es : list bevent) (s : publisher) : Prop :=
  match es with
  | [] => True
  | e :: es =>
      event_ok lw e s /\
      match exec_event onLedger written lw workers interval e s with Some s => events_ok es s | None => True end
  end.

Lemma run_events_rtc es s s' : events_ok es s -> run_events es s = Some s' -> rtc (pub_step onLedger written lw workers interval) s s'.
Proof.
  revert s. induction es as [|e es IH]; intros s; simpl; [by intros _ [= <-]|]. intros [He Hok] Hrun.
  destruct (exec_event _ _ _ _ _ e s) as [s1|] eqn:Hx; [|done]. eapply rtc_l; [by exists e|by apply IH].
Qed.
End Runs.

Module BatchExample.
Definition onL (f : ChargeLedger -> ChargeLedger) (l : ChargeLedger) : ChargeLedger := f l.

#[export] Instance plain_world : LedgerWorld ChargeLedger onL None id.
Proof. by split. Qed.

(** Three relays of two suppliers and a charge; the write of the chunk is
    answered for the first relay only, the third one's stream is no stream. *)
Definition replies (i : nat) : Reply := match i with 0%nat => ROk 0 | 1%nat => RErr | _ => RWrongType end.
Definition batch_events : list bevent :=
  [ ESetLedger; EBeat true 1;
    EPublish 2 "sup1" "svc" (Ok ("s:sup1", "a")); EPublish 3 "sup1" "svc" (Ok ("s:sup1", "b")); EPublish 4 "sup2" "svc" (Ok ("s:sup2", "c"));
    EServe "meter:1" "sup1" 7 60; ETick true 5; EPump false false 6;
    EPublish 7 "sup2" "svc" (Ok ("s:sup2", "d")) ].
Definition batch_rest : list bevent := [ EAnswer 0 replies (fun _ => ROk 7) 8; EPump false false 9; EWait false; EPump false false 10; EWait false ].

Abbreviation batch_run es := (run_events onL None id 1 100 es (publisher_0 1 NewChargeLedger)).
Definition mid : option publisher := Eval vm_compute in batch_run batch_events.
Definition fin : option publisher := Eval vm_compute in batch_run (batch_events ++ batch_rest).
Definition mid_state : publisher := Eval vm_compute in default (publisher_0 1 NewChargeLedger) mid.
Definition fin_state : publisher := Eval vm_compute in default (publisher_0 1 NewChargeLedger) fin.

Lemma mid_runs : rtc (pub_step onL None id 1 100) (publisher_0 1 NewChargeLedger) mid_state.
Proof. apply (run_events_rtc onL None id 1 100 batch_events); [|by vm_compute]. vm_compute. repeat split; discriminate. Qed.

Lemma fin_runs : rtc (pub_step onL None id 1 100) (publisher_0 1 NewChargeLedger) fin_state.
Proof. apply (run_events_rtc onL None id 1 100 (batch_events ++ batch_rest)); [|by vm_compute]. vm_compute. repeat split; discriminate. Qed.

(** The first relay is published, the second and the fourth wait, the third is
    discarded, the charge is written. *)
Lemma batch_keeps_relays_witness :
  (nums (waiting (pb_pub fin_state)) = [2; 4] /\ nums (pb_published fin_state) = [1] /\ nums (pb_discarded fin_state) = [3]) /\
  Forall given_up (pb_discarded fin_state) /\ ledger_ok (pb_world fin_state) [].
Proof.
  split; [by vm_compute|].
  destruct (batch_keeps_relays (LW := plain_world) 1 100 NewChargeLedger fin_state NewChargeLedger_ok fin_runs) as (_ & _ & _ & H1 & H2).
  exact (conj H1 H2).
Defined.

Lemma batch_chunks_bounded_witness :
  exists d j, in_loop (pb_phase mid_state) = Some d /\ open_jobs d = [j] /\ List.length (jb_chunk j) = 3%nat /\ job_small j.
Proof.
  destruct (batch_chunks_bounded (LW := plain_world) 1 100 NewChargeLedger mid_state NewChargeLedger_ok mid_runs) as [H _].
  eexists _, _. split_and!; [reflexivity|reflexivity|reflexivity|]. eapply H; [reflexivity|]. apply list_elem_of_here.
Defined.

Lemma admission_covers_writes_witness :
  DispatcherHealthy (dispatcherSilenceBudget None) 20 (pb_pub mid_state) = Ok tt /\
  exists last, bp_lastSuccess (pb_pub mid_state) = Some last /\ 20 - last <= dispatcherSilenceBudget None.
Proof.
  split; [reflexivity|].
  destruct (admission_covers_writes (LW := plain_world) 1 100 NewChargeLedger mid_state (dispatcherSilenceBudget None) 20 NewChargeLedger_ok mid_runs eq_refl) as [H _].
  exact H.
Defined.
End BatchExample.
