(* ===== verification/RebroadcastStore.v ===== *)
(** * Payloads to resend (miner/rebroadcast_store.go, miner/pebble_rebroadcast.go)

    [RebroadcastOps] is the interface RebroadcastStorage: per phase and group (a
    supplier's sessions with one end height) the built messages whose inclusion
    on chain is not confirmed. [rs_pending] is what List answers at an instant.
    [RebroadcastLaws] is what each call promises when its round trips fail: it
    touches its own session only, and a group with a pending payload is among
    the active ones. [RedisRebroadcast] and [PebbleRebroadcast] are the two
    implementations; the inclusion reconciler is proved against the interface.

    Both expire a group some time after the last payload was put in it: Redis by
    the TTL of its keys, so every call runs on the server at its instant, the
    standalone store by a deadline it keeps itself. *)

From S2P Require Import Prelude SessionState StoreSpec KeyBuilder RedisModel PebbleModel PebbleQueue PebbleSMST.
From Stdlib Require Import Ascii String.

Local Open Scope string_scope.
Local Open Scope Z_scope.

Inductive RebroadcastPhase := RebroadcastPhaseClaim | RebroadcastPhaseProof.

#[export] Instance RebroadcastPhase_eq_dec : EqDecision RebroadcastPhase.
Proof. solve_decision. Defined.

Definition string_of_phase (ph : RebroadcastPhase) : string :=
  match ph with RebroadcastPhaseClaim => "claim" | RebroadcastPhaseProof => "proof" end.

Record RebroadcastGroup := mkGroup { rg_Supplier : string; rg_SessionEnd : Z }.

#[export] Instance RebroadcastGroup_eq_dec : EqDecision RebroadcastGroup.
Proof. solve_decision. Defined.

(** A supplier address holds neither separator; an end height is an int64. *)
Definition group_ok (g : RebroadcastGroup) : Prop :=
  no_colon (rg_Supplier g) /\ no_nul (rg_Supplier g) /\ in_int64 (rg_SessionEnd g).

(** ** The interface *)

(** [rs_time] holds of the instants a put can stamp. *)

Class RebroadcastOps (D : Type) := {
  rs_pending : Z -> D -> RebroadcastPhase -> RebroadcastGroup -> gmap string string;
  rs_ok : D -> Prop;
  rs_time : Z -> Prop;
  rs_put : Io -> Z -> D -> RebroadcastPhase -> RebroadcastGroup -> string -> string -> D * result unit StoreErr;
  rs_list : Io -> Z -> D -> RebroadcastPhase -> RebroadcastGroup -> result (gmap string string) StoreErr;
  rs_delete : Io -> Z -> D -> RebroadcastPhase -> RebroadcastGroup -> string -> D * result unit StoreErr;
  rs_cleanup : Io -> Z -> D -> RebroadcastPhase -> RebroadcastGroup -> D * result unit StoreErr;
  rs_active : Io -> Z -> D -> RebroadcastPhase -> D * result (list RebroadcastGroup) StoreErr
}.

Section Contract.
Context {D : Type} `{RO : !RebroadcastOps D}.

(** No group but [g] of [ph] changed. *)
Definition others_same (now : Z) (ph : RebroadcastPhase) (g : RebroadcastGroup) (d d' : D) : Prop :=
  forall ph' g', group_ok g' -> (ph', g') <> (ph, g) -> rs_pending now d' ph' g' = rs_pending now d ph' g'.

(** A call that does [f] to the group's payloads: done when it answered, done
    or not when it failed. *)
Definition changes (now : Z) (ph : RebroadcastPhase) (g : RebroadcastGroup) (f : gmap string string -> gmap string string)
    (d d' : D) (r : result unit StoreErr) : Prop :=
  rs_ok d' /\ others_same now ph g d d' /\
  (rs_pending now d' ph g = f (rs_pending now d ph g) \/
   (is_ok r = false /\ rs_pending now d' ph g = rs_pending now d ph g)).

Definition unchanged (now : Z) (d d' : D) : Prop :=
  rs_ok d' /\ forall ph g, group_ok g -> rs_pending now d' ph g = rs_pending now d ph g.
End Contract.

Class RebroadcastLaws (D : Type) `{RO : !RebroadcastOps D} := {
  put_law io now d ph g sid v d' r :
    rs_ok d -> group_ok g -> rs_time now -> rs_put io now d ph g sid v = (d', r) -> changes now ph g (insert sid v) d d' r;
  list_law io now d ph g m : rs_list io now d ph g = Ok m -> m = rs_pending now d ph g;
  list_answers now d ph g : rs_ok d -> group_ok g -> rs_list io_ok now d ph g = Ok (rs_pending now d ph g);
  delete_law io now d ph g sid d' r :
    rs_ok d -> group_ok g -> rs_delete io now d ph g sid = (d', r) -> changes now ph g (delete sid) d d' r;
  cleanup_law io now d ph g d' r : rs_ok d -> group_ok g -> rs_cleanup io now d ph g = (d', r) -> unchanged now d d';
  active_law io now d ph d' r : rs_ok d -> rs_active io now d ph = (d', r) -> unchanged now d d' /\
    match r with
    | Ok gs => NoDup gs /\ (forall g, g ∈ gs -> group_ok g) /\ (forall g, group_ok g -> rs_pending now d ph g <> ∅ -> g ∈ gs)
    | Err _ => True
    end;
  pending_later now now' d ph g :
    now <= now' -> rs_pending now' d ph g = rs_pending now d ph g \/ rs_pending now' d ph g = ∅
}.

(** ** Redis *)

(** [strings.LastIndex(m, ":")]: what is before and after the last colon. *)
Fixpoint cut_last (s : string) : option (string * string) :=
  match s with
  | EmptyString => None
  | String c s' =>
      match cut_last s' with
      | Some (a, b) => Some (String c a, b)
      | None => if Ascii.eqb c ":" then Some ("", s') else None
      end
  end.

Definition indexMember (g : RebroadcastGroup) : string := rg_Supplier g +:+ ":" +:+ format_int (rg_SessionEnd g).

Definition parseMember (m : string) : option RebroadcastGroup :=
  match cut_last m with
  | None => None
  | Some (supplier, rest) =>
      match ParseInt rest with
      | Some sessionEnd => Some (mkGroup supplier sessionEnd)
      | None => None
      end
  end.

Section Redis.
Context {R : Type} `{RO : !RedisOps R} `{RC : !RedisClock R}.
Variables (kb : KeyBuilder) (ttl : Z).

Definition groupKey (ph : RebroadcastPhase) (g : RebroadcastGroup) : string :=
  RebroadcastKey kb (string_of_phase ph) (rg_Supplier g) (rg_SessionEnd g).
Definition indexKey (ph : RebroadcastPhase) : string := RebroadcastIndexKey kb (string_of_phase ph).

Definition trip_err {A} (p : R * result A IoErr) : R * result A StoreErr :=
  (fst p, match snd p with Ok a => Ok a | Err e => Err (ErrIo e) end).

(** The commands of Put's MULTI. *)
Definition putCommands (ph : RebroadcastPhase) (g : RebroadcastGroup) (sid payload : string) (r : R) : R :=
  let r := r_expire (groupKey ph g) ttl (r_hset (groupKey ph g) [(sid, payload)] r) in
  r_expire (indexKey ph) ttl (fst (r_sadd (indexKey ph) (indexMember g) r)).

Definition rr_put (io : Io) (now : Z) (r : R) ph g sid payload : R * result unit StoreErr :=
  trip_err (round_trip (io 0%nat) (fun r => (putCommands ph g sid payload r, tt)) (r_at now r)).

Definition rr_list (io : Io) (now : Z) (r : R) ph g : result (gmap string string) StoreErr :=
  match read_trip (io 0%nat) (hash_of (rview (r_at now r) !! groupKey ph g)) with Ok m => Ok m | Err e => Err (ErrIo e) end.

Definition deleteScript (ph : RebroadcastPhase) (g : RebroadcastGroup) (sid : string) (r : R) : R :=
  let r := r_hdel (groupKey ph g) [sid] r in
  if bool_decide (hash_of (rview r !! groupKey ph g) = ∅) then r_srem (indexKey ph) (indexMember g) r else r.

Definition rr_delete (io : Io) (now : Z) (r : R) ph g sid : R * result unit StoreErr :=
  trip_err (round_trip (io 0%nat) (fun r => (deleteScript ph g sid r, tt)) (r_at now r)).

Definition cleanupIfEmptyScript (ph : RebroadcastPhase) (g : RebroadcastGroup) (r : R) : R :=
  match r_type r (groupKey ph g) with TNone => r_srem (indexKey ph) (indexMember g) r | _ => r end.

Definition rr_cleanup (io : Io) (now : Z) (r : R) ph g : R * result unit StoreErr :=
  trip_err (round_trip (io 0%nat) (fun r => (cleanupIfEmptyScript ph g r, tt)) (r_at now r)).

Definition rr_active (io : Io) (now : Z) (r : R) ph : R * result (list RebroadcastGroup) StoreErr :=
  (r, match read_trip (io 0%nat) (r_smembers (r_at now r) (indexKey ph)) with
      | Ok members => Ok (omap parseMember members)
      | Err e => Err (ErrIo e)
      end).

(** The keys are of their types, every group that holds payloads is in the
    index and expires no later than it, and the index holds groups. *)
Record redis_ok (r : R) : Prop := {
  rk_hash ph g : group_ok g -> takes_hash (rview r !! groupKey ph g);
  rk_full ph g : group_ok g -> rview r !! groupKey ph g <> Some (RHash ∅);
  rk_index ph : takes_set (rview r !! indexKey ph);
  rk_member ph g : group_ok g -> hash_of (rview r !! groupKey ph g) <> ∅ -> indexMember g ∈ set_of (rview r !! indexKey ph);
  rk_known ph m : m ∈ set_of (rview r !! indexKey ph) -> exists g, group_ok g /\ m = indexMember g;
  rk_deadline ph g : group_ok g -> is_Some (rview r !! groupKey ph g) ->
    exists e e', r_deadline r (groupKey ph g) = Some e /\ r_deadline r (indexKey ph) = Some e' /\ e <= e' /\ e <= r_now r + ttl * Second
}.

#[export] Instance RedisRebroadcast : RebroadcastOps R := {
  rs_pending := fun now r ph g => hash_of (rview (r_at now r) !! groupKey ph g);
  rs_ok := redis_ok;
  rs_time := fun _ => True;
  rs_put := rr_put; rs_list := rr_list; rs_delete := rr_delete; rs_cleanup := rr_cleanup; rs_active := rr_active
}.
End Redis.

(** ** The embedded store *)

Definition pebbleRebroadcastPrefix : string := "rb" +:+ nul.
Definition pebbleRebroadcastGroupPrefix : string := "rbg" +:+ nul.

Definition rebroadcastGroupPart (ph : RebroadcastPhase) (g : RebroadcastGroup) : string :=
  string_of_phase ph +:+ nul +:+ rg_Supplier g +:+ nul +:+ PutUint64 (rg_SessionEnd g).
Definition payloadPrefix (ph : RebroadcastPhase) (g : RebroadcastGroup) : string := pebbleRebroadcastPrefix +:+ rebroadcastGroupPart ph g.
Definition pebbleGroupKey (ph : RebroadcastPhase) (g : RebroadcastGroup) : string := pebbleRebroadcastGroupPrefix +:+ rebroadcastGroupPart ph g.

(** The group of a key below the phase's prefix: the supplier, a NUL, eight
    bytes. *)
Definition parseGroup (rest : string) : option RebroadcastGroup :=
  let n := String.length rest in
  if Nat.ltb n 9 then None
  else if negb (String.eqb (str_take 1 (str_drop (n - 9) rest)) nul) then None
  else Some (mkGroup (str_take (n - 9) rest) (wrap64 (Uint64 (str_drop (n - 8) rest)))).

Section Pebble.
Context {D : Type} `{PO : !PebbleOps D}.
Variable ttl : Z.

Definition groupLive (f : Fault) (d : D) (key : string) (now : Z) : result bool StoreErr :=
  match p_get f d key with
  | Err e => Err e
  | Ok None => Ok false
  | Ok (Some raw) =>
      match DecodeValue raw now with
      | Err e => Err e
      | Ok (_, _, expired) => Ok (negb expired)
      end
  end.

Definition dropGroup (ph : RebroadcastPhase) (g : RebroadcastGroup) : list pwrite :=
  [PDeleteRange (payloadPrefix ph g) (keyUpperBound (payloadPrefix ph g)); PDelete (pebbleGroupKey ph g)].

Definition putBatch (live : bool) (now : Z) (ph : RebroadcastPhase) (g : RebroadcastGroup) (sid payload : string) : list pwrite :=
  ((if live then [] else dropGroup ph g) ++
   [PSet (payloadPrefix ph g +:+ sid) payload; PSet (pebbleGroupKey ph g) (EncodeValue (now + ttl) "")])%list.

(** [Put]: the batch under the mutex, then the fsync. *)
Definition pr_put (io : Io) (now : Z) (d : D) ph g sid payload : D * result unit StoreErr :=
  match groupLive (io 0%nat) d (pebbleGroupKey ph g) now with
  | Err e => (d, Err e)
  | Ok live =>
      match p_write (io 1%nat) (putBatch live now ph g sid payload) d with
      | (d', Err e) => (d', Err e)
      | (d', Ok _) => (d', match read_trip (io 2%nat) tt with Ok _ => Ok tt | Err e => Err (ErrIo e) end)
      end
  end.

Definition payloads (d : D) (prefix : string) : gmap string string :=
  list_to_map (map (fun kv => (str_drop (String.length prefix) kv.1, kv.2)) (p_iter d prefix (keyUpperBound prefix))).

Definition pr_list (io : Io) (now : Z) (d : D) ph g : result (gmap string string) StoreErr :=
  match groupLive (io 0%nat) d (pebbleGroupKey ph g) now with
  | Err e => Err e
  | Ok false => Ok ∅
  | Ok true => match read_trip (io 1%nat) (payloads d (payloadPrefix ph g)) with Ok m => Ok m | Err e => Err (ErrIo e) end
  end.

Definition groupEmpty (f : Fault) (d : D) ph g : result bool StoreErr :=
  match prefixScan f d (payloadPrefix ph g) with
  | Err e => Err e
  | Ok l => Ok (match l with [] => true | _ => false end)
  end.

Definition pr_delete (io : Io) (now : Z) (d : D) ph g sid : D * result unit StoreErr :=
  match p_write (io 0%nat) [PDelete (payloadPrefix ph g +:+ sid)] d with
  | (d1, Err e) => (d1, Err e)
  | (d1, Ok _) =>
      match groupEmpty (io 1%nat) d1 ph g with
      | Err e => (d1, Err e)
      | Ok false => (d1, Ok tt)
      | Ok true => p_write (io 2%nat) (dropGroup ph g) d1
      end
  end.

Definition pr_cleanup (io : Io) (now : Z) (d : D) ph g : D * result unit StoreErr :=
  match groupLive (io 0%nat) d (pebbleGroupKey ph g) now with
  | Err e => (d, Err e)
  | Ok false => p_write (io 2%nat) (dropGroup ph g) d
  | Ok true =>
      match groupEmpty (io 1%nat) d ph g with
      | Err e => (d, Err e)
      | Ok false => (d, Ok tt)
      | Ok true => p_write (io 2%nat) (dropGroup ph g) d
      end
  end.

Definition phasePrefix (ph : RebroadcastPhase) : string := pebbleRebroadcastGroupPrefix +:+ string_of_phase ph +:+ nul.

(** The loop of ActiveGroups over the group records: live and expired. *)
Fixpoint sortGroups (prefix : string) (now : Z) (l : list (string * string)) : list RebroadcastGroup * list RebroadcastGroup :=
  match l with
  | [] => ([], [])
  | (k, v) :: l =>
      let '(groups, expired) := sortGroups prefix now l in
      match parseGroup (str_drop (String.length prefix) k) with
      | None => (groups, expired)
      | Some g =>
          match DecodeValue v now with
          | Ok (_, _, true) => (groups, g :: expired)
          | _ => (g :: groups, expired)
          end
      end
  end.

Definition pr_active (io : Io) (now : Z) (d : D) ph : D * result (list RebroadcastGroup) StoreErr :=
  match prefixScan (io 0%nat) d (phasePrefix ph) with
  | Err e => (d, Err e)
  | Ok l =>
      let '(groups, expired) := sortGroups (phasePrefix ph) now l in
      match expired with
      | [] => (d, Ok groups)
      | _ =>
          match p_write (io 1%nat) (List.concat (map (dropGroup ph) expired)) d with
          | (d', Err e) => (d', Err e)
          | (d', Ok _) => (d', Ok groups)
          end
      end
  end.

(** The payloads while the group's record is within its expiry. *)
Definition pr_pending (now : Z) (d : D) ph g : gmap string string :=
  match groupLive FNone d (pebbleGroupKey ph g) now with
  | Ok true => payloads d (payloadPrefix ph g)
  | _ => ∅
  end.

(** The group records are those of groups, and their values decode. *)
Definition pebble_ok (d : D) : Prop :=
  forall k v, pview d !! k = Some v -> has_prefix pebbleRebroadcastGroupPrefix k = true ->
  (exists ph g, group_ok g /\ k = pebbleGroupKey ph g) /\ (8 <= String.length v)%nat.

#[export] Instance PebbleRebroadcast : RebroadcastOps D := {
  rs_pending := pr_pending;
  rs_ok := pebble_ok;
  rs_time := fun now => expiry_ok (now + ttl);
  rs_put := pr_put; rs_list := pr_list; rs_delete := pr_delete; rs_cleanup := pr_cleanup; rs_active := pr_active
}.
End Pebble.
