(* ===== verification/RebroadcastRefines.v ===== *)
(** * Both rebroadcast stores keep the contract

    The Redis store and the embedded one discharge [RebroadcastLaws]: what a
    call does to its group, that it leaves the other groups alone, and that a
    group with a payload is never missing from the active ones. *)

From S2P Require Import Prelude SessionState StoreSpec KeyBuilder RedisModel PebbleModel PebbleQueue PebbleSMST RebroadcastStore.
From Stdlib Require Import Ascii String.

Local Open Scope string_scope.
Local Open Scope Z_scope.

(** ** Redis *)

Lemma cut_last_none s : no_colon s -> cut_last s = None.
Proof.
  unfold no_colon. induction s as [|c s IH]; [done|]. simpl. intros [Hc Hs]%orb_false_iff. by rewrite IH, Hc.
Qed.

Lemma cut_last_app a b : no_colon b -> cut_last (a +:+ String ":" b) = Some (a, b).
Proof. intros Hb. induction a as [|c a IH]; simpl; [by rewrite cut_last_none|by rewrite IH]. Qed.

Lemma parse_indexMember g : in_int64 (rg_SessionEnd g) -> parseMember (indexMember g) = Some g.
Proof.
  intros Hg. unfold parseMember, indexMember. change (":" +:+ ?x) with (String ":" x).
  rewrite cut_last_app by apply no_colon_format. rewrite ParseInt_format by done. by destruct g.
Qed.

Lemma indexMember_inj g g' : in_int64 (rg_SessionEnd g) -> in_int64 (rg_SessionEnd g') -> indexMember g = indexMember g' -> g = g'.
Proof. intros H H' He. apply (f_equal parseMember) in He. rewrite !parse_indexMember in He by done. congruence. Qed.

Lemma phase_no_colon ph : no_colon (string_of_phase ph).
Proof. by destruct ph. Qed.

Lemma string_of_phase_inj a b : string_of_phase a = string_of_phase b -> a = b.
Proof. by destruct a, b. Qed.

Section Redis.
Context {R : Type} `{RO : !RedisOps R} `{RL : !RedisLaws R} `{RC : !RedisClock R} `{RCL : !RedisClockLaws R}.
Context (kb : KeyBuilder) (ttl : Z) (Hkb : no_colon kb) (Httl : 0 < ttl).
#[local] Instance redis_ops : RebroadcastOps R := RedisRebroadcast kb ttl.
Abbreviation gkey := (groupKey kb).
Abbreviation ikey := (indexKey kb).

Lemma gkey_ne ph g ph' g' : group_ok g -> group_ok g' -> (ph', g') <> (ph, g) -> gkey ph' g' <> gkey ph g.
Proof.
  intros (? & ? & ?) (? & ? & ?) Hne He. apply (render_inj kb kb (KRebroadcast _ _ _) (KRebroadcast _ _ _)) in He as [_ He];
    [|done|done|split; [apply phase_no_colon|done]..].
  injection He as Hp Hs Hend. apply string_of_phase_inj in Hp. destruct g, g'. simpl in *. congruence.
Qed.

Lemma gkey_ikey ph g ph' : group_ok g -> gkey ph g <> ikey ph'.
Proof.
  intros (? & ? & ?). apply (render_ne kb (KRebroadcast _ _ _) (KRebroadcastIndex _)); [done|split; [apply phase_no_colon|done]|apply phase_no_colon|done].
Qed.

Lemma ikey_ne ph ph' : ph <> ph' -> ikey ph <> ikey ph'.
Proof.
  intros Hne. apply (render_ne kb (KRebroadcastIndex _) (KRebroadcastIndex _)); [done|apply phase_no_colon..|].
  intros [= He]. by apply string_of_phase_inj in He.
Qed.

(** A change of one group's payloads and of the index, seen key by key. *)
Definition moved (ph : RebroadcastPhase) (g : RebroadcastGroup) (h : gmap string string) (members : gset string) (r r' : R) : Prop :=
  rview r' !! gkey ph g = (if decide (h = ∅) then None else Some (RHash h)) /\
  takes_set (rview r' !! ikey ph) /\ set_of (rview r' !! ikey ph) = members /\
  forall k, k <> gkey ph g -> k <> ikey ph -> rview r' !! k = rview r !! k.

(** What it does to the deadlines: both keys get their TTL anew, or each keeps
    the deadline it had. *)
Definition renewed (ph : RebroadcastPhase) (g : RebroadcastGroup) (r r' : R) : Prop :=
  r_deadline r' (gkey ph g) = Some (r_now r + ttl * Second) /\ r_deadline r' (ikey ph) = Some (r_now r + ttl * Second).
Definition kept (ph : RebroadcastPhase) (g : RebroadcastGroup) (r r' : R) : Prop :=
  (is_Some (rview r' !! gkey ph g) -> is_Some (rview r !! gkey ph g) /\ r_deadline r' (gkey ph g) = r_deadline r (gkey ph g)) /\
  (is_Some (rview r' !! ikey ph) -> r_deadline r' (ikey ph) = r_deadline r (ikey ph)).
Definition timed (ph : RebroadcastPhase) (g : RebroadcastGroup) (r r' : R) : Prop :=
  r_now r' = r_now r /\ (forall k, k <> gkey ph g -> k <> ikey ph -> r_deadline r' k = r_deadline r k) /\ (renewed ph g r r' \/ kept ph g r r').

Lemma moved_hash ph g h members r r' : moved ph g h members r r' -> hash_of (rview r' !! gkey ph g) = h.
Proof. intros (H & _). rewrite H. by case_decide. Qed.

Lemma member_present k m (v : option rval) : m ∈ set_of v -> k = v -> is_Some k.
Proof. intros Hm ->. destruct v; [done|]. by apply not_elem_of_empty in Hm. Qed.

Lemma moved_ok ph g h members r r' : group_ok g -> redis_ok kb ttl r -> moved ph g h members r r' -> timed ph g r r' ->
  (h <> ∅ -> indexMember g ∈ members) ->
  (forall m, m <> indexMember g -> m ∈ set_of (rview r !! ikey ph) -> m ∈ members) ->
  (forall m, m ∈ members -> m = indexMember g \/ m ∈ set_of (rview r !! ikey ph)) ->
  redis_ok kb ttl r'.
Proof.
  intros Hg [H1 H2 H3 H4 H5 H6] Hm (Hnow & Hdead & Hown) Hin Hother Hknown. pose proof Hm as (Hk & Ht & Hset & Hrest).
  assert (forall ph' g', group_ok g' -> (ph', g') <> (ph, g) -> gkey ph' g' <> gkey ph g /\ gkey ph' g' <> ikey ph) as Hgk.
  { intros ph' g' Hg' Hne. split; [by apply gkey_ne|by apply gkey_ikey]. }
  assert (forall ph', ph' <> ph -> ikey ph' <> gkey ph g /\ ikey ph' <> ikey ph) as Hik.
  { intros ph' Hne. split; [|by apply ikey_ne]. intros He. symmetry in He. by apply gkey_ikey in He. }
  assert (forall ph' g', group_ok g' -> (ph', g') <> (ph, g) -> rview r' !! gkey ph' g' = rview r !! gkey ph' g') as Hsame by (intros; by apply Hrest; apply Hgk).
  assert (forall ph', ph' <> ph -> rview r' !! ikey ph' = rview r !! ikey ph') as Hidx by (intros; by apply Hrest; apply Hik).
  assert (forall ph' g', group_ok g' -> hash_of (rview r' !! gkey ph' g') <> ∅ -> indexMember g' ∈ set_of (rview r' !! ikey ph')) as Hmem.
  { intros ph' g' Hg' Hne0. destruct (decide ((ph', g') = (ph, g))) as [[= -> ->]|Hne].
    { rewrite Hset. apply Hin. by rewrite (moved_hash _ _ _ _ _ _ Hm) in Hne0. }
    rewrite Hsame in Hne0 by done. apply H4 in Hne0; [|done]. destruct (decide (ph' = ph)) as [->|Hp]; [|by rewrite Hidx].
    rewrite Hset. apply Hother; [|done]. intros He. apply Hne. f_equal. apply indexMember_inj; [apply Hg'|apply Hg|done]. }
  assert (forall ph' g', group_ok g' -> takes_hash (rview r' !! gkey ph' g') /\ rview r' !! gkey ph' g' <> Some (RHash ∅)) as Hty.
  { intros ph' g' Hg'. destruct (decide ((ph', g') = (ph, g))) as [[= -> ->]|Hne]; [|rewrite Hsame by done; split; [by apply H1|by apply H2]].
    rewrite Hk. case_decide; (split; [by left + by right|congruence]). }
  split.
  - intros ph' g' Hg'. exact (proj1 (Hty ph' g' Hg')).
  - intros ph' g' Hg'. exact (proj2 (Hty ph' g' Hg')).
  - intros ph'. destruct (decide (ph' = ph)) as [->|Hne]; [done|]. rewrite Hidx by done. apply H3.
  - done.
  - intros ph' m Hin'. destruct (decide (ph' = ph)) as [->|Hp]; [|rewrite Hidx in Hin' by done; by eapply H5].
    rewrite Hset in Hin'. destruct (Hknown m Hin') as [->|Hm']; [by eexists|by eapply H5].
  - intros ph' g' Hg' Hsome. assert (is_Some (rview r' !! ikey ph')) as Hipres.
    { destruct (Hty ph' g' Hg') as [[E|E] Hnz]; destruct (rview r' !! gkey ph' g') as [[]|] eqn:Ev; try done; try by destruct Hsome.
      eapply member_present; [|done]. apply (Hmem ph' g' Hg'). rewrite Ev. cbn. congruence. }
    destruct (decide ((ph', g') = (ph, g))) as [[= -> ->]|Hne].
    + destruct Hown as [[-> ->]|[Hkg Hki]]; [do 2 eexists; split_and!; [done|done|lia|lia]|].
      destruct (Hkg Hsome) as [Hold ->]. rewrite (Hki Hipres), Hnow. by apply H6.
    + rewrite Hsame in Hsome by done. destruct (H6 ph' g' Hg' Hsome) as (e & e' & He & He' & Hle & Hmax).
      destruct (Hgk ph' g' Hg' Hne) as [Hk1 Hk2]. rewrite (Hdead _ Hk1 Hk2), Hnow. destruct (decide (ph' = ph)) as [->|Hp].
      * destruct Hown as [[_ ->]|[_ Hki]]; [|rewrite (Hki Hipres); by eauto 10]. do 2 eexists. split_and!; [done|done|done|done].
      * destruct (Hik ph' Hp) as [Hk3 Hk4]. rewrite (Hdead _ Hk3 Hk4). eauto 10.
Qed.

(** Keys that go leave the store well formed: the index goes last. *)
Lemma ok_at t r : redis_ok kb ttl r -> redis_ok kb ttl (r_at t r).
Proof.
  intros [H1 H2 H3 H4 H5 H6].
  assert (forall k (P : option rval -> Prop), P None -> P (rview r !! k) -> P (rview (r_at t r) !! k)) as Hor.
  { intros k P HN HP. by destruct (view_at_or t r k) as [-> | ->]. }
  assert (forall ph g, group_ok g -> is_Some (rview (r_at t r) !! gkey ph g) -> rview (r_at t r) !! gkey ph g = rview r !! gkey ph g /\
    rview (r_at t r) !! ikey ph = rview r !! ikey ph /\ gone t r (gkey ph g) = false /\ gone t r (ikey ph) = false) as Halive.
  { intros ph g Hg [v Hv]. rewrite view_at in Hv. destruct (gone t r (gkey ph g)) eqn:E; [done|].
    destruct (H6 ph g Hg) as (e & e' & He & He' & Hle & _); [by rewrite Hv|]. unfold gone in E. rewrite He in E. apply Z.leb_gt in E.
    assert (gone t r (ikey ph) = false) as Ei by (unfold gone; rewrite He'; apply Z.leb_gt; lia).
    split_and!; [|by rewrite view_at, Ei|done|done]. rewrite view_at. unfold gone. by rewrite He, (proj2 (Z.leb_gt _ _) E). }
  split.
  - intros ph g Hg. apply Hor; [by left|by apply H1].
  - intros ph g Hg. apply Hor; [done|by apply H2].
  - intros ph. apply Hor; [by left|apply H3].
  - intros ph g Hg Hne. destruct (Halive ph g Hg) as (E1 & E2 & _); [destruct (rview (r_at t r) !! gkey ph g); [by eexists|done]|].
    rewrite E2. apply H4; [done|]. by rewrite <- E1.
  - intros ph m Hin. apply (H5 ph). revert Hin. by destruct (view_at_or t r (ikey ph)) as [-> | ->].
  - intros ph g Hg Hs. destruct (Halive ph g Hg Hs) as (E1 & _ & E3 & E4). rewrite !deadline_at, E3, E4, now_at.
    rewrite E1 in Hs. destruct (H6 ph g Hg Hs) as (e & e' & He & He' & Hle & Hmax). exists e, e'. split_and!; [done|done|done|lia].
Qed.

Lemma pending_is now r ph g : rs_pending now r ph g = hash_of (rview (r_at now r) !! gkey ph g).
Proof. done. Qed.

(** What a change made at an instant shows at that instant. *)
Lemma moved_changes now ph g h members r r' : group_ok g -> moved ph g h members (r_at now r) r' -> timed ph g (r_at now r) r' ->
  rs_pending now r' ph g = h /\ others_same now ph g r r'.
Proof.
  intros Hg (Hk & _ & _ & Hrest) (Hnow & Hdead & Hown). split.
  - rewrite pending_is, view_at, Hk. destruct (decide (h = ∅)) as [->|Hh]; [by destruct (gone now r' _)|].
    assert (gone now r' (gkey ph g) = false) as ->; [|done]. unfold gone. rewrite Hnow, now_at in *.
    destruct Hown as [[-> _]|[Hkg _]]; [apply Z.leb_gt; rewrite now_at; unfold Second; lia|].
    rewrite Hk in Hkg. destruct Hkg as [_ ->]; [by eexists|]. rewrite deadline_at.
    destruct (gone now r (gkey ph g)) eqn:E; [done|]. unfold gone in E. destruct (r_deadline r _); [|done]. apply Z.leb_gt in E. apply Z.leb_gt. lia.
  - intros ph' g' Hg' Hne. rewrite !pending_is. f_equal. rewrite <- (view_at_at now now r) by lia.
    assert (gkey ph' g' <> gkey ph g /\ gkey ph' g' <> ikey ph) as [? ?] by (split; [by apply gkey_ne|by apply gkey_ikey]).
    apply same_later; [done|by apply Hrest|by apply Hdead].
Qed.

Lemma clock_step k r r' : ran k r r' -> r_now r' = r_now r /\ (forall k', k' <> k -> r_deadline r' k' = r_deadline r k') /\
  (is_Some (rview r' !! k) -> r_deadline r' k = r_deadline r k).
Proof. intros Hr. split_and!; [by eapply ran_now|intros; by eapply ran_other|by eapply ran_own]. Qed.

Lemma put_timed ph g sid v r : group_ok g -> redis_ok kb ttl r -> timed ph g r (putCommands kb ttl ph g sid v r).
Proof.
  intros Hg Hok. pose proof (gkey_ikey ph g ph Hg) as Hne. unfold putCommands. cbv zeta.
  destruct (clock_step _ _ _ (ran_hset (gkey ph g) r [(sid, v)])) as (N1 & D1 & _). set (r1 := r_hset _ _ r) in *.
  assert (is_Some (rview r1 !! gkey ph g)) as Hs1 by (unfold r1; rewrite view_hset by first [exact (rk_hash _ _ _ Hok ph g Hg)|discriminate]; rewrite lookup_insert_eq; by eexists).
  pose proof (expire_now (gkey ph g) ttl r1) as N2. pose proof (fun k => expire_other (gkey ph g) ttl r1 k) as D2. pose proof (expire_own (gkey ph g) ttl r1 Httl Hs1) as O2.
  assert (rview (r_expire (gkey ph g) ttl r1) !! ikey ph = rview r !! ikey ph) as Vi.
  { rewrite view_expire by done. unfold r1. rewrite view_hset by first [exact (rk_hash _ _ _ Hok ph g Hg)|discriminate]. by apply lookup_insert_ne. }
  set (r2 := r_expire _ _ r1) in *.
  destruct (clock_step _ _ _ (ran_sadd (ikey ph) r2 (indexMember g))) as (N3 & D3 & _).
  assert (is_Some (rview (fst (r_sadd (ikey ph) (indexMember g) r2)) !! ikey ph)) as Hs3 by (rewrite view_sadd by (rewrite Vi; exact (rk_index _ _ _ Hok ph)); rewrite lookup_insert_eq; by eexists).
  set (r3 := fst _) in *. pose proof (expire_now (ikey ph) ttl r3) as N4. pose proof (fun k => expire_other (ikey ph) ttl r3 k) as D4. pose proof (expire_own (ikey ph) ttl r3 Httl Hs3) as O4.
  split; [congruence|]. split; [|left; split].
  - intros k Hk1 Hk2. by rewrite D4, D3, D2, D1.
  - rewrite D4, D3, O2 by done. by rewrite N1.
  - rewrite O4. congruence.
Qed.

Lemma srem_kept ph g m r : group_ok g -> r_now (r_srem (ikey ph) m r) = r_now r /\ (forall k, k <> ikey ph -> r_deadline (r_srem (ikey ph) m r) k = r_deadline r k) /\
  (forall k, k <> ikey ph -> rview (r_srem (ikey ph) m r) !! k = rview r !! k) /\
  (is_Some (rview (r_srem (ikey ph) m r) !! ikey ph) -> r_deadline (r_srem (ikey ph) m r) (ikey ph) = r_deadline r (ikey ph)).
Proof.
  intros Hg. destruct (clock_step _ _ _ (ran_srem (ikey ph) r m)) as (N & D & O). split_and!; [done|done|intros k Hk; by eapply ran_other; [apply ran_srem|]|done].
Qed.

Lemma delete_timed ph g sid r : group_ok g -> redis_ok kb ttl r -> timed ph g r (deleteScript kb ph g sid r).
Proof.
  intros Hg Hok. pose proof (gkey_ikey ph g ph Hg) as Hne. unfold deleteScript. cbv zeta.
  destruct (clock_step _ _ _ (ran_hdel (gkey ph g) r [sid])) as (N1 & D1 & O1).
  assert (forall k, k <> gkey ph g -> rview (r_hdel (gkey ph g) [sid] r) !! k = rview r !! k) as V1 by (intros k Hk; by eapply ran_other; [apply ran_hdel|]).
  assert (is_Some (rview (r_hdel (gkey ph g) [sid] r) !! gkey ph g) -> is_Some (rview r !! gkey ph g)) as P1.
  { rewrite view_hdel by exact (rk_hash _ _ _ Hok ph g Hg). unfold put_hash. destruct (rview r !! gkey ph g) as [v|]; [by eexists|]. cbn. rewrite delete_empty, decide_True by done. by rewrite lookup_delete_eq; intros []. }
  set (r1 := r_hdel _ _ r) in *. case_bool_decide.
  - destruct (srem_kept ph g (indexMember g) r1 Hg) as (N2 & D2 & V2 & O2). split; [congruence|]. split; [|right; split].
    + intros k Hk1 Hk2. by rewrite D2, D1.
    + intros Hs. rewrite V2 in Hs by done. rewrite D2 by done. split; [by apply P1|by apply O1].
    + intros Hs. rewrite O2 by done. by apply D1.
  - split; [done|]. split; [|right; split]; [intros; by apply D1|intros Hs; split; [by apply P1|by apply O1]|intros; by apply D1].
Qed.

Lemma put_moved ph g sid v r : group_ok g -> redis_ok kb ttl r ->
  moved ph g (<[sid := v]> (hash_of (rview r !! gkey ph g))) ({[indexMember g]} ∪ set_of (rview r !! ikey ph)) r (putCommands kb ttl ph g sid v r).
Proof.
  intros Hg [H1 H2 H3 H4 _ _]. pose proof (gkey_ikey ph g ph Hg) as Hne. unfold putCommands.
  set (r1 := r_expire _ ttl (r_hset _ _ _)). assert (rview r1 = <[gkey ph g := RHash (<[sid := v]> (hash_of (rview r !! gkey ph g)))]> (rview r)) as E1.
  { unfold r1. rewrite view_expire by done. rewrite view_hset; [done|by apply H1|done]. }
  assert (takes_set (rview r1 !! ikey ph)) as Ht by (rewrite E1, lookup_insert_ne by done; apply H3).
  rewrite <- (lookup_insert_ne (rview r) (gkey ph g) (ikey ph) (RHash (<[sid := v]> (hash_of (rview r !! gkey ph g))))) by done.
  rewrite <- E1. set (r2 := r_expire _ ttl _).
  assert (rview r2 = <[ikey ph := RSet ({[indexMember g]} ∪ set_of (rview r1 !! ikey ph))]> (rview r1)) as E2.
  { unfold r2. rewrite view_expire by done. by apply view_sadd. }
  unfold moved. rewrite E2. rewrite lookup_insert_ne, lookup_insert_eq by done. split_and!.
  - rewrite E1, lookup_insert_eq, decide_False by apply insert_non_empty. done.
  - by right.
  - done.
  - intros k Hk1 Hk2. by rewrite lookup_insert_ne, E1, lookup_insert_ne.
Qed.

Lemma put_hash_lookup k h m : put_hash k h m !! k = if decide (h = ∅) then None else Some (RHash h).
Proof. unfold put_hash. case_decide; [by rewrite lookup_delete_eq|by rewrite lookup_insert_eq]. Qed.
Lemma put_hash_lookup_ne k h m k' : k' <> k -> put_hash k h m !! k' = m !! k'.
Proof. intros. unfold put_hash. case_decide; [by rewrite lookup_delete_ne|by rewrite lookup_insert_ne]. Qed.
Lemma put_set_lookup k s m : takes_set (put_set k s m !! k) /\ set_of (put_set k s m !! k) = s.
Proof. unfold put_set. case_decide; [subst; rewrite lookup_delete_eq; by split; [left|]|rewrite lookup_insert_eq; by split; [right|]]. Qed.
Lemma put_set_lookup_ne k s m k' : k' <> k -> put_set k s m !! k' = m !! k'.
Proof. intros. unfold put_set. case_decide; [by rewrite lookup_delete_ne|by rewrite lookup_insert_ne]. Qed.

Lemma delete_moved ph g sid r : group_ok g -> redis_ok kb ttl r ->
  let h := delete sid (hash_of (rview r !! gkey ph g)) in
  moved ph g h (if decide (h = ∅) then set_of (rview r !! ikey ph) ∖ {[indexMember g]} else set_of (rview r !! ikey ph)) r (deleteScript kb ph g sid r).
Proof.
  intros Hg [H1 H2 H3 H4 _ _] h. pose proof (gkey_ikey ph g ph Hg) as Hne. unfold deleteScript.
  set (r1 := r_hdel _ _ r). assert (rview r1 = put_hash (gkey ph g) h (rview r)) as E1 by (unfold r1; rewrite view_hdel by (by apply H1); done).
  assert (rview r1 !! ikey ph = rview r !! ikey ph) as Ei by (by rewrite E1, put_hash_lookup_ne).
  assert (hash_of (rview r1 !! gkey ph g) = h) as Eh by (rewrite E1, put_hash_lookup; by case_decide).
  rewrite Eh. unfold moved. destruct (decide (h = ∅)) as [He|He].
  - rewrite bool_decide_eq_true_2 by done. rewrite view_srem by (rewrite Ei; apply H3). rewrite Ei.
    destruct (put_set_lookup (ikey ph) (set_of (rview r !! ikey ph) ∖ {[indexMember g]}) (rview r1)) as [Ha Hb].
    rewrite put_set_lookup_ne by done. split_and!; [|done|done|].
    + rewrite E1, put_hash_lookup, decide_True by done. done.
    + intros k Hk1 Hk2. by rewrite put_set_lookup_ne, E1, put_hash_lookup_ne.
  - rewrite bool_decide_eq_false_2 by done. rewrite Ei. split_and!; [|apply H3|done|].
    + rewrite E1, put_hash_lookup, decide_False by done. done.
    + intros k Hk1 Hk2. by rewrite E1, put_hash_lookup_ne.
Qed.

Lemma trip_cases {A} f (act : R -> R * A) r r' res : trip_err (round_trip f act r) = (r', res) ->
  r' = fst (act r) \/ (is_ok res = false /\ r' = r).
Proof.
  unfold trip_err. intros [= <- <-]. destruct f as [| |[]]; simpl; [left|by right|by left|by right]. by destruct (act r).
Qed.

Lemma cleanup_spec now ph g r : group_ok g -> redis_ok kb ttl r ->
  redis_ok kb ttl (cleanupIfEmptyScript kb ph g (r_at now r)) /\
  forall ph' g', group_ok g' -> rs_pending now (cleanupIfEmptyScript kb ph g (r_at now r)) ph' g' = rs_pending now r ph' g'.
Proof.
  intros Hg Hok. pose proof (ok_at now r Hok) as Hok0. unfold cleanupIfEmptyScript.
  destruct (r_type (r_at now r) (gkey ph g)) eqn:Ht; try (split; [done|intros ph' g' Hg'; by rewrite !pending_is, view_at_at by lia]).
  set (r0 := r_at now r) in *. assert (rview r0 !! gkey ph g = None) as Hn by (unfold r_type, type_of in Ht; by destruct (rview r0 !! gkey ph g) as [[]|]).
  destruct (srem_kept ph g (indexMember g) r0 Hg) as (N2 & D2 & V2 & O2).
  assert (moved ph g ∅ (set_of (rview r0 !! ikey ph) ∖ {[indexMember g]}) r0 (r_srem (ikey ph) (indexMember g) r0)) as Hm.
  { destruct Hok0 as [H1 H2 H3 H4 _ _]. unfold moved. rewrite view_srem by apply H3.
    destruct (put_set_lookup (ikey ph) (set_of (rview r0 !! ikey ph) ∖ {[indexMember g]}) (rview r0)) as [Ha Hb].
    rewrite put_set_lookup_ne, decide_True by (done || by apply gkey_ikey). split_and!; [done..|]. intros k Hk1 Hk2. by rewrite put_set_lookup_ne. }
  assert (timed ph g r0 (r_srem (ikey ph) (indexMember g) r0)) as Htm.
  { split; [done|]. split; [by auto|]. right. split; [|done]. rewrite V2, Hn by by apply gkey_ikey. by intros []. }
  split; [eapply (moved_ok _ _ _ _ _ _ Hg Hok0 Hm Htm); [done|set_solver..]|].
  destruct (moved_changes now _ _ _ _ r _ Hg Hm Htm) as [Hp Ho]. intros ph' g' Hg'. destruct (decide ((ph', g') = (ph, g))) as [[= -> ->]|Hne]; [|by apply Ho].
  rewrite Hp, pending_is. fold r0. by rewrite Hn.
Qed.

Lemma members_nodup l : NoDup l -> (forall m, m ∈ l -> exists g, group_ok g /\ m = indexMember g) -> NoDup (omap parseMember l).
Proof.
  intros Hnd Hl. induction l as [|m l IH]; [constructor|]. apply NoDup_cons in Hnd as [Hni Hnd].
  destruct (Hl m) as (g & Hg & ->); [by left|]. simpl. rewrite parse_indexMember by apply Hg.
  apply NoDup_cons. split; [|apply IH; [done|]; intros; apply Hl; by right].
  intros (m & Hm & Hp)%list_elem_of_omap. destruct (Hl m) as (g' & Hg' & ->); [by right|].
  rewrite parse_indexMember in Hp by apply Hg'. by injection Hp as ->.
Qed.

Lemma failed_changes now ph g f r res : redis_ok kb ttl r -> is_ok res = false -> changes now ph g f r (r_at now r) res.
Proof.
  intros Hok Hres. split; [by apply ok_at|]. split; [|right; split; [done|]]; [intros ph' g' _ _|]; by rewrite !pending_is, view_at_at by lia.
Qed.

#[export] Instance RedisRebroadcast_laws : RebroadcastLaws R (RO := RedisRebroadcast kb ttl).
Proof.
  split.
  - intros io now r ph g sid v r' res Hok Hg _ H. apply trip_cases in H as [->|[Hres ->]]; [|by apply failed_changes].
    pose proof (ok_at now r Hok) as Hok0. pose proof (put_moved ph g sid v _ Hg Hok0) as Hm. pose proof (put_timed ph g sid v _ Hg Hok0) as Ht.
    destruct (moved_changes now _ _ _ _ r _ Hg Hm Ht) as [Hp Ho].
    split; [eapply (moved_ok _ _ _ _ _ _ Hg Hok0 Hm Ht); set_solver|]. split; [done|left; done].
  - intros io now r ph g m. simpl. unfold rr_list. destruct (io 0%nat) as [| |[]]; simpl; congruence.
  - intros now r ph g Hok Hg. done.
  - intros io now r ph g sid r' res Hok Hg H. apply trip_cases in H as [->|[Hres ->]]; [|by apply failed_changes].
    pose proof (ok_at now r Hok) as Hok0. pose proof (delete_moved ph g sid _ Hg Hok0) as Hm. cbv zeta in Hm. pose proof (delete_timed ph g sid _ Hg Hok0) as Ht.
    destruct (moved_changes now _ _ _ _ r _ Hg Hm Ht) as [Hp Ho].
    split; [|split; [done|left; done]]. eapply (moved_ok _ _ _ _ _ _ Hg Hok0 Hm Ht).
    { intros Hne. rewrite decide_False by done. apply (rk_member _ _ _ Hok0); [done|]. intros He. apply Hne. by rewrite He, delete_empty. }
    { intros m Hm1 Hm2. case_decide; set_solver. }
    { intros m Hm1. case_decide; set_solver. }
  - intros io now r ph g r' res Hok Hg H. apply trip_cases in H as [->|[Hres ->]]; [by apply cleanup_spec|].
    split; [by apply ok_at|]. intros ph' g' _. by rewrite !pending_is, view_at_at by lia.
  - intros io now r ph r' res Hok [= <- <-]. split; [by split|]. destruct (read_trip (io 0%nat) _) as [members|] eqn:Hr; [|done].
    pose proof (ok_at now r Hok) as Hok0. set (r0 := r_at now r) in *.
    assert (members = r_smembers r0 (ikey ph)) as -> by (destruct (io 0%nat) as [| |[]]; simpl in Hr; congruence).
    destruct (reply_smembers r0 (ikey ph)) as [Hnd Hin]. split_and!.
    + apply members_nodup; [done|]. intros m Hm. by apply (rk_known _ _ _ Hok0 ph), Hin.
    + intros g (m & Hm & Hp)%list_elem_of_omap. apply Hin in Hm as (g' & Hg' & ->)%(rk_known _ _ _ Hok0).
      rewrite parse_indexMember in Hp by apply Hg'. by injection Hp as <-.
    + intros g Hg Hne. apply list_elem_of_omap. exists (indexMember g). split; [|apply parse_indexMember, Hg].
      apply Hin. by apply (rk_member _ _ _ Hok0).
  - intros now now' r ph g Hle. rewrite !pending_is, !view_at. destruct (gone now' r (gkey ph g)) eqn:E; [by right|]. left.
    destruct (gone now r (gkey ph g)) eqn:E'; [|done]. by rewrite (gone_later now now') in E.
Qed.
End Redis.

(** ** The embedded store *)

Lemma part_inj ph g a ph' g' b : group_ok g -> group_ok g' ->
  rebroadcastGroupPart ph g +:+ a = rebroadcastGroupPart ph' g' +:+ b -> ph = ph' /\ g = g' /\ a = b.
Proof.
  intros (_ & Hn & Hi) (_ & Hn' & Hi'). unfold rebroadcastGroupPart, nul. rewrite <- !str_app_assoc. simpl. intros H.
  apply str_join_inj in H as [Hp H]; [|by destruct ph|by destruct ph'].
  apply str_join_inj in H as [Hs H]; [|done|done]. apply string_of_phase_inj in Hp as ->.
  pose proof (f_equal (str_take 8) H) as Ht. pose proof (f_equal (str_drop 8) H) as Hd.
  assert (forall z x, str_take 8 (PutUint64 z +:+ x) = PutUint64 z /\ str_drop 8 (PutUint64 z +:+ x) = x) as Hsp.
  { intros z x. pose proof (PutUint64_length z) as Hl. split; [pose proof (str_take_app (PutUint64 z) x)|pose proof (str_drop_app (PutUint64 z) x)]; by rewrite Hl in *. }
  rewrite !(proj1 (Hsp _ _)) in Ht. rewrite !(proj2 (Hsp _ _)) in Hd.
  apply (f_equal Uint64) in Ht. rewrite !Uint64_PutUint64 in Ht. apply (f_equal wrap64) in Ht. rewrite !wrap64_wrapu64 in Ht by done.
  split_and!; [done| |done]. destruct g, g'. simpl in *. congruence.
Qed.

Section PebbleKeys.
Context {D : Type} `{PO : !PebbleOps D} `{PL : !PebbleLaws D}.

Lemma iter_prefix (d : D) prefix k v : (k, v) ∈ p_iter d prefix (keyUpperBound prefix) <-> pview d !! k = Some v /\ has_prefix prefix k = true.
Proof. by rewrite iter_elem, range_is_prefix. Qed.

Lemma drop_prefix p k : has_prefix p k = true -> k = p +:+ str_drop (String.length p) k.
Proof. intros [r ->]%has_prefix_iff. by rewrite str_drop_app. Qed.

Lemma payloads_lookup (d : D) prefix sid : payloads d prefix !! sid = pview d !! (prefix +:+ sid).
Proof.
  unfold payloads. set (l := map _ _). assert (NoDup l.*1) as Hnd.
  { unfold l. rewrite <- list_fmap_compose. pose proof (iter_nodup d prefix (keyUpperBound prefix)) as Hnd.
    assert (forall kv, kv ∈ p_iter d prefix (keyUpperBound prefix) -> has_prefix prefix kv.1 = true) as Hp.
    { intros [k v] Hin. by apply iter_prefix in Hin as [_ ?]. }
    induction (p_iter d prefix (keyUpperBound prefix)) as [|[k v] m IH]; [constructor|]. rewrite fmap_cons in *. apply NoDup_cons in Hnd as [Hni Hnd].
    apply NoDup_cons. split; [|apply IH; [done|]; intros; apply Hp; by right]. intros ([k' v'] & He & Hin)%list_elem_of_fmap. simpl in He.
    apply Hni. apply list_elem_of_fmap. exists (k', v'). split; [|done]. simpl.
    rewrite (drop_prefix prefix k), (drop_prefix prefix k'), He; [done|apply (Hp (k', v')); by right|apply (Hp (k, v)); by left]. }
  apply option_eq. intros v. rewrite <- elem_of_list_to_map by done. split.
  - intros ([k v'] & He & Hin)%list_elem_of_fmap. simpl in He. injection He as -> ->. apply iter_prefix in Hin as [Hv Hp]. by rewrite <- drop_prefix.
  - intros Hv. apply list_elem_of_fmap. exists (prefix +:+ sid, v). split; [simpl; by rewrite str_drop_app|].
    apply iter_prefix. split; [done|apply has_prefix_app].
Qed.
End PebbleKeys.

Section Pebble.
Context {D : Type} `{PO : !PebbleOps D} `{PL : !PebbleLaws D}.
Context (ttl : Z) (Httl : 10 ^ 6 <= ttl).
#[local] Instance pebble_ops : RebroadcastOps D := PebbleRebroadcast ttl.

(** Whether a group record is there and within its expiry. *)
Definition alive_raw (now : Z) (o : option string) : bool :=
  match o with
  | Some raw => match DecodeValue raw now with Ok (_, _, expired) => negb expired | Err _ => false end
  | None => false
  end.

Lemma groupLive_ok f (d : D) key now b : groupLive f d key now = Ok b -> b = alive_raw now (pview d !! key).
Proof.
  unfold groupLive, p_get, alive_raw. destruct f as [| |[]]; simpl; try done.
  destruct (pview d !! key) as [raw|]; [|congruence]. destruct (DecodeValue raw now) as [[[? ?] ?]|]; congruence.
Qed.

Lemma pending_at now (d : D) ph g sid :
  rs_pending now d ph g !! sid = if alive_raw now (pview d !! pebbleGroupKey ph g) then pview d !! (payloadPrefix ph g +:+ sid) else None.
Proof.
  change (pr_pending now d ph g !! sid = if alive_raw now (pview d !! pebbleGroupKey ph g) then pview d !! (payloadPrefix ph g +:+ sid) else None).
  unfold pr_pending, groupLive, p_get, alive_raw. simpl. destruct (pview d !! pebbleGroupKey ph g) as [raw|]; [|done].
  destruct (DecodeValue raw now) as [[[? ?] []]|]; simpl; try done. apply payloads_lookup.
Qed.

Definition group_keys (ph : RebroadcastPhase) (g : RebroadcastGroup) (k : string) : bool :=
  has_prefix (payloadPrefix ph g) k || String.eqb (pebbleGroupKey ph g) k.

Lemma payload_not_group ph g sid ph' g' : payloadPrefix ph g +:+ sid <> pebbleGroupKey ph' g'.
Proof. unfold payloadPrefix, pebbleGroupKey, pebbleRebroadcastPrefix, pebbleRebroadcastGroupPrefix. done. Qed.

Lemma group_not_payload ph g ph' g' : has_prefix (payloadPrefix ph g) (pebbleGroupKey ph' g') = false.
Proof. done. Qed.

Lemma payload_prefix_of ph g ph' g' sid : group_ok g -> group_ok g' ->
  has_prefix (payloadPrefix ph g) (payloadPrefix ph' g' +:+ sid) = true -> (ph', g') = (ph, g).
Proof.
  intros Hg Hg' [r Hr]%has_prefix_iff. unfold payloadPrefix in Hr. rewrite <- !str_app_assoc in Hr. apply str_app_inj_l in Hr.
  apply part_inj in Hr as (-> & -> & _); done.
Qed.

Lemma group_key_inj ph g ph' g' : group_ok g -> group_ok g' -> pebbleGroupKey ph g = pebbleGroupKey ph' g' -> (ph', g') = (ph, g).
Proof.
  intros Hg Hg' H. unfold pebbleGroupKey in H. apply str_app_inj_l in H.
  assert (rebroadcastGroupPart ph g +:+ "" = rebroadcastGroupPart ph' g' +:+ "") as H' by (by rewrite H).
  apply part_inj in H' as (-> & -> & _); done.
Qed.

(** The keys of two groups are apart. *)
Lemma group_keys_apart ph g ph' g' k : group_ok g -> group_ok g' -> (ph', g') <> (ph, g) -> group_keys ph' g' k = true -> group_keys ph g k = false.
Proof.
  intros Hg Hg' Hne. unfold group_keys. rewrite orb_true_iff, orb_false_iff, String.eqb_eq. intros [Hk|<-].
  - apply has_prefix_iff in Hk as [sid ->]. split; [|apply String.eqb_neq; intros He; by apply eq_sym, payload_not_group in He].
    destruct (has_prefix _ _) eqn:Hp; [|done]. apply payload_prefix_of in Hp; done.
  - split; [apply group_not_payload|]. apply String.eqb_neq. intros He. by apply group_key_inj in He.
Qed.

(** A write that keeps to the keys of one group leaves the others' payloads. *)
Lemma writes_within now ph g (d d' : D) : group_ok g -> (forall k, group_keys ph g k = false -> pview d' !! k = pview d !! k) -> others_same now ph g d d'.
Proof.
  intros Hg Hk ph' g' Hg' Hne. apply map_eq. intros sid. rewrite !pending_at.
  assert (forall k, group_keys ph' g' k = true -> pview d' !! k = pview d !! k) as Hsame by (intros k H; by apply Hk, (group_keys_apart ph g ph' g')).
  rewrite !Hsame; [done|..]; unfold group_keys; first [by rewrite has_prefix_app|by rewrite String.eqb_refl, orb_true_r].
Qed.

Lemma drop_touches ph g w k : w ∈ dropGroup ph g -> group_keys ph g k = false -> touches w k = false.
Proof.
  unfold group_keys. intros Hw [H1 H2]%orb_false_iff. unfold dropGroup in Hw.
  rewrite !elem_of_cons, elem_of_nil in Hw. destruct Hw as [->|[->|[]]]; simpl; [by rewrite range_is_prefix|done].
Qed.

Lemma drop_within ph g (d : D) k : group_keys ph g k = false -> pview (p_commit (dropGroup ph g) d) !! k = pview d !! k.
Proof. intros Hk. rewrite view_commit. apply apply_batch_other. intros w Hw. by eapply drop_touches. Qed.

Lemma drop_gone ph g m k : group_keys ph g k = true -> apply_batch m (dropGroup ph g) !! k = None.
Proof.
  unfold group_keys, dropGroup. rewrite orb_true_iff, String.eqb_eq. cbn [apply_batch foldl apply_write]. intros [Hk|<-]; [|apply lookup_delete_eq].
  rewrite lookup_delete_None. right. apply map_lookup_filter_None. right. intros v _. cbn [fst]. rewrite range_is_prefix. congruence.
Qed.

(** A batch keeps the form of the group records. *)
Lemma records_ok (d : D) (b : list pwrite) : pebble_ok d ->
  (forall k v, PSet k v ∈ b -> has_prefix pebbleRebroadcastGroupPrefix k = true -> (exists ph g, group_ok g /\ k = pebbleGroupKey ph g) /\ (8 <= String.length v)%nat) ->
  pebble_ok (p_commit b d).
Proof.
  intros Hd Hb k v. rewrite view_commit. unfold pebble_ok in Hd. revert Hd Hb. generalize (pview d) as m. induction b as [|w b IH]; intros m Hd Hb Hv Hp; [by apply (Hd k v)|].
  cbn [apply_batch foldl] in Hv. apply (IH (apply_write m w)); [|intros; apply Hb; [by right|done]|done|done].
  intros k' v' Hv' Hp'. destruct w as [k1 v1|k1|lo hi]; simpl in Hv'.
  - apply lookup_insert_Some in Hv' as [[<- <-]|[_ Hv']]; [apply Hb; [by left|done]|by apply Hd].
  - apply lookup_delete_Some in Hv' as [_ Hv']. by apply Hd.
  - apply map_lookup_filter_Some in Hv' as [Hv' _]. by apply Hd.
Qed.

Lemma drop_ok_records (d : D) ph g : pebble_ok d -> pebble_ok (p_commit (dropGroup ph g) d).
Proof. intros Hd. apply records_ok; [done|]. intros k v Hin. unfold dropGroup in Hin. set_solver. Qed.

Lemma fresh_alive now : expiry_ok (now + ttl) -> alive_raw now (Some (EncodeValue (now + ttl) "")) = true.
Proof.
  intros He. unfold alive_raw. rewrite DecodeValue_EncodeValue by auto. apply negb_true_iff. apply andb_false_iff. right.
  apply negb_false_iff, Z.ltb_lt. unfold of_UnixMilli, UnixMilli.
  pose proof (Z.div_mod (now + ttl - unix_epoch) (10 ^ 6) ltac:(lia)). pose proof (Z.mod_pos_bound (now + ttl - unix_epoch) (10 ^ 6)). lia.
Qed.

Lemma EncodeValue_length t v : (8 <= String.length (EncodeValue t v))%nat.
Proof. unfold EncodeValue. rewrite str_length_app. destruct (t =? 0); rewrite PutUint64_length; lia. Qed.

Lemma put_commit now ph g sid v (d : D) live : group_ok g -> expiry_ok (now + ttl) -> pebble_ok d ->
  live = alive_raw now (pview d !! pebbleGroupKey ph g) ->
  let d' := p_commit (putBatch ttl live now ph g sid v) d in
  pebble_ok d' /\ others_same now ph g d d' /\ rs_pending now d' ph g = <[sid := v]> (rs_pending now d ph g).
Proof.
  intros Hg He Hd Hlive d'. set (m := apply_batch (pview d) (if live then [] else dropGroup ph g)).
  assert (pview d' = <[pebbleGroupKey ph g := EncodeValue (now + ttl) ""]> (<[payloadPrefix ph g +:+ sid := v]> m)) as Hv.
  { unfold d', putBatch. rewrite view_commit, apply_batch_app. done. }
  assert (forall k, group_keys ph g k = false -> m !! k = pview d !! k) as Hm.
  { intros k Hk. unfold m. destruct live; [done|]. rewrite <- view_commit. by apply drop_within. }
  split_and!.
  - apply records_ok; [done|]. intros k w Hin Hp. unfold putBatch in Hin. apply elem_of_app in Hin as [Hin|Hin].
    { destruct live; [by apply not_elem_of_nil in Hin|]. unfold dropGroup in Hin. set_solver. }
    rewrite !elem_of_cons, elem_of_nil in Hin. destruct Hin as [[= -> ->]|[[= -> ->]|[]]]; [done|].
    split; [by exists ph, g|apply EncodeValue_length].
  - apply writes_within; [done|]. intros k Hk. rewrite Hv. pose proof Hk as [H1 H2]%orb_false_iff.
    rewrite !lookup_insert_ne; [by apply Hm| |by apply String.eqb_neq in H2].
    intros <-. by rewrite has_prefix_app in H1.
  - apply map_eq. intros sid'. rewrite pending_at, Hv, lookup_insert_eq, fresh_alive by done.
    rewrite lookup_insert_ne by (intros H; by apply eq_sym, payload_not_group in H).
    destruct (decide (sid = sid')) as [<-|Hne]; [by rewrite !lookup_insert_eq|].
    rewrite !lookup_insert_ne by (done || (intros H; by apply str_app_inj_l in H)). rewrite pending_at, <- Hlive.
    unfold m. destruct live; [done|]. apply drop_gone. unfold group_keys. by rewrite has_prefix_app.
Qed.

(** A group without live payloads stays so when it is dropped. *)
Lemma drop_unchanged now ph g (d : D) : group_ok g -> pebble_ok d -> rs_pending now d ph g = ∅ -> unchanged now d (p_commit (dropGroup ph g) d).
Proof.
  intros Hg Hd Hem. split; [by apply drop_ok_records|]. intros ph' g' Hg'.
  destruct (decide ((ph', g') = (ph, g))) as [[= -> ->]|Hne].
  - rewrite Hem. apply map_eq. intros sid. rewrite pending_at, view_commit, lookup_empty, drop_gone; [done|].
    unfold group_keys. by rewrite String.eqb_refl, orb_true_r.
  - apply (writes_within now ph g); [done| |done|done]. intros k. apply drop_within.
Qed.

Lemma groupEmpty_ok now f (d : D) ph g : groupEmpty f d ph g = Ok true -> rs_pending now d ph g = ∅.
Proof.
  unfold groupEmpty, prefixScan. destruct (read_trip f _) as [l|] eqn:Hr; [|done].
  assert (l = p_iter d (payloadPrefix ph g) (keyUpperBound (payloadPrefix ph g))) as -> by (destruct f as [| |[]]; simpl in Hr; congruence).
  intros H. apply map_eq. intros sid. rewrite pending_at, lookup_empty. destruct (alive_raw _ _); [|done].
  destruct (pview d !! (payloadPrefix ph g +:+ sid)) as [v|] eqn:Hv; [|done]. exfalso.
  assert ((payloadPrefix ph g +:+ sid, v) ∈ p_iter d (payloadPrefix ph g) (keyUpperBound (payloadPrefix ph g))) as Hin by (apply iter_prefix; split; [done|apply has_prefix_app]).
  destruct (p_iter _ _ _); [by apply not_elem_of_nil in Hin|done].
Qed.

Lemma p_write_cases f b (d d' : D) r : p_write f b d = (d', r) -> d' = p_commit b d \/ (is_ok r = false /\ d' = d).
Proof. unfold p_write. destruct f as [| |[]]; simpl; intros [= <- <-]; auto. Qed.

Lemma delete_commit now ph g sid (d : D) : group_ok g -> pebble_ok d ->
  let d' := p_commit [PDelete (payloadPrefix ph g +:+ sid)] d in
  pebble_ok d' /\ others_same now ph g d d' /\ rs_pending now d' ph g = delete sid (rs_pending now d ph g).
Proof.
  intros Hg Hd d'. assert (pview d' = delete (payloadPrefix ph g +:+ sid) (pview d)) as Hv by (unfold d'; by rewrite view_commit).
  split_and!.
  - apply records_ok; [done|]. intros k v Hin. apply list_elem_of_singleton in Hin. done.
  - apply writes_within; [done|]. intros k [Hk _]%orb_false_iff. rewrite Hv, lookup_delete_ne; [done|]. intros <-. by rewrite has_prefix_app in Hk.
  - apply map_eq. intros sid'. rewrite pending_at, Hv, lookup_delete_ne by apply payload_not_group.
    destruct (decide (sid = sid')) as [<-|Hne]; [rewrite !lookup_delete_eq; by destruct (alive_raw _ _)|].
    rewrite !lookup_delete_ne by (done || (intros H; by apply str_app_inj_l in H)). by rewrite pending_at.
Qed.

(** ** The active groups *)

Lemma parse_part g : in_int64 (rg_SessionEnd g) -> parseGroup (rg_Supplier g +:+ nul +:+ PutUint64 (rg_SessionEnd g)) = Some g.
Proof.
  intros Hi. unfold parseGroup. set (tail := PutUint64 (rg_SessionEnd g)).
  assert (String.length tail = 8%nat) as Ht by apply PutUint64_length.
  assert (String.length (rg_Supplier g +:+ nul +:+ tail) = (String.length (rg_Supplier g) + 9)%nat) as Hn by (rewrite !str_length_app, Ht; simpl; lia).
  rewrite Hn. destruct (Nat.ltb_spec (String.length (rg_Supplier g) + 9) 9); [lia|].
  replace (String.length (rg_Supplier g) + 9 - 9)%nat with (String.length (rg_Supplier g)) by lia.
  rewrite str_drop_app, str_take_app.
  replace (String.length (rg_Supplier g) + 9 - 8)%nat with (String.length (rg_Supplier g +:+ nul)) by (rewrite str_length_app; simpl; lia).
  rewrite str_app_assoc, str_drop_app. simpl. unfold tail. rewrite Uint64_PutUint64, wrap64_wrapu64 by done. by destruct g.
Qed.

Lemma group_key_of_phase ph g : pebbleGroupKey ph g = phasePrefix ph +:+ (rg_Supplier g +:+ nul +:+ PutUint64 (rg_SessionEnd g)).
Proof. unfold pebbleGroupKey, phasePrefix, rebroadcastGroupPart. by rewrite !str_app_assoc. Qed.

Lemma parse_group_key ph g : in_int64 (rg_SessionEnd g) -> parseGroup (str_drop (String.length (phasePrefix ph)) (pebbleGroupKey ph g)) = Some g.
Proof. intros Hi. rewrite group_key_of_phase, str_drop_app. by apply parse_part. Qed.

Lemma phase_of_key ph ph' g : has_prefix (phasePrefix ph) (pebbleGroupKey ph' g) = true -> ph' = ph.
Proof. by destruct ph, ph'. Qed.

Lemma sortGroups_spec prefix now l groups expired : sortGroups prefix now l = (groups, expired) ->
  (forall k v g, (k, v) ∈ l -> parseGroup (str_drop (String.length prefix) k) = Some g -> alive_raw now (Some v) = true -> g ∈ groups) /\
  (forall g, g ∈ expired -> exists k v, (k, v) ∈ l /\ parseGroup (str_drop (String.length prefix) k) = Some g /\ alive_raw now (Some v) = false).
Proof.
  revert groups expired. induction l as [|[k v] l IH]; intros groups expired; simpl.
  { intros [= <- <-]. split; [intros k v g H|intros g H]; by apply not_elem_of_nil in H. }
  destruct (sortGroups prefix now l) as [gs ex]. destruct (IH gs ex eq_refl) as [H1 H2].
  assert (forall g, g ∈ ex -> exists k' v', (k', v') ∈ (k, v) :: l /\ parseGroup (str_drop (String.length prefix) k') = Some g /\ alive_raw now (Some v') = false) as H2'.
  { intros g Hg. destruct (H2 g Hg) as (k' & v' & Hin & ?). exists k', v'. split; [by right|done]. }
  destruct (parseGroup _) as [g0|] eqn:Hp; cycle 1.
  { intros [= <- <-]. split; [|done]. intros k' v' g [[= -> ->]|Hin]%elem_of_cons Hp' Hal; [congruence|eauto]. }
  destruct (DecodeValue v now) as [[[? ?] []]|] eqn:Hd; intros [= <- <-]; (split; [intros k' v' g [[= -> ->]|Hin]%elem_of_cons Hp' Hal|try done]).
  - simpl in Hal. by rewrite Hd in Hal.
  - eauto.
  - intros g [->|Hin]%elem_of_cons; [|auto]. exists k, v. split; [by left|]. split; [done|]. simpl. by rewrite Hd.
  - assert (g = g0) as -> by congruence. by left.
  - right. eauto.
  - assert (g = g0) as -> by congruence. by left.
  - right. eauto.
Qed.

(** Dropping groups whose records expired leaves every payload that counts. *)
Lemma drops_unchanged now ph gs (d : D) : pebble_ok d -> (forall g, g ∈ gs -> group_ok g /\ rs_pending now d ph g = ∅) ->
  unchanged now d (p_commit (List.concat (map (dropGroup ph) gs)) d).
Proof.
  revert d. induction gs as [|g gs IH]; intros d Hd Hgs.
  { split; [|intros ph' g' Hg'; apply map_eq; intros sid; by rewrite !pending_at, !view_commit].
    apply records_ok; [done|]. intros k v Hin. by apply not_elem_of_nil in Hin. }
  destruct (Hgs g) as [Hg Hem]; [by left|]. destruct (drop_unchanged now ph g d Hg Hd Hem) as [Hd1 Hp1].
  destruct (IH (p_commit (dropGroup ph g) d) Hd1) as [Hd2 Hp2].
  { intros g' Hin. destruct (Hgs g') as [Hg' Hem']; [by right|]. split; [done|]. by rewrite Hp1. }
  assert (pview (p_commit (List.concat (map (dropGroup ph) (g :: gs))) d) = pview (p_commit (List.concat (map (dropGroup ph) gs)) (p_commit (dropGroup ph g) d))) as Hv.
  { rewrite !view_commit. cbn [map List.concat]. by rewrite apply_batch_app. }
  split; [intros k v Hk; rewrite Hv in Hk; by apply Hd2|].
  intros ph' g' Hg'. rewrite <- Hp1, <- Hp2 by done. apply map_eq. intros sid. by rewrite !pending_at, Hv.
Qed.

(** The live groups are groups whose records the scan read, each once. *)
Lemma sortGroups_live ph now l groups expired : sortGroups (phasePrefix ph) now l = (groups, expired) ->
  NoDup l.*1 -> (forall k v, (k, v) ∈ l -> exists g, group_ok g /\ k = pebbleGroupKey ph g) ->
  NoDup groups /\ forall g, g ∈ groups -> group_ok g /\ pebbleGroupKey ph g ∈ l.*1.
Proof.
  revert groups expired. induction l as [|[k v] l IH]; intros groups expired; cbn [sortGroups fmap list_fmap fst].
  { intros [= <- <-] _ _. split; [constructor|]. intros g Hg. by apply not_elem_of_nil in Hg. }
  destruct (sortGroups (phasePrefix ph) now l) as [gs ex]. intros Hs [Hni Hnd]%NoDup_cons Hk.
  destruct (IH gs ex eq_refl Hnd) as [H1 H2]; [intros; apply (Hk k0 v0); by right|].
  assert (forall g, g ∈ gs -> group_ok g /\ pebbleGroupKey ph g ∈ k :: l.*1) as H2' by (intros g Hg; destruct (H2 g Hg); split; [done|by right]).
  destruct (Hk k v) as (g & Hg & ->); [by left|]. rewrite parse_group_key in Hs by apply Hg.
  assert (NoDup (g :: gs) /\ forall g', g' ∈ g :: gs -> group_ok g' /\ pebbleGroupKey ph g' ∈ pebbleGroupKey ph g :: l.*1) as Hcons.
  { split; [apply NoDup_cons; split; [|done]; intros Hin; by apply Hni, H2|].
    intros g' [->|Hin]%elem_of_cons; [split; [done|by left]|by apply H2']. }
  destruct (DecodeValue v now) as [[[? ?] []]|]; by injection Hs as <- <-.
Qed.

Lemma active_ok io now (d : D) ph d' r : pebble_ok d -> pr_active io now d ph = (d', r) -> unchanged now d d' /\
  match r with
  | Ok gs => NoDup gs /\ (forall g, g ∈ gs -> group_ok g) /\ (forall g, group_ok g -> rs_pending now d ph g <> ∅ -> g ∈ gs)
  | Err _ => True
  end.
Proof.
  intros Hd. unfold pr_active, prefixScan. destruct (read_trip (io 0%nat) _) as [l|] eqn:Hr; [|by intros [= <- <-]].
  assert (l = p_iter d (phasePrefix ph) (keyUpperBound (phasePrefix ph))) as -> by (destruct (io 0%nat) as [| |[]]; simpl in Hr; congruence).
  destruct (sortGroups _ _ _) as [groups expired] eqn:Hs. pose proof Hs as Hlive. apply sortGroups_spec in Hs as [H1 H2].
  apply sortGroups_live in Hlive as [Hnd Hlive]; [|apply iter_nodup|]; cycle 1.
  { intros k v [Hv Hpre]%iter_prefix. destruct (Hd k v Hv) as [(ph' & g' & Hg' & ->) _].
    { apply has_prefix_iff in Hpre as [x ->]. unfold phasePrefix. by rewrite <- str_app_assoc, has_prefix_app. }
    apply phase_of_key in Hpre as ->. by eexists. }
  assert (forall g, group_ok g -> rs_pending now d ph g <> ∅ -> g ∈ groups) as Hall.
  { intros g Hg Hne. apply map_choose in Hne as (sid & v & Hv). rewrite pending_at in Hv. destruct (alive_raw _ _) eqn:Hal; [|done].
    destruct (pview d !! pebbleGroupKey ph g) as [raw|] eqn:Hraw; [|done]. apply (H1 (pebbleGroupKey ph g) raw); [|apply parse_group_key, Hg|done].
    apply iter_prefix. split; [done|]. rewrite group_key_of_phase. apply has_prefix_app. }
  assert (NoDup groups /\ (forall g, g ∈ groups -> group_ok g) /\ (forall g, group_ok g -> rs_pending now d ph g <> ∅ -> g ∈ groups)) as Hok.
  { split_and!; [done|intros g Hg; by apply Hlive|done]. }
  assert (unchanged now d (p_commit (List.concat (map (dropGroup ph) expired)) d)) as Hdrop.
  { apply drops_unchanged; [done|]. intros g Hin. destruct (H2 g Hin) as (k & v & Hkv & Hp & Hal). apply iter_prefix in Hkv as [Hv Hpre].
    destruct (Hd k v Hv) as [(ph' & g' & Hg' & ->) _].
    { apply has_prefix_iff in Hpre as [x ->]. unfold phasePrefix. by rewrite <- str_app_assoc, has_prefix_app. }
    apply phase_of_key in Hpre as ->. rewrite parse_group_key in Hp by apply Hg'. injection Hp as ->. split; [done|].
    apply map_eq. intros sid. by rewrite pending_at, Hv, Hal, lookup_empty. }
  destruct expired as [|g0 expired]; [by intros [= <- <-]|]. destruct (p_write (io 1%nat) _ d) as [d1 res] eqn:Hw.
  apply p_write_cases in Hw as [->|[Hres ->]]; destruct res; intros [= <- <-]; by split.
Qed.

#[export] Instance PebbleRebroadcast_laws : RebroadcastLaws D (RO := PebbleRebroadcast ttl).
Proof.
  split.
  - intros io now d ph g sid v d' r Hd Hg Ht H. simpl in H, Ht. unfold pr_put in H.
    destruct (groupLive _ _ _ _) as [live|] eqn:Hl; [|injection H as <- <-; by split_and!; [..|right]]. apply groupLive_ok in Hl.
    destruct (put_commit now ph g sid v d live Hg Ht Hd Hl) as (H1 & H2 & H3).
    destruct (p_write (io 1%nat) _ d) as [d1 res] eqn:Hw. apply p_write_cases in Hw as [->|[Hres ->]].
    + assert (d' = p_commit (putBatch ttl live now ph g sid v) d) as -> by (destruct res; congruence). by split_and!; [..|left].
    + destruct res; [done|]. injection H as <- <-. by split_and!; [..|right].
  - intros io now d ph g m H. simpl in H. unfold pr_list in H. destruct (groupLive _ _ _ _) as [[]|] eqn:Hl; [..|done]; apply groupLive_ok in Hl.
    + apply map_eq. intros sid. rewrite pending_at, <- Hl. destruct (io 1%nat) as [| |[]]; simpl in H; try done; injection H as <-; apply payloads_lookup.
    + injection H as <-. apply map_eq. intros sid. by rewrite pending_at, <- Hl, lookup_empty.
  - intros now d ph g Hd Hg. simpl. unfold pr_list, pr_pending, groupLive, p_get. simpl.
    destruct (pview d !! pebbleGroupKey ph g) as [raw|] eqn:Hraw; [|done]. destruct (DecodeValue raw now) as [[[? ?] []]|e] eqn:Hdec; try done.
    exfalso. destruct (Hd _ _ Hraw) as [_ Hlen]; [apply has_prefix_app|]. unfold DecodeValue in Hdec.
    destruct (Nat.ltb_spec (String.length raw) 8); [lia|]. by destruct (_ =? 0).
  - intros io now d ph g sid d' r Hd Hg H. simpl in H. unfold pr_delete in H.
    destruct (delete_commit now ph g sid d Hg Hd) as (H1 & H2 & H3).
    destruct (p_write (io 0%nat) _ d) as [d1 res] eqn:Hw. apply p_write_cases in Hw as [->|[Hres ->]]; cycle 1.
    { destruct res; [done|]. injection H as <- <-. by split_and!; [..|right]. }
    set (d1 := p_commit _ d) in *. assert (d' = d1 \/ unchanged now d1 d') as [->|[Hok Hsame]].
    { destruct res; [|left; congruence]. destruct (groupEmpty _ _ _ _) as [[]|] eqn:He; try (left; congruence).
      apply (groupEmpty_ok now) in He. apply p_write_cases in H as [->|[_ ->]]; [|by left]. right. by apply drop_unchanged. }
    + by split_and!; [..|left].
    + split_and!; [done| |left; by rewrite Hsame]. intros ph' g' Hg' Hne. by rewrite Hsame, H2.
  - intros io now d ph g d' r Hd Hg H. simpl in H. unfold pr_cleanup in H.
    destruct (groupLive _ _ _ _) as [[]|] eqn:Hl; [| |injection H as <- <-; by split].
    + destruct (groupEmpty _ _ _ _) as [[]|] eqn:He; [|injection H as <- <-; by split..]. apply (groupEmpty_ok now) in He.
      apply p_write_cases in H as [->|[_ ->]]; [by apply drop_unchanged|by split].
    + apply groupLive_ok in Hl. apply p_write_cases in H as [->|[_ ->]]; [|by split]. apply drop_unchanged; [done|done|].
      apply map_eq. intros sid. by rewrite pending_at, <- Hl, lookup_empty.
  - intros io now d ph d' r Hd H. exact (active_ok io now d ph d' r Hd H).
  - intros now now' d ph g Hle. destruct (alive_raw now' (pview d !! pebbleGroupKey ph g)) eqn:Hal; cycle 1.
    { right. apply map_eq. intros sid. by rewrite pending_at, Hal, lookup_empty. }
    left. apply map_eq. intros sid. rewrite !pending_at, Hal. assert (alive_raw now (pview d !! pebbleGroupKey ph g) = true) as ->; [|done].
    unfold alive_raw, DecodeValue in *. destruct (pview d !! pebbleGroupKey ph g) as [raw|]; [|done]. destruct (Nat.ltb _ 8); [done|].
    destruct (_ =? 0); [done|]. rewrite negb_involutive in *. apply Z.ltb_lt in Hal. apply Z.ltb_lt. lia.
Qed.
End Pebble.
