(* ===== verification/TxClient.v ===== *)
(** * The transaction client (tx/tx_client.go, tx_rejection.go, tx_budget.go,
    inclusion_read.go)

    How a claim or proof message becomes a transaction and what is made of the
    node's answers: the errors callers classify, the window budget and the
    offset that keeps the unordered nonce unique, building and signing, sending
    bytes that are already signed, and the read of a transaction's inclusion.
    Keys, the codec and the node are parameters: [sign_and_encode] is the SDK's
    signing and encoding, [Node] what the node answers during one attempt. The
    permits are in TxPermits. *)

From S2P Require Import Prelude SessionState StoreSpec PebbleModel GoFloat.
From Stdlib Require Import Ascii String.

Local Open Scope string_scope.
Local Open Scope Z_scope.

(** ** Errors (tx_rejection.go, the sentinels of tx_client.go) *)

Inductive TxStage := TxStageSimulate | TxStageCheckTx | TxStageBroadcast.

#[export] Instance TxStage_eq_dec : EqDecision TxStage.
Proof. solve_decision. Defined.

(** [MsgIndex] is [None] when HasMsgIndex is false. *)
Record TxRejection := mkRejection {
  rej_Stage : TxStage;
  rej_TxHash : string;
  rej_ABCICode : Z;
  rej_Codespace : string;
  rej_GRPCCode : Z;
  rej_MsgIndex : option Z;
  rej_RawLog : string
}.

Inductive TxSentinel :=
| ErrTxConcurrencySaturated | errTxClientClosed | ErrNoBlockTimeAnchor | ErrTxProofNotRequired
| ErrTxWindowExpired | ErrTxAlreadyQueued | ErrProofAlreadyJudged.

#[export] Instance TxSentinel_eq_dec : EqDecision TxSentinel.
Proof. solve_decision. Defined.

(** An error as errors.Is and errors.As see it: the sentinels its chain wraps
    and the first rejection in it. *)
Record TxError := mkTxError { te_is : list TxSentinel; te_rejection : option TxRejection }.

Definition errors_Is (err : option TxError) (s : TxSentinel) : bool :=
  match err with Some e => bool_decide (s ∈ te_is e) | None => false end.

Definition local_error : TxError := mkTxError [] None.
Definition sentinel (s : TxSentinel) : TxError := mkTxError [s] None.
Definition rejected (r : TxRejection) : TxError := mkTxError [] (Some r).
Definition wraps (s : TxSentinel) (e : TxError) : TxError := mkTxError (s :: te_is e) (te_rejection e).

Definition abciCodeTxInMempoolCache : Z := 19.
Definition abciCodeMempoolIsFull : Z := 20.
Definition abciCodeTxTimeoutHeight : Z := 30.
Definition abciCodespaceSDK : string := "sdk".

Definition isAlreadyQueuedRejection (codespace : string) (code : Z) : bool :=
  (code =? abciCodeTxInMempoolCache) && String.eqb codespace abciCodespaceSDK.
Definition isWindowExpiredRejection (codespace : string) (code : Z) : bool :=
  (code =? abciCodeTxTimeoutHeight) && String.eqb codespace abciCodespaceSDK.

Definition RejectionPreservesBytes (err : option TxError) : bool :=
  match err with
  | None => true
  | Some e =>
      match te_rejection e with
      | None => true
      | Some rejection =>
          if bool_decide (rej_Stage rejection = TxStageBroadcast) then true
          else if negb (bool_decide (rej_Stage rejection = TxStageCheckTx)) || negb (String.eqb (rej_Codespace rejection) abciCodespaceSDK)
          then false
          else (rej_ABCICode rejection =? abciCodeTxInMempoolCache) || (rej_ABCICode rejection =? abciCodeMempoolIsFull)
      end
  end.

Definition contains (needle s : string) : bool :=
  match String.index 0 needle s with Some _ => true | None => false end.

Definition ascii_lower (c : ascii) : ascii :=
  let n := N_of_ascii c in if ((65 <=? n) && (n <=? 90))%N then ascii_of_N (n + 32) else c.
(** [strings.ToLower] of ASCII text. *)
Fixpoint ToLower (s : string) : string :=
  match s with EmptyString => EmptyString | String c s => String (ascii_lower c) (ToLower s) end.

Definition isSequenceMismatchError (errorMsg : string) : bool :=
  existsb (fun p => contains p (ToLower errorMsg)) ["account sequence mismatch"; "incorrect account sequence"; "sequence mismatch"].

Definition is_digit (c : ascii) : bool := let n := N_of_ascii c in ((48 <=? n) && (n <=? 57))%N.
Fixpoint leading_digits (s : string) : string :=
  match s with
  | String c s => if is_digit c then String c (leading_digits s) else ""
  | EmptyString => ""
  end.

Definition msgIndexNeedle : string := "message index: ".
Definition parseMsgIndex (rawLog : string) : option Z :=
  match String.index 0 msgIndexNeedle rawLog with
  | None => None
  | Some at_ =>
      let digits := leading_digits (str_drop (at_ + String.length msgIndexNeedle) rawLog) in
      if String.eqb digits "" then None else ParseInt digits
  end.

(** A failed RPC: its status code and message. *)
Record GrpcErr := mkGrpcErr { g_code : Z; g_message : string }.
Record TxResponse := mkTxResponse { rsp_TxHash : string; rsp_Code : Z; rsp_Codespace : string; rsp_RawLog : string }.

Definition newSimulateRejection (err : GrpcErr) : TxRejection :=
  mkRejection TxStageSimulate "" 0 "" (g_code err) (parseMsgIndex (g_message err)) (g_message err).
Definition newCheckTxRejection (res : TxResponse) : TxRejection :=
  mkRejection TxStageCheckTx (rsp_TxHash res) (rsp_Code res) (rsp_Codespace res) 0 None (rsp_RawLog res).

Definition hex_digit (n : N) : ascii := ascii_of_N (if (n <? 10)%N then 48 + n else 55 + n).
Fixpoint hex_upper (s : string) : string :=
  match s with
  | EmptyString => EmptyString
  | String c s => let n := N_of_ascii c in String (hex_digit (n / 16)) (String (hex_digit (n mod 16)) (hex_upper s))
  end.

(** ** Budgets and nonces *)

Definition second : Z := 10 ^ 9.
Definition txTimeoutHardCeiling : Z := 600 * second.
Definition txTimeoutSafetyMargin : Z := 10 * second.
Definition txNonceSpread : Z := 10 * 10 ^ 6.
Definition DefaultTxTimeoutMax : Z := txTimeoutHardCeiling - txTimeoutSafetyMargin - txNonceSpread.

Definition TimeoutRegimeWindow : string := "window".
Definition TimeoutRegimeCeiling : string := "ceiling".
Definition TimeoutRegimeUnknown : string := "unknown".

Definition WindowTimeout (windowBlocks blockTimeSeconds : Z) : Z * string :=
  if (windowBlocks <=? 0) || (blockTimeSeconds <=? 0) then (DefaultTxTimeoutMax, TimeoutRegimeUnknown)
  else
    let window := wrap64 (wrap64 (windowBlocks * blockTimeSeconds) * second) in
    if DefaultTxTimeoutMax <? window then (DefaultTxTimeoutMax, TimeoutRegimeCeiling) else (window, TimeoutRegimeWindow).

(** The window a context carries; [w_computedAt] 0 is the zero time. *)
Record txWindow := mkTxWindow { w_raw : Z; w_computedAt : Z; w_regime : string }.
Definition no_window : txWindow := mkTxWindow 0 0 "".
Definition WithTxWindowTimeout (now d : Z) (regime : string) : txWindow := mkTxWindow d now regime.

Definition effectiveTxTimeout (window : txWindow) : Z * string :=
  if w_raw window <=? 0 then WindowTimeout 0 0 else (w_raw window, w_regime window).

Definition DefaultTxRPCTimeout : Z := 30 * second.
Definition rpcTimeout (configured : Z) : Z := if 0 <? configured then configured else DefaultTxRPCTimeout.

(** [withBroadcastDeadline]: the deadline of the derived context, the parent's
    when that is earlier. *)
Definition withBroadcastDeadline (TxRPCTimeout now : Z) (parent : option Z) (timeout : Z) (window : txWindow) : Z :=
  let rpcDeadline := now + rpcTimeout TxRPCTimeout in
  let deadline := if (negb (w_computedAt window =? 0)) && (w_computedAt window + timeout <? rpcDeadline)
                  then w_computedAt window + timeout else rpcDeadline in
  match parent with Some p => Z.min p deadline | None => deadline end.

(** [nextTxNonceOffset], for the counter's value after the increment. *)
Definition nonceOffset (txNonceBase n : Z) : Z := wrapu64 (txNonceBase + n) mod txNonceSpread.

(** [calculateFeeForGas]: the price is a decimal with 18 digits, the fee its
    product with the gas rounded up. *)
Definition dec_one : Z := 10 ^ 18.
Definition calculateFeeForGas (price gasLimit : Z) : Z :=
  let feeAmount := price * wrap64 gasLimit in
  let feeInt := Z.quot feeAmount dec_one in
  if 0 <? feeAmount - feeInt * dec_one then feeInt + 1 else feeInt.

(** ** Building, signing and sending *)

Record SignedTxPayload := mkPayload { p_Bytes : string; p_Hash : string; p_TimeoutAt : Z; p_TimeoutHeight : Z }.
Definition no_payload : SignedTxPayload := mkPayload "" "" 0 0.

Record signedTx := mkSigned {
  st_bytes : string;
  st_hash : string;
  st_timeoutHeight : Z;
  st_anchor : Z;
  st_timeoutTimestamp : Z;
  st_timeoutDuration : Z;
  st_timeoutSource : string
}.
Definition payload (st : signedTx) : SignedTxPayload :=
  mkPayload (st_bytes st) (st_hash st) (st_timeoutTimestamp st) (st_timeoutHeight st).

Section Client.
(** Private keys, messages; accounts are their number and sequence. *)
Context {Key Msg : Type}.
Record Account := mkAccount { a_Address : string; a_Number : Z; a_Sequence : Z }.
Record SignerData := mkSignerData { sd_ChainID : string; sd_AccountNumber : Z; sd_Sequence : Z; sd_Address : string }.

(** What the transaction builder holds; no timeout height is [None]. *)
Record TxBody := mkBody {
  b_msgs : list Msg;
  b_memo : string;
  b_unordered : bool;
  b_timeout : Z;
  b_gas : Z;
  b_fee : Z;
  b_height : option Z
}.

Variables (GetSigner : string -> option Key) (sign_and_encode : Key -> SignerData -> TxBody -> option string)
  (tmhash_Sum : string -> string) (proofNotRequiredText : string) (oob : Z -> Z).
(** The configuration. *)
Variables (ChainID : string) (GasLimit GasPrice : Z) (GasAdjustment : float64) (txNonceBase : Z).

(** What the node answers during one attempt, and the chain's latest block
    time (0 when none was seen). *)
Record Node := mkNode {
  n_account : string -> option Account;
  n_blockTime : Z;
  n_simulate : string -> result (option Z) GrpcErr;
  n_broadcast : string -> result TxResponse GrpcErr
}.

(** The client's state: the nonce counter of the process and the accounts. *)
Record TxClient := mkTxClient { tc_nonce : Z; tc_accounts : gmap string Account }.

Definition txHashOf (txBytes : string) : string := hex_upper (tmhash_Sum txBytes).
Definition newBroadcastRejection (err : GrpcErr) (txBytes : string) : TxRejection :=
  mkRejection TxStageBroadcast (txHashOf txBytes) 0 "" (g_code err) None (g_message err).

Definition isProofNotRequiredError (e : TxError) : bool :=
  match te_rejection e with
  | None => false
  | Some rejection => contains proofNotRequiredText (rej_RawLog rejection)
  end.

Definition InvalidateAccount (addr : string) (tc : TxClient) : TxClient := mkTxClient (tc_nonce tc) (delete addr (tc_accounts tc)).

Definition getAccount (node : Node) (addr : string) (tc : TxClient) : TxClient * option Account :=
  match tc_accounts tc !! addr with
  | Some a => (tc, Some a)
  | None =>
      match n_account node addr with
      | None => (tc, None)
      | Some a => (mkTxClient (tc_nonce tc) (<[addr := a]> (tc_accounts tc)), Some a)
      end
  end.

(** [signTx] and the encoder: an unordered transaction is signed with sequence
    0. *)
Definition signTx (key : Key) (account : Account) (unordered : bool) (body : TxBody) : option string :=
  sign_and_encode key (mkSignerData ChainID (a_Number account) (if unordered then 0 else a_Sequence account) (a_Address account)) body.

Definition simulateTx (node : Node) (key : Key) (account : Account) (body : TxBody) : result Z TxError :=
  match signTx key account true body with
  | None => Err local_error
  | Some txBytes =>
      match n_simulate node txBytes with
      | Err e => Err (rejected (newSimulateRejection e))
      | Ok None => Err local_error
      | Ok (Some gas) => Ok gas
      end
  end.

(** The gas limit and the fee: simulated and adjusted when GasLimit is 0. *)
Definition gasAndFee (node : Node) (key : Key) (account : Account) (body : TxBody) : result (Z * Z) TxError :=
  if GasLimit =? 0 then
    match simulateTx node key account body with
    | Err e => Err e
    | Ok simGas =>
        let z := Truncate (FMul (FloatOfInt simGas) GasAdjustment) in
        let gasLimit := if decide (in_uint64 z) then z else oob z in
        Ok (gasLimit, calculateFeeForGas GasPrice gasLimit)
    end
  else Ok (GasLimit, calculateFeeForGas GasPrice GasLimit).

Definition signAndEncode (node : Node) (signerAddr : string) (timeoutHeight timeoutDuration : Z) (timeoutSource : string)
    (msgs : list Msg) (tc : TxClient) : TxClient * result signedTx TxError :=
  match GetSigner signerAddr with
  | None => (tc, Err local_error)
  | Some key =>
      match getAccount node signerAddr tc with
      | (tc, None) => (tc, Err local_error)
      | (tc, Some account) =>
          let anchor := n_blockTime node in
          if anchor =? 0 then (tc, Err (sentinel ErrNoBlockTimeAnchor))
          else
            let n := wrapu64 (tc_nonce tc + 1) in
            let tc := mkTxClient n (tc_accounts tc) in
            let timeoutTimestamp := anchor + timeoutDuration + nonceOffset txNonceBase n in
            let body := mkBody msgs "HA RelayMiner" true timeoutTimestamp 0 0 None in
            match gasAndFee node key account body with
            | Err e => (tc, Err e)
            | Ok (gas, fee) =>
                let height := if 0 <? timeoutHeight then Some timeoutHeight else None in
                match signTx key account true (mkBody msgs "HA RelayMiner" true timeoutTimestamp gas fee height) with
                | None => (tc, Err local_error)
                | Some txBytes =>
                    (tc, Ok (mkSigned txBytes (txHashOf txBytes) timeoutHeight anchor timeoutTimestamp timeoutDuration timeoutSource))
                end
            end
      end
  end.

(** [broadcastRaw] on a context with a deadline: the hash the node reported and
    the error the reply is. *)
Definition broadcastRaw (node : Node) (signerAddr : string) (st : signedTx) (tc : TxClient) : TxClient * (string * option TxError) :=
  match n_broadcast node (st_bytes st) with
  | Err e => (tc, ("", Some (rejected (newBroadcastRejection e (st_bytes st)))))
  | Ok res =>
      let txHash := rsp_TxHash res in
      if rsp_Code res =? 0 then (tc, (txHash, None))
      else
        let tc := if isSequenceMismatchError (rsp_RawLog res) then InvalidateAccount signerAddr tc else tc in
        let rejection := rejected (newCheckTxRejection res) in
        (tc, (txHash, Some (if isWindowExpiredRejection (rsp_Codespace res) (rsp_Code res) then wraps ErrTxWindowExpired rejection
                            else if isAlreadyQueuedRejection (rsp_Codespace res) (rsp_Code res) then wraps ErrTxAlreadyQueued rejection
                            else rejection)))
  end.

Definition signEncodeAndBroadcast (node : Node) (signerAddr : string) (timeoutHeight timeoutDuration : Z) (timeoutSource : string)
    (msgs : list Msg) (tc : TxClient) : TxClient * (string * SignedTxPayload * option TxError) :=
  match signAndEncode node signerAddr timeoutHeight timeoutDuration timeoutSource msgs tc with
  | (tc, Err e) => (tc, ("", no_payload, Some e))
  | (tc, Ok st) => let '(tc, (hash, bErr)) := broadcastRaw node signerAddr st tc in (tc, (hash, payload st, bErr))
  end.

(** The budget the context carries decides the timeout; the deadline is
    [withBroadcastDeadline]'s. *)
Definition signAndBroadcastReturningSigned (node : Node) (window : txWindow) (signerAddr : string) (timeoutHeight : Z)
    (msgs : list Msg) (tc : TxClient) : TxClient * (string * SignedTxPayload * option TxError) :=
  let '(timeoutDuration, timeoutSource) := effectiveTxTimeout window in
  signEncodeAndBroadcast node signerAddr timeoutHeight timeoutDuration timeoutSource msgs tc.

(** [CreateClaims]; [permit] is what acquiring the permit answered. *)
Definition CreateClaims (permit : option TxError) (node : Node) (window : txWindow) (supplier : string) (timeoutHeight : Z)
    (claims : list Msg) (tc : TxClient) : TxClient * (string * SignedTxPayload * option TxError) :=
  match permit, claims with
  | Some e, _ => (tc, ("", no_payload, Some e))
  | None, [] => (tc, ("", no_payload, None))
  | None, _ =>
      match signAndBroadcastReturningSigned node window supplier timeoutHeight claims tc with
      | (tc, (_, signed, Some e)) => (tc, ("", signed, Some e))
      | (tc, (txHash, signed, None)) => (tc, (txHash, signed, None))
      end
  end.

Definition SubmitProofs (permit : option TxError) (node : Node) (window : txWindow) (supplier : string) (timeoutHeight : Z)
    (proofs : list Msg) (tc : TxClient) : TxClient * (string * SignedTxPayload * option TxError) :=
  match permit, proofs with
  | Some e, _ => (tc, ("", no_payload, Some e))
  | None, [] => (tc, ("", no_payload, None))
  | None, _ =>
      match signAndBroadcastReturningSigned node window supplier timeoutHeight proofs tc with
      | (tc, (_, signed, Some e)) =>
          if isProofNotRequiredError e then (tc, ("", no_payload, Some (wraps ErrTxProofNotRequired e))) else (tc, ("", signed, Some e))
      | (tc, (txHash, signed, None)) => (tc, (txHash, signed, None))
      end
  end.

(** The re-injection of bytes signed earlier: no key, no nonce. *)
Definition BroadcastRawReturningHash (node : Node) (signerAddr : string) (p : SignedTxPayload) (tc : TxClient)
  : TxClient * (string * option TxError) :=
  broadcastRaw node signerAddr (mkSigned (p_Bytes p) (p_Hash p) (p_TimeoutHeight p) 0 0 0 "") tc.

(** ** A resend (ResubmitMessage and its helpers, miner/supplier_manager.go) *)

Inductive SessionProofState := SessionProofUnknown | SessionProofPending | SessionProofValidated | SessionProofRejected.
Record SessionClaim := mkSessionClaim { sc_ProofState : SessionProofState; sc_RootHash : string }.
Definition no_claim : SessionClaim := mkSessionClaim SessionProofUnknown "".

Definition reusable (cached : SignedTxPayload) (chainNow : Z) : bool :=
  if String.eqb (p_Bytes cached) "" || (p_TimeoutAt cached =? 0) then false
  else if chainNow =? 0 then false
  else chainNow <? p_TimeoutAt cached.

(** [states] is the uncached read of the supplier's sessions; [None] when there
    is no query client or the read failed. *)
Definition proofAlreadyJudged (states : option (gmap string SessionClaim)) (sessionID : string) : bool :=
  match states with
  | None => false
  | Some m =>
      if String.eqb sessionID "" then false
      else match m !! sessionID with
           | Some c => match sc_ProofState c with SessionProofValidated | SessionProofRejected => true | _ => false end
           | None => false
           end
  end.
End Client.
