(* ===== verification/InclusionReconciler.v ===== *)
(** * The inclusion reconciler (miner/inclusion_reconciler.go and its wiring in
    miner/supplier_manager.go)

    On every block the reconciler asks the chain about each claim and proof it
    sent and has not seen included, records what became of it, and sends the
    missing ones again while their window is open. [Recon] is its state: a pass
    in flight, with the groups it is working on, over a [World] of the
    rebroadcast store, the suppliers' session coordinators and what was
    recorded. A step is one call of the block loop, one group's queries, one
    session of a group, or something the rest of the process does in between;
    groups advance in any order, as the worker pool runs them, and the sessions
    of a group in any order, as a Go map is walked.

    Parameters: the chain's parameters and windows ([SharedWindows]), the JSON
    codec of an entry ([EntryJson]), the protobuf decoding of the messages, and
    the node's answers. Not in the model: the pool's size, which only delays,
    log lines and latency metrics. *)

From S2P Require Import Prelude SessionState StoreSpec SessionLifecycle SessionCoordinator RebroadcastStore PebbleModel TxClient.
From Stdlib Require Import Ascii String.

Local Open Scope string_scope.
Local Open Scope Z_scope.

(** ** Entries *)

Record rebroadcastEntry := mkEntry {
  e_MsgBytes : string;
  e_SubmitHeight : Z;
  e_TxHash : string;
  e_OrigTxHash : string;
  e_ServiceID : string;
  e_Rebroadcasts : Z;
  e_TimeoutSeconds : Z;
  e_TimeoutRegime : string;
  e_LastAttemptHeight : Z;
  e_SignedBytes : string;
  e_SignedTimeoutAt : Z;
  e_SignedTimeoutHeight : Z
}.

(** The integers of an entry are Go integers. *)
Definition entry_ints (e : rebroadcastEntry) : Prop :=
  Forall in_int64 [e_SubmitHeight e; e_Rebroadcasts e; e_TimeoutSeconds e; e_LastAttemptHeight e; e_SignedTimeoutAt e; e_SignedTimeoutHeight e].

(** The entry with its text through [f]; the byte fields are base64 and pass
    unchanged. *)
Definition map_text (f : string -> string) (e : rebroadcastEntry) : rebroadcastEntry :=
  mkEntry (e_MsgBytes e) (e_SubmitHeight e) (f (e_TxHash e)) (f (e_OrigTxHash e)) (f (e_ServiceID e)) (e_Rebroadcasts e)
    (e_TimeoutSeconds e) (f (e_TimeoutRegime e)) (e_LastAttemptHeight e) (e_SignedBytes e) (e_SignedTimeoutAt e) (e_SignedTimeoutHeight e).

(** [json.Marshal] and [json.Unmarshal] of an entry. Marshal of this struct
    does not fail; text that is not UTF-8 comes back with replacement
    characters ([to_valid]). *)
Class EntryJson := {
  marshalRebroadcastEntry : rebroadcastEntry -> string;
  unmarshalRebroadcastEntry : string -> option rebroadcastEntry;
  to_valid : string -> string
}.

Class EntryJsonLaws `{!EntryJson} := {
  entry_dec_enc e : entry_ints e -> unmarshalRebroadcastEntry (marshalRebroadcastEntry e) = Some (map_text to_valid e);
  entry_dec_ints raw e : unmarshalRebroadcastEntry raw = Some e -> entry_ints e
}.

Definition set_signed (bytes : string) (at_ height : Z) (e : rebroadcastEntry) : rebroadcastEntry :=
  mkEntry (e_MsgBytes e) (e_SubmitHeight e) (e_TxHash e) (e_OrigTxHash e) (e_ServiceID e) (e_Rebroadcasts e)
    (e_TimeoutSeconds e) (e_TimeoutRegime e) (e_LastAttemptHeight e) bytes at_ height.
Definition set_TxHash (h : string) (e : rebroadcastEntry) : rebroadcastEntry :=
  mkEntry (e_MsgBytes e) (e_SubmitHeight e) h (e_OrigTxHash e) (e_ServiceID e) (e_Rebroadcasts e)
    (e_TimeoutSeconds e) (e_TimeoutRegime e) (e_LastAttemptHeight e) (e_SignedBytes e) (e_SignedTimeoutAt e) (e_SignedTimeoutHeight e).
Definition set_attempt (n height : Z) (e : rebroadcastEntry) : rebroadcastEntry :=
  mkEntry (e_MsgBytes e) (e_SubmitHeight e) (e_TxHash e) (e_OrigTxHash e) (e_ServiceID e) n
    (e_TimeoutSeconds e) (e_TimeoutRegime e) height (e_SignedBytes e) (e_SignedTimeoutAt e) (e_SignedTimeoutHeight e).

(** [time.Time.UnixNano] and [time.Unix(0, n)]. *)
Definition UnixNano (t : Z) : Z := wrap64 (t - unix_epoch).
Definition of_UnixNano (n : Z) : Z := unix_epoch + n.

(** What a resend hands its resubmitter. *)
Definition cachedTx (e : rebroadcastEntry) : SignedTxPayload :=
  mkPayload (e_SignedBytes e) (e_TxHash e) (of_UnixNano (e_SignedTimeoutAt e)) (e_SignedTimeoutHeight e).

(** ** Configuration *)

Record InclusionReconcilerConfig := mkConfig {
  MaxConcurrent : Z;
  MaxRebroadcasts : option Z;
  RebroadcastSafetyBlocks : Z;
  PerGroupTimeout : Z;
  TxMaxConcurrent : Z
}.

Definition DefaultInclusionReconcilerConfig : InclusionReconcilerConfig := mkConfig 64 None 0 (10 * second) 0.

(** The adjustments of [NewInclusionReconciler]. *)
Definition effectiveConfig (cfg : InclusionReconcilerConfig) : InclusionReconcilerConfig :=
  let mc := if MaxConcurrent cfg <=? 0 then 64 else MaxConcurrent cfg in
  let mc := if (0 <? TxMaxConcurrent cfg) && (TxMaxConcurrent cfg <? mc) then TxMaxConcurrent cfg else mc in
  mkConfig mc
    (match MaxRebroadcasts cfg with Some n => if n <? 0 then Some 0 else Some n | None => None end)
    (if RebroadcastSafetyBlocks cfg <? 0 then 0 else RebroadcastSafetyBlocks cfg)
    (if PerGroupTimeout cfg <=? 0 then 10 * second else PerGroupTimeout cfg)
    (TxMaxConcurrent cfg).

Definition canRebroadcast (cfg : InclusionReconcilerConfig) (entry : rebroadcastEntry) (height windowClose : Z) : bool :=
  let capped := match MaxRebroadcasts cfg with Some n => n <=? e_Rebroadcasts entry | None => false end in
  if capped then false
  else (e_SubmitHeight entry <? height) && (height <? windowClose - RebroadcastSafetyBlocks cfg).

(** ** Verdicts *)

Inductive inclusionVerdict := verdictMissing | verdictFound | verdictRejected.

Definition claimPhaseVerdict (state : SessionProofState) (present : bool) : inclusionVerdict :=
  if present then verdictFound else verdictMissing.
Definition proofPhaseVerdict (state : SessionProofState) (present : bool) : inclusionVerdict :=
  match state with
  | SessionProofValidated => verdictFound
  | SessionProofRejected => verdictRejected
  | _ => verdictMissing
  end.

Inductive Outcome := inclusionFound | inclusionMissing | inclusionPollErr | inclusionRejected.

#[export] Instance Outcome_eq_dec : EqDecision Outcome.
Proof. solve_decision. Defined.

(** ** The transaction of a resend *)

Definition reinjectionStallBlocks : Z := 3.

Definition nothingWasSpent (err : option TxError) : bool :=
  errors_Is err ErrTxConcurrencySaturated || errors_Is err ErrTxAlreadyQueued.

Definition stuckTooLong (entry : rebroadcastEntry) (height : Z) : bool :=
  let stuckSince := if e_LastAttemptHeight entry =? 0 then e_SubmitHeight entry else e_LastAttemptHeight entry in
  reinjectionStallBlocks <=? height - stuckSince.

Definition is_err (err : option TxError) : bool := match err with Some _ => true | None => false end.

(** What the entry keeps of the signed transaction after an attempt. *)
Definition keepSigned (entry : rebroadcastEntry) (height : Z) (sent : SignedTxPayload) (err : option TxError) : rebroadcastEntry :=
  if (is_err err && negb (nothingWasSpent err) && negb (RejectionPreservesBytes err)) || (is_err err && stuckTooLong entry height)
  then set_signed "" 0 0 entry
  else if negb (String.eqb (p_Bytes sent) "") then set_signed (p_Bytes sent) (UnixNano (p_TimeoutAt sent)) (p_TimeoutHeight sent) entry
  else entry.

(** The entry that is persisted after an attempt: counted and dated unless
    nothing was spent, with the new hash when the send was accepted. *)
Definition afterAttempt (entry : rebroadcastEntry) (height : Z) (newHash : string) (sent : SignedTxPayload) (err : option TxError) : rebroadcastEntry :=
  let entry := keepSigned entry height sent err in
  let entry := if nothingWasSpent err then entry else set_attempt (wrap64 (e_Rebroadcasts entry + 1)) height entry in
  if negb (is_err err) && negb (String.eqb newHash "") then set_TxHash newHash entry else entry.

(** The value of the rebroadcast metric's label. *)
Definition resendResult (err : option TxError) : string :=
  if negb (is_err err) then "success"
  else if errors_Is err ErrTxWindowExpired then "window_closed"
  else if errors_Is err ErrTxAlreadyQueued then "already_queued" else "error".

(** [resolveMissingCause], over the verdict of the inclusion read. *)
Inductive TxInclusion := TxInclusionUnknown | TxInclusionNotInBlock | TxInclusionIncludedOK | TxInclusionIncludedFailed.

#[export] Instance TxInclusion_eq_dec : EqDecision TxInclusion.
Proof. solve_decision. Defined.

Definition resolveMissingCause (cause : TxInclusion) (rebroadcasts : Z) : TxInclusion :=
  if bool_decide (cause = TxInclusionNotInBlock) && (1 <? rebroadcasts) then TxInclusionUnknown else cause.

(** [ReadTxInclusion]: [GetTx]'s answer, a response code, not found, or neither. *)
Inductive GetTxAnswer := GotTx (code : Z) | GotNotFound | GotNothing.

Definition ReadTxInclusion (GetTx : string -> GetTxAnswer) (hash : string) : TxInclusion :=
  if String.eqb hash "" then TxInclusionUnknown
  else match GetTx hash with
       | GotNotFound => TxInclusionNotInBlock
       | GotNothing => TxInclusionUnknown
       | GotTx code => if code =? 0 then TxInclusionIncludedOK else TxInclusionIncludedFailed
       end.

Definition dedupeHashes (origHash txHash : string) : list string :=
  ((if negb (String.eqb origHash "") then [origHash] else [])
   ++ (if negb (String.eqb txHash "") && negb (String.eqb txHash origHash) then [txHash] else []))%list.

Definition ReadInclusionForEntry (GetTx : string -> GetTxAnswer) (origHash txHash : string) : TxInclusion :=
  let verdicts := map (ReadTxInclusion GetTx) (dedupeHashes origHash txHash) in
  if bool_decide (verdicts = []) then TxInclusionUnknown
  else if bool_decide (TxInclusionIncludedOK ∈ verdicts) then TxInclusionIncludedOK
  else if bool_decide (TxInclusionIncludedFailed ∈ verdicts) then TxInclusionIncludedFailed
  else if bool_decide (Forall (eq TxInclusionNotInBlock) verdicts) then TxInclusionNotInBlock
  else TxInclusionUnknown.

(** ** What the reconciler records *)

(** The money-only Record functions of miner/metrics.go. *)
Inductive LedgerEntry :=
| LForgone (snap : SessionSnapshot) (outcome : Outcome)
| LUnresolvedResolved (snap : SessionSnapshot)
| LProved (snap : SessionSnapshot)
| LLost (snap : SessionSnapshot) (outcome : Outcome).

Inductive RejectionCause := rejectionRootMismatch | rejectionRootMatch | rejectionRootUnknown.

(** An update of the submission tracker. *)
Record TrackerUpdate := mkUpdate {
  u_phase : RebroadcastPhase;
  u_supplier : string;
  u_sessionEnd : Z;
  u_sessionID : string;
  u_txHash : string;
  u_outcome : Outcome;
  u_inclusionHeight : Z;
  u_rebroadcasts : Z;
  u_cause : option RejectionCause
}.

Inductive AbandonCause := abandonCauseListFailed | abandonCauseParamsFailed | abandonCauseIndexUnreadable | abandonCauseBudgetExhausted.

(** Why an entry was cleared. *)
Inductive ClearCause := ClCorrupt | ClFound | ClRejected | ClMissing | ClPollErr | ClNotRequired | ClAlreadyJudged.

#[export] Instance ClearCause_eq_dec : EqDecision ClearCause.
Proof. solve_decision. Defined.

(** What happened, newest first: a resend of an entry with its answer and
    whether the entry was written back; a clear and whether the store answered
    it; an entry of the lifecycle persisted; outcomes, books, tracker updates
    and the metrics. *)
Inductive Obs :=
| OResend (ph : RebroadcastPhase) (g : RebroadcastGroup) (sid : string) (height windowClose : Z) (entry : rebroadcastEntry)
    (err : option TxError) (persisted : bool)
| OClear (ph : RebroadcastPhase) (g : RebroadcastGroup) (sid : string) (height : Z) (why : ClearCause) (ok : bool)
| OPersist (ph : RebroadcastPhase) (g : RebroadcastGroup) (sid : string) (entry : rebroadcastEntry)
| OOutcome (ph : RebroadcastPhase) (supplier sid : string) (outcome : Outcome)
| OLedger (l : LedgerEntry)
| OTracked (u : TrackerUpdate)
| OMissingCause (ph : RebroadcastPhase) (cause : TxInclusion)
| ODiagnosis (cause : RejectionCause)
| OAbandoned (ph : RebroadcastPhase) (cause : AbandonCause)
| OResendResult (ph : RebroadcastPhase) (supplier serviceID result : string)
| OCapUnused (ph : RebroadcastPhase).

Section World.
Context {D : Type} `{RO : !RebroadcastOps D} {St : Type} `{SS : !SessionStore St}.
Context {Params : Type} `{SW : !SharedWindows Params} `{EJ : !EntryJson}.
(** The root hash of an encoded MsgCreateClaim; whether the manager's callbacks
    are registered, and a submission tracker. *)
Variables (claim_root : string -> option string) (onSessionCreated onSessionTerminal tracked : bool) (cfg : InclusionReconcilerConfig).

(** The rebroadcast store, the owned suppliers with their coordinators
    (m.suppliers), and what was recorded. *)
Record World := mkWorld { rw_db : D; rw_sup : gmap string (Coord St); rw_log : list Obs }.

Implicit Types (w : World) (ph : RebroadcastPhase) (g : RebroadcastGroup) (e entry : rebroadcastEntry).

Definition observe (o : Obs) w : World := mkWorld (rw_db w) (rw_sup w) (o :: rw_log w).
Definition with_db (d : D) w : World := mkWorld d (rw_sup w) (rw_log w).
Definition with_coord (supplier : string) (c : Coord St) w : World := mkWorld (rw_db w) (<[supplier := c]> (rw_sup w)) (rw_log w).

(** What the calls of one session's turn meet: the instant, the faults of the
    store calls, the expiry of the group's context at the loop's head and at
    the resend, the inclusion read (no client: [None]) and the resubmitter's
    answer (no resubmitter: [None]). *)
Record Turn := mkTurn {
  t_now : Z;
  t_calls : Calls;
  t_settle : Io;
  t_diagnose : Io;
  t_clear : Io;
  t_put : Io;
  t_expired : bool;
  t_expiredResend : bool;
  t_getTx : option (string -> GetTxAnswer);
  t_resubmit : option (RebroadcastPhase -> string -> string -> SignedTxPayload -> Z -> Z -> string -> string * SignedTxPayload * option TxError)
}.
Implicit Types t : Turn.

(** [clear]; a failed delete leaves the entry. *)
Definition clear t ph g (sid : string) (height : Z) (why : ClearCause) w : World :=
  let '(d, r) := rs_delete (t_clear t) (t_now t) (rw_db w) ph g sid in
  observe (OClear ph g sid height why (is_ok r)) (with_db d w).

(** [settleLedgerOutcome]. *)
Definition settleLedgerOutcome t ph e (supplier sid : string) (outcome : Outcome) w : World :=
  if bool_decide (outcome = inclusionPollErr) then w
  else if negb (String.eqb (e_OrigTxHash e) "") then w
  else match rw_sup w !! supplier with
       | None => w
       | Some c =>
           match ss_get (t_settle t) (t_now t) (c_store c) sid with
           | Err _ | Ok None => w
           | Ok (Some snapshot) =>
               match ph with
               | RebroadcastPhaseClaim =>
                   if bool_decide (outcome = inclusionFound) then w else observe (OLedger (LForgone snapshot outcome)) w
               | RebroadcastPhaseProof =>
                   let w := observe (OLedger (LUnresolvedResolved snapshot)) w in
                   if bool_decide (outcome = inclusionFound) then observe (OLedger (LProved snapshot)) w
                   else observe (OLedger (LLost snapshot outcome)) w
               end
           end
       end.

(** [recordMissingCause]. *)
Definition recordMissingCause t ph e w : World :=
  match t_getTx t with
  | None => w
  | Some GetTx => observe (OMissingCause ph (resolveMissingCause (ReadInclusionForEntry GetTx (e_OrigTxHash e) (e_TxHash e)) (e_Rebroadcasts e))) w
  end.

Inductive OutcomeErr := ENotOwned | ECoordinator (e : CoordErr).

(** [reactivateClaimedSession]: a message that does not decode and a root that
    is unusable are not errors, as retrying cannot mend them. *)
Definition reactivateClaimedSession t (supplier sid : string) e w : World * result unit OutcomeErr :=
  match rw_sup w !! supplier with
  | None => (w, Err ENotOwned)
  | Some c =>
      match claim_root (e_MsgBytes e) with
      | None => (w, Ok tt)
      | Some root =>
          let '(c', r) := OnClaimObservedOnChain onSessionCreated (t_calls t) (t_now t) c sid root (e_TxHash e) in
          (with_coord supplier c' w,
           match r with
           | Ok _ | Err ErrClaimRootUnusable => Ok tt
           | Err err => Err (ECoordinator err)
           end)
      end
  end.

Definition track (u : TrackerUpdate) w : World := if tracked then observe (OTracked u) w else w.

Definition recordClaimOutcome t e (supplier : string) (sessionEnd : Z) (sid : string) (outcome : Outcome) (inclusionHeight : Z) w
  : World * result unit OutcomeErr :=
  match (if bool_decide (outcome = inclusionFound) then reactivateClaimedSession t supplier sid e w else (w, Ok tt)) with
  | (w, Err err) => (w, Err err)
  | (w, Ok _) =>
      let w := observe (OOutcome RebroadcastPhaseClaim supplier sid outcome) w in
      let w := settleLedgerOutcome t RebroadcastPhaseClaim e supplier sid outcome w in
      let w := if bool_decide (outcome = inclusionMissing) then recordMissingCause t RebroadcastPhaseClaim e w else w in
      let origHash := if String.eqb (e_OrigTxHash e) "" then e_TxHash e else e_OrigTxHash e in
      (track (mkUpdate RebroadcastPhaseClaim supplier sessionEnd sid origHash outcome inclusionHeight (e_Rebroadcasts e) None) w, Ok tt)
  end.

(** [markProvedSession]. *)
Definition markProvedSession t (supplier sid : string) e w : World * result Reactivation OutcomeErr :=
  match rw_sup w !! supplier with
  | None => (w, Err ENotOwned)
  | Some c =>
      let '(c', r) := OnProofObservedOnChain onSessionTerminal (t_calls t 0%nat) (t_now t) c sid (e_TxHash e) in
      (with_coord supplier c' w, match r with Ok a => Ok a | Err err => Err (ECoordinator err) end)
  end.

Definition recordProofOutcome t e (supplier : string) (sessionEnd : Z) (sid : string) (outcome : Outcome) (inclusionHeight : Z) w
  : World * result unit OutcomeErr :=
  let '(w, flip) := if bool_decide (outcome = inclusionFound)
                    then let '(w, r) := markProvedSession t supplier sid e w in (w, match r with Ok f => Ok (Some f) | Err err => Err err end)
                    else (w, Ok None) in
  match flip with
  | Err err => (w, Err err)
  | Ok f =>
      let settle := match f with Some f => negb (bool_decide (RFrom f = None)) | None => true end in
      let w := observe (OOutcome RebroadcastPhaseProof supplier sid outcome) w in
      let w := if settle then settleLedgerOutcome t RebroadcastPhaseProof e supplier sid outcome w else w in
      let w := if bool_decide (outcome = inclusionMissing) then recordMissingCause t RebroadcastPhaseProof e w else w in
      (track (mkUpdate RebroadcastPhaseProof supplier sessionEnd sid (e_TxHash e) outcome inclusionHeight (e_Rebroadcasts e) None) w, Ok tt)
  end.

(** [diagnoseProofRejection]. *)
Definition diagnoseProofRejection t e (supplier : string) (sessionEnd : Z) (sid : string) (height : Z) (onChainRoot : string) w : World :=
  let cause :=
    match rw_sup w !! supplier with
    | Some c =>
        if String.eqb onChainRoot "" then rejectionRootUnknown
        else match ss_get (t_diagnose t) (t_now t) (c_store c) sid with
             | Ok (Some snapshot) =>
                 if String.eqb (ClaimedRootHash snapshot) "" then rejectionRootUnknown
                 else if String.eqb (ClaimedRootHash snapshot) onChainRoot then rejectionRootMatch else rejectionRootMismatch
             | _ => rejectionRootUnknown
             end
    | None => rejectionRootUnknown
    end in
  track (mkUpdate RebroadcastPhaseProof supplier sessionEnd sid "" inclusionRejected height 0 (Some cause)) (observe (ODiagnosis cause) w).

(** ** The phases *)

Record reconcilePhase := mkPhase {
  rp_phase : RebroadcastPhase;
  rp_windowCloseHeight : Params -> Z -> Z;
  rp_pollRetryUntil : option (Params -> Z -> Z);
  rp_verdict : SessionProofState -> bool -> inclusionVerdict;
  rp_recordOutcome : Turn -> rebroadcastEntry -> string -> Z -> string -> Outcome -> Z -> World -> World * result unit OutcomeErr;
  rp_diagnoseRejection : option (Turn -> rebroadcastEntry -> string -> Z -> string -> Z -> string -> World -> World)
}.

Definition claimPollRetryUntil (p : Params) (sessionEnd : Z) : Z := GetProofWindowCloseHeight p sessionEnd - 2.

Definition claimPhase : reconcilePhase :=
  mkPhase RebroadcastPhaseClaim GetClaimWindowCloseHeight (Some claimPollRetryUntil) claimPhaseVerdict recordClaimOutcome None.
Definition proofPhase : reconcilePhase :=
  mkPhase RebroadcastPhaseProof GetProofWindowCloseHeight None proofPhaseVerdict recordProofOutcome (Some diagnoseProofRejection).
Definition phaseOf ph : reconcilePhase :=
  match ph with RebroadcastPhaseClaim => claimPhase | RebroadcastPhaseProof => proofPhase end.

(** ** One session of a group *)

(** [rebroadcast]. *)
Definition rebroadcast (rp : reconcilePhase) t g (sid : string) entry (height windowClose : Z) w : World :=
  match t_resubmit t with
  | None => w
  | Some ResubmitMessage =>
      if t_expiredResend t then w
      else
        let ph := rp_phase rp in
        let '(newHash, sent, err) := ResubmitMessage ph (rg_Supplier g) (e_MsgBytes entry) (cachedTx entry) windowClose
                                       (wrap64 (e_TimeoutSeconds entry * second)) (e_TimeoutRegime entry) in
        let sent_ (persisted : bool) := OResend ph g sid height windowClose entry err persisted in
        if errors_Is err ErrTxProofNotRequired then
          observe (OResendResult ph (rg_Supplier g) (e_ServiceID entry) "not_required") (clear t ph g sid height ClNotRequired (observe (sent_ false) w))
        else if errors_Is err ErrProofAlreadyJudged then
          observe (OResendResult ph (rg_Supplier g) (e_ServiceID entry) "already_judged") (clear t ph g sid height ClAlreadyJudged (observe (sent_ false) w))
        else
          let '(d, r) := rs_put (t_put t) (t_now t) (rw_db w) ph g sid (marshalRebroadcastEntry (afterAttempt entry height newHash sent err)) in
          observe (OResendResult ph (rg_Supplier g) (e_ServiceID entry) (resendResult err)) (observe (sent_ (is_ok r)) (with_db d w))
  end.

Definition resendIfOpen (rp : reconcilePhase) t g (sid : string) entry (height windowClose : Z) w : World :=
  if canRebroadcast cfg entry height windowClose then rebroadcast rp t g sid entry height windowClose w else w.

(** A turn of the loop of degraded mode: the chain did not answer and the
    window is open. *)
Definition degradedTurn (rp : reconcilePhase) t g (height windowClose : Z) (sid raw : string) w : World :=
  match unmarshalRebroadcastEntry raw with
  | None => clear t (rp_phase rp) g sid height ClCorrupt w
  | Some entry => resendIfOpen rp t g sid entry height windowClose w
  end.

(** The chain did not answer, the window is closed and past the last height to
    ask again. *)
Definition pollErrorTurn (rp : reconcilePhase) t g (height : Z) (sid raw : string) w : World :=
  match unmarshalRebroadcastEntry raw with
  | None => clear t (rp_phase rp) g sid height ClCorrupt w
  | Some entry =>
      clear t (rp_phase rp) g sid height ClPollErr
        (fst (rp_recordOutcome rp t entry (rg_Supplier g) (rg_SessionEnd g) sid inclusionPollErr 0 w))
  end.

(** A turn of the main loop; [true] when the group's budget is spent. *)
Definition mainTurn (rp : reconcilePhase) t g (height windowClose : Z) (onChain : gmap string SessionClaim) (sid raw : string) w : World * bool :=
  if t_expired t then (observe (OAbandoned (rp_phase rp) abandonCauseBudgetExhausted) w, true)
  else match unmarshalRebroadcastEntry raw with
       | None => (clear t (rp_phase rp) g sid height ClCorrupt w, false)
       | Some entry =>
           let claim := default no_claim (onChain !! sid) in
           let present := bool_decide (is_Some (onChain !! sid)) in
           match rp_verdict rp (sc_ProofState claim) present with
           | verdictFound =>
               match rp_recordOutcome rp t entry (rg_Supplier g) (rg_SessionEnd g) sid inclusionFound height w with
               | (w, Err _) => (w, false)
               | (w, Ok _) => (clear t (rp_phase rp) g sid height ClFound w, false)
               end
           | verdictRejected =>
               let w := fst (rp_recordOutcome rp t entry (rg_Supplier g) (rg_SessionEnd g) sid inclusionRejected height w) in
               let w := match rp_diagnoseRejection rp with
                        | Some diagnose => diagnose t entry (rg_Supplier g) (rg_SessionEnd g) sid height (sc_RootHash claim) w
                        | None => w
                        end in
               (clear t (rp_phase rp) g sid height ClRejected w, false)
           | verdictMissing =>
               if windowClose <? height then
                 let w := match MaxRebroadcasts cfg with
                          | Some n => if e_Rebroadcasts entry <? n then observe (OCapUnused (rp_phase rp)) w else w
                          | None => w
                          end in
                 let w := fst (rp_recordOutcome rp t entry (rg_Supplier g) (rg_SessionEnd g) sid inclusionMissing 0 w) in
                 (clear t (rp_phase rp) g sid height ClMissing w, false)
               else (resendIfOpen rp t g sid entry height windowClose w, false)
           end
       end.
End World.

(** ** A pass *)

(** The oracle: what the chain said about a supplier during this pass, asked at
    most once; a failure is remembered too. *)
Definition Oracle : Type := gmap string (option (gmap string SessionClaim)).

(** [states]: [fetch] is the answer of the query if this caller is the one who
    asks; [expired] a caller whose context ended while it waited its turn. *)
Definition states (o : Oracle) (supplier : string) (expired : bool) (fetch : option (gmap string SessionClaim))
  : Oracle * option (gmap string SessionClaim) :=
  if expired then (o, None)
  else match o !! supplier with
       | Some answer => (o, answer)
       | None => (<[supplier := fetch]> o, fetch)
       end.

(** Which loop a group's sessions go through. *)
Inductive Loop := LMain (onChain : gmap string SessionClaim) | LDegraded | LPollErr.

(** A group of a pass: submitted to the pool, or in its loop with the sessions
    still to visit. *)
Inductive Task :=
| TQueued (g : RebroadcastGroup)
| TLoop (g : RebroadcastGroup) (loop : Loop) (windowClose : Z) (rest : gmap string string).

Definition task_group (k : Task) : RebroadcastGroup := match k with TQueued g | TLoop g _ _ _ => g end.

(** The pass of a phase: before its groups are listed, or running them. *)
Inductive Stage := SList | SRun (tasks : list Task).

Record Pass := mkPass { ps_height : Z; ps_phase : RebroadcastPhase; ps_oracle : Oracle; ps_stage : Stage }.

(** ** The lifecycle's side (persistRebroadcastEntry, miner/lifecycle_callback.go) *)

(** What a submission left: its message, the height and hash of the send, the
    transaction, how the send ended, and its budget. *)
Record Submission := mkSubmission {
  s_msgBytes : string;
  s_submitHeight : Z;
  s_txHash : string;
  s_signed : SignedTxPayload;
  s_attemptErr : option TxError;
  s_budget : Z;
  s_regime : string
}.

Definition signedTimeoutNanos (p : SignedTxPayload) : Z := if p_TimeoutAt p =? 0 then 0 else UnixNano (p_TimeoutAt p).

Definition newEntry (serviceID : string) (p : Submission) : rebroadcastEntry :=
  let signed := if RejectionPreservesBytes (s_attemptErr p) then s_signed p else no_payload in
  mkEntry (s_msgBytes p) (s_submitHeight p) (s_txHash p) (s_txHash p) serviceID 0 (Z.quot (s_budget p) second) (s_regime p) 0
    (p_Bytes signed) (signedTimeoutNanos signed) (p_TimeoutHeight signed).

Definition group_of (snapshot : SessionSnapshot) : RebroadcastGroup := mkGroup (SupplierOperatorAddress snapshot) (SessionEndHeight snapshot).

Section System.
Context {D : Type} `{RO : !RebroadcastOps D} {St : Type} `{SS : !SessionStore St}.
Context {Params : Type} `{SW : !SharedWindows Params} `{EJ : !EntryJson}.
Variables (claim_root : string -> option string) (onSessionCreated onSessionTerminal tracked : bool) (cfg : InclusionReconcilerConfig).
(** The shared parameters at a height, when the query answers. *)
Variable GetParamsAtHeight : Z -> Params.
Abbreviation World := (World (D := D) (St := St)).
Abbreviation phase := (phaseOf (D := D) (St := St) claim_root onSessionCreated onSessionTerminal tracked).

Record Recon := mkRecon { r_closed : bool; r_last : Z; r_pass : option Pass; r_now : Z; r_world : World }.

Definition windowClose_of (ph : RebroadcastPhase) (g : RebroadcastGroup) : Z :=
  rp_windowCloseHeight (phase ph) (GetParamsAtHeight (rg_SessionEnd g)) (rg_SessionEnd g).
Definition retryUntil_of (ph : RebroadcastPhase) (g : RebroadcastGroup) : option Z :=
  match rp_pollRetryUntil (phase ph) with
  | Some f => Some (f (GetParamsAtHeight (rg_SessionEnd g)) (rg_SessionEnd g))
  | None => None
  end.

(** The answers [reconcileGroup] gets before its loop. *)
Record Begin := mkBegin {
  b_list : Io;
  b_cleanup : Io;
  b_params : bool;
  b_expired : bool;
  b_fetch : option (gmap string SessionClaim)
}.

(** [reconcileGroup] up to its loop. *)
Definition beginGroup (b : Begin) (now : Z) (ph : RebroadcastPhase) (g : RebroadcastGroup) (height : Z) (o : Oracle) (w : World)
  : World * Oracle * option Task :=
  match rs_list (b_list b) now (rw_db w) ph g with
  | Err _ => (observe (OAbandoned ph abandonCauseListFailed) w, o, None)
  | Ok pending =>
      if bool_decide (pending = ∅) then
        (with_db (fst (rs_cleanup (b_cleanup b) now (rw_db w) ph g)) w, o, None)
      else if negb (b_params b) then (observe (OAbandoned ph abandonCauseParamsFailed) w, o, None)
      else
        let windowClose := windowClose_of ph g in
        match states o (rg_Supplier g) (b_expired b) (b_fetch b) with
        | (o, Some onChain) => (w, o, Some (TLoop g (LMain onChain) windowClose pending))
        | (o, None) =>
            if negb (windowClose <? height) then (w, o, Some (TLoop g LDegraded windowClose pending))
            else if match retryUntil_of ph g with Some until => height <=? until | None => false end then (w, o, None)
            else (w, o, Some (TLoop g LPollErr windowClose pending))
        end
  end.

(** A turn of the group's loop, [true] when it stops there. *)
Definition turn (t : Turn) (ph : RebroadcastPhase) (g : RebroadcastGroup) (height windowClose : Z) (loop : Loop) (sid raw : string) (w : World) : World * bool :=
  match loop with
  | LMain onChain => mainTurn cfg (phase ph) t g height windowClose onChain sid raw w
  | LDegraded => (degradedTurn cfg (phase ph) t g height windowClose sid raw w, false)
  | LPollErr => (pollErrorTurn (phase ph) t g height sid raw w, false)
  end.

Definition persistRebroadcastEntry (io : Io) (now : Z) (ph : RebroadcastPhase) (snapshot : SessionSnapshot) (p : Submission) (w : World) : World :=
  let e := newEntry (ServiceID snapshot) p in
  let '(d, _) := rs_put io now (rw_db w) ph (group_of snapshot) (SessionID snapshot) (marshalRebroadcastEntry e) in
  observe (OPersist ph (group_of snapshot) (SessionID snapshot) e) (with_db d w).

Inductive Event :=
| EBlock (height : Z)
| EActive (now : Z) (io : Io)
| EBegin (now : Z) (g : RebroadcastGroup) (b : Begin)
| ETurn (g : RebroadcastGroup) (sid : string) (t : Turn)
| EDrop (g : RebroadcastGroup)
| EPassEnd
| EPersist (now : Z) (io : Io) (ph : RebroadcastPhase) (snapshot : SessionSnapshot) (p : Submission)
| ESuppliers (sup : gmap string (Coord St))
| EClose.

Definition is_group (g : RebroadcastGroup) (k : Task) : bool := bool_decide (task_group k = g).
Definition find_task (g : RebroadcastGroup) (tasks : list Task) : option Task := List.find (is_group g) tasks.
Definition drop_task (g : RebroadcastGroup) (tasks : list Task) : list Task := List.filter (fun k => negb (is_group g k)) tasks.

Definition set_pass (p : option Pass) (r : Recon) : Recon := mkRecon (r_closed r) (r_last r) p (r_now r) (r_world r).
Definition set_world (now : Z) (w : World) (r : Recon) : Recon := mkRecon (r_closed r) (r_last r) (r_pass r) now w.
Definition set_tasks (p : Pass) (o : Oracle) (ks : list Task) : Pass := mkPass (ps_height p) (ps_phase p) o (SRun ks).
Definition later (r : Recon) (now : Z) : bool := r_now r <=? now.

(** [None]: the event cannot happen in this state. *)
Definition step (ev : Event) (r : Recon) : option Recon :=
  match ev with
  | EBlock height =>
      if r_closed r then Some r
      else if height <=? r_last r then Some r
      else match r_pass r with
           | Some _ => Some r
           | None => Some (mkRecon false height (Some (mkPass height RebroadcastPhaseClaim ∅ SList)) (r_now r) (r_world r))
           end
  | EActive now io =>
      match r_pass r with
      | Some (mkPass h ph o SList) =>
          if negb (later r now) then None
          else
            let '(d, res) := rs_active io now (rw_db (r_world r)) ph in
            match res with
            | Err _ => Some (set_pass (Some (mkPass h ph o (SRun []))) (set_world now (observe (OAbandoned ph abandonCauseIndexUnreadable) (with_db d (r_world r))) r))
            | Ok groups =>
                let owned := List.filter (fun g => bool_decide (is_Some (rw_sup (r_world r) !! rg_Supplier g))) groups in
                Some (set_pass (Some (mkPass h ph o (SRun (map TQueued owned)))) (set_world now (with_db d (r_world r)) r))
            end
      | _ => None
      end
  | EBegin now g b =>
      match r_pass r with
      | Some (mkPass h ph o (SRun ks) as p) =>
          match find_task g ks with
          | Some (TQueued _) =>
              if negb (later r now) then None
              else
                let '(w, o, k) := beginGroup b now ph g h o (r_world r) in
                let ks := match k with Some k => k :: drop_task g ks | None => drop_task g ks end in
                Some (set_pass (Some (set_tasks p o ks)) (set_world now w r))
          | _ => None
          end
      | _ => None
      end
  | ETurn g sid t =>
      match r_pass r with
      | Some (mkPass h ph o (SRun ks) as p) =>
          match find_task g ks with
          | Some (TLoop _ loop windowClose rest) =>
              match rest !! sid with
              | None => None
              | Some raw =>
                  if negb (later r (t_now t)) then None
                  else
                    let '(w, stop) := turn t ph g h windowClose loop sid raw (r_world r) in
                    let ks' := if stop then drop_task g ks else TLoop g loop windowClose (delete sid rest) :: drop_task g ks in
                    Some (set_pass (Some (set_tasks p o ks')) (set_world (t_now t) w r))
              end
          | _ => None
          end
      | _ => None
      end
  | EDrop g =>
      match r_pass r with
      | Some (mkPass h ph o (SRun ks) as p) =>
          match find_task g ks with
          | Some _ => Some (set_pass (Some (set_tasks p o (drop_task g ks))) r)
          | None => None
          end
      | _ => None
      end
  | EPassEnd =>
      match r_pass r with
      | Some (mkPass h ph o (SRun ks)) =>
          if forallb (fun k => match k with TLoop _ _ _ rest => bool_decide (rest = ∅) | TQueued _ => false end) ks then
            match ph with
            | RebroadcastPhaseClaim => Some (set_pass (Some (mkPass h RebroadcastPhaseProof o SList)) r)
            | RebroadcastPhaseProof => Some (set_pass None r)
            end
          else None
      | _ => None
      end
  | EPersist now io ph snapshot p =>
      if negb (later r now) then None
      else Some (set_world now (persistRebroadcastEntry io now ph snapshot p (r_world r)) r)
  | ESuppliers sup => Some (set_world (r_now r) (mkWorld (rw_db (r_world r)) sup (rw_log (r_world r))) r)
  | EClose => Some (mkRecon true (r_last r) (r_pass r) (r_now r) (r_world r))
  end.

Fixpoint run (evs : list Event) (r : Recon) : option Recon :=
  match evs with
  | [] => Some r
  | ev :: evs => match step ev r with Some r' => run evs r' | None => None end
  end.

(** A fresh reconciler over a store. *)
Definition start (now : Z) (d : D) (sup : gmap string (Coord St)) : Recon := mkRecon false 0 None now (mkWorld d sup []).
End System.

(** ** The resubmitter (SupplierManager.ResubmitMessage) *)

Section Resubmit.
Context {Key Msg : Type}.
Variables (GetSigner : string -> option Key) (sign_and_encode : Key -> SignerData -> TxBody (Msg := Msg) -> option string)
  (tmhash_Sum : string -> string) (proofNotRequiredText : string) (oob : Z -> Z)
  (ChainID : string) (GasLimit GasPrice : Z) (GasAdjustment : GoFloat.float64) (txNonceBase : Z).
(** The messages an entry's bytes decode to; a proof's session. *)
Variables (unmarshal_claim : string -> option Msg) (unmarshal_proof : string -> option (Msg * string)).

(** What one call meets: whether the supplier has a client, the permit (asked
    for without waiting), the node, the wall clock and the uncached read of the
    supplier's sessions. *)
Record ResubmitEnv := mkResubmitEnv {
  re_owned : bool;
  re_permit : option TxError;
  re_node : Node;
  re_now : Z;
  re_states : option (gmap string SessionClaim)
}.

(** [CreateClaimsReturningHash] and its twin are the client's calls with the
    hash emptied on an error, as the client's are. *)
Definition ResubmitMessage (env : ResubmitEnv) (tc : TxClient) (ph : RebroadcastPhase) (supplier msgBytes : string) (cached : SignedTxPayload)
    (timeoutHeight timeout : Z) (regime : string) : TxClient * (string * SignedTxPayload * option TxError) :=
  if negb (re_owned env) then (tc, ("", no_payload, Some local_error))
  else
    let '(resendTimeout, resendRegime) := if timeout <=? 0 then WindowTimeout 0 0 else (timeout, regime) in
    let window := WithTxWindowTimeout (re_now env) resendTimeout resendRegime in
    if reusable cached (n_blockTime (re_node env)) then
      let '(tc, (hash, err)) := BroadcastRawReturningHash tmhash_Sum (re_node env) supplier cached tc in (tc, (hash, cached, err))
    else match ph with
         | RebroadcastPhaseClaim =>
             match unmarshal_claim msgBytes with
             | None => (tc, ("", no_payload, Some local_error))
             | Some msg =>
                 CreateClaims GetSigner sign_and_encode tmhash_Sum oob ChainID GasLimit GasPrice GasAdjustment txNonceBase
                   (re_permit env) (re_node env) window supplier timeoutHeight [msg] tc
             end
         | RebroadcastPhaseProof =>
             match unmarshal_proof msgBytes with
             | None => (tc, ("", no_payload, Some local_error))
             | Some (msg, sessionID) =>
                 if proofAlreadyJudged (re_states env) sessionID then (tc, ("", no_payload, Some (sentinel ErrProofAlreadyJudged)))
                 else SubmitProofs GetSigner sign_and_encode tmhash_Sum proofNotRequiredText oob ChainID GasLimit GasPrice GasAdjustment txNonceBase
                        (re_permit env) (re_node env) window supplier timeoutHeight [msg] tc
             end
         end.
End Resubmit.
