(* ===== verification/InclusionSafety.v ===== *)
(** * What the inclusion reconciler guarantees

    [turned] says what one session's turn can do: nothing, clear the entry for
    a cause, or send it again; every invariant of a run is proved over it. Then
    the claims: a resend happens inside its window, once per block and within
    the cap; an entry leaves the store only for a cause; a claim found on chain
    is never forgotten before its session is restored; a closed window settles
    its entries; and a transaction already signed is sent again rather than
    signed twice. *)

From S2P Require Import Prelude SessionState StoreSpec SessionLifecycle SessionCoordinator RebroadcastStore PebbleModel TxClient InclusionReconciler.
From Stdlib Require Import Ascii String.

Local Open Scope string_scope.
Local Open Scope Z_scope.
Local Open Scope list_scope.

(** ** Reading the log *)

(** The records that are about entries. *)
Definition about_entries (o : Obs) : bool :=
  match o with OResend _ _ _ _ _ _ _ _ | OClear _ _ _ _ _ _ | OPersist _ _ _ _ => true | _ => false end.

Record Resend := mkResend { rs_height : Z; rs_close : Z; rs_entry : rebroadcastEntry; rs_err : option TxError; rs_persisted : bool }.

Definition Target : Type := RebroadcastPhase * RebroadcastGroup * string.

Definition resend_of (x : Target) (o : Obs) : option Resend :=
  match o with
  | OResend ph g sid h close e err p => if decide (x = (ph, g, sid)) then Some (mkResend h close e err p) else None
  | _ => None
  end.
Definition persist_of (x : Target) (o : Obs) : option rebroadcastEntry :=
  match o with OPersist ph g sid e => if decide (x = (ph, g, sid)) then Some e else None | _ => None end.

(** The resends and the submissions of one session, newest first. *)
Definition resends (x : Target) (log : list Obs) : list Resend := omap (resend_of x) log.
Definition persists (x : Target) (log : list Obs) : list rebroadcastEntry := omap (persist_of x) log.

Definition is_spent (r : Resend) : bool := negb (nothingWasSpent (rs_err r)).
Definition is_lost (r : Resend) : bool := is_spent r && negb (rs_persisted r).
(** How many resends spent an attempt, and how many of those were not written
    back. *)
Definition spent (x : Target) (log : list Obs) : Z := Z.of_nat (List.length (List.filter is_spent (resends x log))).
Definition lost (x : Target) (log : list Obs) : Z := Z.of_nat (List.length (List.filter is_lost (resends x log))).
Definition submissions (x : Target) (log : list Obs) : Z := Z.of_nat (List.length (persists x log)).

Section Logs.
Context {D St : Type}.
Abbreviation World := (World (D := D) (St := St)).
Implicit Types w : World.

(** Nothing happened to an entry. *)
Definition quiet w w' : Prop :=
  rw_db w' = rw_db w /\ exists l, rw_log w' = l ++ rw_log w /\ Forall (fun o => about_entries o = false) l.

Lemma quiet_refl w : quiet w w.
Proof. split; [done|]. by exists []. Qed.
Lemma quiet_trans w1 w2 w3 : quiet w1 w2 -> quiet w2 w3 -> quiet w1 w3.
Proof.
  intros [Hd (l & Hl & Hf)] [Hd' (l' & Hl' & Hf')]. split; [congruence|]. exists (l' ++ l). rewrite Hl', Hl, app_assoc.
  split; [done|]. by apply Forall_app.
Qed.
Lemma quiet_observe o w : about_entries o = false -> quiet w (observe o w).
Proof. intros Ho. split; [done|]. exists [o]. split; [done|by constructor]. Qed.
Lemma quiet_coord s c w : quiet w (with_coord s c w).
Proof. split; [done|]. by exists []. Qed.
Lemma quiet_if (b : bool) w w' : quiet w w' -> quiet w (if b then w' else w).
Proof. destruct b; [done|]. intros _. apply quiet_refl. Qed.

Lemma omap_quiet {A} (f : Obs -> option A) w w' : (forall o, about_entries o = false -> f o = None) -> quiet w w' ->
  omap f (rw_log w') = omap f (rw_log w).
Proof.
  intros Hf [_ (l & -> & Hl)]. rewrite omap_app. induction Hl as [|o l Ho Hl IH]; [done|]. simpl. by rewrite Hf.
Qed.
Lemma quiet_resends x w w' : quiet w w' -> resends x (rw_log w') = resends x (rw_log w).
Proof. apply omap_quiet. by intros []. Qed.
Lemma quiet_persists x w w' : quiet w w' -> persists x (rw_log w') = persists x (rw_log w).
Proof. apply omap_quiet. by intros []. Qed.
Lemma quiet_counts x w w' : quiet w w' -> spent x (rw_log w') = spent x (rw_log w) /\ lost x (rw_log w') = lost x (rw_log w) /\
  submissions x (rw_log w') = submissions x (rw_log w).
Proof. intros H. unfold spent, lost, submissions. by rewrite (quiet_resends x w w' H), (quiet_persists x w w' H). Qed.
End Logs.
#[export] Hint Resolve quiet_refl quiet_observe quiet_coord quiet_if : miner.

(** ** One turn *)

Section Turns.
Context {D : Type} `{RO : !RebroadcastOps D} {St : Type} `{SS : !SessionStore St}.
Context {Params : Type} `{SW : !SharedWindows Params} `{EJ : !EntryJson}.
Variables (claim_root : string -> option string) (onSessionCreated onSessionTerminal tracked : bool) (cfg : InclusionReconcilerConfig).
Variable GetParamsAtHeight : Z -> Params.
Abbreviation World := (World (D := D) (St := St)).
Abbreviation phase := (phaseOf (D := D) (St := St) claim_root onSessionCreated onSessionTerminal tracked).
Abbreviation turn := (turn (D := D) (St := St) claim_root onSessionCreated onSessionTerminal tracked cfg).
Implicit Types (w : World) (t : Turn).

Lemma settle_quiet t ph e supplier sid outcome w : quiet w (settleLedgerOutcome t ph e supplier sid outcome w).
Proof.
  unfold settleLedgerOutcome. repeat (case_match; auto with miner).
  all: eapply quiet_trans; apply quiet_observe; done.
Qed.

Lemma missing_cause_quiet t ph e w : quiet w (recordMissingCause t ph e w).
Proof. unfold recordMissingCause. case_match; auto with miner. Qed.

Lemma track_quiet u w : quiet w (track tracked u w).
Proof. unfold track. apply quiet_if. by apply quiet_observe. Qed.

Lemma reactivate_quiet t supplier sid e w : quiet w (fst (reactivateClaimedSession claim_root onSessionCreated t supplier sid e w)).
Proof.
  unfold reactivateClaimedSession. destruct (rw_sup w !! supplier); [|apply quiet_refl]. destruct (claim_root _); [|apply quiet_refl].
  destruct (OnClaimObservedOnChain _ _ _ _ _ _ _). apply quiet_coord.
Qed.

Lemma marked_quiet t supplier sid e w : quiet w (fst (markProvedSession onSessionTerminal t supplier sid e w)).
Proof.
  unfold markProvedSession. destruct (rw_sup w !! supplier); [|apply quiet_refl]. destruct (OnProofObservedOnChain _ _ _ _ _ _). apply quiet_coord.
Qed.

Lemma diagnose_quiet t e supplier send sid h root w : quiet w (diagnoseProofRejection tracked t e supplier send sid h root w).
Proof. unfold diagnoseProofRejection. eapply quiet_trans; [|apply track_quiet]. by apply quiet_observe. Qed.

Lemma claim_outcome_quiet t e supplier send sid o h w :
  quiet w (fst (recordClaimOutcome claim_root onSessionCreated tracked t e supplier send sid o h w)).
Proof.
  unfold recordClaimOutcome. set (p := if bool_decide (o = inclusionFound) then _ else _).
  assert (quiet w (fst p)) as Hp by (unfold p; case_bool_decide; [apply reactivate_quiet|apply quiet_refl]).
  destruct p as [w1 [[]|err]]; [|done]. cbn [fst] in *.
  eapply quiet_trans; [|apply track_quiet]. eapply quiet_trans; [exact Hp|].
  eapply quiet_trans; [by apply (quiet_observe (OOutcome RebroadcastPhaseClaim supplier sid o))|].
  eapply quiet_trans; [apply settle_quiet|]. apply quiet_if, missing_cause_quiet.
Qed.

Lemma proof_outcome_quiet t e supplier send sid o h w :
  quiet w (fst (recordProofOutcome onSessionTerminal tracked t e supplier send sid o h w)).
Proof.
  unfold recordProofOutcome. set (p := if bool_decide (o = inclusionFound) then _ else _).
  assert (quiet w (fst p)) as Hp.
  { unfold p. case_bool_decide; [|apply quiet_refl]. pose proof (marked_quiet t supplier sid e w) as Hm. by destruct (markProvedSession _ _ _ _ _ _). }
  destruct p as [w1 [f|err]]; [|done]. cbn [fst] in *.
  eapply quiet_trans; [|apply track_quiet]. eapply quiet_trans; [exact Hp|].
  eapply quiet_trans; [by apply (quiet_observe (OOutcome RebroadcastPhaseProof supplier sid o))|].
  eapply quiet_trans; [|apply quiet_if, missing_cause_quiet]. apply quiet_if, settle_quiet.
Qed.

Lemma outcome_quiet ph t e supplier send sid o h w : quiet w (fst (rp_recordOutcome (phase ph) t e supplier send sid o h w)).
Proof. destruct ph; [apply claim_outcome_quiet|apply proof_outcome_quiet]. Qed.

(** Why a turn may clear an entry: what the chain or the resubmitter said. *)
Inductive cause (t : Turn) (ph : RebroadcastPhase) (g : RebroadcastGroup) (h close : Z) (loop : Loop) (sid raw : string) (w : World) : ClearCause -> Prop :=
| cause_corrupt : unmarshalRebroadcastEntry raw = None -> cause t ph g h close loop sid raw w ClCorrupt
| cause_found e onChain w' : unmarshalRebroadcastEntry raw = Some e -> loop = LMain onChain ->
    rp_verdict (phase ph) (sc_ProofState (default no_claim (onChain !! sid))) (bool_decide (is_Some (onChain !! sid))) = verdictFound ->
    rp_recordOutcome (phase ph) t e (rg_Supplier g) (rg_SessionEnd g) sid inclusionFound h w = (w', Ok tt) ->
    cause t ph g h close loop sid raw w ClFound
| cause_rejected onChain : loop = LMain onChain ->
    rp_verdict (phase ph) (sc_ProofState (default no_claim (onChain !! sid))) (bool_decide (is_Some (onChain !! sid))) = verdictRejected ->
    cause t ph g h close loop sid raw w ClRejected
| cause_missing onChain : loop = LMain onChain ->
    rp_verdict (phase ph) (sc_ProofState (default no_claim (onChain !! sid))) (bool_decide (is_Some (onChain !! sid))) = verdictMissing ->
    close < h -> cause t ph g h close loop sid raw w ClMissing
| cause_poll : loop = LPollErr -> cause t ph g h close loop sid raw w ClPollErr.

(** The resubmitter's answer for an entry. *)
Definition answered_by (t : Turn) (ph : RebroadcastPhase) (g : RebroadcastGroup) (close : Z) (e : rebroadcastEntry)
    (newHash : string) (sent : SignedTxPayload) (err : option TxError) : Prop :=
  exists ResubmitMessage, t_resubmit t = Some ResubmitMessage /\
    ResubmitMessage ph (rg_Supplier g) (e_MsgBytes e) (cachedTx e) close (wrap64 (e_TimeoutSeconds e * second)) (e_TimeoutRegime e) = (newHash, sent, err).

Inductive turned (t : Turn) (ph : RebroadcastPhase) (g : RebroadcastGroup) (h close : Z) (loop : Loop) (sid raw : string) (w : World) : World -> Prop :=
| turned_quiet w' : quiet w w' -> turned t ph g h close loop sid raw w w'
| turned_clear why w1 : quiet w w1 -> cause t ph g h close loop sid raw w why ->
    turned t ph g h close loop sid raw w (clear t ph g sid h why w1)
| turned_resend e newHash sent err d r w' :
    unmarshalRebroadcastEntry raw = Some e -> canRebroadcast cfg e h close = true -> loop <> LPollErr ->
    answered_by t ph g close e newHash sent err ->
    rs_put (t_put t) (t_now t) (rw_db w) ph g sid (marshalRebroadcastEntry (afterAttempt e h newHash sent err)) = (d, r) ->
    quiet (observe (OResend ph g sid h close e err (is_ok r)) (with_db d w)) w' ->
    turned t ph g h close loop sid raw w w'
| turned_refused e newHash sent err why w' :
    unmarshalRebroadcastEntry raw = Some e -> canRebroadcast cfg e h close = true -> loop <> LPollErr ->
    answered_by t ph g close e newHash sent err ->
    ((why = ClNotRequired /\ errors_Is err ErrTxProofNotRequired = true) \/ (why = ClAlreadyJudged /\ errors_Is err ErrProofAlreadyJudged = true)) ->
    quiet (clear t ph g sid h why (observe (OResend ph g sid h close e err false) w)) w' ->
    turned t ph g h close loop sid raw w w'.

Lemma phase_of_phase ph : rp_phase (phase ph) = ph.
Proof. by destruct ph. Qed.

Lemma resend_turned t ph g h close loop sid raw e w : unmarshalRebroadcastEntry raw = Some e -> loop <> LPollErr ->
  turned t ph g h close loop sid raw w (resendIfOpen cfg (phase ph) t g sid e h close w).
Proof.
  intros He Hl. unfold resendIfOpen. destruct (canRebroadcast cfg e h close) eqn:Hcan; [|by apply turned_quiet, quiet_refl].
  unfold rebroadcast. destruct (t_resubmit t) as [RM|] eqn:Hrm; [|by apply turned_quiet, quiet_refl].
  destruct (t_expiredResend t); [by apply turned_quiet, quiet_refl|]. rewrite phase_of_phase.
  destruct (RM _ _ _ _ _ _ _) as [[newHash sent] err] eqn:Ha. assert (answered_by t ph g close e newHash sent err) as Hans by by exists RM.
  destruct (errors_Is err ErrTxProofNotRequired) eqn:H1.
  { eapply turned_refused; eauto. by apply quiet_observe. }
  destruct (errors_Is err ErrProofAlreadyJudged) eqn:H2.
  { eapply turned_refused; eauto. by apply quiet_observe. }
  destruct (rs_put _ _ _ _ _ _ _) as [d r] eqn:Hput. eapply turned_resend; eauto. by apply quiet_observe.
Qed.

Lemma turn_turned t ph g h close loop sid raw w w' stop : turn t ph g h close loop sid raw w = (w', stop) ->
  turned t ph g h close loop sid raw w w'.
Proof.
  unfold InclusionReconciler.turn. destruct loop as [onChain| |].
  - unfold mainTurn. destruct (t_expired t); [intros [= <- <-]; by apply turned_quiet, quiet_observe|].
    rewrite phase_of_phase. destruct (unmarshalRebroadcastEntry raw) as [e|] eqn:He; cycle 1.
    { intros [= <- <-]. apply turned_clear; [apply quiet_refl|by constructor]. }
    set (v := rp_verdict _ _ _). destruct v eqn:Hv; unfold v in Hv.
    + destruct (Z.ltb_spec close h); intros [= <- <-]; [|by apply resend_turned].
      apply turned_clear; [|by eapply cause_missing]. eapply quiet_trans; [|apply outcome_quiet].
      destruct (MaxRebroadcasts cfg); [|apply quiet_refl]. apply quiet_if. by apply quiet_observe.
    + pose proof (outcome_quiet ph t e (rg_Supplier g) (rg_SessionEnd g) sid inclusionFound h w) as Hq.
      destruct (rp_recordOutcome _ _ _ _ _ _ _ _ w) as [w1 [[]|err]] eqn:Ho; intros [= <- <-]; [|by apply turned_quiet].
      apply turned_clear; [done|]. by eapply cause_found.
    + intros [= <- <-]. apply turned_clear; [|by eapply cause_rejected].
      eapply quiet_trans; [apply (outcome_quiet ph t e (rg_Supplier g) (rg_SessionEnd g) sid inclusionRejected h w)|].
      destruct ph; [apply quiet_refl|apply diagnose_quiet].
  - unfold degradedTurn. rewrite phase_of_phase. destruct (unmarshalRebroadcastEntry raw) as [e|] eqn:He; intros [= <- <-].
    + by apply resend_turned.
    + apply turned_clear; [apply quiet_refl|by constructor].
  - unfold pollErrorTurn. rewrite phase_of_phase. destruct (unmarshalRebroadcastEntry raw) as [e|] eqn:He; intros [= <- <-].
    + apply turned_clear; [apply outcome_quiet|by constructor].
    + apply turned_clear; [apply quiet_refl|by constructor].
Qed.
End Turns.
