(* ===== verification/InclusionBounds.v ===== *)
(** * Resends of the inclusion reconciler are bounded

    The invariant of a run ([Inv]): a pass works each group and each session
    once, every resend lies inside its window, and no session is sent twice at
    one height; and the books of one session's attempts ([Credit]): what was
    spent is covered by the counts its entries carry. *)

From S2P Require Import Prelude SessionState StoreSpec SessionLifecycle SessionCoordinator RebroadcastStore PebbleModel TxClient InclusionReconciler InclusionSafety.
From Stdlib Require Import Ascii String.

Local Open Scope string_scope.
Local Open Scope Z_scope.
Local Open Scope list_scope.

(** ** Tasks *)

Lemma find_task_some g ks k : find_task g ks = Some k -> k ∈ ks /\ task_group k = g.
Proof.
  intros H. apply List.find_some in H as [Hin Hg]. split; [by apply list_elem_of_In|]. unfold is_group in Hg. by apply bool_decide_eq_true in Hg.
Qed.

Lemma elem_drop_task g ks k : k ∈ drop_task g ks <-> k ∈ ks /\ task_group k <> g.
Proof.
  unfold drop_task, is_group. rewrite !list_elem_of_In, List.filter_In, negb_true_iff, bool_decide_eq_false. done.
Qed.

Lemma drop_task_groups g ks : NoDup (map task_group ks) -> NoDup (map task_group (drop_task g ks)) /\ g ∉ map task_group (drop_task g ks).
Proof.
  intros Hnd. split.
  - induction ks as [|k ks IH]; [done|]. simpl in Hnd. apply NoDup_cons in Hnd as [Hni Hnd]. simpl. unfold is_group at 1. case_bool_decide; simpl; [by apply IH|].
    apply NoDup_cons. split; [|by apply IH]. intros (k' & He & Hin)%list_elem_of_fmap. apply Hni, list_elem_of_fmap. exists k'.
    split; [done|]. by apply elem_drop_task in Hin as [? _].
  - intros (k & -> & Hin)%list_elem_of_fmap. by apply elem_drop_task in Hin as [_ ?].
Qed.

Section Bounds.
Context {D : Type} `{RO : !RebroadcastOps D} `{RL : !RebroadcastLaws D} {St : Type} `{SS : !SessionStore St}.
Context {Params : Type} `{SW : !SharedWindows Params} `{EJ : !EntryJson} `{EJL : !EntryJsonLaws}.
Variables (claim_root : string -> option string) (onSessionCreated onSessionTerminal tracked : bool) (cfg : InclusionReconcilerConfig).
Variable GetParamsAtHeight : Z -> Params.
Abbreviation World := (World (D := D) (St := St)).
Abbreviation Recon := (Recon (D := D) (St := St)).
Abbreviation Event := (Event (St := St)).
Abbreviation step := (step (D := D) (St := St) claim_root onSessionCreated onSessionTerminal tracked cfg GetParamsAtHeight).
Abbreviation run := (run (D := D) (St := St) claim_root onSessionCreated onSessionTerminal tracked cfg GetParamsAtHeight).
Abbreviation closes := (windowClose_of (D := D) (St := St) claim_root onSessionCreated onSessionTerminal tracked GetParamsAtHeight).
Abbreviation retries := (retryUntil_of (D := D) (St := St) claim_root onSessionCreated onSessionTerminal tracked GetParamsAtHeight).
Abbreviation turned := (turned (D := D) (St := St) claim_root onSessionCreated onSessionTerminal tracked cfg).
Implicit Types (r : Recon) (w : World) (ev : Event) (x : Target).

(** ** What events may carry *)

Definition turn_ok (t : Turn) : Prop :=
  rs_time (t_now t) /\
  forall ph g close e newHash sent err, entry_ints e -> answered_by t ph g close e newHash sent err -> in_int64 (p_TimeoutHeight sent).

Definition submission_ok (p : Submission) : Prop :=
  in_int64 (s_submitHeight p) /\ in_int64 (s_budget p) /\ in_int64 (p_TimeoutHeight (s_signed p)).

Definition event_ok ev : Prop :=
  match ev with
  | EBlock height => in_int64 height
  | ETurn _ _ t => turn_ok t
  | EPersist now _ _ snapshot p => rs_time now /\ group_ok (group_of snapshot) /\ submission_ok p
  | _ => True
  end.

(** ** The invariant *)

Definition loop_ok (ph : RebroadcastPhase) (h : Z) (k : Task) : Prop :=
  match k with
  | TQueued _ => True
  | TLoop g loop close _ =>
      close = closes ph g /\
      match loop with
      | LMain _ => True
      | LDegraded => h <= close
      | LPollErr => close < h /\ (forall until, retries ph g = Some until -> until < h)
      end
  end.

(** The session's turn in this pass is still to come. *)
Definition to_visit (p : Pass) x : Prop :=
  let '(ph, g, sid) := x in
  (ps_phase p = RebroadcastPhaseClaim /\ ph = RebroadcastPhaseProof) \/
  (ph = ps_phase p /\
   match ps_stage p with
   | SList => True
   | SRun ks => exists k, k ∈ ks /\ task_group k = g /\ match k with TQueued _ => True | TLoop _ _ _ rest => is_Some (rest !! sid) end
   end).

Definition heights x w : list Z := map rs_height (resends x (rw_log w)).

Record pass_ok (p : Pass) w : Prop := {
  po_fresh x : to_visit p x -> ps_height p ∉ heights x w;
  po_int : in_int64 (ps_height p);
  po_tasks : match ps_stage p with
             | SList => True
             | SRun ks => NoDup (map task_group ks) /\ forall k, k ∈ ks -> group_ok (task_group k) /\ loop_ok (ps_phase p) (ps_height p) k
             end
}.

(** A resend inside its window. *)
Definition in_window x (s : Resend) : Prop :=
  let '(ph, g, _) := x in
  rs_close s = closes ph g /\ e_SubmitHeight (rs_entry s) < rs_height s < closes ph g - RebroadcastSafetyBlocks cfg.

Record Inv r : Prop := {
  i_ok : rs_ok (rw_db (r_world r));
  i_pass : match r_pass r with Some p => ps_height p = r_last r /\ pass_ok p (r_world r) | None => True end;
  i_past x s : s ∈ resends x (rw_log (r_world r)) -> rs_height s <= r_last r /\ in_window x s;
  i_once x : NoDup (heights x (r_world r))
}.

Lemma canRebroadcast_gate e h close : canRebroadcast cfg e h close = true ->
  e_SubmitHeight e < h < close - RebroadcastSafetyBlocks cfg /\ match MaxRebroadcasts cfg with Some n => e_Rebroadcasts e < n | None => True end.
Proof.
  unfold canRebroadcast. destruct (MaxRebroadcasts cfg) as [n|]; [destruct (Z.leb_spec n (e_Rebroadcasts e)); [done|]|]; rewrite andb_true_iff, !Z.ltb_lt; split; (done || lia).
Qed.

(** A turn adds at most one resend, of its own session, inside its window. *)
Lemma turned_resends t ph g h close loop sid raw w w' x : turned t ph g h close loop sid raw w w' ->
  resends x (rw_log w') = resends x (rw_log w) \/
  (x = (ph, g, sid) /\ exists s, resends x (rw_log w') = s :: resends x (rw_log w) /\ rs_height s = h /\ rs_close s = close /\
     e_SubmitHeight (rs_entry s) < h < close - RebroadcastSafetyBlocks cfg).
Proof.
  assert (forall w0 why, resends x (rw_log (clear t ph g sid h why w0)) = resends x (rw_log w0)) as Hclear.
  { intros w0 why. unfold clear. by destruct (rs_delete _ _ _ _ _ _). }
  assert (forall e err p w0 w1 w2, quiet w1 w2 -> canRebroadcast cfg e h close = true ->
    resends x (rw_log w1) = resends x (OResend ph g sid h close e err p :: rw_log w0) ->
    resends x (rw_log w2) = resends x (rw_log w0) \/ (x = (ph, g, sid) /\ exists s, resends x (rw_log w2) = s :: resends x (rw_log w0) /\ rs_height s = h /\ rs_close s = close /\
     e_SubmitHeight (rs_entry s) < h < close - RebroadcastSafetyBlocks cfg)) as Hone.
  { intros e err p w0 w1 w2 Hq Hcan Hl. rewrite (quiet_resends x w1 w2 Hq), Hl. unfold resends. simpl. case_decide as Hx; [|by left].
    right. split; [done|]. eexists. split; [done|]. split; [done|]. split; [done|]. simpl. by apply canRebroadcast_gate. }
  intros [w1 Hq|why w1 Hq _|e nh sent err d res w1 He Hcan _ _ _ Hq|e nh sent err why w1 He Hcan _ _ _ Hq].
  - left. by apply quiet_resends.
  - left. rewrite Hclear. by apply quiet_resends.
  - eapply (Hone e err (is_ok res) w); [exact Hq|done|done].
  - eapply (Hone e err false w); [exact Hq|done|]. by rewrite Hclear.
Qed.

Lemma turned_ok t ph g h close loop sid raw w w' : turned t ph g h close loop sid raw w w' ->
  rs_ok (rw_db w) -> group_ok g -> rs_time (t_now t) -> rs_ok (rw_db w').
Proof.
  assert (forall w0 why, group_ok g -> rs_ok (rw_db w0) -> rs_ok (rw_db (clear t ph g sid h why w0))) as Hclear.
  { intros w0 why Hg Hok. unfold clear. destruct (rs_delete _ _ _ _ _ _) as [d res] eqn:Hd. by apply delete_law in Hd as [? _]. }
  intros Ht Hok Hg Htime. destruct Ht as [w1 [-> _]|why w1 [Hd _] _|e nh sent err d res w1 He Hcan _ _ Hput [-> _]|e nh sent err why w1 He Hcan _ _ _ [-> _]].
  - done.
  - apply Hclear; [done|]. by rewrite Hd.
  - by apply put_law in Hput as [? _].
  - by apply Hclear.
Qed.

(** The invariant carries over a change that adds no resend. *)
Lemma inv_quiet r r' : Inv r -> rs_ok (rw_db (r_world r')) -> r_last r' = r_last r ->
  (forall x, resends x (rw_log (r_world r')) = resends x (rw_log (r_world r))) ->
  match r_pass r' with Some p => ps_height p = r_last r' /\ pass_ok p (r_world r') | None => True end -> Inv r'.
Proof.
  intros [H1 H2 H3 H4] Hok Hlast Hlog Hpass. split; [done|done| |].
  - intros x s. rewrite Hlog, Hlast. apply H3.
  - intros x. unfold heights. rewrite Hlog. apply H4.
Qed.

(** A pass in which less is to visit, over a log with the same resends. *)
Lemma pass_less p p' w w' : pass_ok p w -> ps_height p' = ps_height p -> (forall x, resends x (rw_log w') = resends x (rw_log w)) ->
  (forall x, to_visit p' x -> to_visit p x) ->
  match ps_stage p' with
  | SList => True
  | SRun ks => NoDup (map task_group ks) /\ forall k, k ∈ ks -> group_ok (task_group k) /\ loop_ok (ps_phase p') (ps_height p') k
  end -> pass_ok p' w'.
Proof.
  intros [H1 H2 H3] Hh Hlog Hv Ht. split; [|by rewrite Hh|done]. intros x Hx. unfold heights. rewrite Hlog, Hh. by apply H1, Hv.
Qed.

Lemma begin_spec b now ph g h o w w' o' k : beginGroup (D := D) (St := St) claim_root onSessionCreated onSessionTerminal tracked GetParamsAtHeight b now ph g h o w = (w', o', k) ->
  rs_ok (rw_db w) -> group_ok g ->
  rs_ok (rw_db w') /\ (forall x, resends x (rw_log w') = resends x (rw_log w) /\ persists x (rw_log w') = persists x (rw_log w)) /\
  unchanged now (rw_db w) (rw_db w') /\
  match k with
  | Some (TLoop g' loop close rest) => g' = g /\ rest = rs_pending now (rw_db w) ph g /\ loop_ok ph h (TLoop g' loop close rest)
  | Some (TQueued _) => False
  | None => True
  end.
Proof.
  intros Hb Hok Hg. unfold beginGroup in Hb. destruct (rs_list _ _ _ _ _) as [pending|] eqn:Hl; [|by injection Hb as <- <- <-].
  apply list_law in Hl as ->. case_bool_decide.
  { injection Hb as <- <- <-. destruct (rs_cleanup _ _ _ _ _) as [d res] eqn:Hc. apply cleanup_law in Hc as [Hd Hs]; [|done|done]. done. }
  destruct (b_params b); cbn [negb] in Hb; [|by injection Hb as <- <- <-].
  destruct (states _ _ _ _) as [o1 [onChain|]]; [by injection Hb as <- <- <-|].
  destruct (Z.ltb_spec (closes ph g) h); cbn [negb] in Hb; [|by injection Hb as <- <- <-].
  assert (forall u, retries ph g = Some u -> u < h -> loop_ok ph h (TLoop g LPollErr (closes ph g) (rs_pending now (rw_db w) ph g))) as H1.
  { intros u Hu Hlt. split; [done|]. split; [done|]. intros u' Hu'. congruence. }
  destruct (retries ph g) as [until|] eqn:Hu; [destruct (Z.leb_spec h until); [by injection Hb as <- <- <-|]|]; injection Hb as <- <- <-.
  - split_and!; eauto; done.
  - do 5 (split; [done|]). split; [done|]. split; [done|]. intros u' Hu'. congruence.
Qed.

Lemma block_inv height r r' : in_int64 height -> Inv r -> step (EBlock height) r = Some r' -> Inv r'.
Proof.
  intros Hh Hi. simpl. destruct (r_closed r); [by intros [= <-]|]. destruct (Z.leb_spec height (r_last r)); [by intros [= <-]|].
  destruct (r_pass r); [by intros [= <-]|]. intros [= <-]. destruct Hi as [H1 H2 H3 H4]. split; [done| | |done].
  - split; [done|]. split; [|done|done]. intros x _ (s & Hsh & Hs)%list_elem_of_fmap. apply H3 in Hs as [Hs _]. simpl in *. lia.
  - intros x s Hs. apply H3 in Hs as [Hs Hw]. simpl. split; [lia|done].
Qed.

Lemma queued_groups (gs : list RebroadcastGroup) : map task_group (map TQueued gs) = gs.
Proof. induction gs; simpl; congruence. Qed.

Lemma active_inv now io r r' : Inv r -> step (EActive now io) r = Some r' -> Inv r'.
Proof.
  intros Hi. simpl. destruct (r_pass r) as [[h ph o []]|] eqn:Hp; try done. destruct (later r now); [|done]. cbn [negb].
  pose proof Hi as [Hok Hpass _ _]. rewrite Hp in Hpass. destruct Hpass as [Hh Hpo].
  destruct (rs_active _ _ _ _) as [d res] eqn:Ha. apply active_law in Ha as [[Hd _] Hgs]; [|done].
  assert (forall x ks, to_visit (mkPass h ph o (SRun ks)) x -> to_visit (mkPass h ph o SList) x) as Hv.
  { intros [[ph' g'] sid'] ks [H|[H _]]; [by left|by right]. }
  destruct res as [gs|]; intros [= <-]; apply (inv_quiet r); try done; (split; [done|]); apply (pass_less _ _ _ _ Hpo); try done; try (intros x; apply Hv).
  - destruct Hgs as (Hnd & Hgok & _). simpl. rewrite queued_groups. split.
    + by apply NoDup_ListNoDup, List.NoDup_filter, NoDup_ListNoDup.
    + intros k (g & -> & Hin)%list_elem_of_fmap. split; [|done]. apply list_elem_of_In, List.filter_In in Hin as [Hin _]. by apply Hgok, list_elem_of_In.
  - simpl. split; [constructor|]. intros k Hk. by apply not_elem_of_nil in Hk.
Qed.

(** Dropping a task, or replacing it by its loop with fewer sessions. *)
Lemma dropped_visit h ph o o' g ks ks' x : (forall k, k ∈ ks' -> k ∈ drop_task g ks \/
    exists rest rest' loop loop' close close', k = TLoop g loop' close' rest' /\ (TQueued g ∈ ks \/ (TLoop g loop close rest ∈ ks /\ forall sid, is_Some (rest' !! sid) -> is_Some (rest !! sid)))) ->
  to_visit (mkPass h ph o' (SRun ks')) x -> to_visit (mkPass h ph o (SRun ks)) x.
Proof.
  destruct x as [[ph0 g0] sid0]. intros Hks [H|[H (k & Hk & Hg & Hs)]]; [by left|]. right. split; [done|]. simpl in *.
  destruct (Hks k Hk) as [[Hin _]%elem_drop_task|(rest & rest' & loop & loop' & close & close' & -> & [Hq|[Hl Hsub]])].
  - by exists k.
  - by exists (TQueued g).
  - exists (TLoop g loop close rest). split_and!; [done|done|]. by apply Hsub.
Qed.

Lemma tasks_replace ph h ks g k : NoDup (map task_group ks) -> (forall k, k ∈ ks -> group_ok (task_group k) /\ loop_ok ph h k) ->
  task_group k = g -> group_ok g -> loop_ok ph h k ->
  NoDup (map task_group (k :: drop_task g ks)) /\ (forall k', k' ∈ k :: drop_task g ks -> group_ok (task_group k') /\ loop_ok ph h k') /\
  NoDup (map task_group (drop_task g ks)) /\ (forall k', k' ∈ drop_task g ks -> group_ok (task_group k') /\ loop_ok ph h k').
Proof.
  intros Hnd Hall <- Hg Hl. destruct (drop_task_groups (task_group k) ks Hnd) as [H1 H2].
  assert (forall k', k' ∈ drop_task (task_group k) ks -> group_ok (task_group k') /\ loop_ok ph h k') as H3 by (intros k' [Hin _]%elem_drop_task; by apply Hall).
  split_and!; [by apply NoDup_cons| |done|done]. intros k' [->|Hin]%elem_of_cons; [done|by apply H3].
Qed.

Lemma begin_inv now g b r r' : Inv r -> step (EBegin now g b) r = Some r' -> Inv r'.
Proof.
  intros Hi. simpl. destruct (r_pass r) as [[h ph o [|ks]]|] eqn:Hp; try done. destruct (find_task g ks) as [[g1|]|] eqn:Hf; try done.
  apply find_task_some in Hf as [Hin Hg1]. simpl in Hg1. subst g1. destruct (later r now); [|done]. cbn [negb].
  pose proof Hi as [Hok Hpass _ _]. rewrite Hp in Hpass. destruct Hpass as [Hh Hpo]. pose proof (po_tasks _ _ Hpo) as [Hnd Hall]. simpl in Hnd, Hall.
  pose proof (Hall _ Hin) as [Hgok _]. simpl in Hgok.
  destruct (beginGroup _ _ _ _ _ _ _ _ _ _ _ _) as [[w o'] k] eqn:Hb. apply begin_spec in Hb as (Hd & Hlog & _ & Hk); [|done|done].
  intros [= <-]. apply (inv_quiet r); try done; [intros x; apply Hlog|]. split; [done|].
  apply (pass_less _ _ _ _ Hpo); [done|intros x; apply Hlog| |].
  - intros x. apply dropped_visit with (g := g). intros k' Hk'. destruct k as [[g'|g' loop close rest]|]; [done| |by left].
    destruct Hk as (-> & _). apply elem_of_cons in Hk' as [->|Hk']; [|by left]. right. exists ∅, rest, loop, loop, close, close. split; [done|by left].
  - simpl. destruct k as [[g'|g' loop close rest]|]; [done|destruct Hk as (-> & _ & Hl)|].
    + destruct (tasks_replace ph h ks g (TLoop g loop close rest)) as (? & ? & ? & ?); done.
    + destruct (tasks_replace ph h ks g (TQueued g)) as (? & ? & ? & ?); done.
Qed.

Lemma turn_inv g sid t r r' : turn_ok t -> Inv r -> step (ETurn g sid t) r = Some r' -> Inv r'.
Proof.
  intros Ht Hi. simpl. destruct (r_pass r) as [[h ph o [|ks]]|] eqn:Hp; try done. destruct (find_task g ks) as [[|g1 loop close rest]|] eqn:Hf; try done.
  apply find_task_some in Hf as [Hin Hg1]. simpl in Hg1. subst g1. destruct (rest !! sid) as [raw|] eqn:Hraw; [|done]. destruct (later r (t_now t)); [|done]. cbn [negb].
  pose proof Hi as [Hok Hpass Hpast Honce]. rewrite Hp in Hpass. destruct Hpass as [Hh Hpo]. pose proof (po_tasks _ _ Hpo) as [Hnd Hall]. simpl in Hnd, Hall.
  pose proof (Hall _ Hin) as [Hgok Hloop]. simpl in Hgok.
  destruct (turn _ _ _ _ _ _ _ _ _ _ _ _ _ _) as [w stop] eqn:Hturn. apply turn_turned in Hturn. intros [= <-].
  assert (to_visit (mkPass h ph o (SRun ks)) (ph, g, sid)) as Hvis by (right; split; [done|]; exists (TLoop g loop close rest); by rewrite Hraw).
  pose proof (po_fresh _ _ Hpo _ Hvis) as Hfresh. simpl in Hfresh.
  assert (forall x, NoDup (heights x w) /\ forall s, s ∈ resends x (rw_log w) -> rs_height s <= r_last r /\ in_window x s) as Hlog.
  { intros x. destruct (turned_resends _ _ _ _ _ _ _ _ _ _ x Hturn) as [He|[-> (s & He & Hsh & Hsc & Hgate)]]; unfold heights; rewrite He.
    - split; [apply Honce|apply Hpast].
    - split; [simpl; apply NoDup_cons; rewrite Hsh; split; [done|apply Honce]|]. intros s' [->|Hs']%elem_of_cons; [|by apply Hpast].
      destruct Hloop as [-> _]. simpl in Hh. split; [lia|]. split; [done|]. by rewrite Hsh. }
  split; [|split; [done|]|by intros x s; apply Hlog|by intros x; apply Hlog].
  - by apply (turned_ok _ _ _ _ _ _ _ _ _ _ Hturn); try apply Ht.
  - set (k' := TLoop g loop close (delete sid rest)).
    destruct (tasks_replace ph h ks g k') as (T1 & T2 & T3 & T4); [done..|].
    assert (forall x, to_visit (mkPass h ph o (SRun (if stop then drop_task g ks else k' :: drop_task g ks))) x -> to_visit (mkPass h ph o (SRun ks)) x /\ x <> (ph, g, sid)) as Hv.
    { intros x Hx. split.
      - revert Hx. apply dropped_visit with (g := g). intros k Hk. destruct stop; [by left|]. apply elem_of_cons in Hk as [->|Hk]; [|by left].
        right. exists rest, (delete sid rest), loop, loop, close, close. split; [done|]. right. split; [done|]. intros s [y Hy]. apply lookup_delete_Some in Hy as [_ Hy]. eauto.
      - intros ->. destruct Hx as [[Hx1 Hx2]|[_ (k & Hk & Hkg & Hs)]]; [simpl in *; congruence|]. simpl in Hk.
        assert (k ∈ k' :: drop_task g ks) as Hk2 by (destruct stop; [by right|done]).
        apply elem_of_cons in Hk2 as [->|Hk2]; [simpl in Hs; rewrite lookup_delete_eq in Hs; by destruct Hs|]. by apply elem_drop_task in Hk2 as [_ ?]. }
    split; [|apply (po_int _ _ Hpo)|simpl; by destruct stop].
    intros x Hx. destruct (Hv x Hx) as [Hx1 Hx2]. pose proof (po_fresh _ _ Hpo x Hx1) as Hf.
    unfold heights in *. destruct (turned_resends _ _ _ _ _ _ _ _ _ _ x Hturn) as [He|[? _]]; [|done]. simpl. by rewrite He.
Qed.

Lemma drop_inv g r r' : Inv r -> step (EDrop g) r = Some r' -> Inv r'.
Proof.
  intros Hi. simpl. destruct (r_pass r) as [[h ph o [|ks]]|] eqn:Hp; try done. destruct (find_task g ks) as [k|] eqn:Hf; [|done]. intros [= <-].
  apply find_task_some in Hf as [Hin Hg]. pose proof Hi as [Hok Hpass _ _]. rewrite Hp in Hpass. destruct Hpass as [Hh Hpo].
  pose proof (po_tasks _ _ Hpo) as [Hnd Hall]. simpl in Hnd, Hall. destruct (Hall k Hin).
  destruct (tasks_replace ph h ks g k) as (_ & _ & T3 & T4); [done|done|done|by rewrite <- Hg|done|].
  apply (inv_quiet r); try done. split; [done|]. apply (pass_less _ _ _ _ Hpo); try done. intros x. apply dropped_visit with (g := g). by left.
Qed.

Lemma pass_end_inv r r' : Inv r -> step EPassEnd r = Some r' -> Inv r'.
Proof.
  intros Hi. simpl. destruct (r_pass r) as [[h ph o [|ks]]|] eqn:Hp; try done. destruct (forallb _ ks); [|done].
  pose proof Hi as [Hok Hpass _ _]. rewrite Hp in Hpass. destruct Hpass as [Hh Hpo].
  destruct ph; intros [= <-]; apply (inv_quiet r); try done. split; [done|]. apply (pass_less _ _ _ _ Hpo); try done.
  intros [[ph g] sid] [[Hc _]|[-> _]]; [done|by left].
Qed.

Lemma persist_inv now io ph snapshot p r r' : rs_time now -> group_ok (group_of snapshot) -> Inv r ->
  step (EPersist now io ph snapshot p) r = Some r' -> Inv r'.
Proof.
  intros Ht Hg Hi. simpl. destruct (later r now); [|done]. cbn [negb]. intros [= <-].
  unfold persistRebroadcastEntry. destruct (rs_put _ _ _ _ _ _ _) as [d res] eqn:Hput. apply put_law in Hput as [Hd _]; [|apply Hi|done|done].
  apply (inv_quiet r); try done. simpl. pose proof (i_pass _ Hi) as Hp. destruct (r_pass r) as [ps|]; [|done]. destruct Hp as [Hh Hpo]. split; [done|].
  by apply (pass_less ps ps _ _ Hpo); try apply Hpo.
Qed.

Lemma recon_step_inv ev r r' : event_ok ev -> Inv r -> step ev r = Some r' -> Inv r'.
Proof.
  intros Hev Hi Hs. destruct ev as [height|now io|now g b|g sid t|g| |now io ph snapshot p|sup|].
  - by eapply block_inv.
  - by eapply active_inv.
  - by eapply begin_inv.
  - by eapply turn_inv.
  - by eapply drop_inv.
  - by eapply pass_end_inv.
  - destruct Hev as (? & ? & _). by eapply persist_inv.
  - injection Hs as <-. destruct Hi as [H1 H2 H3 H4]. split; try done. simpl. destruct (r_pass r) as [ps|]; [|done]. destruct H2 as [? Hpo].
    split; [done|]. by apply (pass_less ps ps _ _ Hpo); try apply Hpo.
  - injection Hs as <-. by destruct Hi.
Qed.

Lemma run_inv evs r r' : Forall event_ok evs -> Inv r -> run evs r = Some r' -> Inv r'.
Proof.
  intros Hevs. revert r. induction Hevs as [|ev evs Hev Hevs IH]; intros r Hi; simpl; [by intros [= <-]|].
  destruct (step ev r) as [r1|] eqn:Hs; [|done]. apply IH. by eapply recon_step_inv.
Qed.

Lemma start_inv now d sup : rs_ok d -> Inv (start now d sup).
Proof. intros Hd. split; [done|done|..]; simpl; unfold heights, resends; simpl; [intros x s Hs; by apply not_elem_of_nil in Hs|intros x; constructor]. Qed.

Lemma submission_ints serviceID p : submission_ok p -> entry_ints (newEntry serviceID p).
Proof.
  intros (H1 & H2 & H3). pose proof (wrap64_range (p_TimeoutAt (s_signed p) - unix_epoch)) as Hn.
  assert (in_int64 (Z.quot (s_budget p) second)) as Hb.
  { unfold in_int64, second, int64_min, int64_max in *. pose proof (Z.quot_rem' (s_budget p) (10 ^ 9)). pose proof (Z.rem_bound_abs (s_budget p) (10 ^ 9)). nia. }
  unfold newEntry, signedTimeoutNanos. destruct (RejectionPreservesBytes _); [destruct (p_TimeoutAt (s_signed p) =? 0)|]; simpl;
    repeat (apply Forall_cons; split; [first [assumption | by split]|]); by apply Forall_nil.
Qed.

(** ** The cap *)

Section Cap.
Variables (ph0 : RebroadcastPhase) (g0 : RebroadcastGroup) (sid0 : string) (cap : Z).
Hypotheses (Hg0 : group_ok g0) (Hcap : MaxRebroadcasts cfg = Some cap) (Hcap0 : 0 <= cap) (Hcap1 : cap <= int64_max).
Abbreviation x0 := (ph0, g0, sid0).

(** The attempts an entry's count must cover: those spent and written back,
    less a full cap for every submission. *)
Definition need (log : list Obs) : Z := spent x0 log - lost x0 log - cap * submissions x0 log.

Definition covered (n : Z) (raw : string) : Prop := forall e, unmarshalRebroadcastEntry raw = Some e -> n <= e_Rebroadcasts e.

Record Credit r : Prop := {
  c_total : need (rw_log (r_world r)) <= cap;
  c_stored now raw : r_now r <= now -> rs_pending now (rw_db (r_world r)) ph0 g0 !! sid0 = Some raw -> covered (need (rw_log (r_world r))) raw;
  c_held p ks loop close rest raw : r_pass r = Some p -> ps_stage p = SRun ks -> ps_phase p = ph0 -> TLoop g0 loop close rest ∈ ks ->
    rest !! sid0 = Some raw -> covered (need (rw_log (r_world r))) raw
}.

Lemma need_quiet w w' : quiet w w' -> need (rw_log w') = need (rw_log w).
Proof. intros Hq. destruct (quiet_counts x0 w w' Hq) as (H1 & H2 & H3). unfold need. lia. Qed.

Lemma covered_le n n' raw : n' <= n -> covered n raw -> covered n' raw.
Proof. intros Hn Hc e He. specialize (Hc e He). lia. Qed.

(** What is readable later was readable before. *)
Lemma stored_later now now' (d : D) raw : now <= now' -> rs_pending now' d ph0 g0 !! sid0 = Some raw -> rs_pending now d ph0 g0 !! sid0 = Some raw.
Proof. intros Hle H. destruct (pending_later now now' d ph0 g0 Hle) as [He|He]; rewrite He in H; [done|by rewrite lookup_empty in H]. Qed.

(** The state of the store decides [c_stored] at its own instant. *)
Lemma credit_intro r' : need (rw_log (r_world r')) <= cap ->
  (forall raw, rs_pending (r_now r') (rw_db (r_world r')) ph0 g0 !! sid0 = Some raw -> covered (need (rw_log (r_world r'))) raw) ->
  (forall p ks loop close rest raw, r_pass r' = Some p -> ps_stage p = SRun ks -> ps_phase p = ph0 -> TLoop g0 loop close rest ∈ ks ->
     rest !! sid0 = Some raw -> covered (need (rw_log (r_world r'))) raw) -> Credit r'.
Proof. intros H1 H2 H3. split; [done| |done]. intros now raw Hle Hp. apply H2. by apply (stored_later _ now). Qed.

(** One call on a group seen from the session [x0]: only a call on that session
    changes what is stored for it. *)
Lemma changes_elsewhere now ph g (f : gmap string string -> gmap string string) d d' res : changes now ph g f d d' res ->
  ((ph, g) = (ph0, g0) -> forall m, f m !! sid0 = m !! sid0) -> rs_pending now d' ph0 g0 !! sid0 = rs_pending now d ph0 g0 !! sid0.
Proof.
  intros (_ & Ho & Hc) Hf. destruct (decide ((ph, g) = (ph0, g0))) as [He|Hne].
  - injection He as -> ->. destruct Hc as [-> | [_ ->]]; [by apply Hf|done].
  - rewrite Ho; [done|done|congruence].
Qed.

Lemma clear_stored t ph g sid h why w raw : rs_ok (rw_db w) -> group_ok g ->
  rs_pending (t_now t) (rw_db (clear t ph g sid h why w)) ph0 g0 !! sid0 = Some raw -> rs_pending (t_now t) (rw_db w) ph0 g0 !! sid0 = Some raw.
Proof.
  intros Hok Hg. unfold clear. destruct (rs_delete _ _ _ _ _ _) as [d res] eqn:Hd. simpl. apply delete_law in Hd; [|done|done].
  destruct (decide ((ph, g, sid) = x0)) as [[= -> -> ->]|Hne].
  - destruct Hd as (_ & _ & [-> | [_ ->]]); [by rewrite lookup_delete_eq|done].
  - rewrite (changes_elsewhere _ _ _ _ _ _ _ Hd); [done|]. intros [= -> ->] m. apply lookup_delete_ne. congruence.
Qed.

Lemma need_clear t ph g sid h why w : need (rw_log (clear t ph g sid h why w)) = need (rw_log w).
Proof. unfold clear. by destruct (rs_delete _ _ _ _ _ _). Qed.

Lemma need_resend ph g sid h close e err p w :
  need (rw_log (observe (OResend ph g sid h close e err p) w)) =
  need (rw_log w) + (if decide (x0 = (ph, g, sid)) then (if negb (nothingWasSpent err) && p then 1 else 0) else 0).
Proof.
  assert (resends x0 (rw_log (observe (OResend ph g sid h close e err p) w)) =
    if decide (x0 = (ph, g, sid)) then mkResend h close e err p :: resends x0 (rw_log w) else resends x0 (rw_log w)) as Hr.
  { unfold resends. simpl. by destruct (decide _). }
  unfold need, spent, lost. rewrite Hr. change (submissions x0 (rw_log (observe _ w))) with (submissions x0 (rw_log w)).
  destruct (decide _); [|lia]. cbn [List.filter]. unfold is_lost, is_spent. cbn [rs_err rs_persisted].
  destruct (nothingWasSpent err), p; cbn [negb andb List.length]; lia.
Qed.

Lemma attempt_ints e h newHash sent err : entry_ints e -> in_int64 h -> in_int64 (p_TimeoutHeight sent) -> entry_ints (afterAttempt e h newHash sent err).
Proof.
  intros He Hh Hs. pose proof (wrap64_range (p_TimeoutAt sent - unix_epoch)) as Hn. pose proof (wrap64_range (e_Rebroadcasts e + 1)) as Hr.
  unfold entry_ints in *. decompose_Forall_hyps. unfold afterAttempt, keepSigned.
  destruct (_ || _); [|destruct (String.eqb (p_Bytes sent) "")]; destruct (nothingWasSpent err); destruct (negb (is_err err) && _); simpl;
    repeat (apply Forall_cons; split; [first [assumption | by split]|]); by apply Forall_nil.
Qed.

Lemma attempt_count e h newHash sent err : entry_ints e -> e_Rebroadcasts e < cap ->
  e_Rebroadcasts (afterAttempt e h newHash sent err) = e_Rebroadcasts e + (if negb (nothingWasSpent err) then 1 else 0).
Proof.
  intros He Hlt. unfold entry_ints in He. decompose_Forall_hyps. unfold afterAttempt, keepSigned.
  assert (wrap64 (e_Rebroadcasts e + 1) = e_Rebroadcasts e + 1) as Hw by (apply wrap64_id; unfold in_int64 in *; lia).
  destruct (_ || _); [|destruct (String.eqb (p_Bytes sent) "")]; destruct (nothingWasSpent err); destruct (negb (is_err err) && _); simpl; lia.
Qed.

(** After a turn: what is stored for [x0] is covered, and what it held of other
    sessions still is. *)
Lemma turned_credit t ph g h close loop sid raw w w' : turned t ph g h close loop sid raw w w' ->
  turn_ok t -> rs_ok (rw_db w) -> group_ok g -> in_int64 h ->
  (forall raw, rs_pending (t_now t) (rw_db w) ph0 g0 !! sid0 = Some raw -> covered (need (rw_log w)) raw) ->
  need (rw_log w) <= cap -> ((ph, g, sid) = x0 -> covered (need (rw_log w)) raw) ->
  need (rw_log w') <= cap /\ (forall raw, rs_pending (t_now t) (rw_db w') ph0 g0 !! sid0 = Some raw -> covered (need (rw_log w')) raw) /\
  (need (rw_log w') <= need (rw_log w) \/ (ph, g, sid) = x0).
Proof.
  intros Ht Hto Hok Hg Hh Hst Htot Hheld.
  destruct Ht as [w1 Hq|why w1 Hq _|e nh sent err d res w1 He Hcan _ Hans Hput Hq|e nh sent err why w1 He Hcan _ Hans _ Hq].
  - rewrite (need_quiet w w1 Hq). destruct Hq as [-> _]. split; [done|]. split; [done|by left].
  - rewrite need_clear, (need_quiet w w1 Hq). split; [done|]. split; [|by left]. intros raw' Hr. apply Hst. destruct Hq as [Hd _]. rewrite <- Hd.
    eapply clear_stored; [by rewrite Hd|done|exact Hr].
  - pose proof (need_quiet _ _ Hq) as Hn. rewrite need_resend in Hn. cbn [with_db rw_log] in Hn. destruct Hq as [Hd _]. cbn [observe with_db rw_db] in Hd. rewrite Hn, Hd. clear Hn Hd.
    apply put_law in Hput; [|done|done|apply Hto]. destruct (decide (x0 = (ph, g, sid))) as [Hx|Hx]; cycle 1.
    { rewrite Z.add_0_r. split; [done|]. split; [|by left]. rewrite (changes_elsewhere _ _ _ _ _ _ _ Hput); [done|]. intros [= -> ->] m. apply lookup_insert_ne. congruence. }
    specialize (Hheld (eq_sym Hx) e He). pose proof (entry_dec_ints _ _ He) as Hints.
    apply canRebroadcast_gate in Hcan as [_ Hcnt]. rewrite Hcap in Hcnt.
    assert (covered (need (rw_log w) + (if negb (nothingWasSpent err) then 1 else 0)) (marshalRebroadcastEntry (afterAttempt e h nh sent err))) as Hnew.
    { intros e' He'. rewrite entry_dec_enc in He' by (apply attempt_ints; [done|done|by eapply (proj2 Hto)]). injection He' as <-. simpl.
      rewrite attempt_count by done. lia. }
    split; [destruct (_ && _); lia|]. split; [|by right]. intros raw' Hr. destruct Hput as (_ & _ & Hp). injection Hx as <- <- <-.
    destruct Hp as [Hp|[Hres Hp]]; rewrite Hp in Hr.
    + rewrite lookup_insert_eq in Hr. injection Hr as <-. eapply covered_le; [|exact Hnew]. destruct (negb _), (is_ok res); simpl; lia.
    + rewrite Hres, andb_false_r, Z.add_0_r. by apply Hst.
  - pose proof (need_quiet _ _ Hq) as Hn. rewrite need_clear, need_resend, andb_false_r in Hn.
    assert (need (rw_log w1) = need (rw_log w)) as -> by (rewrite Hn; case_decide; lia). split; [done|]. split; [|by left].
    intros raw' Hr. destruct Hq as [Hd _]. rewrite Hd in Hr. apply clear_stored in Hr; [|done|done]. by apply Hst.
Qed.

Lemma credit_step ev r r' : event_ok ev -> Inv r -> Credit r -> step ev r = Some r' -> Credit r'.
Proof.
  intros Hev Hi Hcr. pose proof Hcr as [Ht Hs Hh]. pose proof Hi as [Hok Hpass _ _].
  destruct ev as [height|now io|now g b|g sid t|g| |now io ph snapshot p|sup|]; simpl.
  - destruct (r_closed r) eqn:Hc; [by intros [= <-]|]. destruct (height <=? r_last r); [by intros [= <-]|].
    destruct (r_pass r) eqn:Hp; [by intros [= <-]|]. intros [= <-]. split; [done|done|]. intros p ks loop close rest raw [= <-]. done.
  - destruct (r_pass r) as [[h ph o []]|] eqn:Hp; try done. unfold later. destruct (Z.leb_spec (r_now r) now); [|done]. cbn [negb].
    destruct (rs_active _ _ _ _) as [d res] eqn:Ha. apply active_law in Ha as [[_ Hsame] _]; [|done].
    destruct res as [gs|]; intros [= <-]; (apply credit_intro; [done|intros raw Hr; simpl in Hr; rewrite Hsame in Hr by done; by eapply Hs|]).
    + intros p ks loop close rest raw [= <-] [= <-] _ (g & He & _)%list_elem_of_fmap. done.
    + intros p ks loop close rest raw [= <-] [= <-] _ Hk. by apply not_elem_of_nil in Hk.
  - destruct (r_pass r) as [[h ph o [|ks]]|] eqn:Hp; try done. destruct (find_task g ks) as [[g1|]|] eqn:Hf; try done.
    apply find_task_some in Hf as [Hin Hg1]. simpl in Hg1. subst g1. unfold later. destruct (Z.leb_spec (r_now r) now); [|done]. cbn [negb].
    destruct Hpass as [_ Hpo]. pose proof (po_tasks _ _ Hpo) as [_ Hall]. pose proof (Hall _ Hin) as [Hgok _]. simpl in Hgok.
    destruct (beginGroup _ _ _ _ _ _ _ _ _ _ _ _) as [[w o'] k] eqn:Hb. apply begin_spec in Hb as (Hd & Hlog & [_ Hsame] & Hk); [|done|done].
    assert (need (rw_log w) = need (rw_log (r_world r))) as Hn by (unfold need, spent, lost, submissions; destruct (Hlog x0) as [-> ->]; done).
    intros [= <-]. apply credit_intro; simpl; rewrite Hn; [done|intros raw; rewrite Hsame by done; by apply Hs|].
    intros p ks' loop close rest raw [= <-] [= <-] Hph Hk' Hraw. simpl in Hph. subst ph.
    destruct k as [[g'|g' loop' close' rest']|]; [done| |apply elem_drop_task in Hk' as [Hk' _]; by eapply Hh].
    destruct Hk as (-> & -> & _). apply elem_of_cons in Hk' as [Heq|Hk']; [injection Heq as -> -> -> ->; by eapply Hs|].
    apply elem_drop_task in Hk' as [Hk' _]. by eapply Hh.
  - destruct (r_pass r) as [[h ph o [|ks]]|] eqn:Hp; try done. destruct (find_task g ks) as [[|g1 loop close rest]|] eqn:Hf; try done.
    apply find_task_some in Hf as [Hin Hg1]. simpl in Hg1. subst g1. destruct (rest !! sid) as [raw|] eqn:Hraw; [|done].
    unfold later. destruct (Z.leb_spec (r_now r) (t_now t)); [|done]. cbn [negb].
    destruct Hpass as [_ Hpo]. pose proof (po_tasks _ _ Hpo) as [_ Hall]. pose proof (Hall _ Hin) as [Hgok _]. simpl in Hgok.
    destruct (turn _ _ _ _ _ _ _ _ _ _ _ _ _ _) as [w stop] eqn:Hturn. apply turn_turned in Hturn. intros [= <-].
    apply turned_credit in Hturn as (H1 & H2 & H3); [|done|done|done|apply (po_int _ _ Hpo)|intros raw' Hr; by eapply Hs|done|].
    + apply credit_intro; simpl; [done|done|]. intros p ks' loop' close' rest' raw' [= <-] [= <-] Hph Hk' Hraw'. simpl in Hph. subst ph.
      assert (TLoop g0 loop' close' rest' ∈ TLoop g loop close (delete sid rest) :: drop_task g ks) as Hk2 by (destruct stop; [by right|done]).
      assert ((ph0, g, sid) <> (ph0, g0, sid0) /\ exists l c rs, TLoop g0 l c rs ∈ ks /\ rs !! sid0 = Some raw') as [Hne (l & c & rs & Hks & Hrs)].
      { apply elem_of_cons in Hk2 as [Heq|[Hk2 Hne]%elem_drop_task].
        - injection Heq as -> -> -> ->. apply lookup_delete_Some in Hraw' as [Hne Hraw']. split; [congruence|]. eauto.
        - simpl in Hne. split; [congruence|]. eauto. }
      destruct H3 as [H3|H3]; [|done]. eapply covered_le; [exact H3|]. by eapply Hh.
    + intros [= -> -> ->]. by eapply Hh.
  - destruct (r_pass r) as [[h ph o [|ks]]|] eqn:Hp; try done. destruct (find_task g ks); [|done]. intros [= <-]. split; [done|done|].
    intros p ks' loop close rest raw [= <-] [= <-] Hph [Hk _]%elem_drop_task. by eapply Hh.
  - destruct (r_pass r) as [[h ph o [|ks]]|] eqn:Hp; try done. destruct (forallb _ ks); [|done].
    destruct ph; intros [= <-]; (split; [done|done|]); intros p ks' loop close rest raw Hps; simpl in Hps; [injection Hps as <-|]; done.
  - unfold later. destruct (Z.leb_spec (r_now r) now); [|done]. cbn [negb]. intros [= <-]. destruct Hev as (Htime & Hgok & Hsub).
    unfold persistRebroadcastEntry. destruct (rs_put _ _ _ _ _ _ _) as [d res] eqn:Hput. apply put_law in Hput; [|done|done|done].
    set (e := newEntry _ _) in *. set (x := (ph, group_of snapshot, SessionID snapshot)).
    assert (need (OPersist ph (group_of snapshot) (SessionID snapshot) e :: rw_log (r_world r)) = need (rw_log (r_world r)) - (if decide (x0 = x) then cap else 0)) as Hn.
    { assert (persists x0 (OPersist ph (group_of snapshot) (SessionID snapshot) e :: rw_log (r_world r)) =
        if decide (x0 = x) then e :: persists x0 (rw_log (r_world r)) else persists x0 (rw_log (r_world r))) as Hper.
      { unfold persists, x. simpl. by destruct (decide _). }
      unfold need, submissions. rewrite Hper. change (spent x0 (OPersist _ _ _ _ :: ?l)) with (spent x0 l). change (lost x0 (OPersist _ _ _ _ :: ?l)) with (lost x0 l).
      destruct (decide (x0 = x)); cbn [List.length]; lia. }
    assert (need (OPersist ph (group_of snapshot) (SessionID snapshot) e :: rw_log (r_world r)) <= need (rw_log (r_world r))) as Hle by (rewrite Hn; case_decide; lia).
    apply credit_intro; simpl; [lia| |intros; eapply covered_le; [exact Hle|by eapply Hh]].
    intros raw Hr. destruct (decide (x0 = x)) as [Hx|Hx]; cycle 1.
    { rewrite (changes_elsewhere _ _ _ _ _ _ _ Hput) in Hr; [eapply covered_le; [exact Hle|by eapply Hs]|]. intros Heq m. apply lookup_insert_ne. intros Hsid. apply Hx. unfold x. congruence. }
    assert (ph0 = ph /\ g0 = group_of snapshot /\ sid0 = SessionID snapshot) as (Hx1 & Hx2 & Hx3) by (unfold x in Hx; by injection Hx).
    rewrite Hx1, Hx2, Hx3 in Hr. destruct Hput as (_ & _ & [Hp|[_ Hp]]); rewrite Hp in Hr; [|rewrite <- Hx1, <- Hx2, <- Hx3 in Hr; eapply covered_le; [exact Hle|by eapply Hs]].
    rewrite lookup_insert_eq in Hr. injection Hr as <-. intros e' He'. rewrite entry_dec_enc in He' by (by apply submission_ints). injection He' as <-. simpl. lia.
  - intros [= <-]. by split.
  - intros [= <-]. by split.
Qed.
End Cap.
End Bounds.
