(* ===== verification/InclusionClaims.v ===== *)
(** * The reconciler's claims

    Resends lie inside their window, at most one per block, within the cap; an
    entry leaves the store for a cause; a claim found on chain has its session
    restored before its entry goes; a transaction already signed is sent again
    and not signed twice. Then the theorems on runs over an executable store. *)

From S2P Require Import Prelude SessionState StoreSpec SessionLifecycle SessionCoordinator LifecycleSafety CoordinatorBooks RebroadcastStore PebbleModel GoFloat TxClient InclusionReconciler InclusionSafety InclusionBounds.
From Stdlib Require Import Ascii String.

Local Open Scope string_scope.
Local Open Scope Z_scope.
Local Open Scope list_scope.

(** Distinct integers strictly between two bounds. *)
Lemma nodup_between (l : list Z) lo hi : NoDup l -> (forall z, z ∈ l -> lo < z < hi) -> Z.of_nat (List.length l) <= Z.max 0 (hi - lo - 1).
Proof.
  intros Hnd Hl. assert (l ⊆+ seqZ (lo + 1) (Z.max 0 (hi - lo - 1))) as Hsub.
  { apply NoDup_submseteq; [done|]. intros z Hz. apply Hl in Hz. apply elem_of_seqZ. lia. }
  apply submseteq_length in Hsub. rewrite length_seqZ in Hsub. lia.
Qed.

Section Claims.
Context {D : Type} `{RO : !RebroadcastOps D} `{RL : !RebroadcastLaws D} {St : Type} `{SS : !SessionStore St} `{SSL : !SessionStoreLaws St}.
Context {Params : Type} `{SW : !SharedWindows Params} `{EJ : !EntryJson} `{EJL : !EntryJsonLaws}.
Variables (claim_root : string -> option string) (onSessionCreated onSessionTerminal tracked : bool) (cfg : InclusionReconcilerConfig).
Variable GetParamsAtHeight : Z -> Params.
Abbreviation Recon := (Recon (D := D) (St := St)).
Abbreviation Event := (Event (St := St)).
Abbreviation World := (World (D := D) (St := St)).
Abbreviation step := (step (D := D) (St := St) claim_root onSessionCreated onSessionTerminal tracked cfg GetParamsAtHeight).
Abbreviation run := (run (D := D) (St := St) claim_root onSessionCreated onSessionTerminal tracked cfg GetParamsAtHeight).
Abbreviation closes := (windowClose_of (D := D) (St := St) claim_root onSessionCreated onSessionTerminal tracked GetParamsAtHeight).
Abbreviation retries := (retryUntil_of (D := D) (St := St) claim_root onSessionCreated onSessionTerminal tracked GetParamsAtHeight).
Abbreviation turn := (turn (D := D) (St := St) claim_root onSessionCreated onSessionTerminal tracked cfg).
Abbreviation cause := (cause (D := D) (St := St) claim_root onSessionCreated onSessionTerminal tracked).
Implicit Types (r : Recon) (w : World).

(** C24. The reconciler never sends a session's message outside its window and
    never twice at one height. In every run (blocks, listings, groups and
    sessions worked in any order, tasks lost, entries persisted meanwhile, the
    reconciler closed), each resend of a claim or proof goes out after the
    height of its submission and before the window's close less the safety
    blocks; no two resends of a session share a height; so a session whose
    submissions are at [lo] or later is resent at most close - safety - lo - 1
    times, however often the node answers that it holds the transaction. *)
Theorem resends_in_window (now : Z) (d : D) (sup : gmap string (Coord St)) (evs : list Event) (r : Recon) ph g sid :
  rs_ok d -> Forall event_ok evs -> run evs (start now d sup) = Some r ->
  let sent := resends (ph, g, sid) (rw_log (r_world r)) in
  let limit := closes ph g - RebroadcastSafetyBlocks cfg in
  NoDup (map rs_height sent) /\
  (forall s, s ∈ sent -> e_SubmitHeight (rs_entry s) < rs_height s < limit) /\
  (forall lo, (forall s, s ∈ sent -> lo <= e_SubmitHeight (rs_entry s)) -> Z.of_nat (List.length sent) <= Z.max 0 (limit - lo - 1)).
Proof.
  intros Hd Hevs Hrun sent limit. apply (run_inv claim_root onSessionCreated onSessionTerminal tracked cfg GetParamsAtHeight) in Hrun as [_ _ Hp Ho];
    [|done|by apply start_inv].
  assert (forall s, s ∈ sent -> e_SubmitHeight (rs_entry s) < rs_height s < limit) as Hw by (intros s Hs; apply (Hp (ph, g, sid) s Hs)).
  split; [apply (Ho (ph, g, sid))|]. split; [done|]. intros lo Hlo. rewrite <- (length_map rs_height).
  apply nodup_between; [apply (Ho (ph, g, sid))|]. intros z (s & -> & Hs)%list_elem_of_fmap. specialize (Hw s Hs). specialize (Hlo s Hs). lia.
Qed.

(** The cap on resends holds. With a cap [cap], the resends of a session
    that spent an attempt number at most one cap for the entry found at the
    start and one for each submission since, plus those whose count could not
    be written back. A resend the node answers with a full queue or with a copy
    it already holds spends nothing. *)
Theorem resend_cap_holds (cap now : Z) (d : D) (sup : gmap string (Coord St)) (evs : list Event) (r : Recon) ph g sid :
  rs_ok d -> group_ok g -> MaxRebroadcasts cfg = Some cap -> 0 <= cap <= int64_max ->
  (forall now' raw e, now <= now' -> rs_pending now' d ph g !! sid = Some raw -> unmarshalRebroadcastEntry raw = Some e -> 0 <= e_Rebroadcasts e) ->
  Forall event_ok evs -> run evs (start now d sup) = Some r ->
  let log := rw_log (r_world r) in
  spent (ph, g, sid) log <= cap * (1 + submissions (ph, g, sid) log) + lost (ph, g, sid) log.
Proof.
  intros Hd Hg Hcap [Hc0 Hc1] Hinit Hevs Hrun log.
  assert (Inv claim_root onSessionCreated onSessionTerminal tracked cfg GetParamsAtHeight (start now d sup) /\ Credit ph g sid cap (start now d sup)) as [Hi Hcr].
  { split; [by apply start_inv|]. split; [unfold need, spent, lost, submissions; simpl; lia| |done].
    intros now' raw Hle Hp e He. unfold need, spent, lost, submissions. simpl. pose proof (Hinit now' raw e Hle Hp He). lia. }
  unfold log. clear log. revert Hi Hcr Hrun. generalize (start now d sup : Recon) as r0. induction Hevs as [|ev evs Hev Hevs IH]; intros r0 Hi Hcr; simpl.
  - intros [= <-]. destruct Hcr as [Ht _ _]. unfold need in Ht. lia.
  - destruct (step ev r0) as [r1|] eqn:Hs; [|done]. apply IH; [by eapply recon_step_inv|].
    eapply (credit_step claim_root onSessionCreated onSessionTerminal tracked cfg GetParamsAtHeight ph g sid cap); eauto.
Qed.

(** ** What takes an entry out of the store *)

(** The session's turn [t] in the pass of [r]: its group is in its loop and
    holds what was listed for it. *)
Definition its_turn (r : Recon) ph g sid (p : Pass) (loop : Loop) (raw : string) : Prop :=
  exists ks rest, r_pass r = Some p /\ ps_phase p = ph /\ ps_stage p = SRun ks /\ TLoop g loop (closes ph g) rest ∈ ks /\ rest !! sid = Some raw /\
    match loop with
    | LMain _ => True
    | LDegraded => ps_height p <= closes ph g
    | LPollErr => closes ph g < ps_height p /\ (forall until, retries ph g = Some until -> until < ps_height p)
    end.

(** The chain said that nothing is left to prove. *)
Definition refused (t : Turn) ph g (h close : Z) (raw : string) : Prop :=
  exists e newHash sent err, unmarshalRebroadcastEntry raw = Some e /\ canRebroadcast cfg e h close = true /\ answered_by t ph g close e newHash sent err /\
    (errors_Is err ErrTxProofNotRequired = true \/ errors_Is err ErrProofAlreadyJudged = true).

Lemma unchanged_keeps now ph g sid (d d' : D) : group_ok g -> unchanged now d d' -> rs_pending now d' ph g !! sid = rs_pending now d ph g !! sid.
Proof. intros Hg [_ H]. by rewrite H. Qed.

Lemma clear_elsewhere t ph g sid h why w ph0 g0 sid0 : rs_ok (rw_db w) -> group_ok g -> group_ok g0 -> (ph, g, sid) <> (ph0, g0, sid0) ->
  rs_pending (t_now t) (rw_db (clear t ph g sid h why w)) ph0 g0 !! sid0 = rs_pending (t_now t) (rw_db w) ph0 g0 !! sid0.
Proof.
  intros Hok Hg Hg0 Hne. unfold clear. destruct (rs_delete _ _ _ _ _ _) as [d res] eqn:Hd. apply delete_law in Hd; [|done|done]. simpl.
  eapply changes_elsewhere; [done|exact Hd|]. intros [= -> ->] m. apply lookup_delete_ne. congruence.
Qed.

(** A turn on another session leaves this one; on this one, only a clear takes
    it out. *)
Lemma turned_keeps t ph g h close loop sid raw w w' ph0 g0 sid0 raw0 :
  turned claim_root onSessionCreated onSessionTerminal tracked cfg t ph g h close loop sid raw w w' ->
  rs_ok (rw_db w) -> group_ok g -> group_ok g0 -> rs_time (t_now t) ->
  rs_pending (t_now t) (rw_db w) ph0 g0 !! sid0 = Some raw0 -> rs_pending (t_now t) (rw_db w') ph0 g0 !! sid0 = None ->
  (ph, g, sid) = (ph0, g0, sid0) /\ ((exists why, cause t ph g h close loop sid raw w why) \/ refused t ph g h close raw).
Proof.
  intros Ht Hok Hg Hg0 Htime Hsome Hnone.
  destruct Ht as [w1 [Hd _]|why w1 [Hd _] Hc|e nh sent err d res w1 He Hcan _ Hans Hput [Hd _]|e nh sent err why w1 He Hcan _ Hans Herr [Hd _]].
  - rewrite Hd in Hnone. congruence.
  - destruct (decide ((ph, g, sid) = (ph0, g0, sid0))) as [Heq|Hne]; [split; [done|left; eauto]|].
    rewrite clear_elsewhere, Hd in Hnone by (done || by rewrite Hd). congruence.
  - exfalso. rewrite Hd in Hnone. cbn [observe with_db rw_db] in Hnone. apply put_law in Hput; [|done|done|done].
    destruct (decide ((ph, g, sid) = (ph0, g0, sid0))) as [[= -> -> ->]|Hne].
    + destruct Hput as (_ & _ & [Hp|[_ Hp]]); rewrite Hp in Hnone; [by rewrite lookup_insert_eq in Hnone|congruence].
    + rewrite (changes_elsewhere ph0 g0 sid0 Hg0 _ _ _ _ _ _ _ Hput) in Hnone; [congruence|]. intros [= -> ->] m. apply lookup_insert_ne. congruence.
  - destruct (decide ((ph, g, sid) = (ph0, g0, sid0))) as [Heq|Hne].
    + split; [done|]. right. exists e, nh, sent, err. split_and!; try done. destruct Herr as [[_ ?]|[_ ?]]; auto.
    + rewrite Hd, clear_elsewhere in Hnone by done. cbn [observe rw_db] in Hnone. congruence.
Qed.

(** What a step removes is seen at one instant. *)
Lemma entry_leaves_in_turn (now : Z) (d : D) (sup : gmap string (Coord St)) (evs : list Event) (r r' : Recon) ev ph g sid raw0 :
  rs_ok d -> Forall event_ok evs -> run evs (start now d sup) = Some r ->
  event_ok ev -> step ev r = Some r' -> group_ok g ->
  rs_pending (r_now r') (rw_db (r_world r)) ph g !! sid = Some raw0 ->
  rs_pending (r_now r') (rw_db (r_world r')) ph g !! sid = None ->
  exists t p loop raw, ev = ETurn g sid t /\ its_turn r ph g sid p loop raw /\
    ((exists why, cause t ph g (ps_height p) (closes ph g) loop sid raw (r_world r) why) \/ refused t ph g (ps_height p) (closes ph g) raw).
Proof.
  intros Hd Hevs Hrun Hev Hstep Hg Hsome Hnone.
  apply (run_inv claim_root onSessionCreated onSessionTerminal tracked cfg GetParamsAtHeight) in Hrun as Hi; [|done|by apply start_inv].
  pose proof Hi as [Hok Hpass _ _].
  destruct ev as [height|now' io|now' g' b|g' sid' t|g'| |now' io ph' snapshot p|sup'|]; simpl in Hstep.
  - assert (r_world r' = r_world r) as Hw by (destruct (r_closed r), (height <=? r_last r), (r_pass r); by injection Hstep as <-).
    rewrite Hw in Hnone. congruence.
  - destruct (r_pass r) as [[h ph' o []]|]; try done. destruct (later r now'); [|done]. cbn [negb] in Hstep.
    destruct (rs_active _ _ _ _) as [d1 res] eqn:Ha. apply active_law in Ha as [Hu _]; [|done].
    destruct res; injection Hstep as <-; simpl in Hnone, Hsome; rewrite (unchanged_keeps _ _ _ _ _ _ Hg Hu) in Hnone; congruence.
  - destruct (r_pass r) as [[h ph' o [|ks]]|]; try done. destruct (find_task g' ks) as [[g1|]|] eqn:Hf; try done. destruct (later r now'); [|done]. cbn [negb] in Hstep.
    apply find_task_some in Hf as [Hin Hg1]. simpl in Hg1. subst g1. destruct Hpass as [_ Hpo]. pose proof (po_tasks _ _ _ _ _ _ _ Hpo) as [_ Hall].
    pose proof (Hall _ Hin) as [Hgok _]. simpl in Hgok. destruct (beginGroup _ _ _ _ _ _ _ _ _ _ _ _) as [[w o'] k] eqn:Hb.
    apply begin_spec in Hb as (_ & _ & Hu & _); [|done|done]. injection Hstep as <-. simpl in Hnone, Hsome. rewrite (unchanged_keeps _ _ _ _ _ _ Hg Hu) in Hnone. congruence.
  - destruct (r_pass r) as [[h ph' o [|ks]]|] eqn:Hp; try done. destruct (find_task g' ks) as [[|g1 loop close rest]|] eqn:Hf; try done.
    apply find_task_some in Hf as [Hin Hg1]. simpl in Hg1. subst g1. destruct (rest !! sid') as [raw|] eqn:Hraw; [|done]. destruct (later r (t_now t)); [|done]. cbn [negb] in Hstep.
    destruct Hpass as [_ Hpo]. pose proof (po_tasks _ _ _ _ _ _ _ Hpo) as [_ Hall]. pose proof (Hall _ Hin) as [Hgok [-> Hloop]]. simpl in Hgok, Hloop.
    destruct (InclusionReconciler.turn _ _ _ _ _ _ _ _ _ _ _ _ _ _) as [w stop] eqn:Hturn. apply turn_turned in Hturn. injection Hstep as <-. simpl in Hnone, Hsome.
    destruct (turned_keeps _ _ _ _ _ _ _ _ _ _ ph g sid raw0 Hturn) as [[= -> -> ->] Hc]; [done|done|done|apply Hev|done|done|].
    exists t, (mkPass h ph o (SRun ks)), loop, raw. split; [done|]. split; [|done]. exists ks, rest. by rewrite Hp.
  - destruct (r_pass r) as [[h ph' o [|ks]]|]; try done. destruct (find_task g' ks); [|done]. injection Hstep as <-. simpl in Hnone, Hsome. congruence.
  - destruct (r_pass r) as [[h ph' o [|ks]]|]; try done. destruct (forallb _ ks); [|done]. destruct ph'; injection Hstep as <-; simpl in Hnone, Hsome; congruence.
  - destruct (later r now'); [|done]. cbn [negb] in Hstep. injection Hstep as <-. destruct Hev as (Htime & Hgok & _). exfalso.
    unfold persistRebroadcastEntry in Hnone. destruct (rs_put _ _ _ _ _ _ _) as [d1 res] eqn:Hput. apply put_law in Hput; [|done|done|done]. simpl in Hnone, Hsome.
    destruct (decide ((ph', group_of snapshot, SessionID snapshot) = (ph, g, sid))) as [Heq|Hne].
    + injection Heq as -> Hgs Hsid. rewrite Hgs, Hsid in Hput. destruct Hput as (_ & _ & [Hp|[_ Hp]]); rewrite Hp in Hnone; [by rewrite lookup_insert_eq in Hnone|congruence].
    + rewrite (changes_elsewhere ph g sid Hg _ _ _ _ _ _ _ Hput) in Hnone; [congruence|]. intros Heq m. apply lookup_insert_ne. congruence.
  - injection Hstep as <-. simpl in Hnone, Hsome. congruence.
  - injection Hstep as <-. simpl in Hnone, Hsome. congruence.
Qed.

Lemma step_time ev r r' : step ev r = Some r' -> r_now r <= r_now r'.
Proof.
  destruct ev as [height|now' io|now' g' b|g' sid' t|g'| |now' io ph' snapshot p|sup'|]; simpl; unfold later;
    repeat (case_match; try done); intros; simplify_eq; simpl; lia.
Qed.

(** C18. An entry waiting for its inclusion leaves the rebroadcast store only for
    a cause, or with its group when the store's TTL for the group has run out.
    When a session's entry is there before a step of any run, at the instant
    reached then, and not after it, at the instant of the step, either the store
    as it was shows no entry of that group any more at the later instant (the
    group expired, whatever the step did), or the session had its turn in the
    pass: its stored bytes do not decode; or the chain's answer of this pass
    shows the claim (the proof validated) and the outcome was recorded; or it
    shows the proof rejected; or the message missing with the window closed; or
    the chain did not answer at all, the window is closed and, for a claim, no
    proof could follow any more; or the resubmitter learned that no proof is
    required or that it was judged. No other step, and no other session's turn,
    removes it. *)
Theorem entry_leaves_for_cause (now : Z) (d : D) (sup : gmap string (Coord St)) (evs : list Event) (r r' : Recon) ev ph g sid raw0 :
  rs_ok d -> Forall event_ok evs -> run evs (start now d sup) = Some r ->
  event_ok ev -> step ev r = Some r' -> group_ok g ->
  rs_pending (r_now r) (rw_db (r_world r)) ph g !! sid = Some raw0 ->
  rs_pending (r_now r') (rw_db (r_world r')) ph g !! sid = None ->
  rs_pending (r_now r') (rw_db (r_world r)) ph g = ∅ \/
  exists t p loop raw, ev = ETurn g sid t /\ its_turn r ph g sid p loop raw /\
    ((exists why, cause t ph g (ps_height p) (closes ph g) loop sid raw (r_world r) why) \/ refused t ph g (ps_height p) (closes ph g) raw).
Proof.
  intros Hd Hevs Hrun Hev Hstep Hg Hsome Hnone.
  destruct (pending_later (r_now r) (r_now r') (rw_db (r_world r)) ph g (step_time _ _ _ Hstep)) as [E|E]; [|by left]. right.
  eapply entry_leaves_in_turn; try done. by rewrite E.
Qed.

(** ** A claim found on chain *)

(** A session as a supplier's store holds it. *)
Definition own_session (now : Z) (s : St) (sid : string) : Prop :=
  ss_wf s /\ ss_id sid /\ time_ok now /\ forall o, ss_view now s sid = Some o -> storable o /\ SessionID o = sid.

Lemma flip_final o root tx now o' re : spec_reactivate_claimed root tx now (Some o) = Ok (o', re) -> canReactivateClaimed (State o') = false.
Proof. simpl. destruct (canReactivateClaimed (State o)) eqn:Hc; intros [= <- <-]; [by destruct o|done]. Qed.

Lemma final_proper (a b : SessionSnapshot) : a ≡ b -> canReactivateClaimed (State a) = canReactivateClaimed (State b).
Proof. intros [t ->]%snap_equiv_iff. by destruct a. Qed.

(** An observation the coordinator acknowledged left the session claimed or
    further. *)
Lemma observed_restores cs now c c' sid root tx : own_session now (c_store c) sid -> text_ok tx -> String.length root = SMSTRootLen -> cs 3%nat 0%nat = FNone ->
  OnClaimObservedOnChain onSessionCreated cs now c sid root tx = (c', Ok tt) ->
  exists s, ss_view now (c_store c') sid = Some s /\ canReactivateClaimed (State s) = false.
Proof.
  intros (Hw & Hid & Hnow & Hst) Htx Hroot Hio. unfold OnClaimObservedOnChain. destruct (c_closed c); [done|].
  rewrite (proj2 (Nat.eqb_eq _ _) Hroot). cbn [negb]. cbv zeta.
  pose proof (ss_reactivate_claimed_spec (cs 1%nat) now (c_store c) sid root tx Hw Hid Hnow Htx Hroot) as [Hw' [_ Hres]].
  destruct (ss_reactivate_claimed (cs 1%nat) now (c_store c) sid root tx) as [s' [re|]]; [|done]. simpl in Hw', Hres.
  destruct Hres as (o' & Hsp & Hv'). destruct (ss_view now (c_store c) sid) as [o|] eqn:Hv; [|done]. destruct (Hst o eq_refl) as [Hso Hido].
  destruct (view_equiv_some _ _ Hv') as (v & Hv1 & He). pose proof (flip_final _ _ _ _ _ _ Hsp) as Hfin.
  assert (exists s, ss_view now s' sid = Some s /\ canReactivateClaimed (State s) = false) as Hdone by (exists v; split; [done|]; by rewrite (final_proper _ _ He)).
  destruct (RFrom re); [|by intros [= <-]]. destruct onSessionCreated; cbn [negb]; [|by intros [= <-]].
  change (c_store (count _ (set_store s' c))) with s'. destruct (ss_get (cs 2%nat) now s' sid) as [[w|]|] eqn:Hget; [|done|done].
  apply ss_get_view in Hget; [|done|done]. rewrite Hv1 in Hget. injection Hget as ->. unfold TrackSession. change (lm_closed (c_mgr (count _ (set_store s' c)))) with (lm_closed (c_mgr c)).
  destruct (lm_closed (c_mgr c)); [done|]. change (lm_store (SessionLifecycle.track v _)) with s'.
  assert (SessionID v = sid) as Hidv by (rewrite (SessionID_proper _ _ He); rewrite <- Hido; by eapply reactivate_id).
  assert (storable v) as Hsv by (apply (storable_equiv _ o' He); eapply storable_flip; eauto).
  pose proof (ss_save_spec (cs 3%nat) now s' v Hw') as Hk. rewrite Hidv in Hk. destruct (ss_save (cs 3%nat) now s' v) as [s2 [u|e]]; [|done].
  destruct (Hk Hid Hnow Hsv Hio) as [_ [_ (x & Hx & Hvx)]]; [done|]. rewrite Hv1 in Hx. injection Hx as <-. simpl in Hvx.
  intros [= <-]. destruct (view_equiv_some _ _ Hvx) as (y & Hy & Hey). exists y. split; [exact Hy|]. rewrite (final_proper _ _ Hey). rewrite <- (final_proper _ _ He) in Hfin. by destruct v.
Qed.

Lemma settle_sup t ph e supplier sid o w : rw_sup (settleLedgerOutcome t ph e supplier sid o w) = rw_sup w.
Proof. unfold settleLedgerOutcome. by repeat case_match. Qed.
Lemma missing_sup t ph e w : rw_sup (recordMissingCause t ph e w) = rw_sup w.
Proof. unfold recordMissingCause. by case_match. Qed.
Lemma track_sup u w : rw_sup (track tracked u w) = rw_sup w.
Proof. unfold track. by case_match. Qed.
Lemma clear_sup t ph g sid h why w : rw_sup (clear t ph g sid h why w) = rw_sup w.
Proof. unfold clear. by destruct (rs_delete _ _ _ _ _ _). Qed.

(** The entry does not say which root to restore: it does not decode, its message
    is no claim, or the claim's root is not of a root's length. *)
Definition unusable (raw : string) : Prop :=
  match unmarshalRebroadcastEntry raw with
  | None => True
  | Some e => match claim_root (e_MsgBytes e) with None => True | Some root => String.length root <> SMSTRootLen end
  end.

End Claims.

(** ** The transaction of a resend *)

Section Resend.
Context {Key Msg : Type}.
Variables (GetSigner : string -> option Key) (sign_and_encode : Key -> SignerData -> TxBody (Msg := Msg) -> option string)
  (tmhash_Sum : string -> string) (proofNotRequiredText : string) (oob : Z -> Z)
  (ChainID : string) (GasLimit GasPrice : Z) (GasAdjustment : float64) (txNonceBase : Z)
  (unmarshal_claim : string -> option Msg) (unmarshal_proof : string -> option (Msg * string)).
Abbreviation ResubmitMessage := (ResubmitMessage GetSigner sign_and_encode tmhash_Sum proofNotRequiredText oob ChainID GasLimit GasPrice GasAdjustment txNonceBase
  unmarshal_claim unmarshal_proof).

(** The node took the transaction up or never judged it. *)
Definition unjudged (reply : result TxResponse GrpcErr) : bool :=
  match reply with
  | Err _ => true
  | Ok res => (rsp_Code res =? 0) ||
              (String.eqb (rsp_Codespace res) "sdk" && ((rsp_Code res =? 19) || (rsp_Code res =? 20)))
  end.

Lemma raw_reply node supplier st tc tc' hash err : broadcastRaw tmhash_Sum node supplier st tc = (tc', (hash, err)) ->
  tc_nonce tc' = tc_nonce tc /\
  is_err err = match n_broadcast node (st_bytes st) with Err _ => true | Ok res => negb (rsp_Code res =? 0) end /\
  negb (is_err err && negb (nothingWasSpent err) && negb (RejectionPreservesBytes err)) = unjudged (n_broadcast node (st_bytes st)).
Proof.
  unfold broadcastRaw, unjudged, nothingWasSpent, isWindowExpiredRejection, isAlreadyQueuedRejection.
  destruct (n_broadcast node (st_bytes st)) as [res|e]; cycle 1; [by intros [= <- <- <-]|].
  change abciCodespaceSDK with "sdk". change abciCodeTxTimeoutHeight with 30. change abciCodeTxInMempoolCache with 19.
  destruct (Z.eqb_spec (rsp_Code res) 0) as [->|Hne]; [by intros [= <- <- <-]|]. intros [= <- _ <-]. split; [by destruct (isSequenceMismatchError _)|].
  destruct (String.eqb (rsp_Codespace res) "sdk") eqn:Hs; rewrite ?andb_true_r, ?andb_false_r; destruct (Z.eqb_spec (rsp_Code res) 30) as [H30|H30];
    destruct (Z.eqb_spec (rsp_Code res) 19) as [H19|H19]; destruct (Z.eqb_spec (rsp_Code res) 20) as [H20|H20]; try lia; simpl; (split; [done|]);
    unfold RejectionPreservesBytes; simpl; change abciCodespaceSDK with "sdk"; change abciCodeTxInMempoolCache with 19; change abciCodeMempoolIsFull with 20;
    rewrite ?Hs; try done; simpl; rewrite ?H30, ?H19, ?H20; try done; by rewrite (proj2 (Z.eqb_neq _ _) H19), (proj2 (Z.eqb_neq _ _) H20).
Qed.

(** C25. A resend does not sign a second transaction while the first is alive.
    For an entry that carries signed bytes whose deadline the chain's clock has
    not passed, the resend sends exactly those bytes: the nonce counter does
    not move and nothing is signed. What the entry keeps depends on the answer:
    accepted, unanswered, already held by the node (code 19) or not taken for
    lack of room (code 20), the bytes and their two deadlines stay for the next
    block; any other refusal drops them, so that the next resend signs a
    transaction the chain has not judged; and three blocks without a counted
    attempt drop them too when the answer is an error. *)
Theorem resend_reuses_signed (env : ResubmitEnv) (tc tc' : TxClient) ph supplier (e : rebroadcastEntry) h close timeout regime hash sent err :
  ResubmitMessage env tc ph supplier (e_MsgBytes e) (cachedTx e) close timeout regime = (tc', (hash, sent, err)) ->
  re_owned env = true -> e_SignedBytes e <> "" -> in_int64 (e_SignedTimeoutAt e) ->
  0 < n_blockTime (re_node env) < of_UnixNano (e_SignedTimeoutAt e) ->
  let e' := afterAttempt e h hash sent err in
  let reply := n_broadcast (re_node env) (e_SignedBytes e) in
  tc_nonce tc' = tc_nonce tc /\ sent = cachedTx e /\
  (if unjudged reply && negb (is_err err && stuckTooLong e h)
   then e_SignedBytes e' = e_SignedBytes e /\ e_SignedTimeoutAt e' = e_SignedTimeoutAt e /\ e_SignedTimeoutHeight e' = e_SignedTimeoutHeight e
   else e_SignedBytes e' = "").
Proof.
  intros Hr Hown Hb Hi Hclock e' reply. unfold InclusionReconciler.ResubmitMessage in Hr. rewrite Hown in Hr. cbn [negb] in Hr.
  destruct (if timeout <=? 0 then _ else _) as [rt rr]. assert (reusable (cachedTx e) (n_blockTime (re_node env)) = true) as Hre.
  { unfold reusable. cbn [cachedTx p_Bytes p_TimeoutAt]. rewrite (proj2 (String.eqb_neq _ _) Hb). cbn [orb].
    destruct (Z.eqb_spec (of_UnixNano (e_SignedTimeoutAt e)) 0); [lia|]. destruct (Z.eqb_spec (n_blockTime (re_node env)) 0); [lia|]. apply Z.ltb_lt; lia. }
  rewrite Hre in Hr. destruct (BroadcastRawReturningHash _ _ _ _ _) as [tc1 [hash1 err1]] eqn:Hraw. injection Hr as -> -> <- ->.
  unfold BroadcastRawReturningHash in Hraw. apply raw_reply in Hraw as (Hn & Herr & Hkeep). cbn [cachedTx p_Bytes st_bytes] in Hkeep. split; [done|]. split; [done|].
  assert (forall x, e_SignedBytes (afterAttempt x h hash (cachedTx e) err) = e_SignedBytes (keepSigned x h (cachedTx e) err) /\
    e_SignedTimeoutAt (afterAttempt x h hash (cachedTx e) err) = e_SignedTimeoutAt (keepSigned x h (cachedTx e) err) /\
    e_SignedTimeoutHeight (afterAttempt x h hash (cachedTx e) err) = e_SignedTimeoutHeight (keepSigned x h (cachedTx e) err)) as Hafter.
  { intros x. unfold afterAttempt. destruct (nothingWasSpent err), (negb (is_err err) && _); done. }
  destruct (Hafter e) as (A1 & A2 & A3). unfold e'. rewrite A1, A2, A3. clear A1 A2 A3 Hafter. fold reply in Hkeep. rewrite <- Hkeep. unfold keepSigned.
  cbn [cachedTx p_Bytes p_TimeoutAt p_TimeoutHeight]. rewrite (proj2 (String.eqb_neq _ _) Hb). cbn [negb].
  destruct (is_err err && negb (nothingWasSpent err) && negb (RejectionPreservesBytes err)); cbn [negb orb andb]; [done|].
  destruct (is_err err && stuckTooLong e h); cbn [negb]; [done|]. split_and!; [done| |done]. simpl. unfold UnixNano, of_UnixNano.
  replace (unix_epoch + e_SignedTimeoutAt e - unix_epoch) with (e_SignedTimeoutAt e) by lia. by apply wrap64_id.
Qed.
End Resend.
