(* ===== verification/TxSafety.v ===== *)
(** * Deadlines of signed transactions

    What the chain checks of an unordered transaction's timeout, proved of what
    the client signs: two transactions of one sender do not share it, and it is
    under the chain's ceiling. Then the fee. *)

From S2P Require Import Prelude SessionState StoreSpec PebbleModel GoFloat TxClient.
From Stdlib Require Import Ascii String.

Local Open Scope string_scope.
Local Open Scope Z_scope.

(** How far apart two values of the counter may be for their offsets to differ
    wherever the base starts: 2^64 mod 10^7. Without a wrap of base + counter
    around 2^64 the offsets of 10^7 consecutive values differ. *)
Definition nonce_run : Z := 9551616.

Lemma offset_distinct base n1 n2 : 0 < n2 - n1 < nonce_run -> nonceOffset base n1 <> nonceOffset base n2.
Proof.
  unfold nonce_run. intros Hk. unfold nonceOffset, wrapu64. change txNonceSpread with 10000000. change (2 ^ 64) with 18446744073709551616.
  pose proof (Z.div_mod (base + n1) 18446744073709551616) as H1. pose proof (Z.mod_pos_bound (base + n1) 18446744073709551616) as B1.
  pose proof (Z.div_mod (base + n2) 18446744073709551616) as H2. pose proof (Z.mod_pos_bound (base + n2) 18446744073709551616) as B2.
  set (a := (base + n1) mod 18446744073709551616) in *. set (b := (base + n2) mod 18446744073709551616) in *.
  pose proof (Z.div_mod a 10000000) as H3. pose proof (Z.div_mod b 10000000) as H4. intros He. rewrite He in H3.
  assert (b = a + (n2 - n1) \/ b = a + (n2 - n1) - 18446744073709551616) as [Hb|Hb] by lia.
  - assert (n2 - n1 = 10000000 * (b / 10000000 - a / 10000000)) by lia. lia.
  - assert (18446744073709551616 - (n2 - n1) = 10000000 * (a / 10000000 - b / 10000000)) by lia. lia.
Qed.

Lemma offset_range base n : 0 <= nonceOffset base n < txNonceSpread.
Proof. apply Z.mod_pos_bound. done. Qed.

Lemma window_timeout_bounds blocks seconds : fst (WindowTimeout blocks seconds) <= DefaultTxTimeoutMax.
Proof. unfold WindowTimeout. destruct (_ || _); [done|]. simpl. destruct (Z.ltb_spec DefaultTxTimeoutMax (wrap64 (wrap64 (blocks * seconds) * second))); simpl; lia. Qed.

Section Signing.
Context {Key Msg : Type}.
Variables (GetSigner : string -> option Key) (sign_and_encode : Key -> SignerData -> TxBody (Msg := Msg) -> option string)
  (tmhash_Sum : string -> string) (oob : Z -> Z) (ChainID : string) (GasLimit GasPrice : Z) (GasAdjustment : float64) (txNonceBase : Z).
Abbreviation signAndEncode := (signAndEncode GetSigner sign_and_encode tmhash_Sum oob ChainID GasLimit GasPrice GasAdjustment txNonceBase).

(** What a signing that succeeded did. *)
Lemma signed_as node signer height dur src msgs tc tc' st : signAndEncode node signer height dur src msgs tc = (tc', Ok st) ->
  tc_nonce tc' = wrapu64 (tc_nonce tc + 1) /\ st_anchor st = n_blockTime node /\ st_timeoutDuration st = dur /\
  st_timeoutTimestamp st = n_blockTime node + dur + nonceOffset txNonceBase (tc_nonce tc') /\ n_blockTime node <> 0 /\
  exists key account gas fee,
    GetSigner signer = Some key /\
    sign_and_encode key (mkSignerData ChainID (a_Number account) 0 (a_Address account))
      (mkBody msgs "HA RelayMiner" true (st_timeoutTimestamp st) gas fee (if 0 <? height then Some height else None)) = Some (st_bytes st) /\
    fee = calculateFeeForGas GasPrice gas.
Proof.
  unfold TxClient.signAndEncode. destruct (GetSigner signer) as [key|] eqn:Hk; [|done].
  destruct (getAccount node signer tc) as [tc1 [account|]] eqn:Ha; [|done].
  assert (tc_nonce tc1 = tc_nonce tc) as Hn.
  { unfold getAccount in Ha. destruct (tc_accounts tc !! signer); [|destruct (n_account node signer)]; by injection Ha as <- _. }
  destruct (Z.eqb_spec (n_blockTime node) 0) as [|Hb]; [done|]. destruct (gasAndFee _ _ _ _ _ _ _ _ _) as [[gas fee]|] eqn:Hg; [|done].
  destruct (signTx _ _ _ _ _ _) as [txBytes|] eqn:Hs; [|done]. intros [= <- <-]. cbn [tc_nonce st_anchor st_timeoutDuration st_timeoutTimestamp st_bytes].
  rewrite Hn in *. split_and!; try done. exists key, account, gas, fee. split_and!; [done|exact Hs|].
  unfold gasAndFee in Hg. destruct (GasLimit =? 0); [|congruence]. destruct (simulateTx _ _ _ _ _ _) as [simGas|]; [|done].
  cbv zeta in Hg. congruence.
Qed.

(** The unordered nonce of a transaction is its own. Two transactions signed
    against the same block time with the same budget, less than 9,551,616
    signings apart in this process, carry different timeouts whatever the
    random base; and a timeout built from a budget [WindowTimeout] allows stays
    ten seconds under the ten minutes past the block time at which the chain
    refuses it. (Only a wrap of base + counter around 2^64 shortens the run from
    10^7.) *)
Theorem signed_deadlines_distinct node1 node2 signer1 signer2 h1 h2 dur src1 src2 msgs1 msgs2 tc1 tc1' tc2 tc2' st1 st2 :
  signAndEncode node1 signer1 h1 dur src1 msgs1 tc1 = (tc1', Ok st1) ->
  signAndEncode node2 signer2 h2 dur src2 msgs2 tc2 = (tc2', Ok st2) ->
  n_blockTime node1 = n_blockTime node2 -> 0 < tc_nonce tc2' - tc_nonce tc1' < nonce_run -> dur <= DefaultTxTimeoutMax ->
  st_timeoutTimestamp st1 <> st_timeoutTimestamp st2 /\
  st_timeoutTimestamp st1 - n_blockTime node1 < txTimeoutHardCeiling - txTimeoutSafetyMargin.
Proof.
  intros H1 H2 Hb Hn Hd. destruct (signed_as _ _ _ _ _ _ _ _ _ H1) as (_ & _ & _ & -> & _). destruct (signed_as _ _ _ _ _ _ _ _ _ H2) as (_ & _ & _ & -> & _).
  pose proof (offset_distinct txNonceBase _ _ Hn) as Hne. pose proof (offset_range txNonceBase (tc_nonce tc1')) as Hr.
  unfold DefaultTxTimeoutMax in Hd. split; lia.
Qed.
End Signing.

(** ** Fees *)

(** [calculateFeeForGas] is the price of the gas rounded up. *)
Lemma fee_rounds_up price gas : 0 <= price -> 0 <= gas <= int64_max ->
  let fee := calculateFeeForGas price gas in price * gas <= fee * dec_one < price * gas + dec_one.
Proof.
  intros Hp Hg. unfold calculateFeeForGas. rewrite wrap64_id by (unfold in_int64, int64_min, int64_max in *; lia).
  rewrite Z.quot_div_nonneg by (unfold dec_one; nia). pose proof (Z.div_mod (price * gas) dec_one) as Hm. pose proof (Z.mod_pos_bound (price * gas) dec_one) as Hb.
  unfold dec_one in *. cbv zeta. destruct (Z.ltb_spec 0 (price * gas - price * gas / 10 ^ 18 * 10 ^ 18)); lia.
Qed.
