(* ===== verification/InclusionExamples.v ===== *)
(** * The reconciler on an executable store

    The theorems of InclusionClaims, TxSafety and the rebroadcast stores at
    work: a claim submitted at height 12, missing from the chain and sent again
    at 13 and 14, given up once its window closed; a claim found on chain
    whose session is restored; a transaction sent again and one refused. *)

From S2P Require Import Prelude SessionState KeyBuilder StoreSpec RelayCommit Concrete RedisModel RedisSessionStore RedisStoreRefines SessionLifecycle LifecycleSafety SessionCoordinator LifecycleExamples RebroadcastStore RebroadcastRefines PebbleModel GoFloat TxClient TxSafety InclusionReconciler InclusionSafety InclusionBounds InclusionClaims.
From Stdlib Require Import Ascii String.

Local Open Scope string_scope.
Local Open Scope Z_scope.
Local Open Scope list_scope.

Module InclusionExamples.
Import Concrete LifecycleExamples.
#[local] Existing Instances LifecycleExamples.store_ops LifecycleExamples.store_laws LifecycleExamples.windows LifecycleExamples.windows_laws.

(** A codec of entries: a number that codes the fields. *)
Definition entry_fields (e : rebroadcastEntry) : list string :=
  [e_MsgBytes e; format_int (e_SubmitHeight e); e_TxHash e; e_OrigTxHash e; e_ServiceID e; format_int (e_Rebroadcasts e); format_int (e_TimeoutSeconds e);
   e_TimeoutRegime e; format_int (e_LastAttemptHeight e); e_SignedBytes e; format_int (e_SignedTimeoutAt e); format_int (e_SignedTimeoutHeight e)].

Definition entry_of (f : list string) : option rebroadcastEntry :=
  match f with
  | [m; h; t; o; s; n; ts; tr; l; sb; sa; sh] =>
      match parse_dec h, parse_dec n, parse_dec ts, parse_dec l, parse_dec sa, parse_dec sh with
      | Some h, Some n, Some ts, Some l, Some sa, Some sh => Some (mkEntry m h t o s n ts tr l sb sa sh)
      | _, _, _, _, _, _ => None
      end
  | _ => None
  end.

Definition int64b (z : Z) : bool := (int64_min <=? z) && (z <=? int64_max).
Definition intsb (e : rebroadcastEntry) : bool :=
  forallb int64b [e_SubmitHeight e; e_Rebroadcasts e; e_TimeoutSeconds e; e_LastAttemptHeight e; e_SignedTimeoutAt e; e_SignedTimeoutHeight e].

Lemma intsb_spec e : intsb e = true <-> entry_ints e.
Proof.
  unfold intsb, entry_ints. rewrite forallb_forall, Forall_forall. unfold int64b, in_int64.
  split; intros H z Hz; [apply list_elem_of_In, H in Hz|apply list_elem_of_In, H in Hz]; rewrite andb_true_iff, !Z.leb_le in *; done.
Qed.

#[export] Instance num_entry : EntryJson := {
  marshalRebroadcastEntry := fun e => format_int (Zpos (encode (entry_fields e)));
  unmarshalRebroadcastEntry := fun str => match parse_dec str with
                                          | Some (Zpos p) => match decode p ≫= entry_of with
                                                             | Some e => if intsb e then Some e else None
                                                             | None => None
                                                             end
                                          | _ => None
                                          end;
  to_valid := fun s => s
}.

#[export] Instance num_entry_laws : EntryJsonLaws.
Proof.
  split.
  - intros e He. simpl. rewrite parse_dec_format, countable.decode_encode. simpl. rewrite !parse_dec_format. destruct e. simpl. by rewrite (proj2 (intsb_spec _) He).
  - intros raw e. simpl. destruct (parse_dec raw) as [[]|]; try done. destruct (decode p ≫= entry_of) as [e'|]; [|done].
    destruct (intsb e') eqn:Hi; [|done]. intros [= <-]. by apply intsb_spec.
Qed.

Abbreviation redis := TimedRedis.
(** A server with no key whose clock shows the first instant. *)
Definition fresh : redis := mkTimed ∅ ∅ 0.
#[local] Instance redis_ops : RebroadcastOps redis := RedisRebroadcast (NewKeyBuilder "ha") 100.
#[local] Instance redis_laws : RebroadcastLaws redis.
Proof. by apply RedisRebroadcast_laws. Qed.

Lemma empty_ok : rs_ok fresh.
Proof. split; cbn [rview TimedRedisOps tr_db fresh]; intros *; rewrite ?lookup_empty; try done; intros; by left. Qed.

Definition cap2 : InclusionReconcilerConfig := mkConfig 64 (Some 2) 0 (10 * second) 0.
Definition root_of (msg : string) : option string := Some msg.
Abbreviation runs := (run (D := redis) (St := store) (Params := unit) root_of true true true cap2 (fun _ => tt)).
Abbreviation steps := (step (D := redis) (St := store) (Params := unit) root_of true true true cap2 (fun _ => tt)).

Definition g1 : RebroadcastGroup := mkGroup "pokt1sup" 10.
Lemma g1_ok : group_ok g1.
Proof. split; [done|]. split; [done|by split]. Qed.

Definition coord : Coord store := mkCoord manager_1 false [].
Definition sup : gmap string (Coord store) := {[ "pokt1sup" := coord ]}.

Definition signed_1 : SignedTxPayload := mkPayload "tx1" "H1" (unix_epoch + 100 * second) 16.
Definition submitted : Submission := mkSubmission root_1 12 "H1" signed_1 None (60 * second) "window".

(** A turn whose calls answer; the node accepts every transaction. *)
Definition accepts (at_ : Z) : Turn :=
  mkTurn at_ (fun _ => io_ok) io_ok io_ok io_ok io_ok false false None (Some (fun _ _ _ cached _ _ _ => ("H1", cached, None))).
Definition chain_answers (m : gmap string SessionClaim) : Begin := mkBegin io_ok io_ok true false (Some m).

Definition claim_pass (h at_ : Z) : list (Event (St := store)) :=
  [EBlock h; EActive at_ io_ok; EBegin at_ g1 (chain_answers ∅); ETurn g1 "s1" (accepts at_); EPassEnd; EActive at_ io_ok; EPassEnd].

(** Submitted at 12, missing at 13, 14 and 15. *)
Definition evs : list (Event (St := store)) :=
  EPersist 1 io_ok RebroadcastPhaseClaim session_1 submitted :: claim_pass 13 2 ++ claim_pass 14 3 ++ claim_pass 15 4.

Lemma accepts_ok at_ : turn_ok (D := redis) (accepts at_).
Proof.
  split; [done|]. intros ph g close e nh sent err He (RM & [= <-] & [= <- <- <-]). unfold entry_ints in He. by decompose_Forall_hyps.
Qed.

Lemma pass_events_ok h at_ : in_int64 h -> Forall event_ok (claim_pass h at_).
Proof. intros Hh. repeat (apply Forall_cons; split; [first [done | apply accepts_ok]|]). by apply Forall_nil. Qed.

Lemma evs_ok : Forall event_ok evs.
Proof.
  apply Forall_cons. split; [split; [done|]; split; [apply g1_ok|by repeat split]|].
  rewrite !Forall_app. split_and!; apply pass_events_ok; by split.
Qed.

Definition reached (evs : list (Event (St := store))) : Recon (D := redis) (St := store) := default (start 0 fresh sup) (runs evs (start 0 fresh sup)).

Lemma reaches l : bool_decide (is_Some (runs l (start 0 fresh sup))) = true -> runs l (start 0 fresh sup) = Some (reached l).
Proof. unfold reached. destruct (runs l (start 0 fresh sup)); [done|]. by intros [? ?]%bool_decide_eq_true. Qed.

Lemma runs_15 : runs evs (start 0 fresh sup) = Some (reached evs).
Proof. apply reaches. by vm_compute. Qed.

Abbreviation x1 := (RebroadcastPhaseClaim, g1, "s1").

Lemma resends_in_window_witness : map rs_height (resends x1 (rw_log (r_world (reached evs)))) = [14; 13] /\
  Z.of_nat (List.length (resends x1 (rw_log (r_world (reached evs))))) <= Z.max 0 (16 - 0 - 12 - 1).
Proof.
  split; [by vm_compute|]. destruct (resends_in_window (D := redis) (St := store) root_of true true true cap2 (fun _ => tt) 0 fresh sup evs (reached evs)
    RebroadcastPhaseClaim g1 "s1" empty_ok evs_ok runs_15) as (_ & _ & Hn).
  apply (Hn 12). intros s Hs. apply list_elem_of_In in Hs.
  assert (forallb (fun s => 12 <=? e_SubmitHeight (rs_entry s)) (resends x1 (rw_log (r_world (reached evs)))) = true) as Hall by (by vm_compute).
  rewrite forallb_forall in Hall. by apply Z.leb_le, Hall.
Defined.

Lemma resend_cap_holds_witness : spent x1 (rw_log (r_world (reached evs))) = 2 /\ submissions x1 (rw_log (r_world (reached evs))) = 1 /\
  spent x1 (rw_log (r_world (reached evs))) <= 2 * (1 + submissions x1 (rw_log (r_world (reached evs)))) + lost x1 (rw_log (r_world (reached evs))).
Proof.
  split; [by vm_compute|]. split; [by vm_compute|].
  apply (resend_cap_holds (D := redis) (St := store) root_of true true true cap2 (fun _ => tt) 2 0 fresh sup evs (reached evs) RebroadcastPhaseClaim g1 "s1").
  - apply empty_ok.
  - apply g1_ok.
  - reflexivity.
  - vm_compute. split; discriminate.
  - intros now' raw e _ Hp. exfalso. revert Hp. change (rs_pending now' fresh RebroadcastPhaseClaim g1) with (∅ : gmap string string). by rewrite lookup_empty.
  - apply evs_ok.
  - apply runs_15.
Defined.

(** The window closes at 16; at 17 the claim is still missing. *)
Definition evs_17 : list (Event (St := store)) := evs ++ [EBlock 17; EActive 5 io_ok; EBegin 5 g1 (chain_answers ∅)].
Definition last_turn : Event (St := store) := ETurn g1 "s1" (accepts 6).
Definition after_17 : Recon (D := redis) (St := store) := default (reached evs_17) (steps last_turn (reached evs_17)).

Lemma evs_17_ok : Forall event_ok evs_17.
Proof. apply Forall_app. split; [apply evs_ok|]. repeat (apply Forall_cons; split; [first [done | by split]|]). by apply Forall_nil. Qed.

Lemma entry_leaves_for_cause_witness :
  exists t p loop raw, last_turn = ETurn g1 "s1" t /\
    its_turn root_of true true true (fun _ => tt) (reached evs_17) RebroadcastPhaseClaim g1 "s1" p loop raw /\ ps_height p = 17.
Proof.
  assert (is_Some (rs_pending 5 (rw_db (r_world (reached evs_17))) RebroadcastPhaseClaim g1 !! "s1")) as [raw0 Hraw0].
  { apply (bool_decide_unpack _). by vm_compute. }
  destruct (entry_leaves_for_cause (D := redis) (St := store) root_of true true true cap2 (fun _ => tt) 0 fresh sup evs_17 (reached evs_17) after_17 last_turn
    RebroadcastPhaseClaim g1 "s1" raw0) as [Hgone|(t & p & loop & raw & H1 & H2 & _)].
  - apply empty_ok.
  - apply evs_17_ok.
  - apply reaches. by vm_compute.
  - apply accepts_ok.
  - unfold after_17. destruct (steps last_turn (reached evs_17)) eqn:Hs; [done|]. exfalso.
    assert (bool_decide (is_Some (steps last_turn (reached evs_17))) = true) as Hb by (by vm_compute). rewrite Hs in Hb. discriminate Hb.
  - apply g1_ok.
  - change (r_now (reached evs_17)) with 5. exact Hraw0.
  - by vm_compute.
  - exfalso. assert (bool_decide (rs_pending 6 (rw_db (r_world (reached evs_17))) RebroadcastPhaseClaim g1 = ∅) = false) as Hb by (by vm_compute).
    apply bool_decide_eq_false in Hb. apply Hb. exact Hgone.
  - exists t, p, loop, raw. split; [done|]. split; [done|]. destruct H2 as (ks & rest & Hp & _).
    assert (ps_height <$> r_pass (reached evs_17) = Some 17) as Hh by (by vm_compute). rewrite Hp in Hh. by injection Hh.
Defined.

(** *** A claim found on chain *)

Definition entry_1 : rebroadcastEntry := newEntry "svc" submitted.
Definition raw_1 : string := marshalRebroadcastEntry entry_1.
Definition on_chain : gmap string SessionClaim := {[ "s1" := mkSessionClaim SessionProofPending root_1 ]}.
Definition world_1 : World (D := redis) (St := store) :=
  persistRebroadcastEntry io_ok 1 RebroadcastPhaseClaim session_1 submitted (mkWorld fresh sup []).
Definition found_turn : World (D := redis) (St := store) * bool :=
  turn (Params := unit) root_of true true true cap2 (accepts 2) RebroadcastPhaseClaim g1 13 16 (LMain on_chain) "s1" raw_1 world_1.

Lemma world_1_ok : rs_ok (rw_db world_1).
Proof.
  assert (exists d r, rs_put io_ok 1 fresh RebroadcastPhaseClaim g1 "s1" raw_1 = (d, r) /\ rw_db world_1 = d) as (d & r & Hput & ->).
  { unfold world_1, persistRebroadcastEntry. change (group_of session_1) with g1. change (SessionID session_1) with "s1". fold entry_1. fold raw_1.
    change (rw_db (mkWorld fresh sup [])) with fresh. destruct (rs_put _ _ _ _ _ _ _) as [d r]. by exists d, r. }
  by apply put_law in Hput as [? _]; [|apply empty_ok|apply g1_ok|].
Qed.

Lemma world_1_sup : rw_sup world_1 !! "pokt1sup" = Some coord.
Proof. unfold world_1, persistRebroadcastEntry. destruct (rs_put _ _ _ _ _ _ _). apply lookup_singleton_eq. Qed.

Lemma own_1 : own_session 2 (c_store coord) "s1".
Proof.
  split; [apply store_1_wf|]. split; [exact lifecycle_s1_id|]. split; [by vm_compute|]. intros o Ho.
  change (c_store coord) with (store_of session_1) in Ho. rewrite view_1 in Ho. injection Ho as <-. split; [apply session_1_storable|done].
Qed.

Lemma pending_1 : rs_pending 2 (rw_db world_1) RebroadcastPhaseClaim g1 !! "s1" = Some raw_1.
Proof. vm_compute. reflexivity. Qed.

Lemma decodes_1 : unmarshalRebroadcastEntry raw_1 = Some entry_1.
Proof. vm_compute. reflexivity. Qed.

Lemma text_1 e : unmarshalRebroadcastEntry raw_1 = Some e -> text_ok (e_TxHash e).
Proof. rewrite decodes_1. by intros [= <-]. Qed.


(** A group nobody put a payload in for its hundred seconds is gone. *)
Example idle_group_expires :
  rs_pending (100 * second) (rw_db world_1) RebroadcastPhaseClaim g1 !! "s1" = Some raw_1 /\ rs_pending (1 + 100 * second) (rw_db world_1) RebroadcastPhaseClaim g1 = ∅.
Proof. split; vm_compute; reflexivity. Qed.

(** *** Transactions *)

Definition signs (key : unit) (sd : SignerData) (body : TxBody (Msg := string)) : option string := Some (format_int (b_timeout body)).
Definition account_1 : Account := mkAccount "pokt1sup" 7 3.
(** The node's latest block is 50 s after the epoch; it holds the transaction. *)
Definition node_1 (code : Z) : Node :=
  mkNode (fun _ => Some account_1) (unix_epoch + 50 * second) (fun _ => Ok (Some 1000)) (fun b => Ok (mkTxResponse "H1" code "sdk" "")).
Definition resubmit_1 (code : Z) : TxClient * (string * SignedTxPayload * option TxError) :=
  ResubmitMessage (fun _ => Some tt) signs (fun b => b) "not required" (fun z => z) "pocket" 0 1 (FloatOfInt 1) 0 Some (fun b => Some (b, "s1"))
    (mkResubmitEnv true None (node_1 code) 9 None) (mkTxClient 5 ∅) RebroadcastPhaseClaim "pokt1sup" (e_MsgBytes entry_1) (cachedTx entry_1) 16 60 "window".

Lemma resend_reuses_signed_witness :
  (let '(_, (hash, sent, err)) := resubmit_1 19 in
   sent = cachedTx entry_1 /\ e_SignedBytes (afterAttempt entry_1 13 hash sent err) = "tx1") /\
  (let '(_, (hash, sent, err)) := resubmit_1 5 in e_SignedBytes (afterAttempt entry_1 13 hash sent err) = "").
Proof.
  assert (forall code tc' hash sent err, resubmit_1 code = (tc', (hash, sent, err)) ->
    tc_nonce tc' = 5 /\ sent = cachedTx entry_1 /\
    (if unjudged (n_broadcast (node_1 code) "tx1") && negb (is_err err && stuckTooLong entry_1 13)
     then e_SignedBytes (afterAttempt entry_1 13 hash sent err) = "tx1" /\
          e_SignedTimeoutAt (afterAttempt entry_1 13 hash sent err) = e_SignedTimeoutAt entry_1 /\
          e_SignedTimeoutHeight (afterAttempt entry_1 13 hash sent err) = e_SignedTimeoutHeight entry_1
     else e_SignedBytes (afterAttempt entry_1 13 hash sent err) = "")) as Hall.
  { intros code tc' hash sent err Hr. apply (resend_reuses_signed _ _ _ _ _ _ _ _ _ _ _ _ _ _ _ _ _ _ 13 _ _ _ _ _ _ Hr); [done|by vm_compute|split; vm_compute; discriminate|].
    split; by vm_compute. }
  split.
  - destruct (resubmit_1 19) as [tc' [[hash sent] err]] eqn:Hr. destruct (Hall _ _ _ _ _ Hr) as (_ & H1 & H2).
    assert (is_err err && stuckTooLong entry_1 13 = false) as Hst by apply andb_false_r.
    rewrite Hst in H2. by destruct H2.
  - destruct (resubmit_1 5) as [tc' [[hash sent] err]] eqn:Hr. by destruct (Hall _ _ _ _ _ Hr) as (_ & _ & H2).
Defined.

Definition signing (n : Z) : TxClient * result signedTx TxError :=
  signAndEncode (fun _ => Some tt) signs (fun b => b) (fun z => z) "pocket" 0 1 (FloatOfInt 1) (2 ^ 64 - 3) (node_1 0) "pokt1sup" 16 (60 * second) "window" ["m"] (mkTxClient n ∅).

Lemma signed_deadlines_distinct_witness : exists tc1 tc2 st1 st2, signing 1 = (tc1, Ok st1) /\ signing 2 = (tc2, Ok st2) /\
  st_timeoutTimestamp st1 <> st_timeoutTimestamp st2.
Proof.
  destruct (signing 1) as [tc1 [st1|]] eqn:H1; [|by vm_compute in H1]. destruct (signing 2) as [tc2 [st2|]] eqn:H2; [|by vm_compute in H2].
  exists tc1, tc2, st1, st2. split; [done|]. split; [done|].
  assert (tc_nonce tc1 = 2 /\ tc_nonce tc2 = 3) as [Hn1 Hn2] by (rewrite <- (f_equal fst H1 : _ = tc1), <- (f_equal fst H2 : _ = tc2); split; by vm_compute).
  apply (signed_deadlines_distinct _ _ _ _ _ _ _ _ _ _ _ _ _ _ _ _ _ _ _ _ _ _ _ _ _ _ H1 H2).
  - reflexivity.
  - rewrite Hn1, Hn2. unfold nonce_run. lia.
  - by vm_compute.
Defined.
End InclusionExamples.
