(* ===== verification/ClaimPages.v ===== *)
(** * The supplier's claims, page by page (query/query.go, GetSupplierSessionStates)

    The inclusion reconciler reads a session that is not in this answer as a
    message that never landed. The loop walks the AllClaims index of the chain
    by its continuation keys, at most [maxInclusionPages] of them; the node's
    pages are a parameter. *)

From S2P Require Import Prelude SessionState StoreSpec TxClient.
From Stdlib Require Import Ascii String.

Local Open Scope string_scope.
Local Open Scope Z_scope.

(** The chain's enum. *)
Inductive ClaimProofStatus := PENDING_VALIDATION | VALIDATED | INVALID | OtherStatus (n : Z).

Definition stateFromClaimStatus (st : ClaimProofStatus) : SessionProofState :=
  match st with
  | VALIDATED => SessionProofValidated
  | INVALID => SessionProofRejected
  | PENDING_VALIDATION => SessionProofPending
  | OtherStatus _ => SessionProofUnknown
  end.

(** A claim of a page: its session, when it has a header, status and root. *)
Record ChainClaim := mkChainClaim { cl_session : option string; cl_status : ClaimProofStatus; cl_root : string }.
(** [pg_next] is empty when there is no pagination or no next key. *)
Record ClaimPage := mkClaimPage { pg_claims : list ChainClaim; pg_next : string }.

Definition maxInclusionPages : nat := 10000.

(** The page's claims into the map, in their order. *)
Definition addClaim (sessions : gmap string SessionClaim) (c : ChainClaim) : gmap string SessionClaim :=
  match cl_session c with
  | Some sid => <[sid := mkSessionClaim (stateFromClaimStatus (cl_status c)) (cl_root c)]> sessions
  | None => sessions
  end.

Inductive PageErr := PageQueryErr | PagesDidNotEnd.

(** The loop; [AllClaims] is the node's answer for a key, with the key empty for
    the first page. *)
Fixpoint paginateLoop (fuel : nat) (AllClaims : string -> option ClaimPage) (sessions : gmap string SessionClaim) (nextKey : string)
  : result (gmap string SessionClaim) PageErr :=
  match fuel with
  | O => Err PagesDidNotEnd
  | S fuel =>
      match AllClaims nextKey with
      | None => Err PageQueryErr
      | Some res =>
          let sessions := foldl addClaim sessions (pg_claims res) in
          if String.eqb (pg_next res) "" then Ok sessions
          else if String.eqb (pg_next res) nextKey then Err PagesDidNotEnd
          else paginateLoop fuel AllClaims sessions (pg_next res)
      end
  end.

Definition GetSupplierSessionStates (AllClaims : string -> option ClaimPage) : result (gmap string SessionClaim) PageErr :=
  paginateLoop maxInclusionPages AllClaims ∅ "".

(** ** The whole index *)

(** The pages the node serves from a key on, to the last one. *)
Inductive serves (AllClaims : string -> option ClaimPage) : string -> list ClaimPage -> Prop :=
| serves_last k p : AllClaims k = Some p -> pg_next p = "" -> serves AllClaims k [p]
| serves_more k p ps : AllClaims k = Some p -> pg_next p <> "" -> pg_next p <> k -> serves AllClaims (pg_next p) ps -> serves AllClaims k (p :: ps).

Definition claims_of (ps : list ClaimPage) : list ChainClaim := List.concat (map pg_claims ps).

Lemma loop_exact fuel AllClaims m k m' : paginateLoop fuel AllClaims m k = Ok m' <->
  exists ps, serves AllClaims k ps /\ (List.length ps <= fuel)%nat /\ m' = foldl addClaim m (claims_of ps).
Proof.
  revert m k. induction fuel as [|fuel IH]; intros m k; simpl.
  { split; [done|]. intros (ps & Hs & Hl & _). destruct Hs; simpl in Hl; lia. }
  split.
  - destruct (AllClaims k) as [p|] eqn:Hp; [|done]. destruct (String.eqb_spec (pg_next p) "") as [He|He].
    { intros [= <-]. exists [p]. split; [by constructor|]. simpl. split; [lia|]. unfold claims_of. simpl. by rewrite app_nil_r. }
    destruct (String.eqb_spec (pg_next p) k) as [|Hk]; [done|]. intros (ps & Hs & Hl & ->)%IH. exists (p :: ps).
    split; [by constructor|]. simpl. split; [lia|]. unfold claims_of. simpl. by rewrite foldl_app.
  - intros (ps & Hs & Hl & ->). destruct Hs as [k p Hp He|k p ps Hp He Hk Hs]; rewrite Hp.
    + rewrite He. simpl. unfold claims_of. simpl. by rewrite app_nil_r.
    + rewrite (proj2 (String.eqb_neq _ _) He), (proj2 (String.eqb_neq _ _) Hk). apply IH. exists ps. simpl in Hl. split; [done|]. split; [lia|].
      unfold claims_of. simpl. by rewrite foldl_app.
Qed.

(** A session of the index is in the answer, with its last claim's state. *)
Lemma added_lookup m cs sid : foldl addClaim m cs !! sid =
  match List.find (fun c => bool_decide (cl_session c = Some sid)) (rev cs) with
  | Some c => Some (mkSessionClaim (stateFromClaimStatus (cl_status c)) (cl_root c))
  | None => m !! sid
  end.
Proof.
  induction cs as [|c cs IH] using rev_ind; [done|]. rewrite foldl_snoc, rev_unit. simpl. unfold addClaim at 1. case_bool_decide as Hc.
  - rewrite Hc. apply lookup_insert_eq.
  - rewrite <- IH. destruct (cl_session c) as [s|]; [|done]. apply lookup_insert_ne. congruence.
Qed.

(** C40. The reconciler never acts on part of the supplier's claims. The query
    answers exactly when the node's pages, followed from the first by their
    keys, come to an end within ten thousand; and then it holds every session
    of every page with the state and the root of its last claim there, and no
    other session. A failed page, a key that repeats itself, or a walk that does
    not end is an error and never a shorter answer. A status this build does
    not know is neither validated nor rejected. *)
Theorem claim_pages_complete AllClaims answer :
  GetSupplierSessionStates AllClaims = Ok answer <->
  exists ps, serves AllClaims "" ps /\ (List.length ps <= maxInclusionPages)%nat /\
    forall sid, answer !! sid =
      match List.find (fun c => bool_decide (cl_session c = Some sid)) (rev (claims_of ps)) with
      | Some c => Some (mkSessionClaim (match cl_status c with
                                        | VALIDATED => SessionProofValidated
                                        | INVALID => SessionProofRejected
                                        | PENDING_VALIDATION => SessionProofPending
                                        | OtherStatus _ => SessionProofUnknown
                                        end) (cl_root c))
      | None => None
      end.
Proof.
  unfold GetSupplierSessionStates. rewrite loop_exact. split; intros (ps & Hs & Hl & Ha); exists ps; (split; [done|]); (split; [done|]).
  - intros sid. rewrite Ha, added_lookup, lookup_empty. done.
  - apply map_eq. intros sid. rewrite Ha, added_lookup, lookup_empty. done.
Qed.
