(* ===== verification/Program.v ===== *)
(** * Programs that call out

    Code that mostly calls others (the chain, stores, pools) is a program of
    calls: each call is a value, [answer] gives the type of what comes back, and
    nothing is assumed of an answer unless a theorem says so. [runs] is the
    relation of a program with the calls it makes, newest first, and its result;
    [interp] runs it against a handler; [wp] is the induction principle of its
    theorems: a postcondition that holds whatever the answers are. *)

From S2P Require Import Prelude.

Local Open Scope list_scope.

Class Effect (call : Type) := answer : call -> Type.

Section Program.
Context {call : Type} `{E : !Effect call}.

Inductive prog (A : Type) : Type :=
| Ret (a : A)
| Do (c : call) (k : answer c -> prog A).
#[global] Arguments Ret {A} a.
#[global] Arguments Do {A} c k.

Record event := Ev { ev_call : call; ev_answer : answer ev_call }.

Fixpoint pbind {A B} (p : prog A) (f : A -> prog B) : prog B :=
  match p with
  | Ret a => f a
  | Do c k => Do c (fun x => pbind (k x) f)
  end.

Definition perform (c : call) : prog (answer c) := Do c Ret.

Inductive runs {A} : prog A -> list event -> list event -> A -> Prop :=
| runs_ret a l : runs (Ret a) l l a
| runs_do c k x l l' a : runs (k x) (Ev c x :: l) l' a -> runs (Do c k) l l' a.

(** A handler answers a call and moves its own state. *)
Fixpoint interp {W A} (h : forall c, W -> W * answer c) (p : prog A) (w : W) (l : list event) : W * list event * A :=
  match p with
  | Ret a => (w, l, a)
  | Do c k => let '(w, x) := h c w in interp h (k x) w (Ev c x :: l)
  end.

Fixpoint wp {A} (p : prog A) (l : list event) (Q : list event -> A -> Prop) : Prop :=
  match p with
  | Ret a => Q l a
  | Do c k => forall x, wp (k x) (Ev c x :: l) Q
  end.

Lemma interp_runs {W A} (h : forall c, W -> W * answer c) (p : prog A) w l w' l' a :
  interp h p w l = (w', l', a) -> runs p l l' a.
Proof.
  revert w l. induction p as [b|c k IH]; simpl; intros w l.
  - intros [= <- <- <-]. constructor.
  - destruct (h c w) as [w1 x]. intros H. econstructor. eauto.
Qed.

Lemma wp_runs {A} (p : prog A) l l' a Q : wp p l Q -> runs p l l' a -> Q l' a.
Proof. intros Hw Hr. induction Hr; simpl in Hw; auto. Qed.

Lemma wp_mono {A} (p : prog A) l (Q Q' : list event -> A -> Prop) :
  (forall l' a, Q l' a -> Q' l' a) -> wp p l Q -> wp p l Q'.
Proof. intros HQ. revert l. induction p as [a|c k IH]; simpl; intros l; auto. Qed.

Lemma wp_and {A} (p : prog A) l (Q Q' : list event -> A -> Prop) :
  wp p l Q -> wp p l Q' -> wp p l (fun l' a => Q l' a /\ Q' l' a).
Proof. revert l. induction p as [a|c k IH]; simpl; intros l; auto. Qed.

Lemma wp_assume {A} (F : Prop) (p : prog A) l Q : (F -> wp p l Q) -> wp p l (fun l' a => F -> Q l' a).
Proof. revert l. induction p as [a|c k IH]; simpl; intros l; auto. Qed.

Lemma wp_bind {A B} (p : prog A) (f : A -> prog B) l Q :
  wp p l (fun l' a => wp (f a) l' Q) -> wp (pbind p f) l Q.
Proof. revert l. induction p as [a|c k IH]; simpl; intros l; auto. Qed.

(** The calls are only added to. *)
Lemma wp_grows {A} (p : prog A) l : wp p l (fun l' _ => forall e, e ∈ l -> e ∈ l').
Proof.
  revert l. induction p as [a|c k IH]; simpl; intros l; [auto|]. intros x.
  eapply wp_mono; [|apply IH]. intros l' ? Hsub e He. apply Hsub. set_solver.
Qed.

(** A postcondition together with the growth of the calls. *)
Lemma wp_frame {A} (p : prog A) l (Q : list event -> A -> Prop) :
  wp p l Q -> wp p l (fun l' a => (forall e, e ∈ l -> e ∈ l') /\ Q l' a).
Proof. intros. apply wp_and; [apply wp_grows|done]. Qed.

(** ** Loops *)

Fixpoint each {A} (f : A -> prog unit) (xs : list A) : prog unit :=
  match xs with
  | [] => Ret tt
  | x :: xs => pbind (f x) (fun _ => each f xs)
  end.

Fixpoint collect {A B} (f : A -> prog B) (xs : list A) : prog (list B) :=
  match xs with
  | [] => Ret []
  | x :: xs => pbind (f x) (fun y => pbind (collect f xs) (fun ys => Ret (y :: ys)))
  end.

Definition when (b : bool) (p : prog unit) : prog unit := if b then p else Ret tt.

(** An invariant of the calls, and what a turn establishes for good. *)
Lemma wp_each {A} (f : A -> prog unit) (P : list event -> Prop) (F : A -> list event -> Prop) xs l :
  P l ->
  (forall x l, x ∈ xs -> P l -> wp (f x) l (fun l' _ => P l' /\ F x l')) ->
  (forall x l l', (forall e, e ∈ l -> e ∈ l') -> F x l -> F x l') ->
  wp (each f xs) l (fun l' _ => P l' /\ forall x, x ∈ xs -> F x l').
Proof.
  intros HP Hf Hmono. revert l HP. induction xs as [|x xs IH]; intros l HP; simpl.
  - split; [done|]. intros ? []%not_elem_of_nil.
  - apply wp_bind. eapply wp_mono; [|apply Hf; [left|done]]. intros l1 _ [HP1 HF1].
    eapply wp_mono; [|apply wp_frame, IH; [|done]].
    + intros l2 _ (Hsub & HP2 & Hall). split; [done|]. intros y [->|Hy]%elem_of_cons; eauto.
    + intros y l0 Hy. apply Hf. by right.
Qed.

Lemma wp_collect {A B} (f : A -> prog B) (P : list event -> Prop) (F : A -> B -> list event -> Prop) xs l :
  P l ->
  (forall x l, x ∈ xs -> P l -> wp (f x) l (fun l' y => P l' /\ F x y l')) ->
  (forall x y l l', (forall e, e ∈ l -> e ∈ l') -> F x y l -> F x y l') ->
  wp (collect f xs) l (fun l' ys => P l' /\ Forall2 (fun x y => F x y l') xs ys).
Proof.
  intros HP Hf Hmono. revert l HP. induction xs as [|x xs IH]; intros l HP; simpl.
  - by split.
  - apply wp_bind. eapply wp_mono; [|apply Hf; [left|done]]. intros l1 y [HP1 HF1]. apply wp_bind.
    eapply wp_mono; [|apply wp_frame, IH; [|done]].
    + intros l2 ys (Hsub & HP2 & Hall). simpl. split; [done|]. constructor; eauto.
    + intros z l0 Hz. apply Hf. by right.
Qed.

(** ** Programs that make no call of a kind *)

Definition calls_of (P : call -> bool) (l : list event) : list event := List.filter (fun e => P (ev_call e)) l.
Definition quiet {A} (P : call -> bool) (p : prog A) : Prop := forall l, wp p l (fun l' _ => calls_of P l' = calls_of P l).

Lemma quiet_wp {A} P (p : prog A) l : quiet P p -> wp p l (fun l' _ => calls_of P l' = calls_of P l).
Proof. done. Qed.
Lemma quiet_ret {A} P (a : A) : quiet P (Ret a).
Proof. by intros l. Qed.
Lemma quiet_do {A} P c (k : answer c -> prog A) : P c = false -> (forall a, quiet P (k a)) -> quiet P (Do c k).
Proof. intros Hc Hk l. simpl. intros a. eapply wp_mono; [|apply Hk]. intros l' ? ->. unfold calls_of. simpl. by rewrite Hc. Qed.
Lemma quiet_bind {A B} P (p : prog A) (f : A -> prog B) : quiet P p -> (forall a, quiet P (f a)) -> quiet P (pbind p f).
Proof. intros Hp Hf l. apply wp_bind. eapply wp_mono; [|apply Hp]. intros l1 a H1. eapply wp_mono; [|apply Hf]. simpl in *. congruence. Qed.
Lemma quiet_each {A} P (f : A -> prog unit) xs : (forall x, quiet P (f x)) -> quiet P (each f xs).
Proof. intros Hf. induction xs as [|x xs IH]; simpl; [apply quiet_ret|]. by apply quiet_bind. Qed.
Lemma quiet_collect {A B} P (f : A -> prog B) xs : (forall x, quiet P (f x)) -> quiet P (collect f xs).
Proof. intros Hf. induction xs as [|x xs IH]; simpl; [apply quiet_ret|]. apply quiet_bind; [done|]. intros y. apply quiet_bind; [done|]. intros ys. apply quiet_ret. Qed.
End Program.

(** Walks through a program's text. *)
Ltac quiet := repeat first
  [ apply quiet_ret | apply quiet_each; intros ? | apply quiet_collect; intros ? | apply quiet_bind; [|intros ?] | apply quiet_do; [done|intros ?]
  | progress unfold perform, when | case_match ].

Arguments prog call {E} A.
Arguments event call {E}.

Declare Scope prog_scope.
Delimit Scope prog_scope with prog.
Notation "x <- e ; k" := (pbind e (fun x => k)) (at level 100, e at next level, right associativity) : prog_scope.
Notation "'unpack' x <- e ; k" := (pbind e (fun y => match y with x => k end)) (at level 100, x pattern, e at next level, right associativity) : prog_scope.
Notation "e ;; k" := (pbind e (fun _ => k)) (at level 100, right associativity) : prog_scope.

(** Performing a call is one step of [wp]. *)
Ltac wp_step := lazymatch goal with
  | |- wp (pbind (perform _) _) _ _ => simpl; let x := fresh "x" in intros x
  | |- wp (pbind _ _) _ _ => apply wp_bind
  | |- wp (Ret _) _ _ => simpl
  end.

(** ** Results that arrive in any order *)

(** Taking the results out one by one at the given positions. *)
Fixpoint shuffle {A} (picks : list nat) (xs : list A) : list A :=
  match picks with
  | [] => xs
  | n :: picks =>
      match xs !! (n mod length xs)%nat with
      | Some x => x :: shuffle picks (take (n mod length xs) xs ++ drop (S (n mod length xs)) xs)
      | None => xs
      end
  end.

Lemma shuffle_perm {A} picks (xs : list A) : shuffle picks xs ≡ₚ xs.
Proof.
  revert xs. induction picks as [|n picks IH]; intros xs; simpl; [done|].
  destruct (xs !! (n mod length xs)%nat) as [x|] eqn:Hx; [|done].
  rewrite IH. etrans; [apply Permutation_middle|]. by rewrite take_drop_middle.
Qed.
