(* ===== verification/LifecycleCallback.v ===== *)
(** * The lifecycle callback: data and shared steps (miner/lifecycle_callback.go)

    What the claim cycle (ClaimCycle) and the proof cycle (ProofCycle) share: the
    calls they make, grouping by window, waiting for a height, giving a group
    back to a later block, signing or sending again, and the entries handed to
    the inclusion reconciler. The chain, the trees, the coordinator, the
    transaction client and the rebroadcast store are calls of a program
    (Program): their answers are arbitrary here, and what the other components
    are proved to do is what narrows them.

    The delays a test can configure through the environment, metrics and logs
    are not modelled. Builds run on a pool; each touches its own session only,
    so they are run one after the other and their results arrive in any order
    ([CArrivals]). *)

From stdpp Require Import sorting.
From S2P Require Import Prelude Program SessionState StoreSpec SessionLifecycle GoFloat RebroadcastStore TxClient InclusionReconciler ClaimPages.
From Stdlib Require Import Ascii String.

Local Open Scope string_scope.
Local Open Scope Z_scope.

(** ** Messages *)

Record SessionHeader := mkHeader {
  sh_SessionId : string;
  sh_ApplicationAddress : string;
  sh_ServiceId : string;
  sh_SessionStartBlockHeight : Z;
  sh_SessionEndBlockHeight : Z
}.

(** A claim to create, which is also what the reward is computed on. *)
Record MsgCreateClaim := mkClaim { mc_SupplierOperatorAddress : string; mc_SessionHeader : SessionHeader; mc_RootHash : string }.
Record MsgSubmitProof := mkProof { mp_SupplierOperatorAddress : string; mp_SessionHeader : SessionHeader; mp_Proof : string }.

Definition headerOf (snapshot : SessionSnapshot) : SessionHeader :=
  mkHeader (SessionID snapshot) (ApplicationAddress snapshot) (ServiceID snapshot) (SessionStartHeight snapshot) (SessionEndHeight snapshot).

(** ** Configuration *)

Record LifecycleCallbackConfig := mkLcConfig {
  ClaimRetryAttempts : Z;
  ProofRetryAttempts : Z;
  BlockTimeSeconds : Z;
  DisablePreProofClaimVerification : bool
}.

(** The attempts NewLifecycleCallback defaults. *)
Definition callbackConfig (c : LifecycleCallbackConfig) : LifecycleCallbackConfig :=
  let pick a := if a <=? 0 then 3 else a in
  mkLcConfig (pick (ClaimRetryAttempts c)) (pick (ProofRetryAttempts c)) (BlockTimeSeconds c) (DisablePreProofClaimVerification c).

(** Which of the optional parts are set. *)
Record Wiring := mkWiring {
  hasCoordinator : bool;
  hasRebroadcastStore : bool;
  hasSubmissionTracker : bool;
  hasDeduplicator : bool;
  hasServiceClient : bool;
  hasSessionClient : bool;
  hasProofChecker : bool;
  hasDifficultyClient : bool;
  hasProofQueryClient : bool;
  hasRootProvider : bool;
  hasProofShape : bool;
  hasCompactor : bool
}.

(** ** Calls *)

(** An error with the text Error() gives it. *)
Record SubmitErr := mkSubmitErr { se_err : TxError; se_text : string }.

(** What the select of waitForHeight received before its context ended. *)
Inductive WaitEvent := WBlock (height : Z) | WSubClosed | WTick (height : Z).

(** GetClaim: a claim, with its status when the type tells it; no claim, from a
    node at this height; or no answer. *)
Inductive ClaimReply := ClaimIs (status : option ClaimProofStatus) | ClaimAbsent (answeredHeight : Z) | ClaimNoAnswer.

(** GetTreeRoot fails for good, or for now. *)
Inductive RootErr := RootLost | RootBusy.

Record ProofParams := mkProofParams { pp_Threshold : Z; pp_Probability : float64 }.

(** What the submission tracker is told. *)
Record ClaimTrack := mkClaimTrack {
  ct_snapshot : SessionSnapshot;
  ct_rootHash : string;
  ct_txHash : string;
  ct_success : bool;
  ct_errText : string;
  ct_earliest : Z;
  ct_current : Z
}.
Record ProofTrack := mkProofTrack {
  pt_snapshot : SessionSnapshot;
  pt_proof : string;
  pt_txHash : string;
  pt_success : bool;
  pt_errText : string;
  pt_earliest : Z;
  pt_current : Z;
  pt_seed : string
}.

(** The money the callback books itself (miner/metrics.go). *)
Inductive ProofBook :=
| PkProbabilisticProved (snap : SessionSnapshot)
| PkProved (snap : SessionSnapshot)
| PkTxError (snap : SessionSnapshot) (resolvable : bool)
| PkWindowClosed (snap : SessionSnapshot)
| PkClaimWindowClosed (snap : SessionSnapshot).

Inductive Call :=
(* the chain *)
| CParams (height : Z)
| CHeight
| CWait (timeout : option Z)
| CBlock (height : Z)
| CFee
| CCupr (serviceID : string) (height : Z)
| CSession (app serviceID : string) (startHeight : Z)
| CDifficulty (serviceID : string) (height : Z)
| CProofParams
| CGetClaim (supplier sessionID : string)
| CUpgrade
(* the trees *)
| CFlush (sessionID : string)
| CProve (weighted : bool) (sessionID seed : string)
| CTreeRoot (sessionID : string)
| CDeleteTree (sessionID : string)
| CCompact (sessionID : string)
| CCleanupDedup (sessionID : string)
(* the transaction client *)
| CBlockTime
| CResend (ph : RebroadcastPhase) (p : SignedTxPayload)
| CCreateClaims (timeoutHeight budget : Z) (regime : string) (msgs : list MsgCreateClaim)
| CSubmitProofs (timeoutHeight budget : Z) (regime : string) (msgs : list MsgSubmitProof)
(* the coordinator; the answer says whether it returned no error *)
| COnSessionClaimed (sessionID rootHash txHash : string)
| COnClaimTxError (sessionID verdict : string)
| COnClaimDeferred (sessionID : string)
| COnClaimSkipped (sessionID : string)
| CClaimWindowClosed (snapshot : SessionSnapshot) (close : Z)
| COnProofSubmitted (sessionID txHash : string)
| COnSessionProved (sessionID : string)
| COnProofTxError (sessionID : string)
| COnProofDeferred (sessionID : string)
| COnClaimMissing (sessionID : string)
| COnProbabilisticProved (sessionID : string)
| COnProofWindowClosed (snapshot : SessionSnapshot)
(* the rebroadcast store *)
| CPut (ph : RebroadcastPhase) (snapshot : SessionSnapshot) (entry : rebroadcastEntry)
(* the snapshot the manager shares *)
| CSetState (sessionID : string) (st : SessionState)
| CSetRoot (sessionID rootHash : string)
(* the shape of proofs, shared by the suppliers; notAppliedAt is only raised *)
| CShapeWeighted
| CShapeNotAppliedAt
| CShapeSetNotApplied (height : Z)
| CShapeSetWeighted
(* books and tracker *)
| CBook (b : ProofBook)
| CTrackClaim (t : ClaimTrack)
| CTrackProof (t : ProofTrack)
(* the pool's results and the pause between attempts, [true] when the context ended *)
| CArrivals
| CPause.

Section Calls.
Context {Params : Type} {Difficulty : Type}.

#[export] Instance CallEffect : Effect Call := fun c =>
  match c with
  | CParams _ => option Params
  | CHeight | CBlockTime | CFee | CShapeNotAppliedAt => Z
  | CWait _ => list WaitEvent
  | CBlock _ | CFlush _ | CProve _ _ _ => option string
  | CCupr _ _ | CUpgrade => option Z
  | CSession _ _ _ => option (option SessionHeader)
  | CDifficulty _ _ => option Difficulty
  | CProofParams => option ProofParams
  | CGetClaim _ _ => ClaimReply
  | CTreeRoot _ => result string RootErr
  | CResend _ _ => (string * option SubmitErr)%type
  | CCreateClaims _ _ _ _ | CSubmitProofs _ _ _ _ => (string * SignedTxPayload * option SubmitErr)%type
  | COnSessionClaimed _ _ _ | COnClaimTxError _ _ | COnClaimDeferred _ | COnClaimSkipped _ | COnProofSubmitted _ _ | COnSessionProved _ | COnProofTxError _
  | COnProofDeferred _ | COnClaimMissing _ | COnProbabilisticProved _ | COnProofWindowClosed _ | CPut _ _ _ | CShapeWeighted | CPause => bool
  | CArrivals => list nat
  | CDeleteTree _ | CCompact _ | CCleanupDedup _ | CClaimWindowClosed _ _ | CSetState _ _ | CSetRoot _ _ | CShapeSetNotApplied _ | CShapeSetWeighted
  | CBook _ | CTrackClaim _ | CTrackProof _ => unit
  end.
End Calls.

(** ** Groups *)

(** Groups in the order their first session came, each in arrival order. *)
Fixpoint addToGroup (snapshot : SessionSnapshot) (groups : list (list SessionSnapshot)) : list (list SessionSnapshot) :=
  match groups with
  | [] => [[snapshot]]
  | g :: groups =>
      match g with
      | first :: _ => if SessionEndHeight first =? SessionEndHeight snapshot then (g ++ [snapshot])%list :: groups
                      else g :: addToGroup snapshot groups
      | [] => g :: addToGroup snapshot groups
      end
  end.

Definition groupEnd (g : list SessionSnapshot) : Z := match g with first :: _ => SessionEndHeight first | [] => 0 end.

(** A stable sort by the end height of the first session. *)
Fixpoint insertGroup (g : list SessionSnapshot) (groups : list (list SessionSnapshot)) : list (list SessionSnapshot) :=
  match groups with
  | [] => [g]
  | h :: groups => if groupEnd h <=? groupEnd g then h :: insertGroup g groups else g :: h :: groups
  end.
Definition orderGroupsByWindow (groups : list (list SessionSnapshot)) : list (list SessionSnapshot) :=
  foldl (fun acc g => insertGroup g acc) [] groups.

Definition groupByEndHeight (snapshots : list SessionSnapshot) : list (list SessionSnapshot) :=
  orderGroupsByWindow (foldl (fun groups s => addToGroup s groups) [] snapshots).
Definition groupOnePerSession (snapshots : list SessionSnapshot) : list (list SessionSnapshot) :=
  orderGroupsByWindow (map (fun s => [s]) snapshots).

Definition withoutSession (snapshots : list SessionSnapshot) (sessionID : string) : list SessionSnapshot :=
  List.filter (fun s => negb (String.eqb (SessionID s) sessionID)) snapshots.

(** ** Errors *)

(** The message of the batch the chain named. *)
Definition namedMessageIndex (err : SubmitErr) (batchSize : nat) : option nat :=
  match te_rejection (se_err err) with
  | Some rejection =>
      match rej_MsgIndex rejection with
      | Some n => if (n <? 0) || (Z.of_nat batchSize <=? n) then None else Some (Z.to_nat n)
      | None => None
      end
  | None => None
  end.

(** ** Shared steps *)

Section Steps.
Context {Params : Type} `{SW : !SharedWindows Params} {Difficulty : Type}.
Abbreviation prog := (prog Call (E := CallEffect (Params := Params) (Difficulty := Difficulty))).
Abbreviation perform c := (perform (E := CallEffect (Params := Params) (Difficulty := Difficulty)) c).
Variables (cfg : LifecycleCallbackConfig) (wired : Wiring).

Local Open Scope prog_scope.

(** [waitForHeight]: the loop over what the select receives; the events end
    when the context does. *)
Fixpoint waitLoop (targetHeight : Z) (evs : list WaitEvent) : bool :=
  match evs with
  | [] => false
  | WSubClosed :: evs => waitLoop targetHeight evs
  | WBlock h :: evs | WTick h :: evs => if h <? targetHeight then waitLoop targetHeight evs else true
  end.

(** [windowContext]: the deadline; [None] without a block time. *)
Definition windowTimeout (closeHeight height : Z) : option Z :=
  if BlockTimeSeconds cfg <=? 0 then None
  else Some (wrap64 (wrap64 ((Z.max (closeHeight - height) 0 + 1) * BlockTimeSeconds cfg) * second)).

(** [waitForHeight] under [windowContext]. *)
Definition waitForHeight (closeHeight targetHeight : Z) : prog bool :=
  timeout <- (if BlockTimeSeconds cfg <=? 0 then Ret None else h <- perform CHeight; Ret (windowTimeout closeHeight h));
  h <- perform CHeight;
  if targetHeight <=? h then Ret true
  else evs <- perform (CWait timeout); Ret (waitLoop targetHeight evs).

(** [waitForBlock]: the hash of the block. *)
Definition waitForBlock (closeHeight targetHeight : Z) : prog (option string) :=
  reached <- waitForHeight closeHeight targetHeight;
  if (reached : bool) then perform (CBlock targetHeight) else Ret None.

Definition deferClaims (snapshots : list SessionSnapshot) : prog unit :=
  if negb (hasCoordinator wired) then Ret tt
  else each (fun s => ok <- perform (COnClaimDeferred (SessionID s));
                      if (ok : bool) then perform (CSetState (SessionID s) SessionStateActive) else Ret tt) snapshots.

Definition deferProof (s : SessionSnapshot) : prog unit :=
  if negb (hasCoordinator wired) then Ret tt
  else ok <- perform (COnProofDeferred (SessionID s));
       if (ok : bool) then perform (CSetState (SessionID s) SessionStateClaimed) else Ret tt.
Definition deferProofs (snapshots : list SessionSnapshot) : prog unit := each deferProof snapshots.

(** [markAndCountClaimWindowClosed] of every session: SessionCoordinator. *)
Definition closeClaims (claimWindowClose : Z) (snapshots : list SessionSnapshot) : prog unit :=
  each (fun s => perform (CClaimWindowClosed s claimWindowClose)) snapshots.

Definition buildSessionHeader (s : SessionSnapshot) : prog SessionHeader :=
  if negb (hasSessionClient wired) then Ret (headerOf s)
  else session <- perform (CSession (ApplicationAddress s) (ServiceID s) (SessionStartHeight s));
       Ret (match session with Some (Some header) => header | _ => headerOf s end).

Definition canReinject (previous : SignedTxPayload) (previousErr : option SubmitErr) : prog bool :=
  match previousErr with
  | None => Ret false
  | Some e =>
      if String.eqb (p_Bytes previous) "" then Ret false
      else if negb (RejectionPreservesBytes (Some (se_err e))) then Ret false
      else chainNow <- perform CBlockTime; Ret (reusable previous chainNow)
  end.

Definition resendOrSignClaims (timeoutHeight budget : Z) (regime : string) (previous : SignedTxPayload) (previousErr : option SubmitErr)
    (msgs : list MsgCreateClaim) : prog (string * SignedTxPayload * option SubmitErr) :=
  again <- canReinject previous previousErr;
  if (again : bool) then unpack (hash, err) <- perform (CResend RebroadcastPhaseClaim previous); Ret (hash, previous, err)
  else perform (CCreateClaims timeoutHeight budget regime msgs).

Definition resendOrSignProofs (timeoutHeight budget : Z) (regime : string) (previous : SignedTxPayload) (previousErr : option SubmitErr)
    (msgs : list MsgSubmitProof) : prog (string * SignedTxPayload * option SubmitErr) :=
  again <- canReinject previous previousErr;
  if (again : bool) then unpack (hash, err) <- perform (CResend RebroadcastPhaseProof previous); Ret (hash, previous, err)
  else perform (CSubmitProofs timeoutHeight budget regime msgs).

(** A window refusal is final when the chain counted the height, or our own
    height has the window closed. *)
Definition windowRefusalIsFinal (err : SubmitErr) (windowClose : Z) : prog bool :=
  if errors_Is (Some (se_err err)) ErrTxWindowExpired then Ret true
  else h <- perform CHeight; Ret (windowClose <=? h).

Definition isWindowRefusal (phrase1 phrase2 : string) (err : SubmitErr) : bool :=
  errors_Is (Some (se_err err)) ErrTxWindowExpired || contains phrase1 (se_text err) || contains phrase2 (se_text err).

(** [persistRebroadcastEntry]: whether the entry was stored. The entry is
    InclusionReconciler's. *)
Definition putEntry (ph : RebroadcastPhase) (s : SessionSnapshot) (p : Submission) : prog bool :=
  perform (CPut ph s (newEntry (ServiceID s) p)).

(** ** Callbacks of the terminal states

    Each runs after its state was stored ([terminal_callback_after_persist] of
    LifecycleSafety) and cleans the session up; the answer says whether it
    returned no error. A failed delete or cleanup is logged only. *)

Definition cleanupDedup (s : SessionSnapshot) : prog unit := when (hasDeduplicator wired) (perform (CCleanupDedup (SessionID s))).

Definition OnSessionActive (s : SessionSnapshot) : prog bool := Ret true.

Definition OnSessionProved (s : SessionSnapshot) : prog bool :=
  perform (CDeleteTree (SessionID s)) ;;
  (if hasCoordinator wired then perform (COnSessionProved (SessionID s)) else Ret true) ;;
  cleanupDedup s ;; Ret true.

Definition OnProbabilisticProved (s : SessionSnapshot) : prog bool :=
  perform (CDeleteTree (SessionID s)) ;;
  ok <- (if hasCoordinator wired then perform (COnProbabilisticProved (SessionID s)) else Ret true);
  if (ok : bool) then cleanupDedup s ;; Ret true else Ret false.

Definition OnClaimSkipped (s : SessionSnapshot) : prog bool :=
  perform (CDeleteTree (SessionID s)) ;;
  ok <- (if hasCoordinator wired then perform (COnClaimSkipped (SessionID s)) else Ret true);
  if (ok : bool) then cleanupDedup s ;; Ret true else Ret false.

Definition OnClaimWindowClosed (s : SessionSnapshot) : prog bool :=
  perform (CDeleteTree (SessionID s)) ;; perform (CBook (PkClaimWindowClosed s)) ;; Ret true.
Definition OnClaimTxError (s : SessionSnapshot) : prog bool := perform (CDeleteTree (SessionID s)) ;; Ret true.
Definition OnProofWindowClosed (s : SessionSnapshot) : prog bool :=
  perform (CDeleteTree (SessionID s)) ;; perform (CBook (PkWindowClosed s)) ;; Ret true.
Definition OnProofTxError (s : SessionSnapshot) : prog bool := perform (CDeleteTree (SessionID s)) ;; Ret true.

Definition OnClaimedSessionsResumed (sessions : list SessionSnapshot) : prog unit :=
  when (hasCompactor wired) (each (fun s => perform (CCompact (SessionID s))) sessions).
End Steps.
