(* ===== verification/ClaimCycle.v ===== *)
(** * The claim cycle (LifecycleCallback.OnSessionsNeedClaim)

    A supplier's sessions whose claim is due, grouped by window: the group waits
    for its window, its trees are flushed and its claims built, and one
    transaction carries the group. A refused transaction is sent again, or
    signed again, or loses the one message the chain named; what fails in the
    end is handed to the inclusion reconciler. *)

From S2P Require Import Prelude Program SessionState StoreSpec SessionLifecycle SessionCoordinator GoFloat RebroadcastStore TxClient InclusionReconciler ClaimPages LifecycleCallback.
From Stdlib Require Import Ascii String.

Local Open Scope string_scope.
Local Open Scope Z_scope.

(** ** Builds *)

Inductive SkipReason := skipEmptyTree | skipCuprMismatch | skipUnprofitable.

(** A claim that was built: claimMsg, rootHash and snapshot of a
    claimBuildResult. *)
Record Built := mkBuilt { bl_snapshot : SessionSnapshot; bl_msg : MsgCreateClaim; bl_root : string }.

Inductive claimBuildResult :=
| BuildOk (b : Built)
| BuildSkipped (s : SessionSnapshot) (reason : SkipReason)
| BuildFailed (s : SessionSnapshot).

Definition isClaimCUPRConsistent (smstSum smstCount cupr : Z) : bool :=
  if cupr =? 0 then true else smstSum =? wrapu64 (smstCount * cupr).

(** [collectClaimBuildResults]: the three lists in order of arrival. *)
Definition built_of (rs : list claimBuildResult) : list Built := omap (fun r => match r with BuildOk b => Some b | _ => None end) rs.
Definition skipped_of (rs : list claimBuildResult) : list (SessionSnapshot * SkipReason) :=
  omap (fun r => match r with BuildSkipped s why => Some (s, why) | _ => None end) rs.

(** The batch while it is being sent: the claims left in it, the group's
    sessions that still share its fate, the transaction signed last and how the
    last attempt failed. *)
Record Batch := mkBatch {
  ba_remaining : list Built;
  ba_group : list SessionSnapshot;
  ba_signed : SignedTxPayload;
  ba_lastErr : option SubmitErr
}.

(** How sending ended. *)
Inductive SubmitEnd :=
| SubmitClaimed (claimed : list string)
| SubmitNodeBehind
| SubmitWindowClosed
| SubmitCancelled
| SubmitFailed (b : Batch) (err : SubmitErr)
| SubmitStuck.

Inductive CycleErr := CeParams | CeWait | CeTooLate | CeClosedWhileBuilding | CeSubmit | CeCancelled | CeBuild | CeSeed.

(** How a group ended: the sessions claimed, what it adds to the joined error,
    and whether the cycle stops there. *)
Record GroupEnd := mkGroupEnd { ge_claimed : list string; ge_err : option CycleErr; ge_stop : bool }.

Definition minBlocksRequired : Z := 2.

(** [smt.MerkleSumRoot]'s readers and the reward of a claim are library code. *)
Section ClaimCycle.
Context {Params : Type} `{SW : !SharedWindows Params} {Difficulty : Type}.
Variables (cfg : LifecycleCallbackConfig) (wired : Wiring).
Variables (smt_Count smt_Sum : string -> option Z) (marshal_claim : MsgCreateClaim -> option string).
Variable GetClaimeduPOKT : MsgCreateClaim -> Params -> Difficulty -> option (option Z).
Abbreviation prog := (prog Call (E := CallEffect (Params := Params) (Difficulty := Difficulty))).
Abbreviation perform c := (perform (E := CallEffect (Params := Params) (Difficulty := Difficulty)) c).

Local Open Scope prog_scope.

(** [evaluateClaimCUPRGuard]; a failed query allows the claim. *)
Definition evaluateClaimCUPRGuard (serviceID : string) (sessionStartHeight smstSum smstCount : Z) : prog bool :=
  if negb (hasServiceClient wired) then Ret true
  else cupr <- perform (CCupr serviceID sessionStartHeight);
       Ret (match cupr with Some cupr => isClaimCUPRConsistent smstSum smstCount cupr | None => true end).

(** [getClaimReward]; [None] when it cannot be computed. *)
Definition getClaimReward (claim : MsgCreateClaim) (serviceID : string) : prog (option (option Z)) :=
  if negb (hasProofChecker wired) || negb (hasDifficultyClient wired) then Ret None
  else
    let start := sh_SessionStartBlockHeight (mc_SessionHeader claim) in
    difficulty <- perform (CDifficulty serviceID start);
    match difficulty with
    | None => Ret None
    | Some difficulty =>
        params <- perform (CParams start);
        Ret (match params with Some params => GetClaimeduPOKT claim params difficulty | None => None end)
    end.

(** Whether a claim with this reward is not worth its fees; Int64 panics on an
    amount that does not fit, which [None] is. *)
Definition unprofitable (reward : option (option Z)) (cost : Z) : option bool :=
  match reward with
  | None => Some false
  | Some None => Some true
  | Some (Some amount) => if decide (in_int64 amount) then Some (wrapu64 amount <=? cost) else None
  end.

(** The build of one session's claim. A panic is a failed build. *)
Definition buildClaim (claimAndProofCostUpokt : Z) (snap : SessionSnapshot) : prog claimBuildResult :=
  flushed <- perform (CFlush (SessionID snap));
  match flushed with
  | None => Ret (BuildFailed snap)
  | Some rootHash =>
      if negb (Nat.eqb (String.length rootHash) SMSTRootLen) then Ret (BuildFailed snap)
      else match smt_Count rootHash, smt_Sum rootHash with
           | Some smstCount, Some smstSum =>
               if (smstCount =? 0) || (smstSum =? 0) then Ret (BuildSkipped snap skipEmptyTree)
               else
                 allowed <- evaluateClaimCUPRGuard (ServiceID snap) (SessionStartHeight snap) smstSum smstCount;
                 if negb allowed then Ret (BuildSkipped snap skipCuprMismatch)
                 else
                   header <- buildSessionHeader wired snap;
                   let claim := mkClaim (SupplierOperatorAddress snap) header rootHash in
                   if 0 <? claimAndProofCostUpokt then
                     reward <- getClaimReward claim (ServiceID snap);
                     Ret (match unprofitable reward claimAndProofCostUpokt with
                          | Some true => BuildSkipped snap skipUnprofitable
                          | Some false => BuildOk (mkBuilt snap claim rootHash)
                          | None => BuildFailed snap
                          end)
                   else Ret (BuildOk (mkBuilt snap claim rootHash))
           | _, _ => Ret (BuildFailed snap)
           end
  end.

Definition finaliseSkipped (skipped : SessionSnapshot * SkipReason) : prog unit :=
  match snd skipped with
  | skipUnprofitable | skipCuprMismatch => OnClaimSkipped wired (fst skipped) ;; Ret tt
  | skipEmptyTree => Ret tt
  end.

(** ** Sending *)

(** [settleEjectedClaim]: the named message's own verdict. *)
Definition settleEjectedClaim (ejected : Built) (submitErr : SubmitErr) (earliestClaimHeight budget : Z) (regime : string) : prog unit :=
  let s := bl_snapshot ejected in
  currentHeight <- perform CHeight;
  recoverable <- (if negb (hasRebroadcastStore wired) then Ret false
                  else match marshal_claim (bl_msg ejected) with
                       | None => Ret false
                       | Some msgBytes => putEntry RebroadcastPhaseClaim s (mkSubmission msgBytes currentHeight "" no_payload None budget regime)
                       end);
  let verdict := if (recoverable : bool) then ClaimTxErrorAttempt
                 else if negb (hasRebroadcastStore wired) then ClaimTxErrorForgone else ClaimTxErrorEjectedUnrecoverable in
  (if hasCoordinator wired then perform (COnClaimTxError (SessionID s) verdict) else Ret true) ;;
  when (hasSubmissionTracker wired)
    (perform (CTrackClaim (mkClaimTrack s (bl_root ejected) "" false (se_text submitErr) earliestClaimHeight currentHeight))).

(** [persistRebroadcastEntries] of a batch: a message that cannot be marshalled
    and a failed write are logged only. *)
Definition persistClaims (batch : list Built) (submitHeight : Z) (txHash : string) (signed : SignedTxPayload) (attemptErr : option TxError)
    (budget : Z) (regime : string) : prog unit :=
  each (fun b => match marshal_claim (bl_msg b) with
                 | None => Ret tt
                 | Some msgBytes =>
                     putEntry RebroadcastPhaseClaim (bl_snapshot b) (mkSubmission msgBytes submitHeight txHash signed attemptErr budget regime) ;; Ret tt
                 end) batch.

(** What an accepted transaction sets off. *)
Definition claimsAccepted (batch : list Built) (claimTxHash : string) (signed : SignedTxPayload) (earliestClaimHeight budget : Z) (regime : string)
  : prog (list string) :=
  currentHeight <- perform CHeight;
  each (fun b =>
    (if hasCoordinator wired then perform (COnSessionClaimed (SessionID (bl_snapshot b)) (bl_root b) claimTxHash) else Ret true) ;;
    perform (CSetRoot (SessionID (bl_snapshot b)) (bl_root b))) batch ;;
  when (hasRebroadcastStore wired && negb (String.eqb claimTxHash "")) (persistClaims batch currentHeight claimTxHash signed None budget regime) ;;
  when (hasCompactor wired) (each (fun b => perform (CCompact (SessionID (bl_snapshot b)))) batch) ;;
  when (hasSubmissionTracker wired)
    (each (fun b => perform (CTrackClaim (mkClaimTrack (bl_snapshot b) (bl_root b) claimTxHash true "" earliestClaimHeight currentHeight))) batch) ;;
  Ret (map (fun b => SessionID (bl_snapshot b)) batch).

(** The retry loop. An ejection does not spend an attempt: [fuel] is for both,
    and attempts plus messages are enough ([claim_sends_bounded]). *)
Fixpoint submitClaims (claimWindowClose earliestClaimHeight budget : Z) (regime : string) (fuel : nat) (attempt : Z) (b : Batch) : prog SubmitEnd :=
  match fuel with
  | O => Ret SubmitStuck
  | S fuel =>
      unpack (txHash, signed, submitErr) <- resendOrSignClaims claimWindowClose budget regime (ba_signed b) (ba_lastErr b) (map bl_msg (ba_remaining b));
      match submitErr with
      | None =>
          claimed <- claimsAccepted (ba_remaining b) txHash signed earliestClaimHeight budget regime; Ret (SubmitClaimed claimed)
      | Some err =>
          let windowRefusal := isWindowRefusal "claim window" "claim_window" err in
          final <- (if windowRefusal then windowRefusalIsFinal err claimWindowClose else Ret true);
          if windowRefusal && negb final then deferClaims wired (ba_group b) ;; Ret SubmitNodeBehind
          else if windowRefusal then closeClaims claimWindowClose (ba_group b) ;; Ret SubmitWindowClosed
          else
            let named := if Nat.ltb 1 (List.length (ba_remaining b)) then namedMessageIndex err (List.length (ba_remaining b)) else None in
            match match named with Some n => (ba_remaining b) !! n | None => None end, named with
            | Some ejected, Some n =>
                let b := mkBatch (take n (ba_remaining b) ++ drop (S n) (ba_remaining b)) (withoutSession (ba_group b) (SessionID (bl_snapshot ejected)))
                           no_payload (Some err) in
                settleEjectedClaim ejected err earliestClaimHeight budget regime ;;
                height <- perform CHeight;
                if claimWindowClose <=? height then closeClaims claimWindowClose (ba_group b) ;; Ret SubmitWindowClosed
                else submitClaims claimWindowClose earliestClaimHeight budget regime fuel attempt b
            | _, _ =>
                let b := mkBatch (ba_remaining b) (ba_group b) signed (Some err) in
                let attempt := attempt + 1 in
                if attempt <=? ClaimRetryAttempts cfg then
                  cancelled <- perform CPause;
                  if (cancelled : bool) then Ret SubmitCancelled
                  else submitClaims claimWindowClose earliestClaimHeight budget regime fuel attempt b
                else Ret (SubmitFailed b err)
            end
      end
  end.

(** After the attempts are spent: a batch the node holds is not failed; what is
    left of it goes to the reconciler. *)
Definition claimsFailed (b : Batch) (err : SubmitErr) (earliestClaimHeight budget : Z) (regime : string) : prog unit :=
  let verdict := if hasRebroadcastStore wired then ClaimTxErrorAttempt else ClaimTxErrorForgone in
  (if nothingWasSpent (Some (se_err err)) || negb (hasCoordinator wired) then Ret tt
   else each (fun s => perform (COnClaimTxError (SessionID s) verdict) ;; Ret tt) (ba_group b)) ;;
  when (hasSubmissionTracker wired)
    (each (fun r => height <- perform CHeight;
                    perform (CTrackClaim (mkClaimTrack (bl_snapshot r) (bl_root r) "" false (se_text err) earliestClaimHeight height))) (ba_remaining b)) ;;
  when (hasRebroadcastStore wired)
    (height <- perform CHeight;
     persistClaims (ba_remaining b) height "" (ba_signed b) (Some (se_err err)) budget regime).

(** ** A group *)

Definition claimGroup (group : list SessionSnapshot) : prog GroupEnd :=
  let sessionEndHeight := groupEnd group in
  params <- perform (CParams sessionEndHeight);
  match params with
  | None => deferClaims wired group ;; Ret (mkGroupEnd [] (Some CeParams) false)
  | Some params =>
      let claimWindowOpen := GetClaimWindowOpenHeight params sessionEndHeight in
      let claimWindowClose := GetClaimWindowCloseHeight params sessionEndHeight in
      opened <- waitForHeight cfg claimWindowClose claimWindowOpen;
      if negb opened then deferClaims wired group ;; Ret (mkGroupEnd [] (Some CeWait) false)
      else
        height <- perform CHeight;
        if claimWindowClose - height <=? minBlocksRequired then
          closeClaims claimWindowClose group ;; Ret (mkGroupEnd [] (Some CeTooLate) false)
        else
          let candidates := List.filter (fun s => String.eqb (ClaimTxHash s) "") group in
          cost <- perform CFee;
          results <- collect (buildClaim cost) candidates;
          order <- perform CArrivals;
          let results := shuffle order results in
          each finaliseSkipped (skipped_of results) ;;
          height <- perform CHeight;
          if claimWindowClose <=? height then
            closeClaims claimWindowClose group ;; Ret (mkGroupEnd [] (Some CeClosedWhileBuilding) false)
          else
            let '(budget, regime) := WindowTimeout (claimWindowClose - claimWindowOpen) (BlockTimeSeconds cfg) in
            let fuel := (Z.to_nat (ClaimRetryAttempts cfg) + List.length (built_of results))%nat in
            ended <- submitClaims claimWindowClose claimWindowOpen budget regime fuel 1 (mkBatch (built_of results) group no_payload None);
            match ended with
            | SubmitClaimed claimed => Ret (mkGroupEnd claimed None false)
            | SubmitNodeBehind | SubmitWindowClosed | SubmitStuck => Ret (mkGroupEnd [] None false)
            | SubmitCancelled => Ret (mkGroupEnd [] (Some CeCancelled) true)
            | SubmitFailed b err => claimsFailed b err claimWindowOpen budget regime ;; Ret (mkGroupEnd [] (Some CeSubmit) false)
            end
  end.

(** [OnSessionsNeedClaim]: the session IDs claimed and the joined error. *)
Fixpoint claimGroups (groups : list (list SessionSnapshot)) : prog (list string * list CycleErr) :=
  match groups with
  | [] => Ret ([], [])
  | g :: groups =>
      ended <- claimGroup g;
      let errs := match ge_err ended with Some e => [e] | None => [] end in
      if ge_stop ended then Ret (ge_claimed ended, errs)
      else unpack (claimed, errs') <- claimGroups groups; Ret ((ge_claimed ended ++ claimed)%list, (errs ++ errs')%list)
  end.

Definition OnSessionsNeedClaim (snapshots : list SessionSnapshot) : prog (list string * list CycleErr) :=
  claimGroups (groupByEndHeight snapshots).
End ClaimCycle.
