(* ===== verification/ClaimCycleSafety.v ===== *)
(** * What the claim cycle guarantees

    Of every run of OnSessionsNeedClaim, whatever the chain, the node, the trees
    and the stores answer: a session is reported claimed only with the
    transaction the node accepted, its own message in it; every session of the
    input has a fate ([fate]); the retry loop ends within its bound; grouping is
    a stable partition by window. *)

From stdpp Require Import sorting.
From S2P Require Import Prelude Program SessionState StoreSpec SessionLifecycle SessionCoordinator GoFloat RebroadcastStore TxClient InclusionReconciler ClaimPages LifecycleCallback ClaimCycle.
From Stdlib Require Import Ascii String.

Local Open Scope string_scope.
Local Open Scope Z_scope.

Section Safety.
Context {Params : Type} `{SW : !SharedWindows Params} {Difficulty : Type}.
Variables (cfg : LifecycleCallbackConfig) (wired : Wiring).
Variables (smt_Count smt_Sum : string -> option Z) (marshal_claim : MsgCreateClaim -> option string).
Variable GetClaimeduPOKT : MsgCreateClaim -> Params -> Difficulty -> option (option Z).
Abbreviation E := (CallEffect (Params := Params) (Difficulty := Difficulty)).
Abbreviation event := (event Call (E := E)).
Abbreviation Ev := (Ev (E := E)).
Abbreviation buildClaim := (buildClaim wired smt_Count smt_Sum GetClaimeduPOKT).
Abbreviation submitClaims := (submitClaims (Params := Params) (Difficulty := Difficulty) cfg wired marshal_claim).
Abbreviation claimGroup := (claimGroup cfg wired smt_Count smt_Sum marshal_claim GetClaimeduPOKT).
Abbreviation claimGroups := (claimGroups cfg wired smt_Count smt_Sum marshal_claim GetClaimeduPOKT).
Implicit Types (l : list event) (s : SessionSnapshot) (sid : string) (x : Built).

Definition sid_of (b : Built) : string := SessionID (bl_snapshot b).

(** ** Evidence in the calls *)

(** [x] is the claim of its own session's flushed tree. *)
Definition built_from (x : Built) l : Prop :=
  let s := bl_snapshot x in
  Ev (CFlush (SessionID s)) (Some (bl_root x)) ∈ l /\ ClaimTxHash s = "" /\
  String.length (bl_root x) = SMSTRootLen /\
  (exists n m, smt_Count (bl_root x) = Some n /\ smt_Sum (bl_root x) = Some m /\ n <> 0 /\ m <> 0) /\
  mc_RootHash (bl_msg x) = bl_root x /\ mc_SupplierOperatorAddress (bl_msg x) = SupplierOperatorAddress s.

(** Bytes signed for exactly these messages. *)
Definition signed_for (close budget : Z) (regime : string) (msgs : list MsgCreateClaim) (p : SignedTxPayload) l : Prop :=
  exists hash err, Ev (CCreateClaims close budget regime msgs) (hash, p, err) ∈ l.

(** What the node answered to a transaction that carries exactly these messages. *)
Definition answered (close budget : Z) (regime : string) (msgs : list MsgCreateClaim) (p : SignedTxPayload) (hash : string) (err : option SubmitErr) l : Prop :=
  Ev (CCreateClaims close budget regime msgs) (hash, p, err) ∈ l \/
  (signed_for close budget regime msgs p l /\ Ev (CResend RebroadcastPhaseClaim p) (hash, err) ∈ l).

(** The node took a transaction that carries exactly these messages. *)
Definition accepted (close budget : Z) (regime : string) (msgs : list MsgCreateClaim) (p : SignedTxPayload) (hash : string) l : Prop :=
  answered close budget regime msgs p hash None l.

(** The store was given the session's message and answered. *)
Definition put_answered (ok : bool) x l : Prop :=
  exists bytes e, marshal_claim (bl_msg x) = Some bytes /\ e_MsgBytes e = bytes /\ Ev (CPut RebroadcastPhaseClaim (bl_snapshot x) e) ok ∈ l.

(** The reconciler has the session's message. *)
Definition handed sid l : Prop := exists x, sid_of x = sid /\ built_from x l /\ put_answered true x l.

(** The reconciler cannot have it: no store, no bytes, or the store refused. *)
Definition no_entry x l : Prop := hasRebroadcastStore wired = false \/ marshal_claim (bl_msg x) = None \/ put_answered false x l.

(** The coordinator was told that the claim is lost. *)
Definition told_lost sid l : Prop := exists v ok, v <> ClaimTxErrorAttempt /\ Ev (COnClaimTxError sid v) ok ∈ l.

(** The batch the claim was in ended with an answer that names no message: the
    coordinator was told, or the answer says that nothing was spent. *)
Definition batch_failed x l : Prop :=
  exists close budget regime msgs p hash err, bl_msg x ∈ msgs /\ answered close budget regime msgs p hash (Some err) l /\
    (if Nat.ltb 1 (List.length msgs) then namedMessageIndex err (List.length msgs) else None) ≫= (msgs !!.) = None /\
    (nothingWasSpent (Some (se_err err)) = true \/ exists v ok, Ev (COnClaimTxError (sid_of x) v) ok ∈ l).

(** A claim that was built and that nothing will send again. *)
Definition left_alone sid l : Prop :=
  exists x, sid_of x = sid /\ built_from x l /\ no_entry x l /\ (told_lost sid l \/ batch_failed x l).
Definition passed_on sid l : Prop := handed sid l \/ left_alone sid l.

Lemma built_from_mono x l l' : (forall e, e ∈ l -> e ∈ l') -> built_from x l -> built_from x l'.
Proof. intros H (Hf & Hrest). split; auto. Qed.
Lemma signed_for_mono close budget regime msgs p l l' :
  (forall e, e ∈ l -> e ∈ l') -> signed_for close budget regime msgs p l -> signed_for close budget regime msgs p l'.
Proof. intros H (h & e & He). exists h, e. auto. Qed.
Lemma answered_mono close budget regime msgs p hash err l l' :
  (forall e, e ∈ l -> e ∈ l') -> answered close budget regime msgs p hash err l -> answered close budget regime msgs p hash err l'.
Proof. intros H [?|[? ?]]; [left; auto|right; split; eauto using signed_for_mono]. Qed.
Lemma put_answered_mono ok x l l' : (forall e, e ∈ l -> e ∈ l') -> put_answered ok x l -> put_answered ok x l'.
Proof. intros H (b & e & ? & ? & ?). exists b, e. auto. Qed.
Lemma passed_mono sid l l' : (forall e, e ∈ l -> e ∈ l') -> passed_on sid l -> passed_on sid l'.
Proof.
  intros H [(x & H1 & H2 & H3)|(x & H1 & H2 & H3 & H4)].
  - left. exists x. split_and!; eauto using built_from_mono, put_answered_mono.
  - right. exists x. split_and!; [done|by eapply built_from_mono|destruct H3 as [?|[?|?]]; [by left|right; by left|right; right; by eapply put_answered_mono]|].
    destruct H4 as [(v & ok & ? & ?)|(close & budget & regime & msgs & p & hash & err & ? & ? & ? & H4)]; [left; exists v, ok; auto|right].
    exists close, budget, regime, msgs, p, hash, err. split_and!; [done|by eapply answered_mono|done|]. destruct H4 as [?|(v & ok & ?)]; [by left|right; exists v, ok; auto].
Qed.
Lemma built_all_mono xs l l' : (forall e, e ∈ l -> e ∈ l') -> Forall (fun x => built_from x l) xs -> Forall (fun x => built_from x l') xs.
Proof. intros H Hall. eapply Forall_impl; [exact Hall|]. eauto using built_from_mono. Qed.

(** ** Builds *)

(** Why a session has no claim in the batch. *)
Definition no_claim_built s l : Prop :=
  exists flushed, Ev (CFlush (SessionID s)) flushed ∈ l /\
    match flushed with
    | None => True
    | Some root =>
        String.length root <> SMSTRootLen \/ smt_Count root = None \/ smt_Sum root = None \/
        (exists claim params difficulty amount, GetClaimeduPOKT claim params difficulty = Some (Some amount) /\ ~ in_int64 amount)
    end.

Definition empty_tree s l : Prop :=
  exists root, Ev (CFlush (SessionID s)) (Some root) ∈ l /\ (smt_Count root = Some 0 \/ smt_Sum root = Some 0).

Definition build_ok s (r : claimBuildResult) l : Prop :=
  match r with
  | BuildOk x => bl_snapshot x = s /\ built_from x l
  | BuildSkipped s' why => s' = s /\ (why = skipEmptyTree -> empty_tree s l)
  | BuildFailed s' => s' = s /\ no_claim_built s l
  end.

Lemma build_ok_mono s r l l' : (forall e, e ∈ l -> e ∈ l') -> build_ok s r l -> build_ok s r l'.
Proof.
  intros H. destruct r as [x|s' why|s']; simpl.
  - intros [? ?]. eauto using built_from_mono.
  - intros [-> Hw]. split; [done|]. intros Hwhy. destruct (Hw Hwhy) as (root & ? & ?). exists root. auto.
  - intros [-> (fl & ? & ?)]. split; [done|]. exists fl. auto.
Qed.

Lemma buildClaim_wp cost s l : ClaimTxHash s = "" -> wp (buildClaim cost s) l (fun l' r => build_ok s r l').
Proof.
  intros Htx. unfold ClaimCycle.buildClaim. simpl. intros [root|]; simpl.
  2:{ split; [done|]. exists None. set_solver. }
  set (l1 := Ev _ _ :: l).
  assert (Ev (CFlush (SessionID s)) (Some root) ∈ l1) as Hev by set_solver.
  destruct (Nat.eqb_spec (String.length root) SMSTRootLen) as [Hlen|Hlen]; simpl.
  2:{ split; [done|]. exists (Some root). eauto. }
  destruct (smt_Count root) as [n|] eqn:Hn; [|simpl; split; [done|]; exists (Some root); eauto].
  destruct (smt_Sum root) as [m|] eqn:Hm; [|simpl; split; [done|]; exists (Some root); eauto].
  destruct ((n =? 0) || (m =? 0)) eqn:H0; simpl.
  { split; [done|]. intros _. exists root. split; [done|]. rewrite Hn, Hm. apply orb_true_iff in H0 as [H0%Z.eqb_eq|H0%Z.eqb_eq]; subst; auto. }
  apply orb_false_iff in H0 as [Hn0%Z.eqb_neq Hm0%Z.eqb_neq].
  clearbody l1. apply wp_bind. eapply wp_mono; [|apply wp_grows]. intros l2 allowed Hsub2. destruct allowed; simpl; [|done].
  apply wp_bind. eapply wp_mono; [|apply wp_grows]. intros l3 header Hsub3. simpl.
  assert (forall l', (forall e, e ∈ l3 -> e ∈ l') -> build_ok s (BuildOk (mkBuilt s (mkClaim (SupplierOperatorAddress s) header root) root)) l') as Hok.
  { intros l' Hsub. split; [done|]. split_and!; simpl; eauto 10. }
  destruct (0 <? cost); simpl; [|by apply Hok].
  unfold getClaimReward. destruct (negb (hasProofChecker wired) || negb (hasDifficultyClient wired)); simpl; [by apply Hok|].
  intros [difficulty|]; simpl; [|apply Hok; set_solver]. intros [params|]; simpl; [|apply Hok; set_solver].
  destruct (GetClaimeduPOKT _ _ _) as [[amount|]|] eqn:Hr; simpl; [|done|apply Hok; set_solver].
  case_decide as Hin; [destruct (wrapu64 amount <=? cost); [done|apply Hok; set_solver]|].
  split; [done|]. exists (Some root). split; [set_solver|]. eauto 10.
Qed.

(** ** Sending *)

(** The batch as it goes through the loop: its claims are built from their own
    trees, and the bytes kept were signed for exactly its messages. *)
Definition batch_ok (close budget : Z) (regime : string) (b : Batch) l : Prop :=
  Forall (fun x => built_from x l) (ba_remaining b) /\
  (ba_signed b = no_payload \/ signed_for close budget regime (map bl_msg (ba_remaining b)) (ba_signed b) l).

Lemma batch_ok_mono close budget regime b l l' :
  (forall e, e ∈ l -> e ∈ l') -> batch_ok close budget regime b l -> batch_ok close budget regime b l'.
Proof. intros H [H1 [H2|H2]]; split; eauto using built_all_mono, signed_for_mono. Qed.

Lemma resendOrSign_wp close budget regime b l :
  batch_ok close budget regime b l ->
  wp (resendOrSignClaims (Params := Params) (Difficulty := Difficulty) close budget regime (ba_signed b) (ba_lastErr b) (map bl_msg (ba_remaining b))) l
    (fun l' r => signed_for close budget regime (map bl_msg (ba_remaining b)) r.1.2 l' /\
                 answered close budget regime (map bl_msg (ba_remaining b)) r.1.2 r.1.1 r.2 l').
Proof.
  intros [Hb Hs]. unfold resendOrSignClaims.
  assert (forall l1, wp (perform (E := E) (CCreateClaims close budget regime (map bl_msg (ba_remaining b)))) l1
    (fun l' r => signed_for close budget regime (map bl_msg (ba_remaining b)) r.1.2 l' /\
                 answered close budget regime (map bl_msg (ba_remaining b)) r.1.2 r.1.1 r.2 l')) as Hsign.
  { intros l1. simpl. intros [[hash p] err]. simpl. split; [exists hash, err; set_solver|]. left. set_solver. }
  apply wp_bind. unfold canReinject. destruct (ba_lastErr b) as [e|]; [|apply Hsign].
  destruct (String.eqb_spec (p_Bytes (ba_signed b)) "") as [|Hne]; [apply Hsign|].
  destruct (RejectionPreservesBytes _); [|apply Hsign]. simpl. intros chainNow. destruct (reusable _ _); [|apply Hsign].
  simpl. intros [hash err]. simpl. destruct Hs as [Hs|Hs]; [by rewrite Hs in Hne|].
  split; [eapply signed_for_mono; [|exact Hs]; set_solver|]. right. split; [eapply signed_for_mono; [|exact Hs]; set_solver|set_solver].
Qed.

(** What an accepted transaction leaves for each of its sessions. *)
Definition recorded (budget : Z) (regime : string) (p : SignedTxPayload) (hash : string) x l : Prop :=
  (hasCoordinator wired = true -> exists ok, Ev (COnSessionClaimed (sid_of x) (bl_root x) hash) ok ∈ l) /\
  (hasRebroadcastStore wired = true -> hash <> "" -> forall bytes, marshal_claim (bl_msg x) = Some bytes ->
   exists height ok, Ev (CPut RebroadcastPhaseClaim (bl_snapshot x)
                           (newEntry (ServiceID (bl_snapshot x)) (mkSubmission bytes height hash p None budget regime))) ok ∈ l).

Lemma recorded_mono budget regime p hash x l l' : (forall e, e ∈ l -> e ∈ l') -> recorded budget regime p hash x l -> recorded budget regime p hash x l'.
Proof.
  intros H [H1 H2]. split.
  - intros Hc. destruct (H1 Hc) as (ok & Hok). eauto.
  - intros Hc Hh bytes Hm. destruct (H2 Hc Hh bytes Hm) as (h & ok & Hok). eauto.
Qed.

(** A call for every element leaves it in the calls. *)
Lemma wp_each_call {A} (f : A -> prog Call (E := E) unit) (F : A -> list event -> Prop) (ys : list A) l :
  (forall y l, wp (f y) l (fun l' _ => F y l')) ->
  (forall y l l', (forall e, e ∈ l -> e ∈ l') -> F y l -> F y l') ->
  wp (each f ys) l (fun l' _ => forall y, y ∈ ys -> F y l').
Proof.
  intros Hf Hm. eapply wp_mono; [|apply (wp_each f (fun _ => True) F ys l)]; [by intros l' ? [_ ?]|done| |done].
  intros y l0 _ _. eapply wp_mono; [|apply Hf]. by intros.
Qed.

Lemma persistClaims_wp batch height hash p err budget regime l :
  wp (persistClaims (Params := Params) (Difficulty := Difficulty) marshal_claim batch height hash p err budget regime) l
    (fun l' _ => forall x, x ∈ batch -> forall bytes, marshal_claim (bl_msg x) = Some bytes ->
      exists ok, Ev (CPut RebroadcastPhaseClaim (bl_snapshot x)
                       (newEntry (ServiceID (bl_snapshot x)) (mkSubmission bytes height hash p err budget regime))) ok ∈ l').
Proof.
  apply (wp_each_call _ (fun x l' => forall bytes, marshal_claim (bl_msg x) = Some bytes ->
    exists ok, Ev (CPut RebroadcastPhaseClaim (bl_snapshot x)
                     (newEntry (ServiceID (bl_snapshot x)) (mkSubmission bytes height hash p err budget regime))) ok ∈ l')).
  - intros x l0. destruct (marshal_claim (bl_msg x)) as [bytes|]; simpl; [|done].
    intros ok bytes' [= <-]. exists ok. set_solver.
  - intros x l0 l1 Hsub H bytes Hb. destruct (H bytes Hb) as (ok & Hok). eauto.
Qed.

Lemma claimsAccepted_wp batch hash p earliest budget regime l :
  wp (claimsAccepted (Params := Params) (Difficulty := Difficulty) wired marshal_claim batch hash p earliest budget regime) l
    (fun l' ids => ids = map sid_of batch /\ forall x, x ∈ batch -> recorded budget regime p hash x l').
Proof.
  unfold claimsAccepted. simpl. intros height. set (l1 := Ev CHeight height :: l). clearbody l1.
  apply wp_bind. eapply wp_mono.
  2:{ apply (wp_each_call _ (fun x l' => hasCoordinator wired = true -> exists ok, Ev (COnSessionClaimed (sid_of x) (bl_root x) hash) ok ∈ l')).
      - intros x l0. destruct (hasCoordinator wired); simpl; [|done]. intros ok [] _. exists ok. set_solver.
      - intros x l0 l2 Hsub H Hc. destruct (H Hc) as (ok & ?). eauto. }
  intros l2 ? Hclaimed. apply wp_bind.
  eapply (wp_mono _ _ (fun l' _ => forall x, x ∈ batch -> recorded budget regime p hash x l')).
  2:{ destruct (hasRebroadcastStore wired && negb (String.eqb hash "")) eqn:Hw.
      - apply andb_true_iff in Hw as [Hst Hh]. eapply wp_mono; [|apply wp_frame, (persistClaims_wp batch height hash p None budget regime)].
        simpl. intros l3 ? [Hsub Hput] x Hx. split.
        + intros Hc. destruct (Hclaimed x Hx Hc) as (ok & ?). eauto.
        + intros _ _ bytes Hb. destruct (Hput x Hx bytes Hb) as (ok & ?). eauto.
      - simpl. intros x Hx. split; [auto|]. intros Hs Hh. rewrite Hs in Hw. by apply negb_false_iff, String.eqb_eq in Hw. }
  intros l3 ? Hrec. simpl.
  assert (forall (q : prog Call (E := E) unit) l0, (forall x, x ∈ batch -> recorded budget regime p hash x l0) ->
    wp q l0 (fun l' _ => forall x, x ∈ batch -> recorded budget regime p hash x l')) as Hkeep.
  { intros q l0 H. eapply wp_mono; [|apply wp_grows]. intros l' ? Hsub x Hx. eauto using recorded_mono. }
  apply wp_bind. eapply wp_mono; [|by apply Hkeep]. intros l4 ? Hrec4. apply wp_bind. eapply wp_mono; [|by apply Hkeep]. intros l5 ? Hrec5. simpl. by split.
Qed.

(** The manager sets the coordinator. *)
Abbreviation full := (hasCoordinator wired = true).

Lemma settleEjectedClaim_wp x err earliest budget regime l :
  built_from x l ->
  wp (settleEjectedClaim (Params := Params) (Difficulty := Difficulty) wired marshal_claim x err earliest budget regime) l
    (fun l' _ => full -> passed_on (sid_of x) l').
Proof.
  intros Hb. apply wp_assume. intros Hc. unfold settleEjectedClaim. cbn [wp pbind perform]. intros height. rewrite Hc. apply wp_bind.
  assert (forall l1 (v : string), (forall e, e ∈ l -> e ∈ l1) ->
    (put_answered true x l1 \/ no_entry x l1 /\ v <> ClaimTxErrorAttempt) ->
    wp (pbind (perform (E := E) (COnClaimTxError (SessionID (bl_snapshot x)) v)) (fun _ => when (hasSubmissionTracker wired)
      (perform (CTrackClaim (mkClaimTrack (bl_snapshot x) (bl_root x) "" false (se_text err) earliest height))))) l1 (fun l' _ => passed_on (sid_of x) l')) as Htold.
  { intros l1 v Hsub Hp. cbn [wp pbind perform]. intros ok. eapply wp_mono; [|apply wp_grows]. intros l2 ? Hsub2.
    assert (passed_on (sid_of x) (Ev (COnClaimTxError (SessionID (bl_snapshot x)) v) ok :: l1)) as Hpass; [|exact (passed_mono _ _ _ Hsub2 Hpass)].
    assert (forall e, e ∈ l1 -> e ∈ Ev (COnClaimTxError (SessionID (bl_snapshot x)) v) ok :: l1) as Hsub3 by (intros; by right).
    assert (built_from x (Ev (COnClaimTxError (SessionID (bl_snapshot x)) v) ok :: l1)) as Hb' by (eapply built_from_mono; [|exact Hb]; auto).
    destruct Hp as [Hp|[Hn Hv]]; [left; exists x; split_and!; eauto using put_answered_mono|right]. exists x. split_and!; [done|done| |left; exists v, ok; split; [done|left]].
    destruct Hn as [?|[?|?]]; [by left|right; by left|right; right; by eapply put_answered_mono]. }
  destruct (hasRebroadcastStore wired) eqn:Hs; cbn [negb].
  2:{ cbn [wp]. apply Htold; [intros; by right|]. right. split; [by left|done]. }
  destruct (marshal_claim (bl_msg x)) as [bytes|] eqn:Hbytes; [|cbn [wp]; apply Htold; [intros; by right|]; right; split; [right; by left|done]].
  unfold putEntry. cbn [wp pbind perform]. intros ok. apply Htold; [intros; by do 2 right|].
  assert (put_answered ok x (Ev (CPut RebroadcastPhaseClaim (bl_snapshot x) (newEntry (ServiceID (bl_snapshot x)) (mkSubmission bytes height "" no_payload None budget regime))) ok :: Ev CHeight height :: l)) as Hput.
  { exists bytes, (newEntry (ServiceID (bl_snapshot x)) (mkSubmission bytes height "" no_payload None budget regime)). split_and!; [done|done|left]. }
  destruct ok; [by left|right]. split; [right; by right|done].
Qed.

Definition deferred s l : Prop := exists ok, Ev (COnClaimDeferred (SessionID s)) ok ∈ l.
Definition window_closed s l : Prop := exists close, Ev (CClaimWindowClosed s close) tt ∈ l.

Lemma deferClaims_wp group l :
  wp (deferClaims (Params := Params) (Difficulty := Difficulty) wired group) l (fun l' _ => full -> forall s, s ∈ group -> deferred s l').
Proof.
  apply wp_assume. intros Hc. unfold deferClaims. rewrite Hc. simpl. apply (wp_each_call _ deferred).
  - intros s l0. simpl. intros []; simpl; [intros []; exists true|exists false]; set_solver.
  - intros s l0 l1 Hsub [ok ?]. exists ok. auto.
Qed.

Lemma closeClaims_wp close group l :
  wp (closeClaims (Params := Params) (Difficulty := Difficulty) close group) l (fun l' _ => forall s, s ∈ group -> window_closed s l').
Proof.
  apply (wp_each_call _ window_closed).
  - intros s l0. simpl. intros []. exists close. set_solver.
  - intros s l0 l1 Hsub [c ?]. exists c. auto.
Qed.

Definition in_group x (b : Batch) : Prop := exists s, s ∈ ba_group b /\ SessionID s = sid_of x.

Definition submit_post (close budget : Z) (regime : string) (b : Batch) (e : SubmitEnd) l : Prop :=
  match e with
  | SubmitClaimed ids =>
      exists rem p hash, ids = map sid_of rem /\ Forall (fun x => built_from x l) rem /\ accepted close budget regime (map bl_msg rem) p hash l /\
        (forall x, x ∈ rem -> x ∈ ba_remaining b /\ recorded budget regime p hash x l) /\
        (full -> forall x, x ∈ ba_remaining b -> x ∈ rem \/ passed_on (sid_of x) l)
  | SubmitNodeBehind => full -> forall s, s ∈ ba_group b -> deferred s l \/ passed_on (SessionID s) l
  | SubmitWindowClosed => full -> forall s, s ∈ ba_group b -> window_closed s l \/ passed_on (SessionID s) l
  | SubmitFailed b' err => Forall (fun x => built_from x l) (ba_remaining b') /\
      (exists p hash, answered close budget regime (map bl_msg (ba_remaining b')) p hash (Some err) l) /\
      (if Nat.ltb 1 (List.length (ba_remaining b')) then namedMessageIndex err (List.length (ba_remaining b')) else None) ≫= (ba_remaining b' !!.) = None /\
      (full -> forall x, x ∈ ba_remaining b -> in_group x b -> x ∈ ba_remaining b' /\ in_group x b' \/ passed_on (sid_of x) l)
  | SubmitCancelled | SubmitStuck => True
  end.

(** The batch without the message that was named. *)
Lemma eject_split (xs : list Built) n x : xs !! n = Some x -> forall y, y ∈ xs <-> y = x \/ y ∈ (take n xs ++ drop (S n) xs)%list.
Proof. intros Hx y. rewrite <- (take_drop_middle xs n x Hx) at 1. set_solver. Qed.

Lemma eject_post close budget regime b n x err e l :
  ba_remaining b !! n = Some x -> (full -> passed_on (sid_of x) l) ->
  submit_post close budget regime (mkBatch (take n (ba_remaining b) ++ drop (S n) (ba_remaining b)) (withoutSession (ba_group b) (sid_of x)) no_payload (Some err)) e l ->
  submit_post close budget regime b e l.
Proof.
  intros Hx Hh. pose proof (eject_split _ _ _ Hx) as Hsplit.
  assert (forall s, s ∈ ba_group b -> SessionID s = sid_of x \/ s ∈ withoutSession (ba_group b) (sid_of x)) as Hgroup.
  { intros s Hs. destruct (String.eqb_spec (SessionID s) (sid_of x)) as [|Hne]; [by left|right].
    unfold withoutSession. apply list_elem_of_In, filter_In. split; [by apply list_elem_of_In|]. by rewrite (proj2 (String.eqb_neq _ _) Hne). }
  destruct e as [ids| | | |b' e'|]; simpl; try done.
  - intros (rem & p & hash & -> & Hb & Ha & Hr & Hall). exists rem, p, hash. split_and!; try done.
    + intros y Hy. destruct (Hr y Hy). split; [apply Hsplit; by right|done].
    + intros Hf y Hy. apply Hsplit in Hy as [-> |Hy]; [right; by apply Hh|by apply Hall].
  - intros H Hf s Hs. destruct (Hgroup s Hs) as [-> |Hs']; [right; by apply Hh|by apply H].
  - intros H Hf s Hs. destruct (Hgroup s Hs) as [-> |Hs']; [right; by apply Hh|by apply H].
  - intros (Hb & Ha & Hnm & Hall). split_and!; [done..|]. intros Hf y Hy (s & Hs & Hid). apply Hsplit in Hy as [-> |Hy]; [right; by apply Hh|].
    destruct (Hgroup s Hs) as [He|Hs']; [right; rewrite <- Hid, He; by apply Hh|]. apply Hall; [done|done|]. by exists s.
Qed.

Lemma submitClaims_wp close earliest budget regime fuel : forall attempt b l,
  batch_ok close budget regime b l ->
  wp (submitClaims close earliest budget regime fuel attempt b) l (fun l' e => submit_post close budget regime b e l').
Proof.
  induction fuel as [|fuel IH]; intros attempt b l Hb; [done|]. cbn [ClaimCycle.submitClaims].
  apply wp_bind. eapply wp_mono; [|apply wp_frame, resendOrSign_wp, Hb]. intros l1 [[hash p] err] (Hsub1 & Hsigned & Hacc). cbn [fst snd] in *.
  eapply batch_ok_mono in Hb; [|exact Hsub1]. destruct Hb as [Hbuilt _]. destruct err as [err|].
  2:{ apply wp_bind. eapply wp_mono; [|apply wp_frame, claimsAccepted_wp]. intros l2 ids (Hsub2 & -> & Hrec). simpl.
      exists (ba_remaining b), p, hash. split; [done|]. split; [by eapply built_all_mono|]. split; [|split; auto].
      by eapply answered_mono. }
  apply wp_bind. eapply wp_mono; [|apply wp_grows]. intros l2 final Hsub2.
  assert (Forall (fun x => built_from x l2) (ba_remaining b)) as Hbuilt2 by exact (built_all_mono _ _ _ Hsub2 Hbuilt).
  destruct (isWindowRefusal _ _ err && negb final).
  { apply wp_bind. eapply wp_mono; [|apply deferClaims_wp]. intros l3 ? Hd. simpl. auto. }
  destruct (isWindowRefusal _ _ err).
  { apply wp_bind. eapply wp_mono; [|apply closeClaims_wp]. intros l3 ? Hd. simpl. auto. }
  destruct (if Nat.ltb _ _ then _ else _) as [n|] eqn:Hnamed; [destruct (ba_remaining b !! n) as [x|] eqn:Hx|].
  { apply wp_bind. eapply wp_mono; [|apply wp_frame, settleEjectedClaim_wp].
    2:{ apply (proj1 (Forall_forall _ _) Hbuilt2). by eapply list_elem_of_lookup_2. }
    intros l3 ? [Hsub3 Hh]. cbn [perform pbind wp]. intros height. set (l4 := Ev CHeight height :: l3).
    assert (forall e, e ∈ l3 -> e ∈ l4) as Hsub4 by set_solver. clearbody l4.
    eapply (wp_mono _ _ (fun l' e => (forall e, e ∈ l4 -> e ∈ l') /\ submit_post close budget regime
      (mkBatch (take n (ba_remaining b) ++ drop (S n) (ba_remaining b)) (withoutSession (ba_group b) (sid_of x)) no_payload (Some err)) e l')).
    { intros l' e [Hsub5 Hpost]. eapply eject_post; [exact Hx| |exact Hpost]. intros Hf. eapply passed_mono; [|by apply Hh]. auto. }
    apply wp_frame. destruct (close <=? height).
    - apply wp_bind. eapply wp_mono; [|apply closeClaims_wp]. intros l5 ? Hd. simpl. auto.
    - apply IH. split; [|by left]. cbn [ba_remaining]. apply Forall_forall. intros y Hy. eapply built_from_mono; [exact Hsub4|].
      eapply built_from_mono; [exact Hsub3|]. apply (proj1 (Forall_forall _ _) Hbuilt2). eapply eject_split; eauto. }
  all: assert (batch_ok close budget regime (mkBatch (ba_remaining b) (ba_group b) p (Some err)) l2) as Hb2
         by (split; [done|right; exact (signed_for_mono _ _ _ _ _ _ _ Hsub2 Hsigned)]).
  all: destruct (attempt + 1 <=? ClaimRetryAttempts cfg).
  2,4: cbn [submit_post ba_remaining wp]; split_and!; [done|exists p, hash; exact (answered_mono _ _ _ _ _ _ _ _ _ Hsub2 Hacc)| |by auto].
  2,3: rewrite Hnamed; done.
  all: cbn [perform pbind wp]; intros []; [done|].
  all: eapply wp_mono; [|apply IH; eapply batch_ok_mono; [|exact Hb2]; set_solver]; intros l' e He; exact He.
Qed.

Lemma claimsFailed_wp close b p hash err earliest budget regime l :
  Forall (fun x => built_from x l) (ba_remaining b) ->
  answered close budget regime (map bl_msg (ba_remaining b)) p hash (Some err) l ->
  (if Nat.ltb 1 (List.length (ba_remaining b)) then namedMessageIndex err (List.length (ba_remaining b)) else None) ≫= (ba_remaining b !!.) = None ->
  wp (claimsFailed (Params := Params) (Difficulty := Difficulty) wired marshal_claim b err earliest budget regime) l
    (fun l' _ => full -> forall x, x ∈ ba_remaining b -> in_group x b -> passed_on (sid_of x) l').
Proof.
  intros Hb Hans Hnamed. apply wp_assume. intros Hc. unfold claimsFailed. rewrite Hc, orb_false_r. apply wp_bind.
  eapply (wp_mono _ _ (fun l1 _ => (forall e, e ∈ l -> e ∈ l1) /\ (nothingWasSpent (Some (se_err err)) = true \/ forall s, s ∈ ba_group b -> exists v ok, Ev (COnClaimTxError (SessionID s) v) ok ∈ l1))).
  2:{ apply wp_frame. destruct (nothingWasSpent _); [by left|]. eapply wp_mono; [|apply (wp_each_call _ (fun s l' => exists v ok, Ev (COnClaimTxError (SessionID s) v) ok ∈ l'))].
      - intros l1 ? H. by right.
      - intros s l0. cbn [wp pbind perform]. intros ok. exists (if hasRebroadcastStore wired then ClaimTxErrorAttempt else ClaimTxErrorForgone), ok. left.
      - intros s l0 l1 Hsub (v & ok & ?). exists v, ok. auto. }
  intros l1 ? [Hsub1 Htold]. apply wp_bind. eapply wp_mono; [|apply wp_grows]. intros l2 ? Hsub2.
  assert (forall l3 x, (forall e, e ∈ l2 -> e ∈ l3) -> x ∈ ba_remaining b -> in_group x b -> put_answered true x l3 \/ no_entry x l3 -> passed_on (sid_of x) l3) as Hpass.
  { intros l3 x Hsub3 Hx (s & Hs & Hid) Hp. assert (forall e, e ∈ l -> e ∈ l3) as Hsub by auto.
    assert (built_from x l3) as Hbx by (eapply built_from_mono; [exact Hsub|]; exact (proj1 (Forall_forall _ _) Hb x Hx)).
    destruct Hp as [Hp|Hn]; [left; exists x; done|right]. exists x. split_and!; [done|done|done|]. right.
    exists close, budget, regime, (map bl_msg (ba_remaining b)), p, hash, err. split_and!; [by apply (list_elem_of_fmap_2 bl_msg)|by eapply answered_mono| |].
    - rewrite length_map. destruct (if Nat.ltb _ _ then _ else _) as [n|]; [|done]. cbn in Hnamed |- *. by rewrite list_lookup_fmap, Hnamed.
    - destruct Htold as [?|Ht]; [by left|right]. destruct (Ht s Hs) as (v & ok & ?). exists v, ok. rewrite <- Hid. auto. }
  destruct (hasRebroadcastStore wired) eqn:Hs; cbn [when wp].
  2:{ intros x Hx Hg. apply Hpass; [done|done|done|]. right. by left. }
  cbn [perform pbind wp]. intros height. eapply wp_mono; [|apply wp_frame, persistClaims_wp]. intros l3 ? [Hsub3 Hput] x Hx Hg.
  apply Hpass; [intros e He; apply Hsub3; by right|done|done|]. destruct (marshal_claim (bl_msg x)) as [bytes|] eqn:Hbytes; [|right; right; by left].
  destruct (Hput x Hx bytes Hbytes) as [ok Hok]. destruct ok; [left|right; right; right]; eexists bytes, _; (split; [done|split; cycle 1; [exact Hok|reflexivity]]).
Qed.

(** ** The retry loop ends *)

Definition is_send (c : Call) : bool := match c with CCreateClaims _ _ _ _ | CResend _ _ => true | _ => false end.
Definition sends l : nat := List.length (calls_of is_send l).

Lemma resendOrSign_sends close budget regime p err msgs l :
  wp (resendOrSignClaims (Params := Params) (Difficulty := Difficulty) close budget regime p err msgs) l (fun l' _ => sends l' = S (sends l)).
Proof.
  unfold resendOrSignClaims. apply wp_bind. eapply wp_mono; [|apply (quiet_wp is_send)].
  - intros l1 again H1. destruct again; cbn [pbind perform wp]; [intros [h e]|intros [[h q] e]]; unfold sends; simpl; by rewrite H1.
  - unfold canReinject. quiet.
Qed.

(** The attempts left and the messages that can still be ejected. *)
Definition turns_left (attempt : Z) (b : Batch) : nat := (Z.to_nat (ClaimRetryAttempts cfg - attempt) + Nat.max 1 (List.length (ba_remaining b)))%nat.

Lemma submitClaims_ends close earliest budget regime fuel : forall attempt b l,
  attempt <= ClaimRetryAttempts cfg -> (turns_left attempt b <= fuel)%nat ->
  wp (submitClaims close earliest budget regime fuel attempt b) l (fun l' e => e <> SubmitStuck /\ (sends l' <= sends l + turns_left attempt b)%nat).
Proof.
  induction fuel as [|fuel IH]; intros attempt b l Ha Hfuel; [unfold turns_left in Hfuel; lia|]. cbn [ClaimCycle.submitClaims].
  apply wp_bind. eapply wp_mono; [|apply resendOrSign_sends]. intros l1 [[hash p] err] Hs1.
  assert (forall (e : SubmitEnd) (q : prog Call (E := E) unit), e <> SubmitStuck -> quiet is_send q -> forall l2, sends l2 = S (sends l) ->
    wp (pbind q (fun _ => Ret e)) l2 (fun l' e => e <> SubmitStuck /\ (sends l' <= sends l + turns_left attempt b)%nat)) as Hend.
  { intros e q He Hq l2 Hs2. apply wp_bind. eapply wp_mono; [|apply Hq]. intros l3 ? Hs3. split; [done|]. unfold sends in *; rewrite Hs3. unfold turns_left. lia. }
  destruct err as [err|].
  2:{ apply wp_bind. eapply wp_mono; [|apply (quiet_wp is_send)]; [|unfold claimsAccepted, persistClaims, putEntry; quiet].
      intros l2 ids Hs2. split; [done|]. unfold sends in *. rewrite Hs2. unfold turns_left. lia. }
  apply wp_bind. eapply wp_mono; [|apply (quiet_wp is_send)]; [|unfold windowRefusalIsFinal; quiet]. intros l2 final Hs2. assert (sends l2 = S (sends l)) as Hs2' by (unfold sends in *; rewrite Hs2; exact Hs1). clear Hs2. rename Hs2' into Hs2. clear Hs1.
  destruct (isWindowRefusal _ _ err && negb final); [apply Hend; [done|unfold deferClaims; quiet|done]|].
  destruct (isWindowRefusal _ _ err); [apply Hend; [done|unfold closeClaims; quiet|done]|].
  destruct (Nat.ltb 1 (List.length (ba_remaining b))) eqn:Hlen; [destruct (namedMessageIndex _ _) as [n|]; [destruct (ba_remaining b !! n) as [x|] eqn:Hx|]|].
  { apply Nat.ltb_lt in Hlen. apply wp_bind. eapply wp_mono; [|apply (quiet_wp is_send)]; [|unfold settleEjectedClaim, putEntry; quiet].
    intros l3 ? Hs3'. assert (sends l3 = sends l2) as Hs3 by (unfold sends; by rewrite Hs3'). cbn [perform pbind wp]. intros height.
    destruct (close <=? height); [apply Hend; [done|unfold closeClaims; quiet|]; unfold sends in *; simpl; congruence|].
    apply lookup_lt_Some in Hx as Hn. eapply wp_mono; [|apply IH; [done|]].
    - intros l' e [He Hl]. split; [done|]. assert (sends (Ev CHeight height :: l3) = sends l3) as Heq by done. rewrite Heq in Hl.
      unfold turns_left in *. cbn [ba_remaining] in Hl. rewrite length_app, length_take, length_drop in Hl. lia.
    - unfold turns_left in *. cbn [ba_remaining]. rewrite length_app, length_take, length_drop. lia. }
  all: destruct (attempt + 1 <=? ClaimRetryAttempts cfg) eqn:Hle; [|split; [done|]; unfold turns_left; lia].
  all: apply Z.leb_le in Hle; cbn [perform pbind wp]; intros [].
  all: try (split; [done|]; assert (sends (Ev CPause true :: l2) = sends l2) as -> by done; unfold turns_left; lia).
  all: eapply wp_mono; [|apply IH; [lia|unfold turns_left in *; cbn [ba_remaining]; lia]].
  all: intros l' e [He Hl]; split; [done|]; assert (sends (Ev CPause false :: l2) = sends l2) as Heq by done; rewrite Heq in Hl;
       unfold turns_left in *; cbn [ba_remaining] in Hl; lia.
Qed.

(** ** A group *)

(** What became of a session. *)
Inductive fate (claimed : list string) s l : Prop :=
| fate_claimed : SessionID s ∈ claimed -> fate claimed s l
| fate_sent_before : ClaimTxHash s <> "" -> fate claimed s l
| fate_deferred : deferred s l -> fate claimed s l
| fate_window_closed : window_closed s l -> fate claimed s l
| fate_skipped : (exists ok, Ev (COnClaimSkipped (SessionID s)) ok ∈ l) -> fate claimed s l
| fate_empty : empty_tree s l -> fate claimed s l
| fate_unbuilt : no_claim_built s l -> fate claimed s l
| fate_handed : handed (SessionID s) l -> fate claimed s l
| fate_left_alone : left_alone (SessionID s) l -> fate claimed s l.

Lemma fate_passed claimed s l : passed_on (SessionID s) l -> fate claimed s l.
Proof. intros [?|?]; [by apply fate_handed|by apply fate_left_alone]. Qed.

Lemma fate_mono claimed claimed' s l l' :
  (forall sid, sid ∈ claimed -> sid ∈ claimed') -> (forall e, e ∈ l -> e ∈ l') -> fate claimed s l -> fate claimed' s l'.
Proof.
  intros Hc H [?|?|(ok & ?)|(c & ?)|(ok & ?)|(root & ? & ?)|(fl & ? & ?)|Hh|Hh].
  - by apply fate_claimed, Hc.
  - by apply fate_sent_before.
  - apply fate_deferred. exists ok. auto.
  - apply fate_window_closed. exists c. auto.
  - apply fate_skipped. exists ok. auto.
  - apply fate_empty. exists root. auto.
  - apply fate_unbuilt. exists fl. auto.
  - apply fate_passed. eapply passed_mono; [exact H|by left].
  - apply fate_passed. eapply passed_mono; [exact H|by right].
Qed.

(** A session reported claimed: its own claim, in a transaction of exactly these
    claims that the node accepted, recorded with that transaction's hash. *)
Definition claimed_ok (group : list SessionSnapshot) sid l : Prop :=
  exists x xs close budget regime p hash,
    sid_of x = sid /\ x ∈ xs /\ bl_snapshot x ∈ group /\ built_from x l /\
    accepted close budget regime (map bl_msg xs) p hash l /\ recorded budget regime p hash x l.

Lemma accepted_mono close budget regime msgs p hash l l' :
  (forall e, e ∈ l -> e ∈ l') -> accepted close budget regime msgs p hash l -> accepted close budget regime msgs p hash l'.
Proof. apply answered_mono. Qed.

Lemma claimed_ok_mono group group' sid l l' :
  (forall s, s ∈ group -> s ∈ group') -> (forall e, e ∈ l -> e ∈ l') -> claimed_ok group sid l -> claimed_ok group' sid l'.
Proof.
  intros Hg H (x & xs & close & budget & regime & p & hash & H1 & H2 & H3 & H4 & H5 & H6).
  exists x, xs, close, budget, regime, p, hash. split_and!; eauto using built_from_mono, accepted_mono. by apply (recorded_mono _ _ _ _ _ l). 
Qed.

Definition group_post (group : list SessionSnapshot) (r : GroupEnd) l : Prop :=
  (forall sid, sid ∈ ge_claimed r -> claimed_ok group sid l) /\
  (full -> ge_stop r = false -> forall s, s ∈ group -> fate (ge_claimed r) s l) /\
  (ge_stop r = true -> ge_err r = Some CeCancelled).

Lemma finaliseSkipped_wp skipped l :
  wp (each (finaliseSkipped (Params := Params) (Difficulty := Difficulty) wired) skipped) l
    (fun l' _ => full -> forall s why, (s, why) ∈ skipped -> why <> skipEmptyTree -> exists ok, Ev (COnClaimSkipped (SessionID s)) ok ∈ l').
Proof.
  apply wp_assume. intros Hc.
  eapply wp_mono; [|apply (wp_each_call _ (fun (sw : SessionSnapshot * SkipReason) l' => sw.2 <> skipEmptyTree -> exists ok, Ev (COnClaimSkipped (SessionID sw.1)) ok ∈ l'))].
  - intros l' ? H s why Hin. exact (H (s, why) Hin).
  - intros [s why] l0. unfold finaliseSkipped, OnClaimSkipped. rewrite Hc. cbn [fst snd].
    destruct why; cbn [wp pbind perform]; [done| |].
    all: intros u ok; eapply wp_mono; [|apply wp_grows]; intros l' ? Hsub _; exists ok; apply Hsub; left.
  - intros sw l0 l1 Hsub H Hne. destruct (H Hne) as (ok & ?). eauto.
Qed.

Lemma build_fates order candidates results l :
  Forall2 (fun s r => build_ok s r l) candidates results ->
  Forall (fun x => built_from x l /\ bl_snapshot x ∈ candidates) (built_of (shuffle order results)) /\
  forall s, s ∈ candidates ->
    (exists x, x ∈ built_of (shuffle order results) /\ bl_snapshot x = s) \/
    (exists why, (s, why) ∈ skipped_of (shuffle order results) /\ why <> skipEmptyTree) \/ empty_tree s l \/ no_claim_built s l.
Proof.
  intros Hall. pose proof (shuffle_perm order results) as Hperm. split.
  - apply Forall_forall. intros x (r & Hr & Hx)%list_elem_of_omap. rewrite Hperm in Hr. destruct r as [y| |]; try done. injection Hx as ->.
    apply list_elem_of_lookup in Hr as [i Hi]. destruct (Forall2_lookup_r _ _ _ _ _ Hall Hi) as (s & Hs & <- & Hb). split; [done|].
    by eapply list_elem_of_lookup_2.
  - intros s Hs. apply list_elem_of_lookup in Hs as [i Hi]. destruct (Forall2_lookup_l _ _ _ _ _ Hall Hi) as (r & Hr & Hb).
    apply list_elem_of_lookup_2 in Hr. rewrite <- Hperm in Hr. destruct r as [x|s' why|s']; simpl in Hb.
    + left. exists x. split; [|by apply Hb]. apply list_elem_of_omap. eauto.
    + destruct Hb as [-> Hw]. destruct why; [right; right; left; by apply Hw| |].
      all: right; left; eexists; split; [apply list_elem_of_omap; eexists; split; [exact Hr|reflexivity]|done].
    + destruct Hb as [-> Hn]. auto.
Qed.

Lemma built_group_post group (built : list Built) close budget regime (ended : SubmitEnd) claimed l :
  submit_post close budget regime (mkBatch built group no_payload None) ended l -> ended = SubmitClaimed claimed ->
  (forall x, x ∈ built -> bl_snapshot x ∈ group) ->
  (full -> forall s, s ∈ group -> (exists x, x ∈ built /\ bl_snapshot x = s) \/ fate [] s l) ->
  group_post group (mkGroupEnd claimed None false) l.
Proof.
  intros Hpost -> Hin Hf. destruct Hpost as (rem & p & hash & -> & Hb & Hacc & Hrec & Hall). split; [|split; [|done]].
  - intros sid (x & -> & Hx)%list_elem_of_fmap. destruct (Hrec x Hx) as [Hx' Hr].
    exists x, rem, close, budget, regime, p, hash. do 2 (split; [done|]). split; [by apply Hin|].
    split; [exact (proj1 (Forall_forall _ _) Hb x Hx)|]. by split.
  - intros Hfull _ s Hs. destruct (Hf Hfull s Hs) as [(x & Hx & <-)|Hfate]; [|eapply fate_mono; [| |exact Hfate]; [set_solver|auto]].
    destruct (Hall Hfull x Hx) as [Hr|Hh]; [|by apply fate_passed]. apply fate_claimed. cbn [ge_claimed]. by apply (list_elem_of_fmap_2 sid_of).
Qed.

Lemma claimGroup_wp group l : 1 <= ClaimRetryAttempts cfg -> wp (claimGroup group) l (fun l' r => group_post group r l').
Proof.
  intros Hcfg.
  assert (forall l e, (full -> forall s, s ∈ group -> fate [] s l) -> group_post group (mkGroupEnd [] e false) l) as Hnone.
  { intros l0 e H. split; [set_solver|]. split; [auto|done]. }
  unfold ClaimCycle.claimGroup. cbn [wp pbind perform]. intros [params|].
  2:{ apply wp_bind. eapply wp_mono; [|apply deferClaims_wp]. intros l1 ? Hd. apply Hnone. intros Hf s Hs. by apply fate_deferred, Hd. }
  apply wp_bind. eapply wp_mono; [|apply wp_grows]. intros l1 opened _. destruct opened; cbn [negb].
  2:{ apply wp_bind. eapply wp_mono; [|apply deferClaims_wp]. intros l2 ? Hd. apply Hnone. intros Hf s Hs. by apply fate_deferred, Hd. }
  cbn [wp pbind perform]. intros height. destruct (_ <=? minBlocksRequired).
  { apply wp_bind. eapply wp_mono; [|apply closeClaims_wp]. intros l2 ? Hd. apply Hnone. intros Hf s Hs. by apply fate_window_closed, Hd. }
  intros cost. apply wp_bind. eapply wp_mono.
  2:{ apply (wp_collect (buildClaim cost) (fun _ => True) build_ok); [done| |exact build_ok_mono].
      intros s l2 Hs _. eapply wp_mono; [|apply buildClaim_wp]; [by intros|]. apply list_elem_of_In, filter_In in Hs as [_ Hs]. by apply String.eqb_eq. }
  intros l2 results [_ Hres]. cbn [wp pbind perform]. intros order. set (l3 := Ev CArrivals order :: l2).
  assert (Forall2 (fun s r => build_ok s r l3) (List.filter (fun s => String.eqb (ClaimTxHash s) "") group) results) as Hres3.
  { eapply Forall2_impl; [exact Hres|]. intros s r. apply build_ok_mono. set_solver. }
  destruct (build_fates order _ _ _ Hres3) as [Hbuilt Hfates]. set (built := built_of (shuffle order results)) in *.
  apply wp_bind. eapply wp_mono; [|apply wp_frame, finaliseSkipped_wp]. intros l4 ? [Hsub4 Hskipped]. clearbody l3.
  cbn [wp pbind perform]. intros height'. set (l5 := Ev CHeight height' :: l4). assert (forall e, e ∈ l4 -> e ∈ l5) as Hsub5 by set_solver. clearbody l5.
  destruct (_ <=? height').
  { apply wp_bind. eapply wp_mono; [|apply closeClaims_wp]. intros l6 ? Hd. apply Hnone. intros Hf s Hs. by apply fate_window_closed, Hd. }
  destruct (WindowTimeout _ _) as [budget regime]. apply wp_bind.
  assert (full -> forall s, s ∈ group -> (exists x, x ∈ built /\ bl_snapshot x = s) \/ fate [] s l5) as Hcand.
  { intros Hf s Hs. destruct (String.eqb_spec (ClaimTxHash s) "") as [Heq|]; [|right; by apply fate_sent_before].
    destruct (Hfates s) as [Hx|[(why & Hw & Hne)|[He|Hn]]]; [apply list_elem_of_In, filter_In; split; [by apply list_elem_of_In|by rewrite Heq]| | | |].
    - by left.
    - right. apply fate_skipped. destruct (Hskipped Hf s why Hw Hne) as [ok Hok]. eauto.
    - right. eapply (fate_mono [] [] _ l3); [done|auto|by apply fate_empty].
    - right. eapply (fate_mono [] [] _ l3); [done|auto|by apply fate_unbuilt]. }
  eapply wp_mono; [|apply wp_frame, wp_and; [apply (submitClaims_wp (GetClaimWindowCloseHeight params (groupEnd group)))|apply submitClaims_ends; [done|]]].
  3:{ unfold turns_left. cbn [ba_remaining]. lia. }
  2:{ split; [|by left]. apply Forall_forall. intros x Hx. destruct (proj1 (Forall_forall _ _) Hbuilt x Hx) as [Hb _].
      eapply built_from_mono; [|exact Hb]. auto. }
  intros l6 ended (Hsub6 & Hpost & Hstuck & _).
  assert (forall x, x ∈ built -> bl_snapshot x ∈ group) as Hin.
  { intros x Hx. destruct (proj1 (Forall_forall _ _) Hbuilt x Hx) as [_ Hg]. apply list_elem_of_In, filter_In in Hg as [Hg _]. by apply list_elem_of_In. }
  assert (full -> forall s, s ∈ group -> (exists x, x ∈ built /\ bl_snapshot x = s) \/ fate [] s l6) as Hcand6.
  { intros Hf s Hs. destruct (Hcand Hf s Hs) as [|Hx]; [by left|right]. eapply fate_mono; [done|exact Hsub6|exact Hx]. }
  destruct ended as [claimed| | | |b err|]; cbn [wp].
  - by eapply built_group_post.
  - apply Hnone. intros Hf s Hs. destruct (Hpost Hf s Hs); [by apply fate_deferred|by apply fate_passed].
  - apply Hnone. intros Hf s Hs. destruct (Hpost Hf s Hs); [by apply fate_window_closed|by apply fate_passed].
  - split; [set_solver|done].
  - destruct Hpost as (Hb & (p & hash & Hans) & Hnamed & Hall). apply wp_bind. eapply wp_mono; [|apply wp_frame, (claimsFailed_wp _ _ _ _ _ _ _ _ _ Hb Hans Hnamed)]. intros l7 ? [Hsub7 Hh]. apply Hnone.
    intros Hf s Hs. destruct (Hcand6 Hf s Hs) as [(x & Hx & <-)|Hfate]; [|by eapply fate_mono].
    apply fate_passed. destruct (Hall Hf x Hx) as [[Hr Hg]|Hr]; [exists (bl_snapshot x); split; [by apply Hin|done]|by apply Hh|]. eapply passed_mono; [exact Hsub7|exact Hr].
  - done.
Qed.

Lemma claimGroups_wp groups : forall l, 1 <= ClaimRetryAttempts cfg ->
  wp (claimGroups groups) l (fun l' r =>
    (forall sid, sid ∈ r.1 -> claimed_ok (List.concat groups) sid l') /\
    (full -> CeCancelled ∉ r.2 -> forall s, s ∈ List.concat groups -> fate r.1 s l')).
Proof.
  induction groups as [|g groups IH]; intros l Hcfg; cbn [ClaimCycle.claimGroups].
  { split; [set_solver|]. intros _ _ s Hs. by apply not_elem_of_nil in Hs. }
  apply wp_bind. eapply wp_mono; [|by apply claimGroup_wp]. intros l1 r (Hc & Hf & Hstop). destruct (ge_stop r).
  - rewrite Hstop by done. split; cbn [fst snd].
    + intros sid Hs. eapply claimed_ok_mono; [|done|by apply Hc]. cbn [List.concat]. set_solver.
    + intros _ Hn. destruct Hn. set_solver.
  - apply wp_bind. eapply wp_mono; [|apply wp_frame, IH, Hcfg]. intros l2 [claimed errs] (Hsub & Hc2 & Hf2). cbn [wp fst snd List.concat] in *. split.
    + intros sid [Hs|Hs]%elem_of_app; [eapply claimed_ok_mono; [|exact Hsub|by apply Hc]; set_solver|eapply (claimed_ok_mono _ _ _ l2); [|done|by apply Hc2]; set_solver].
    + intros Hfull Hn s [Hs|Hs]%elem_of_app.
      * eapply fate_mono; [|exact Hsub|by apply Hf]. set_solver.
      * eapply (fate_mono _ _ _ l2); [|done|apply Hf2]; [set_solver|done|set_solver|done].
Qed.
End Safety.

(** ** Groups *)

Lemma addToGroup_perm s gs : List.concat (addToGroup s gs) ≡ₚ s :: List.concat gs.
Proof.
  induction gs as [|[|first g] gs IH]; simpl; [done|exact IH|].
  destruct (SessionEndHeight first =? SessionEndHeight s); simpl.
  - rewrite <- app_assoc. simpl. rewrite <- Permutation_middle. by rewrite Permutation_swap.
  - rewrite IH. rewrite <- Permutation_middle. by rewrite Permutation_swap.
Qed.

Lemma concat_perm {A} (gs hs : list (list A)) : gs ≡ₚ hs -> List.concat gs ≡ₚ List.concat hs.
Proof. induction 1; simpl; [done|by f_equiv|by rewrite !app_assoc, (Permutation_app_comm y)|by etrans]. Qed.

Lemma insertGroup_perm g gs : insertGroup g gs ≡ₚ g :: gs.
Proof. induction gs as [|h gs IH]; simpl; [done|]. destruct (_ <=? _); [|done]. rewrite IH. by rewrite Permutation_swap. Qed.

Lemma orderGroupsByWindow_perm gs : orderGroupsByWindow gs ≡ₚ gs.
Proof.
  unfold orderGroupsByWindow. assert (forall acc, foldl (fun acc g => insertGroup g acc) acc gs ≡ₚ (acc ++ gs)%list) as H; [|by rewrite H].
  induction gs as [|g gs IH]; intros acc; simpl; [by rewrite app_nil_r|]. rewrite IH, insertGroup_perm. simpl. by rewrite Permutation_middle.
Qed.

(** Each group holds exactly the sessions of its end height, in their order. *)
Definition partition_of (snapshots : list SessionSnapshot) (gs : list (list SessionSnapshot)) : Prop :=
  NoDup (map groupEnd gs) /\
  forall g, g ∈ gs -> g <> [] /\ g = List.filter (fun s => SessionEndHeight s =? groupEnd g) snapshots.

Lemma addToGroup_ends s gs : Forall (fun g => g <> []) gs ->
  map groupEnd (addToGroup s gs) = if decide (SessionEndHeight s ∈ map groupEnd gs) then map groupEnd gs else (map groupEnd gs ++ [SessionEndHeight s])%list.
Proof.
  induction gs as [|[|first g] gs IH]; intros Hne; [done| |]; inversion_clear Hne as [|? ? H1 H2]; [done|].
  simpl. destruct (Z.eqb_spec (SessionEndHeight first) (SessionEndHeight s)) as [Heq|Hneq]; simpl.
  - rewrite decide_True by set_solver. done.
  - rewrite (IH H2). destruct (decide (SessionEndHeight s ∈ map groupEnd gs)); [rewrite decide_True by set_solver|rewrite decide_False by set_solver]; done.
Qed.

Lemma addToGroup_elem s gs g : Forall (fun g => g <> []) gs -> NoDup (map groupEnd gs) -> g ∈ addToGroup s gs ->
  (g ∈ gs /\ groupEnd g <> SessionEndHeight s) \/ (exists g0, g0 ∈ gs /\ groupEnd g0 = SessionEndHeight s /\ g = (g0 ++ [s])%list) \/
  (g = [s] /\ SessionEndHeight s ∉ map groupEnd gs).
Proof.
  induction gs as [|[|first g'] gs IH]; intros Hne Hnd Hg; simpl in Hg.
  - apply list_elem_of_singleton in Hg as ->. right. right. set_solver.
  - by inversion Hne.
  - inversion_clear Hne as [|? ? _ Hne']. apply NoDup_cons in Hnd as [Hnin Hnd]. simpl in Hnin.
    destruct (Z.eqb_spec (SessionEndHeight first) (SessionEndHeight s)) as [Heq|Hneq].
    + apply elem_of_cons in Hg as [-> |Hg]; [right; left; exists (first :: g'); set_solver|]. left. split; [set_solver|].
      intros Hc. apply Hnin. rewrite Heq, <- Hc. by apply (list_elem_of_fmap_2 groupEnd).
    + apply elem_of_cons in Hg as [-> |Hg]; [left; set_solver|].
      destruct (IH Hne' Hnd Hg) as [[? ?]|[(g0 & ? & ? & ?)|[-> ?]]]; [left; set_solver|right; left; exists g0; set_solver|].
      right. right. split; [done|]. simpl. set_solver.
Qed.

Lemma groups_partition snapshots : partition_of snapshots (foldl (fun groups s => addToGroup s groups) [] snapshots).
Proof.
  induction snapshots as [|s snapshots IH] using rev_ind; [split; [constructor|set_solver]|]. rewrite foldl_snoc.
  set (gs := foldl _ _ snapshots) in *. destruct IH as [Hnd Hg].
  assert (Forall (fun g => g <> []) gs) as Hne by (apply Forall_forall; intros g Hin; by apply Hg). split.
  - rewrite addToGroup_ends by done. case_decide as Hd; [done|]. apply NoDup_app. split; [done|]. split; [set_solver|]. apply NoDup_singleton.
  - intros g Hin. rewrite List.filter_app. simpl.
    destruct (addToGroup_elem s gs g Hne Hnd Hin) as [[Hin' Hend]|[(g0 & Hin' & Hend & ->)|[-> Hnew]]].
    + destruct (Hg g Hin') as [? Hf]. split; [done|]. rewrite (proj2 (Z.eqb_neq _ _)) by congruence. by rewrite app_nil_r.
    + destruct (Hg g0 Hin') as [Hn0 Hf]. split; [by destruct g0|]. assert (groupEnd (g0 ++ [s]) = groupEnd g0) as -> by (by destruct g0).
      rewrite Hend, Z.eqb_refl. rewrite <- Hend. by f_equal.
    + split; [done|]. simpl. rewrite Z.eqb_refl.
      assert (List.filter (fun s0 => SessionEndHeight s0 =? SessionEndHeight s) snapshots = []) as ->; [|done].
      destruct (List.filter _ _) as [|t ts] eqn:Hf; [done|]. exfalso. apply Hnew.
      assert (In t (List.filter (fun s0 => SessionEndHeight s0 =? SessionEndHeight s) snapshots)) as [Ht Heq]%filter_In by (rewrite Hf; by left).
      apply Z.eqb_eq in Heq. rewrite <- Heq. 
      assert (t ∈ List.concat gs) as Htc.
      { unfold gs. clear -Ht. induction snapshots as [|u us IHu] using rev_ind; [done|]. rewrite foldl_snoc, addToGroup_perm.
        apply in_app_iff in Ht as [Ht|[->|[]]]; [right; by apply IHu|left]. }
      apply list_elem_of_In, in_concat in Htc as (g & Hgin & Htg). apply list_elem_of_In in Hgin. destruct (Hg g Hgin) as [_ Hgf].
      rewrite Hgf in Htg. apply filter_In in Htg as [_ Htg%Z.eqb_eq]. rewrite Htg. by apply (list_elem_of_fmap_2 groupEnd).
Qed.

Abbreviation ends_before := (fun g h : list SessionSnapshot => groupEnd g <= groupEnd h).

Lemma insertGroup_sorted g gs : StronglySorted ends_before gs -> StronglySorted ends_before (insertGroup g gs).
Proof.
  induction 1 as [|h gs Hs IH Hh]; simpl; [repeat constructor|]. destruct (Z.leb_spec (groupEnd h) (groupEnd g)).
  - constructor; [done|]. rewrite insertGroup_perm. by constructor.
  - constructor; [by constructor|]. constructor; [lia|]. eapply Forall_impl; [exact Hh|]. simpl. lia.
Qed.

Lemma orderGroupsByWindow_sorted gs : StronglySorted ends_before (orderGroupsByWindow gs).
Proof.
  unfold orderGroupsByWindow. assert (forall acc, StronglySorted ends_before acc -> StronglySorted ends_before (foldl (fun acc g => insertGroup g acc) acc gs)) as H.
  { induction gs as [|g gs IH]; intros acc Hacc; simpl; [done|]. by apply IH, insertGroup_sorted. }
  apply H. constructor.
Qed.

Lemma sorted_strictly gs : StronglySorted ends_before gs -> NoDup (map groupEnd gs) -> StronglySorted (fun g h => groupEnd g < groupEnd h) gs.
Proof.
  induction 1 as [|g gs Hs IH Hg]; simpl; [constructor|]. intros [Hnin Hnd]%NoDup_cons. constructor; [by apply IH|].
  apply Forall_forall. intros h Hh. pose proof (proj1 (Forall_forall _ _) Hg h Hh) as Hle. simpl in Hle.
  assert (groupEnd g <> groupEnd h); [|lia]. intros Heq. apply Hnin. rewrite Heq. by apply (list_elem_of_fmap_2 groupEnd).
Qed.

Lemma groups_perm snapshots : List.concat (groupByEndHeight snapshots) ≡ₚ snapshots.
Proof.
  unfold groupByEndHeight. rewrite (concat_perm _ _ (orderGroupsByWindow_perm _)).
  induction snapshots as [|s snapshots IH] using rev_ind; [done|]. rewrite foldl_snoc, addToGroup_perm, IH. by rewrite Permutation_app_comm.
Qed.

(** Sessions are batched by window and the window that closes first goes
    first. The groups of a claim cycle are exactly the sessions of each end
    height, in the order they came, each end height once, by ascending end
    height; no session is lost or repeated. *)
Theorem groups_by_window snapshots :
  let gs := groupByEndHeight snapshots in
  List.concat gs ≡ₚ snapshots /\ StronglySorted (fun g h => groupEnd g < groupEnd h) gs /\
  forall g, g ∈ gs -> g <> [] /\ g = List.filter (fun s => SessionEndHeight s =? groupEnd g) snapshots.
Proof.
  intros gs. unfold gs, groupByEndHeight. set (unordered := foldl _ _ _). destruct (groups_partition snapshots) as [Hnd Hg]. fold unordered in Hnd, Hg.
  pose proof (orderGroupsByWindow_perm unordered) as Hp. split_and!.
  - apply groups_perm.
  - apply sorted_strictly; [apply orderGroupsByWindow_sorted|]. by rewrite (fmap_Permutation groupEnd _ _ Hp).
  - intros g Hin. apply Hg. by rewrite <- Hp.
Qed.

Section Claims.
Context {Params : Type} `{SW : !SharedWindows Params} {Difficulty : Type}.
Variables (cfg : LifecycleCallbackConfig) (wired : Wiring).
Variables (smt_Count smt_Sum : string -> option Z) (marshal_claim : MsgCreateClaim -> option string).
Variable GetClaimeduPOKT : MsgCreateClaim -> Params -> Difficulty -> option (option Z).
Abbreviation OnSessionsNeedClaim := (OnSessionsNeedClaim (callbackConfig cfg) wired smt_Count smt_Sum marshal_claim GetClaimeduPOKT).

Lemma callback_attempts : 1 <= ClaimRetryAttempts (callbackConfig cfg) /\ 1 <= ProofRetryAttempts (callbackConfig cfg).
Proof. unfold callbackConfig. simpl. repeat case_match; lia. Qed.

Lemma grouped snapshots s : s ∈ List.concat (groupByEndHeight snapshots) <-> s ∈ snapshots.
Proof. by rewrite groups_perm. Qed.

(** C9. A session is reported claimed only when its claim reached the node.
    Whatever the chain, the node, the trees and the stores answer, and however
    many claims were ejected from the batch on the way, a session the cycle
    names as claimed was in the input with no claim sent before; the node
    accepted a transaction that carries its own claim, the one of the root its
    tree was flushed to, whether it was signed in that attempt or sent again
    with bytes signed for exactly these claims; and the coordinator was told
    that root and the accepted transaction's hash, and the reconciler's entry
    was written with that message and hash. *)
Theorem claimed_only_when_accepted snapshots l claimed errs sid :
  runs (OnSessionsNeedClaim snapshots) [] l (claimed, errs) -> sid ∈ claimed ->
  claimed_ok wired smt_Count smt_Sum marshal_claim snapshots sid l.
Proof.
  intros Hr Hs. pose proof (wp_runs _ _ _ _ _ (claimGroups_wp (callbackConfig cfg) wired smt_Count smt_Sum marshal_claim GetClaimeduPOKT
    (groupByEndHeight snapshots) [] (proj1 callback_attempts)) Hr) as [Hc _].
  eapply claimed_ok_mono; [|done|exact (Hc sid Hs)]. intros s. by rewrite grouped.
Qed.


(** C39. The claim retry loop ends, whatever the node answers. A batch of n
    claims is sent at most attempts + n - 1 times: an ejection takes a claim out
    without spending an attempt and is only possible while two are left, every
    other failure spends one. *)
Theorem claim_sends_bounded {W} (h : forall c, W -> W * answer (Effect := CallEffect (Params := Params) (Difficulty := Difficulty)) c) (w : W)
    close earliest budget regime (b : Batch) :
  let attempts := ClaimRetryAttempts (callbackConfig cfg) in
  let n := List.length (ba_remaining b) in
  let '(_, l, ended) := interp h (submitClaims (callbackConfig cfg) wired marshal_claim close earliest budget regime (Z.to_nat attempts + n) 1 b) w [] in
  ended <> SubmitStuck /\ Z.of_nat (sends l) <= attempts + Z.max 1 (Z.of_nat n) - 1.
Proof.
  intros attempts n. destruct (interp h _ w []) as [[w' l] ended] eqn:Hi. apply interp_runs in Hi. pose proof (proj1 callback_attempts) as Ha.
  eapply wp_runs in Hi; [|apply submitClaims_ends; [done|unfold turns_left; fold attempts n; lia]].
  destruct Hi as [He Hs]. split; [done|]. unfold turns_left in Hs. fold attempts n in Hs. simpl in Hs. lia.
Qed.
End Claims.
