(* ===== verification/ProofCycle.v ===== *)
(** * The proof cycle (LifecycleCallback.OnSessionsNeedProof)

    One transaction per session. The session waits for its window and for the
    block whose hash decides both whether a proof is required and which leaf it
    has to prove; the chain is asked for the claim, the requirement is computed
    twice, the proof is built in the shape the chain takes, and sent. With it
    the requirement check (miner/proof_requirement.go) and the proof shape
    (miner/proof_shape.go). *)

From S2P Require Import Prelude Program SessionState StoreSpec SessionLifecycle SessionCoordinator GoFloat RebroadcastStore TxClient InclusionReconciler ClaimPages LifecycleCallback ClaimCycle.
From Stdlib Require Import Ascii String.

Local Open Scope string_scope.
Local Open Scope Z_scope.

(** ** Data *)

(** Why a requirement could not be decided. *)
Inductive CheckErr := ErrClaimedRootUnavailable | ErrClaimedRootUnreadable | ErrCheckFailed.

Definition FLe (x y : float64) : bool :=
  let e := Z.min (f_e x) (f_e y) in f_m x * 2 ^ (f_e x - e) <=? f_m y * 2 ^ (f_e y - e).

(** A proof that was built, with its task's index. *)
Record ProofBuilt := mkProofBuilt { pb_index : nat; pb_snapshot : SessionSnapshot; pb_msg : MsgSubmitProof }.
Inductive proofBuildResult := ProofOk (b : ProofBuilt) | ProofFailed (s : SessionSnapshot).

Definition proofs_of (rs : list proofBuildResult) : list ProofBuilt := omap (fun r => match r with ProofOk b => Some b | ProofFailed _ => None end) rs.

(** [alignProofBatch]: by index. *)
Fixpoint insertByIndex (b : ProofBuilt) (bs : list ProofBuilt) : list ProofBuilt :=
  match bs with
  | [] => [b]
  | c :: bs => if Nat.leb (pb_index c) (pb_index b) then c :: insertByIndex b bs else b :: c :: bs
  end.
Definition alignProofBatch (built : list ProofBuilt) : list ProofBuilt := foldl (fun acc b => insertByIndex b acc) [] built.

(** How sending ended. *)
Inductive ProofEnd :=
| ProofsAccepted
| ProofsNotRequired
| ProofsDeferred
| ProofsWindowClosed
| ProofsCancelled
| ProofsFailed (signed : SignedTxPayload) (err : SubmitErr).

Definition weightedProofRequiredText : string := "not a weighted merkle proof".

(** The height of the earliest proof of a supplier (poktroll's
    GetEarliestSupplierProofCommitHeight), the path a block and a session give
    (GetPathForProof), the claimed amount and the sample value of a claim are
    library code. *)
Section ProofCycle.
Context {Params : Type} `{SW : !SharedWindows Params} {Difficulty : Type}.
Variables (cfg : LifecycleCallbackConfig) (wired : Wiring).
Variables (marshal_proof : MsgSubmitProof -> option string) (earliestCommit : Params -> Z -> string -> Z) (GetPathForProof : string -> string -> string).
Variables (GetClaimeduPOKT : MsgCreateClaim -> Params -> Difficulty -> option (option Z)) (sampleValue : MsgCreateClaim -> string -> option float64).
Abbreviation prog := (prog Call (E := CallEffect (Params := Params) (Difficulty := Difficulty))).
Abbreviation perform c := (perform (E := CallEffect (Params := Params) (Difficulty := Difficulty)) c).

Local Open Scope prog_scope.

(** ** Whether a proof is required *)

(** [resolveClaimedRoot]: the session with its claimed root, read back from the
    tree when the snapshot has none. *)
Definition resolveClaimedRoot (s : SessionSnapshot) : prog (result SessionSnapshot CheckErr) :=
  if negb (String.eqb (ClaimedRootHash s) "") then Ret (Ok s)
  else if negb (hasRootProvider wired) then Ret (Err ErrClaimedRootUnavailable)
  else
    rehydrated <- perform (CTreeRoot (SessionID s));
    match rehydrated with
    | Err RootBusy => Ret (Err ErrClaimedRootUnreadable)
    | Err RootLost => Ret (Err ErrClaimedRootUnavailable)
    | Ok root =>
        if String.eqb root "" then Ret (Err ErrClaimedRootUnavailable)
        else perform (CSetRoot (SessionID s) root) ;; Ret (Ok (set_claim root (ClaimTxHash s) s))
    end.

Definition claimFromSnapshot (s : SessionSnapshot) : MsgCreateClaim := mkClaim (SupplierOperatorAddress s) (headerOf s) (ClaimedRootHash s).

(** The rule: at or above the threshold, or sampled. GetClaimeduPOKT answers an
    amount or an error. *)
Definition requiredBy (pp : ProofParams) (amount : Z) (sample : option float64) : option bool :=
  if pp_Threshold pp <=? amount then Some true
  else match sample with Some v => Some (FLe v (pp_Probability pp)) | None => None end.

(** [IsProofRequired]: the verdict, and the session with its root. *)
Definition IsProofRequired (s : SessionSnapshot) (seedBlockHash : string) : prog (result (SessionSnapshot * bool) (SessionSnapshot * CheckErr)) :=
  resolved <- resolveClaimedRoot s;
  match resolved with
  | Err e => Ret (Err (s, e))
  | Ok s =>
      let claim := claimFromSnapshot s in
      proofParams <- perform CProofParams;
      match proofParams with
      | None => Ret (Err (s, ErrCheckFailed))
      | Some pp =>
          sharedParams <- perform (CParams (SessionStartHeight s));
          match sharedParams with
          | None => Ret (Err (s, ErrCheckFailed))
          | Some sp =>
              difficulty <- perform (CDifficulty (ServiceID s) (SessionStartHeight s));
              match difficulty with
              | None => Ret (Err (s, ErrCheckFailed))
              | Some d =>
                  match GetClaimeduPOKT claim sp d with
                  | Some (Some amount) =>
                      match requiredBy pp amount (sampleValue claim seedBlockHash) with
                      | Some required => Ret (Ok (s, required))
                      | None => Ret (Err (s, ErrCheckFailed))
                      end
                  | _ => Ret (Err (s, ErrCheckFailed))
                  end
              end
          end
      end
  end.

(** The check and what it sets off; the session when a proof is to be sent. The
    cycle runs it twice with the same text. *)
Definition checkRequirement (seedBlockHash : string) (s : SessionSnapshot) : prog (option SessionSnapshot) :=
  checked <- IsProofRequired s seedBlockHash;
  match checked with
  | Err (s, ErrClaimedRootUnreadable) => deferProof wired s ;; Ret None
  | Err (s, ErrClaimedRootUnavailable) =>
      (if hasCoordinator wired then perform (COnProofTxError (SessionID s)) else Ret true) ;; Ret None
  | Err (s, ErrCheckFailed) => Ret (Some s)
  | Ok (s, false) =>
      perform (CBook (PkProbabilisticProved s)) ;;
      (if hasCoordinator wired then perform (COnProbabilisticProved (SessionID s)) else Ret true) ;; Ret None
  | Ok (s, true) => Ret (Some s)
  end.

(** ** What the chain says of the claim *)

(** The guard before a proof: [None] to go on, or whether the session is
    settled. *)
Definition preProofGuard (params : Params) (sessionEndHeight proofWindowClose : Z) (s : SessionSnapshot) : prog (option bool) :=
  if DisablePreProofClaimVerification cfg || negb (hasProofQueryClient wired) then Ret None
  else
    reply <- perform (CGetClaim (SupplierOperatorAddress s) (SessionID s));
    match reply with
    | ClaimIs (Some VALIDATED) => Ret (Some true)
    | ClaimIs (Some PENDING_VALIDATION) | ClaimIs None | ClaimNoAnswer => Ret None
    | ClaimIs (Some _) => Ret (Some false)
    | ClaimAbsent answeredHeight =>
        height <- perform CHeight;
        if height + 1 <? proofWindowClose then deferProof wired s ;; Ret (Some false)
        else if answeredHeight <? GetClaimWindowCloseHeight params sessionEndHeight then Ret None
        else (if hasCoordinator wired then perform (COnClaimMissing (SessionID s)) else Ret true) ;; Ret (Some false)
    end.

(** One session before its proof: the settled IDs, and the session when a proof
    is to be sent. *)
Definition preProof (params : Params) (sessionEndHeight proofWindowClose : Z) (seedBlockHash : string) (s : SessionSnapshot) : prog (list string * option SessionSnapshot) :=
  if negb (String.eqb (ProofTxHash s) "") then Ret ([], None)
  else
    guarded <- preProofGuard params sessionEndHeight proofWindowClose s;
    match guarded with
    | Some settled => Ret (if (settled : bool) then [SessionID s] else [], None)
    | None =>
        if hasProofChecker wired then needed <- checkRequirement seedBlockHash s; Ret ([], needed)
        else Ret ([], Some s)
    end.

(** ** The shape of proofs *)

(** [ProofShape.Weighted]. *)
Definition Weighted (blockHeight : Z) : prog bool :=
  if negb (hasProofShape wired) then Ret true
  else
    weighted <- perform CShapeWeighted;
    if (weighted : bool) then Ret true
    else
      notAppliedAt <- perform CShapeNotAppliedAt;
      if (0 <? blockHeight) && (notAppliedAt =? blockHeight) then Ret false
      else
        applied <- perform CUpgrade;
        match applied with
        | None => Ret false
        | Some height =>
            if height <=? 0 then perform (CShapeSetNotApplied blockHeight) ;; Ret false
            else perform CShapeSetWeighted ;; Ret true
        end.

(** [LearnFromRefusal]. *)
Definition LearnFromRefusal (err : SubmitErr) : prog bool :=
  if negb (hasProofShape wired) || negb (contains weightedProofRequiredText (se_text err)) then Ret false
  else perform CShapeSetWeighted ;; Ret true.

(** ** Builds *)

Definition buildProof (weighted : bool) (seedBlockHash : string) (task : nat * SessionSnapshot) : prog proofBuildResult :=
  let '(index, s) := task in
  proved <- perform (CProve weighted (SessionID s) (GetPathForProof seedBlockHash (SessionID s)));
  match proved with
  | None => Ret (ProofFailed s)
  | Some proofBytes =>
      header <- buildSessionHeader wired s;
      Ret (ProofOk (mkProofBuilt index s (mkProof (SupplierOperatorAddress s) header proofBytes)))
  end.

(** ** Sending *)

(** [markAndCountProofWindowClosed] of every session. *)
Definition closeProofs (snapshots : list SessionSnapshot) : prog unit :=
  each (fun s => ok <- (if hasCoordinator wired then perform (COnProofWindowClosed s) else Ret true);
                 when ok (perform (CBook (PkWindowClosed s)))) snapshots.

(** [settleNotRequiredBatch]: the session the chain named was not required to
    prove; the others failed. *)
Definition settleNotRequiredBatch (submitErr : SubmitErr) (snapshots : list SessionSnapshot) : prog unit :=
  let named := namedMessageIndex submitErr (List.length snapshots) in
  each (fun task : nat * SessionSnapshot =>
    let '(i, s) := task in
    if bool_decide (named = Some i) then
      perform (CBook (PkProbabilisticProved s)) ;;
      (if hasCoordinator wired then perform (COnProbabilisticProved (SessionID s)) else Ret true) ;; Ret tt
    else
      perform (CBook (PkTxError s false)) ;;
      (if hasCoordinator wired then perform (COnProofTxError (SessionID s)) else Ret true) ;; Ret tt) (imap pair snapshots).

Definition persistProofs (batch : list ProofBuilt) (submitHeight : Z) (txHash : string) (signed : SignedTxPayload) (attemptErr : option TxError)
    (budget : Z) (regime : string) : prog unit :=
  each (fun b => match marshal_proof (pb_msg b) with
                 | None => Ret tt
                 | Some msgBytes =>
                     putEntry RebroadcastPhaseProof (pb_snapshot b) (mkSubmission msgBytes submitHeight txHash signed attemptErr budget regime) ;; Ret tt
                 end) batch.

(** What an accepted transaction sets off. *)
Definition proofsAccepted (batch : list ProofBuilt) (proofTxHash : string) (signed : SignedTxPayload) (earliest budget : Z) (regime seed : string) : prog unit :=
  currentHeight <- perform CHeight;
  when (hasCoordinator wired) (each (fun b => perform (COnProofSubmitted (SessionID (pb_snapshot b)) proofTxHash) ;; Ret tt) batch) ;;
  each (fun b => perform (CBook (PkProved (pb_snapshot b)))) batch ;;
  when (hasSubmissionTracker wired)
    (each (fun b => perform (CTrackProof (mkProofTrack (pb_snapshot b) (mp_Proof (pb_msg b)) proofTxHash true "" earliest currentHeight seed))) batch) ;;
  when (hasRebroadcastStore wired && negb (String.eqb proofTxHash "")) (persistProofs batch currentHeight proofTxHash signed None budget regime).

(** The retry loop; [left_] attempts are left. Without any the cycle does
    nothing, which [callbackConfig] excludes. *)
Fixpoint submitProofs (weighted : bool) (proofWindowClose earliest budget : Z) (regime seed : string) (left_ : nat) (batch : list ProofBuilt)
    (signed : SignedTxPayload) (lastErr : option SubmitErr) : prog ProofEnd :=
  match left_ with
  | O => Ret (match lastErr with Some err => ProofsFailed signed err | None => ProofsDeferred end)
  | S left_ =>
      height <- perform CHeight;
      shape <- Weighted height;
      if negb (Bool.eqb shape weighted) then deferProofs wired (map pb_snapshot batch) ;; Ret ProofsDeferred
      else
        unpack (txHash, signed, submitErr) <- resendOrSignProofs proofWindowClose budget regime signed lastErr (map pb_msg batch);
        match submitErr with
        | None => proofsAccepted batch txHash signed earliest budget regime seed ;; Ret ProofsAccepted
        | Some err =>
            if errors_Is (Some (se_err err)) ErrTxProofNotRequired then
              settleNotRequiredBatch err (map pb_snapshot batch) ;; Ret ProofsNotRequired
            else
              learned <- (if weighted then Ret false else LearnFromRefusal err);
              if (learned : bool) then deferProofs wired (map pb_snapshot batch) ;; Ret ProofsDeferred
              else
                let windowRefusal := isWindowRefusal "proof window" "proof_window" err in
                final <- (if windowRefusal then windowRefusalIsFinal err proofWindowClose else Ret true);
                if windowRefusal && negb final then deferProofs wired (map pb_snapshot batch) ;; Ret ProofsDeferred
                else if windowRefusal then closeProofs (map pb_snapshot batch) ;; Ret ProofsWindowClosed
                else match left_ with
                     | O => Ret (ProofsFailed signed err)
                     | S _ =>
                         cancelled <- perform CPause;
                         if (cancelled : bool) then Ret ProofsCancelled
                         else submitProofs weighted proofWindowClose earliest budget regime seed left_ batch signed (Some err)
                     end
        end
  end.

(** After the attempts are spent. *)
Definition proofsFailed (batch : list ProofBuilt) (signed : SignedTxPayload) (err : SubmitErr) (earliest budget : Z) (regime seed : string) : prog unit :=
  (if nothingWasSpent (Some (se_err err)) then Ret tt
   else each (fun b => perform (CBook (PkTxError (pb_snapshot b) (hasRebroadcastStore wired))) ;;
                       (if hasCoordinator wired then perform (COnProofTxError (SessionID (pb_snapshot b))) else Ret true) ;; Ret tt) batch) ;;
  when (hasSubmissionTracker wired)
    (each (fun b => height <- perform CHeight;
                    perform (CTrackProof (mkProofTrack (pb_snapshot b) (mp_Proof (pb_msg b)) "" false (se_text err) earliest height seed))) batch) ;;
  when (hasRebroadcastStore wired)
    (height <- perform CHeight;
     persistProofs batch height "" signed (Some (se_err err)) budget regime).

(** ** A group *)

Definition proofGroup (group : list SessionSnapshot) : prog GroupEnd :=
  let sessionEndHeight := groupEnd group in
  params <- perform (CParams sessionEndHeight);
  match params with
  | None => deferProofs wired group ;; Ret (mkGroupEnd [] (Some CeParams) false)
  | Some params =>
      let open := GetProofWindowOpenHeight params sessionEndHeight in
      let close := GetProofWindowCloseHeight params sessionEndHeight in
      opened <- waitForHeight cfg close open;
      if negb opened then deferProofs wired group ;; Ret (mkGroupEnd [] (Some CeWait) false)
      else
        let earliest := earliestCommit params sessionEndHeight (match group with s :: _ => SupplierOperatorAddress s | [] => "" end) in
        seedBlock <- waitForBlock cfg close (earliest - 1);
        match seedBlock with
        | None => deferProofs wired group ;; Ret (mkGroupEnd [] (Some CeSeed) false)
        | Some seed =>
            checked <- collect (preProof params sessionEndHeight close seed) group;
            let settled := List.concat (map fst checked) in
            let needing := omap snd checked in
            match needing with
            | [] => Ret (mkGroupEnd settled None false)
            | _ =>
                reached <- waitForHeight cfg close earliest;
                if negb reached then deferProofs wired needing ;; Ret (mkGroupEnd settled (Some CeWait) false)
                else
                  height <- perform CHeight;
                  if close <=? height then closeProofs needing ;; Ret (mkGroupEnd settled (Some CeTooLate) false)
                  else
                    rechecked <- (if hasProofChecker wired then collect (checkRequirement seed) needing else Ret (map Some needing));
                    let needing := omap id rechecked in
                    match needing with
                    | [] => Ret (mkGroupEnd settled None false)
                    | _ =>
                        height <- perform CHeight;
                        weighted <- Weighted height;
                        results <- collect (buildProof weighted seed) (imap pair needing);
                        order <- perform CArrivals;
                        let built := proofs_of (shuffle order results) in
                        match built with
                        | [] => Ret (mkGroupEnd settled (Some CeBuild) false)
                        | _ =>
                            let batch := alignProofBatch built in
                            height <- perform CHeight;
                            if close <=? height then closeProofs (map pb_snapshot batch) ;; Ret (mkGroupEnd settled (Some CeClosedWhileBuilding) false)
                            else
                              let '(budget, regime) := WindowTimeout (close - open) (BlockTimeSeconds cfg) in
                              ended <- submitProofs weighted close earliest budget regime seed (Z.to_nat (ProofRetryAttempts cfg)) batch no_payload None;
                              match ended with
                              | ProofsAccepted => Ret (mkGroupEnd (settled ++ map SessionID group)%list None false)
                              | ProofsNotRequired | ProofsDeferred | ProofsWindowClosed => Ret (mkGroupEnd settled None false)
                              | ProofsCancelled => Ret (mkGroupEnd settled (Some CeCancelled) true)
                              | ProofsFailed signed err =>
                                  proofsFailed batch signed err earliest budget regime seed ;; Ret (mkGroupEnd settled (Some CeSubmit) false)
                              end
                        end
                    end
            end
        end
  end.

Fixpoint proofGroups (groups : list (list SessionSnapshot)) : prog (list string * list CycleErr) :=
  match groups with
  | [] => Ret ([], [])
  | g :: groups =>
      ended <- proofGroup g;
      let errs := match ge_err ended with Some e => [e] | None => [] end in
      if ge_stop ended then Ret (ge_claimed ended, errs)
      else unpack (settled, errs') <- proofGroups groups; Ret ((ge_claimed ended ++ settled)%list, (errs ++ errs')%list)
  end.

(** [OnSessionsNeedProof]: the session IDs settled and the joined error. *)
Definition OnSessionsNeedProof (snapshots : list SessionSnapshot) : prog (list string * list CycleErr) :=
  proofGroups (groupOnePerSession snapshots).
End ProofCycle.
