(* ===== verification/ProofCycleSafety.v ===== *)
(** * What the proof cycle guarantees

    Of every run of OnSessionsNeedProof, whatever is answered: a session is
    reported settled only when its proof was accepted or the chain had validated
    it; it is taken as proved without a proof only when the chain's own rule, on
    the chain's own block, does not require one; and every session has a fate
    ([pfate]). *)

From S2P Require Import Prelude Program SessionState StoreSpec SessionLifecycle SessionCoordinator GoFloat RebroadcastStore TxClient InclusionReconciler ClaimPages LifecycleCallback ClaimCycle ClaimCycleSafety ProofCycle.
From Stdlib Require Import Ascii String.

Local Open Scope string_scope.
Local Open Scope Z_scope.

Section Safety.
Context {Params : Type} `{SW : !SharedWindows Params} {Difficulty : Type}.
Variables (cfg : LifecycleCallbackConfig) (wired : Wiring).
Variables (marshal_proof : MsgSubmitProof -> option string) (earliestCommit : Params -> Z -> string -> Z) (GetPathForProof : string -> string -> string).
Variables (GetClaimeduPOKT : MsgCreateClaim -> Params -> Difficulty -> option (option Z)) (sampleValue : MsgCreateClaim -> string -> option float64).
Abbreviation E := (CallEffect (Params := Params) (Difficulty := Difficulty)).
Abbreviation event := (event Call (E := E)).
Abbreviation Ev := (Ev (E := E)).
Abbreviation prog := (prog Call (E := E)).
Abbreviation proofGroup := (proofGroup cfg wired marshal_proof earliestCommit GetPathForProof GetClaimeduPOKT sampleValue).
Abbreviation proofGroups := (proofGroups cfg wired marshal_proof earliestCommit GetPathForProof GetClaimeduPOKT sampleValue).
Abbreviation checkRequirement := (checkRequirement wired GetClaimeduPOKT sampleValue).
Abbreviation preProof := (preProof cfg wired GetClaimeduPOKT sampleValue).
Abbreviation submitProofs := (submitProofs (Params := Params) (Difficulty := Difficulty) wired marshal_proof).
Implicit Types (l : list event) (s : SessionSnapshot) (sid : string) (x : ProofBuilt).

(** ** Evidence in the calls *)

(** The hash of the block before the supplier's earliest proof. *)
Definition seed_of s (seed : string) l : Prop :=
  exists params, Ev (CParams (SessionEndHeight s)) (Some params) ∈ l /\
    Ev (CBlock (earliestCommit params (SessionEndHeight s) (SupplierOperatorAddress s) - 1)) (Some seed) ∈ l.

(** [x] proves the leaf the seed block selects in its own session's tree. *)
Definition proof_from s x l : Prop :=
  SessionID (pb_snapshot x) = SessionID s /\ ServiceID (pb_snapshot x) = ServiceID s /\
  mp_SupplierOperatorAddress (pb_msg x) = SupplierOperatorAddress s /\
  exists seed weighted, seed_of s seed l /\ Ev (CProve weighted (SessionID s) (GetPathForProof seed (SessionID s))) (Some (mp_Proof (pb_msg x))) ∈ l.

Definition proof_signed (close budget : Z) (regime : string) (msg : MsgSubmitProof) (p : SignedTxPayload) l : Prop :=
  exists hash err, Ev (CSubmitProofs close budget regime [msg]) (hash, p, err) ∈ l.

(** What the node answered to a transaction with exactly this message. *)
Definition proof_answered (close budget : Z) (regime : string) (msg : MsgSubmitProof) (p : SignedTxPayload) (hash : string) (err : option SubmitErr) l : Prop :=
  Ev (CSubmitProofs close budget regime [msg]) (hash, p, err) ∈ l \/
  (proof_signed close budget regime msg p l /\ Ev (CResend RebroadcastPhaseProof p) (hash, err) ∈ l).
Definition proof_accepted (close budget : Z) (regime : string) (msg : MsgSubmitProof) (p : SignedTxPayload) (hash : string) l : Prop :=
  proof_answered close budget regime msg p hash None l.

Definition proof_recorded (budget : Z) (regime : string) (p : SignedTxPayload) (hash : string) x l : Prop :=
  (hasCoordinator wired = true -> exists ok, Ev (COnProofSubmitted (SessionID (pb_snapshot x)) hash) ok ∈ l) /\
  (hasRebroadcastStore wired = true -> hash <> "" -> forall bytes, marshal_proof (pb_msg x) = Some bytes ->
   exists height ok, Ev (CPut RebroadcastPhaseProof (pb_snapshot x)
                           (newEntry (ServiceID (pb_snapshot x)) (mkSubmission bytes height hash p None budget regime))) ok ∈ l).

(** The chain validated the proof already, or the node accepted one. *)
Definition settled_ok s l : Prop :=
  ProofTxHash s = "" /\
  (Ev (CGetClaim (SupplierOperatorAddress s) (SessionID s)) (ClaimIs (Some VALIDATED)) ∈ l \/
   exists x close budget regime p hash, proof_from s x l /\ proof_accepted close budget regime (pb_msg x) p hash l /\ proof_recorded budget regime p hash x l).

(** The store was given the session's proof and answered. *)
Definition proof_put (ok : bool) x l : Prop :=
  exists bytes e, marshal_proof (pb_msg x) = Some bytes /\ e_MsgBytes e = bytes /\ Ev (CPut RebroadcastPhaseProof (pb_snapshot x) e) ok ∈ l.

(** The reconciler has the proof built for the session. *)
Definition proof_handed s l : Prop := exists x, proof_from s x l /\ proof_put true x l.

(** It cannot have it, and the last answer to the proof says nothing was spent:
    the node holds the transaction already, or had no room for it. *)
Definition proof_unspent s l : Prop :=
  exists x close budget regime p hash err, proof_from s x l /\
    (hasRebroadcastStore wired = false \/ marshal_proof (pb_msg x) = None \/ proof_put false x l) /\
    proof_answered close budget regime (pb_msg x) p hash (Some err) l /\ nothingWasSpent (Some (se_err err)) = true.

(** What became of a session. *)
Inductive pfate (settled : list string) s l : Prop :=
| pfate_settled : SessionID s ∈ settled -> pfate settled s l
| pfate_sent_before : ProofTxHash s <> "" -> pfate settled s l
| pfate_judged st : st <> PENDING_VALIDATION -> Ev (CGetClaim (SupplierOperatorAddress s) (SessionID s)) (ClaimIs (Some st)) ∈ l -> pfate settled s l
| pfate_claim_missing ok : Ev (COnClaimMissing (SessionID s)) ok ∈ l -> pfate settled s l
| pfate_deferred ok : Ev (COnProofDeferred (SessionID s)) ok ∈ l -> pfate settled s l
| pfate_not_required ok : Ev (COnProbabilisticProved (SessionID s)) ok ∈ l -> pfate settled s l
| pfate_tx_error ok : Ev (COnProofTxError (SessionID s)) ok ∈ l -> pfate settled s l
| pfate_window_closed s' ok : SessionID s' = SessionID s -> Ev (COnProofWindowClosed s') ok ∈ l -> pfate settled s l
| pfate_unbuilt weighted path : Ev (CProve weighted (SessionID s) path) None ∈ l -> pfate settled s l
| pfate_handed : proof_handed s l -> pfate settled s l
| pfate_unspent : proof_unspent s l -> pfate settled s l.

Lemma seed_of_mono s seed l l' : (forall e, e ∈ l -> e ∈ l') -> seed_of s seed l -> seed_of s seed l'.
Proof. intros H (params & ? & ?). exists params. auto. Qed.
Lemma proof_from_mono s x l l' : (forall e, e ∈ l -> e ∈ l') -> proof_from s x l -> proof_from s x l'.
Proof. intros H (? & ? & ? & seed & w & ? & ?). do 3 (split; [done|]). exists seed, w. split; [by eapply seed_of_mono|auto]. Qed.
Lemma proof_signed_mono close budget regime msg p l l' : (forall e, e ∈ l -> e ∈ l') -> proof_signed close budget regime msg p l -> proof_signed close budget regime msg p l'.
Proof. intros H (h & e & ?). exists h, e. auto. Qed.
Lemma proof_answered_mono close budget regime msg p hash err l l' :
  (forall e, e ∈ l -> e ∈ l') -> proof_answered close budget regime msg p hash err l -> proof_answered close budget regime msg p hash err l'.
Proof. intros H [?|[? ?]]; [left; auto|right; split; eauto using proof_signed_mono]. Qed.
Lemma proof_accepted_mono close budget regime msg p hash l l' :
  (forall e, e ∈ l -> e ∈ l') -> proof_accepted close budget regime msg p hash l -> proof_accepted close budget regime msg p hash l'.
Proof. apply proof_answered_mono. Qed.
Lemma proof_put_mono ok x l l' : (forall e, e ∈ l -> e ∈ l') -> proof_put ok x l -> proof_put ok x l'.
Proof. intros H (b & e & ? & ? & ?). exists b, e. auto. Qed.
Lemma proof_recorded_mono budget regime p hash x l l' :
  (forall e, e ∈ l -> e ∈ l') -> proof_recorded budget regime p hash x l -> proof_recorded budget regime p hash x l'.
Proof.
  intros H [H1 H2]. split.
  - intros Hc. destruct (H1 Hc) as (ok & ?). eauto.
  - intros Hc Hh bytes Hm. destruct (H2 Hc Hh bytes Hm) as (h & ok & ?). eauto.
Qed.
Lemma settled_ok_mono s l l' : (forall e, e ∈ l -> e ∈ l') -> settled_ok s l -> settled_ok s l'.
Proof.
  intros H (? & [?|(x & close & budget & regime & p & hash & ? & ? & ?)]); (split; [done|]); [left; auto|right].
  exists x, close, budget, regime, p, hash. split; [by eapply proof_from_mono|]. split; [by eapply proof_accepted_mono|by eapply proof_recorded_mono].
Qed.
Lemma pfate_mono settled settled' s l l' :
  (forall sid, sid ∈ settled -> sid ∈ settled') -> (forall e, e ∈ l -> e ∈ l') -> pfate settled s l -> pfate settled' s l'.
Proof.
  intros Hs H [?|?|st ? ?|ok ?|ok ?|ok ?|ok ?|s' ok ? ?|w path ?|(x & ? & ?)|(x & close & budget & regime & p & hash & err & ? & Hn & ? & ?)].
  - apply pfate_settled. auto.
  - by apply pfate_sent_before.
  - eapply pfate_judged; eauto.
  - eapply pfate_claim_missing; eauto.
  - eapply pfate_deferred; eauto.
  - eapply pfate_not_required; eauto.
  - eapply pfate_tx_error; eauto.
  - eapply pfate_window_closed; eauto.
  - eapply pfate_unbuilt; eauto.
  - apply pfate_handed. exists x. split; [by eapply proof_from_mono|by eapply proof_put_mono].
  - apply pfate_unspent. exists x, close, budget, regime, p, hash, err. split_and!; [by eapply proof_from_mono| |by eapply proof_answered_mono|done].
    destruct Hn as [?|[?|?]]; [by left|right; by left|right; right; by eapply proof_put_mono].
Qed.

(** The manager sets the coordinator. *)
Abbreviation pfull := (hasCoordinator wired = true).

(** ** Before the proof *)

Definition same s s' : Prop :=
  SessionID s' = SessionID s /\ ServiceID s' = ServiceID s /\ SupplierOperatorAddress s' = SupplierOperatorAddress s.

Lemma deferProof_wp s s' l : SessionID s' = SessionID s ->
  wp (deferProof (Params := Params) (Difficulty := Difficulty) wired s') l (fun l' _ => pfull -> pfate [] s l').
Proof.
  intros Hs. apply wp_assume. intros Hc. unfold deferProof. rewrite Hc, Hs. cbn [negb wp pbind perform].
  intros [] ; [intros []; apply (pfate_deferred _ _ _ true)|apply (pfate_deferred _ _ _ false)]; set_solver.
Qed.

Lemma deferProofs_wp s s' l : SessionID s' = SessionID s ->
  wp (deferProofs (Params := Params) (Difficulty := Difficulty) wired [s']) l (fun l' _ => pfull -> pfate [] s l').
Proof. intros Hs. apply wp_bind. eapply wp_mono; [|by apply deferProof_wp]. by intros. Qed.

Lemma closeProofs_wp s s' l : SessionID s' = SessionID s ->
  wp (closeProofs (Params := Params) (Difficulty := Difficulty) wired [s']) l (fun l' _ => pfull -> pfate [] s l').
Proof.
  intros Hs. apply wp_assume. intros Hc. unfold closeProofs. cbn [each]. rewrite Hc. cbn [wp pbind perform when].
  intros []; cbn [wp pbind perform when]; [intros []; apply (pfate_window_closed _ _ _ s' true)|apply (pfate_window_closed _ _ _ s' false)]; set_solver.
Qed.

Lemma IsProofRequired_wp s seed l :
  wp (IsProofRequired wired GetClaimeduPOKT sampleValue s seed) l (fun _ r => match r with Ok (s', _) | Err (s', _) => same s s' end).
Proof.
  unfold IsProofRequired. apply wp_bind. eapply (wp_mono _ _ (fun _ r => match r with Ok s' => same s s' | Err _ => True end)).
  - intros l1 [s'|e] Hs; [|done]. cbn [wp pbind perform]. intros [pp|]; [|done]. cbn [wp pbind perform]. intros [sp|]; [|done]. cbn [wp pbind perform].
    intros [d|]; [|done]. destruct (GetClaimeduPOKT _ _ _) as [[amount|]|]; [|done|done]. by destruct (requiredBy _ _ _).
  - unfold resolveClaimedRoot. destruct (negb (String.eqb (ClaimedRootHash s) "")); [done|]. destruct (negb (hasRootProvider wired)); [done|].
    cbn [wp pbind perform]. intros [root|[]]; [|done|done]. destruct (String.eqb root ""); [done|]. cbn [wp pbind perform]. by intros [].
Qed.

Lemma checkRequirement_wp seed s s0 l : same s0 s ->
  wp (checkRequirement seed s) l (fun l' o => match o with Some s' => same s0 s' | None => pfull -> pfate [] s0 l' end).
Proof.
  intros Hs0. assert (forall s', same s s' -> same s0 s') as Htrans by (destruct Hs0 as (? & ? & ?); intros s' (? & ? & ?); unfold same; split_and!; congruence).
  unfold ProofCycle.checkRequirement. apply wp_bind. eapply wp_mono; [|apply IsProofRequired_wp]. intros l1 [[s' []]|[s' []]] Hs; apply Htrans in Hs.
  - done.
  - cbn [wp pbind perform]. intros []. apply wp_bind. destruct (hasCoordinator wired) eqn:Hc.
    + destruct Hs as [Hid _]. rewrite Hid. cbn [wp perform]. intros ok _. apply (pfate_not_required _ _ _ ok). set_solver.
    + cbn [wp]. intros Hc'. congruence.
  - apply wp_bind. destruct Hs as [Hid _]. rewrite Hid. destruct (hasCoordinator wired) eqn:Hc; cbn [wp perform].
    + intros ok _. apply (pfate_tx_error _ _ _ ok). set_solver.
    + intros Hc'. congruence.
  - apply wp_bind. eapply wp_mono; [|apply (deferProof_wp s0)]; [by intros|by destruct Hs].
  - done.
Qed.

Lemma preProof_wp params end_ close seed s l :
  wp (preProof params end_ close seed s) l (fun l' r =>
    (forall sid, sid ∈ r.1 -> sid = SessionID s /\ settled_ok s l') /\
    match r.2 with Some s' => r.1 = [] /\ ProofTxHash s = "" /\ same s s' | None => pfull -> pfate r.1 s l' end).
Proof.
  unfold ProofCycle.preProof. destruct (String.eqb_spec (ProofTxHash s) "") as [Htx|Htx]; cbn [negb wp].
  2:{ split; [set_solver|]. intros _. by apply pfate_sent_before. }
  assert (forall l1, wp (if hasProofChecker wired then pbind (checkRequirement seed s) (fun needed => Ret ([], needed)) else Ret ([], Some s)) l1 (fun l' r =>
    (forall sid, sid ∈ r.1 -> sid = SessionID s /\ settled_ok s l') /\
    match r.2 with Some s' => r.1 = [] /\ ProofTxHash s = "" /\ same s s' | None => pfull -> pfate r.1 s l' end)) as Hcheck.
  { intros l1. destruct (hasProofChecker wired); [|cbn [wp fst snd]; split; [set_solver|by split_and!]].
    apply wp_bind. eapply wp_mono; [|by apply (checkRequirement_wp seed s s)]. intros l2 o Ho. cbn [wp fst snd]. split; [set_solver|]. by destruct o. }
  assert (forall l' : list event, forall sid, sid ∈ ([] : list string) -> sid = SessionID s /\ settled_ok s l') as Hnil by (intros l' sid []%not_elem_of_nil).
  apply wp_bind. unfold preProofGuard. destruct (DisablePreProofClaimVerification cfg || negb (hasProofQueryClient wired)); [apply Hcheck|].
  cbn [wp pbind perform]. intros [[[]|]|h|]; cbn [wp]; try apply Hcheck.
  - cbn [fst snd]. split.
    + intros sid ->%list_elem_of_singleton. split; [done|]. split; [done|]. left. left.
    + intros _. apply pfate_settled. left.
  - cbn [fst snd]. split; [apply Hnil|]. intros _. apply (pfate_judged _ _ _ INVALID); [done|left].
  - cbn [fst snd]. split; [apply Hnil|]. intros _. apply (pfate_judged _ _ _ (OtherStatus n)); [done|left].
  - cbn [wp pbind perform]. intros height. destruct (_ <? close).
    + apply wp_bind. eapply wp_mono; [|by apply (deferProof_wp s)]. intros l1 ? Hd. cbn [wp fst snd]. split; [apply Hnil|done].
    + destruct (h <? _); [apply Hcheck|]. apply wp_bind. destruct (hasCoordinator wired) eqn:Hc; cbn [wp perform].
      * intros ok. cbn [fst snd]. split; [apply Hnil|]. intros _. apply (pfate_claim_missing _ _ _ ok). left.
      * cbn [fst snd]. split; [apply Hnil|]. intros Hc'. congruence.
Qed.

(** ** Sending *)

Lemma persistProofs_wp x height hash p err budget regime l :
  wp (persistProofs (Params := Params) (Difficulty := Difficulty) marshal_proof [x] height hash p err budget regime) l
    (fun l' _ => forall bytes, marshal_proof (pb_msg x) = Some bytes ->
      exists ok, Ev (CPut RebroadcastPhaseProof (pb_snapshot x)
                       (newEntry (ServiceID (pb_snapshot x)) (mkSubmission bytes height hash p err budget regime))) ok ∈ l').
Proof.
  unfold persistProofs. cbn [each]. destruct (marshal_proof (pb_msg x)) as [bytes|]; cbn [wp pbind]; [|done].
  unfold putEntry. cbn [wp pbind perform]. intros ok bytes' [= <-]. exists ok. set_solver.
Qed.

Lemma proofsAccepted_wp x hash p earliest budget regime seed l :
  wp (proofsAccepted (Params := Params) (Difficulty := Difficulty) wired marshal_proof [x] hash p earliest budget regime seed) l
    (fun l' _ => proof_recorded budget regime p hash x l').
Proof.
  unfold proofsAccepted. cbn [wp pbind perform]. intros height. apply wp_bind.
  eapply (wp_mono _ _ (fun l' _ => hasCoordinator wired = true -> exists ok, Ev (COnProofSubmitted (SessionID (pb_snapshot x)) hash) ok ∈ l')).
  2:{ destruct (hasCoordinator wired); cbn [when each wp pbind perform]; [|done]. intros ok _. exists ok. set_solver. }
  intros l1 ? Hsub. apply wp_bind. eapply wp_mono; [|apply wp_grows]. intros l2 ? H2. apply wp_bind. eapply wp_mono; [|apply wp_grows]. intros l3 ? H3.
  eapply (wp_mono _ _ (fun l' _ => (forall e, e ∈ l3 -> e ∈ l') /\ (hasRebroadcastStore wired = true -> hash <> "" -> forall bytes, marshal_proof (pb_msg x) = Some bytes ->
   exists height ok, Ev (CPut RebroadcastPhaseProof (pb_snapshot x)
                           (newEntry (ServiceID (pb_snapshot x)) (mkSubmission bytes height hash p None budget regime))) ok ∈ l'))).
  - intros l4 ? [H4 Hput]. split; [|done]. intros Hc. destruct (Hsub Hc) as [ok Hok]. exists ok. apply H4, H3, H2, Hok.
  - apply wp_frame. destruct (hasRebroadcastStore wired && negb (String.eqb hash "")) eqn:Hw; cbn [when].
    + eapply wp_mono; [|apply persistProofs_wp]. intros l4 ? Hput _ _ bytes Hb. destruct (Hput bytes Hb) as [ok Hok]. eauto.
    + cbn [wp]. intros Hs Hh. rewrite Hs in Hw. by apply negb_false_iff, String.eqb_eq in Hw.
Qed.

Lemma resendOrSignProofs_wp close budget regime msg p err l :
  p = no_payload \/ proof_signed close budget regime msg p l ->
  wp (resendOrSignProofs (Params := Params) (Difficulty := Difficulty) close budget regime p err [msg]) l
    (fun l' r => proof_signed close budget regime msg r.1.2 l' /\ proof_answered close budget regime msg r.1.2 r.1.1 r.2 l').
Proof.
  intros Hs. unfold resendOrSignProofs.
  assert (forall l1, wp (perform (E := E) (CSubmitProofs close budget regime [msg])) l1
    (fun l' r => proof_signed close budget regime msg r.1.2 l' /\ proof_answered close budget regime msg r.1.2 r.1.1 r.2 l')) as Hsign.
  { intros l1. cbn [wp perform]. intros [[hash q] e]. split; [exists hash, e; set_solver|]. cbn [fst snd]. left. set_solver. }
  apply wp_bind. unfold canReinject. destruct err as [e|]; [|apply Hsign]. destruct (String.eqb_spec (p_Bytes p) "") as [|Hne]; [apply Hsign|].
  destruct (RejectionPreservesBytes _); [|apply Hsign]. cbn [negb wp pbind perform]. intros now. destruct (reusable _ _); [|apply Hsign].
  cbn [wp pbind perform]. intros [hash q]. destruct Hs as [-> |Hs]; [by destruct Hne|].
  assert (forall e1 e2, proof_signed close budget regime msg p (e1 :: e2 :: l)) as Hs' by (intros; eapply proof_signed_mono; [|exact Hs]; intros e' He; by do 2 right).
  cbn. split; [apply Hs'|]. right. split; [apply Hs'|left].
Qed.

Lemma settleNotRequired_wp s s' err l : SessionID s' = SessionID s ->
  wp (settleNotRequiredBatch (Params := Params) (Difficulty := Difficulty) wired err [s']) l (fun l' _ => pfull -> pfate [] s l').
Proof.
  intros Hs. apply wp_assume. intros Hc. unfold settleNotRequiredBatch. cbn [imap each]. rewrite Hc, Hs. case_bool_decide; cbn [wp pbind perform].
  all: intros [] ok; first [apply (pfate_not_required _ _ _ ok); left|apply (pfate_tx_error _ _ _ ok); left].
Qed.

Definition send_post s x (close budget : Z) (regime : string) (e : ProofEnd) l : Prop :=
  match e with
  | ProofsAccepted => exists p hash, proof_accepted close budget regime (pb_msg x) p hash l /\ proof_recorded budget regime p hash x l
  | ProofsNotRequired | ProofsDeferred | ProofsWindowClosed => pfull -> pfate [] s l
  | ProofsFailed _ err => exists p hash, proof_answered close budget regime (pb_msg x) p hash (Some err) l
  | ProofsCancelled => True
  end.

Lemma submitProofs_wp weighted close earliest budget regime seed s x : SessionID (pb_snapshot x) = SessionID s -> forall n p err l,
  p = no_payload \/ proof_signed close budget regime (pb_msg x) p l -> n <> O ->
  wp (submitProofs weighted close earliest budget regime seed n [x] p err) l (fun l' e => send_post s x close budget regime e l').
Proof.
  intros Hid. induction n as [|n IH]; intros p err l Hp Hn; cbn [ProofCycle.submitProofs].
  { done. }
  cbn [wp pbind perform]. intros height. apply wp_bind. eapply wp_mono; [|apply wp_grows]. intros l1 shape Hsub1.
  destruct (negb (Bool.eqb shape weighted)).
  { apply wp_bind. eapply wp_mono; [|by apply (deferProofs_wp s)]. by intros. }
  apply wp_bind. eapply wp_mono; [|apply resendOrSignProofs_wp].
  2:{ destruct Hp as [Hp|Hp]; [by left|right]. eapply proof_signed_mono; [|exact Hp]. intros e He. apply Hsub1. set_solver. }
  intros l2 [[hash q] e] [Hsigned Hacc]. cbn [fst snd] in *. destruct e as [e|].
  2:{ apply wp_bind. eapply wp_mono; [|apply wp_frame, proofsAccepted_wp]. intros l3 ? [Hsub3 Hrec]. exists q, hash. split; [|done].
      exact (proof_accepted_mono _ _ _ _ _ _ _ _ Hsub3 Hacc). }
  destruct (errors_Is _ ErrTxProofNotRequired).
  { apply wp_bind. eapply wp_mono; [|by apply (settleNotRequired_wp s)]. by intros. }
  apply wp_bind. eapply wp_mono; [|apply wp_grows]. intros l3 learned Hsub3. destruct learned.
  { apply wp_bind. eapply wp_mono; [|by apply (deferProofs_wp s)]. by intros. }
  apply wp_bind. eapply wp_mono; [|apply wp_grows]. intros l4 final Hsub4. destruct (isWindowRefusal _ _ e && negb final).
  { apply wp_bind. eapply wp_mono; [|by apply (deferProofs_wp s)]. by intros. }
  destruct (isWindowRefusal _ _ e).
  { apply wp_bind. eapply wp_mono; [|by apply (closeProofs_wp s)]. by intros. }
  destruct n as [|n]; [exists q, hash; eapply proof_answered_mono; [|exact Hacc]; intros e' He; by apply Hsub4, Hsub3|]. cbn [wp pbind perform]. intros []; [done|]. apply IH; [|done]. right.
  eapply proof_signed_mono; [|exact Hsigned]. intros e' He. right. apply Hsub4, Hsub3, He.
Qed.

Lemma proofsFailed_wp s x close p q hash err earliest budget regime seed l : proof_from s x l ->
  proof_answered close budget regime (pb_msg x) q hash (Some err) l ->
  wp (proofsFailed (Params := Params) (Difficulty := Difficulty) wired marshal_proof [x] p err earliest budget regime seed) l (fun l' _ => pfull -> pfate [] s l').
Proof.
  intros Hx Hans. apply wp_assume. intros Hc. unfold proofsFailed. rewrite Hc. apply wp_bind. destruct (nothingWasSpent (Some (se_err err))) eqn:Hn.
  2:{ cbn [each]. rewrite (proj1 Hx). cbn [wp pbind perform]. intros u ok. eapply wp_mono; [|apply wp_grows]. intros l1 ? H1. apply (pfate_tx_error _ _ _ ok). apply H1. left. }
  cbn [wp]. apply wp_bind. eapply wp_mono; [|apply wp_grows]. intros l2 ? H2.
  assert (forall l3, (forall e, e ∈ l2 -> e ∈ l3) -> hasRebroadcastStore wired = false \/ marshal_proof (pb_msg x) = None \/ proof_put false x l3 -> pfate [] s l3) as Hun.
  { intros l3 H3 Hno. apply pfate_unspent. exists x, close, budget, regime, q, hash, err. split_and!; [eapply proof_from_mono; [|exact Hx]; auto|done|eapply proof_answered_mono; [|exact Hans]; auto|done]. }
  destruct (hasRebroadcastStore wired) eqn:Hs; cbn [when wp]; [|apply Hun; [done|by left]].
  cbn [when wp pbind perform]. intros height. eapply wp_mono; [|apply wp_frame, persistProofs_wp]. intros l3 ? [H3 Hput].
  assert (forall e, e ∈ l2 -> e ∈ l3) as H3' by (intros e He; apply H3; by right).
  destruct (marshal_proof (pb_msg x)) as [bytes|] eqn:Hb; [|apply Hun; [done|right; by left]]. destruct (Hput bytes eq_refl) as [ok Hok].
  assert (proof_put ok x l3) as Hp by (eexists bytes, _; split; [done|split; cycle 1; [exact Hok|reflexivity]]).
  destruct ok; [|apply Hun; [done|by right; right]]. apply pfate_handed. exists x. split; [eapply proof_from_mono; [|exact Hx]; auto|done].
Qed.

(** ** A session *)

Definition proof_post s (r : GroupEnd) l : Prop :=
  (forall sid, sid ∈ ge_claimed r -> sid = SessionID s /\ settled_ok s l) /\
  (pfull -> ge_stop r = false -> pfate (ge_claimed r) s l) /\
  (ge_stop r = true -> ge_err r = Some CeCancelled).

Lemma proof_none s l' e : (pfull -> pfate [] s l') -> proof_post s (mkGroupEnd [] e false) l'.
Proof. intros H. split; [intros sid []%not_elem_of_nil|]. split; [intros Hf _; by apply H|done]. Qed.

Lemma buildProof_wp weighted seed s s' i l : same s s' -> seed_of s seed l ->
  wp (buildProof (Params := Params) (Difficulty := Difficulty) wired GetPathForProof weighted seed (i, s')) l (fun l' r =>
    match r with ProofOk x => proof_from s x l' | ProofFailed _ => pfate [] s l' end).
Proof.
  intros (Hid & Hsvc & Hsup) Hseed. unfold buildProof. rewrite Hid. cbn [wp pbind perform]. intros [bytes|].
  - apply wp_bind. eapply wp_mono; [|apply wp_grows]. intros l1 header Hsub. cbn [wp]. unfold proof_from. cbn [pb_snapshot pb_msg mp_SupplierOperatorAddress mp_Proof].
    do 3 (split; [done|]). exists seed, weighted. split; [eapply seed_of_mono; [|exact Hseed]; intros e He; apply Hsub; by right|]. apply Hsub. left.
  - apply (pfate_unbuilt _ _ _ weighted (GetPathForProof seed (SessionID s))). left.
Qed.

(** The rest of a session's turn once a proof is to be built. *)
Lemma sendGroup_wp params weighted (close earliest : Z) seed s s' l :
  same s s' -> ProofTxHash s = "" -> seed_of s seed l -> 1 <= ProofRetryAttempts cfg ->
  wp (pbind (collect (buildProof wired GetPathForProof weighted seed) (imap pair [s'])) (fun results =>
      pbind (perform (E := E) CArrivals) (fun order =>
      let built := proofs_of (shuffle order results) in
      match built with
      | [] => Ret (mkGroupEnd [] (Some CeBuild) false)
      | _ =>
          let batch := alignProofBatch built in
          pbind (perform (E := E) CHeight) (fun height =>
          if close <=? height then pbind (closeProofs wired (map pb_snapshot batch)) (fun _ => Ret (mkGroupEnd [] (Some CeClosedWhileBuilding) false))
          else
            let '(budget, regime) := WindowTimeout (close - GetProofWindowOpenHeight params (SessionEndHeight s)) (BlockTimeSeconds cfg) in
            pbind (submitProofs weighted close earliest budget regime seed (Z.to_nat (ProofRetryAttempts cfg)) batch no_payload None) (fun ended =>
            match ended with
            | ProofsAccepted => Ret (mkGroupEnd ([] ++ map SessionID [s])%list None false)
            | ProofsNotRequired | ProofsDeferred | ProofsWindowClosed => Ret (mkGroupEnd [] None false)
            | ProofsCancelled => Ret (mkGroupEnd [] (Some CeCancelled) true)
            | ProofsFailed signed err => pbind (proofsFailed wired marshal_proof batch signed err earliest budget regime seed) (fun _ => Ret (mkGroupEnd [] (Some CeSubmit) false))
            end))
      end))) l (fun l' r => proof_post s r l').
Proof.
  intros Hsame Htx Hseed Hcfg. pose proof (proof_none s) as Hnone.
  cbn [imap collect]. apply wp_bind. apply wp_bind. eapply wp_mono; [|by apply buildProof_wp]. intros l1 r Hr. cbn [wp pbind perform]. intros order.
  assert (shuffle order [r] = [r]) as -> by (apply Permutation_singleton_r, shuffle_perm).
  destruct r as [x|s'']; cbn [proofs_of omap list_omap].
  2:{ apply Hnone. intros _. eapply (pfate_mono [] [] _ l1); [done| |exact Hr]. intros e He. by right. }
  cbn [alignProofBatch foldl insertByIndex wp pbind perform map]. intros height. set (l2 := Ev CHeight height :: _).
  assert (proof_from s x l2) as Hx by (eapply proof_from_mono; [|exact Hr]; intros e He; by do 2 right). clearbody l2. pose proof Hx as (Hid & _).
  destruct (close <=? height).
  { apply wp_bind. eapply wp_mono; [|by apply (closeProofs_wp s)]. intros l3 ? Hd. by apply Hnone. }
  destruct (WindowTimeout _ _) as [budget regime]. apply wp_bind.
  eapply wp_mono; [|apply wp_frame, (submitProofs_wp weighted close earliest budget regime seed s x Hid); [by left|lia]].
  intros l3 ended [H3 Hpost]. destruct ended as [| | | | |p err]; cbn [send_post wp] in *; try (by apply Hnone).
  - destruct Hpost as (p & hash & Hacc & Hrec). split; [|split; [|done]].
    + intros sid ->%list_elem_of_singleton. split; [done|]. split; [done|]. right. exists x, close, budget, regime, p, hash.
      split; [by eapply proof_from_mono|]. by split.
    + intros _ _. apply pfate_settled. left.
  - split; [intros sid []%not_elem_of_nil|done].
  - destruct Hpost as (q & hash & Hans). apply wp_bind. eapply wp_mono; [|eapply (proofsFailed_wp s x); [by eapply proof_from_mono|exact Hans]]. intros l4 ? Hd. by apply Hnone.
Qed.

Lemma proofGroup_wp s l : 1 <= ProofRetryAttempts cfg -> wp (proofGroup [s]) l (fun l' r => proof_post s r l').
Proof.
  intros Hcfg. pose proof (proof_none s) as Hnone.
  unfold ProofCycle.proofGroup. cbn [groupEnd wp pbind perform]. intros [params|].
  2:{ apply wp_bind. eapply wp_mono; [|by apply (deferProofs_wp s)]. intros l1 ? Hd. by apply Hnone. }
  apply wp_bind. eapply wp_mono; [|apply wp_grows]. intros l1 opened H1. destruct opened; cbn [negb].
  2:{ apply wp_bind. eapply wp_mono; [|by apply (deferProofs_wp s)]. intros l2 ? Hd. by apply Hnone. }
  assert (Ev (CParams (SessionEndHeight s)) (Some params) ∈ l1) as Hp by (apply H1; left). clear H1. apply wp_bind. unfold waitForBlock. apply wp_bind.
  eapply wp_mono; [|apply wp_grows]. intros l2 reached H2. apply H2 in Hp. clear H2. destruct reached; cbn [wp perform].
  2:{ apply wp_bind. eapply wp_mono; [|by apply (deferProofs_wp s)]. intros l3 ? Hd. by apply Hnone. }
  intros [seed|].
  2:{ apply wp_bind. eapply wp_mono; [|by apply (deferProofs_wp s)]. intros l3 ? Hd. by apply Hnone. }
  match goal with |- wp _ (?e :: l2) _ => set (l3 := e :: l2) end. assert (seed_of s seed l3) as Hseed by (exists params; split; [by right|left]). clearbody l3. clear Hp.
  cbn [collect]. apply wp_bind, wp_bind. eapply wp_mono; [|apply wp_frame, preProof_wp]. intros l4 [settled o] (H4 & Hset & Ho). cbn [fst snd] in *.
  eapply seed_of_mono in Hseed; [|exact H4]. cbn [wp pbind map omap list_omap fst snd List.concat]. rewrite app_nil_r.
  destruct o as [s'|]; cbn [omap list_omap wp pbind].
  2:{ split; [exact Hset|]. split; [|done]. intros Hf _. by apply Ho. }
  destruct Ho as (-> & Htx & Hsame). apply wp_bind. eapply wp_mono; [|apply wp_grows]. intros l5 reached H5. eapply seed_of_mono in Hseed; [|exact H5].
  assert (SessionID s' = SessionID s) as Hid by apply Hsame. destruct reached; cbn [negb].
  2:{ apply wp_bind. eapply wp_mono; [|by apply (deferProofs_wp s)]. intros l6 ? Hd. by apply Hnone. }
  cbn [wp pbind perform]. intros height. destruct (_ <=? height).
  { apply wp_bind. eapply wp_mono; [|by apply (closeProofs_wp s)]. intros l6 ? Hd. by apply Hnone. }
  apply wp_bind. eapply (wp_mono _ _ (fun l' r => seed_of s seed l' /\ exists o, r = [o] /\ match o with Some s'' => same s s'' | None => pfull -> pfate [] s l' end)).
  2:{ destruct (hasProofChecker wired); [|cbn [wp map]; split; [eapply seed_of_mono; [|exact Hseed]; intros e He; by right|by exists (Some s')]].
      cbn [collect]. apply wp_bind. eapply wp_mono; [|by apply wp_frame, (checkRequirement_wp seed s' s)]. intros l6 o [H6 Ho]. cbn [wp pbind].
      split; [eapply seed_of_mono; [|exact Hseed]; intros e He; apply H6; by right|]. by exists o. }
  intros l6 r (Hseed6 & o & -> & Ho). destruct o as [s''|]; cbn [omap list_omap id wp pbind perform]; [|by apply Hnone].
  intros height'. apply wp_bind. eapply wp_mono; [|apply wp_grows]. intros l7 weighted H7. apply (sendGroup_wp params); [done|done| |done].
  eapply seed_of_mono; [|exact Hseed6]. intros e He. apply H7. by right.
Qed.
End Safety.
