(* ===== verification/ProofSkips.v ===== *)
(** * When the proof cycle goes without a proof

    A session is marked probabilistically proved in two places: the requirement
    check found that the chain's rule does not ask for a proof, or the chain
    refused the proof as not required and named it. The invariant [skips_ok]
    says that every such mark in the calls has that ground, and is kept by every
    step of the cycle. *)

From S2P Require Import Prelude Program SessionState StoreSpec SessionLifecycle SessionCoordinator GoFloat RebroadcastStore TxClient InclusionReconciler ClaimPages LifecycleCallback ClaimCycle ClaimCycleSafety ProofCycle ProofCycleSafety.
From Stdlib Require Import Ascii String.

Local Open Scope string_scope.
Local Open Scope Z_scope.

Section Skips.
Context {Params : Type} `{SW : !SharedWindows Params} {Difficulty : Type}.
Variables (cfg : LifecycleCallbackConfig) (wired : Wiring).
Variables (marshal_proof : MsgSubmitProof -> option string) (earliestCommit : Params -> Z -> string -> Z) (GetPathForProof : string -> string -> string).
Variables (GetClaimeduPOKT : MsgCreateClaim -> Params -> Difficulty -> option (option Z)) (sampleValue : MsgCreateClaim -> string -> option float64).
Abbreviation E := (CallEffect (Params := Params) (Difficulty := Difficulty)).
Abbreviation event := (event Call (E := E)).
Abbreviation Ev := (Ev (E := E)).
Abbreviation prog := (prog Call (E := E)).
Abbreviation seed_of := (seed_of (Difficulty := Difficulty) earliestCommit).
Abbreviation proof_from := (proof_from (Difficulty := Difficulty) earliestCommit GetPathForProof).
Abbreviation proof_signed := (proof_signed (Params := Params) (Difficulty := Difficulty)).
Implicit Types (l : list event) (s : SessionSnapshot) (sid : string) (x : ProofBuilt).

(** ** The ground for a mark *)

(** The chain's rule, from the parameters the chain gave: the claimed amount is
    under the threshold and the sample drawn from the seed block is above the
    probability. *)
Definition below_requirement s l : Prop :=
  exists root seed pp sp d amount v,
    (root = ClaimedRootHash s \/ Ev (CTreeRoot (SessionID s)) (Ok root) ∈ l) /\ root <> "" /\ seed_of s seed l /\
    Ev CProofParams (Some pp) ∈ l /\ Ev (CParams (SessionStartHeight s)) (Some sp) ∈ l /\ Ev (CDifficulty (ServiceID s) (SessionStartHeight s)) (Some d) ∈ l /\
    let claim := mkClaim (SupplierOperatorAddress s) (headerOf s) root in
    GetClaimeduPOKT claim sp d = Some (Some amount) /\ amount < pp_Threshold pp /\
    sampleValue claim seed = Some v /\ FLe v (pp_Probability pp) = false.

(** The chain refused this session's proof as not required. *)
Definition refused_as_unneeded s l : Prop :=
  exists x close budget regime p hash err,
    proof_from s x l /\ errors_Is (Some (se_err err)) ErrTxProofNotRequired = true /\ namedMessageIndex err 1 = Some 0%nat /\
    (Ev (CSubmitProofs close budget regime [pb_msg x]) (hash, p, Some err) ∈ l \/
     (proof_signed close budget regime (pb_msg x) p l /\ Ev (CResend RebroadcastPhaseProof p) (hash, Some err) ∈ l)).

Definition skip_ground (snapshots : list SessionSnapshot) sid l : Prop :=
  exists s, s ∈ snapshots /\ SessionID s = sid /\ ProofTxHash s = "" /\ (below_requirement s l \/ refused_as_unneeded s l).

Definition is_mark (c : Call) : bool := match c with COnProbabilisticProved _ => true | _ => false end.

Definition skips_ok (snapshots : list SessionSnapshot) l : Prop :=
  forall e, e ∈ l -> match ev_call e with COnProbabilisticProved sid => skip_ground snapshots sid l | _ => True end.

Lemma below_mono s l l' : (forall e, e ∈ l -> e ∈ l') -> below_requirement s l -> below_requirement s l'.
Proof.
  intros H (root & seed & pp & sp & d & amount & v & Hr & ? & ? & ? & ? & ? & Hrest). exists root, seed, pp, sp, d, amount, v.
  split; [destruct Hr; auto|]. split; [done|]. split; [by eapply seed_of_mono|]. do 3 (split; [auto|]). exact Hrest.
Qed.
Lemma refused_mono s l l' : (forall e, e ∈ l -> e ∈ l') -> refused_as_unneeded s l -> refused_as_unneeded s l'.
Proof.
  intros H (x & close & budget & regime & p & hash & err & ? & ? & ? & Hr). exists x, close, budget, regime, p, hash, err.
  split; [by eapply proof_from_mono|]. do 2 (split; [done|]). destruct Hr as [?|[? ?]]; [left; auto|right; split; eauto using proof_signed_mono].
Qed.
Lemma skip_ground_mono snapshots snapshots' sid l l' :
  (forall s, s ∈ snapshots -> s ∈ snapshots') -> (forall e, e ∈ l -> e ∈ l') -> skip_ground snapshots sid l -> skip_ground snapshots' sid l'.
Proof.
  intros Hs H (s & ? & ? & ? & Hg). exists s. split; [auto|]. do 2 (split; [done|]).
  destruct Hg; [left; by eapply below_mono|right; by eapply refused_mono].
Qed.

(** ** Keeping the invariant *)

Lemma skips_quiet {A} snapshots (p : prog A) l : quiet is_mark p -> skips_ok snapshots l -> wp p l (fun l' _ => skips_ok snapshots l').
Proof.
  intros Hq Hok. eapply wp_mono; [|apply wp_frame, (quiet_wp is_mark), Hq]. intros l' a [Hsub Hcalls] e He.
  destruct (is_mark (ev_call e)) eqn:Hm; [|by destruct (ev_call e)].
  assert (e ∈ calls_of is_mark l') as Hin by (apply list_elem_of_In, filter_In; split; [by apply list_elem_of_In|done]).
  rewrite Hcalls in Hin. apply list_elem_of_In, filter_In in Hin as [Hin _]. apply list_elem_of_In in Hin. specialize (Hok e Hin).
  destruct (ev_call e); try done. eapply skip_ground_mono; [done|exact Hsub|exact Hok].
Qed.

Lemma skips_mark snapshots sid (ok : bool) l : skips_ok snapshots l -> skip_ground snapshots sid l -> skips_ok snapshots (Ev (COnProbabilisticProved sid) ok :: l).
Proof.
  intros Hok Hg e [-> |He]%elem_of_cons; simpl.
  - eapply skip_ground_mono; [done| |exact Hg]. intros e He. by right.
  - specialize (Hok e He). destruct (ev_call e); try done. eapply skip_ground_mono; [done| |exact Hok]. intros e' He'. by right.
Qed.

Lemma skips_other snapshots (c : Call) (a : answer c) l : is_mark c = false -> skips_ok snapshots l -> skips_ok snapshots (Ev c a :: l).
Proof.
  intros Hc Hok e [-> |He]%elem_of_cons; simpl; [by destruct c|]. specialize (Hok e He).
  destruct (ev_call e); try done. eapply skip_ground_mono; [done| |exact Hok]. intros e' He'. by right.
Qed.

(** ** The requirement check *)

(** The session as checked: as it came, or with the root read back. *)
Definition rooted s s' l : Prop := s' = s \/ exists root, root <> "" /\ Ev (CTreeRoot (SessionID s)) (Ok root) ∈ l /\ s' = set_claim root (ClaimTxHash s) s.

Lemma rooted_mono s s' l l' : (forall e, e ∈ l -> e ∈ l') -> rooted s s' l -> rooted s s' l'.
Proof. intros H [?|(root & ? & ? & ?)]; [by left|right; exists root; auto]. Qed.

Lemma rooted_same s s' l : rooted s s' l -> SessionID s' = SessionID s /\ same s s' /\ SessionStartHeight s' = SessionStartHeight s /\ ProofTxHash s' = ProofTxHash s /\
  headerOf s' = headerOf s /\ (ClaimedRootHash s' = ClaimedRootHash s \/ Ev (CTreeRoot (SessionID s)) (Ok (ClaimedRootHash s')) ∈ l).
Proof. intros [-> |(root & ? & ? & ->)]; unfold same; simpl; split_and!; auto. Qed.

Lemma IsProofRequired_skips s s' seed l : rooted s s' l -> seed_of s seed l ->
  wp (IsProofRequired wired GetClaimeduPOKT sampleValue s' seed) l (fun l' r =>
    match r with
    | Ok (s'', false) => rooted s s'' l' /\ below_requirement s l'
    | Ok (s'', true) | Err (s'', _) => rooted s s'' l'
    end).
Proof.
  intros Hr Hseed. unfold IsProofRequired. apply wp_bind.
  eapply (wp_mono _ _ (fun l' r => seed_of s seed l' /\ rooted s s' l' /\ match r with Ok s'' => rooted s s'' l' /\ ClaimedRootHash s'' <> "" | Err _ => True end)).
  - intros l1 [s''|e] (Hseed1 & Hr' & Hs); [|cbn [wp]; done]. destruct Hs as [Hs Hne]. cbn [wp pbind perform].
    assert (forall e1 e2 e3, rooted s s'' (e3 :: e2 :: e1 :: l1)) as Hs3 by (intros; eapply rooted_mono; [|exact Hs]; intros e He; by do 3 right).
    intros [pp|]; cbn [wp pbind perform]; [|eapply rooted_mono; [|exact Hs]; intros e He; by right].
    intros [sp|]; cbn [wp pbind perform]; [|eapply rooted_mono; [|exact Hs]; intros e He; by do 2 right].
    intros [d|]; cbn [wp pbind perform]; [|apply Hs3].
    destruct (GetClaimeduPOKT _ _ _) as [[amount|]|] eqn:Ha; cbn [wp]; [|apply Hs3|apply Hs3].
    unfold requiredBy. destruct (Z.leb_spec (pp_Threshold pp) amount); cbn [wp]; [apply Hs3|].
    destruct (sampleValue _ _) as [v|] eqn:Hv; cbn [wp]; [|apply Hs3]. destruct (FLe v (pp_Probability pp)) eqn:Hf; cbn [wp]; [apply Hs3|].
    split; [apply Hs3|]. destruct (rooted_same _ _ _ Hs) as (Hid & (_ & Hsvc & Hsup) & Hstart & _ & Hh & Hroot).
    exists (ClaimedRootHash s''), seed, pp, sp, d, amount, v. rewrite Hsvc, Hstart in *. unfold claimFromSnapshot in *. rewrite Hsup, Hh in *.
    split; [destruct Hroot; [by left|right; by do 3 right]|]. split; [done|].
    split; [eapply seed_of_mono; [|exact Hseed1]; intros e He; by do 3 right|]. split; [do 2 right; left|]. split; [right; left|]. split; [left|]. done.
  - unfold resolveClaimedRoot. destruct (String.eqb_spec (ClaimedRootHash s') "") as [He|Hne]; cbn [negb wp]; [|by split_and!].
    destruct (hasRootProvider wired); cbn [negb wp pbind perform]; [|by split_and!].
    destruct (rooted_same _ _ _ Hr) as (Hid & _). rewrite Hid. intros [root|[]]; cbn [wp pbind perform].
    2,3: split_and!; [eapply seed_of_mono; [|exact Hseed]|eapply rooted_mono; [|exact Hr]|done]; intros e' He'; by right.
    destruct (String.eqb_spec root "") as [|Hroot]; cbn [wp pbind perform].
    { split_and!; [eapply seed_of_mono; [|exact Hseed]|eapply rooted_mono; [|exact Hr]|done]; intros e' He'; by right. }
    intros []. split_and!; [eapply seed_of_mono; [|exact Hseed]|eapply rooted_mono; [|exact Hr]| |done]; try (intros e' He'; by do 2 right).
    right. exists root. split; [done|]. split; [right; left|]. destruct Hr as [-> |(root' & Hne' & _ & ->)]; [done|]. by simpl in He.
Qed.

Lemma checkRequirement_skips snapshots s s' seed l :
  skips_ok snapshots l -> s ∈ snapshots -> ProofTxHash s = "" -> rooted s s' l -> seed_of s seed l ->
  wp (checkRequirement wired GetClaimeduPOKT sampleValue seed s') l (fun l' o => skips_ok snapshots l' /\ match o with Some s'' => rooted s s'' l' | None => True end).
Proof.
  intros Hok Hin Htx Hr Hseed. unfold checkRequirement. apply wp_bind.
  eapply wp_mono; [|apply wp_and; [by apply (IsProofRequired_skips s)|apply (skips_quiet snapshots); [|exact Hok]]].
  2:{ unfold IsProofRequired, resolveClaimedRoot. quiet. }
  intros l1 [[s'' []]|[s'' []]] [Hs Hok1]; [by split| | | |by split].
  - destruct Hs as [Hs Hbelow]. cbn [wp pbind perform]. intros []. apply wp_bind. apply (skips_other _ (CBook (PkProbabilisticProved s'')) tt) in Hok1; [|done].
    destruct (rooted_same _ _ _ Hs) as (Hid & _). destruct (hasCoordinator wired); cbn [wp perform]; [|by split]. intros ok. split; [|done].
    apply (skips_mark _ _ ok); [done|]. exists s. split; [done|]. split; [done|]. split; [done|]. left. eapply below_mono; [|exact Hbelow]. intros e He. by right.
  - apply wp_bind. eapply wp_mono; [|apply (skips_quiet snapshots); [|exact Hok1]]; [by intros|quiet].
  - apply wp_bind. eapply wp_mono; [|apply (skips_quiet snapshots); [|exact Hok1]]; [by intros|unfold deferProof; quiet].
Qed.

(** ** The cycle *)

Lemma resend_reply close budget regime msg p err l :
  p = no_payload \/ proof_signed close budget regime msg p l ->
  wp (resendOrSignProofs (Params := Params) (Difficulty := Difficulty) close budget regime p err [msg]) l
    (fun l' r => proof_signed close budget regime msg r.1.2 l' /\
                 (Ev (CSubmitProofs close budget regime [msg]) r ∈ l' \/ Ev (CResend RebroadcastPhaseProof r.1.2) (r.1.1, r.2) ∈ l')).
Proof.
  intros Hs. unfold resendOrSignProofs.
  assert (forall l1, wp (perform (E := E) (CSubmitProofs close budget regime [msg])) l1
    (fun l' r => proof_signed close budget regime msg r.1.2 l' /\
                 (Ev (CSubmitProofs close budget regime [msg]) r ∈ l' \/ Ev (CResend RebroadcastPhaseProof r.1.2) (r.1.1, r.2) ∈ l'))) as Hsign.
  { intros l1. cbn [wp perform]. intros [[hash q] e]. split; [exists hash, e; left|]. left. left. }
  apply wp_bind. unfold canReinject. destruct err as [e|]; [|apply Hsign]. destruct (String.eqb_spec (p_Bytes p) "") as [|Hne]; [apply Hsign|].
  destruct (RejectionPreservesBytes _); [|apply Hsign]. cbn [negb wp pbind perform]. intros now. destruct (reusable _ _); [|apply Hsign].
  cbn [wp pbind perform]. intros [hash q]. destruct Hs as [-> |Hs]; [by destruct Hne|].
  split; [eapply proof_signed_mono; [|exact Hs]; intros e' He; by do 2 right|]. right. left.
Qed.

Lemma submitProofs_skips snapshots weighted close earliest budget regime seed s x : s ∈ snapshots -> ProofTxHash s = "" -> forall n p err l,
  skips_ok snapshots l -> proof_from s x l -> p = no_payload \/ proof_signed close budget regime (pb_msg x) p l ->
  wp (submitProofs (Params := Params) (Difficulty := Difficulty) wired marshal_proof weighted close earliest budget regime seed n [x] p err) l (fun l' _ => skips_ok snapshots l').
Proof.
  intros Hin Htx. induction n as [|n IH]; intros p err l Hok Hx Hp; cbn [submitProofs]; [done|]. cbn [wp pbind perform]. intros height. apply wp_bind.
  eapply wp_mono; [|apply wp_frame, (skips_quiet snapshots); [unfold Weighted; quiet|by apply (skips_other _ CHeight)]].
  intros l1 shape [H1 Hok1]. assert (forall e, e ∈ l -> e ∈ l1) as Hl1 by (intros e He; apply H1; by right).
  destruct (negb (Bool.eqb shape weighted)).
  { apply (skips_quiet snapshots); [unfold deferProofs, deferProof; quiet|done]. }
  apply wp_bind. eapply wp_mono; [|apply wp_and; [apply resend_reply|apply wp_frame, (skips_quiet snapshots); [|exact Hok1]]].
  2:{ destruct Hp as [Hp|Hp]; [by left|right]. by eapply proof_signed_mono. }
  2:{ unfold resendOrSignProofs, canReinject. quiet. }
  intros l2 [[hash q] e] ((Hsigned & Hreply) & H2 & Hok2). cbn [fst snd] in *. assert (proof_from s x l2) as Hx2 by (eapply proof_from_mono; [|exact Hx]; auto).
  destruct e as [e|].
  2:{ apply (skips_quiet snapshots); [unfold proofsAccepted, persistProofs, putEntry; quiet|done]. }
  destruct (errors_Is _ ErrTxProofNotRequired) eqn:Hnr.
  { apply wp_bind. unfold settleNotRequiredBatch. cbn [map imap each]. change (List.length [pb_snapshot x]) with 1%nat.
    apply wp_bind. eapply (wp_mono _ _ (fun l' _ => skips_ok snapshots l')); [by intros|]. case_bool_decide as Hn.
    - cbn [wp pbind perform]. intros []. apply (skips_other _ (CBook (PkProbabilisticProved (pb_snapshot x))) tt) in Hok2; [|done].
      apply wp_bind. destruct (hasCoordinator wired); cbn [wp perform]; [|done]. intros ok. apply (skips_mark _ _ ok); [done|].
      exists s. split; [done|]. split; [symmetry; apply Hx|]. split; [done|]. right. eapply (refused_mono _ l2); [intros e' He; by right|].
      exists x, close, budget, regime, q, hash, e. do 3 (split; [done|]). destruct Hreply; [by left|by right].
    - apply (skips_quiet snapshots); [quiet|done]. }
  apply wp_bind. eapply wp_mono; [|apply wp_frame, (skips_quiet snapshots); [|exact Hok2]]. 2:{ destruct weighted; unfold LearnFromRefusal; quiet. }
  intros l3 learned [H3 Hok3]. destruct learned.
  { apply (skips_quiet snapshots); [unfold deferProofs, deferProof; quiet|done]. }
  apply wp_bind. eapply wp_mono; [|apply wp_frame, (skips_quiet snapshots); [|exact Hok3]]. 2:{ unfold windowRefusalIsFinal. quiet. }
  intros l4 final [H4 Hok4]. destruct (isWindowRefusal _ _ e && negb final).
  { apply (skips_quiet snapshots); [unfold deferProofs, deferProof; quiet|done]. }
  destruct (isWindowRefusal _ _ e).
  { apply (skips_quiet snapshots); [unfold closeProofs; quiet|done]. }
  destruct n as [|n]; [done|]. cbn [wp pbind perform]. intros b. apply (skips_other _ CPause b) in Hok4; [|done]. destruct b; [done|].
  apply IH; [done|eapply proof_from_mono; [|exact Hx2]; intros e' He; right; auto|]. right. eapply proof_signed_mono; [|exact Hsigned]. intros e' He. right. auto.
Qed.

Lemma preProof_skips snapshots params end_ close seed s l :
  skips_ok snapshots l -> s ∈ snapshots -> seed_of s seed l ->
  wp (preProof cfg wired GetClaimeduPOKT sampleValue params end_ close seed s) l (fun l' r =>
    skips_ok snapshots l' /\ match r.2 with Some s' => ProofTxHash s = "" /\ rooted s s' l' | None => True end).
Proof.
  intros Hok Hin Hseed. unfold preProof. destruct (String.eqb_spec (ProofTxHash s) "") as [Htx|Htx]; cbn [negb wp]; [|by split].
  apply wp_bind. eapply wp_mono; [|apply wp_frame, (skips_quiet snapshots); [|exact Hok]]. 2:{ unfold preProofGuard, deferProof. quiet. }
  intros l1 guarded [H1 Hok1]. destruct guarded as [b|]; [cbn [wp]; by split|]. destruct (hasProofChecker wired).
  - apply wp_bind. eapply wp_mono; [|apply (checkRequirement_skips snapshots s); [done|done|done|by left|by eapply seed_of_mono]].
    intros l2 o [Hok2 Ho]. cbn [wp fst snd]. split; [done|]. by destruct o.
  - cbn [wp fst snd]. split; [done|]. split; [done|by left].
Qed.

Lemma proofGroup_skips snapshots s l : skips_ok snapshots l -> s ∈ snapshots ->
  wp (proofGroup cfg wired marshal_proof earliestCommit GetPathForProof GetClaimeduPOKT sampleValue [s]) l (fun l' _ => skips_ok snapshots l').
Proof.
  intros Hok Hin. assert (forall (A : Type) (p : prog A) l', quiet is_mark p -> skips_ok snapshots l' -> wp p l' (fun l'' _ => skips_ok snapshots l'')) as Hq
    by (intros; by apply skips_quiet).
  assert (forall ss, quiet is_mark (deferProofs (Params := Params) (Difficulty := Difficulty) wired ss)) as Hdefer by (intros; unfold deferProofs, deferProof; quiet).
  assert (forall ss, quiet is_mark (closeProofs (Params := Params) (Difficulty := Difficulty) wired ss)) as Hclose by (intros; unfold closeProofs; quiet).
  assert (forall c h, quiet is_mark (waitForHeight (Params := Params) (Difficulty := Difficulty) cfg c h)) as Hwait by (intros; unfold waitForHeight; quiet).
  unfold proofGroup. cbn [groupEnd wp pbind perform]. intros params. apply (skips_other _ (CParams (SessionEndHeight s)) params) in Hok as Hok0; [|done].
  destruct params as [params|]; [|apply Hq; [apply quiet_bind; [done|intros; quiet]|done]].
  apply wp_bind. eapply wp_mono; [|apply wp_frame, (skips_quiet snapshots); [apply Hwait|exact Hok0]]. intros l1 opened [H1 Hok1].
  destruct opened; cbn [negb]; [|apply Hq; [apply quiet_bind; [done|intros; quiet]|done]].
  assert (Ev (CParams (SessionEndHeight s)) (Some params) ∈ l1) as Hp by (apply H1; left). apply wp_bind. unfold waitForBlock. apply wp_bind.
  eapply wp_mono; [|apply wp_frame, (skips_quiet snapshots); [apply Hwait|exact Hok1]]. intros l2 reached [H2 Hok2]. apply H2 in Hp.
  destruct reached; cbn [wp perform]; [|apply Hq; [apply quiet_bind; [done|intros; quiet]|done]].
  intros seed. set (h := earliestCommit _ _ _ - 1). apply (skips_other _ (CBlock h) seed) in Hok2 as Hok3; [|done].
  destruct seed as [seed|]; [|apply Hq; [apply quiet_bind; [done|intros; quiet]|done]].
  assert (seed_of s seed (Ev (CBlock h) (Some seed) :: l2)) as Hseed by (exists params; split; [by right|left]).
  cbn [collect]. apply wp_bind, wp_bind. eapply wp_mono; [|apply wp_frame, (preProof_skips snapshots); [exact Hok3|done|exact Hseed]].
  intros l4 [settled o] (H4 & Hok4 & Ho). cbn [fst snd] in *. eapply seed_of_mono in Hseed; [|exact H4]. cbn [wp pbind map omap list_omap fst snd List.concat].
  destruct o as [s'|]; cbn [omap list_omap wp pbind]; [|done]. destruct Ho as [Htx Hr]. apply wp_bind.
  eapply wp_mono; [|apply wp_frame, (skips_quiet snapshots); [apply Hwait|exact Hok4]]. intros l5 reached [H5 Hok5].
  destruct reached; cbn [negb]; [|apply Hq; [apply quiet_bind; [done|intros; quiet]|done]].
  cbn [wp pbind perform]. intros height. apply (skips_other _ CHeight height) in Hok5 as Hok6; [|done].
  destruct (_ <=? height); [apply Hq; [apply quiet_bind; [done|intros; quiet]|done]|].
  assert (forall e, e ∈ l4 -> e ∈ Ev CHeight height :: l5) as H6 by (intros e He; right; auto).
  apply wp_bind. eapply (wp_mono _ _ (fun l' r => (forall e, e ∈ l4 -> e ∈ l') /\ skips_ok snapshots l' /\ exists o, r = [o] /\ match o with Some s'' => rooted s s'' l' | None => True end)).
  2:{ destruct (hasProofChecker wired).
      - cbn [collect]. apply wp_bind. eapply wp_mono; [|apply wp_frame, (checkRequirement_skips snapshots s); [exact Hok6|done|done| |]].
        + intros l6 o (Hs6 & ? & ?). cbn [wp pbind]. split; [auto|]. split; [done|]. by exists o.
        + by eapply rooted_mono.
        + by eapply seed_of_mono.
      - cbn [wp map]. split; [done|]. split; [done|]. exists (Some s'). split; [done|]. by eapply rooted_mono. }
  intros l6 r (H7 & Hok7 & o & -> & Hr6). eapply seed_of_mono in Hseed; [|exact H7]. destruct o as [s''|]; cbn [omap list_omap id wp pbind perform]; [|done].
  intros height'. apply (skips_other _ CHeight height') in Hok7; [|done]. apply wp_bind.
  eapply wp_mono; [|apply wp_frame, (skips_quiet snapshots); [unfold Weighted; quiet|exact Hok7]]. intros l8 weighted [H8 Hok8].
  assert (same s s'') as Hsame by (by eapply rooted_same).
  cbn [imap collect]. apply wp_bind, wp_bind.
  eapply wp_mono; [|apply wp_and; [apply (buildProof_wp wired marshal_proof earliestCommit GetPathForProof weighted seed s s''); [done|]|apply (skips_quiet snapshots); [|exact Hok8]]].
  2:{ eapply seed_of_mono; [|exact Hseed]. intros e He. apply H8. by right. }
  2:{ unfold buildProof, buildSessionHeader. quiet. }
  intros l9 r [Hb Hok9]. cbn [wp pbind perform]. intros order. apply (skips_other _ CArrivals order) in Hok9; [|done].
  assert (shuffle order [r] = [r]) as -> by (apply Permutation_singleton_r, shuffle_perm).
  destruct r as [x|s3]; cbn [proofs_of omap list_omap]; [|done].
  cbn [alignProofBatch foldl insertByIndex wp pbind perform map]. intros height3. apply (skips_other _ CHeight height3) in Hok9; [|done].
  destruct (_ <=? height3); [apply Hq; [apply quiet_bind; [done|intros; quiet]|done]|].
  destruct (WindowTimeout _ _) as [budget regime]. apply wp_bind.
  eapply wp_mono; [|apply (submitProofs_skips snapshots weighted _ _ budget regime seed s x Hin Htx); [exact Hok9| |by left]].
  2:{ eapply proof_from_mono; [|exact Hb]. intros e He. by do 2 right. }
  intros l10 ended Hok10. destruct ended as [| | | | |p err]; cbn [wp]; try done. apply Hq; [apply quiet_bind; [|intros; quiet]|done].
  unfold proofsFailed, persistProofs, putEntry. quiet.
Qed.
End Skips.

Lemma one_per_session snapshots : exists ss, groupOnePerSession snapshots = map (fun s => [s]) ss /\ ss ≡ₚ snapshots.
Proof.
  destruct (Permutation_map_inv (fun s : SessionSnapshot => [s]) _ (orderGroupsByWindow_perm (map (fun s => [s]) snapshots))) as (ss & Hss & Hp).
  by exists ss.
Qed.

Section Claims.
Context {Params : Type} `{SW : !SharedWindows Params} {Difficulty : Type}.
Variables (cfg : LifecycleCallbackConfig) (wired : Wiring).
Variables (marshal_proof : MsgSubmitProof -> option string) (earliestCommit : Params -> Z -> string -> Z) (GetPathForProof : string -> string -> string).
Variables (GetClaimeduPOKT : MsgCreateClaim -> Params -> Difficulty -> option (option Z)) (sampleValue : MsgCreateClaim -> string -> option float64).
Abbreviation Ev := (Ev (E := CallEffect (Params := Params) (Difficulty := Difficulty))).
Abbreviation proofGroups := (proofGroups (callbackConfig cfg) wired marshal_proof earliestCommit GetPathForProof GetClaimeduPOKT sampleValue).
Abbreviation OnSessionsNeedProof := (OnSessionsNeedProof (callbackConfig cfg) wired marshal_proof earliestCommit GetPathForProof GetClaimeduPOKT sampleValue).
Abbreviation settled_ok := (settled_ok (Difficulty := Difficulty) wired marshal_proof earliestCommit GetPathForProof).
Abbreviation pfate := (pfate (Difficulty := Difficulty) wired marshal_proof earliestCommit GetPathForProof).

Lemma proofGroups_wp ss : forall l,
  wp (proofGroups (map (fun s => [s]) ss)) l (fun l' r =>
    (forall sid, sid ∈ r.1 -> exists s, s ∈ ss /\ SessionID s = sid /\ settled_ok s l') /\
    (hasCoordinator wired = true -> CeCancelled ∉ r.2 -> forall s, s ∈ ss -> pfate r.1 s l')).
Proof.
  assert (1 <= ProofRetryAttempts (callbackConfig cfg)) as Hcfg by (unfold callbackConfig; simpl; case_match; lia).
  induction ss as [|s ss IH]; intros l; cbn [map ProofCycle.proofGroups].
  { cbn [wp fst snd]. split; [intros sid []%not_elem_of_nil|]. by intros _ _ s []%not_elem_of_nil. }
  apply wp_bind. eapply wp_mono; [|by apply (proofGroup_wp (callbackConfig cfg))]. intros l1 r (Hset & Hfate & Hstop). destruct (ge_stop r).
  - rewrite Hstop by done. cbn [wp fst snd]. split.
    + intros sid Hs. destruct (Hset sid Hs) as [-> ?]. exists s. split; [left|]. by split.
    + intros _ Hn. destruct Hn. left.
  - apply wp_bind. eapply wp_mono; [|apply wp_frame, IH]. intros l2 [settled errs] (Hsub & Hset2 & Hfate2). cbn [wp fst snd] in *. split.
    + intros sid [Hs|Hs]%elem_of_app.
      * destruct (Hset sid Hs) as [-> ?]. exists s. split; [left|]. split; [done|]. by eapply settled_ok_mono.
      * destruct (Hset2 sid Hs) as (s' & ? & ? & ?). exists s'. split; [by right|]. by split.
    + intros Hf Hn s' [-> |Hs']%elem_of_cons.
      * eapply pfate_mono; [|exact Hsub|by apply Hfate]. intros sid Hs. apply elem_of_app. by left.
      * eapply (pfate_mono _ _ _ _ settled _ _ l2); [|done|apply Hfate2]; [intros sid Hs; apply elem_of_app; by right|done| |done].
        intros Hc. apply Hn. apply elem_of_app. by right.
Qed.

(** C10. A session is reported settled only when its proof is on its way or
    there. Whatever is answered, a session the cycle names (the caller then
    stores it as proved) was in the input with no proof sent before, and either
    the chain says its proof was validated, or the node accepted a transaction
    that carries only this session's proof: of the leaf that the block before
    the supplier's earliest proof height selects, built by its own tree, in
    bytes signed for exactly this message; and the accepted hash was handed to
    the coordinator and, with the message, to the reconciler. *)
Theorem settled_only_when_proved snapshots l settled errs sid :
  runs (OnSessionsNeedProof snapshots) [] l (settled, errs) -> sid ∈ settled ->
  exists s, s ∈ snapshots /\ SessionID s = sid /\ settled_ok s l.
Proof.
  intros Hr Hs. unfold ProofCycle.OnSessionsNeedProof in Hr. destruct (one_per_session snapshots) as (ss & Heq & Hp). rewrite Heq in Hr.
  destruct (wp_runs _ _ _ _ _ (proofGroups_wp ss []) Hr) as [Hset _]. destruct (Hset sid Hs) as (s & Hin & ?). exists s. split; [by rewrite <- Hp|done].
Qed.


Lemma proofGroups_skips snapshots ss : (forall s, s ∈ ss -> s ∈ snapshots) -> forall l,
  skips_ok earliestCommit GetPathForProof GetClaimeduPOKT sampleValue snapshots l ->
  wp (proofGroups (map (fun s => [s]) ss)) l (fun l' _ => skips_ok earliestCommit GetPathForProof GetClaimeduPOKT sampleValue snapshots l').
Proof.
  induction ss as [|s ss IH]; intros Hin l Hok; cbn [map ProofCycle.proofGroups]; [done|].
  apply wp_bind. eapply wp_mono; [|apply (proofGroup_skips (callbackConfig cfg) wired marshal_proof); [exact Hok|apply Hin; left]].
  intros l1 r Hok1. destruct (ge_stop r); [done|]. apply wp_bind. eapply wp_mono; [|apply IH; [|exact Hok1]]; [by intros l2 [] ?|].
  intros s' Hs'. apply Hin. by right.
Qed.

(** C11. A session goes without its proof only when the chain does not want one.
    Whenever the cycle marks a session probabilistically proved, whatever else
    was answered, either the claimed amount, computed from the claimed root and
    the chain's own parameters, is under the chain's threshold and the sample
    drawn from the hash of the block before the supplier's earliest proof height
    is above the chain's probability; or the chain refused this very session's
    proof as not required. A check that could not be completed never marks. *)
Theorem proof_skipped_only_when_not_required snapshots l settled errs sid (ok : bool) :
  runs (OnSessionsNeedProof snapshots) [] l (settled, errs) -> Ev (COnProbabilisticProved sid) ok ∈ l ->
  skip_ground earliestCommit GetPathForProof GetClaimeduPOKT sampleValue snapshots sid l.
Proof.
  intros Hr He. unfold ProofCycle.OnSessionsNeedProof in Hr. destruct (one_per_session snapshots) as (ss & Heq & Hp). rewrite Heq in Hr.
  assert (forall s, s ∈ ss -> s ∈ snapshots) as Hin by (intros s; by rewrite Hp).
  assert (skips_ok earliestCommit GetPathForProof GetClaimeduPOKT sampleValue snapshots []) as Hok by (by intros e []%not_elem_of_nil).
  exact (wp_runs _ _ _ _ _ (proofGroups_skips snapshots ss Hin [] Hok) Hr _ He).
Qed.
End Claims.
