(* ===== verification/CycleExamples.v ===== *)
(** * The claim and the proof cycle against concrete answers

    The theorems of the two cycles at runs against executable answers: a batch
    from which a claim is ejected and which is then sent again with the bytes
    signed for what is left; a proof that is accepted; a session the sampling
    does not ask a proof of; and a batch that fails, with a session whose tree
    was never flushed. *)

From S2P Require Import Prelude Program SessionState StoreSpec SessionLifecycle SessionCoordinator GoFloat RebroadcastStore TxClient InclusionReconciler ClaimPages LifecycleCallback ClaimCycle ClaimCycleSafety ProofCycle ProofCycleSafety ProofSkips.
From Stdlib Require Import Ascii String.

Local Open Scope string_scope.
Local Open Scope Z_scope.
Local Open Scope list_scope.

Module CycleExamples.

(** ** The answers *)

#[local] Instance windows : SharedWindows unit := {
  GetClaimWindowOpenHeight := fun _ e => e + 2;
  GetClaimWindowCloseHeight := fun _ e => e + 6;
  GetProofWindowOpenHeight := fun _ e => e + 7;
  GetProofWindowCloseHeight := fun _ e => e + 11
}.

Definition snapshot (id root : string) : SessionSnapshot :=
  mkSnapshot id "pokt1sup" "svc" "pokt1app" 91 100 SessionStateClaiming 3 30 root "" "" "" 0 0.

Definition root_of (id : string) : string := (String.concat "" (repeat "r" (SMSTRootLen - 2)) ++ id)%string.

Definition cfg : LifecycleCallbackConfig := mkLcConfig 0 0 30 false.
Definition wired : Wiring := mkWiring true true true true true true true true true true true true.

Definition refused (stage : TxStage) (n : option Z) : SubmitErr := mkSubmitErr (rejected (mkRejection stage "" 5 "proof" 0 n "")) "refused".
Definition payload (n : nat) : SignedTxPayload := mkPayload (if Nat.eqb n 0 then "first" else "second") "H" 1000 106.

(** A node: the sends are numbered, [sent] answers them; ["s3"] has no tree. *)
Section Node.
Variables (height : Z) (sent : nat -> string * option SubmitErr) (claim : ClaimReply).

Definition node (c : Call) (n : nat) : nat * answer (Effect := CallEffect (Params := unit) (Difficulty := unit)) c :=
  match c as c return nat * answer (Effect := CallEffect (Params := unit) (Difficulty := unit)) c with
  | CParams _ => (n, Some tt)
  | CHeight => (n, height)
  | CBlockTime => (n, 500)
  | CFee | CShapeNotAppliedAt => (n, 0)
  | CWait _ => (n, [])
  | CBlock _ => (n, Some "seed")
  | CFlush id => (n, if String.eqb id "s3" then None else Some (root_of id))
  | CProve _ _ path => (n, Some path)
  | CCupr _ _ => (n, Some 10)
  | CUpgrade => (n, Some 1)
  | CSession _ _ _ => (n, None)
  | CDifficulty _ _ => (n, Some tt)
  | CProofParams => (n, Some (mkProofParams 50 (mkFloat 1 (-2))))
  | CGetClaim _ _ => (n, claim)
  | CTreeRoot id => (n, Ok (root_of id))
  | CResend _ _ => (S n, sent n)
  | CCreateClaims _ _ _ _ | CSubmitProofs _ _ _ _ => (S n, let '(hash, err) := sent n in (hash, payload n, err))
  | COnSessionClaimed _ _ _ | COnClaimTxError _ _ | COnClaimDeferred _ | COnClaimSkipped _ | COnProofSubmitted _ _ | COnSessionProved _ | COnProofTxError _
  | COnProofDeferred _ | COnClaimMissing _ | COnProbabilisticProved _ | COnProofWindowClosed _ | CPut _ _ _ | CShapeWeighted => (n, true)
  | CPause => (n, false)
  | CArrivals => (n, [1%nat])
  | CDeleteTree _ | CCompact _ | CCleanupDedup _ | CClaimWindowClosed _ _ | CSetState _ _ | CSetRoot _ _ | CShapeSetNotApplied _ | CShapeSetWeighted
  | CBook _ | CTrackClaim _ | CTrackProof _ => (n, tt)
  end.
End Node.

Definition smt_Count (root : string) : option Z := Some 3.
Definition smt_Sum (root : string) : option Z := Some 30.
Definition marshal_claim (m : MsgCreateClaim) : option string := Some (mc_RootHash m).
Definition marshal_proof (m : MsgSubmitProof) : option string := Some (mp_Proof m).
Definition claimed_amount (m : MsgCreateClaim) (p d : unit) : option (option Z) := Some (Some (if String.eqb (sh_SessionId (mc_SessionHeader m)) "s1" then 60 else 40)).
Definition sample (m : MsgCreateClaim) (seed : string) : option float64 := Some (mkFloat 1 (-1)).
Definition earliest (p : unit) (end_ : Z) (supplier : string) : Z := end_ + 8.
Definition path_of (seed sid : string) : string := (seed ++ sid)%string.

Abbreviation claim_cycle := (OnSessionsNeedClaim (callbackConfig cfg) wired smt_Count smt_Sum marshal_claim claimed_amount).
Abbreviation proof_cycle := (OnSessionsNeedProof (callbackConfig cfg) wired marshal_proof earliest path_of claimed_amount sample).

(** ** A claim cycle *)

(** The second claim to arrive is named and ejected; the next attempt is refused by a node
    that does not count it, and its bytes are sent again and accepted. *)
Definition eject_then_resend (n : nat) : string * option SubmitErr :=
  match n with
  | 0%nat => ("", Some (refused TxStageCheckTx (Some 1)))
  | 1%nat => ("", Some (refused TxStageBroadcast None))
  | _ => ("HASH", None)
  end.

Definition claim_sessions : list SessionSnapshot := [snapshot "s1" ""; snapshot "s2" ""; snapshot "s3" ""; snapshot "s4" ""].

Definition claim_run := interp (node 103 eject_then_resend ClaimNoAnswer) (claim_cycle claim_sessions) 0%nat [].

(** What was sent, oldest first. *)
Definition sent_bytes (l : list (event Call (E := CallEffect (Params := unit) (Difficulty := unit)))) : list (string * nat) :=
  rev (omap (fun e => match ev_call e with
                      | CCreateClaims _ _ _ msgs => Some ("sign", List.length msgs)
                      | CResend _ p => Some (p_Bytes p, O)
                      | _ => None
                      end) l).

Lemma claim_run_ends : (claim_run.1.1, sent_bytes claim_run.1.2, claim_run.2.1, claim_run.2.2) =
  (3%nat, [("sign", 3%nat); ("sign", 2%nat); ("second", O)], ["s2"; "s4"], []).
Proof. by vm_compute. Qed.

Lemma claimed_only_when_accepted_witness :
  claimed_ok wired smt_Count smt_Sum marshal_claim claim_sessions "s2" claim_run.1.2.
Proof.
  pose proof claim_run_ends as H. unfold claim_run in *. destruct (interp _ _ _ _) as [[n l] [claimed errs]] eqn:E. cbn [fst snd] in *. injection H as _ _ -> ->.
  eapply (claimed_only_when_accepted cfg wired smt_Count smt_Sum marshal_claim claimed_amount claim_sessions l).
  - exact (interp_runs _ _ _ _ _ _ _ E).
  - left.
Defined.


(** ** A failed batch *)

(** Every attempt fails: the session without a tree is marked for the
    reconciler with the others, which gets no entry of it. *)
Definition always_refused (n : nat) : string * option SubmitErr := ("", Some (refused TxStageBroadcast None)).
Definition failed_run := interp (node 103 always_refused ClaimNoAnswer) (claim_cycle [snapshot "s1" ""; snapshot "s3" ""]) 0%nat [].

Definition marked (l : list (event Call (E := CallEffect (Params := unit) (Difficulty := unit)))) : list (string * string) :=
  rev (omap (fun e => match ev_call e with COnClaimTxError id verdict => Some (id, verdict) | _ => None end) l).
Definition put_entries (l : list (event Call (E := CallEffect (Params := unit) (Difficulty := unit)))) : list string :=
  rev (omap (fun e => match ev_call e with CPut _ s _ => Some (SessionID s) | _ => None end) l).

(** A session that was never built is marked failed with the promise of an
    answer nobody was asked for. *)
Lemma unbuilt_marked_without_entry :
  marked failed_run.1.2 = [("s1", ClaimTxErrorAttempt); ("s3", ClaimTxErrorAttempt)] /\ put_entries failed_run.1.2 = ["s1"].
Proof. by vm_compute. Qed.

(** ** Proof cycles *)

Definition accepted_at_once (n : nat) : string * option SubmitErr := ("PROOF", None).
Definition proof_sessions : list SessionSnapshot := [snapshot "s1" "root1"; snapshot "s2" ""].
Definition proof_run := interp (node 109 accepted_at_once (ClaimIs (Some PENDING_VALIDATION))) (proof_cycle proof_sessions) 0%nat [].

(** The first session is at the threshold, the second is not sampled. *)
Lemma proof_run_ends : (proof_run.1.1, proof_run.2.1, proof_run.2.2) = (1%nat, ["s1"], []).
Proof. by vm_compute. Qed.

Lemma settled_only_when_proved_witness :
  exists s, s ∈ proof_sessions /\ SessionID s = "s1" /\ settled_ok wired marshal_proof earliest path_of s proof_run.1.2.
Proof.
  pose proof proof_run_ends as H. unfold proof_run in *. destruct (interp _ _ _ _) as [[n l] [settled errs]] eqn:E. cbn [fst snd] in *. injection H as _ -> ->.
  eapply (settled_only_when_proved cfg wired marshal_proof earliest path_of claimed_amount sample proof_sessions l).
  - exact (interp_runs _ _ _ _ _ _ _ E).
  - left.
Defined.


Definition is_mark_of (id : string) (e : event Call (E := CallEffect (Params := unit) (Difficulty := unit))) : bool :=
  match ev_call e with COnProbabilisticProved id' => String.eqb id' id | _ => false end.

Lemma mark_elem id l : existsb (is_mark_of id) l = true -> exists ok : bool, Ev (E := CallEffect (Params := unit) (Difficulty := unit)) (COnProbabilisticProved id) ok ∈ l.
Proof.
  intros ([c a] & Hin & Hm)%existsb_exists. destruct c; try done. apply String.eqb_eq in Hm as ->. exists a. by apply list_elem_of_In.
Qed.

Lemma proof_skipped_only_when_not_required_witness :
  skip_ground earliest path_of claimed_amount sample proof_sessions "s2" proof_run.1.2.
Proof.
  assert (existsb (is_mark_of "s2") proof_run.1.2 = true) as [ok Hm]%mark_elem by (by vm_compute).
  unfold proof_run in *. destruct (interp _ _ _ _) as [[n l] [settled errs]] eqn:E. cbn [fst snd] in *.
  eapply (proof_skipped_only_when_not_required cfg wired marshal_proof earliest path_of claimed_amount sample proof_sessions l).
  - exact (interp_runs _ _ _ _ _ _ _ E).
  - exact Hm.
Defined.
End CycleExamples.
