(* ===== verification/FaultMonad.v ===== *)
(** * Operations over a store that fails

    A state monad whose round trips are answered by an oracle: a trip succeeds,
    or fails before or after it took effect. An operation written in it runs on
    a concrete oracle, and [wpm] states what holds of its outcome whatever the
    oracle answers. *)

From S2P Require Import Prelude.
From Stdlib Require Import Ascii String.

Local Open Scope list_scope.

(** How a failed round trip is classified (miner/errors.go): worth another try,
    or the caller's own cancellation. *)
Record WireErr := mkWire { w_transient : bool; w_cancelled : bool }.

(** What comes back: no error; or one, with whether the write took effect, and
    for a write of several items which of them landed. A read of single items
    fails by item. A store can refuse a command as such, before anything is
    written. [oc_panic]: the code at this point panics. *)
Record Outcome := mkOutcome {
  oc_err : option WireErr;
  oc_applied : bool;
  oc_landed : string -> bool;
  oc_reads : string -> option WireErr;
  oc_refused : bool;
  oc_panic : bool
}.
Definition oc_ok : Outcome := mkOutcome None true (fun _ => true) (fun _ => None) false false.
Definition oc_fail (applied : bool) : Outcome := mkOutcome (Some (mkWire true false)) applied (fun _ => applied) (fun _ => Some (mkWire true false)) false false.
Definition oc_refuse : Outcome := mkOutcome (Some (mkWire false false)) false (fun _ => false) (fun _ => None) true false.
Definition oc_crash : Outcome := mkOutcome None true (fun _ => true) (fun _ => None) false true.

Definition Oracle : Type := nat -> Outcome.
Definition all_ok : Oracle := fun _ => oc_ok.
(** The n-th trip answers [x], the others succeed. *)
Definition nth_trip (n : nat) (x : Outcome) : Oracle := fun k => if Nat.eqb k n then x else oc_ok.

Definition M (W A : Type) : Type := Oracle -> W -> Oracle * W * A.

#[export] Instance M_ret {W} : MRet (M W) := fun A a o w => (o, w, a).
#[export] Instance M_bind {W} : MBind (M W) := fun A B f m o w => match m o w with (o, w, a) => f a o w end.

Section Operations.
Context {W : Type}.

Definition ask : M W Outcome := fun o w => (fun n => o (S n), w, o O).
Definition gets {A} (f : W -> A) : M W A := fun o w => (o, w, f w).
Definition modify (f : W -> W) : M W unit := fun o w => (o, f w, tt).

(** One atomic round trip. *)
Definition trip {A} (act : W -> W * A) : M W (result A WireErr) := fun o w =>
  let o' := fun n => o (S n) in
  match oc_err (o O) with
  | None => (o', fst (act w), Ok (snd (act w)))
  | Some e => (o', if oc_applied (o O) then fst (act w) else w, Err e)
  end.
Definition read {A} (f : W -> A) : M W (result A WireErr) := trip (fun w => (w, f w)).

Fixpoint mapM_ {A} (f : A -> M W unit) (l : list A) : M W unit :=
  match l with
  | [] => mret tt
  | a :: l => f a ≫= fun _ => mapM_ f l
  end.

(** ** What holds of every outcome *)

Definition wpm {A} (m : M W A) (w : W) (Q : W -> A -> Prop) : Prop := forall o, match m o w with (_, w', a) => Q w' a end.

Lemma wpm_ret {A} (a : A) w (Q : W -> A -> Prop) : Q w a -> wpm (mret a) w Q.
Proof. by intros H o. Qed.
Lemma wpm_bind {A B} (m : M W A) (f : A -> M W B) w Q : wpm m w (fun w' a => wpm (f a) w' Q) -> wpm (m ≫= f) w Q.
Proof. intros H o. unfold mbind, M_bind. specialize (H o). destruct (m o w) as [[o' w'] a]. exact (H o'). Qed.
Lemma wpm_mono {A} (m : M W A) w (Q Q' : W -> A -> Prop) : (forall w' a, Q w' a -> Q' w' a) -> wpm m w Q -> wpm m w Q'.
Proof. intros HQ H o. specialize (H o). destruct (m o w) as [[o' w'] a]. auto. Qed.
Lemma wpm_and {A} (m : M W A) w (Q Q' : W -> A -> Prop) : wpm m w Q -> wpm m w Q' -> wpm m w (fun w' a => Q w' a /\ Q' w' a).
Proof. intros H H' o. specialize (H o). specialize (H' o). destruct (m o w) as [[o' w'] a]. done. Qed.
Lemma wpm_ask w (Q : W -> Outcome -> Prop) : (forall x, Q w x) -> wpm ask w Q.
Proof. intros H o. apply H. Qed.
Lemma wpm_gets {A} (f : W -> A) w (Q : W -> A -> Prop) : Q w (f w) -> wpm (gets f) w Q.
Proof. by intros H o. Qed.
Lemma wpm_modify f w (Q : W -> unit -> Prop) : Q (f w) tt -> wpm (modify f) w Q.
Proof. by intros H o. Qed.
Lemma wpm_trip {A} (act : W -> W * A) w (Q : W -> result A WireErr -> Prop) :
  Q (fst (act w)) (Ok (snd (act w))) -> (forall e, Q w (Err e)) -> (forall e, Q (fst (act w)) (Err e)) -> wpm (trip act) w Q.
Proof. intros H1 H2 H3 o. unfold trip. destruct (oc_err (o O)); [|done]. by destruct (oc_applied (o O)). Qed.
Lemma wpm_read {A} (f : W -> A) w (Q : W -> result A WireErr -> Prop) :
  Q w (Ok (f w)) -> (forall e, Q w (Err e)) -> wpm (read f) w Q.
Proof. intros H1 H2. by apply wpm_trip. Qed.
Lemma wpm_mapM_ {A} (f : A -> M W unit) (P : W -> Prop) l w :
  P w -> (forall a w, a ∈ l -> P w -> wpm (f a) w (fun w' _ => P w')) -> wpm (mapM_ f l) w (fun w' _ => P w').
Proof.
  revert w. induction l as [|a l IH]; intros w HP Hf; cbn [mapM_]; [by apply wpm_ret|].
  apply wpm_bind. eapply wpm_mono; [|apply Hf; [left|done]]. intros w' ? HP'. apply IH; [done|]. intros b w0 Hb. apply Hf. by right.
Qed.
End Operations.

(** An operation on a part of the state. *)
Definition on {W V A} (get : W -> V) (set : V -> W -> W) (m : M V A) : M W A := fun o w =>
  match m o (get w) with (o, v, a) => (o, set v w, a) end.

Lemma wpm_on {W V A} (get : W -> V) (set : V -> W -> W) (m : M V A) w (Q : W -> A -> Prop) :
  wpm m (get w) (fun v a => Q (set v w) a) -> wpm (on get set m) w Q.
Proof. intros H o. unfold on. specialize (H o). by destruct (m o (get w)) as [[o' v] a]. Qed.

Ltac wpm_step := lazymatch goal with
  | |- wpm (mbind _ _) _ _ => apply wpm_bind
  | |- wpm (mret _) _ _ => apply wpm_ret
  | |- wpm (gets _) _ _ => apply wpm_gets
  | |- wpm (modify _) _ _ => apply wpm_modify
  | |- wpm ask _ _ => apply wpm_ask; intros ?
  | |- wpm (read _) _ _ => apply wpm_read; [|intros ?]
  | |- wpm (trip _) _ _ => apply wpm_trip; [|intros ?|intros ?]
  | |- wpm (on _ _ _) _ _ => apply wpm_on
  end.
