(* ===== verification/SmstStore.v ===== *)
(** * Where session trees are kept (miner/redis_mapstore.go, smst_nodes.go, smst_store.go)

    The records of a session's tree as smstStore keeps them, the codec of a
    stored node (miner/smst_node_codec.go), the node store that buffers what a
    commit writes and defers what it orphans, and the classes of errors of
    miner/errors.go. Keys are per supplier and session (KeyBuilder), so a
    session's records are a value of their own here. The expiry of the records,
    refreshed while a session takes relays, is not modelled. *)

From S2P Require Import Prelude FaultMonad.
From Stdlib Require Import Ascii String.

Local Open Scope string_scope.
Local Open Scope Z_scope.

(** ** Errors *)

Inductive SmstSentinel :=
| ErrSessionSealing
| ErrSessionClaimed
| ErrSMSTUpdateFailed
| ErrSMSTCommitFailed
| ErrSMSTNodeMissing
| ErrSMSTPanicRecovered
| ErrSessionTerminal.

#[export] Instance SmstSentinel_eq_dec : EqDecision SmstSentinel.
Proof. solve_decision. Defined.

(** An error as errors.Is sees it: the sentinels its chain wraps, and the
    transport error at its end. *)
Record SmErr := mkSmErr { sm_is : list SmstSentinel; sm_wire : option WireErr }.

Definition wire (e : WireErr) : SmErr := mkSmErr [] (Some e).
Definition plain : SmErr := mkSmErr [] None.
Definition is_a (s : SmstSentinel) : SmErr := mkSmErr [s] None.
Definition wrapErr (s : SmstSentinel) (e : SmErr) : SmErr := mkSmErr (s :: sm_is e) (sm_wire e).

Definition IsRetryableError (e : SmErr) : bool := match sm_wire e with Some w => w_transient w | None => false end.
Definition IsShutdownCancelError (e : SmErr) : bool := match sm_wire e with Some w => w_cancelled w | None => false end.
Definition IsPermanentSMSTError (e : SmErr) : bool :=
  bool_decide (ErrSessionSealing ∈ sm_is e) || bool_decide (ErrSessionClaimed ∈ sm_is e) || bool_decide (ErrSMSTUpdateFailed ∈ sm_is e)
  || bool_decide (ErrSMSTCommitFailed ∈ sm_is e) || bool_decide (ErrSMSTNodeMissing ∈ sm_is e) || bool_decide (ErrSMSTPanicRecovered ∈ sm_is e)
  || bool_decide (ErrSessionTerminal ∈ sm_is e).
Definition isSMSTCorruption (e : SmErr) : bool :=
  negb (IsRetryableError e) && (bool_decide (ErrSMSTNodeMissing ∈ sm_is e) || bool_decide (ErrSMSTPanicRecovered ∈ sm_is e)).

(** ** The codec of a stored node *)

Definition zstdFrameMagic : string := String "040" (String "181" (String "047" (String "253" ""))).

(** What the decoder accepts to inflate to ([zstd.WithDecoderMaxMemory]). *)
Definition coldDecodedMaxBytes : Z := 2 ^ 30.

(** zstd, and whether its codec could be built. *)
Record Codec := mkCodec { zstd_encode : string -> string; zstd_decode : string -> option string }.
Class NodeCodec := coldCodec : option Codec.
Class NodeCodecLaws `{!NodeCodec} : Prop := {
  zstd_decode_encode z v : coldCodec = Some z -> Z.of_nat (String.length v) <= coldDecodedMaxBytes -> zstd_decode z (zstd_encode z v) = Some v;
  zstd_frame z v : coldCodec = Some z -> prefix zstdFrameMagic (zstd_encode z v) = true
}.

Section Codec.
Context `{NC : !NodeCodec}.

Definition compressNode (value : string) : string :=
  if String.eqb value "" then value
  else match coldCodec with
       | None => value
       | Some z => let framed := zstd_encode z value in
                   if Nat.leb (String.length value) (String.length framed) then value else framed
       end.

Definition isCompressedNode (value : string) : bool := prefix zstdFrameMagic value.

Definition decompressNode (value : string) : option string :=
  if negb (isCompressedNode value) then Some value
  else match coldCodec with None => None | Some z => zstd_decode z value end.
End Codec.

(** A node of the smt library starts with its kind: leaf, inner, extension. It is
    hashes, or one relay of which Redis holds at most 512 MB, so that the decoder
    accepts it. *)
Definition smt_node (v : string) : Prop :=
  exists c rest, v = String c rest /\ (nat_of_ascii c < 3)%nat /\ Z.of_nat (String.length v) <= coldDecodedMaxBytes.

Lemma decompress_compress `{NodeCodecLaws} v : smt_node v -> decompressNode (compressNode v) = Some v.
Proof.
  intros (c & rest & -> & Hc & Hlen). unfold compressNode. cbn [String.eqb].
  assert (isCompressedNode (String c rest) = false) as Hraw.
  { unfold isCompressedNode, zstdFrameMagic. cbn [prefix]. destruct (ascii_dec "040" c) as [<-|]; [|done]. exfalso. revert Hc. compute. lia. }
  destruct coldCodec as [z|] eqn:Hz; [|unfold decompressNode; by rewrite Hraw]. cbv zeta.
  destruct (Nat.leb _ _); [unfold decompressNode; by rewrite Hraw|].
  unfold decompressNode, isCompressedNode. rewrite (zstd_frame z _ Hz). cbn [negb]. rewrite Hz. by apply zstd_decode_encode.
Qed.

(** ** The records of a session *)

Record SessionRecs := mkRecs {
  rc_nodes : gmap string string;
  rc_claimed : option string;
  rc_live : option string;
  rc_stats : option string;
  rc_leaves : option string
}.
Definition no_recs : SessionRecs := mkRecs ∅ None None None None.

Definition set_nodes (n : gmap string string) (r : SessionRecs) : SessionRecs := mkRecs n (rc_claimed r) (rc_live r) (rc_stats r) (rc_leaves r).
Definition set_claimed (c : option string) (r : SessionRecs) : SessionRecs := mkRecs (rc_nodes r) c (rc_live r) (rc_stats r) (rc_leaves r).
Definition set_live (l : option string) (r : SessionRecs) : SessionRecs := mkRecs (rc_nodes r) (rc_claimed r) l (rc_stats r) (rc_leaves r).
Definition set_stats (s : option string) (r : SessionRecs) : SessionRecs := mkRecs (rc_nodes r) (rc_claimed r) (rc_live r) s (rc_leaves r).

(** [checkpoint]: the orphans' delete and the live root, one transaction. *)
Definition checkpointNodes (orphans : gset string) (liveRoot : string) (r : SessionRecs) : SessionRecs :=
  set_live (Some liveRoot) (set_nodes (filter (fun kv => kv.1 ∉ orphans) (rc_nodes r)) r).

(** [exitLiveRootScript]: the live root while it is the expected one; an absent
    one is the empty string. *)
Definition setLiveRootIfUnchanged (root expected : string) (r : SessionRecs) : SessionRecs * bool :=
  if String.eqb (default "" (rc_live r)) expected then (set_live (Some root) r, true) else (r, false).

(** ** The node store *)

Record nodeStore := mkNodeStore { ns_enabled : bool; ns_pipeline : gmap string string; ns_orphans : gset string }.
Definition newNodeStore : nodeStore := mkNodeStore false ∅ ∅.

Definition BeginPipeline (ns : nodeStore) : nodeStore := mkNodeStore true (ns_pipeline ns) (ns_orphans ns).

(** [Set] and [Delete] of a pipelined store, which is how Commit calls them. *)
Definition ns_Set (field value : string) (ns : nodeStore) : nodeStore :=
  mkNodeStore (ns_enabled ns) (<[field := value]> (ns_pipeline ns)) (ns_orphans ns ∖ {[field]}).
Definition ns_Delete (field : string) (ns : nodeStore) : nodeStore :=
  mkNodeStore (ns_enabled ns) (delete field (ns_pipeline ns)) ({[field]} ∪ ns_orphans ns).

Inductive NodeOp := NSet (field value : string) | NDel (field : string).
Definition ns_run (ops : list NodeOp) (ns : nodeStore) : nodeStore :=
  foldl (fun ns op => match op with NSet f v => ns_Set f v ns | NDel f => ns_Delete f ns end) ns ops.

Section Nodes.
Context `{NC : !NodeCodec}.

(** [Get]: a buffered node, or the stored one; [reads] is how reading it fails. *)
Definition ns_Get (ns : nodeStore) (nodes : gmap string string) (reads : string -> option WireErr) (field : string) : result string SmErr :=
  match ns_pipeline ns !! field with
  | Some value => Ok value
  | None =>
      match reads field with
      | Some e => Err (wire e)
      | None =>
          match nodes !! field with
          | None => Err (is_a ErrSMSTNodeMissing)
          | Some stored =>
              match decompressNode stored with
              | None => Err plain
              | Some value => if String.eqb value "" then Err (is_a ErrSMSTNodeMissing) else Ok value
              end
          end
      end
  end.

(** [put] of the buffered nodes: all of them, or on an error those that landed. *)
Definition putNodes (landed : string -> bool) (pending nodes : gmap string string) : gmap string string :=
  (compressNode <$> filter (fun kv => landed kv.1 = true) pending) ∪ nodes.

(** What the stored values decode to. *)
Definition decoded (nodes : gmap string string) : gmap string string := omap decompressNode nodes.

(** The nodes a tree over this store can still name: buffered or stored, and not
    orphaned. *)
Definition logical (ns : nodeStore) (nodes : gmap string string) : gmap string string :=
  filter (fun kv => kv.1 ∉ ns_orphans ns) (ns_pipeline ns ∪ decoded nodes).

Definition run_ops (ops : list NodeOp) (n : gmap string string) : gmap string string :=
  foldl (fun n op => match op with NSet f v => <[f := v]> n | NDel f => delete f n end) n ops.

Lemma logical_lookup ns nodes f v :
  logical ns nodes !! f = Some v <->
  (ns_pipeline ns !! f = Some v \/ ns_pipeline ns !! f = None /\ decoded nodes !! f = Some v) /\ f ∉ ns_orphans ns.
Proof. unfold logical. rewrite map_lookup_filter_Some, lookup_union_Some_raw. cbn. tauto. Qed.

(** Buffering is what the operations do to the nodes. *)
Lemma logical_run ops ns nodes : logical (ns_run ops ns) nodes = run_ops ops (logical ns nodes).
Proof.
  revert ns. induction ops as [|[f v|f] ops IH]; intros ns; cbn [ns_run run_ops foldl]; [done| |];
    change (foldl _ ?x ops) with (ns_run ops x) at 1; change (foldl _ ?x ops) with (run_ops ops x); rewrite IH; f_equal; apply map_eq; intros g.
  - apply option_eq. intros x. rewrite logical_lookup. cbn [ns_Set ns_pipeline ns_orphans].
    destruct (decide (f = g)) as [<-|Hne].
    + rewrite !lookup_insert_eq. set_solver.
    + rewrite !lookup_insert_ne by done. rewrite logical_lookup. set_solver.
  - apply option_eq. intros x. rewrite logical_lookup. cbn [ns_Delete ns_pipeline ns_orphans].
    destruct (decide (f = g)) as [<-|Hne].
    + rewrite !lookup_delete_eq. set_solver.
    + rewrite !lookup_delete_ne by done. rewrite logical_lookup. set_solver.
Qed.
End Nodes.
