(* ===== verification/SmstManager.v ===== *)
(** * The SMST manager (miner/smst_manager.go)

    The trees of one supplier's sessions: kept in memory, written to the store
    in commits, and made again from it. The tree library (smt) is the class
    [SMT]: a tree reads nodes through the store's Get while it is updated, and a
    commit hands the store what to write and what it orphaned.

    A method takes a tree and its lock together here, so methods of one tree run
    one after the other; FlushTree lets the lock go while it waits and is two
    steps, [FlushTree_seal] and [FlushTree_finish]. A tree is an object of its
    own, named by its generation: one that was evicted or deleted while a caller
    holds it is still that caller's.

    [sw_lost] is not in the code. It collects the sessions whose stored tree the
    code gives up: deleted at the end of the session, purged after repeated
    corruption, evicted as corrupt once sealed, found corrupt by the last write of
    a claim or of a process that leaves, or made again although a root could not
    be read. *)

From S2P Require Import Prelude FaultMonad SessionState StoreSpec SmstStore.
From Stdlib Require Import Ascii String.

Local Open Scope string_scope.
Local Open Scope Z_scope.

(** ** The tree library *)

(** A call of the library: an answer, an error, or a panic. *)
Inductive LibResult (A : Type) := LOk (a : A) | LErr (e : SmErr) | LPanic.
Arguments LOk {A} a.
Arguments LErr {A} e.
Arguments LPanic {A}.

Class SMT (Trie : Type) := {
  smt_new : Trie;
  smt_import : string -> LibResult Trie;
  smt_update : (string -> result string SmErr) -> Trie -> string -> string -> Z -> Trie * LibResult unit;
  smt_commit : Trie -> Trie * list NodeOp * LibResult unit;
  smt_compact : Trie -> Trie * LibResult unit;
  smt_root : Trie -> LibResult string;
  smt_count : Trie -> LibResult Z;
  smt_sum : Trie -> LibResult Z
}.

(** [runSMSTSafely] *)
Definition runSMSTSafely {A} (r : LibResult A) : result A SmErr :=
  match r with LOk a => Ok a | LErr e => Err e | LPanic => Err (is_a ErrSMSTPanicRecovered) end.

Definition isValidSMSTRoot (root : string) : bool := Nat.eqb (String.length root) SMSTRootLen.

Definition persistentCorruptionThreshold : nat := 3.
(** In seconds. *)
Definition deletedSessionMemory : Z := 3600.

Section Manager.
Context {Trie : Type} `{LIB : !SMT Trie} `{NC : !NodeCodec}.

(** ** State *)

Record redisSMST := mkTree {
  t_sessionID : string;
  t_trie : Trie;
  t_store : nodeStore;
  t_sealing : bool;
  t_claimedRoot : option string;
  t_claimedCount : Z;
  t_claimedSum : Z;
  t_compactionDisabled : bool;
  t_liveRoot : string;
  t_sessionConfirmed : bool;
  t_unloaded : bool
}.

Record Manager := mkManager {
  sw_store : gmap string SessionRecs;
  sw_trees : gmap string Z;
  sw_objs : gmap Z redisSMST;
  sw_evictions : gmap string nat;
  sw_deleted : gmap string Z;
  sw_prunedAt : Z;
  sw_gen : Z;
  sw_leafBytes : Z;
  sw_lost : gset string
}.
Abbreviation Op := (M Manager).

Definition newTree (sessionID : string) (trie : Trie) (claimed : option string) (live : string) : redisSMST :=
  mkTree sessionID trie newNodeStore false claimed 0 0 false live false false.

Definition upd_trie (x : Trie) (t : redisSMST) : redisSMST :=
  mkTree (t_sessionID t) x (t_store t) (t_sealing t) (t_claimedRoot t) (t_claimedCount t) (t_claimedSum t) (t_compactionDisabled t) (t_liveRoot t) (t_sessionConfirmed t) (t_unloaded t).
Definition upd_nodes (x : nodeStore) (t : redisSMST) : redisSMST :=
  mkTree (t_sessionID t) (t_trie t) x (t_sealing t) (t_claimedRoot t) (t_claimedCount t) (t_claimedSum t) (t_compactionDisabled t) (t_liveRoot t) (t_sessionConfirmed t) (t_unloaded t).
Definition upd_sealing (x : bool) (t : redisSMST) : redisSMST :=
  mkTree (t_sessionID t) (t_trie t) (t_store t) x (t_claimedRoot t) (t_claimedCount t) (t_claimedSum t) (t_compactionDisabled t) (t_liveRoot t) (t_sessionConfirmed t) (t_unloaded t).
Definition upd_claimed (r : string) (n m : Z) (t : redisSMST) : redisSMST :=
  mkTree (t_sessionID t) (t_trie t) (t_store t) (t_sealing t) (Some r) n m (t_compactionDisabled t) (t_liveRoot t) (t_sessionConfirmed t) (t_unloaded t).
Definition upd_compaction (x : bool) (t : redisSMST) : redisSMST :=
  mkTree (t_sessionID t) (t_trie t) (t_store t) (t_sealing t) (t_claimedRoot t) (t_claimedCount t) (t_claimedSum t) x (t_liveRoot t) (t_sessionConfirmed t) (t_unloaded t).
Definition upd_liveRoot (x : string) (t : redisSMST) : redisSMST :=
  mkTree (t_sessionID t) (t_trie t) (t_store t) (t_sealing t) (t_claimedRoot t) (t_claimedCount t) (t_claimedSum t) (t_compactionDisabled t) x (t_sessionConfirmed t) (t_unloaded t).
Definition upd_confirmed (x : bool) (t : redisSMST) : redisSMST :=
  mkTree (t_sessionID t) (t_trie t) (t_store t) (t_sealing t) (t_claimedRoot t) (t_claimedCount t) (t_claimedSum t) (t_compactionDisabled t) (t_liveRoot t) x (t_unloaded t).
Definition upd_unloaded (x : bool) (t : redisSMST) : redisSMST :=
  mkTree (t_sessionID t) (t_trie t) (t_store t) (t_sealing t) (t_claimedRoot t) (t_claimedCount t) (t_claimedSum t) (t_compactionDisabled t) (t_liveRoot t) (t_sessionConfirmed t) x.

Definition recs (w : Manager) (sid : string) : SessionRecs := default no_recs (sw_store w !! sid).
Definition upd_store (sid : string) (r : SessionRecs) (w : Manager) : Manager :=
  mkManager (<[sid := r]> (sw_store w)) (sw_trees w) (sw_objs w) (sw_evictions w) (sw_deleted w) (sw_prunedAt w) (sw_gen w) (sw_leafBytes w) (sw_lost w).
Definition upd_trees (x : gmap string Z) (w : Manager) : Manager :=
  mkManager (sw_store w) x (sw_objs w) (sw_evictions w) (sw_deleted w) (sw_prunedAt w) (sw_gen w) (sw_leafBytes w) (sw_lost w).
Definition upd_obj (g : Z) (t : redisSMST) (w : Manager) : Manager :=
  mkManager (sw_store w) (sw_trees w) (<[g := t]> (sw_objs w)) (sw_evictions w) (sw_deleted w) (sw_prunedAt w) (sw_gen w) (sw_leafBytes w) (sw_lost w).
Definition upd_evictions (x : gmap string nat) (w : Manager) : Manager :=
  mkManager (sw_store w) (sw_trees w) (sw_objs w) x (sw_deleted w) (sw_prunedAt w) (sw_gen w) (sw_leafBytes w) (sw_lost w).
Definition upd_deleted (x : gmap string Z) (at_ : Z) (w : Manager) : Manager :=
  mkManager (sw_store w) (sw_trees w) (sw_objs w) (sw_evictions w) x at_ (sw_gen w) (sw_leafBytes w) (sw_lost w).
Definition upd_gen (x : Z) (w : Manager) : Manager :=
  mkManager (sw_store w) (sw_trees w) (sw_objs w) (sw_evictions w) (sw_deleted w) (sw_prunedAt w) x (sw_leafBytes w) (sw_lost w).
Definition upd_leafBytes (x : Z) (w : Manager) : Manager :=
  mkManager (sw_store w) (sw_trees w) (sw_objs w) (sw_evictions w) (sw_deleted w) (sw_prunedAt w) (sw_gen w) x (sw_lost w).
Definition lose (sid : string) (w : Manager) : Manager :=
  mkManager (sw_store w) (sw_trees w) (sw_objs w) (sw_evictions w) (sw_deleted w) (sw_prunedAt w) (sw_gen w) (sw_leafBytes w) ({[sid]} ∪ sw_lost w).

(** [newSMSTManager] over the store; a process that ends leaves the store only. *)
Definition newSMSTManager (store : gmap string SessionRecs) (lost : gset string) : Manager := mkManager store ∅ ∅ ∅ ∅ 0 0 0 lost.

Definition resident (w : Manager) (sid : string) : option Z := sw_trees w !! sid.
Definition object (w : Manager) (g : Z) : option redisSMST := sw_objs w !! g.

(** A round trip on one session's records. *)
Definition at_store {A} (sid : string) (act : SessionRecs -> SessionRecs * A) : Op (result A WireErr) :=
  trip (fun w => let '(r, a) := act (recs w sid) in (upd_store sid r w, a)).
Definition write (sid : string) (act : SessionRecs -> SessionRecs) : Op (result unit WireErr) := at_store sid (fun r => (act r, tt)).
Definition fetch {A} (sid : string) (f : SessionRecs -> A) : Op (result A WireErr) := read (fun w => f (recs w sid)).

(** ** Eviction *)

Definition evictCorruptSession (sid : string) : Op unit :=
  sealing ← gets (fun w => match resident w sid ≫= object w with
                           | Some t => t_sealing t || bool_decide (t_claimedRoot t <> None)
                           | None => false
                           end);
  modify (fun w => upd_trees (delete sid (sw_trees w)) w);;
  (if (sealing : bool) then modify (lose sid) else mret tt);;
  consecutive ← gets (fun w => S (default O (sw_evictions w !! sid)));
  modify (fun w => upd_evictions (<[sid := consecutive]> (sw_evictions w)) w);;
  if Nat.ltb consecutive persistentCorruptionThreshold then mret tt
  else
    modify (lose sid);;
    write sid (fun _ => no_recs);;
    modify (fun w => upd_evictions (delete sid (sw_evictions w)) w).

(** The deferred eviction of every method that walks a tree. *)
Definition guarded {A} (sid : string) (m : Op (result A SmErr)) : Op (result A SmErr) :=
  r ← m;
  match r with
  | Err e => (if isSMSTCorruption e then evictCorruptSession sid else mret tt);; mret (Err e)
  | Ok a => mret (Ok a)
  end.

(** ** Making a tree *)

Definition addTree (sid : string) (t : redisSMST) : Op Z :=
  g ← gets (fun w => sw_gen w + 1);
  modify (fun w => upd_trees (<[sid := g]> (sw_trees w)) (upd_obj g t (upd_gen g w)));;
  mret g.

(** "%d:%d" of the stats record, and what Sscanf reads of it: the count, and the
    sum when the rest is one too. *)
Definition statsValue (count sum : Z) : string := format_int count +:+ ":" +:+ format_int sum.
Fixpoint scanStats (acc s : string) : option (Z * option Z) :=
  match s with
  | EmptyString => None
  | String ":" rest => n ← ParseUint acc; Some (n, ParseUint rest)
  | String c rest => scanStats (acc +:+ String c "") rest
  end.
(** Scanned into the tree's fields, and into variables used if all went well. *)
Definition statsInto (s : string) : Z * Z := match scanStats "" s with Some (n, m) => (n, default 0 m) | None => (0, 0) end.
Definition statsParsed (s : string) : Z * Z := match scanStats "" s with Some (n, Some m) => (n, m) | _ => (0, 0) end.

(** A tree imported at its claimed root, with its stats when they can be read. *)
Definition claimedTree (scan : string -> Z * Z) (sid root : string) (trie : Trie) : Op redisSMST :=
  stats ← fetch sid rc_stats;
  mret (match stats with
        | Ok (Some v) => let '(n, m) := scan v in upd_claimed root n m (newTree sid trie None "")
        | _ => newTree sid trie (Some root) ""
        end).

Definition resumeLive (sid : string) : Op (option redisSMST) :=
  live ← fetch sid rc_live;
  match live with
  | Err _ => modify (lose sid);; mret None
  | Ok o =>
      match o with
      | None => mret None
      | Some root =>
          if String.eqb root "" then mret None
          else if negb (isValidSMSTRoot root) then write sid (set_live None);; mret None
          else match runSMSTSafely (smt_import root) with
               | Err _ => write sid (set_live None);; mret None
               | Ok trie => mret (Some (newTree sid trie None root))
               end
      end
  end.

(** [resumeTreeFromRedisLocked]: the claimed root, then the live root. A root
    that could not be read counts as none. *)
Definition resumeTreeFromRedis (sid : string) : Op (option redisSMST) :=
  claimed ← fetch sid rc_claimed;
  match claimed with
  | Err _ => modify (lose sid);; resumeLive sid
  | Ok o =>
      match o with
      | None => resumeLive sid
      | Some root =>
          if String.eqb root "" then resumeLive sid
          else if negb (isValidSMSTRoot root) then write sid (set_claimed None);; resumeLive sid
          else match runSMSTSafely (smt_import root) with
               | Err _ => write sid (set_claimed None);; mret None
               | Ok trie => t ← claimedTree statsInto sid root trie; mret (Some t)
               end
      end
  end.

Definition GetOrCreateTree (sid : string) : Op Z :=
  found ← gets (fun w => resident w sid);
  match found with
  | Some g => mret g
  | None =>
      resumed ← resumeTreeFromRedis sid;
      match resumed with
      | Some t => addTree sid t
      | None => addTree sid (newTree sid smt_new None "")
      end
  end.

(** ** Updates *)

Definition updateTree (g : Z) (key value : string) (weight : Z) : Op (result unit SmErr) :=
  found ← gets (fun w => object w g);
  match found with
  | None => mret (Err plain)
  | Some t =>
      if t_sealing t then mret (Err (is_a ErrSessionSealing))
      else match t_claimedRoot t with
           | Some _ => mret (Err (is_a ErrSessionClaimed))
           | None =>
               nodes ← gets (fun w => rc_nodes (recs w (t_sessionID t)));
               out ← ask;
               let '(trie, r) := smt_update (ns_Get (t_store t) nodes (oc_reads out)) (t_trie t) key value weight in
               modify (upd_obj g (upd_unloaded false (upd_trie trie t)));;
               match runSMSTSafely r with
               | Err e => mret (Err (wrapErr ErrSMSTUpdateFailed e))
               | Ok _ => modify (fun w => upd_leafBytes (sw_leafBytes w + Z.of_nat (String.length value)) w);; mret (Ok tt)
               end
           end
  end.

Definition UpdateTreeGen (sid key value : string) (weight : Z) : Op (Z * result unit SmErr) :=
  g ← GetOrCreateTree sid;
  r ← guarded sid (updateTree g key value weight);
  mret (g, r).

(** ** Commits and checkpoints *)

(** [writePendingNodesLocked] *)
Definition writePendingNodes (sid : string) (ns : nodeStore) : Op (nodeStore * result unit WireErr) :=
  if bool_decide (ns_pipeline ns = ∅) then mret (ns, Ok tt)
  else
    out ← ask;
    match oc_err out with
    | None =>
        modify (fun w => upd_store sid (set_nodes (putNodes (fun _ => true) (ns_pipeline ns) (rc_nodes (recs w sid))) (recs w sid)) w);;
        mret (mkNodeStore (ns_enabled ns) ∅ (ns_orphans ns), Ok tt)
    | Some e =>
        modify (fun w => upd_store sid (set_nodes (putNodes (oc_landed out) (ns_pipeline ns) (rc_nodes (recs w sid))) (recs w sid)) w);;
        mret (ns, Err e)
    end.

(** [commitLocked] *)
Definition commitTree (g : Z) (t : redisSMST) : Op (result redisSMST SmErr) :=
  let sid := t_sessionID t in
  let '(trie, ops, r) := smt_commit (t_trie t) in
  let t := upd_trie trie (upd_nodes (ns_run ops (BeginPipeline (t_store t))) t) in
  match runSMSTSafely r with
  | Err e => modify (upd_obj g t);; mret (Err (wrapErr ErrSMSTCommitFailed e))
  | Ok _ =>
      let t := if t_compactionDisabled t then t
               else let '(trie, r) := smt_compact (t_trie t) in
                    upd_compaction (negb (is_ok (runSMSTSafely r))) (upd_trie trie t) in
      flushed ← writePendingNodes sid (mkNodeStore false (ns_pipeline (t_store t)) (ns_orphans (t_store t)));
      let t := upd_nodes (fst flushed) t in
      modify (upd_obj g t);;
      match snd flushed with
      | Err e => mret (Err (wrapErr ErrSMSTCommitFailed (wire e)))
      | Ok _ => modify (fun w => upd_evictions (delete sid (sw_evictions w)) w);; mret (Ok t)
      end
  end.

Definition validRoot (r : LibResult string) : result string SmErr :=
  match runSMSTSafely r with
  | Err e => Err e
  | Ok root => if isValidSMSTRoot root then Ok root else Err plain
  end.

(** [FlushOrphansWithLiveRoot] *)
Definition flushOrphansWithLiveRoot (g : Z) (t : redisSMST) (root : string) : Op (result unit SmErr) :=
  let sid := t_sessionID t in
  pending ← writePendingNodes sid (t_store t);
  let t := upd_nodes (fst pending) t in
  modify (upd_obj g t);;
  match snd pending with
  | Err e => mret (Err (wire e))
  | Ok _ =>
      done ← write sid (checkpointNodes (ns_orphans (t_store t)) root);
      match done with
      | Err e => mret (Err (wire e))
      | Ok _ => modify (upd_obj g (upd_liveRoot root (upd_nodes (mkNodeStore (ns_enabled (t_store t)) (ns_pipeline (t_store t)) ∅) t)));; mret (Ok tt)
      end
  end.

(** [checkpointLocked] *)
Definition checkpointTree (g : Z) (t : redisSMST) : Op (result unit SmErr) :=
  committed ← commitTree g t;
  match committed with
  | Err e => mret (Err e)
  | Ok t =>
      match validRoot (smt_root (t_trie t)) with
      | Err e => mret (Err e)
      | Ok root => flushOrphansWithLiveRoot g t root
      end
  end.

(** An operation on the session's resident tree. *)
Definition with_resident {A} (sid : string) (none : A) (f : Z -> redisSMST -> Op A) : Op A :=
  found ← gets (fun w => g ← resident w sid; t ← object w g; mret (g, t));
  match found with
  | None => mret none
  | Some (g, t) => f g t
  end.

(** [CommitTree]: whether a tree is resident, and the error. *)
Definition CommitTree (sid : string) : Op (bool * result unit SmErr) :=
  r ← guarded sid (with_resident sid (Ok None) (fun g t => r ← commitTree g t; mret (match r with Ok _ => Ok (Some tt) | Err e => Err e end)));
  mret (match r with Ok None => (false, Ok tt) | Ok (Some _) => (true, Ok tt) | Err e => (true, Err e) end).

(** [CheckpointLiveRoot]: the generation when a tree is resident. *)
Definition CheckpointLiveRoot (sid : string) : Op (result (option Z) SmErr) :=
  guarded sid (with_resident sid (Ok None) (fun g t => r ← checkpointTree g t; mret (match r with Ok _ => Ok (Some g) | Err e => Err e end))).

(** [importLazyLocked]: the object is replaced only when the import succeeds. *)
Definition importLazy (g : Z) (t : redisSMST) : Op (result string SmErr) :=
  match validRoot (smt_root (t_trie t)) with
  | Err e => mret (Err e)
  | Ok root =>
      match runSMSTSafely (smt_import root) with
      | Err e => mret (Err e)
      | Ok trie => modify (upd_obj g (upd_unloaded true (upd_trie trie t)));; mret (Ok root)
      end
  end.

Definition UnloadTree (sid : string) : Op (result (option string) SmErr) :=
  guarded sid (with_resident sid (Ok None) (fun g t =>
    if t_unloaded t || (t_sealing t && bool_decide (t_claimedRoot t = None)) then mret (Ok None)
    else
      written ← match t_claimedRoot t with
                | None => checkpointTree g t
                | Some _ => r ← commitTree g t; mret (match r with Ok _ => Ok tt | Err e => Err e end)
                end;
      match written with
      | Err e => mret (Err e)
      | Ok _ =>
          now_ ← gets (fun w => default t (object w g));
          r ← importLazy g now_;
          mret (match r with Ok root => Ok (Some root) | Err e => Err e end)
      end)).

(** [writeExitLiveRootLocked]. A tree found corrupt here stays, nothing evicts it. *)
Definition writeExitLiveRoot (g : Z) (t : redisSMST) (root : string) : Op (result bool SmErr) :=
  committed ← commitTree g t;
  match committed with
  | Err e => (if isSMSTCorruption e then modify (lose (t_sessionID t)) else mret tt);; mret (Err e)
  | Ok t =>
      set ← at_store (t_sessionID t) (setLiveRootIfUnchanged root (t_liveRoot t));
      match set with
      | Err e => mret (Err (wire e))
      | Ok set => (if (set : bool) then modify (upd_obj g (upd_liveRoot root t)) else mret tt);; mret (Ok set)
      end
  end.

Definition CheckpointLiveRootOnExit (sid : string) : Op (result bool SmErr) :=
  with_resident sid (Ok false) (fun g t =>
    match validRoot (smt_root (t_trie t)) with
    | Err e => mret (Err e)
    | Ok root => writeExitLiveRoot g t root
    end).

(** [checkpointTreeOnExit], for every tree of [CheckpointAllOnExit]. *)
Definition checkpointTreeOnExit (sid : string) : Op unit :=
  with_resident sid tt (fun g t =>
    if t_sealing t || bool_decide (t_claimedRoot t <> None) then mret tt
    else match validRoot (smt_root (t_trie t)) with
         | Err _ => mret tt
         | Ok root => if String.eqb root (t_liveRoot t) then mret tt else writeExitLiveRoot g t root;; mret tt
         end).
Definition CheckpointAllOnExit : Op unit := sids ← gets (fun w => map fst (map_to_list (sw_trees w))); mapM_ checkpointTreeOnExit sids.

(** ** Sealing *)

(** Root, count and sum of a tree. *)
Definition sealRead (t : redisSMST) : result (string * Z * Z) SmErr :=
  match runSMSTSafely (smt_root (t_trie t)) with
  | Err e => Err e
  | Ok root => match runSMSTSafely (smt_count (t_trie t)) with
               | Err e => Err e
               | Ok n => match runSMSTSafely (smt_sum (t_trie t)) with Err e => Err e | Ok m => Ok (root, n, m) end
               end
  end.

(** [FlushTree] up to its wait: the tree it holds, and the root it read when it
    is the one to seal. *)
Definition FlushTree_seal (sid : string) : Op (result (Z * option string) SmErr) :=
  guarded sid (
    found ← gets (fun w => resident w sid);
    g ← match found with
        | Some g => mret (Some g)
        | None => resumed ← resumeTreeFromRedis sid;
                  match resumed with Some t => g ← addTree sid t; mret (Some g) | None => mret None end
        end;
    match g with
    | None => mret (Err plain)
    | Some g =>
        t ← gets (fun w => object w g);
        match t with
        | None => mret (Err plain)
        | Some t =>
            match t_claimedRoot t with
            | Some _ => mret (Ok (g, None))
            | None =>
                modify (upd_obj g (upd_sealing true t));;
                mret (match sealRead t with Err e => Err e | Ok (root, _, _) => Ok (g, Some root) end)
            end
        end
    end).

(** The claimed root, stored once its nodes are. A failure leaves it in memory. *)
Definition storeClaim (g : Z) (t : redisSMST) (root : string) : Op unit :=
  nodes ← commitTree g t;
  match nodes with
  | Err e => if isSMSTCorruption e then modify (lose (t_sessionID t)) else mret tt
  | Ok t =>
      write (t_sessionID t) (set_claimed (Some root));;
      if t_unloaded t then mret tt else importLazy g t;; mret tt
  end.

(** The rest: the root is the one read now. *)
Definition FlushTree_finish (sid : string) (g : Z) : Op (result string SmErr) :=
  guarded sid (
    t ← gets (fun w => object w g);
    match t with
    | None => mret (Err plain)
    | Some t =>
        let sealed := match t_claimedRoot t with
                      | Some _ => Ok t
                      | None => match sealRead t with Err e => Err e | Ok (root, n, m) => Ok (upd_claimed root n m t) end
                      end in
        match sealed with
        | Err e => mret (Err e)
        | Ok t =>
            modify (upd_obj g t);;
            let root := default "" (t_claimedRoot t) in
            if negb (isValidSMSTRoot root) then mret (Err plain)
            else
              storeClaim g t root;;
              write (t_sessionID t) (set_stats (Some (statsValue (t_claimedCount t) (t_claimedSum t))));;
              mret (Ok root)
        end
    end).

(** ** Claimed trees *)

(** [loadTreeFromRedis]: absent, or not to be read; the refresh of the records'
    expiry is left out. *)
Inductive LoadErr := LoadAbsent | LoadUnreadable (e : SmErr).

Definition loadTreeFromRedis (sid : string) : Op (result Z LoadErr) :=
  claimed ← fetch sid rc_claimed;
  match claimed with
  | Err e => mret (Err (LoadUnreadable (wire e)))
  | Ok o =>
      match o with
      | None => mret (Err LoadAbsent)
      | Some root =>
          if String.eqb root "" then mret (Err LoadAbsent)
          else if negb (isValidSMSTRoot root) then write sid (set_claimed None);; mret (Err LoadAbsent)
          else match runSMSTSafely (smt_import root) with
               | Err e => write sid (set_claimed None);; mret (Err (LoadUnreadable e))
               | Ok trie =>
                   t ← claimedTree statsParsed sid root trie;
                   found ← gets (fun w => resident w sid);
                   match found with
                   | Some g => mret (Ok g)
                   | None => g ← addTree sid t; mret (Ok g)
                   end
               end
      end
  end.

Definition GetTreeRoot (sid : string) : Op (result string LoadErr) :=
  found ← gets (fun w => resident w sid);
  loaded ← match found with Some g => mret (Ok g) | None => loadTreeFromRedis sid end;
  match loaded with
  | Err e => mret (Err e)
  | Ok g =>
      t ← gets (fun w => object w g);
      match t with
      | None => mret (Err LoadAbsent)
      | Some t =>
          match t_claimedRoot t with
          | Some root => mret (Ok root)
          | None => match runSMSTSafely (smt_root (t_trie t)) with
                    | Ok root => mret (Ok root)
                    | Err e => evictCorruptSession sid;; mret (Err (LoadUnreadable e))
                    end
          end
      end
  end.

(** ** The end of a session *)

(** [markDeletedLocked], in seconds. *)
Definition markDeleted (now : Z) (sid : string) (w : Manager) : Manager :=
  let deleted := <[sid := now]> (sw_deleted w) in
  if now - sw_prunedAt w <? 60 then upd_deleted deleted (sw_prunedAt w) w
  else upd_deleted (filter (fun kv => now - kv.2 <= deletedSessionMemory) deleted) now w.

Definition DeleteTree (now : Z) (sid : string) : Op unit :=
  modify (fun w => lose sid (upd_evictions (delete sid (sw_evictions w)) (markDeleted now sid (upd_trees (delete sid (sw_trees w)) w))));;
  write sid (fun _ => no_recs);; mret tt.

Definition SessionDeleted (now : Z) (sid : string) (w : Manager) : bool :=
  match sw_deleted w !! sid with Some at_ => now - at_ <=? deletedSessionMemory | None => false end.

Definition SessionConfirmed (sid : string) (w : Manager) : bool :=
  match resident w sid ≫= object w with Some t => t_sessionConfirmed t | None => false end.

Definition ConfirmSession (sid : string) : Op unit :=
  with_resident sid tt (fun g t => modify (upd_obj g (upd_confirmed true t))).

Definition ResetLeafBytesSinceFlush : Op unit := modify (upd_leafBytes 0).
End Manager.
