(* ===== verification/RelayBatch.v ===== *)
(** * From the stream into the tree (miner/relay_batch.go, supplier_worker.go)

    A delivered relay is checked, put into its session's tree and handed to the
    supplier's batch; a flush writes the tree's nodes and its root, and only then
    marks, counts and acknowledges the relays ([relayBatch.flushSession]). With
    the batch: handleRelay of the worker and handleStreamMessage,
    releaseRelayBatchOnExit of miner/supplier_manager.go.

    What the commit does to the marks and counters is RelayCommit's; here it is
    the acknowledgement of the batch's entries, answered, refused or with its
    outcome lost. [iw_log] is not in the code: what became of each entry, a
    counted one apart from one counted alone, before a root that covers it was
    stored. *)

From S2P Require Import Prelude Program FaultMonad SessionState StoreSpec RelayCommit SmstStore SmstManager.
From Stdlib Require Import Ascii String.

Local Open Scope string_scope.
Local Open Scope Z_scope.
Local Open Scope list_scope.

(** ** Data *)

Record relaySession := mkRelaySession {
  rs_sessionID : string;
  rs_supplier : string;
  rs_serviceID : string;
  rs_application : string;
  rs_startHeight : Z;
  rs_endHeight : Z
}.
Record sessionBatch := mkSessionBatch { sb_session : relaySession; sb_relays : list batchedRelay }.

(** A delivered message: what OriginalRelayBytes makes of its bytes. *)
Record StreamMessage := mkMsg {
  sg_id : string;
  sg_isReclaim : bool;
  sg_session : relaySession;
  sg_hash : string;
  sg_bytes : option string;
  sg_computeUnits : Z
}.

Definition relayBatchCap : nat := 1000.

Inductive flushOutcome := flushDone | flushRetry | flushRelease | flushPerRelay.

(** Why an entry was acknowledged. [Counted]: counted, with a stored root that
    covers it. [CountedAlone]: counted once the nodes of the tree it went into, of
    that generation, were stored, with no root that covers them yet. *)
Inductive AckWhy :=
| Counted (sessionID hash : string)
| CountedAlone (sessionID : string) (gen : Z) (hash : string)
| Rejected
| LostToPanic
| NoKey
| Discarded.
(** The log of what was settled, and of the process ending. *)
Inductive Settled := SAck (id : string) (why : AckWhy) | SRelease (id : string) | SRestart.

(** What the worker answers for a relay. *)
Inductive HandleOut := HAck (why : AckWhy) | HBatched | HBack.

(** What handleRelay is told by others: the supplier manager, the coordinator
    and the deduplicator ([None] when it is not asked or fails). *)
Record RelayEnv := mkRelayEnv {
  re_supplierFound : bool;
  re_hasBatch : bool;
  re_now : Z;
  re_claimWindowReached : bool;
  re_claimWindowClosed : bool;
  re_ensured : bool;
  re_duplicate : option bool;
  re_cancelled : bool
}.

Section Ingest.
Context {Trie : Type} `{LIB : !SMT Trie} `{NC : !NodeCodec}.
Variable GetRelayHashFromBytes : string -> string.
Abbreviation Manager := (Manager (Trie := Trie)).

Record Ingest := mkIngest {
  iw_mgr : Manager;
  iw_sessions : list sessionBatch;
  iw_acks : list string;
  iw_waiting : list (string * Z);
  iw_log : list Settled
}.
Abbreviation Op := (M Ingest).

Definition upd_mgr (x : Manager) (w : Ingest) : Ingest := mkIngest x (iw_sessions w) (iw_acks w) (iw_waiting w) (iw_log w).
Definition upd_sessions (x : list sessionBatch) (w : Ingest) : Ingest := mkIngest (iw_mgr w) x (iw_acks w) (iw_waiting w) (iw_log w).
Definition upd_acks (x : list string) (w : Ingest) : Ingest := mkIngest (iw_mgr w) (iw_sessions w) x (iw_waiting w) (iw_log w).
Definition upd_waiting (x : list (string * Z)) (w : Ingest) : Ingest := mkIngest (iw_mgr w) (iw_sessions w) (iw_acks w) x (iw_log w).
Definition log (l : list Settled) (w : Ingest) : Ingest := mkIngest (iw_mgr w) (iw_sessions w) (iw_acks w) (iw_waiting w) (l ++ iw_log w).

Definition smst {A} (m : M Manager A) : Op A := on iw_mgr upd_mgr m.

(** ** The consumer *)

Definition AckMessage (id : string) (why : AckWhy) : Op (result unit WireErr) := trip (fun w => (log [SAck id why] w, tt)).
Definition ReleaseMessage (id : string) : Op (result unit WireErr) := trip (fun w => (log [SRelease id] w, tt)).

Definition releaseRelays (relays : list batchedRelay) : Op unit := mapM_ (fun r => ReleaseMessage (br_id r);; mret tt) relays.

(** ** Flushing *)

Definition takeOtherGenerations (gen : Z) (relays : list batchedRelay) : list batchedRelay * list batchedRelay :=
  (List.filter (fun r => br_gen r =? gen) relays, List.filter (fun r => negb (br_gen r =? gen)) relays).

(** [CommitSession]: the entries it acknowledges. *)
Definition CommitSession (sid : string) (relays : list batchedRelay) : Op (result unit CommitErr) :=
  out ← ask;
  let acks := map (fun r => SAck (br_id r) (Counted sid (br_hash r))) relays in
  match oc_err out with
  | None => modify (log acks);; mret (Ok tt)
  | Some _ =>
      if oc_refused out then mret (Err CRefused)
      else (if oc_applied out then modify (log acks) else mret tt);; mret (Err CUnknown)
  end.

Definition panics : Op bool := out ← ask; mret (oc_panic out).

(** [flushSession]: the outcome, the relays still held, and whether the root
    that covers them was stored. A panic ends in the per-relay fallback with what
    the batch holds then. *)
Definition flushSession (sb : sessionBatch) : Op (flushOutcome * list batchedRelay * bool) :=
  let sid := rs_sessionID (sb_session sb) in
  early ← panics;
  if (early : bool) then mret (flushPerRelay, sb_relays sb, false)
  else
    checkpointed ← smst (CheckpointLiveRoot sid);
    match checkpointed with
    | Err _ => mret (flushRetry, sb_relays sb, false)
    | Ok None => mret (flushRelease, sb_relays sb, false)
    | Ok (Some gen) =>
        let '(kept, stale) := takeOtherGenerations gen (sb_relays sb) in
        releaseRelays stale;;
        if bool_decide (stale <> []) && bool_decide (kept = []) then mret (flushDone, kept, true)
        else
          late ← panics;
          if (late : bool) then mret (flushPerRelay, kept, true)
          else
            committed ← CommitSession sid kept;
            mret (match committed with
                  | Ok _ => flushDone
                  | Err CRefused => flushPerRelay
                  | Err CUnknown => flushRetry
                  end, kept, true)
    end.

(** [finishOneByOne]: each relay is counted and acknowledged on its own once the
    tree's nodes are stored. A panic loses the relay that caused it. *)
Definition finishOneByOne (covered : bool) (sid : string) (relays : list batchedRelay) : Op unit :=
  committed ← smst (CommitTree sid);
  match committed with
  | (true, Ok _) =>
      mapM_ (fun r =>
        lost ← panics;
        AckMessage (br_id r) (if (lost : bool) then LostToPanic else if covered then Counted sid (br_hash r) else CountedAlone sid (br_gen r) (br_hash r));; mret tt) relays
  | _ => releaseRelays relays
  end.

Definition find_batch (sid : string) (l : list sessionBatch) : option sessionBatch := List.find (fun sb => String.eqb (rs_sessionID (sb_session sb)) sid) l.
Definition drop_batch (sid : string) (l : list sessionBatch) : list sessionBatch := List.filter (fun sb => negb (String.eqb (rs_sessionID (sb_session sb)) sid)) l.
Definition put_relays (sid : string) (relays : list batchedRelay) (l : list sessionBatch) : list sessionBatch :=
  map (fun sb => if String.eqb (rs_sessionID (sb_session sb)) sid then mkSessionBatch (sb_session sb) relays else sb) l.

(** [flushLocked]: whether the session is still held. *)
Definition flushLocked (sb : sessionBatch) : Op bool :=
  let sid := rs_sessionID (sb_session sb) in
  flushed ← flushSession sb;
  let '(outcome, relays, covered) := flushed in
  match outcome with
  | flushRetry => modify (fun w => upd_sessions (put_relays sid relays (iw_sessions w)) w);; mret true
  | flushRelease => releaseRelays relays;; modify (fun w => upd_sessions (drop_batch sid (iw_sessions w)) w);; mret false
  | flushPerRelay => finishOneByOne covered sid relays;; modify (fun w => upd_sessions (drop_batch sid (iw_sessions w)) w);; mret false
  | flushDone => modify (fun w => upd_sessions (drop_batch sid (iw_sessions w)) w);; mret false
  end.

Definition flushSessionID (sid : string) : Op unit :=
  found ← gets (fun w => find_batch sid (iw_sessions w));
  match found with Some sb => flushLocked sb;; mret tt | None => mret tt end.

(** [flushAcksLocked]: whether they are still waiting. *)
Definition flushAcks : Op bool :=
  acks ← gets iw_acks;
  match acks with
  | [] => mret false
  | _ =>
      done ← trip (fun w => (log (map (fun id => SAck id Rejected) acks) w, tt));
      match done with
      | Err _ => mret true
      | Ok _ => modify (upd_acks []);; mret false
      end
  end.

(** [Add] *)
Definition Add (s : relaySession) (r : batchedRelay) : Op bool :=
  let sid := rs_sessionID s in
  found ← gets (fun w => find_batch sid (iw_sessions w));
  match found with
  | Some sb =>
      if Nat.leb relayBatchCap (List.length (sb_relays sb)) then
        retained ← flushLocked sb;
        if (retained : bool) then mret false
        else modify (fun w => upd_sessions (mkSessionBatch s [r] :: iw_sessions w) w);; mret true
      else modify (fun w => upd_sessions (put_relays sid (sb_relays sb ++ [r]) (iw_sessions w)) w);; mret true
  | None => modify (fun w => upd_sessions (mkSessionBatch s [r] :: iw_sessions w) w);; mret true
  end.

(** [AddAck] *)
Definition AddAck (id : string) : Op bool :=
  n ← gets (fun w => List.length (iw_acks w));
  full ← (if Nat.leb relayBatchCap n then flushAcks else mret false);
  if (full : bool) then mret false else modify (fun w => upd_acks (iw_acks w ++ [id]) w);; mret true.

(** The sessions held, in the order the map is ranged over. *)
Definition held_sessions (picks : list nat) (w : Ingest) : list string := shuffle picks (map (fun sb => rs_sessionID (sb_session sb)) (iw_sessions w)).

Definition FlushAll (picks : list nat) : Op unit :=
  smst ResetLeafBytesSinceFlush;;
  sids ← gets (held_sessions picks);
  mapM_ flushSessionID sids;;
  flushAcks;; mret tt.

Definition FlushSessions (sids : list string) : Op unit := mapM_ flushSessionID sids.

Definition ReleaseAll (picks : list nat) : Op unit :=
  flushAcks;;
  sids ← gets (held_sessions picks);
  mapM_ (fun sid =>
    smst (CheckpointLiveRootOnExit sid);;
    found ← gets (fun w => find_batch sid (iw_sessions w));
    (match found with Some sb => releaseRelays (sb_relays sb) | None => mret tt end);;
    modify (fun w => upd_sessions (drop_batch sid (iw_sessions w)) w)) sids.

Definition AckAllAsLost (picks : list nat) : Op unit :=
  flushAcks;;
  sids ← gets (held_sessions picks);
  mapM_ (fun sid =>
    found ← gets (fun w => find_batch sid (iw_sessions w));
    (match found with Some sb => mapM_ (fun r => AckMessage (br_id r) NoKey;; mret tt) (sb_relays sb) | None => mret tt end);;
    modify (fun w => upd_sessions (drop_batch sid (iw_sessions w)) w)) sids.

(** [releaseRelayBatchOnExit] *)
Definition releaseRelayBatchOnExit (keyRemoved : bool) (picks : list nat) : Op unit := if keyRemoved then AckAllAsLost picks else ReleaseAll picks.

(** ** One relay *)

Definition ackWithBatch (env : RelayEnv) (id : string) : Op HandleOut :=
  taken ← (if re_hasBatch env then AddAck id else mret false);
  mret (if (taken : bool) then HBatched else HAck Rejected).

(** [handleRelay] *)
Definition handleRelay (env : RelayEnv) (msg : StreamMessage) : Op HandleOut :=
  let s := sg_session msg in
  let sid := rs_sessionID s in
  if negb (re_supplierFound env) then mret (HAck Rejected)
  else if re_claimWindowReached env then ackWithBatch env (sg_id msg)
  else
    deleted ← gets (fun w => SessionDeleted (re_now env) sid (iw_mgr w));
    if (deleted : bool) then ackWithBatch env (sg_id msg)
    else if re_claimWindowClosed env then ackWithBatch env (sg_id msg)
    else match sg_bytes msg with
         | None => ackWithBatch env (sg_id msg)
         | Some relayBytes =>
             let hash := if String.eqb (sg_hash msg) "" then GetRelayHashFromBytes relayBytes else sg_hash msg in
             confirmed ← gets (fun w => SessionConfirmed sid (iw_mgr w));
             let confirmed := confirmed || re_ensured env in
             if sg_isReclaim msg && negb (String.eqb hash "") && bool_decide (re_duplicate env = Some true) then ackWithBatch env (sg_id msg)
             else
               updated ← smst (UpdateTreeGen sid hash relayBytes (sg_computeUnits msg));
               match snd updated with
               | Err e =>
                   if IsShutdownCancelError e || re_cancelled env then mret (HAck Discarded)
                   else if IsRetryableError e then mret HBack
                   else ackWithBatch env (sg_id msg)
               | Ok _ =>
                   (if confirmed then smst (ConfirmSession sid) else mret tt);;
                   batched ← (if re_hasBatch env && negb (String.eqb hash "")
                              then Add s (mkRelay (sg_id msg) hash (sg_computeUnits msg) (fst updated)) else mret false);
                   if (batched : bool) then mret HBatched
                   else
                     stored ← smst (CommitTree sid);
                     match stored with
                     | (_, Err e) => mret (if IsShutdownCancelError e || re_cancelled env then HAck Discarded else HBack)
                     | (false, Ok _) => mret HBack
                     | (true, Ok _) => mret (HAck (CountedAlone sid (fst updated) hash))
                     end
               end
         end.

(** [handleStreamMessage]; the panic it recovers comes before or after the
    relay was handled. *)
Definition handleStreamMessage (env : RelayEnv) (msg : StreamMessage) : Op unit :=
  before ← panics;
  handled ← (if (before : bool) then mret HBack else handleRelay env msg);
  after ← panics;
  if before || after then AckMessage (sg_id msg) LostToPanic;; mret tt
  else match handled with
       | HAck why => AckMessage (sg_id msg) why;; mret tt
       | HBatched => mret tt
       | HBack => ReleaseMessage (sg_id msg);; mret tt
       end.

(** ** Runs *)

(** What happens to a supplier's trees: deliveries and flushes of its consume
    loop, the claim's sealing, the end of a session, and the process ending. *)
Inductive Event :=
| EvRelay (env : RelayEnv) (msg : StreamMessage)
| EvFlushAll (picks : list nat)
| EvFlushSessions (sids : list string)
| EvUnload (sid : string)
| EvSeal (sid : string)
| EvFinish (sid : string) (g : Z)
| EvTreeRoot (sid : string)
| EvDelete (now : Z) (sid : string)
| EvExit (keyRemoved : bool) (picks : list nat)
| EvCheckpointAll
| EvRestart.

Definition exec (e : Event) : Op unit :=
  match e with
  | EvRelay env msg => handleStreamMessage env msg
  | EvFlushAll picks => FlushAll picks
  | EvFlushSessions sids => FlushSessions sids
  | EvUnload sid => smst (UnloadTree sid);; mret tt
  | EvSeal sid =>
      sealed ← smst (FlushTree_seal sid);
      match sealed with Ok (g, _) => modify (fun w => upd_waiting ((sid, g) :: iw_waiting w) w) | Err _ => mret tt end
  | EvFinish sid g =>
      waiting ← gets (fun w => bool_decide ((sid, g) ∈ iw_waiting w));
      if (waiting : bool) then smst (FlushTree_finish sid g);; mret tt else mret tt
  | EvTreeRoot sid => smst (GetTreeRoot sid);; mret tt
  | EvDelete now sid => smst (DeleteTree now sid)
  | EvExit keyRemoved picks => releaseRelayBatchOnExit keyRemoved picks
  | EvCheckpointAll => smst CheckpointAllOnExit
  | EvRestart => modify (fun w => mkIngest (newSMSTManager (sw_store (iw_mgr w)) (sw_lost (iw_mgr w))) [] [] [] (SRestart :: iw_log w))
  end.

Fixpoint run (evs : list (Event * Oracle)) (w : Ingest) : Ingest :=
  match evs with
  | [] => w
  | (e, o) :: evs => match exec e o w with (_, w, _) => run evs w end
  end.

Definition start : Ingest := mkIngest (newSMSTManager ∅ ∅) [] [] [] [].
End Ingest.
