(* ===== verification/SmstLaws.v ===== *)
(** * What the manager relies on of the tree library, and what its stores keep

    [SMTLaws] states what miner/smst_manager.go takes of the smt library: a tree
    holds leaves over the nodes it can name; an update that fails leaves the
    leaves as they were; a commit's writes and deletes leave a whole tree under
    the root, and one that fails has deleted nothing; nodes are addressed by
    their content. Then what buffering, a
    failed write and a checkpoint do to the nodes. *)

From S2P Require Import Prelude FaultMonad SmstStore SmstManager.
From Stdlib Require Import Ascii String.

Local Open Scope string_scope.
Local Open Scope Z_scope.

(** The leaves of a tree: the relay's bytes and its weight by its hash. *)
Abbreviation leaves := (gmap string (string * Z)).

(** [smt_holds t N m]: [t] holds [m], whatever of it is not in memory is in [N].
    [smt_tree N r m]: the whole tree of root [r] is in [N], its leaves are [m]. *)
Class SMTLaws (Trie : Type) `{!SMT Trie} := {
  smt_digest : string -> string;
  smt_holds : Trie -> gmap string string -> leaves -> Prop;
  smt_tree : gmap string string -> string -> leaves -> Prop;
  smt_digest_inj : Inj (=) (=) smt_digest;
  holds_mono t N N' m : N ⊆ N' -> smt_holds t N m -> smt_holds t N' m;
  tree_mono r N N' m : N ⊆ N' -> smt_tree N r m -> smt_tree N' r m;
  new_holds N : smt_holds smt_new N ∅;
  import_holds N r m : smt_tree N r m -> exists t, smt_import r = LOk t /\ smt_holds t N m /\ smt_root t = LOk r;
  update_holds get t N m k v w t' res :
    smt_holds t N m -> (forall f x y, N !! f = Some x -> get f = Ok y -> y = x) ->
    smt_update get t k v w = (t', res) ->
    match res with LOk _ => smt_holds t' N (<[k := (v, w)]> m) | LErr _ => smt_holds t' N m | LPanic => True end;
  commit_nodes t t' ops res : smt_commit t = (t', ops, res) -> forall f v, NSet f v ∈ ops -> f = smt_digest v /\ smt_node v;
  commit_holds t N m t' ops res :
    smt_holds t N m -> (forall f v, N !! f = Some v -> f = smt_digest v) -> smt_commit t = (t', ops, res) ->
    match res with
    | LOk _ => smt_holds t' (run_ops ops N) m /\ smt_root t' = smt_root t /\
               (forall r, smt_root t = LOk r -> smt_tree (run_ops ops N) r m)
    | LErr _ => smt_holds t' (run_ops ops N) m /\ smt_root t' = smt_root t /\ forall f, NDel f ∉ ops
    | LPanic => True
    end;
  compact_holds t N m t' res : smt_holds t N m -> smt_compact t = (t', res) -> smt_holds t' N m /\ smt_root t' = smt_root t
}.

Section Stores.
Context {Trie : Type} `{LIB : !SMT Trie} `{LL : !SMTLaws Trie} `{NC : !NodeCodec} `{NL : !NodeCodecLaws}.

(** ** Nodes *)

Definition node_at (f v : string) : Prop := f = smt_digest v /\ smt_node v.
Definition nodes_ok (nodes : gmap string string) : Prop := forall f st, nodes !! f = Some st -> exists v, decompressNode st = Some v /\ node_at f v.
Definition buffer_ok (ns : nodeStore) : Prop := forall f v, ns_pipeline ns !! f = Some v -> node_at f v.

Lemma node_at_same f v v' : node_at f v -> node_at f v' -> v = v'.
Proof. intros [-> _] [H _]. by apply smt_digest_inj in H. Qed.

Lemma decoded_ok nodes f v : nodes_ok nodes -> decoded nodes !! f = Some v -> node_at f v.
Proof.
  intros H. unfold decoded. rewrite lookup_omap. destruct (nodes !! f) as [st|] eqn:E; [|done]. simpl. intros Hd.
  destruct (H f st E) as (v' & Hv & ?). rewrite Hd in Hv. by injection Hv as ->.
Qed.

Lemma logical_addressed ns nodes f v : nodes_ok nodes -> buffer_ok ns -> logical ns nodes !! f = Some v -> f = smt_digest v.
Proof. intros Hn Hb [[H|[_ H]] _]%logical_lookup; [by apply Hb|by apply (decoded_ok nodes)]. Qed.

Lemma logical_decoded ns nodes : ns_pipeline ns = ∅ -> logical ns nodes ⊆ decoded nodes.
Proof. intros Hp. apply map_subseteq_spec. intros f v [[H|[_ H]] _]%logical_lookup; [by rewrite Hp, lookup_empty in H|done]. Qed.

(** What the tree reads is what the store holds for it. *)
Lemma get_sound ns nodes reads f x y : logical ns nodes !! f = Some x -> ns_Get ns nodes reads f = Ok y -> y = x.
Proof.
  intros [[H|[Hn H]] _]%logical_lookup; unfold ns_Get; [rewrite H; by intros [= ->]|]. rewrite Hn.
  destruct (reads f); [done|]. unfold decoded in H. rewrite lookup_omap in H. destruct (nodes !! f) as [st|]; [|done]. simpl in H. rewrite H.
  destruct (String.eqb x ""); [done|]. by intros [= ->].
Qed.

(** *** Writing the buffer *)

Lemma put_decoded landed ns nodes f : nodes_ok nodes -> buffer_ok ns ->
  decoded (putNodes landed (ns_pipeline ns) nodes) !! f = (if landed f then ns_pipeline ns !! f else None) ∪ decoded nodes !! f.
Proof.
  intros Hn Hb. unfold decoded, putNodes. rewrite !lookup_omap, lookup_union, lookup_fmap, map_lookup_filter.
  destruct (ns_pipeline ns !! f) as [v|] eqn:Hv.
  2:{ cbn. destruct (landed f), (nodes !! f) as [st|]; cbn; try done; by destruct (decompressNode st). }
  cbn. destruct (landed f) eqn:Hl.
  - rewrite option_guard_True by done. cbn. destruct (nodes !! f) as [st|]; cbn; rewrite decompress_compress by (by apply (Hb f)); [by destruct (decompressNode st)|done].
  - rewrite option_guard_False by congruence. cbn. destruct (nodes !! f) as [st|]; cbn; [by destruct (decompressNode st)|done].
Qed.

Lemma put_nodes_ok landed ns nodes : nodes_ok nodes -> buffer_ok ns -> nodes_ok (putNodes landed (ns_pipeline ns) nodes).
Proof.
  intros Hn Hb f st. unfold putNodes. rewrite lookup_union_Some_raw, lookup_fmap. intros [H|[_ H]]; [|by apply Hn].
  apply fmap_Some in H as (v & Hv & ->). apply map_lookup_filter_Some in Hv as [Hv _]. exists v.
  pose proof (Hb f v Hv) as Hnode. split; [|done]. apply decompress_compress, Hnode.
Qed.

Lemma put_grows landed ns nodes : nodes_ok nodes -> buffer_ok ns -> decoded nodes ⊆ decoded (putNodes landed (ns_pipeline ns) nodes).
Proof.
  intros Hn Hb. apply map_subseteq_spec. intros f v Hv. rewrite put_decoded by done. rewrite Hv.
  destruct (landed f); [|done]. destruct (ns_pipeline ns !! f) as [v'|] eqn:Hv'; [|done].
  assert (v' = v) as -> by (eapply node_at_same; [by apply Hb|by apply (decoded_ok nodes)]). done.
Qed.

Lemma put_logical landed ns nodes : nodes_ok nodes -> buffer_ok ns -> logical ns (putNodes landed (ns_pipeline ns) nodes) = logical ns nodes.
Proof.
  intros Hn Hb. apply map_eq. intros f. apply option_eq. intros v. rewrite !logical_lookup, put_decoded by done.
  destruct (ns_pipeline ns !! f); [naive_solver|]. destruct (landed f); by destruct (decoded nodes !! f).
Qed.

Lemma put_all_logical enabled ns nodes : nodes_ok nodes -> buffer_ok ns ->
  logical (mkNodeStore enabled ∅ (ns_orphans ns)) (putNodes (fun _ => true) (ns_pipeline ns) nodes) = logical ns nodes.
Proof.
  intros Hn Hb. apply map_eq. intros f. apply option_eq. intros v. rewrite !logical_lookup, put_decoded by done. cbn. rewrite lookup_empty.
  destruct (ns_pipeline ns !! f); simpl; destruct (decoded nodes !! f); naive_solver.
Qed.

(** *** Deleting the orphans *)

Abbreviation without o n := (filter (fun kv : string * string => kv.1 ∉ o) n).

Lemma without_decoded (o : gset string) nodes : decoded (without o nodes) = without o (decoded nodes).
Proof.
  apply map_eq. intros f. apply option_eq. intros v. unfold decoded. rewrite lookup_omap, map_lookup_filter_Some, lookup_omap, map_lookup_filter. cbn.
  destruct (nodes !! f) as [st|]; cbn; [|naive_solver]. case_guard; cbn; naive_solver.
Qed.
Lemma without_ok (o : gset string) nodes : nodes_ok nodes -> nodes_ok (without o nodes).
Proof. intros H f st [Hf _]%map_lookup_filter_Some. by apply H. Qed.

(** After the checkpoint, whether its answer came or not, the same nodes can be
    named. *)
Lemma checkpoint_logical enabled ns nodes o : ns_pipeline ns = ∅ -> o = ns_orphans ns \/ o = ∅ ->
  logical (mkNodeStore enabled ∅ o) (without (ns_orphans ns) nodes) = logical ns nodes.
Proof.
  intros Hp Ho. apply map_eq. intros f. apply option_eq. intros v. rewrite !logical_lookup, without_decoded, map_lookup_filter_Some, Hp, !lookup_empty. cbn.
  destruct Ho as [-> | ->]; set_solver.
Qed.
Lemma checkpoint_decoded ns nodes : ns_pipeline ns = ∅ -> decoded (without (ns_orphans ns) nodes) = logical ns nodes.
Proof.
  intros Hp. apply map_eq. intros f. apply option_eq. intros v. rewrite logical_lookup, without_decoded, map_lookup_filter_Some, Hp, !lookup_empty. cbn. naive_solver.
Qed.

Lemma run_buffer_ok ops ns : (forall f v, NSet f v ∈ ops -> node_at f v) -> buffer_ok ns -> buffer_ok (ns_run ops ns).
Proof.
  revert ns. induction ops as [|op ops IH]; intros ns Hops Hb; [done|]. cbn [ns_run foldl].
  change (foldl _ ?x ops) with (ns_run ops x). apply IH; [intros f v H; apply Hops; by right|].
  destruct op as [f v|f]; intros g x; cbn.
  - destruct (decide (f = g)) as [<-|]; [rewrite lookup_insert_eq; intros [= <-]; apply Hops; left|rewrite lookup_insert_ne by done; apply Hb].
  - destruct (decide (f = g)) as [<-|]; [by rewrite lookup_delete_eq|rewrite lookup_delete_ne by done; apply Hb].
Qed.
(** Writes alone take nothing away. *)
Lemma run_sets_grow ops N : (forall f, NDel f ∉ ops) -> (forall f v, NSet f v ∈ ops -> node_at f v) -> (forall f v, N !! f = Some v -> f = smt_digest v) ->
  N ⊆ run_ops ops N.
Proof.
  revert N. induction ops as [|op ops IH]; intros N Hd Hs HN; [done|]. cbn [run_ops foldl]. change (foldl _ ?x ops) with (run_ops ops x).
  destruct op as [f v|f]; [|exfalso; apply (Hd f); left]. destruct (Hs f v ltac:(left)) as [-> Hn].
  assert (N ⊆ <[smt_digest v := v]> N) as Hsub.
  { apply map_subseteq_spec. intros g x Hx. destruct (decide (smt_digest v = g)) as [<-|]; [|by rewrite lookup_insert_ne].
    rewrite lookup_insert_eq. apply HN, smt_digest_inj in Hx as ->. done. }
  etransitivity; [exact Hsub|]. apply IH.
  - intros g Hg. apply (Hd g). by right.
  - intros g x Hg. apply Hs. by right.
  - intros g x. destruct (decide (smt_digest v = g)) as [<-|]; [rewrite lookup_insert_eq; by intros [= <-]|rewrite lookup_insert_ne by done; apply HN].
Qed.
End Stores.
