(* ===== verification/SmstSafety.v ===== *)
(** * What the SMST manager keeps of a session's relays

    For every session the manager has not given up: the stored live root names a
    whole tree of stored nodes that holds the relays counted so far, so does the
    claimed root, and the tree in memory holds those and the relays its caller
    has put into it. Every operation of SmstManager keeps this, whichever of its
    round trips fail and wherever the tree library returns an error or panics. *)

From S2P Require Import Prelude FaultMonad SmstStore SmstManager SmstLaws.
From Stdlib Require Import Ascii String.

Local Open Scope string_scope.
Local Open Scope Z_scope.

Definition corrupt {A} (r : result A SmErr) : bool := match r with Ok _ => false | Err e => isSMSTCorruption e end.

Section Safety.
Context {Trie : Type} `{LIB : !SMT Trie} `{LL : !SMTLaws Trie} `{NC : !NodeCodec} `{NL : !NodeCodecLaws}.
Abbreviation Manager := (Manager (Trie := Trie)).
Abbreviation redisSMST := (redisSMST (Trie := Trie)).
Implicit Types (w : Manager) (t : redisSMST) (A : SessionRecs) (P : string -> Prop) (sid : string) (g : Z).

(** ** One session *)

Definition holds_all P (m : leaves) : Prop := forall h, P h -> is_Some (m !! h).
Definition in_leaves (m : leaves) (h : string) : Prop := is_Some (m !! h).

Definition covers P (nodes : gmap string string) (root : string) : Prop :=
  isValidSMSTRoot root = true /\ exists m, smt_tree (decoded nodes) root m /\ holds_all P m.

Definition store_ok P A : Prop :=
  nodes_ok (rc_nodes A) /\ (forall h, P h -> rc_live A <> None) /\
  (forall r, rc_live A = Some r -> covers P (rc_nodes A) r) /\ (forall r, rc_claimed A = Some r -> covers P (rc_nodes A) r).

(** What the tree in memory says of its session, with the leaves [m]. *)
Definition tree_facts A t (m : leaves) : Prop :=
  buffer_ok (t_store t) /\ smt_holds (t_trie t) (logical (t_store t) (rc_nodes A)) m /\
  (forall c, t_claimedRoot t = Some c -> smt_root (t_trie t) = LOk c) /\
  (forall c, rc_claimed A = Some c -> t_claimedRoot t = Some c /\ smt_tree (logical (t_store t) (rc_nodes A)) c m).
Definition tree_ok P A t : Prop := exists m, tree_facts A t m /\ holds_all P m.

Definition sealed t : Prop := t_sealing t = true \/ t_claimedRoot t <> None.

(** ** All of them *)

(** [K sid h]: the relay [h] was counted; [H sid g h]: it was put into the tree
    of generation [g]; [Wt sid g]: FlushTree waits on that tree. *)
Definition wf w : Prop :=
  (forall sid g, resident w sid = Some g -> exists t, object w g = Some t /\ t_sessionID t = sid) /\
  (forall g t, object w g = Some t -> g <= sw_gen w).

Section Counted.
Context (K : string -> string -> Prop) (H : string -> Z -> string -> Prop) (Wt : string -> Z -> Prop).

Definition base w : Prop :=
  wf w /\ (forall sid g h, H sid g h -> g <= sw_gen w) /\ (forall sid g, Wt sid g -> exists t, object w g = Some t /\ t_sessionID t = sid).
Definition waits w sid : Prop := forall g, Wt sid g -> resident w sid = Some g /\ forall t, object w g = Some t -> sealed t.
Definition tree_of w sid : Prop := forall g t, resident w sid = Some g -> object w g = Some t -> tree_ok (fun h => K sid h \/ H sid g h) (recs w sid) t.
Definition sess_ok w sid : Prop := store_ok (K sid) (recs w sid) /\ waits w sid /\ tree_of w sid.

Definition mgr_ok w : Prop := base w /\ forall sid, sid ∉ sw_lost w -> sess_ok w sid.
(** All but the tree of [s] in memory. *)
Definition mgr_but (s : string) w : Prop :=
  base w /\ forall sid, sid ∉ sw_lost w -> store_ok (K sid) (recs w sid) /\ waits w sid /\ (sid <> s -> tree_of w sid).
End Counted.

Lemma mgr_ok_but K H Wt s w : mgr_ok K H Wt w -> mgr_but K H Wt s w.
Proof. intros [HB HS]. split; [done|]. intros sid Hl. by destruct (HS sid Hl) as (? & ? & ?). Qed.

Lemma covers_mono P P' nodes nodes' r : (forall h, P' h -> P h) -> decoded nodes ⊆ decoded nodes' -> covers P nodes r -> covers P' nodes' r.
Proof. intros HP Hn (? & m & Ht & Hm). split; [done|]. exists m. split; [by eapply tree_mono|]. intros h Hh. by apply Hm, HP. Qed.
Lemma store_ok_mono P P' A : (forall h, P' h -> P h) -> store_ok P A -> store_ok P' A.
Proof.
  intros HP (Hn & Hl & Hr & Hc). split_and!; [done|intros h Hh; eauto|intros r E; eapply covers_mono; eauto|intros r E; eapply covers_mono; eauto].
Qed.
Lemma tree_ok_mono P P' A t : (forall h, P' h -> P h) -> tree_ok P A t -> tree_ok P' A t.
Proof. intros HP (m & ? & Hm). exists m. split; [done|]. intros h Hh. by apply Hm, HP. Qed.

Lemma mgr_ok_mono K H Wt K' H' Wt' w :
  (forall sid h, K' sid h -> K sid h) -> (forall sid g h, H' sid g h -> H sid g h) -> (forall sid g, Wt' sid g -> Wt sid g) ->
  mgr_ok K H Wt w -> mgr_ok K' H' Wt' w.
Proof.
  intros HK HH HW ((Hwf & Hg & Hw) & HS). split; [split_and!; eauto|].
  intros sid Hl. destruct (HS sid Hl) as (Hst & Hwt & Ht). split_and!.
  - eapply store_ok_mono, Hst. eauto.
  - intros g Hg'. apply Hwt, HW, Hg'.
  - intros g t Hr Ho. eapply tree_ok_mono, (Ht g t Hr Ho). cbn. intros h [?|?]; eauto.
Qed.

(** ** Frames *)

(** Only the records of [sid] and the object [g] differ. *)
Definition at_recs sid w A w' : Prop :=
  recs w' sid = A /\ (forall s, s <> sid -> recs w' s = recs w s) /\ sw_trees w' = sw_trees w /\ sw_objs w' = sw_objs w /\ sw_gen w' = sw_gen w /\ sw_lost w' = sw_lost w.
Definition at_tree sid g w A t w' : Prop :=
  recs w' sid = A /\ (forall s, s <> sid -> recs w' s = recs w s) /\ sw_trees w' = sw_trees w /\ sw_objs w' = <[g := t]> (sw_objs w) /\
  sw_gen w' = sw_gen w /\ sw_lost w' = sw_lost w.

Lemma recs_upd_eq sid A w : recs (upd_store sid A w) sid = A.
Proof. unfold recs, upd_store. cbn. by rewrite lookup_insert_eq. Qed.
Lemma recs_upd_ne sid s A w : s <> sid -> recs (upd_store sid A w) s = recs w s.
Proof. intros Hne. unfold recs, upd_store. cbn. by rewrite lookup_insert_ne by done. Qed.
Lemma at_recs_upd sid A w : at_recs sid w A (upd_store sid A w).
Proof. split_and!; try done; [apply recs_upd_eq|intros s Hs; by apply recs_upd_ne]. Qed.
Lemma at_recs_id sid w : at_recs sid w (recs w sid) w.
Proof. by split_and!. Qed.
Lemma at_tree_obj sid g t w : at_tree sid g w (recs w sid) t (upd_obj g t w).
Proof. by split_and!. Qed.
Lemma at_tree_put sid g A t w : at_tree sid g w A t (upd_obj g t (upd_store sid A w)).
Proof. split_and!; try done; [apply recs_upd_eq|intros s Hs; by apply recs_upd_ne]. Qed.
Lemma at_tree_id sid g t w : object w g = Some t -> at_tree sid g w (recs w sid) t w.
Proof. intros Ho. split_and!; try done. symmetry. by apply insert_id. Qed.
Lemma at_recs_tree sid g w A w1 A' t w2 : at_recs sid w A w1 -> at_tree sid g w1 A' t w2 -> at_tree sid g w A' t w2.
Proof. intros (? & R & ? & ? & ? & ?) (? & R' & ? & ? & ? & ?). split_and!; try congruence. intros s Hs. by rewrite R', R. Qed.
Lemma at_tree_recs sid g w A t w1 A' w2 : at_tree sid g w A t w1 -> at_recs sid w1 A' w2 -> at_tree sid g w A' t w2.
Proof. intros (? & R & ? & ? & ? & ?) (? & R' & ? & ? & ? & ?). split_and!; try congruence. intros s Hs. by rewrite R', R. Qed.
Lemma at_tree_trans sid g w A t w1 A' t' w2 : at_tree sid g w A t w1 -> at_tree sid g w1 A' t' w2 -> at_tree sid g w A' t' w2.
Proof.
  intros (? & R & ? & HO & ? & ?) (? & R' & ? & HO' & ? & ?). split_and!; try congruence.
  - intros s Hs. by rewrite R', R.
  - by rewrite HO', HO, insert_insert_eq.
Qed.
Lemma at_tree_object sid g w A t w' : at_tree sid g w A t w' -> object w' g = Some t.
Proof. intros (_ & _ & _ & HO & _). unfold object. by rewrite HO, lookup_insert_eq. Qed.
Lemma at_tree_object_ne sid g w A t w' g' : at_tree sid g w A t w' -> g' <> g -> object w' g' = object w g'.
Proof. intros (_ & _ & _ & HO & _) ?. unfold object. by rewrite HO, lookup_insert_ne. Qed.

(** The same tree, as far as sealing goes. *)
Definition kept t t' : Prop := t_sessionID t' = t_sessionID t /\ t_sealing t' = t_sealing t /\ t_claimedRoot t' = t_claimedRoot t.
Lemma kept_refl t : kept t t.
Proof. done. Qed.
Lemma kept_trans t1 t2 t3 : kept t1 t2 -> kept t2 t3 -> kept t1 t3.
Proof. intros (? & ? & ?) (? & ? & ?). split_and!; congruence. Qed.

(** An operation on one tree: its session is put right by it. *)
Section OneTree.
Context (K K' : string -> string -> Prop) (H : string -> Z -> string -> Prop) (Wt : string -> Z -> Prop).
Context (sid : string) (g : Z) (w : Manager) (t t' : redisSMST) (A' : SessionRecs) (w' : Manager).
Context (Ho : object w g = Some t) (Hid : t_sessionID t = sid) (Hid' : t_sessionID t' = sid) (Hseal : sealed t -> sealed t').
Context (Hat : at_tree sid g w A' t' w') (HK : forall s h, s <> sid -> K' s h -> K s h).

Lemma one_tree_base : base H Wt w -> base H Wt w'.
Proof using All.
  intros ((Hres & Hgen) & HH & HW). pose proof Hat as (HR & HRs & HT & HO & HG & HL). split_and!; [split| |].
  - intros s g' Hs. unfold resident in *. rewrite HT in Hs. destruct (decide (g' = g)) as [->|Hne].
    + exists t'. split; [by apply (at_tree_object _ _ _ _ _ _ Hat)|]. destruct (Hres _ _ Hs) as (t0 & Ht0 & <-). rewrite Ho in Ht0. injection Ht0 as <-. congruence.
    + rewrite (at_tree_object_ne _ _ _ _ _ _ _ Hat Hne). by apply Hres.
  - intros g' t0. rewrite HG. destruct (decide (g' = g)) as [->|Hne]; [intros _; by apply (Hgen g t)|].
    rewrite (at_tree_object_ne _ _ _ _ _ _ _ Hat Hne). apply Hgen.
  - intros s g' h Hh. rewrite HG. eauto.
  - intros s g' Hg'. destruct (HW s g' Hg') as (t0 & Ht0 & Hid0). destruct (decide (g' = g)) as [->|Hne].
    + exists t'. split; [by apply (at_tree_object _ _ _ _ _ _ Hat)|]. rewrite Ho in Ht0. injection Ht0 as <-. congruence.
    + exists t0. by rewrite (at_tree_object_ne _ _ _ _ _ _ _ Hat Hne).
Qed.

Lemma one_tree_other s : wf w -> s <> sid -> (forall g', resident w s = Some g' -> g' <> g).
Proof using Ho Hid.
  intros [Hres _] Hne g' Hs ->. destruct (Hres _ _ Hs) as (t0 & Ht0 & <-). rewrite Ho in Ht0. by injection Ht0 as <-.
Qed.

Lemma one_tree_but : mgr_ok K H Wt w -> (sid ∉ sw_lost w -> resident w sid = Some g -> store_ok (K sid) (recs w sid) -> tree_ok (fun h => K sid h \/ H sid g h) (recs w sid) t -> store_ok (K' sid) A') ->
  (sid ∉ sw_lost w -> resident w sid = Some g) -> mgr_but K' H Wt sid w'.
Proof using All.
  intros [HB HS] Hput Hresg. split; [by apply one_tree_base|]. pose proof Hat as (HR & HRs & HT & HO & HG & HL).
  destruct HB as (Hwf & HH & HW). rewrite HL. intros s Hl. destruct (HS s Hl) as (Hst & Hwt & Htr). split_and!.
  - destruct (decide (s = sid)) as [->|Hne]; [rewrite HR; eauto|]. rewrite HRs by done. eapply store_ok_mono, Hst. eauto.
  - intros g' Hg'. destruct (Hwt g' Hg') as [Hr Hsl]. unfold resident in *. rewrite HT. split; [done|]. intros t0.
    destruct (decide (g' = g)) as [->|Hne]; [|rewrite (at_tree_object_ne _ _ _ _ _ _ _ Hat Hne); auto].
    rewrite (at_tree_object _ _ _ _ _ _ Hat). intros [= <-]. auto.
  - intros Hne g' t0 Hr. unfold resident in Hr. rewrite HT in Hr. pose proof (one_tree_other s Hwf Hne g' Hr) as Hg.
    rewrite (at_tree_object_ne _ _ _ _ _ _ _ Hat Hg), HRs by done. intros Ht0. eapply tree_ok_mono, (Htr g' t0 Hr Ht0). cbn. intros h [?|?]; eauto.
Qed.

Lemma one_tree_ok : mgr_ok K H Wt w -> (sid ∉ sw_lost w -> resident w sid = Some g) ->
  (sid ∉ sw_lost w -> resident w sid = Some g -> store_ok (K sid) (recs w sid) -> tree_ok (fun h => K sid h \/ H sid g h) (recs w sid) t ->
     store_ok (K' sid) A' /\ tree_ok (fun h => K' sid h \/ H sid g h) A' t') ->
  mgr_ok K' H Wt w'.
Proof using All.
  intros HM Hresg Hput. pose proof Hat as (HR & HRs & HT & HO & HG & HL).
  assert (mgr_but K' H Wt sid w') as [HB HS].
  { apply one_tree_but; try done. intros ? ? ? ?. by apply Hput. }
  split; [done|]. intros s Hl. destruct (HS s Hl) as (Hst & Hwt & Htr). split_and!; try done.
  destruct (decide (s = sid)) as [->|Hne]; [|auto]. rewrite HL in Hl. destruct HM as [_ HM]. destruct (HM sid Hl) as (Hst0 & _ & Htr0).
  intros g' t0 Hr Ht0. unfold resident in Hr. rewrite HT in Hr. pose proof (Hresg Hl) as Hr'. unfold resident in Hr'. rewrite Hr in Hr'. injection Hr' as ->.
  rewrite (at_tree_object _ _ _ _ _ _ Hat) in Ht0. injection Ht0 as <-. rewrite HR. apply Hput; try done. by apply Htr0.
Qed.
End OneTree.

(** ** Round trips *)

Lemma wpm_at_store {B} sid (act : SessionRecs -> SessionRecs * B) w (Q : Manager -> result B WireErr -> Prop) :
  let w' := upd_store sid (fst (act (recs w sid))) w in
  Q w' (Ok (snd (act (recs w sid)))) -> (forall e, Q w (Err e)) -> (forall e, Q w' (Err e)) -> wpm (at_store sid act) w Q.
Proof. intros w' H1 H2 H3. apply wpm_trip; [|done|]; cbn beta; subst w'; by destruct (act (recs w sid)). Qed.
Lemma wpm_write sid act w (Q : Manager -> result unit WireErr -> Prop) :
  let w' := upd_store sid (act (recs w sid)) w in
  Q w' (Ok tt) -> (forall e, Q w (Err e)) -> (forall e, Q w' (Err e)) -> wpm (write sid act) w Q.
Proof. intros w' H1 H2 H3. by apply wpm_at_store. Qed.

(** ** Writing a tree *)

Lemma set_nodes_id A : set_nodes (rc_nodes A) A = A.
Proof. by destruct A. Qed.

Definition pending_post sid (ns : nodeStore) w w' (p : nodeStore * result unit WireErr) : Prop :=
  exists nodes, at_recs sid w (set_nodes nodes (recs w sid)) w' /\ ns_orphans (fst p) = ns_orphans ns /\
    (is_ok (snd p) = true -> ns_pipeline (fst p) = ∅) /\
    (nodes_ok (rc_nodes (recs w sid)) -> buffer_ok ns ->
      nodes_ok nodes /\ decoded (rc_nodes (recs w sid)) ⊆ decoded nodes /\ buffer_ok (fst p) /\ logical (fst p) nodes = logical ns (rc_nodes (recs w sid))).

Lemma writePendingNodes_spec sid ns w : wpm (writePendingNodes sid ns) w (pending_post sid ns w).
Proof.
  unfold writePendingNodes. case_bool_decide as Hp.
  { apply wpm_ret. exists (rc_nodes (recs w sid)). rewrite set_nodes_id. split_and!; [apply at_recs_id|done|done|done]. }
  apply wpm_bind, wpm_ask. intros x. destruct (oc_err x) as [e|]; repeat wpm_step; eexists; (split_and!; [apply at_recs_upd|done|done|]); intros Hn Hb; cbn [fst].
  - split_and!; [by apply put_nodes_ok|by apply put_grows|done|by apply put_logical].
  - split_and!; [by apply put_nodes_ok|by apply put_grows| |by apply put_all_logical]. intros f v. cbn. by rewrite lookup_empty.
Qed.

(** The records after a commit. *)
Definition grown A nodes : Prop := nodes_ok nodes /\ decoded (rc_nodes A) ⊆ decoded nodes.
Lemma grown_store P A nodes : grown A nodes -> store_ok P A -> store_ok P (set_nodes nodes A).
Proof.
  intros [Hn Hd] (_ & Hl & Hr & Hc). split_and!; cbn; try done; intros r E; (eapply covers_mono; [|exact Hd|eauto]); done.
Qed.

Definition committed t (m : leaves) A t' : Prop :=
  tree_facts A t' m /\ ns_pipeline (t_store t') = ∅ /\ smt_root (t_trie t') = smt_root (t_trie t) /\
  (forall r, smt_root (t_trie t) = LOk r -> smt_tree (logical (t_store t') (rc_nodes A)) r m).

Definition commit_post g t w w' (r : result redisSMST SmErr) : Prop :=
  let A := recs w (t_sessionID t) in
  exists nodes t', at_tree (t_sessionID t) g w (set_nodes nodes A) t' w' /\ kept t t' /\ t_liveRoot t' = t_liveRoot t /\ (forall t'', r = Ok t'' -> t'' = t') /\
    (nodes_ok (rc_nodes A) -> forall m, tree_facts A t m ->
      grown A nodes /\ (is_ok r = true -> committed t m (set_nodes nodes A) t') /\ (corrupt r = false -> tree_facts (set_nodes nodes A) t' m)).

(** What the library's commit leaves of the tree, before anything is sent. *)
Lemma commit_local A t m trie ops r : nodes_ok (rc_nodes A) -> tree_facts A t m -> smt_commit (t_trie t) = (trie, ops, r) ->
  let ns := ns_run ops (BeginPipeline (t_store t)) in
  buffer_ok ns /\
  match r with
  | LOk _ => smt_holds trie (logical ns (rc_nodes A)) m /\ smt_root trie = smt_root (t_trie t) /\
             (forall x, smt_root (t_trie t) = LOk x -> smt_tree (logical ns (rc_nodes A)) x m)
  | LErr _ => tree_facts A (upd_trie trie (upd_nodes ns t)) m
  | LPanic => True
  end.
Proof.
  intros Hn (Hb & Hh & Hc & Hcl) Ec ns. set (N := logical (t_store t) (rc_nodes A)) in *.
  assert (logical ns (rc_nodes A) = run_ops ops N) as HN by (unfold ns; by rewrite logical_run).
  assert (forall f v, N !! f = Some v -> f = smt_digest v) as Haddr by (intros f v; by apply logical_addressed).
  assert (buffer_ok ns) as Hbn. { apply run_buffer_ok; [|done]. intros f v. eapply commit_nodes, Ec. }
  split; [done|]. pose proof (commit_holds _ _ _ _ _ _ Hh Haddr Ec) as HC. destruct r as [u|e|]; [by rewrite HN| |done].
  destruct HC as (Hh' & Hroot & Hnd). split_and!; cbn; try done.
  - by rewrite HN.
  - intros c Ec'. rewrite Hroot. auto.
  - intros c Ec'. destruct (Hcl c Ec') as [? Ht]. split; [done|]. rewrite HN. eapply tree_mono, Ht. apply run_sets_grow; try done.
    intros f v. eapply commit_nodes, Ec.
Qed.

Lemma compact_local t N m : smt_holds (t_trie t) N m ->
  let t' := if t_compactionDisabled t then t
            else let '(trie, r) := smt_compact (t_trie t) in upd_compaction (negb (is_ok (runSMSTSafely r))) (upd_trie trie t) in
  smt_holds (t_trie t') N m /\ smt_root (t_trie t') = smt_root (t_trie t).
Proof.
  intros Hh. destruct (t_compactionDisabled t); [done|]. destruct (smt_compact (t_trie t)) as [trie r] eqn:E. cbn. by eapply compact_holds.
Qed.

Lemma commitTree_spec g t w : wpm (commitTree g t) w (commit_post g t w).
Proof.
  unfold commitTree. destruct (smt_commit (t_trie t)) as [[trie ops] r] eqn:Ec. set (ns := ns_run ops (BeginPipeline (t_store t))).
  set (t1 := upd_trie trie (upd_nodes ns t)). set (A := recs w (t_sessionID t)).
  destruct (runSMSTSafely r) as [u|e] eqn:Er.
  2:{ repeat wpm_step. exists (rc_nodes A), t1. unfold A. rewrite set_nodes_id. fold A. split_and!; [apply at_tree_obj|done|done|done|].
      intros Hn m Ht. split_and!; [by split|done|]. cbn. intros Hco. destruct (commit_local _ _ _ _ _ _ Hn Ht Ec) as [_ HC].
      destruct r; [done|exact HC|]. injection Er as <-. by vm_compute in Hco. }
  assert (r = LOk u) as ->. { destruct r; try done. by injection Er as ->. }
  set (t2 := if t_compactionDisabled t1 then t1 else _).
  assert (kept t t2 /\ t_liveRoot t2 = t_liveRoot t /\ t_store t2 = ns) as (Hkept & Hlive & Hns).
  { subst t2. destruct (t_compactionDisabled t1); [done|]. by destruct (smt_compact (t_trie t1)) as [trie2 r2]. }
  assert (forall N m, smt_holds trie N m -> smt_holds (t_trie t2) N m /\ smt_root (t_trie t2) = smt_root trie) as Hcomp.
  { intros N m Hh. by apply (compact_local t1). }
  clearbody t2. apply wpm_bind. rewrite Hns. eapply wpm_mono; [|apply writePendingNodes_spec].
  intros w1 [ns' r1] (nodes & Hat & Horp & Hemp & Hlog). cbn [fst snd] in *. apply wpm_bind, wpm_modify.
  set (t3 := upd_nodes ns' t2).
  assert (at_tree (t_sessionID t) g w (set_nodes nodes A) t3 (upd_obj g t3 w1)) as Hat3.
  { eapply at_recs_tree; [exact Hat|]. destruct Hat as (HA & _). assert (recs w1 (t_sessionID t) = set_nodes nodes A) as <- by exact HA. apply at_tree_obj. }
  assert (nodes_ok (rc_nodes A) -> forall m, tree_facts A t m -> grown A nodes /\ tree_facts (set_nodes nodes A) t3 m /\ smt_root (t_trie t3) = smt_root (t_trie t) /\
            (forall x, smt_root (t_trie t) = LOk x -> smt_tree (logical ns' nodes) x m)) as Hfacts.
  { intros Hn m Ht. destruct (commit_local _ _ _ _ _ _ Hn Ht Ec) as (Hb & Hh & Hroot & Htr). destruct Ht as (_ & _ & Hc & Hcl).
    destruct (Hlog Hn) as (Hn' & Hd' & Hb' & Hl'); [exact Hb|]. destruct (Hcomp _ _ Hh) as [Hh2 Hroot2].
    assert (logical ns' nodes = logical ns (rc_nodes A)) as HL by exact Hl'.
    destruct Hkept as (_ & _ & Hclk). assert (smt_root (t_trie t2) = smt_root (t_trie t)) as Hrt by (by rewrite Hroot2).
    split; [by split|]. split; [|split; [exact Hrt|intros x Hx; rewrite HL; by apply Htr]]. split; [exact Hb'|].
    unfold t3. cbn [upd_nodes t_store t_trie t_claimedRoot set_nodes rc_nodes rc_claimed]. rewrite HL, Hclk, Hrt. split_and!; [exact Hh2|exact Hc|].
    intros c E. destruct (Hcl c E) as [E' _]. split; [done|]. by apply Htr, Hc. }
  destruct r1 as [[]|e]; repeat wpm_step; exists nodes, t3; (split_and!; [|done|done| |]).
  - by destruct Hat3 as (? & ? & ? & ? & ? & ?).
  - intros t'' [= <-]. done.
  - intros Hn m Ht. destruct (Hfacts Hn m Ht) as (? & ? & ? & ?). split_and!; try done. intros _. split_and!; try done. by apply Hemp.
  - done.
  - done.
  - intros Hn m Ht. destruct (Hfacts Hn m Ht) as (? & ? & ? & ?). by split_and!.
Qed.

(** ** Checkpoints *)

(** The stored and buffered nodes make up the tree under its root. *)
Definition whole A t (m : leaves) : Prop := forall r, smt_root (t_trie t) = LOk r -> smt_tree (logical (t_store t) (rc_nodes A)) r m.

(** [bad]: the tree is found corrupt; [full]: the stored live root covers it;
    [all]: it is whole. *)
Definition tree_post g t w w' (bad full all : bool) : Prop :=
  let A := recs w (t_sessionID t) in
  exists A' t', at_tree (t_sessionID t) g w A' t' w' /\ kept t t' /\
    forall P m, store_ok P A -> tree_facts A t m -> holds_all P m ->
      store_ok (if full then in_leaves m else P) A' /\ (bad = false -> tree_facts A' t' m) /\ (all = true -> whole A' t' m).

Lemma store_ok_weaken P m A : holds_all P m -> store_ok (in_leaves m) A -> store_ok P A.
Proof. intros Hm. by apply store_ok_mono. Qed.

Lemma wire_corruption e : isSMSTCorruption (wire e) = false.
Proof. unfold isSMSTCorruption. by destruct (IsRetryableError (wire e)). Qed.

(** The transaction stored: the nodes left are those the tree names. *)
Lemma checkpointed P A t m root : store_ok P A -> tree_facts A t m -> ns_pipeline (t_store t) = ∅ ->
  isValidSMSTRoot root = true -> smt_tree (logical (t_store t) (rc_nodes A)) root m ->
  let A' := checkpointNodes (ns_orphans (t_store t)) root A in
  store_ok (in_leaves m) A' /\
  forall o live, o = ns_orphans (t_store t) \/ o = ∅ -> tree_facts A' (upd_liveRoot live (upd_nodes (mkNodeStore (ns_enabled (t_store t)) (ns_pipeline (t_store t)) o) t)) m.
Proof.
  intros (Hn & Hl & Hlr & Hcr) (Hb & Hh & Hc & Hcl) Hp Hv Ht A'.
  assert (decoded (rc_nodes A') = logical (t_store t) (rc_nodes A)) as HD by (by apply checkpoint_decoded).
  split.
  - split_and!; [by apply without_ok|done| |].
    + intros r E. injection E as <-. split; [done|]. exists m. split; [|by intros h]. by rewrite HD.
    + intros r E. destruct (Hcr r E) as [? _]. split; [done|]. exists m. rewrite HD. split; [by apply Hcl|by intros h].
  - intros o live Ho. rewrite Hp.
    assert (logical (mkNodeStore (ns_enabled (t_store t)) ∅ o) (rc_nodes A') = logical (t_store t) (rc_nodes A)) as HL by (by apply checkpoint_logical).
    split; [intros f v; cbn; by rewrite lookup_empty|]. cbn [upd_liveRoot upd_nodes t_store t_trie t_claimedRoot]. by rewrite HL.
Qed.

Definition orphans_post g t root w w' (r : result unit SmErr) : Prop :=
  let A := recs w (t_sessionID t) in
  exists A' t', at_tree (t_sessionID t) g w A' t' w' /\ kept t t' /\ corrupt r = false /\ t_trie t' = t_trie t /\
    forall P m, store_ok P A -> tree_facts A t m -> holds_all P m -> isValidSMSTRoot root = true -> smt_tree (logical (t_store t) (rc_nodes A)) root m ->
      store_ok (if is_ok r then in_leaves m else P) A' /\ tree_facts A' t' m /\ logical (t_store t') (rc_nodes A') = logical (t_store t) (rc_nodes A).

Lemma upd_same A t m : tree_facts A t m -> tree_facts A (upd_nodes (mkNodeStore (ns_enabled (t_store t)) (ns_pipeline (t_store t)) (ns_orphans (t_store t))) t) m.
Proof. intros (? & ? & ? & ?). by split_and!. Qed.

Lemma flushOrphans_spec g t root w : wpm (flushOrphansWithLiveRoot g t root) w (orphans_post g t root w).
Proof.
  unfold flushOrphansWithLiveRoot. set (A := recs w (t_sessionID t)). apply wpm_bind. eapply wpm_mono; [|apply writePendingNodes_spec].
  intros w1 [ns' r1] (nodes & Hat & Horp & Hemp & Hlog). cbn [fst snd] in *. apply wpm_bind, wpm_modify.
  set (t1 := upd_nodes ns' t). set (A1 := set_nodes nodes A).
  assert (at_tree (t_sessionID t) g w A1 t1 (upd_obj g t1 w1)) as Hat1.
  { eapply at_recs_tree; [exact Hat|]. destruct Hat as (HA & _). assert (recs w1 (t_sessionID t) = A1) as <- by exact HA. apply at_tree_obj. }
  assert (forall P m, store_ok P A -> tree_facts A t m -> store_ok P A1 /\ tree_facts A1 t1 m /\ logical (t_store t1) (rc_nodes A1) = logical (t_store t) (rc_nodes A)) as Hfacts.
  { intros P m Hst (Hb & Hh & Hc & Hcl). pose proof Hst as (Hn & _). destruct (Hlog Hn Hb) as (Hn' & Hd' & Hb' & HL).
    assert (logical ns' nodes = logical (t_store t) (rc_nodes A)) as HL' by exact HL.
    split; [by apply grown_store|]. split; [|done]. split_and!; cbn; rewrite ?HL'; done. }
  destruct r1 as [[]|e].
  2:{ repeat wpm_step. exists A1, t1. split_and!; [exact Hat1|done|apply wire_corruption|done|]. intros P m Hst Ht Hm _ _. by apply Hfacts. }
  assert (ns_pipeline (t_store t1) = ∅) as Hp by (by apply Hemp).
  set (w2 := upd_obj g t1 w1) in *. assert (recs w2 (t_sessionID t) = A1) as HA2 by (by destruct Hat1).
  assert (object w2 g = Some t1) as Ho2 by (by apply (at_tree_object _ _ _ _ _ _ Hat1)).
  apply wpm_bind, wpm_write; cbn beta; rewrite ?HA2; [|intros e|intros e].
  - apply wpm_bind, wpm_modify, wpm_ret. eexists _, _. split; [eapply at_tree_trans; [exact Hat1|apply at_tree_put]|].
    split_and!; [done|done|done|]. intros P m Hst Ht Hm Hv Htr. destruct (Hfacts P m Hst Ht) as (Hst1 & Ht1 & HL).
    destruct (checkpointed P A1 t1 m root) as [? Hk]; try done; [by rewrite HL|]. cbn [is_ok]. split; [done|]. fold A. rewrite <-HL. split; [apply Hk; by right|].
    unfold t1 in Hp |- *. cbn in Hp |- *. rewrite Hp. by apply checkpoint_logical; [|right].
  - apply wpm_ret. exists A1, t1. split_and!; [exact Hat1|done|apply wire_corruption|done|]. intros P m Hst Ht Hm _ _. by apply Hfacts.
  - apply wpm_ret. eexists _, t1. split; [eapply at_tree_recs; [exact Hat1|apply at_recs_upd]|]. split_and!; [done|apply wire_corruption|done|].
    intros P m Hst Ht Hm Hv Htr. destruct (Hfacts P m Hst Ht) as (Hst1 & Ht1 & HL).
    destruct (checkpointed P A1 t1 m root) as [? Hk]; try done; [by rewrite HL|]. cbn [is_ok]. split; [by eapply store_ok_weaken|]. fold A. rewrite <-HL.
    specialize (Hk (ns_orphans (t_store t1)) (t_liveRoot t1) (or_introl eq_refl)). split; [by destruct Hk as (? & ? & ? & ?)|].
    pose proof (checkpoint_logical (ns_enabled (t_store t1)) (t_store t1) (rc_nodes A1) (ns_orphans (t_store t1)) Hp (or_introl eq_refl)) as HC.
    rewrite <-HC. f_equal. destruct (t_store t1). cbn in *. by rewrite Hp.
Qed.

Lemma validRoot_ok x root : validRoot x = Ok root -> x = LOk root /\ isValidSMSTRoot root = true.
Proof. unfold validRoot. destruct x as [r|e|]; cbn; try done. destruct (isValidSMSTRoot r) eqn:E; [|done]. by intros [= <-]. Qed.

Lemma checkpointTree_spec g t w : wpm (checkpointTree g t) w (fun w' r => tree_post g t w w' (corrupt r) (is_ok r) (is_ok r)).
Proof.
  unfold checkpointTree. set (A := recs w (t_sessionID t)). apply wpm_bind. eapply wpm_mono; [|apply commitTree_spec].
  intros w1 r (nodes & t1 & Hat & Hk & _ & Heq & Hfacts). cbn beta in *. fold A in Hat, Hfacts.
  destruct r as [t0|e].
  2:{ apply wpm_ret. exists (set_nodes nodes A), t1. split_and!; [done|done|]. intros P m Hst Ht Hm. pose proof Hst as (Hn & _).
      destruct (Hfacts Hn m Ht) as (? & _ & ?). split_and!; [by apply grown_store|done|done]. }
  specialize (Heq t0 eq_refl) as ->.
  assert (forall P m, store_ok P A -> tree_facts A t m -> store_ok P (set_nodes nodes A) /\ committed t m (set_nodes nodes A) t1) as Hc.
  { intros P m Hst Ht. pose proof Hst as (Hn & _). destruct (Hfacts Hn m Ht) as (? & ? & ?). split; [by apply grown_store|auto]. }
  destruct (validRoot (smt_root (t_trie t1))) as [root|e] eqn:Hv.
  - apply validRoot_ok in Hv as [Hr Hv]. eapply wpm_mono; [|apply flushOrphans_spec].
    pose proof Hk as (Hid & _). intros w2 r2 (A2 & t2 & Hat2 & Hk2 & Hco & Htrie & Hf2). rewrite Hid in Hat2, Hf2. pose proof Hat as (HA & _). rewrite HA in Hf2.
    exists A2, t2. split_and!; [by eapply at_tree_trans|by eapply kept_trans|]. intros P m Hst Ht Hm. destruct (Hc P m Hst Ht) as (Hst1 & Ht1 & Hp1 & Hr1 & Htr1).
    destruct (Hf2 P m) as (? & ? & HL2); try done; [apply Htr1; by rewrite <-Hr1|]. split_and!; [done|done|]. intros _ r. rewrite Htrie, HL2, Hr1. apply Htr1.
  - apply wpm_ret. exists (set_nodes nodes A), t1. split_and!; [done|done|]. intros P m Hst Ht Hm. destruct (Hc P m Hst Ht) as (? & ? & ?). done.
Qed.

(** ** Eviction *)

(** Nothing of a session still kept differs. *)
Definition same w w' : Prop :=
  sw_trees w' = sw_trees w /\ sw_objs w' = sw_objs w /\ sw_gen w' = sw_gen w /\ sw_lost w ⊆ sw_lost w' /\
  forall s, s ∉ sw_lost w' -> recs w' s = recs w s.

Lemma same_ok K H Wt w w' : same w w' -> mgr_ok K H Wt w -> mgr_ok K H Wt w'.
Proof.
  intros (HT & HO & HG & HL & HR) [((Hr & Hg) & HH & HW) HS].
  assert (forall g, object w' g = object w g) as Ho by (intros g; unfold object; by rewrite HO).
  assert (forall s, resident w' s = resident w s) as Hres by (intros s; unfold resident; by rewrite HT).
  split; [split_and!; [split| |]|].
  - intros s g. rewrite Hres, Ho. apply Hr.
  - intros g t. rewrite HG, Ho. apply Hg.
  - intros s g h. rewrite HG. apply HH.
  - intros s g. rewrite Ho. apply HW.
  - intros s Hs. destruct (HS s) as (? & Hwt & Htr); [set_solver|]. rewrite <-HR in * by done. split_and!; [done| |].
    + intros g Hg'. rewrite Hres. destruct (Hwt g Hg') as [? ?]. split; [done|]. intros t. rewrite Ho. auto.
    + intros g t. rewrite Hres, Ho, HR by done. apply Htr.
Qed.
Lemma same_trans w1 w2 w3 : same w1 w2 -> same w2 w3 -> same w1 w3.
Proof. intros (? & ? & ? & ? & R) (? & ? & ? & L & R'). split_and!; try congruence; [set_solver|]. intros s Hs. rewrite R' by done. apply R. set_solver. Qed.
Lemma same_evictions x w : same w (upd_evictions x w).
Proof. by split_and!. Qed.
Lemma same_lose s w : same w (lose s w).
Proof. split_and!; try done. cbn. set_solver. Qed.
Lemma same_lost_recs s A w : s ∈ sw_lost w -> same w (upd_store s A w).
Proof. intros Hs. split_and!; try done. intros s' Hs'. apply recs_upd_ne. cbn in Hs'. intros ->. done. Qed.

Lemma dropped_ok K H Wt s w w' : sw_store w' = sw_store w -> sw_trees w' = delete s (sw_trees w) -> sw_objs w' = sw_objs w -> sw_gen w' = sw_gen w -> sw_lost w ⊆ sw_lost w' ->
  (forall g, Wt s g -> s ∈ sw_lost w') -> mgr_but K H Wt s w -> mgr_ok K H Wt w'.
Proof.
  intros HSt HT HO HG HL HWs [((Hr & Hg) & HH & HW) HS].
  assert (forall g, object w' g = object w g) as Ho by (intros g; unfold object; by rewrite HO).
  assert (forall x g, resident w' x = Some g <-> resident w x = Some g /\ x <> s) as Hres.
  { intros x g. unfold resident. rewrite HT, lookup_delete_Some. naive_solver. }
  assert (forall x, recs w' x = recs w x) as HR by (intros x; unfold recs; by rewrite HSt).
  split; [split_and!; [split| |]|].
  - intros x g [Hx _]%Hres. rewrite Ho. auto.
  - intros g t. rewrite HG, Ho. apply Hg.
  - intros x g h. rewrite HG. apply HH.
  - intros x g. rewrite Ho. apply HW.
  - intros x Hx. destruct (HS x) as (? & Hwt & Htr); [set_solver|]. rewrite <-HR in *. split_and!; [done| |].
    + intros g Hg'. destruct (Hwt g Hg') as [Hx' Hs]. split; [|intros t; rewrite Ho; auto]. apply Hres. split; [done|]. intros ->. by apply Hx, (HWs g).
    + intros g t [Hx' Hne]%Hres. rewrite Ho, HR. by apply Htr.
Qed.

Lemma evict_spec K H Wt s w : mgr_but K H Wt s w -> wpm (evictCorruptSession s) w (fun w' _ => mgr_ok K H Wt w').
Proof.
  intros HM. unfold evictCorruptSession. apply wpm_bind, wpm_gets, wpm_bind, wpm_modify. set (b := match resident w s ≫= object w with Some _ => _ | None => _ end).
  set (w1 := upd_trees _ w).
  assert (forall w2, (if b then w2 = lose s w1 else w2 = w1) -> mgr_ok K H Wt w2) as Hdrop.
  { intros w2 Hw2. apply (dropped_ok K H Wt s w); try (destruct b; by subst w2); [destruct b; subst w2; [cbn; set_solver|done]|].
    intros g Hg. destruct b eqn:Hb; subst w2; [cbn; set_solver|]. destruct (decide (s ∈ sw_lost w)) as [|Hl]; [done|]. exfalso.
    destruct HM as [(_ & _ & HW) HS]. destruct (HS s Hl) as (_ & Hwt & _). destruct (Hwt g Hg) as [Hr Hsl]. destruct (HW s g Hg) as (t & Ht & _).
    subst b. rewrite Hr in Hb. cbn in Hb. rewrite Ht in Hb. apply orb_false_iff in Hb as [Hb1 Hb2]. apply bool_decide_eq_false in Hb2.
    destruct (Hsl t Ht) as [?|?]; [congruence|done]. }
  clearbody b w1. assert (wpm (if b then modify (lose s) else mret tt) w1 (fun w2 _ => mgr_ok K H Wt w2)) as Hl.
  { destruct b; wpm_step; by apply Hdrop. }
  apply wpm_bind. eapply wpm_mono; [|exact Hl]. intros w2 ? HM2. apply wpm_bind, wpm_gets, wpm_bind, wpm_modify.
  destruct (Nat.ltb _ _); [wpm_step; eapply same_ok, HM2; apply same_evictions|]. apply wpm_bind, wpm_modify. set (w3 := lose s _).
  assert (mgr_ok K H Wt w3) as HM3. { eapply same_ok, HM2. eapply same_trans; [apply same_evictions|apply same_lose]. }
  assert (s ∈ sw_lost w3) as Hs3 by (cbn; set_solver). clearbody w3.
  apply wpm_bind, wpm_write; [|intros e|intros e]; wpm_step; (eapply same_ok; [apply same_evictions|]); try done; eapply same_ok, HM3; by apply same_lost_recs.
Qed.

Lemma guarded_spec {B} K H Wt sid (m : M Manager (result B SmErr)) w (Q : Manager -> B -> Prop) :
  wpm m w (fun w' r => match r with Ok a => Q w' a | Err e => if isSMSTCorruption e then mgr_but K H Wt sid w' else mgr_ok K H Wt w' end) ->
  wpm (guarded sid m) w (fun w' r => match r with Ok a => Q w' a | Err _ => mgr_ok K H Wt w' end).
Proof.
  intros Hm. unfold guarded. apply wpm_bind. eapply wpm_mono; [|exact Hm]. intros w' [a|e] HQ; [by wpm_step|].
  apply wpm_bind. destruct (isSMSTCorruption e); [|by repeat wpm_step]. eapply wpm_mono; [|by apply evict_spec]. intros w'' ? ?. by wpm_step.
Qed.

(** ** The resident tree *)

Definition plus (K : string -> string -> Prop) sid (P : string -> Prop) (s h : string) : Prop := K s h \/ s = sid /\ P h.

Lemma tree_post_mgr K H Wt g t w w' bad full all : mgr_ok K H Wt w -> object w g = Some t -> resident w (t_sessionID t) = Some g -> tree_post g t w w' bad full all ->
  (if bad then mgr_but K H Wt (t_sessionID t) w' else mgr_ok K H Wt w') /\
  (bad = false -> full = true -> mgr_ok (plus K (t_sessionID t) (H (t_sessionID t) g)) H Wt w').
Proof.
  intros HM Ho Hres (A' & t' & Hat & (Hid & Hs1 & Hs2) & Hpost).
  assert (sealed t -> sealed t') as Hseal by (unfold sealed; by rewrite Hs1, Hs2).
  assert (forall P m, store_ok P (recs w (t_sessionID t)) -> tree_facts (recs w (t_sessionID t)) t m -> holds_all P m -> store_ok P A') as Hst.
  { intros P m H1 H2 H3. destruct (Hpost P m H1 H2 H3) as [? _]. destruct full; [by eapply store_ok_weaken|done]. }
  split; [destruct bad|intros -> ->].
  - apply (one_tree_but K _ H Wt _ g w t t' A' w' Ho eq_refl Hid Hseal Hat); try done. intros _ _ Hst0 (m & Hf & Hm). eapply Hst; try done. intros h Hh. by apply Hm; left.
  - apply (one_tree_ok K _ H Wt _ g w t t' A' w' Ho eq_refl Hid Hseal Hat); try done. intros _ _ Hst0 (m & Hf & Hm). assert (holds_all (K (t_sessionID t)) m) as HmK by (intros h Hh; apply Hm; by left).
    split; [by eapply Hst|]. exists m. split; [|done]. by apply (Hpost _ _ Hst0 Hf HmK).
  - apply (one_tree_ok K _ H Wt _ g w t t' A' w' Ho eq_refl Hid Hseal Hat); try done; [by intros s h Hne [?|[? _]]|]. intros _ _ Hst0 (m & Hf & Hm).
    assert (holds_all (K (t_sessionID t)) m) as HmK by (intros h Hh; apply Hm; by left).
    destruct (Hpost _ _ Hst0 Hf HmK) as (Hst1 & Hf1 & _). split.
    + eapply store_ok_mono; [|exact Hst1]. intros h [Hh|[_ Hh]]; apply Hm; auto.
    + exists m. split; [auto|]. intros h [[Hh|[_ Hh]]|Hh]; apply Hm; auto.
Qed.

Lemma with_resident_spec {B} sid (none : B) f w (Q : Manager -> B -> Prop) : wf w -> Q w none ->
  (forall g t, resident w sid = Some g -> object w g = Some t -> t_sessionID t = sid -> wpm (f g t) w Q) -> wpm (with_resident sid none f) w Q.
Proof.
  intros [Hwf _] Hn Hf. unfold with_resident. apply wpm_bind, wpm_gets. destruct (resident w sid) as [g|] eqn:Hr; cbn; [|by wpm_step].
  destruct (Hwf sid g Hr) as (t & Ht & Hid). rewrite Ht. cbn. by apply Hf.
Qed.

Lemma mgr_wf K H Wt w : mgr_ok K H Wt w -> wf w.
Proof. by intros [[? _] _]. Qed.

Lemma commit_tree_post g t w w' r : commit_post g t w w' r -> tree_post g t w w' (corrupt r) false (is_ok r).
Proof.
  intros (nodes & t' & Hat & Hk & _ & _ & Hf). eexists _, t'. split_and!; [done|done|]. intros P m Hst Ht Hm. pose proof Hst as (Hn & _).
  destruct (Hf Hn m Ht) as (? & Hc & ?). split_and!; [by apply grown_store|done|]. intros Hr. destruct (Hc Hr) as (_ & _ & Hroot & Htr).
  intros x. rewrite Hroot. apply Htr.
Qed.

Lemma CommitTree_spec K H Wt sid w : mgr_ok K H Wt w -> wpm (CommitTree sid) w (fun w' _ => mgr_ok K H Wt w').
Proof.
  intros HM. unfold CommitTree. apply wpm_bind. eapply wpm_mono; [|apply (guarded_spec K H Wt sid _ _ (fun w' _ => mgr_ok K H Wt w'))].
  { intros w' r Hr. wpm_step. by destruct r as [[[]|]|]. }
  apply with_resident_spec; [by eapply mgr_wf|done|]. intros g t Hr Ho <-. apply wpm_bind. eapply wpm_mono; [|apply commitTree_spec]. intros w' r Hp.
  wpm_step. apply commit_tree_post in Hp. destruct (tree_post_mgr K H Wt _ _ _ _ _ _ _ HM Ho Hr Hp) as [Hbad _]. by destruct r.
Qed.

(** After a checkpoint that answered, what was put into that tree is covered. *)
Lemma CheckpointLiveRoot_spec K H Wt sid w : mgr_ok K H Wt w ->
  wpm (CheckpointLiveRoot sid) w (fun w' r => mgr_ok K H Wt w' /\ forall g, r = Ok (Some g) -> mgr_ok (plus K sid (H sid g)) H Wt w').
Proof.
  intros HM. unfold CheckpointLiveRoot. eapply wpm_mono; [|apply (guarded_spec K H Wt sid _ _ (fun w' r => mgr_ok K H Wt w' /\ forall g, r = Some g -> mgr_ok (plus K sid (H sid g)) H Wt w'))].
  { intros w' [r|e] Hr; [|by split]. destruct Hr as [? Hr]. split; [done|]. intros g [= ->]. auto. }
  apply with_resident_spec; [by eapply mgr_wf|done|]. intros g t Hr Ho <-. apply wpm_bind. eapply wpm_mono; [|apply checkpointTree_spec]. intros w' r Hp.
  wpm_step. destruct (tree_post_mgr K H Wt _ _ _ _ _ _ _ HM Ho Hr Hp) as [Hbad Hfull]. destruct r as [u|e]; [|done]. split; [done|]. intros g' [= <-]. by apply Hfull.
Qed.

(** ** Unloading *)

Lemma importLazy_spec g t w : object w g = Some t ->
  wpm (importLazy g t) w (fun w' _ => exists t', at_tree (t_sessionID t) g w (recs w (t_sessionID t)) t' w' /\ kept t t' /\
    forall m, tree_facts (recs w (t_sessionID t)) t m -> whole (recs w (t_sessionID t)) t m -> tree_facts (recs w (t_sessionID t)) t' m).
Proof.
  intros Ho. unfold importLazy. assert (at_tree (t_sessionID t) g w (recs w (t_sessionID t)) t w) as Hid by (by apply at_tree_id).
  destruct (validRoot (smt_root (t_trie t))) as [root|e] eqn:Hv; [|apply wpm_ret; by exists t]. apply validRoot_ok in Hv as [Hr _].
  destruct (runSMSTSafely (smt_import root)) as [trie|e] eqn:Hi; [|apply wpm_ret; by exists t].
  apply wpm_bind, wpm_modify, wpm_ret. eexists. split_and!; [apply at_tree_obj|done|].
  intros m (Hb & Hh & Hc & Hcl) Hw. destruct (import_holds _ _ _ (Hw root Hr)) as (trie' & E & Hh' & Hr'). rewrite E in Hi. injection Hi as ->.
  split_and!; try done. cbn. intros c E'. rewrite Hr'. specialize (Hc c E'). congruence.
Qed.

Lemma UnloadTree_spec K H Wt sid w : mgr_ok K H Wt w -> wpm (UnloadTree sid) w (fun w' _ => mgr_ok K H Wt w').
Proof.
  intros HM. unfold UnloadTree. eapply wpm_mono; [|apply (guarded_spec K H Wt sid _ _ (fun w' _ => mgr_ok K H Wt w'))]; [by intros w' []|].
  apply with_resident_spec; [by eapply mgr_wf|done|]. intros g t Hr Ho <-. destruct (_ || _); [by apply wpm_ret|]. apply wpm_bind.
  assert (wpm (match t_claimedRoot t with None => checkpointTree g t | Some _ => r ← commitTree g t; mret match r with Ok _ => Ok tt | Err e => Err e end end) w
    (fun w' r => exists full, tree_post g t w w' (corrupt r) full (is_ok r))) as Hwritten.
  { destruct (t_claimedRoot t).
    - apply wpm_bind. eapply wpm_mono; [|apply commitTree_spec]. intros w' r Hp%commit_tree_post. wpm_step. exists false. by destruct r.
    - eapply wpm_mono; [|apply checkpointTree_spec]. intros w' r Hp. by exists (is_ok r). }
  eapply wpm_mono; [|exact Hwritten]. intros w1 r (full & Hp).
  destruct (tree_post_mgr K H Wt _ _ _ _ _ _ _ HM Ho Hr Hp) as [Hbad _]. destruct r as [u|e]; [|by wpm_step].
  destruct Hp as (A1 & t1 & Hat & (Hid & Hs1 & Hs2) & Hpost). pose proof (at_tree_object _ _ _ _ _ _ Hat) as Ho1.
  apply wpm_bind, wpm_gets. rewrite Ho1. change (default t (Some t1)) with t1. apply wpm_bind. eapply wpm_mono; [|by apply importLazy_spec].
  intros w2 r2 (t2 & Hat2 & (Hid2 & Hs12 & Hs22) & Hf2). apply wpm_ret.
  assert (mgr_ok K H Wt w2) as HM2.
  { rewrite Hid in Hat2, Hf2. pose proof Hat as (HA1 & _). rewrite HA1 in Hat2, Hf2.
    apply (one_tree_ok K K H Wt (t_sessionID t) g w t t2 A1 w2 Ho eq_refl); try done; [congruence|unfold sealed; congruence|by eapply at_tree_trans|].
    intros _ _ Hst0 (m & Hf & Hm). assert (holds_all (K (t_sessionID t)) m) as HmK by (intros h Hh; apply Hm; by left).
    destruct (Hpost _ _ Hst0 Hf HmK) as (Hst1 & Hf1 & Hw1). split; [destruct full; [by eapply store_ok_weaken|done]|]. exists m. split; [|done]. auto. }
  destruct r2 as [root|e]; [done|]. destruct (isSMSTCorruption e); [by apply mgr_ok_but|done].
Qed.

(** ** Leaving *)

Lemma set_live_ok P A t m root : store_ok P A -> holds_all P m -> ns_pipeline (t_store t) = ∅ -> isValidSMSTRoot root = true -> whole A t m -> smt_root (t_trie t) = LOk root ->
  store_ok P (set_live (Some root) A).
Proof.
  intros (Hn & Hl & Hlr & Hcr) Hm Hp Hv Hw Hr. split_and!; cbn; try done. intros r [= <-]. split; [done|]. exists m. split; [|done].
  eapply tree_mono, Hw, Hr. by apply logical_decoded.
Qed.

Definition exit_post g t w w' (bad : bool) : Prop :=
  exists w1, tree_post g t w w1 bad false false /\ (if bad then w' = lose (t_sessionID t) w1 else w' = w1).

Lemma writeExit_spec g t root w : smt_root (t_trie t) = LOk root -> isValidSMSTRoot root = true ->
  wpm (writeExitLiveRoot g t root) w (fun w' r => exit_post g t w w' (corrupt r)).
Proof.
  intros Hroot Hv. unfold writeExitLiveRoot. apply wpm_bind. eapply wpm_mono; [|apply commitTree_spec]. intros w1 r Hp. destruct r as [t0|e].
  2:{ apply commit_tree_post in Hp. apply wpm_bind. destruct (isSMSTCorruption e) eqn:Hc; repeat wpm_step; exists w1; cbn in Hp |- *; by rewrite ?Hc in Hp |- *. }
  destruct Hp as (nodes & t1 & Hat & Hk & Hlive & Heq & Hf). specialize (Heq t0 eq_refl) as ->. set (A := recs w (t_sessionID t)) in *.
  pose proof Hk as (Hid & _). rewrite Hid. pose proof Hat as (HA & _).
  assert (forall P m, store_ok P A -> tree_facts A t m -> holds_all P m -> store_ok P (set_nodes nodes A) /\ tree_facts (set_nodes nodes A) t1 m /\ store_ok P (set_live (Some root) (set_nodes nodes A))) as Hfacts.
  { intros P m Hst Ht Hm. pose proof Hst as (Hn & _). destruct (Hf Hn m Ht) as (Hg & Hc & _). destruct (Hc eq_refl) as (Ht1 & Hp1 & Hr1 & Htr1).
    pose proof (grown_store P A nodes Hg Hst) as Hst1. split_and!; [done|done|]. apply (set_live_ok P _ t1 m); try done; [|congruence]. intros r. rewrite Hr1. apply Htr1. }
  assert (tree_post g t w w1 false false false) as Hnot.
  { exists (set_nodes nodes A), t1. split_and!; [done|done|]. intros P m Hst Ht Hm. destruct (Hfacts P m Hst Ht Hm) as (? & ? & ?). by split_and!. }
  assert (forall b, tree_post g t w (upd_store (t_sessionID t) (fst (setLiveRootIfUnchanged root b (set_nodes nodes A))) w1) false false false) as Hset.
  { intros b. eexists _, t1. split_and!; [eapply at_tree_recs; [done|apply at_recs_upd]|done|]. intros P m Hst Ht Hm. destruct (Hfacts P m Hst Ht Hm) as (? & ? & ?).
    unfold setLiveRootIfUnchanged. destruct (String.eqb _ _); by split_and!. }
  apply wpm_bind, wpm_at_store; rewrite ?HA; [|intros e|intros e].
  - specialize (Hset (t_liveRoot t1)). unfold setLiveRootIfUnchanged in *. destruct (String.eqb _ _); cbn [fst snd] in *; repeat wpm_step; eexists; (split; [|done]).
    2: exact Hset.
    destruct Hset as (A' & t' & Hat' & Hk' & Hf'). eexists A', (upd_liveRoot root t1). split_and!.
    + eapply at_tree_trans; [exact Hat'|]. pose proof Hat' as (<- & _). apply at_tree_obj.
    + done.
    + intros P m Hst Ht Hm. destruct (Hf' P m Hst Ht Hm) as (? & Hf'' & _). split_and!; [done| |done]. intros _. specialize (Hf'' eq_refl).
      pose proof (at_tree_object _ _ _ _ _ _ Hat') as Ho'. unfold object in Ho'. cbn in Ho'. change (object w1 g = Some t') in Ho'.
      rewrite (at_tree_object _ _ _ _ _ _ Hat) in Ho'. injection Ho' as <-. by destruct Hf'' as (? & ? & ? & ?).
  - apply wpm_ret. exists w1. cbn. by rewrite wire_corruption.
  - apply wpm_ret. eexists. cbn [corrupt]. rewrite wire_corruption. split; [|done]. apply Hset.
Qed.

Lemma but_lost K H Wt s w : s ∈ sw_lost w -> mgr_but K H Wt s w -> mgr_ok K H Wt w.
Proof. intros Hs [HB HS]. split; [done|]. intros sid Hl. destruct (HS sid Hl) as (? & ? & Ht). split_and!; try done. apply Ht. by intros ->. Qed.
Lemma but_lose K H Wt s w : mgr_but K H Wt s w -> mgr_ok K H Wt (lose s w).
Proof.
  intros [HB HS]. apply (but_lost K H Wt s); [cbn; set_solver|]. split; [exact HB|]. intros sid Hl. cbn in Hl. apply HS. set_solver.
Qed.

Lemma exit_post_mgr K H Wt g t w w' bad : mgr_ok K H Wt w -> object w g = Some t -> resident w (t_sessionID t) = Some g -> exit_post g t w w' bad -> mgr_ok K H Wt w'.
Proof.
  intros HM Ho Hr (w1 & Hp & Hw). destruct (tree_post_mgr K H Wt _ _ _ _ _ _ _ HM Ho Hr Hp) as [Hbad _]. destruct bad; subst w'; [by apply but_lose|done].
Qed.

Lemma CheckpointLiveRootOnExit_spec K H Wt sid w : mgr_ok K H Wt w -> wpm (CheckpointLiveRootOnExit sid) w (fun w' _ => mgr_ok K H Wt w').
Proof.
  intros HM. apply with_resident_spec; [by eapply mgr_wf|done|]. intros g t Hr Ho <-.
  destruct (validRoot (smt_root (t_trie t))) as [root|e] eqn:Hv; [|by apply wpm_ret]. apply validRoot_ok in Hv as [Hrt Hv].
  eapply wpm_mono; [|by apply writeExit_spec]. intros w' r Hp. by apply (exit_post_mgr _ _ _ g t w _ (corrupt r)).
Qed.
Lemma checkpointTreeOnExit_spec K H Wt sid w : mgr_ok K H Wt w -> wpm (checkpointTreeOnExit sid) w (fun w' _ => mgr_ok K H Wt w').
Proof.
  intros HM. apply with_resident_spec; [by eapply mgr_wf|done|]. intros g t Hr Ho <-. destruct (_ || _); [by apply wpm_ret|].
  destruct (validRoot (smt_root (t_trie t))) as [root|e] eqn:Hv; [|by apply wpm_ret]. apply validRoot_ok in Hv as [Hrt Hv].
  destruct (String.eqb _ _); [by apply wpm_ret|]. apply wpm_bind. eapply wpm_mono; [|by apply writeExit_spec]. intros w' r Hp. apply wpm_ret. by apply (exit_post_mgr _ _ _ g t w _ (corrupt r)).
Qed.
Lemma CheckpointAllOnExit_spec K H Wt w : mgr_ok K H Wt w -> wpm CheckpointAllOnExit w (fun w' _ => mgr_ok K H Wt w').
Proof. intros HM. apply wpm_bind, wpm_gets, wpm_mapM_; [done|]. intros sid w' _ HM'. by apply checkpointTreeOnExit_spec. Qed.

(** ** Making a tree *)

Lemma logical_new nodes : logical newNodeStore nodes = decoded nodes.
Proof.
  apply map_eq. intros f. apply option_eq. intros v. rewrite logical_lookup. cbn. rewrite lookup_empty. set_solver.
Qed.

(** A tree just made: over its stored nodes, with nothing buffered. *)
Lemma made_ok P A t root : store_ok P A -> t_store t = newNodeStore -> (forall m, smt_tree (decoded (rc_nodes A)) root m -> smt_holds (t_trie t) (decoded (rc_nodes A)) m /\ smt_root (t_trie t) = LOk root) ->
  (rc_claimed A = Some root /\ t_claimedRoot t = Some root \/ rc_claimed A = None /\ rc_live A = Some root /\ t_claimedRoot t = None) -> tree_ok P A t.
Proof.
  intros (Hn & Hl & Hlr & Hcr) Hs Hi Hcase.
  assert (covers P (rc_nodes A) root) as (_ & m & Ht & Hm) by (destruct Hcase as [[E _]|(_ & E & _)]; auto).
  destruct (Hi m Ht) as [Hh Hr]. exists m. split; [|done]. split; [rewrite Hs; intros f v; cbn; by rewrite lookup_empty|].
  rewrite Hs, logical_new. split_and!; [done| |].
  - intros c E. destruct Hcase as [[_ E']|(_ & _ & E')]; congruence.
  - intros c E. destruct Hcase as [[E1 E2]|(E1 & _)]; [|congruence]. assert (c = root) as -> by congruence. done.
Qed.

Lemma import_made root t A : runSMSTSafely (smt_import root) = Ok (t_trie t) -> forall m, smt_tree (decoded (rc_nodes A)) root m -> smt_holds (t_trie t) (decoded (rc_nodes A)) m /\ smt_root (t_trie t) = LOk root.
Proof. intros Hi m Ht. destruct (import_holds _ _ _ Ht) as (t' & E & ? & ?). rewrite E in Hi. by injection Hi as ->. Qed.

Lemma fresh_ok P sid A : store_ok P A -> rc_claimed A = None -> rc_live A = None -> tree_ok P A (newTree sid smt_new None "").
Proof.
  intros (Hn & Hl & _) Ec El. exists ∅. split; [split_and!|].
  - intros f v. cbn. by rewrite lookup_empty.
  - apply new_holds.
  - done.
  - intros c. by rewrite Ec.
  - intros h Hh. by destruct (Hl h Hh).
Qed.

Definition resume_post (K : string -> string -> Prop) sid w w' (o : option redisSMST) : Prop :=
  same w w' /\ let t := default (newTree sid smt_new None "") o in t_sessionID t = sid /\ (sid ∉ sw_lost w' -> tree_ok (K sid) (recs w' sid) t).

Lemma same_refl w : same w w.
Proof. by split_and!. Qed.

Lemma valid_not_empty root : isValidSMSTRoot root = true -> String.eqb root "" = false.
Proof. by destruct root. Qed.

(** A record of [sid] written where a kept session cannot get to. *)
Lemma wpm_write_lost {B} sid act (a : M Manager B) w Q : sid ∈ sw_lost w ->
  (forall w', same w w' -> sid ∈ sw_lost w' -> wpm a w' Q) -> wpm (write sid act ≫= fun _ => a) w (Q : Manager -> B -> Prop).
Proof.
  intros Hl Ha. apply wpm_bind, wpm_write; [|intros e|intros e]; apply Ha; try done; try apply same_refl; by apply same_lost_recs.
Qed.

Lemma resumeLive_spec K sid w : (sid ∉ sw_lost w -> store_ok (K sid) (recs w sid) /\ rc_claimed (recs w sid) = None) -> wpm (resumeLive sid) w (resume_post K sid w).
Proof.
  intros Hpre. unfold resumeLive, fetch. apply wpm_bind, wpm_read.
  2:{ intros e. apply wpm_bind, wpm_modify, wpm_ret. split; [apply same_lose|]. split; [done|]. cbn. set_solver. }
  assert (rc_live (recs w sid) = None -> resume_post K sid w w None) as Hnone.
  { intros E. split; [apply same_refl|]. split; [done|]. intros Hl. destruct (Hpre Hl). by apply fresh_ok. }
  assert (forall r, rc_live (recs w sid) = Some r -> sid ∉ sw_lost w -> isValidSMSTRoot r = true /\ exists x : Trie, smt_import r = LOk x) as Hlive.
  { intros r E Hl. destruct (Hpre Hl) as [(_ & _ & Hlr & _) _]. destruct (Hlr r E) as (? & m & Ht & _). split; [done|]. destruct (import_holds _ _ _ Ht) as (t & ? & _). eauto. }
  destruct (rc_live (recs w sid)) as [root|] eqn:El; [|apply wpm_ret; auto].
  assert (forall w', same w w' -> sid ∈ sw_lost w' -> resume_post K sid w w' None) as Hlost by (intros w' ? ?; done).
  destruct (decide (sid ∈ sw_lost w)) as [Hl|Hl].
  - destruct (String.eqb root ""); [apply wpm_ret, Hlost; [apply same_refl|done]|].
    destruct (isValidSMSTRoot root); cbn [negb]; [|apply wpm_write_lost; [done|intros w' ? ?; by apply wpm_ret, Hlost]].
    destruct (runSMSTSafely (smt_import root)); [|apply wpm_write_lost; [done|intros w' ? ?; by apply wpm_ret, Hlost]].
    apply wpm_ret. by split; [apply same_refl|].
  - destruct (Hlive root eq_refl Hl) as (Hv & t & Hi). rewrite (valid_not_empty _ Hv), Hv. cbn [negb]. rewrite Hi. apply wpm_ret.
    split; [apply same_refl|]. split; [done|]. intros _. destruct (Hpre Hl) as [Hst Hc]. eapply made_ok; [done|done| |right; eauto]. apply import_made. by rewrite Hi.
Qed.

Lemma claimedTree_spec scan sid root trie w : wpm (claimedTree scan sid root trie) w (fun w' t => w' = w /\ t_sessionID t = sid /\ t_trie t = trie /\ t_store t = newNodeStore /\ t_claimedRoot t = Some root).
Proof.
  unfold claimedTree, fetch. apply wpm_bind, wpm_read; [|intros e; by apply wpm_ret]. destruct (rc_stats (recs w sid)) as [v|]; [|by apply wpm_ret].
  destruct (scan v). by apply wpm_ret.
Qed.

Lemma resume_same K sid w w1 w' o : same w w1 -> resume_post K sid w1 w' o -> resume_post K sid w w' o.
Proof. intros Hs [? ?]. split; [by eapply same_trans|done]. Qed.

Lemma resume_spec K sid w : (sid ∉ sw_lost w -> store_ok (K sid) (recs w sid)) -> wpm (resumeTreeFromRedis sid) w (resume_post K sid w).
Proof.
  intros Hpre. unfold resumeTreeFromRedis, fetch.
  assert (forall w', same w w' -> sid ∈ sw_lost w' -> wpm (resumeLive sid) w' (resume_post K sid w)) as Hlost.
  { intros w' Hs Hl. eapply wpm_mono; [|apply (resumeLive_spec K); by intros []]. intros w2 o. by apply resume_same. }
  apply wpm_bind, wpm_read; [|intros e; apply wpm_bind, wpm_modify, Hlost; [apply same_lose|cbn; set_solver]].
  destruct (rc_claimed (recs w sid)) as [root|] eqn:Ec; [|apply resumeLive_spec; auto].
  destruct (decide (sid ∈ sw_lost w)) as [Hl|Hl].
  - destruct (String.eqb root ""); [by apply Hlost; [apply same_refl|]|].
    destruct (isValidSMSTRoot root); cbn [negb]; [|by apply wpm_write_lost].
    destruct (runSMSTSafely (smt_import root)); [|apply wpm_write_lost; [done|intros w' ? ?; by apply wpm_ret]].
    apply wpm_bind. eapply wpm_mono; [|apply claimedTree_spec]. intros w' t (-> & Hid & _). apply wpm_ret. split; [apply same_refl|]. by split.
  - pose proof (Hpre Hl) as Hst. pose proof Hst as (_ & _ & _ & Hcr). destruct (Hcr root Ec) as (Hv & m & Ht & _). destruct (import_holds _ _ _ Ht) as (trie & Hi & _).
    rewrite (valid_not_empty _ Hv), Hv. cbn [negb]. rewrite Hi. cbn [runSMSTSafely].
    apply wpm_bind. eapply wpm_mono; [|apply claimedTree_spec]. intros w' t (-> & Hid & Htr & Hs & Hcl). apply wpm_ret. split; [apply same_refl|]. split; [done|].
    intros _. eapply made_ok; [done|done| |left; eauto]. apply import_made. cbn. by rewrite Hi, Htr.
Qed.

Lemma addTree_spec K H Wt sid t w : mgr_ok K H Wt w -> resident w sid = None -> t_sessionID t = sid -> (sid ∉ sw_lost w -> tree_ok (K sid) (recs w sid) t) ->
  wpm (addTree sid t) w (fun w' g => mgr_ok K H Wt w' /\ resident w' sid = Some g /\ object w' g = Some t).
Proof.
  intros [((Hr & Hg) & HH & HW) HS] Hnone Hid Ht. unfold addTree. apply wpm_bind, wpm_gets, wpm_bind, wpm_modify, wpm_ret. set (g := sw_gen w + 1). set (w' := upd_trees _ _).
  assert (object w' g = Some t) as Hog by (unfold object; cbn; by rewrite lookup_insert_eq).
  assert (forall x, x <> g -> object w' x = object w x) as Ho by (intros x Hx; unfold object; cbn; by rewrite lookup_insert_ne).
  assert (resident w' sid = Some g) as Hrs by (unfold resident; cbn; by rewrite lookup_insert_eq).
  assert (forall s, s <> sid -> resident w' s = resident w s) as Hro by (intros s Hs; unfold resident; cbn; by rewrite lookup_insert_ne).
  assert (forall x t0, object w x = Some t0 -> x <> g) as Hold by (intros x t0 Hx%Hg; unfold g; lia).
  split_and!; try done. split; [split_and!; [split| |]|].
  - intros s x. destruct (decide (s = sid)) as [->|Hne]; [rewrite Hrs; intros [= <-]; eauto|]. rewrite Hro by done. intros Hx.
    destruct (Hr s x Hx) as (t0 & Ht0 & ?). exists t0. by rewrite (Ho x) by eauto.
  - intros x t0. cbn. fold g. destruct (decide (x = g)) as [->|Hne]; [lia|]. rewrite Ho by done. intros Hx%Hg. unfold g. lia.
  - intros s x h Hh%HH. cbn. fold g. unfold g. lia.
  - intros s x Hx. destruct (HW s x Hx) as (t0 & Ht0 & ?). exists t0. by rewrite (Ho x) by eauto.
  - intros s Hl. destruct (HS s Hl) as (Hst & Hwt & Htr). split_and!; [done| |].
    + intros x Hx. destruct (Hwt x Hx) as [Hx' Hsl]. assert (s <> sid) by (intros ->; congruence). rewrite Hro by done. split; [done|]. intros t0.
      destruct (Hr s x Hx') as (t1 & Ht1 & _). rewrite (Ho x) by eauto. auto.
    + intros x t0. destruct (decide (s = sid)) as [->|Hne].
      * rewrite Hrs. intros [= <-]. rewrite Hog. intros [= <-]. eapply tree_ok_mono; [|by apply Ht]. intros h [?|Hh]; [done|]. apply HH in Hh. unfold g in Hh. lia.
      * rewrite Hro by done. intros Hx. destruct (Hr s x Hx) as (t1 & Ht1 & _). rewrite (Ho x) by eauto. by apply Htr.
Qed.

Lemma GetOrCreateTree_spec K H Wt sid w : mgr_ok K H Wt w -> wpm (GetOrCreateTree sid) w (fun w' g => mgr_ok K H Wt w' /\ resident w' sid = Some g).
Proof.
  intros HM. unfold GetOrCreateTree. apply wpm_bind, wpm_gets. destruct (resident w sid) as [g|] eqn:Hr; [by apply wpm_ret|].
  apply wpm_bind. eapply wpm_mono; [|apply (resume_spec K)]; [|intros Hl; by apply HM].
  intros w' o (Hs & Hid & Ht). assert (mgr_ok K H Wt w') as HM' by (by eapply same_ok).
  assert (resident w' sid = None) as Hr' by (unfold resident in *; by destruct Hs as (-> & _)).
  assert (wpm (addTree sid (default (newTree sid smt_new None "") o)) w' (fun w' g => mgr_ok K H Wt w' /\ resident w' sid = Some g)) as Hadd.
  { eapply wpm_mono; [|by apply addTree_spec]. by intros w2 g (? & ? & _). }
  by destruct o.
Qed.

(** ** Updates *)

Definition hplus (H : string -> Z -> string -> Prop) sid g (key s : string) (x : Z) (h : string) : Prop := H s x h \/ s = sid /\ x = g /\ h = key.
Definition wplus (Wt : string -> Z -> Prop) sid g (s : string) (x : Z) : Prop := Wt s x \/ s = sid /\ x = g.

Lemma held_more K H Wt sid g t key w : mgr_ok K H Wt w -> resident w sid = Some g -> object w g = Some t ->
  (sid ∉ sw_lost w -> tree_ok (fun h => (K sid h \/ H sid g h) \/ h = key) (recs w sid) t) -> mgr_ok K (hplus H sid g key) Wt w.
Proof.
  intros [(Hwf & HH & HW) HS] Hr Ho Ht. split; [split_and!; try done|].
  - intros s x h [?|(-> & -> & ->)]; [eauto|]. by eapply Hwf.
  - intros s Hl. destruct (HS s Hl) as (Hst & Hwt & Htr). split_and!; try done. intros x t0 Hx Hx'. destruct (decide (s = sid)) as [->|Hne].
    + rewrite Hr in Hx. injection Hx as <-. rewrite Ho in Hx'. injection Hx' as <-. eapply tree_ok_mono, Ht, Hl. intros h [?|[?|(_ & _ & ->)]]; auto.
    + eapply tree_ok_mono, (Htr x t0 Hx Hx'). intros h [?|[?|(? & _)]]; auto; done.
Qed.

Lemma waits_more K H Wt sid g t w : mgr_ok K H Wt w -> resident w sid = Some g -> object w g = Some t -> sealed t -> mgr_ok K H (wplus Wt sid g) w.
Proof.
  intros [(Hwf & HH & HW) HS] Hr Ho Hs. split; [split_and!; try done|].
  - intros s x [?|(-> & ->)]; [eauto|]. by eapply Hwf.
  - intros s Hl. destruct (HS s Hl) as (Hst & Hwt & Htr). split_and!; try done. intros x [?|(-> & ->)]; [auto|]. split; [done|]. intros t0 Ht0.
    rewrite Ho in Ht0. by injection Ht0 as <-.
Qed.

Lemma update_ok P A t trie get key v n res : tree_ok P A t -> t_claimedRoot t = None ->
  (forall f x y, logical (t_store t) (rc_nodes A) !! f = Some x -> get f = Ok y -> y = x) -> smt_update get (t_trie t) key v n = (trie, res) ->
  match res with
  | LOk _ => tree_ok (fun h => P h \/ h = key) A (upd_unloaded false (upd_trie trie t))
  | LErr _ => tree_ok P A (upd_unloaded false (upd_trie trie t))
  | LPanic => True
  end.
Proof.
  intros (m & (Hb & Hh & Hc & Hcl) & Hm) Ec Hget E. pose proof (update_holds _ _ _ _ _ _ _ _ _ Hh Hget E) as HU. destruct res as [u|e|]; [| |done].
  - exists (<[key := (v, n)]> m). split; [split_and!; try done; cbn; [by rewrite Ec|]|].
    + intros c Ecl. destruct (Hcl c Ecl). congruence.
    + intros h Hh'. destruct (decide (key = h)) as [<-|Hne]; [by rewrite lookup_insert_eq|]. rewrite lookup_insert_ne by done. apply Hm. by destruct Hh' as [?| ->].
  - exists m. split; [|done]. split_and!; try done; cbn. by rewrite Ec.
Qed.

Lemma leafBytes_same x w : same w (upd_leafBytes x w).
Proof. by split_and!. Qed.

Lemma updateTree_spec K H Wt sid g key v n w : mgr_ok K H Wt w -> resident w sid = Some g ->
  wpm (updateTree g key v n) w (fun w' r => match r with Ok _ => mgr_ok K (hplus H sid g key) Wt w' | Err e => if isSMSTCorruption e then mgr_but K H Wt sid w' else mgr_ok K H Wt w' end).
Proof.
  intros HM Hr. destruct (mgr_wf _ _ _ _ HM) as [Hwf _]. destruct (Hwf sid g Hr) as (t & Ho & Hid).
  unfold updateTree. apply wpm_bind, wpm_gets. rewrite Ho. destruct (t_sealing t) eqn:Es; [by apply wpm_ret|].
  destruct (t_claimedRoot t) eqn:Ec; [by apply wpm_ret|]. rewrite Hid. apply wpm_bind, wpm_gets, wpm_bind, wpm_ask. intros x.
  destruct (smt_update _ (t_trie t) key v n) as [trie res] eqn:Eu. apply wpm_bind, wpm_modify. set (t' := upd_unloaded false (upd_trie trie t)).
  assert (at_tree sid g w (recs w sid) t' (upd_obj g t' w)) as Hat by apply at_tree_obj.
  assert (sealed t -> sealed t') as Hseal by done.
  assert (sid ∉ sw_lost w -> match res with
    | LOk _ => tree_ok (fun h => (K sid h \/ H sid g h) \/ h = key) (recs w sid) t'
    | LErr _ => tree_ok (fun h => K sid h \/ H sid g h) (recs w sid) t' | LPanic => True end) as Hup.
  { intros Hl. destruct HM as [_ HS]. destruct (HS sid Hl) as (Hst & _ & Htr). eapply (update_ok (fun h => K sid h \/ H sid g h)); [by apply Htr|done| |exact Eu].
    intros f a b. apply get_sound. }
  assert (res <> LPanic -> mgr_ok K H Wt (upd_obj g t' w)) as Hok.
  { intros Hne. apply (one_tree_ok K K H Wt sid g w t t' (recs w sid) _ Ho Hid Hid Hseal Hat); try done. intros Hl _ Hst _. split; [done|].
    specialize (Hup Hl). destruct res as [u|e|]; [|done|done]. eapply tree_ok_mono; [|exact Hup]. tauto. }
  destruct (runSMSTSafely res) as [u|e] eqn:Eres.
  - apply wpm_bind, wpm_modify, wpm_ret. eapply same_ok; [apply leafBytes_same|]. assert (res = LOk u) as -> by (destruct res; try done; by injection Eres as ->).
    eapply held_more; [by apply Hok|done|by eapply at_tree_object|]. intros Hl. specialize (Hup Hl). by destruct Hat as (-> & _).
  - apply wpm_ret. assert (res = LPanic \/ res <> LPanic) as [-> | Hne] by (destruct res; auto; by right).
    + injection Eres as <-. cbn. apply (one_tree_but K K H Wt sid g w t t' (recs w sid) _ Ho Hid Hid Hseal Hat); try done.
    + destruct (isSMSTCorruption _); [apply mgr_ok_but|]; by apply Hok.
Qed.

Lemma UpdateTreeGen_spec K H Wt sid key v n w : mgr_ok K H Wt w ->
  wpm (UpdateTreeGen sid key v n) w (fun w' r => match snd r with Ok _ => mgr_ok K (hplus H sid (fst r) key) Wt w' | Err _ => mgr_ok K H Wt w' end).
Proof.
  intros HM. unfold UpdateTreeGen. apply wpm_bind. eapply wpm_mono; [|by apply (GetOrCreateTree_spec K H Wt)]. intros w1 g [HM1 Hr1].
  apply wpm_bind. eapply wpm_mono; [|eapply (guarded_spec K H Wt sid _ _ (fun w' _ => mgr_ok K (hplus H sid g key) Wt w')), updateTree_spec; done].
  intros w2 r Hr. by apply wpm_ret.
Qed.

(** ** Sealing *)

Lemma residentOrResumed_spec K H Wt sid w : mgr_ok K H Wt w ->
  wpm (match resident w sid with
       | Some g => mret (Some g)
       | None => resumed ← resumeTreeFromRedis sid; match resumed with Some t => g ← addTree sid t; mret (Some g) | None => mret None end
       end) w (fun w' o => mgr_ok K H Wt w' /\ forall g, o = Some g -> resident w' sid = Some g).
Proof.
  intros HM. destruct (resident w sid) as [g|] eqn:Hr; [apply wpm_ret; naive_solver|]. apply wpm_bind. eapply wpm_mono; [|apply (resume_spec K)]; [|intros Hl; by apply HM].
  intros w' o (Hs & Hid & Ht). assert (mgr_ok K H Wt w') as HM' by (by eapply same_ok).
  assert (resident w' sid = None) as Hr' by (unfold resident in *; by destruct Hs as (-> & _)).
  destruct o as [t|]; [|by apply wpm_ret]. apply wpm_bind. eapply wpm_mono; [|by apply (addTree_spec K H Wt)]. intros w2 g (? & ? & _). apply wpm_ret. naive_solver.
Qed.

(** A tree whose sealing flags alone differ. *)
Lemma resealed_ok K H Wt sid g t t' w : mgr_ok K H Wt w -> resident w sid = Some g \/ sid ∈ sw_lost w -> object w g = Some t -> t_sessionID t = sid -> t_sessionID t' = sid -> sealed t' ->
  (forall m, tree_facts (recs w sid) t m -> tree_facts (recs w sid) t' m) -> mgr_ok K H Wt (upd_obj g t' w).
Proof.
  intros HM Hr Ho Hid Hid' Hs Hf. apply (one_tree_ok K K H Wt sid g w t t' (recs w sid)); try done; [by destruct Hr|].
  intros _ _ Hst (m & Ht & Hm). split; [done|]. exists m. auto.
Qed.

Lemma FlushTree_seal_spec K H Wt sid w : mgr_ok K H Wt w ->
  wpm (FlushTree_seal sid) w (fun w' r => match r with Ok (g, _) => mgr_ok K H (wplus Wt sid g) w' | Err _ => mgr_ok K H Wt w' end).
Proof.
  intros HM. unfold FlushTree_seal. eapply wpm_mono; [|apply (guarded_spec K H Wt sid _ _ (fun w' a => mgr_ok K H (wplus Wt sid (fst a)) w'))].
  { by intros w' [[g o]|e]. }
  apply wpm_bind, wpm_gets, wpm_bind. eapply wpm_mono; [|by apply (residentOrResumed_spec K H Wt)]. intros w1 [g|] [HM1 Hg]; [|by apply wpm_ret].
  specialize (Hg g eq_refl). destruct (mgr_wf _ _ _ _ HM1) as [Hwf _]. destruct (Hwf sid g Hg) as (t & Ho & Hid).
  apply wpm_bind, wpm_gets. rewrite Ho. destruct (t_claimedRoot t) as [c|] eqn:Ec.
  { apply wpm_ret. eapply waits_more; try done. right. by rewrite Ec. }
  apply wpm_bind, wpm_modify. set (t' := upd_sealing true t).
  assert (mgr_ok K H Wt (upd_obj g t' w1)) as HM2.
  { apply (resealed_ok K H Wt sid g t); try done; by left. }
  apply wpm_ret. destruct (sealRead t) as [[[root n] m]|e].
  - eapply waits_more; [done|done|by eapply (at_tree_object sid), at_tree_obj|by left].
  - destruct (isSMSTCorruption e); [by apply mgr_ok_but|done].
Qed.

Lemma sealRead_root t root n m : sealRead t = Ok (root, n, m) -> smt_root (t_trie t) = LOk root.
Proof.
  unfold sealRead. destruct (smt_root (t_trie t)) as [r|e|]; try done. cbn. destruct (runSMSTSafely (smt_count _)); [|done].
  destruct (runSMSTSafely (smt_sum _)); [|done]. by intros [= -> _ _].
Qed.

(** The claimed root and its tree are written, or fail to be. *)
Lemma set_claimed_ok P A t m c : store_ok P A -> holds_all P m -> tree_facts A t m -> ns_pipeline (t_store t) = ∅ -> isValidSMSTRoot c = true -> whole A t m -> t_claimedRoot t = Some c ->
  store_ok P (set_claimed (Some c) A) /\ tree_facts (set_claimed (Some c) A) t m.
Proof.
  intros (Hn & Hl & Hlr & Hcr) Hm (Hb & Hh & Hc & Hcl) Hp Hv Hw Ec. pose proof (Hw c (Hc c Ec)) as Ht. split.
  - split_and!; cbn; try done. intros r [= <-]. split; [done|]. exists m. split; [|done]. eapply tree_mono, Ht. by apply logical_decoded.
  - split_and!; cbn; try done. intros r [= <-]. done.
Qed.

Definition at_claim g sid root w : Prop := exists t, object w g = Some t /\ t_sessionID t = sid /\ t_claimedRoot t = Some root.

Lemma storeClaim_spec K H Wt g t root w : mgr_ok K H Wt w -> object w g = Some t -> resident w (t_sessionID t) = Some g \/ t_sessionID t ∈ sw_lost w ->
  t_claimedRoot t = Some root -> isValidSMSTRoot root = true ->
  wpm (storeClaim g t root) w (fun w' _ => mgr_ok K H Wt w' /\ at_claim g (t_sessionID t) root w').
Proof.
  intros HM Ho Hr Ec Hv. set (sid := t_sessionID t). set (A := recs w sid). unfold storeClaim. apply wpm_bind. eapply wpm_mono; [|apply commitTree_spec]. intros w1 r Hp.
  destruct Hp as (nodes & t1 & Hat & (Hid & Hs1 & Hs2) & _ & Heq & Hf). fold sid A in Hat, Hf, Hid.
  assert (sid ∉ sw_lost w -> resident w sid = Some g) as Hres by (by destruct Hr).
  assert (sealed t -> sealed t1) as Hseal by (unfold sealed; by rewrite Hs1, Hs2).
  assert (forall w' A' t', at_tree sid g w A' t' w' -> kept t1 t' ->
    (forall m, store_ok (K sid) A -> tree_facts A t m -> holds_all (fun h => K sid h \/ H sid g h) m -> store_ok (K sid) A' /\ tree_facts A' t' m) ->
    mgr_ok K H Wt w' /\ at_claim g sid root w') as Hdone.
  { intros w' A' t' Hat' (Hid' & Hs1' & Hs2') Hf'. split.
    - apply (one_tree_ok K K H Wt sid g w t t' A' w' Ho eq_refl); try done; [congruence|unfold sealed; by rewrite Hs1', Hs2', Hs1, Hs2|].
      intros _ _ Hst (m & Ht & Hm). destruct (Hf' m Hst Ht Hm). split; [done|]. by exists m.
    - exists t'. split_and!; [by eapply at_tree_object|congruence|congruence]. }
  assert (forall m, holds_all (fun h => K sid h \/ H sid g h) m -> holds_all (K sid) m) as HmK by (intros m Hm h Hh; apply Hm; by left).
  destruct r as [t0|e].
  2:{ destruct (isSMSTCorruption e) eqn:Hco; repeat wpm_step.
      - split; [|exists t1; split_and!; [exact (at_tree_object _ _ _ _ _ _ Hat)|done|congruence]]. apply but_lose.
        apply (one_tree_but K K H Wt sid g w t t1 _ w1 Ho eq_refl Hid Hseal Hat); try done. intros _ _ Hst (m & Ht & Hm). pose proof Hst as (Hn & _).
        apply grown_store; [by apply (Hf Hn m)|done].
      - eapply Hdone; [exact Hat|apply kept_refl|]. intros m Hst Ht Hm. pose proof Hst as (Hn & _). destruct (Hf Hn m Ht) as (? & _ & Hk). split; [by apply grown_store|by apply Hk]. }
  specialize (Heq t0 eq_refl) as ->. rewrite Hid. pose proof Hat as (HA & _).
  assert (forall m, store_ok (K sid) A -> tree_facts A t m -> holds_all (fun h => K sid h \/ H sid g h) m ->
     store_ok (K sid) (set_nodes nodes A) /\ tree_facts (set_nodes nodes A) t1 m /\ whole (set_nodes nodes A) t1 m /\ ns_pipeline (t_store t1) = ∅) as Hcm.
  { intros m Hst Ht Hm. pose proof Hst as (Hn & _). destruct (Hf Hn m Ht) as (? & Hk & _). destruct (Hk eq_refl) as (? & ? & Hrt & Htr).
    split_and!; [by apply grown_store|done| |done]. intros x. rewrite Hrt. apply Htr. }
  assert (forall w2 A2, at_recs sid w1 A2 w2 -> (A2 = set_nodes nodes A \/ A2 = set_claimed (Some root) (set_nodes nodes A)) ->
     wpm (if t_unloaded t1 then mret tt else importLazy g t1 ≫= fun _ => mret tt) w2 (fun w' _ => mgr_ok K H Wt w' /\ at_claim g sid root w')) as Hrest.
  { intros w2 A2 Hat2 HA2.
    assert (forall m, store_ok (K sid) A -> tree_facts A t m -> holds_all (fun h => K sid h \/ H sid g h) m -> store_ok (K sid) A2 /\ tree_facts A2 t1 m /\ whole A2 t1 m) as Hf2.
    { intros m Hst Ht Hm. destruct (Hcm m Hst Ht Hm) as (Hst1 & Ht1 & Hw1 & Hp1). destruct HA2 as [-> | ->]; [done|].
      destruct (set_claimed_ok (K sid) (set_nodes nodes A) t1 m root) as [? ?]; try done; [auto|congruence]. }
    pose proof (at_tree_recs _ _ _ _ _ _ _ _ Hat Hat2) as Hat12. pose proof (at_tree_object _ _ _ _ _ _ Hat12) as Ho2.
    destruct (t_unloaded t1); [apply wpm_ret; eapply Hdone; [done|apply kept_refl|]; intros m ? ? ?; by destruct (Hf2 m) as (? & ? & _)|].
    apply wpm_bind. eapply wpm_mono; [|by apply importLazy_spec]. intros w3 r3 (t3 & Hat3 & Hk3 & Hf3). apply wpm_ret. rewrite Hid in Hat3, Hf3.
    destruct Hat2 as (HA2' & _). rewrite HA2' in Hat3, Hf3. eapply Hdone; [by eapply at_tree_trans|done|]. intros m ? ? ?. destruct (Hf2 m) as (? & ? & ?); auto. }
  apply wpm_bind, wpm_write; rewrite ?HA; [|intros e|intros e].
  - eapply Hrest; [apply at_recs_upd|by right].
  - eapply Hrest; [apply at_recs_id|by left].
  - eapply Hrest; [apply at_recs_upd|by right].
Qed.

Lemma set_stats_ok P A x : store_ok P A -> store_ok P (set_stats x A).
Proof. done. Qed.
Lemma stats_ok K H Wt sid x w : mgr_ok K H Wt w -> mgr_ok K H Wt (upd_store sid (set_stats x (recs w sid)) w).
Proof.
  intros [HB HS]. split; [exact HB|]. intros s Hl. destruct (HS s Hl) as (Hst & Hwt & Htr). unfold sess_ok. destruct (decide (s = sid)) as [->|Hne].
  - unfold tree_of. rewrite recs_upd_eq. split_and!; [done|done|]. intros g t Hr Ho. by destruct (Htr g t Hr Ho) as (m & (? & ? & ? & ?) & ?); exists m.
  - unfold tree_of. rewrite recs_upd_ne by done. by split_and!.
Qed.

Lemma FlushTree_finish_spec K H Wt sid g w : mgr_ok K H Wt w -> Wt sid g ->
  wpm (FlushTree_finish sid g) w (fun w' r => mgr_ok K H Wt w' /\ forall root, r = Ok root -> at_claim g sid root w').
Proof.
  intros HM HW. unfold FlushTree_finish. eapply wpm_mono; [|apply (guarded_spec K H Wt sid _ _ (fun w' root => mgr_ok K H Wt w' /\ at_claim g sid root w'))].
  { intros w' [root|e] Hr; [|done]. destruct Hr. split; [done|]. by intros ? [= <-]. }
  pose proof HM as [(_ & _ & HWo) HS]. destruct (HWo sid g HW) as (t & Ho & Hid).
  assert (resident w sid = Some g \/ sid ∈ sw_lost w) as Hr. { destruct (decide (sid ∈ sw_lost w)) as [|Hl]; [by right|]. left. by apply (HS sid Hl). }
  apply wpm_bind, wpm_gets. rewrite Ho. set (sl := match t_claimedRoot t with Some _ => _ | None => _ end).
  assert (forall t1, sl = Ok t1 -> t_sessionID t1 = sid /\ sealed t1 /\ t_claimedRoot t1 <> None /\ forall m, tree_facts (recs w sid) t m -> tree_facts (recs w sid) t1 m) as Hsl.
  { intros t1 E. subst sl. destruct (t_claimedRoot t) as [c|] eqn:Ec; [injection E as <-; unfold sealed; rewrite Ec; by split_and!; [|right| |]|].
    destruct (sealRead t) as [[[root n] m]|e] eqn:Er; [|done]. injection E as <-. apply sealRead_root in Er. split_and!; [done|by right|done|].
    intros m0 (Hb & Hh & Hc & Hcl). split_and!; cbn; try done; [by intros c [= <-]|]. intros c E. destruct (Hcl c E). congruence. }
  clearbody sl. destruct sl as [t1|e]; [|apply wpm_ret; destruct (isSMSTCorruption e); [by apply mgr_ok_but|done]].
  destruct (Hsl t1 eq_refl) as (Hid1 & Hs1 & Hc1 & Hf1). apply wpm_bind, wpm_modify. set (w1 := upd_obj g t1 w).
  assert (mgr_ok K H Wt w1) as HM1 by (by apply (resealed_ok K H Wt sid g t)).
  destruct (t_claimedRoot t1) as [root|] eqn:Ec1; [|done]. change (default "" (Some root)) with root.
  destruct (isValidSMSTRoot root) eqn:Hv; cbn [negb]; [|by apply wpm_ret].
  assert (object w1 g = Some t1) as Ho1 by (unfold object; cbn; by rewrite lookup_insert_eq).
  assert (wpm (storeClaim g t1 root) w1 (fun w' _ => mgr_ok K H Wt w' /\ at_claim g sid root w')) as Hstore.
  { rewrite <-Hid1. apply storeClaim_spec; try done. by rewrite Hid1. }
  apply wpm_bind. eapply wpm_mono; [|exact Hstore]. intros w2 ? [HM2 Hcl2].
  assert (forall x w3, w3 = w2 \/ w3 = upd_store (t_sessionID t1) (set_stats x (recs w2 (t_sessionID t1))) w2 -> mgr_ok K H Wt w3 /\ at_claim g sid root w3) as Hst.
  { intros x w3 [-> | ->]; [done|]. split; [by apply stats_ok|]. destruct Hcl2 as (t2 & ? & ? & ?). by exists t2. }
  apply wpm_bind, wpm_write; [|intros e|intros e]; apply wpm_ret; eapply Hst; eauto.
  Unshelve. exact None.
Qed.

(** ** Claimed trees, and the end of a session *)

Lemma loadTree_spec K H Wt sid w : mgr_ok K H Wt w -> resident w sid = None -> wpm (loadTreeFromRedis sid) w (fun w' _ => mgr_ok K H Wt w').
Proof.
  intros HM Hr. unfold loadTreeFromRedis, fetch. apply wpm_bind, wpm_read; [|intros e; by apply wpm_ret].
  destruct (rc_claimed (recs w sid)) as [root|] eqn:Ec; [|by apply wpm_ret]. destruct (String.eqb root ""); [by apply wpm_ret|].
  assert (sid ∉ sw_lost w -> isValidSMSTRoot root = true /\ exists x : Trie, smt_import root = LOk x) as Hk.
  { intros Hl. destruct HM as [_ HS]. destruct (HS sid Hl) as ((_ & _ & _ & Hcr) & _). destruct (Hcr root Ec) as (? & m & Ht & _). split; [done|].
    destruct (import_holds _ _ _ Ht) as (x & ? & _). eauto. }
  assert (forall B (b : B), sid ∈ sw_lost w -> wpm (write sid (set_claimed None) ≫= fun _ => mret b) w (fun w' _ => mgr_ok K H Wt w')) as Hlost.
  { intros B b Hl. apply wpm_write_lost; [done|]. intros w' Hs _. apply wpm_ret. by eapply same_ok. }
  destruct (decide (sid ∈ sw_lost w)) as [Hl|Hl].
  - destruct (isValidSMSTRoot root); cbn [negb]; [|by apply Hlost]. destruct (runSMSTSafely (smt_import root)); [|by apply Hlost].
    apply wpm_bind. eapply wpm_mono; [|apply claimedTree_spec]. intros w' t (-> & Hid & _). apply wpm_bind, wpm_gets. rewrite Hr.
    apply wpm_bind. eapply wpm_mono; [|by apply (addTree_spec K H Wt)]. intros w2 g (? & _). by apply wpm_ret.
  - destruct (Hk Hl) as (Hv & x & Hi). rewrite Hv. cbn [negb]. rewrite Hi. cbn [runSMSTSafely].
    apply wpm_bind. eapply wpm_mono; [|apply claimedTree_spec]. intros w' t (-> & Hid & Htr & Hs & Hc). apply wpm_bind, wpm_gets. rewrite Hr.
    apply wpm_bind. eapply wpm_mono; [|apply (addTree_spec K H Wt); try done]; [intros w2 g (? & _); by apply wpm_ret|].
    intros _. destruct HM as [_ HS]. destruct (HS sid Hl) as (Hst & _). eapply made_ok; [done|done| |left; eauto]. apply import_made. by rewrite Hi, Htr.
Qed.

Lemma GetTreeRoot_spec K H Wt sid w : mgr_ok K H Wt w -> wpm (GetTreeRoot sid) w (fun w' _ => mgr_ok K H Wt w').
Proof.
  intros HM. unfold GetTreeRoot. apply wpm_bind, wpm_gets, wpm_bind.
  assert (wpm (match resident w sid with Some g => mret (Ok g) | None => loadTreeFromRedis sid end) w (fun w' _ => mgr_ok K H Wt w')) as Hload.
  { destruct (resident w sid) eqn:Hr; [by apply wpm_ret|by apply loadTree_spec]. }
  eapply wpm_mono; [|exact Hload]. intros w1 [g|e] HM1; [|by apply wpm_ret]. apply wpm_bind, wpm_gets. destruct (object w1 g) as [t|]; [|by apply wpm_ret].
  destruct (t_claimedRoot t); [by apply wpm_ret|]. destruct (runSMSTSafely _); [by apply wpm_ret|]. apply wpm_bind.
  eapply wpm_mono; [|by apply (evict_spec K H Wt), mgr_ok_but]. intros w2 ? ?. by apply wpm_ret.
Qed.

Lemma DeleteTree_spec K H Wt now sid w : mgr_ok K H Wt w -> wpm (DeleteTree now sid) w (fun w' _ => mgr_ok K H Wt w').
Proof.
  intros HM. unfold DeleteTree. apply wpm_bind, wpm_modify. set (w1 := lose sid _).
  assert (mgr_ok K H Wt w1) as HM1.
  { apply (dropped_ok K H Wt sid w); try done; try (subst w1; unfold markDeleted; destruct (_ <? _); done).
    - subst w1. unfold markDeleted. destruct (_ <? _); cbn; set_solver.
    - intros g _. cbn. set_solver.
    - by apply mgr_ok_but. }
  apply wpm_write_lost; [cbn; set_solver|]. intros w' Hs _. apply wpm_ret. by eapply same_ok.
Qed.

Lemma ConfirmSession_spec K H Wt sid w : mgr_ok K H Wt w -> wpm (ConfirmSession sid) w (fun w' _ => mgr_ok K H Wt w').
Proof.
  intros HM. apply with_resident_spec; [by eapply mgr_wf|done|]. intros g t Hr Ho <-. apply wpm_modify. set (t' := upd_confirmed true t).
  apply (one_tree_ok K K H Wt (t_sessionID t) g w t t' (recs w (t_sessionID t)) _ Ho); try done.
Qed.

(** A process that starts again keeps the store. *)
Lemma mgr_restart_ok K H Wt w : mgr_ok K H Wt w -> mgr_ok K (fun _ _ _ => False) (fun _ _ => False) (newSMSTManager (sw_store w) (sw_lost w)).
Proof.
  intros [_ HS]. split; [done|]. intros s Hl. destruct (HS s Hl) as (Hst & _). by split_and!.
Qed.
Lemma mgr_start_ok K H Wt : (forall s h, ~ K s h) -> (forall s g h, ~ H s g h) -> (forall s g, ~ Wt s g) -> mgr_ok K H Wt (newSMSTManager ∅ ∅).
Proof.
  intros HK HH HW. split; [split_and!; try done; intros; exfalso; naive_solver|]. intros s _. split_and!.
  - split_and!; try done. intros h Hh. by destruct (HK s h).
  - intros g Hg. by destruct (HW s g).
  - done.
Qed.
End Safety.
