(* ===== verification/IngestSafety.v ===== *)
(** * An acknowledged relay is under a stored root

    Every event of RelayBatch keeps the manager's invariant, with the relays the
    log shows as counted and the ones the batch holds. So whatever fails, panics
    or restarts between the deliveries, a relay counted with its batch can be
    reached from the stored live root and from the claim, unless the session is
    one the manager gave up; one acknowledged alone is in the tree it went into,
    for as long as the process keeps that tree. *)

From S2P Require Import Prelude FaultMonad SessionState StoreSpec RelayCommit SmstStore SmstManager RelayBatch SmstLaws SmstSafety.
From Stdlib Require Import Ascii String.

Local Open Scope string_scope.
Local Open Scope Z_scope.
Local Open Scope list_scope.

Section Safety.
Context {Trie : Type} `{LIB : !SMT Trie} `{LL : !SMTLaws Trie} `{NC : !NodeCodec} `{NL : !NodeCodecLaws}.
Variable GetRelayHashFromBytes : string -> string.
Abbreviation Ingest := (Ingest (Trie := Trie)).
Implicit Types (w : Ingest) (R : string -> string -> Prop) (X : string -> Z -> string -> Prop).

Definition counted (l : list Settled) (sid h : string) : Prop := exists id, SAck id (Counted sid h) ∈ l.
(** Acknowledged alone by the process that runs, having gone into the tree of
    generation [g]. *)
Definition alone (l : list Settled) (sid : string) (g : Z) (h : string) : Prop :=
  exists id l1 l2, l = (l1 ++ (SAck id (CountedAlone sid g h) :: l2)) /\ SRestart ∉ l1.
Definition held_in (sid : string) (relays : list batchedRelay) (s : string) (g : Z) (h : string) : Prop := s = sid /\ exists r, r ∈ relays /\ br_gen r = g /\ br_hash r = h.
Definition held (l : list sessionBatch) (s : string) (g : Z) (h : string) : Prop := exists sb, sb ∈ l /\ held_in (rs_sessionID (sb_session sb)) (sb_relays sb) s g h.

(** [R]: covered although not counted yet; [X]: in the tree although not in the
    batch. *)
Definition inv R X w : Prop :=
  mgr_ok (fun s h => counted (iw_log w) s h \/ R s h) (fun s g h => held (iw_sessions w) s g h \/ alone (iw_log w) s g h \/ X s g h) (fun s g => (s, g) ∈ iw_waiting w) (iw_mgr w).

Abbreviation keeps m := (forall K H Wt v, mgr_ok K H Wt v -> wpm m v (fun v' _ => mgr_ok K H Wt v')).

Lemma inv_mono R X R' X' w : (forall s h, R' s h -> R s h) -> (forall s g h, X' s g h -> held (iw_sessions w) s g h \/ X s g h) -> inv R X w -> inv R' X' w.
Proof. intros HR HX. apply mgr_ok_mono; [|intros s g h [?|[?|Hx]]; [auto..|destruct (HX _ _ _ Hx); auto]|done]. intros s h [?|?]; auto. Qed.

Lemma alone_app l l' s g h : SRestart ∉ l -> alone (l ++ l') s g h -> (exists id, SAck id (CountedAlone s g h) ∈ l) \/ alone l' s g h.
Proof.
  intros Hn (id & l1 & l2 & E & Hr). apply app_eq_app in E as (k & [[-> E]|[-> E]]).
  - destruct k as [|x k]; [right; exists id, [], l2; split; [by rewrite E|apply not_elem_of_nil]|]. injection E as <- _. left. exists id. apply elem_of_app. right. left.
  - right. exists id, k, l2. split; [done|]. intros H. apply Hr, elem_of_app. by right.
Qed.
(** What is logged: acknowledgements the roots or the trees cover, and no end of
    the process. *)
Definition settles R X (l : list Settled) : Prop :=
  (SRestart ∉ l) /\ (forall id s h, SAck id (Counted s h) ∈ l -> R s h) /\ (forall id s g h, SAck id (CountedAlone s g h) ∈ l -> X s g h).
Lemma inv_log R X l w : settles R X l -> inv R X w -> inv R X (log l w).
Proof.
  intros (Hn & Hl & Ha). apply mgr_ok_mono; cbn; [| |done].
  - intros s h [(id & [Hin|Hin]%elem_of_app)|?]; [right; eauto|left; by exists id|by right].
  - intros s g h [?|[[(id & Hid)|?]%alone_app|?]]; [by left|right; right; eauto|right; by left|done|right; by right].
Qed.
Lemma inv_sessions R X bs w : (forall s g h, held bs s g h -> held (iw_sessions w) s g h \/ X s g h) -> inv R X w -> inv R X (upd_sessions bs w).
Proof. intros Hb. apply mgr_ok_mono; [done| |done]. cbn. intros s g h [Hh|[?|?]]; [destruct (Hb _ _ _ Hh)|..]; auto. Qed.
Lemma inv_smst {A} (m : M (Manager (Trie := Trie)) A) R X w : keeps m -> inv R X w -> wpm (smst m) w (fun w' _ => inv R X w').
Proof. intros Hm Hi. apply wpm_on. eapply wpm_mono; [|by apply Hm]. done. Qed.

(** ** Settling entries *)

Definition uncounted (why : AckWhy) : Prop := (forall s h, why <> Counted s h) /\ forall s g h, why <> CountedAlone s g h.

Lemma ack_spec R X id why w : (forall s h, why = Counted s h -> R s h) -> (forall s g h, why = CountedAlone s g h -> X s g h) -> inv R X w ->
  wpm (AckMessage id why) w (fun w' _ => inv R X w').
Proof.
  intros Hw Ha Hi. assert (settles R X [SAck id why]) as Hl.
  { split_and!; [by intros ?%list_elem_of_singleton|intros id' s h [= _ <-]%list_elem_of_singleton; auto|intros id' s g h [= _ <-]%list_elem_of_singleton; auto]. }
  apply wpm_trip; [|intros e; done|intros e]; by apply inv_log.
Qed.
Lemma ack_uncounted R X id why w : uncounted why -> inv R X w -> wpm (AckMessage id why) w (fun w' _ => inv R X w').
Proof. intros [H1 H2]. apply ack_spec; [intros s h E; by destruct (H1 s h)|intros s g h E; by destruct (H2 s g h)]. Qed.
Lemma release_spec R X id w : inv R X w -> wpm (ReleaseMessage id) w (fun w' _ => inv R X w').
Proof. intros Hi. apply wpm_trip; [|intros e; done|intros e]; cbn; apply inv_log; try done; (split_and!; [intros H%list_elem_of_singleton|intros id' s h H%list_elem_of_singleton|intros id' s g h H%list_elem_of_singleton]); done. Qed.
Lemma releaseRelays_spec R X rs w : inv R X w -> wpm (releaseRelays rs) w (fun w' _ => inv R X w').
Proof.
  intros Hi. apply wpm_mapM_; [done|]. intros r w' _ Hi'. apply wpm_bind. eapply wpm_mono; [|by apply (release_spec R X)]. intros w2 ? ?. by apply wpm_ret.
Qed.
Lemma panics_spec w (Q : Ingest -> bool -> Prop) : (forall b, Q w b) -> wpm panics w Q.
Proof. intros HQ. apply wpm_bind, wpm_ask. intros x. by apply wpm_ret. Qed.

(** ** Flushing *)

Definition rel (sid : string) (relays : list batchedRelay) (s h : string) : Prop := s = sid /\ exists r, r ∈ relays /\ br_hash r = h.
Definition more (b : bool) R sid relays (s h : string) : Prop := R s h \/ b = true /\ rel sid relays s h.

Lemma CommitSession_spec R X sid relays w : inv (more true R sid relays) X w -> wpm (CommitSession sid relays) w (fun w' _ => inv (more true R sid relays) X w').
Proof.
  intros Hi. assert (inv (more true R sid relays) X (log (map (fun r => SAck (br_id r) (Counted sid (br_hash r))) relays) w)) as Hl.
  { apply inv_log; [|done]. split_and!; [by intros (r & ? & _)%list_elem_of_fmap| |by intros id s g h (r & ? & _)%list_elem_of_fmap].
    intros id s h (r & [= _ -> ->] & Hr)%list_elem_of_fmap. right. split; [done|]. split; [done|]. by exists r. }
  unfold CommitSession. apply wpm_bind, wpm_ask. intros x. destruct (oc_err x); [|by repeat wpm_step].
  destruct (oc_refused x); [by apply wpm_ret|]. destruct (oc_applied x); by repeat wpm_step.
Qed.

Lemma kept_relays gen relays r : r ∈ List.filter (fun r => br_gen r =? gen) relays <-> r ∈ relays /\ br_gen r = gen.
Proof. rewrite !list_elem_of_In, filter_In, Z.eqb_eq. done. Qed.

Definition flush_post R X (sb : sessionBatch) w' (p : flushOutcome * list batchedRelay * bool) : Prop :=
  let '(_, relays, covered) := p in
  (forall r, r ∈ relays -> r ∈ sb_relays sb) /\ inv (more covered R (rs_sessionID (sb_session sb)) relays) X w'.

Lemma inv_more_false R X sid relays w : inv R X w -> inv (more false R sid relays) X w.
Proof. apply inv_mono; [intros s h [?|[? _]]; done|auto]. Qed.
Lemma inv_more_drop b R X sid relays w : inv (more b R sid relays) X w -> inv R X w.
Proof. apply inv_mono; [by left|auto]. Qed.

Lemma flushSession_spec R X sb w : (forall s g h, held_in (rs_sessionID (sb_session sb)) (sb_relays sb) s g h -> X s g h) -> inv R X w -> wpm (flushSession sb) w (flush_post R X sb).
Proof.
  intros HX Hi. unfold flushSession. set (sid := rs_sessionID (sb_session sb)) in *. apply wpm_bind, panics_spec. intros [].
  { apply wpm_ret. split; [done|]. by apply inv_more_false. }
  apply wpm_bind, wpm_on. eapply wpm_mono; [|by apply CheckpointLiveRoot_spec]. intros v r [HM Hcov].
  assert (inv R X (upd_mgr v w)) as Hi1 by exact HM. destruct r as [[gen|]|e]; [|apply wpm_ret; split; [done|by apply inv_more_false]..].
  specialize (Hcov gen eq_refl). set (kept := List.filter (fun r => br_gen r =? gen) (sb_relays sb)).
  assert (inv (more true R sid kept) X (upd_mgr v w)) as Hi2.
  { eapply mgr_ok_mono; [| | |exact Hcov]; [|done|done]. cbn. intros s h [?|[?|(_ & -> & r & Hr & <-)]]; [by left; left|by left; right|].
    right. split; [done|]. right. right. apply HX. apply kept_relays in Hr as [Hr Hg]. split; [done|]. exists r. done. }
  unfold takeOtherGenerations. fold kept. set (stale := List.filter (fun r => negb (br_gen r =? gen)) (sb_relays sb)).
  assert (forall r, r ∈ kept -> r ∈ sb_relays sb) as Hk by (by intros r [? _]%kept_relays).
  apply wpm_bind. eapply wpm_mono; [|by apply (releaseRelays_spec _ _ _ _ Hi2)]. intros w2 ? Hi3. destruct (_ && _); [by apply wpm_ret|].
  apply wpm_bind, panics_spec. intros []; [by apply wpm_ret|]. apply wpm_bind. eapply wpm_mono; [|by apply (CommitSession_spec R X)].
  intros w3 c Hi4. by apply wpm_ret.
Qed.

Lemma finishOneByOne_spec R X covered sid relays w : (forall r, r ∈ relays -> X sid (br_gen r) (br_hash r)) -> inv (more covered R sid relays) X w -> wpm (finishOneByOne covered sid relays) w (fun w' _ => inv R X w').
Proof.
  intros HX Hi. unfold finishOneByOne. apply wpm_bind. eapply wpm_mono; [|apply inv_smst, Hi; intros; by apply CommitTree_spec]. intros w1 c Hi1.
  eapply wpm_mono; [intros w' ?; apply inv_more_drop|]. instantiate (3 := covered). instantiate (2 := sid). instantiate (1 := relays).
  destruct c as [[] []]; try by apply releaseRelays_spec.
  apply wpm_mapM_; [done|]. intros r w2 Hr Hi2. apply wpm_bind, panics_spec. intros lost. apply wpm_bind.
  eapply wpm_mono; [|apply ack_spec, Hi2]; [intros w3 ? ?; by apply wpm_ret|intros s h|intros s g h]; (destruct lost; [done|]); (destruct covered; [|try done]); try done; intros [= <- <-].
  - right. split; [done|]. split; [done|]. by exists r.
  - subst. by apply HX.
Qed.

Lemma drop_held sid bs s g h : held (drop_batch sid bs) s g h -> held bs s g h.
Proof. intros (sb & Hin & Hh). exists sb. split; [|done]. unfold drop_batch in Hin. rewrite list_elem_of_In, filter_In in Hin. by apply list_elem_of_In, (proj1 Hin). Qed.
Lemma put_held sid relays bs s g h : held (put_relays sid relays bs) s g h -> held bs s g h \/ held_in sid relays s g h.
Proof.
  intros (sb & (sb0 & -> & Hin)%list_elem_of_fmap & Hh). destruct (String.eqb_spec (rs_sessionID (sb_session sb0)) sid) as [<-|]; [by right|]. left. by exists sb0.
Qed.

Lemma flushLocked_spec R X sb w : sb ∈ iw_sessions w -> inv R X w -> wpm (flushLocked sb) w (fun w' _ => inv R X w').
Proof.
  intros Hsb Hi. set (sid := rs_sessionID (sb_session sb)). set (Y := fun s g h => X s g h \/ held_in sid (sb_relays sb) s g h).
  assert (inv R Y w) as HY. { eapply inv_mono, Hi; [done|]. intros s g h [?|?]; [by right|left; by exists sb]. }
  eapply (wpm_mono _ _ (fun w' _ => inv R Y w')); [intros w' ?; apply inv_mono; [done|by right; left]|].
  unfold flushLocked. fold sid. apply wpm_bind. eapply wpm_mono; [|apply (flushSession_spec R Y); [by right|done]].
  intros w1 [[out relays] covered] [Hrel Hi1]. fold sid in Hi1.
  destruct out; repeat wpm_step.
  - apply inv_sessions; [|by eapply inv_more_drop]. intros s g h Hd. left. by eapply drop_held.
  - apply inv_sessions; [|by eapply inv_more_drop]. intros s g h [?|(-> & r & Hr & ?)]%put_held; [by left|]. right. right. split; [done|]. exists r. auto.
  - eapply wpm_mono; [|by eapply releaseRelays_spec, inv_more_drop]. intros w2 ? Hi2. repeat wpm_step. apply inv_sessions; [|done]. intros s g h Hd. left. by eapply drop_held.
  - eapply wpm_mono; [|apply (finishOneByOne_spec R Y); [|done]]; [|intros r Hr; right; split; [done|]; exists r; auto]. intros w2 ? Hi2. repeat wpm_step. apply inv_sessions; [|done]. intros s g h Hd. left. by eapply drop_held.
Qed.

Lemma find_batch_in sid bs sb : find_batch sid bs = Some sb -> sb ∈ bs /\ rs_sessionID (sb_session sb) = sid.
Proof. intros [Hin Heq]%find_some. apply String.eqb_eq in Heq. split; [by apply list_elem_of_In|done]. Qed.

Lemma flushSessionID_spec R X sid w : inv R X w -> wpm (flushSessionID sid) w (fun w' _ => inv R X w').
Proof.
  intros Hi. unfold flushSessionID. apply wpm_bind, wpm_gets. destruct (find_batch sid (iw_sessions w)) as [sb|] eqn:E; [|by apply wpm_ret].
  apply find_batch_in in E as [Hin _]. apply wpm_bind. eapply wpm_mono; [|by apply (flushLocked_spec R X)]. intros w' ? ?. by apply wpm_ret.
Qed.
Lemma FlushSessions_spec R X sids w : inv R X w -> wpm (FlushSessions sids) w (fun w' _ => inv R X w').
Proof. intros Hi. apply wpm_mapM_; [done|]. intros. by apply flushSessionID_spec. Qed.

Lemma flushAcks_spec R X w : inv R X w -> wpm flushAcks w (fun w' _ => inv R X w').
Proof.
  intros Hi. unfold flushAcks. apply wpm_bind, wpm_gets. destruct (iw_acks w) as [|id ids]; [by apply wpm_ret|]. apply wpm_bind.
  assert (inv R X (log (map (fun id => SAck id Rejected) (id :: ids)) w)) as Hl.
  { apply inv_log; [|done]. split_and!; [by intros (? & ? & _)%list_elem_of_fmap|by intros id' s h (? & ? & _)%list_elem_of_fmap|by intros id' s g h (? & ? & _)%list_elem_of_fmap]. }
  apply wpm_trip; [|intros e|intros e]; by repeat wpm_step.
Qed.

Lemma FlushAll_spec R X picks w : inv R X w -> wpm (FlushAll picks) w (fun w' _ => inv R X w').
Proof.
  intros Hi. unfold FlushAll. apply wpm_bind. eapply wpm_mono; [|apply inv_smst, Hi].
  2:{ intros K H Wt v Hv. apply wpm_modify. eapply same_ok, Hv. apply leafBytes_same. }
  intros w1 ? Hi1. apply wpm_bind, wpm_gets, wpm_bind. eapply wpm_mono; [|by apply (FlushSessions_spec R X)]. intros w2 ? Hi2.
  apply wpm_bind. eapply wpm_mono; [|by apply (flushAcks_spec R X)]. intros w3 ? ?. by apply wpm_ret.
Qed.

Lemma Add_spec R X s r w : X (rs_sessionID s) (br_gen r) (br_hash r) -> inv R X w -> wpm (Add s r) w (fun w' _ => inv R X w').
Proof.
  intros HX Hi. unfold Add. apply wpm_bind, wpm_gets.
  assert (forall w0, inv R X w0 -> inv R X (upd_sessions (mkSessionBatch s [r] :: iw_sessions w0) w0)) as Hnew.
  { intros w0. apply inv_sessions. intros s' g h (sb & [->|Hin]%elem_of_cons & Hh); [|left; by exists sb]. right.
    destruct Hh as (-> & r' & ->%list_elem_of_singleton & <- & <-). done. }
  destruct (find_batch _ _) as [sb|] eqn:E; [|repeat wpm_step; by apply Hnew]. apply find_batch_in in E as [Hin Hid].
  destruct (Nat.leb _ _).
  - apply wpm_bind. eapply wpm_mono; [|by apply (flushLocked_spec R X)]. intros w1 [] Hi1; repeat wpm_step; auto.
  - repeat wpm_step. apply inv_sessions; [|done]. intros s' g h [?|(-> & r' & [Hr|Hr]%elem_of_app & ? & ?)]%put_held; [by left| |].
    + left. exists sb. split; [done|]. rewrite Hid. split; [done|]. by exists r'.
    + right. apply list_elem_of_singleton in Hr as ->. by subst.
Qed.

Lemma AddAck_spec R X id w : inv R X w -> wpm (AddAck id) w (fun w' _ => inv R X w').
Proof.
  intros Hi. unfold AddAck. apply wpm_bind, wpm_gets, wpm_bind.
  assert (wpm (if Nat.leb relayBatchCap (List.length (iw_acks w)) then flushAcks else mret false) w (fun w' _ => inv R X w')) as Hf
    by (destruct (Nat.leb _ _); [by apply flushAcks_spec|by apply wpm_ret]).
  eapply wpm_mono; [|exact Hf]. intros w1 [] Hi1; by repeat wpm_step.
Qed.

Lemma each_held_spec R X (f : string -> M Ingest unit) picks w : (forall sid w, inv R X w -> wpm (f sid) w (fun w' _ => inv R X w')) -> inv R X w ->
  wpm (flushAcks ≫= fun _ => gets (held_sessions picks) ≫= fun sids => mapM_ f sids) w (fun w' _ => inv R X w').
Proof.
  intros Hf Hi. apply wpm_bind. eapply wpm_mono; [|by apply (flushAcks_spec R X)]. intros w1 ? Hi1. apply wpm_bind, wpm_gets, wpm_mapM_; [done|]. intros; by apply Hf.
Qed.
Lemma dropping_spec R X (f : sessionBatch -> M Ingest unit) sid w : (forall sb w, inv R X w -> wpm (f sb) w (fun w' _ => inv R X w')) -> inv R X w ->
  wpm (gets (fun w => find_batch sid (iw_sessions w)) ≫= fun found =>
    (match found with Some sb => f sb | None => mret tt end) ≫= fun _ => modify (fun w => upd_sessions (drop_batch sid (iw_sessions w)) w)) w (fun w' _ => inv R X w').
Proof.
  intros Hf Hi. apply wpm_bind, wpm_gets, wpm_bind. eapply (wpm_mono _ _ (fun w' _ => inv R X w')).
  - intros w1 ? Hi1. apply wpm_modify, inv_sessions; [|done]. intros s g h Hd. left. by eapply drop_held.
  - destruct (find_batch _ _); [by apply Hf|by apply wpm_ret].
Qed.

Lemma exit_spec R X b picks w : inv R X w -> wpm (releaseRelayBatchOnExit b picks) w (fun w' _ => inv R X w').
Proof.
  intros Hi. destruct b; apply each_held_spec; try done; intros sid w1 Hi1.
  - apply dropping_spec; [|done]. intros sb w2 Hi2. apply wpm_mapM_; [done|]. intros r w3 _ Hi3. apply wpm_bind.
    eapply wpm_mono; [|by apply (ack_uncounted R X)]. intros w4 ? ?. by apply wpm_ret.
  - apply wpm_bind. eapply wpm_mono; [|apply inv_smst, Hi1; intros; by apply CheckpointLiveRootOnExit_spec]. intros w2 ? Hi2. apply dropping_spec; [|done].
    intros sb w3 Hi3. by apply releaseRelays_spec.
Qed.

(** ** One relay *)

(** What the worker answers is never an acknowledgement as counted with its root:
    that is the batch's. One it counts alone is in the tree it says. *)
Definition handled R X w' (o : HandleOut) : Prop :=
  match o with
  | HAck (CountedAlone s g h) => inv R (hplus X s g h) w'
  | HAck why => uncounted why /\ inv R X w'
  | _ => inv R X w'
  end.

Lemma ackWithBatch_spec R X env id w : inv R X w -> wpm (ackWithBatch env id) w (handled R X).
Proof.
  intros Hi. unfold ackWithBatch. apply wpm_bind.
  assert (wpm (if re_hasBatch env then AddAck id else mret false) w (fun w' _ => inv R X w')) as Ha by (destruct (re_hasBatch env); [by apply AddAck_spec|by apply wpm_ret]).
  eapply wpm_mono; [|exact Ha]. intros w' [] Hi'; apply wpm_ret; [exact Hi'|by split].
Qed.

Lemma inv_unplus R X sid g h w : inv R (hplus X sid g h) w -> inv R X w.
Proof. apply inv_mono; [done|]. intros s g' h' Hx. right. by left. Qed.

(** A relay that went into its tree and was not batched. *)
Lemma storeAlone_spec R X env sid g hash w : inv R (hplus X sid g hash) w ->
  wpm (smst (CommitTree sid) ≫= fun stored => match stored with
    | (_, Err e) => mret (if IsShutdownCancelError e || re_cancelled env then HAck Discarded else HBack)
    | (false, Ok _) => mret HBack
    | (true, Ok _) => mret (HAck (CountedAlone sid g hash)) end) w (handled R X).
Proof.
  intros Hi. apply wpm_bind. eapply wpm_mono; [|apply inv_smst, Hi; intros; by apply CommitTree_spec].
  intros w1 [b [u|e]] Hi1; [destruct b; apply wpm_ret; [exact Hi1|by eapply inv_unplus]|].
  destruct b; apply wpm_ret; (destruct (IsShutdownCancelError e || re_cancelled env); [split; [done|]|]); by eapply inv_unplus.
Qed.

Lemma handleRelay_spec R X env msg w : inv R X w -> wpm (handleRelay GetRelayHashFromBytes env msg) w (handled R X).
Proof.
  intros Hi. unfold handleRelay. set (s := sg_session msg). destruct (re_supplierFound env); cbn [negb]; [|by apply wpm_ret].
  destruct (re_claimWindowReached env); [by apply ackWithBatch_spec|]. apply wpm_bind, wpm_gets. destruct (SessionDeleted _ _ _); [by apply ackWithBatch_spec|].
  destruct (re_claimWindowClosed env); [by apply ackWithBatch_spec|]. destruct (sg_bytes msg) as [bytes|]; [|by apply ackWithBatch_spec].
  set (hash := if String.eqb (sg_hash msg) "" then _ else _). apply wpm_bind, wpm_gets. cbv zeta. set (confirmed := _ || re_ensured env).
  destruct (_ && bool_decide _); [by apply ackWithBatch_spec|]. apply wpm_bind, wpm_on.
  eapply wpm_mono; [|by apply UpdateTreeGen_spec]. intros v [g [u|e]] HM; cbn [fst snd] in *.
  2:{ assert (inv R X (upd_mgr v w)) as Hi1 by exact HM. destruct (IsShutdownCancelError e || re_cancelled env); [by apply wpm_ret|]. destruct (IsRetryableError e); [by apply wpm_ret|by apply ackWithBatch_spec]. }
  set (Y := hplus X (rs_sessionID s) g hash).
  assert (inv R Y (upd_mgr v w)) as Hi1.
  { eapply mgr_ok_mono; [| | |exact HM]; [done| |done]. cbn. intros s' g' h [?|[?|[?|?]]]; [left; by left|left; right; by left|left; right; by right|by right]. }
  assert (wpm (if confirmed then smst (ConfirmSession (rs_sessionID s)) else mret tt) (upd_mgr v w) (fun w' _ => inv R Y w')) as Hc.
  { destruct confirmed; [|by apply wpm_ret]. apply inv_smst; [|done]. intros; by apply ConfirmSession_spec. }
  apply wpm_bind. eapply wpm_mono; [|exact Hc]. intros w1 ? Hi2. apply wpm_bind.
  assert (wpm (if re_hasBatch env && negb (String.eqb hash "") then Add s (mkRelay (sg_id msg) hash (sg_computeUnits msg) g) else mret false) w1 (fun w' _ => inv R Y w')) as Ha.
  { destruct (_ && _); [|by apply wpm_ret]. apply Add_spec; [|done]. by right. }
  eapply wpm_mono; [|exact Ha]. intros w2 [] Hi3; [apply wpm_ret; by eapply inv_unplus|by apply storeAlone_spec].
Qed.

Lemma handleStreamMessage_spec R X env msg w : inv R X w -> wpm (handleStreamMessage GetRelayHashFromBytes env msg) w (fun w' _ => inv R X w').
Proof.
  intros Hi. unfold handleStreamMessage. apply wpm_bind, panics_spec. intros before. apply wpm_bind.
  assert (wpm (if before then mret HBack else handleRelay GetRelayHashFromBytes env msg) w (handled R X)) as Hh by (destruct before; [by apply wpm_ret|by apply handleRelay_spec]).
  eapply wpm_mono; [|exact Hh]. intros w1 o Ho. apply wpm_bind, panics_spec. intros after.
  assert (inv R X w1) as Hi1 by (destruct o as [[]| |]; try apply Ho; by eapply inv_unplus).
  assert (forall why, uncounted why -> wpm (AckMessage (sg_id msg) why ≫= fun _ => mret tt) w1 (fun w' _ => inv R X w')) as Hack.
  { intros why Hu. apply wpm_bind. eapply wpm_mono; [|by apply (ack_uncounted R X)]. intros w2 ? ?. by apply wpm_ret. }
  destruct (before || after); [by apply Hack|]. destruct o as [why| |]; [|by apply wpm_ret|].
  - destruct why as [s h|s g h| | | |]; try (apply Hack, Ho). apply wpm_bind.
    eapply wpm_mono; [|apply (ack_spec R (hplus X s g h)); [done| |exact Ho]]; [intros w2 ? Hw2; apply wpm_ret; exact (inv_unplus _ _ _ _ _ _ Hw2)|]. intros s' g' h' [= <- <- <-]. by right.
  - apply wpm_bind. eapply wpm_mono; [|by apply (release_spec R X)]. intros w2 ? ?. by apply wpm_ret.
Qed.

(** ** Runs *)

Definition no_rel (s h : string) : Prop := False.
Definition no_held (s : string) (g : Z) (h : string) : Prop := False.
Abbreviation ok := (inv no_rel no_held).

Lemma smst_unit_spec {A} (m : M (Manager (Trie := Trie)) A) w : keeps m -> ok w -> wpm (smst m ≫= fun _ => mret tt) w (fun w' _ => ok w').
Proof. intros Hm Hi. apply wpm_bind. eapply wpm_mono; [|by apply inv_smst]. intros w' ? ?. by apply wpm_ret. Qed.

Lemma exec_spec e w : ok w -> wpm (exec GetRelayHashFromBytes e) w (fun w' _ => ok w').
Proof.
  intros Hi. destruct e as [env msg|picks|sids|sid|sid|sid g|sid|now sid|b picks| |]; cbn [exec].
  - by apply handleStreamMessage_spec.
  - by apply FlushAll_spec.
  - by apply FlushSessions_spec.
  - apply smst_unit_spec; [|done]. intros; by apply UnloadTree_spec.
  - apply wpm_bind, wpm_on. eapply wpm_mono; [|by apply FlushTree_seal_spec]. intros v [[g o]|e] HM; [|by apply wpm_ret].
    apply wpm_modify. eapply mgr_ok_mono; [| | |exact HM]; [done|done|]. cbn. intros s x [[= -> ->]|?]%elem_of_cons; [by right|by left].
  - apply wpm_bind, wpm_gets. case_bool_decide as Hw; [|by apply wpm_ret]. apply wpm_bind, wpm_on.
    eapply wpm_mono; [|by apply (FlushTree_finish_spec _ _ _ _ _ _ Hi)]. intros v r [HM _]. by apply wpm_ret.
  - apply smst_unit_spec; [|done]. intros; by apply GetTreeRoot_spec.
  - apply inv_smst; [|done]. intros; by apply DeleteTree_spec.
  - by apply exit_spec.
  - apply inv_smst; [|done]. intros; by apply CheckpointAllOnExit_spec.
  - apply wpm_modify. eapply mgr_ok_mono; [| | |by eapply mgr_restart_ok]; cbn.
    + intros s h [(id & [?|?]%elem_of_cons)|?]; [done|left; by exists id|by right].
    + intros s g h [(sb & Hin & _)|[(id & l1 & l2 & E & Hn)|[]]]; [by apply not_elem_of_nil in Hin|]. destruct l1 as [|x l1]; [done|]. injection E as <- _. exfalso. apply Hn. left.
    + intros s g Hin. by apply not_elem_of_nil in Hin.
Qed.

Lemma ingest_run_ok evs w : ok w -> ok (run GetRelayHashFromBytes evs w).
Proof.
  revert w. induction evs as [|[e o] evs IH]; intros w Hi; [done|]. cbn [run]. pose proof (exec_spec e w Hi o) as H.
  destruct (exec GetRelayHashFromBytes e o w) as [[o' w'] u]. by apply IH.
Qed.
Lemma ingest_start_ok : ok start.
Proof.
  apply mgr_start_ok.
  - intros s h [(id & Hin)|[]]. by apply not_elem_of_nil in Hin.
  - intros s g h [(sb & Hin & _)|[(id & l1 & l2 & E & _)|[]]]; [by apply not_elem_of_nil in Hin|by destruct l1].
  - intros s g Hin. by apply not_elem_of_nil in Hin.
Qed.

(** C2. A relay acknowledged with its batch is in the tree of every root its
    session has stored, as long as the manager has not given the session up (its
    stored root could not be brought back). After any sequence of deliveries,
    flushes, unloads, seals, claims, deletions, exits and restarts, with any
    round trip failing before or after it took effect and the tree library
    returning errors or panicking anywhere: the live root of the session exists
    once a relay was counted with its batch, it and the claimed root name whole
    stored trees that hold every such relay, and the session's resident tree
    holds every such relay too, with every relay the running process
    acknowledged alone when it went into that tree. A relay acknowledged alone
    is under no stored root before the next checkpoint of its tree. *)
Theorem acknowledged_relays_are_stored evs sid :
  let w := run GetRelayHashFromBytes evs start in
  let stored := recs (iw_mgr w) sid in
  sid ∉ sw_lost (iw_mgr w) ->
  (forall h, counted (iw_log w) sid h -> rc_live stored <> None) /\
  (forall root, rc_live stored = Some root \/ rc_claimed stored = Some root ->
    isValidSMSTRoot root = true /\
    exists m, smt_tree (decoded (rc_nodes stored)) root m /\ forall h, counted (iw_log w) sid h -> is_Some (m !! h)) /\
  forall g t, resident (iw_mgr w) sid = Some g -> object (iw_mgr w) g = Some t ->
    exists m, smt_holds (t_trie t) (logical (t_store t) (rc_nodes stored)) m /\
      forall h, counted (iw_log w) sid h \/ alone (iw_log w) sid g h -> is_Some (m !! h).
Proof.
  intros w stored Hl. destruct (ingest_run_ok evs start ingest_start_ok) as [_ HS]. destruct (HS sid Hl) as ((_ & Hlive & Hlr & Hcr) & _ & Htr).
  split; [intros h Hh; eapply (Hlive h); by left|]. split.
  - intros root Hroot.
    assert (covers (fun h => counted (iw_log w) sid h \/ no_rel sid h) (rc_nodes stored) root) as (Hv & m & Ht & Hm) by (destruct Hroot; [by apply Hlr|by apply Hcr]).
    split; [done|]. exists m. split; [done|]. intros h Hh. apply Hm. by left.
  - intros g t Hr Ho. destruct (Htr g t Hr Ho) as (m & (_ & Hh & _) & Hm). exists m. split; [done|].
    intros h [?|?]; apply Hm; [left; by left|right; right; by left].
Qed.

(** C3. The root a claim is made of covers what was acknowledged: FlushTree,
    finishing a seal after any run, answers for a session the manager has not
    given up with the root of the tree it sealed; that tree holds every relay
    counted for the session with its batch, every relay the running process
    acknowledged alone when it went into that tree, and every relay the batch
    still holds of it; and a claimed root already stored is that root. *)
Theorem claim_root_covers_acknowledged evs sid g o o' v root :
  let w := run GetRelayHashFromBytes evs start in
  (sid, g) ∈ iw_waiting w ->
  FlushTree_finish sid g o (iw_mgr w) = (o', v, Ok root) ->
  sid ∉ sw_lost v ->
  exists t m, resident v sid = Some g /\ object v g = Some t /\ t_claimedRoot t = Some root /\ smt_root (t_trie t) = LOk root /\
    smt_holds (t_trie t) (logical (t_store t) (rc_nodes (recs v sid))) m /\
    (forall c, rc_claimed (recs v sid) = Some c -> c = root) /\
    forall h, counted (iw_log w) sid h \/ alone (iw_log w) sid g h \/ held (iw_sessions w) sid g h -> is_Some (m !! h).
Proof.
  intros w Hw E Hl. pose proof (ingest_run_ok evs start ingest_start_ok) as Hi. pose proof (FlushTree_finish_spec _ _ _ _ _ _ Hi Hw o) as HF. fold w in HF. rewrite E in HF.
  destruct HF as [[HB HS] Hroot]. destruct (Hroot root eq_refl) as (t & Ho & Hid & Hc). destruct (HS sid Hl) as (_ & Hwt & Htr).
  destruct (Hwt g Hw) as [Hr _]. destruct (Htr g t Hr Ho) as (m & (_ & Hh & Hcr & Hcl) & Hm). exists t, m. split_and!; auto.
  - intros c Ec. destruct (Hcl c Ec). congruence.
  - intros h [?|[?|?]]; apply Hm; [left; by left|right; right; by left|right; by left].
Qed.


(** C34. The manager's state stays well formed: after any run, the tree a session
    is mapped to is one of the manager's objects and is that session's, no two
    sessions share one, and generations do not exceed the counter that names the
    next tree. *)
Theorem manager_stays_well_formed evs :
  let w := iw_mgr (run GetRelayHashFromBytes evs start) in
  (forall sid g, resident w sid = Some g -> exists t, object w g = Some t /\ t_sessionID t = sid) /\
  (forall sid sid' g, resident w sid = Some g -> resident w sid' = Some g -> sid = sid') /\
  (forall g t, object w g = Some t -> g <= sw_gen w).
Proof.
  destruct (ingest_run_ok evs start ingest_start_ok) as [((Hr & Hg) & _) _]. cbn zeta. split_and!; [done| |done].
  intros sid sid' g H1 H2. destruct (Hr _ _ H1) as (t & Ht & <-), (Hr _ _ H2) as (t' & Ht' & <-). congruence.
Qed.
End Safety.
