(* ===== verification/IngestExamples.v ===== *)
(** * Runs of the ingestion

    A tree library small enough to run, with the laws of SMTLaws proved of it: at
    most fifteen leaves of one character each, the whole content in one node and
    in the root. An update with key "!" panics, a commit of a tree that holds "?"
    panics too. Over it, runs that meet the hypotheses of the theorems and runs
    that show what the ingestion does where it gives a relay up. *)

From S2P Require Import Prelude FaultMonad SessionState StoreSpec RelayCommit SmstStore SmstManager RelayBatch SmstLaws SmstSafety IngestSafety.
From Stdlib Require Import Ascii String.

Local Open Scope string_scope.
Local Open Scope Z_scope.
Local Open Scope list_scope.

Module Small.

Definition Leaf : Type := ascii * ascii * ascii.

Fixpoint pack (l : list Leaf) : string :=
  match l with
  | [] => EmptyString
  | (k, v, c) :: l => String k (String v (String c (pack l)))
  end.
Fixpoint unpack (n : nat) (s : string) : list Leaf :=
  match n, s with
  | S n, String k (String v (String c s)) => (k, v, c) :: unpack n s
  | _, _ => []
  end.
Fixpoint zeros (n : nat) : string := match n with O => "" | S n => String "000" (zeros n) end.

(** The count, the leaves and a filling: 48 bytes. *)
Definition root_of (l : list Leaf) : string := String (ascii_of_nat (List.length l)) (pack l +:+ zeros (47 - 3 * List.length l)).
Definition leaves_of (root : string) : list Leaf := match root with String c s => unpack (nat_of_ascii c) s | EmptyString => [] end.
Definition node_of (root : string) : string := String "000" root.

Fixpoint put (k v c : ascii) (l : list Leaf) : list Leaf :=
  match l with
  | [] => [(k, v, c)]
  | (k', v', c') :: l => if Ascii.eqb k k' then (k, v, c) :: l else (k', v', c') :: put k v c l
  end.

Definition weight (c : ascii) : Z := Z.of_nat (nat_of_ascii c).
Fixpoint map_of (l : list Leaf) : leaves :=
  match l with
  | [] => ∅
  | (k, v, c) :: l => <[String k "" := (String v "", weight c)]> (map_of l)
  end.

Inductive Trie := Lazy (root : string) | Full (l : list Leaf) (last : option string).

Definition one (s : string) : option ascii := match s with String c EmptyString => Some c | _ => None end.
Definition byte_of (n : Z) : option ascii := if (0 <=? n) && (n <? 256) then Some (ascii_of_nat (Z.to_nat n)) else None.

(** The leaves of a tree, read from its node when it is not in memory. *)
Definition load (get : string -> result string SmErr) (t : Trie) : result (list Leaf * option string) SmErr :=
  match t with
  | Full l last => Ok (l, last)
  | Lazy root => match get (node_of root) with Ok _ => Ok (leaves_of root, Some root) | Err e => Err e end
  end.

Definition update (get : string -> result string SmErr) (t : Trie) (k v : string) (n : Z) : Trie * LibResult unit :=
  if String.eqb k "!" then (Full [] None, LPanic)
  else match load get t with
       | Err e => (t, LErr e)
       | Ok (l, last) =>
           match one k, one v, byte_of n with
           | Some k, Some v, Some c => let l' := put k v c l in if Nat.leb (List.length l') 15 then (Full l' last, LOk tt) else (t, LErr plain)
           | _, _, _ => (t, LErr plain)
           end
       end.

Definition commit (t : Trie) : Trie * list NodeOp * LibResult unit :=
  match t with
  | Lazy root => (t, [], LOk tt)
  | Full l last =>
      if bool_decide (is_Some (map_of l !! "?")) then (t, [], LPanic)
      else if Nat.ltb 15 (List.length l) then (t, [], LErr plain)
      else
        let root := root_of l in
        (Full l (Some root), NSet (node_of root) (node_of root) :: match last with Some r => if String.eqb r root then [] else [NDel (node_of r)] | None => [] end, LOk tt)
  end.

Definition content (t : Trie) : list Leaf := match t with Lazy root => leaves_of root | Full l _ => l end.

#[export] Instance small_smt : SMT Trie := {|
  smt_new := Full [] None;
  smt_import root := LOk (Lazy root);
  smt_update := update;
  smt_commit := commit;
  smt_compact t := (t, LOk tt);
  smt_root t := LOk (match t with Lazy root => root | Full l _ => root_of l end);
  smt_count t := LOk (Z.of_nat (List.length (content t)));
  smt_sum t := LOk (foldr (fun '(_, _, c) n => weight c + n) 0 (content t))
|}.

(** ** The laws *)

Lemma unpack_pack l rest : unpack (List.length l) (pack l +:+ rest) = l.
Proof. induction l as [|[[k v] c] l IH]; [by destruct rest|]. apply (f_equal (cons (k, v, c))), IH. Qed.
Lemma leaves_root l : (List.length l <= 15)%nat -> leaves_of (root_of l) = l.
Proof. intros H. unfold leaves_of, root_of. rewrite nat_ascii_embedding by lia. apply unpack_pack. Qed.

Lemma map_put k v c l : map_of (put k v c l) = <[String k "" := (String v "", weight c)]> (map_of l).
Proof.
  induction l as [|[[k' v'] c'] l IH]; [done|]. cbn [put]. destruct (Ascii.eqb_spec k k') as [<-|Hne]; cbn [map_of].
  - by rewrite insert_insert_eq.
  - rewrite IH, insert_insert_ne; [done|]. congruence.
Qed.

Definition stored (N : gmap string string) (root : string) (m : leaves) : Prop :=
  exists l, (List.length l <= 15)%nat /\ root = root_of l /\ m = map_of l /\ N !! node_of root = Some (node_of root).
Definition holds (t : Trie) (N : gmap string string) (m : leaves) : Prop :=
  match t with Lazy root => stored N root m | Full l _ => (List.length l <= 15)%nat /\ m = map_of l end.

Lemma stored_mono N N' r m : N ⊆ N' -> stored N r m -> stored N' r m.
Proof. intros HN (l & ? & ? & ? & Hl). exists l. split_and!; try done. by eapply lookup_weaken. Qed.

Lemma load_holds get t N m l last : holds t N m -> load get t = Ok (l, last) -> (List.length l <= 15)%nat /\ m = map_of l.
Proof.
  destruct t as [root|l0 last0]; cbn [holds load]; [|by intros ? [= -> ->]]. intros (l0 & Hl & -> & -> & _). destruct (get _); [|done]. intros E. apply (f_equal (fun x => match x with Ok y => fst y | Err _ => [] end)) in E. cbn [fst] in E. by rewrite leaves_root in E; [subst|].
Qed.

Lemma byte_weight n c : byte_of n = Some c -> weight c = n.
Proof.
  unfold byte_of. destruct (Z.leb_spec 0 n), (Z.ltb_spec n 256); cbn; try done. intros [= <-]. unfold weight. rewrite nat_ascii_embedding by lia. lia.
Qed.
Lemma one_string s c : one s = Some c -> s = String c "".
Proof. destruct s as [|c' [|]]; try done. by intros [= ->]. Qed.

Lemma update_law get t N m k v n t' res : holds t N m -> (forall f x y, N !! f = Some x -> get f = Ok y -> y = x) -> update get t k v n = (t', res) ->
  match res with LOk _ => holds t' N (<[k := (v, n)]> m) | LErr _ => holds t' N m | LPanic => True end.
Proof.
  intros Ht _. unfold update. destruct (String.eqb k "!"); [by intros [= <- <-]|]. destruct (load get t) as [[l last]|e] eqn:El; [|by intros [= <- <-]].
  destruct (load_holds _ _ _ _ _ _ Ht El) as [Hl ->]. destruct (one k) as [k'|] eqn:Ek; [|by intros [= <- <-]]. destruct (one v) as [v'|] eqn:Ev; [|by intros [= <- <-]].
  destruct (byte_of n) as [c|] eqn:En; [|by intros [= <- <-]]. destruct (Nat.leb_spec (List.length (put k' v' c l)) 15); [|by intros [= <- <-]].
  intros [= <- <-]. split; [done|]. rewrite map_put. apply one_string in Ek as ->, Ev as ->. by apply byte_weight in En as ->.
Qed.

Lemma root_length l : (List.length l <= 15)%nat -> String.length (root_of l) = 48%nat.
Proof.
  intros Hl. assert (String.length (pack l) = (3 * List.length l)%nat) as Hp by (clear; induction l as [|[[k v] c] l IH]; [done|]; cbn [pack String.length List.length]; lia).
  assert (forall n, String.length (zeros n) = n) as Hz by (clear; induction n as [|n IH]; [done|]; cbn [zeros String.length]; lia).
  unfold root_of. cbn [String.length]. rewrite str_length_app, Hp, Hz. lia.
Qed.
Lemma node_of_inj r r' : node_of r = node_of r' -> r = r'.
Proof. by intros [= ->]. Qed.

Lemma commit_law t N m t' ops res : holds t N m -> commit t = (t', ops, res) ->
  match res with
  | LOk _ => holds t' (run_ops ops N) m /\ smt_root t' = smt_root t /\ forall r, smt_root t = LOk r -> stored (run_ops ops N) r m
  | LErr _ => holds t' (run_ops ops N) m /\ smt_root t' = smt_root t /\ forall f, NDel f ∉ ops
  | LPanic => True
  end.
Proof.
  destruct t as [root|l last]; cbn [commit holds]; [intros Hs [= <- <- <-]; split_and!; try done; by intros r [= <-]|].
  intros [Hl ->]. case_bool_decide; [by intros [= <- <- <-]|]. rewrite (proj2 (Nat.ltb_ge 15 (List.length l)) Hl). intros [= <- <- <-]. split_and!; try done. intros r E. injection E as <-.
  exists l. split_and!; try done. destruct last as [p|]; [|apply lookup_insert_eq]. destruct (String.eqb_spec p (root_of l)) as [->|Hne].
  - apply lookup_insert_eq.
  - unfold run_ops. cbn [foldl]. rewrite lookup_delete_ne; [apply lookup_insert_eq|]. intros E. by apply Hne, node_of_inj.
Qed.

Lemma commit_sets t t' ops res : commit t = (t', ops, res) -> forall f v, NSet f v ∈ ops -> f = v /\ smt_node v.
Proof.
  destruct t as [root|l last]; cbn [commit]; [intros [= <- <- <-] f v H; by apply not_elem_of_nil in H|].
  case_bool_decide; [intros [= <- <- <-] f v H'; by apply not_elem_of_nil in H'|]. destruct (Nat.ltb_spec 15 (List.length l)) as [Hl|Hl]; [intros [= <- <- <-] f v H'; by apply not_elem_of_nil in H'|]. intros [= <- <- <-] f v [[= -> ->]|H']%elem_of_cons.
  - split; [done|]. exists "000"%char, (root_of l). split_and!; [done|vm_compute; lia|]. change (String.length (node_of (root_of l))) with (S (String.length (root_of l))). rewrite root_length by lia. vm_compute. discriminate.
  - destruct last as [p|]; [|by apply not_elem_of_nil in H']. destruct (String.eqb p _); [by apply not_elem_of_nil in H'|]. by apply list_elem_of_singleton in H'.
Qed.

#[export] Instance small_laws : SMTLaws Trie.
Proof.
  refine {| smt_digest := fun v => v; smt_holds := holds; smt_tree := stored |}.
  - intros [root|l last] N N' m HN; [by apply stored_mono|done].
  - intros r N N' m. apply stored_mono.
  - intros N. cbn. split; [lia|done].
  - intros N r m Hs. exists (Lazy r). done.
  - apply update_law.
  - apply commit_sets.
  - intros t N m t' ops res Ht _. by apply commit_law.
  - intros t N m t' res Ht [= <- <-]. done.
Defined.

(** Nodes as they are. *)
#[export] Instance no_codec : NodeCodec := None.
#[export] Instance no_codec_laws : NodeCodecLaws.
Proof. by split. Qed.
End Small.

(** ** Runs *)

Module Runs.
Import Small.

Definition ses : relaySession := mkRelaySession "s" "supplier" "service" "app" 1 4.
Definition env : RelayEnv := mkRelayEnv true true 0 false false true None false.
Definition msg (id h : string) : StreamMessage := mkMsg id false ses h (Some "x") 5.
Definition relay (id h : string) : Event * Oracle := (EvRelay env (msg id h), all_ok).
(** One the batch is not there for. *)
Definition unbatched (id h : string) : Event * Oracle := (EvRelay (mkRelayEnv true false 0 false false true None false) (msg id h), all_ok).
Definition flush : Event * Oracle := (EvFlushAll [], all_ok).
Definition restart : Event * Oracle := (EvRestart, all_ok).
Definition ingest (evs : list (Event * Oracle)) : Ingest (Trie := Trie) := run (fun b => b) evs start.

Definition lost_sessions (evs : list (Event * Oracle)) : list string := elements (sw_lost (iw_mgr (ingest evs))).

(** A relay; a flush whose write of the nodes fails, the next one works; another
    relay, whose acknowledgement is made and its answer lost; a restart; a third
    relay, flushed, a fourth acknowledged alone, and the claim sealed. *)
Definition busy : list (Event * Oracle) :=
  [relay "1" "a"; (EvFlushAll [], nth_trip 1 (oc_fail false)); flush; relay "2" "b"; (EvFlushAll [], nth_trip 4 (oc_fail true)); restart; relay "3" "c"; flush; unbatched "4" "d"; (EvSeal "s", all_ok)].

Lemma kept_session evs sid : lost_sessions evs = [] -> sid ∉ sw_lost (iw_mgr (ingest evs)).
Proof. unfold lost_sessions. intros E. rewrite <-elem_of_elements, E. apply not_elem_of_nil. Qed.
Lemma triple_eq {A B C} (p : A * B * C) c : snd p = c -> p = (fst (fst p), snd (fst p), c).
Proof. by destruct p as [[a b] c']; intros <-. Qed.

Lemma busy_log : iw_log (ingest busy) = [SAck "4" (CountedAlone "s" 1 "d"); SAck "3" (Counted "s" "c"); SRestart; SAck "2" (Counted "s" "b"); SAck "1" (Counted "s" "a")].
Proof. vm_compute. reflexivity. Qed.
Lemma busy_counted h : h ∈ ["a"; "b"; "c"] -> counted (iw_log (ingest busy)) "s" h.
Proof. rewrite busy_log. unfold counted. rewrite !elem_of_cons, elem_of_nil. intros [->|[->|[->|[]]]]; [exists "1"|exists "2"|exists "3"]; rewrite !elem_of_cons; tauto. Qed.

Lemma busy_alone : alone (iw_log (ingest busy)) "s" 1 "d".
Proof. rewrite busy_log. eexists "4", [], _. split; [reflexivity|apply not_elem_of_nil]. Qed.

Lemma busy_kept : "s" ∉ sw_lost (iw_mgr (ingest busy)).
Proof. apply kept_session. vm_compute. reflexivity. Qed.

Lemma busy_resident : exists t, resident (iw_mgr (ingest busy)) "s" = Some 1 /\ object (iw_mgr (ingest busy)) 1 = Some t /\ t_sessionID t = "s".
Proof. eexists. split_and!; vm_compute; reflexivity. Qed.

Lemma acknowledged_relays_are_stored_witness :
  (exists m, stored (decoded (rc_nodes (recs (iw_mgr (ingest busy)) "s"))) (default "" (rc_live (recs (iw_mgr (ingest busy)) "s"))) m /\ forall h, h ∈ ["a"; "b"; "c"] -> is_Some (m !! h)) /\
  exists t m, object (iw_mgr (ingest busy)) 1 = Some t /\ holds (t_trie t) (logical (t_store t) (rc_nodes (recs (iw_mgr (ingest busy)) "s"))) m /\ forall h, h ∈ ["a"; "b"; "c"] \/ h = "d" -> is_Some (m !! h).
Proof.
  pose proof (acknowledged_relays_are_stored (fun b => b) busy "s") as H. change (run (fun b => b) busy start) with (ingest busy) in H. pose proof busy_kept as Hk. pose proof busy_counted as Hc.
  pose proof busy_alone as Ha. pose proof busy_resident as Hr. generalize dependent (ingest busy). intros w H Hk Hc Ha Hr. destruct (H Hk) as (Hlive & Hroot & Htree). split.
  - destruct (rc_live (recs (iw_mgr w) "s")) as [root|] eqn:E; [|by destruct (Hlive "a"); [apply Hc; left|]].
    destruct (Hroot root) as (_ & m & Ht & Hm); [by left|]. exists m. split; [exact Ht|]. intros h Hh. by apply Hm, Hc.
  - destruct Hr as (t & Hr & Ho & _). destruct (Htree 1 t Hr Ho) as (m & Hh & Hm). exists t, m. split; [exact Ho|]. split; [exact Hh|]. intros h [Hin| ->]; apply Hm; [left; by apply Hc|by right].
Defined.

Definition claim : Oracle * Manager (Trie := Trie) * result string SmErr := FlushTree_finish "s" 1 all_ok (iw_mgr (ingest busy)).
Definition claimed_root : string := root_of [("a"%char, "x"%char, ascii_of_nat 5); ("b"%char, "x"%char, ascii_of_nat 5); ("c"%char, "x"%char, ascii_of_nat 5); ("d"%char, "x"%char, ascii_of_nat 5)].
Lemma claim_is : claim = (fst (fst claim), snd (fst claim), Ok claimed_root).
Proof. apply triple_eq. vm_compute. reflexivity. Qed.
Lemma claim_kept : "s" ∉ sw_lost (snd (fst claim)).
Proof. assert (elements (sw_lost (snd (fst claim))) = []) as E by (vm_compute; reflexivity). rewrite <-elem_of_elements, E. apply not_elem_of_nil. Qed.
Lemma busy_waiting : ("s", 1) ∈ iw_waiting (ingest busy).
Proof. assert (iw_waiting (ingest busy) = [("s", 1)]) as -> by (vm_compute; reflexivity). left. Qed.

Lemma claim_root_covers_acknowledged_witness : exists m : leaves, snd claim = Ok claimed_root /\ (forall h, h ∈ ["a"; "b"; "c"] \/ h = "d" -> is_Some (m !! h)).
Proof.
  destruct (claim_root_covers_acknowledged (fun b => b) busy "s" 1 all_ok (fst (fst claim)) (snd (fst claim)) claimed_root busy_waiting claim_is claim_kept) as (t & m & H).
  exists m. split; [by rewrite claim_is|]. destruct H as (_ & _ & _ & _ & _ & _ & Hm). intros h [Hh| ->]; apply Hm; [left; exact (busy_counted h Hh)|right; left; exact busy_alone].
Defined.

Definition takeover : Oracle * Manager (Trie := Trie) * Z := GetOrCreateTree "s" all_ok (newSMSTManager (sw_store (iw_mgr (ingest busy))) (sw_lost (iw_mgr (ingest busy)))).
Lemma takeover_is : takeover = (fst (fst takeover), snd (fst takeover), snd takeover).
Proof. by apply triple_eq. Qed.
Lemma takeover_kept : "s" ∉ sw_lost (snd (fst takeover)).
Proof. assert (elements (sw_lost (snd (fst takeover))) = []) as E by (vm_compute; reflexivity). rewrite <-elem_of_elements, E. apply not_elem_of_nil. Qed.


Lemma manager_stays_well_formed_witness :
  exists t, object (iw_mgr (ingest busy)) 1 = Some t /\ t_sessionID t = "s".
Proof.
  pose proof (manager_stays_well_formed (fun b => b) busy) as H. change (run (fun b => b) busy start) with (ingest busy) in H. pose proof busy_resident as Hr.
  generalize dependent (ingest busy). intros w H Hr. destruct H as (H & _ & _). destruct Hr as (_ & Hr & _). exact (H "s" 1 Hr).
Defined.

(** *** Where an acknowledged relay is lost *)

(** The process restarts after "a" was counted, and the next delivery cannot read
    the live root: the tree starts empty, and its checkpoint stores a root that
    does not hold "a". *)
Definition unread : list (Event * Oracle) := [relay "1" "a"; flush; restart; (EvRelay env (msg "2" "b"), nth_trip 2 (oc_fail false)); flush].

Lemma unread_root_forgets :
  iw_log (ingest unread) = [SAck "2" (Counted "s" "b"); SRestart; SAck "1" (Counted "s" "a")] /\
  rc_live (recs (iw_mgr (ingest unread)) "s") = Some (root_of [("b"%char, "x"%char, ascii_of_nat 5)]) /\
  lost_sessions unread = ["s"].
Proof. split_and!; vm_compute; reflexivity. Qed.

(** Without the batch a relay is acknowledged once its nodes are stored, although
    no stored root covers them: a restart comes too early. *)
Definition early : list (Event * Oracle) := [unbatched "1" "a"; restart].

Lemma alone_before_root :
  iw_log (ingest early) = [SRestart; SAck "1" (CountedAlone "s" 1 "a")] /\ rc_live (recs (iw_mgr (ingest early)) "s") = None /\ lost_sessions early = [].
Proof. split_and!; vm_compute; reflexivity. Qed.

(** A panic of the tree evicts it; the relays it held are handed back, and the
    next delivery resumes from the stored root. *)
Definition panicked : list (Event * Oracle) := [relay "1" "a"; flush; relay "2" "b"; relay "3" "!"; flush; relay "2" "b"; flush].

Lemma panicked_resumes :
  iw_log (ingest panicked) = [SAck "2" (Counted "s" "b"); SAck "3" Rejected; SRelease "2"; SAck "1" (Counted "s" "a")] /\ lost_sessions panicked = [].
Proof. split_and!; vm_compute; reflexivity. Qed.
End Runs.
