(* ===== verification/ColdTree.v ===== *)
(** * Claimed trees as their leaves (miner/smst_cold_compaction.go)

    A claimed tree is only read for one proof, so its leaves are stored as one
    blob and its nodes are deleted: the blob's layout, the compaction in its four
    phases ([coldReady], [coldRead], [coldStore], [coldDrop]), its retries, and
    the proof made from nodes or from leaves (prove of miner/smst_manager.go).

    The tree a rebuild makes inserts leaves at their stored paths: a second
    instance of the tree library, over a store in memory. Waiting for memory
    (RebuildAdmission) either lets the work start or fails. *)

From S2P Require Import Prelude FaultMonad SessionState StoreSpec PebbleModel MinedRelay SmstStore SmstManager.
From Stdlib Require Import Ascii String.
From stdpp Require Import sorting.

Local Open Scope string_scope.
Local Open Scope Z_scope.

(** ** The blob *)

Definition coldLeavesVersion : Z := 1.
Definition coldLeavesCodecZstd : Z := 1.
Definition coldLeavesHeaderLen : nat := 2 + 8 + 8 + SMSTRootLen.
Definition coldLeafPathLen : nat := 32.
Definition coldLeafMetaLen : nat := 16.
Definition coldCompactionAttempts : nat := 10.

Record coldLeaf := mkLeaf { cl_path : string; cl_value : string; cl_weight : Z }.

(** Leaves by path. *)
Definition leaf_le (a b : coldLeaf) : Prop := bytes_le (cl_path a) (cl_path b).
#[export] Instance leaf_le_dec : RelDecision leaf_le.
Proof. intros a b. unfold leaf_le. apply _. Defined.

(** [binary.AppendUvarint] and [binary.Uvarint]: the value and what follows it. *)
Definition AppendUvarint (v : Z) : string := varintLoop 10 (wrapu64 v).
Fixpoint uvarintLoop (i x shift : Z) (buf : string) : option (Z * string) :=
  match buf with
  | EmptyString => None
  | String c rest =>
      let b := code c in
      if i =? 10 then None
      else if b <? 128 then if (i =? 9) && (1 <? b) then None else Some (Z.lor x (wrapu64 (Z.shiftl b shift)), rest)
      else uvarintLoop (i + 1) (Z.lor x (wrapu64 (Z.shiftl (Z.land b 127) shift))) (shift + 7) rest
  end.
Definition Uvarint (buf : string) : option (Z * string) := uvarintLoop 0 0 0 buf.

Definition putLeaf (l : coldLeaf) : string := AppendUvarint (slen (cl_value l)) +:+ (cl_path l +:+ (PutUint64 (cl_weight l) +:+ cl_value l)).
Fixpoint putLeaves (ls : list coldLeaf) : string := match ls with [] => "" | l :: ls => putLeaf l +:+ putLeaves ls end.

Section Blob.
Context `{NC : !NodeCodec}.
(** Count and Sum of a root of the right length (the smt library's). *)
Variables (smt_Count smt_Sum : string -> Z).

Definition encodeColdLeaves (root : string) (leaves : list coldLeaf) : option string :=
  if negb (Nat.eqb (String.length root) SMSTRootLen) then None
  else match coldCodec with
       | None => None
       | Some z =>
           let raw := putLeaves (merge_sort leaf_le leaves) in
           Some (String (byte_ascii coldLeavesVersion) (String (byte_ascii coldLeavesCodecZstd)
             (PutUint64 (smt_Count root) +:+ (PutUint64 (smt_Sum root) +:+ (root +:+ zstd_encode z raw)))))
       end.

(** The leaves of a frame of [total] bytes, from the current position. *)
Fixpoint getLeaves (fuel : nat) (total : Z) (raw : string) : option (list coldLeaf) :=
  match raw with
  | EmptyString => Some []
  | _ =>
      match fuel with
      | O => None
      | S fuel =>
          match Uvarint raw with
          | None => None
          | Some (n, rest) =>
              if (total <? n) || (slen rest <? Z.of_nat coldLeafPathLen + 8 + n) then None
              else
                let path := str_take coldLeafPathLen rest in
                let weight := Uint64 (str_take 8 (str_drop coldLeafPathLen rest)) in
                let tail := str_drop 8 (str_drop coldLeafPathLen rest) in
                let value := str_take (Z.to_nat n) tail in
                ls ← getLeaves fuel total (str_drop (Z.to_nat n) tail);
                Some (mkLeaf path value weight :: ls)
          end
      end
  end.

Definition decodeColdLeaves (blob : string) : option (string * list coldLeaf) :=
  match blob with
  | String v (String c fields) =>
      if Nat.ltb (String.length blob) coldLeavesHeaderLen then None
      else if negb (code v =? coldLeavesVersion) then None
      else if negb (code c =? coldLeavesCodecZstd) then None
      else
        let count := Uint64 (str_take 8 fields) in
        let sum := Uint64 (str_take 8 (str_drop 8 fields)) in
        let root := str_take SMSTRootLen (str_drop 8 (str_drop 8 fields)) in
        let frame := str_drop SMSTRootLen (str_drop 8 (str_drop 8 fields)) in
        if negb (smt_Count root =? count) then None
        else if negb (smt_Sum root =? sum) then None
        else
          z ← coldCodec;
          raw ← zstd_decode z frame;
          leaves ← getLeaves (String.length raw) (slen raw) raw;
          if Z.of_nat (List.length leaves) =? count then Some (root, leaves) else None
  | _ => None
  end.

(** A leaf node: its kind, path, value, weight and count; other nodes are
    skipped. *)
Definition leafOfNode (node : string) : option (option coldLeaf) :=
  match node with
  | EmptyString => Some None
  | String kind body =>
      if negb (code kind =? 0) then Some None
      else if Nat.ltb (String.length node) (1 + coldLeafPathLen + coldLeafMetaLen) then None
      else
        let rest := str_drop coldLeafPathLen body in
        let n := (String.length rest - coldLeafMetaLen)%nat in
        let meta := str_drop n rest in
        if negb (Uint64 (str_drop 8 meta) =? 1) then None
        else Some (Some (mkLeaf (str_take coldLeafPathLen body) (str_take n rest) (Uint64 (str_take 8 meta))))
  end.

(** [readColdLeaves] over what the scan hands over, each field once. *)
Fixpoint collectLeaves (nodes : list (string * string)) : option (list coldLeaf) :=
  match nodes with
  | [] => Some []
  | (_, stored) :: nodes =>
      node ← decompressNode stored;
      found ← leafOfNode node;
      rest ← collectLeaves nodes;
      Some (match found with Some l => l :: rest | None => rest end)
  end.
End Blob.

(** ** Results *)

Inductive coldCompactionResult :=
| coldCompacted
| coldAlreadyCompacted
| coldNoTree
| coldNotReady
| coldReadFailed
| coldSetFailed
| coldDeleteFailed
| coldMismatch.

#[export] Instance coldCompactionResult_eq_dec : EqDecision coldCompactionResult.
Proof. solve_decision. Defined.

Definition retryable (r : coldCompactionResult) : bool :=
  match r with coldNotReady | coldReadFailed | coldSetFailed | coldDeleteFailed => true | _ => false end.

Definition set_leaves (x : option string) (r : SessionRecs) : SessionRecs := mkRecs (rc_nodes r) (rc_claimed r) (rc_live r) (rc_stats r) x.

(** [unlinkNodesIfBlobScript] *)
Definition deleteNodesIfLeaves (leaves : string) (r : SessionRecs) : SessionRecs * bool :=
  if bool_decide (rc_leaves r = Some leaves) then (set_nodes ∅ r, true) else (r, false).

(** Proofs are the library's. *)
Class Prover (Trie : Type) := {
  smt_proof : Type;
  smt_prove : (string -> result string SmErr) -> Trie -> string -> bool -> LibResult smt_proof;
  marshalClosestProof : smt_proof -> result string SmErr
}.

Section Cold.
Context {Trie : Type} `{LIB : !SMT Trie} `{PR : !Prover Trie}.
Context {ColdTrie : Type} `{CLIB : !SMT ColdTrie}.
Context `{NC : !NodeCodec}.
Variables (smt_Count smt_Sum : string -> Z).
Abbreviation Manager := (Manager (Trie := Trie)).
Abbreviation redisSMST := (redisSMST (Trie := Trie)).
Abbreviation Op := (M Manager).

(** ** Rebuilding *)

Fixpoint insertLeaves (t : ColdTrie) (leaves : list coldLeaf) : ColdTrie * LibResult unit :=
  match leaves with
  | [] => (t, LOk tt)
  | l :: leaves =>
      match smt_update (fun _ => Err plain) t (cl_path l) (cl_value l) (cl_weight l) with
      | (t, LOk _) => insertLeaves t leaves
      | (t, r) => (t, r)
      end
  end.

(** [rebuildColdTree]: the nodes and the root. *)
Definition rebuildColdTree (leaves : list coldLeaf) : result (gmap string string * string) SmErr :=
  runSMSTSafely
    (match insertLeaves smt_new leaves with
     | (_, LErr e) => LErr e
     | (_, LPanic) => LPanic
     | (t, LOk _) =>
         match smt_commit t with
         | (_, _, LErr e) => LErr e
         | (_, _, LPanic) => LPanic
         | (t, ops, LOk _) =>
             match smt_root t with
             | LOk root => LOk (run_ops ops ∅, root)
             | LErr e => LErr e
             | LPanic => LPanic
             end
         end
     end).

(** [verifyColdBlob] *)
Definition verifyColdBlob (blob claimedRoot : string) : bool :=
  match decodeColdLeaves smt_Count smt_Sum blob with
  | None => false
  | Some (blobRoot, leaves) =>
      String.eqb blobRoot claimedRoot &&
      match rebuildColdTree leaves with Ok (_, rebuilt) => String.eqb rebuilt claimedRoot | Err _ => false end
  end.

(** ** Compaction *)

(** Before the wait for memory: the claimed root, and whether there are nodes. *)
Definition coldReady (sid : string) : Op (result string coldCompactionResult) :=
  claimed ← fetch sid rc_claimed;
  match claimed with
  | Err _ => mret (Err coldReadFailed)
  | Ok None => mret (Err coldNotReady)
  | Ok (Some root) =>
      if negb (isValidSMSTRoot root) then mret (Err coldNotReady)
      else
        present ← fetch sid (fun r => bool_decide (rc_nodes r <> ∅));
        match present with
        | Err _ => mret (Err coldReadFailed)
        | Ok true => mret (Ok root)
        | Ok false =>
            blobs ← fetch sid (fun r => bool_decide (rc_leaves r <> None));
            mret (Err (match blobs with Err _ => coldReadFailed | Ok true => coldAlreadyCompacted | Ok false => coldNoTree end))
        end
  end.

(** The wait, then the leaves. *)
Definition coldRead (sid : string) : Op (result (list coldLeaf) coldCompactionResult) :=
  admitted ← ask;
  match oc_err admitted with
  | Some _ => mret (Err coldReadFailed)
  | None =>
      nodes ← fetch sid rc_nodes;
      mret (match nodes with
            | Err _ => Err coldReadFailed
            | Ok nodes => match collectLeaves (map_to_list nodes) with Some ls => Ok ls | None => Err coldReadFailed end
            end)
  end.

(** The blob stored, read back and verified; one that does not rebuild the
    claimed root is removed. *)
Definition coldStore (sid root : string) (leaves : list coldLeaf) : Op (result string coldCompactionResult) :=
  match encodeColdLeaves smt_Count smt_Sum root leaves with
  | None => mret (Err coldReadFailed)
  | Some blob =>
      put ← write sid (set_leaves (Some blob));
      match put with
      | Err _ => mret (Err coldSetFailed)
      | Ok _ =>
          stored ← fetch sid rc_leaves;
          match stored with
          | Ok (Some stored) =>
              if verifyColdBlob stored root then mret (Ok stored)
              else write sid (set_leaves None);; mret (Err coldMismatch)
          | _ => mret (Err coldReadFailed)
          end
      end
  end.

(** The nodes deleted while the blob is the one verified, and the resident tree
    dropped. *)
Definition coldDrop (sid stored : string) : Op coldCompactionResult :=
  deleted ← at_store sid (deleteNodesIfLeaves stored);
  match deleted with
  | Err _ => mret coldDeleteFailed
  | Ok false => mret coldMismatch
  | Ok true => modify (fun w => upd_trees (delete sid (sw_trees w)) w);; mret coldCompacted
  end.

Definition CompactColdTree (sid : string) : Op coldCompactionResult :=
  ready ← coldReady sid;
  match ready with
  | Err r => mret r
  | Ok root =>
      read ← coldRead sid;
      match read with
      | Err r => mret r
      | Ok leaves =>
          stored ← coldStore sid root leaves;
          match stored with
          | Err r => mret r
          | Ok stored => coldDrop sid stored
          end
      end
  end.

(** [submitColdCompaction] with its retries; [closed] and [now] at each attempt. *)
Fixpoint submitColdCompaction (fuel : nat) (closed : nat -> bool) (now : nat -> Z) (sid : string) (attempt : nat) : Op (list coldCompactionResult) :=
  match fuel with
  | O => mret []
  | S fuel =>
      stop ← gets (fun w => closed attempt || SessionDeleted (now attempt) sid w);
      if (stop : bool) then mret []
      else
        r ← CompactColdTree sid;
        if negb (retryable r) || Nat.leb coldCompactionAttempts attempt then mret [r]
        else rest ← submitColdCompaction fuel closed now sid (S attempt); mret (r :: rest)
  end.
Definition ScheduleColdCompaction (closed : nat -> bool) (now : nat -> Z) (sid : string) : Op (list coldCompactionResult) :=
  submitColdCompaction coldCompactionAttempts closed now sid 1.

(** ** Proofs *)

(** [proveFromLeaves]. The import of a root of the right length does not panic. *)
Definition proveFromLeaves (sid claimedRoot seed : string) (weighted : bool) : Op (result string SmErr) :=
  head ← fetch sid rc_leaves;
  match head with
  | Err e => mret (Err (wire e))
  | Ok _ =>
      admitted ← ask;
      match oc_err admitted with
      | Some e => mret (Err (wire e))
      | None =>
          blob ← fetch sid rc_leaves;
          mret (match blob with
                | Err e => Err (wire e)
                | Ok None => Err plain
                | Ok (Some blob) =>
                    match decodeColdLeaves smt_Count smt_Sum blob with
                    | None => Err plain
                    | Some (_, leaves) =>
                        match rebuildColdTree leaves with
                        | Err e => Err e
                        | Ok (nodes, rebuilt) =>
                            if negb (String.eqb rebuilt claimedRoot) then Err plain
                            else
                              match runSMSTSafely (smt_import claimedRoot) with
                              | Err e => Err e
                              | Ok trie =>
                                  match runSMSTSafely (smt_prove (fun f => match nodes !! f with Some v => Ok v | None => Err plain end) trie seed weighted) with
                                  | Err e => Err e
                                  | Ok proof => marshalClosestProof proof
                                  end
                              end
                        end
                    end
                end)
      end
  end.

(** [coldTreeCompacted] *)
Definition coldTreeCompacted (sid : string) : Op (result bool WireErr) :=
  fetch sid (fun r => bool_decide (rc_leaves r <> None) && bool_decide (rc_nodes r = ∅)).

(** The walk of a resident tree. *)
Definition proveResident (sid seed : string) (weighted : bool) (t : redisSMST) (root : string) : Op (result string SmErr) :=
  match runSMSTSafely (smt_root (t_trie t)) with
  | Err e => mret (Err e)
  | Ok current =>
      if negb (String.eqb current root) then mret (Err plain)
      else
        nodes ← gets (fun w => rc_nodes (recs w sid));
        out ← ask;
        match runSMSTSafely (smt_prove (ns_Get (t_store t) nodes (oc_reads out)) (t_trie t) seed weighted) with
        | Ok proof => mret (marshalClosestProof proof)
        | Err e =>
            if isSMSTCorruption e then
              again ← coldTreeCompacted sid;
              match again with Ok true => proveFromLeaves sid root seed weighted | _ => mret (Err e) end
            else mret (Err e)
        end
  end.

(** [prove] *)
Definition prove (sid seed : string) (weighted : bool) : Op (result string SmErr) :=
  guarded sid (
    found ← gets (fun w => resident w sid);
    loaded ← match found with Some g => mret (Ok g) | None => loadTreeFromRedis sid end;
    match loaded with
    | Err LoadAbsent => mret (Err plain)
    | Err (LoadUnreadable e) => mret (Err e)
    | Ok g =>
        t ← gets (fun w => object w g);
        match t ≫= t_claimedRoot, t with
        | Some root, Some t =>
            compacted ← coldTreeCompacted sid;
            match compacted with
            | Err e => mret (Err (wire e))
            | Ok true => proveFromLeaves sid root seed weighted
            | Ok false => proveResident sid seed weighted t root
            end
        | _, _ => mret (Err plain)
        end
    end).
End Cold.
