(* ===== verification/ColdSafety.v ===== *)
(** * A claimed tree survives its compaction

    The blob of leaves reads back as it was written; whatever fails on the way,
    a compaction either leaves the nodes as they were or leaves a blob that was
    rebuilt to the claimed root; a compacted tree is proved from that rebuild;
    and no proof is made on a tree of another root. *)

From S2P Require Import Prelude FaultMonad SessionState StoreSpec PebbleModel MinedRelay SmstStore SmstManager SmstLaws SmstSafety ColdTree.
From Stdlib Require Import Ascii String.
From stdpp Require Import sorting.

Local Open Scope string_scope.
Local Open Scope Z_scope.

(** ** The blob *)

Lemma uvarint_loop fuel v i x rest :
  0 <= i < 10 -> 0 <= x < 2 ^ (7 * i) -> 0 <= v -> v * 2 ^ (7 * i) < 2 ^ 64 -> v < 2 ^ (7 * Z.of_nat fuel) -> (0 < fuel)%nat ->
  uvarintLoop i x (7 * i) (varintLoop fuel v +:+ rest) = Some (x + v * 2 ^ (7 * i), rest).
Proof.
  revert v i x. induction fuel as [|fuel IH]; intros v i x Hi Hx Hv Hfit Hfuel Hpos; [lia|].
  assert (0 < 2 ^ (7 * i)) as Hp by (apply Z.pow_pos_nonneg; lia). cbn [varintLoop].
  destruct (Z.leb_spec 128 v) as [Hbig|Hsmall].
  - rewrite low_byte by done. pose proof (Z.mod_pos_bound v 128 ltac:(lia)) as Hm.
    pose proof (Z.div_mod v 128 ltac:(lia)) as Hdm. assert (0 < v / 128) as Hd by (apply Z.div_str_pos; lia).
    rewrite str_app_cons. cbn [uvarintLoop]. cbv zeta. rewrite code_byte by lia. rewrite (proj2 (Z.eqb_neq i 10)) by lia. rewrite (proj2 (Z.ltb_ge _ 128)) by lia.
    assert (Z.land (v mod 128 + 128) 127 = v mod 128) as ->.
    { change 127 with (Z.ones 7). rewrite Z.land_ones by lia. change (2 ^ 7) with 128.
      rewrite <- (Z.mul_1_l 128) at 2. rewrite Z.mod_add by lia. by apply Z.mod_small. }
    assert (2 ^ (7 * (i + 1)) = 128 * 2 ^ (7 * i)) as E by (replace (7 * (i + 1)) with (7 * i + 7) by lia; rewrite Z.pow_add_r by lia; change (2 ^ 7) with 128; lia).
    assert (i + 1 < 10) as Hi1.
    { assert (7 * (i + 1) < 64); [|lia]. apply (Z.pow_lt_mono_r_iff 2); [lia|lia|]. rewrite E. nia. }
    assert (v mod 128 * 2 ^ (7 * i) < 2 ^ 64) by nia.
    rewrite wrapu64_id by (rewrite Z.shiftl_mul_pow2 by lia; unfold in_uint64, uint64_max; nia). rewrite lor_shift by lia.
    replace (7 * i + 7) with (7 * (i + 1)) by lia. rewrite Z.shiftr_div_pow2 by lia. change (2 ^ 7) with 128.
    rewrite IH; [f_equal; f_equal; rewrite E; nia|lia|rewrite E; nia|lia|rewrite E; nia| |].
    + replace (7 * Z.of_nat (S fuel)) with (7 * Z.of_nat fuel + 7) in Hfuel by lia. rewrite Z.pow_add_r in Hfuel by lia. change (2 ^ 7) with 128 in Hfuel.
      apply Z.div_lt_upper_bound; lia.
    + destruct fuel; [|lia]. change (7 * Z.of_nat 1) with 7 in Hfuel. change (2 ^ 7) with 128 in Hfuel. lia.
  - rewrite str_app_cons. cbn [uvarintLoop]. cbv zeta. rewrite code_byte by lia. rewrite (proj2 (Z.eqb_neq i 10)) by lia. rewrite (proj2 (Z.ltb_lt v 128)) by lia.
    assert ((i =? 9) && (1 <? v) = false) as ->.
    { destruct (Z.eqb_spec i 9) as [->|]; [|done]. cbn. apply Z.ltb_ge. change (7 * 9) with 63 in Hfit. change (2 ^ 64) with (2 * 2 ^ 63) in Hfit. nia. }
    rewrite wrapu64_id by (rewrite Z.shiftl_mul_pow2 by lia; unfold in_uint64, uint64_max; nia). rewrite lor_shift by lia. done.
Qed.

Lemma Uvarint_Append v rest : in_uint64 v -> Uvarint (AppendUvarint v +:+ rest) = Some (v, rest).
Proof.
  intros Hv. unfold Uvarint, AppendUvarint. rewrite wrapu64_id by done. destruct Hv as [H0 H1]. unfold uint64_max in H1.
  replace 0 with (7 * 0) at 3 by lia. rewrite uvarint_loop; [f_equal; f_equal; lia|lia|change (2 ^ (7 * 0)) with 1; lia|done|change (2 ^ (7 * 0)) with 1; lia| |lia].
  change (7 * Z.of_nat 10) with 70. eapply Z.lt_trans with (2 ^ 64); [lia|]. apply Z.pow_lt_mono_r; lia.
Qed.

(** A leaf of a tree: a path of 32 bytes, a weight and a length that fit. *)
Definition leaf_ok (l : coldLeaf) : Prop := String.length (cl_path l) = coldLeafPathLen /\ in_uint64 (cl_weight l) /\ in_uint64 (slen (cl_value l)).

Lemma take_app_n n s t : String.length s = n -> str_take n (s +:+ t) = s.
Proof. intros <-. apply str_take_app. Qed.
Lemma drop_app_n n s t : String.length s = n -> str_drop n (s +:+ t) = t.
Proof. intros <-. apply str_drop_app. Qed.

Lemma varint_nonempty v rest : AppendUvarint v +:+ rest <> "".
Proof. unfold AppendUvarint. cbn [varintLoop]. by destruct (128 <=? wrapu64 v). Qed.

Lemma putLeaf_app l s : putLeaf l +:+ s = AppendUvarint (slen (cl_value l)) +:+ (cl_path l +:+ (PutUint64 (cl_weight l) +:+ (cl_value l +:+ s))).
Proof. unfold putLeaf. by rewrite !str_app_assoc. Qed.

Lemma getLeaves_put fuel total ls : Forall leaf_ok ls -> (List.length ls <= fuel)%nat -> slen (putLeaves ls) <= total -> getLeaves fuel total (putLeaves ls) = Some ls.
Proof.
  revert fuel. induction ls as [|l ls IH]; intros fuel Hok Hf Ht; [by destruct fuel|]. apply Forall_cons in Hok as [(Hp & Hw & Hv) Hok].
  destruct fuel as [|fuel]; [cbn in Hf; lia|]. cbn [putLeaves] in *. rewrite putLeaf_app in *. set (rest := cl_path l +:+ _) in *.
  assert (slen rest = Z.of_nat coldLeafPathLen + 8 + slen (cl_value l) + slen (putLeaves ls)) as Hlen.
  { unfold rest. rewrite !slen_app. unfold slen at 1 2. rewrite Hp, PutUint64_length. lia. }
  pose proof (slen_nonneg (putLeaves ls)). pose proof (slen_nonneg (cl_value l)). rewrite slen_app in Ht. pose proof (slen_nonneg (AppendUvarint (slen (cl_value l)))).
  destruct (AppendUvarint (slen (cl_value l)) +:+ rest) eqn:Eraw; [by destruct (varint_nonempty _ _ Eraw)|]. cbn [getLeaves]. rewrite <-Eraw.
  rewrite Uvarint_Append by done. rewrite (proj2 (Z.ltb_ge total _)) by lia. rewrite (proj2 (Z.ltb_ge (slen rest) _)) by lia. cbn [orb]. cbv zeta.
  unfold rest. rewrite (take_app_n _ _ _ Hp), (drop_app_n _ _ _ Hp), (take_app_n 8), (drop_app_n 8) by apply PutUint64_length.
  rewrite Uint64_PutUint64, wrapu64_id by done. rewrite take_app_n, drop_app_n by (unfold slen; lia).
  rewrite IH; [by destruct l|done|cbn in Hf; lia|lia].
Qed.

Lemma putLeaves_length ls : (List.length ls <= String.length (putLeaves ls))%nat.
Proof.
  induction ls as [|l ls IH]; [done|]. cbn [putLeaves List.length]. rewrite str_length_app. unfold putLeaf. rewrite str_length_app.
  destruct (AppendUvarint (slen (cl_value l))) eqn:E; [|cbn; lia]. exfalso. apply (varint_nonempty (slen (cl_value l)) ""). by rewrite E.
Qed.

Lemma putLeaves_perm ls ls' : ls ≡ₚ ls' -> String.length (putLeaves ls) = String.length (putLeaves ls').
Proof. induction 1; cbn [putLeaves]; rewrite ?str_length_app; lia. Qed.

Section Blobs.
Context `{NC : !NodeCodec} `{NL : !NodeCodecLaws}.
Variables (smt_Count smt_Sum : string -> Z).

(** C35. A blob of leaves reads back as what it was made of: for leaves with paths
    of 32 bytes and weights that fit 64 bits, together within the gibibyte the
    decoder accepts, and a root whose count is theirs,
    decodeColdLeaves of what encodeColdLeaves wrote answers that root and those
    leaves, in the order of their paths. *)
Theorem cold_blob_round_trip root leaves blob :
  Forall leaf_ok leaves -> slen (putLeaves leaves) <= coldDecodedMaxBytes -> smt_Count root = Z.of_nat (List.length leaves) -> in_uint64 (smt_Count root) -> in_uint64 (smt_Sum root) ->
  encodeColdLeaves smt_Count smt_Sum root leaves = Some blob ->
  decodeColdLeaves smt_Count smt_Sum blob = Some (root, merge_sort leaf_le leaves).
Proof.
  intros Hok Hmax Hc Hcu Hsu. unfold encodeColdLeaves. destruct (Nat.eqb_spec (String.length root) SMSTRootLen) as [Hr|]; [|done]. cbn [negb].
  destruct coldCodec as [z|] eqn:Ez; [|done]. set (sorted := merge_sort leaf_le leaves). set (raw := putLeaves sorted). cbv zeta.
  set (fields := PutUint64 (smt_Count root) +:+ _). intros [= <-].
  assert (Forall leaf_ok sorted) as Hoks by (unfold sorted; by rewrite merge_sort_Permutation).
  assert (List.length sorted = List.length leaves) as Hn by (unfold sorted; by rewrite merge_sort_Permutation).
  unfold decodeColdLeaves.
  assert (Nat.ltb (String.length (String (byte_ascii coldLeavesVersion) (String (byte_ascii coldLeavesCodecZstd) fields))) coldLeavesHeaderLen = false) as ->.
  { apply Nat.ltb_ge. unfold fields. cbn [String.length]. rewrite !str_length_app, !PutUint64_length, Hr. unfold coldLeavesHeaderLen. lia. }
  change (negb (code (byte_ascii coldLeavesVersion) =? coldLeavesVersion)) with false. change (negb (code (byte_ascii coldLeavesCodecZstd) =? coldLeavesCodecZstd)) with false.
  cbv iota zeta. unfold fields. rewrite (take_app_n 8), (drop_app_n 8) by apply PutUint64_length. rewrite (take_app_n 8), (drop_app_n 8) by apply PutUint64_length.
  rewrite (take_app_n _ _ _ Hr), (drop_app_n _ _ _ Hr), !Uint64_PutUint64, !wrapu64_id, !Z.eqb_refl by done. cbn [negb]. rewrite Ez. cbn [mbind option_bind].
  rewrite (zstd_decode_encode z raw Ez) by (unfold raw, sorted; by rewrite (putLeaves_perm _ leaves) by apply merge_sort_Permutation). cbn [mbind option_bind]. unfold raw.
  rewrite getLeaves_put; [|done|apply putLeaves_length|lia]. cbn [mbind option_bind]. by rewrite Hn, Hc, Z.eqb_refl.
Qed.
End Blobs.

(** ** Compaction *)

Section Compaction.
Context {Trie : Type} `{LIB : !SMT Trie} `{PR : !Prover Trie}.
Context {ColdTrie : Type} `{CLIB : !SMT ColdTrie}.
Context `{NC : !NodeCodec}.
Variables (smt_Count smt_Sum : string -> Z).
Abbreviation Manager := (Manager (Trie := Trie)).
Abbreviation rebuild := (rebuildColdTree (ColdTrie := ColdTrie)).
Abbreviation verify := (verifyColdBlob (ColdTrie := ColdTrie) smt_Count smt_Sum).
Abbreviation compact := (CompactColdTree (ColdTrie := ColdTrie) smt_Count smt_Sum).
Abbreviation schedule := (ScheduleColdCompaction (ColdTrie := ColdTrie) smt_Count smt_Sum).
Implicit Types (w : Manager) (A : SessionRecs) (sid root : string).

(** The nodes are gone, and the blob was rebuilt to [root]. *)
Definition compacted_to A root : Prop :=
  rc_nodes A = ∅ /\ exists blob leaves nodes, rc_leaves A = Some blob /\ decodeColdLeaves smt_Count smt_Sum blob = Some (root, leaves) /\ rebuild leaves = Ok (nodes, root).

Definition kept_whole A A' : Prop :=
  (rc_nodes A = ∅ -> A' = A) /\ rc_claimed A' = rc_claimed A /\
  (rc_nodes A' = rc_nodes A \/ exists root, rc_claimed A = Some root /\ compacted_to A' root).

Lemma kept_whole_refl A : kept_whole A A.
Proof. split_and!; auto. Qed.
Lemma kept_whole_trans A1 A2 A3 : kept_whole A1 A2 -> kept_whole A2 A3 -> kept_whole A1 A3.
Proof.
  intros (E1 & C1 & H1) (E2 & C2 & H2). split_and!; [|congruence|].
  - intros E. rewrite (E1 E) in *. auto.
  - destruct H1 as [H1|(root & Hc & Hn & Hb)]; [rewrite <-H1, <-C1; done|]. right. exists root. split; [done|]. rewrite (E2 Hn). by split.
Qed.

Lemma verify_ok blob root : verify blob root = true -> exists leaves nodes, decodeColdLeaves smt_Count smt_Sum blob = Some (root, leaves) /\ rebuild leaves = Ok (nodes, root).
Proof.
  unfold verifyColdBlob. destruct (decodeColdLeaves _ _ blob) as [[r leaves]|]; [|done]. rewrite andb_true_iff, String.eqb_eq. intros [-> H].
  destruct (rebuild leaves) as [[nodes r']|] eqn:E; [|done]. apply String.eqb_eq in H as ->. by exists leaves, nodes.
Qed.

Lemma coldReady_spec sid w : wpm (coldReady sid) w (fun w' r => w' = w /\ r <> Err coldCompacted /\
  forall root, r = Ok root -> rc_claimed (recs w sid) = Some root /\ isValidSMSTRoot root = true /\ rc_nodes (recs w sid) <> ∅).
Proof.
  unfold coldReady, fetch. apply wpm_bind, wpm_read; [|intros e; by apply wpm_ret]. destruct (rc_claimed (recs w sid)) as [root|] eqn:Ec; [|by apply wpm_ret].
  destruct (isValidSMSTRoot root) eqn:Hv; cbn [negb]; [|by apply wpm_ret]. apply wpm_bind, wpm_read; [|intros e; by apply wpm_ret].
  case_bool_decide as Hn; [apply wpm_ret; split_and!; [done|done|]; by intros r [= <-]|].
  apply wpm_bind, wpm_read; [|intros e; by apply wpm_ret]. case_bool_decide; by apply wpm_ret.
Qed.

Lemma coldRead_spec sid w : wpm (coldRead sid) w (fun w' r => w' = w /\ r <> Err coldCompacted).
Proof.
  unfold coldRead, fetch. apply wpm_bind, wpm_ask. intros x. destruct (oc_err x); [by apply wpm_ret|]. apply wpm_bind, wpm_read; [|intros e; by apply wpm_ret].
  apply wpm_ret. by destruct (collectLeaves _).
Qed.

(** The records with another blob. *)
Definition with_leaves sid w w' : Prop := exists x, at_recs sid w (set_leaves x (recs w sid)) w'.
Lemma with_leaves_refl sid w : with_leaves sid w w.
Proof. exists (rc_leaves (recs w sid)). assert (set_leaves (rc_leaves (recs w sid)) (recs w sid) = recs w sid) as -> by (by destruct (recs w sid)). apply at_recs_id. Qed.

Lemma coldStore_spec sid root leaves w : wpm (coldStore (ColdTrie := ColdTrie) smt_Count smt_Sum sid root leaves) w (fun w' r => with_leaves sid w w' /\ r <> Err coldCompacted /\
  forall stored, r = Ok stored -> rc_leaves (recs w' sid) = Some stored /\ verify stored root = true).
Proof.
  unfold coldStore. destruct (encodeColdLeaves _ _ root leaves) as [blob|]; [|apply wpm_ret; split; [apply with_leaves_refl|done]].
  set (w1 := upd_store sid (set_leaves (Some blob) (recs w sid)) w). assert (with_leaves sid w w1) as Hw1 by (eexists; apply at_recs_upd).
  apply wpm_bind, wpm_write; fold w1; [|intros e; apply wpm_ret; split; [apply with_leaves_refl|done]|intros e; by apply wpm_ret].
  unfold fetch. apply wpm_bind, wpm_read; [|intros e; by apply wpm_ret]. assert (recs w1 sid = set_leaves (Some blob) (recs w sid)) as Hr1 by apply recs_upd_eq.
  rewrite Hr1. cbn [rc_leaves set_leaves]. destruct (verify blob root) eqn:Hv.
  - apply wpm_ret. split_and!; [done|done|]. intros s [= <-]. by rewrite Hr1.
  - set (w2 := upd_store sid (set_leaves None (recs w1 sid)) w1).
    assert (with_leaves sid w w2) as Hw2.
    { exists None. destruct Hw1 as (x & (? & R & ? & ? & ? & ?)). split_and!; try done; [unfold w2; rewrite recs_upd_eq, Hr1; by destruct (recs w sid)|].
      intros s Hs. unfold w2. rewrite recs_upd_ne by done. auto. }
    apply wpm_bind, wpm_write; fold w2; [|intros e|intros e]; by apply wpm_ret.
Qed.

Lemma compact_spec sid w : wpm (compact sid) w (fun w' r =>
  (forall s, s <> sid -> recs w' s = recs w s) /\ kept_whole (recs w sid) (recs w' sid) /\
  (r = coldCompacted -> resident w' sid = None /\ exists root, rc_claimed (recs w sid) = Some root /\ isValidSMSTRoot root = true /\ compacted_to (recs w' sid) root)).
Proof.
  unfold CompactColdTree. apply wpm_bind. eapply wpm_mono; [|apply coldReady_spec]. intros w1 r (-> & Hr & Hready).
  destruct r as [root|r]; [|apply wpm_ret; split_and!; [done|apply kept_whole_refl|congruence]]. destruct (Hready root eq_refl) as (Hc & Hv & Hn).
  apply wpm_bind. eapply wpm_mono; [|apply coldRead_spec]. intros w1 r (-> & Hr2). destruct r as [leaves|r]; [|apply wpm_ret; split_and!; [done|apply kept_whole_refl|congruence]].
  apply wpm_bind. eapply wpm_mono; [|apply coldStore_spec]. intros w2 r ((x & Hat) & Hr3 & Hst). destruct Hat as (HA & HR & _).
  assert (kept_whole (recs w sid) (recs w2 sid)) as Hk by (rewrite HA; split_and!; auto; by intros E).
  destruct r as [stored|r]; [|apply wpm_ret; split_and!; [done|done|congruence]]. destruct (Hst stored eq_refl) as [Hl Hver].
  apply verify_ok in Hver as (leaves' & nodes & Hdec & Hreb).
  unfold coldDrop. apply wpm_bind, wpm_at_store; [|intros e; by apply wpm_ret|intros e].
  - unfold deleteNodesIfLeaves. rewrite bool_decide_true by done. cbn [fst snd]. apply wpm_bind, wpm_modify, wpm_ret.
    set (w3 := upd_trees _ _). assert (recs w3 sid = set_nodes ∅ (recs w2 sid)) as H3 by apply recs_upd_eq.
    assert (compacted_to (recs w3 sid) root) as Hto by (rewrite H3; split; [done|]; by exists stored, leaves', nodes).
    split_and!; [| |intros _; split; [unfold resident; cbn; by rewrite lookup_delete_eq|by exists root]].
    + intros s Hs. change (recs (upd_store sid (set_nodes ∅ (recs w2 sid)) w2) s = recs w s). rewrite recs_upd_ne by done. auto.
    + split_and!; [done|rewrite H3, <-(proj1 (proj2 Hk)); done|]. right. by exists root.
  - unfold deleteNodesIfLeaves. rewrite bool_decide_true by done. cbn [fst]. apply wpm_ret. rewrite recs_upd_eq. split_and!; [|split_and!; [done|by rewrite <-(proj1 (proj2 Hk))|]|done].
    + intros s Hs. rewrite recs_upd_ne by done. auto.
    + right. exists root. split; [done|]. split; [done|]. by exists stored, leaves', nodes.
Qed.

Lemma submit_spec fuel closed now sid attempt w :
  wpm (submitColdCompaction (ColdTrie := ColdTrie) smt_Count smt_Sum fuel closed now sid attempt) w (fun w' rs =>
    (forall s, s <> sid -> recs w' s = recs w s) /\ kept_whole (recs w sid) (recs w' sid) /\ (List.length rs <= fuel)%nat /\
    (coldCompacted ∈ rs -> resident w' sid = None /\ exists root, rc_claimed (recs w sid) = Some root /\ isValidSMSTRoot root = true /\ compacted_to (recs w' sid) root)).
Proof.
  revert attempt w. induction fuel as [|fuel IH]; intros attempt w; cbn [submitColdCompaction].
  { apply wpm_ret. split_and!; [done|apply kept_whole_refl|done|by intros H%not_elem_of_nil]. }
  apply wpm_bind, wpm_gets. destruct (_ || _); [apply wpm_ret; split_and!; [done|apply kept_whole_refl|cbn; lia|by intros H%not_elem_of_nil]|].
  apply wpm_bind. eapply wpm_mono; [|apply compact_spec]. intros w1 r (HR & Hk & Hdone). destruct (negb (retryable r) || _) eqn:Hstop.
  - apply wpm_ret. split_and!; [done|done|cbn; lia|]. intros H%list_elem_of_singleton. auto.
  - apply wpm_bind. eapply wpm_mono; [|apply IH]. intros w2 rs (HR2 & Hk2 & Hlen & Hdone2). apply wpm_ret. split_and!.
    + intros s Hs. by rewrite HR2, HR.
    + by eapply kept_whole_trans.
    + cbn. lia.
    + intros [<-|H]%elem_of_cons; [by apply orb_false_iff in Hstop as [Hstop _]|]. destruct (Hdone2 H) as (? & root & Hc & ?). split; [done|]. exists root.
      destruct Hk as (_ & Hkc & _). split; [congruence|done].
Qed.

(** C16. Compaction never costs a claimed tree: whatever of its reads and writes
    fail, before or after they took effect, and however its tries end, the nodes
    of the session are as they were, or they are gone and the stored blob decodes
    and rebuilds to the session's claimed root; the claimed root stays, other
    sessions are not touched, a session without nodes is not either, and it is
    tried at most ten times. *)
Theorem compaction_keeps_tree closed now sid o o' w w' rs :
  schedule closed now sid o w = (o', w', rs) ->
  kept_whole (recs w sid) (recs w' sid) /\ (forall s, s <> sid -> recs w' s = recs w s) /\ (List.length rs <= 10)%nat.
Proof.
  intros E. pose proof (submit_spec coldCompactionAttempts closed now sid 1 w o) as H. unfold ScheduleColdCompaction in E. rewrite E in H.
  destruct H as (HR & Hk & Hn & _). done.
Qed.

(** ** Proofs *)

Definition in_memory (nodes : gmap string string) (f : string) : result string SmErr := match nodes !! f with Some v => Ok v | None => Err plain end.

(** A proof the library made on a tree of this root: the tree at hand, or one
    imported at the root over nodes rebuilt to it. *)
Definition proof_of (root seed : string) (weighted : bool) (bytes : string) : Prop :=
  exists (trie : Trie) get p, smt_prove get trie seed weighted = LOk p /\ marshalClosestProof p = Ok bytes /\
    (smt_root trie = LOk root \/ smt_import root = LOk trie /\ exists leaves nodes, rebuild leaves = Ok (nodes, root) /\ get = in_memory nodes).

Lemma safely_ok {B} (r : LibResult B) b : runSMSTSafely r = Ok b -> r = LOk b.
Proof. destruct r; try done. by intros [= ->]. Qed.

Lemma proveFromLeaves_spec sid root seed weighted w :
  wpm (proveFromLeaves (ColdTrie := ColdTrie) smt_Count smt_Sum sid root seed weighted) w (fun w' r => w' = w /\ forall bytes, r = Ok bytes -> proof_of root seed weighted bytes).
Proof.
  unfold proveFromLeaves, fetch. apply wpm_bind, wpm_read; [|intros e; by apply wpm_ret]. apply wpm_bind, wpm_ask. intros x. destruct (oc_err x); [by apply wpm_ret|].
  apply wpm_bind, wpm_read; [|intros e; by apply wpm_ret]. apply wpm_ret. split; [done|]. intros bytes. destruct (rc_leaves (recs w sid)) as [blob|]; [|done].
  destruct (decodeColdLeaves _ _ blob) as [[r leaves]|]; [|done]. destruct (rebuild leaves) as [[nodes rebuilt]|] eqn:Er; [|done].
  destruct (String.eqb_spec rebuilt root) as [->|]; [|done]. cbn [negb]. destruct (runSMSTSafely (smt_import root)) as [trie|] eqn:Ei; [|done].
  destruct (runSMSTSafely (smt_prove _ _ _ _)) as [p|] eqn:Ep; [|done]. intros Hm. apply safely_ok in Ei, Ep. eexists trie, _, p. split_and!; [exact Ep|done|].
  right. split; [done|]. by exists leaves, nodes.
Qed.

Lemma loadTree_resident sid w : wpm (loadTreeFromRedis sid) w (fun w' r => forall g, r = Ok g -> resident w' sid = Some g).
Proof.
  unfold loadTreeFromRedis, fetch. apply wpm_bind, wpm_read; [|intros e; by apply wpm_ret]. destruct (rc_claimed _) as [root|]; [|by apply wpm_ret].
  destruct (String.eqb root ""); [by apply wpm_ret|]. destruct (isValidSMSTRoot root); cbn [negb]; [|apply wpm_bind, wpm_write; [|intros ?|intros ?]; by apply wpm_ret].
  destruct (runSMSTSafely _); [|apply wpm_bind, wpm_write; [|intros ?|intros ?]; by apply wpm_ret].
  apply wpm_bind. eapply (wpm_mono _ _ (fun _ _ => True)); [|intros o; by destruct (claimedTree _ _ _ _ o w) as [[? ?] ?]]. intros w1 t _.
  apply wpm_bind, wpm_gets. destruct (resident w1 sid) as [g|] eqn:Hr; [apply wpm_ret; by intros ? [= <-]|].
  apply wpm_bind. unfold addTree. repeat wpm_step. intros g [= <-]. unfold resident. cbn. by rewrite lookup_insert_eq.
Qed.

Lemma proveResident_spec sid seed weighted t root w :
  wpm (proveResident (ColdTrie := ColdTrie) smt_Count smt_Sum sid seed weighted t root) w (fun w' r => w' = w /\ forall bytes, r = Ok bytes -> proof_of root seed weighted bytes).
Proof.
  unfold proveResident. destruct (runSMSTSafely (smt_root (t_trie t))) as [current|] eqn:Er; [|by apply wpm_ret]. apply safely_ok in Er.
  destruct (String.eqb_spec current root) as [->|]; [|by apply wpm_ret]. cbn [negb]. apply wpm_bind, wpm_gets, wpm_bind, wpm_ask. intros x.
  destruct (runSMSTSafely (smt_prove _ _ _ _)) as [p|e] eqn:Ep.
  - apply safely_ok in Ep. apply wpm_ret. split; [done|]. intros bytes Hm. eexists (t_trie t), _, p. split_and!; [exact Ep|done|by left].
  - destruct (isSMSTCorruption e); [|by apply wpm_ret]. unfold coldTreeCompacted, fetch. apply wpm_bind, wpm_read; [|intros e'; by apply wpm_ret].
    destruct (_ && _); [apply proveFromLeaves_spec|by apply wpm_ret].
Qed.

(** C17. No proof is made on another root: whenever prove answers, the session's
    tree is resident and claimed, and the proof is one the library made on a tree
    whose root is that claimed root, either the resident tree or one imported at
    it over nodes that were just rebuilt to it. *)
Theorem proof_is_of_claimed_root sid seed weighted o o' w w' bytes :
  prove (ColdTrie := ColdTrie) smt_Count smt_Sum sid seed weighted o w = (o', w', Ok bytes) ->
  exists g t root, resident w' sid = Some g /\ object w' g = Some t /\ t_claimedRoot t = Some root /\ proof_of root seed weighted bytes.
Proof.
  intros E. set (Q := fun (v : Manager) bytes => exists g t root, resident v sid = Some g /\ object v g = Some t /\ t_claimedRoot t = Some root /\ proof_of root seed weighted bytes).
  assert (wpm (prove (ColdTrie := ColdTrie) smt_Count smt_Sum sid seed weighted) w (fun v r => forall bytes, r = Ok bytes -> Q v bytes)) as H; [|specialize (H o); rewrite E in H; by apply H].
  clear E. unfold prove, guarded. apply wpm_bind. eapply (wpm_mono _ _ (fun v r => forall bytes, r = Ok bytes -> Q v bytes)).
  { intros v [a|e] HQ; [by apply wpm_ret|]. apply wpm_bind. eapply (wpm_mono _ _ (fun _ _ => True)); [intros ? ? _; by apply wpm_ret|]. intros o2. by destruct (_ o2 v) as [[? ?] ?]. }
  apply wpm_bind, wpm_gets, wpm_bind. eapply (wpm_mono _ _ (fun v r => forall g, r = Ok g -> resident v sid = Some g)).
  2:{ destruct (resident w sid) as [g|] eqn:Hr; [apply wpm_ret; by intros ? [= <-]|apply loadTree_resident]. }
  intros v [g|[|e]] Hg; [|by apply wpm_ret|by apply wpm_ret]. specialize (Hg g eq_refl). apply wpm_bind, wpm_gets.
  destruct (object v g) as [t|] eqn:Ho; [|by apply wpm_ret]. cbn [mbind option_bind]. destruct (t_claimedRoot t) as [root|] eqn:Hc; [|by apply wpm_ret].
  unfold coldTreeCompacted, fetch. apply wpm_bind, wpm_read; [|intros e; by apply wpm_ret].
  assert (forall m : M Manager (result string SmErr), wpm m v (fun w' r => w' = v /\ forall bytes, r = Ok bytes -> proof_of root seed weighted bytes) -> wpm m v (fun v r => forall bytes, r = Ok bytes -> Q v bytes)) as Hm.
  { intros m. apply wpm_mono. intros v' r [-> Hr] b Hb. exists g, t, root. auto. }
  destruct (_ && _); apply Hm; [apply proveFromLeaves_spec|apply proveResident_spec].
Qed.

(** *** With every round trip answered *)

Lemma ok_bind {X Y} (m : M Manager X) (f : X -> M Manager Y) w w1 a : m all_ok w = (all_ok, w1, a) -> (m ≫= f) all_ok w = f a all_ok w1.
Proof. intros E. unfold mbind, M_bind. by rewrite E. Qed.
Lemma ok_fetch {X} sid (f : SessionRecs -> X) w : fetch sid f all_ok w = (all_ok, w, Ok (f (recs w sid))).
Proof. done. Qed.

Lemma ok_load sid w root (trie : Trie) : rc_claimed (recs w sid) = Some root -> isValidSMSTRoot root = true -> smt_import root = LOk trie -> resident w sid = None ->
  exists g t v, loadTreeFromRedis sid all_ok w = (all_ok, v, Ok g) /\ object v g = Some t /\ t_claimedRoot t = Some root /\ recs v sid = recs w sid.
Proof.
  intros Hc Hv Hi Hr. unfold loadTreeFromRedis. rewrite (ok_bind _ _ _ _ _ (ok_fetch sid rc_claimed w)), Hc, (valid_not_empty _ Hv), Hv. cbn [negb]. rewrite Hi. cbn [runSMSTSafely].
  set (t := match rc_stats (recs w sid) with Some v => let '(n, m) := statsParsed v in upd_claimed root n m (newTree sid trie None "") | None => newTree sid trie (Some root) "" end).
  assert (claimedTree statsParsed sid root trie all_ok w = (all_ok, w, t)) as Ht by (unfold claimedTree; rewrite (ok_bind _ _ _ _ _ (ok_fetch sid rc_stats w)); subst t; by destruct (rc_stats (recs w sid))).
  rewrite (ok_bind _ _ _ _ _ Ht). assert (t_claimedRoot t = Some root) as Hct by (subst t; destruct (rc_stats _) as [s|]; [by destruct (statsParsed s)|done]). clearbody t.
  erewrite (ok_bind (gets _)) by reflexivity. rewrite Hr. eexists (sw_gen w + 1), t, _. split_and!; [reflexivity| |done|done]. unfold object. cbn. by rewrite lookup_insert_eq.
Qed.

(** C36. A compacted tree is proved from its leaves: once a compaction reports it
    done, and the round trips answer, prove gives what the library proves on a
    tree imported at the claimed root over the nodes its leaves rebuilt to that
    root. *)
Theorem compacted_tree_is_proved closed now sid o o' w w' rs :
  schedule closed now sid o w = (o', w', rs) -> coldCompacted ∈ rs ->
  exists root leaves nodes, rc_claimed (recs w sid) = Some root /\ rebuild leaves = Ok (nodes, root) /\
    forall (trie : Trie) seed weighted, smt_import root = LOk trie ->
      snd (prove (ColdTrie := ColdTrie) smt_Count smt_Sum sid seed weighted all_ok w') =
      match runSMSTSafely (smt_prove (in_memory nodes) trie seed weighted) with Ok p => marshalClosestProof p | Err e => Err e end.
Proof.
  intros E Hin. pose proof (submit_spec coldCompactionAttempts closed now sid 1 w o) as H. unfold ScheduleColdCompaction in E. rewrite E in H.
  destruct H as (_ & (_ & Hcl & _) & _ & Hdone). destruct (Hdone Hin) as (Hres & root & Hc & Hv & Hn & blob & leaves & nodes & Hl & Hd & Hreb).
  exists root, leaves, nodes. split_and!; [done|done|]. intros trie seed weighted Hi.
  destruct (ok_load sid w' root trie) as (g & t & v & Hload & Ho & Hct & Hrecs); [congruence|done|done|done|].
  assert (proveFromLeaves (ColdTrie := ColdTrie) smt_Count smt_Sum sid root seed weighted all_ok v =
    (all_ok, v, match runSMSTSafely (smt_prove (in_memory nodes) trie seed weighted) with Ok p => marshalClosestProof p | Err e => Err e end)) as Hp.
  { unfold proveFromLeaves. rewrite (ok_bind _ _ _ _ _ (ok_fetch sid rc_leaves v)). erewrite (ok_bind ask) by reflexivity. cbn [oc_err oc_ok all_ok]. cbv beta iota.
    rewrite (ok_bind _ _ _ _ _ (ok_fetch sid rc_leaves v)), Hrecs, Hl, Hd, Hreb, String.eqb_refl. cbn [negb]. rewrite Hi. done. }
  set (r := match runSMSTSafely _ with Ok p => marshalClosestProof p | Err e => Err e end) in *. clearbody r.
  unfold prove, guarded. erewrite ok_bind.
  2:{ erewrite (ok_bind (gets _)) by reflexivity. rewrite Hres, (ok_bind _ _ _ _ _ Hload). cbv iota beta. erewrite (ok_bind (gets _)) by reflexivity.
      rewrite Ho. cbn [mbind option_bind]. rewrite Hct. unfold coldTreeCompacted. rewrite (ok_bind _ _ _ _ _ (ok_fetch sid _ v)), Hrecs, Hl, Hn.
      rewrite !bool_decide_true by done. cbn [andb]. exact Hp. }
  destruct r as [b|e]; [done|]. destruct (isSMSTCorruption e); [|done]. unfold mbind, M_bind. by destruct (evictCorruptSession sid all_ok v) as [[? ?] ?].
Qed.
End Compaction.

(** ** Compactions and proofs, run

    A rebuild that keeps its leaves in a list and a tree that is its root, small
    enough to run. Over them a session is compacted and proved, and two
    compactions of one session, interleaved, leave it with neither nodes nor
    blob. *)

Local Open Scope list_scope.

Module Cold.

(** The hash part is empty; then the sum and the count. *)
Fixpoint fill (n : nat) : string := match n with O => "" | S n => String "000" (fill n) end.
Definition make_root (sum count : Z) : string := fill 32 +:+ (PutUint64 sum +:+ PutUint64 count).
Definition root_Count (r : string) : Z := Uint64 (str_drop 40 r).
Definition root_Sum (r : string) : Z := Uint64 (str_take 8 (str_drop 32 r)).

Record Rebuild := mkRebuild { rb_leaves : list coldLeaf }.
#[export] Instance rebuild_smt : SMT Rebuild := {|
  smt_new := mkRebuild [];
  smt_import _ := LPanic;
  smt_update _ t k v n := (mkRebuild (mkLeaf k v n :: rb_leaves t), LOk tt);
  smt_commit t := (t, map (fun l => NSet (cl_path l) (cl_value l)) (rb_leaves t), LOk tt);
  smt_compact t := (t, LOk tt);
  smt_root t := LOk (make_root (foldr (fun l n => cl_weight l + n) 0 (rb_leaves t)) (Z.of_nat (List.length (rb_leaves t))));
  smt_count t := LOk (Z.of_nat (List.length (rb_leaves t)));
  smt_sum t := LOk (foldr (fun l n => cl_weight l + n) 0 (rb_leaves t))
|}.

Record Rooted := mkRooted { rt_root : string }.
#[export] Instance rooted_smt : SMT Rooted := {|
  smt_new := mkRooted (make_root 0 0);
  smt_import r := LOk (mkRooted r);
  smt_update _ t _ _ _ := (t, LErr plain);
  smt_commit t := (t, [], LOk tt);
  smt_compact t := (t, LOk tt);
  smt_root t := LOk (rt_root t);
  smt_count t := LOk (root_Count (rt_root t));
  smt_sum t := LOk (root_Sum (rt_root t))
|}.

(** A proof: the node at the seed, under the root. *)
#[export] Instance rooted_prover : Prover Rooted := {|
  smt_proof := string;
  smt_prove get t seed _ := match get seed with Ok v => LOk (rt_root t +:+ v) | Err e => LErr e end;
  marshalClosestProof p := Ok p
|}.

Definition frame : Codec := mkCodec (fun v => zstdFrameMagic +:+ v) (fun v => if String.prefix zstdFrameMagic v then Some (str_drop 4 v) else None).
#[export] Instance frame_codec : NodeCodec := Some frame.
#[export] Instance frame_laws : NodeCodecLaws.
Proof.
  split; intros z v [= <-].
  - intros _. unfold frame. cbn [zstd_decode zstd_encode]. by assert (String.prefix zstdFrameMagic (zstdFrameMagic +:+ v) = true) as -> by (by destruct v).
  - by destruct v.
Qed.

Definition path (c : ascii) : string := String c (fill 31).
Definition leaf_node (c : ascii) (value : string) (n : Z) : string := String "000" (path c +:+ (value +:+ (PutUint64 n +:+ PutUint64 1))).
Definition root : string := make_root 12 2.
Definition recs0 : SessionRecs :=
  mkRecs (<["n1" := leaf_node "b" "two" 7]> (<["n2" := leaf_node "a" "one" 5]> (<["n3" := String "001" "inner"]> ∅))) (Some root) (Some root) None None.
Definition mgr0 : Manager (Trie := Rooted) := newSMSTManager {["s" := recs0]} ∅.
Definition leaves0 : list coldLeaf := [mkLeaf (path "b") "two" 7; mkLeaf (path "a") "one" 5].

Lemma cold_blob_round_trip_witness : exists blob,
  encodeColdLeaves root_Count root_Sum root leaves0 = Some blob /\
  decodeColdLeaves root_Count root_Sum blob = Some (root, [mkLeaf (path "a") "one" 5; mkLeaf (path "b") "two" 7]).
Proof.
  destruct (encodeColdLeaves root_Count root_Sum root leaves0) as [blob|] eqn:E; [|vm_compute in E; discriminate]. exists blob. split; [done|].
  rewrite (cold_blob_round_trip root_Count root_Sum root leaves0 blob); [|repeat constructor; vm_compute; done..|exact E].
  vm_compute. reflexivity.
Defined.

Definition never (_ : nat) : bool := false.
Definition at0 (_ : nat) : Z := 0.
(** The first try cannot store the blob, the second works. *)
Definition compacted : Oracle * Manager (Trie := Rooted) * list coldCompactionResult :=
  ScheduleColdCompaction (ColdTrie := Rebuild) root_Count root_Sum never at0 "s" (nth_trip 4 (oc_fail false)) mgr0.
Lemma compacted_is : compacted = (fst (fst compacted), snd (fst compacted), [coldSetFailed; coldCompacted]).
Proof. assert (snd compacted = [coldSetFailed; coldCompacted]) as H by (vm_compute; reflexivity). destruct compacted as [[o w] rs]. cbn in *. by rewrite H. Qed.

Lemma compaction_keeps_tree_witness :
  snd compacted = [coldSetFailed; coldCompacted] /\ kept_whole (ColdTrie := Rebuild) root_Count root_Sum (recs mgr0 "s") (recs (snd (fst compacted)) "s").
Proof.
  split; [by rewrite compacted_is|]. exact (proj1 (compaction_keeps_tree root_Count root_Sum never at0 "s" _ _ mgr0 _ _ compacted_is)).
Defined.

Lemma compacted_tree_is_proved_witness :
  snd (prove (ColdTrie := Rebuild) root_Count root_Sum "s" (path "a") true all_ok (snd (fst compacted))) = Ok (root +:+ "one").
Proof.
  destruct (compacted_tree_is_proved root_Count root_Sum never at0 "s" _ _ mgr0 _ _ compacted_is) as (r & leaves & nodes & Hc & Hr & Hp); [right; left|].
  assert (r = root) as -> by (vm_compute in Hc; by injection Hc as <-). pose proof (Hp (mkRooted root) (path "a") true eq_refl) as H. vm_compute. reflexivity.
Defined.

(** Proved from the nodes, before any compaction: the seed is a field. *)
Definition proved : Oracle * Manager (Trie := Rooted) * result string SmErr := prove (ColdTrie := Rebuild) root_Count root_Sum "s" "n3" true all_ok mgr0.
Lemma proved_is : proved = (fst (fst proved), snd (fst proved), Ok (root +:+ String "001" "inner")).
Proof. assert (snd proved = Ok (root +:+ String "001" "inner")) as H by (vm_compute; reflexivity). destruct proved as [[o w] r]. cbn in *. by rewrite H. Qed.

Lemma proof_is_of_claimed_root_witness : exists g t r, resident (snd (fst proved)) "s" = Some g /\ object (snd (fst proved)) g = Some t /\ t_claimedRoot t = Some r /\
  proof_of (ColdTrie := Rebuild) r "n3" true (root +:+ String "001" "inner").
Proof. exact (proof_is_of_claimed_root root_Count root_Sum "s" "n3" true all_ok _ mgr0 _ _ proved_is). Defined.

(** ** Two compactions of one session *)

(** The second has seen the nodes when the first deletes them, reads none, and
    stores its blob over the first one's; it does not rebuild, and is removed. *)
Definition race : M (Manager (Trie := Rooted)) (coldCompactionResult * result string coldCompactionResult) :=
  leavesA ← coldRead "s";
  storedA ← coldStore (ColdTrie := Rebuild) root_Count root_Sum "s" root (match leavesA with Ok l => l | Err _ => [] end);
  readyB ← coldReady "s";
  droppedA ← coldDrop "s" (match storedA with Ok b => b | Err _ => "" end);
  leavesB ← coldRead "s";
  storedB ← coldStore (ColdTrie := Rebuild) root_Count root_Sum "s" (match readyB with Ok r => r | Err _ => "" end) (match leavesB with Ok l => l | Err _ => [] end);
  mret (droppedA, storedB).

Lemma race_loses_tree :
  let '(_, w, r) := race all_ok mgr0 in
  r = (coldCompacted, Err coldMismatch) /\ rc_claimed (recs w "s") = Some root /\ map_to_list (rc_nodes (recs w "s")) = [] /\ rc_leaves (recs w "s") = None.
Proof. vm_compute. repeat split; reflexivity. Qed.
End Cold.
