(* ===== verification/EndpointPool.v ===== *)
(** * Backend endpoints, pools and the circuit breaker (pool/)

    An endpoint's health is a handful of atomics that request handlers, the
    selection path and the active health checker read and write without a lock.
    A method is a program of atomic actions ([prog]); what one action does is
    [act]. A call that nothing interrupts is run by [exec]; goroutines that
    interleave are run action by action by [step], in the order a schedule gives.

    Endpoints, health-check entries and selectors are pointers. An endpoint's
    [Cell] holds the endpoint itself, the gauge backend_health_status, and two
    records that are not in the code: the transitions reported for it and the
    changes of its health flag, newest first. Time passes before every action by
    what [pace] says next, and may step back, since the code compares wall
    clocks. *)

From S2P Require Import Prelude.
From Stdlib Require Import String.

Local Open Scope string_scope.
Local Open Scope Z_scope.
Local Open Scope list_scope.

(** ** Data *)

(** A [*BackendEndpoint], a [*BackendHealth], a [*RoundRobinSelector]. *)
Definition ptr := nat.
Bind Scope nat_scope with ptr.

(** An endpoint; [URL] is represented by its [Host]. *)
Record BackendEndpoint := mkEndpoint {
  Name : string;
  URL_Host : string;
  RawURL : string;
  healthy : bool;
  consecutiveFailures : Z;
  recoveryTimeout : Z;
  unhealthySinceNano : Z;
  pendingRecovery : bool
}.

(** What the code asks of an error: [errors.Is] context.Canceled and
    DeadlineExceeded, [errors.As] net.Error with its Timeout, [errors.As]
    net.DNSError. *)
Record GoErr := mkErr {
  er_canceled : bool;
  er_deadline : bool;
  er_net : option bool;
  er_dns : bool
}.

Record TransitionEvent := mkEvent {
  ev_Endpoint : ptr;
  ev_OldHealthy : bool;
  ev_NewHealthy : bool;
  ev_Failures : Z;
  ev_StatusCode : Z;
  ev_Error : option GoErr;
  ev_Downtime : Z;
  ev_AutoRecovered : bool
}.

(** Who reports a transition: a request's result, or the active health check. *)
Inductive Source := Traffic | Probe.
(** How the health flag changed: by a compare-and-swap or by a plain store. *)
Inductive How := ByCAS | ByStore.

#[export] Instance Source_eq_dec : EqDecision Source.
Proof. solve_decision. Defined.
#[export] Instance How_eq_dec : EqDecision How.
Proof. solve_decision. Defined.

Record Cell := mkCell {
  c_ep : BackendEndpoint;
  c_gauge : option bool;
  c_reports : list (Source * bool);
  c_flips : list (How * bool)
}.

(** The active health check's entry of one endpoint: RegisterPool makes every
    entry with its endpoint set. *)
Record BackendHealth := mkHealth {
  h_endpoint : ptr;
  h_consecutiveSuccesses : Z;
  h_lastCheck : Z;
  h_lastError : string
}.

Record World := mkWorld {
  cells : ptr -> Cell;
  probes : ptr -> BackendHealth;
  counters : ptr -> Z;
  clock : Z;
  pace : list Z
}.

(** ** Machine integers and time *)

Definition wrap32 (z : Z) : Z := (z + 2 ^ 31) mod 2 ^ 32 - 2 ^ 31.
(** [time.Sub] saturates. *)
Definition saturate (z : Z) : Z := Z.max int64_min (Z.min int64_max z).
(** [time.Since(time.Unix(0, since))] at [now]. *)
Definition since (now s : Z) : Z := saturate (now - s).

(** ** Atomic actions *)

Inductive op : Set -> Type :=
| HealthyLoad (p : ptr) : op bool
| HealthyCAS (p : ptr) (old new : bool) : op bool
| HealthyStore (p : ptr) (b : bool) : op unit
| FailuresAdd (p : ptr) (d : Z) : op Z
| FailuresLoad (p : ptr) : op Z
| FailuresStore (p : ptr) (v : Z) : op unit
| SinceLoad (p : ptr) : op Z
| SinceStore (p : ptr) (v : Z) : op unit
| PendingCAS (p : ptr) (old new : bool) : op bool
| PendingStore (p : ptr) (b : bool) : op unit
| TimeoutRead (p : ptr) : op Z
| CounterAdd (s : ptr) (d : Z) : op Z
| SuccessesAdd (h : ptr) (d : Z) : op Z
| SuccessesStore (h : ptr) (v : Z) : op unit
| LastCheckStore (h : ptr) (t : Z) : op unit
| LastErrorStore (h : ptr) (err : string) : op unit
| EntryEndpoint (h : ptr) : op ptr
| Now : op Z
| Report (p : ptr) (src : Source) (up : bool) : op unit
| GaugeSet (p : ptr) (b : bool) : op unit.

Inductive prog (A : Type) : Type :=
| Ret (a : A)
| Act {R : Set} (o : op R) (k : R -> prog A).
Arguments Ret {A} a.
Arguments Act {A R} o k.

Fixpoint bind {A B} (p : prog A) (f : A -> prog B) : prog B :=
  match p with
  | Ret a => f a
  | Act o k => Act o (fun r => bind (k r) f)
  end.

Declare Scope pool_scope.
Delimit Scope pool_scope with pool.
Notation "x <~ o ; k" := (Act o (fun x => k))
  (at level 100, o at level 99, k at level 200, right associativity) : pool_scope.
Notation "o ~> k" := (Act o (fun _ => k))
  (at level 100, k at level 200, right associativity) : pool_scope.
Notation "x <- p ; q" := (bind p (fun x => q))
  (at level 100, p at level 99, q at level 200, right associativity) : pool_scope.
Local Open Scope pool_scope.

(** ** What an action does *)

Definition upd {A} (f : ptr -> A) (p : ptr) (a : A) : ptr -> A :=
  fun q => if Nat.eqb q p then a else f q.

Definition with_healthy (b : bool) (e : BackendEndpoint) : BackendEndpoint :=
  mkEndpoint (Name e) (URL_Host e) (RawURL e) b (consecutiveFailures e) (recoveryTimeout e) (unhealthySinceNano e) (pendingRecovery e).
Definition with_failures (v : Z) (e : BackendEndpoint) : BackendEndpoint :=
  mkEndpoint (Name e) (URL_Host e) (RawURL e) (healthy e) v (recoveryTimeout e) (unhealthySinceNano e) (pendingRecovery e).
Definition with_since (v : Z) (e : BackendEndpoint) : BackendEndpoint :=
  mkEndpoint (Name e) (URL_Host e) (RawURL e) (healthy e) (consecutiveFailures e) (recoveryTimeout e) v (pendingRecovery e).
Definition with_pending (b : bool) (e : BackendEndpoint) : BackendEndpoint :=
  mkEndpoint (Name e) (URL_Host e) (RawURL e) (healthy e) (consecutiveFailures e) (recoveryTimeout e) (unhealthySinceNano e) b.

Definition on_ep (f : BackendEndpoint -> BackendEndpoint) (c : Cell) : Cell :=
  mkCell (f (c_ep c)) (c_gauge c) (c_reports c) (c_flips c).
(** The flag is written; a write that changes it is a flip. *)
Definition flag (how : How) (b : bool) (c : Cell) : Cell :=
  mkCell (with_healthy b (c_ep c)) (c_gauge c) (c_reports c)
    (if Bool.eqb (healthy (c_ep c)) b then c_flips c else (how, b) :: c_flips c).
Definition reported (src : Source) (up : bool) (c : Cell) : Cell :=
  mkCell (c_ep c) (c_gauge c) ((src, up) :: c_reports c) (c_flips c).
Definition gauged (b : bool) (c : Cell) : Cell :=
  mkCell (c_ep c) (Some b) (c_reports c) (c_flips c).

Definition on_cell (p : ptr) (f : Cell -> Cell) (w : World) : World :=
  mkWorld (upd (cells w) p (f (cells w p))) (probes w) (counters w) (clock w) (pace w).
Definition on_probe (h : ptr) (f : BackendHealth -> BackendHealth) (w : World) : World :=
  mkWorld (cells w) (upd (probes w) h (f (probes w h))) (counters w) (clock w) (pace w).
Definition on_counter (s : ptr) (v : Z) (w : World) : World :=
  mkWorld (cells w) (probes w) (upd (counters w) s v) (clock w) (pace w).

Definition tick (w : World) : World :=
  match pace w with
  | [] => w
  | d :: rest => mkWorld (cells w) (probes w) (counters w) (clock w + d) rest
  end.

Definition ep (w : World) (p : ptr) : BackendEndpoint := c_ep (cells w p).

Definition effect {R} (o : op R) (w : World) : R * World :=
  match o in op R return R * World with
  | HealthyLoad p => (healthy (ep w p), w)
  | HealthyCAS p old new =>
      if Bool.eqb (healthy (ep w p)) old then (true, on_cell p (flag ByCAS new) w) else (false, w)
  | HealthyStore p b => (tt, on_cell p (flag ByStore b) w)
  | FailuresAdd p d =>
      let v := wrap32 (consecutiveFailures (ep w p) + d) in (v, on_cell p (on_ep (with_failures v)) w)
  | FailuresLoad p => (consecutiveFailures (ep w p), w)
  | FailuresStore p v => (tt, on_cell p (on_ep (with_failures v)) w)
  | SinceLoad p => (unhealthySinceNano (ep w p), w)
  | SinceStore p v => (tt, on_cell p (on_ep (with_since v)) w)
  | PendingCAS p old new =>
      if Bool.eqb (pendingRecovery (ep w p)) old then (true, on_cell p (on_ep (with_pending new)) w) else (false, w)
  | PendingStore p b => (tt, on_cell p (on_ep (with_pending b)) w)
  | TimeoutRead p => (recoveryTimeout (ep w p), w)
  | CounterAdd s d => let v := wrapu64 (counters w s + d) in (v, on_counter s v w)
  | SuccessesAdd h d =>
      let v := wrap32 (h_consecutiveSuccesses (probes w h) + d) in
      (v, on_probe h (fun b => mkHealth (h_endpoint b) v (h_lastCheck b) (h_lastError b)) w)
  | SuccessesStore h v => (tt, on_probe h (fun b => mkHealth (h_endpoint b) v (h_lastCheck b) (h_lastError b)) w)
  | LastCheckStore h t => (tt, on_probe h (fun b => mkHealth (h_endpoint b) (h_consecutiveSuccesses b) t (h_lastError b)) w)
  | LastErrorStore h e => (tt, on_probe h (fun b => mkHealth (h_endpoint b) (h_consecutiveSuccesses b) (h_lastCheck b) e) w)
  | EntryEndpoint h => (h_endpoint (probes w h), w)
  | Now => (clock w, w)
  | Report p src up => (tt, on_cell p (reported src up) w)
  | GaugeSet p b => (tt, on_cell p (gauged b) w)
  end.

Definition act {R} (o : op R) (w : World) : R * World := effect o (tick w).

(** A call run to its end with nothing between its actions but time. *)
Fixpoint exec {A} (p : prog A) (w : World) : A * World :=
  match p with
  | Ret a => (a, w)
  | Act o k => let (r, w') := act o w in exec (k r) w'
  end.

(** ** BackendEndpoint (pool/endpoint.go) *)

Definition IsHealthy (p : ptr) : prog bool :=
  h <~ HealthyLoad p;
  if h then Ret true else
  rt <~ TimeoutRead p;
  if 0 <? rt then
    s <~ SinceLoad p;
    if 0 <? s then
      now <~ Now;
      if rt <=? since now s then
        won <~ HealthyCAS p false true;
        if won then
          (FailuresStore p 0 ~> PendingStore p true ~> h' <~ HealthyLoad p; Ret h')
        else h' <~ HealthyLoad p; Ret h'
      else Ret false
    else Ret false
  else Ret false.

Definition CurrentlyHealthy (p : ptr) : prog bool := h <~ HealthyLoad p; Ret h.
Definition ConsumePendingRecovery (p : ptr) : prog bool := won <~ PendingCAS p true false; Ret won.
Definition SetHealthy (p : ptr) : prog unit :=
  SinceStore p 0 ~> PendingStore p false ~> HealthyStore p true ~> Ret tt.
Definition SetUnhealthy (p : ptr) : prog unit :=
  now <~ Now; SinceStore p (wrap64 now) ~> PendingStore p false ~> HealthyStore p false ~> Ret tt.
Definition IncrementFailures (p : ptr) : prog Z := v <~ FailuresAdd p 1; Ret v.
Definition ResetFailures (p : ptr) : prog unit := FailuresStore p 0 ~> Ret tt.
Definition ConsecutiveFailures (p : ptr) : prog Z := v <~ FailuresLoad p; Ret v.

(** *** Construction *)

(** [strings.CutPrefix]. *)
Definition CutPrefix (s prefix : string) : option string :=
  if String.prefix prefix s
  then Some (String.substring (String.length prefix) (String.length s - String.length prefix) s)
  else None.

Definition NormalizeGRPCScheme (rawURL : string) : string :=
  match CutPrefix rawURL "grpc://" with
  | Some rest => "http://" ++ rest
  | None =>
      match CutPrefix rawURL "grpcs://" with
      | Some rest => "https://" ++ rest
      | None => rawURL
      end
  end.

(** NewBackendEndpoint once the normalized URL was parsed and has a host. *)
Definition newEndpoint (name host rawURL : string) : BackendEndpoint :=
  mkEndpoint (if String.eqb name "" then host else name) host rawURL true 0 0 0 false.
Definition SetRecoveryTimeout (d : Z) (e : BackendEndpoint) : BackendEndpoint :=
  mkEndpoint (Name e) (URL_Host e) (RawURL e) (healthy e) (consecutiveFailures e) d (unhealthySinceNano e) (pendingRecovery e).

(** ** Classifying a result (pool/circuit_breaker.go) *)

Definition DefaultUnhealthyThreshold : Z := 5.
Definition DefaultRecoveryTimeout : Z := 30 * 10 ^ 9.

Definition isTimeoutError (e : GoErr) : bool :=
  if er_deadline e then true
  else match er_net e with Some true => true | _ => false end.

Definition isFailure (statusCode : Z) (err : option GoErr) : bool :=
  match err with
  | Some e => if er_canceled e then false else if isTimeoutError e then false else true
  | None => (500 <=? statusCode) && (statusCode <? 600)
  end.
Definition IsRetryable (statusCode : Z) (err : option GoErr) : bool := isFailure statusCode err.

Definition ClassifyFailure (statusCode : Z) (err : option GoErr) : string :=
  if negb (isFailure statusCode err) then "" else
  match err with
  | Some e =>
      match er_net e with
      | Some _ => "transport_error"
      | None => if er_dns e then "dns_error" else "backend_error"
      end
  | None => "backend_5xx"
  end.

(** ** Pool (pool/pool.go, interface.go, round_robin.go) *)

Inductive Selector := FirstHealthySelector | RoundRobinSelector (s : ptr).
Record Pool := mkPool { endpoints : list ptr; selector : Selector; poolName : string; strategyLabel : string }.

(** The first of [idxs] whose endpoint is healthy. *)
Fixpoint scan (eps : list ptr) (idxs : list nat) : prog Z :=
  match idxs with
  | [] => Ret (-1)
  | i :: rest =>
      match eps !! i with
      | None => Ret (-1)
      | Some p => h <- IsHealthy p; if h then Ret (Z.of_nat i) else scan eps rest
      end
  end.

Definition FirstHealthy_Select (eps : list ptr) : prog Z := scan eps (seq 0 (List.length eps)).

(** The indices from [idx] on, wrapping around. *)
Definition rotation (n idx : nat) : list nat := map (fun i => (idx + i) `mod` n)%nat (seq 0 n).

Definition RoundRobin_Select (s : ptr) (eps : list ptr) : prog Z :=
  match List.length eps with
  | O => Ret (-1)
  | n => c <~ CounterAdd s 1; scan eps (rotation n (Z.to_nat (c mod Z.of_nat n)))
  end.

Definition Select (sel : Selector) (eps : list ptr) : prog Z :=
  match sel with
  | FirstHealthySelector => FirstHealthy_Select eps
  | RoundRobinSelector s => RoundRobin_Select s eps
  end.

Definition Next (p : Pool) : prog (option ptr) :=
  idx <- Select (selector p) (endpoints p);
  if (idx <? 0) || (Z.of_nat (List.length (endpoints p)) <=? idx) then Ret None
  else Ret (endpoints p !! Z.to_nat idx).

Fixpoint HasHealthy (eps : list ptr) : prog bool :=
  match eps with
  | [] => Ret false
  | p :: rest => h <- IsHealthy p; if h then Ret true else HasHealthy rest
  end.

(** [exclude] is nil on a first attempt. *)
Fixpoint NextExcluding (eps : list ptr) (exclude : option ptr) : prog (option ptr) :=
  match eps with
  | [] => Ret None
  | p :: rest =>
      if bool_decide (Some p = exclude) then NextExcluding rest exclude else
      h <- IsHealthy p; if h then Ret (Some p) else NextExcluding rest exclude
  end.

(** The failure path of RecordResult. *)
Definition recordFailed (p : ptr) (statusCode : Z) (err : option GoErr) (threshold : Z) : prog (option TransitionEvent) :=
  failures <- IncrementFailures p;
  if threshold <=? failures then
    won <~ HealthyCAS p true false;
    if won then
      (now <~ Now; SinceStore p (wrap64 now) ~> PendingStore p false ~>
       Ret (Some (mkEvent p true false failures statusCode err 0 false)))
    else Ret None
  else Ret None.

(** How long the endpoint was down: 0 when no outage is recorded. *)
Definition downtimeOf (p : ptr) : prog Z :=
  s <~ SinceLoad p;
  if 0 <? s then now <~ Now; Ret (since now s) else Ret 0.

(** The success path of RecordResult after the failures were reset. *)
Definition recordRecovered (p : ptr) (statusCode : Z) : prog (option TransitionEvent) :=
  won <~ HealthyCAS p false true;
  if won then
    (downtime <- downtimeOf p;
     SinceStore p 0 ~> PendingStore p false ~>
     Ret (Some (mkEvent p false true 0 statusCode None downtime false)))
  else
    claimed <~ PendingCAS p true false;
    if claimed then
      (downtime <- downtimeOf p;
       SinceStore p 0 ~>
       Ret (Some (mkEvent p false true 0 statusCode None downtime true)))
    else Ret None.

Definition effectiveThreshold (threshold : Z) : Z := if threshold <=? 0 then DefaultUnhealthyThreshold else threshold.

Definition RecordResult (p : ptr) (statusCode : Z) (err : option GoErr) (threshold : Z) : prog (option TransitionEvent) :=
  if isFailure statusCode err then recordFailed p statusCode err (effectiveThreshold threshold)
  else
    f <- ConsecutiveFailures p;
    if 0 <? f then (_ <- ResetFailures p; recordRecovered p statusCode)
    else recordRecovered p statusCode.

(** ** The callers that report (relayer/circuit_breaker_log.go, proxy.go) *)

(** logCircuitBreakerTransition: which of the two lines is written. *)
Definition logCircuitBreakerTransition (t : TransitionEvent) : prog unit :=
  match ev_OldHealthy t, ev_NewHealthy t with
  | true, false => Report (ev_Endpoint t) Traffic false ~> Ret tt
  | false, true => Report (ev_Endpoint t) Traffic true ~> Ret tt
  | _, _ => Ret tt
  end.

(** What every serving path does with a backend's answer. *)
Definition recordAndLog (p : ptr) (statusCode : Z) (err : option GoErr) (threshold : Z) : prog unit :=
  t <- RecordResult p statusCode err threshold;
  match t with Some t => logCircuitBreakerTransition t | None => Ret tt end.

(** ** The active health check (relayer/healthcheck.go) *)

Record HealthCheckConfig := mkCheckConfig {
  cfg_ExpectedStatus : list Z;
  cfg_ExpectedBody : string;
  cfg_UnhealthyThreshold : Z;
  cfg_HealthyThreshold : Z
}.
Definition defaultUnhealthyThreshold : Z := 3.
Definition defaultHealthyThreshold : Z := 2.

Definition recordFailure (h : ptr) (cfg : HealthCheckConfig) (errMsg : string) : prog unit :=
  now <~ Now;
  LastCheckStore h (wrap64 now) ~>
  LastErrorStore h errMsg ~>
  SuccessesStore h 0 ~>
  p <~ EntryEndpoint h;
  failures <- IncrementFailures p;
  if (if 0 <? cfg_UnhealthyThreshold cfg then cfg_UnhealthyThreshold cfg else defaultUnhealthyThreshold) <=? failures then
    wasHealthy <- CurrentlyHealthy p;
    _ <- SetUnhealthy p;
    if wasHealthy then (Report p Probe false ~> GaugeSet p false ~> Ret tt) else Ret tt
  else Ret tt.

(** [wasUnhealthy || ConsumePendingRecovery()], which does not claim the mark of
    an endpoint it found unhealthy. *)
Definition recoveredNow (p : ptr) : prog bool :=
  was <- CurrentlyHealthy p;
  if was then ConsumePendingRecovery p else Ret true.

Definition recordSuccess (h : ptr) (cfg : HealthCheckConfig) : prog unit :=
  now <~ Now;
  LastCheckStore h (wrap64 now) ~>
  LastErrorStore h "" ~>
  p <~ EntryEndpoint h;
  _ <- ResetFailures p;
  successes <~ SuccessesAdd h 1;
  if (if 0 <? cfg_HealthyThreshold cfg then cfg_HealthyThreshold cfg else defaultHealthyThreshold) <=? successes then
    recovered <- recoveredNow p;
    _ <- SetHealthy p;
    if recovered then
      (_ <- ResetFailures p;
       SuccessesStore h 0 ~> Report p Probe true ~> GaugeSet p true ~> Ret tt)
    else Ret tt
  else Ret tt.

(** [strings.Contains]. *)
Fixpoint contains (s sub : string) : bool :=
  String.prefix sub s || match s with EmptyString => false | String _ rest => contains rest sub end.

Inductive ProbeErr := UnexpectedStatus (st : Z) | UnhealthyStatus (st : Z) | BodyNotFound.

Definition validateResponse (statusCode : Z) (bodyText : string) (cfg : HealthCheckConfig) : option ProbeErr :=
  if (match cfg_ExpectedStatus cfg with [] => false | _ => true end) && negb (existsb (Z.eqb statusCode) (cfg_ExpectedStatus cfg))
  then Some (UnexpectedStatus statusCode)
  else if (match cfg_ExpectedStatus cfg with [] => true | _ => false end) && ((statusCode <? 200) || (300 <=? statusCode))
  then Some (UnhealthyStatus statusCode)
  else if negb (String.eqb (cfg_ExpectedBody cfg) "") && negb (contains bodyText (cfg_ExpectedBody cfg))
  then Some BodyNotFound
  else None.

(** What became of a probe's request: no response, with the message of the
    error, or a response. *)
Inductive Probed := NoResponse (errMsg : string) | Response (statusCode : Z) (bodyText : string).

(** checkEndpoint once the request was made; [render] is the error's text. *)
Definition checkEndpoint (render : ProbeErr -> string) (h : ptr) (cfg : HealthCheckConfig) (ans : Probed) : prog unit :=
  match ans with
  | NoResponse m => recordFailure h cfg m
  | Response st b =>
      match validateResponse st b cfg with
      | Some e => recordFailure h cfg (render e)
      | None => recordSuccess h cfg
      end
  end.

(** ** Building a pool (relayer/config.go) *)

(** BuildPools: the selector of the configured strategy and its label. [s] is
    the counter of a new RoundRobinSelector; None is a strategy it refuses. *)
Definition chooseSelector (loadBalancing : string) (n : nat) (s : ptr) : option (Selector * string) :=
  if String.eqb loadBalancing "round_robin" then Some (RoundRobinSelector s, "round_robin(explicit)")
  else if String.eqb loadBalancing "first_healthy" then Some (FirstHealthySelector, "first_healthy(explicit)")
  else if String.eqb loadBalancing "" then
    if (1 <? n)%nat then Some (RoundRobinSelector s, "round_robin(auto)") else Some (FirstHealthySelector, "first_healthy(auto)")
  else None.

(** BuildPools: what it does to a new endpoint's timeout. *)
Definition applyRecoveryTimeout (seconds : option Z) (e : BackendEndpoint) : BackendEndpoint :=
  let rt := match seconds with Some s => wrap64 (s * 10 ^ 9) | None => DefaultRecoveryTimeout end in
  if 0 <? rt then SetRecoveryTimeout rt e else e.

(** ** Serving a request (relayer/proxy.go) *)

(** [cfg] is the backend's health check, where it has one. *)
Definition getCircuitBreakerThreshold (cfg : option HealthCheckConfig) : Z :=
  match cfg with
  | Some c => if 0 <? cfg_UnhealthyThreshold c then wrap32 (cfg_UnhealthyThreshold c) else DefaultUnhealthyThreshold
  | None => DefaultUnhealthyThreshold
  end.
Definition getMaxRetries (configured : option Z) : Z := match configured with Some n => n | None => 1 end.

(** One turn of the loop: whether the request's context was done before it, and
    what the backend answered. *)
Record Attempt := mkAttempt { at_ctxDone : bool; at_status : Z; at_err : option GoErr; at_streaming : bool }.

(** The tests that leave the loop after an answer. *)
Definition stops (a : Attempt) : bool :=
  match at_err a with
  | None => (at_status a <? 500) || ((500 <=? at_status a) && negb (IsRetryable (at_status a) None))
  | Some e => negb (IsRetryable (at_status a) (Some e))
  end || at_streaming a.

(** The endpoint of one turn: a retry takes another healthy one than the last,
    or leaves the loop; [inr None] is Next finding none. *)
Definition pickEndpoint (pl : Pool) (retry : bool) (last : option ptr) : prog (unit + option ptr) :=
  match retry, last with
  | true, Some _ =>
      sel <- NextExcluding (endpoints pl) last;
      match sel with Some p => Ret (inr (Some p)) | None => Ret (inl tt) end
  | _, _ => sel <- Next pl; Ret (inr sel)
  end.

(** The loop over [attempts], one for each turn the retries allow; it answers the
    endpoints called, in order. A turn that found no endpoint is an error that
    may be retried, with no last endpoint. *)
Fixpoint forwardLoop (pl : Pool) (threshold : Z) (retry : bool) (last : option ptr) (attempts : list Attempt) : prog (list ptr) :=
  match attempts with
  | [] => Ret []
  | a :: rest =>
      if retry && at_ctxDone a then Ret [] else
      chosen <- pickEndpoint pl retry last;
      match chosen with
      | inl _ => Ret []
      | inr None => forwardLoop pl threshold true None rest
      | inr (Some p) =>
          _ <- recordAndLog p (at_status a) (at_err a) threshold;
          if stops a then Ret [p] else
          ps <- forwardLoop pl threshold true (Some p) rest; Ret (p :: ps)
      end
  end.

(** ** The calls of the process, one at a time and interleaved *)

Inductive call :=
| CNext (p : Pool)
| CHasHealthy (eps : list ptr)
| CNextExcluding (eps : list ptr) (exclude : option ptr)
| CResult (p : ptr) (statusCode : Z) (err : option GoErr) (threshold : Z)
| CForward (pl : Pool) (threshold : Z) (attempts : list Attempt)
| CProbe (render : ProbeErr -> string) (h : ptr) (cfg : HealthCheckConfig) (ans : Probed).

Definition body (c : call) : prog unit :=
  match c with
  | CNext p => _ <- Next p; Ret tt
  | CHasHealthy eps => _ <- HasHealthy eps; Ret tt
  | CNextExcluding eps x => _ <- NextExcluding eps x; Ret tt
  | CResult p st e t => recordAndLog p st e t
  | CForward pl th ats => _ <- forwardLoop pl th false None ats; Ret tt
  | CProbe render h cfg ans => checkEndpoint render h cfg ans
  end.

(** Calls one after another. *)
Definition calls (cs : list call) (w : World) : World := fold_left (fun w c => snd (exec (body c) w)) cs w.

Record Sys := mkSys { world : World; threads : list (prog unit) }.
Inductive action := Spawn (c : call) | Run (i : nat).

(** One action of goroutine [i]; a goroutine that returned leaves. *)
Definition step (s : Sys) (a : action) : Sys :=
  match a with
  | Spawn c => mkSys (world s) (threads s ++ [body c])
  | Run i =>
      match threads s !! i with
      | None => s
      | Some (Ret _) => mkSys (world s) (take i (threads s) ++ drop (S i) (threads s))
      | Some (Act o k) => let (r, w') := act o (world s) in mkSys w' (<[i := k r]> (threads s))
      end
  end.
Definition steps (acts : list action) (s : Sys) : Sys := fold_left step acts s.

(** An endpoint as NewBackendEndpoint and BuildPools leave it. *)
Definition fresh (c : Cell) : Prop :=
  healthy (c_ep c) = true /\ pendingRecovery (c_ep c) = false /\ c_reports c = [] /\ c_flips c = [].
