(* ===== verification/EndpointSafety.v ===== *)
(** * What the circuit breaker and the selectors guarantee

    Selection: a selector finds an endpoint whenever one is healthy or due for
    its half-open retry, and answers only a healthy one. Reports: with calls one
    after another, the last transition reported for an endpoint tells whether it
    is up; interleaved, each outage the breaker detects is reported once, and no
    recovery is reported that did not happen. *)

From S2P Require Import Prelude EndpointPool.
From Stdlib Require Import String.

Local Open Scope Z_scope.
Local Open Scope list_scope.

(** ** The program logic *)

Lemma exec_bind {A B} (p : prog A) (f : A -> prog B) w :
  exec (bind p f) w = let (a, w') := exec p w in exec (f a) w'.
Proof. revert w. induction p as [a|R o k IH]; intros w; [done|]. cbn. destruct (act o w). apply IH. Qed.

(** The final world of a call satisfies [Q]. *)
Definition ends {A} (p : prog A) (Q : A -> World -> Prop) (w : World) : Prop := Q (fst (exec p w)) (snd (exec p w)).

Lemma ends_ret {A} (a : A) Q w : Q a w -> ends (Ret a) Q w.
Proof. done. Qed.
Lemma ends_bind {A B} (p : prog A) (f : A -> prog B) Q w :
  ends p (fun a => ends (f a) Q) w -> ends (bind p f) Q w.
Proof. unfold ends. rewrite exec_bind. by destruct (exec p w). Qed.
Lemma ends_act {A} {R : Set} (o : op R) (k : R -> prog A) Q w :
  (let (r, w') := effect o (tick w) in ends (k r) Q w') -> ends (Act o k) Q w.
Proof. unfold ends. cbn. unfold act. by destruct (effect o (tick w)). Qed.
Lemma ends_mono {A} (p : prog A) (Q Q' : A -> World -> Prop) w :
  ends p Q w -> (forall a w', Q a w' -> Q' a w') -> ends p Q' w.
Proof. unfold ends. auto. Qed.
Lemma ends_exec {A} (p : prog A) Q w : ends p Q w -> Q (fst (exec p w)) (snd (exec p w)).
Proof. done. Qed.

Lemma tick_cells w : cells (tick w) = cells w.
Proof. unfold tick. by destruct (pace w). Qed.
Lemma tick_probes w : probes (tick w) = probes w.
Proof. unfold tick. by destruct (pace w). Qed.
Lemma tick_counters w : counters (tick w) = counters w.
Proof. unfold tick. by destruct (pace w). Qed.

Lemma upd_eq {A} (f : ptr -> A) p a : upd f p a p = a.
Proof. unfold upd. by rewrite Nat.eqb_refl. Qed.
Lemma upd_ne {A} (f : ptr -> A) p q a : q <> p -> upd f p a q = f q.
Proof. unfold upd. intros H. by destruct (Nat.eqb_spec q p). Qed.

Lemma on_cell_cells p f w : cells (on_cell p f w) = upd (cells w) p (f (cells w p)).
Proof. done. Qed.
Lemma on_probe_cells h f w : cells (on_probe h f w) = cells w.
Proof. done. Qed.
Lemma on_counter_cells s v w : cells (on_counter s v w) = cells w.
Proof. done. Qed.
Lemma on_cell_probes p f w : probes (on_cell p f w) = probes w.
Proof. done. Qed.
Lemma on_probe_probes h f w : probes (on_probe h f w) = upd (probes w) h (f (probes w h)).
Proof. done. Qed.
Create Rewrite HintDb pool.
#[export] Hint Rewrite tick_cells tick_probes tick_counters on_cell_cells on_probe_cells on_counter_cells on_cell_probes on_probe_probes @upd_eq : pool.

(** One step of a call, with what the action reads spelled out. *)
Ltac ends_step :=
  match goal with
  | |- ends (Ret _) _ _ => apply ends_ret
  | |- ends (bind _ _) _ _ => apply ends_bind
  | |- ends (Act _ _) _ _ =>
      apply ends_act; cbn [effect]; unfold ep; autorewrite with pool;
      cbn [c_ep on_ep flag reported gauged healthy pendingRecovery with_healthy with_failures with_since with_pending h_endpoint h_consecutiveSuccesses]
  end.

(** ** The clock *)

(** The wall clock does not step back from here on. *)
Definition forward (w : World) : Prop := Forall (Z.le 0) (pace w).
(** [w'] is later than [w]. *)
Definition later (w w' : World) : Prop := forward w -> forward w' /\ clock w <= clock w'.

Lemma later_refl w : later w w.
Proof. intros H. split; [done|lia]. Qed.
Lemma later_trans w1 w2 w3 : later w1 w2 -> later w2 w3 -> later w1 w3.
Proof. intros H H' Hf. destruct (H Hf) as [Hf2 ?]. destruct (H' Hf2). split; [done|lia]. Qed.
Lemma later_tick w : later w (tick w).
Proof. unfold later, forward, tick. destruct (pace w) as [|d l] eqn:E; intros H; [rewrite E; split; [done|lia]|]. apply Forall_cons in H as [? ?]. cbn. split; [done|lia]. Qed.
Lemma effect_time {R : Set} (o : op R) w : pace (snd (effect o w)) = pace w /\ clock (snd (effect o w)) = clock w.
Proof. destruct o; cbn; try destruct (Bool.eqb _ _); done. Qed.
Lemma exec_later {A} (p : prog A) w : later w (snd (exec p w)).
Proof.
  revert w. induction p as [a|R o k IH]; intros w; [apply later_refl|]. cbn. unfold act.
  pose proof (effect_time o (tick w)) as [Hp Hc]. destruct (effect o (tick w)) as [r w']. cbn in *.
  eapply later_trans; [apply later_tick|]. eapply later_trans; [|apply IH]. unfold later, forward. rewrite Hp, Hc. split; [done|lia].
Qed.

(** ** IsHealthy *)

(** The half-open retry of an endpoint is due at [t]. *)
Definition due (t : Z) (e : BackendEndpoint) : bool :=
  (0 <? recoveryTimeout e) && (0 <? unhealthySinceNano e) && (recoveryTimeout e <=? since t (unhealthySinceNano e)).
Definition available (t : Z) (e : BackendEndpoint) : bool := healthy e || due t e.

(** What the half-open retry does to an endpoint. *)
Definition halfOpen (c : Cell) : Cell := on_ep (with_pending true) (on_ep (with_failures 0) (flag ByCAS true c)).

Lemma since_mono t t' s : t <= t' -> since t s <= since t' s.
Proof. unfold since, saturate. lia. Qed.
Lemma available_mono t t' e : t <= t' -> available t e = true -> available t' e = true.
Proof.
  unfold available, due. intros Ht [->|H]%orb_true_iff; [done|]. bool_to_prop. apply orb_true_iff. right.
  pose proof (since_mono t t' (unhealthySinceNano e) Ht). rewrite !andb_true_iff, !Z.ltb_lt, Z.leb_le. repeat split; [done..|lia].
Qed.

(** IsHealthy answers whether the endpoint is up or due, at a time after the
    call began; it retries a due endpoint and touches no other. *)
Definition asked (p : ptr) (w : World) (b : bool) (w' : World) : Prop :=
  exists t, (forward w -> clock w <= t) /\ b = available t (ep w p) /\
    (forall q, cells w' q = if Nat.eqb q p && negb (healthy (ep w p)) && b then halfOpen (cells w p) else cells w q).

Lemma IsHealthy_spec p w : ends (IsHealthy p) (asked p w) w.
Proof.
  unfold IsHealthy. ends_step. destruct (healthy (c_ep (cells w p))) eqn:Hh.
  { ends_step. exists (clock w). unfold available, ep. rewrite Hh. split; [lia|]. split; [done|]. intros q. rewrite tick_cells, andb_false_r. done. }

  assert (Ht : later w (tick (tick (tick (tick w))))) by (do 4 (eapply later_trans; [apply later_tick|]); apply later_refl).
  assert (Hn : forall t w', available t (ep w p) = false -> cells w' = cells w -> (forward w -> clock w <= t) -> asked p w false w').
  { intros t w' Ha Hc Hl. exists t. split; [done|]. split; [done|]. intros q. by rewrite andb_false_r, Hc. }
  ends_step. destruct (0 <? _) eqn:Hr; [|ends_step; apply (Hn (clock w)); [by unfold available, due, ep; rewrite Hh, Hr|by rewrite !tick_cells|lia]].
  ends_step. destruct (0 <? unhealthySinceNano _) eqn:Hs; [|ends_step; apply (Hn (clock w)); [by unfold available, due, ep; rewrite Hh, Hr, Hs|by rewrite !tick_cells|lia]].
  ends_step. destruct (_ <=? _) eqn:Hd; [|ends_step; apply (Hn (clock (tick (tick (tick (tick w)))))); [by unfold available, due, ep; rewrite Hh, Hr, Hs, Hd|by rewrite !tick_cells|intros Hf; by apply Ht]].
  ends_step. rewrite Hh. cbn [Bool.eqb]. do 4 ends_step.
  exists (clock (tick (tick (tick (tick w))))). split; [intros Hf; by apply Ht|].
  split; [unfold available, due, ep; by rewrite Hh, Hr, Hs, Hd|]. intros q. autorewrite with pool.
  unfold ep. rewrite Hh. cbn [negb]. rewrite !andb_true_r. unfold upd. by destruct (Nat.eqb q p).
Qed.

(** ** Selection *)

(** Some endpoint of [l] may be selected at [w]. *)
Definition available_in (w : World) (l : list ptr) : Prop := exists p, p ∈ l /\ available (clock w) (ep w p) = true.

(** An endpoint that was not chosen was not available when the call began, and
    the call left it as it was. *)
Lemma asked_no p w w' : asked p w false w' -> (forall q, cells w' q = cells w q) /\ (forward w -> available (clock w) (ep w p) = false).
Proof.
  intros (t & Hl & Ha & Hc). split; [intros q; by rewrite Hc, andb_false_r|]. intros Hf. destruct (available (clock w) (ep w p)) eqn:E; [|done].
  by rewrite (available_mono _ _ _ (Hl Hf) E) in Ha.
Qed.
Lemma asked_yes p w w' : asked p w true w' -> healthy (ep w' p) = true.
Proof.
  intros (t & _ & Ha & Hc). unfold ep in *. rewrite Hc, Nat.eqb_refl. destruct (healthy (c_ep (cells w p))) eqn:E; [exact E|done].
Qed.
Lemma available_later w w' p : later w w' -> forward w -> (forall q, cells w' q = cells w q) -> available (clock w) (ep w p) = true -> available (clock w') (ep w' p) = true.
Proof. intros Hl Hf Hc Ha. unfold ep. rewrite Hc. apply (available_mono (clock w)); [by apply Hl|done]. Qed.

(** The answer of a scan over [idxs]: a healthy endpoint, or none of them was
    available. *)
Definition chosen (eps : list ptr) (idxs : list nat) (w : World) (i : Z) (w' : World) : Prop :=
  (exists j p, i = Z.of_nat j /\ j ∈ idxs /\ eps !! j = Some p /\ healthy (ep w' p) = true) \/
  (i = -1 /\ (forward w -> forall j p, j ∈ idxs -> eps !! j = Some p -> available (clock w) (ep w p) = false)).

Lemma scan_spec eps idxs w : Forall (fun i => is_Some (eps !! i)) idxs -> ends (scan eps idxs) (chosen eps idxs w) w.
Proof.
  revert w. induction idxs as [|i rest IH]; intros w Hi; cbn [scan].
  - right. split; [done|]. intros _ j p Hj. by apply not_elem_of_nil in Hj.
  - apply Forall_cons in Hi as [[p Hp] Hi]. rewrite Hp. apply ends_bind. pose proof (exec_later (IsHealthy p) w) as Hl.
    pose proof (IsHealthy_spec p w) as Ha. unfold ends at 1 in Ha. unfold ends at 1. destruct (exec (IsHealthy p) w) as [b w']. cbn [fst snd] in *. destruct b.
    + left. exists i, p. split; [done|]. split; [left|]. split; [done|]. by eapply asked_yes.
    + destruct (asked_no _ _ _ Ha) as [Hc Hno]. eapply ends_mono; [exact (IH w' Hi)|]. intros z w2 [(j & q & -> & Hj & Hq)|[-> Hall]].
      * left. exists j, q. split; [done|]. split; [by right|done].
      * right. split; [done|]. intros Hf j q Hj Hq. apply elem_of_cons in Hj as [->|Hj]; [rewrite Hp in Hq; simplify_eq; by apply Hno|].
        destruct (available (clock w) (ep w q)) eqn:E; [|done]. rewrite <-(Hall (proj1 (Hl Hf)) j q Hj Hq). symmetry. by apply (available_later w).
Qed.

Lemma rotation_elem n idx j : (j < n)%nat -> j ∈ rotation n idx.
Proof.
  intros Hj. unfold rotation. apply list_elem_of_fmap. assert (n <> 0)%nat as Hn by lia.
  exists ((j + (n - idx `mod` n)) `mod` n)%nat. split; [|apply elem_of_seq; pose proof (Nat.mod_upper_bound (j + (n - idx `mod` n)) n Hn); lia].
  rewrite Nat.Div0.add_mod_idemp_r. rewrite <-Nat.Div0.add_mod_idemp_l.
  pose proof (Nat.mod_upper_bound idx n Hn). replace (idx `mod` n + (j + (n - idx `mod` n)))%nat with (j + 1 * n)%nat by lia. by rewrite Nat.Div0.mod_add, Nat.mod_small.
Qed.
Lemma rotation_bound n idx j : j ∈ rotation n idx -> (j < n)%nat.
Proof. unfold rotation. intros (i & -> & Hi%elem_of_seq)%list_elem_of_fmap. apply Nat.mod_upper_bound. lia. Qed.

Lemma Select_spec sel eps w : ends (Select sel eps) (chosen eps (seq 0 (List.length eps)) w) w.
Proof.
  assert (Hin : forall l, (forall j, j ∈ l -> (j < List.length eps)%nat) -> Forall (fun i => is_Some (eps !! i)) l).
  { intros l H. apply Forall_forall. intros j Hj. by apply lookup_lt_is_Some, H. }
  destruct sel as [|s]; cbn [Select].
  - apply scan_spec, Hin. intros j Hj%elem_of_seq. lia.
  - unfold RoundRobin_Select. destruct (List.length eps) as [|n] eqn:En.
    + apply ends_ret. right. split; [done|]. intros _ j p Hj. by apply elem_of_seq in Hj; lia.
    + apply ends_act. cbn [effect]. set (idx := Z.to_nat _). eapply ends_mono; [apply scan_spec, Hin; intros j Hj%rotation_bound; lia|].
      intros z w' [(j & p & -> & Hj%rotation_bound & Hp)|[-> Hall]].
      * left. exists j, p. split; [done|]. split; [apply elem_of_seq; lia|done].
      * right. split; [done|]. intros Hf j p Hj%elem_of_seq Hp. destruct (later_tick w Hf) as [Hf' Hc].
        destruct (available (clock w) (ep w p)) eqn:E; [|done].
        pose proof (Hall Hf' j p (rotation_elem (S n) idx j ltac:(lia)) Hp) as Hx.
        assert (Hy : available (clock (tick w)) (ep (tick w) p) = true) by (apply (available_later w); [apply later_tick|done|intros q; by rewrite tick_cells|done]).
        unfold ep in Hx, Hy. cbn in Hx. congruence.
Qed.

(** Pool.Next with either selector answers a healthy endpoint of the pool;
    it answers none only when no endpoint was healthy or due for its half-open
    retry when it was called, so one available endpoint is always found. *)
Theorem next_finds_healthy pl w :
  forward w ->
  match fst (exec (Next pl) w) with
  | Some p => p ∈ endpoints pl /\ healthy (ep (snd (exec (Next pl) w)) p) = true
  | None => forall p, p ∈ endpoints pl -> available (clock w) (ep w p) = false
  end.
Proof.
  intros Hf. apply (ends_exec (Next pl) (fun o w' => match o with Some p => p ∈ endpoints pl /\ healthy (ep w' p) = true | None => forall p, p ∈ endpoints pl -> available (clock w) (ep w p) = false end)).
  apply ends_bind. eapply ends_mono; [apply Select_spec|]. intros z w' [(j & p & -> & Hj%elem_of_seq & Hp & Hh)|[-> Hall]].
  - destruct (_ || _) eqn:E; [apply orb_true_iff in E as [E|E]; bool_to_prop; lia|]. apply ends_ret. rewrite Nat2Z.id, Hp. split; [by eapply list_elem_of_lookup_2|done].
  - apply ends_ret. intros p [j Hj]%list_elem_of_lookup. apply (Hall Hf j); [|done]. apply elem_of_seq. apply lookup_lt_Some in Hj. lia.
Qed.

(** NextExcluding answers a healthy endpoint other than the excluded one, and
    none only when no other was available. *)
Lemma NextExcluding_spec eps x w :
  ends (NextExcluding eps x) (fun o w' => match o with
    | Some p => p ∈ eps /\ Some p <> x /\ healthy (ep w' p) = true
    | None => forward w -> forall p, p ∈ eps -> Some p <> x -> available (clock w) (ep w p) = false end) w.
Proof.
  revert w. induction eps as [|p rest IH]; intros w; cbn [NextExcluding]; [intros _ p Hp; by apply not_elem_of_nil in Hp|].
  destruct (bool_decide_reflect (Some p = x)) as [Hx|Hx].
  - eapply ends_mono; [apply IH|]. intros [q|] w'; cbn; [intros (? & ? & ?); split; [by right|done]|]. intros H Hf q Hq Hne. apply H; [done| |done]. apply elem_of_cons in Hq as [->|]; [congruence|done].
  - apply ends_bind. pose proof (exec_later (IsHealthy p) w) as Hl. pose proof (IsHealthy_spec p w) as Ha. unfold ends at 1 in Ha. unfold ends at 1.
    destruct (exec (IsHealthy p) w) as [b w']. cbn [fst snd] in *. destruct b; [apply ends_ret; split; [left|]; split; [done|]; by eapply asked_yes|].
    destruct (asked_no _ _ _ Ha) as [Hc Hno]. eapply ends_mono; [apply IH|]. intros [q|] w2; cbn; [intros (? & ? & ?); split; [by right|done]|].
    intros H Hf q Hq Hne. apply elem_of_cons in Hq as [->|Hq]; [by apply Hno|]. destruct (available (clock w) (ep w q)) eqn:E; [|done].
    rewrite <-(H (proj1 (Hl Hf)) q Hq Hne). symmetry. by apply (available_later w).
Qed.

(** *** Round robin *)

(** What [k] selections in a row answer. *)
Fixpoint nexts (k : nat) (pl : Pool) (w : World) : list (option ptr) :=
  match k with
  | O => []
  | S k => let (o, w') := exec (Next pl) w in o :: nexts k pl w'
  end.

Definition all_healthy (w : World) (eps : list ptr) : Prop := Forall (fun p => healthy (ep w p) = true) eps.

Lemma Next_all_healthy pl s w :
  selector pl = RoundRobinSelector s -> endpoints pl <> [] -> all_healthy w (endpoints pl) ->
  let c := wrapu64 (counters w s + 1) in
  ends (Next pl) (fun o w' => o = endpoints pl !! Z.to_nat (c mod Z.of_nat (List.length (endpoints pl))) /\
    (forall q, cells w' q = cells w q) /\ counters w' s = c) w.
Proof.
  intros Hs Hne Hall c. unfold Next. rewrite Hs. cbn [Select]. unfold RoundRobin_Select.
  destruct (List.length (endpoints pl)) as [|n] eqn:En; [by apply nil_length_inv in En|]. ends_step. ends_step. fold c.
  set (idx := Z.to_nat _). assert (Hidx : (idx < S n)%nat) by (unfold idx; pose proof (Z.mod_pos_bound c (Z.of_nat (S n)) ltac:(lia)); lia).
  unfold rotation. cbn [seq map]. rewrite Nat.add_0_r, (Nat.mod_small idx) by done. cbn [scan].
  destruct (lookup_lt_is_Some_2 (endpoints pl) idx) as [p Hp]; [lia|]. rewrite Hp. ends_step. unfold IsHealthy. ends_step.
  assert (Hh : healthy (c_ep (cells w p)) = true) by (unfold all_healthy in Hall; rewrite Forall_forall in Hall; by apply Hall, (list_elem_of_lookup_2 _ idx)).
  autorewrite with pool. rewrite Hh. do 2 ends_step.
  destruct (_ || _) eqn:E; [apply orb_true_iff in E as [E|E]; bool_to_prop; lia|]. ends_step. rewrite Nat2Z.id. split; [done|].
  split; [intros q; by autorewrite with pool|]. rewrite tick_counters. cbn. apply upd_eq.
Qed.

Lemma nexts_all_healthy pl s k w :
  selector pl = RoundRobinSelector s -> endpoints pl <> [] -> all_healthy w (endpoints pl) ->
  0 <= counters w s -> counters w s + Z.of_nat k < 2 ^ 64 ->
  nexts k pl w = map (fun i => endpoints pl !! Z.to_nat ((counters w s + 1 + Z.of_nat i) mod Z.of_nat (List.length (endpoints pl)))) (seq 0 k).
Proof.
  intros Hs Hne. revert w. induction k as [|k IH]; intros w Hall H0 Hk; [done|]. cbn [nexts].
  pose proof (Next_all_healthy pl s w Hs Hne Hall) as H. unfold ends in H. destruct (exec (Next pl) w) as [o w']. cbn [fst snd] in H. destruct H as (-> & Hc & Hs').
  unfold wrapu64 in *. rewrite (Z.mod_small (counters w s + 1) (2 ^ 64)) in * by lia. cbn [seq map]. f_equal; [by rewrite Z.add_0_r|].
  rewrite IH; [|by eapply Forall_impl; [exact Hall|]; intros p; unfold ep; by rewrite Hc|lia..]. rewrite Hs'. rewrite <-seq_shift, map_map. apply map_ext. intros i. do 3 f_equal. lia.
Qed.

Lemma rotation_NoDup n idx : NoDup (rotation n idx).
Proof.
  unfold rotation. apply NoDup_fmap_2_strong; [|apply NoDup_seq]. intros i j Hi%elem_of_seq Hj%elem_of_seq E.
  assert (n <> 0)%nat as Hn by lia. pose proof (Nat.div_mod (idx + i) n Hn). pose proof (Nat.div_mod (idx + j) n Hn).
  rewrite E in *. destruct (Nat.lt_trichotomy ((idx + i) / n) ((idx + j) / n)) as [Hq|[Hq|Hq]]; [nia|rewrite Hq in *; lia|nia].
Qed.
Lemma rotation_perm n idx : rotation n idx ≡ₚ seq 0 n.
Proof.
  apply NoDup_Permutation; [apply rotation_NoDup|apply NoDup_seq|]. intros j. rewrite elem_of_seq. split; [intros ?%rotation_bound; lia|intros [_ ?]; by apply rotation_elem].
Qed.
Lemma lookups_all {A} (l : list A) : map (fun i => l !! i) (seq 0 (List.length l)) = map Some l.
Proof.
  apply list_eq. intros i. rewrite !list_lookup_fmap. destruct (l !! i) as [a|] eqn:E.
  - rewrite lookup_seq_lt by (by eapply lookup_lt_Some). cbn. by rewrite E.
  - rewrite lookup_seq_ge by (by apply lookup_ge_None). done.
Qed.

(** Round robin is even: with every endpoint healthy, as many selections as
    the pool has endpoints choose each endpoint exactly once, while the 64-bit
    counter does not wrap in between. *)
Theorem round_robin_even pl s w :
  selector pl = RoundRobinSelector s -> all_healthy w (endpoints pl) ->
  0 <= counters w s -> counters w s + Z.of_nat (List.length (endpoints pl)) < 2 ^ 64 ->
  nexts (List.length (endpoints pl)) pl w ≡ₚ map Some (endpoints pl).
Proof.
  intros Hs Hall H0 Hk. destruct (endpoints pl) as [|p0 rest] eqn:E; [done|]. rewrite <-E in *. assert (Hne : endpoints pl <> []) by (by rewrite E).
  rewrite (nexts_all_healthy pl s) by done. set (n := List.length (endpoints pl)) in *. assert (0 < n)%nat by (subst n; rewrite E; cbn; lia).
  rewrite <-(lookups_all (endpoints pl)). fold n. transitivity (map (fun i => endpoints pl !! i) (rotation n (Z.to_nat (counters w s + 1)))); [|by apply Permutation_map, rotation_perm].
  unfold rotation. rewrite map_map. apply Permutation_refl', map_ext. intros i. f_equal. apply Nat2Z.inj. rewrite Z2Nat.id by (apply Z.mod_pos_bound; lia).
  rewrite Nat2Z.inj_mod, Nat2Z.inj_add, Z2Nat.id by lia. done.
Qed.

(** ** Retries *)

(** Each endpoint of the list is another than the one before it. *)
Fixpoint apart (last : option ptr) (ps : list ptr) : Prop :=
  match ps with
  | [] => True
  | p :: rest => Some p <> last /\ apart (Some p) rest
  end.

(** The endpoint a turn takes is the pool's, and a retry's another than the last. *)
Lemma pickEndpoint_spec pl retry last w :
  (retry = false -> last = None) ->
  ends (pickEndpoint pl retry last) (fun c _ => match c with inr (Some p) => p ∈ endpoints pl /\ Some p <> last | inr None => last = None | inl _ => True end) w.
Proof.
  intros Hr. unfold pickEndpoint.
  assert (Hn : forall w, ends (Next pl) (fun o _ => match o with Some p => p ∈ endpoints pl | None => True end) w).
  { intros w0. apply ends_bind. eapply ends_mono; [apply Select_spec|]. intros z w' [(j & p & -> & Hj%elem_of_seq & Hp & Hh)|[-> Hall]]; [|done].
    destruct (_ || _); [done|]. apply ends_ret. rewrite Nat2Z.id, Hp. by eapply list_elem_of_lookup_2. }
  destruct retry, last as [x|]; [|..|by specialize (Hr eq_refl)|]; apply ends_bind.
  - eapply ends_mono; [apply NextExcluding_spec|]. intros [p|] w'; [|done]. intros (H1 & H2 & _). by split.
  - eapply ends_mono; [apply Hn|]. intros [p|] w'; [|done]. by intros H.
  - eapply ends_mono; [apply Hn|]. intros [p|] w'; [|done]. by intros H.
Qed.

(** A request calls endpoints of its pool, no more than its retries allow, and
    each retry goes to another endpoint than the attempt before it. *)
Lemma retries_elsewhere pl th ats retry last w :
  (retry = false -> last = None) ->
  ends (forwardLoop pl th retry last ats) (fun ps _ => (List.length ps <= List.length ats)%nat /\ Forall (.∈ endpoints pl) ps /\ apart last ps) w.
Proof.
  revert retry last w. induction ats as [|a ats IH]; intros retry last w Hr; cbn [forwardLoop]; [by apply ends_ret|].
  destruct (retry && at_ctxDone a); [apply ends_ret; split_and!; cbn; [lia|done|done]|].
  apply ends_bind. eapply ends_mono; [by apply pickEndpoint_spec|]. intros [u|[p|]] w1 Hp.
  - apply ends_ret. split_and!; cbn; [lia|done|done].
  - destruct Hp as [Hin Hne]. apply ends_bind. eapply (ends_mono _ (fun _ _ => True)); [done|]. intros ? w2 _. destruct (stops a).
    + apply ends_ret. split_and!; cbn; [lia|by repeat constructor|done].
    + apply ends_bind. eapply ends_mono; [by apply IH|]. intros ps w3 (H1 & H2 & H3). apply ends_ret. split_and!; cbn; [lia|by constructor|done].
  - eapply ends_mono; [by apply IH|]. intros ps w3 (H1 & H2 & H3). split_and!; cbn; [lia|done|]. by subst last.
Qed.
