(* ===== verification/EndpointReports.v ===== *)
(** * What is reported of an endpoint's health

    One call after another, and interleaved action by action. *)

From S2P Require Import Prelude EndpointPool EndpointSafety.
From Stdlib Require Import String.

Local Open Scope Z_scope.
Local Open Scope list_scope.

(** ** Calls one after another *)

(** The last transition reported of an endpoint was that it is down. *)
Definition last_down (c : Cell) : bool := match c_reports c with (_, false) :: _ => true | _ => false end.
(** The endpoint is down, or it came back half-open and this is not reported. *)
Definition open_outage (c : Cell) : bool := negb (healthy (c_ep c)) || pendingRecovery (c_ep c).
Definition tracks (w : World) : Prop := forall q, last_down (cells w q) = open_outage (cells w q).

Lemma tracks_same w w' : tracks w -> (forall q, cells w' q = cells w q) -> tracks w'.
Proof. intros H E q. by rewrite E. Qed.
Lemma tracks_upd w w' p c : tracks w -> cells w' = upd (cells w) p c -> last_down c = open_outage c -> tracks w'.
Proof. intros H E Hc q. rewrite E. unfold upd. by destruct (Nat.eqb q p). Qed.

Lemma tracks_asked p w b w' : tracks w -> asked p w b w' -> tracks w'.
Proof.
  intros H (t & _ & Hb & Hc) q. rewrite Hc. destruct (Nat.eqb_spec q p) as [->|]; [|apply H]. cbn [andb]. destruct (healthy (ep w p)) eqn:E; [apply H|]. cbn [negb andb].
  destruct b; [|apply H]. specialize (H p). unfold open_outage in H. unfold ep in E. rewrite E in H. exact H.
Qed.

Lemma tracks_IsHealthy p w : tracks w -> ends (IsHealthy p) (fun _ => tracks) w.
Proof. intros H. eapply ends_mono; [apply IsHealthy_spec|]. intros b w'. by apply tracks_asked. Qed.

Lemma tracks_scan eps idxs w : tracks w -> ends (scan eps idxs) (fun _ => tracks) w.
Proof.
  revert w. induction idxs as [|i rest IH]; intros w H; cbn [scan]; [done|]. destruct (eps !! i) as [p|]; [|done].
  apply ends_bind. eapply ends_mono; [by apply tracks_IsHealthy|]. intros [] w' Hw'; [done|]. by apply IH.
Qed.
Lemma tracks_Next pl w : tracks w -> ends (Next pl) (fun _ => tracks) w.
Proof.
  intros H. apply ends_bind. eapply (ends_mono _ (fun _ => tracks)); [|intros z w' Hw'; by destruct (_ || _)].
  destruct (selector pl) as [|s]; cbn [Select]; [by apply tracks_scan|]. unfold RoundRobin_Select. destruct (List.length (endpoints pl)); [done|].
  ends_step. apply tracks_scan. eapply tracks_same; [exact H|]. intros q. by autorewrite with pool.
Qed.
Lemma tracks_HasHealthy eps w : tracks w -> ends (HasHealthy eps) (fun _ => tracks) w.
Proof.
  revert w. induction eps as [|p rest IH]; intros w H; cbn [HasHealthy]; [done|].
  apply ends_bind. eapply ends_mono; [by apply tracks_IsHealthy|]. intros [] w' Hw'; [done|]. by apply IH.
Qed.
Lemma tracks_NextExcluding eps x w : tracks w -> ends (NextExcluding eps x) (fun _ => tracks) w.
Proof.
  revert w. induction eps as [|p rest IH]; intros w H; cbn [NextExcluding]; [done|]. destruct (bool_decide _); [by apply IH|].
  apply ends_bind. eapply ends_mono; [by apply tracks_IsHealthy|]. intros [] w' Hw'; [done|]. by apply IH.
Qed.

(** The reads and writes of a call on one endpoint, to its end. *)
Ltac ends_walk :=
  repeat first
    [ ends_step
    | match goal with
      | |- ends (if ?b then _ else _) _ _ => destruct b eqn:?
      | |- ends (logCircuitBreakerTransition _) _ _ => unfold logCircuitBreakerTransition; cbn [ev_OldHealthy ev_NewHealthy ev_Endpoint]
      | |- context [Bool.eqb ?b _] => is_var b; destruct b
      | |- context [Bool.eqb (?f (c_ep (cells ?w ?p))) _] => destruct (f (c_ep (cells w p))) eqn:?; cbn [Bool.eqb]
      end ].

(** The end of such a call: every cell but the endpoint's is as it was, and the
    endpoint's own is compared with what it was. *)
Ltac tracks_end H :=
  let q := fresh "q" in
  intros q; cbn [ev_Endpoint]; autorewrite with pool; unfold upd;
  match goal with
  | |- context [Nat.eqb q ?p] => destruct (Nat.eqb q p); [|exact (H q)]; pose proof (H p) as Hp; unfold last_down, open_outage in Hp |- *; cbn in Hp |- *; repeat match goal with E : _ (c_ep _) = _ |- _ => progress rewrite E in * end; cbn in *; congruence
  | _ => exact (H q)
  end.

Lemma tracks_result p st e th w : tracks w -> ends (recordAndLog p st e th) (fun _ => tracks) w.
Proof.
  intros H. unfold recordAndLog, RecordResult, ConsecutiveFailures, ResetFailures, recordRecovered, downtimeOf, recordFailed, IncrementFailures.
  destruct (isFailure st e); ends_walk; tracks_end H.
Qed.

Lemma tracks_probe_failed h cfg m w : tracks w -> ends (recordFailure h cfg m) (fun _ => tracks) w.
Proof.
  intros H. unfold recordFailure, IncrementFailures, CurrentlyHealthy, SetUnhealthy. ends_walk; tracks_end H.
Qed.
Lemma tracks_probe_ok h cfg w : tracks w -> ends (recordSuccess h cfg) (fun _ => tracks) w.
Proof.
  intros H. unfold recordSuccess, ResetFailures, recoveredNow, CurrentlyHealthy, ConsumePendingRecovery, SetHealthy. ends_walk; tracks_end H.
Qed.

Lemma tracks_probe render h cfg ans w : tracks w -> ends (checkEndpoint render h cfg ans) (fun _ => tracks) w.
Proof. intros H. destruct ans as [m|st b]; cbn [checkEndpoint]; [by apply tracks_probe_failed|]. destruct (validateResponse st b cfg); [by apply tracks_probe_failed|by apply tracks_probe_ok]. Qed.

Lemma tracks_pick pl retry last w : tracks w -> ends (pickEndpoint pl retry last) (fun _ => tracks) w.
Proof.
  intros H. unfold pickEndpoint. destruct retry, last as [x|]; apply ends_bind;
    (eapply (ends_mono _ (fun _ => tracks)); [first [by apply tracks_NextExcluding|by apply tracks_Next]|intros [] w' Hw'; done]).
Qed.
Lemma tracks_forward pl th ats retry last w : tracks w -> ends (forwardLoop pl th retry last ats) (fun _ => tracks) w.
Proof.
  revert retry last w. induction ats as [|a ats IH]; intros retry last w H; cbn [forwardLoop]; [done|]. destruct (retry && at_ctxDone a); [done|].
  apply ends_bind. eapply ends_mono; [by apply tracks_pick|]. intros [u|[p|]] w1 H1; [done| |by apply IH].
  apply ends_bind. eapply ends_mono; [by apply tracks_result|]. intros ? w2 H2. destruct (stops a); [done|]. apply ends_bind. eapply ends_mono; [by apply IH|]. done.
Qed.

Lemma tracks_body c w : tracks w -> ends (body c) (fun _ => tracks) w.
Proof.
  destruct c; cbn [body]; intros H;
    [apply ends_bind; by apply tracks_Next|apply ends_bind; by apply tracks_HasHealthy|apply ends_bind; by apply tracks_NextExcluding
    |by apply tracks_result|apply ends_bind; by apply tracks_forward|by apply tracks_probe].
Qed.

Lemma tracks_calls cs w : tracks w -> tracks (calls cs w).
Proof. revert w. induction cs as [|c cs IH]; intros w H; [done|]. apply (IH (snd (exec (body c) w))). exact (tracks_body c w H). Qed.

Lemma fresh_tracks w : (forall q, fresh (cells w q)) -> tracks w.
Proof. intros H q. destruct (H q) as (H1 & H2 & H3 & _). unfold last_down, open_outage. by rewrite H1, H2, H3. Qed.

(** A successful result leaves the endpoint up with nothing left to report. *)
Lemma success_closes p st e th w :
  isFailure st e = false -> ends (recordAndLog p st e th) (fun _ w' => open_outage (cells w' p) = false) w.
Proof.
  intros Hok. unfold recordAndLog, RecordResult, ConsecutiveFailures, ResetFailures, recordRecovered, downtimeOf. rewrite Hok.
  ends_walk; autorewrite with pool; unfold open_outage; cbn; repeat match goal with E : _ (c_ep _) = _ |- _ => progress rewrite E in * end; done.
Qed.

(** C33. Whatever calls come one after another (selections, results of requests,
    probes of the active check) the last transition reported of an endpoint says
    it is down exactly when it is down or came back half-open unreported; and a
    successful result is followed by no open report of an outage. *)
Theorem reports_track_health cs w q :
  (forall q, fresh (cells w q)) ->
  let w' := calls cs w in
  last_down (cells w' q) = open_outage (cells w' q) /\
  forall st e th, isFailure st e = false -> last_down (cells (calls [CResult q st e th] w') q) = false.
Proof.
  intros Hf w'. pose proof (tracks_calls cs w (fresh_tracks w Hf)) as Ht. split; [apply Ht|]. intros st e th Hok.
  rewrite (tracks_calls [CResult q st e th] w' Ht q). exact (success_closes q st e th w' Hok).
Qed.

(** *** The threshold *)

Lemma wrap32_small z : 0 <= z < 2 ^ 31 -> wrap32 z = z.
Proof. intros H. unfold wrap32. rewrite Z.mod_small; lia. Qed.

Lemma failure_step p st e th w :
  isFailure st e = true ->
  ends (recordAndLog p st e th) (fun _ w' =>
    let f := wrap32 (consecutiveFailures (ep w p) + 1) in
    consecutiveFailures (ep w' p) = f /\ healthy (ep w' p) = healthy (ep w p) && negb (effectiveThreshold th <=? f)) w.
Proof.
  intros Hf. unfold recordAndLog, RecordResult, recordFailed, IncrementFailures. rewrite Hf. unfold ep.
  ends_walk; autorewrite with pool; cbn; repeat match goal with E : _ = _ |- _ => progress rewrite E end; rewrite ?andb_true_r; done.
Qed.

(** An endpoint trips at the threshold: after [k] failures in a row, whatever
    each was, it is up exactly when [k] is below the threshold. *)
Lemma breaker_trips p th (rs : list (Z * option GoErr)) w :
  healthy (ep w p) = true -> consecutiveFailures (ep w p) = 0 ->
  Forall (fun r => isFailure (fst r) (snd r) = true) rs -> Z.of_nat (List.length rs) < 2 ^ 31 ->
  let w' := calls (map (fun r => CResult p (fst r) (snd r) th) rs) w in
  consecutiveFailures (ep w' p) = Z.of_nat (List.length rs) /\ healthy (ep w' p) = (Z.of_nat (List.length rs) <? effectiveThreshold th).
Proof.
  intros Hh H0. induction rs as [|r rs IH] using rev_ind; intros Hall Hlen; cbn zeta.
  - cbn. rewrite H0, Hh. split; [done|]. symmetry. apply Z.ltb_lt. unfold effectiveThreshold, DefaultUnhealthyThreshold. destruct (th <=? 0) eqn:E; bool_to_prop; lia.
  - apply Forall_app in Hall as [Hall [Hr _]%Forall_cons]. rewrite length_app in Hlen |- *. cbn [List.length] in *. destruct (IH Hall ltac:(lia)) as [Hc Hu]. clear IH.
    rewrite map_app. unfold calls in *. rewrite fold_left_app. cbn [map fold_left body]. generalize dependent (fold_left (fun w c => snd (exec (body c) w)) (map (fun r => CResult p (fst r) (snd r) th) rs) w).
    intros w1 Hc Hu. destruct (ends_exec _ _ _ (failure_step p (fst r) (snd r) th w1 Hr)) as [Hc' Hu']. cbv zeta in *. rewrite Hc, wrap32_small in Hc' by lia. rewrite Hc, wrap32_small in Hu' by lia.
    split; [rewrite Hc'; lia|]. rewrite Hu', Hu. destruct (_ <? _) eqn:E1, (_ <=? _) eqn:E2, (Z.of_nat (List.length rs + 1) <? _) eqn:E3; bool_to_prop; try done; lia.
Qed.

(** ** Calls interleaved

    A goroutine that changed the flag by a compare-and-swap owes a report, and
    the mark of a half-open recovery carries one: [pays q Q u d p] says that the
    program [p], holding [u] recoveries and [d] outages of the endpoint [q] that
    are its own to report, reports no other, and ends with what [Q] allows. *)

Fixpoint pays {A} (q : ptr) (Q : A -> nat -> nat -> Prop) (u d : nat) (p : prog A) : Prop :=
  match p with
  | Ret a => Q a u d
  | @Act _ R o k =>
      match o in op R0 return ((R0 -> nat -> nat -> Prop) -> Prop) with
      | HealthyCAS p old new => fun K =>
          if Nat.eqb q p then
            match old, new with
            | false, true => K true (S u) d /\ K false u d
            | true, false => K true u (S d) /\ K false u d
            | _, _ => False
            end
          else forall r, K r u d
      | PendingStore p b => fun K => if Nat.eqb q p && b then exists u', u = S u' /\ K tt u' d else K tt u d
      | PendingCAS p old new => fun K =>
          if Nat.eqb q p then match old, new with true, false => K true (S u) d /\ K false u d | _, _ => False end
          else forall r, K r u d
      | Report p Traffic true => fun K => if Nat.eqb q p then exists u', u = S u' /\ K tt u' d else K tt u d
      | Report p Traffic false => fun K => if Nat.eqb q p then exists d', d = S d' /\ K tt u d' else K tt u d
      | _ => fun K => forall r, K r u d
      end (fun r u d => pays q Q u d (k r))
  end.

Lemma pays_bind {A B} q (Q : B -> nat -> nat -> Prop) (p : prog A) (f : A -> prog B) u d :
  pays q (fun a u d => pays q Q u d (f a)) u d p -> pays q Q u d (bind p f).
Proof.
  revert u d. induction p as [a|R o k IH]; intros u d; [done|]. cbn.
  destruct o; cbn; try (destruct (Nat.eqb q p)); repeat match goal with b : bool |- _ => destruct b | s : Source |- _ => destruct s end; cbn; auto; try (intros (? & ? & ?)); eauto; intros []; auto.
Qed.
Lemma pays_mono {A} q (Q Q' : A -> nat -> nat -> Prop) (p : prog A) u d :
  (forall a u d, Q a u d -> Q' a u d) -> pays q Q u d p -> pays q Q' u d p.
Proof.
  intros HQ. revert u d. induction p as [a|R o k IH]; intros u d; [apply HQ|]. cbn.
  destruct o; cbn; try (destruct (Nat.eqb q p)); repeat match goal with b : bool |- _ => destruct b | s : Source |- _ => destruct s end; cbn; auto; try (intros (? & ? & ?)); eauto; intros []; auto.
Qed.

(** Selection keeps what it holds. *)
Definition keeps {A} (u d : nat) (_ : A) (u' d' : nat) : Prop := u' = u /\ d' = d.

(** A program on one endpoint [p], for the endpoint [q] that is [p] or is not. *)
Ltac pays_walk :=
  cbn;
  repeat match goal with
  | E : (?q =? ?p)%nat = _ |- context [(?q =? ?p)%nat] => rewrite E; cbn
  | |- forall _, _ => intros ?; cbn
  | |- pays _ _ _ _ (if ?b then _ else _) => destruct b eqn:?; cbn
  | |- pays _ _ _ _ (bind _ _) => apply pays_bind; cbn
  | |- context [(?q =? ?p)%nat] => destruct (q =? p)%nat eqn:?; cbn
  | |- exists u', S ?u = S u' /\ _ => exists u; split; [done|]; cbn
  | |- _ /\ _ => split; cbn
  end; try done.

Lemma pays_IsHealthy q p u d : pays q (keeps u d) u d (IsHealthy p).
Proof. unfold IsHealthy, keeps. pays_walk. Qed.

Lemma pays_scan q eps idxs u d : pays q (keeps u d) u d (scan eps idxs).
Proof.
  induction idxs as [|i rest IH]; cbn [scan]; [done|]. destruct (eps !! i) as [p|]; [|done].
  apply pays_bind. eapply pays_mono; [|apply pays_IsHealthy]. intros [] ? ? [-> ->]; [done|exact IH].
Qed.
Lemma pays_Next q pl u d : pays q (keeps u d) u d (Next pl).
Proof.
  apply pays_bind. eapply (pays_mono _ (keeps u d)); [intros z ? ? [-> ->]; by destruct (_ || _)|].
  destruct (selector pl) as [|s]; cbn [Select]; [apply pays_scan|]. unfold RoundRobin_Select. destruct (List.length _); [done|]. intros c. apply pays_scan.
Qed.
Lemma pays_HasHealthy q eps u d : pays q (keeps u d) u d (HasHealthy eps).
Proof.
  induction eps as [|p rest IH]; cbn [HasHealthy]; [done|]. apply pays_bind. eapply pays_mono; [|apply pays_IsHealthy]. intros [] ? ? [-> ->]; [done|exact IH].
Qed.
Lemma pays_NextExcluding q eps x u d : pays q (keeps u d) u d (NextExcluding eps x).
Proof.
  induction eps as [|p rest IH]; cbn [NextExcluding]; [done|]. destruct (bool_decide _); [exact IH|].
  apply pays_bind. eapply pays_mono; [|apply pays_IsHealthy]. intros [] ? ? [-> ->]; [done|exact IH].
Qed.

(** A call starts with no outage to report and leaves none unreported. *)
Definition settled {A} (_ : A) (u d : nat) : Prop := d = O.

Lemma pays_result q p st e th u : pays q settled u 0 (recordAndLog p st e th).
Proof.
  unfold recordAndLog, RecordResult, ConsecutiveFailures, ResetFailures, recordRecovered, downtimeOf, recordFailed, IncrementFailures.
  destruct (isFailure st e); pays_walk.
Qed.
Lemma pays_probe_failed q h cfg m u : pays q settled u 0 (recordFailure h cfg m).
Proof. unfold recordFailure, IncrementFailures, CurrentlyHealthy, SetUnhealthy. pays_walk. Qed.
Lemma pays_probe_ok q h cfg u : pays q settled u 0 (recordSuccess h cfg).
Proof. unfold recordSuccess, ResetFailures, recoveredNow, CurrentlyHealthy, ConsumePendingRecovery, SetHealthy. pays_walk. Qed.

Lemma pays_probe q render h cfg ans : pays q settled 0 0 (checkEndpoint render h cfg ans).
Proof. destruct ans as [m|st b]; cbn [checkEndpoint]; [apply pays_probe_failed|]. destruct (validateResponse st b cfg); [apply pays_probe_failed|apply pays_probe_ok]. Qed.

Lemma pays_pick q pl retry last u d : pays q (keeps u d) u d (pickEndpoint pl retry last).
Proof.
  unfold pickEndpoint. destruct retry, last as [x|]; apply pays_bind;
    (eapply pays_mono; [|first [apply pays_NextExcluding|apply pays_Next]]); intros [] ? ? [-> ->]; done.
Qed.
Lemma pays_forward q pl th ats retry last u : pays q settled u 0 (forwardLoop pl th retry last ats).
Proof.
  revert retry last u. induction ats as [|a ats IH]; intros retry last u; cbn [forwardLoop]; [done|]. destruct (retry && at_ctxDone a); [done|].
  apply pays_bind. eapply pays_mono; [|apply pays_pick]. intros [r|[p|]] ? ? [-> ->]; [done| |apply IH].
  apply pays_bind. eapply pays_mono; [|apply pays_result]. intros ? u' ? ->. destruct (stops a); [done|]. apply pays_bind. eapply pays_mono; [|apply IH]. intros ? ? ? ->. done.
Qed.

Lemma pays_body q c : pays q settled 0 0 (body c).
Proof.
  destruct c; cbn [body];
    [apply pays_bind; eapply pays_mono; [|apply pays_Next]|apply pays_bind; eapply pays_mono; [|apply pays_HasHealthy]|apply pays_bind; eapply pays_mono; [|apply pays_NextExcluding]
    |apply pays_result|apply pays_bind; eapply pays_mono; [|apply pays_forward]|apply pays_probe].
  4: by intros ? ? ? ->.
  all: intros a u d [-> ->]; done.
Qed.

(** *** Counting *)

Definition times {A} `{EqDecision A} (x : A) (l : list A) : nat := List.length (filter (fun y => y = x) l).
Lemma times_cons {A} `{EqDecision A} (x y : A) l : times x (y :: l) = ((if decide (y = x) then 1 else 0) + times x l)%nat.
Proof. unfold times. rewrite filter_cons. by destruct (decide (y = x)). Qed.
(** The changes of the flag to [b]. *)
Definition changes (b : bool) (l : list (How * bool)) : nat := List.length (filter (fun y => snd y = b) l).
Lemma changes_cons b y l : changes b (y :: l) = ((if decide (snd y = b) then 1 else 0) + changes b l)%nat.
Proof. unfold changes. rewrite filter_cons. by destruct (decide (snd y = b)). Qed.

#[local] Arguments times : simpl never.
#[local] Arguments changes : simpl never.

(** What is owed in an endpoint's own state. *)
Definition marked (c : Cell) : nat := if pendingRecovery (c_ep c) then 1 else 0.
Definition ups (c : Cell) : nat := times (Traffic, true) (c_reports c).
Definition downs (c : Cell) : nat := times (Traffic, false) (c_reports c).
Definition cas (b : bool) (c : Cell) : nat := times (ByCAS, b) (c_flips c).
(** The flag's changes alternate, from up. *)
Definition alternates (c : Cell) : Prop := changes false (c_flips c) = (changes true (c_flips c) + if healthy (c_ep c) then 0 else 1)%nat.

(** Between [c] and [c'] the goroutine went from holding [u] and [d] to [u'] and [d']. *)
Definition moves (u d : nat) (c : Cell) (u' d' : nat) (c' : Cell) : Prop :=
  (ups c' + u' + marked c' + cas true c <= ups c + u + marked c + cas true c')%nat /\
  (downs c' + d' + cas false c = downs c + d + cas false c')%nat /\
  (alternates c -> alternates c').

Lemma moves_refl u d c : moves u d c u d c.
Proof. unfold moves. split_and!; [lia|lia|done]. Qed.

Ltac moves_end :=
  repeat match goal with b : bool |- _ => destruct b end;
  unfold moves, ups, downs, marked, cas, alternates; cbn;
  repeat match goal with E : _ (c_ep _) = _ |- _ => progress rewrite E end; cbn;
  repeat match goal with |- context [if ?f (c_ep ?c) then _ else _] => destruct (f (c_ep c)) | |- context [Bool.eqb (?f (c_ep ?c)) _] => destruct (f (c_ep c)) end; cbn;
  rewrite ?times_cons, ?changes_cons; cbn; repeat case_decide; simplify_eq; split_and!; intros; lia.

Lemma act_moves {A} q (Q : A -> nat -> nat -> Prop) {R : Set} (o : op R) (k : R -> prog A) u d w :
  pays q Q u d (Act o k) ->
  let (r, w') := act o w in exists u' d', pays q Q u' d' (k r) /\ moves u d (cells w q) u' d' (cells w' q).
Proof.
  unfold act. rewrite <-(tick_cells w). generalize (tick w). clear w. intros w.
  destruct o; cbn -[Bool.eqb]; unfold ep; intros H.
  all: try (eexists _, _; split; [apply H|]; cbn; first [apply moves_refl|unfold upd; destruct (q =? _)%nat eqn:E; [apply Nat.eqb_eq in E as <-; moves_end|apply moves_refl]]).
  - destruct (q =? p)%nat eqn:E; cycle 1.
    + destruct (Bool.eqb _ _); eexists _, _; (split; [apply H|]); cbn; unfold upd; rewrite ?E; apply moves_refl.
    + apply Nat.eqb_eq in E as <-. destruct old, new; try done; destruct H as [H1 H2], (healthy (c_ep (cells w q))) eqn:Eh; cbn; eexists _, _;
        (split; [first [exact H1|exact H2]|]); cbn; rewrite ?upd_eq; try apply moves_refl; moves_end.
  - destruct (q =? p)%nat eqn:E; cycle 1.
    + destruct (Bool.eqb _ _); eexists _, _; (split; [apply H|]); cbn; unfold upd; rewrite ?E; apply moves_refl.
    + apply Nat.eqb_eq in E as <-. destruct old, new; try done; destruct H as [H1 H2], (pendingRecovery (c_ep (cells w q))) eqn:Eh; cbn; eexists _, _;
        (split; [first [exact H1|exact H2]|]); cbn; rewrite ?upd_eq; try apply moves_refl; moves_end.
  - destruct (q =? p)%nat eqn:E; cbn in H; unfold upd; rewrite E.
    + apply Nat.eqb_eq in E as <-. destruct b; [destruct H as (u' & -> & H)|]; eexists _, _; (split; [exact H|]); moves_end.
    + eexists _, _; (split; [exact H|]). apply moves_refl.
  - destruct src, up; cbn in H |- *; unfold upd; destruct (q =? p)%nat eqn:E;
      try (eexists _, _; (split; [apply H|]); first [apply moves_refl|apply Nat.eqb_eq in E as <-; moves_end]).
    + apply Nat.eqb_eq in E as <-. destruct H as (u' & -> & H). eexists _, _; (split; [exact H|]). moves_end.
    + apply Nat.eqb_eq in E as <-. destruct H as (d' & -> & H). eexists _, _; (split; [exact H|]). moves_end.
Qed.

(** *** The goroutines together *)

Definition total (f : nat * nat -> nat) (l : list (nat * nat)) : nat := sum_list_with f l.
Lemma total_insert f l i x y : l !! i = Some x -> (total f (<[i := y]> l) + f x = total f l + f y)%nat.
Proof. apply sum_list_with_insert. Qed.
Lemma total_delete f l i x : l !! i = Some x -> (total f (take i l ++ drop (S i) l) + f x = total f l)%nat.
Proof. unfold total. revert i. induction l as [|z l IH]; intros [|i] H; cbn in *; simplify_eq; [rewrite drop_0; lia|]. specialize (IH i H). lia. Qed.
Lemma total_app f l l' : total f (l ++ l') = (total f l + total f l')%nat.
Proof. apply sum_list_with_app. Qed.

(** What the goroutines hold, the mark and the reports account for the flag's
    changes by compare-and-swap. *)
Definition accounted (q : ptr) (s : Sys) : Prop :=
  exists held, Forall2 (fun p ud => pays q settled (fst ud) (snd ud) p) (threads s) held /\
    let c := cells (world s) q in
    (ups c + total fst held + marked c <= cas true c)%nat /\
    (downs c + total snd held = cas false c)%nat /\ alternates c.

Lemma accounted_step q s a : accounted q s -> accounted q (step s a).
Proof.
  intros (held & Hp & Hu & Hd & Ha). destruct a as [c|i]; cbn [step].
  - exists (held ++ [(0, 0)%nat]). split; [apply Forall2_app; [done|]; constructor; [apply pays_body|done]|]. cbn. rewrite !total_app. cbn. split_and!; [lia|lia|done].
  - destruct (threads s !! i) as [p|] eqn:Hi; [|by exists held]. destruct (Forall2_lookup_l _ _ _ _ _ Hp Hi) as ([u d] & Hh & Hpay). destruct p as [[]|R o k].
    + exists (take i held ++ drop (S i) held). split; [apply Forall2_app; [by apply Forall2_take|by apply Forall2_drop]|]. cbn in Hpay. unfold settled in Hpay. cbn in Hpay. subst d.
      pose proof (total_delete fst held i _ Hh). pose proof (total_delete snd held i _ Hh). cbn in *. split_and!; [lia|lia|done].
    + pose proof (act_moves q settled o k u d (world s) Hpay) as Hm. destruct (act o (world s)) as [r w']. destruct Hm as (u' & d' & Hk & Hu' & Hd' & Ha').
      exists (<[i := (u', d')]> held). split; [by apply Forall2_insert|]. cbn [world]. pose proof (total_insert fst held i _ (u', d') Hh). pose proof (total_insert snd held i _ (u', d') Hh).
      cbn [fst snd] in *. cbn. split_and!; [lia|lia|by apply Ha'].
Qed.
Lemma accounted_steps q acts s : accounted q s -> accounted q (steps acts s).
Proof. revert s. induction acts as [|a acts IH]; intros s H; [done|]. apply IH. by apply accounted_step. Qed.
Lemma accounted_start q w : fresh (cells w q) -> accounted q (mkSys w []).
Proof. intros (H1 & H2 & H3 & H4). exists []. split; [done|]. unfold ups, downs, marked, cas, alternates. cbn. rewrite H1, H2, H3, H4. split_and!; [apply le_n|done|done]. Qed.

Lemma cas_le_changes b c : (cas b c <= changes b (c_flips c))%nat.
Proof.
  unfold cas. induction (c_flips c) as [|[h x] l IH]; [done|]. rewrite times_cons, changes_cons. cbn. repeat case_decide; simplify_eq; lia.
Qed.
Lemma cas_all b c : (forall x, x ∈ c_flips c -> fst x = ByCAS) -> changes b (c_flips c) = cas b c.
Proof.
  unfold cas. induction (c_flips c) as [|[h x] l IH]; [done|]. intros H. rewrite times_cons, changes_cons, IH by (intros y Hy; apply H; by right).
  pose proof (H (h, x) ltac:(left)) as Hh. cbn in *. subst h. repeat case_decide; simplify_eq; done.
Qed.

(** C32. However the goroutines of requests, selections and probes interleave
    their atomic actions, the recoveries that requests report are never more
    than the times the flag went up by compare-and-swap, nor than the times it
    went down; each time a request's failures take it down is reported at most
    once, and exactly once when no call is in flight; and with no active check
    the recoveries reported are then at most the outages reported. *)
Theorem each_outage_reported_once q acts w :
  fresh (cells w q) ->
  let s := steps acts (mkSys w []) in
  let c := cells (world s) q in
  (ups c <= cas true c <= changes false (c_flips c))%nat /\ (downs c <= cas false c)%nat /\
  (threads s = [] -> downs c = cas false c /\ ((forall x, x ∈ c_flips c -> fst x = ByCAS) -> (ups c <= downs c)%nat)).
Proof.
  intros Hf s c. destruct (accounted_steps q acts _ (accounted_start q w Hf)) as (held & Hp & Hu & Hd & Ha). fold s in Hp, Hu, Hd, Ha. fold c in Hu, Hd, Ha.
  pose proof (cas_le_changes true c). unfold alternates in Ha. split_and!; [lia|destruct (healthy (c_ep c)); lia|lia|].
  intros Hn. rewrite Hn in Hp. apply Forall2_nil_inv_l in Hp as ->. cbn in *. split; [lia|]. intros Hall. rewrite <-(cas_all false c Hall) in Hd. destruct (healthy (c_ep c)); lia.
Qed.

(** ** Runs of the backend pool

    The theorems at concrete worlds, and the runs on which what is reported of
    an endpoint stays wrong. *)

Local Open Scope string_scope.
Local Open Scope Z_scope.
Local Open Scope list_scope.

Module Backends.

Definition fresh_cell : Cell := mkCell (SetRecoveryTimeout DefaultRecoveryTimeout (newEndpoint "" "node:8545" (NormalizeGRPCScheme "grpc://node:8545"))) None [] [].
Definition start (pc : list Z) : World := mkWorld (fun _ => fresh_cell) (fun h => mkHealth h 0 0 "") (fun _ => 0) (10 ^ 18) pc.
Definition pool3 : Pool := mkPool [0; 1; 2]%nat (RoundRobinSelector 0) "svc:jsonrpc" "round_robin(auto)".
Definition refused : GoErr := mkErr false false (Some false) false.

Lemma start_fresh pc q : fresh (cells (start pc) q).
Proof. repeat split. Qed.
Lemma dialable : RawURL (c_ep fresh_cell) = "http://node:8545".
Proof. reflexivity. Qed.

(** Five refused connections take an endpoint down. *)
Definition outage (p : ptr) : list call := repeat (CResult p 0 (Some refused) 0) 5.
Definition one_down : World := calls (outage 1) (start []).
Definition two_left : list ptr := filter (fun p => healthy (ep one_down p) = true) [0; 1; 2]%nat.
Lemma one_is_down : two_left = [0; 2]%nat /\ last_down (cells one_down 1%nat) = true.
Proof. vm_compute. done. Qed.

Lemma next_finds_healthy_witness : fst (exec (Next pool3) one_down) = Some 2%nat /\ (2%nat ∈ [0; 1; 2]%nat /\ healthy (ep (snd (exec (Next pool3) one_down)) 2) = true).
Proof.
  assert (E : fst (exec (Next pool3) one_down) = Some 2%nat) by (vm_compute; reflexivity). split; [exact E|].
  assert (Hf : forward one_down) by (vm_compute; constructor). pose proof (next_finds_healthy pool3 one_down Hf) as H. rewrite E in H. exact H.
Defined.

Lemma round_robin_even_witness : nexts 3 pool3 (start []) = [Some 1%nat; Some 2%nat; Some 0%nat] /\ nexts 3 pool3 (start []) ≡ₚ map Some [0; 1; 2]%nat.
Proof.
  split; [vm_compute; reflexivity|]. apply (round_robin_even pool3 0 (start [])); [reflexivity|repeat constructor|vm_compute; discriminate|vm_compute; reflexivity].
Defined.

(** An outage, half a minute, the half-open retry, and a success that closes it. *)
Definition half_open : list call := outage 0 ++ [CNext (mkPool [0]%nat FirstHealthySelector "" "")].
Definition late : World := start (repeat 0 10 ++ [DefaultRecoveryTimeout]).

Lemma half_open_unreported : healthy (ep (calls half_open late) 0) = true /\ pendingRecovery (ep (calls half_open late) 0) = true.
Proof. vm_compute. done. Qed.
Lemma reports_track_health_witness :
  last_down (cells (calls half_open late) 0%nat) = true /\ last_down (cells (calls [CResult 0 200 None 0] (calls half_open late)) 0%nat) = false.
Proof.
  destruct (reports_track_health half_open late 0 (start_fresh _)) as [H1 H2]. split; [rewrite H1; vm_compute; reflexivity|]. apply (H2 200 None 0). reflexivity.
Defined.

(** ** Interleavings *)

(** A call run to its end, when no other is in flight. *)
Definition whole (c : call) : list action := Spawn c :: repeat (Run 0) 12.
Definition wholes (cs : list call) : list action := List.concat (map whole cs).

(** The fifth failure of a second outage has swapped the flag when a selection
    finds the timestamp of the first outage, long past: the selection brings the
    endpoint back and leaves the mark, and the failure then clears it. *)
Definition overlap : list action :=
  wholes half_open ++ wholes (repeat (CResult 0 0 (Some refused) 0) 4) ++
  [Spawn (CResult 0 0 (Some refused) 0); Run 0; Run 0; Spawn (CHasHealthy [0%nat])] ++ repeat (Run 1) 9 ++ repeat (Run 0) 5.
Notation raced := (steps overlap (mkSys late [])).

(** Every call has returned, the endpoint is up, and no report will say so: the
    next success finds no transition to report. *)
Lemma outage_left_open :
  threads raced = [] /\ open_outage (cells (world raced) 0%nat) = false /\ last_down (cells (world raced) 0%nat) = true /\
  last_down (cells (calls [CResult 0 200 None 0] (world raced)) 0%nat) = true.
Proof. vm_compute. done. Qed.

Lemma raced_idle : threads raced = [].
Proof. vm_compute. reflexivity. Qed.
Lemma raced_cas : cas false (cells (world raced) 0%nat) = 2%nat.
Proof. vm_compute. reflexivity. Qed.
Lemma raced_flips : c_flips (cells (world raced) 0%nat) = [(ByCAS, true); (ByCAS, false); (ByCAS, true); (ByCAS, false)].
Proof. vm_compute. reflexivity. Qed.
Lemma only_cas l : l = [(ByCAS, true); (ByCAS, false); (ByCAS, true); (ByCAS, false)] -> forall x : How * bool, x ∈ l -> fst x = ByCAS.
Proof. intros -> x Hx. rewrite !elem_of_cons, elem_of_nil in Hx. by destruct Hx as [->|[->|[->|[->|[]]]]]. Qed.

Lemma each_outage_reported_once_witness : downs (cells (world raced) 0%nat) = 2%nat /\ (ups (cells (world raced) 0%nat) <= downs (cells (world raced) 0%nat))%nat.
Proof.
  exact (match proj2 (proj2 (each_outage_reported_once 0 overlap late (start_fresh _ _))) raced_idle with
         | conj Hd Hu => conj (eq_trans Hd raced_cas) (Hu (only_cas _ raced_flips))
         end).
Defined.

(** ** The gauge *)

(** The answer of a probe with the default thresholds. *)
Definition probe (ans : Probed) : call := CProbe (fun _ => "") 0 (mkCheckConfig [] "" 0 0) ans.

(** Three failed probes set backend_health_status to 0. A request that was in
    flight succeeds and the endpoint is up; the probes that follow find nothing
    to report, and the gauge stays at 0. *)
Definition probed : list call :=
  repeat (probe (NoResponse "refused")) 3 ++ [CResult 0 200 None 0] ++ repeat (probe (Response 200 "ok")) 10.
Lemma gauge_stays_down :
  let c := cells (calls probed (start [])) 0%nat in
  healthy (c_ep c) = true /\ c_reports c = [(Traffic, true); (Probe, false)] /\ c_gauge c = Some false.
Proof. vm_compute. done. Qed.

(** A [*net.DNSError] is a net.Error, so its own class is never answered. *)
Lemma dns_error_unreachable st e : (er_dns e = true -> er_net e <> None) -> ClassifyFailure st (Some e) <> "dns_error".
Proof. unfold ClassifyFailure. intros H. destruct (isFailure _ _); cbn; [|done]. destruct (er_net e); [done|]. destruct (er_dns e); [by destruct H|done]. Qed.
End Backends.
