(* ===== verification/RebuildAdmission.v ===== *)
(** * Memory for rebuilt trees (miner/smst_rebuild_admission.go, ingestion_memory_brake.go)

    Proofs and compactions that rebuild a tree ask the process's one
    [RebuildAdmission] for memory: one tree loads at a time, the queue's head is
    admitted when it fits or nothing is in flight, and while a proof waits, or
    the memory brake is closed, the stream consumers are paused.

    Every block under the admission's mutex is one event, with what the runtime
    reports of its memory at that moment. A goroutine in [acquire] or holding a
    tree is a [Caller], its pointer the order of its call. The collection runs
    with the mutex released, so its end is an event of its own; [ra_gc] is the
    generation its goroutine keeps in a local variable. [ra_signals] counts the
    times the pause's channel was closed. A nil admission admits everything and
    has no state. *)

From S2P Require Import Prelude.
From Stdlib Require Import String.

Local Open Scope Z_scope.
Local Open Scope list_scope.

(** ** Data *)

Definition rebuildHeadroomBytes : Z := 512 * 2 ^ 20.
Definition rebuildAllocatedHalvesPerRetained : Z := 7.

Inductive Kind := proof | compaction.
#[export] Instance Kind_eq_dec : EqDecision Kind.
Proof. solve_decision. Defined.
Definition is_proof (k : Kind) : bool := match k with proof => true | compaction => false end.

Record rebuildWaiter := mkWaiter { w_ptr : nat; w_kind : Kind; w_estimate : Z; w_value : Z; w_seq : Z }.

(** A call of acquire: in the queue; admitted, its channel closed; returned to
    its caller, who has loaded the tree or not; over. *)
Inductive Caller := Waiting | Granted | Held (isLoaded : bool) | Gone.

(** One reading of the process's memory. *)
Record Mem := mkMem { m_limit : Z; m_mapped : Z; m_objects : Z; m_live : Z }.

Record Admission := mkAdmission {
  ra_loading : bool;
  ra_inFlight : Z;
  ra_generation : Z;
  ra_collectedAt : Z;
  ra_collecting : bool;
  ra_waiting : list rebuildWaiter;
  ra_seq : Z;
  ra_proofs : Z;
  ra_flushes : gmap string Z;
  ra_brakeClosed : bool;
  ra_brakeOverages : Z;
  ra_brakeWithinSince : option Z;
  ra_callers : list Caller;
  ra_gc : option Z;
  ra_signals : nat
}.

Definition newRebuildAdmission : Admission := mkAdmission false 0 1 0 false [] 0 0 ∅ false 0 None [] None 0.

(** ** Updates *)

Definition set_queue (q : list rebuildWaiter) (proofs : Z) (sig : nat) (a : Admission) : Admission :=
  mkAdmission (ra_loading a) (ra_inFlight a) (ra_generation a) (ra_collectedAt a) (ra_collecting a) q (ra_seq a) proofs
    (ra_flushes a) (ra_brakeClosed a) (ra_brakeOverages a) (ra_brakeWithinSince a) (ra_callers a) (ra_gc a) (sig + ra_signals a).
Definition set_load (loading : bool) (inFlight : Z) (a : Admission) : Admission :=
  mkAdmission loading inFlight (ra_generation a) (ra_collectedAt a) (ra_collecting a) (ra_waiting a) (ra_seq a) (ra_proofs a)
    (ra_flushes a) (ra_brakeClosed a) (ra_brakeOverages a) (ra_brakeWithinSince a) (ra_callers a) (ra_gc a) (ra_signals a).
Definition bump (a : Admission) : Admission :=
  mkAdmission (ra_loading a) (ra_inFlight a) (wrapu64 (ra_generation a + 1)) (ra_collectedAt a) (ra_collecting a) (ra_waiting a) (ra_seq a) (ra_proofs a)
    (ra_flushes a) (ra_brakeClosed a) (ra_brakeOverages a) (ra_brakeWithinSince a) (ra_callers a) (ra_gc a) (ra_signals a).
Definition set_gc (collecting : bool) (collectedAt : Z) (gc : option Z) (a : Admission) : Admission :=
  mkAdmission (ra_loading a) (ra_inFlight a) (ra_generation a) collectedAt collecting (ra_waiting a) (ra_seq a) (ra_proofs a)
    (ra_flushes a) (ra_brakeClosed a) (ra_brakeOverages a) (ra_brakeWithinSince a) (ra_callers a) gc (ra_signals a).
Definition set_callers (l : list Caller) (seq : Z) (a : Admission) : Admission :=
  mkAdmission (ra_loading a) (ra_inFlight a) (ra_generation a) (ra_collectedAt a) (ra_collecting a) (ra_waiting a) seq (ra_proofs a)
    (ra_flushes a) (ra_brakeClosed a) (ra_brakeOverages a) (ra_brakeWithinSince a) l (ra_gc a) (ra_signals a).
Definition set_flushes (f : gmap string Z) (a : Admission) : Admission :=
  mkAdmission (ra_loading a) (ra_inFlight a) (ra_generation a) (ra_collectedAt a) (ra_collecting a) (ra_waiting a) (ra_seq a) (ra_proofs a)
    f (ra_brakeClosed a) (ra_brakeOverages a) (ra_brakeWithinSince a) (ra_callers a) (ra_gc a) (S (ra_signals a)).
Definition set_brake (closed : bool) (sig : nat) (overages : Z) (within : option Z) (a : Admission) : Admission :=
  mkAdmission (ra_loading a) (ra_inFlight a) (ra_generation a) (ra_collectedAt a) (ra_collecting a) (ra_waiting a) (ra_seq a) (ra_proofs a)
    (ra_flushes a) closed overages within (ra_callers a) (ra_gc a) (sig + ra_signals a).
Definition caller (p : nat) (c : Caller) (a : Admission) : Admission := set_callers (<[p := c]> (ra_callers a)) (ra_seq a) a.

(** ** The queue *)

Definition admitsBefore (x y : rebuildWaiter) : bool :=
  if negb (Bool.eqb (is_proof (w_kind x)) (is_proof (w_kind y))) then is_proof (w_kind x)
  else if is_proof (w_kind x) && negb (w_value x =? w_value y) then w_value y <? w_value x
  else w_seq x <? w_seq y.

(** [slices.Insert] before the first waiter that [w] goes ahead of. *)
Fixpoint insertWaiter (w : rebuildWaiter) (l : list rebuildWaiter) : list rebuildWaiter :=
  match l with
  | [] => [w]
  | q :: rest => if admitsBefore w q then w :: q :: rest else q :: insertWaiter w rest
  end.
Definition enqueue (w : rebuildWaiter) (a : Admission) : Admission :=
  set_queue (insertWaiter w (ra_waiting a)) (ra_proofs a + if is_proof (w_kind w) then 1 else 0) (if is_proof (w_kind w) then 1 else 0) a.

Fixpoint deleteWaiter (p : nat) (l : list rebuildWaiter) : option (rebuildWaiter * list rebuildWaiter) :=
  match l with
  | [] => None
  | q :: rest =>
      if (w_ptr q =? p)%nat then Some (q, rest)
      else match deleteWaiter p rest with Some (w, rest') => Some (w, q :: rest') | None => None end
  end.
Definition remove (p : nat) (a : Admission) : Admission :=
  match deleteWaiter p (ra_waiting a) with
  | None => a
  | Some (w, rest) => set_queue rest (ra_proofs a - if is_proof (w_kind w) then 1 else 0) (if is_proof (w_kind w) then 1 else 0) a
  end.

(** ** Admission *)

(** In 64-bit arithmetic, as the code has it. *)
Definition fits (limit estimate heap : Z) : bool :=
  if limit <=? rebuildHeadroomBytes then false
  else wrapu64 (heap + wrapu64 (estimate * rebuildAllocatedHalvesPerRetained) / 2) <=? limit - rebuildHeadroomBytes.

Definition grant (w : rebuildWaiter) (a : Admission) : Admission :=
  let a := remove (w_ptr w) a in
  caller (w_ptr w) Granted (set_load true (ra_inFlight a + 1) a).

(** Whether the caller must collect. *)
Definition dispatch (m : Mem) (a : Admission) : Admission * bool :=
  match ra_waiting a with
  | [] => (a, false)
  | w :: _ =>
      if ra_loading a || ra_collecting a then (a, false)
      else if (m_limit m <? m_mapped m) && ((0 <? ra_inFlight a) || negb (is_proof (w_kind w))) then (a, false)
      else if (0 <? ra_inFlight a) && negb (fits (m_limit m) (w_estimate w) (m_objects m)) then
        if negb (ra_collectedAt a =? ra_generation a) then (set_gc true (ra_collectedAt a) (ra_gc a) a, true)
        else if negb (fits (m_limit m) (w_estimate w) (m_live m)) then (a, false)
        else (grant w a, false)
      else (grant w a, false)
  end.

(** The dispatch of a turn of the loop, up to the collection it may start. *)
Definition unlockAndDispatch (m : Mem) (a : Admission) : Admission :=
  let (a', collect) := dispatch m a in
  if collect then set_gc (ra_collecting a') (ra_collectedAt a') (Some (ra_generation a')) a' else a'.

(** ** Events *)

Definition acquire (k : Kind) (estimate value : Z) (m : Mem) (a : Admission) : Admission :=
  let seq := wrapu64 (ra_seq a + 1) in
  let w := mkWaiter (List.length (ra_callers a)) k estimate value seq in
  unlockAndDispatch m (enqueue w (set_callers (ra_callers a ++ [Waiting]) seq a)).

(** acquire's channel is ready and it returns the tree's two functions. *)
Definition ready (p : nat) (a : Admission) : Admission :=
  match ra_callers a !! p with Some Granted => caller p (Held false) a | _ => a end.

(** A tree's end: [loading] is the state of the load it ends. *)
Definition endTree (p : nat) (loading : bool) (m : Mem) (a : Admission) : Admission :=
  unlockAndDispatch m (caller p Gone (bump (set_load loading (ra_inFlight a - 1) a))).

(** The context ends before acquire returned. *)
Definition cancel (p : nat) (m : Mem) (a : Admission) : Admission :=
  match ra_callers a !! p with
  | Some Waiting => unlockAndDispatch m (caller p Gone (remove p a))
  | Some Granted => endTree p false m a
  | _ => a
  end.

(** [loaded] and [release] of [slot], which may run more than once. *)
Definition loaded (p : nat) (m : Mem) (a : Admission) : Admission :=
  match ra_callers a !! p with
  | Some (Held false) => unlockAndDispatch m (caller p (Held true) (bump (set_load false (ra_inFlight a) a)))
  | _ => a
  end.
Definition release (p : nat) (m : Mem) (a : Admission) : Admission :=
  match ra_callers a !! p with
  | Some (Held isLoaded) => endTree p (if isLoaded then ra_loading a else false) m a
  | _ => a
  end.

(** The collection ended: the next turn of the loop of unlockAndDispatch. *)
Definition collected (m : Mem) (a : Admission) : Admission :=
  match ra_gc a with
  | Some started => unlockAndDispatch m (set_gc false started None a)
  | None => a
  end.

(** ** The pause *)

(** claimFlushWaiting, and the function it returns. *)
Definition claimFlushWaiting (supplier : string) (a : Admission) : Admission :=
  set_flushes (<[supplier := default 0 (ra_flushes a !! supplier) + 1]> (ra_flushes a)) a.
Definition claimFlushDone (supplier : string) (a : Admission) : Admission :=
  let n := default 0 (ra_flushes a !! supplier) - 1 in
  set_flushes (if n <=? 0 then delete supplier (ra_flushes a) else <[supplier := n]> (ra_flushes a)) a.

Definition Paused (supplier : string) (a : Admission) : bool :=
  ((0 <? ra_proofs a) || ra_brakeClosed a) && (default 0 (ra_flushes a !! supplier) =? 0).

(** ** The memory brake *)

Definition brakeOverageTicks : Z := 2.
Definition brakeReopenAfter : Z := 10 * 10 ^ 9.
Definition brakeCollectAfter : Z := 60 * 10 ^ 9.
Definition Margin (limit : Z) : Z := Z.min (2 ^ 30) (limit / 8).
Definition BrakeThresholds (limit : Z) : Z * Z := (limit - Margin limit, limit - Margin limit - Margin limit / 2).

(** One evaluation's readings: the memory, the time since the last collection,
    the live heap and the mapped memory after the collection it may force, the
    time it reads to reopen. *)
Record BrakeReading := mkReading { br_mem : Mem; br_sinceGC : Z; br_live' : Z; br_mapped' : Z; br_now : Z }.

Definition closedBrake (r : BrakeReading) (overages : Z) (a : Admission) : Admission :=
  let m := br_mem r in
  let reopenBelow := snd (BrakeThresholds (m_limit m)) in
  let collects := (reopenBelow <=? m_live m) && (brakeCollectAfter <=? br_sinceGC r) in
  let live := if collects then br_live' r else m_live m in
  let mapped := if collects then br_mapped' r else m_mapped m in
  if (reopenBelow <=? live) || (m_limit m <? mapped) then set_brake true 0 overages None a
  else match ra_brakeWithinSince a with
  | None => set_brake true 0 overages (Some (br_now r)) a
  | Some t => if br_now r - t <? brakeReopenAfter then set_brake true 0 overages (Some t) a else set_brake false 1 overages (Some t) a
  end.

Definition openBrake (r : BrakeReading) (overages : Z) (a : Admission) : Admission :=
  let m := br_mem r in
  if (brakeOverageTicks <=? overages) || (fst (BrakeThresholds (m_limit m)) <? m_live m) then set_brake true 1 overages None a
  else set_brake false 0 overages (ra_brakeWithinSince a) a.

(** The evaluation up to its deferred dispatch, which is an event of its own. *)
Definition evaluateMemoryBrake (r : BrakeReading) (a : Admission) : Admission :=
  let overages := if m_limit (br_mem r) <? m_mapped (br_mem r) then ra_brakeOverages a + 1 else 0 in
  if ra_brakeClosed a then closedBrake r overages a else openBrake r overages a.

(** ** Runs *)

Inductive Event :=
| EvAcquire (k : Kind) (estimate value : Z) (m : Mem)
| EvReady (p : nat)
| EvCancel (p : nat) (m : Mem)
| EvLoaded (p : nat) (m : Mem)
| EvRelease (p : nat) (m : Mem)
| EvCollected (m : Mem)
| EvFlushWaiting (supplier : string)
| EvFlushDone (supplier : string)
| EvBrake (r : BrakeReading)
| EvBrakeAsks (m : Mem).

Definition event (e : Event) (a : Admission) : Admission :=
  match e with
  | EvAcquire k est v m => acquire k est v m a
  | EvReady p => ready p a
  | EvCancel p m => cancel p m a
  | EvLoaded p m => loaded p m a
  | EvRelease p m => release p m a
  | EvCollected m => collected m a
  | EvFlushWaiting s => claimFlushWaiting s a
  | EvFlushDone s => claimFlushDone s a
  | EvBrake r => evaluateMemoryBrake r a
  | EvBrakeAsks m => unlockAndDispatch m a
  end.
Definition events (es : list Event) (a : Admission) : Admission := fold_left (fun a e => event e a) es a.
