(* ===== verification/RebuildSafety.v ===== *)
(** * What the rebuild admission guarantees

    After any events, whatever the runtime reports of its memory: one tree loads
    at a time, the queue is in order of priority, no proof waits with nothing in
    flight, and no consumer misses that its pause changed. *)

From S2P Require Import Prelude RebuildAdmission.
From Stdlib Require Import String Sorting.Sorted.

Local Open Scope Z_scope.
Local Open Scope list_scope.

(** ** Counting callers *)

Definition headcount {A} (f : A -> nat) (l : list A) : nat := sum_list_with f l.
Lemma headcount_insert {A} (f : A -> nat) l i x y : l !! i = Some x -> (headcount f (<[i := y]> l) + f x = headcount f l + f y)%nat.
Proof. apply sum_list_with_insert. Qed.
Lemma headcount_app {A} (f : A -> nat) l l' : headcount f (l ++ l') = (headcount f l + headcount f l')%nat.
Proof. apply sum_list_with_app. Qed.
Lemma headcount_le {A} (f g : A -> nat) l : (forall x, (f x <= g x)%nat) -> (headcount f l <= headcount g l)%nat.
Proof. intros H. unfold headcount. induction l as [|z l IH]; cbn; [done|]. specialize (H z). lia. Qed.

(** The callers with a tree in flight, and those still loading theirs. *)
Definition in_flight (c : Caller) : nat := match c with Granted | Held _ => 1 | _ => 0 end.
Definition is_loading (c : Caller) : nat := match c with Granted | Held false => 1 | _ => 0 end.
Definition proofs_in (l : list rebuildWaiter) : nat := headcount (fun w => if is_proof (w_kind w) then 1 else 0)%nat l.

Lemma proofs_in_mid l1 w l2 : Z.of_nat (proofs_in (l1 ++ w :: l2)) = Z.of_nat (proofs_in (l1 ++ l2)) + if is_proof (w_kind w) then 1 else 0.
Proof. unfold proofs_in. rewrite !headcount_app. unfold headcount. cbn. destruct (is_proof (w_kind w)); lia. Qed.
Lemma proofs_in_cons w l : Z.of_nat (proofs_in (w :: l)) = Z.of_nat (proofs_in l) + if is_proof (w_kind w) then 1 else 0.
Proof. apply (proofs_in_mid []). Qed.
Lemma proofs_in_perm l l' : l ≡ₚ l' -> proofs_in l = proofs_in l'.
Proof. unfold proofs_in, headcount. induction 1; cbn; lia. Qed.

(** ** The order of the queue *)

Definition before (x y : rebuildWaiter) : Prop := admitsBefore x y = true.
Ltac order_cases :=
  unfold before, admitsBefore in *;
  repeat match goal with k : rebuildWaiter |- _ => destruct k as [? [] ? ? ?] end; cbn in *;
  repeat match goal with
  | H : context [?x =? ?y] |- _ => destruct (Z.eqb_spec x y); cbn in *
  | |- context [?x =? ?y] => destruct (Z.eqb_spec x y); cbn in *
  end; bool_to_prop; try apply Z.ltb_lt; try done; try lia.

Lemma before_trans x y z : before x y -> before y z -> before x z.
Proof. intros H1 H2. order_cases. Qed.
Lemma before_total x y : w_seq x <> w_seq y -> admitsBefore x y = false -> before y x.
Proof. intros H1 H2. order_cases. Qed.
Lemma before_compaction x y : before x y -> is_proof (w_kind x) = false -> is_proof (w_kind y) = false.
Proof. intros H1 H2. order_cases. Qed.

Definition sorted (l : list rebuildWaiter) : Prop := StronglySorted before l.

Lemma insertWaiter_perm w l : insertWaiter w l ≡ₚ w :: l.
Proof. induction l as [|q l IH]; cbn; [done|]. destruct (admitsBefore w q); [done|]. rewrite IH. by rewrite Permutation_swap. Qed.
Lemma insertWaiter_sorted w l : sorted l -> Forall (fun q => w_seq q <> w_seq w) l -> sorted (insertWaiter w l).
Proof.
  intros Hs Hn. induction l as [|q l IH]; cbn; [repeat constructor|]. apply StronglySorted_inv in Hs as [Hs Hq]. apply Forall_cons in Hn as [Hne Hn].
  destruct (admitsBefore w q) eqn:E.
  - constructor; [by constructor|]. constructor; [done|]. eapply Forall_impl; [exact Hq|]. intros z Hz. by apply (before_trans w q z).
  - constructor; [by apply IH|]. apply Forall_forall. intros z Hz. rewrite insertWaiter_perm, elem_of_cons in Hz. destruct Hz as [->|Hz]; [by apply before_total|]. rewrite Forall_forall in Hq. by apply Hq.
Qed.

Lemma deleteWaiter_Some p l w rest : deleteWaiter p l = Some (w, rest) -> exists l1 l2, l = l1 ++ w :: l2 /\ rest = l1 ++ l2 /\ w_ptr w = p.
Proof.
  revert rest. induction l as [|q l IH]; intros rest; cbn; [done|]. destruct (Nat.eqb_spec (w_ptr q) p) as [Hp|Hp]; [intros [= -> ->]; by exists [], rest|].
  destruct (deleteWaiter p l) as [[w' l']|] eqn:E; [|done]. intros [= -> <-]. destruct (IH l' eq_refl) as (l1 & l2 & -> & -> & Hw). by exists (q :: l1), l2.
Qed.
Lemma deleteWaiter_None p l : deleteWaiter p l = None -> p ∉ map w_ptr l.
Proof.
  induction l as [|q l IH]; cbn; [intros _; apply not_elem_of_nil|]. destruct (Nat.eqb_spec (w_ptr q) p) as [Hp|Hp]; [done|]. destruct (deleteWaiter p l) as [[w' l']|]; [done|].
  intros _. rewrite elem_of_cons. intros [?|?]; [congruence|]. by apply IH.
Qed.
Lemma sorted_delete l1 w l2 : sorted (l1 ++ w :: l2) -> sorted (l1 ++ l2).
Proof.
  induction l1 as [|q l1 IH]; cbn; intros H; apply StronglySorted_inv in H as [H Hq]; [done|]. constructor; [by apply IH|].
  rewrite Forall_app, Forall_cons in Hq. apply Forall_app. tauto.
Qed.

(** ** The invariant *)

(** After at most [n] calls of acquire. *)
Record wf (n : Z) (a : Admission) : Prop := mkWf {
  wf_loading : headcount is_loading (ra_callers a) = if ra_loading a then 1%nat else 0%nat;
  wf_inFlight : ra_inFlight a = Z.of_nat (headcount in_flight (ra_callers a));
  wf_proofs : ra_proofs a = Z.of_nat (proofs_in (ra_waiting a));
  wf_sorted : sorted (ra_waiting a);
  wf_seq : 0 <= ra_seq a <= n /\ Forall (fun w => w_seq w <= ra_seq a) (ra_waiting a);
  wf_nodup : NoDup (map w_ptr (ra_waiting a));
  wf_waiting : forall p, p ∈ map w_ptr (ra_waiting a) <-> ra_callers a !! p = Some Waiting;
  wf_gc : ra_collecting a = bool_decide (is_Some (ra_gc a))
}.

(** With nothing in flight and no collection running, no proof waits. *)
Definition served (a : Admission) : Prop :=
  ra_inFlight a = 0 -> ra_collecting a = false -> Forall (fun w => is_proof (w_kind w) = false) (ra_waiting a).

Lemma loading_in_flight l : (headcount is_loading l <= headcount in_flight l)%nat.
Proof. apply headcount_le. intros [| |[]|]; cbn; lia. Qed.

(** A caller that leaves the queue, admitted or not. *)
Lemma wf_leave n a a' p c w rest :
  wf n a -> deleteWaiter p (ra_waiting a) = Some (w, rest) -> c <> Waiting ->
  ra_waiting a' = rest -> ra_callers a' = <[p := c]> (ra_callers a) -> ra_seq a' = ra_seq a ->
  ra_proofs a' = ra_proofs a - (if is_proof (w_kind w) then 1 else 0) ->
  ra_collecting a' = ra_collecting a -> ra_gc a' = ra_gc a ->
  (headcount is_loading (ra_callers a) + is_loading c)%nat = (if ra_loading a' then 1%nat else 0%nat) ->
  ra_inFlight a' = Z.of_nat (headcount in_flight (ra_callers a) + in_flight c) ->
  wf n a'.
Proof.
  intros [H1 H2 H3 H4 [H5 H5'] H6 H7 H8] E Hc Ew Ecl Es Ep Eg Eg' Tl Tf. destruct (deleteWaiter_Some _ _ _ _ E) as (l1 & l2 & El & -> & Hp).
  assert (Hcl : ra_callers a !! p = Some Waiting) by (apply H7; rewrite El, map_app; apply elem_of_app; right; cbn; rewrite Hp; left).
  pose proof (headcount_insert is_loading _ _ _ c Hcl) as T1. pose proof (headcount_insert in_flight _ _ _ c Hcl) as T2.
  change (is_loading Waiting) with 0%nat in T1. change (in_flight Waiting) with 0%nat in T2.
  rewrite El in *. rewrite map_app in H6. cbn in H6. apply NoDup_app in H6 as (N1 & N2 & N3). apply NoDup_cons in N3 as [N3 N4].
  constructor; rewrite ?Ew, ?Ecl, ?Es, ?Eg, ?Eg', ?Ep; [lia|lia| | | | | |done].
  - rewrite H3, proofs_in_mid. lia.
  - by eapply sorted_delete.
  - split; [done|]. rewrite Forall_app, Forall_cons in H5'. apply Forall_app. tauto.
  - rewrite map_app. apply NoDup_app. split_and!; [done| |done]. intros x Hx Hx'. apply (N2 x Hx). by right.
  - intros x. rewrite map_app. destruct (decide (x = p)) as [->|Hne].
    + rewrite list_lookup_insert_eq by (by eapply lookup_lt_Some). rewrite Hp in *. split; [|intros [= ->]; done]. rewrite elem_of_app. intros [Hx|Hx]; [exfalso; apply (N2 _ Hx); left|done].
    + rewrite list_lookup_insert_ne by done. rewrite <-H7, map_app, !elem_of_app. cbn. rewrite elem_of_cons. split; [tauto|]. intros [?|[->|?]]; [tauto|by destruct Hne|tauto].
Qed.

(** A caller out of the queue that moves on. *)
Lemma wf_move n a a' p c c' :
  wf n a -> ra_callers a !! p = Some c -> c <> Waiting -> c' <> Waiting ->
  ra_waiting a' = ra_waiting a -> ra_callers a' = <[p := c']> (ra_callers a) -> ra_seq a' = ra_seq a -> ra_proofs a' = ra_proofs a ->
  ra_collecting a' = ra_collecting a -> ra_gc a' = ra_gc a ->
  (headcount is_loading (ra_callers a) + is_loading c')%nat = ((if ra_loading a' then 1 else 0) + is_loading c)%nat ->
  ra_inFlight a' + Z.of_nat (in_flight c) = Z.of_nat (headcount in_flight (ra_callers a) + in_flight c') ->
  wf n a'.
Proof.
  intros [H1 H2 H3 H4 H5 H6 H7 H8] Hcl Hc Hc' Ew Ecl Es Ep Eg Eg' Tl Tf.
  pose proof (headcount_insert is_loading _ _ _ c' Hcl) as T1. pose proof (headcount_insert in_flight _ _ _ c' Hcl) as T2.
  constructor; rewrite ?Ew, ?Ecl, ?Es, ?Eg, ?Eg', ?Ep; [lia|lia|done|done|done|done| |done].
  intros x. destruct (decide (x = p)) as [->|Hne]; [|by rewrite list_lookup_insert_ne].
  rewrite list_lookup_insert_eq by (by eapply lookup_lt_Some). rewrite H7, Hcl. split; intros [= ?]; congruence.
Qed.

Lemma wf_queue_only n a a' : wf n a -> ra_loading a' = ra_loading a -> ra_inFlight a' = ra_inFlight a -> ra_waiting a' = ra_waiting a ->
  ra_callers a' = ra_callers a -> ra_seq a' = ra_seq a -> ra_proofs a' = ra_proofs a -> ra_collecting a' = bool_decide (is_Some (ra_gc a')) -> wf n a'.
Proof. intros [H1 H2 H3 H4 H5 H6 H7 H8] E1 E2 E3 E4 E5 E6 E7. constructor; rewrite ?E1, ?E2, ?E3, ?E4, ?E5, ?E6; done. Qed.

(** ** Dispatch *)

Lemma sorted_head_compaction w l : sorted (w :: l) -> is_proof (w_kind w) = false -> Forall (fun w => is_proof (w_kind w) = false) (w :: l).
Proof.
  intros [_ H]%StronglySorted_inv Hw. constructor; [done|]. eapply Forall_impl; [exact H|]. intros x Hx. by eapply before_compaction.
Qed.

Lemma wf_grant n a w rest : wf n a -> ra_waiting a = w :: rest -> ra_loading a = false -> wf n (grant w a) /\ 0 < ra_inFlight (grant w a).
Proof.
  intros H Ew El. assert (E : deleteWaiter (w_ptr w) (ra_waiting a) = Some (w, rest)) by (rewrite Ew; cbn; by rewrite Nat.eqb_refl).
  pose proof (wf_loading _ _ H) as H1. pose proof (wf_inFlight _ _ H) as H2. rewrite El in H1. unfold grant, remove. rewrite E. split; [|cbn; lia].
  eapply (wf_leave n a _ (w_ptr w) Granted w rest); try done; cbn; lia.
Qed.

Lemma dispatch_served n m a : wf n a -> wf n (unlockAndDispatch m a) /\ served (unlockAndDispatch m a).
Proof.
  intros H. unfold unlockAndDispatch, dispatch. destruct (ra_waiting a) as [|w rest] eqn:Ew.
  { split; [done|]. intros _ _. by rewrite Ew. }
  destruct (ra_loading a) eqn:El; cbn [orb].
  { split; [done|]. intros H0 _. pose proof (wf_loading _ _ H) as H1. pose proof (wf_inFlight _ _ H) as H2. pose proof (loading_in_flight (ra_callers a)). rewrite El in H1. lia. }
  destruct (ra_collecting a) eqn:Ec; [split; [done|]; intros _; by rewrite Ec|].
  pose proof (wf_grant n a w rest H Ew El) as [Hg Hg0]. assert (Hgr : wf n (grant w a) /\ served (grant w a)) by (split; [done|]; intros ?; lia).
  destruct ((m_limit m <? m_mapped m) && _) eqn:E1.
  { split; [done|]. intros H0 _. rewrite Ew. apply sorted_head_compaction; [rewrite <-Ew; apply H|]. apply andb_true_iff in E1 as [_ E1]. rewrite H0 in E1. cbn in E1. by apply negb_true_iff. }
  destruct ((0 <? ra_inFlight a) && _) eqn:E2; [|exact Hgr]. apply andb_true_iff in E2 as [E2 _]. bool_to_prop.
  destruct (negb (ra_collectedAt a =? ra_generation a)); [|destruct (negb (fits _ _ (m_live m))); [|exact Hgr]; split; [done|]; intros ?; lia].
  split; [|intros ?; cbn in *; lia]. apply (wf_queue_only n a); done.
Qed.

(** ** Events *)

Definition ok (n : Z) (a : Admission) : Prop := wf n a /\ served a.

Lemma ok_new n : 0 <= n -> ok n newRebuildAdmission.
Proof.
  intros Hn. split; [|intros _ _; constructor]. constructor; cbn; [done|done|done|apply SSorted_nil|split; [lia|done]|apply NoDup_nil_2| |done].
  intros p. split; [intros H; by apply not_elem_of_nil in H|by rewrite lookup_nil].
Qed.

Lemma ok_acquire n k est v m a : n + 1 < 2 ^ 64 -> ok n a -> ok (n + 1) (acquire k est v m a).
Proof.
  intros Hn [[H1 H2 H3 H4 [H5 H5'] H6 H7 H8] _]. unfold acquire. apply dispatch_served. unfold wrapu64. rewrite Z.mod_small by lia.
  set (w := mkWaiter _ k est v _). assert (Hw : w_ptr w ∉ map w_ptr (ra_waiting a)).
  { rewrite H7. cbn. intros Hl. apply lookup_lt_Some in Hl. lia. }
  constructor; cbn.
  - rewrite headcount_app, H1. by rewrite Nat.add_0_r.
  - rewrite headcount_app, H2. by rewrite Nat.add_0_r.
  - rewrite (proofs_in_perm _ _ (insertWaiter_perm w _)). rewrite proofs_in_cons. by rewrite H3.
  - apply insertWaiter_sorted; [done|]. eapply Forall_impl; [exact H5'|]. cbn. intros x Hx. lia.
  - split; [lia|]. apply Forall_forall. intros x Hx. rewrite insertWaiter_perm, elem_of_cons in Hx. destruct Hx as [->|Hx]; [cbn; lia|]. rewrite Forall_forall in H5'. specialize (H5' x Hx). cbn in H5'. lia.
  - rewrite (Permutation_map w_ptr (insertWaiter_perm w _)). cbn. by constructor.
  - intros p. rewrite (Permutation_map w_ptr (insertWaiter_perm w _)). cbn. rewrite elem_of_cons, H7. destruct (decide (p < List.length (ra_callers a))%nat) as [Hp|Hp].
    + rewrite lookup_app_l by done. split; [intros [->|?]; [lia|done]|tauto].
    + rewrite lookup_app_r by lia. split.
      * intros [->|Hx]; [by rewrite Nat.sub_diag|]. apply lookup_lt_Some in Hx. lia.
      * intros Hx. left. apply lookup_lt_Some in Hx. cbn in Hx. lia.
  - done.
Qed.

Lemma ok_weaken n n' a : n <= n' -> ok n a -> ok n' a.
Proof. intros Hn [[H1 H2 H3 H4 [H5 H5'] H6 H7 H8] Hs]. split; [|done]. constructor; try done. split; [lia|done]. Qed.

Lemma ok_ready n p a : ok n a -> ok n (ready p a).
Proof.
  intros [H Hs]. unfold ready. destruct (ra_callers a !! p) as [[| | |]|] eqn:E; try done. split; [|exact Hs].
  apply (wf_move n a _ p Granted (Held false)); try done; cbn; [rewrite (wf_loading _ _ H); lia|rewrite (wf_inFlight _ _ H); lia].
Qed.

(** A caller with a tree has one in flight; one still loading is the one that is. *)
Lemma loading_flag n a p c : wf n a -> ra_callers a !! p = Some c -> is_loading c = 1%nat -> ra_loading a = true.
Proof.
  intros H E Hc. pose proof (wf_loading _ _ H) as Hl. pose proof (headcount_insert is_loading _ _ _ Gone E) as T. change (is_loading Gone) with 0%nat in T. destruct (ra_loading a); [done|]. lia.
Qed.

Lemma ok_end n p c (b : bool) m a : ok n a -> ra_callers a !! p = Some c -> in_flight c = 1%nat ->
  (if b then ra_loading a = true /\ is_loading c = 0%nat else ra_loading a = true -> is_loading c = 1%nat) -> ok n (endTree p b m a).
Proof.
  intros [H _] E Hc Hb. unfold endTree. apply dispatch_served. apply (wf_move n a _ p c Gone); try done; cbn; [by intros ->| |rewrite (wf_inFlight _ _ H), Hc; lia].
  rewrite (wf_loading _ _ H). destruct b; [destruct Hb as [-> ->]; lia|]. destruct (ra_loading a) eqn:El; [rewrite Hb by done; lia|].
  destruct (decide (is_loading c = 1%nat)) as [Hx|Hx]; [by rewrite (loading_flag n a p c H E Hx) in El|]. destruct c as [| |[]|]; done.
Qed.

Lemma ok_cancel n p m a : ok n a -> ok n (cancel p m a).
Proof.
  intros H. unfold cancel. destruct (ra_callers a !! p) as [[| | |]|] eqn:E; try done.
  - destruct H as [H _]. apply dispatch_served. destruct (deleteWaiter p (ra_waiting a)) as [[w rest]|] eqn:Ed.
    + unfold remove. rewrite Ed. eapply (wf_leave n a _ p Gone w rest); try done; cbn; [rewrite (wf_loading _ _ H); lia|rewrite (wf_inFlight _ _ H); lia].
    + apply deleteWaiter_None in Ed. destruct Ed. by apply H.
  - by apply (ok_end n p Granted).
Qed.
Lemma ok_loaded n p m a : ok n a -> ok n (loaded p m a).
Proof.
  intros [H Hs]. unfold loaded. destruct (ra_callers a !! p) as [[| |[]|]|] eqn:E; try done. apply dispatch_served.
  pose proof (loading_flag n a p (Held false) H E eq_refl) as Hl.
  apply (wf_move n a _ p (Held false) (Held true)); try done; cbn; [rewrite (wf_loading _ _ H), Hl; lia|rewrite (wf_inFlight _ _ H); lia].
Qed.
Lemma ok_release n p m a : ok n a -> ok n (release p m a).
Proof.
  intros H. unfold release. destruct (ra_callers a !! p) as [[| |b|]|] eqn:E; try done. apply (ok_end n p (Held b)); try done. destruct b; [destruct (ra_loading a) eqn:El; [done|]|by intros _]. done.
Qed.
Lemma ok_collected n m a : ok n a -> ok n (collected m a).
Proof. intros [H Hs]. unfold collected. destruct (ra_gc a) as [g|]; [|done]. apply dispatch_served. by apply (wf_queue_only n a). Qed.
Lemma ok_other n a a' : ok n a -> ra_loading a' = ra_loading a -> ra_inFlight a' = ra_inFlight a -> ra_waiting a' = ra_waiting a ->
  ra_callers a' = ra_callers a -> ra_seq a' = ra_seq a -> ra_proofs a' = ra_proofs a -> ra_collecting a' = ra_collecting a -> ra_gc a' = ra_gc a -> ok n a'.
Proof.
  intros [H Hs] E1 E2 E3 E4 E5 E6 E7 E8. split; [apply (wf_queue_only n a); try done; rewrite E7, E8; apply H|]. unfold served in *. by rewrite E2, E3, E7.
Qed.

Lemma brake_other n r a : ok n a -> ok n (evaluateMemoryBrake r a).
Proof.
  intros H. unfold evaluateMemoryBrake, closedBrake, openBrake. destruct (ra_brakeClosed a).
  - destruct (_ || _); [by apply (ok_other n a)|]. destruct (ra_brakeWithinSince a) as [t|]; [|by apply (ok_other n a)]. destruct (_ <? _); by apply (ok_other n a).
  - destruct (_ || _); by apply (ok_other n a).
Qed.

Lemma ok_event n e a : n + 1 < 2 ^ 64 -> ok n a -> ok (n + 1) (event e a).
Proof.
  intros Hn H. destruct e; cbn [event]; [by apply ok_acquire|..]; apply (ok_weaken n); try lia;
    [by apply ok_ready|by apply ok_cancel|by apply ok_loaded|by apply ok_release|by apply ok_collected|by apply (ok_other n a)|by apply (ok_other n a)|by apply brake_other|apply dispatch_served, H].
Qed.
Lemma ok_events es n a : n + Z.of_nat (List.length es) < 2 ^ 64 -> ok n a -> ok (n + Z.of_nat (List.length es)) (events es a).
Proof.
  revert n a. induction es as [|e es IH]; intros n a Hn H; cbn [List.length] in *; [by rewrite Z.add_0_r|]. replace (n + Z.of_nat (S (List.length es))) with (n + 1 + Z.of_nat (List.length es)) by lia.
  apply IH; [lia|]. apply ok_event; [lia|done].
Qed.

(** C31. After any events and whatever the runtime reports of its memory, at most
    one admitted tree is loading, and the flag says whether; the trees in flight
    are the callers admitted and not released; the queue is in order of
    priority; and with nothing in flight and no collection running no proof
    waits, so a proof is never given up for memory. *)
Theorem rebuild_admission_sound es :
  Z.of_nat (List.length es) < 2 ^ 64 ->
  let a := events es newRebuildAdmission in
  headcount is_loading (ra_callers a) = (if ra_loading a then 1%nat else 0%nat) /\
  ra_inFlight a = Z.of_nat (headcount in_flight (ra_callers a)) /\
  StronglySorted (fun x y => admitsBefore x y = true) (ra_waiting a) /\
  (forall p, ra_callers a !! p = Some Waiting <-> exists w, w ∈ ra_waiting a /\ w_ptr w = p) /\
  (ra_inFlight a = 0 -> ra_collecting a = false -> ra_proofs a = 0).
Proof.
  intros Hn a. destruct (ok_events es 0 newRebuildAdmission Hn (ok_new 0 ltac:(lia))) as [[H1 H2 H3 H4 H5 H6 H7 H8] Hs]. fold a in H1, H2, H3, H4, H5, H6, H7, H8, Hs.
  split_and!; [done|done|done| |].
  - intros p. rewrite <-H7, list_elem_of_fmap. split; [intros (w & -> & Hw); by exists w|intros (w & Hw & <-); by exists w].
  - intros H0 Hc. rewrite H3. specialize (Hs H0 Hc). clear -Hs. induction (ra_waiting a) as [|w l IH]; [done|]. apply Forall_cons in Hs as [Hw Hs]. rewrite proofs_in_cons, Hw, IH by done. done.
Qed.

(** ** The pause *)

(** No signal is missed: [Paused] did not change unless the channel was closed. *)
Definition heard (a a' : Admission) : Prop :=
  (ra_signals a <= ra_signals a')%nat /\ (ra_signals a' = ra_signals a -> forall s, Paused s a' = Paused s a).

Lemma heard_refl a : heard a a.
Proof. split; [lia|done]. Qed.
Lemma heard_trans a b c : heard a b -> heard b c -> heard a c.
Proof. intros [H1 H2] [H3 H4]. split; [lia|]. intros E s. rewrite H4, H2; [done|lia|lia]. Qed.
Lemma heard_same a a' : ra_signals a' = ra_signals a -> ra_proofs a' = ra_proofs a -> ra_brakeClosed a' = ra_brakeClosed a -> ra_flushes a' = ra_flushes a -> heard a a'.
Proof. intros E1 E2 E3 E4. split; [lia|]. intros _ s. unfold Paused. by rewrite E2, E3, E4. Qed.
Lemma heard_signal a a' : (ra_signals a < ra_signals a')%nat -> heard a a'.
Proof. split; [lia|]. intros ?. lia. Qed.

Lemma heard_remove p a : heard a (remove p a).
Proof.
  unfold remove. destruct (deleteWaiter p (ra_waiting a)) as [[w rest]|]; [|apply heard_refl]. destruct (is_proof (w_kind w)); [apply heard_signal; cbn; lia|]. apply heard_same; cbn; lia || done.
Qed.
Lemma heard_dispatch m a : heard a (unlockAndDispatch m a).
Proof.
  assert (Hg : forall w, heard a (grant w a)) by (intros w; unfold grant; eapply heard_trans; [apply (heard_remove (w_ptr w))|by apply heard_same]).
  unfold unlockAndDispatch, dispatch. destruct (ra_waiting a) as [|w rest]; [apply heard_refl|]. destruct (_ || _); [apply heard_refl|].
  destruct (_ && _); [apply heard_refl|]. destruct (_ && _); [|apply Hg]. destruct (negb _); [by apply heard_same|]. destruct (negb _); [apply heard_refl|apply Hg].
Qed.
Lemma heard_brake r a : heard a (evaluateMemoryBrake r a).
Proof.
  unfold evaluateMemoryBrake, closedBrake, openBrake. destruct (ra_brakeClosed a) eqn:E.
  - destruct (_ || _); [by apply heard_same|]. destruct (ra_brakeWithinSince a) as [t|]; [|by apply heard_same]. destruct (_ <? _); [by apply heard_same|apply heard_signal; cbn; lia].
  - destruct (_ || _); [apply heard_signal; cbn; lia|by apply heard_same].
Qed.

(** No consumer misses a change of its pause: an event after which some
    supplier's [Paused] answers otherwise has closed the channel that wakes the
    consumers. *)
Theorem pause_changes_are_signalled e a s : Paused s (event e a) <> Paused s a -> (ra_signals a < ra_signals (event e a))%nat.
Proof.
  assert (H : heard a (event e a)).
  { destruct e; cbn [event]; unfold acquire, ready, cancel, loaded, release, collected, endTree.
    - eapply heard_trans; [|apply heard_dispatch]. destruct k; [apply heard_signal; cbn; lia|]. apply heard_same; cbn; lia || done.
    - destruct (ra_callers a !! p) as [[]|]; first [apply heard_refl|by apply heard_same].
    - destruct (ra_callers a !! p) as [[]|]; try apply heard_refl; (eapply heard_trans; [|apply heard_dispatch]); [eapply heard_trans; [apply heard_remove|by apply heard_same]|by apply heard_same].
    - destruct (ra_callers a !! p) as [[| |[]|]|]; try apply heard_refl. eapply heard_trans; [|apply heard_dispatch]. by apply heard_same.
    - destruct (ra_callers a !! p) as [[]|]; try apply heard_refl. eapply heard_trans; [|apply heard_dispatch]. by apply heard_same.
    - destruct (ra_gc a); [|apply heard_refl]. eapply heard_trans; [|apply heard_dispatch]. by apply heard_same.
    - apply heard_signal. cbn. lia.
    - apply heard_signal. cbn. lia.
    - apply heard_brake.
    - apply heard_dispatch. }
  destruct H as [H1 H2]. intros Hne. destruct (decide (ra_signals (event e a) = ra_signals a)) as [E|]; [by destruct Hne; apply H2|lia].
Qed.

(** ** Runs of the rebuild admission *)

Local Open Scope string_scope.
Local Open Scope Z_scope.
Local Open Scope list_scope.

Module Rebuilds.

Definition gib : Z := 2 ^ 30.
Definition calm : Mem := mkMem (8 * gib) (2 * gib) gib gib.
Definition full : Mem := mkMem (8 * gib) (7 * gib) (7 * gib) (7 * gib).
Definition over : Mem := mkMem (8 * gib) (9 * gib) gib gib.

(** A proof loads; a compaction and two proofs queue behind it, the more valuable
    one ahead; once it is loaded the next does not fit, a collection runs, and it
    still does not fit; the tree is released and the next proof is admitted. *)
Definition cohort : list Event :=
  [EvAcquire proof gib 5 calm; EvReady 0; EvAcquire compaction gib 0 calm; EvAcquire proof gib 7 calm; EvAcquire proof gib 9 calm;
   EvLoaded 0 full; EvCollected full; EvRelease 0 full].

Lemma cohort_order : map w_ptr (ra_waiting (events cohort newRebuildAdmission)) = [2; 1]%nat /\
  ra_callers (events cohort newRebuildAdmission) = [Gone; Waiting; Waiting; Granted].
Proof. vm_compute. done. Qed.

(** A compaction waits while the runtime is over its limit, with nothing in
    flight; the brake asks again. *)
Definition held_back : list Event := [EvAcquire compaction gib 0 over].
Lemma compaction_waits : ra_callers (events held_back newRebuildAdmission) = [Waiting] /\ ra_callers (events (held_back ++ [EvBrakeAsks calm]) newRebuildAdmission) = [Granted].
Proof. vm_compute. done. Qed.

Lemma rebuild_admission_sound_witness :
  let a := events held_back newRebuildAdmission in ra_inFlight a = 0 /\ ra_collecting a = false /\ ra_proofs a = 0 /\ headcount is_loading (ra_callers a) = 0%nat.
Proof.
  destruct (rebuild_admission_sound held_back eq_refl) as (H1 & _ & _ & _ & H5). split; [vm_compute; reflexivity|]. split; [vm_compute; reflexivity|]. split; [apply H5; vm_compute; reflexivity|exact H1].
Defined.

(** A second proof comes while one loads: the consumers pause, but for the
    supplier whose claim waits for its stream. *)
Definition one_loads : Admission := events [EvAcquire proof gib 5 calm; EvReady 0; EvFlushWaiting "a"] newRebuildAdmission.
Lemma pause_changes_are_signalled_witness :
  Paused "b" (event (EvAcquire proof gib 7 calm) one_loads) = true /\ Paused "a" (event (EvAcquire proof gib 7 calm) one_loads) = false /\
  (ra_signals one_loads < ra_signals (event (EvAcquire proof gib 7 calm) one_loads))%nat.
Proof.
  split; [vm_compute; reflexivity|]. split; [vm_compute; reflexivity|]. apply (pause_changes_are_signalled (EvAcquire proof gib 7 calm) one_loads "b"). vm_compute. discriminate.
Defined.
End Rebuilds.
