(* ===== verification/RelayValidator.v ===== *)
(** * Validating a relay request (relayer/validator.go, session_height_bounds.go)

    [ValidateRelayRequest] as a program of calls: the checks of the request
    itself and of its ring signature (libraries), the signing keys held, the
    chain height the process last saw, and the two reads of the chain. The
    arguments of a call are what the client can choose; what is answered is
    arbitrary. Log lines and timings are left out. *)

From S2P Require Import Prelude Program.
From Stdlib Require Import String.

Local Open Scope string_scope.
Local Open Scope Z_scope.
Local Open Scope list_scope.
Local Open Scope prog_scope.

(** ** Data *)

Record SessionHeader := mkHeader {
  sh_app : string;
  sh_service : string;
  sh_session : string;
  sh_start : Z;
  sh_end : Z
}.
#[export] Instance SessionHeader_eq_dec : EqDecision SessionHeader.
Proof. solve_decision. Defined.

(** What the getters answer for a nil header. *)
Definition nil_header : SessionHeader := mkHeader "" "" "" 0 0.

Record RelayRequest := mkRequest { rq_header : option SessionHeader; rq_supplier : string }.
Definition header (r : RelayRequest) : SessionHeader := default nil_header (rq_header r).

Record Session := mkSession { ss_header : option SessionHeader; ss_suppliers : list string }.

Inductive HeaderField := FApplication | FService | FStart | FEnd | FSession.
Inductive ValidationErr :=
| BasicInvalid
| SupplierNotAllowed
| ImplausibleHeights
| ParamsUnavailable
| ErrSessionExpired
| SessionUnavailable
| OnchainHeaderNil
| HeaderMismatch (f : HeaderField)
| SignatureInvalid
| SupplierNotInSession.

Section Validator.
(** The chain's shared parameters and the library's question of them. *)
Context {SharedParams : Type} (IsGracePeriodElapsed : SharedParams -> Z -> Z -> bool).

Inductive vcall :=
| ValidateBasic
| OwnsSupplierKey (addr : string)
| HeightNow
| GetSharedParams (height : Z)
| GetSession (app service : string) (height : Z)
| VerifyRelayRequestSignature.

#[global] Instance vcall_effect : Effect vcall := fun c =>
  match c with
  | ValidateBasic => bool
  | OwnsSupplierKey _ => bool
  | HeightNow => Z
  | GetSharedParams _ => option SharedParams
  | GetSession _ _ _ => option Session
  | VerifyRelayRequestSignature => bool
  end.

(** ** The bounds on heights a client supplies *)

Definition maxPlausibleSessionLengthBlocks : Z := 10000.
Definition maxSessionLookbackBlocks : Z := 10000.
Definition maxSessionLookaheadBlocks : Z := 10000.

Definition sessionHeightsPlausible (startHeight endHeight arrivalHeight : Z) : bool :=
  if (startHeight <=? 0) || (endHeight <=? startHeight) then false
  else if maxPlausibleSessionLengthBlocks <? wrap64 (endHeight - startHeight) then false
  else if arrivalHeight <=? 0 then true
  else if wrap64 (arrivalHeight + maxSessionLookaheadBlocks) <? startHeight then false
  else if endHeight <? wrap64 (arrivalHeight - maxSessionLookbackBlocks) then false
  else true.

(** ** The steps *)

Definition compareSessionHeaders (onchain : option SessionHeader) (request : SessionHeader) : option ValidationErr :=
  match onchain with
  | None => Some OnchainHeaderNil
  | Some o =>
      if negb (String.eqb (sh_app request) (sh_app o)) then Some (HeaderMismatch FApplication)
      else if negb (String.eqb (sh_service request) (sh_service o)) then Some (HeaderMismatch FService)
      else if negb (sh_start request =? sh_start o) then Some (HeaderMismatch FStart)
      else if negb (sh_end request =? sh_end o) then Some (HeaderMismatch FEnd)
      else if negb (String.eqb (sh_session request) (sh_session o)) then Some (HeaderMismatch FSession)
      else None
  end.

Definition getTargetSessionBlockHeight (r : RelayRequest) (arrivalHeight : Z) : prog vcall (result Z ValidationErr) :=
  let h := header r in
  if (arrivalHeight =? 0) || (arrivalHeight <=? sh_end h) then Ret (Ok (sh_start h))
  else
    params <- perform (GetSharedParams (sh_end h));
    match params with
    | None => Ret (Err ParamsUnavailable)
    | Some p => if negb (IsGracePeriodElapsed p (sh_end h) arrivalHeight) then Ret (Ok (sh_end h)) else Ret (Err ErrSessionExpired)
    end.

(** [heightNow] nil reads as 0. *)
Definition liveHeight (hasHeight : bool) : prog vcall Z := if hasHeight then perform HeightNow else Ret 0.

(** The checks from the session on. *)
Definition checkSession (r : RelayRequest) (height : Z) : prog vcall (result unit ValidationErr) :=
  let h := header r in
  session <- perform (GetSession (sh_app h) (sh_service h) height);
  match session with
  | None => Ret (Err SessionUnavailable)
  | Some s =>
      match compareSessionHeaders (ss_header s) h with
      | Some e => Ret (Err e)
      | None =>
          signed <- perform VerifyRelayRequestSignature;
          if (signed : bool) then
            if existsb (String.eqb (rq_supplier r)) (ss_suppliers s) then Ret (Ok tt) else Ret (Err SupplierNotInSession)
          else Ret (Err SignatureInvalid)
      end
  end.

(** The bound on a header that is there. *)
Definition heightsChecked (hasHeight : bool) (r : RelayRequest) : prog vcall bool :=
  match rq_header r with
  | None => Ret true
  | Some h => live <- liveHeight hasHeight; Ret (sessionHeightsPlausible (sh_start h) (sh_end h) live)
  end.

(** [gated]: the validator was given OwnsSupplierKey. *)
Definition ValidateRelayRequest (gated hasHeight : bool) (r : RelayRequest) (arrivalHeight : Z) : prog vcall (result unit ValidationErr) :=
  basic <- perform ValidateBasic;
  if negb basic then Ret (Err BasicInvalid) else
  allowed <- (if gated then perform (OwnsSupplierKey (rq_supplier r)) else Ret true);
  if negb allowed then Ret (Err SupplierNotAllowed) else
  plausible <- heightsChecked hasHeight r;
  if negb plausible then Ret (Err ImplausibleHeights) else
  target <- getTargetSessionBlockHeight r arrivalHeight;
  match target with
  | Err e => Ret (Err e)
  | Ok height => checkSession r height
  end.

(** ** What validation guarantees *)

Notation trace := (list (event vcall)).

Lemma compareSessionHeaders_ok o h : compareSessionHeaders o h = None -> o = Some h.
Proof.
  unfold compareSessionHeaders. destruct o as [o|]; [|done]. destruct o, h; cbn.
  destruct (String.eqb_spec sh_app1 sh_app0); cbn; [|done]. destruct (String.eqb_spec sh_service1 sh_service0); cbn; [|done].
  destruct (Z.eqb_spec sh_start1 sh_start0); cbn; [|done]. destruct (Z.eqb_spec sh_end1 sh_end0); cbn; [|done].
  destruct (String.eqb_spec sh_session1 sh_session0); cbn; [|done]. congruence.
Qed.

(** The height a read of the chain names. *)
Definition read_height (c : vcall) : option Z :=
  match c with GetSharedParams h => Some h | GetSession _ _ h => Some h | _ => None end.

(** The chain is read at the heights of a header that is plausible for the live
    height, the signature checked after the header was found to be the chain's. *)
Definition plausible_for (hasHeight : bool) (r : RelayRequest) (l : trace) : Prop :=
  forall h, rq_header r = Some h -> exists live, sessionHeightsPlausible (sh_start h) (sh_end h) live = true /\
    (if hasHeight then Ev HeightNow live ∈ l else live = 0).
Definition on_chain (r : RelayRequest) (l : trace) : Prop :=
  exists height s, Ev (GetSession (sh_app (header r)) (sh_service (header r)) height) (Some s) ∈ l /\ ss_header s = Some (header r).

Definition bounded (hasHeight : bool) (r : RelayRequest) (l : trace) : Prop :=
  (forall e h, e ∈ l -> read_height (ev_call e) = Some h -> (h = sh_start (header r) \/ h = sh_end (header r)) /\ plausible_for hasHeight r l) /\
  (forall x, Ev VerifyRelayRequestSignature x ∈ l -> on_chain r l).

(** The relay did not come late. It arrived no later than its session's end, or at
    height 0, which stands for a height not known yet, and the session was looked
    up at its start; or it arrived after the end, within the grace period by the
    parameters of that end, and the session was looked up there. An arrival before
    the session's start is not refused. *)
Definition not_late (r : RelayRequest) (arrivalHeight height : Z) (l : trace) : Prop :=
  ((arrivalHeight = 0 \/ arrivalHeight <= sh_end (header r)) /\ height = sh_start (header r)) \/
  (sh_end (header r) < arrivalHeight /\ height = sh_end (header r) /\
   exists p, Ev (GetSharedParams (sh_end (header r))) (Some p) ∈ l /\ IsGracePeriodElapsed p (sh_end (header r)) arrivalHeight = false).

Definition genuine (gated : bool) (r : RelayRequest) (arrivalHeight : Z) (l : trace) : Prop :=
  Ev ValidateBasic true ∈ l /\ (gated = true -> Ev (OwnsSupplierKey (rq_supplier r)) true ∈ l) /\ Ev VerifyRelayRequestSignature true ∈ l /\
  exists height s, not_late r arrivalHeight height l /\
    Ev (GetSession (sh_app (header r)) (sh_service (header r)) height) (Some s) ∈ l /\ ss_header s = Some (header r) /\ rq_supplier r ∈ ss_suppliers s.

Definition sound (gated hasHeight : bool) (r : RelayRequest) (arrivalHeight : Z) (l : trace) (res : result unit ValidationErr) : Prop :=
  bounded hasHeight r l /\ (res = Ok tt -> genuine gated r arrivalHeight l).

(** The calls before any read of the chain. *)
Definition unread (l : trace) : Prop := forall e, e ∈ l -> read_height (ev_call e) = None /\ ev_call e <> VerifyRelayRequestSignature.

Lemma unread_bounded hasHeight r l : unread l -> bounded hasHeight r l.
Proof. intros H. split; [intros e h He Hh; destruct (H e He) as [E _]; congruence|]. intros x Hx. by destruct (H _ Hx). Qed.
Lemma unread_cons e l : unread l -> read_height (ev_call e) = None -> ev_call e <> VerifyRelayRequestSignature -> unread (e :: l).
Proof. intros H H1 H2 x [->|Hx]%elem_of_cons; [done|by apply H]. Qed.
Lemma plausible_mono hasHeight r l l' : (forall e, e ∈ l -> e ∈ l') -> plausible_for hasHeight r l -> plausible_for hasHeight r l'.
Proof. intros Hs H h Hh. destruct (H h Hh) as (live & Hp & Hl). exists live. split; [done|]. destruct hasHeight; [by apply Hs|done]. Qed.

(** A read at one of the header's heights keeps the bound. *)
Lemma bounded_read hasHeight r l c (x : answer c) h :
  bounded hasHeight r l -> plausible_for hasHeight r l -> read_height c = Some h -> h = sh_start (header r) \/ h = sh_end (header r) -> bounded hasHeight r (Ev c x :: l).
Proof.
  intros [H1 H2] Hp Hc Hh. assert (Hs : forall e, e ∈ l -> e ∈ Ev c x :: l) by (intros e He; by right). split.
  - intros e h' He Hr. apply elem_of_cons in He as [->|He]; [cbn in Hr; rewrite Hc in Hr; simplify_eq; split; [done|]; by eapply plausible_mono|]. destruct (H1 e h' He Hr) as [? ?]. split; [done|]. by eapply plausible_mono.
  - intros y Hy. apply elem_of_cons in Hy as [Hy|Hy]; [|destruct (H2 y Hy) as (g & s & Hg & Hs'); exists g, s; split; [by right|done]].
    assert (c = VerifyRelayRequestSignature) as -> by (by injection Hy). done.
Qed.

Lemma checkSession_sound gated hasHeight r arrivalHeight height l :
  bounded hasHeight r l -> plausible_for hasHeight r l -> not_late r arrivalHeight height l ->
  Ev ValidateBasic true ∈ l -> (gated = true -> Ev (OwnsSupplierKey (rq_supplier r)) true ∈ l) ->
  wp (checkSession r height) l (sound gated hasHeight r arrivalHeight).
Proof.
  intros Hb Hp Ht Hv Hg. cbn. intros [s|].
  2:{ split; [|done]. eapply bounded_read; [done|done|done|]. destruct Ht as [[_ ->]|(_ & -> & _)]; tauto. }
  set (l1 := Ev (GetSession (sh_app (header r)) (sh_service (header r)) height) (Some s) :: l). assert (Hb1 : bounded hasHeight r l1) by (eapply bounded_read; [done|done|done|]; destruct Ht as [[_ ->]|(_ & -> & _)]; tauto).
  destruct (compareSessionHeaders (ss_header s) (header r)) as [e|] eqn:E; [by split|]. apply compareSessionHeaders_ok in E. cbn. intros sig.
  assert (Hb2 : bounded hasHeight r (Ev VerifyRelayRequestSignature sig :: l1)).
  { destruct Hb1 as [H1 H2]. assert (Hs : forall e, e ∈ l1 -> e ∈ Ev VerifyRelayRequestSignature sig :: l1) by (intros e He; by right). split.
    - intros e h [->|He]%elem_of_cons Hr; [done|]. destruct (H1 e h He Hr). split; [done|]. by eapply plausible_mono.
    - intros x _. exists height, s. split; [right; left|done]. }
  destruct sig; [|by split]. destruct (existsb _ _) eqn:Es; [|by split]. split; [done|]. intros _.
  apply existsb_exists in Es as (x & Hx & Hxe). apply String.eqb_eq in Hxe. subst x. split_and!; [by do 2 right|intros ?; do 2 right; by apply Hg|left|]. exists height, s. split_and!; [|right; left|done|by apply list_elem_of_In].
  destruct Ht as [?|(? & ? & p & Hpe & ?)]; [by left|]. right. split_and!; [done|done|]. exists p. split; [by do 2 right|done].
Qed.

(** From the checked heights on. *)
Lemma target_sound gated hasHeight r arrivalHeight l :
  unread l -> plausible_for hasHeight r l -> Ev ValidateBasic true ∈ l -> (gated = true -> Ev (OwnsSupplierKey (rq_supplier r)) true ∈ l) ->
  wp (target <- getTargetSessionBlockHeight r arrivalHeight; match target with Err e => Ret (Err e) | Ok height => checkSession r height end) l (sound gated hasHeight r arrivalHeight).
Proof.
  intros Hu Hp Hv Hg. apply unread_bounded with (hasHeight := hasHeight) (r := r) in Hu. unfold getTargetSessionBlockHeight. destruct (_ || _) eqn:E.
  - apply checkSession_sound; [done|done| |done|done]. left. split; [|done]. apply orb_true_iff in E as [E|E]; bool_to_prop; tauto.
  - apply orb_false_iff in E as [_ E]. bool_to_prop. cbn. intros [p|].
    2:{ split; [|done]. by eapply bounded_read; [..|right]. }
    set (l1 := Ev (GetSharedParams (sh_end (header r))) (Some p) :: l). assert (Hs : forall e, e ∈ l -> e ∈ l1) by (intros e He; by right).
    assert (Hb : bounded hasHeight r l1) by (by eapply bounded_read; [..|right]). destruct (IsGracePeriodElapsed p _ _) eqn:Eg; cbn; [by split|].
    apply checkSession_sound; [done|by eapply plausible_mono| |by apply Hs|intros ?; by apply Hs, Hg]. right. split_and!; [done|done|]. exists p. split; [left|done].
Qed.

(** C30. Validation, whatever its collaborators answer. The chain is read only
    at the start or end height of the request's header, when it is a header that
    is plausible for the height the process last saw, and the ring signature is
    checked only once the header is the chain's, field by field. A relay that is
    accepted passed the basic checks, is of a supplier who is in the session, and
    whose key is held where the validator was given that test, has the session's
    own header and a valid signature, and did not come late: its arrival height
    is unknown (0), or not past the session's end, or past it with the grace
    period of the parameters at that end not elapsed. *)
Theorem relay_validation_sound gated hasHeight r arrivalHeight l res :
  runs (ValidateRelayRequest gated hasHeight r arrivalHeight) [] l res -> sound gated hasHeight r arrivalHeight l res.
Proof.
  apply wp_runs. cbn. intros [|]; cbn; [|split; [apply unread_bounded|done]; apply unread_cons; [intros e []%not_elem_of_nil|done|done]].
  assert (H0 : unread [Ev ValidateBasic true]) by (apply unread_cons; [intros e []%not_elem_of_nil|done|done]).
  assert (Hk : forall l, unread l -> Ev ValidateBasic true ∈ l -> (gated = true -> Ev (OwnsSupplierKey (rq_supplier r)) true ∈ l) ->
    wp (plausible <- heightsChecked hasHeight r; if negb plausible then Ret (Err ImplausibleHeights) else target <- getTargetSessionBlockHeight r arrivalHeight; match target with Err e => Ret (Err e) | Ok height => checkSession r height end) l (sound gated hasHeight r arrivalHeight)).
  { intros l0 Hu Hv Hg. unfold heightsChecked. destruct (rq_header r) as [h|] eqn:Er; [|apply target_sound; try done; intros h Hh; congruence].
    unfold liveHeight. destruct hasHeight; cbn.
    - intros live. destruct (sessionHeightsPlausible _ _ _) eqn:Ep; cbn; [|split; [apply unread_bounded|done]; by apply unread_cons].
      apply target_sound; [by apply unread_cons| |by right|intros ?; right; by apply Hg]. intros h' Hh. rewrite Er in Hh. simplify_eq. exists live. split; [done|left].
    - destruct (sessionHeightsPlausible _ _ _) eqn:Ep; cbn; [|split; [by apply unread_bounded|done]]. apply target_sound; try done. intros h' Hh. rewrite Er in Hh. simplify_eq. by exists 0. }
  destruct gated; cbn; [|apply Hk; [done|left|done]]. intros [|]; cbn.
  - apply Hk; [by apply unread_cons|right; left|intros _; left].
  - split; [apply unread_bounded|done]. by apply unread_cons.
Qed.
End Validator.

(** ** The bounds *)

(** Heights that are plausible lie in a band around the live height, and a
    session of at most ten thousand blocks that is live or just ended passes. *)
Lemma sessionHeightsPlausible_iff s e live :
  in_int64 s -> in_int64 e -> 0 <= live <= int64_max - 10000 ->
  sessionHeightsPlausible s e live = true <->
  0 < s < e /\ e - s <= 10000 /\ (live = 0 \/ s - 10000 <= live <= e + 10000).
Proof.
  unfold in_int64, int64_min, int64_max. intros Hs He Hl. unfold sessionHeightsPlausible, maxPlausibleSessionLengthBlocks, maxSessionLookaheadBlocks, maxSessionLookbackBlocks.
  destruct (_ || _) eqn:E1; [apply orb_true_iff in E1; split; [done|]; intros H; destruct E1 as [E|E]; bool_to_prop; lia|]. apply orb_false_iff in E1 as [E1 E1']. bool_to_prop.
  rewrite !wrap64_id by (unfold in_int64, int64_min, int64_max; lia). destruct (_ <? _) eqn:E2; bool_to_prop; [split; [done|lia]|]. destruct (live <=? 0) eqn:E3; bool_to_prop; [split; [lia|done]|].
  destruct (_ <? s) eqn:E4; bool_to_prop; [split; [done|lia]|]. destruct (e <? _) eqn:E5; bool_to_prop; split; done || lia.
Qed.

(** ** A relay of the grace period *)

Module ValidatorExample.
Definition elapsed (grace e cur : Z) : bool := e + grace <? cur.
Definition h60 : SessionHeader := mkHeader "app" "svc" "id" 51 60.
Definition request : RelayRequest := mkRequest (Some h60) "supplier".
Definition answers (c : vcall) (w : unit) : unit * answer (Effect := vcall_effect (SharedParams := Z)) c :=
  (w, match c as c return answer (Effect := vcall_effect (SharedParams := Z)) c with
      | ValidateBasic => true
      | OwnsSupplierKey _ => true
      | HeightNow => 62
      | GetSharedParams _ => Some 3
      | GetSession _ _ _ => Some (mkSession (Some h60) ["other"; "supplier"])
      | VerifyRelayRequestSignature => true
      end).
Definition validate (arrival : Z) : unit * list (event vcall (E := vcall_effect (SharedParams := Z))) * result unit ValidationErr :=
  interp answers (ValidateRelayRequest elapsed true true request arrival) tt [].

Lemma expires_after_grace : snd (validate 63) = Ok tt /\ snd (validate 64) = Err ErrSessionExpired.
Proof. vm_compute. done. Qed.

Lemma validate_runs : runs (ValidateRelayRequest elapsed true true request 62) [] (snd (fst (validate 62))) (Ok tt).
Proof. apply (interp_runs answers _ tt _ tt). vm_compute. reflexivity. Qed.

Lemma relay_validation_sound_witness :
  genuine elapsed true request 62 (snd (fst (validate 62))) /\ bounded true request (snd (fst (validate 62))).
Proof. destruct (relay_validation_sound elapsed true true request 62 _ _ validate_runs) as [Hb Hg]. split; [apply Hg; reflexivity|exact Hb]. Defined.
End ValidatorExample.
