(* ===== verification/StreamConsumer.v ===== *)
(** * The consumer of a supplier's Redis stream (transport/redis/consumer.go)

    The read loop, the reclaim of entries stranded with other consumers, the pass
    over the entries pending under the consumer's own name and the reaping of
    dead consumers, as programs of calls: the commands of Redis, the delivery
    channel, the context and the gates. Every answer is arbitrary, so what is
    proved holds against any Redis. [Send] is handing a parsed relay to the
    channel, which fails only when the context ends. Durations are nanoseconds,
    the configured timeout milliseconds. The loops take fuel, a turn each;
    metrics and logs are left out. *)

From S2P Require Import Prelude Program MinedRelay.
From Stdlib Require Import Ascii String.

Local Open Scope string_scope.
Local Open Scope Z_scope.
Local Open Scope list_scope.
Local Open Scope prog_scope.

(** ** Data *)

(** A [redis.XMessage]: whether it has values at all, and its [data] where that
    is a string. *)
Record XMessage := mkX { x_id : string; x_empty : bool; x_data : option string }.
Record StreamMessage := mkStreamMsg { sm_id : string; sm_relay : MinedRelayMessage; sm_isReclaim : bool }.
Record PendingEntry := mkPendingEntry { pe_id : string; pe_owner : string }.
Record ConsumerInfo := mkConsumerInfo { ci_name : string; ci_pending : Z; ci_idle : Z }.

Inductive RedisErr := RNil | RNoGroup | RNoKey | ROther.

Record ConsumerConfig := mkConsumerConfig { cc_name : string; cc_BatchSize : Z; cc_ClaimIdleTimeout : Z }.

Inductive ccall :=
| CtxDone
| WaitOperable
| EnsureGroup
| LoadLargest
| StoreLargest (v : Z)
| LoadChannelBytes
| XReadGroupNew (count : Z)
| XReadGroupOwn (after : string) (count : Z)
| XPendingExt (start : string) (minIdle count : Z)
| XClaim (minIdle : Z) (ids : list string)
| XAckDel (id : string)
| XAck (id : string)
| XInfoConsumers
| XGroupDelConsumer (name : string)
| Send (m : StreamMessage).

(** [WaitOperable], [EnsureGroup], the acknowledgements and [Send] answer whether
    they succeeded. *)
#[export] Instance ccall_effect : Effect ccall := fun c =>
  match c with
  | CtxDone | WaitOperable | EnsureGroup | XAckDel _ | XAck _ | Send _ => bool
  | LoadLargest | LoadChannelBytes => Z
  | StoreLargest _ => unit
  | XReadGroupNew _ | XReadGroupOwn _ _ | XClaim _ _ => result (list XMessage) RedisErr
  | XPendingExt _ _ _ => result (list PendingEntry) RedisErr
  | XInfoConsumers => result (list ConsumerInfo) RedisErr
  | XGroupDelConsumer _ => result Z RedisErr
  end.

Inductive Outcome := Cancelled | Failed | Finished | Running.

(** The [minIdle] of a claim and the silence of a dead consumer. *)
Definition claimIdle (cfg : ConsumerConfig) : Z := wrap64 (cc_ClaimIdleTimeout cfg * 1000000).

(** ** Sizing the reads *)

Definition readBudgetBytes : Z := 8 * 2 ^ 20.
Definition pendingPageSize : Z := 50.
Definition reapIdleMultiplier : Z := 10.

Definition readCountOf (largest channelBytes batchSize : Z) : Z :=
  if largest <=? 0 then 1 else Z.min (Z.max (Z.quot (readBudgetBytes - channelBytes) largest) 1) batchSize.
Definition readCount (cfg : ConsumerConfig) : prog ccall Z :=
  largest <- perform LoadLargest;
  if largest <=? 0 then Ret 1 else
  channelBytes <- perform LoadChannelBytes; Ret (readCountOf largest channelBytes (cc_BatchSize cfg)).
Definition pageSizeOf (largest : Z) : Z :=
  if largest <=? 0 then pendingPageSize else Z.min (Z.max (Z.quot readBudgetBytes largest) 1) pendingPageSize.
Definition pageSize : prog ccall Z := largest <- perform LoadLargest; Ret (pageSizeOf largest).

Definition largestOf (msgs : list XMessage) : Z :=
  fold_left (fun n m => match x_data m with Some d => Z.max n (slen d) | None => n end) msgs 0.
Definition noteLargestEntry (largest : Z) : prog ccall unit :=
  if largest <=? 0 then Ret tt else
  prev <- perform LoadLargest; perform (StoreLargest (Z.max largest (prev - Z.quot prev 16))).

(** ** One message *)

Definition parseMessage (m : XMessage) : option MinedRelayMessage :=
  match x_data m with
  | None => None
  | Some d => match DecodeEntry d with Some (Ok r) => Some r | _ => None end
  end.

(** A message that does not parse is acknowledged and deleted, whether or not
    that succeeds; one that does goes to the channel. Whether to go on. *)
Definition deliver (reclaim : bool) (m : XMessage) : prog ccall bool :=
  match parseMessage m with
  | None => _ <- perform (XAckDel (x_id m)); Ret true
  | Some r => perform (Send (mkStreamMsg (x_id m) r reclaim))
  end.
Fixpoint deliverAll (reclaim : bool) (msgs : list XMessage) : prog ccall bool :=
  match msgs with
  | [] => Ret true
  | m :: rest => sent <- deliver reclaim m; if (sent : bool) then deliverAll reclaim rest else Ret false
  end.

(** ** The read loop *)

Fixpoint consumeMessagesUntilError (fuel : nat) (cfg : ConsumerConfig) : prog ccall Outcome :=
  match fuel with
  | O => Ret Running
  | S fuel =>
      operable <- perform WaitOperable;
      if negb operable then Ret Cancelled else
      count <- readCount cfg;
      reply <- perform (XReadGroupNew count);
      match reply with
      | Err e =>
          done <- perform CtxDone;
          if (done : bool) then Ret Cancelled else
          match e with
          | RNil => consumeMessagesUntilError fuel cfg
          | RNoGroup => made <- perform EnsureGroup; if (made : bool) then consumeMessagesUntilError fuel cfg else Ret Failed
          | _ => Ret Failed
          end
      | Ok msgs =>
          _ <- noteLargestEntry (largestOf msgs);
          sent <- deliverAll false msgs;
          if (sent : bool) then consumeMessagesUntilError fuel cfg else Ret Cancelled
      end
  end.

(** ** The reclaim *)

(** [strings.Cut] at the first dash. *)
Fixpoint cutDash (s : string) : option (string * string) :=
  match s with
  | EmptyString => None
  | String c rest =>
      if Ascii.eqb c "-" then Some (EmptyString, rest)
      else match cutDash rest with Some (a, b) => Some (String c a, b) | None => None end
  end.
Definition nextStreamID (id : string) : string :=
  match cutDash id with
  | None => id
  | Some (ms, seq) => match ParseUint seq with Some n => ms ++ "-" ++ format_int (wrapu64 (n + 1)) | None => id end
  end.

Definition claimIdleFromOtherConsumers (cfg : ConsumerConfig) (start : string) : prog ccall (result (list XMessage * string) RedisErr) :=
  let from := if String.eqb start "0-0" then "-" else start in
  size <- pageSize;
  reply <- perform (XPendingExt from (claimIdle cfg) size);
  match reply with
  | Err e => Ret (Err e)
  | Ok [] => Ret (Ok ([], "0-0"))
  | Ok (first :: more) =>
      let pending := first :: more in
      let ids := map pe_id (List.filter (fun e => negb (String.eqb (pe_owner e) (cc_name cfg))) pending) in
      let next := if Z.of_nat (List.length pending) <? size then "0-0" else nextStreamID (pe_id (List.last more first)) in
      match ids with
      | [] => Ret (Ok ([], next))
      | _ =>
          claimed <- perform (XClaim (claimIdle cfg) ids);
          match claimed with
          | Err e => Ret (Err e)
          | Ok msgs => Ret (Ok (msgs, next))
          end
      end
  end.

Fixpoint claimFrom (fuel : nat) (cfg : ConsumerConfig) (start : string) : prog ccall Outcome :=
  match fuel with
  | O => Ret Running
  | S fuel =>
      page <- claimIdleFromOtherConsumers cfg start;
      match page with
      | Err RNoGroup | Err RNoKey => Ret Finished
      | Err _ => _ <- perform CtxDone; Ret Failed
      | Ok (msgs, next) =>
          sent <- deliverAll true msgs;
          if negb sent then Ret Cancelled
          else if String.eqb next "0-0" || String.eqb next "" then Ret Finished
          else done <- perform CtxDone; if (done : bool) then Ret Cancelled else claimFrom fuel cfg next
      end
  end.
Definition claimPendingMessages (fuel : nat) (cfg : ConsumerConfig) : prog ccall Outcome := claimFrom fuel cfg "0-0".

(** ** The entries pending under the consumer's own name *)

(** One page: the ID of the last entry finished, and whether every send went
    through. *)
Fixpoint ownPage (after : string) (msgs : list XMessage) : prog ccall (string * bool) :=
  match msgs with
  | [] => Ret (after, true)
  | m :: rest =>
      if x_empty m then _ <- perform (XAck (x_id m)); ownPage (x_id m) rest
      else sent <- deliver true m; if (sent : bool) then ownPage (x_id m) rest else Ret (after, false)
  end.

Fixpoint ownPending (fuel : nat) (after : string) : prog ccall (string * Outcome) :=
  match fuel with
  | O => Ret (after, Running)
  | S fuel =>
      size <- pageSize;
      reply <- perform (XReadGroupOwn after size);
      match reply with
      | Err RNil => Ret (after, Finished)
      | Err _ => Ret (after, Failed)
      | Ok [] => Ret (after, Finished)
      | Ok msgs =>
          unpack (after', sent) <- ownPage after msgs;
          if (sent : bool) then ownPending fuel after' else Ret (after', Cancelled)
      end
  end.
Definition eachOwnPending (fuel : nat) (after : string) : prog ccall (string * Outcome) :=
  ownPending fuel (if String.eqb after "" then "0" else after).

(** The state the read loop keeps of that pass: where to resume, and whether it
    is done. *)
Definition deliverOwnPending (fuel : nat) (after : string) (isDone : bool) : prog ccall (string * bool * Outcome) :=
  if isDone then Ret (after, true, Finished) else
  operable <- perform WaitOperable;
  if negb operable then Ret (after, false, Cancelled) else
  unpack (after', o) <- eachOwnPending fuel after;
  match o with Finished => Ret (after', true, Finished) | _ => Ret (after', false, o) end.

(** ** Dead consumers *)

Definition reaps (cfg : ConsumerConfig) (i : ConsumerInfo) : bool :=
  negb (String.eqb (ci_name i) (cc_name cfg)) && (ci_pending i =? 0) && negb (ci_idle i <? wrap64 (claimIdle cfg * reapIdleMultiplier)).
Definition reapDeadConsumers (cfg : ConsumerConfig) : prog ccall unit :=
  reply <- perform XInfoConsumers;
  match reply with
  | Err e => Ret tt
  | Ok infos => each (fun i => if reaps cfg i then _ <- perform (XGroupDelConsumer (ci_name i)); Ret tt else Ret tt) infos
  end.

(** ** What the consumer does with what it reads *)

Section Delivery.
Context (cfg : ConsumerConfig).

(** The messages an event brought in. *)
Definition replied (e : event ccall) : list XMessage :=
  match e with
  | Ev c x =>
      match c return answer c -> list XMessage with
      | XReadGroupNew _ | XReadGroupOwn _ _ | XClaim _ _ => fun x => match x with Ok l => l | Err _ => [] end
      | _ => fun _ => []
      end x
  end.
(** Whether it read entries no consumer was given before. *)
Definition isNew (e : event ccall) : bool := match ev_call e with XReadGroupNew _ => true | _ => false end.
(** [l] brought [m] in, by a read of new entries or by one of pending ones. *)
Definition broughtAs (reclaim : bool) (l : list (event ccall)) (m : XMessage) : Prop := exists e, e ∈ l /\ m ∈ replied e /\ isNew e = negb reclaim.
Definition brought (l : list (event ccall)) (m : XMessage) : Prop := exists b, broughtAs b l m.

(** A message is dealt with when it went to the channel, or does not parse and
    was acknowledged and deleted, or has no values any more and was acknowledged. *)
Definition dealt (l : list (event ccall)) (m : XMessage) : Prop :=
  (exists r b, parseMessage m = Some r /\ Ev (Send (mkStreamMsg (x_id m) r b)) true ∈ l) \/
  (parseMessage m = None /\ exists x, Ev (XAckDel (x_id m)) x ∈ l) \/
  (x_empty m = true /\ exists x, Ev (XAck (x_id m)) x ∈ l).
(** The context ended while a relay waited for the channel. *)
Definition stopped (l : list (event ccall)) : Prop := exists s, Ev (Send s) false ∈ l.

(** The entry [id] was listed as pending with another consumer. *)
Definition strandedIn (l : list (event ccall)) (id : string) : Prop :=
  exists start idle count entries p, Ev (XPendingExt start idle count) (Ok entries) ∈ l /\ p ∈ entries /\ pe_id p = id /\ pe_owner p <> cc_name cfg.
(** Not this consumer, with nothing pending, silent for ten timeouts. *)
Definition dead (i : ConsumerInfo) : Prop :=
  ci_name i <> cc_name cfg /\ ci_pending i = 0 /\ wrap64 (10 * claimIdle cfg) <= ci_idle i.

(** Why an event that takes something away, or hands something over, was right. *)
Definition justified (l : list (event ccall)) (e : event ccall) : Prop :=
  match ev_call e with
  | XAckDel id => exists m, brought l m /\ x_id m = id /\ parseMessage m = None
  | XAck id => exists m, brought l m /\ x_id m = id /\ x_empty m = true
  | Send s => exists m, broughtAs (sm_isReclaim s) l m /\ x_id m = sm_id s /\ parseMessage m = Some (sm_relay s)
  | XClaim idle ids => idle = claimIdle cfg /\ forall id, id ∈ ids -> strandedIn l id
  | XGroupDelConsumer n => exists infos, Ev XInfoConsumers (Ok infos) ∈ l /\ exists i, i ∈ infos /\ ci_name i = n /\ dead i
  | _ => True
  end.

(** Everything read is dealt with but for [rest], unless the consumer stopped. *)
Definition accounts (rest : list XMessage) (l : list (event ccall)) : Prop :=
  (forall m, brought l m -> dealt l m \/ stopped l \/ m ∈ rest) /\ (forall e, e ∈ l -> justified l e).

Lemma broughtAs_mono b l e m : broughtAs b l m -> broughtAs b (e :: l) m.
Proof. intros (e' & He & Hm). exists e'. split; [by right|done]. Qed.
Lemma brought_mono l e m : brought l m -> brought (e :: l) m.
Proof. intros (b & Hb). exists b. by apply broughtAs_mono. Qed.
Lemma brought_by l e m : e ∈ l -> m ∈ replied e -> brought l m.
Proof. intros He Hm. exists (negb (isNew e)), e. by rewrite negb_involutive. Qed.
Lemma dealt_mono l e m : dealt l m -> dealt (e :: l) m.
Proof.
  intros [(r & b & H1 & H2)|[(H1 & x & H2)|(H1 & x & H2)]]; [left; exists r, b; split; [done|by right]|right; left; split; [done|]; exists x; by right|right; right; split; [done|]; exists x; by right].
Qed.
Lemma stopped_mono l e : stopped l -> stopped (e :: l).
Proof. intros (s & Hs). exists s. by right. Qed.
Lemma justified_mono l e e' : justified l e' -> justified (e :: l) e'.
Proof.
  unfold justified. destruct (ev_call e'); try done;
    first [ intros (y & Hy & H); exists y; split; [first [by apply brought_mono|by apply broughtAs_mono|by right]|done]
          | intros [Hi Hs]; split; [done|]; intros id Hid; destruct (Hs id Hid) as (st & mi & c & es & p & Hp & H); exists st, mi, c, es, p; split; [by right|done]].
Qed.

Lemma accounts_add rest rest' l e :
  accounts rest l -> (forall m, m ∈ replied e -> m ∈ rest') ->
  (forall m, m ∈ rest -> dealt (e :: l) m \/ stopped (e :: l) \/ m ∈ rest') -> justified l e -> accounts rest' (e :: l).
Proof.
  intros [H1 H2] Hn Hr Hj. split.
  - intros m (b & e' & He & Hm & _). apply elem_of_cons in He as [->|He]; [right; right; by apply Hn|].
    destruct (H1 m) as [Hd|[Hs|Hm']]; [by eapply brought_by|left; by apply dealt_mono|right; left; by apply stopped_mono|by apply Hr].
  - intros e' He. apply elem_of_cons in He as [->|He]; apply justified_mono; [done|by apply H2].
Qed.
(** A call that brings in nothing and takes nothing away. *)
Lemma accounts_quiet rest l e : accounts rest l -> replied e = [] -> justified l e -> accounts rest (e :: l).
Proof. intros H Hr Hj. apply (accounts_add rest); [done| |by right; right|done]. rewrite Hr. intros m []%not_elem_of_nil. Qed.

Lemma deliver_accounts b m rest l :
  accounts (m :: rest) l -> broughtAs b l m -> wp (deliver b m) l (fun l' sent => accounts (if (sent : bool) then rest else []) l' /\ forall m', broughtAs b l m' -> broughtAs b l' m').
Proof.
  intros H Hm. unfold deliver. destruct (parseMessage m) as [r|] eqn:E; cbn.
  - intros sent. split; [|intros m'; apply broughtAs_mono]. apply (accounts_add (m :: rest)); [done|intros ? []%not_elem_of_nil| |exists m; done].
    intros m' Hm'. destruct sent; [|right; left; eexists; left]. apply elem_of_cons in Hm' as [->|Hm']; [|by right; right]. left. left. exists r, b. split; [done|left].
  - intros x. split; [|intros m'; apply broughtAs_mono]. apply (accounts_add (m :: rest)); [done|intros ? []%not_elem_of_nil| |exists m; split; [by exists b|done]].
    intros m' Hm'. apply elem_of_cons in Hm' as [->|Hm']; [|by right; right]. left. right. left. split; [done|]. exists x. left.
Qed.

Lemma deliverAll_accounts b msgs l : accounts msgs l -> Forall (broughtAs b l) msgs -> wp (deliverAll b msgs) l (fun l' _ => accounts [] l').
Proof.
  revert l. induction msgs as [|m msgs IH]; intros l H Hf; cbn [deliverAll]; [done|]. apply Forall_cons in Hf as [Hm Hf]. apply wp_bind. eapply wp_mono; [|by apply deliver_accounts].
  cbn. intros l' [] [H' Hb]; [|done]. apply IH; [done|]. eapply Forall_impl; [exact Hf|]. exact Hb.
Qed.

Lemma ownPage_accounts after msgs l : accounts msgs l -> Forall (broughtAs true l) msgs -> wp (ownPage after msgs) l (fun l' _ => accounts [] l').
Proof.
  revert after l. induction msgs as [|m msgs IH]; intros after l H Hf; cbn [ownPage]; [done|]. apply Forall_cons in Hf as [Hm Hf]. destruct (x_empty m) eqn:E.
  - cbn. intros x. apply IH; [|eapply Forall_impl; [exact Hf|]; intros ?; apply broughtAs_mono].
    apply (accounts_add (m :: msgs)); [done|intros ? []%not_elem_of_nil| |exists m; split; [by exists true|done]].
    intros m' Hm'. apply elem_of_cons in Hm' as [->|Hm']; [|by right; right]. left. right. right. split; [done|]. exists x. left.
  - apply wp_bind. eapply wp_mono; [|by apply deliver_accounts]. cbn. intros l' [] [H' Hb]; [|done]. apply IH; [done|]. eapply Forall_impl; [exact Hf|]. exact Hb.
Qed.

(** A reply opens what it brought. *)
Lemma accounts_reply l e : accounts [] l -> justified l e -> accounts (replied e) (e :: l) /\ Forall (broughtAs (negb (isNew e)) (e :: l)) (replied e).
Proof.
  intros H Hj. split; [apply (accounts_add []); [done|done|intros m []%not_elem_of_nil|done]|]. apply Forall_forall. intros m Hm. exists e. rewrite negb_involutive. split; [left|done].
Qed.

#[local] Arguments readCount : simpl never.
#[local] Arguments pageSize : simpl never.
#[local] Arguments noteLargestEntry : simpl never.

(** Calls that only read or wait. *)
Ltac quiet_calls := repeat first [ intros ? | apply accounts_quiet; [|reflexivity|exact I] ]; try done.

Lemma pageSize_accounts l : accounts [] l -> wp pageSize l (fun l' _ => accounts [] l').
Proof. intros H. unfold pageSize. cbn. quiet_calls. Qed.
Lemma readCount_accounts l : accounts [] l -> wp (readCount cfg) l (fun l' _ => accounts [] l').
Proof. intros H. unfold readCount. cbn. intros n. destruct (n <=? 0); cbn; quiet_calls. Qed.
Lemma noteLargest_accounts b rest n l : accounts rest l -> Forall (broughtAs b l) rest -> wp (noteLargestEntry n) l (fun l' _ => accounts rest l' /\ Forall (broughtAs b l') rest).
Proof.
  intros H Hf. unfold noteLargestEntry. destruct (n <=? 0); [done|]. cbn. intros p x. split; [quiet_calls|]. eapply Forall_impl; [exact Hf|]. intros m Hm. by do 2 apply broughtAs_mono.
Qed.

Lemma consume_accounts fuel l : accounts [] l -> wp (consumeMessagesUntilError fuel cfg) l (fun l' _ => accounts [] l').
Proof.
  revert l. induction fuel as [|fuel IH]; intros l H; cbn [consumeMessagesUntilError]; [done|]. cbn. intros op. assert (H1 : accounts [] (Ev WaitOperable op :: l)) by quiet_calls. destruct op; cbn; [|done].
  apply wp_bind. eapply wp_mono; [|by apply readCount_accounts]. intros l2 n H2. cbn. intros [msgs|e].
  - destruct (accounts_reply l2 (Ev (XReadGroupNew n) (Ok msgs)) H2 I) as [H3 Hf]. apply wp_bind. eapply wp_mono; [|by apply noteLargest_accounts]. cbn. intros l4 _ [H4 Hf4].
    apply wp_bind. eapply wp_mono; [|by apply deliverAll_accounts]. intros l5 [] H5; [by apply IH|done].
  - cbn. intros d. assert (H3 : accounts [] (Ev CtxDone d :: Ev (XReadGroupNew n) (Err e) :: l2)) by quiet_calls. destruct d; [done|]. destruct e; cbn; [by apply IH| |done|done].
    intros made. destruct made; [apply IH|]; quiet_calls.
Qed.

(** The IDs claimed are of entries listed with another owner. *)
Lemma stranded_ids l start idle count entries id :
  Ev (XPendingExt start idle count) (Ok entries) ∈ l ->
  id ∈ map pe_id (List.filter (fun e => negb (String.eqb (pe_owner e) (cc_name cfg))) entries) -> strandedIn l id.
Proof.
  intros He Hid. apply list_elem_of_In, in_map_iff in Hid as (p & <- & Hp). apply filter_In in Hp as [Hp Ho]. exists start, idle, count, entries, p.
  split; [done|]. split; [by apply list_elem_of_In|]. split; [done|]. by apply negb_true_iff, String.eqb_neq in Ho.
Qed.
Lemma claimIdle_accounts start l : accounts [] l ->
  wp (claimIdleFromOtherConsumers cfg start) l (fun l' r => match r with Ok (msgs, _) => accounts msgs l' /\ Forall (broughtAs true l') msgs | Err _ => accounts [] l' end).
Proof.
  intros H. unfold claimIdleFromOtherConsumers. apply wp_bind. eapply wp_mono; [|by apply pageSize_accounts]. intros l1 size H1. cbn. intros [[|first more]|e]; cbn.
  - split; [quiet_calls|done].
  - destruct (map pe_id _) as [|i ids] eqn:E; cbn; [split; [quiet_calls|done]|]. rewrite <- E. clear E i ids. match goal with |- context [Ev (XPendingExt ?a ?b ?c) _ :: _] => set (pend := Ev (XPendingExt a b c) (Ok (first :: more))) end.
    assert (H2 : accounts [] (pend :: l1)) by quiet_calls.
    assert (Hs : forall id, id ∈ map pe_id (List.filter (fun e => negb (String.eqb (pe_owner e) (cc_name cfg))) (first :: more)) -> strandedIn (pend :: l1) id) by (intros id; eapply stranded_ids; left).
    intros [msgs|e]; [apply (accounts_reply _ (Ev (XClaim _ _) (Ok msgs))); done|by apply accounts_quiet].
  - quiet_calls.
Qed.
Lemma claim_accounts fuel start l : accounts [] l -> wp (claimFrom fuel cfg start) l (fun l' _ => accounts [] l').
Proof.
  revert start l. induction fuel as [|fuel IH]; intros start l H; cbn [claimFrom]; [done|]. apply wp_bind. eapply wp_mono; [|by apply claimIdle_accounts].
  cbn. intros l1 [[msgs next]|e] H1.
  - destruct H1 as [H1 Hf]. apply wp_bind. eapply wp_mono; [|by apply deliverAll_accounts]. cbn. intros l2 sent H2. destruct sent; cbn; [|done]. destruct (_ || _); [done|].
    cbn. intros d. destruct d; [quiet_calls|]. apply IH. quiet_calls.
  - destruct e; cbn; try done; quiet_calls.
Qed.
Lemma own_accounts fuel after l : accounts [] l -> wp (ownPending fuel after) l (fun l' _ => accounts [] l').
Proof.
  revert after l. induction fuel as [|fuel IH]; intros after l H; cbn [ownPending]; [done|]. apply wp_bind. eapply wp_mono; [|by apply pageSize_accounts]. intros l1 size H1. cbn.
  intros [[|m msgs]|e]; [quiet_calls| |destruct e; quiet_calls].
  destruct (accounts_reply l1 (Ev (XReadGroupOwn after size) (Ok (m :: msgs))) H1 I) as [H3 Hf].
  apply wp_bind. eapply wp_mono; [|by apply ownPage_accounts]. cbn. intros l2 [after' []] H2; [by apply IH|done].
Qed.

Lemma reaps_dead i : reaps cfg i = true -> dead i.
Proof.
  unfold reaps, dead, reapIdleMultiplier. rewrite !andb_true_iff, !negb_true_iff, String.eqb_neq, Z.eqb_eq, Z.ltb_ge, (Z.mul_comm 10). tauto.
Qed.
Lemma reap_accounts l : accounts [] l -> wp (reapDeadConsumers cfg) l (fun l' _ => accounts [] l').
Proof.
  intros H. unfold reapDeadConsumers. cbn. intros [infos|e]; [|quiet_calls]. set (l1 := Ev XInfoConsumers (Ok infos) :: l).
  eapply wp_mono; [|apply (wp_each _ (fun l' => accounts [] l' /\ Ev XInfoConsumers (Ok infos) ∈ l') (fun _ _ => True)); [split; [quiet_calls|left]| |done]].
  - cbn. intros l' _ [[Ha _] _]. exact Ha.
  - intros i l2 Hi [Ha He]. destruct (reaps cfg i) eqn:E; [|done]. cbn. intros x. split; [|done]. split; [|by right]. apply accounts_quiet; [done|done|]. exists infos. split; [done|]. exists i. by apply reaps_dead in E.
Qed.

(** ** The goroutines of a consumer *)

Inductive Task := TConsume (fuel : nat) | TOwnPending (fuel : nat) (after : string) (isDone : bool) | TReclaim (fuel : nat) | TReap.
Definition task (t : Task) : prog ccall unit :=
  match t with
  | TConsume fuel => _ <- consumeMessagesUntilError fuel cfg; Ret tt
  | TOwnPending fuel after isDone => _ <- deliverOwnPending fuel after isDone; Ret tt
  | TReclaim fuel => _ <- claimPendingMessages fuel cfg; Ret tt
  | TReap => reapDeadConsumers cfg
  end.

Lemma task_accounts t l : accounts [] l -> wp (task t) l (fun l' _ => accounts [] l').
Proof.
  intros H. destruct t as [fuel|fuel after isDone|fuel|]; cbn [task]; [apply wp_bind; eapply wp_mono; [|by apply consume_accounts]; done| |apply wp_bind; eapply wp_mono; [|by apply claim_accounts]; done|by apply reap_accounts].
  apply wp_bind. unfold deliverOwnPending, eachOwnPending. destruct isDone; [done|]. cbn. intros op. assert (H1 : accounts [] (Ev WaitOperable op :: l)) by quiet_calls. destruct op; cbn; [|done].
  apply wp_bind. eapply wp_mono; [|by apply own_accounts]. intros l' [a []] Ha; done.
Qed.

(** C27. Whatever Redis answers, an entry the consumer read is handed to the
    delivery channel, or does not parse and was acknowledged and deleted, or is
    no longer in the stream and was acknowledged, unless the consumer is being
    stopped. It acknowledges and deletes nothing else, hands over only what it
    read, marked a reclaim exactly when it was pending before, claims only entries
    listed as pending with another consumer, at the configured idle time, and
    deletes only consumers it saw listed under another name, with nothing
    pending and silent for ten idle timeouts. *)
Theorem read_entries_are_delivered t l r :
  runs (task t) [] l r ->
  (forall m, brought l m -> dealt l m \/ stopped l) /\ (forall e, e ∈ l -> justified l e).
Proof.
  intros Hr. assert (H : accounts [] l). { eapply (wp_runs (task t) [] l r (fun l' _ => accounts [] l')); [|exact Hr]. apply task_accounts. split; [intros m (b & e & []%not_elem_of_nil & _)|intros e []%not_elem_of_nil]. }
  destruct H as [H1 H2]. split; [|done]. intros m Hm. destruct (H1 m Hm) as [?|[?|[]%not_elem_of_nil]]; tauto.
Qed.
End Delivery.

(** A read asks for at least one entry and at most a batch; a page never for
    none. *)
Lemma readCountOf_bounds largest bytes batch : 1 <= batch -> 1 <= readCountOf largest bytes batch <= batch.
Proof. intros H. unfold readCountOf. destruct (largest <=? 0); lia. Qed.
Lemma pageSizeOf_bounds largest : 1 <= pageSizeOf largest <= pendingPageSize.
Proof. unfold pageSizeOf, pendingPageSize. destruct (largest <=? 0); lia. Qed.

(** The next ID goes past the last of a page, but for the last sequence number
    of all. *)
Example nextStreamID_steps : nextStreamID "1700000000000-9" = "1700000000000-10" /\ nextStreamID "5-18446744073709551615" = "5-0".
Proof. vm_compute. done. Qed.

(** ** A page of three: a relay, an entry that does not parse, and the end of the
    context *)

Module ConsumerExample.
Definition cfg1 : ConsumerConfig := mkConsumerConfig "me" 100 30000.
Definition good : XMessage := mkX "1-0" false (Some "").
Definition bad : XMessage := mkX "1-1" false None.
Definition late : XMessage := mkX "1-2" false (Some "").
Definition handler (c : ccall) (sends : nat) : nat * answer c :=
  match c as c return nat * answer c with
  | CtxDone => (sends, false) | WaitOperable => (sends, true) | EnsureGroup => (sends, true)
  | LoadLargest => (sends, 100) | StoreLargest _ => (sends, tt) | LoadChannelBytes => (sends, 0)
  | XReadGroupNew _ => (sends, Ok [good; bad; late]) | XReadGroupOwn _ _ => (sends, Ok []) | XPendingExt _ _ _ => (sends, Ok [])
  | XClaim _ _ => (sends, Ok []) | XAckDel _ => (sends, true) | XAck _ => (sends, true) | XInfoConsumers => (sends, Ok [])
  | XGroupDelConsumer _ => (sends, Ok 0) | Send _ => (S sends, Nat.eqb sends 0)
  end.
Definition ran : nat * list (event ccall) * unit := interp handler (task cfg1 (TConsume 3)) 0%nat [].

Lemma ran_runs : runs (task cfg1 (TConsume 3)) [] (snd (fst ran)) tt.
Proof. apply (interp_runs handler _ 0%nat _ (fst (fst ran))). vm_compute. reflexivity. Qed.
Lemma ran_read : brought (snd (fst ran)) good /\ brought (snd (fst ran)) bad.
Proof. split; (apply (brought_by _ (Ev (XReadGroupNew 100) (Ok [good; bad; late]))); [apply list_elem_of_In; vm_compute; tauto|cbn; rewrite !elem_of_cons; tauto]). Qed.

Lemma read_entries_are_delivered_witness : (dealt (snd (fst ran)) bad \/ stopped (snd (fst ran))) /\ justified cfg1 (snd (fst ran)) (Ev (XAckDel "1-1") true).
Proof.
  destruct (read_entries_are_delivered cfg1 (TConsume 3) _ _ ran_runs) as [H1 H2]. split; [exact (H1 bad (proj2 ran_read))|]. apply H2, list_elem_of_In. vm_compute. tauto.
Defined.
End ConsumerExample.
